(* ===== verification/_CoqProject ===== *)
-Q . S2P
Prelude.v
GoLib.v
Resources.v
Keys.v
Wire.v
Builddef.v
Store.v
Gate.v
Commit.v
LogBuf.v
OutputWriter.v
Trees.v
TreeFacts.v
Cover.v
Paths.v
CoverFacts.v
CoverPrune.v
Sources.v
CoverTerm.v
Frames.v
Sync.v
SyncFacts.v
AmberServer.v
AmberServerFacts.v
AmberStreams.v
Pool.v
PoolFacts.v
LayerStream.v
Stages.v
RunnerJob.v
RunnerFacts.v
Admission.v
Reftrack.v
GcSweep.v
SchedState.v
PullRefs.v
Graph.v
Results.v
Submit.v
GraphFacts.v
SchedInv.v
SchedRec.v
Walk.v
Snapshots.v
Evict.v
SchedSteps.v
SchedSys.v
Demo.v
SchedClaims.v
Watch.v
WatchFacts.v
Diagnose.v
Api.v
ApiFacts.v
BlobCache.v
Image.v
Registry.v
RegistryFacts.v
DiskFs.v
Extract.v
ExtractFacts.v
Client.v
ClientFacts.v
ClientServer.v
Reconn.v
LogTracker.v
LiveView.v
WatchClient.v
BuildTree.v
BuildView.v
BuildViewFacts.v
ContextRoot.v
Sandbox.v
SandboxFacts.v
LocalBuild.v
LocalFacts.v
Recipe.v
RecipeFacts.v
RemoteBuild.v
