(* ===== verification/Prelude.v ===== *)
(** * jobs-iroh: a verification library

    jobs-iroh is a distributed build system. A client submits a build
    definition; the server unfolds it into a graph of stages, queues jobs for
    runners, gates and commits what they report; runners pull inputs from the
    server's content-addressed store, run a stage and push its outputs. This
    library models that core in Rocq and proves what makes it correct.

    ** The parts of the program and their files

    Shared:
    - this file: results as Go's (value, error), a state monad, 64-bit integers,
      stable sorting, tactics;
    - GoLib: the parts of Go's strings, path, sort, hex and strconv in use;
    - Keys, Store: store keys (a third-party type, class [KeyLib]) and the
      reference half of a store (src/amber/ref.go) with the order of its durable
      writes as a journal, so that a crash is a prefix of it; [StoreLib] is the
      object half and the codecs.
    Data and protocol:
    - Resources (src/resources), Wire (src/wire): requirements, the size ladder,
      node names, subjects, message records;
    - Builddef (src/builddef, src/importdef): definitions, pinned descriptions,
      caches, canonical orders;
    - Trees, TreeFacts (src/amber prune, overlay, kptree, storetree, buildfrom,
      src/cover Derive): the covered tree of a build, its KP identity and the
      build-from tree F;
    - Cover, Paths, CoverFacts, CoverPrune, CoverTerm
      (src/cover/cover.go, [Ls] of src/amber/tree.go): the closure walk over
      symbolic links, and pruning to what it covers; Sources
      (src/recipe/sources.go): the paths a recipe declares.
    Server:
    - Gate (src/sched/gate.go), Commit (src/sched/results.go commit,
      src/sched/kp.go, parts of pullrefs.go): which references a result may
      propose and how they are written;
    - SchedState, PullRefs, Graph, Results, Submit (src/sched): the scheduler's
      state and every handler that changes it, in a state monad over an explicit
      heap of nodes; points where the Go code releases its lock are separate
      definitions, so other handlers may run in between;
    - GraphFacts, SchedInv, SchedRec, Walk, Snapshots, Evict,
      SchedSteps, SchedSys, SchedClaims: the invariant of the scheduler, that
      every handler keeps it, and the theorems about reachable states; a run
      interleaves the handlers with other writers, which may replace the whole
      store between two of them (a collector that deletes an output, a push);
      Demo has concrete runs;
    - Watch, WatchFacts (src/sched/submit.go Watch, Delete, runTicker,
      logfold.go Logs, onLogChunk, sched.go Close): subscriptions as channels that
      can be full, closed or closed twice, in every interleaving;
    - Diagnose (src/sched/diagnose.go): failure reports from the durable stream and
      the live graph, with what other goroutines do wherever the lock is free;
    - Api, ApiFacts (src/api, src/serve/apihandler.go, gc.go): frames and
      the requests of the build and the admin protocol;
    - LogBuf (src/sched/logfold.go, failures.go, diagnose.go, src/tailbuf),
      OutputWriter (src/events): bounded buffers;
    - Reftrack, GcSweep (src/reftrack, src/gcsweep): access clocks, pins and the
      sweep, with what others do to the tracker and to the references between any
      two of its deletions.
    Transfer:
    - Frames (src/amberiroh/protocol.go, pack.go): frames and packs in frames;
    - Sync, SyncFacts (src/amberiroh/wantsync.go): the want loop;
    - AmberServer, AmberServerFacts, AmberStreams
      (src/amberiroh/server.go): the store server as concurrent goroutines;
    - Pool, PoolFacts (src/amberclient/pool.go): the client's pool of
      shard connections as interleaved critical sections;
    - Client, ClientFacts, ClientServer (the rest of src/amberclient):
      the client half of an operation, and a push between both halves.
    Recipes:
    - Recipe, RecipeFacts (src/recipe, src/importdef,
      src/builddef/fetcherbuild.go): values, inputs, pinning and results of recipes
      around the interpreter; a map is ranged over in an order that is a
      parameter ([range_of]).
    Runner:
    - Admission (src/runnerd/admission.go, parts of runnerd.go): reservations,
      the fetch sweep and dispatch;
    - Stages (src/runner, src/amber/buildfrom.go): the stage drivers;
    - Sandbox, SandboxFacts (src/sandbox, src/runner/buildexec_linux.go,
      importexec_linux.go, storemount.go, hermeticetc.go): the executors of builds and
      fetches as the list of calls they make of a kernel that may answer anything;
    - RunnerJob, RunnerFacts (src/runnerd/job.go, refwriter.go): one
      job from its message to its result;
    - LocalBuild, LocalFacts (src/runner/localbuild.go, develop_linux.go,
      run_linux.go, artifact.go): builds without a server;
    - Reconn (src/runnerd/sync.go, src/registryd/sync.go): the shared client that
      redials.
    Registry:
    - LayerStream (src/registryd/stream.go): a generated layer as a seekable file;
    - BlobCache (src/registryd/blobcache.go): blob files with interleaved
      writers, the sweep and crashes;
    - Image (src/runner/image.go, ocilayer.go, entrypoint.go): layer tars and images;
    - Registry, RegistryFacts (the rest of src/registryd): requests,
      resolution, assembly, records, restarts.
    Fetchers:
    - DiskFs, Extract, ExtractFacts (src/fetchers/tarextract, src/fetchers/github/extract.go,
      src/runner/fetcher.go): a file system with symbolic links and the three
      extractors of archives.
    Command line:
    - RemoteBuild (src/clientcli/remote.go): the definition of a pushed source and
      the pull of the finished build;
    - ContextRoot (src/clientcli/contextroot.go): the tree a command builds from;
    - LogTracker, LiveView (src/clientcli/logtracker.go, liveview.go): followed
      logs and the redrawn block of a terminal.
    - WatchClient (src/clientcli/remote.go, watchview.go, apiclient.go):
      the client's watch of a build, and from the ticker to the client's verdict;
    - BuildTree, BuildView, BuildViewFacts (src/tui/buildtree.go, buildview.go,
      cmds.go, format.go): the interactive view of a build, its fold of a
      snapshot into a tree, every message it handles and the streams it opens.

    ** What the theorems show

    Scheduler: the invariant of the node graph in every reachable state; a
    result is handled at most once; a done build has its output published, unless
    another writer deleted it since; a
    cancelled request leaves exactly what others want; snapshots and cycle
    detection are exact; between two commits of a node at most four retryable
    results are handled for it. No
    interleaving of watches, follows, ticks and closing panics, and a build that is
    over ends the client's watch with its terminal snapshot, at the first tick that
    finds room in its buffer; a failed request's
    report names its failed nodes; a build client cannot reach the collector,
    forget requests or delete references that are not its own. Commit and gate: the gate is its
    allow-table, a rejected commit writes nothing, and at every crash point of a
    commit whose batch lists closures first (as runners propose it) an
    output has its runtime closure, unless the store had it without before, and
    a cover binding its target. Identity: a KP
    depends on the covered part of a context and on nothing else; the closure
    walk ends, is closed under links, and what it covers can be pruned and
    resolves as before. Pool: bounded, every connection closed exactly once, none
    under a transfer, no wait without a dial in flight. Runner: what an
    attempt proposes passes the gate and keeps the commit's crash safety;
    failures propose nothing; no overcommit. Sandbox: an executed command runs in
    a root whose store is read-only and whose output directory is the one handed
    out, with the old root detached; a remount clears no flag; a child runs the
    configuration its parent was given; executors release what they made, whatever
    fails, but for what a failed removal leaves; the execution ends. Transfer: a transfer that succeeds
    is complete whatever the peer sent, ends with an honest peer, and a push
    commits only complete trees, atomically among pushes; a client's push that
    succeeds was committed, its pull leaves the whole tree and then the reference,
    and both give every stream and reservation back. Garbage collection: a
    sweep deletes only cold references, and never the closure of an output it
    keeps, of a family that is tracked in step and left alone meanwhile.
    Registry: what is served under a digest hashes to it, through crashes and
    restarts; a served image can be pulled; paging through tags is complete.
    Extraction: an archive with nothing named below its links changes nothing
    outside of its directory. Recipes: every import that
    leaves an evaluation is pinned and every emitted one has a fetcher; values
    survive the way to a plugin and back, but for the order of dicts. Local builds:
    at every moment outputs have their closure, but for those the store began with
    alone; nesting without end needs ever new definitions; the identity of
    a build is the one the server computes. Clients: a redialled client is closed once nobody
    uses it; a command's context root is the nearest repository; what a terminal
    shows of a log is the log, line by line. The build view panics in no order of
    messages, shows one stream of the row it names and leaves no stream open; its
    tree has exactly the paths through expanded rows, whatever a snapshot claims.
    Some theorems record defects: a pin queued before its inputs, a fetcher cycle
    that is not detected, a full log fold that loses new logs, a pin that
    orphans its closure, a commit that a sweep orphans, a node done without output, a stream that leaks, a
    missing source that is accepted, a descriptor left open, a link that dangles after pruning, an
    archive that writes outside of its directory, an output pulled without its
    closure.

    ** Fuel and bounds

    A function with a [fuel] argument returns [None] when it runs out. Graph
    walks run with fuel one above the number of allocated nodes, and the walks'
    theorems prove that enough ([cycleChain_exact], [snapshot_exact], every
    handler of SchedSteps returns [Some]). [Receive] takes as many rounds as it
    is given; [receive_terminates] bounds them. [pruneDir] and the overlay take a
    depth of the stored tree as fuel ([prune_total] shows it enough), and
    [walk_terminates] bounds the fuel of the closure walk; the resolution of a
    path recurses on its link budget. Loops over lists recurse on the list.
    Integers are [Z] with Go's wrap-around written out ([i64], [u64]) where
    arithmetic can overflow.

    ** Assumptions

    They are fields of the classes above (documented behaviour of third-party
    code: keys parse what they print, a store keeps what it accepted, codecs
    decode what they encode) or hypotheses of single theorems: request ids drawn
    at random are fresh, the batch of a commit lists closures before outputs.
    Theorems about crash points take the reference store's single writes as atomic
    and in order. The store server's objects (AmberServer) and the registry's only
    grow: objects the collector reaps during a transfer are not modelled there
    (the store library's write barrier protects what is being ingested).

    ** Not modelled

    CBOR codecs, the object store and pack format (third-party); the kernel
    behind the sandbox (its answers are a parameter), recipe evaluation by the Starlark interpreter,
    ingestion from disk (operating system, interpreter); NATS and QUIC
    transports, binding endpoints and discovery; flags, commands and interactive
    screens, HTTP itself, the fetchers' downloads and bootstrap archives; logging,
    metrics and the exact wording of errors. *)

From stdpp Require Export base option list gmap strings numbers sorting.
From Stdlib Require Export ZArith Lia.

Set Default Proof Using "Type".

(** ** Notation scope of the development *)

Declare Scope jobs_scope.
Delimit Scope jobs_scope with jobs.

Open Scope jobs_scope.

(** Go strings and byte slices are byte sequences, and both are modelled by
    [string], a sequence of 8-bit [ascii]s; [+:+] is their concatenation. *)

(** ** Results: a Go [(T, error)] pair *)

Inductive result (E A : Type) : Type :=
| Ok (a : A)
| Err (e : E).
Arguments Ok {E A} a.
Arguments Err {E A} e.

Definition result_bind {E A B} (k : A → result E B) (m : result E A) : result E B :=
  match m with Ok a => k a | Err e => Err e end.

Global Instance result_mret {E} : MRet (result E) := λ A a, Ok a.
Global Instance result_mbind {E} : MBind (result E) := λ A B k m, result_bind k m.

Definition is_ok {E A} (r : result E A) : bool :=
  match r with Ok _ => true | Err _ => false end.

Global Instance result_eq_dec {E A} `{EqDecision E, EqDecision A} : EqDecision (result E A).
Proof. solve_decision. Defined.

Lemma bind_Ok_inv {E A B} (m : result E A) (k : A → result E B) b :
  (m ≫= k) = Ok b → ∃ a, m = Ok a ∧ k a = Ok b.
Proof. destruct m; simpl; intros H; [eauto|discriminate]. Qed.

(** Run a fallible operation on every element, stopping at the first error:
    the Go loop [for _, x := range l { if err := f(x); err != nil { return err } }]. *)
Fixpoint for_each {E A} (f : A → result E unit) (l : list A) : result E unit :=
  match l with
  | [] => Ok tt
  | x :: l => f x ≫= λ _, for_each f l
  end.

Lemma for_each_Ok {E A} (f : A → result E unit) l :
  for_each f l = Ok tt ↔ Forall (λ x, f x = Ok tt) l.
Proof.
  induction l as [|x l IH]; simpl.
  - split; [constructor | done].
  - rewrite Forall_cons, <- IH. destruct (f x) as [[]|e]; simpl; naive_solver.
Qed.

(** ** State monad with fuel: [None] is "out of fuel", never a Go outcome *)

Definition M (S A : Type) : Type := S → option (A * S).

Global Instance M_ret {S} : MRet (M S) := λ A a s, Some (a, s).
Global Instance M_bind {S} : MBind (M S) := λ A B k m s,
  match m s with Some (a, s') => k a s' | None => None end.

Definition getS {S} : M S S := λ s, Some (s, s).
Definition modS {S} (f : S → S) : M S unit := λ s, Some (tt, f s).
Definition out_of_fuel {S A} : M S A := λ _, None.

Fixpoint mfor {S A} (f : A → M S unit) (l : list A) : M S unit :=
  match l with
  | [] => mret tt
  | x :: l => f x ≫= λ _, mfor f l
  end.

(** A computation preserves an invariant and relates its end states. *)
Definition keeps {S A} (R : S → S → Prop) (m : M S A) : Prop :=
  ∀ s a s', m s = Some (a, s') → R s s'.

Section Keeps.
Context {S : Type} (R : S → S → Prop) `{!Reflexive R, !Transitive R}.

Lemma keeps_ret {A} (a : A) : keeps R (mret a).
Proof using Type*. intros s b s' [= <- <-]. reflexivity. Qed.

Lemma keeps_get : keeps R (getS (S := S)).
Proof using Type*. intros s b s' [= <- <-]. reflexivity. Qed.

Lemma keeps_fuel {A} : keeps R (out_of_fuel (S := S) (A := A)).
Proof using Type. intros s b s' [=]. Qed.

Lemma keeps_mod (f : S → S) : (∀ s, R s (f s)) → keeps R (modS f).
Proof using Type. intros H s b s' [= <- <-]. apply H. Qed.

Lemma keeps_bind {A B} (m : M S A) (k : A → M S B) :
  keeps R m → (∀ a, keeps R (k a)) → keeps R (m ≫= k).
Proof using Type*.
  intros Hm Hk s b s' H. unfold mbind, M_bind in H.
  destruct (m s) as [[a s1]|] eqn:E; [|discriminate].
  etransitivity; [eapply Hm, E | eapply Hk, H].
Qed.

Lemma keeps_for {A} (f : A → M S unit) l :
  (∀ a, keeps R (f a)) → keeps R (mfor f l).
Proof using Type*.
  intros Hf. induction l as [|x l IH]; simpl; [apply keeps_ret|].
  apply keeps_bind; auto.
Qed.
End Keeps.

Lemma M_bind_inv {S A B} (m : M S A) (k : A → M S B) s b s' :
  (m ≫= k) s = Some (b, s') →
  ∃ a s1, m s = Some (a, s1) ∧ k a s1 = Some (b, s').
Proof.
  unfold mbind, M_bind. destruct (m s) as [[a s1]|]; [eauto|discriminate].
Qed.

(** ** Machine integers *)

Section Ints.
Local Open Scope Z_scope.

(** Go's [uint64] and [int64] wrap around. *)
Definition u64 (z : Z) : Z := z mod 2 ^ 64.
Definition i64 (z : Z) : Z := (z + 2 ^ 63) mod 2 ^ 64 - 2 ^ 63.

Definition in_i64 (z : Z) : Prop := - 2 ^ 63 <= z < 2 ^ 63.
Definition in_u64 (z : Z) : Prop := 0 <= z < 2 ^ 64.

Lemma i64_id z : in_i64 z → i64 z = z.
Proof. unfold in_i64, i64. intros. rewrite Z.mod_small; lia. Qed.

Lemma u64_id z : in_u64 z → u64 z = z.
Proof. unfold in_u64, u64. intros. apply Z.mod_small; lia. Qed.

Lemma i64_range z : in_i64 (i64 z).
Proof.
  unfold in_i64, i64.
  pose proof (Z.mod_pos_bound (z + 2 ^ 63) (2 ^ 64) ltac:(lia)). lia.
Qed.

Lemma u64_range z : in_u64 (u64 z).
Proof. unfold in_u64, u64. apply Z.mod_pos_bound. lia. Qed.
End Ints.

(** Decimal rendering of an integer (Go's [%d] and [strconv.Itoa]). *)
Definition itoa (z : Z) : string := pretty.pretty z.

(** ** Sorting

    Go's [sort.SliceStable] and, for a total antisymmetric order,
    [sort.Strings] and [sort.Slice]: insertion sort is the reference. *)

Section Sorting.
Context {A : Type} (leb : A → A → bool).

Fixpoint sinsert (x : A) (l : list A) : list A :=
  match l with
  | [] => [x]
  | y :: l' => if leb x y then x :: y :: l' else y :: sinsert x l'
  end.

Definition ssort (l : list A) : list A := foldr sinsert [] l.

Lemma sinsert_perm x l : sinsert x l ≡ₚ x :: l.
Proof.
  induction l as [|y l IH]; simpl; [done|].
  destruct (leb x y); [done|]. rewrite IH. constructor.
Qed.

Lemma ssort_perm l : ssort l ≡ₚ l.
Proof.
  induction l as [|x l IH]; simpl; [done|]. by rewrite sinsert_perm, IH.
Qed.

Lemma elem_of_ssort x l : x ∈ ssort l ↔ x ∈ l.
Proof. by rewrite ssort_perm. Qed.

Context (Htot : ∀ x y, leb x y = true ∨ leb y x = true).
Context (Htrans : ∀ x y z, leb x y = true → leb y z = true → leb x z = true).

Lemma sinsert_sorted x l :
  StronglySorted (λ a b, leb a b = true) l →
  StronglySorted (λ a b, leb a b = true) (sinsert x l).
Proof using Htot Htrans.
  induction 1 as [|y l Hs IH Hall]; simpl; [repeat constructor|].
  destruct (leb x y) eqn:E.
  - constructor; [by constructor|]. constructor; [done|].
    eapply Forall_impl; [exact Hall|]; simpl; eauto.
  - constructor; [done|]. rewrite sinsert_perm. constructor; [|done].
    destruct (Htot x y); congruence.
Qed.

Lemma ssort_sorted l : StronglySorted (λ a b, leb a b = true) (ssort l).
Proof using Htot Htrans.
  induction l; simpl; [constructor | by apply sinsert_sorted].
Qed.
End Sorting.

(** Two sorted permutations of each other are equal, for an antisymmetric order. *)
Lemma sorted_perm_eq {A} (R : A → A → Prop) l1 l2 :
  (∀ x y, R x y → R y x → x = y) →
  StronglySorted R l1 → StronglySorted R l2 → l1 ≡ₚ l2 → l1 = l2.
Proof.
  intros Hanti Hs. revert l2.
  induction Hs as [|x l Hs IH Hall]; intros l2 Hs2 Hp.
  - by apply Permutation_nil_l in Hp.
  - destruct l2 as [|y l2]; [by apply Permutation_nil_r in Hp|].
    inversion Hs2 as [|?? Hs2' Hall2]; subst.
    assert (x = y) as ->.
    { assert (Hx : x ∈ y :: l2) by (rewrite <- Hp; left).
      assert (Hy : y ∈ x :: l) by (rewrite Hp; left).
      apply elem_of_cons in Hx as [->|Hx]; [done|].
      apply elem_of_cons in Hy as [->|Hy]; [done|].
      rewrite Forall_forall in Hall, Hall2. eauto. }
    f_equal. apply IH; [done|]. by apply Permutation_cons_inv in Hp.
Qed.

(** ** Automation *)

Create HintDb jobs.
Create Rewrite HintDb jobs.

#[export] Hint Resolve keeps_ret keeps_get keeps_fuel : jobs.

(** Case analysis on the scrutinee of a match in the goal or a hypothesis. *)
Ltac case_match_all :=
  repeat match goal with
  | H : context [match ?x with _ => _ end] |- _ =>
      let E := fresh "E" in destruct x eqn:E; simplify_eq/=
  | |- context [match ?x with _ => _ end] =>
      let E := fresh "E" in destruct x eqn:E; simplify_eq/=
  end.

(** Split a monadic step [ (m ≫= k) s = Some _ ] into its two halves. *)
Ltac inv_bind H :=
  let a := fresh "a" in let s1 := fresh "s" in
  let H1 := fresh H in
  apply M_bind_inv in H; destruct H as (a & s1 & H1 & H).
