(* ===== verification/GoLib.v ===== *)
(** * The parts of Go's standard library the code uses

    [strings], [path], [encoding/hex] and [strconv] functions on byte
    strings, as the packages under src/ call them, with the lemmas the
    components share. *)
From S2P Require Import Prelude.
From Stdlib Require Import Ascii.
Local Open Scope string_scope.

(** ** Strings *)

Local Arguments String.append !_ _ / : simpl nomatch.

Definition HasPrefix (s p : string) : bool := String.prefix p s.

(** [strings.CutPrefix]: the rest after [p], or [None] when [p] is no prefix. *)
Fixpoint CutPrefix (s p : string) : option string :=
  match p, s with
  | EmptyString, _ => Some s
  | String a p', String b s' => if ascii_dec a b then CutPrefix s' p' else None
  | String _ _, EmptyString => None
  end.

(** [strings.Cut] with a one-byte separator. *)
Fixpoint Cut (s : string) (c : ascii) : option (string * string) :=
  match s with
  | EmptyString => None
  | String a s' =>
      if ascii_dec a c then Some (EmptyString, s')
      else match Cut s' c with
           | Some (x, y) => Some (String a x, y)
           | None => None
           end
  end.

Fixpoint ContainsByte (s : string) (c : ascii) : bool :=
  match s with
  | EmptyString => false
  | String a s' => (if ascii_dec a c then true else false) || ContainsByte s' c
  end.

(** [strings.Split] with a one-byte separator: never the empty list. *)
Fixpoint Split (s : string) (c : ascii) : list string :=
  match s with
  | EmptyString => [EmptyString]
  | String a s' =>
      if ascii_dec a c then EmptyString :: Split s' c
      else match Split s' c with
           | x :: xs => String a x :: xs
           | [] => [String a EmptyString]
           end
  end.

Fixpoint Join (l : list string) (sep : string) : string :=
  match l with
  | [] => ""
  | [x] => x
  | x :: xs => x +:+ sep +:+ Join xs sep
  end.

(** [strings.ReplaceAll] of one byte by another. *)
Fixpoint ReplaceByte (s : string) (c d : ascii) : string :=
  match s with
  | EmptyString => EmptyString
  | String a s' => String (if ascii_dec a c then d else a) (ReplaceByte s' c d)
  end.

Fixpoint all_bytes (P : ascii → bool) (s : string) : bool :=
  match s with
  | EmptyString => true
  | String a s' => P a && all_bytes P s'
  end.

Lemma append_assoc (a b c : string) : (a +:+ b) +:+ c = a +:+ b +:+ c.
Proof. induction a; simpl; congruence. Qed.

Lemma append_empty_r (a : string) : a +:+ "" = a.
Proof. induction a; simpl; congruence. Qed.

Lemma append_inj_l (p a b : string) : p +:+ a = p +:+ b → a = b.
Proof. induction p; simpl; [done|]. intros [=]. auto. Qed.

Lemma CutPrefix_Some s p r : CutPrefix s p = Some r ↔ s = p +:+ r.
Proof.
  revert s r. induction p as [|a p IH]; intros [|b s] r; simpl; try naive_solver.
  destruct (ascii_dec a b); [|naive_solver]. rewrite IH. naive_solver.
Qed.

Lemma CutPrefix_app p r : CutPrefix (p +:+ r) p = Some r.
Proof. by apply CutPrefix_Some. Qed.

Lemma HasPrefix_CutPrefix s p : HasPrefix s p = true ↔ is_Some (CutPrefix s p).
Proof.
  unfold HasPrefix. revert s.
  induction p as [|a p IH]; intros [|b s]; simpl; unfold is_Some in *.
  1-3: split; [try discriminate; eauto | intros [? [=]]; done].
  destruct (ascii_dec a b); [apply IH|]. split; [done | intros [? [=]]].
Qed.

Lemma HasPrefix_iff s p : HasPrefix s p = true ↔ ∃ r, s = p +:+ r.
Proof.
  rewrite HasPrefix_CutPrefix. unfold is_Some.
  setoid_rewrite CutPrefix_Some. done.
Qed.

Lemma HasPrefix_app p r : HasPrefix (p +:+ r) p = true.
Proof. apply HasPrefix_iff. eauto. Qed.

Lemma Cut_Some s c x y :
  Cut s c = Some (x, y) ↔ s = x +:+ String c y ∧ ContainsByte x c = false.
Proof.
  revert x y. induction s as [|a s IH]; intros x y; simpl.
  { split; [done|]. intros [H _]. by destruct x. }
  destruct (ascii_dec a c) as [Hac|Hne].
  - split.
    + intros [= <- <-]. simpl. by rewrite Hac.
    + intros [H Hx]. destruct x as [|b x]; simpl in *; [congruence|].
      injection H as <- ->. by destruct (ascii_dec a c).
  - assert (Hx : ∀ b x', String a s = String b x' +:+ String c y →
                 ContainsByte (String b x') c = false → Cut s c = Some (x', y)).
    { simpl. intros b x' [= <- Hs] Hc. apply IH. split; [done|].
      by destruct (ascii_dec a c). }
    split.
    + destruct (Cut s c) as [[x' y']|] eqn:E; [|done]. intros [= <- <-].
      destruct (proj1 (IH x' y') eq_refl) as [Hs Hc]. split; [simpl; by f_equal|].
      simpl. by destruct (ascii_dec a c).
    + intros [H Hc]. destruct x as [|b x]; [simpl in H; congruence|].
      rewrite (Hx b x H Hc). injection H as ->. done.
Qed.

Lemma all_bytes_app P a b : all_bytes P (a +:+ b) = all_bytes P a && all_bytes P b.
Proof. induction a; simpl; [done|]. rewrite IHa. apply andb_assoc. Qed.

Lemma ContainsByte_all_bytes s c P :
  all_bytes P s = true → P c = false → ContainsByte s c = false.
Proof.
  induction s as [|a s IH]; simpl; [done|]. intros [Ha Hs]%andb_true_iff Hc.
  rewrite IH by done. destruct (ascii_dec a c); [congruence|done].
Qed.

Lemma Split_nonempty s c : Split s c ≠ [].
Proof.
  destruct s; simpl; [done|]. destruct (ascii_dec a c); [done|].
  by destruct (Split s c).
Qed.

(** Byte-wise string order, Go's [<] and [<=] on strings. *)
Definition str_leb (a b : string) : bool := String.leb a b.
Definition str_ltb (a b : string) : bool := String.ltb a b.

Lemma str_leb_total a b : str_leb a b = true ∨ str_leb b a = true.
Proof.
  unfold str_leb, String.leb. rewrite (String.compare_antisym b a).
  destruct (String.compare a b); simpl; auto.
Qed.

Lemma ascii_compare_trans_lt a b c :
  Ascii.compare a b = Lt → Ascii.compare b c = Lt → Ascii.compare a c = Lt.
Proof. unfold Ascii.compare. rewrite !N.compare_lt_iff. lia. Qed.

Lemma ascii_compare_refl a : Ascii.compare a a = Eq.
Proof. unfold Ascii.compare. by apply N.compare_eq_iff. Qed.

Lemma string_compare_le_trans a b c :
  String.compare a b ≠ Gt → String.compare b c ≠ Gt → String.compare a c ≠ Gt.
Proof.
  revert b c. induction a as [|x a IH]; intros [|y b] [|z c]; simpl; try done.
  destruct (Ascii.compare x y) eqn:E1; try done.
  - apply Ascii.compare_eq_iff in E1 as ->.
    destruct (Ascii.compare y z) eqn:E2; try done. apply IH.
  - intros _. destruct (Ascii.compare y z) eqn:E2; try done.
    + apply Ascii.compare_eq_iff in E2 as <-. by rewrite E1.
    + by rewrite (ascii_compare_trans_lt x y z).
Qed.

Lemma str_leb_compare a b : str_leb a b = true ↔ String.compare a b ≠ Gt.
Proof. unfold str_leb, String.leb. by destruct (String.compare a b). Qed.

Lemma str_leb_trans a b c : str_leb a b = true → str_leb b c = true → str_leb a c = true.
Proof. rewrite !str_leb_compare. apply string_compare_le_trans. Qed.

Lemma str_leb_antisym a b : str_leb a b = true → str_leb b a = true → a = b.
Proof.
  rewrite !str_leb_compare. intros H1 H2. apply String.compare_eq_iff.
  rewrite (String.compare_antisym b a) in H2.
  destruct (String.compare a b); simpl in *; done.
Qed.

(** [sort.Strings]. *)
Definition SortStrings : list string → list string := ssort str_leb.

Lemma SortStrings_sorted l : StronglySorted (λ a b, str_leb a b = true) (SortStrings l).
Proof. apply ssort_sorted; [apply str_leb_total | apply str_leb_trans]. Qed.

Lemma SortStrings_perm l : SortStrings l ≡ₚ l.
Proof. apply ssort_perm. Qed.

(** The sorted list of a set of strings depends on the set only, so ranging
    over a Go map and sorting the names is deterministic. *)
Lemma SortStrings_perm_eq l1 l2 : l1 ≡ₚ l2 → SortStrings l1 = SortStrings l2.
Proof.
  intros Hp. eapply sorted_perm_eq; [apply str_leb_antisym | apply SortStrings_sorted..|].
  by rewrite !SortStrings_perm.
Qed.

#[export] Hint Rewrite append_assoc append_empty_r : jobs.
#[export] Hint Resolve HasPrefix_app CutPrefix_app SortStrings_perm SortStrings_sorted : jobs.

(** ** Paths: [path.Clean], [path.Join], [path.Dir] *)

Definition slash : ascii := "/"%char.

(** The elements of a cleaned path, as [path.Clean] rewrites them: empty and
    [.] elements vanish, [..] removes the element before it, and a leading
    [..] survives only in a relative path. [out] is the reversed output. *)
Fixpoint clean_segs (rooted : bool) (out : list string) (segs : list string) : list string :=
  match segs with
  | [] => rev out
  | s :: segs' =>
      if String.eqb s "" || String.eqb s "." then clean_segs rooted out segs'
      else if String.eqb s ".." then
        match out with
        | o :: out' =>
            if String.eqb o ".." then clean_segs rooted (".." :: out) segs'
            else clean_segs rooted out' segs'
        | [] => if rooted then clean_segs rooted [] segs'
                else clean_segs rooted [".."] segs'
        end
      else clean_segs rooted (s :: out) segs'
  end.

Definition is_rooted (p : string) : bool := HasPrefix p "/".

Definition path_Clean (p : string) : string :=
  let segs := clean_segs (is_rooted p) [] (Split p slash) in
  if is_rooted p then "/" +:+ Join segs "/"
  else match segs with [] => "." | _ => Join segs "/" end.

(** [path.Join(a, b)]: empty elements are ignored. *)
Definition path_Join (a b : string) : string :=
  match a, b with
  | EmptyString, EmptyString => ""
  | EmptyString, _ => path_Clean b
  | _, EmptyString => path_Clean a
  | _, _ => path_Clean (a +:+ "/" +:+ b)
  end.

(** [path.Dir]: everything up to the last slash, cleaned. *)
Definition path_Dir (p : string) : string :=
  let segs := Split p slash in
  match rev segs with
  | [] | [_] => path_Clean ""
  | _ :: r => path_Clean (Join (rev r) "/" +:+ "/")
  end.

(** [strings.Trim(path.Clean("/"+p), "/")] as the tree builders use it, kept
    as the list of its elements: [strings.Split(p, "/")] of a non-empty result. *)
Definition rooted_segs (p : string) : list string :=
  clean_segs true [] (Split ("/" +:+ p) slash).

Definition plain_seg (s : string) : Prop := s ≠ "" ∧ s ≠ "." ∧ s ≠ "..".

Lemma clean_segs_rooted_plain segs : ∀ out,
  Forall plain_seg out → Forall plain_seg (clean_segs true out segs).
Proof.
  induction segs as [|s segs IH]; intros out Hout; simpl.
  - by apply Forall_rev.
  - destruct (String.eqb_spec s ""), (String.eqb_spec s "."); simpl; auto.
    destruct (String.eqb_spec s "..") as [->|Hs].
    + destruct out as [|o out]; [auto|].
      inversion Hout as [|?? (?&?&Ho) ?]; subst.
      destruct (String.eqb_spec o ".."); [done|auto].
    + apply IH. constructor; [done|auto].
Qed.

(** A rooted clean path never escapes: no element of it is [..]. *)
Lemma rooted_segs_plain p : Forall plain_seg (rooted_segs p).
Proof. by apply clean_segs_rooted_plain. Qed.

Lemma clean_segs_plain_id r segs : ∀ out,
  Forall plain_seg segs → clean_segs r out segs = (rev out ++ segs)%list.
Proof.
  induction segs as [|s segs IH]; intros out Hs; simpl; [by rewrite app_nil_r|].
  inversion Hs as [|?? (?&?&?) ?]; subst.
  destruct (String.eqb_spec s ""), (String.eqb_spec s "."), (String.eqb_spec s ".."); try done.
  simpl. rewrite IH by done. simpl. by rewrite <- (assoc_L (++)).
Qed.

(** ** Hexadecimal *)

Definition hex_digit (n : N) : ascii :=
  if (n <? 10)%N then ascii_of_N (48 + n) else ascii_of_N (87 + n).

Definition hex_val (a : ascii) : option N :=
  let n := N_of_ascii a in
  if (48 <=? n)%N && (n <=? 57)%N then Some (n - 48)%N
  else if (97 <=? n)%N && (n <=? 102)%N then Some (n - 87)%N
  else if (65 <=? n)%N && (n <=? 70)%N then Some (n - 55)%N
  else None.

(** [hex.EncodeToString]: lower case. *)
Fixpoint hex_encode (s : string) : string :=
  match s with
  | EmptyString => EmptyString
  | String a s' =>
      let n := N_of_ascii a in
      String (hex_digit (n / 16)) (String (hex_digit (n mod 16)) (hex_encode s'))
  end.

(** [hex.DecodeString]: either case, even length only. *)
Fixpoint hex_decode (s : string) : option string :=
  match s with
  | EmptyString => Some EmptyString
  | String a (String b s') =>
      match hex_val a, hex_val b, hex_decode s' with
      | Some x, Some y, Some r => Some (String (ascii_of_N (16 * x + y)) r)
      | _, _, _ => None
      end
  | String _ EmptyString => None
  end.

Lemma hex_val_digit (a : ascii) :
  hex_val (hex_digit (N_of_ascii a / 16)) = Some (N_of_ascii a / 16)%N ∧
  hex_val (hex_digit (N_of_ascii a mod 16)) = Some (N_of_ascii a mod 16)%N.
Proof. destruct a as [[] [] [] [] [] [] [] []]; vm_compute; done. Qed.

Lemma hex_decode_encode s : hex_decode (hex_encode s) = Some s.
Proof.
  induction s as [|a s IH]; simpl; [done|].
  destruct (hex_val_digit a) as [-> ->]. rewrite IH. do 2 f_equal.
  destruct a as [[] [] [] [] [] [] [] []]; reflexivity.
Qed.

Lemma hex_encode_inj s t : hex_encode s = hex_encode t → s = t.
Proof.
  intros H. assert (Some s = Some t) as [= ->]; [|done].
  by rewrite <- !hex_decode_encode, H.
Qed.

(** The bytes of a lower-case hex string: no separator byte is among them. *)
Definition is_hex_byte (a : ascii) : bool :=
  let n := N_of_ascii a in
  ((48 <=? n)%N && (n <=? 57)%N) || ((97 <=? n)%N && (n <=? 102)%N).

Lemma hex_encode_bytes s : all_bytes is_hex_byte (hex_encode s) = true.
Proof.
  induction s as [|a s IH]; simpl; [done|]. rewrite IH, andb_true_r.
  destruct a as [[] [] [] [] [] [] [] []]; reflexivity.
Qed.

#[export] Hint Resolve hex_decode_encode hex_encode_bytes rooted_segs_plain : jobs.

(** ** Numbers *)

(** [strconv.ParseInt(s, 10, 64)]. *)
Fixpoint parse_digits (s : string) (acc : Z) : option Z :=
  match s with
  | EmptyString => Some acc
  | String a s' =>
      let n := Z.of_N (N_of_ascii a) in
      if (48 <=? n)%Z && (n <=? 57)%Z then parse_digits s' (10 * acc + (n - 48))%Z
      else None
  end.

Definition ParseInt (s : string) : option Z :=
  let '(neg, digits) :=
    match s with
    | String "-" r => (true, r)
    | String "+" r => (false, r)
    | _ => (false, s)
    end in
  match digits with
  | EmptyString => None
  | _ =>
      match parse_digits digits 0 with
      | Some v =>
          let v := if neg : bool then (- v)%Z else v in
          if (- 2 ^ 63 <=? v)%Z && (v <? 2 ^ 63)%Z then Some v else None
      | None => None
      end
  end.

Lemma ParseInt_range s v : ParseInt s = Some v → in_i64 v.
Proof.
  unfold ParseInt, in_i64. intros H.
  repeat (case_match; try discriminate; simplify_eq/=);
    repeat match goal with H : _ && _ = true |- _ => apply andb_true_iff in H as [?%Z.leb_le ?%Z.ltb_lt] end;
    lia.
Qed.

(** [strings.TrimSpace]: the UTF-8 encodings of the Unicode white space. *)
Definition byte (n : N) : ascii := ascii_of_N n.
Definition bytes (l : list N) : string := foldr (λ n s, String (byte n) s) EmptyString l.

Definition space_encodings : list string := (
  [bytes [9%N]; bytes [10%N]; bytes [11%N]; bytes [12%N]; bytes [13%N]; bytes [32%N];
   bytes [194; 133]%N; bytes [194; 160]%N; bytes [225; 154; 128]%N] ++
  ((λ n, bytes [226; 128; n]%N) <$> [128; 129; 130; 131; 132; 133; 134; 135; 136; 137; 138; 168; 169; 175]%N) ++
  [bytes [226; 129; 159]%N; bytes [227; 128; 128]%N])%list.

Definition cut_any (s : string) (ps : list string) : option string :=
  foldr (λ p acc, match CutPrefix s p with Some r => Some r | None => acc end) None ps.

Fixpoint trim_left_fuel (n : nat) (s : string) (ps : list string) : string :=
  match n with
  | O => s
  | S n => match cut_any s ps with Some r => trim_left_fuel n r ps | None => s end
  end.

Definition trim_left (s : string) (ps : list string) : string :=
  trim_left_fuel (String.length s) s ps.

Definition str_rev (s : string) : string := String.string_of_list_ascii (rev (String.list_ascii_of_string s)).

Definition TrimSpace (s : string) : string :=
  let l := trim_left s space_encodings in
  str_rev (trim_left (str_rev l) (str_rev <$> space_encodings)).

Definition HasSuffix (s p : string) : bool := HasPrefix (str_rev s) (str_rev p).

Definition TrimSuffix (s p : string) : string :=
  match CutPrefix (str_rev s) (str_rev p) with
  | Some r => str_rev r
  | None => s
  end.

(** ** Suffixes *)

Lemma list_ascii_app a b : String.list_ascii_of_string (a +:+ b) = (String.list_ascii_of_string a ++ String.list_ascii_of_string b)%list.
Proof. induction a; simpl; congruence. Qed.

Lemma string_of_list_app a b : String.string_of_list_ascii (a ++ b)%list = String.string_of_list_ascii a +:+ String.string_of_list_ascii b.
Proof. induction a; simpl; congruence. Qed.

Lemma str_rev_app a b : str_rev (a +:+ b) = str_rev b +:+ str_rev a.
Proof. unfold str_rev. by rewrite list_ascii_app, rev_app_distr, string_of_list_app. Qed.

Lemma str_rev_rev a : str_rev (str_rev a) = a.
Proof. unfold str_rev. by rewrite String.list_ascii_of_string_of_list_ascii, rev_involutive, String.string_of_list_ascii_of_string. Qed.

Lemma HasSuffix_iff s p : HasSuffix s p = true ↔ ∃ r, s = r +:+ p.
Proof.
  unfold HasSuffix. rewrite HasPrefix_iff. split.
  - intros [r H]. exists (str_rev r). by rewrite <- (str_rev_rev s), H, str_rev_app, str_rev_rev.
  - intros [r ->]. exists (str_rev r). apply str_rev_app.
Qed.

Lemma TrimSuffix_app a p : TrimSuffix (a +:+ p) p = a.
Proof. unfold TrimSuffix. by rewrite str_rev_app, CutPrefix_app, str_rev_rev. Qed.

Lemma ContainsByte_append a b c : ContainsByte (a +:+ b) c = ContainsByte a c || ContainsByte b c.
Proof. induction a; simpl; [done|]. rewrite IHa. apply orb_assoc. Qed.
