(* ===== verification/Resources.v ===== *)
(** * CPU and memory requirements (src/resources/resources.go)

    The requirement value type, its per-kind defaults, its element-wise
    operations at their 64-bit width, and the memory-size parser. *)
From S2P Require Import Prelude GoLib.

Local Open Scope string_scope.
Local Open Scope Z_scope.

Definition MiB : Z := 2 ^ 20.
Definition GiB : Z := 2 ^ 30.

(** Both fields are [int64]. *)
Record Resources := mkRes { CPUMilli : Z; MemBytes : Z }.

Global Instance Resources_eq_dec : EqDecision Resources.
Proof. solve_decision. Defined.

Module ResKind.
Definition Import := "import".
Definition BuildFrom := "build-from".
Definition BuildPluginResolve := "build-plugin-resolve".
Definition BuildPin := "build-pin".
Definition Build := "build".
End ResKind.

Definition DefaultImport := mkRes 200 (512 * MiB).
Definition DefaultLightBuild := mkRes 200 (512 * MiB).
Definition DefaultBuild := mkRes 1000 (1 * GiB).

Definition DefaultFor (kind : string) : Resources :=
  if String.eqb kind ResKind.Import then DefaultImport
  else if String.eqb kind ResKind.Build then DefaultBuild
  else if String.eqb kind ResKind.BuildFrom || String.eqb kind ResKind.BuildPluginResolve
          || String.eqb kind ResKind.BuildPin then DefaultLightBuild
  else DefaultLightBuild.

(** [Resources.Max]: element-wise maximum. *)
Definition Max (r o : Resources) : Resources :=
  mkRes (if CPUMilli r <? CPUMilli o then CPUMilli o else CPUMilli r)
        (if MemBytes r <? MemBytes o then MemBytes o else MemBytes r).

Definition Add (r o : Resources) : Resources :=
  mkRes (i64 (CPUMilli r + CPUMilli o)) (i64 (MemBytes r + MemBytes o)).

Definition Sub (r o : Resources) : Resources :=
  mkRes (i64 (CPUMilli r - CPUMilli o)) (i64 (MemBytes r - MemBytes o)).

Definition Fits (r remaining : Resources) : bool :=
  (CPUMilli r <=? CPUMilli remaining) && (MemBytes r <=? MemBytes remaining).

Definition IsZero (r : Resources) : bool := (CPUMilli r =? 0) && (MemBytes r =? 0).

(** The suffix table, in the order it is scanned: binary before decimal. *)
Definition memSuffixes : list (string * Z) :=
  [("Ki", 2 ^ 10); ("Mi", 2 ^ 20); ("Gi", 2 ^ 30); ("Ti", 2 ^ 40);
   ("K", 1000); ("M", 1000000); ("G", 1000000000); ("T", 1000000000000)].

Definition ParseMem (s : string) : result string Z :=
  let s := TrimSpace s in
  if String.eqb s "" then Err "empty mem"
  else
    let '(num, mult) :=
      match find (λ ms, HasSuffix s ms.1) memSuffixes with
      | Some (suf, m) => (TrimSuffix s suf, m)
      | None => (s, 1)
      end in
    match ParseInt (TrimSpace num) with
    | Some v => Ok (i64 (v * mult))
    | None => Err ("mem " +:+ s)
    end.

(** ** Facts *)

Lemma Fits_iff r c :
  Fits r c = true ↔ CPUMilli r <= CPUMilli c ∧ MemBytes r <= MemBytes c.
Proof. unfold Fits. rewrite andb_true_iff, !Z.leb_le. done. Qed.

Lemma Max_spec r o :
  CPUMilli (Max r o) = Z.max (CPUMilli r) (CPUMilli o) ∧
  MemBytes (Max r o) = Z.max (MemBytes r) (MemBytes o).
Proof. unfold Max; simpl. do 2 case_match; lia. Qed.

Lemma Max_fits_iff r o c :
  Fits (Max r o) c = true ↔ Fits r c = true ∧ Fits o c = true.
Proof. rewrite !Fits_iff. destruct (Max_spec r o) as [-> ->]. lia. Qed.

Lemma Fits_trans a b c : Fits a b = true → Fits b c = true → Fits a c = true.
Proof. rewrite !Fits_iff. lia. Qed.

(** Multipliers are tried in table order, so ["Mi"] is never read as ["M"],
    and a value whose product is representable is parsed exactly. *)
Lemma ParseMem_exact s v mult num :
  (TrimSpace s ≠ "") →
  find (λ ms, HasSuffix (TrimSpace s) ms.1) memSuffixes = Some (num, mult) →
  ParseInt (TrimSpace (TrimSuffix (TrimSpace s) num)) = Some v →
  in_i64 (v * mult) →
  ParseMem s = Ok (v * mult).
Proof.
  intros Hne Hf Hv Hr. unfold ParseMem.
  destruct (String.eqb_spec (TrimSpace s) ""); [done|].
  rewrite Hf, Hv. by rewrite i64_id.
Qed.

(** A memory size whose product exceeds an [int64] is accepted and wraps
    around: [2^33] GiB parses, without an error, to the most negative value. *)
Lemma ParseMem_overflow_wraps : ParseMem "8589934592Gi" = Ok (- 2 ^ 63).
Proof. vm_compute. reflexivity. Qed.

#[export] Hint Resolve Fits_trans : jobs.
