(* ===== verification/Keys.v ===== *)
(** * Store keys: the interface of amber-store-core's [key] package

    [key.Key] is a third-party type: an interface with the behaviour the code
    relies on (a key is 32 bytes, so never empty). Its printed form, lower-case hex of its bytes, is documented in
    src/gcsweep/trees.go (lines 21-40). *)
From S2P Require Import Prelude GoLib.
From Stdlib Require Import Ascii.
Local Open Scope string_scope.
Local Open Scope list_scope.

(** [key_bytes k] is [k[:]], [key_parse b] is [key.Parse(b)] ([None] on error),
    [key_Length] is [k.Length()], the logical length a key embeds. Parsing
    accepts every key's own bytes, and only yields a key with those bytes. *)
Class KeyLib := {
  Key : Type;
  Key_eq_dec :: EqDecision Key;
  Key_countable :: Countable Key;
  Key_inhabited :: Inhabited Key;
  key_bytes : Key → string;
  key_parse : string → option Key;
  key_Length : Key → Z;
  key_parse_bytes k : key_parse (key_bytes k) = Some k;
  key_parse_inv b k : key_parse b = Some k → key_bytes k = b;
  key_bytes_nonempty k : key_bytes k ≠ "";
}.

(** A concrete instance, for the witnesses: a tag byte and a string. *)
Definition tagged_parse (b : string) : option string :=
  match b with
  | String "k" r => Some r
  | _ => None
  end.

Lemma tagged_parse_inv b k : tagged_parse b = Some k → String "k" k = b.
Proof. unfold tagged_parse. intros H. repeat case_match; naive_solver. Qed.

Definition string_keys : KeyLib := {|
  Key := string;
  key_bytes := String "k";
  key_parse := tagged_parse;
  key_Length := λ k, Z.of_nat (String.length k);
  key_parse_bytes := λ k, eq_refl;
  key_parse_inv := tagged_parse_inv;
  key_bytes_nonempty := λ k H, ltac:(discriminate H);
|}.

Section Keys.
Context {KL : KeyLib}.

(** [key.Key.String]. *)
Definition key_String (k : Key) : string := hex_encode (key_bytes k).

(** [hex.DecodeString] then [key.Parse] (src/sched/gate.go [parseHexKey]). *)
Definition parseHexKey (h : string) : option Key :=
  match hex_decode h with
  | Some b => key_parse b
  | None => None
  end.

Lemma key_bytes_inj a b : key_bytes a = key_bytes b → a = b.
Proof.
  intros H. assert (Some a = Some b) as [= ->]; [|done].
  by rewrite <- !key_parse_bytes, H.
Qed.

Lemma key_String_inj a b : key_String a = key_String b → a = b.
Proof. intros H. apply key_bytes_inj, hex_encode_inj, H. Qed.

Lemma parseHexKey_String k : parseHexKey (key_String k) = Some k.
Proof. unfold parseHexKey, key_String. by rewrite hex_decode_encode, key_parse_bytes. Qed.

Lemma key_String_nonempty k : key_String k ≠ "".
Proof.
  unfold key_String. pose proof (key_bytes_nonempty k). by destruct (key_bytes k).
Qed.

Lemma key_String_no_byte k c : is_hex_byte c = false → ContainsByte (key_String k) c = false.
Proof. intros H. eapply ContainsByte_all_bytes; [apply hex_encode_bytes | done]. Qed.

(** Two ref names with the same prefix name the same key. *)
Lemma ref_name_inj p a b : p +:+ key_String a = p +:+ key_String b → a = b.
Proof. intros H. by apply append_inj_l, key_String_inj in H. Qed.
End Keys.

#[export] Hint Resolve parseHexKey_String key_parse_bytes : jobs.
