(* ===== verification/Wire.v ===== *)
(** * Scheduler wire vocabulary (src/wire/wire.go, src/wire/class.go)

    Node kinds, phases and names, the size-class ladder, NATS subjects and
    message ids, and the job and result payloads. *)
From S2P Require Import Prelude GoLib Keys Resources.
From Stdlib Require Import Ascii.
Local Open Scope string_scope.
Local Open Scope list_scope.

(** ** Node kinds and phases *)

Inductive kind := KindImport | KindBuildFrom | KindPluginResolve | KindPin | KindBuildRun | KindBuildValue.

Global Instance kind_eq_dec : EqDecision kind.
Proof. solve_decision. Defined.

Definition kind_name (k : kind) : string :=
  match k with
  | KindImport => "import"
  | KindBuildFrom => "buildfrom"
  | KindPluginResolve => "pluginresolve"
  | KindPin => "pin"
  | KindBuildRun => "buildrun"
  | KindBuildValue => "buildvalue"
  end.

Definition all_kinds : list kind :=
  [KindImport; KindBuildFrom; KindPluginResolve; KindPin; KindBuildRun; KindBuildValue].

Definition kind_of_name (s : string) : option kind :=
  find (λ k, String.eqb s (kind_name k)) all_kinds.

Global Instance kind_countable : Countable kind.
Proof.
  refine (inj_countable' kind_name (λ s, default KindImport (kind_of_name s)) _).
  by intros [].
Defined.

Inductive phase :=
| PhaseWaiting | PhaseQueued | PhaseRunning | PhasePublishing | PhaseDone | PhaseFailed
| PhaseUpstream | PhaseCancelled.

Global Instance phase_eq_dec : EqDecision phase.
Proof. solve_decision. Defined.

(** Result classes travel as strings; the handler matches them. *)
Definition ClassOK := "ok".
Definition ClassHard := "hard".
Definition ClassRetryable := "retryable".
Definition ClassControl := "control".
Definition ClassCancelled := "cancelled".

(** ** The size-class ladder *)

Definition Classes : list string :=
  ["c0.2-m1"; "c1-m1"; "c1-m2"; "c1-m4"; "c2-m4"; "c2-m8"; "c2-m16"; "c4-m8"; "c4-m16"].

Definition classTable : list (string * Resources) :=
  [("c0.2-m1", mkRes 200 (1 * GiB));
   ("c1-m1", mkRes 1000 (1 * GiB));
   ("c1-m2", mkRes 1000 (2 * GiB));
   ("c1-m4", mkRes 1000 (4 * GiB));
   ("c2-m4", mkRes 2000 (4 * GiB));
   ("c2-m8", mkRes 2000 (8 * GiB));
   ("c2-m16", mkRes 2000 (16 * GiB));
   ("c4-m8", mkRes 4000 (8 * GiB));
   ("c4-m16", mkRes 4000 (16 * GiB))].

Definition classLookup (c : string) : option Resources :=
  snd <$> find (λ p, String.eqb c p.1) classTable.

(** [classRes[c]]: the zero value for an unknown class, as a Go map read. *)
Definition classRes (c : string) : Resources := default (mkRes 0 0) (classLookup c).

Definition ValidClass (c : string) : bool := bool_decide (is_Some (classLookup c)).

(** [ClassFor]: the first rung that fits, or the top rung with [false]. *)
Definition ClassFor (req : Resources) : string * bool :=
  match find (λ c, (CPUMilli req <=? CPUMilli (classRes c))%Z
                   && (MemBytes req <=? MemBytes (classRes c))%Z) Classes with
  | Some c => (c, true)
  | None => (List.last Classes "", false)
  end.

Definition ClassesWithin (size : Resources) : list string :=
  List.filter (λ c, (CPUMilli (classRes c) <=? CPUMilli size)%Z
                    && (MemBytes (classRes c) <=? MemBytes size)%Z) Classes.

Definition ParseClass (s : string) : result string string :=
  if ValidClass s then Ok s else Err ("unknown size class " +:+ s).

(** ** Names on the wire *)

Section Names.
Context {KL : KeyLib}.

Definition NodeName (k : kind) (key : Key) : string :=
  kind_name k +:+ "_" +:+ key_String key.

(** [ParseNodeName], fail-closed: [None] is any of its errors. *)
Definition ParseNodeName (name : string) : option (kind * Key) :=
  match Cut name "_" with
  | None => None
  | Some (k, hexPart) =>
      match kind_of_name k with
      | None => None
      | Some kd =>
          match hex_decode hexPart with
          | None => None
          | Some raw =>
              match key_parse raw with
              | None => None
              | Some key => if String.eqb (key_String key) hexPart then Some (kd, key) else None
              end
          end
      end
  end.
End Names.

Definition PlatformToken (platform : string) : string := ReplaceByte platform "/" "-".

Definition JobsSubject (platform class : string) : string :=
  "jobs" +:+ "." +:+ PlatformToken platform +:+ "." +:+ class.

Definition ResultsSubject (node : string) : string := "results" +:+ "." +:+ node.
Definition FailuresSubject (node : string) : string := "failures" +:+ "." +:+ node.
Definition LogsSubject (node : string) : string := "logs" +:+ "." +:+ node.
Definition RunnerHBSubject (id : string) : string := "runners." +:+ id +:+ ".hb".

Definition ConsumerName (platform class : string) : string :=
  "wq-" +:+ PlatformToken platform +:+ "-" +:+ ReplaceByte class "." "_".

Definition JobMsgID (node : string) (gen : Z) : string := "job-" +:+ node +:+ "-" +:+ itoa gen.
Definition ResultMsgID (node : string) (gen : Z) : string := "result-" +:+ node +:+ "-" +:+ itoa gen.
Definition FailureMsgID (node : string) (gen : Z) : string := "failure-" +:+ node +:+ "-" +:+ itoa gen.

(** ** Payloads *)

Record Job := {
  j_Node : string; j_Kind : kind; j_Key : string; j_Gen : Z;
  j_Platform : string; j_Class : string;
  j_Def : string; j_PullRefs : list string;
  j_CPUMilli : Z; j_MemBytes : Z }.

Global Instance Job_eq_dec : EqDecision Job.
Proof. solve_decision. Defined.

Record RefProposal := mkRef { r_Name : string; r_Key : string; r_Label : string }.

Global Instance RefProposal_eq_dec : EqDecision RefProposal.
Proof. solve_decision. Defined.

Record Result := {
  res_Node : string; res_Gen : Z; res_Runner : string; res_Class : string;
  res_Exit : Z; res_ErrSummary : string; res_Refs : list RefProposal;
  res_ScratchRef : string; res_ReadRefs : list string }.

Inductive fail_origin := FailOriginResult | FailOriginCommit | FailOriginGate | FailOriginServer.
Inductive fail_disposition := FailDispositionRetry | FailDispositionFailed.

Record Counts := mkCounts { c_Total : Z; c_Done : Z; c_Failed : Z; c_Running : Z; c_Waiting : Z }.

Record RunnerInfo := {
  ri_ID : string; ri_Name : string; ri_Platform : string; ri_Size : string;
  ri_InFlight : Z; ri_FreeCPU : Z; ri_FreeMem : Z; ri_SeenNs : Z }.

Definition JobResources (j : Job) : Resources := mkRes (j_CPUMilli j) (j_MemBytes j).

(** ** Facts: the ladder *)

(** Ladder order: ascending by (cpu, mem). *)
Definition rung_le (c d : string) : Prop :=
  (CPUMilli (classRes c) < CPUMilli (classRes d))%Z ∨
  (CPUMilli (classRes c) = CPUMilli (classRes d) ∧
   MemBytes (classRes c) <= MemBytes (classRes d))%Z.

Global Instance rung_le_dec c d : Decision (rung_le c d).
Proof. unfold rung_le. apply _. Defined.

Lemma ladder_sorted : StronglySorted rung_le Classes.
Proof.
  unfold Classes.
  repeat (apply SSorted_cons; [|apply (bool_decide_unpack _); vm_compute; exact I]).
  apply SSorted_nil.
Qed.

Lemma find_first {A} (f : A → bool) (R : A → A → Prop) l x :
  (∀ a, R a a) → StronglySorted R l → find f l = Some x →
  f x = true ∧ x ∈ l ∧ ∀ y, y ∈ l → f y = true → R x y.
Proof.
  intros Hrefl Hs. induction Hs as [|a l Hs IH Hall]; simpl; [done|].
  destruct (f a) eqn:E.
  - intros [= <-]. split_and!; [done|left|]. intros y [->|Hy]%elem_of_cons _; [done|].
    rewrite Forall_forall in Hall. auto.
  - intros H. destruct (IH H) as (?&?&Hmin). split_and!; [done|by right|].
    intros y [->|Hy]%elem_of_cons Hfy; [congruence|auto].
Qed.

Lemma rung_le_refl c : rung_le c c.
Proof. unfold rung_le. lia. Qed.

Lemma elem_of_ClassesWithin c size :
  c ∈ ClassesWithin size ↔ c ∈ Classes ∧ Fits (classRes c) size = true.
Proof.
  unfold ClassesWithin. rewrite !list_elem_of_In, filter_In. done.
Qed.

(** ** Facts: names *)

Lemma kind_of_name_name k : kind_of_name (kind_name k) = Some k.
Proof. by destruct k. Qed.

Lemma kind_of_name_Some s k : kind_of_name s = Some k → s = kind_name k.
Proof.
  unfold kind_of_name. intros [_ H]%find_some. by apply String.eqb_eq in H.
Qed.

Lemma kind_name_no_byte k c :
  (c = "_" ∨ c = "-" ∨ c = ":" ∨ c = "." ∨ c = "/")%char → ContainsByte (kind_name k) c = false.
Proof. intros [->|[->|[->|[->| ->]]]]; by destruct k. Qed.

Section NameFacts.
Context {KL : KeyLib}.

Lemma ParseNodeName_NodeName k key : ParseNodeName (NodeName k key) = Some (k, key).
Proof.
  unfold ParseNodeName, NodeName.
  rewrite (proj2 (Cut_Some _ "_" (kind_name k) (key_String key))).
  - rewrite kind_of_name_name. unfold key_String at 1.
    rewrite hex_decode_encode, key_parse_bytes. by rewrite String.eqb_refl.
  - split; [done|]. apply kind_name_no_byte. auto.
Qed.

Lemma ParseNodeName_Some name k key :
  ParseNodeName name = Some (k, key) → name = NodeName k key.
Proof.
  unfold ParseNodeName, NodeName. intros H.
  destruct (Cut name "_") as [[a h]|] eqn:E; [|done].
  destruct (kind_of_name a) as [kd|] eqn:Ek; [|done].
  destruct (hex_decode h) as [raw|]; [|done]. destruct (key_parse raw) as [key'|]; [|done].
  destruct (String.eqb_spec (key_String key') h) as [<-|]; simplify_eq.
  apply Cut_Some in E as [-> _]. apply kind_of_name_Some in Ek as ->. done.
Qed.

Lemma NodeName_inj k key k' key' : NodeName k key = NodeName k' key' → k = k' ∧ key = key'.
Proof.
  intros H. assert (Some (k, key) = Some (k', key')) as [= -> ->]; [|done].
  by rewrite <- !ParseNodeName_NodeName, H.
Qed.


Lemma NodeName_no_dash k key : ContainsByte (NodeName k key) "-" = false.
Proof.
  unfold NodeName. rewrite !ContainsByte_append, kind_name_no_byte by auto. simpl.
  by apply key_String_no_byte.
Qed.

(** An id [p ++ node ++ "-" ++ gen] determines node and generation. *)
Lemma msgid_inj p k key g k' key' g' :
  p +:+ NodeName k key +:+ "-" +:+ itoa g = p +:+ NodeName k' key' +:+ "-" +:+ itoa g' →
  NodeName k key = NodeName k' key' ∧ g = g'.
Proof.
  intros H%append_inj_l.
  assert (Some (NodeName k key, itoa g) = Some (NodeName k' key', itoa g')) as [= -> Hg].
  { rewrite <- (proj2 (Cut_Some _ "-" _ _) (conj eq_refl (NodeName_no_dash k key))).
    rewrite <- (proj2 (Cut_Some _ "-" _ _) (conj eq_refl (NodeName_no_dash k' key'))).
    f_equal. exact H. }
  split; [done|]. by apply (inj pretty.pretty) in Hg.
Qed.
End NameFacts.

#[export] Hint Resolve ParseNodeName_NodeName rung_le_refl : jobs.

(** ** Properties *)

(** [ClassFor] rounds a requirement up to the smallest rung that fits
    it: with [true] the rung is on the ladder, holds the requirement and no
    rung before it does; with [false] it is the top rung and no rung holds
    the requirement. *)
Theorem ClassFor_smallest req :
  match ClassFor req with
  | (c, true) => c ∈ Classes ∧ Fits req (classRes c) = true ∧
                 ∀ d, d ∈ Classes → Fits req (classRes d) = true → rung_le c d
  | (c, false) => c = "c4-m16" ∧ ∀ d, d ∈ Classes → Fits req (classRes d) = false
  end.
Proof.
  unfold ClassFor. fold (Fits req). destruct (find _ Classes) as [c|] eqn:E.
  - destruct (find_first _ rung_le _ _ rung_le_refl ladder_sorted E) as (?&?&?). auto.
  - split; [done|]. intros d Hd. eapply find_none in E; [done|]. by apply list_elem_of_In.
Qed.

(** A runner that serves a lane can hold every job of the lane: a class
    among [ClassesWithin size] chosen by [ClassFor] for a requirement bounds
    the requirement by the runner's size. *)
Theorem served_class_fits req size c :
  ClassFor req = (c, true) → c ∈ ClassesWithin size → Fits req size = true.
Proof.
  intros Hc [_ Hs]%elem_of_ClassesWithin.
  unfold ClassFor in Hc. destruct (find _ Classes) as [c'|] eqn:E; simplify_eq.
  apply find_some in E as [_ E]. eauto with jobs.
Qed.

Lemma served_class_fits_witness :
  Fits (mkRes 500 (1 * GiB)) (mkRes 2000 (8 * GiB)) = true.
Proof.
  apply (served_class_fits (mkRes 500 (1 * GiB)) (mkRes 2000 (8 * GiB)) "c1-m1").
  - vm_compute. reflexivity.
  - apply (bool_decide_unpack _). vm_compute. exact I.
Defined.

(** Node names: the parser accepts exactly the names [NodeName] prints,
    and returns the kind and key they were printed from. *)
Theorem node_name_roundtrip `{KL : KeyLib} name k key :
  ParseNodeName name = Some (k, key) ↔ name = NodeName k key.
Proof.
  split; [apply ParseNodeName_Some|]. intros ->. apply ParseNodeName_NodeName.
Qed.

(** JetStream deduplication keys: the ids of job, result and failure
    messages determine the node and the attempt generation. *)
Theorem msg_ids_unique `{KL : KeyLib} k key g k' key' g' :
  (JobMsgID (NodeName k key) g = JobMsgID (NodeName k' key') g' ↔ (k, key, g) = (k', key', g')) ∧
  (ResultMsgID (NodeName k key) g = ResultMsgID (NodeName k' key') g' ↔ (k, key, g) = (k', key', g')) ∧
  (FailureMsgID (NodeName k key) g = FailureMsgID (NodeName k' key') g' ↔ (k, key, g) = (k', key', g')).
Proof.
  assert (Hall : ∀ p, p +:+ NodeName k key +:+ "-" +:+ itoa g
                      = p +:+ NodeName k' key' +:+ "-" +:+ itoa g' ↔ (k, key, g) = (k', key', g')).
  { intros p. split; [|intros [= -> -> ->]; done].
    intros [[-> ->]%NodeName_inj ->]%msgid_inj. done. }
  split_and!; apply Hall.
Qed.
