(* ===== verification/Builddef.v ===== *)
(** * Build and import definitions (src/builddef/, src/importdef/)

    The definition records, the cache declarations with their validation and
    ref names, and the canonical orderings that make encodings of equal values
    equal. CBOR encoding itself is a third-party codec (see [Codec]). *)
From S2P Require Import Prelude GoLib Keys.
From Stdlib Require Import Ascii.
Local Open Scope string_scope.
Local Open Scope list_scope.

(** ** Data *)

Module InputKind.
Definition Import := "import".
Definition Build := "build".
Definition Tree := "tree".
End InputKind.

Record Input := mkInput { in_Kind : string; in_Definition : string }.

Record Definition_ := {
  d_Source : Input; d_Dir : string; d_Platform : string; d_Params : string;
  d_BuildJobs : string; d_BuildFile : string; d_Ctx : Z }.

Record ImportDef := {
  i_Fetcher : string; i_Params : string; i_RequiredTags : list string;
  i_Platform : string; i_FetcherDef : string }.

Record PinnedCache := mkCache { c_Path : string; c_ID : string }.
Record PinnedInput := { pi_Name : string; pi_Kind : string; pi_Definition : string }.
Record PinnedResources := { pr_CPUMilli : Z; pr_MemBytes : Z }.

Record Pinned := {
  p_Inputs : list PinnedInput;
  p_Env : gmap string string;
  p_Script : string;
  p_RuntimeDeps : list string;
  p_Caches : list PinnedCache;
  p_Resources : option PinnedResources;
  p_Sources : list string;
  p_Closure : list string;
  p_Dir : string;
  p_Generated : gmap string string }.

Record PluginResolved := { pr_Plugins : gmap string Input; pr_Deps : gmap string Input }.

Global Instance Input_eq_dec : EqDecision Input. Proof. solve_decision. Defined.
Global Instance PinnedCache_eq_dec : EqDecision PinnedCache. Proof. solve_decision. Defined.
Global Instance Definition_eq_dec : EqDecision Definition_. Proof. solve_decision. Defined.

Definition CtxWidened : Z := 2.

Definition ValidateCtx (ctx : Z) : result string unit :=
  if (ctx =? 0)%Z || (ctx =? CtxWidened)%Z then Ok tt
  else Err ("definition ctx " +:+ itoa ctx +:+ " is not supported by this binary (upgrade jobs)").

(** ** Caches *)

Definition is_alnum (a : ascii) : bool :=
  let n := N_of_ascii a in
  ((48 <=? n) && (n <=? 57) || (65 <=? n) && (n <=? 90) || (97 <=? n) && (n <=? 122))%N.

Definition is_cache_byte (a : ascii) : bool :=
  is_alnum a || (if ascii_dec a "." then true else false)
  || (if ascii_dec a "_" then true else false) || (if ascii_dec a "-" then true else false).

(** The regular expression [^[a-zA-Z0-9][a-zA-Z0-9._-]*$]. *)
Definition cacheIDRe (id : string) : bool :=
  match id with
  | EmptyString => false
  | String a r => is_alnum a && all_bytes is_cache_byte r
  end.

Definition maxCacheIDLen : nat := 128.

Definition reservedCachePrefixes : list string :=
  ["/jobs"; "/build/src"; "/build/out"; "/dev"; "/proc"; "/tmp"].

Definition ValidateCacheID (id : string) : result string unit :=
  if (maxCacheIDLen <? String.length id)%nat then Err "cache id: longer than 128 bytes"
  else if cacheIDRe id then Ok tt
  else Err "cache id: must match".

Definition ValidateCachePath (p : string) : result string unit :=
  if negb (HasPrefix p "/") then Err "cache path: must be absolute"
  else if negb (String.eqb p (path_Clean p)) then Err "cache path: must be clean"
  else if String.eqb p "/" then Err "cache path must not be /"
  else if String.eqb p "/build" then Err "cache path: the sandbox work root is reserved"
  else for_each (λ res, if String.eqb p res || HasPrefix p (res +:+ "/")
                        then Err "cache path: reserved" else Ok tt) reservedCachePrefixes.

(** The per-entry loop of [ValidateCaches], with the ids and paths seen so far. *)
Fixpoint validate_entries (ids paths : gset string) (cs : list PinnedCache) : result string unit :=
  match cs with
  | [] => Ok tt
  | c :: cs' =>
      ValidateCachePath (c_Path c) ≫= λ _,
      ValidateCacheID (c_ID c) ≫= λ _,
      if decide (c_ID c ∈ ids) then Err "duplicate cache id"
      else if decide (c_Path c ∈ paths) then Err "duplicate cache path"
      else validate_entries ({[c_ID c]} ∪ ids) ({[c_Path c]} ∪ paths) cs'
  end.

Definition nests (a b : PinnedCache) : bool :=
  negb (String.eqb (c_Path a) (c_Path b)) && HasPrefix (c_Path a) (c_Path b +:+ "/").

Definition ValidateCaches (cs : list PinnedCache) : result string unit :=
  validate_entries ∅ ∅ cs ≫= λ _,
  for_each (λ a, for_each (λ b, if nests a b then Err "cache path nests" else Ok tt) cs) cs.

Definition CanonicalCaches (cs : list PinnedCache) : list PinnedCache :=
  ssort (λ a b, str_leb (c_Path a) (c_Path b)) cs.

Definition CacheRefName (id platform : string) : string :=
  "build-cache:" +:+ id +:+ ":" +:+ platform.

Definition ParseCacheRefName (name : string) : option (string * string) :=
  match CutPrefix name "build-cache:" with
  | None => None
  | Some rest =>
      match Cut rest ":" with
      | None => None
      | Some (id, platform) =>
          if String.eqb platform "" || negb (is_ok (ValidateCacheID id)) then None
          else Some (id, platform)
      end
  end.

(** ** Canonical orderings *)

(** Keep the first of each run of equal names in a sorted list, through the
    [seen] map of the source. *)
Fixpoint dedup_by {A} (name : A → string) (seen : gset string) (l : list A) : list A :=
  match l with
  | [] => []
  | x :: l' =>
      if decide (name x ∈ seen) then dedup_by name seen l'
      else x :: dedup_by name ({[name x]} ∪ seen) l'
  end.

Definition CanonicalPinnedInputs (l : list PinnedInput) : list PinnedInput :=
  dedup_by pi_Name ∅ (ssort (λ a b, str_leb (pi_Name a) (pi_Name b)) l).

(** Drop an element equal to the one before it in the sorted list. *)
Fixpoint dedup_adjacent (prev : option string) (l : list string) : list string :=
  match l with
  | [] => []
  | x :: l' =>
      if bool_decide (prev = Some x) then dedup_adjacent (Some x) l'
      else x :: dedup_adjacent (Some x) l'
  end.

Definition CanonicalSources (l : list string) : list string :=
  dedup_adjacent None (SortStrings l).

(** [SortKeys]: 32-byte keys in the order of their hex form. *)
Definition SortKeys (ks : list string) : list string :=
  dedup_by hex_encode ∅ (ssort (λ a b, str_leb (hex_encode a) (hex_encode b)) ks).

(** ** Names *)

Definition is_control (a : ascii) : bool :=
  let n := N_of_ascii a in (n <? 32)%N || (n =? 127)%N.

Definition ValidateDepName (name : string) : result string unit :=
  if String.eqb name "" then Err "resolution dep name must be non-empty"
  else if (128 <? String.length name)%nat then Err "resolution dep name exceeds 128 bytes"
  else if ContainsByte name "/" || ContainsByte name "\" then
    Err "resolution dep name must not contain path separators"
  else if negb (all_bytes (λ a, negb (is_control a)) name) then
    Err "resolution dep name contains control characters"
  else if String.eqb name "." || String.eqb name ".." then Err "resolution dep name is reserved"
  else Ok tt.

(** ** Facts *)

Lemma cacheIDRe_no_colon id : cacheIDRe id = true → ContainsByte id ":" = false.
Proof.
  destruct id as [|a r]; simpl; [done|]. intros [Ha Hr]%andb_true_iff.
  rewrite (ContainsByte_all_bytes _ _ _ Hr) by done.
  destruct (ascii_dec a ":") as [->|]; [by vm_compute in Ha | done].
Qed.

Lemma ValidateCacheID_Ok id :
  ValidateCacheID id = Ok tt ↔ ((String.length id <= 128)%nat) ∧ cacheIDRe id = true.
Proof.
  unfold ValidateCacheID, maxCacheIDLen.
  destruct (Nat.ltb_spec 128 (String.length id)); destruct (cacheIDRe id); naive_solver lia.
Qed.

Lemma validate_entries_Ok ids paths cs :
  validate_entries ids paths cs = Ok tt ↔
  Forall (λ c, ValidateCachePath (c_Path c) = Ok tt ∧ ValidateCacheID (c_ID c) = Ok tt) cs ∧
  NoDup (c_ID <$> cs) ∧ NoDup (c_Path <$> cs) ∧
  (∀ c, c ∈ cs → (c_ID c ∉ ids) ∧ (c_Path c ∉ paths)).
Proof.
  revert ids paths. induction cs as [|c cs IH]; intros ids paths; csimpl.
  { split; [|done]. intros _. split_and!; [constructor..|]. set_solver. }
  rewrite Forall_cons, !NoDup_cons, !list_elem_of_fmap.
  destruct (ValidateCachePath (c_Path c)) as [[]|], (ValidateCacheID (c_ID c)) as [[]|];
    simpl; try (split; [discriminate | intros ([[? ?] ?] & _); discriminate]).
  destruct (decide (c_ID c ∈ ids)); [set_solver|].
  destruct (decide (c_Path c ∈ paths)); [set_solver|]. rewrite IH. clear IH.
  split.
  - intros (HF & Hi & Hp & Hfr). split_and!; try done.
    + intros (y & Hy & Hin). destruct (Hfr y Hin). set_solver.
    + intros (y & Hy & Hin). destruct (Hfr y Hin). set_solver.
    + intros c' [->|Hc]%elem_of_cons; [done|]. destruct (Hfr c' Hc). set_solver.
  - intros ((_ & HF) & (Hi & Hi') & (Hp & Hp') & Hfr). split_and!; try done.
    intros c' Hc. destruct (Hfr c'); [by right|]. split; set_solver.
Qed.

Lemma for_each_if {A} (f : A → bool) (e : string) l :
  for_each (λ x, if f x then Err e else Ok tt) l = Ok tt ↔ ∀ x, x ∈ l → f x = false.
Proof.
  rewrite for_each_Ok, Forall_forall. split; intros H x Hx; specialize (H x Hx).
  - by destruct (f x).
  - by rewrite H.
Qed.

Lemma dedup_by_elem {A} (name : A → string) seen l x :
  x ∈ dedup_by name seen l → x ∈ l ∧ (name x ∉ seen).
Proof.
  revert seen. induction l as [|y l IH]; intros seen; simpl; [intros H; inversion H|].
  destruct (decide (name y ∈ seen)).
  - intros [??]%IH. split; [by right|done].
  - intros [->|H]%elem_of_cons; [split; [left|done]|]. apply IH in H as [? ?].
    split; [by right|]. set_solver.
Qed.

Lemma dedup_by_nodup {A} (name : A → string) seen l : NoDup (name <$> dedup_by name seen l).
Proof.
  revert seen. induction l as [|y l IH]; intros seen; csimpl; [constructor|].
  destruct (decide (name y ∈ seen)); [apply IH|]. csimpl. constructor; [|apply IH].
  rewrite list_elem_of_fmap. intros (z & Hz & Hin). apply dedup_by_elem in Hin as [_ Hin]. set_solver.
Qed.

Lemma dedup_by_id {A} (name : A → string) seen l :
  NoDup (name <$> l) → (∀ x, x ∈ l → name x ∉ seen) → dedup_by name seen l = l.
Proof.
  revert seen. induction l as [|y l IH]; intros seen; csimpl; [done|].
  intros [Hn Hl]%NoDup_cons Hs. rewrite decide_False by (apply Hs; left). f_equal.
  apply IH; [done|]. intros x Hx. specialize (Hs x ltac:(by right)).
  assert (name x ≠ name y).
  { intros He. apply Hn. rewrite <- He. apply list_elem_of_fmap. eauto. }
  set_solver.
Qed.

Lemma dedup_adjacent_elem prev l x :
  x ∈ dedup_adjacent prev l → x ∈ l.
Proof.
  revert prev. induction l as [|y l IH]; intros prev; simpl; [done|].
  case_bool_decide; [intros ?%IH; by right|].
  intros [->|H']%elem_of_cons; [left|right; eauto].
Qed.

Lemma dedup_adjacent_complete prev l x :
  x ∈ l → prev = Some x ∨ x ∈ dedup_adjacent prev l.
Proof.
  revert prev. induction l as [|y l IH]; intros prev; simpl; [intros H; inversion H|].
  intros [->|Hx]%elem_of_cons; case_bool_decide as Hb; auto.
  - right; left.
  - destruct (IH (Some y) Hx) as [[= ->]|?]; auto.
  - right. destruct (IH (Some y) Hx) as [[= ->]|?]; [left|by right].
Qed.

Lemma dedup_adjacent_sorted prev l :
  StronglySorted (λ a b, str_leb a b = true) l →
  (∀ p, prev = Some p → Forall (λ x, str_leb p x = true) l) →
  StronglySorted (λ a b, str_leb a b = true ∧ a ≠ b) (dedup_adjacent prev l) ∧
  (∀ p, prev = Some p → p ∉ dedup_adjacent prev l).
Proof.
  intros Hs. revert prev. induction Hs as [|y l Hs IH Hall]; intros prev Hp; simpl.
  { split; [constructor|]. intros ???. set_solver. }
  destruct (IH (Some y)) as [IHs IHp]; [by intros p [= <-]|]. case_bool_decide as Hpy.
  - split; [done|]. intros p ->. simplify_eq. by apply IHp.
  - split.
    + constructor; [done|]. apply Forall_forall. intros x Hx. split.
      * rewrite Forall_forall in Hall. apply Hall. by eapply dedup_adjacent_elem.
      * intros ->. by eapply IHp.
    + intros p -> [->|Hx]%elem_of_cons; [done|]. specialize (Hp p eq_refl).
      inversion Hp as [|?? Hpy' Hpl]; subst.
      rewrite Forall_forall in Hall, Hpl.
      assert (y = p) as ->; [|done].
      apply dedup_adjacent_elem in Hx.
      apply str_leb_antisym; [by apply Hall|done].
Qed.

Lemma elem_of_CanonicalSources l x : x ∈ CanonicalSources l ↔ x ∈ l.
Proof.
  unfold CanonicalSources. rewrite <- (elem_of_ssort str_leb x l). split.
  - apply dedup_adjacent_elem.
  - intros H. by destruct (dedup_adjacent_complete None _ _ H).
Qed.

Lemma CanonicalSources_sorted l :
  StronglySorted (λ a b, str_leb a b = true ∧ a ≠ b) (CanonicalSources l).
Proof. apply dedup_adjacent_sorted; [apply SortStrings_sorted | done]. Qed.

Lemma strict_sorted_nodup {A} (R : A → A → Prop) l :
  StronglySorted (λ a b, R a b ∧ a ≠ b) l → NoDup l.
Proof.
  induction 1 as [|x l _ IH Hall]; constructor; [|done].
  intros Hx. rewrite Forall_forall in Hall. by destruct (Hall x Hx).
Qed.

Lemma StronglySorted_weaken {A} (R R' : A → A → Prop) l :
  (∀ a b, R a b → R' a b) → StronglySorted R l → StronglySorted R' l.
Proof. intros HR. induction 1; constructor; eauto using Forall_impl. Qed.

Lemma sorted_within {A} (R : A → A → Prop) (l l' : list A) :
  StronglySorted R l → (∀ x, x ∈ l → x ∈ l') →
  StronglySorted (λ a b, R a b ∧ (a ∈ l' ∧ b ∈ l')) l.
Proof.
  induction 1 as [|x l Hs IH Hall]; intros Hin; constructor.
  - apply IH. intros y Hy. apply Hin. by right.
  - rewrite Forall_forall in *. intros y Hy. split_and!; [by apply Hall|apply Hin; left|].
    apply Hin. by right.
Qed.

Lemma cache_ref_parse name id platform :
  ParseCacheRefName name = Some (id, platform) ↔
  name = CacheRefName id platform ∧ ValidateCacheID id = Ok tt ∧ platform ≠ "".
Proof.
  unfold ParseCacheRefName, CacheRefName. split.
  - destruct (CutPrefix name "build-cache:") as [rest|] eqn:E1; [|done].
    destruct (Cut rest ":") as [[i p]|] eqn:E2; [|done].
    destruct (String.eqb_spec p ""); [done|].
    destruct (ValidateCacheID i) as [[]|] eqn:E3; [|done].
    intros [= <- <-]. apply CutPrefix_Some in E1 as ->. apply Cut_Some in E2 as [-> _]. done.
  - intros (-> & Hid & Hp). rewrite CutPrefix_app.
    rewrite (proj2 (Cut_Some _ ":" id platform)).
    + rewrite Hid. by destruct (String.eqb_spec platform "").
    + split; [done|]. apply ValidateCacheID_Ok in Hid as [_ ?]. by apply cacheIDRe_no_colon.
Qed.

(** ** Properties *)

(** What [ValidateCaches] accepts: every path and id is valid on its own,
    ids and paths are pairwise distinct, and no cache directory lies inside
    another one. *)
Theorem ValidateCaches_spec cs :
  ValidateCaches cs = Ok tt ↔
  Forall (λ c, ValidateCachePath (c_Path c) = Ok tt ∧ ValidateCacheID (c_ID c) = Ok tt) cs ∧
  NoDup (c_ID <$> cs) ∧ NoDup (c_Path <$> cs) ∧
  ∀ a b, a ∈ cs → b ∈ cs → ¬ ∃ r, c_Path a = c_Path b +:+ "/" +:+ r.
Proof.
  unfold ValidateCaches.
  transitivity (validate_entries ∅ ∅ cs = Ok tt ∧
                ∀ a b, a ∈ cs → b ∈ cs → nests a b = false).
  { destruct (validate_entries ∅ ∅ cs) as [[]|]; simpl; [|naive_solver].
    rewrite for_each_Ok, Forall_forall. setoid_rewrite for_each_if. naive_solver. }
  rewrite validate_entries_Ok. unfold nests.
  assert (Hn : ∀ a b : PinnedCache,
    negb (String.eqb (c_Path a) (c_Path b)) && HasPrefix (c_Path a) (c_Path b +:+ "/") = false ↔
    ¬ ∃ r, c_Path a = c_Path b +:+ "/" +:+ r).
  { intros a b. rewrite <- not_true_iff_false, andb_true_iff, HasPrefix_iff.
    setoid_rewrite append_assoc. split.
    - intros H [r Hr]. apply H. split; [|eauto]. apply negb_true_iff, String.eqb_neq.
      rewrite Hr. rewrite <- (append_empty_r (c_Path b)) at 2. by intros ?%append_inj_l.
    - intros H [_ Hr]. auto. }
  setoid_rewrite Hn. set_solver.
Qed.

(** Cache ref names round-trip: the parser returns exactly the id and
    platform a name was built from, and accepts nothing else. *)
Theorem cache_ref_roundtrip name id platform :
  ParseCacheRefName name = Some (id, platform) ↔
  name = CacheRefName id platform ∧ ValidateCacheID id = Ok tt ∧ platform ≠ "".
Proof. apply cache_ref_parse. Qed.

(** The canonical source list is a function of the set of paths: two
    declarations encode equally exactly when they cover the same paths, in
    strictly ascending byte order. *)
Theorem CanonicalSources_canonical l1 l2 :
  (CanonicalSources l1 = CanonicalSources l2 ↔ (∀ p, p ∈ l1 ↔ p ∈ l2)) ∧
  StronglySorted (λ a b, str_leb a b = true ∧ a ≠ b) (CanonicalSources l1).
Proof.
  split; [|apply CanonicalSources_sorted]. split.
  - intros H p. by rewrite <- (elem_of_CanonicalSources l1), H, elem_of_CanonicalSources.
  - intros H. eapply (sorted_perm_eq (λ a b, str_leb a b = true)).
    + apply str_leb_antisym.
    + eapply StronglySorted_weaken, CanonicalSources_sorted. by intros ?? [? _].
    + eapply StronglySorted_weaken, CanonicalSources_sorted. by intros ?? [? _].
    + apply NoDup_Permutation; [by eapply strict_sorted_nodup, CanonicalSources_sorted..|].
      intros x. by rewrite !elem_of_CanonicalSources.
Qed.

(** The canonical input list does not depend on the order inputs were
    declared in: recipes with uniquely named inputs re-pin to the same list. *)
Theorem CanonicalPinnedInputs_order_free l1 l2 :
  NoDup (pi_Name <$> l1) → l1 ≡ₚ l2 → CanonicalPinnedInputs l1 = CanonicalPinnedInputs l2.
Proof.
  intros Hnd Hp. unfold CanonicalPinnedInputs.
  assert (Hnd2 : NoDup (pi_Name <$> l2)) by by rewrite <- Hp.
  set (leb := λ a b, str_leb (pi_Name a) (pi_Name b)).
  assert (Hid : ∀ l, NoDup (pi_Name <$> l) → dedup_by pi_Name ∅ (ssort leb l) = ssort leb l).
  { intros l Hl. apply dedup_by_id; [by rewrite ssort_perm|]. set_solver. }
  rewrite !Hid by done.
  apply (sorted_perm_eq (λ a b, leb a b = true ∧ (a ∈ l1 ∧ b ∈ l1))).
  - intros x y [Hxy [Hx Hy]] [Hyx _]. pose proof (str_leb_antisym _ _ Hxy Hyx) as He.
    apply list_elem_of_lookup in Hx as [i Hi]. apply list_elem_of_lookup in Hy as [j Hj].
    assert (i = j) as <-; [|congruence].
    eapply NoDup_lookup; [exact Hnd|rewrite list_lookup_fmap, Hi; done|].
    rewrite list_lookup_fmap, Hj. simpl. by rewrite He.
  - apply sorted_within; [|by intros x; rewrite elem_of_ssort].
    apply ssort_sorted; unfold leb; [intros; apply str_leb_total | intros; by eapply str_leb_trans].
  - apply sorted_within; [|by intros x; rewrite elem_of_ssort, Hp].
    apply ssort_sorted; unfold leb; [intros; apply str_leb_total | intros; by eapply str_leb_trans].
  - by rewrite !ssort_perm.
Qed.

Lemma CanonicalPinnedInputs_order_free_witness :
  let a := Build_PinnedInput "a" "import" "x" in
  let b := Build_PinnedInput "b" "build" "y" in
  CanonicalPinnedInputs [b; a] = CanonicalPinnedInputs [a; b].
Proof.
  intros a b. apply (CanonicalPinnedInputs_order_free [b; a] [a; b]).
  - apply (bool_decide_unpack _). vm_compute. exact I.
  - apply Permutation_swap.
Defined.
