(* ===== verification/Store.v ===== *)
(** * The store seam (src/amber/ref.go, src/amber/store.go)

    A store is an object half and a reference half. Objects (packstore, fstree,
    chunking) and the CBOR codec are third-party code behind the interface
    [StoreLib]; references are modelled here: a finite map from names to keys,
    with the order of its durable writes recorded in a journal so that a crash
    between two writes is a prefix of the journal. *)
From S2P Require Import Prelude GoLib Keys Builddef.
From Stdlib Require Import Ascii.
Local Open Scope string_scope.
Local Open Scope list_scope.

(** What the code calls but does not define: the object store, the codecs and
    [reference.ValidateName]. [obj_Derive] is the interface to the cover
    package (src/cover/cover.go [Derive]), [obj_TreeSubdir] to tree lookups. *)
Class StoreLib `{KL : KeyLib} := {
  Objs : Type;
  ValidateName : string → bool;
  FileKey : string → result string Key;
  obj_ReadFile : Objs → Key → result string string;
  obj_CheckComplete : Objs → Key → result string unit;
  obj_IngestFile : Objs → string → Objs * result string Key;
  obj_TreeSubdir : Objs → Key → string → result string (option Key);
  obj_Derive : Objs → string → Pinned → string → Key → Objs * result string Key;
  dec_Import : string → result string ImportDef;
  dec_Definition : string → result string Definition_;
  dec_PluginResolved : string → result string PluginResolved;
  dec_Pinned : string → result string Pinned;
  dec_TreeKey : string → result string Key;
}.

Section Store.
Context `{SL : StoreLib}.

(** One durable reference write: a put or a delete. *)
Inductive wop := WPut (name : string) (k : Key) | WDel (name : string).

(** [st_rerr] and [st_werr] are the names whose record does not decode, and
    the names whose write fails (I/O, the GC guard). *)
Record Store := mkStore {
  st_objs : Objs;
  st_refs : gmap string Key;
  st_journal : list wop;
  st_rerr : string → bool;
  st_werr : string → bool }.

Definition set_objs (o : Objs) (st : Store) : Store :=
  mkStore o (st_refs st) (st_journal st) (st_rerr st) (st_werr st).

Definition apply_wop (m : gmap string Key) (w : wop) : gmap string Key :=
  match w with
  | WPut n k => <[n := k]> m
  | WDel n => delete n m
  end.

(** The references after a sequence of writes, oldest first. *)
Definition replay (m : gmap string Key) (ws : list wop) : gmap string Key :=
  foldl apply_wop m ws.

Definition log_wop (w : wop) (st : Store) : Store :=
  mkStore (st_objs st) (apply_wop (st_refs st) w) (st_journal st ++ [w]) (st_rerr st) (st_werr st).

(** [Store.PutRef]: last write wins. *)
Definition PutRef (name : string) (k : Key) (st : Store) : Store * result string unit :=
  if negb (ValidateName name) then (st, Err ("invalid ref name " +:+ name))
  else if st_werr st name then (st, Err ("put ref " +:+ name))
  else (log_wop (WPut name k) st, Ok tt).

(** [Store.GetKey]: an absent name is not an error, an undecodable record is. *)
Definition GetKey (name : string) (st : Store) : result string (option Key) :=
  match st_refs st !! name with
  | None => Ok None
  | Some k => if st_rerr st name then Err ("ref " +:+ name) else Ok (Some k)
  end.

Inductive del_err := ErrRefNotFound | ErrDelete.

Definition DeleteRef (name : string) (st : Store) : Store * result del_err unit :=
  match st_refs st !! name with
  | None => (st, Err ErrRefNotFound)
  | Some _ => if st_werr st name then (st, Err ErrDelete) else (log_wop (WDel name) st, Ok tt)
  end.

(** Reading a file through a reference (src/sched/node.go [readRefFileLocked]). *)
Definition readRefFile (name : string) (st : Store) : result string string :=
  match GetKey name st with
  | Err e => Err e
  | Ok None => Err (name +:+ " not found")
  | Ok (Some k) => obj_ReadFile (st_objs st) k
  end.

(** ** The journal and crashes *)

(** [extends st st' ws]: [st'] is [st] after exactly the writes [ws]. *)
Definition extends (st st' : Store) (ws : list wop) : Prop :=
  st_journal st' = st_journal st ++ ws ∧
  st_refs st' = replay (st_refs st) ws ∧
  st_rerr st' = st_rerr st ∧ st_werr st' = st_werr st.

(** [crash_safe I st st']: the references satisfy [I] however many of the
    writes between [st] and [st'] reached the disk. *)
Definition crash_safe (I : gmap string Key → Prop) (st st' : Store) : Prop :=
  ∃ ws, extends st st' ws ∧ ∀ n, I (replay (st_refs st) (take n ws)).

Lemma extends_refl st : extends st st [].
Proof. split_and!; by rewrite ?app_nil_r. Qed.

Lemma extends_set_objs o st : extends st (set_objs o st) [].
Proof. split_and!; simpl; by rewrite ?app_nil_r. Qed.

Lemma extends_trans st1 st2 st3 ws1 ws2 :
  extends st1 st2 ws1 → extends st2 st3 ws2 → extends st1 st3 (ws1 ++ ws2).
Proof.
  intros (Hj1 & Hr1 & He1 & Hw1) (Hj2 & Hr2 & He2 & Hw2). split_and!; [|..|congruence].
  - by rewrite Hj2, Hj1, <- (assoc_L (++)).
  - rewrite Hr2, Hr1. unfold replay. by rewrite foldl_app.
  - congruence.
Qed.

Lemma extends_log w st : extends st (log_wop w st) [w].
Proof. by split_and!. Qed.

Lemma PutRef_extends name k st st' r :
  PutRef name k st = (st', r) → extends st st' (match r with Ok _ => [WPut name k] | Err _ => [] end).
Proof.
  unfold PutRef. do 2 case_match; intros [= <- <-]; auto using extends_refl, extends_log.
Qed.

Lemma PutRef_Ok name k st st' :
  PutRef name k st = (st', Ok tt) → extends st st' [WPut name k].
Proof. apply PutRef_extends. Qed.

Lemma replay_app m ws1 ws2 : replay m (ws1 ++ ws2) = replay (replay m ws1) ws2.
Proof. apply foldl_app. Qed.

Lemma crash_safe_refl (I : gmap string Key → Prop) st : I (st_refs st) → crash_safe I st st.
Proof. intros HI. exists []. split; [apply extends_refl|]. intros n. by rewrite take_nil. Qed.

Lemma crash_safe_objs (I : gmap string Key → Prop) o st : I (st_refs st) → crash_safe I st (set_objs o st).
Proof. intros HI. exists []. split; [apply extends_set_objs|]. intros n. by rewrite take_nil. Qed.

Lemma crash_safe_end I st st' : crash_safe I st st' → I (st_refs st').
Proof.
  intros (ws & (_ & Hr & _) & HI). rewrite Hr. specialize (HI (length ws)).
  by rewrite take_ge in HI.
Qed.

Lemma crash_safe_trans I st1 st2 st3 :
  crash_safe I st1 st2 → crash_safe I st2 st3 → crash_safe I st1 st3.
Proof.
  intros (ws1 & E1 & H1) (ws2 & E2 & H2). exists (ws1 ++ ws2).
  split; [by eapply extends_trans|]. intros n. rewrite take_app.
  destruct (decide (n <= length ws1)%nat).
  - replace (n - length ws1) with 0 by lia.
    rewrite take_0, app_nil_r. apply H1.
  - rewrite take_ge by lia. rewrite replay_app.
    destruct E1 as (_ & <- & _). apply H2.
Qed.

(** One write keeps an invariant: the store before it and after it satisfy it. *)
Lemma crash_safe_put (I : gmap string Key → Prop) name k st st' r :
  I (st_refs st) → I (<[name := k]> (st_refs st)) →
  PutRef name k st = (st', r) → crash_safe I st st'.
Proof.
  intros HI HI' H. pose proof (PutRef_extends _ _ _ _ _ H) as HE.
  eexists; split; [exact HE|]. intros n. destruct r; [|by rewrite take_nil].
  destruct n; [done|]. simpl. by rewrite take_nil.
Qed.

Lemma GetKey_refs name st st' :
  st_refs st' !! name = st_refs st !! name → st_rerr st' = st_rerr st →
  GetKey name st' = GetKey name st.
Proof. unfold GetKey. by intros -> ->. Qed.

Lemma GetKey_Some name k st : GetKey name st = Ok (Some k) → st_refs st !! name = Some k.
Proof. unfold GetKey. repeat case_match; naive_solver. Qed.

(** ** Reference names *)

Definition import_output (k : Key) := "import-output:" +:+ key_String k.
Definition build_from (k : Key) := "build-from:" +:+ key_String k.
Definition build_from_tree (k : Key) := "build-from-tree:" +:+ key_String k.
Definition build_plugin_resolved (k : Key) := "build-plugin-resolved:" +:+ key_String k.
Definition build_pinned (k : Key) := "build-pinned:" +:+ key_String k.
Definition build_output (k : Key) := "build-output:" +:+ key_String k.
Definition build_output_deps (k : Key) := "build-output-deps:" +:+ key_String k.

(** src/sched/pullrefs.go [FTreeRef], src/cover/cover.go [KPTreeRef], [PinCoverRef]. *)
Definition KPVersion : Z := 2.
Definition FTreeRef (f : Key) : string := "f-tree/" +:+ key_String f.
Definition KPTreeRef (kp : Key) : string := "kp-tree/" +:+ key_String kp.
Definition PinCoverRef (f : Key) : string := "pin-cover/" +:+ itoa KPVersion +:+ ":" +:+ key_String f.
End Store.

Arguments extends_trans {KL SL} st1 st2 st3 ws1 ws2.
#[export] Hint Resolve extends_refl extends_log extends_set_objs : jobs.
