(* ===== verification/Gate.v ===== *)
(** * The ref gate (src/sched/gate.go)

    Which reference names a finished stage may publish. [gateAllowed] is the
    code; [permitted] is the allow-table its comment states, as a relation; the
    theorem at the end says the code implements the table. *)
From S2P Require Import Prelude GoLib Keys Wire Builddef Store.
From Stdlib Require Import Ascii.
Local Open Scope string_scope.
Local Open Scope list_scope.

Section Gate.
Context `{SL : StoreLib}.

(** The per-entry decision [checkRefName]. *)
Definition checkRefName (kd : kind) (K reportedF platform : string)
    (declared : gset string) (r : RefProposal) : result string unit :=
  let name := r_Name r in
  let refuse := Err ("ref " +:+ name +:+ " not permitted for " +:+ kind_name kd +:+ "|" +:+ K) in
  if HasPrefix name "build-cache:" then
    if negb (bool_decide (kd = KindBuildRun)) then refuse
    else match ParseCacheRefName name with
         | None => Err ("ref " +:+ name +:+ ": malformed build-cache name")
         | Some (id, plat) =>
             if negb (String.eqb plat platform) then
               Err ("ref " +:+ name +:+ ": platform does not match")
             else if bool_decide (id ∈ declared) then Ok tt
             else Err ("ref " +:+ name +:+ ": cache id not declared")
         end
  else match CutPrefix name "build-from-tree:" with
  | Some hexPart =>
      match kd with
      | KindBuildFrom | KindPluginResolve | KindPin =>
          match parseHexKey hexPart with
          | None => Err ("ref " +:+ name +:+ ": bad key")
          | Some parsedKey =>
              if negb (String.eqb hexPart (key_String parsedKey)) then
                Err ("ref " +:+ name +:+ ": non-canonical hex key")
              else if negb (String.eqb (r_Key r) (key_bytes parsedKey)) then
                Err ("ref " +:+ name +:+ ": entry key value does not match the name's own key")
              else if bool_decide (kd = KindBuildFrom) && negb (String.eqb hexPart reportedF) then
                Err ("ref " +:+ name +:+ ": does not match this batch's build-from value")
              else Ok tt
          end
      | _ => refuse
      end
  | None =>
      let ok :=
        match kd with
        | KindImport => String.eqb name ("import-output:" +:+ K)
        | KindBuildFrom => String.eqb name ("build-from:" +:+ K)
        | KindPluginResolve => String.eqb name ("build-plugin-resolved:" +:+ K)
        | KindPin => String.eqb name ("build-pinned:" +:+ K)
        | KindBuildRun => String.eqb name ("build-output:" +:+ K) || String.eqb name ("build-output-deps:" +:+ K)
        | KindBuildValue => false
        end in
      if ok then Ok tt else refuse
  end.

(** The F a buildfrom batch reports: the value of its last [build-from:K]
    entry; a value that is no key is an error. *)
Fixpoint reported (name : string) (acc : string) (refs : list RefProposal) : result string string :=
  match refs with
  | [] => Ok acc
  | r :: refs' =>
      if negb (String.eqb (r_Name r) name) then reported name acc refs'
      else match key_parse (r_Key r) with
           | None => Err ("ref " +:+ r_Name r +:+ ": bad key value")
           | Some fk => reported name (key_String fk) refs'
           end
  end.

Definition gateAllowed (kd : kind) (nodeKey : Key) (platform : string)
    (refs : list RefProposal) (declared : list PinnedCache) : result string unit :=
  let K := key_String nodeKey in
  (if bool_decide (kd = KindBuildFrom) then reported ("build-from:" +:+ K) "" refs else Ok "")
  ≫= λ reportedF,
  let declaredIDs := list_to_set (C := gset string) (c_ID <$> declared) in
  for_each (λ r,
    if negb (ValidateName (r_Name r)) then Err ("ref " +:+ r_Name r +:+ ": invalid name")
    else checkRefName kd K reportedF platform declaredIDs r) refs.

(** ** The allow-table *)

(** [batch_F k refs f]: the last [build-from:k] entry of the batch carries [f]. *)
Inductive batch_F (k : Key) : list RefProposal → Key → Prop :=
| batch_F_last r refs f :
    r_Name r = build_from k → r_Key r = key_bytes f →
    (∀ r', r' ∈ refs → r_Name r' ≠ build_from k) → batch_F k (r :: refs) f
| batch_F_skip r refs f : batch_F k refs f → batch_F k (r :: refs) f.

Inductive permitted (k : Key) (platform : string) (declared : list PinnedCache)
    (batch : list RefProposal) : kind → RefProposal → Prop :=
| perm_import r : r_Name r = import_output k → permitted k platform declared batch KindImport r
| perm_from r : r_Name r = build_from k → permitted k platform declared batch KindBuildFrom r
| perm_from_tree r f :
    r_Name r = build_from_tree f → r_Key r = key_bytes f → batch_F k batch f →
    permitted k platform declared batch KindBuildFrom r
| perm_resolved r : r_Name r = build_plugin_resolved k → permitted k platform declared batch KindPluginResolve r
| perm_pinned r : r_Name r = build_pinned k → permitted k platform declared batch KindPin r
| perm_tree kd r f :
    (kd = KindPluginResolve ∨ kd = KindPin) →
    r_Name r = build_from_tree f → r_Key r = key_bytes f → permitted k platform declared batch kd r
| perm_output r : r_Name r = build_output k → permitted k platform declared batch KindBuildRun r
| perm_output_deps r : r_Name r = build_output_deps k → permitted k platform declared batch KindBuildRun r
| perm_cache r id :
    r_Name r = CacheRefName id platform → ValidateCacheID id = Ok tt → platform ≠ "" →
    id ∈ (c_ID <$> declared) → permitted k platform declared batch KindBuildRun r.

(** ** The code implements the table *)

(** The bytes of a key value are those of the key it parses to. *)
Lemma key_value_inv b f : key_parse b = Some f → b = key_bytes f.
Proof. intros H. symmetry. by apply key_parse_inv. Qed.

Lemma reported_spec k refs acc s :
  reported (build_from k) acc refs = Ok s ↔
  (∀ r, r ∈ refs → r_Name r = build_from k → is_Some (key_parse (r_Key r))) ∧
  ((∃ f, batch_F k refs f ∧ s = key_String f) ∨
   ((∀ r, r ∈ refs → r_Name r ≠ build_from k) ∧ s = acc)).
Proof.
  revert acc. induction refs as [|r refs IH]; intros acc; simpl.
  { split.
    - intros [= <-]. split; [set_solver|]. right. set_solver.
    - intros [_ [(f & Hf & _)|[_ ->]]]; [inversion Hf|done]. }
  destruct (String.eqb_spec (r_Name r) (build_from k)) as [Hr|Hr]; simpl.
  - destruct (key_parse (r_Key r)) as [fk|] eqn:Ek.
    + rewrite IH. split.
      * intros [Hp Hs]. split.
        { intros r' [->|Hin]%elem_of_cons; [by rewrite Ek|by apply Hp]. }
        left. destruct Hs as [(f & Hf & ->)|[Hno ->]].
        { exists f. split; [by constructor 2|done]. }
        exists fk. split; [|done]. constructor 1; [done| by apply key_value_inv |done].
      * intros [Hp Hs]. split; [intros; apply Hp; [by right|done]|].
        destruct Hs as [(f & Hf & ->)|[Hno ->]]; [|exfalso; apply (Hno r); [left|done]].
        inversion Hf as [? ? ? _ Hk Hno|? ? ? Hf']; subst; [right|left; eauto].
        split; [done|]. rewrite Hk, key_parse_bytes in Ek. by simplify_eq.
    + split; [done|]. intros [Hp _]. destruct (Hp r) as [x Hx]; [left|done|congruence].
  - rewrite IH. split.
    + intros [Hp Hs]. split.
      { intros r' [->|Hin]%elem_of_cons Hn; [done|by apply Hp]. }
      destruct Hs as [(f & Hf & ->)|[Hno ->]]; [left; exists f; split; [by constructor 2|done]|].
      right. split; [|done]. by intros r' [->|Hin]%elem_of_cons; [|apply Hno].
    + intros [Hp Hs]. split; [intros; apply Hp; [by right|done]|].
      destruct Hs as [(f & Hf & ->)|[Hno ->]].
      * inversion Hf; subst; [done|]. left; eauto.
      * right. split; [|done]. intros; apply Hno; by right.
Qed.

(** Names of the table that no other branch of [checkRefName] catches. *)
Lemma tree_name_iff name hexPart f :
  CutPrefix name "build-from-tree:" = Some hexPart →
  (parseHexKey hexPart = Some f ∧ hexPart = key_String f) ↔ name = build_from_tree f.
Proof.
  intros ->%CutPrefix_Some. unfold build_from_tree. split.
  - by intros [_ ->].
  - intros H%append_inj_l. subst. split; [apply parseHexKey_String|done].
Qed.

Lemma elem_declared id (declared : list PinnedCache) :
  id ∈ list_to_set (C := gset string) (c_ID <$> declared) ↔ id ∈ (c_ID <$> declared).
Proof. apply elem_of_list_to_set. Qed.

(** The three shapes of a name: a cache, a source tree, or a plain name. *)
Lemma check_cache kd K reportedF platform declared r rest :
  r_Name r = "build-cache:" +:+ rest →
  checkRefName kd K reportedF platform declared r = Ok tt ↔
  kd = KindBuildRun ∧ ∃ id, r_Name r = CacheRefName id platform ∧
    ValidateCacheID id = Ok tt ∧ platform ≠ "" ∧ id ∈ declared.
Proof.
  intros Hn. unfold checkRefName. rewrite Hn, HasPrefix_app.
  case_bool_decide as Hk; simpl; [|naive_solver].
  destruct (ParseCacheRefName ("build-cache:" +:+ rest)) as [[id plat]|] eqn:E.
  - apply cache_ref_parse in E as (Hname & Hid & Hp). rewrite Hname.
    destruct (String.eqb_spec plat platform) as [->|Hne]; simpl.
    + case_bool_decide as Hd.
      * split; [|done]. intros _. split; [done|]. eauto.
      * split; [done|]. intros (_ & id' & Hn' & Hid' & _ & Hin). exfalso. apply Hd.
        assert (Some (id, platform) = Some (id', platform)) as [= ->]; [|done].
        transitivity (ParseCacheRefName (CacheRefName id platform)).
        { symmetry. by apply cache_ref_parse. }
        apply cache_ref_parse. done.
    + split; [done|]. intros (_ & id' & Hn' & Hid' & Hp' & _). exfalso. apply Hne.
      assert (Some (id, plat) = Some (id', platform)) as [= -> ->]; [|done].
      transitivity (ParseCacheRefName (CacheRefName id plat)).
      { symmetry. by apply cache_ref_parse. }
      apply cache_ref_parse. done.
  - split; [done|]. intros (_ & id & Hn' & Hid & Hp & _). exfalso.
    rewrite (proj2 (cache_ref_parse ("build-cache:" +:+ rest) id platform)) in E; done.
Qed.

Lemma check_tree kd K reportedF platform declared r hexPart :
  r_Name r = "build-from-tree:" +:+ hexPart →
  checkRefName kd K reportedF platform declared r = Ok tt ↔
  ∃ f, hexPart = key_String f ∧ r_Key r = key_bytes f ∧
    (kd = KindPluginResolve ∨ kd = KindPin ∨ kd = KindBuildFrom ∧ reportedF = key_String f).
Proof.
  intros Hn. unfold checkRefName. rewrite Hn.
  change (HasPrefix ("build-from-tree:" +:+ hexPart) "build-cache:") with false.
  rewrite CutPrefix_app. cbv iota beta.
  destruct (parseHexKey hexPart) as [f|] eqn:Ep.
  - destruct (String.eqb_spec hexPart (key_String f)) as [Hf|Hf]; simpl.
    + destruct (String.eqb_spec (r_Key r) (key_bytes f)) as [Hk|Hk]; simpl.
      * destruct (String.eqb_spec hexPart reportedF) as [Hr|Hr], kd; simpl;
          (split; [intros; try discriminate; exists f; split_and!; auto; naive_solver
                  |intros (f' & Hf' & Hk' & Hor); try done; exfalso;
                   rewrite Hf in Hf'; apply key_String_inj in Hf' as <-; naive_solver]).
      * split; [destruct kd; simpl; done|]. intros (f' & Hf' & Hk' & _). exfalso.
        rewrite Hf in Hf'. apply key_String_inj in Hf' as <-. done.
    + split; [destruct kd; simpl; done|]. intros (f' & -> & _). exfalso.
      rewrite parseHexKey_String in Ep. naive_solver.
  - split; [destruct kd; simpl; done|]. intros (f' & -> & _). exfalso.
    rewrite parseHexKey_String in Ep. naive_solver.
Qed.

Lemma check_plain kd k reportedF platform declared r :
  HasPrefix (r_Name r) "build-cache:" = false →
  CutPrefix (r_Name r) "build-from-tree:" = None →
  checkRefName kd (key_String k) reportedF platform declared r = Ok tt ↔
  match kd with
  | KindImport => r_Name r = import_output k
  | KindBuildFrom => r_Name r = build_from k
  | KindPluginResolve => r_Name r = build_plugin_resolved k
  | KindPin => r_Name r = build_pinned k
  | KindBuildRun => r_Name r = build_output k ∨ r_Name r = build_output_deps k
  | KindBuildValue => False
  end.
Proof.
  intros Hc Ht. unfold checkRefName. rewrite Hc, Ht. cbv zeta.
  unfold import_output, build_from, build_plugin_resolved, build_pinned, build_output, build_output_deps.
  destruct kd;
    repeat match goal with |- context [String.eqb ?a ?b] => destruct (String.eqb_spec a b) end;
    simpl; naive_solver.
Qed.

Lemma checkRefName_spec kd k platform declared batch reportedF r :
  (kd = KindBuildFrom → ∀ f, reportedF = key_String f ↔ batch_F k batch f) →
  checkRefName kd (key_String k) reportedF platform (list_to_set (c_ID <$> declared)) r = Ok tt ↔
  permitted k platform declared batch kd r.
Proof.
  intros HF. destruct (HasPrefix (r_Name r) "build-cache:") eqn:Ec.
  { apply HasPrefix_iff in Ec as [rest Hr]. rewrite (check_cache _ _ _ _ _ _ _ Hr). split.
    - intros (-> & id & Hn & Hid & Hp & Hin). apply elem_declared in Hin. by econstructor.
    - intros Hp; inversion Hp; subst; try (exfalso; congruence || by rewrite Hr in *).
      split; [done|]. eexists. rewrite elem_declared. eauto. }
  destruct (CutPrefix (r_Name r) "build-from-tree:") as [hexPart|] eqn:Et.
  { apply CutPrefix_Some in Et. rewrite (check_tree _ _ _ _ _ _ _ Et). split.
    - intros (f & -> & Hk & [->|[->|[-> Hrep]]]).
      + eapply perm_tree; eauto.
      + eapply perm_tree; eauto.
      + eapply perm_from_tree; eauto. by apply HF.
    - intros Hp; inversion Hp as [| |? f Hn Hk Hb| | |? ? f Hor Hn Hk| | |]; subst;
        try (exfalso; congruence || by rewrite Et in *);
        exists f; rewrite Et in Hn; apply append_inj_l in Hn; split_and!; auto;
        [|tauto]. right; right. split; [done|]. by apply HF. }
  rewrite (check_plain _ _ _ _ _ _ Ec Et). split.
  - destruct kd; try tauto; intros H; try (constructor; exact H).
    destruct H; [by constructor 7|by constructor 8].
  - intros Hp; inversion Hp as [| |? f Hn| | |? ? f ? Hn| | |? ? Hn]; subst; auto; exfalso.
    + rewrite Hn in Et. unfold build_from_tree in Et. by rewrite CutPrefix_app in Et.
    + rewrite Hn in Et. unfold build_from_tree in Et. by rewrite CutPrefix_app in Et.
    + rewrite Hn in Ec. unfold CacheRefName in Ec. by rewrite HasPrefix_app in Ec.
Qed.

Lemma batch_F_fun k batch f f' : batch_F k batch f → batch_F k batch f' → f = f'.
Proof.
  induction 1 as [r refs f Hn Hk Hno|r refs f Hb IH]; intros Hb'.
  - inversion Hb' as [? ? ? _ Hk' _|? ? ? Hb'']; subst.
    + rewrite Hk in Hk'. by apply key_bytes_inj.
    + exfalso. clear -Hb'' Hno. induction Hb'' as [r' refs f' Hn|r' refs f' _ IH].
      * apply (Hno r'); [left|done].
      * apply IH. intros r'' Hin. apply Hno. by right.
  - inversion Hb' as [? ? ? _ _ Hno|? ? ? Hb'']; subst; [|auto].
    exfalso. clear -Hb Hno. induction Hb as [r' refs f' Hn|r' refs f' _ IH].
    * apply (Hno r'); [left|done].
    * apply IH. intros r'' Hin. apply Hno. by right.
Qed.

Lemma batch_F_named k batch f : batch_F k batch f → ∃ r, r ∈ batch ∧ r_Name r = build_from k.
Proof.
  induction 1 as [r refs f Hn|r refs f _ (r' & Hin & Hn)].
  - exists r. split; [left|done].
  - exists r'. split; [by right|done].
Qed.

Lemma gateAllowed_spec kd k platform refs declared :
  gateAllowed kd k platform refs declared = Ok tt ↔
  (kd = KindBuildFrom → ∀ r, r ∈ refs → r_Name r = build_from k → is_Some (key_parse (r_Key r))) ∧
  ∀ r, r ∈ refs → ValidateName (r_Name r) = true ∧ permitted k platform declared refs kd r.
Proof.
  unfold gateAllowed. fold (build_from k).
  assert (Hloop : ∀ rep,
    (kd = KindBuildFrom → ∀ f, rep = key_String f ↔ batch_F k refs f) →
    for_each (λ r, if negb (ValidateName (r_Name r)) then Err ("ref " +:+ r_Name r +:+ ": invalid name")
      else checkRefName kd (key_String k) rep platform (list_to_set (c_ID <$> declared)) r) refs = Ok tt ↔
    ∀ r, r ∈ refs → ValidateName (r_Name r) = true ∧ permitted k platform declared refs kd r).
  { intros rep Hrep. rewrite for_each_Ok, Forall_forall. split; intros H r Hr; specialize (H r Hr).
    - destruct (ValidateName (r_Name r)); [|done]. split; [done|]. by apply (checkRefName_spec _ _ _ _ _ _ _ Hrep).
    - destruct H as [-> Hp]. simpl. by apply (checkRefName_spec _ _ _ _ _ _ _ Hrep). }
  case_bool_decide as Hk; simpl.
  - destruct (reported (build_from k) "" refs) as [rep|e] eqn:E; simpl.
    + apply reported_spec in E as [Hparse Hrep]. rewrite Hloop; [naive_solver|].
      intros _ f. destruct Hrep as [(f' & Hf' & ->)|[Hno ->]].
      * split; [intros ->%key_String_inj; done|]. intros Hf. f_equal. by eapply batch_F_fun.
      * split; [intros H; by destruct (key_String_nonempty f)|].
        intros Hf. apply batch_F_named in Hf as (r & Hr & Hn). by destruct (Hno r).
    + split; [done|]. intros [Hp _]. exfalso. specialize (Hp Hk).
      assert (∃ s, reported (build_from k) "" refs = Ok s) as [s Hs]; [|congruence].
      clear -Hp. generalize "". revert Hp. induction refs as [|r refs IH]; intros Hp acc; simpl; [eauto|].
      destruct (String.eqb_spec (r_Name r) (build_from k)); simpl.
      * destruct (Hp r ltac:(left) e) as [fk ->]. apply IH. intros; apply Hp; [by right|done].
      * apply IH. intros; apply Hp; [by right|done].
  - rewrite Hloop by done. naive_solver.
Qed.

(** A permitted name that is neither a source tree nor a cache belongs to
    exactly one node. *)
Definition shared_name (name : string) : bool :=
  HasPrefix name "build-from-tree:" || HasPrefix name "build-cache:".

Lemma shared_tree f : shared_name (build_from_tree f) = true.
Proof. unfold shared_name, build_from_tree. by rewrite HasPrefix_app. Qed.

Lemma shared_cache id p : shared_name (CacheRefName id p) = true.
Proof. unfold shared_name, CacheRefName. by rewrite HasPrefix_app, orb_true_r. Qed.

Lemma permitted_owner kd k p d b kd' k' p' d' b' r r' :
  permitted k p d b kd r → permitted k' p' d' b' kd' r' →
  r_Name r = r_Name r' → shared_name (r_Name r) = false → kd = kd' ∧ k = k'.
Proof.
  intros H1 H2 He Hs. pose proof (shared_tree) as Ht. pose proof shared_cache as Hc.
  destruct H1; try congruence; destruct H2; try congruence;
    match goal with H1 : r_Name _ = ?a, H2 : r_Name _ = ?b |- _ =>
      rewrite H1, H2 in He; first [apply ref_name_inj in He; by split | by (exfalso; discriminate He)] end.
Qed.

(** ** Properties *)

(** [C20] The gate implements the allow-table: it accepts a batch exactly when
    every name is valid and permitted to the node's kind and key, a tree name
    is bound to the key it carries (and, for buildfrom, to the F the same
    batch reports), and a cache id is one the build declared. *)
Theorem gate_implements_table kd k platform refs declared :
  gateAllowed kd k platform refs declared = Ok tt ↔
  (kd = KindBuildFrom → ∀ r, r ∈ refs → r_Name r = build_from k → is_Some (key_parse (r_Key r))) ∧
  ∀ r, r ∈ refs → ValidateName (r_Name r) = true ∧ permitted k platform declared refs kd r.
Proof. apply gateAllowed_spec. Qed.

(** Two nodes never share a published name: if the gate accepts the same
    name for two nodes, then it is a content-addressed tree name or a
    declared cache, or the nodes are the same. *)
Theorem gate_names_disjoint kd k p refs d kd' k' p' refs' d' r r' :
  gateAllowed kd k p refs d = Ok tt → gateAllowed kd' k' p' refs' d' = Ok tt →
  r ∈ refs → r' ∈ refs' → r_Name r = r_Name r' →
  shared_name (r_Name r) = true ∨ (kd = kd' ∧ k = k').
Proof.
  intros [_ H1]%gateAllowed_spec [_ H2]%gateAllowed_spec Hr Hr' He.
  destruct (H1 r Hr) as [_ P1], (H2 r' Hr') as [_ P2].
  destruct (shared_name (r_Name r)) eqn:Es; [by left|right]. by eapply permitted_owner.
Qed.
End Gate.

(** A concrete library for the witnesses: every name is valid, a file is its
    own content, and nothing is missing. *)
Definition demo_lib : @StoreLib string_keys := {|
  Objs := unit;
  ValidateName := λ n, negb (String.eqb n "");
  FileKey := λ b, @Ok string (@Key string_keys) b;
  obj_ReadFile := λ _ k, @Ok string string k;
  obj_CheckComplete := λ _ _, Ok tt;
  obj_IngestFile := λ o b, (o, @Ok string (@Key string_keys) b);
  obj_TreeSubdir := λ _ k n, @Ok string (option (@Key string_keys)) (Some k);
  obj_Derive := λ o b _ _ _, (o, @Ok string (@Key string_keys) b);
  dec_Import := λ _, Err "no import";
  dec_Definition := λ _, Err "no definition";
  dec_PluginResolved := λ _, Err "no plugins";
  dec_Pinned := λ _, Err "no pinned";
  dec_TreeKey := λ b, @Ok string (@Key string_keys) b |}.

Lemma gate_names_disjoint_witness :
  let r := mkRef (@build_output string_keys "f") (String "k" "o") "" in
  shared_name (r_Name r) = true ∨ (KindBuildRun = KindBuildRun ∧ "f" = "f").
Proof.
  intros r.
  apply (@gate_names_disjoint string_keys demo_lib
           KindBuildRun "f" "linux/arm64" [r] [] KindBuildRun "f" "linux/amd64" [r] [] r r).
  - vm_compute. reflexivity.
  - vm_compute. reflexivity.
  - left.
  - left.
  - reflexivity.
Defined.
