(* ===== verification/Commit.v ===== *)
(** * Publishing references: commits, KP derivation and F aliases
    (src/sched/results.go [commit], src/sched/kp.go, src/sched/pullrefs.go
    [healCarrierLocked])

    Every operation threads the store and returns Go's error; what a crash
    between two of its writes leaves behind is a prefix of the journal. *)
From S2P Require Import Prelude GoLib Keys Wire Builddef Store Gate.
From Stdlib Require Import Ascii.
Local Open Scope string_scope.
Local Open Scope list_scope.

Section Commit.
Context `{SL : StoreLib}.

(** ** Store operations with errors *)

Definition SE (A : Type) : Type := Store → Store * result string A.

Global Instance SE_ret : MRet SE := λ A a st, (st, Ok a).
Global Instance SE_bind : MBind SE := λ A B k m st,
  let '(st', r) := m st in
  match r with Ok a => k a st' | Err e => (st', Err e) end.

Definition se_err {A} (e : string) : SE A := λ st, (st, Err e).
Definition se_get (name : string) : SE (option Key) := λ st, (st, GetKey name st).
Definition se_put (name : string) (k : Key) : SE unit := PutRef name k.
Definition se_obj {A} (f : Objs → result string A) : SE A := λ st, (st, f (st_objs st)).
Definition se_ingest {A} (f : Objs → Objs * result string A) : SE A := λ st,
  let '(o, r) := f (st_objs st) in (set_objs o st, r).
Definition se_lift {A} (r : result string A) : SE A := λ st, (st, r).

(** ** KP derivation *)

Definition deriveKP (f : Key) : SE Key :=
  pk ← se_get (build_pinned f);
  match pk with
  | None => se_err (build_pinned f +:+ " not found")
  | Some pinnedKey =>
      pinnedBytes ← se_obj (λ o, obj_ReadFile o pinnedKey);
      pinned ← se_lift (dec_Pinned pinnedBytes);
      env ← se_obj (λ o, obj_TreeSubdir o f "env");
      match env with
      | None => se_err "F-tree env subtree"
      | Some env =>
          plat ← se_obj (λ o, obj_TreeSubdir o f "platform");
          match plat with
          | None => se_err "F-tree platform entry"
          | Some platKey =>
              platform ← se_obj (λ o, obj_ReadFile o platKey);
              kp ← se_ingest (λ o, obj_Derive o pinnedBytes pinned platform env);
              se_put (build_pinned kp) pinnedKey;;
              se_put (KPTreeRef kp) kp;;
              se_put (PinCoverRef f) kp;;
              mret kp
          end
      end
  end.

Definition resolveKP (f : Key) : SE Key :=
  kp ← se_get (PinCoverRef f);
  match kp with
  | Some kp => mret kp
  | None => deriveKP f
  end.

(** ** F aliases and carriers *)

Definition ensureFAliases (f kp : Key) : SE unit :=
  cur ← se_get (build_output f);
  match cur with
  | Some _ => mret tt
  | None =>
      deps ← se_get (build_output_deps kp);
      out ← se_get (build_output kp);
      match out, deps with
      | Some out, Some deps =>
          se_put (build_output_deps f) deps;;
          se_put (build_output f) out
      | _, _ => se_err ("build-output(-deps):" +:+ key_String kp +:+ " missing for done buildrun")
      end
  end.

Definition healCarrier (name : string) (k : Key) : SE unit :=
  cur ← se_get name;
  match cur with
  | Some _ => mret tt
  | None => se_put name k
  end.

(** ** Commit *)

Record commitSpec := mkSpec {
  cs_kind : kind; cs_key : Key; cs_platform : string;
  cs_caches : list PinnedCache; cs_refs : list RefProposal }.

(** A gate rejection is distinguished from every other failure. *)
Inductive commit_err := CGate (e : string) | CFail (e : string).

Definition SC (A : Type) : Type := Store → Store * result commit_err A.

Definition sc_lift (m : SE unit) : SC unit := λ st,
  let '(st', r) := m st in
  (st', match r with Ok a => Ok a | Err e => Err (CFail e) end).

Fixpoint parse_keys (refs : list RefProposal) : result string (list Key) :=
  match refs with
  | [] => Ok []
  | r :: refs' =>
      match key_parse (r_Key r) with
      | None => Err ("ref " +:+ r_Name r +:+ ": bad key")
      | Some k => ks ← parse_keys refs'; Ok (k :: ks)
      end
  end.

Fixpoint put_refs (ws : list (string * Key)) : SE unit :=
  match ws with
  | [] => mret tt
  | (n, k) :: ws' => se_put n k;; put_refs ws'
  end.

(** The carriers a buildfrom commit adds: one per entry named [build-from:K]. *)
Definition ftree_writes (K : Key) (ws : list (string * Key)) : list (string * Key) :=
  (λ w, (FTreeRef w.2, w.2)) <$> List.filter (λ w, String.eqb w.1 (build_from K)) ws.

Definition commit_tail (sp : commitSpec) (ws : list (string * Key)) : SE unit :=
  put_refs ws;;
  (if bool_decide (cs_kind sp = KindBuildFrom) then put_refs (ftree_writes (cs_key sp) ws)
   else mret tt);;
  if bool_decide (cs_kind sp = KindPin) then deriveKP (cs_key sp);; mret tt
  else mret tt.

Definition commit (sp : commitSpec) : SC unit := λ st,
  match gateAllowed (cs_kind sp) (cs_key sp) (cs_platform sp) (cs_refs sp) (cs_caches sp) with
  | Err e => (st, Err (CGate e))
  | Ok _ =>
      match parse_keys (cs_refs sp) with
      | Err e => (st, Err (CGate e))
      | Ok keys =>
          match for_each (obj_CheckComplete (st_objs st)) keys with
          | Err e => (st, Err (CFail e))
          | Ok _ => sc_lift (commit_tail sp (zip (r_Name <$> cs_refs sp) keys)) st
          end
      end
  end.

Definition isGateError (e : commit_err) : bool :=
  match e with CGate _ => true | CFail _ => false end.

(** ** Reasoning about store operations *)

(** [hoare I P m Q]: from references satisfying [P] and [I], [m] keeps [I] at
    every crash point and, when it succeeds, ends in references satisfying [Q]. *)
Definition hoare {A} (I P : gmap string Key → Prop) (m : SE A)
    (Q : A → gmap string Key → Prop) : Prop :=
  ∀ st st' r, P (st_refs st) → I (st_refs st) → m st = (st', r) →
  crash_safe I st st' ∧ ∀ a, r = Ok a → Q a (st_refs st').

Section Rules.
Context (I : gmap string Key → Prop).

Lemma h_ret {A} P (a : A) (Q : A → gmap string Key → Prop) :
  (∀ m, I m → P m → Q a m) → hoare I P (mret a) Q.
Proof.
  intros HQ st st' r HP HI [= <- <-]. split; [by apply crash_safe_refl|].
  intros ? [= <-]. auto.
Qed.

Lemma h_err {A} P e (Q : A → gmap string Key → Prop) : hoare I P (se_err e) Q.
Proof. intros st st' r HP HI [= <- <-]. split; [by apply crash_safe_refl|done]. Qed.

Lemma h_get P name (Q : option Key → gmap string Key → Prop) :
  (∀ m, I m → P m → Q (m !! name) m) → hoare I P (se_get name) Q.
Proof.
  intros HQ st st' r HP HI [= <- <-]. split; [by apply crash_safe_refl|].
  unfold GetKey. intros o H. specialize (HQ _ HI HP).
  destruct (st_refs st !! name); [destruct (st_rerr st name)|]; naive_solver.
Qed.

Lemma h_obj {A} P f (Q : A → gmap string Key → Prop) :
  (∀ a m, I m → P m → Q a m) → hoare I P (se_obj f) Q.
Proof. intros HQ st st' r HP HI [= <- <-]. split; [by apply crash_safe_refl|]. auto. Qed.

Lemma h_lift {A} P x (Q : A → gmap string Key → Prop) :
  (∀ a m, I m → P m → Q a m) → hoare I P (se_lift x) Q.
Proof. intros HQ st st' r HP HI [= <- <-]. split; [by apply crash_safe_refl|]. auto. Qed.

Lemma h_ingest {A} P f (Q : A → gmap string Key → Prop) :
  (∀ a m, I m → P m → Q a m) → hoare I P (se_ingest f) Q.
Proof.
  intros HQ st st' r HP HI. unfold se_ingest. destruct (f (st_objs st)) as [o x].
  intros [= <- <-]. split; [by apply crash_safe_objs|]. simpl. auto.
Qed.

Lemma h_put P name k (Q : unit → gmap string Key → Prop) :
  (∀ m, I m → P m → I (<[name := k]> m) ∧ Q tt (<[name := k]> m)) → hoare I P (se_put name k) Q.
Proof.
  intros HQ st st' r HP HI H. destruct (HQ _ HI HP) as [HI' HQ']. split.
  - by eapply crash_safe_put.
  - intros [] ->. apply PutRef_Ok in H as (_ & -> & _). done.
Qed.

Lemma h_bind {A B} P (m : SE A) (k : A → SE B) Q R :
  hoare I P m Q → (∀ a, hoare I (Q a) (k a) R) → hoare I P (m ≫= k) R.
Proof.
  intros Hm Hk st st' r HP HI. unfold mbind, SE_bind.
  destruct (m st) as [st1 r1] eqn:E. destruct (Hm _ _ _ HP HI E) as [Hs HQ].
  destruct r1 as [a|e].
  - intros H. destruct (Hk a _ _ _ (HQ a eq_refl) (crash_safe_end _ _ _ Hs) H) as [Hs' HR].
    split; [by eapply crash_safe_trans|done].
  - intros [= <- <-]. by split.
Qed.

Lemma h_weaken {A} (P P' : gmap string Key → Prop) (m : SE A) (Q Q' : A → gmap string Key → Prop) :
  (∀ x, P' x → P x) → (∀ a x, Q a x → Q' a x) → hoare I P m Q → hoare I P' m Q'.
Proof.
  intros HP HQ Hm st st' r H1 HI H. destruct (Hm _ _ _ (HP _ H1) HI H) as [? ?]. eauto.
Qed.
End Rules.

(** Step through a sequence of store operations. *)
Ltac hstep :=
  lazymatch goal with
  | |- hoare _ _ (mret _) _ => apply h_ret
  | |- hoare _ _ (se_err _) _ => apply h_err
  | |- hoare _ _ (mbind _ _) _ => eapply h_bind; [|intros ?]
  | |- hoare _ _ (match ?x with _ => _ end) _ => destruct x
  end.

(** ** Invariants of the reference names *)

(** A done-looking build has its runtime closure: [build-output:X] implies
    [build-output-deps:X]. *)
Definition output_has_deps (m : gmap string Key) : Prop :=
  ∀ x, is_Some (m !! build_output x) → is_Some (m !! build_output_deps x).

(** The same, but for the builds [X]. *)
Definition whole_but (X : Key → Prop) (m : gmap string Key) : Prop :=
  ∀ x, is_Some (m !! build_output x) → is_Some (m !! build_output_deps x) ∨ X x.

(** An output whose closure is missing. *)
Definition orphan (m : gmap string Key) (x : Key) : Prop :=
  is_Some (m !! build_output x) ∧ m !! build_output_deps x = None.

Lemma whole_but_orphans m : whole_but (orphan m) m.
Proof. intros x Hx. destruct (m !! build_output_deps x) eqn:E; [left; eauto|by right]. Qed.

Lemma whole_but_none m : whole_but (λ _, False) m ↔ output_has_deps m.
Proof. split; intros H x Hx; [by destruct (H x Hx)|left; auto]. Qed.

(** A KP binding is backed: [pin-cover/v:F] implies the pinned alias and the
    tree carrier of the KP it names. *)
Definition cover_bound (m : gmap string Key) : Prop :=
  ∀ f kp, m !! PinCoverRef f = Some kp →
  is_Some (m !! build_pinned kp) ∧ m !! KPTreeRef kp = Some kp.

(** Names of different families never coincide. *)
Definition is_output (n : string) : bool := HasPrefix n "build-output:".

Lemma output_ne_deps x y : build_output x ≠ build_output_deps y.
Proof. intros H. discriminate H. Qed.

Lemma WB_put_other X n k m :
  (∀ x, n ≠ build_output x) → whole_but X m → whole_but X (<[n := k]> m).
Proof.
  intros Hn HI x. rewrite lookup_insert_ne by done. intros [Hx|Hx]%HI; [left|by right].
  rewrite lookup_insert. by case_decide.
Qed.

Lemma WB_put_output X x k m :
  is_Some (m !! build_output_deps x) → whole_but X m → whole_but X (<[build_output x := k]> m).
Proof.
  intros Hd HI y. rewrite (lookup_insert_ne _ _ (build_output_deps y)) by (apply output_ne_deps).
  destruct (decide (x = y)) as [->|Hne]; [by left|]. rewrite lookup_insert_ne; [apply HI|].
  by intros ?%ref_name_inj.
Qed.

Lemma OD_put_other n k m :
  (∀ x, n ≠ build_output x) → output_has_deps m → output_has_deps (<[n := k]> m).
Proof. rewrite <- !whole_but_none. apply WB_put_other. Qed.

Lemma OD_put_output x k m :
  is_Some (m !! build_output_deps x) → output_has_deps m → output_has_deps (<[build_output x := k]> m).
Proof. rewrite <- !whole_but_none. apply WB_put_output. Qed.

Lemma pincover_inj f g : PinCoverRef f = PinCoverRef g → f = g.
Proof. unfold PinCoverRef. by intros ?%append_inj_l%append_inj_l%append_inj_l%key_String_inj. Qed.

Lemma CB_put_other n k m :
  (∀ f, n ≠ PinCoverRef f) → (∀ kp, n = KPTreeRef kp → k = kp) →
  cover_bound m → cover_bound (<[n := k]> m).
Proof.
  intros H1 H2 HI f kp. rewrite lookup_insert_ne by done. intros [Hp Ht]%HI. split.
  - rewrite lookup_insert. by case_decide.
  - rewrite lookup_insert. case_decide as Hd; [|done]. f_equal. by apply H2.
Qed.

Lemma CB_put_cover f kp m :
  is_Some (m !! build_pinned kp) → m !! KPTreeRef kp = Some kp →
  cover_bound m → cover_bound (<[PinCoverRef f := kp]> m).
Proof.
  intros Hp Ht HI g kq. rewrite lookup_insert.
  rewrite (lookup_insert_ne _ _ (build_pinned kq)) by discriminate.
  rewrite (lookup_insert_ne _ _ (KPTreeRef kq)) by discriminate.
  case_decide; [|apply HI]. by intros [= <-].
Qed.

(** ** The operations keep both *)

Lemma deriveKP_WB X f : hoare (whole_but X) (λ _, True) (deriveKP f) (λ _ _, True).
Proof.
  unfold deriveKP.
  repeat first [hstep | by eapply (h_get _ _ _ (λ _ _, True)) | by eapply (h_obj _ _ _ (λ _ _, True))
               | by eapply (h_lift _ _ _ (λ _ _, True)) | by eapply (h_ingest _ _ _ (λ _ _, True))
               | eapply (h_put _ _ _ _ (λ _ _, True)); intros m HI _; split;
                 [apply WB_put_other; [discriminate|done]|exact I] | done].
Qed.

Lemma deriveKP_CB f :
  hoare cover_bound (λ _, True) (deriveKP f) (λ kp m, m !! PinCoverRef f = Some kp).
Proof.
  unfold deriveKP.
  repeat first [hstep | by eapply (h_get _ _ _ (λ _ _, True)) | by eapply (h_obj _ _ _ (λ _ _, True))
               | by eapply (h_lift _ _ _ (λ _ _, True)) | by eapply (h_ingest _ _ _ (λ _ _, True))].
  - match goal with |- hoare _ _ (se_put (build_pinned ?kp) _) _ =>
      apply (h_put _ _ _ _ (λ _ m, is_Some (m !! build_pinned kp))) end.
    intros m HI _. split; [apply CB_put_other; [discriminate..|done]|].
    rewrite lookup_insert_eq. eauto.
  - match goal with |- hoare _ _ (se_put (KPTreeRef ?kp) _) _ =>
      apply (h_put _ _ _ _ (λ _ m, is_Some (m !! build_pinned kp) ∧ m !! KPTreeRef kp = Some kp)) end.
    intros m HI Hp. split; [|split].
    + apply CB_put_other; [discriminate| |done]. by intros kp ?%ref_name_inj.
    + by rewrite lookup_insert_ne by discriminate.
    + by rewrite lookup_insert_eq.
  - match goal with |- hoare _ _ (se_put (PinCoverRef _) ?kp) _ =>
      apply (h_put _ _ _ _ (λ _ m, m !! PinCoverRef f = Some kp)) end.
    intros m HI [Hp Ht]. split; [by apply CB_put_cover|by rewrite lookup_insert_eq].
  - by intros m _ Hm.
Qed.

Lemma resolveKP_CB f :
  hoare cover_bound (λ _, True) (resolveKP f) (λ kp m, m !! PinCoverRef f = Some kp).
Proof.
  unfold resolveKP. hstep; [by eapply (h_get _ _ _ (λ o m, m !! PinCoverRef f = o))|].
  hstep.
  - apply h_ret. by intros m _ Hm.
  - eapply h_weaken; [| |apply deriveKP_CB]; done.
Qed.

Lemma ensureFAliases_OD f kp :
  hoare output_has_deps (λ _, True) (ensureFAliases f kp)
    (λ _ m, is_Some (m !! build_output f) ∧ is_Some (m !! build_output_deps f)).
Proof.
  unfold ensureFAliases. hstep.
  { apply (h_get _ _ _ (λ o m, m !! build_output f = o)). done. }
  hstep.
  { apply h_ret. intros m HI Hm. assert (Hs : is_Some (m !! build_output f)) by (rewrite Hm; eauto).
    split; [done|]. by apply HI. }
  hstep; [by apply (h_get _ _ _ (λ _ _, True))|].
  hstep; [by apply (h_get _ _ _ (λ _ _, True))|].
  hstep; [|apply h_err]. hstep; [|apply h_err]. hstep.
  - apply (h_put _ _ _ _ (λ _ m, is_Some (m !! build_output_deps f))). intros m HI _. split.
    + apply OD_put_other; [|done]. intros x H. by apply (output_ne_deps x f).
    + rewrite lookup_insert_eq. eauto.
  - apply h_put. intros m HI Hd. split; [by apply OD_put_output|]. split.
    + rewrite lookup_insert_eq. eauto.
    + by rewrite lookup_insert_ne by (apply output_ne_deps).
Qed.

(** ** Commits *)

(** The order a runner writes a batch in: no output before its closure. *)
Definition deps_first (names : list string) : Prop :=
  ∀ l1 x l2, names = l1 ++ build_output x :: l2 → build_output_deps x ∈ l1.

Lemma put_refs_keep (I : gmap string Key → Prop) ws :
  (∀ n k m, (n, k) ∈ ws → I m → I (<[n := k]> m)) →
  hoare I (λ _, True) (put_refs ws) (λ _ _, True).
Proof.
  induction ws as [|[n k] ws IH]; intros Hk; simpl; [by apply h_ret|]. hstep.
  - apply (h_put _ _ _ _ (λ _ _, True)). intros m HI _. split; [|done]. apply Hk; [left|done].
  - apply IH. intros n' k' m Hin. apply Hk. by right.
Qed.

Lemma output_name_dec n : (∃ x, n = build_output x) ∨ (∀ x, n ≠ build_output x).
Proof.
  destruct (CutPrefix n "build-output:") as [h|] eqn:E.
  - apply CutPrefix_Some in E as ->. destruct (parseHexKey h) as [x|] eqn:Ex.
    + destruct (decide (h = key_String x)) as [->|Hne]; [left; by exists x|right].
      intros y ->%append_inj_l. apply Hne. rewrite parseHexKey_String in Ex. by simplify_eq.
    + right. intros y ->%append_inj_l. by rewrite parseHexKey_String in Ex.
  - right. intros x ->. unfold build_output in E. by rewrite CutPrefix_app in E.
Qed.

Lemma put_refs_WB X ws dn :
  deps_first (dn ++ ws.*1) →
  hoare (whole_but X) (λ m, ∀ n, n ∈ dn → is_Some (m !! n)) (put_refs ws) (λ _ _, True).
Proof.
  revert dn. induction ws as [|[n k] ws IH]; intros dn Hf; simpl; [by apply h_ret|]. hstep.
  - apply (h_put _ _ _ _ (λ _ m, ∀ n', n' ∈ dn ++ [n] → is_Some (m !! n'))).
    intros m HI Hd. split.
    + destruct (output_name_dec n) as [[x ->]|Hno]; [|by apply WB_put_other].
      apply WB_put_output; [|done]. by apply Hd, (Hf dn x (ws.*1)).
    + intros n' [Hin|Hin]%elem_of_app.
      * rewrite lookup_insert. case_decide; [eauto|by apply Hd].
      * apply list_elem_of_singleton in Hin as ->. rewrite lookup_insert_eq. eauto.
  - apply IH. by rewrite <- (assoc_L (++)).
Qed.

Lemma ftree_write_name K ws n k : (n, k) ∈ ftree_writes K ws → n = FTreeRef k.
Proof. unfold ftree_writes. rewrite list_elem_of_fmap. by intros ([n' k'] & [= -> ->] & _). Qed.

(** The tail of a commit keeps an invariant that its parts keep. *)
Lemma commit_tail_keep (I : gmap string Key → Prop) sp ws :
  hoare I (λ _, True) (put_refs ws) (λ _ _, True) →
  (∀ k m, I m → I (<[FTreeRef k := k]> m)) →
  (∀ f, hoare I (λ _, True) (deriveKP f) (λ _ _, True)) →
  hoare I (λ _, True) (commit_tail sp ws) (λ _ _, True).
Proof.
  intros Hput Hft Hkp. unfold commit_tail. hstep; [apply Hput|]. hstep.
  - case_bool_decide; [|by apply h_ret with (Q := λ _ _, True)].
    apply put_refs_keep. intros n k m ->%ftree_write_name. apply Hft.
  - case_bool_decide; [|by apply h_ret]. hstep; [apply Hkp|by apply h_ret].
Qed.

(** A commit either stops before its first write or runs its tail. *)
Lemma commit_cases sp st st' r :
  commit sp st = (st', r) →
  (st' = st ∧ ∃ e, r = Err e ∧
    (isGateError e = false → ∃ ks, parse_keys (cs_refs sp) = Ok ks ∧
       ¬ Forall (λ k, obj_CheckComplete (st_objs st) k = Ok tt) ks)) ∨
  (gateAllowed (cs_kind sp) (cs_key sp) (cs_platform sp) (cs_refs sp) (cs_caches sp) = Ok tt ∧
   ∃ ks r', parse_keys (cs_refs sp) = Ok ks ∧
    Forall (λ k, obj_CheckComplete (st_objs st) k = Ok tt) ks ∧
    commit_tail sp (zip (r_Name <$> cs_refs sp) ks) st = (st', r') ∧
    (r = match r' with Ok u => Ok u | Err e => Err (CFail e) end)).
Proof.
  unfold commit. destruct (gateAllowed _ _ _ _ _) as [[]|e]; [|intros [= <- <-]; left; naive_solver].
  destruct (parse_keys (cs_refs sp)) as [ks|e] eqn:Ep; [|intros [= <- <-]; left; naive_solver].
  destruct (for_each _ ks) as [[]|e] eqn:Ec.
  - apply for_each_Ok in Ec. unfold sc_lift.
    destruct (commit_tail _ _ st) as [st1 r1] eqn:Et. intros [= <- <-]. right. split; [done|].
    exists ks, r1. split_and!; auto.
  - intros [= <- <-]. left. split; [done|]. eexists. split; [done|]. intros _. exists ks.
    split; [done|]. rewrite <- for_each_Ok, Ec. done.
Qed.

Lemma parse_keys_inv refs ks :
  parse_keys refs = Ok ks → Forall2 (λ r k, key_parse (r_Key r) = Some k) refs ks.
Proof.
  revert ks. induction refs as [|r refs IH]; intros ks; simpl; [by intros [= <-]|].
  destruct (key_parse (r_Key r)) as [k|] eqn:E; [|done].
  intros (ks' & Hks & [= <-])%bind_Ok_inv. constructor; auto.
Qed.

Lemma commit_names sp ks :
  parse_keys (cs_refs sp) = Ok ks → (zip (r_Name <$> cs_refs sp) ks).*1 = r_Name <$> cs_refs sp.
Proof.
  intros H%parse_keys_inv%Forall2_length. apply fst_zip. rewrite length_fmap. lia.
Qed.

(** The writes of a successful store operation. *)
Lemma put_refs_journal ws st st' r :
  put_refs ws st = (st', r) →
  ∃ n, extends st st' (take n ((λ w, WPut w.1 w.2) <$> ws)) ∧ (is_ok r → n = length ws).
Proof.
  revert st. induction ws as [|[n k] ws IH]; intros st; simpl.
  { intros [= <- <-]. exists 0. split; [apply extends_refl|done]. }
  unfold mbind, SE_bind, se_put. destruct (PutRef n k st) as [st1 r1] eqn:E.
  apply PutRef_extends in E. destruct r1 as [u|e].
  - intros (i & Hi & Hn)%IH. exists (S i). split; [|intros ?; f_equal; auto].
    apply (extends_trans _ _ _ [_] _ E Hi).
  - intros [= <- <-]. exists 0. split; [done|]. done.
Qed.

Lemma deriveKP_any f : hoare (λ _, True) (λ _, True) (deriveKP f) (λ _ _, True).
Proof.
  unfold deriveKP.
  repeat first [hstep | by eapply (h_get _ _ _ (λ _ _, True)) | by eapply (h_obj _ _ _ (λ _ _, True))
               | by eapply (h_lift _ _ _ (λ _ _, True)) | by eapply (h_ingest _ _ _ (λ _ _, True))
               | by eapply (h_put _ _ _ _ (λ _ _, True)) | done].
Qed.

(** The tail writes the batch in payload order, then the derived references. *)
Lemma commit_tail_journal sp ws st st' :
  commit_tail sp ws st = (st', Ok tt) →
  ∃ more, extends st st' (((λ w, WPut w.1 w.2) <$> ws) ++ more).
Proof.
  unfold commit_tail. unfold mbind at 1, SE_bind at 1.
  destruct (put_refs ws st) as [st1 r1] eqn:E1. destruct r1 as [u|e]; [|done].
  apply put_refs_journal in E1 as (n & E1 & Hn). specialize (Hn I). subst n. rewrite take_ge in E1 by (by rewrite length_fmap).
  assert (Hrest : hoare (λ _, True) (λ _, True) (
    (if bool_decide (cs_kind sp = KindBuildFrom) then put_refs (ftree_writes (cs_key sp) ws) else mret tt);;
    (if bool_decide (cs_kind sp = KindPin) then deriveKP (cs_key sp);; mret tt else mret tt)) (λ _ _, True)).
  { hstep; [case_bool_decide; [by apply put_refs_keep|by apply h_ret with (Q := λ _ _, True)]|].
    case_bool_decide; [|by apply h_ret]. hstep; [apply deriveKP_any|by apply h_ret]. }
  intros H. destruct (Hrest _ _ _ I I H) as [(more & Hmore & _) _]. exists more. by eapply extends_trans.
Qed.

(** The gate permits none of the names the server derives. *)
Lemma permitted_not_cover k p d b kd r f : permitted k p d b kd r → r_Name r ≠ PinCoverRef f.
Proof. intros Hp He. destruct Hp as [? Hn|? Hn|? ? Hn|? Hn|? Hn|? ? ? ? Hn|? Hn|? Hn|? ? Hn]; rewrite Hn in He; discriminate He. Qed.

Lemma permitted_not_kptree k p d b kd r kp : permitted k p d b kd r → r_Name r ≠ KPTreeRef kp.
Proof. intros Hp He. destruct Hp as [? Hn|? Hn|? ? Hn|? Hn|? Hn|? ? ? ? Hn|? Hn|? Hn|? ? Hn]; rewrite Hn in He; discriminate He. Qed.

Lemma zip_name_permitted sp (ks : list Key) n k :
  gateAllowed (cs_kind sp) (cs_key sp) (cs_platform sp) (cs_refs sp) (cs_caches sp) = Ok tt →
  (n, k) ∈ zip (r_Name <$> cs_refs sp) ks →
  ∃ r, n = r_Name r ∧ permitted (cs_key sp) (cs_platform sp) (cs_caches sp) (cs_refs sp) (cs_kind sp) r.
Proof.
  intros [_ Hg]%gateAllowed_spec Hin%elem_of_zip_l.
  apply list_elem_of_fmap in Hin as (r & -> & Hr). exists r. split; [done|]. by apply Hg.
Qed.

(** ** Properties *)

Lemma commit_keeps_whole X sp st st' r :
  deps_first (r_Name <$> cs_refs sp) → whole_but X (st_refs st) →
  commit sp st = (st', r) → crash_safe (whole_but X) st st'.
Proof.
  intros Hf HI [[-> _]|(_ & ks & r' & Hp & _ & Ht & _)]%commit_cases; [by apply crash_safe_refl|].
  rewrite <- (commit_names _ _ Hp) in Hf. eapply commit_tail_keep; [| | |exact I|exact HI|exact Ht].
  - eapply h_weaken; [| |apply (put_refs_WB X _ [] Hf)]; [|done]. intros x _ n Hn. by apply elem_of_nil in Hn.
  - intros k m. apply WB_put_other. discriminate.
  - apply deriveKP_WB.
Qed.

Lemma commit_keeps_deps sp st st' r :
  deps_first (r_Name <$> cs_refs sp) → output_has_deps (st_refs st) →
  commit sp st = (st', r) → crash_safe output_has_deps st st'.
Proof.
  intros Hf HI Hc. destruct (commit_keeps_whole (λ _, False) sp st st' r Hf) as (ws & He & Hn); [by apply whole_but_none|done|].
  exists ws. split; [done|]. intros n. by apply whole_but_none.
Qed.

(** [C7] Crash safety of publishing, for a batch that lists each output after
    its runtime closure (the order the runner proposes; the gate does not
    enforce it): from any store, no crash during the commit of a result -
    between any two reference writes, the derived ones included - leaves a
    done-looking [build-output:X] without [build-output-deps:X] that the store
    did not already have before the commit. *)
Theorem commit_crash_safe sp st st' r :
  deps_first (r_Name <$> cs_refs sp) →
  commit sp st = (st', r) → crash_safe (whole_but (orphan (st_refs st))) st st'.
Proof. intros Hf. apply commit_keeps_whole; [done|]. apply whole_but_orphans. Qed.

(** What a commit checks before it writes: the gate's table, the keys, and that
    every key proposed is complete in the store. *)
Definition checked (sp : commitSpec) (st : Store) : Prop :=
  gateAllowed (cs_kind sp) (cs_key sp) (cs_platform sp) (cs_refs sp) (cs_caches sp) = Ok tt ∧
  Forall (λ rp, ∃ k, key_parse (r_Key rp) = Some k ∧ obj_CheckComplete (st_objs st) k = Ok tt) (cs_refs sp).

Lemma checked_keys sp st ks :
  gateAllowed (cs_kind sp) (cs_key sp) (cs_platform sp) (cs_refs sp) (cs_caches sp) = Ok tt →
  parse_keys (cs_refs sp) = Ok ks → Forall (λ k, obj_CheckComplete (st_objs st) k = Ok tt) ks → checked sp st.
Proof.
  intros Hg Hp%parse_keys_inv Hc. split; [done|]. clear Hg. revert Hc. induction Hp as [|rp k refs ks Hk _ IH]; [constructor|].
  intros [Hk' Hc]%Forall_cons. constructor; [by exists k|by apply IH].
Qed.

(** [C8] Fail closed: a batch the gate rejects, a key that does not parse or an
    object that is not complete in the store, anywhere in the batch, stops the
    commit with an error before it writes anything; a commit reported as
    rejected by the gate wrote nothing; and one that succeeds passed all the
    checks and wrote the batch in payload order, then the derived names. *)
Theorem commit_fail_closed sp st st' r :
  commit sp st = (st', r) →
  (¬ checked sp st → st' = st ∧ ∃ e, r = Err e) ∧
  (∀ e, r = Err e → isGateError e = true → st' = st) ∧
  (r = Ok tt → checked sp st ∧ ∃ ks more, Forall2 (λ rp k, key_parse (r_Key rp) = Some k) (cs_refs sp) ks ∧
     extends st st' (zip_with WPut (r_Name <$> cs_refs sp) ks ++ more)).
Proof.
  intros [[-> (e & -> & _)]|(Hg & ks & r' & Hp & Hc & Ht & ->)]%commit_cases; [split_and!; [eauto|done|done]|].
  pose proof (checked_keys _ _ _ Hg Hp Hc) as Hck. split_and!; [done|by destruct r' as [[]|e]; intros ? [= <-]|].
  destruct r' as [[]|e]; [|done]. intros _. split; [done|].
  apply commit_tail_journal in Ht as [more Hm]. exists ks, more. split; [by apply parse_keys_inv|].
  assert (zip_with WPut (r_Name <$> cs_refs sp) ks =
          ((λ w, WPut w.1 w.2) <$> zip (r_Name <$> cs_refs sp) ks)) as ->; [|done].
  generalize (r_Name <$> cs_refs sp) as l. clear. intros l. revert ks.
  induction l as [|n l IH]; intros [|k ks]; csimpl; by rewrite ?IH.
Qed.

(** A result cannot forge a KP binding: no commit, whatever batch it
    carries, leaves [pin-cover:F] naming a KP whose pinned alias or tree
    carrier is missing or differs, at any crash point. *)
Theorem commit_cover_bound sp st st' r :
  cover_bound (st_refs st) → commit sp st = (st', r) → crash_safe cover_bound st st'.
Proof.
  intros HI [[-> _]|(Hg & ks & r' & Hp & _ & Ht & _)]%commit_cases; [by apply crash_safe_refl|].
  eapply commit_tail_keep; [| | |exact I|exact HI|exact Ht].
  - apply put_refs_keep. intros n k m (rp & -> & Hperm)%(zip_name_permitted _ _ _ _ Hg).
    apply CB_put_other; intros x; [by eapply permitted_not_cover|].
    intros Hx. by destruct (permitted_not_kptree _ _ _ _ _ _ x Hperm).
  - intros k m. apply CB_put_other; discriminate.
  - intros f. eapply h_weaken; [| |apply deriveKP_CB]; done.
Qed.

(** The KP binding is written last and heals: [resolveKP] keeps, at every
    crash point, that a present [pin-cover:F] is backed by its pinned alias
    and carrier, and the KP it returns is the recorded binding. *)
Theorem resolveKP_bound f st st' r :
  cover_bound (st_refs st) → resolveKP f st = (st', r) →
  crash_safe cover_bound st st' ∧
  ∀ kp, r = Ok kp → st_refs st' !! PinCoverRef f = Some kp ∧ is_Some (st_refs st' !! build_pinned kp).
Proof.
  intros HI H. destruct (resolveKP_CB f st st' r I HI H) as [Hs HQ]. split; [done|].
  intros kp Hr. specialize (HQ kp Hr). split; [done|].
  by apply (crash_safe_end _ _ _ Hs f kp).
Qed.

(** The F aliases of a finished build: at every crash point the closure
    alias precedes the output alias, and on success both exist. *)
Theorem ensureFAliases_order f kp st st' r :
  output_has_deps (st_refs st) → ensureFAliases f kp st = (st', r) →
  crash_safe output_has_deps st st' ∧
  (r = Ok tt → is_Some (st_refs st' !! build_output f) ∧ is_Some (st_refs st' !! build_output_deps f)).
Proof. intros HI H. destruct (ensureFAliases_OD f kp st st' r I HI H) as [Hs HQ]. eauto. Qed.
End Commit.

(** ** Witnesses on the concrete library *)

Section Witnesses.
Local Existing Instance string_keys.
Local Existing Instance demo_lib.

Definition demo_store (m : gmap string string) : Store :=
  @mkStore string_keys demo_lib tt m [] (λ _, false) (λ _, false).

Definition demo_spec : commitSpec :=
  mkSpec KindBuildRun "f" "p" []
    [mkRef (build_output_deps "f") "kd" ""; mkRef (build_output "f") "ko" ""].

Lemma commit_crash_safe_witness :
  crash_safe (whole_but (orphan ∅)) (demo_store ∅) (fst (commit demo_spec (demo_store ∅))).
Proof.
  apply (commit_crash_safe demo_spec (demo_store ∅) _ (snd (commit demo_spec (demo_store ∅)))).
  - intros l1 x l2 H. destruct l1 as [|a [|b [|]]]; try discriminate H.
    assert (Hb : build_output "f" = build_output x) by exact (f_equal (λ l, default "" (l !! 1)) H).
    assert (Ha : build_output_deps "f" = a) by exact (f_equal (λ l, default "" (l !! 0)) H).
    apply ref_name_inj in Hb as <-. rewrite <- Ha. left.
  - apply surjective_pairing.
Defined.

Lemma demo_commit_ok : snd (commit demo_spec (demo_store ∅)) = Ok tt.
Proof. vm_compute. reflexivity. Qed.

Lemma commit_fail_closed_witness : checked demo_spec (demo_store ∅).
Proof.
  destruct (commit_fail_closed demo_spec (demo_store ∅) _ _ (surjective_pairing _)) as (_ & _ & H).
  exact (proj1 (H demo_commit_ok)).
Defined.

Lemma commit_cover_bound_witness :
  crash_safe cover_bound (demo_store ∅) (fst (commit demo_spec (demo_store ∅))).
Proof.
  apply (commit_cover_bound demo_spec _ _ (snd (commit demo_spec (demo_store ∅)))).
  - intros x y Hy. discriminate Hy.
  - apply surjective_pairing.
Defined.

(** A store in which F is already bound to KP. *)
Definition demo_bound : Store :=
  demo_store {[ PinCoverRef "f" := "q"; KPTreeRef "q" := "q"; build_pinned "q" := "p" ]}.

Lemma demo_bound_ok : cover_bound (st_refs demo_bound).
Proof.
  intros f kp. unfold demo_bound, demo_store, st_refs.
  rewrite lookup_insert. case_decide as Hf.
  - intros [= <-]. split; vm_compute; [eauto|reflexivity].
  - rewrite lookup_insert_ne, lookup_singleton_ne by discriminate. done.
Qed.

Definition demo_resolve : Store * result string string :=
  @resolveKP string_keys demo_lib "f" demo_bound.

Lemma demo_resolve_ok : demo_resolve.2 = Ok "q".
Proof. vm_compute. reflexivity. Qed.

Lemma resolveKP_bound_witness : is_Some (st_refs demo_resolve.1 !! @build_pinned string_keys "q").
Proof.
  apply (proj2 (@resolveKP_bound string_keys demo_lib "f" demo_bound demo_resolve.1 demo_resolve.2
    demo_bound_ok (surjective_pairing _)) "q" demo_resolve_ok).
Defined.

Definition demo_built : Store :=
  demo_store {[ build_output "q" := "o"; build_output_deps "q" := "d" ]}.

Lemma demo_built_ok : output_has_deps (st_refs demo_built).
Proof.
  intros x. unfold demo_built, demo_store, st_refs. rewrite lookup_insert. case_decide as Hx.
  - apply ref_name_inj in Hx as <-. intros _. vm_compute. eauto.
  - rewrite lookup_singleton_ne by discriminate. by intros [? ?].
Qed.

Definition demo_alias : Store * result string unit :=
  @ensureFAliases string_keys demo_lib "f" "q" demo_built.

Lemma demo_alias_ok : demo_alias.2 = Ok tt.
Proof. vm_compute. reflexivity. Qed.

Lemma ensureFAliases_order_witness :
  is_Some (st_refs demo_alias.1 !! @build_output string_keys "f").
Proof.
  apply (proj2 (@ensureFAliases_order string_keys demo_lib "f" "q" demo_built demo_alias.1 demo_alias.2
    demo_built_ok (surjective_pairing _)) demo_alias_ok).
Defined.
End Witnesses.
