(* ===== verification/LogBuf.v ===== *)
(** * Bounded output capture (src/sched/logfold.go, src/sched/failures.go,
    src/sched/diagnose.go, src/tailbuf/tailbuf.go)

    The head-and-tail log ring of one attempt, the trimming of its snapshot for
    a durable failure record and for a report, and the plain tail buffer. Bytes
    are [list ascii]. *)
From S2P Require Import Prelude GoLib Wire.
From Stdlib Require Import Ascii.
Local Open Scope string_scope.
Local Open Scope list_scope.
Local Open Scope Z_scope.

Abbreviation bytes := (list ascii).

(** [len(b)] as an [int64]. *)
Definition blen (b : bytes) : Z := Z.of_nat (length b).

(** [b[:n]] and [b[n:]]; every use has [0 <= n <= len(b)]. *)
Definition upto (n : Z) (b : bytes) : bytes := take (Z.to_nat n) b.
Definition from (n : Z) (b : bytes) : bytes := drop (Z.to_nat n) b.

Record logBuffer := mkLog {
  lb_headCap : Z; lb_tailCap : Z;
  lb_head : bytes; lb_tail : bytes; lb_gap : Z;
  lb_seen : gset string }.

Definition newLogBuffer (headCap tailCap : Z) : logBuffer :=
  mkLog headCap tailCap [] [] 0 ∅.

Definition dedup_key (stream : string) (seq : Z) : string := stream +:+ ":" +:+ itoa seq.

(** The append to the tail ring, which counts what it squeezes out. *)
Definition write_tail (b : logBuffer) (chunk : bytes) : logBuffer :=
  let tail := lb_tail b ++ chunk in
  let over := blen tail - lb_tailCap b in
  if 0 <? over
  then mkLog (lb_headCap b) (lb_tailCap b) (lb_head b) (from over tail) (i64 (lb_gap b + over)) (lb_seen b)
  else mkLog (lb_headCap b) (lb_tailCap b) (lb_head b) tail (lb_gap b) (lb_seen b).

Definition set_head (b : logBuffer) (h : bytes) : logBuffer :=
  mkLog (lb_headCap b) (lb_tailCap b) h (lb_tail b) (lb_gap b) (lb_seen b).

(** Filling a head that is not full yet: the rest spills into the tail. *)
Definition fill_head (b : logBuffer) (chunk : bytes) : logBuffer :=
  let tk := lb_headCap b - blen (lb_head b) in
  let tk := if blen chunk <? tk then blen chunk else tk in
  let b := set_head b (lb_head b ++ upto tk chunk) in
  match from tk chunk with [] => b | c => write_tail b c end.

Definition logBuffer_write (b : logBuffer) (stream : string) (seq : Z) (chunk : bytes) : logBuffer :=
  let dedup := dedup_key stream seq in
  if decide (dedup ∈ lb_seen b) then b
  else
    let b := mkLog (lb_headCap b) (lb_tailCap b) (lb_head b) (lb_tail b) (lb_gap b) ({[dedup]} ∪ lb_seen b) in
    if blen (lb_head b) <? lb_headCap b then fill_head b chunk
    else write_tail b chunk.

(** ** Trimming *)

Definition trimLogSnapshot (buf : logBuffer) (headCap tailCap : Z) : bytes * Z * bytes :=
  let head := lb_head buf in
  let gap := lb_gap buf in
  let tail := lb_tail buf in
  let cut := blen head - headCap in
  let '(head, gap) := if 0 <? cut then (upto headCap head, i64 (gap + cut)) else (head, gap) in
  let cut := blen tail - tailCap in
  let '(tail, gap) := if 0 <? cut then (from cut tail, i64 (gap + cut)) else (tail, gap) in
  (head, gap, tail).

(** The log part of an attempt report, and whether it was truncated. *)
Definition trimAttempt (rec : bytes * Z * bytes) (maxLogBytes : Z) : (bytes * Z * bytes) * bool :=
  let '(head, gap, tail) := rec in
  if (maxLogBytes <=? 0) || (blen head + blen tail <=? maxLogBytes) then (rec, false)
  else
    let cut := blen tail - maxLogBytes in
    let '(tail, gap) := if 0 <? cut then (from cut tail, i64 (gap + cut)) else (tail, gap) in
    let budget := maxLogBytes - blen tail in
    let cut := blen head - budget in
    let '(head, gap) := if 0 <? cut then (upto budget head, i64 (gap + cut)) else (head, gap) in
    ((head, gap, tail), true).

(** ** The tail buffer of src/tailbuf *)

Record tailbuf := mkTail { tb_buf : bytes; tb_max : Z }.

Definition tailbuf_New (max : Z) : tailbuf := mkTail [] max.

Definition tailbuf_Write (b : tailbuf) (p : bytes) : tailbuf * Z :=
  let buf := tb_buf b ++ p in
  let buf := if tb_max b <? blen buf then from (blen buf - tb_max b) buf else buf in
  (mkTail buf (tb_max b), blen p).

(** ** Facts *)

(** The last [n] bytes. *)
Definition lastn (n : Z) (l : bytes) : bytes := from (blen l - n) l.

Lemma blen_app a b : blen (a ++ b) = blen a + blen b.
Proof. unfold blen. rewrite length_app. lia. Qed.

Lemma blen_pos a : 0 <= blen a.
Proof. unfold blen. lia. Qed.

Lemma blen_nil a : blen a = 0 → a = [].
Proof. unfold blen. destruct a; [done|]. simpl. lia. Qed.

Lemma blen_from n a : 0 <= n <= blen a → blen (from n a) = blen a - n.
Proof. unfold blen, from. rewrite length_drop. lia. Qed.

Lemma blen_upto n a : 0 <= n <= blen a → blen (upto n a) = n.
Proof. unfold blen, upto. rewrite length_take. lia. Qed.

Lemma from_neg n a : n <= 0 → from n a = a.
Proof. unfold from. intros. by replace (Z.to_nat n) with 0%nat by lia. Qed.

Lemma from_from n m a : 0 <= n → 0 <= m → from n (from m a) = from (m + n) a.
Proof. unfold from. intros. rewrite drop_drop. f_equal. lia. Qed.

Lemma from_app_le n a b : 0 <= n <= blen a → from n (a ++ b) = from n a ++ b.
Proof.
  unfold blen, from. intros. rewrite drop_app. by replace (Z.to_nat n - length a)%nat with 0%nat by lia.
Qed.

Lemma lastn_short n a : blen a <= n → lastn n a = a.
Proof. intros. unfold lastn. apply from_neg. lia. Qed.

Lemma blen_lastn n a : 0 <= n → blen (lastn n a) = Z.min n (blen a).
Proof.
  intros. pose proof (blen_pos a). destruct (Z.le_gt_cases (blen a) n).
  - rewrite lastn_short by done. lia.
  - unfold lastn. rewrite blen_from; lia.
Qed.

(** Keeping the last [n] bytes as they arrive keeps the last [n] of all. *)
Lemma lastn_app n a c : 0 <= n → lastn n (lastn n a ++ c) = lastn n (a ++ c).
Proof.
  intros Hn. pose proof (blen_pos a). pose proof (blen_pos c).
  destruct (Z.le_gt_cases (blen a) n) as [Hs|Hl]; [by rewrite (lastn_short n a)|].
  unfold lastn at 1. rewrite blen_app, blen_lastn, Z.min_l by lia.
  unfold lastn. rewrite blen_app. rewrite <- (from_app_le _ a c) by lia.
  rewrite from_from by lia. f_equal. lia.
Qed.

Lemma take_app_lt hc (t c : bytes) :
  0 <= hc → blen t < hc →
  upto hc (t ++ c) = t ++ upto (hc - blen t) c ∧ from hc (t ++ c) = from (hc - blen t) c.
Proof.
  unfold upto, from, blen. intros. rewrite take_app, drop_app, take_ge, drop_ge by lia. simpl.
  split; repeat f_equal; lia.
Qed.

(** [captures hc tc total b]: [b] holds the first [hc] bytes of [total], the
    last [tc] of the rest, and counts the bytes between. *)
Definition captures (total : bytes) (b : logBuffer) : Prop :=
  let rest := from (lb_headCap b) total in
  lb_head b = upto (lb_headCap b) total ∧
  lb_tail b = lastn (lb_tailCap b) rest ∧
  lb_gap b = blen rest - blen (lb_tail b).

Definition caps_ok (b : logBuffer) : Prop := 0 <= lb_headCap b ∧ 0 <= lb_tailCap b.

Lemma write_tail_captures b total chunk :
  caps_ok b → lb_headCap b <= blen total → in_i64 (blen (total ++ chunk)) →
  captures total b → captures (total ++ chunk) (write_tail b chunk).
Proof.
  intros [Hh Ht] Hfull Hi (H1 & H2 & H3).
  set (hc := lb_headCap b) in *. set (tc := lb_tailCap b) in *.
  assert (Hrest : from hc (total ++ chunk) = from hc total ++ chunk) by (apply from_app_le; lia).
  assert (Hhead : upto hc (total ++ chunk) = upto hc total).
  { unfold upto, blen in *. rewrite take_app. replace (Z.to_nat hc - length total)%nat with 0%nat by lia.
    by rewrite take_0, app_nil_r. }
  pose proof (blen_from hc total ltac:(lia)) as HL. rewrite blen_app in Hi. unfold in_i64 in Hi.
  pose proof (blen_pos chunk). pose proof (blen_pos total).
  pose proof (blen_lastn tc (from hc total) Ht) as HB.
  unfold captures, write_tail. fold hc tc. rewrite H2, blen_app, HB.
  destruct (0 <? _) eqn:E; [apply Z.ltb_lt in E|apply Z.ltb_ge in E]; cbn [lb_headCap lb_tailCap lb_head lb_tail lb_gap];
    fold hc tc; rewrite Hrest, Hhead.
  - assert (Hlast : from (Z.min tc (blen (from hc total)) + blen chunk - tc) (lastn tc (from hc total) ++ chunk)
                    = lastn tc (from hc total ++ chunk)).
    { rewrite <- lastn_app by done. unfold lastn at 2. by rewrite blen_app, HB. }
    rewrite Hlast. split_and!; [done|done|].
    rewrite blen_lastn, blen_app, H3, H2, HB by done. rewrite i64_id; unfold in_i64; lia.
  - destruct (Z.le_gt_cases (blen (from hc total)) tc) as [Hsm|Hbig].
    2:{ assert (chunk = []) as -> by (apply blen_nil; lia). rewrite !app_nil_r.
        split_and!; [done|done|]. by rewrite H3, H2. }
    assert (Hs : blen (from hc total) + blen chunk <= tc) by lia.
    rewrite !lastn_short by (rewrite ?blen_app; lia). split_and!; [done|done|].
    rewrite H3, H2, blen_app, HB. lia.
Qed.

Lemma captures_empty h t : captures [] (newLogBuffer h t).
Proof. unfold captures, newLogBuffer, upto, lastn, from. simpl. by rewrite !drop_nil, take_nil. Qed.

(** A capture of fewer bytes than the head holds is all head. *)
Lemma captures_short total b :
  caps_ok b → captures total b → blen (lb_head b) < lb_headCap b →
  blen total < lb_headCap b ∧ lb_head b = total ∧ lb_tail b = [] ∧ lb_gap b = 0.
Proof.
  intros [Hh Ht] (H1 & H2 & H3) E.
  assert (Htot : blen total < lb_headCap b).
  { destruct (Z.lt_ge_cases (blen total) (lb_headCap b)); [done|]. rewrite H1, blen_upto in E; lia. }
  assert (Hr0 : from (lb_headCap b) total = []) by (unfold from, blen in *; apply drop_ge; lia).
  rewrite Hr0 in H2, H3. assert (Ht0 : lb_tail b = []) by (rewrite H2; unfold lastn, from; by rewrite drop_nil).
  split_and!; [done| |done|by rewrite H3, Ht0].
  rewrite H1. unfold upto, blen in *. rewrite take_ge; [done|lia].
Qed.

(** What [fill_head] takes is the chunk's share of the head. *)
Lemma fill_split d chunk :
  0 <= d → let tk := if blen chunk <? d then blen chunk else d in
  from tk chunk = from d chunk ∧ upto tk chunk = upto d chunk.
Proof.
  intros Hd. cbv zeta. destruct (_ <? _) eqn:E2; [apply Z.ltb_lt in E2|done].
  unfold from, upto, blen in *. by rewrite !drop_ge, !take_ge by lia.
Qed.

Lemma fill_head_captures b total chunk :
  caps_ok b → in_i64 (blen (total ++ chunk)) → captures total b → blen (lb_head b) < lb_headCap b →
  captures (total ++ chunk) (fill_head b chunk).
Proof.
  intros Hc Hi Hcap E. destruct (captures_short _ _ Hc Hcap E) as (Htot & Hh1 & Ht0 & Hg0).
  clear Hcap E. destruct Hc as [Hh Ht].
  destruct (take_app_lt _ _ chunk Hh Htot) as [Hup Hfr]. unfold fill_head. cbv zeta. rewrite Hh1.
  destruct (fill_split (lb_headCap b - blen total) chunk ltac:(lia)) as [-> ->]. rewrite <- Hup.
  destruct (from (lb_headCap b - blen total) chunk) as [|x r] eqn:Er.
  - unfold captures, set_head; simpl. rewrite Hfr, Ht0, Hg0.
    split_and!; [done| |done]. unfold lastn, from. by rewrite drop_nil.
  - rewrite <- Er.
    assert (Hsplit : upto (lb_headCap b) (total ++ chunk) ++ from (lb_headCap b - blen total) chunk = total ++ chunk).
    { rewrite Hup, <- (assoc_L (++)). f_equal. unfold upto, from. apply take_drop. }
    assert (Hlt : lb_headCap b - blen total < blen chunk).
    { assert (H : blen (from (lb_headCap b - blen total) chunk) ≠ 0) by (rewrite Er; unfold blen; simpl; lia).
      unfold blen, from in *. rewrite length_drop in H. lia. }
    assert (Hbl : blen (upto (lb_headCap b) (total ++ chunk)) = lb_headCap b)
      by (apply blen_upto; rewrite blen_app; lia).
    rewrite <- Hsplit at 1. apply write_tail_captures; [done|simpl; lia|by rewrite Hsplit|].
    unfold captures, set_head; simpl.
    assert (Hfn : from (lb_headCap b) (upto (lb_headCap b) (total ++ chunk)) = [])
      by (unfold from, blen in *; apply drop_ge; lia).
    rewrite Hfn, Ht0, Hg0. split_and!; [|unfold lastn, from; by rewrite drop_nil|done].
    unfold upto. rewrite take_take. f_equal. lia.
Qed.

Lemma write_fresh_captures b total stream seq chunk :
  caps_ok b → in_i64 (blen (total ++ chunk)) → captures total b → dedup_key stream seq ∉ lb_seen b →
  captures (total ++ chunk) (logBuffer_write b stream seq chunk).
Proof.
  intros Hc Hi Hcap Hnew. unfold logBuffer_write. rewrite decide_False by done. cbv zeta.
  set (b1 := mkLog _ _ _ _ _ _). assert (Hcap1 : captures total b1) by exact Hcap.
  assert (Hc1 : caps_ok b1) by exact Hc. clearbody b1. clear Hcap Hc Hnew b.
  destruct (blen (lb_head b1) <? lb_headCap b1) eqn:E; [apply Z.ltb_lt in E|apply Z.ltb_ge in E].
  - by apply fill_head_captures.
  - apply write_tail_captures; [done| |done|done].
    destruct (Z.lt_ge_cases (blen total) (lb_headCap b1)); [|done].
    destruct Hcap1 as (H1 & _). destruct Hc1. rewrite H1 in E. unfold upto, blen in *. rewrite length_take in E. lia.
Qed.

(** The deduplication key determines the stream and the sequence number. *)
Lemma itoa_no_colon z : ContainsByte (itoa z) ":" = false.
Proof.
  assert (Hgo : ∀ (x : N) s, ContainsByte s ":" = false → ContainsByte (pretty.pretty_N_go x s) ":" = false).
  { intros x. induction (N.lt_wf_0 x) as [x _ IH]; intros s Hs.
    destruct (decide (0 < x)%N) as [Hx|Hx].
    - rewrite pretty.pretty_N_go_step by done. apply IH; [by apply N.div_lt|].
      simpl. unfold pretty.pretty_N_char. repeat case_match; done.
    - assert (x = 0%N) as -> by lia. by rewrite pretty.pretty_N_go_0. }
  assert (HN : ∀ x : N, ContainsByte (pretty.pretty x) ":" = false).
  { intros x. unfold pretty.pretty, pretty.pretty_N. case_match; [done|by apply Hgo]. }
  unfold itoa, pretty.pretty, pretty.pretty_Z. destruct z as [|p|p]; [done|apply (HN (Npos p))|].
  apply (HN (Npos p)).
Qed.

Lemma dedup_key_inj s q s' q' : dedup_key s q = dedup_key s' q' → s = s' ∧ q = q'.
Proof.
  unfold dedup_key. pose proof (itoa_no_colon q) as H1. pose proof (itoa_no_colon q') as H2. revert s'.
  assert (Hno : ∀ r x d, ContainsByte d ":" = false → d ≠ r +:+ ":" +:+ x).
  { intros r x d Hd ->. rewrite !ContainsByte_append in Hd. simpl in Hd. by rewrite orb_true_r in Hd. }
  induction s as [|a s IH]; intros [|b s']; simpl; intros H.
  - apply (append_inj_l ":") in H as Hr. split; [done|]. by apply (inj pretty.pretty) in Hr.
  - injection H as _ Hr. by destruct (Hno s' (itoa q') (itoa q)).
  - injection H as _ Hr. by destruct (Hno s (itoa q) (itoa q')).
  - injection H as Hab Hr. apply IH in Hr as [-> ->]. by subst.
Qed.

(** ** Runs of writes *)

(** One captured chunk: stream, sequence number, data. *)
Definition chunk := (string * Z * bytes)%type.

(** The chunks of a delivery sequence without its redeliveries. *)
Fixpoint first_chunks (seen : list (string * Z)) (ws : list chunk) : list chunk :=
  match ws with
  | [] => []
  | (s, q, d) :: ws' =>
      if decide ((s, q) ∈ seen) then first_chunks seen ws'
      else (s, q, d) :: first_chunks ((s, q) :: seen) ws'
  end.

Definition write_all (b : logBuffer) (ws : list chunk) : logBuffer :=
  foldl (λ b w, logBuffer_write b w.1.1 w.1.2 w.2) b ws.

Definition total_bytes (ws : list chunk) : bytes := concat (map snd ws).

Lemma write_keeps b s q d :
  lb_headCap (logBuffer_write b s q d) = lb_headCap b ∧
  lb_tailCap (logBuffer_write b s q d) = lb_tailCap b ∧
  lb_seen (logBuffer_write b s q d) = {[dedup_key s q]} ∪ lb_seen b.
Proof.
  unfold logBuffer_write, fill_head, write_tail, set_head.
  case_decide; [split_and!; [done|done|set_solver]|]. repeat case_match; done.
Qed.

Lemma write_all_captures ws : ∀ b total seen,
  caps_ok b → captures total b →
  (∀ s q, dedup_key s q ∈ lb_seen b ↔ (s, q) ∈ seen) →
  in_i64 (blen (total ++ total_bytes (first_chunks seen ws))) →
  captures (total ++ total_bytes (first_chunks seen ws)) (write_all b ws).
Proof.
  induction ws as [|[[s q] d] ws IH]; intros b total seen Hc Hcap Hseen Hi; simpl in *.
  { unfold total_bytes; simpl. by rewrite app_nil_r. }
  destruct (write_keeps b s q d) as (K1 & K2 & K3). case_decide as Hd.
  - assert (logBuffer_write b s q d = b) as ->; [|by apply IH].
    unfold logBuffer_write. rewrite decide_True; [done|]. by apply Hseen.
  - unfold total_bytes in *. simpl in *. rewrite (assoc_L (++)) in *. apply IH.
    + unfold caps_ok. by rewrite K1, K2.
    + apply write_fresh_captures; [done| |done|by rewrite Hseen].
      unfold in_i64 in *. rewrite blen_app in Hi. pose proof (blen_pos (total ++ d)).
      match type of Hi with context [blen (total ++ d) + blen ?r] => pose proof (blen_pos r) end. lia.
    + intros s' q'. rewrite K3, elem_of_union, elem_of_singleton, elem_of_cons, Hseen. split.
      * intros [[-> ->]%dedup_key_inj|?]; auto.
      * intros [[= -> ->]|?]; auto.
    + done.
Qed.

Lemma cut_head (h gap : Z) (head : bytes) :
  0 <= h → in_i64 (gap + blen head) → 0 <= gap →
  (if 0 <? blen head - h then (upto h head, i64 (gap + (blen head - h))) else (head, gap))
  = (upto h head, gap + blen head - blen (upto h head)).
Proof.
  intros Hh Hi Hg. pose proof (blen_pos head). unfold in_i64 in Hi.
  destruct (0 <? _) eqn:E; [apply Z.ltb_lt in E|apply Z.ltb_ge in E].
  - rewrite blen_upto, i64_id by (unfold in_i64; lia). f_equal. lia.
  - assert (upto h head = head) as -> by (unfold upto, blen in *; rewrite take_ge; [done|lia]).
    f_equal. lia.
Qed.

Lemma cut_tail (t gap : Z) (tail : bytes) :
  0 <= t → in_i64 (gap + blen tail) → 0 <= gap →
  (if 0 <? blen tail - t then (from (blen tail - t) tail, i64 (gap + (blen tail - t))) else (tail, gap))
  = (lastn t tail, gap + blen tail - blen (lastn t tail)).
Proof.
  intros Ht Hi Hg. pose proof (blen_pos tail). unfold in_i64 in Hi. rewrite blen_lastn by done.
  destruct (0 <? _) eqn:E; [apply Z.ltb_lt in E|apply Z.ltb_ge in E].
  - rewrite Z.min_l, i64_id by (unfold in_i64; lia). unfold lastn. f_equal. lia.
  - rewrite lastn_short by lia. f_equal. lia.
Qed.

Lemma blen_upto_le n a : 0 <= n → blen (upto n a) = Z.min n (blen a).
Proof. unfold blen, upto. rewrite length_take. lia. Qed.

Lemma trimLogSnapshot_spec buf h t :
  0 <= h → 0 <= t → 0 <= lb_gap buf →
  in_i64 (lb_gap buf + blen (lb_head buf) + blen (lb_tail buf)) →
  let r := trimLogSnapshot buf h t in
  r.1.1 = upto h (lb_head buf) ∧ r.2 = lastn t (lb_tail buf) ∧
  blen r.1.1 + r.1.2 + blen r.2 = blen (lb_head buf) + lb_gap buf + blen (lb_tail buf) ∧ 0 <= r.1.2.
Proof.
  intros Hh Ht Hg Hi. unfold in_i64 in Hi.
  pose proof (blen_pos (lb_head buf)). pose proof (blen_pos (lb_tail buf)).
  pose proof (blen_upto_le h (lb_head buf) Hh). pose proof (blen_lastn t (lb_tail buf) Ht).
  unfold trimLogSnapshot. rewrite cut_head by (unfold in_i64; lia).
  rewrite cut_tail by (unfold in_i64; lia). simpl. split_and!; [done|done|lia|lia].
Qed.

Lemma trimAttempt_spec head gap tail m :
  0 <= gap → in_i64 (gap + blen head + blen tail) →
  let r := (trimAttempt (head, gap, tail) m).1 in
  blen r.1.1 + r.1.2 + blen r.2 = blen head + gap + blen tail ∧
  (0 < m → r.2 = lastn m tail ∧ r.1.1 = upto (m - blen r.2) head ∧ blen r.1.1 + blen r.2 <= m).
Proof.
  intros Hg Hi. unfold in_i64 in Hi. pose proof (blen_pos head). pose proof (blen_pos tail).
  unfold trimAttempt.
  destruct ((m <=? 0) || (blen head + blen tail <=? m)) eqn:E.
  - split; [done|]. intros Hm. apply orb_true_iff in E as [E|E]; apply Z.leb_le in E; [lia|]. simpl.
    rewrite lastn_short by lia. split_and!; [done| |lia].
    unfold upto, blen in *. rewrite take_ge; [done|lia].
  - apply orb_false_iff in E as [E1 E2]. apply Z.leb_gt in E1, E2.
    pose proof (blen_lastn m tail ltac:(lia)) as HL.
    rewrite cut_tail by (unfold in_i64; lia). cbv beta zeta iota.
    pose proof (blen_upto_le (m - blen (lastn m tail)) head ltac:(lia)) as HU.
    rewrite cut_head by (unfold in_i64; lia). simpl. split; [lia|]. intros _. split_and!; [done|done|lia].
Qed.

(** ** Properties *)

(** The log ring under at-least-once delivery: after any sequence of
    writes the head is exactly the first [headCap] bytes of the chunks without
    their redeliveries, the tail the last [tailCap] bytes of what follows, and
    the gap the number of bytes between the two. *)
Theorem log_ring_captures headCap tailCap ws :
  0 <= headCap → 0 <= tailCap → in_i64 (blen (total_bytes (first_chunks [] ws))) →
  captures (total_bytes (first_chunks [] ws)) (write_all (newLogBuffer headCap tailCap) ws).
Proof.
  intros Hh Ht Hi. apply (write_all_captures ws _ [] []); [done|apply captures_empty| |done].
  intros s q. split; intros H; [by apply not_elem_of_empty in H|by apply not_elem_of_nil in H].
Qed.

Lemma log_ring_captures_witness :
  lb_tail (write_all (newLogBuffer 1 2) [("o", 0, ["a"; "b"; "c"; "d"]%char); ("o", 0, ["z"]%char)]) = ["c"; "d"]%char.
Proof.
  apply (log_ring_captures 1 2 [("o", 0, ["a"; "b"; "c"; "d"]%char); ("o", 0, ["z"]%char)]); [lia|lia|].
  vm_compute. split; [intros H; discriminate H|reflexivity].
Defined.

(** Trimming loses nothing silently: a snapshot for a durable record, and
    a report with a byte budget, keep a prefix of the head and a suffix of the
    tail within their caps, and the gap grows by exactly the bytes cut; under a
    budget the tail has priority. *)
Theorem trim_accounts buf h t m :
  0 <= h → 0 <= t → 0 <= lb_gap buf →
  in_i64 (lb_gap buf + blen (lb_head buf) + blen (lb_tail buf)) →
  let '(head, gap, tail) := trimLogSnapshot buf h t in
  let '((head', gap', tail'), cut) := trimAttempt (head, gap, tail) m in
  head = upto h (lb_head buf) ∧ tail = lastn t (lb_tail buf) ∧
  blen head + gap + blen tail = blen (lb_head buf) + lb_gap buf + blen (lb_tail buf) ∧
  blen head' + gap' + blen tail' = blen head + gap + blen tail ∧
  (0 < m → tail' = lastn m tail ∧ head' = upto (m - blen tail') head ∧ blen head' + blen tail' <= m).
Proof.
  intros Hh Ht Hg Hi. destruct (trimLogSnapshot buf h t) as [[head gap] tail] eqn:E.
  destruct (trimLogSnapshot_spec buf h t Hh Ht Hg Hi) as (H1 & H2 & H3 & H4). rewrite E in *. cbn [fst snd] in *.
  destruct (trimAttempt (head, gap, tail) m) as [[[head' gap'] tail'] cut] eqn:E'.
  pose proof (blen_pos head). pose proof (blen_pos tail). unfold in_i64 in Hi.
  destruct (trimAttempt_spec head gap tail m) as [H5 H6]; [done|unfold in_i64; lia|]. rewrite E' in *. cbn [fst snd] in *.
  split; [exact H1|split; [exact H2|split; [exact H3|split; [exact H5|exact H6]]]].
Qed.

Lemma trim_accounts_witness :
  let buf := mkLog 4 4 ["a"; "b"; "c"; "d"]%char ["e"; "f"; "g"; "h"]%char 3 ∅ in
  ["f"; "g"; "h"]%char = lastn 3 (lb_tail buf).
Proof.
  intros buf. pose proof (trim_accounts buf 2 3 4 ltac:(lia) ltac:(lia) ltac:(simpl; lia)
    ltac:(vm_compute; split; [intros H; discriminate H|reflexivity])) as H.
  exact (proj1 (proj2 H)).
Defined.

Definition retained (b : tailbuf) (all : bytes) : Prop := tb_buf b = lastn (tb_max b) all.

Lemma tailbuf_Write_retained b all p :
  0 <= tb_max b → retained b all → retained (tailbuf_Write b p).1 (all ++ p).
Proof.
  unfold retained, tailbuf_Write. simpl. intros Hm ->. rewrite <- lastn_app by done.
  destruct (_ <? _) eqn:E; [apply Z.ltb_lt in E|apply Z.ltb_ge in E]; [done|].
  by rewrite (lastn_short (tb_max b) (_ ++ p)).
Qed.

Local Arguments tailbuf_Write : simpl never.

(** The tail buffer holds exactly the last [max] bytes ever written, and
    every write reports the whole chunk as written. *)
Theorem tailbuf_keeps_tail max ps p :
  0 <= max → let b := foldl (λ b p, (tailbuf_Write b p).1) (tailbuf_New max) ps in
  retained b (concat ps) ∧ tb_max b = max ∧ (tailbuf_Write b p).2 = blen p.
Proof.
  intros Hm b. assert (H : tb_max b = max ∧ retained b (concat ps)); [|tauto].
  subst b. induction ps as [|q ps IH] using rev_ind; [split; [done|]|].
  - unfold retained, lastn, from. simpl. by rewrite drop_nil.
  - rewrite foldl_app, concat_app. cbn [concat]. rewrite app_nil_r.
    set (b0 := foldl _ _ ps) in *. destruct IH as [E IH].
    split; [done|]. apply tailbuf_Write_retained; [lia|done].
Qed.

Lemma tailbuf_keeps_tail_witness :
  retained (foldl (λ b p, (tailbuf_Write b p).1) (tailbuf_New 3) [["a"; "b"]; ["c"; "d"]]%char) ["a"; "b"; "c"; "d"]%char.
Proof. apply (tailbuf_keeps_tail 3 [["a"; "b"]; ["c"; "d"]]%char []). lia. Defined.
