(* ===== verification/OutputWriter.v ===== *)
(** * The runner's output chunker (src/events/outputwriter.go)

    [OutputWriter] coalesces the writes of a captured process into bounded
    chunk events. Its operations are [Write], the timer's [timedFlush] and
    [Close], in any order. *)
From S2P Require Import Prelude GoLib Wire LogBuf.
From Stdlib Require Import Ascii.
Local Open Scope string_scope.
Local Open Scope list_scope.
Local Open Scope Z_scope.

Definition outputChunkMax : Z := 32 * 1024.
Definition outputFlushBytes : Z := 64 * 1024.
Definition DefaultOutputCap : Z := 16 * 2 ^ 20.

(** The events a stream emits: a chunk with its offset, or the truncation mark. *)
Inductive out_event := EvOutput (offset : Z) (chunk : bytes) | EvTruncated (cap written : Z).

Record OutputWriter := mkOW {
  o_cap : Z; o_buf : bytes; o_offset : Z; o_written : Z; o_truncated : bool; o_closed : bool; o_timer : bool;
  o_events : list out_event }.

Definition newOutputWriter : OutputWriter := mkOW DefaultOutputCap [] 0 0 false false false [].

Definition set_written (w : Z) (o : OutputWriter) : OutputWriter :=
  mkOW (o_cap o) (o_buf o) (o_offset o) w (o_truncated o) (o_closed o) (o_timer o) (o_events o).
Definition set_buf (b : bytes) (o : OutputWriter) : OutputWriter :=
  mkOW (o_cap o) b (o_offset o) (o_written o) (o_truncated o) (o_closed o) (o_timer o) (o_events o).
Definition set_timer (b : bool) (o : OutputWriter) : OutputWriter :=
  mkOW (o_cap o) (o_buf o) (o_offset o) (o_written o) (o_truncated o) (o_closed o) b (o_events o).
Definition set_truncated (o : OutputWriter) : OutputWriter :=
  mkOW (o_cap o) (o_buf o) (o_offset o) (o_written o) true (o_closed o) (o_timer o) (o_events o).
Definition set_closed (o : OutputWriter) : OutputWriter :=
  mkOW (o_cap o) (o_buf o) (o_offset o) (o_written o) (o_truncated o) true (o_timer o) (o_events o).
Definition emit_out (e : out_event) (o : OutputWriter) : OutputWriter :=
  mkOW (o_cap o) (o_buf o) (o_offset o) (o_written o) (o_truncated o) (o_closed o) (o_timer o) (o_events o ++ [e]).

(** One turn of the flush loop. *)
Definition flush_step (o : OutputWriter) : OutputWriter :=
  let n := blen (o_buf o) in
  let n := if outputChunkMax <? n then outputChunkMax else n in
  mkOW (o_cap o) (from n (o_buf o)) (o_offset o + n) (o_written o) (o_truncated o) (o_closed o) (o_timer o)
    (o_events o ++ [EvOutput (o_offset o) (upto n (o_buf o))]).

(** The loop runs at most once per buffered byte. *)
Fixpoint flush_loop (fuel : nat) (o : OutputWriter) : OutputWriter :=
  match fuel with
  | O => o
  | S fuel => match o_buf o with [] => o | _ :: _ => flush_loop fuel (flush_step o) end
  end.

Definition flushLocked (o : OutputWriter) : OutputWriter := set_buf [] (flush_loop (length (o_buf o)) o).

Definition stopTimerLocked (o : OutputWriter) : OutputWriter := set_timer false o.

Definition Write (p : bytes) (o : OutputWriter) : OutputWriter :=
  let o := set_written (o_written o + blen p) o in
  if o_truncated o || o_closed o then o
  else
    let room := o_cap o - o_offset o - blen (o_buf o) in
    if room <=? blen p then
      let o := stopTimerLocked (set_truncated (flushLocked (set_buf (o_buf o ++ upto room p) o))) in
      emit_out (EvTruncated (o_cap o) (o_written o)) o
    else
      let o := set_buf (o_buf o ++ p) o in
      if outputFlushBytes <=? blen (o_buf o) then stopTimerLocked (flushLocked o)
      else set_timer true o.

Definition timedFlush (o : OutputWriter) : OutputWriter :=
  let o := set_timer false o in
  if negb (o_closed o) && negb (o_truncated o) then flushLocked o else o.

Definition Close (o : OutputWriter) : OutputWriter :=
  if o_closed o then o
  else
    let o := stopTimerLocked (set_closed o) in
    if negb (o_truncated o) then flushLocked o else o.

Inductive ow_op := OWrite (p : bytes) | OTimer | OClose.

Definition ow_apply (o : OutputWriter) (op : ow_op) : OutputWriter :=
  match op with OWrite p => Write p o | OTimer => timedFlush o | OClose => Close o end.

(** ** What was emitted *)

Fixpoint emitted (es : list out_event) : bytes :=
  match es with
  | [] => []
  | EvOutput _ c :: es => c ++ emitted es
  | EvTruncated _ _ :: es => emitted es
  end.

(** Chunks are non-empty, bounded, and each starts where the previous ended. *)
Fixpoint chunked (off : Z) (es : list out_event) : Prop :=
  match es with
  | [] => True
  | EvOutput o c :: es => o = off ∧ 0 < blen c <= outputChunkMax ∧ chunked (off + blen c) es
  | EvTruncated _ _ :: es => es = []
  end.

Definition is_trunc (e : out_event) : bool := match e with EvTruncated _ _ => true | _ => false end.

Lemma emitted_app es es' : emitted (es ++ es') = emitted es ++ emitted es'.
Proof. induction es as [|[o c|c w] es IH]; simpl; [done| |done]. by rewrite IH, (assoc_L (++)). Qed.

Lemma chunked_app off es es' :
  existsb is_trunc es = false → chunked off es → chunked (off + blen (emitted es)) es' → chunked off (es ++ es').
Proof.
  revert off. induction es as [|[o c|c w] es IH]; intros off Ht H1 H2; simpl in *; [by rewrite Z.add_0_r in H2| |done].
  destruct H1 as (-> & Hc & H1). split_and!; try done; try lia. apply IH; [done|done|]. by rewrite blen_app, Z.add_assoc in H2.
Qed.

(** ** Flushing *)

(** Everything but the buffer, the offset and the events is kept. *)
Record flushed (o o' : OutputWriter) : Prop := {
  fl_rest : o' = mkOW (o_cap o) (o_buf o') (o_offset o') (o_written o) (o_truncated o) (o_closed o) (o_timer o) (o_events o');
  fl_new : ∃ es, o_events o' = o_events o ++ es ∧ existsb is_trunc es = false ∧ chunked (o_offset o) es ∧
    emitted es ++ o_buf o' = o_buf o ∧ o_offset o' = o_offset o + blen (emitted es) }.

Lemma flushed_refl o : flushed o o.
Proof. split; [by destruct o|]. exists []. rewrite app_nil_r. simpl. split_and!; try done. unfold blen. simpl. lia. Qed.

Lemma flushed_trans o1 o2 o3 : flushed o1 o2 → flushed o2 o3 → flushed o1 o3.
Proof.
  intros [R1 (es1 & E1 & T1 & C1 & B1 & O1)] [R2 (es2 & E2 & T2 & C2 & B2 & O2)]. split; [rewrite R2 at 1; by rewrite R1|].
  exists (es1 ++ es2). split_and!.
  - by rewrite E2, E1, (assoc_L (++)).
  - by rewrite existsb_app, T1, T2.
  - apply chunked_app; [done|done|]. by rewrite <- O1.
  - rewrite emitted_app, <- (assoc_L (++)), B2. done.
  - rewrite O2, O1, emitted_app, blen_app. lia.
Qed.

Lemma flush_step_ok o : o_buf o ≠ [] → flushed o (flush_step o) ∧ (length (o_buf (flush_step o)) < length (o_buf o))%nat.
Proof.
  intros Hne. unfold flush_step. set (n := if outputChunkMax <? blen (o_buf o) then outputChunkMax else blen (o_buf o)).
  assert (Hl : (0 < length (o_buf o))%nat) by (destruct (o_buf o); [done|simpl; lia]).
  assert (Hn : 0 < n <= outputChunkMax ∧ n <= blen (o_buf o)).
  { unfold n, outputChunkMax, blen in *. destruct (Z.ltb_spec (32 * 1024) (Z.of_nat (length (o_buf o)))); lia. }
  assert (Hc : blen (upto n (o_buf o)) = n) by (unfold blen, upto in *; rewrite length_take; lia).
  split; simpl; [|unfold from, blen in *; rewrite length_drop; lia]. split; [done|]. simpl. eexists. split; [done|]. simpl. rewrite app_nil_r.
  split_and!; try done; rewrite ?Hc; try lia. apply take_drop.
Qed.

Lemma flush_loop_ok fuel : ∀ o, (length (o_buf o) <= fuel)%nat → flushed o (flush_loop fuel o) ∧ o_buf (flush_loop fuel o) = [].
Proof.
  induction fuel as [|fuel IH]; intros o Hf; simpl.
  { split; [apply flushed_refl|]. destruct (o_buf o); [done|simpl in Hf; lia]. }
  destruct (o_buf o) as [|c b] eqn:Eb; [split; [apply flushed_refl|done]|].
  destruct (flush_step_ok o) as [Hs Hl]; [congruence|]. destruct (IH (flush_step o)) as [H1 H2]; [rewrite Eb in Hl; simpl in *; lia|].
  split; [by eapply flushed_trans|done].
Qed.

Lemma flushLocked_ok o : flushed o (flushLocked o) ∧ o_buf (flushLocked o) = [].
Proof.
  destruct (flush_loop_ok (length (o_buf o)) o) as [H1 H2]; [done|]. split; [|done]. unfold flushLocked.
  replace (set_buf [] (flush_loop (length (o_buf o)) o)) with (flush_loop (length (o_buf o)) o); [done|].
  unfold set_buf. rewrite <- H2. by destruct (flush_loop _ _).
Qed.

#[local] Opaque flushLocked.

Lemma flushLocked_keeps o : o_closed (flushLocked o) = o_closed o ∧ o_cap (flushLocked o) = o_cap o.
Proof. destruct (flushLocked_ok o) as [[R _] _]. by rewrite R. Qed.

Lemma op_cap o op : o_cap (ow_apply o op) = o_cap o.
Proof.
  destruct op; simpl; unfold Write, timedFlush, Close; repeat case_match; simpl; rewrite ?(proj2 (flushLocked_keeps _)); done.
Qed.

Lemma Write_closed p o : o_closed (Write p o) = o_closed o.
Proof. unfold Write. repeat case_match; simpl; rewrite ?(proj1 (flushLocked_keeps _)); done. Qed.

Lemma timedFlush_closed o : o_closed (timedFlush o) = o_closed o.
Proof. unfold timedFlush. case_match; [|done]. by rewrite (proj1 (flushLocked_keeps _)). Qed.

(** ** The stream *)

(** The bytes written before the writer was closed. *)
Fixpoint accepted (closed : bool) (ops : list ow_op) : bytes :=
  match ops with
  | [] => []
  | OWrite p :: ops => (if closed then [] else p) ++ accepted closed ops
  | OTimer :: ops => accepted closed ops
  | OClose :: ops => accepted true ops
  end.

(** What holds between operations, for the bytes [inp] accepted so far. *)
Record ow_ok (inp : bytes) (o : OutputWriter) : Prop := {
  ow_chunks : chunked 0 (o_events o);
  ow_off : o_offset o = blen (emitted (o_events o));
  ow_closed : o_closed o = true → o_buf o = [];
  ow_mark : existsb is_trunc (o_events o) = o_truncated o;
  ow_full : o_truncated o = true → o_buf o = [] ∧ emitted (o_events o) = upto (o_cap o) inp ∧ o_cap o <= blen inp;
  ow_part : o_truncated o = false → emitted (o_events o) ++ o_buf o = inp ∧ blen inp < o_cap o }.

(** Changing the timer or the byte counter changes nothing that is observed. *)
Lemma ow_ok_cosmetic inp o o' :
  o_cap o' = o_cap o → o_buf o' = o_buf o → o_offset o' = o_offset o → o_truncated o' = o_truncated o →
  o_events o' = o_events o → (o_closed o' = true → o_buf o' = []) → ow_ok inp o → ow_ok inp o'.
Proof. intros E1 E2 E3 E4 E5 E6 [H1 H2 H3 H4 H5 H6]. split; rewrite ?E1, ?E2, ?E3, ?E4, ?E5 in *; done. Qed.

Lemma flushed_ok inp o o' : o_truncated o = false → ow_ok inp o → flushed o o' → o_buf o' = [] → ow_ok inp o'.
Proof.
  intros Ht [H1 H2 H3 H4 H5 H6] [R (es & E & T & C & B & O)] Hb. rewrite Ht in *. destruct (H6 eq_refl) as [H7 H8].
  rewrite Hb, app_nil_r in B. assert (Ht' : o_truncated o' = false) by (rewrite R; done). split.
  - rewrite E. apply chunked_app; [done|done|]. by rewrite Z.add_0_l, <- H2.
  - by rewrite O, E, emitted_app, blen_app, H2.
  - done.
  - by rewrite E, existsb_app, H4, T, Ht'.
  - by rewrite Ht'.
  - intros _. rewrite Hb, app_nil_r, E, emitted_app, B. split; [done|]. by rewrite R.
Qed.

Lemma take_app_room (a b : bytes) c : blen a <= c → upto c (a ++ b) = a ++ upto (c - blen a) b.
Proof.
  unfold upto, blen. intros H. rewrite take_app, take_ge by lia. f_equal. f_equal. lia.
Qed.

Lemma Write_ok p inp o : ow_ok inp o → ow_ok (if o_closed o then inp else inp ++ p) (Write p o).
Proof.
  intros H. unfold Write. set (o1 := set_written _ o).
  assert (H1 : ow_ok inp o1) by (eapply ow_ok_cosmetic; [..|exact H]; try done; apply H).
  change (o_closed o) with (o_closed o1). clearbody o1. clear H o. rename o1 into o.
  destruct (o_truncated o) eqn:Et; simpl.
  { destruct (o_closed o); [done|]. destruct H1 as [A1 A2 A3 A4 A5 A6]. destruct (A5 Et) as (B1 & B2 & B3).
    split; try done; [|by rewrite Et]. intros _. split_and!; [done| |rewrite blen_app; unfold blen in *; lia].
    rewrite B2. unfold upto. rewrite take_app_le; [done|]. unfold blen in *. lia. }
  destruct (o_closed o) eqn:Ec; [done|]. pose proof (ow_part _ _ H1 Et) as [P1 P2].
  assert (Hlen : blen inp = o_offset o + blen (o_buf o)) by (rewrite <- P1, blen_app, (ow_off _ _ H1); done).
  destruct (Z.leb_spec (o_cap o - o_offset o - blen (o_buf o)) (blen p)) as [Hr|Hr].
  - set (room := o_cap o - o_offset o - blen (o_buf o)) in *.
    destruct (flushLocked_ok (set_buf (o_buf o ++ upto room p) o)) as [[R (es & E & T & C & B & O)] Hb].
    set (o2 := flushLocked _) in *. clearbody o2. rewrite Hb, app_nil_r in B. simpl in *.
    assert (Hcap : o_cap o2 = o_cap o) by (rewrite R; done). destruct H1 as [A1 A2 A3 A4 A5 A6].
    assert (Hev : chunked 0 (o_events o2)) by (rewrite E; apply chunked_app; [congruence|done|]; by rewrite Z.add_0_l, <- A2).
    assert (Htr : existsb is_trunc (o_events o2) = false) by (by rewrite E, existsb_app, A4, T, Et).
    assert (Hem : emitted (o_events o2) = upto (o_cap o) (inp ++ p)).
    { rewrite E, emitted_app, B, (assoc_L (++)), P1, take_app_room by lia. by replace room with (o_cap o - blen inp) by (unfold room; lia). }
    split; simpl; rewrite ?emitted_app, ?app_nil_r; try done.
    + apply chunked_app; [done|done|done].
    + rewrite O, E, emitted_app, blen_app, A2. done.
    + by rewrite existsb_app, Htr.
    + intros _. rewrite Hcap. split_and!; [done|done|rewrite blen_app; lia].
  - assert (Hmid : ow_ok (inp ++ p) (set_buf (o_buf o ++ p) o)).
    { destruct H1 as [A1 A2 A3 A4 A5 A6]. split; simpl; try done; [by rewrite Ec|by rewrite Et|]. intros _.
      rewrite (assoc_L (++)), P1. split; [done|]. rewrite blen_app. lia. }
    case_match; [|eapply ow_ok_cosmetic; [..|exact Hmid]; try done; simpl; by rewrite Ec].
    destruct (flushLocked_ok (set_buf (o_buf o ++ p) o)) as [Hf Hb]. pose proof (flushed_ok (inp ++ p) (set_buf (o_buf o ++ p) o) _ Et Hmid Hf Hb) as Hok.
    by eapply ow_ok_cosmetic; [..|exact Hok].
Qed.

Lemma timedFlush_ok inp o : ow_ok inp o → ow_ok inp (timedFlush o).
Proof.
  intros H. unfold timedFlush. assert (H1 : ow_ok inp (set_timer false o)) by (eapply ow_ok_cosmetic; [..|exact H]; try done; apply H).
  destruct (negb _ && negb _) eqn:E; [|done]. apply andb_true_iff in E as [_ E%negb_true_iff].
  destruct (flushLocked_ok (set_timer false o)) as [Hf Hb]. by eapply flushed_ok.
Qed.

Lemma Close_ok inp o : ow_ok inp o → ow_ok inp (Close o) ∧ o_closed (Close o) = true ∧ (o_closed o = false → o_buf (Close o) = []).
Proof.
  intros H. unfold Close. destruct (o_closed o) eqn:Ec; [by rewrite Ec|].
  change (o_truncated (stopTimerLocked (set_closed o))) with (o_truncated o). destruct (o_truncated o) eqn:Et; cbn [negb].
  - destruct (ow_full _ _ H Et) as (Hb & _). split_and!; [|done|done]. eapply ow_ok_cosmetic; [..|exact H]; done.
  - destruct (flushLocked_ok (stopTimerLocked (set_closed o))) as [Hf Hb]. split_and!; [|destruct Hf as [R _]; by rewrite R|done].
    destruct H as [A1 A2 A3 A4 A5 A6]. destruct Hf as [R (es & E & T & C & B & O)]. set (o2 := flushLocked _) in *. clearbody o2.
    rewrite Hb, app_nil_r in B. simpl in *. assert (Ht : o_truncated o2 = false) by (rewrite R; simpl; done). split.
    + rewrite E. apply chunked_app; [congruence|done|]. by rewrite Z.add_0_l, <- A2.
    + by rewrite O, E, emitted_app, blen_app, A2.
    + done.
    + by rewrite E, existsb_app, A4, T, Ht, Et.
    + by rewrite Ht.
    + intros _. destruct (A6 Et) as [P1 P2]. rewrite Hb, app_nil_r, E, emitted_app, B. split; [done|]. by rewrite R.
Qed.

Lemma ops_ok ops : ∀ inp o, ow_ok inp o →
  ow_ok (inp ++ accepted (o_closed o) ops) (foldl ow_apply o ops).
Proof.
  induction ops as [|op ops IH]; intros inp o H; simpl; [by rewrite app_nil_r|]. destruct op as [p| |]; simpl.
  - pose proof (Write_ok p inp o H) as Hw. apply IH in Hw.
    rewrite Write_closed in Hw. destruct (o_closed o); simpl in *; [done|]. by rewrite (assoc_L (++)).
  - pose proof (timedFlush_ok inp o H) as Ht. apply IH in Ht.
    by rewrite timedFlush_closed in Ht.
  - destruct (Close_ok inp o H) as (Hk & Hc & _). apply IH in Hk. by rewrite Hc in Hk.
Qed.

(** Output capture is faithful: whatever the interleaving of writes, timer
    flushes and the close, the chunks emitted so far and the bytes still
    buffered are exactly the accepted bytes up to the cap, in order; chunks are
    non-empty, at most 32 KiB, and each carries the offset where the previous
    ended; and the truncation mark is emitted once, last, exactly when the
    accepted bytes reach the cap. *)
Theorem output_capture ops :
  let o := foldl ow_apply newOutputWriter ops in
  let inp := accepted false ops in
  chunked 0 (o_events o) ∧ emitted (o_events o) ++ o_buf o = upto DefaultOutputCap inp ∧
  (existsb is_trunc (o_events o) = true ↔ DefaultOutputCap <= blen inp) ∧ (o_closed o = true → o_buf o = []).
Proof.
  intros o inp. assert (H0 : ow_ok [] newOutputWriter) by (split; simpl; done).
  pose proof (ops_ok ops [] _ H0) as H. simpl in H. fold o inp in H.
  assert (Hcap : o_cap o = DefaultOutputCap).
  { unfold o. clear. assert (Hg : ∀ ops o, o_cap (foldl ow_apply o ops) = o_cap o); [|by rewrite Hg].
    clear ops. induction ops as [|op ops IH]; intros o; simpl; [done|]. by rewrite IH, op_cap. }
  destruct H as [A1 A2 A3 A4 A5 A6]. rewrite Hcap in *. split_and!; [done| |rewrite A4|done].
  - destruct (o_truncated o) eqn:Et; [destruct (A5 eq_refl) as (-> & -> & _); by rewrite app_nil_r|].
    destruct (A6 eq_refl) as [-> Hl]. unfold upto, blen in *. by rewrite take_ge by lia.
  - destruct (o_truncated o) eqn:Et; split; try done; [intros _; apply (A5 eq_refl)|]. intros Hle. destruct (A6 eq_refl) as [_ Hl]. lia.
Qed.
