(* ===== verification/Trees.v ===== *)
(** * Covered trees and the KP identity (src/amber, src/cover)

    The trie of kept paths and [PruneTree]/[NormalizeTree] (src/amber/prune.go),
    the overlay of generated files (src/amber/overlay.go), the assembly of the
    KP and store trees (src/amber/kptree.go, src/amber/storetree.go), and
    [Derive] (src/cover/cover.go) that composes them. The object library
    (directory and file codecs, content keys) is a parameter. *)
From S2P Require Import Prelude GoLib Keys Builddef Store.
From Stdlib Require Import Ascii.
Local Open Scope string_scope.
Local Open Scope list_scope.

(** One directory entry; the content key is its bytes. *)
Record FEntry := mkFE {
  fe_Name : string; fe_Mode : Z; fe_UID : Z; fe_GID : Z; fe_Mtime : Z; fe_Xattrs : string; fe_ContentKey : string;
  fe_LinkTarget : string }.

Class TreeLib `{KL : KeyLib} := {
  (** [fstree.CollectEntries]: the entries of a stored directory, by name *)
  CollectEntries : Key → result string (list FEntry);
  (** [DirBuilder]: adding the entries in order, then [Finish] *)
  FinishDir : list FEntry → result string Key;
  (** chunking and storing a file's bytes *)
  BuildFile : string → result string Key;
  (** whether a key is a file's ([key.FileNode] or [key.Blob]) *)
  key_is_file : Key → bool;
}.

Definition S_IFMT : Z := 61440.
Definition S_IFDIR : Z := 16384.
Definition S_IFREG : Z := 32768.
Definition CoverEpochNano : Z := 315532800 * 1000000000.

Definition is_dir (e : FEntry) : bool := (Z.land (fe_Mode e) S_IFMT =? S_IFDIR)%Z.

(** ** Association lists: Go maps keyed by a path segment *)

Fixpoint assoc {A} (k : string) (l : list (string * A)) : option A :=
  match l with
  | [] => None
  | (k', v) :: l' => if String.eqb k k' then Some v else assoc k l'
  end.

Fixpoint assoc_set {A} (k : string) (v : A) (l : list (string * A)) : list (string * A) :=
  match l with
  | [] => [(k, v)]
  | (k', v') :: l' => if String.eqb k k' then (k, v) :: l' else (k', v') :: assoc_set k v l'
  end.

(** ** Paths *)

(** [strings.Trim(s, "/")]. *)
Fixpoint trim_slash_left (s : string) : string :=
  match s with String "/" s' => trim_slash_left s' | _ => s end.
Definition trim_slashes (s : string) : string := str_rev (trim_slash_left (str_rev (trim_slash_left s))).

(** The normalisation both tries apply: rooted, cleaned, without slashes around. *)
Definition tree_path (p : string) : string := trim_slashes (path_Clean ("/" +:+ p)).

Section Trees.
Context `{TL : TreeLib}.

(** ** The keep trie *)

Inductive pruneNode := PNode (full : bool) (children : list (string * pruneNode)).

Definition pn_full (n : pruneNode) : bool := let 'PNode f _ := n in f.
Definition pn_children (n : pruneNode) : list (string * pruneNode) := let 'PNode _ c := n in c.

Fixpoint pn_add (segs : list string) (n : pruneNode) : pruneNode :=
  if pn_full n then n
  else match segs with
       | [] => PNode true []
       | s :: r => PNode false (assoc_set s (pn_add r (default (PNode false []) (assoc s (pn_children n)))) (pn_children n))
       end.

(** The child that governs an entry, if it is covered. *)
Definition pn_select (n : pruneNode) (name : string) : option pruneNode :=
  if pn_full n then Some n else assoc name (pn_children n).

(** ** Pruning *)

Definition normalize (e : FEntry) : FEntry :=
  mkFE (fe_Name e) (fe_Mode e) 0 0 CoverEpochNano (fe_Xattrs e) (fe_ContentKey e) (fe_LinkTarget e).
Definition set_content (k : string) (e : FEntry) : FEntry :=
  mkFE (fe_Name e) (fe_Mode e) (fe_UID e) (fe_GID e) (fe_Mtime e) (fe_Xattrs e) k (fe_LinkTarget e).

(** The loop over a directory's entries; [None] is out of fuel. *)
Fixpoint prune_entries (visit : Key → pruneNode → string → option (result string Key)) (n : pruneNode) (at_ : string)
    (es : list FEntry) : option (result string (list FEntry)) :=
  match es with
  | [] => Some (Ok [])
  | e :: es' =>
      match pn_select n (fe_Name e) with
      | None => prune_entries visit n at_ es'
      | Some child =>
          let fe := normalize e in
          let rest fe := match prune_entries visit n at_ es' with
                         | Some (Ok out) => Some (Ok (fe :: out))
                         | r => r
                         end in
          if is_dir fe then
            match key_parse (fe_ContentKey e) with
            | None => Some (Err ("prune: " +:+ at_ +:+ "/" +:+ fe_Name e +:+ ": content key"))
            | Some ck =>
                match visit ck child (path_Join at_ (fe_Name e)) with
                | None => None
                | Some (Err e) => Some (Err e)
                | Some (Ok nk) => rest (set_content (key_bytes nk) fe)
                end
            end
          else if negb (pn_full child) then
            Some (Err ("prune: covered path descends into non-directory " +:+ at_ +:+ "/" +:+ fe_Name e))
          else rest fe
      end
  end.

(** Kept names that no entry matched. *)
Definition pn_missing (n : pruneNode) (es : list FEntry) : option string :=
  fst <$> find (λ c : string * pruneNode, negb (existsb (String.eqb (fst c)) (fe_Name <$> es))) (pn_children n).

Fixpoint pruneDir (fuel : nat) (k : Key) (n : pruneNode) (at_ : string) : option (result string Key) :=
  match fuel with
  | O => None
  | S fuel =>
      match CollectEntries k with
      | Err e => Some (Err ("prune: reading " +:+ at_ +:+ ": " +:+ e))
      | Ok es =>
          match prune_entries (pruneDir fuel) n at_ es with
          | None => None
          | Some (Err e) => Some (Err e)
          | Some (Ok out) =>
              match pn_missing n es with
              | Some c => Some (Err ("prune: covered path " +:+ path_Join at_ c +:+ " not found in tree"))
              | None => Some (FinishDir out)
              end
          end
      end
  end.

(** The trie of a keep list. *)
Fixpoint prune_trie (keep : list string) (n : pruneNode) : result string pruneNode :=
  match keep with
  | [] => Ok n
  | p :: ps =>
      let p := tree_path p in
      if String.eqb p "" then Err "prune: covered path resolves to the context root"
      else prune_trie ps (pn_add (Split p "/") n)
  end.

Definition PruneTree (fuel : nat) (root : Key) (keep : list string) : option (result string Key) :=
  match prune_trie keep (PNode false []) with
  | Err e => Some (Err e)
  | Ok trie =>
      if bool_decide (length (pn_children trie) = 0) then Some (Err "prune: empty keep set")
      else pruneDir fuel root trie "."
  end.

Definition NormalizeTree (fuel : nat) (root : Key) : option (result string Key) := pruneDir fuel root (PNode true []) ".".

(** ** Overlaying generated files *)

Inductive overlayNode := OFile (content : string) | ODir (children : list (string * overlayNode)).

Fixpoint on_add (p : string) (segs : list string) (content : string) (n : overlayNode) : result string overlayNode :=
  match segs with
  | [] => Ok n
  | s :: r =>
      match n with
      | OFile _ => Err ("overlay: generated path " +:+ p +:+ " descends into generated file")
      | ODir cs =>
          let c := default (ODir []) (assoc s cs) in
          match r with
          | [] => match c with
                  | ODir [] => Ok (ODir (assoc_set s (OFile content) cs))
                  | _ => Err ("overlay: generated path " +:+ p +:+ " conflicts with another generated entry")
                  end
          | _ :: _ => match on_add p r content c with
                      | Ok c' => Ok (ODir (assoc_set s c' cs))
                      | Err e => Err e
                      end
          end
      end
  end.

(** The trie, for one order of visiting the map. *)
Fixpoint overlay_trie (files : list (string * string)) (n : overlayNode) : result string overlayNode :=
  match files with
  | [] => Ok n
  | (p, content) :: fs =>
      let p := tree_path p in
      if String.eqb p "" then Err "overlay: generated path resolves to the root"
      else match on_add p (Split p "/") content n with
           | Ok n' => overlay_trie fs n'
           | Err e => Err e
           end
  end.

Definition gen_file (name : string) (k : Key) : FEntry := mkFE name (Z.lor S_IFREG 292) 0 0 CoverEpochNano "" (key_bytes k) "".
Definition gen_dir (name : string) (k : Key) : FEntry := mkFE name (Z.lor S_IFDIR 365) 0 0 CoverEpochNano "" (key_bytes k) "".

(** Build the entries of a list of names, in order, stopping at the first failure. *)
Fixpoint build_entries {A} (f : A → option (result string FEntry)) (names : list A) : option (result string (list FEntry)) :=
  match names with
  | [] => Some (Ok [])
  | n :: ns =>
      match f n with
      | None => None
      | Some (Err e) => Some (Err e)
      | Some (Ok e) => match build_entries f ns with Some (Ok out) => Some (Ok (e :: out)) | r => r end
      end
  end.

Definition finish (r : option (result string (list FEntry))) : option (result string Key) :=
  match r with None => None | Some (Err e) => Some (Err e) | Some (Ok es) => Some (FinishDir es) end.

(** A directory that exists only in the overlay. *)
Fixpoint overlayNewDir (fuel : nat) (n : overlayNode) : option (result string Key) :=
  match fuel, n with
  | O, _ => None
  | S _, OFile _ => Some (FinishDir [])
  | S fuel, ODir cs =>
      finish (build_entries (λ name,
        match default (ODir []) (assoc name cs) with
        | OFile content => Some (match BuildFile content with Ok k => Ok (gen_file name k) | Err e => Err e end)
        | ODir cs' => match overlayNewDir fuel (ODir cs') with
                      | None => None
                      | Some (Ok k) => Some (Ok (gen_dir name k))
                      | Some (Err e) => Some (Err e)
                      end
        end) (SortStrings (fst <$> cs)))
  end.

Fixpoint overlayDir (fuel : nat) (k : Key) (cs : list (string * overlayNode)) (at_ : string) : option (result string Key) :=
  match fuel with
  | O => None
  | S fuel =>
      match CollectEntries k with
      | Err e => Some (Err ("overlay: reading " +:+ at_ +:+ ": " +:+ e))
      | Ok es =>
          let byName name := find (λ e, String.eqb (fe_Name e) name) (rev es) in
          let names := (fe_Name <$> es) ++
            List.filter (λ c, negb (bool_decide (is_Some (byName c)))) (fst <$> cs) in
          finish (build_entries (λ name,
            match assoc name cs, byName name with
            | None, Some e => Some (Ok e)
            | None, None => Some (Ok (mkFE "" 0 0 0 0 "" "" ""))
            | Some (OFile content), e =>
                if match e with Some e => is_dir e | None => false end
                then Some (Err ("overlay: generated file " +:+ path_Join at_ name +:+ " replaces a covered directory"))
                else Some (match BuildFile content with Ok fk => Ok (gen_file name fk) | Err e => Err e end)
            | Some (ODir cs'), Some e =>
                if negb (is_dir e)
                then Some (Err ("overlay: generated path descends into non-directory " +:+ path_Join at_ name))
                else match key_parse (fe_ContentKey e) with
                     | None => Some (Err ("overlay: " +:+ at_ +:+ "/" +:+ name +:+ ": content key"))
                     | Some ck =>
                         match overlayDir fuel ck cs' (path_Join at_ name) with
                         | None => None
                         | Some (Err e) => Some (Err e)
                         | Some (Ok nk) => Some (Ok (set_content (key_bytes nk) e))
                         end
                     end
            | Some (ODir cs'), None =>
                match overlayNewDir fuel (ODir cs') with
                | None => None
                | Some (Err e) => Some (Err e)
                | Some (Ok nk) => Some (Ok (gen_dir name nk))
                end
            end) (SortStrings names))
      end
  end.

Definition OverlayTree (fuel : nat) (root : Key) (files : gmap string string) : option (result string Key) :=
  if bool_decide (files = ∅) then Some (Ok root)
  else match overlay_trie (map_to_list files) (ODir []) with
       | Err e => Some (Err e)
       | Ok (OFile _) => Some (Err "overlay: generated path resolves to the root")
       | Ok (ODir cs) => overlayDir fuel root cs "."
       end.

(** ** Assembling identity trees *)

Definition kp_file (name data : string) : result string FEntry :=
  match BuildFile data with
  | Ok k => Ok (mkFE name (Z.lor S_IFREG 292) 0 0 0 "" (key_bytes k) "")
  | Err e => Err e
  end.

Definition KPVersionString : string := itoa KPVersion.

(** The four entries, in name order. *)
Definition BuildKPTree (pinned platform : string) (src : Key) : result string Key :=
  match kp_file "job.cbor" pinned with
  | Err e => Err e
  | Ok job =>
      match kp_file "platform" platform with
      | Err e => Err e
      | Ok plat =>
          match kp_file "v" KPVersionString with
          | Err e => Err e
          | Ok v => FinishDir [job; plat; mkFE "src" (Z.lor S_IFDIR 365) 0 0 0 "" (key_bytes src) ""; v]
          end
      end
  end.

(** One entry of a build-from tree: a file's bytes, or a directory by key. *)
Inductive bf_ent := BFile (data : string) | BDir (sub : Key).

(** The entries in name order; [dir] and the override only when there is one. *)
Definition bf_entries (env : Key) (dir params platform : string) (override : option string) : list (string * bf_ent) :=
  ssort (λ a b : string * bf_ent, str_leb (fst a) (fst b))
    ([("env", BDir env); ("params", BFile params); ("platform", BFile platform)] ++
     (if String.eqb dir "" then [] else [("dir", BFile dir)]) ++
     match override with Some o => [("BUILD.jobs", BFile o)] | None => [] end).

Definition bf_entry (x : string * bf_ent) : result string FEntry :=
  match snd x with
  | BDir sub => Ok (mkFE (fst x) (Z.lor S_IFDIR 365) 0 0 0 "" (key_bytes sub) "")
  | BFile data => kp_file (fst x) data
  end.

(** The build-from tree F: the source by key, the parameters and the platform. *)
Definition BuildFromTree (env : Key) (dir params platform : string) (override : option string) : result string Key :=
  match build_entries (λ x, Some (bf_entry x)) (bf_entries env dir params platform override) with
  | Some (Ok es) => FinishDir es
  | Some (Err e) => Err e
  | None => Err ""
  end.

(** The union directory of a set of artifacts, one entry per distinct key. *)
Definition BuildStoreTree (boks : list Key) : result string Key :=
  let uniq := foldl (λ (m : gmap string Key) k, <[key_String k := k]> m) ∅ boks in
  FinishDir (omap (λ name,
    (λ k, mkFE name (if key_is_file k then Z.lor S_IFREG 292 else Z.lor S_IFDIR 365) 0 0 0 "" (key_bytes k) "") <$> uniq !! name)
    (SortStrings (elements (dom uniq)))).

Definition GeneratedMaxBytes : Z := 2 ^ 20.

Definition generatedSize (g : gmap string string) : Z :=
  foldl (λ t kv, (t + Z.of_nat (String.length (snd kv)))%Z) 0%Z (map_to_list g).

(** [Derive]: the covered tree, the overlay, the identity tree. *)
Definition cover_tree (fuel : nat) (p : Pinned) (root : Key) : option (result string Key) :=
  if bool_decide (p_Closure p ≠ []) then PruneTree fuel root (p_Closure p)
  else if bool_decide (p_Sources p ≠ []) then PruneTree fuel root (p_Sources p)
  else NormalizeTree fuel root.

Definition Derive (fuel : nat) (pinnedBytes : string) (p : Pinned) (platform : string) (root : Key) : option (result string Key) :=
  if (GeneratedMaxBytes <? generatedSize (p_Generated p))%Z then Some (Err "cover: generated sources exceed the cap")
  else if bool_decide (p_Closure p ≠ []) && bool_decide (p_Sources p ≠ [])
  then Some (Err "cover: pinned declares both Closure and Sources")
  else match cover_tree fuel p root with
       | None => None
       | Some (Err e) => Some (Err e)
       | Some (Ok covered) =>
           match OverlayTree fuel covered (p_Generated p) with
           | None => None
           | Some (Err e) => Some (Err e)
           | Some (Ok covered) => Some (BuildKPTree pinnedBytes platform covered)
           end
       end.
End Trees.
