(* ===== verification/TreeFacts.v ===== *)
(** * What a covered tree depends on

    Pruning keeps exactly the covered paths, with normalised metadata; the KP
    identity depends on the covered part of a context only, and determines the
    pinned recipe, the platform and the covered tree. *)
From S2P Require Import Prelude GoLib Keys Builddef Trees.
From Stdlib Require Import Ascii.
Local Open Scope string_scope.
Local Open Scope list_scope.

Section TreeFacts.
Context `{TL : TreeLib}.

(** ** Agreement of two trees on a cover *)

Definition covered (n : pruneNode) (es : list FEntry) : list FEntry :=
  List.filter (λ e, bool_decide (is_Some (pn_select n (fe_Name e)))) es.

(** Equal up to owner, group and time; directories down to depth [d]. *)
Fixpoint agree (d : nat) (n : pruneNode) (k1 k2 : Key) : Prop :=
  match d with
  | O => True
  | S d =>
      match CollectEntries k1, CollectEntries k2 with
      | Ok es1, Ok es2 => Forall2 (λ a b,
          fe_Name a = fe_Name b ∧ fe_Mode a = fe_Mode b ∧ fe_Xattrs a = fe_Xattrs b ∧ fe_LinkTarget a = fe_LinkTarget b ∧
          if is_dir a
          then ∃ c1 c2 child, key_parse (fe_ContentKey a) = Some c1 ∧ key_parse (fe_ContentKey b) = Some c2 ∧
                 pn_select n (fe_Name a) = Some child ∧ agree d child c1 c2
          else fe_ContentKey a = fe_ContentKey b) (covered n es1) (covered n es2)
      | _, _ => False
      end
  end.

Lemma prune_entries_covered visit n at_ es : prune_entries visit n at_ es = prune_entries visit n at_ (covered n es).
Proof.
  induction es as [|e es IH]; simpl; [done|]. destruct (pn_select n (fe_Name e)) as [c|] eqn:E.
  - rewrite bool_decide_eq_true_2 by eauto. simpl. rewrite E, IH. done.
  - rewrite bool_decide_eq_false_2 by (by intros []). done.
Qed.

Lemma is_dir_norm e : is_dir (normalize e) = is_dir e.
Proof. done. Qed.

Lemma is_dir_mode a b : fe_Mode a = fe_Mode b → is_dir a = is_dir b.
Proof. unfold is_dir. by intros ->. Qed.

Lemma find_ext_in {A} (f g : A → bool) l : (∀ x, x ∈ l → f x = g x) → find f l = find g l.
Proof.
  induction l as [|x l IH]; intros H; simpl; [done|]. rewrite (H x) by left. destruct (g x); [done|]. apply IH. intros y Hy. apply H. by right.
Qed.

Lemma assoc_Some {A} k (v : A) l : (k, v) ∈ l → is_Some (assoc k l).
Proof.
  induction l as [|[k' v'] l IH]; [by intros ?%elem_of_nil|]. simpl. intros [[= <- <-]|Hin]%elem_of_cons; [rewrite String.eqb_refl; eauto|].
  destruct (String.eqb k k'); eauto.
Qed.

(** A kept name is missing or not whatever else the directory holds. *)
Lemma missing_covered n es1 es2 : fe_Name <$> covered n es1 = fe_Name <$> covered n es2 → pn_missing n es1 = pn_missing n es2.
Proof.
  intros H. unfold pn_missing. f_equal. apply find_ext_in. intros c Hin. f_equal.
  assert (Hc : ∀ es, existsb (String.eqb (fst c)) (fe_Name <$> es) = existsb (String.eqb (fst c)) (fe_Name <$> covered n es)).
  { intros es. induction es as [|e es IH]; [done|]. unfold covered. cbn [List.filter]. fold (covered n es). rewrite fmap_cons. cbn [existsb].
    case_bool_decide as Hb; rewrite ?fmap_cons; cbn [existsb]; rewrite IH; [done|]. destruct (String.eqb_spec (fst c) (fe_Name e)) as [E|E]; [|done].
    destruct Hb. unfold pn_select. destruct (pn_full n); [eauto|]. rewrite <- E. destruct c as [k v]. by eapply assoc_Some. }
  rewrite (Hc es1), (Hc es2), H. done.
Qed.

(** Pruning reads nothing but the cover. *)
Lemma prune_agree fuel : ∀ n k1 k2 at_, agree fuel n k1 k2 → pruneDir fuel k1 n at_ = pruneDir fuel k2 n at_.
Proof.
  induction fuel as [|fuel IH]; intros n k1 k2 at_; [done|]. cbn [agree pruneDir].
  destruct (CollectEntries k1) as [es1|e1], (CollectEntries k2) as [es2|e2]; try done. intros Hall.
  assert (Hn : fe_Name <$> covered n es1 = fe_Name <$> covered n es2).
  { clear IH. induction Hall as [|a b l1 l2 Hab Hall IHl]; [done|]. by rewrite !fmap_cons, (proj1 Hab), IHl. }
  rewrite (missing_covered _ _ _ Hn), (prune_entries_covered _ _ _ es1), (prune_entries_covered _ _ _ es2).
  replace (prune_entries (pruneDir fuel) n at_ (covered n es1)) with (prune_entries (pruneDir fuel) n at_ (covered n es2)); [done|].
  clear Hn. induction Hall as [|a b l1 l2 (N & M & X & LT & D) Hall IHl]; simpl; [done|]. rewrite <- N.
  destruct (pn_select n (fe_Name a)) as [child|] eqn:Es; [|done]. rewrite !is_dir_norm, <- (is_dir_mode a b M).
  destruct (is_dir a).
  - destruct D as (c1 & c2 & child' & -> & -> & Hs & Hag). injection Hs as <-. rewrite (IH _ _ _ _ Hag).
    destruct (pruneDir fuel c2 child _) as [[nk|e]|]; try done. rewrite IHl. unfold normalize, set_content. simpl. by rewrite N, M, X, LT.
  - destruct (negb _); [done|]. rewrite IHl. unfold normalize. by rewrite N, M, X, LT, D.
Qed.

(** The trie of a pinned recipe's cover. *)
Definition pinned_trie (p : Pinned) : pruneNode :=
  let keep := if bool_decide (p_Closure p ≠ []) then p_Closure p else p_Sources p in
  if bool_decide (keep = []) then PNode true []
  else match prune_trie keep (PNode false []) with Ok t => t | Err _ => PNode true [] end.

(** [C21] Early cutoff is sound: the KP identity of a build depends on the covered
    part of its context only. Two contexts that agree on the cover, whatever
    else they contain and whatever owners and times their entries carry,
    derive the same identity (or fail the same way). *)
Theorem derive_cover_only fuel pinnedBytes p platform r1 r2 :
  agree fuel (pinned_trie p) r1 r2 → Derive fuel pinnedBytes p platform r1 = Derive fuel pinnedBytes p platform r2.
Proof.
  intros H. unfold Derive. destruct (_ <? _)%Z; [done|]. destruct (_ && _); [done|].
  assert (Hc : cover_tree fuel p r1 = cover_tree fuel p r2); [|by rewrite Hc].
  unfold cover_tree, PruneTree, NormalizeTree, pinned_trie in *.
  destruct (decide (p_Closure p ≠ [])) as [Hcl|Hcl].
  - rewrite !(bool_decide_eq_true_2 _ Hcl) in *. rewrite (bool_decide_eq_false_2 (p_Closure p = [])) in H by done.
    destruct (prune_trie _ _); [|done]. case_bool_decide; [done|]. by apply prune_agree.
  - rewrite !(bool_decide_eq_false_2 _ Hcl) in *. destruct (decide (p_Sources p ≠ [])) as [Hs|Hs].
    + rewrite !(bool_decide_eq_true_2 _ Hs) in *. rewrite (bool_decide_eq_false_2 (p_Sources p = [])) in H by done.
      destruct (prune_trie _ _); [|done]. case_bool_decide; [done|]. by apply prune_agree.
    + rewrite !(bool_decide_eq_false_2 _ Hs) in *. rewrite (bool_decide_eq_true_2 (p_Sources p = [])) in H by (by apply dec_stable).
      by apply prune_agree.
Qed.

(** ** What a pruned tree contains *)

(** The entry a path leads to. *)
Fixpoint look (k : Key) (segs : list string) : option FEntry :=
  match segs, CollectEntries k with
  | s :: r, Ok es =>
      match find (λ e, String.eqb (fe_Name e) s) es with
      | Some e => match r with
                  | [] => Some e
                  | _ :: _ => if is_dir e then match key_parse (fe_ContentKey e) with Some ck => look ck r | None => None end else None
                  end
      | None => None
      end
  | _, _ => None
  end.

(** Whether the trie keeps a path (itself, below a kept path, or on the way to one). *)
Fixpoint keeps_path (n : pruneNode) (segs : list string) : bool :=
  match segs with
  | [] => true
  | s :: r => match pn_select n s with Some c => keeps_path c r | None => false end
  end.

(** The same entry, normalised; a non-directory shares its content. *)
Definition same_entry (e e' : FEntry) : Prop :=
  fe_Name e' = fe_Name e ∧ fe_Mode e' = fe_Mode e ∧ fe_Xattrs e' = fe_Xattrs e ∧ fe_LinkTarget e' = fe_LinkTarget e ∧
  fe_UID e' = 0%Z ∧ fe_GID e' = 0%Z ∧ fe_Mtime e' = CoverEpochNano ∧ (is_dir e = false → fe_ContentKey e' = fe_ContentKey e).

(** Each kept entry of a directory, and what it became. *)
Lemma prune_entries_find visit n at_ s es out :
  prune_entries visit n at_ es = Some (Ok out) →
  match pn_select n s, find (λ e, String.eqb (fe_Name e) s) es with
  | Some c, Some e => ∃ e', find (λ e, String.eqb (fe_Name e) s) out = Some e' ∧ same_entry e e' ∧
      (is_dir e = true → ∃ ck nk, key_parse (fe_ContentKey e) = Some ck ∧ visit ck c (path_Join at_ s) = Some (Ok nk) ∧
         fe_ContentKey e' = key_bytes nk)
  | _, _ => find (λ e, String.eqb (fe_Name e) s) out = None
  end.
Proof.
  revert out. induction es as [|e es IH]; intros out; simpl; [intros [= <-]; by destruct (pn_select n s)|].
  destruct (pn_select n (fe_Name e)) as [child|] eqn:Es.
  - rewrite is_dir_norm. intros H.
    assert (Hout : ∃ e' out', out = e' :: out' ∧ prune_entries visit n at_ es = Some (Ok out') ∧ same_entry e e' ∧
      (is_dir e = true → ∃ ck nk, key_parse (fe_ContentKey e) = Some ck ∧ visit ck child (path_Join at_ (fe_Name e)) = Some (Ok nk) ∧
         fe_ContentKey e' = key_bytes nk)).
    { destruct (is_dir e) eqn:Ed.
      - destruct (key_parse (fe_ContentKey e)) as [ck|] eqn:Ek; [|done]. destruct (visit ck child _) as [[nk|]|] eqn:Ev; try done.
        destruct (prune_entries visit n at_ es) as [[out'|]|]; try done. injection H as <-.
        eexists _, out'. split_and!; [done|done|unfold same_entry; by rewrite Ed|]. intros _. exists ck, nk. done.
      - destruct (negb _); [done|]. destruct (prune_entries visit n at_ es) as [[out'|]|]; try done. injection H as <-.
        eexists _, out'. split_and!; try done. }
    destruct Hout as (e' & out' & -> & E' & Hsame & Hd). specialize (IH _ E'). simpl. rewrite (proj1 Hsame).
    destruct (String.eqb_spec (fe_Name e) s) as [<-|Hne]; [|done]. rewrite Es. eauto.
  - intros H. specialize (IH _ H). destruct (String.eqb_spec (fe_Name e) s) as [<-|Hne]; [|done]. rewrite Es in *. done.
Qed.

(** What a path leads to before and after pruning. *)
Lemma prune_look (Hround : ∀ es k, FinishDir es = Ok k → CollectEntries k = Ok es) fuel k n at_ k' segs :
  pruneDir fuel k n at_ = Some (Ok k') → segs ≠ [] →
  match look k segs, look k' segs with
  | Some e, Some e' => keeps_path n segs = true ∧ same_entry e e'
  | Some _, None => keeps_path n segs = false
  | None, r => r = None
  end.
Proof.
  revert k n at_ k' segs. induction fuel as [|fuel IH]; intros k n at_ k' segs; [done|]. cbn [pruneDir].
  destruct (CollectEntries k) as [es|] eqn:Ek; [|done]. destruct (prune_entries _ n at_ es) as [[out|]|] eqn:Ep; try done.
  destruct (pn_missing n es); [done|]. intros [= Hfin] Hne. destruct segs as [|s r]; [done|]. simpl. rewrite Ek, (Hround _ _ Hfin).
  pose proof (prune_entries_find _ _ _ s _ _ Ep) as Hf. destruct (pn_select n s) as [c|].
  - destruct (find _ es) as [e|]; [|by rewrite Hf]. destruct Hf as (e' & -> & Hsame & Hd). destruct r as [|s' r]; [done|].
    assert (Edir : is_dir e' = is_dir e) by (apply is_dir_mode, Hsame). rewrite Edir. destruct (is_dir e) eqn:Ed; [|done].
    destruct (Hd eq_refl) as (ck & nk & -> & Hv & ->). rewrite key_parse_bytes. by eapply IH.
  - rewrite Hf. destruct (find _ es) as [e|]; [|done]. destruct r; [done|].
    destruct (is_dir e); [|done]. destruct (key_parse _) as [ck|]; [|done]. by destruct (look ck _).
Qed.

(** [C22] Pruning is exact: a path leads somewhere in the pruned tree exactly when
    the cover keeps it and it leads somewhere in the original; the entry has
    the same name, mode and attributes, no owner, the fixed time, and unless
    it is a directory the same content. *)
Theorem prune_exact (Hround : ∀ es k, FinishDir es = Ok k → CollectEntries k = Ok es) fuel k n at_ k' segs :
  pruneDir fuel k n at_ = Some (Ok k') → segs ≠ [] →
  match look k segs, look k' segs with
  | Some e, Some e' => keeps_path n segs = true ∧ same_entry e e'
  | Some _, None => keeps_path n segs = false
  | None, r => r = None
  end.
Proof. apply prune_look, Hround. Qed.

(** ** The identity tree *)

(** KP is an identity: with content addressing (equal keys, equal content),
    two identity trees have the same key exactly when they pin the same
    recipe bytes for the same platform over the same covered tree. *)
Theorem kp_identity (Hdir : ∀ a b k, FinishDir a = Ok k → FinishDir b = Ok k → a = b)
    (Hfile : ∀ a b k, BuildFile a = Ok k → BuildFile b = Ok k → a = b) p1 pl1 s1 p2 pl2 s2 k1 k2 :
  BuildKPTree p1 pl1 s1 = Ok k1 → BuildKPTree p2 pl2 s2 = Ok k2 →
  k1 = k2 ↔ p1 = p2 ∧ pl1 = pl2 ∧ s1 = s2.
Proof.
  intros E1 E2. split; [|intros (-> & -> & ->); congruence]. intros <-. unfold BuildKPTree, kp_file in *.
  destruct (BuildFile p1) as [j1|] eqn:J1; [|done]. destruct (BuildFile pl1) as [q1|] eqn:Q1; [|done].
  destruct (BuildFile p2) as [j2|] eqn:J2; [|done]. destruct (BuildFile pl2) as [q2|] eqn:Q2; [|done].
  destruct (BuildFile KPVersionString) as [v|]; [|done]. pose proof (Hdir _ _ _ E1 E2) as H. injection H as Hj Hq Hs.
  apply key_bytes_inj in Hj, Hq, Hs. subst. eauto.
Qed.

(** The entries of a build-from tree are those of its inputs. *)
Lemma bf_entries_inj e1 d1 p1 l1 o1 e2 d2 p2 l2 o2 :
  bf_entries e1 d1 p1 l1 o1 = bf_entries e2 d2 p2 l2 o2 → e1 = e2 ∧ d1 = d2 ∧ p1 = p2 ∧ l1 = l2 ∧ o1 = o2.
Proof.
  unfold bf_entries. destruct (String.eqb_spec d1 "") as [->|H1], (String.eqb_spec d2 "") as [->|H2], o1, o2; cbv; intros [=]; by subst.
Qed.

Lemma bf_entry_inj (Hfile : ∀ a b k, BuildFile a = Ok k → BuildFile b = Ok k → a = b) x y e : bf_entry x = Ok e → bf_entry y = Ok e → x = y.
Proof.
  destruct x as [n [a|a]], y as [m [b|b]]; unfold bf_entry, kp_file; simpl.
  - destruct (BuildFile a) as [ka|] eqn:Ea; [|done]. destruct (BuildFile b) as [kb|] eqn:Eb; [|done]. intros [= <-] [= Hn Hk].
    apply key_bytes_inj in Hk as ->. by rewrite (Hfile _ _ _ Ea Eb), Hn.
  - destruct (BuildFile a); [|done]. by intros [= <-] [=].
  - destruct (BuildFile b); [|done]. by intros [= <-] [=].
  - intros [= <-] [= Hn Hk]. apply key_bytes_inj in Hk as ->. by rewrite Hn.
Qed.

Lemma build_entries_inj {A} (f : A → result string FEntry) : (∀ x y e, f x = Ok e → f y = Ok e → x = y) → ∀ l1 l2 es,
  build_entries (λ x, Some (f x)) l1 = Some (Ok es) → build_entries (λ x, Some (f x)) l2 = Some (Ok es) → l1 = l2.
Proof.
  intros Hf. induction l1 as [|x l1 IH]; intros [|y l2] es; simpl; [done|..].
  - intros [= <-]. destruct (f y); [|done]. by destruct (build_entries _ l2) as [[]|].
  - destruct (f x); [|done]. destruct (build_entries _ l1) as [[]|]; try done. by intros [= <-].
  - destruct (f x) as [a|] eqn:Ex; [|done]. destruct (build_entries _ l1) as [[as_|]|] eqn:E1; try done. intros [= <-].
    destruct (f y) as [b|] eqn:Ey; [|done]. destruct (build_entries _ l2) as [[bs|]|] eqn:E2; try done. intros [= -> ->].
    by rewrite (Hf _ _ _ Ex Ey), (IH _ _ eq_refl E2).
Qed.

(** F is an identity as well: it determines the source, the build directory,
    the parameters, the platform and the override. *)
Theorem buildfrom_identity (Hdir : ∀ a b k, FinishDir a = Ok k → FinishDir b = Ok k → a = b)
    (Hfile : ∀ a b k, BuildFile a = Ok k → BuildFile b = Ok k → a = b) e1 d1 p1 l1 o1 e2 d2 p2 l2 o2 k1 k2 :
  BuildFromTree e1 d1 p1 l1 o1 = Ok k1 → BuildFromTree e2 d2 p2 l2 o2 = Ok k2 →
  k1 = k2 ↔ e1 = e2 ∧ d1 = d2 ∧ p1 = p2 ∧ l1 = l2 ∧ o1 = o2.
Proof.
  intros E1 E2. split; [|intros (-> & -> & -> & -> & ->); congruence]. intros <-. unfold BuildFromTree in *.
  destruct (build_entries _ (bf_entries e1 _ _ _ _)) as [[es1|]|] eqn:B1; try done. destruct (build_entries _ (bf_entries e2 _ _ _ _)) as [[es2|]|] eqn:B2; try done.
  pose proof (Hdir _ _ _ E1 E2) as <-. apply bf_entries_inj, (build_entries_inj bf_entry (bf_entry_inj Hfile) _ _ _ B1 B2).
Qed.
End TreeFacts.

(** ** A concrete object library: a directory's key is its encoding *)

Global Instance FEntry_eq_dec : EqDecision FEntry.
Proof. solve_decision. Defined.

Global Instance FEntry_countable : Countable FEntry.
Proof.
  refine (inj_countable' (λ e, (fe_Name e, fe_Mode e, fe_UID e, fe_GID e, fe_Mtime e, fe_Xattrs e, fe_ContentKey e, fe_LinkTarget e))
    (λ '(n, m, u, g, t, x, c, l), mkFE n m u g t x c l) _). by intros [].
Defined.

Fixpoint pos_string (p : positive) : string :=
  match p with xH => "" | xO p => String "0" (pos_string p) | xI p => String "1" (pos_string p) end.

Fixpoint string_pos (s : string) : positive :=
  match s with EmptyString => xH | String "0" s => xO (string_pos s) | String _ s => xI (string_pos s) end.

Lemma string_pos_string p : string_pos (pos_string p) = p.
Proof. induction p; simpl; congruence. Qed.

Definition tree_lib : @TreeLib string_keys := {|
  CollectEntries := λ k : @Key string_keys, match decode (string_pos (k : string)) with Some es => Ok es | None => Err "not a directory" end;
  FinishDir := λ es, @Ok string (@Key string_keys) (pos_string (encode es));
  BuildFile := λ b, @Ok string (@Key string_keys) b;
  key_is_file := λ _, false |}.

Lemma tree_lib_round es k : FinishDir (TreeLib := tree_lib) es = Ok k → CollectEntries (TreeLib := tree_lib) k = Ok es.
Proof. intros [= <-]. simpl. by rewrite string_pos_string, decode_encode. Qed.

Lemma tree_lib_dir a b k : FinishDir (TreeLib := tree_lib) a = Ok k → FinishDir (TreeLib := tree_lib) b = Ok k → a = b.
Proof. intros Ha%tree_lib_round Hb%tree_lib_round. congruence. Qed.

Lemma tree_lib_file a b k : BuildFile (TreeLib := tree_lib) a = Ok k → BuildFile (TreeLib := tree_lib) b = Ok k → a = b.
Proof. by intros [= <-] [= <-]. Qed.

Definition file_entry (name content : string) (mtime : Z) : FEntry := mkFE name (Z.lor S_IFREG 420) 1000 1000 mtime "" (String "k" content) "".
Definition dir_key (es : list FEntry) : @Key string_keys := pos_string (encode es).

(** Two contexts: the same source, another time, and a file outside the cover. *)
Definition ctx1 : @Key string_keys := dir_key [file_entry "a" "x" 1].
Definition ctx2 : @Key string_keys := dir_key [file_entry "a" "x" 2; file_entry "b" "y" 3].

Definition cover_pinned : Pinned :=
  {| p_Inputs := []; p_Env := ∅; p_Script := ""; p_RuntimeDeps := []; p_Caches := []; p_Resources := None; p_Sources := ["a"];
     p_Closure := []; p_Dir := ""; p_Generated := ∅ |}.

Lemma derive_cover_only_witness :
  ctx1 ≠ ctx2 ∧ Derive (TL := tree_lib) 3 "pin" cover_pinned "linux/amd64" ctx1 = Derive (TL := tree_lib) 3 "pin" cover_pinned "linux/amd64" ctx2.
Proof.
  split; [vm_compute; discriminate|].
  apply (derive_cover_only (TL := tree_lib)).
  assert (E1 : CollectEntries (TreeLib := tree_lib) ctx1 = Ok [file_entry "a" "x" 1]) by (vm_compute; reflexivity).
  assert (E2 : CollectEntries (TreeLib := tree_lib) ctx2 = Ok [file_entry "a" "x" 2; file_entry "b" "y" 3]) by (vm_compute; reflexivity).
  cbn [agree]. rewrite E1, E2.
  assert (C1 : covered (pinned_trie cover_pinned) [file_entry "a" "x" 1] = [file_entry "a" "x" 1]) by (vm_compute; reflexivity).
  assert (C2 : covered (pinned_trie cover_pinned) [file_entry "a" "x" 2; file_entry "b" "y" 3] = [file_entry "a" "x" 2]) by (vm_compute; reflexivity).
  rewrite C1, C2. repeat constructor.
Defined.

Lemma prune_exact_witness :
  ∃ k', pruneDir (TL := tree_lib) 3 ctx2 (PNode false [("a", PNode true [])]) "." = Some (Ok k') ∧ look (TL := tree_lib) k' ["b"] = None.
Proof.
  destruct (pruneDir (TL := tree_lib) 3 ctx2 (PNode false [("a", PNode true [])]) ".") as [[k'|e]|] eqn:E; [|vm_compute in E; discriminate E..].
  exists k'. split; [done|].
  pose proof (prune_exact (TL := tree_lib) tree_lib_round 3 ctx2 (PNode false [("a", PNode true [])]) "." k' ["b"] E ltac:(discriminate)) as H.
  assert (Hl : is_Some (look (TL := tree_lib) ctx2 ["b"])) by (vm_compute; eauto). destruct Hl as [e He]. rewrite He in H.
  destruct (look (TL := tree_lib) k' ["b"]); [|done]. by destruct H as [H _].
Defined.

Lemma kp_identity_witness :
  ∃ k1 k2, BuildKPTree (TL := tree_lib) "pin" "linux/amd64" ctx1 = Ok k1 ∧ BuildKPTree (TL := tree_lib) "pin" "linux/arm64" ctx1 = Ok k2 ∧ k1 ≠ k2.
Proof.
  eexists _, _. split; [reflexivity|]. split; [reflexivity|].
  intros H. apply (kp_identity (TL := tree_lib) tree_lib_dir tree_lib_file "pin" "linux/amd64" ctx1 "pin" "linux/arm64" ctx1) in H;
    [|reflexivity..]. destruct H as (_ & H & _). discriminate H.
Defined.
