(* ===== verification/Cover.v ===== *)
(** * The closure walk of a widened build (src/cover/cover.go)

    [Walk] and [WalkClosure] expand the declared sources of a build into the
    paths its context is pruned to: every declared path, every symbolic link
    met on the way and what the links lead to. Directories are listed with
    [Ls] (src/amber/tree.go). *)
From S2P Require Import Prelude GoLib Keys Trees.
From Stdlib Require Import Ascii.
Local Open Scope string_scope.
Local Open Scope list_scope.

(** [fstree.ResolvePath]: the key of the directory at a subpath of a tree;
    [None] is the zero key. *)
Class LsLib `{TL : TreeLib} := {
  ResolvePath : option Key → string → result string Key;
}.

Definition S_IFLNK : Z := 40960.

(** The link budget of one resolved path. *)
Definition linkBudget : nat := 40.

Record Warning := mkWarning { wn_Path : string; wn_Msg : string }.

Record WalkResult := mkWR { wr_Paths : list string; wr_Warnings : list Warning }.

(** The walker's maps and its warnings; its root and the links allowed to
    escape do not change during a walk. *)
Record walker := mkWalker { w_covered : gset string; w_visited : gset string; w_warnings : list Warning }.

Definition set_covered (f : gset string → gset string) (w : walker) : walker :=
  mkWalker (f (w_covered w)) (w_visited w) (w_warnings w).
Definition set_visited (f : gset string → gset string) (w : walker) : walker :=
  mkWalker (w_covered w) (f (w_visited w)) (w_warnings w).
Definition add_warning (x : Warning) (w : walker) : walker :=
  mkWalker (w_covered w) (w_visited w) (w_warnings w ++ [x]).

Definition new_walker : walker := mkWalker ∅ ∅ [].

(** Walker methods: a state, an error result, and fuel. *)
Abbreviation W A := (M walker (result string A)).

Definition wok : W unit := mret (Ok tt).
Definition wfail {A} (e : string) : W A := mret (Err e).
Definition wthen {A B} (m : W A) (k : A → W B) : W B :=
  m ≫= λ r, match r with Ok a => k a | Err e => wfail e end.

(** Run a method on every element, stopping at the first error. *)
Fixpoint wfor {A} (f : A → W unit) (l : list A) : W unit :=
  match l with
  | [] => wok
  | x :: l => wthen (f x) (λ _, wfor f l)
  end.

(** Whether a cleaned relative path leaves the root. *)
Definition escapes (t : string) : bool := String.eqb t ".." || HasPrefix t "../".

(** Where a relative link at [linkPath] points, from the root. *)
Definition link_dest (linkPath target : string) : string := path_Clean (path_Join (path_Dir linkPath) target).

Section Cover.
Context `{LL : LsLib}.

(** ** Listing a directory *)

Record Entry := mkEntry { en_Name : string; en_Mode : Z; en_Size : Z; en_Key : option Key; en_LinkTarget : string }.

Definition is_lnk (e : Entry) : bool := (Z.land (en_Mode e) S_IFMT =? S_IFLNK)%Z.
Definition en_is_dir (e : Entry) : bool := (Z.land (en_Mode e) S_IFMT =? S_IFDIR)%Z.

Definition to_entry (fe : FEntry) : result string Entry :=
  if String.eqb (fe_ContentKey fe) "" then Ok (mkEntry (fe_Name fe) (fe_Mode fe) 0 None (fe_LinkTarget fe))
  else match key_parse (fe_ContentKey fe) with
       | Some ck => Ok (mkEntry (fe_Name fe) (fe_Mode fe) (key_Length ck) (Some ck) (fe_LinkTarget fe))
       | None => Err ("amber: entry " +:+ fe_Name fe +:+ ": content key")
       end.

Fixpoint to_entries (fents : list FEntry) : result string (list Entry) :=
  match fents with
  | [] => Ok []
  | fe :: fents => e ← to_entry fe; out ← to_entries fents; Ok (e :: out)
  end.

Definition Ls (root : option Key) (path : string) : result string (list Entry) :=
  dk ← ResolvePath root path; fents ← CollectEntries dk; to_entries fents.

(** ** Resolving a path *)

Section Resolve.
Context (root : Key).

(** The loop of [resolve] over the segments still to walk, from the resolved
    prefix [cur] and its directory; it also yields the links met, each of
    which joins the closure. A link on the way restarts the walk at the root
    with its destination in front of the remaining segments. *)
Fixpoint resolve_from (p : string) (budget : nat) : list string → string → option Key →
    list string * result string (string * option Entry) :=
  fix go segs cur curKey :=
    match segs with
    | [] => ([], Err ("cover: path " +:+ p +:+ " resolves to the context root"))
    | seg :: rest =>
        if String.eqb seg "" || String.eqb seg "." then go rest cur curKey
        else
          match Ls curKey "" with
          | Err e => ([], Err ("cover: listing " +:+ cur +:+ ": " +:+ e))
          | Ok ents =>
              match find (λ e, String.eqb (en_Name e) seg) ents with
              | None => ([], Ok (p, None))
              | Some e =>
                  let full := path_Join cur seg in
                  let last := bool_decide (rest = []) in
                  if is_lnk e then
                    match budget with
                    | O => ([], Err ("cover: symlink loop resolving " +:+ p))
                    | S budget =>
                        if last then ([full], Ok (full, Some e))
                        else
                          let t := en_LinkTarget e in
                          if HasPrefix t "/" then
                            ([full], Err ("cover: path " +:+ p +:+ " traverses symlink " +:+ full +:+ " with absolute target"))
                          else
                            let nt := path_Clean (path_Join cur t) in
                            if escapes nt then
                              ([full], Err ("cover: path " +:+ p +:+ " traverses symlink " +:+ full +:+ " whose target escapes the context root"))
                            else
                              let '(links, r) := resolve_from p budget (Split nt "/" ++ rest) "" (Some root) in
                              (full :: links, r)
                    end
                  else if last then ([], Ok (full, Some e))
                  else if negb (en_is_dir e) then
                    ([], Err ("cover: path " +:+ p +:+ " descends into non-directory " +:+ full))
                  else go rest full (en_Key e)
              end
          end
    end.

Definition resolve_path (p : string) : list string * result string (string * option Entry) :=
  resolve_from p linkBudget (Split p "/") "" (Some root).

Definition resolve (p : string) : W (string * option Entry) :=
  let '(links, r) := resolve_path p in
  modS (set_covered (λ c, list_to_set links ∪ c)) ≫= λ _, mret r.

(** ** The walk *)

Context (allow : gset string).

Definition chaseLink (cover : string → bool → W unit) (linkPath target : string) : W unit :=
  if HasPrefix target "/" then
    if bool_decide (linkPath ∈ allow) then wok
    else wfail ("cover: symlink " +:+ linkPath +:+ " targets absolute path " +:+ target)
  else
    let t := link_dest linkPath target in
    if escapes t then
      if bool_decide (linkPath ∈ allow) then wok
      else wfail ("cover: symlink " +:+ linkPath +:+ " target " +:+ target +:+ " escapes the context root")
    else cover t false.

Fixpoint scanDir (cover : string → bool → W unit) (fuel : nat) (dirPath : string) (dirKey : option Key) : W unit :=
  match fuel with
  | O => out_of_fuel
  | S fuel =>
      match Ls dirKey "" with
      | Err e => wfail ("cover: listing " +:+ dirPath +:+ ": " +:+ e)
      | Ok ents =>
          wfor (λ e,
            let p := path_Join dirPath (en_Name e) in
            if is_lnk e then chaseLink cover p (en_LinkTarget e)
            else if en_is_dir e then scanDir cover fuel p (en_Key e)
            else wok) ents
      end
  end.

Fixpoint cover (fuel : nat) (p : string) (declared : bool) : W unit :=
  match fuel with
  | O => out_of_fuel
  | S fuel =>
      w ← getS;
      if bool_decide (p ∈ w_visited w) then wok
      else
        modS (set_visited (λ v, {[p]} ∪ v)) ≫= λ _,
        wthen (resolve p) (λ re : string * option Entry,
          let '(resolved, e) := re in
          match e with
          | None =>
              if declared then wfail ("cover: declared source " +:+ p +:+ " not found in the context")
              else modS (add_warning (mkWarning p "chased symlink target does not exist in the context; link kept dangling")) ≫= λ _, wok
          | Some e =>
              modS (set_covered (λ c, {[p]} ∪ c)) ≫= λ _,
              wthen (if String.eqb resolved p then wok else cover fuel resolved false) (λ _,
                if is_lnk e then chaseLink (cover fuel) resolved (en_LinkTarget e)
                else if en_is_dir e then scanDir (cover fuel) fuel resolved (en_Key e)
                else wok)
          end)
  end.
End Resolve.

(** The covered paths of a walker, sorted. *)
Definition walk_out (w : walker) : WalkResult := mkWR (SortStrings (elements (w_covered w))) (w_warnings w).

Definition walk_seeds (dir : string) (declared : list string) : list string :=
  (if String.eqb dir "" then [] else [dir]) ++ declared.

Definition Walk (fuel : nat) (root : Key) (dir : string) (declared allowEscaping : list string) : option (result string WalkResult) :=
  let seeds := walk_seeds dir declared in
  if bool_decide (seeds = []) then Some (Err "cover: empty seed set (no dir, no sources)")
  else match wfor (λ s, cover root (list_to_set allowEscaping) fuel s true) seeds new_walker with
       | None => None
       | Some (Err e, _) => Some (Err e)
       | Some (Ok _, w) => Some (Ok (walk_out w))
       end.

(** Whether a covered path is at, under or above the build directory. *)
Definition covers_dir (dir p : string) : bool :=
  String.eqb p dir || HasPrefix p (dir +:+ "/") || HasPrefix dir (p +:+ "/").

Definition WalkClosure (fuel : nat) (root : Key) (dir : string) (declared allowEscaping : list string) : option (result string WalkResult) :=
  if bool_decide (declared = []) then Some (Err "cover: empty closure")
  else match wfor (λ s, cover root (list_to_set allowEscaping) fuel s true) declared new_walker with
       | None => None
       | Some (Err e, _) => Some (Err e)
       | Some (Ok _, w) =>
           if negb (String.eqb dir "") && negb (existsb (covers_dir dir) (elements (w_covered w))) then
             Some (Err ("cover: closure does not cover the build dir " +:+ dir))
           else Some (Ok (walk_out w))
       end.
End Cover.
