(* ===== verification/Paths.v ===== *)
(** * Root-relative slash paths

    What [path.Clean], [path.Join], [strings.Split] and [strings.Join] do on
    the paths the tree code handles: lists of plain element names. *)
From S2P Require Import Prelude GoLib Trees Cover.
From Stdlib Require Import Ascii.
Local Open Scope string_scope.
Local Open Scope list_scope.

Local Arguments ascii_dec : simpl never.

Lemma rooted_cons a s : is_rooted (String a s) = bool_decide (a = slash).
Proof. unfold is_rooted, HasPrefix. simpl. destruct (ascii_dec "/" a) as [<-|]; case_bool_decide; unfold slash in *; congruence || by destruct s. Qed.

(** An entry name: one path element. *)
Definition name_ok (s : string) : Prop := plain_seg s ∧ ContainsByte s slash = false.

Global Instance plain_seg_dec s : Decision (plain_seg s).
Proof. unfold plain_seg. apply _. Defined.
Global Instance name_ok_dec s : Decision (name_ok s).
Proof. unfold name_ok. apply _. Defined.

(** A clean path below the root, by its elements. *)
Definition joined (segs : list string) : string := Join segs "/".
Definition segs_ok (segs : list string) : Prop := segs ≠ [] ∧ Forall name_ok segs.
Definition clean_rel (p : string) : Prop := ∃ segs, segs_ok segs ∧ p = joined segs.

Lemma joined_cons s segs : segs ≠ [] → joined (s :: segs) = s +:+ "/" +:+ joined segs.
Proof. by destruct segs. Qed.

Lemma Split_plain s c : ContainsByte s c = false → Split s c = [s].
Proof.
  induction s as [|a s IH]; simpl; [done|]. destruct (ascii_dec a c); simpl; [done|]. intros H. by rewrite IH.
Qed.

Lemma Split_app s c r : ContainsByte s c = false → Split (s +:+ String c r) c = s :: Split r c.
Proof.
  induction s as [|a s IH]; simpl; [by destruct (ascii_dec c c)|].
  destruct (ascii_dec a c); simpl; [done|]. intros H. by rewrite IH.
Qed.

Lemma Split_elem s c : Forall (λ x, ContainsByte x c = false) (Split s c).
Proof.
  induction s as [|a s IH]; simpl; [by repeat constructor|]. destruct (ascii_dec a c) as [|Hne]; [by constructor|].
  destruct (Split s c) as [|x xs]; [by repeat constructor; simpl; destruct (ascii_dec a c)|].
  inversion IH; subst. constructor; [|done]. simpl. by destruct (ascii_dec a c).
Qed.

Lemma Split_joined segs : segs ≠ [] → Forall (λ s, ContainsByte s slash = false) segs → Split (joined segs) slash = segs.
Proof.
  induction segs as [|s segs IH]; intros Hne Hall; [done|]. inversion Hall; subst.
  destruct segs as [|s' segs]; [by apply Split_plain|]. rewrite joined_cons by done.
  etransitivity; [apply (Split_app s slash (joined (s' :: segs))); done|]. by rewrite IH.
Qed.

Lemma segs_ok_noslash segs : Forall name_ok segs → Forall (λ s, ContainsByte s slash = false) segs.
Proof. intros H. eapply Forall_impl; [done|]. by intros ? []. Qed.

Lemma segs_ok_plain segs : Forall name_ok segs → Forall plain_seg segs.
Proof. intros H. eapply Forall_impl; [done|]. by intros ? []. Qed.

Lemma Split_ok segs : segs_ok segs → Split (joined segs) "/" = segs.
Proof. intros []. by apply Split_joined, segs_ok_noslash. Qed.

Lemma joined_inj a b : segs_ok a → segs_ok b → joined a = joined b → a = b.
Proof. intros Ha Hb H. by rewrite <- (Split_ok a), <- (Split_ok b), H. Qed.

Lemma joined_not_rooted s segs : s ≠ "" → ContainsByte s slash = false → is_rooted (joined (s :: segs)) = false.
Proof.
  destruct s as [|a s]; [done|]. intros _ H. simpl in H. destruct (ascii_dec a slash) as [|Hne]; [done|].
  destruct segs; (etransitivity; [apply rooted_cons | by apply bool_decide_eq_false_2]).
Qed.

(** ** Cleaning *)

(** Cleaning a relative path leaves leading [..]s, then plain elements. *)
Lemma clean_segs_rel segs : ∀ out,
  (∃ n pl, rev out = replicate n ".." ++ pl ∧ Forall plain_seg pl) →
  ∃ n pl, clean_segs false out segs = replicate n ".." ++ pl ∧ Forall plain_seg pl.
Proof.
  induction segs as [|s segs IH]; intros out Hout; simpl; [done|].
  destruct (String.eqb_spec s ""), (String.eqb_spec s "."); simpl; auto.
  destruct Hout as (m & pl & Hout & Hpl). apply (f_equal (@rev _)) in Hout. rewrite rev_involutive in Hout.
  destruct (String.eqb_spec s "..") as [->|Hs].
  - destruct (decide (pl = [])) as [->|Hne].
    + rewrite app_nil_r, <- (reverse_replicate m ".."), rev_alt in Hout. change (rev_append ?l []) with (reverse l) in Hout.
      rewrite reverse_involutive in Hout. subst out. destruct m as [|m]; simpl.
      * apply IH. exists 1, []. done.
      * apply IH. exists (S (S m)), []. split; [|done]. rewrite app_nil_r.
        change (".." :: ".." :: replicate m "..") with (replicate (S (S m)) ".."). rewrite rev_alt. apply reverse_replicate.
    + destruct pl as [|x pl _] using rev_ind; [done|]. rewrite app_assoc, rev_app_distr in Hout. simpl in Hout. subst out.
      apply Forall_app in Hpl as [Hpl [Hx _]%Forall_cons]. destruct (String.eqb_spec x "..") as [->|_]; [by destruct Hx as (?&?&?)|].
      apply IH. exists m, pl. by rewrite rev_involutive.
  - apply IH. exists m, (pl ++ [s]). subst out. simpl. rewrite rev_involutive, <- app_assoc. split; [done|].
    apply Forall_app; split; [done|]. by repeat constructor.
Qed.

Lemma clean_segs_sub r segs : ∀ out s, s ∈ clean_segs r out segs → s ∈ out ∨ s ∈ segs ∨ s = "..".
Proof.
  induction segs as [|x segs IH]; intros out s; simpl; [rewrite !list_elem_of_In, <- in_rev; auto|].
  intros H. repeat case_match; apply IH in H; set_solver.
Qed.

(** A relative path cleaned that does not escape is the root or below it. *)
Lemma Clean_rel p : is_rooted p = false → escapes (path_Clean p) = false → path_Clean p = "." ∨ clean_rel (path_Clean p).
Proof.
  intros Hr. unfold path_Clean. rewrite Hr. destruct (clean_segs_rel (Split p slash) []) as (n & pl & E & Hpl); [exists 0, []; done|].
  pose proof (clean_segs_sub false (Split p slash) []) as Hsub. rewrite E in *. destruct n as [|n].
  - intros _. simpl in *. destruct pl as [|x pl]; [by left|]. right. exists (x :: pl). split; [|done]. split; [done|].
    apply Forall_forall. intros y Hy. rewrite Forall_forall in Hpl. split; [by apply Hpl|].
    destruct (Hsub _ Hy) as [H|[H| ->]]; [by apply elem_of_nil in H| |done].
    pose proof (Split_elem p slash) as Hs. rewrite Forall_forall in Hs. by apply Hs.
  - cbn [replicate app]. destruct (replicate n ".." ++ pl) as [|y l]; intros H; [done|].
    assert (HasPrefix (Join (".." :: y :: l) "/") "../" = true) as Hp by apply (HasPrefix_app "../").
    unfold escapes in H. rewrite Hp, orb_true_r in H. done.
Qed.

Lemma Clean_not_rooted p : is_rooted p = false → is_rooted (path_Clean p) = false.
Proof.
  intros Hr. unfold path_Clean. rewrite Hr. destruct (clean_segs_rel (Split p slash) []) as (n & pl & E & Hpl); [exists 0, []; done|].
  pose proof (clean_segs_sub false (Split p slash) []) as Hsub. destruct (clean_segs false [] (Split p slash)) as [|x l]; [done|].
  apply joined_not_rooted.
  - intros ->. destruct n; simpl in E; [|done]. subst. by apply Forall_cons in Hpl as [(?&?&?) _].
  - destruct (Hsub x ltac:(left)) as [H|[H| ->]]; [by apply elem_of_nil in H| |done].
    pose proof (Split_elem p slash) as Hs. rewrite Forall_forall in Hs. by apply Hs.
Qed.

Lemma Join_not_rooted a b : is_rooted a = false → is_rooted b = false → is_rooted (path_Join a b) = false.
Proof.
  intros Ha Hb. destruct a as [|x a], b as [|y b]; simpl; try done; try by apply Clean_not_rooted.
  apply (Clean_not_rooted (String x a +:+ "/" +:+ String y b)). etransitivity; [apply rooted_cons|]. by rewrite rooted_cons in Ha.
Qed.

Lemma rooted_first p : is_rooted p = false → p = "" ∨ ∃ x r, Split p slash = x :: r ∧ x ≠ "".
Proof.
  destruct p as [|a p]; [by left|]. intros H. right. rewrite rooted_cons in H. apply bool_decide_eq_false_1 in H. simpl.
  destruct (ascii_dec a slash) as [->|Hne]; [done|]. destruct (Split p slash) as [|x r]; eauto.
Qed.

Lemma Dir_not_rooted p : is_rooted p = false → is_rooted (path_Dir p) = false.
Proof.
  intros H. unfold path_Dir. destruct (rooted_first p H) as [->|(x & r & Ex & Hx)]; [done|]. rewrite Ex.
  assert (Hs : Forall (λ x, ContainsByte x slash = false) (x :: r)) by (rewrite <- Ex; apply Split_elem).
  destruct (rev (x :: r)) as [|y [|z l]] eqn:E; [done|done|]. apply Clean_not_rooted.
  apply (f_equal (@rev _)) in E. rewrite rev_involutive in E. cbn [rev] in E.
  destruct (rev l ++ [z]) as [|x' l'] eqn:El; [by destruct (rev l)|]. injection E as E1 _. subst x'.
  change (rev (z :: l)) with (rev l ++ [z]). rewrite El.
  destruct x as [|c x]; [done|]. assert (Hc : c ≠ slash).
  { intros ->. destruct p as [|b p]; [done|]. rewrite rooted_cons in H. apply bool_decide_eq_false_1 in H.
    apply Forall_cons in Hs as [Hs _]. simpl in Hs. by destruct (ascii_dec slash slash). }
  destruct l'; (etransitivity; [apply rooted_cons | by apply bool_decide_eq_false_2]).
Qed.

(** Where a relative link leads, unless it escapes. *)
Lemma link_dest_rel l t : is_rooted l = false → HasPrefix t "/" = false → escapes (link_dest l t) = false →
  link_dest l t = "." ∨ clean_rel (link_dest l t).
Proof. intros Hl Ht. apply Clean_rel, Join_not_rooted; [by apply Dir_not_rooted|done]. Qed.

(** ** Joining *)

Lemma Clean_joined segs : segs_ok segs → path_Clean (joined segs) = joined segs.
Proof.
  intros Hok. destruct Hok as [Hne Hall]. unfold path_Clean. change slash with "/"%char. rewrite Split_ok by done.
  rewrite clean_segs_plain_id by (by apply segs_ok_plain). simpl. destruct segs as [|s segs]; [done|].
  rewrite joined_not_rooted; [done|..]; apply Forall_cons in Hall as [[(?&?&?) ?] _]; done.
Qed.

Lemma joined_nonempty segs : segs_ok segs → joined segs ≠ "".
Proof.
  intros [Hne Hall]. destruct segs as [|s segs]; [done|]. apply Forall_cons in Hall as [[(Hs&_&_) _] _].
  destruct s; [done|]. by destruct segs.
Qed.

Lemma joined_snoc cs s : cs ≠ [] → joined (cs ++ [s]) = joined cs +:+ "/" +:+ s.
Proof.
  induction cs as [|c cs IH]; [done|]. intros _. destruct cs as [|c' cs]; [done|].
  change ((c :: c' :: cs) ++ [s]) with (c :: ((c' :: cs) ++ [s])). rewrite !joined_cons by done. rewrite IH by done.
  by rewrite !append_assoc.
Qed.

(** The path of an entry of a directory. *)
Lemma Join_snoc cs s : Forall name_ok cs → name_ok s → path_Join (joined cs) s = joined (cs ++ [s]).
Proof.
  intros Hc Hs. assert (Hok : segs_ok (cs ++ [s])).
  { split; [by destruct cs|]. apply Forall_app; split; [done|by apply Forall_singleton]. }
  destruct cs as [|c cs].
  - simpl. destruct s as [|a s]; [by destruct Hs as [(?&?&?) _]|]. apply (Clean_joined [String a s]). done.
  - pose proof (joined_nonempty (c :: cs)) as Hne. unfold path_Join. destruct (joined (c :: cs)) as [|a j] eqn:E.
    { by destruct Hne. }
    destruct s as [|b s]; [by destruct Hs as [(?&?&?) _]|].
    rewrite <- E, <- joined_snoc by done. by apply Clean_joined.
Qed.

(** ** The trie's normalisation *)

Lemma str_rev_cons a s : str_rev (String a s) = str_rev s +:+ String a "".
Proof. apply (str_rev_app (String a "") s). Qed.

Lemma trim_left_id s : is_rooted s = false → trim_slash_left s = s.
Proof.
  destruct s as [|a s]; [done|]. rewrite rooted_cons. intros Hne%bool_decide_eq_false_1.
  destruct a as [[] [] [] [] [] [] [] []]; done.
Qed.

Lemma rev_not_rooted segs : segs_ok segs → is_rooted (str_rev (joined segs)) = false.
Proof.
  intros [Hne Hall]. destruct segs as [|s segs _] using rev_ind; [done|]. apply Forall_app in Hall as [_ [[(Hs&_&_) Hn] _]%Forall_cons].
  assert (Hlast : ∃ p, joined (segs ++ [s]) = p +:+ s).
  { destruct (decide (segs = [])) as [->|]; [by exists ""|]. rewrite joined_snoc by done. exists (joined segs +:+ "/"). by rewrite append_assoc. }
  destruct Hlast as [p ->]. rewrite str_rev_app. clear -Hs Hn. rewrite <- (str_rev_rev s) in Hs, Hn.
  destruct (str_rev s) as [|a r]; [done|]. etransitivity; [apply rooted_cons|]. case_bool_decide as Ha; [subst a|done].
  rewrite str_rev_cons, ContainsByte_append in Hn. simpl in Hn. by rewrite orb_true_r in Hn.
Qed.

Lemma tree_path_joined segs : segs_ok segs → tree_path (joined segs) = joined segs.
Proof.
  intros Hok. unfold tree_path, path_Clean. assert (Hr : is_rooted ("/" +:+ joined segs) = true) by apply (rooted_cons "/"). rewrite Hr.
  change (Split ("/" +:+ joined segs) slash) with ("" :: Split (joined segs) "/"). rewrite Split_ok by done.
  cbn [clean_segs]. simpl (String.eqb "" "" || _). cbn iota. destruct Hok as [Hne Hall].
  rewrite clean_segs_plain_id by (by apply segs_ok_plain). simpl (rev [] ++ segs). fold (joined segs). unfold trim_slashes.
  assert (E : trim_slash_left ("/" +:+ joined segs) = joined segs).
  { change (trim_slash_left ("/" +:+ joined segs)) with (trim_slash_left (joined segs)). apply trim_left_id.
    destruct segs as [|s segs]; [done|]. apply Forall_cons in Hall as [[(?&?&?) ?] _]. by apply joined_not_rooted. }
  rewrite E, trim_left_id by (by apply rev_not_rooted). apply str_rev_rev.
Qed.
