(* ===== verification/CoverFacts.v ===== *)
(** * What the closure walk establishes

    A resolved path leads to a real entry of the context and meets real links
    only; a walk that succeeds leaves a closed set of paths; and it returns. *)
From S2P Require Import Prelude GoLib Keys Trees TreeFacts Cover Paths.
From Stdlib Require Import Ascii.
Local Open Scope string_scope.
Local Open Scope list_scope.

Section CoverFacts.
Context `{LL : LsLib}.

(** ** Well-formed trees *)

Definition name_lt (a b : FEntry) : Prop := str_ltb (fe_Name a) (fe_Name b) = true.

(** A stored tree of depth at most [d]: its directories can be read, list
    proper names in order, and refer to contents by proper keys. *)
Fixpoint wf_tree (d : nat) (k : Key) : Prop :=
  match d with
  | O => False
  | S d => ∃ es, CollectEntries k = Ok es ∧ StronglySorted name_lt es ∧
      Forall (λ e, name_ok (fe_Name e) ∧
        (is_dir e = false → fe_ContentKey e = "" ∨ is_Some (key_parse (fe_ContentKey e))) ∧
        (is_dir e = true → ∃ ck, key_parse (fe_ContentKey e) = Some ck ∧ wf_tree d ck)) es
  end.

Definition fe_lnk (e : FEntry) : bool := (Z.land (fe_Mode e) S_IFMT =? S_IFLNK)%Z.

(** How an entry is listed. *)
Definition entry_of (fe : FEntry) : Entry :=
  mkEntry (fe_Name fe) (fe_Mode fe) (from_option key_Length 0%Z (key_parse (fe_ContentKey fe))) (key_parse (fe_ContentKey fe)) (fe_LinkTarget fe).

Lemma key_parse_empty : key_parse "" = None.
Proof. destruct (key_parse "") as [k|] eqn:E; [|done]. by apply key_parse_inv, key_bytes_nonempty in E. Qed.

(** The directory at a path. *)
Fixpoint dir_at (k : Key) (segs : list string) : option Key :=
  match segs with
  | [] => Some k
  | s :: r => match look k [s] with
              | Some e => if is_dir e then match key_parse (fe_ContentKey e) with Some ck => dir_at ck r | None => None end else None
              | None => None
              end
  end.

Lemma look_cons k s r : r ≠ [] → look k (s :: r) = match dir_at k [s] with Some ck => look ck r | None => None end.
Proof.
  intros Hr. simpl. destruct (CollectEntries k) as [es|]; [|done]. destruct (find _ es) as [e|]; [|done].
  destruct r; [done|]. destruct (is_dir e); [|done]. by destruct (key_parse _).
Qed.

Lemma dir_at_cons k s r : dir_at k (s :: r) = match dir_at k [s] with Some ck => dir_at ck r | None => None end.
Proof. cbn [dir_at]. destruct (look k [s]) as [e|]; [|done]. destruct (is_dir e); [|done]. by destruct (key_parse _). Qed.

Lemma look_app k cs r : r ≠ [] → look k (cs ++ r) = match dir_at k cs with Some ck => look ck r | None => None end.
Proof.
  intros Hr. revert k. induction cs as [|c cs IH]; intros k; [done|]. simpl (_ ++ _). rewrite look_cons by (by destruct cs).
  rewrite (dir_at_cons k c cs). destruct (dir_at k [c]); [|done]. apply IH.
Qed.

Lemma dir_at_app k cs r : dir_at k (cs ++ r) = match dir_at k cs with Some ck => dir_at ck r | None => None end.
Proof.
  revert k. induction cs as [|c cs IH]; intros k; [done|]. simpl (_ ++ _). rewrite dir_at_cons, (dir_at_cons k c cs).
  destruct (dir_at k [c]); [|done]. apply IH.
Qed.

Lemma dir_at_look k cs : cs ≠ [] →
  dir_at k cs = match look k cs with Some e => if is_dir e then key_parse (fe_ContentKey e) else None | None => None end.
Proof.
  destruct cs as [|s cs _] using rev_ind; [done|]. intros _. rewrite dir_at_app, look_app by done. destruct (dir_at k cs) as [ck|]; [|done].
  cbn [dir_at]. destruct (look ck [s]) as [e|]; [|done]. destruct (is_dir e); [|done]. by destruct (key_parse _).
Qed.

(** Everything on the way to an entry is a directory. *)
Lemma look_prefix k q r e : q ≠ [] → r ≠ [] → look k (q ++ r) = Some e → ∃ e', look k q = Some e' ∧ is_dir e' = true.
Proof.
  intros Hq Hr. rewrite look_app, dir_at_look by done. destruct (look k q) as [e'|]; [|done].
  destruct (is_dir e') eqn:E; [eauto|done].
Qed.

Lemma dir_at_wf d k cs ck : wf_tree d k → dir_at k cs = Some ck → ∃ d', wf_tree d' ck ∧ (d' + length cs ≤ d)%nat.
Proof.
  revert d k. induction cs as [|c cs IH]; intros d k Hwf; simpl; [intros [= <-]; exists d; split; [done|lia]|].
  destruct d as [|d]; [done|]. destruct Hwf as (es & E & _ & Hall). rewrite E. destruct (find _ es) as [e|] eqn:Ef; [|done].
  apply find_some in Ef as [Hin _]. rewrite Forall_forall in Hall. apply list_elem_of_In in Hin.
  destruct (Hall _ Hin) as (_ & _ & Hd). destruct (is_dir e); [|done]. destruct (Hd eq_refl) as (ck' & -> & Hwf').
  intros H. destruct (IH _ _ Hwf' H) as (d' & ? & ?). exists d'. split; [done|lia].
Qed.

Lemma look_ok d k segs e : wf_tree d k → look k segs = Some e → segs_ok segs ∧ fe_Name e ∈ segs ∧ (length segs ≤ d)%nat.
Proof.
  revert d k. induction segs as [|s segs IH]; intros [|d] k Hwf; try done. destruct (id Hwf) as (es & E & _ & Hall).
  assert (Hs : is_Some (look k [s]) → name_ok s).
  { simpl. rewrite E. destruct (find _ es) as [x|] eqn:Ef; [|by intros []]. intros _. apply find_some in Ef as [Hin He].
    apply String.eqb_eq in He as <-. apply list_elem_of_In in Hin. rewrite Forall_forall in Hall. by apply Hall. }
  destruct (decide (segs = [])) as [->|Hne].
  - intros H. split; [split; [done|]; apply Forall_singleton, Hs; eauto|]. split; [|simpl; lia].
    simpl in H. rewrite E in H. destruct (find _ es) as [x|] eqn:Ef; [|done]. injection H as <-.
    apply find_some in Ef as [_ He%String.eqb_eq]. rewrite He. left.
  - rewrite look_cons by done. destruct (dir_at k [s]) as [ck|] eqn:Ed; [|done]. intros H.
    destruct (dir_at_wf _ _ _ _ Hwf Ed) as (d' & Hwf' & Hd'). destruct (IH _ _ Hwf' H) as ([_ H1] & H2 & H3). split; [|split].
    + split; [done|]. constructor; [|done]. apply Hs. rewrite dir_at_look in Ed by done. destruct (look k [s]); [eauto|done].
    + by right.
    + simpl in *. lia.
Qed.

Lemma dir_key_parses d k segs e : wf_tree d k → look k segs = Some e → is_dir e = true → ∃ ck, key_parse (fe_ContentKey e) = Some ck.
Proof.
  intros Hwf El Ed. destruct segs as [|s segs _] using rev_ind; [by destruct (CollectEntries k)|]. rewrite look_app in El by done.
  destruct (dir_at k segs) as [k'|] eqn:Ek; [|done]. destruct (dir_at_wf _ _ _ _ Hwf Ek) as ([|d'] & Hwf' & _); [done|].
  destruct Hwf' as (es & E & _ & Hall). simpl in El. rewrite E in El. destruct (find _ es) as [x|] eqn:Ef; [|done]. injection El as ->.
  apply find_some in Ef as [Hin%list_elem_of_In _]. rewrite Forall_forall in Hall. destruct (Hall _ Hin) as (_ & _ & Hd).
  destruct (Hd Ed) as (ck & ? & _). eauto.
Qed.

(** ** Listing *)

Lemma to_entry_ok fe : fe_ContentKey fe = "" ∨ is_Some (key_parse (fe_ContentKey fe)) → to_entry fe = Ok (entry_of fe).
Proof.
  unfold to_entry, entry_of. intros [->|[ck E]]; [by rewrite key_parse_empty|]. rewrite E.
  destruct (String.eqb_spec (fe_ContentKey fe) "") as [H|]; [|done]. by rewrite H, key_parse_empty in E.
Qed.

Lemma wf_entries d k : wf_tree d k → ∃ es, CollectEntries k = Ok es ∧ to_entries es = Ok (entry_of <$> es).
Proof.
  destruct d as [|d]; [done|]. intros (es & E & _ & Hall). exists es. split; [done|]. clear E.
  induction Hall as [|e es (_ & Hn & Hd) Hall IH]; [done|]. simpl. rewrite to_entry_ok.
  - simpl. by rewrite IH.
  - destruct (is_dir e); [|auto]. destruct (Hd eq_refl) as (ck & -> & _). eauto.
Qed.

Lemma find_entry_of s es : find (λ e, String.eqb (en_Name e) s) (entry_of <$> es) = entry_of <$> find (λ e, String.eqb (fe_Name e) s) es.
Proof. induction es as [|e es IH]; [done|]. simpl. by destruct (String.eqb _ _). Qed.

Context (Hres : ∀ k, ResolvePath (Some k) "" = Ok k).

Lemma Ls_wf d k : wf_tree d k → ∃ es, CollectEntries k = Ok es ∧ Ls (Some k) "" = Ok (entry_of <$> es).
Proof using Hres. intros Hwf. destruct (wf_entries _ _ Hwf) as (es & E & Et). exists es. unfold Ls. rewrite Hres. simpl. by rewrite E. Qed.

Lemma Ls_look d k s : wf_tree d k → ∃ ents, Ls (Some k) "" = Ok ents ∧ find (λ e, String.eqb (en_Name e) s) ents = entry_of <$> look k [s].
Proof using Hres.
  intros Hwf. destruct (Ls_wf _ _ Hwf) as (es & E & El). exists (entry_of <$> es). split; [done|]. rewrite find_entry_of. simpl. rewrite E.
  by destruct (find _ es).
Qed.

(** ** One step of a resolution, by what the tree holds *)

Section Resolve.
Context (d : nat) (root : Key) (Hwf : wf_tree d root).

Lemma resolve_skip p b seg rest cur ck : seg = "" ∨ seg = "." →
  resolve_from root p b (seg :: rest) cur ck = resolve_from root p b rest cur ck.
Proof. intros [-> | ->]; by destruct b. Qed.

(** Where a link in the directory [cs] leads when it is on the way. *)
Definition via (cs : list string) (fe : FEntry) : string := path_Clean (path_Join (joined cs) (fe_LinkTarget fe)).

Lemma resolve_step p b seg rest cs ck : dir_at root cs = Some ck → Forall name_ok cs → name_ok seg →
  ∃ m1 m2 m3 m4, resolve_from root p b (seg :: rest) (joined cs) (Some ck) =
  match look root (cs ++ [seg]) with
  | None => ([], Ok (p, None))
  | Some fe =>
      let full := joined (cs ++ [seg]) in
      if fe_lnk fe then
        match b with
        | O => ([], Err m1)
        | S b => if bool_decide (rest = []) then ([full], Ok (full, Some (entry_of fe)))
                 else if HasPrefix (fe_LinkTarget fe) "/" then ([full], Err m2)
                 else if escapes (via cs fe) then ([full], Err m3)
                 else let '(links, r) := resolve_from root p b (Split (via cs fe) "/" ++ rest) "" (Some root) in (full :: links, r)
        end
      else if bool_decide (rest = []) then ([], Ok (full, Some (entry_of fe)))
      else if negb (is_dir fe) then ([], Err m4)
      else resolve_from root p b rest full (key_parse (fe_ContentKey fe))
  end.
Proof using Hres Hwf.
  intros Hck Hcs (Hp & Hs). destruct (dir_at_wf _ _ _ _ Hwf Hck) as (d' & Hwf' & _). destruct (Ls_look _ _ seg Hwf') as (ents & El & Ef).
  rewrite look_app by done. rewrite Hck. eexists _, _, _, _.
  assert (E : (String.eqb seg "" || String.eqb seg ".") = false).
  { destruct Hp as (?&?&?). destruct (String.eqb_spec seg ""), (String.eqb_spec seg "."); done. }
  destruct b; simpl; rewrite E, El, Ef, Join_snoc by done; simpl; destruct (CollectEntries ck) as [es|]; try done;
    destruct (find _ es) as [fe|]; done.
Qed.

(** A segment still to walk: a name, or the [.] of a link to the root. *)
Definition seg_ok (s : string) : Prop := s = "." ∨ name_ok s.

Lemma via_segs cs fe : Forall name_ok cs → HasPrefix (fe_LinkTarget fe) "/" = false → escapes (via cs fe) = false →
  Forall seg_ok (Split (via cs fe) "/").
Proof using Type.
  intros Hcs Ht He. destruct (Clean_rel (path_Join (joined cs) (fe_LinkTarget fe))) as [E|(segs & Hok & E)]; [|done|..].
  - apply Join_not_rooted; [|done]. destruct cs as [|c cs]; [done|]. apply Forall_cons in Hcs as [[(?&?&?) ?] _]. by apply joined_not_rooted.
  - unfold via. rewrite E. repeat constructor.
  - unfold via. rewrite E, Split_ok by done. destruct Hok as [_ Hok]. eapply Forall_impl; [done|]. by right.
Qed.

(** A rule for reasoning about a resolution: by the steps it takes. *)
Lemma resolve_ind p (P : nat → list string → list string → list string → result string (string * option Entry) → Prop) :
  (∀ b cs m, P b [] cs [] (Err m)) →
  (∀ b rest cs L r, P b rest cs L r → P b ("." :: rest) cs L r) →
  (∀ b seg rest cs m, P b (seg :: rest) cs [] (Err m)) →
  (∀ b seg rest cs, look root (cs ++ [seg]) = None → P b (seg :: rest) cs [] (Ok (p, None))) →
  (∀ b seg rest cs fe L m, look root (cs ++ [seg]) = Some fe → fe_lnk fe = true → L = [joined (cs ++ [seg])] → P b (seg :: rest) cs L (Err m)) →
  (∀ b seg cs fe, look root (cs ++ [seg]) = Some fe →
     P (if fe_lnk fe then S b else b) [seg] cs (if fe_lnk fe then [joined (cs ++ [seg])] else []) (Ok (joined (cs ++ [seg]), Some (entry_of fe)))) →
  (∀ b seg rest cs fe L r, look root (cs ++ [seg]) = Some fe → fe_lnk fe = true → rest ≠ [] → HasPrefix (fe_LinkTarget fe) "/" = false →
     escapes (via cs fe) = false → P b (Split (via cs fe) "/" ++ rest) [] L r → P (S b) (seg :: rest) cs (joined (cs ++ [seg]) :: L) r) →
  (∀ b seg rest cs fe L r, look root (cs ++ [seg]) = Some fe → fe_lnk fe = false → rest ≠ [] → is_dir fe = true →
     P b rest (cs ++ [seg]) L r → P b (seg :: rest) cs L r) →
  ∀ b segs cs ck, dir_at root cs = Some ck → Forall name_ok cs → Forall seg_ok segs →
  P b segs cs (fst (resolve_from root p b segs (joined cs) (Some ck))) (snd (resolve_from root p b segs (joined cs) (Some ck))).
Proof using Hres Hwf.
  intros Hnil Hdot Herr Hnone Hlerr Hlast Hlink Hdir b. induction b as [b IHb] using lt_wf_ind. induction segs as [|seg rest IH]; intros cs ck Hck Hcs Hsegs.
  { destruct b; simpl; apply Hnil. }
  apply Forall_cons in Hsegs as [[->|Hseg] Hrest]; [rewrite resolve_skip by (by right); apply Hdot; auto|].
  destruct (resolve_step p b seg rest cs ck Hck Hcs Hseg) as (m1 & m2 & m3 & m4 & ->).
  destruct (look root (cs ++ [seg])) as [fe|] eqn:El; [|by apply Hnone]. cbv zeta. pose proof (Hlast b seg cs fe El) as Hl.
  destruct (fe_lnk fe) eqn:Efl.
  - destruct b as [|b]; [apply Herr|]. pose proof (Hlast b seg cs fe El) as Hl'. rewrite Efl in Hl'.
    case_bool_decide as Hr; [subst; apply Hl'|]. destruct (HasPrefix _ _) eqn:Ehp; [by eapply Hlerr|].
    destruct (escapes _) eqn:Ee; [by eapply Hlerr|].
    assert (Hsegs : Forall seg_ok (Split (via cs fe) "/" ++ rest)) by (apply Forall_app; split; [by apply via_segs|done]).
    pose proof (IHb b (Nat.lt_succ_diag_r b) (Split (via cs fe) "/" ++ rest) [] root eq_refl (Forall_nil_2 _) Hsegs) as Hin.
    change (joined []) with "" in Hin. destruct (resolve_from root p b (Split (via cs fe) "/" ++ rest) "" (Some root)) as [links r]. cbn [fst snd] in *. eapply Hlink; eauto.
  - case_bool_decide as Hr; [subst; apply Hl|]. destruct (is_dir fe) eqn:Ed; simpl; [|apply Herr].
    assert (Hck' : dir_at root (cs ++ [seg]) = key_parse (fe_ContentKey fe)) by (rewrite dir_at_look by (by destruct cs); by rewrite El, Ed).
    destruct (look_ok _ _ _ _ Hwf El) as ([_ Hok] & _ & _).
    destruct (key_parse (fe_ContentKey fe)) as [ck'|] eqn:Ekp; [eapply Hdir; eauto|].
    exfalso. destruct (dir_key_parses _ _ _ _ Hwf El Ed). congruence.
Qed.

(** What is met on the way is a real link. *)
Definition real_link (l : string) : Prop := ∃ ls fe, l = joined ls ∧ look root ls = Some fe ∧ fe_lnk fe = true.

(** What is found is a real entry. *)
Definition real_entry (r : string) (e : Entry) : Prop := ∃ rs fe, r = joined rs ∧ look root rs = Some fe ∧ e = entry_of fe.

Lemma resolve_shape p b segs cs ck : dir_at root cs = Some ck → Forall name_ok cs → Forall seg_ok segs →
  Forall real_link (fst (resolve_from root p b segs (joined cs) (Some ck))) ∧
  match snd (resolve_from root p b segs (joined cs) (Some ck)) with Ok (r, Some e) => real_entry r e | _ => True end.
Proof using Hres Hwf.
  apply (resolve_ind p (λ _ _ _ L r, Forall real_link L ∧ match r with Ok (r, Some e) => real_entry r e | _ => True end)); try done.
  - intros _ seg rest c fe L m El Ef ->. split; [|done]. apply Forall_singleton. by exists (c ++ [seg]), fe.
  - intros _ seg c fe El. split; [|by exists (c ++ [seg]), fe]. destruct (fe_lnk fe) eqn:Ef; [|done]. apply Forall_singleton. by exists (c ++ [seg]), fe.
  - intros _ seg rest c fe L r El Ef _ _ _ [HL Hr]. split; [|done]. constructor; [by exists (c ++ [seg]), fe|done].
Qed.

(** The first thing a successful resolution reaches is below where it starts. *)
Lemma resolve_head p b segs cs ck : dir_at root cs = Some ck → Forall name_ok cs → Forall seg_ok segs →
  match snd (resolve_from root p b segs (joined cs) (Some ck)) with
  | Ok (r, Some _) => ∃ x, x ≠ [] ∧ head (fst (resolve_from root p b segs (joined cs) (Some ck)) ++ [r]) = Some (joined (cs ++ x))
  | _ => True
  end.
Proof using Hres Hwf.
  apply (resolve_ind p (λ _ _ cs L r, match r with Ok (r, Some _) => ∃ x, x ≠ [] ∧ head (L ++ [r]) = Some (joined (cs ++ x)) | _ => True end)); try done.
  - intros _ seg c fe El. exists [seg]. split; [done|]. by destruct (fe_lnk fe).
  - intros _ seg rest c fe L [[r [e|]]|] El _ _ _ _ _; try done. exists [seg]. done.
  - intros _ seg rest c fe L [[r [e|]]|] El _ _ _; try done. intros (x & Hx & E). exists (seg :: x). split; [done|].
    by rewrite <- app_assoc in E.
Qed.

(** A path that resolves either is real, or passes through a link that is met. *)
Lemma resolve_through p b segs cs ck : dir_at root cs = Some ck → Forall name_ok cs → Forall seg_ok segs →
  match snd (resolve_from root p b segs (joined cs) (Some ck)) with
  | Ok (r, Some _) => Forall name_ok segs → is_Some (look root (cs ++ segs)) ∨
      ∃ x y fe, segs = x ++ y ∧ x ≠ [] ∧ y ≠ [] ∧ look root (cs ++ x) = Some fe ∧
        joined (cs ++ x) ∈ fst (resolve_from root p b segs (joined cs) (Some ck))
  | _ => True
  end.
Proof using Hres Hwf.
  apply (resolve_ind p (λ _ segs cs L r, match r with
    | Ok (r, Some _) => Forall name_ok segs → is_Some (look root (cs ++ segs)) ∨
      ∃ x y fe, segs = x ++ y ∧ x ≠ [] ∧ y ≠ [] ∧ look root (cs ++ x) = Some fe ∧ joined (cs ++ x) ∈ L
    | _ => True end)); try done.
  - intros _ rest c L [[r [e|]]|] _; try done. intros [[(_ & ? & _) _] _]%Forall_cons. done.
  - intros _ seg c fe El _. left. rewrite El. eauto.
  - intros _ seg rest c fe L [[r [e|]]|] El _ Hr _ _ _; try done. intros _. right. exists [seg], rest, fe. split_and!; try done. left.
  - intros _ seg rest c fe L [[r [e|]]|] El _ Hr _ IH; try done. intros [_ Hrest]%Forall_cons.
    destruct (IH Hrest) as [H|(x & y & fe' & -> & Hx & Hy & Hl & Hin)]; [left|right].
    + by rewrite <- app_assoc in H.
    + exists (seg :: x), y, fe'. rewrite <- !app_assoc in Hl, Hin. done.
Qed.

(** A real path resolves to itself. *)
Lemma resolve_real p b segs cs ck fe : dir_at root cs = Some ck → Forall name_ok cs → look root (cs ++ segs) = Some fe → segs ≠ [] →
  resolve_from root p (S b) segs (joined cs) (Some ck) =
  (if fe_lnk fe then [joined (cs ++ segs)] else [], Ok (joined (cs ++ segs), Some (entry_of fe))).
Proof using Hres Hwf.
  revert cs ck. induction segs as [|seg rest IH]; intros cs ck Hck Hcs El Hne; [done|].
  destruct (look_ok _ _ _ _ Hwf El) as ([_ Hok] & _ & _). apply Forall_app in Hok as [_ Hok]. apply Forall_cons in Hok as [Hseg Hrest].
  destruct (resolve_step p (S b) seg rest cs ck Hck Hcs Hseg) as (m1 & m2 & m3 & m4 & ->). destruct (decide (rest = [])) as [->|Hr].
  - rewrite El. simpl. by destruct (fe_lnk fe).
  - replace (cs ++ seg :: rest) with ((cs ++ [seg]) ++ rest) in * by (by rewrite <- app_assoc).
    destruct (look_prefix root (cs ++ [seg]) rest fe ltac:(by destruct cs) Hr El) as (fe' & El' & Ed). rewrite El'. cbv zeta.
    rewrite (bool_decide_eq_false_2 _ Hr), Ed. simpl.
    assert (Ef : fe_lnk fe' = false). { unfold is_dir, fe_lnk, S_IFDIR, S_IFLNK in *. apply Z.eqb_eq in Ed. rewrite Ed. done. }
    rewrite Ef. assert (Hck' : dir_at root (cs ++ [seg]) = key_parse (fe_ContentKey fe')).
    { rewrite dir_at_look by (by destruct cs). by rewrite El', Ed. }
    pose proof El as El2. rewrite look_app, Hck' in El2 by done. destruct (key_parse (fe_ContentKey fe')) as [ck'|] eqn:E; [|done].
    apply IH; auto. apply Forall_app; split; [done|by apply Forall_singleton].
Qed.
End Resolve.

(** ** What the walker accumulates *)

Section Closed.
Context (d : nat) (root : Key) (Hwf : wf_tree d root) (allow : gset string).

(** A covered link may leave the root only if it is listed; otherwise its destination is visited. *)
Definition target_ok (V : gset string) (l t : string) : Prop :=
  if HasPrefix t "/" || escapes (link_dest l t) then l ∈ allow else link_dest l t ∈ V.

(** Every link at or below a path is treated so. *)
Definition links_below (V : gset string) (rs : list string) : Prop :=
  ∀ x fe, look root (rs ++ x) = Some fe → fe_lnk fe = true → target_ok V (joined (rs ++ x)) (fe_LinkTarget fe).
Definition links_under (V : gset string) (r : string) : Prop := ∀ rs, segs_ok rs → r = joined rs → links_below V rs.

(** A visited path is settled: it, the links it goes through and where it
    leads are covered, or it leads nowhere and there is a warning. *)
Definition settled (w : walker) (p : string) : Prop :=
  match resolve_path root p with
  | (L, Ok (r, Some e)) => (∀ l, l ∈ L → l ∈ w_covered w) ∧ p ∈ w_covered w ∧ r ∈ w_visited w ∧ links_under (w_visited w) r
  | (L, Ok (_, None)) => (∀ l, l ∈ L → l ∈ w_covered w) ∧ p ∈ wn_Path <$> w_warnings w
  | (_, Err _) => False
  end.

(** Only real links and resolved paths are covered. *)
Definition covered_ok (w : walker) : Prop :=
  ∀ q, q ∈ w_covered w → real_link root q ∨ (clean_rel q ∧ q ∈ w_visited w ∧ ∃ L r e, resolve_path root q = (L, Ok (r, Some e))).

Definition wle (w w' : walker) : Prop :=
  w_covered w ⊆ w_covered w' ∧ w_visited w ⊆ w_visited w' ∧ w_warnings w `prefix_of` w_warnings w'.

Global Instance wle_preorder : PreOrder wle.
Proof.
  split; [by intros w|]. intros a b c (?&?&?) (?&?&?). split_and!; [set_solver|set_solver|by etrans].
Qed.

Lemma target_ok_mono V V' l t : V ⊆ V' → target_ok V l t → target_ok V' l t.
Proof. unfold target_ok. destruct (_ || _); set_solver. Qed.

Lemma settled_mono w w' p : wle w w' → settled w p → settled w' p.
Proof.
  intros (Hc & Hv & [ws Hw]). unfold settled. destruct (resolve_path root p) as [L [[r [e|]]|m]]; [|rewrite Hw, fmap_app; set_solver|done].
  intros (H1 & H2 & H3 & H4). split_and!; [set_solver..|]. intros rs Hok Hr x fe Hl Hf. eapply target_ok_mono; [done|]. by eapply H4.
Qed.

(** What a successful method does: it only adds, all it visits is settled
    when it returns, and [Q] holds then. *)
Definition settles (m : W unit) (Q : walker → Prop) : Prop :=
  ∀ w w', m w = Some (Ok tt, w') → wle w w' ∧ (∀ q, q ∈ w_visited w' → q ∉ w_visited w → settled w' q) ∧
    (covered_ok w → covered_ok w') ∧ Q w'.

Definition upward (Q : walker → Prop) : Prop := ∀ w w', wle w w' → Q w → Q w'.

Lemma settles_ok (Q : walker → Prop) : (∀ w, Q w) → settles wok Q.
Proof. intros H w w' [= <-]. split; [done|]. split; [by intros|]. auto. Qed.

Lemma settles_fail e Q : settles (wfail e) Q.
Proof. by intros w w' [=]. Qed.

Lemma settles_weaken m (Q Q' : walker → Prop) : settles m Q → (∀ w, Q w → Q' w) → settles m Q'.
Proof. intros H HQ w w' E. destruct (H w w' E) as (?&?&?&?). auto. Qed.

Lemma settles_then m k Q1 Q2 : upward Q1 → settles m Q1 → settles k Q2 → settles (wthen m (λ _, k)) (λ w, Q1 w ∧ Q2 w).
Proof.
  intros Hup Hm Hk w w' E. unfold wthen in E. apply M_bind_inv in E as ([[]|] & w1 & E1 & E2); [|done].
  destruct (Hm _ _ E1) as (L1 & S1 & C1 & Q1'). destruct (Hk _ _ E2) as (L2 & S2 & C2 & Q2'). split_and!; [by etrans| |auto|by eapply Hup|done].
  intros q Hq Hn. destruct (decide (q ∈ w_visited w1)); [|auto]. eapply settled_mono; eauto.
Qed.

Lemma settles_for {A} (f : A → W unit) (Q : A → walker → Prop) l : (∀ x, upward (Q x)) → (∀ x, x ∈ l → settles (f x) (Q x)) →
  settles (wfor f l) (λ w, ∀ x, x ∈ l → Q x w).
Proof.
  intros Hup. induction l as [|x l IH]; intros H; simpl; [apply settles_ok; by intros w x ?%elem_of_nil|].
  eapply settles_weaken; [eapply (settles_then _ _ (Q x)); [done|apply H; left|apply IH; intros y Hy; apply H; by right]|].
  intros w [H1 H2] y [->|Hy]%elem_of_cons; auto.
Qed.

Lemma wfor_fmap {A B} (f : B → W unit) (g : A → B) l : wfor f (g <$> l) = wfor (λ x, f (g x)) l.
Proof. induction l as [|x l IH]; [done|]. rewrite fmap_cons. cbn [wfor]. by rewrite IH. Qed.

(** A path the methods are called with. *)
Definition walkable (p : string) : Prop := p = "." ∨ clean_rel p.

Lemma walkable_segs p : walkable p → Forall seg_ok (Split p "/").
Proof.
  intros [->|(segs & Hok & ->)]; [by apply Forall_singleton; left|]. rewrite Split_ok by done. destruct Hok as [_ Hok].
  eapply Forall_impl; [done|]. by right.
Qed.

Lemma resolve_path_shape p : walkable p →
  Forall (real_link root) (fst (resolve_path root p)) ∧
  match snd (resolve_path root p) with Ok (r, Some e) => real_entry root r e | _ => True end.
Proof using Hres Hwf.
  intros Hp. apply (resolve_shape d root Hwf p linkBudget (Split p "/") [] root); [done|constructor|by apply walkable_segs].
Qed.

Lemma real_clean r e : real_entry root r e → clean_rel r.
Proof using Hwf. intros (rs & fe & -> & El & _). exists rs. split; [|done]. by eapply look_ok. Qed.

Section Cover_step.
Context (cov : string → bool → W unit) (Hcov : ∀ p b, walkable p → settles (cov p b) (λ w, p ∈ w_visited w)).

Lemma chaseLink_settles ls fe : look root ls = Some fe → fe_lnk fe = true →
  settles (chaseLink allow cov (joined ls) (fe_LinkTarget fe)) (λ w, target_ok (w_visited w) (joined ls) (fe_LinkTarget fe)).
Proof using Hres Hwf Hcov.
  intros El Ef. unfold chaseLink, target_ok. destruct (HasPrefix _ _) eqn:Eh; simpl.
  { case_bool_decide; [by apply settles_ok|apply settles_fail]. }
  destruct (escapes _) eqn:Ee; [case_bool_decide; [by apply settles_ok|apply settles_fail]|]. apply Hcov.
  apply link_dest_rel; [|done|done]. destruct (look_ok _ _ _ _ Hwf El) as ([Hne Hok] & _ & _). destruct ls as [|s ls]; [done|].
  apply Forall_cons in Hok as [[(?&?&?) ?] _]. by apply joined_not_rooted.
Qed.

Lemma find_sorted es fe : StronglySorted name_lt es → fe ∈ es → find (λ e, String.eqb (fe_Name e) (fe_Name fe)) es = Some fe.
Proof.
  induction 1 as [|x es Hs IH Hall]; [by intros ?%elem_of_nil|]. intros [->|Hin]%elem_of_cons; simpl; [by rewrite String.eqb_refl|].
  destruct (String.eqb_spec (fe_Name x) (fe_Name fe)) as [E|]; [|auto]. rewrite Forall_forall in Hall. specialize (Hall _ Hin).
  unfold name_lt, str_ltb, String.ltb in Hall. rewrite E in Hall.
  pose proof (String.compare_antisym (fe_Name fe) (fe_Name fe)) as Hc. by destruct (String.compare (fe_Name fe) (fe_Name fe)).
Qed.

Lemma lnk_not_dir fe : fe_lnk fe = true → is_dir fe = false.
Proof. unfold fe_lnk, is_dir, S_IFDIR, S_IFLNK. intros ->%Z.eqb_eq. done. Qed.

Lemma scanDir_settles fuel : ∀ ds ck, dir_at root ds = Some ck → Forall name_ok ds →
  settles (scanDir allow cov fuel (joined ds) (Some ck))
    (λ w, ∀ x fe, x ≠ [] → look root (ds ++ x) = Some fe → fe_lnk fe = true → target_ok (w_visited w) (joined (ds ++ x)) (fe_LinkTarget fe)).
Proof using Hres Hwf Hcov.
  induction fuel as [|fuel IH]; intros ds ck Hck Hds; [by intros ?|]. cbn [scanDir].
  destruct (dir_at_wf _ _ _ _ Hwf Hck) as (d' & Hwf' & _). destruct (Ls_wf _ _ Hwf') as (es & Ec & ->).
  destruct d' as [|d']; [done|]. destruct Hwf' as (es' & Ec' & Hsort & Hall). rewrite Ec in Ec'. injection Ec' as <-.
  assert (Hlook : ∀ fe, fe ∈ es → look root (ds ++ [fe_Name fe]) = Some fe).
  { intros fe Hin. rewrite look_app, Hck by done. simpl. by rewrite Ec, find_sorted. }
  rewrite wfor_fmap. eapply settles_weaken; [apply (settles_for _ (λ fe w, links_below (w_visited w) (ds ++ [fe_Name fe])))|].
  - intros fe w w' (_ & Hv & _) H x fe' Hl Hf. eapply target_ok_mono; [done|]. by apply H.
  - intros fe Hin. pose proof (Hlook _ Hin) as El. rewrite Forall_forall in Hall. destruct (Hall _ Hin) as (Hn & _ & Hd). cbv zeta.
    change (en_Name (entry_of fe)) with (fe_Name fe). rewrite Join_snoc by done. change (is_lnk (entry_of fe)) with (fe_lnk fe). change (en_is_dir (entry_of fe)) with (is_dir fe).
    destruct (fe_lnk fe) eqn:Ef; [|destruct (is_dir fe) eqn:Ed].
    + eapply settles_weaken; [by apply chaseLink_settles|]. intros w Ht x fe' El'. destruct (decide (x = [])) as [->|Hx].
      { rewrite app_nil_r in *. intros _. simpl in Ht. congruence. }
      rewrite look_app, dir_at_look, El, lnk_not_dir in El' by (done || by destruct ds). done.
    + destruct (Hd eq_refl) as (ck' & Ek & _). simpl (en_Key _). rewrite Ek.
      eapply settles_weaken; [apply IH|].
      * rewrite dir_at_look by (by destruct ds). by rewrite El, Ed.
      * apply Forall_app; split; [done|by apply Forall_singleton].
      * intros w H x fe' El' Hf. destruct (decide (x = [])) as [->|Hx]; [|auto]. rewrite app_nil_r, El in El'. injection El' as <-. congruence.
    + apply settles_ok. intros w x fe' El' Hf. destruct (decide (x = [])) as [->|Hx]; [rewrite app_nil_r, El in El'; congruence|].
      rewrite look_app, dir_at_look, El, Ed in El' by (done || by destruct ds). done.
  - intros w H x fe Hx El Hf. destruct x as [|s x]; [done|]. replace (ds ++ s :: x) with ((ds ++ [s]) ++ x) in * by (by rewrite <- app_assoc).
    assert (Hs : ∃ fe', look root (ds ++ [s]) = Some fe').
    { destruct (decide (x = [])) as [->|Hx']; [rewrite app_nil_r in El; eauto|]. destruct (look_prefix root (ds ++ [s]) x fe) as (fe' & ? & _); eauto. by destruct ds. }
    destruct Hs as (fe' & Es). rewrite look_app, Hck in Es by done. simpl in Es. rewrite Ec in Es. destruct (find _ es) as [y|] eqn:Ey; [|done].
    apply find_some in Ey as [Hin He%String.eqb_eq]. subst s. apply list_elem_of_In in Hin. by eapply H.
Qed.
End Cover_step.

(** What happens once a path has resolved to an entry. *)
Lemma found_settles cov r e p : (∀ p b, walkable p → settles (cov p b) (λ w, p ∈ w_visited w)) → real_entry root r e → ∀ fuel,
  settles (wthen (if String.eqb r p then wok else cov r false) (λ _,
      if is_lnk e then chaseLink allow cov r (en_LinkTarget e)
      else if en_is_dir e then scanDir allow cov fuel r (en_Key e) else wok))
    (λ w, (r ≠ p → r ∈ w_visited w) ∧ links_under (w_visited w) r).
Proof using Hres Hwf.
  intros Hcov Hreal fuel. pose proof (real_clean _ _ Hreal) as Hclean. destruct Hreal as (rs & fe & -> & El & ->).
  destruct (look_ok _ _ _ _ Hwf El) as (Hok & _ & _). apply settles_then; [intros w w' (_ & Hv & _); set_solver| |].
  { destruct (String.eqb_spec (joined rs) p); [by apply settles_ok|]. eapply settles_weaken; [apply Hcov; by right|]. by intros w H _. }
  change (is_lnk (entry_of fe)) with (fe_lnk fe). change (en_is_dir (entry_of fe)) with (is_dir fe).
  assert (Hunder : ∀ V, links_below V rs → links_under V (joined rs)).
  { intros V H rs' Hok' E. by apply joined_inj in E as <-. }
  assert (Hbelow : ∀ V, (∀ x fe', x ≠ [] → look root (rs ++ x) = Some fe' → fe_lnk fe' = true → target_ok V (joined (rs ++ x)) (fe_LinkTarget fe')) →
    (fe_lnk fe = true → target_ok V (joined rs) (fe_LinkTarget fe)) → links_under V (joined rs)).
  { intros V H1 H2. apply Hunder. intros x fe' Hl Hf. destruct (decide (x = [])) as [->|Hx]; [|auto]. rewrite app_nil_r in *.
    rewrite El in Hl. injection Hl as <-. auto. }
  assert (Hleaf : is_dir fe = false → ∀ x fe', x ≠ [] → look root (rs ++ x) = Some fe' → False).
  { intros Ed x fe' Hx. rewrite look_app, dir_at_look by (done || by destruct Hok). by rewrite El, Ed. }
  destruct (fe_lnk fe) eqn:Ef; [|destruct (is_dir fe) eqn:Ed].
  - eapply settles_weaken; [by apply chaseLink_settles|]. intros w Ht. apply Hbelow; [|done].
    intros x fe' Hx Hl. by destruct (Hleaf (lnk_not_dir _ Ef) _ _ Hx Hl).
  - assert (Hck : ∃ ck, key_parse (fe_ContentKey fe) = Some ck) by (eapply dir_key_parses; eauto). destruct Hck as [ck Ek]. simpl (en_Key _). rewrite Ek.
    eapply settles_weaken; [apply (scanDir_settles _ Hcov)|]; [|by destruct Hok|].
    + rewrite dir_at_look by (by destruct Hok). by rewrite El, Ed.
    + intros w H. by apply Hbelow.
  - apply settles_ok. intros w. apply Hbelow; [|done]. intros x fe' Hx Hl. by destruct (Hleaf eq_refl _ _ Hx Hl).
Qed.

Lemma cover_settles fuel : ∀ p b, walkable p → settles (cover root allow fuel p b) (λ w, p ∈ w_visited w).
Proof using Hres Hwf.
  induction fuel as [|fuel IH]; intros p b Hp w w'; [done|]. cbn [cover]. intros H. apply M_bind_inv in H as (w0 & s0 & [= <- <-] & H).
  case_bool_decide as Hv; [injection H as <-; split; [done|]; split; [done|]; auto|].
  apply M_bind_inv in H as ([] & w1 & [= <-] & H). unfold wthen at 1 in H. apply M_bind_inv in H as (res & w2 & Hr & H).
  destruct (resolve_path_shape p Hp) as [HL Hreal]. unfold resolve in Hr. destruct (resolve_path root p) as [L r] eqn:Erp. simpl in HL, Hreal.
  injection Hr as <- <-. destruct r as [[r [e|]]|m]; [|destruct b; [done|injection H as <-]|done].
  - apply M_bind_inv in H as ([] & w3 & [= <-] & H). destruct (found_settles _ r e p IH Hreal fuel _ _ H) as ((Hc & Hvi & Hw) & Hs & Hco & Hr & Hl).
    simpl in Hc, Hvi, Hw, Hs.
    assert (Hps : settled w' p).
    { unfold settled. rewrite Erp. split_and!; [set_solver|set_solver| |done]. destruct (decide (r = p)) as [->|]; [set_solver|auto]. }
    split; [split_and!; [set_solver|set_solver|done]|]. split; [|split; [|set_solver]].
    + intros q Hq Hn. destruct (decide (q = p)) as [->|]; [done|]. apply Hs; [done|]. simpl. set_solver.
    + intros Hcok. apply Hco. intros q. simpl. rewrite !elem_of_union, elem_of_singleton, elem_of_list_to_set. intros [->|[Hq|Hq]].
      * right. split; [|split; [set_solver|eauto]]. destruct Hp as [->|]; [by vm_compute in Erp|done].
      * left. rewrite Forall_forall in HL. auto.
      * destruct (Hcok q Hq) as [|(? & ? & ?)]; [auto|]. right. split; [done|]. split; [set_solver|done].
  - split; [split_and!; simpl; [set_solver|set_solver|by eexists]|]. split; [|split; [|simpl; set_solver]].
    + simpl. intros q Hq Hn. assert (q = p) as -> by set_solver. unfold settled. rewrite Erp. simpl. split; [set_solver|].
      rewrite fmap_app. set_solver.
    + intros Hcok q. simpl. rewrite elem_of_union, elem_of_list_to_set. intros [Hq|Hq]; [left; rewrite Forall_forall in HL; auto|].
      destruct (Hcok q Hq) as [|(? & ? & ?)]; [auto|]. right. split; [done|]. split; [set_solver|done].
Qed.

(** A seed not visited before is covered. *)
Lemma cover_seed fuel p w w' : walkable p → cover root allow fuel p true w = Some (Ok tt, w') → p ∉ w_visited w → p ∈ w_covered w'.
Proof using Hres Hwf.
  intros Hp H Hn. destruct (cover_settles _ _ _ Hp _ _ H) as (_ & Hs & _ & Hv). specialize (Hs p Hv Hn). unfold settled in Hs.
  destruct (resolve_path root p) as [L [[r [e|]]|m]] eqn:E; [by destruct Hs as (_ & ? & _)| |done]. exfalso.
  destruct fuel as [|fuel]; [done|]. cbn [cover] in H. apply M_bind_inv in H as (w0 & s0 & [= <- <-] & H).
  rewrite bool_decide_eq_false_2 in H by done. unfold resolve in H. by rewrite E in H.
Qed.

(** ** A whole walk *)

(** The walker's sets when it is done. *)
Definition closed (w : walker) : Prop := covered_ok w ∧ ∀ p, p ∈ w_visited w → settled w p.

Lemma seeds_settle fuel seeds : Forall clean_rel seeds →
  settles (wfor (λ s, cover root allow fuel s true) seeds) (λ w, ∀ s, s ∈ seeds → s ∈ w_visited w).
Proof using Hres Hwf.
  intros Hseeds. apply (settles_for _ (λ s w, s ∈ w_visited w)); [intros s ?? (_&?&_); set_solver|]. intros s Hs. apply cover_settles. right.
  rewrite Forall_forall in Hseeds. auto.
Qed.

Lemma walk_run fuel seeds w : Forall clean_rel seeds →
  wfor (λ s, cover root allow fuel s true) seeds new_walker = Some (Ok tt, w) →
  closed w ∧ (∀ s, s ∈ seeds → s ∈ w_visited w) ∧ ∀ s, head seeds = Some s → s ∈ w_covered w.
Proof using Hres Hwf.
  intros Hseeds H. assert (Hset : settles (wfor (λ s, cover root allow fuel s true) seeds) (λ w, ∀ s, s ∈ seeds → s ∈ w_visited w)).
  { apply seeds_settle, Hseeds. }
  destruct (Hset _ _ H) as (_ & Hs & Hc & Hv). split; [|split; [done|]].
  { split; [apply Hc; by intros q ?%not_elem_of_empty|]. intros p Hp. apply Hs; [done|]. apply not_elem_of_empty. }
  intros s Hh. destruct seeds as [|s0 seeds]; [done|]. injection Hh as ->. apply Forall_cons in Hseeds as [Hs0 Hseeds].
  cbn [wfor] in H. apply M_bind_inv in H as ([[]|] & w1 & H1 & H2); [|done].
  pose proof (cover_seed _ _ _ _ (or_intror Hs0) H1 (not_elem_of_empty _)) as Hcov.
  destruct (seeds_settle fuel seeds Hseeds _ _ H2) as ((Hle & _) & _). set_solver.
Qed.

(** A real path resolves to itself. *)
Lemma resolve_path_real ls fe : look root ls = Some fe →
  resolve_path root (joined ls) = (if fe_lnk fe then [joined ls] else [], Ok (joined ls, Some (entry_of fe))).
Proof using Hres Hwf.
  intros El. destruct (look_ok _ _ _ _ Hwf El) as (Hok & _ & _). unfold resolve_path. rewrite Split_ok by done.
  apply (resolve_real d root Hwf (joined ls) 39 ls [] root fe); [done|constructor|done|by destruct Hok].
Qed.

(** Every covered path resolves, over covered links, to a covered path. *)
Lemma closed_resolves w q : closed w → q ∈ w_covered w →
  clean_rel q ∧ ∃ L r e, resolve_path root q = (L, Ok (r, Some e)) ∧ r ∈ w_covered w ∧ ∀ l, l ∈ L → l ∈ w_covered w.
Proof using Hres Hwf.
  intros [Hc Hs] Hq. destruct (Hc q Hq) as [(ls & fe & -> & El & Ef)|(Hq' & Hv & L & r & e & E)].
  - pose proof (look_ok _ _ _ _ Hwf El) as (Hok & _ & _). split; [by exists ls|].
    rewrite (resolve_path_real _ _ El), Ef. eexists _, _, _. split; [done|]. split; [done|]. by intros l ->%list_elem_of_singleton.
  - split; [done|].
    exists L, r, e. split; [done|]. pose proof (Hs q Hv) as Hsq. unfold settled in Hsq. rewrite E in Hsq. destruct Hsq as (HL & _ & Hr & _). split; [|done].
    destruct (resolve_path_shape q (or_intror Hq')) as [_ Hre]. rewrite E in Hre. destruct Hre as (rs & fe & -> & El & _).
    pose proof (Hs _ Hr) as Hsr. unfold settled in Hsr. rewrite (resolve_path_real _ _ El) in Hsr. by destruct Hsr as (_ & ? & _).
Qed.
End Closed.

(** What a walk from the seeds promises: sorted paths without duplicates,
    and a set of visited paths that contains the seeds, all of them settled. *)
Definition expansion (root : Key) (allow : list string) (seeds : list string) (res : WalkResult) : Prop :=
  StronglySorted (λ a b, str_leb a b = true) (wr_Paths res) ∧ NoDup (wr_Paths res) ∧ (∀ s, head seeds = Some s → s ∈ wr_Paths res) ∧
  ∃ V : gset string, (∀ s, s ∈ seeds → s ∈ V) ∧
    closed root (list_to_set allow) (mkWalker (list_to_set (wr_Paths res)) V (wr_Warnings res)).

Lemma walk_out_set w : list_to_set (wr_Paths (walk_out w)) = w_covered w.
Proof. apply set_eq. intros x. simpl. rewrite elem_of_list_to_set. unfold SortStrings. rewrite elem_of_ssort. apply elem_of_elements. Qed.

Lemma walk_out_expansion d root (Hwf : wf_tree d root) allow fuel seeds w : Forall clean_rel seeds →
  wfor (λ s, cover root (list_to_set allow) fuel s true) seeds new_walker = Some (Ok tt, w) → expansion root allow seeds (walk_out w).
Proof using Hres.
  intros Hseeds H. destruct (walk_run d root Hwf _ _ _ _ Hseeds H) as (Hc & Hv & Hh). split; [apply SortStrings_sorted|]. split.
  { simpl. rewrite SortStrings_perm. apply NoDup_elements. }
  split; [intros s ?%Hh; simpl; rewrite SortStrings_perm; by apply elem_of_elements|]. exists (w_visited w). split; [done|]. rewrite walk_out_set. by destruct w.
Qed.

Lemma Walk_expands d root dir declared allow fuel res : wf_tree d root → Forall clean_rel (walk_seeds dir declared) →
  Walk fuel root dir declared allow = Some (Ok res) → walk_seeds dir declared ≠ [] ∧ expansion root allow (walk_seeds dir declared) res.
Proof using Hres.
  intros Hwf Hseeds. unfold Walk. case_bool_decide; [done|]. destruct (wfor _ _ _) as [[[[]|] w]|] eqn:E; [|done..]. intros [= <-].
  split; [done|]. by eapply walk_out_expansion.
Qed.

Lemma WalkClosure_expands d root dir declared allow fuel res : wf_tree d root → Forall clean_rel declared →
  WalkClosure fuel root dir declared allow = Some (Ok res) → declared ≠ [] ∧ expansion root allow declared res ∧
     (dir ≠ "" → ∃ p, p ∈ wr_Paths res ∧ covers_dir dir p = true).
Proof using Hres.
  intros Hwf Hd. unfold WalkClosure. case_bool_decide; [done|]. destruct (wfor _ _ _) as [[[[]|] w]|] eqn:E; [|done..].
  destruct (negb _ && _) eqn:Ed; [done|]. intros [= <-]. split; [done|]. split; [by eapply walk_out_expansion|]. intros Hne.
  destruct (String.eqb_spec dir "") as [|_]; [done|]. simpl in Ed. apply negb_false_iff, existsb_exists in Ed as (p & Hin & Hp).
  exists p. split; [|done]. simpl. rewrite SortStrings_perm. by apply list_elem_of_In.
Qed.

(** The closure walk is closed. When [Walk] (or [WalkClosure]) succeeds
    on normalised seeds, its paths are sorted and distinct, the first seed
    is covered, every seed was visited, and every visited path is settled: either it resolves, and then
    it, every link it passes through and the place it leads to are covered,
    and every link at or below that place either points to a visited path or
    leaves the root and is listed as allowed to; or it leads nowhere and is
    warned about. [WalkClosure] also covers the build directory. *)
Theorem walk_closed d root dir declared allow fuel res : wf_tree d root → Forall clean_rel (walk_seeds dir declared) →
  (Walk fuel root dir declared allow = Some (Ok res) → expansion root allow (walk_seeds dir declared) res) ∧
  (WalkClosure fuel root dir declared allow = Some (Ok res) → expansion root allow declared res ∧
     (dir ≠ "" → ∃ p, p ∈ wr_Paths res ∧ covers_dir dir p = true)).
Proof using Hres.
  intros Hwf Hseeds. split; [by apply Walk_expands with d|]. apply WalkClosure_expands with d; [done|]. by apply Forall_app in Hseeds as [_ ?].
Qed.
End CoverFacts.
