(* ===== verification/CoverPrune.v ===== *)
(** * Pruning to a closure

    A context can always be pruned to the paths of a walk over it, and every
    covered path leads to the same place in the pruned tree. *)
From S2P Require Import Prelude GoLib Keys Trees TreeFacts Cover Paths CoverFacts.
From Stdlib Require Import Ascii.
Local Open Scope string_scope.
Local Open Scope list_scope.

(** ** The keep trie *)

Lemma assoc_set_eq {A} k (v : A) l : assoc k (assoc_set k v l) = Some v.
Proof.
  induction l as [|[k' v'] l IH]; simpl; [by rewrite String.eqb_refl|]. destruct (String.eqb_spec k k') as [->|Hne]; simpl; [by rewrite String.eqb_refl|].
  destruct (String.eqb_spec k k'); done.
Qed.

Lemma assoc_set_ne {A} k k' (v : A) l : k ≠ k' → assoc k (assoc_set k' v l) = assoc k l.
Proof.
  intros Hne. induction l as [|[x y] l IH]; simpl; [by destruct (String.eqb_spec k k')|].
  destruct (String.eqb_spec k' x) as [->|Hx]; simpl; [by destruct (String.eqb_spec k x)|]. destruct (String.eqb_spec k x); done.
Qed.

(** The node at a path of the trie. *)
Fixpoint pn_at (n : pruneNode) (q : list string) : option pruneNode :=
  match q with
  | [] => Some n
  | s :: r => match assoc s (pn_children n) with Some c => pn_at c r | None => None end
  end.

(** Whether the trie keeps a path entirely. *)
Fixpoint pn_covers (n : pruneNode) (q : list string) : bool :=
  pn_full n || match q with
               | [] => false
               | s :: r => match assoc s (pn_children n) with Some c => pn_covers c r | None => false end
               end.

(** Nothing hangs below a node that is kept entirely. *)
Definition pn_wf (n : pruneNode) : Prop := ∀ q c, pn_at n q = Some c → pn_full c = true → pn_children c = [].

Lemma pn_wf_child n s c : pn_wf n → assoc s (pn_children n) = Some c → pn_wf c.
Proof. intros H E q c' Hq. apply (H (s :: q)). simpl. by rewrite E. Qed.

Lemma pn_wf_empty b : pn_wf (PNode b []).
Proof. intros [|s q] c H; simpl in H; [by injection H as <-|done]. Qed.

Lemma pn_wf_default n s : pn_wf n → pn_wf (default (PNode false []) (assoc s (pn_children n))).
Proof. intros H. destruct (assoc s (pn_children n)) as [c|] eqn:E; simpl; [by eapply pn_wf_child|apply pn_wf_empty]. Qed.

Lemma pn_add_full segs n : pn_full n = true → pn_add segs n = n.
Proof. destruct segs; simpl; by intros ->. Qed.

Lemma pn_add_wf segs : ∀ n, pn_wf n → pn_wf (pn_add segs n).
Proof.
  induction segs as [|s segs IH]; intros n Hn; destruct (pn_full n) eqn:E; try (by rewrite pn_add_full); simpl; rewrite E; [apply pn_wf_empty|].
  intros [|s' q] c; simpl; [by intros [= <-]|]. destruct (decide (s' = s)) as [->|Hne].
  - rewrite assoc_set_eq. apply IH. by apply pn_wf_default.
  - rewrite assoc_set_ne by done. destruct (assoc s' (pn_children n)) as [c'|] eqn:Ec; [|done]. by apply (pn_wf_child n s' c').
Qed.

Lemma pn_add_covers segs : ∀ n, pn_covers (pn_add segs n) segs = true.
Proof.
  induction segs as [|s segs IH]; intros n; destruct (pn_full n) eqn:E; try (rewrite pn_add_full by done; simpl; by rewrite E); simpl; rewrite E; [done|].
  simpl. by rewrite assoc_set_eq.
Qed.

Lemma pn_covers_full n q : pn_full n = true → pn_covers n q = true.
Proof. by destruct q; simpl; intros ->. Qed.

Lemma pn_add_mono segs : ∀ n q, pn_covers n q = true → pn_covers (pn_add segs n) q = true.
Proof.
  induction segs as [|s segs IH]; intros n q Hq; destruct (pn_full n) eqn:E; try (by rewrite pn_add_full); simpl; rewrite E; [by destruct q|].
  destruct q as [|s' q]; simpl in *; rewrite E in Hq; [done|]. simpl in *. destruct (decide (s' = s)) as [->|Hne].
  - rewrite assoc_set_eq. apply IH. by destruct (assoc s (pn_children n)).
  - by rewrite assoc_set_ne.
Qed.

Lemma pn_add_at segs : ∀ n q c, pn_at (pn_add segs n) q = Some c → q `prefix_of` segs ∨ is_Some (pn_at n q).
Proof.
  induction segs as [|s segs IH]; intros n q c; destruct (pn_full n) eqn:E; try (rewrite pn_add_full by done; eauto); simpl; rewrite E.
  { destruct q; simpl; [eauto|done]. }
  destruct q as [|s' q]; simpl; [eauto|]. destruct (decide (s' = s)) as [->|Hne].
  - rewrite assoc_set_eq. intros [H|H]%IH; [left; by apply prefix_cons|]. destruct (assoc s (pn_children n)) as [c'|]; [auto|].
    destruct q as [|x q]; [|by destruct H]. left. by eexists.
  - rewrite assoc_set_ne by done. intros H. right. by rewrite H.
Qed.

(** A kept path is a leaf of the trie, or below one. *)
Lemma pn_covers_at l : ∀ n q c, pn_wf n → pn_covers n l = true → l `prefix_of` q → pn_at n q = Some c → q = l ∧ pn_full c = true.
Proof.
  induction l as [|s l IH]; intros n q c Hn Hc Hp Hq.
  - simpl in Hc. rewrite orb_false_r in Hc. destruct q as [|x q]; simpl in Hq; [by injection Hq as <-|]. by rewrite (Hn [] n eq_refl Hc) in Hq.
  - destruct q as [|x q]; [by apply prefix_nil_not in Hp|]. assert (x = s) as -> by (by apply prefix_cons_inv_1 in Hp). apply prefix_cons_inv_2 in Hp.
    simpl in Hc, Hq. destruct (pn_full n) eqn:E; [by rewrite (Hn [] n eq_refl E) in Hq|]. simpl in Hc.
    destruct (assoc s (pn_children n)) as [c'|] eqn:Ec; [|done]. destruct (IH c' q c) as [-> ?]; eauto using pn_wf_child.
Qed.

Lemma keeps_full n q : pn_full n = true → keeps_path n q = true.
Proof. intros H. induction q as [|s q IH]; [done|]. simpl. unfold pn_select. by rewrite H. Qed.

Lemma covers_keeps l : ∀ n q, pn_covers n l = true → q `prefix_of` l → keeps_path n q = true.
Proof.
  induction l as [|s l IH]; intros n q Hc Hp; destruct (pn_full n) eqn:E; try (by apply keeps_full); simpl in Hc; rewrite E in Hc; [done|].
  destruct q as [|x q]; [done|]. assert (x = s) as -> by (symmetry; by apply prefix_cons_inv_1 in Hp). apply prefix_cons_inv_2 in Hp.
  simpl in *. unfold pn_select. rewrite E. destruct (assoc s (pn_children n)); [eauto|done].
Qed.

(** The trie of a list of clean paths. *)
Lemma prune_trie_spec keep : ∀ n, Forall clean_rel keep → pn_wf n → pn_full n = false →
  ∃ t, prune_trie keep n = Ok t ∧ pn_wf t ∧ pn_full t = false ∧ (∀ q, pn_covers n q = true → pn_covers t q = true) ∧
    (∀ ls, joined ls ∈ keep → segs_ok ls → pn_covers t ls = true) ∧
    (∀ q c, pn_at t q = Some c → is_Some (pn_at n q) ∨ ∃ ls, joined ls ∈ keep ∧ segs_ok ls ∧ q `prefix_of` ls).
Proof.
  induction keep as [|p keep IH]; intros n Hkeep Hn Hf; simpl.
  { exists n. split_and!; try done; [by intros ? ?%elem_of_nil|eauto]. }
  apply Forall_cons in Hkeep as [(ls & Hok & ->) Hkeep]. rewrite tree_path_joined by done.
  destruct (String.eqb_spec (joined ls) "") as [E|_]; [by apply joined_nonempty in E|]. rewrite Split_ok by done.
  destruct (IH (pn_add ls n)) as (t & -> & Hwt & Hft & Hmono & Hcov & Hat); [done|by apply pn_add_wf| |].
  { destruct ls; [by destruct Hok|]. simpl. by rewrite Hf. }
  exists t. split; [done|]. split; [done|]. split; [done|]. split; [eauto using pn_add_mono|]. split.
  - intros ls' [E|Hin]%elem_of_cons Hok'; [|auto]. apply joined_inj in E as ->; [|done..]. apply Hmono, pn_add_covers.
  - intros q c [[c' Hq]|(ls' & Hin & Hok' & Hp)]%Hat; [|right; exists ls'; split_and!; try done; by right].
    apply pn_add_at in Hq as [Hp|Hq]; [right|by left]. exists ls. split; [left|done].
Qed.

Section CoverPrune.
Context `{LL : LsLib}.
(** Storing a directory whose names are in order succeeds, and what is stored reads back. *)
Context (Hfin : ∀ es, StronglySorted name_lt es → ∃ k, FinishDir es = Ok k).
Context (Hround : ∀ es k, FinishDir es = Ok k → CollectEntries k = Ok es).

(** ** Pruning succeeds when the trie fits the tree *)

Definition fits (k : Key) (n : pruneNode) : Prop :=
  ∀ q c, q ≠ [] → pn_at n q = Some c → ∃ fe, look k q = Some fe ∧ (pn_full c = false → is_dir fe = true).

Definition wf_entry (d : nat) (e : FEntry) : Prop :=
  name_ok (fe_Name e) ∧ (is_dir e = false → fe_ContentKey e = "" ∨ is_Some (key_parse (fe_ContentKey e))) ∧
  (is_dir e = true → ∃ ck, key_parse (fe_ContentKey e) = Some ck ∧ wf_tree d ck).

(** What the loop over a directory needs of each covered entry. *)
Definition prunable (visit : Key → pruneNode → string → option (result string Key)) (d : nat) (n : pruneNode) (e : FEntry) : Prop :=
  ∀ c, pn_select n (fe_Name e) = Some c →
    if is_dir e then ∃ ck, key_parse (fe_ContentKey e) = Some ck ∧ ∀ at_, ∃ nk, visit ck c at_ = Some (Ok nk) ∧ wf_tree d nk
    else pn_full c = true.

Lemma prune_entries_total visit d n at_ es : StronglySorted name_lt es → Forall (wf_entry d) es → Forall (prunable visit d n) es →
  ∃ out, prune_entries visit n at_ es = Some (Ok out) ∧ StronglySorted name_lt out ∧ Forall (wf_entry d) out ∧
    ∀ o, o ∈ out → ∃ e, e ∈ es ∧ fe_Name o = fe_Name e.
Proof.
  induction 1 as [|e es Hs IH Hlt]; intros Hwf Hpr; simpl; [exists []; split_and!; [done|constructor|done|by intros ? ?%elem_of_nil]|].
  apply Forall_cons in Hwf as [He Hwf], Hpr as [Hp Hpr]. destruct (IH Hwf Hpr) as (out & -> & So & Wo & No).
  assert (Hcons : ∀ o, fe_Name o = fe_Name e → wf_entry d o → ∃ out', Some (@Ok string _ (o :: out)) = Some (Ok out') ∧ StronglySorted name_lt out' ∧
    Forall (wf_entry d) out' ∧ ∀ o, o ∈ out' → ∃ e', e' ∈ e :: es ∧ fe_Name o = fe_Name e').
  { intros o Ho Hwo. exists (o :: out). split; [done|]. split; [|split; [by constructor|]].
    - constructor; [done|]. apply Forall_forall. intros x (y & Hy & Hn)%No. unfold name_lt. rewrite Ho, Hn.
      rewrite Forall_forall in Hlt. by apply Hlt.
    - intros x [->|(y & Hy & Hn)%No]%elem_of_cons; [exists e; split; [left|done]|exists y; split; [by right|done]]. }
  destruct (pn_select n (fe_Name e)) as [c|] eqn:Es.
  - specialize (Hp c Es). rewrite is_dir_norm. destruct He as (Hn & Hk & Hd). destruct (is_dir e) eqn:Ed.
    + destruct Hp as (ck & -> & Hv). destruct (Hv (path_Join at_ (fe_Name e))) as (nk & -> & Hwk). apply Hcons; [done|].
      split; [done|]. split; [by rewrite (is_dir_mode _ e), Ed by done|]. intros _. exists nk. split; [apply key_parse_bytes|done].
    + rewrite Hp. simpl. apply Hcons; [done|]. split; [done|]. split; [auto|]. by rewrite is_dir_norm, Ed.
  - exists out. split_and!; try done. intros o (y & Hy & Hn)%No. exists y. split; [by right|done].
Qed.

Lemma fits_child k n s c fe ck : pn_full n = false → fits k n → assoc s (pn_children n) = Some c →
  look k [s] = Some fe → is_dir fe = true → key_parse (fe_ContentKey fe) = Some ck → fits ck c.
Proof.
  intros Hf Hfit Ec El Ed Ek q c' Hq Hc'. destruct (Hfit (s :: q) c') as (fe' & Hl & Hd); [done|simpl; by rewrite Ec|].
  exists fe'. split; [|done]. rewrite look_cons in Hl by done. rewrite dir_at_look, El, Ed, Ek in Hl by done. done.
Qed.

Lemma fits_full k n : pn_wf n → pn_full n = true → fits k n.
Proof. intros Hn Hf [|s q] c Hq H; [done|]. simpl in H. by rewrite (Hn [] n eq_refl Hf) in H. Qed.

Lemma prune_total fuel : ∀ d k n at_, wf_tree d k → (d ≤ fuel)%nat → pn_wf n → fits k n →
  ∃ k', pruneDir fuel k n at_ = Some (Ok k') ∧ wf_tree d k'.
Proof using Hfin Hround.
  induction fuel as [|fuel IH]; intros [|d] k n at_ Hwf Hd Hn Hfit; try done; [lia|]. cbn [pruneDir].
  destruct Hwf as (es & Ec & Hsort & Hall). rewrite Ec.
  assert (Hlook : ∀ e, e ∈ es → look k [fe_Name e] = Some e) by (intros e He; simpl; by rewrite Ec, find_sorted).
  destruct (prune_entries_total (pruneDir fuel) d n at_ es) as (out & -> & So & Wo & _); [done|done| |].
  { apply Forall_forall. intros e He c Hsel. rewrite Forall_forall in Hall. destruct (Hall _ He) as (_ & _ & Hdir). pose proof (Hlook _ He) as El.
    unfold pn_select in Hsel. destruct (is_dir e) eqn:Ed.
    - destruct (Hdir eq_refl) as (ck & Ek & Hwk). exists ck. split; [done|]. intros at'. apply IH; [done|lia|..].
      + destruct (pn_full n); [by injection Hsel as <-|by eapply pn_wf_child].
      + destruct (pn_full n) eqn:Ef; [injection Hsel as <-; by apply fits_full|]. by eapply fits_child.
    - destruct (pn_full n) eqn:Ef; [by injection Hsel as <-|]. destruct (Hfit [fe_Name e] c) as (fe & El' & Hnf); [done|simpl; by rewrite Hsel|].
      rewrite El in El'. injection El' as <-. destruct (pn_full c); [done|]. by rewrite Hnf in Ed. }
  assert (Hm : pn_missing n es = None).
  { unfold pn_missing. destruct (find _ (pn_children n)) as [[s c]|] eqn:Ef; [|done]. apply find_some in Ef as [Hin Hno]. simpl in Hno.
    apply list_elem_of_In, assoc_Some in Hin as [c' Hc']. destruct (Hfit [s] c') as (fe & El & _); [done|simpl; by rewrite Hc'|].
    simpl in El. rewrite Ec in El. destruct (find _ es) as [x|] eqn:Ex; [|done]. apply find_some in Ex as [Hx He]. 
    assert (existsb (String.eqb s) (fe_Name <$> es) = true) as Hex; [|by rewrite Hex in Hno].
    apply existsb_exists. exists (fe_Name x). split; [apply list_elem_of_In, list_elem_of_fmap; exists x; split; [done|by apply list_elem_of_In]|].
    by rewrite String.eqb_sym. }
  rewrite Hm. destruct (Hfin out So) as (k' & Ek). rewrite Ek. exists k'. split; [done|]. exists out. split; [by apply Hround|done].
Qed.

(** ** Resolution in the pruned tree *)

Context (Hres : ∀ k, ResolvePath (Some k) "" = Ok k).

Section Same.
Context (d d' : nat) (root root' : Key) (Hwf : wf_tree d root) (Hwf' : wf_tree d' root').

(** A path leads to the same entry in both trees, metadata aside. *)
Definition alike (q : list string) : Prop := ∃ fe fe', look root q = Some fe ∧ look root' q = Some fe' ∧ same_entry fe fe'.

Lemma same_lnk fe fe' : same_entry fe fe' → fe_lnk fe' = fe_lnk fe.
Proof. intros (_ & H & _). unfold fe_lnk. by rewrite H. Qed.

Definition found (L : list string) (r : string) : Prop := ∀ x y, x ≠ [] → segs_ok (x ++ y) → joined (x ++ y) ∈ L ++ [r] → alike x.

(** The outcome in the other tree. *)
Definition same_outcome (e : Entry) (r : string) (L : list string) (o : list string * result string (string * option Entry)) : Prop :=
  ∃ fe fe', e = entry_of fe ∧ o = (L, Ok (r, Some (entry_of fe'))) ∧ same_entry fe fe'.

(** What the induction on a resolution shows: the first place reached is below
    the start, and the other tree agrees if it is alike along the way. *)
Definition agrees (p : string) (b : nat) (segs cs L : list string) (r : result string (string * option Entry)) : Prop :=
  match r with
  | Ok (r, Some e) => (∃ x, x ≠ [] ∧ segs_ok (cs ++ x) ∧ head (L ++ [r]) = Some (joined (cs ++ x))) ∧
      (Forall seg_ok segs → found L r → ∀ ck', dir_at root' cs = Some ck' → same_outcome e r L (resolve_from root' p b segs (joined cs) (Some ck')))
  | _ => True
  end.

Lemma look_names cs seg fe : look root (cs ++ [seg]) = Some fe → segs_ok (cs ++ [seg]) ∧ Forall name_ok cs ∧ name_ok seg.
Proof using Hwf. intros El. destruct (look_ok _ _ _ _ Hwf El) as (Hok & _ & _). destruct (id Hok) as [_ [Hcs [Hseg _]%Forall_cons]%Forall_app]. done. Qed.

Lemma found_here cs seg x fe L r : look root (cs ++ [seg]) = Some fe → found L r → segs_ok ((cs ++ [seg]) ++ x) → joined ((cs ++ [seg]) ++ x) ∈ L ++ [r] →
  ∃ fe', look root' (cs ++ [seg]) = Some fe' ∧ same_entry fe fe'.
Proof using Type.
  intros El Hf Hok Hin. destruct (Hf (cs ++ [seg]) x) as (fe1 & fe' & El1 & El' & Hsame); [by destruct cs|done..|].
  rewrite El in El1. injection El1 as <-. eauto.
Qed.

Lemma agrees_last p b seg cs fe : look root (cs ++ [seg]) = Some fe →
  agrees p (if fe_lnk fe then S b else b) [seg] cs (if fe_lnk fe then [joined (cs ++ [seg])] else []) (Ok (joined (cs ++ [seg]), Some (entry_of fe))).
Proof using Hres Hwf Hwf'.
  intros El. destruct (look_names _ _ _ El) as (Hok & Hcs & Hseg). split; [exists [seg]; split_and!; try done; by destruct (fe_lnk fe)|].
  intros _ Hf ck' Hck'. destruct (found_here cs seg [] fe _ _ El Hf) as (fe' & El' & Hsame); [by rewrite app_nil_r| |].
  { rewrite app_nil_r. apply elem_of_app. right. by apply list_elem_of_singleton. }
  exists fe, fe'. split; [done|]. split; [|done].
  destruct (resolve_step Hres d' root' Hwf' p (if fe_lnk fe then S b else b) seg [] cs ck' Hck' Hcs Hseg) as (m1 & m2 & m3 & m4 & ->).
  rewrite El'. cbv zeta. rewrite (same_lnk _ _ Hsame). by destruct (fe_lnk fe).
Qed.

Lemma agrees_link p b seg rest cs fe L r : look root (cs ++ [seg]) = Some fe → fe_lnk fe = true → rest ≠ [] →
  HasPrefix (fe_LinkTarget fe) "/" = false → escapes (via cs fe) = false →
  agrees p b (Split (via cs fe) "/" ++ rest) [] L r → agrees p (S b) (seg :: rest) cs (joined (cs ++ [seg]) :: L) r.
Proof using Hres Hwf Hwf'.
  intros El Ef Hr Eh Ee. destruct r as [[r [e|]]|]; try done. intros [Hh IH]. destruct (look_names _ _ _ El) as (Hok & Hcs & Hseg).
  split; [exists [seg]; done|]. intros [_ Hrest]%Forall_cons Hf ck' Hck'.
  destruct (found_here cs seg [] fe _ _ El Hf) as (fe' & El' & Hsame); [by rewrite app_nil_r|rewrite app_nil_r; left|].
  destruct (resolve_step Hres d' root' Hwf' p (S b) seg rest cs ck' Hck' Hcs Hseg) as (m1 & m2 & m3 & m4 & ->).
  rewrite El'. cbv zeta. rewrite (same_lnk _ _ Hsame), Ef, (bool_decide_eq_false_2 _ Hr).
  assert (Et : fe_LinkTarget fe' = fe_LinkTarget fe) by apply Hsame. unfold via in *. rewrite Et, Eh, Ee.
  destruct IH with (ck' := root') as (fe2 & fe2' & E1 & E2 & Hs2); [|intros x y Hx Hxy Hin; apply (Hf x y Hx Hxy); by right|done|].
  { apply Forall_app; split; [by apply via_segs|done]. }
  change (joined []) with "" in E2. rewrite E2. by exists fe2, fe2'.
Qed.

Lemma agrees_dir p b seg rest cs fe L r : look root (cs ++ [seg]) = Some fe → fe_lnk fe = false → rest ≠ [] → is_dir fe = true →
  agrees p b rest (cs ++ [seg]) L r → agrees p b (seg :: rest) cs L r.
Proof using Hres Hwf Hwf'.
  intros El Ef Hr Ed. destruct r as [[r [e|]]|]; try done. intros [(x & Hx & Hxok & Hh) IH]. destruct (look_names _ _ _ El) as (Hok & Hcs & Hseg).
  split; [exists (seg :: x); rewrite <- app_assoc in *; done|]. intros [_ Hrest]%Forall_cons Hf ck' Hck'.
  destruct (found_here cs seg x fe _ _ El Hf) as (fe' & El' & Hsame); [done|by apply head_Some_elem_of|].
  destruct (resolve_step Hres d' root' Hwf' p b seg rest cs ck' Hck' Hcs Hseg) as (m1 & m2 & m3 & m4 & ->).
  assert (Ed' : is_dir fe' = true) by (rewrite <- Ed; apply is_dir_mode, Hsame).
  rewrite El'. cbv zeta. rewrite (same_lnk _ _ Hsame), Ef, (bool_decide_eq_false_2 _ Hr), Ed'. simpl.
  destruct (dir_key_parses _ _ _ _ Hwf' El' Ed') as [ck2 Ek]. rewrite Ek. apply IH; [done|done|].
  rewrite dir_at_look by (by destruct cs). by rewrite El', Ed'.
Qed.

Lemma resolve_same p b segs cs ck : dir_at root cs = Some ck → Forall name_ok cs → Forall seg_ok segs →
  let o := resolve_from root p b segs (joined cs) (Some ck) in agrees p b segs cs (fst o) (snd o).
Proof using Hres Hwf Hwf'.
  apply (resolve_ind Hres d root Hwf p (agrees p)); try done; clear b segs cs ck; eauto using agrees_last, agrees_link, agrees_dir.
  intros b rest cs L [[r [e|]]|]; try done. intros [Hh IH]. split; [done|]. intros [_ Hr]%Forall_cons Hf ck' Hck'.
  rewrite resolve_skip by (by right). auto.
Qed.
End Same.

(** ** A walk's closure can be pruned *)

(** The closed sets of a walk make a trie that fits the context. *)
Lemma closed_fits d root allow w t : wf_tree d root → closed root allow w →
  pn_wf t → (∀ ls, joined ls ∈ w_covered w → segs_ok ls → pn_covers t ls = true) →
  (∀ q c, q ≠ [] → pn_at t q = Some c → ∃ ls, joined ls ∈ w_covered w ∧ segs_ok ls ∧ q `prefix_of` ls) → fits root t.
Proof using Hres.
  intros Hwf Hcl Ht Hcov Hat q c Hq Hc. destruct (Hat q c Hq Hc) as (ls & Hin & Hok & [y ->]).
  assert (Hdir : ∀ x z fe, look root (x ++ z) = Some fe → pn_covers t (x ++ z) = true → x = q → ∃ fe, look root q = Some fe ∧ (pn_full c = false → is_dir fe = true)).
  { intros x z fe El Hcv ->. destruct (decide (z = [])) as [->|Hz].
    - rewrite app_nil_r in *. exists fe. split; [done|]. intros Hf. destruct (pn_covers_at q t q c Ht Hcv) as [_ ?]; [done..|congruence].
    - destruct (look_prefix root q z fe Hq Hz El) as (fe' & ? & ?). eauto. }
  destruct (closed_resolves Hres d root Hwf allow w _ Hcl Hin) as (_ & L & r & e & E & _ & HL).
  pose proof (resolve_through Hres d root Hwf (joined (q ++ y)) linkBudget (Split (joined (q ++ y)) "/") [] root eq_refl (Forall_nil_2 _)
    (walkable_segs _ (or_intror (ex_intro _ _ (conj Hok eq_refl))))) as Hth.
  unfold resolve_path in E. change (joined []) with "" in Hth. rewrite E, Split_ok in Hth by done. simpl in Hth.
  destruct (Hth (proj2 Hok)) as [[fe El]|(x & z & fe & Exz & Hx & Hz & El & HinL)]; [eauto|].
  assert (Hxok : segs_ok x) by (by eapply look_ok). pose proof (Hcov x (HL _ HinL) Hxok) as Hcx.
  destruct (prefix_weak_total q x (q ++ y)) as [[v ->]|Hpre]; [by eexists|by exists z|by eapply Hdir|].
  destruct (pn_covers_at x t q c Ht Hcx Hpre Hc) as [Eq _]. by apply (Hdir x [] fe); rewrite ?app_nil_r.
Qed.

(** Whatever leads to a covered place is kept by the pruning. *)
Lemma pruned_alike d root allow w t fuel k' : wf_tree d root → closed root allow w →
  (∀ ls, joined ls ∈ w_covered w → segs_ok ls → pn_covers t ls = true) → pruneDir fuel root t "." = Some (Ok k') →
  ∀ x y fe, x ≠ [] → look root (x ++ y) = Some fe → joined (x ++ y) ∈ w_covered w → alike root k' x.
Proof using Hround.
  intros Hwf Hcl Hcov Ek x y fe Hx El Hin. destruct (look_ok _ _ _ _ Hwf El) as (Hok & _ & _).
  assert (Hlx : ∃ fe', look root x = Some fe').
  { destruct (decide (y = [])) as [->|Hy]; [rewrite app_nil_r in El; eauto|]. destruct (look_prefix root x y fe Hx Hy El) as (fe' & ? & _). eauto. }
  destruct Hlx as (fx & Ex). pose proof (prune_look Hround fuel root t "." k' x Ek Hx) as Hp. rewrite Ex in Hp.
  assert (Hk : keeps_path t x = true) by (apply (covers_keeps (x ++ y)); [by apply Hcov|by eexists]).
  destruct (look k' x) as [fx'|] eqn:Ex'; [|congruence]. exists fx, fx'. destruct Hp. done.
Qed.

Lemma met_real d root p L r e l : wf_tree d root → clean_rel p → resolve_path root p = (L, Ok (r, Some e)) → joined l ∈ L ++ [r] → segs_ok l →
  ∃ fe, look root l = Some fe.
Proof using Hres.
  intros Hwf Hp E Hin Hok. destruct (resolve_path_shape Hres d root Hwf p (or_intror Hp)) as [HL Hr]. rewrite E in *. simpl in *.
  rewrite Forall_forall in HL.
  assert (Hl : ∃ ls fe, joined l = joined ls ∧ look root ls = Some fe).
  { apply elem_of_app in Hin as [(ls & fe & ? & ? & _)%HL|Hin%list_elem_of_singleton]; [eauto|]. destruct Hr as (rs & fe & ? & ? & _). subst. eauto. }
  destruct Hl as (ls & fe & Ej & El). apply joined_inj in Ej as ->; [eauto|done|by eapply look_ok].
Qed.

(** A covered path in the pruned tree. *)
Lemma closed_same d root allow w t fuel k' p : wf_tree d root → wf_tree d k' → closed root allow w →
  (∀ ls, joined ls ∈ w_covered w → segs_ok ls → pn_covers t ls = true) → pruneDir fuel root t "." = Some (Ok k') → p ∈ w_covered w →
  ∃ L r fe fe', resolve_path root p = (L, Ok (r, Some (entry_of fe))) ∧ resolve_path k' p = (L, Ok (r, Some (entry_of fe'))) ∧ same_entry fe fe'.
Proof using Hround Hres.
  intros Hwf Hwf' Hcl Hcov Ek Hp. destruct (closed_resolves Hres d root Hwf _ w p Hcl Hp) as (Hcp & L & r & e & E & Hr & HL).
  pose proof (walkable_segs _ (or_intror Hcp)) as Hsegs.
  pose proof (resolve_same d d root k' Hwf Hwf' p linkBudget (Split p "/") [] root eq_refl (Forall_nil_2 _) Hsegs) as Hs.
  change (joined []) with "" in Hs. fold (resolve_path root p) in Hs. cbv zeta in Hs. rewrite E in Hs. destruct Hs as [_ Hag].
  assert (Hf : found root k' L r).
  { intros x y Hx Hxy Hin. destruct (met_real d root p L r e (x ++ y) Hwf Hcp E Hin Hxy) as (fe & El).
    eapply (pruned_alike d root allow w t fuel k' Hwf Hcl Hcov Ek x y fe); [done|done|].
    apply elem_of_app in Hin as [Hin|Hin%list_elem_of_singleton]; [auto|by rewrite Hin]. }
  destruct (Hag Hsegs Hf k' eq_refl) as (fe & fe' & -> & E' & Hsame). exists L, r, fe, fe'. done.
Qed.

Lemma walk_closes d root dir declared allow fuel res : wf_tree d root → Forall clean_rel (walk_seeds dir declared) →
  Walk fuel root dir declared allow = Some (Ok res) ∨ WalkClosure fuel root dir declared allow = Some (Ok res) →
  ∃ V, closed root (list_to_set allow) (mkWalker (list_to_set (wr_Paths res)) V (wr_Warnings res)) ∧ wr_Paths res ≠ [].
Proof using Hres.
  intros Hwf Hseeds Hwalk. assert (Hex : ∃ seeds, seeds ≠ [] ∧ expansion root allow seeds res).
  { destruct Hwalk as [H|H]; [exists (walk_seeds dir declared); by eapply Walk_expands|]. exists declared.
    destruct (WalkClosure_expands Hres d root dir declared allow fuel res) as (? & ? & _); try done. by apply Forall_app in Hseeds as [_ ?]. }
  destruct Hex as (seeds & Hne & _ & _ & Hh & V & _ & Hcl). exists V. split; [done|]. destruct seeds as [|s seeds]; [done|].
  specialize (Hh s eq_refl). intros E. rewrite E in Hh. by apply elem_of_nil in Hh.
Qed.

(** A walk's paths in the pruned context. *)
Lemma cover_prunes d root dir declared allow fuel fuel' res : wf_tree d root → (d ≤ fuel')%nat →
  Forall clean_rel (walk_seeds dir declared) →
  Walk fuel root dir declared allow = Some (Ok res) ∨ WalkClosure fuel root dir declared allow = Some (Ok res) →
  ∃ k', PruneTree fuel' root (wr_Paths res) = Some (Ok k') ∧
    ∀ p, p ∈ wr_Paths res → ∃ L r fe fe', resolve_path root p = (L, Ok (r, Some (entry_of fe))) ∧
      resolve_path k' p = (L, Ok (r, Some (entry_of fe'))) ∧ same_entry fe fe'.
Proof using Hfin Hround Hres.
  intros Hwf Hd Hseeds Hwalk. destruct (walk_closes _ _ _ _ _ _ _ Hwf Hseeds Hwalk) as (V & Hcl & Hne).
  set (w := mkWalker (list_to_set (wr_Paths res)) V (wr_Warnings res)) in *.
  assert (Hw : ∀ p, p ∈ wr_Paths res ↔ p ∈ w_covered w) by (intros p; simpl; by rewrite elem_of_list_to_set).
  assert (Hclean : Forall clean_rel (wr_Paths res)).
  { apply Forall_forall. intros p Hp%Hw. by eapply closed_resolves. }
  destruct (prune_trie_spec (wr_Paths res) (PNode false []) Hclean (pn_wf_empty _) eq_refl) as (t & Et & Ht & Hft & _ & Hcov & Hat).
  assert (Hfit : fits root t).
  { eapply closed_fits; eauto; [intros ls Hl; by apply Hcov, Hw|]. intros q c Hq [[c' Hc]|(ls & Hl & ?)]%Hat; [by destruct q|].
    exists ls. by split; [apply Hw|]. }
  destruct (prune_total fuel' d root t "." Hwf Hd Ht Hfit) as (k' & Ek & Hwf'). exists k'. split.
  { unfold PruneTree. rewrite Et, bool_decide_eq_false_2; [done|]. destruct (wr_Paths res) as [|p ps]; [done|].
    apply Forall_cons in Hclean as [(ls & Hok & ->) _]. specialize (Hcov ls ltac:(left) Hok). destruct ls; [by destruct Hok|]. simpl in Hcov.
    rewrite Hft in Hcov. by destruct (pn_children t). }
  intros p Hp%Hw. eapply closed_same; eauto. intros ls Hl. by apply Hcov, Hw.
Qed.

(** [C23] What the closure walk covers can be pruned, and resolves as before.
    When [Walk] or [WalkClosure] succeeds over a well-formed context, pruning
    the context to its paths succeeds, and every one of its paths resolves in
    the pruned tree over the same links to the same place, which holds the
    same entry but for owner and time. *)
Theorem walk_prunes d root dir declared allow fuel fuel' res : wf_tree d root → (d ≤ fuel')%nat →
  Forall clean_rel (walk_seeds dir declared) →
  Walk fuel root dir declared allow = Some (Ok res) ∨ WalkClosure fuel root dir declared allow = Some (Ok res) →
  ∃ k', PruneTree fuel' root (wr_Paths res) = Some (Ok k') ∧
    ∀ p, p ∈ wr_Paths res → ∃ L r fe fe', resolve_path root p = (L, Ok (r, Some (entry_of fe))) ∧
      resolve_path k' p = (L, Ok (r, Some (entry_of fe'))) ∧ same_entry fe fe'.
Proof using Hfin Hround Hres. apply cover_prunes. Qed.
End CoverPrune.
