(* ===== verification/Sources.v ===== *)
(** * The paths a recipe declares (src/recipe/sources.go)

    What [build()] returns as sources, closure, allowed escapes and generated
    files is normalised to root-relative paths before the closure walk; the
    result is what the walk expects. *)
From S2P Require Import Prelude GoLib Keys Trees TreeFacts Cover Paths CoverFacts CoverPrune.
From Stdlib Require Import Ascii.
Local Open Scope string_scope.
Local Open Scope list_scope.

Definition NormalizeSourcePath (p dir : string) : result string string :=
  if String.eqb p "" then Err "source path must be non-empty"
  else
    let cleaned :=
      match CutPrefix p "//" with
      | Some r =>
          let out := path_Clean r in
          if HasPrefix out "../" || String.eqb out ".." then Err ("source path " +:+ p +:+ " escapes the context root") else Ok out
      | None =>
          if HasPrefix p "/" then Err ("source path " +:+ p +:+ " must not be absolute (use // for root-relative)")
          else
            let out := path_Clean (path_Join dir p) in
            if HasPrefix out "../" || String.eqb out ".." then Err ("source path " +:+ p +:+ " escapes the context root") else Ok out
      end in
    out ← cleaned;
    if String.eqb out "." || String.eqb out "" then Err ("source path " +:+ p +:+ " resolves to the context root") else Ok out.

(** The declared part of a recipe's result; the generated files in the order
    the map is visited. *)
Record BuildSources := mkBS {
  bs_Sources : list string; bs_Closure : list string; bs_AllowEscaping : list string; bs_Generated : list (string * string) }.

Fixpoint normalize_list (what : string) (dir : string) (ps : list string) : result string (list string) :=
  match ps with
  | [] => Ok []
  | p :: ps =>
      match NormalizeSourcePath p dir with
      | Err e => Err ("build() " +:+ what +:+ ": " +:+ e)
      | Ok np => rest ← normalize_list what dir ps; Ok (np :: rest)
      end
  end.

Fixpoint normalize_generated (dir : string) (gs : list (string * string)) (ng : gmap string string) : result string (gmap string string) :=
  match gs with
  | [] => Ok ng
  | (p, content) :: gs =>
      match NormalizeSourcePath p dir with
      | Err e => Err ("build() generated: " +:+ e)
      | Ok np => if bool_decide (is_Some (ng !! np)) then Err ("build() generated: " +:+ np +:+ " declared twice after normalization")
                 else normalize_generated dir gs (<[np := content]> ng)
      end
  end.

Definition normalizeBuildSources (r : BuildSources) (dir : string) : result string (list string * list string * list string * gmap string string) :=
  srcs ← normalize_list "sources" dir (bs_Sources r);
  clos ← normalize_list "closure" dir (bs_Closure r);
  allow ← normalize_list "sources_allow_escaping" dir (bs_AllowEscaping r);
  ng ← normalize_generated dir (bs_Generated r) ∅;
  Ok (srcs, clos, allow, ng).

(** ** What is normalised *)

(** A declared path: one leading [//] at most. *)
Definition declarable (p : string) : Prop := HasPrefix p "///" = false.

Lemma not_rooted_after p r : declarable p → CutPrefix p "//" = Some r → is_rooted r = false.
Proof.
  intros H E%CutPrefix_Some. subst p. unfold declarable in H. destruct (is_rooted r) eqn:Er; [|done].
  apply HasPrefix_iff in Er as [s ->]. change ("//" +:+ "/" +:+ s) with ("///" +:+ s) in H. by rewrite HasPrefix_app in H.
Qed.

Lemma NormalizeSourcePath_clean p dir out : declarable p → is_rooted dir = false → NormalizeSourcePath p dir = Ok out → clean_rel out.
Proof.
  intros Hp Hd. unfold NormalizeSourcePath. destruct (String.eqb p ""); [done|].
  assert (Hfin : ∀ x, is_rooted x = false → HasPrefix (path_Clean x) "../" || String.eqb (path_Clean x) ".." = false →
    (if String.eqb (path_Clean x) "." || String.eqb (path_Clean x) "" then Err ("source path " +:+ p +:+ " resolves to the context root") else Ok (path_Clean x)) = Ok out →
    clean_rel out).
  { intros x Hx He. destruct (_ || String.eqb (path_Clean x) "") eqn:Ez; [done|]. intros [= <-]. apply orb_false_iff in Ez as [Ez%String.eqb_neq _].
    destruct (Clean_rel x Hx) as [|]; [unfold escapes; by rewrite orb_comm|done|done]. }
  destruct (CutPrefix p "//") as [r|] eqn:Ec.
  - destruct (_ || _) eqn:E; [done|]. apply Hfin; [by eapply not_rooted_after|done].
  - destruct (HasPrefix p "/") eqn:Er; [done|]. destruct (_ || _) eqn:E; [done|]. apply Hfin; [by apply Join_not_rooted|done].
Qed.

Lemma normalize_list_clean what dir ps out : Forall declarable ps → is_rooted dir = false → normalize_list what dir ps = Ok out → Forall clean_rel out.
Proof.
  intros Hps Hd. revert out. induction Hps as [|p ps Hp Hps IH]; intros out; simpl; [by intros [= <-]|].
  destruct (NormalizeSourcePath p dir) as [np|] eqn:E; [|done]. destruct (normalize_list what dir ps) as [rest|]; [|done]. intros [= <-].
  constructor; [by eapply NormalizeSourcePath_clean|auto].
Qed.

Lemma clean_rel_inside p : clean_rel p → escapes p = false ∧ p ≠ "." ∧ p ≠ "".
Proof.
  intros (segs & Hok & ->). pose proof (Split_ok _ Hok) as Es. destruct (id Hok) as [Hne Hall].
  assert (Hfirst : ∀ s r, Split (joined segs) "/" = s :: r → name_ok s).
  { intros s r. rewrite Es. intros ->. by apply Forall_cons in Hall as [? _]. }
  split; [|split; [|by apply joined_nonempty]].
  - unfold escapes. apply orb_false_iff. split.
    + apply String.eqb_neq. intros E. rewrite E in Hfirst. by destruct (Hfirst ".." [] eq_refl) as [(_ & _ & ?) _].
    + destruct (HasPrefix (joined segs) "../") eqn:E; [|done]. apply HasPrefix_iff in E as [r E]. rewrite E in Hfirst.
      by destruct (Hfirst ".." (Split r "/") eq_refl) as [(_ & _ & ?) _].
  - intros E. rewrite E in Hfirst. by destruct (Hfirst "." [] eq_refl) as [(_ & ? & _) _].
Qed.

(** A normalised path declared from the root is normalised to itself. *)
Theorem NormalizeSourcePath_root p dir : clean_rel p → NormalizeSourcePath ("//" +:+ p) dir = Ok p.
Proof.
  intros Hp. destruct (clean_rel_inside p Hp) as (He & Hd & Hn). destruct Hp as (segs & Hok & ->). unfold NormalizeSourcePath.
  rewrite CutPrefix_app. assert (String.eqb ("//" +:+ joined segs) "" = false) as -> by done. rewrite Clean_joined by done.
  unfold escapes in He. rewrite orb_comm in He. rewrite He. cbn [mbind result_mbind result_bind].
  apply String.eqb_neq in Hd, Hn. by rewrite Hd, Hn.
Qed.

(** ** From the recipe to the pruned context *)

Section Declared.
Context `{LL : LsLib}.
Context (Hfin : ∀ es, StronglySorted name_lt es → ∃ k, FinishDir es = Ok k).
Context (Hround : ∀ es k, FinishDir es = Ok k → CollectEntries k = Ok es).
Context (Hres : ∀ k, ResolvePath (Some k) "" = Ok k).

(** A recipe's declared sources reach the build. When a recipe's paths
    normalise against its build directory and the walk over the context
    succeeds on them, the context can be pruned to what the walk covers and
    every covered path resolves in it as before: no error is left for the
    derivation of the identity. *)
Theorem declared_sources_prune d root dir r srcs clos allow ng fuel fuel' res :
  Forall declarable (bs_Sources r) → Forall declarable (bs_Closure r) → dir = "" ∨ clean_rel dir →
  normalizeBuildSources r dir = Ok (srcs, clos, allow, ng) → wf_tree d root → (d ≤ fuel')%nat →
  Walk fuel root dir srcs allow = Some (Ok res) ∨ WalkClosure fuel root dir clos allow = Some (Ok res) →
  ∃ k', PruneTree fuel' root (wr_Paths res) = Some (Ok k') ∧
    ∀ p, p ∈ wr_Paths res → ∃ L q fe fe', resolve_path root p = (L, Ok (q, Some (entry_of fe))) ∧
      resolve_path k' p = (L, Ok (q, Some (entry_of fe'))) ∧ same_entry fe fe'.
Proof using Hfin Hround Hres.
  intros Hs Hc Hdir Hn Hwf Hd Hwalk. unfold normalizeBuildSources in Hn.
  apply bind_Ok_inv in Hn as (s1 & E1 & Hn). apply bind_Ok_inv in Hn as (c1 & E2 & Hn). apply bind_Ok_inv in Hn as (a1 & _ & Hn).
  apply bind_Ok_inv in Hn as (n1 & _ & [= -> -> -> ->]).
  assert (Hr : is_rooted dir = false).
  { destruct Hdir as [->|(segs & Hok & ->)]; [done|]. destruct segs as [|x segs]; [by destruct Hok|].
    destruct Hok as [_ [[(?&_&_) ?] _]%Forall_cons]. by apply joined_not_rooted. }
  assert (Hseeds : ∀ ps, Forall clean_rel ps → Forall clean_rel (walk_seeds dir ps)).
  { intros ps Hps. unfold walk_seeds. destruct (String.eqb_spec dir "") as [|Hne]; [done|]. destruct Hdir as [|Hcl]; [done|]. by constructor. }
  destruct Hwalk as [Hw|Hw].
  - eapply (cover_prunes Hfin Hround Hres d root dir srcs allow fuel fuel' res Hwf Hd); [|eauto]. apply Hseeds. by eapply (normalize_list_clean _ dir _ srcs Hs Hr).
  - eapply (cover_prunes Hfin Hround Hres d root dir clos allow fuel fuel' res Hwf Hd); [|eauto]. apply Hseeds. by eapply (normalize_list_clean _ dir _ clos Hc Hr).
Qed.
End Declared.
