(* ===== verification/CoverTerm.v ===== *)
(** * The closure walk returns

    Every path the walk visits is a seed, an entry of the context or the
    destination of one of its links, of which there are finitely many; and a
    path is expanded once. *)
From S2P Require Import Prelude GoLib Keys Trees TreeFacts Cover Paths CoverFacts.
From Stdlib Require Import Ascii.
Local Open Scope string_scope.
Local Open Scope list_scope.

Section CoverTerm.
Context `{LL : LsLib}.
Context (Hres : ∀ k, ResolvePath (Some k) "" = Ok k).

(** ** The paths a walk can visit *)

(** Every entry of a tree with its path. *)
Fixpoint all_paths (d : nat) (k : Key) : list (list string * FEntry) :=
  match d, CollectEntries k with
  | S d, Ok es => es ≫= λ e, ([fe_Name e], e) ::
      match key_parse (fe_ContentKey e) with Some ck => (λ x : list string * FEntry, (fe_Name e :: fst x, snd x)) <$> all_paths d ck | None => [] end
  | _, _ => []
  end.

Lemma look_all d : ∀ k segs fe, wf_tree d k → look k segs = Some fe → (segs, fe) ∈ all_paths d k.
Proof.
  induction d as [|d IH]; intros k segs fe Hwf El; [done|]. destruct Hwf as (es & Ec & _ & Hall). simpl. rewrite Ec.
  destruct segs as [|s segs]; [by destruct (CollectEntries k)|]. simpl in El. rewrite Ec in El. destruct (find _ es) as [e|] eqn:Ef; [|done].
  apply find_some in Ef as [Hin%list_elem_of_In Hs%String.eqb_eq]. subst s. apply list_elem_of_bind. exists e. split; [|done].
  destruct segs as [|s segs]; [injection El as ->; left|]. right. rewrite Forall_forall in Hall. destruct (Hall _ Hin) as (_ & _ & Hd).
  destruct (is_dir e); [|done]. destruct (Hd eq_refl) as (ck & Ek & Hwk). rewrite Ek in *. apply list_elem_of_fmap. exists (s :: segs, fe). auto.
Qed.

Section Returns.
Context (d : nat) (root : Key) (Hwf : wf_tree d root) (allow : gset string) (seeds : list string).

Definition universe : gset string :=
  list_to_set (seeds ++ ((λ x : list string * FEntry, joined (fst x)) <$> all_paths d root) ++
    ((λ x : list string * FEntry, link_dest (joined (fst x)) (fe_LinkTarget (snd x))) <$> all_paths d root)).

(** A method that returns, with at most [n] of the paths still to visit. *)
Definition returns {A} (n : nat) (m : W A) : Prop :=
  ∀ w, w_visited w ⊆ universe → (size (universe ∖ w_visited w) ≤ n)%nat →
  ∃ r w', m w = Some (r, w') ∧ w_visited w ⊆ w_visited w' ∧ w_visited w' ⊆ universe.

Lemma returns_ret {A} n (r : result string A) : returns n (mret r).
Proof. intros w Hu _. exists r, w. done. Qed.

Lemma returns_then {A B} n (m : W A) (k : A → W B) : returns n m → (∀ a, returns n (k a)) → returns n (wthen m k).
Proof.
  intros Hm Hk w Hu Hn. destruct (Hm w Hu Hn) as (r & w1 & E & H1 & Hu1). unfold wthen, mbind, M_bind. rewrite E.
  destruct r as [a|e]; [|by exists (Err e), w1]. destruct (Hk a w1 Hu1) as (r & w2 & E2 & H2 & Hu2).
  { etrans; [|exact Hn]. apply subseteq_size. set_solver. }
  exists r, w2. split; [done|]. split; [by etrans|done].
Qed.

Lemma returns_for {A} n (f : A → W unit) l : (∀ x, x ∈ l → returns n (f x)) → returns n (wfor f l).
Proof.
  induction l as [|x l IH]; intros H; simpl; [apply returns_ret|]. apply returns_then; [apply H; left|]. intros _. apply IH. intros y Hy. apply H. by right.
Qed.

Section Step.
Context (n : nat) (cov : string → bool → W unit) (Hcov : ∀ p b, walkable p → p ∈ universe → returns n (cov p b)).

Lemma chaseLink_returns ls fe : look root ls = Some fe → returns n (chaseLink allow cov (joined ls) (fe_LinkTarget fe)).
Proof using Hwf Hcov.
  intros El. unfold chaseLink. destruct (HasPrefix _ _) eqn:Eh; [case_bool_decide; apply returns_ret|].
  destruct (escapes _) eqn:Ee; [case_bool_decide; apply returns_ret|]. apply Hcov.
  - apply link_dest_rel; [|done|done]. destruct (look_ok _ _ _ _ Hwf El) as ([Hne Hok] & _ & _). destruct ls as [|s ls]; [done|].
    apply Forall_cons in Hok as [[(?&?&?) ?] _]. by apply joined_not_rooted.
  - apply elem_of_list_to_set, elem_of_app. right. apply elem_of_app. right. apply list_elem_of_fmap. exists (ls, fe). split; [done|]. by apply look_all.
Qed.

Lemma scanDir_returns fuel : ∀ d' ds ck, dir_at root ds = Some ck → Forall name_ok ds → wf_tree d' ck → (d' ≤ fuel)%nat →
  returns n (scanDir allow cov fuel (joined ds) (Some ck)).
Proof using Hres Hwf Hcov.
  induction fuel as [|fuel IH]; intros [|d'] ds ck Hck Hds Hwf' Hd; try done; [lia|]. cbn [scanDir].
  destruct (Ls_wf Hres _ _ Hwf') as (es & Ec & ->). destruct Hwf' as (es' & Ec' & Hsort & Hall). rewrite Ec in Ec'. injection Ec' as <-.
  rewrite wfor_fmap. apply returns_for. intros fe Hin. rewrite Forall_forall in Hall. destruct (Hall _ Hin) as (Hn & _ & Hdir). cbv zeta.
  assert (El : look root (ds ++ [fe_Name fe]) = Some fe) by (rewrite look_app, Hck by done; simpl; by rewrite Ec, find_sorted).
  change (en_Name (entry_of fe)) with (fe_Name fe). rewrite Join_snoc by done.
  change (is_lnk (entry_of fe)) with (fe_lnk fe). change (en_is_dir (entry_of fe)) with (is_dir fe).
  destruct (fe_lnk fe); [by apply chaseLink_returns|]. destruct (is_dir fe) eqn:Ed; [|apply returns_ret].
  destruct (Hdir eq_refl) as (ck' & Ek & Hwk). simpl (en_Key _). rewrite Ek. apply (IH d'); [|apply Forall_app; split; [done|by apply Forall_singleton]|done|lia].
  rewrite dir_at_look by (by destruct ds). by rewrite El, Ed.
Qed.
End Step.

Lemma found_returns n fuel r e p cov : (∀ p b, walkable p → p ∈ universe → returns n (cov p b)) → real_entry root r e → (d ≤ fuel)%nat →
  returns n (wthen (if String.eqb r p then wok else cov r false) (λ _,
    if is_lnk e then chaseLink allow cov r (en_LinkTarget e)
    else if en_is_dir e then scanDir allow cov fuel r (en_Key e) else wok)).
Proof using Hres Hwf.
  intros Hcov Hreal Hf. pose proof (real_clean d root Hwf _ _ Hreal) as Hclean. destruct Hreal as (rs & fe & -> & El & ->).
  destruct (look_ok _ _ _ _ Hwf El) as ([Hne Hok] & _ & _). apply returns_then.
  - destruct (String.eqb _ _); [apply returns_ret|]. apply Hcov; [by right|]. apply elem_of_list_to_set, elem_of_app. right. apply elem_of_app. left.
    apply list_elem_of_fmap. exists (rs, fe). split; [done|]. by apply look_all.
  - intros _. change (is_lnk (entry_of fe)) with (fe_lnk fe). change (en_is_dir (entry_of fe)) with (is_dir fe).
    destruct (fe_lnk fe); [by apply chaseLink_returns|]. destruct (is_dir fe) eqn:Ed; [|apply returns_ret].
    destruct (dir_key_parses _ _ _ _ Hwf El Ed) as [ck Ek]. simpl (en_Key _). rewrite Ek.
    assert (Hck : dir_at root rs = Some ck) by (rewrite dir_at_look by done; by rewrite El, Ed).
    destruct (dir_at_wf _ _ _ _ Hwf Hck) as (d' & Hwk & Hd'). apply (scanDir_returns n cov Hcov fuel d'); [done|done|done|lia].
Qed.

Lemma cover_returns n : ∀ fuel p b, (n + d < fuel)%nat → walkable p → p ∈ universe → returns n (cover root allow fuel p b).
Proof using Hres Hwf.
  induction n as [|n IH]; intros [|fuel] p b Hf Hp Hpu w Hu Hn; try lia; cbn [cover]; unfold mbind at 1, M_bind at 1, getS;
    (case_bool_decide as Hv; [exists (Ok tt), w; done|]).
  { exfalso. assert (p ∈ universe ∖ w_visited w) as Hin by set_solver. assert (size (universe ∖ w_visited w) = 0%nat) as Hz by lia.
    apply size_empty_inv in Hz. apply (Hz p), not_elem_of_empty in Hin. done. }
  cbn [mbind M_bind modS]. unfold mbind at 1, M_bind at 1, modS at 1.
  assert (Hstep : ∀ m : W unit, returns n m → ∃ r w', m (set_visited (λ v, {[p]} ∪ v) w) = Some (r, w') ∧ w_visited w ⊆ w_visited w' ∧ w_visited w' ⊆ universe).
  { intros m Hm. destruct (Hm (set_visited (λ v, {[p]} ∪ v) w)) as (r & w' & E & H1 & H2); simpl in *; [set_solver| |exists r, w'; set_solver].
    assert (universe ∖ ({[p]} ∪ w_visited w) ⊂ universe ∖ w_visited w) as Hlt%subset_size; [|lia].
    split; [set_solver|]. intros H. specialize (H p). set_solver. }
  apply Hstep.
  destruct (resolve_path_shape Hres d root Hwf p Hp) as [_ Hreal]. unfold resolve. destruct (resolve_path root p) as [L [[r [e|]]|m]]; simpl in Hreal.
  - intros w1 Hu1 Hn1. assert (Hr : ∀ q b', walkable q → q ∈ universe → returns n (cover root allow fuel q b')) by (intros; apply IH; [lia|done|done]).
    exact (found_returns n fuel r e p _ Hr Hreal ltac:(lia) (set_covered (λ c, {[p]} ∪ c) (set_covered (λ c, list_to_set L ∪ c) w1)) Hu1 Hn1).
  - intros w1 Hu1 Hn1. destruct b; eexists _, _; (split; [reflexivity|done]).
  - intros w1 Hu1 Hn1. eexists _, _. split; [reflexivity|done].
Qed.
End Returns.

(** [C34] The closure walk terminates: over a well-formed context and
    normalised seeds, both walks return, whatever links the context holds,
    loops of links included. *)
Theorem walk_terminates d root dir declared allow : wf_tree d root → Forall clean_rel (walk_seeds dir declared) →
  ∃ n, ∀ fuel, (n ≤ fuel)%nat → is_Some (Walk fuel root dir declared allow) ∧ is_Some (WalkClosure fuel root dir declared allow).
Proof using Hres.
  intros Hwf Hseeds. exists (S (size (universe d root (walk_seeds dir declared)) + d))%nat. intros fuel Hfuel.
  assert (Hrun : ∀ l, (∀ s, s ∈ l → s ∈ walk_seeds dir declared) →
    ∃ r w, wfor (λ s, cover root (list_to_set allow) fuel s true) l new_walker = Some (r, w)).
  { intros l Hl. destruct (returns_for d root Hwf (walk_seeds dir declared) (size (universe d root (walk_seeds dir declared)))
      (λ s, cover root (list_to_set allow) fuel s true) l) with (w := new_walker) as (r & w & E & _); [|set_solver| |eauto].
    - intros s Hs%Hl. rewrite Forall_forall in Hseeds. apply cover_returns; [done|lia|right; auto|].
      apply elem_of_list_to_set, elem_of_app. by left.
    - apply subseteq_size. set_solver. }
  split.
  - unfold Walk. case_bool_decide; [eauto|]. destruct (Hrun (walk_seeds dir declared)) as ([[]|] & w & ->); eauto.
  - unfold WalkClosure. case_bool_decide; [eauto|]. destruct (Hrun declared) as ([[]|] & w & ->); [|destruct (_ && _); eauto|eauto].
    intros s Hs. apply elem_of_app. by right.
Qed.
End CoverTerm.

(** * The closure walk on concrete contexts

    An object library with a fixed context in it, the witnesses of the walk's
    theorems, and two contexts on which the walk does not do what its comments
    say. *)
From S2P Require Import Prelude GoLib Keys Trees TreeFacts Cover Paths CoverFacts CoverPrune Sources.

(** ** A library: named directories, and stored ones whose key is their encoding *)

Definition cfile (name : string) : FEntry := mkFE name (Z.lor S_IFREG 420) 1000 1000 7 "" "" "".
Definition clink (name target : string) : FEntry := mkFE name (Z.lor S_IFLNK 511) 1000 1000 7 "" "" target.
Definition cdir (name key : string) : FEntry := mkFE name (Z.lor S_IFDIR 493) 1000 1000 7 "" (String "k" key) "".

Definition pdir (name key : string) : FEntry := mkFE name (Z.lor S_IFDIR 493) 0 0 CoverEpochNano "" (String "k" key) "".

(** Two contexts, and what is left of the first one, by directory. *)
Definition named : list (string * list FEntry) :=
  let a := [clink "l" "sub/../x"; clink "sub" "../b/c"; cfile "x"] in
  [("root", [cdir "a" "a"; cdir "b" "b"]); ("a", a); ("b", [cdir "c" "c"; cfile "x"]); ("c", [cfile "y"]);
   ("top", [cdir "p" "p"]); ("p", [clink "l" "../gone"]);
   ("pr", [pdir "a" "pa"; pdir "b" "pb"]); ("pa", normalize <$> a); ("pb", [pdir "c" "pc"]); ("pc", [normalize (cfile "y")])].

Definition context_dir (k : string) : option (list FEntry) := assoc k named.

Definition stored_key (es : list FEntry) : string :=
  match find (λ x : string * list FEntry, bool_decide (snd x = es)) named with
  | Some x => fst x
  | None => String "s" (pos_string (encode es))
  end.

Definition cover_lib : @TreeLib string_keys := {|
  CollectEntries := λ k : @Key string_keys, match context_dir (k : string) with
    | Some es => Ok es
    | None => match (k : string) with
              | String "s" r => match decode (string_pos r) with Some es => Ok es | None => Err "not a directory" end
              | _ => Err "not a directory"
              end
    end;
  FinishDir := λ es, @Ok string (@Key string_keys) (stored_key es);
  BuildFile := λ b, @Ok string (@Key string_keys) (String "f" b);
  key_is_file := λ _, false |}.

Definition cover_ls : @LsLib string_keys cover_lib := {|
  ResolvePath := λ k _, match k with Some k => Ok k | None => Err "zero key" end |}.

#[local] Existing Instance string_keys.
#[local] Existing Instance cover_lib.
#[local] Existing Instance cover_ls.

Lemma named_distinct : Forall (λ x : string * list FEntry, assoc (fst x) named = Some (snd x)) named.
Proof. repeat constructor. Qed.

Lemma named_reads (k : string) es : context_dir k = Some es → CollectEntries (k : Key) = Ok es.
Proof. intros E. simpl. by rewrite E. Qed.

Lemma stored_reads r : context_dir (String "s" r) = None →
  CollectEntries (String "s" r : Key) = match decode (string_pos r) with Some es => Ok es | None => Err "not a directory" end.
Proof. intros E. unfold CollectEntries, cover_lib. by rewrite E. Qed.

Lemma cover_lib_round es (k : Key) : FinishDir es = Ok k → CollectEntries k = Ok es.
Proof.
  intros [= <-]. unfold stored_key. destruct (find _ named) as [[name es']|] eqn:E.
  - apply find_some in E as [Hin%list_elem_of_In Hes]. apply bool_decide_eq_true_1 in Hes. cbn [fst snd] in *. subst es'.
    pose proof named_distinct as Hd. rewrite Forall_forall in Hd. specialize (Hd _ Hin). cbn [fst snd] in Hd.
    etransitivity; [apply named_reads; exact Hd|done].
  - etransitivity; [apply stored_reads; reflexivity|]. by rewrite string_pos_string, decode_encode.
Qed.

Lemma cover_lib_stores es : StronglySorted name_lt es → ∃ k : Key, FinishDir es = Ok k.
Proof. intros _. eexists. reflexivity. Qed.

Lemma cover_ls_root (k : Key) : ResolvePath (Some k) "" = Ok k.
Proof. reflexivity. Qed.

(** Well-formedness of a concrete context. *)
Definition wf_entryb (wf : string → bool) (e : FEntry) : bool :=
  bool_decide (name_ok (fe_Name e)) &&
  (if is_dir e then match tagged_parse (fe_ContentKey e) with Some ck => wf ck | None => false end
   else String.eqb (fe_ContentKey e) "" || match tagged_parse (fe_ContentKey e) with Some _ => true | None => false end).

Fixpoint sortedb (es : list FEntry) : bool :=
  match es with
  | [] => true
  | e :: es => forallb (λ x, str_ltb (fe_Name e) (fe_Name x)) es && sortedb es
  end.

Fixpoint wf_treeb (d : nat) (k : string) : bool :=
  match d with
  | O => false
  | S d => match context_dir k with Some es => sortedb es && forallb (wf_entryb (wf_treeb d)) es | None => false end
  end.

Lemma sortedb_ok es : sortedb es = true → StronglySorted name_lt es.
Proof.
  induction es as [|e es IH]; [constructor|]. simpl. intros [H1 H2]%andb_true_iff. constructor; [auto|]. apply Forall_forall.
  intros x Hx. rewrite forallb_forall in H1. apply H1. by apply list_elem_of_In.
Qed.

Lemma wf_treeb_ok d : ∀ k : Key, wf_treeb d k = true → wf_tree d k.
Proof.
  induction d as [|d IH]; intros k; [done|]. cbn [wf_treeb]. destruct (context_dir k) as [es|] eqn:E; [|done].
  intros [Hs Ha]%andb_true_iff. exists es. split; [simpl; by rewrite E|]. split; [by apply sortedb_ok|]. apply Forall_forall.
  intros e He. rewrite forallb_forall in Ha. apply list_elem_of_In, Ha in He. apply andb_true_iff in He as [Hn He].
  apply bool_decide_eq_true_1 in Hn. split; [done|]. destruct (is_dir e); split; try done; intros _.
  - change (@key_parse string_keys) with tagged_parse. destruct (tagged_parse (fe_ContentKey e)) as [ck|]; [|done]. exists ck. auto.
  - apply orb_true_iff in He as [He%String.eqb_eq|He]; [by left|]. right. simpl. destruct (tagged_parse _); [eauto|done].
Qed.

Lemma clean_seg s : bool_decide (name_ok s) = true → clean_rel s.
Proof. intros H%bool_decide_eq_true_1. exists [s]. split; [|done]. split; [done|]. by apply Forall_singleton. Qed.

(** ** Witnesses *)

Definition demo_res : WalkResult := mkWR ["a"; "a/x"; "b/c"] [].

Lemma demo_walk : Walk (LL := cover_ls) 12 "root" "a" [] [] = Some (Ok demo_res).
Proof. vm_compute. reflexivity. Qed.

Lemma demo_wf : wf_tree 3 ("root" : @Key string_keys).
Proof. apply wf_treeb_ok. vm_compute. reflexivity. Qed.

Lemma demo_seeds : Forall clean_rel (walk_seeds "a" []).
Proof. apply Forall_singleton, clean_seg. vm_compute. reflexivity. Qed.

Lemma walk_closed_witness : expansion (LL := cover_ls) ("root" : @Key string_keys) [] ["a"] demo_res.
Proof. apply (walk_closed (LL := cover_ls) cover_ls_root 3 "root" "a" [] [] 12 demo_res demo_wf demo_seeds). exact demo_walk. Defined.

Lemma walk_prunes_witness : ∃ k', PruneTree (TL := cover_lib) 3 ("root" : @Key string_keys) ["a"; "a/x"; "b/c"] = Some (Ok k') ∧
  ∃ L r fe fe', resolve_path (LL := cover_ls) "root" "a/x" = (L, Ok (r, Some (entry_of fe))) ∧
    resolve_path (LL := cover_ls) k' "a/x" = (L, Ok (r, Some (entry_of fe'))) ∧ same_entry fe fe'.
Proof.
  destruct (walk_prunes (LL := cover_ls) cover_lib_stores cover_lib_round cover_ls_root 3 "root" "a" [] [] 12 3 demo_res demo_wf
    ltac:(lia) demo_seeds (or_introl demo_walk)) as (k' & E & H).
  exists k'. split; [exact E|]. apply H. set_solver.
Defined.

Lemma walk_terminates_witness : ∃ n, ∀ fuel, (n ≤ fuel)%nat → is_Some (Walk (LL := cover_ls) fuel ("root" : @Key string_keys) "a" [] []) ∧
  is_Some (WalkClosure (LL := cover_ls) fuel ("root" : @Key string_keys) "a" [] []).
Proof. apply (walk_terminates (LL := cover_ls) cover_ls_root 3 "root" "a" [] [] demo_wf demo_seeds). Defined.

(** A recipe in [a] that declares its sibling [b]. *)
Definition demo_recipe : BuildSources := mkBS ["../b"] [] [] [("gen/v.txt", "1")].

Lemma declared_sources_prune_witness : ∃ res, Walk (LL := cover_ls) 12 ("root" : @Key string_keys) "a" ["b"] [] = Some (Ok res) ∧
  ∃ k', PruneTree (TL := cover_lib) 3 ("root" : @Key string_keys) (wr_Paths res) = Some (Ok k').
Proof.
  exists (mkWR ["a"; "a/x"; "b"; "b/c"] []).
  assert (Hw : Walk (LL := cover_ls) 12 ("root" : @Key string_keys) "a" ["b"] [] = Some (Ok (mkWR ["a"; "a/x"; "b"; "b/c"] []))) by (vm_compute; reflexivity).
  split; [exact Hw|].
  destruct (declared_sources_prune (LL := cover_ls) cover_lib_stores cover_lib_round cover_ls_root 3 "root" "a" demo_recipe ["b"] [] []
    {["a/gen/v.txt" := "1"]} 12 3 (mkWR ["a"; "a/x"; "b"; "b/c"] [])) as (k' & E & _); [..|by exists k'].
  - repeat constructor.
  - constructor.
  - right. apply clean_seg. vm_compute. reflexivity.
  - vm_compute. reflexivity.
  - exact demo_wf.
  - lia.
  - left. exact Hw.
Defined.

(** ** Where the code and its comments differ *)

(** A source declared with three slashes passes as an absolute path, although
    the comment says that every result is plain root-relative. *)
Theorem triple_slash_absolute : NormalizeSourcePath "///lib" "app" = Ok "/lib" ∧ ¬ clean_rel "/lib".
Proof.
  split; [vm_compute; reflexivity|]. intros (segs & Hok & E). pose proof (Split_ok _ Hok) as Es. rewrite <- E in Es. vm_compute in Es. subst segs.
  destruct Hok as [_ [[(H & _ & _) _] _]%Forall_cons]. done.
Qed.

(** A declared source that does not exist is an error, says [Walk]; but not
    when a link chased before it has the same destination: the declared path
    counts as visited, and the walk succeeds without it. *)
Theorem declared_missing_accepted : ∃ res, Walk (LL := cover_ls) 12 ("top" : @Key string_keys) "p" ["gone"] [] = Some (Ok res) ∧
  ("gone" ∉ wr_Paths res) ∧ look (TL := cover_lib) ("top" : @Key string_keys) ["gone"] = None.
Proof.
  eexists. split; [vm_compute; reflexivity|]. split; [|vm_compute; reflexivity]. simpl. by intros [= ]%list_elem_of_singleton.
Qed.

(** The same declared source alone is refused. *)
Lemma declared_missing_refused : ∃ e, Walk (LL := cover_ls) 12 ("top" : @Key string_keys) "" ["gone"] [] = Some (Err e).
Proof. eexists. vm_compute. reflexivity. Qed.

(** How a path resolves where it is used: [..] leaves the directory reached,
    links on the way included. *)
Fixpoint posix (fuel : nat) (root : @Key string_keys) (cs segs : list string) : option FEntry :=
  match fuel with
  | O => None
  | S fuel =>
      match segs with
      | [] => look (TL := cover_lib) root cs
      | s :: rest =>
          if String.eqb s "" || String.eqb s "." then posix fuel root cs rest
          else if String.eqb s ".." then posix fuel root (removelast cs) rest
          else match look (TL := cover_lib) root (cs ++ [s]) with
               | None => None
               | Some fe => if fe_lnk fe then
                              if HasPrefix (fe_LinkTarget fe) "/" then None else posix fuel root cs (Split (fe_LinkTarget fe) "/" ++ rest)
                            else posix fuel root (cs ++ [s]) rest
               end
      end
  end.

(** The walk cleans a link's target as a string, so a [..] after a linked
    directory cancels the link instead of leaving the place it leads to. The
    link [a/l] leads to [b/x] in the context; the walk covers [a/x] instead,
    without a warning, and in the pruned context the link leads nowhere. *)
Theorem dotdot_after_link_dangles : ∃ k', PruneTree (TL := cover_lib) 3 ("root" : @Key string_keys) (wr_Paths demo_res) = Some (Ok k') ∧
  posix 20 "root" [] ["a"; "l"] = Some (cfile "x") ∧ posix 20 "root" [] ["a"; "l"] = look (TL := cover_lib) ("root" : @Key string_keys) ["b"; "x"] ∧
  posix 20 k' [] ["a"; "l"] = None.
Proof.
  assert (Hok : match PruneTree (TL := cover_lib) 3 ("root" : @Key string_keys) (wr_Paths demo_res) with Some (Ok _) => true | _ => false end = true)
    by (vm_compute; reflexivity).
  assert (Hd : match PruneTree (TL := cover_lib) 3 ("root" : @Key string_keys) (wr_Paths demo_res) with
    | Some (Ok k) => posix 20 k [] ["a"; "l"] | _ => None end = None) by (vm_compute; reflexivity).
  destruct (PruneTree (TL := cover_lib) 3 ("root" : @Key string_keys) (wr_Paths demo_res)) as [[k'|]|]; [|done..].
  exists k'. split; [done|]. split; [vm_compute; reflexivity|]. split; [vm_compute; reflexivity|]. exact Hd.
Qed.
