(* ===== verification/Frames.v ===== *)
(** * Frames and packs on a stream (src/amberiroh/protocol.go, src/amberiroh/pack.go)

    One operation of the store transport is a sequence of length-prefixed
    frames; a pack of objects rides in data frames of bounded size. The CBOR
    codec of a frame's payload and the pack format are third-party code behind
    [MsgLib] and [PackFormat]. *)
From S2P Require Import Prelude GoLib Wire LogBuf.
From Stdlib Require Import Ascii.
Local Open Scope string_scope.
Local Open Scope list_scope.
Local Open Scope Z_scope.

Definition MaxFrame : Z := 16 * 2 ^ 20.
Definition ChunkSize : Z := 2 ^ 20.

(** ** Frames *)

Definition TPush : Z := 1.
Definition TPull : Z := 2.
Definition TRefList : Z := 3.
Definition TRef : Z := 4.
Definition TRefs : Z := 5.
Definition TWants : Z := 6.
Definition TData : Z := 7.
Definition TDataEnd : Z := 8.
Definition TOK : Z := 9.
Definition TErr : Z := 10.
Definition TAttach : Z := 11.
Definition TAccept : Z := 12.
Definition TPin : Z := 13.

Definition CodeCASMismatch : string := "cas-mismatch".
Definition CodeUnknownRef : string := "unknown-ref".
Definition CodeBadRequest : string := "bad-request".
Definition CodeInternal : string := "internal".

(** One reference of a listing ([RefInfo]). *)
Record RefInfo := mkRefInfo { ri_Name : string; ri_Key : string; ri_CreatedAt : Z; ri_User : string }.

Record DataEndpointRec := mkEndpoint { ep_ID : string; ep_Addrs : list string }.

Record Msg := mkMsg {
  m_Type : Z; m_Name : string; m_Root : string; m_CAS : bool; m_ExpectedOld : string; m_Record : string;
  m_Refs : list RefInfo; m_Keys : list string; m_Data : bytes; m_Key : string; m_Code : string; m_Text : string;
  m_Current : string; m_Token : string; m_DataConns : Z; m_DataPorts : list Z; m_DataEndpoints : list DataEndpointRec;
  m_Names : list string }.

Definition msg (t : Z) : Msg := mkMsg t "" "" false "" "" [] [] [] "" "" "" "" "" 0 [] [] [].
Definition msg_keys (ks : list string) : Msg := mkMsg TWants "" "" false "" "" [] ks [] "" "" "" "" "" 0 [] [] [].
Definition msg_data (b : bytes) : Msg := mkMsg TData "" "" false "" "" [] [] b "" "" "" "" "" 0 [] [] [].
Definition msg_err (code text current : string) : Msg := mkMsg TErr "" "" false "" "" [] [] [] "" code text current "" 0 [] [] [].
Definition msg_ok (k : string) : Msg := mkMsg TOK "" "" false "" "" [] [] [] k "" "" "" "" 0 [] [] [].

(** The CBOR modes of the package: decoding gives back what was encoded. *)
Class MsgLib := {
  Marshal : Msg → result string bytes;
  Unmarshal : bytes → result string Msg;
  Unmarshal_Marshal m b : Marshal m = Ok b → Unmarshal b = Ok m;
}.

(** [binary.BigEndian.PutUint32] and [Uint32]. *)
Definition be32 (n : Z) : bytes := (λ s, ascii_of_N (Z.to_N (n / 2 ^ s mod 256))) <$> [24; 16; 8; 0].
Definition be32_val (b : bytes) : Z := foldl (λ v a, v * 256 + Z.of_N (N_of_ascii a)) 0 b.

Inductive read_err := RE_EOF | RE_UnexpectedEOF | RE_TooLong (n : Z) | RE_Short | RE_Decode (e : string).

Record RemoteError := mkRemote { rm_Code : string; rm_Text : string; rm_Current : string }.

Definition RemoteFromMsg (m : Msg) : RemoteError := mkRemote (m_Code m) (m_Text m) (m_Current m).

Section Frames.
Context `{ML : MsgLib}.

(** The bytes of one frame. *)
Definition WriteMsg (m : Msg) : result string bytes :=
  match Marshal m with
  | Err e => Err ("protocol: encode frame: " +:+ e)
  | Ok payload =>
      if MaxFrame <? blen payload then Err "protocol: frame exceeds limit"
      else Ok (be32 (blen payload) ++ payload)
  end.

(** One frame off the front of a stream, and what remains. *)
Definition ReadMsg (r : bytes) : result read_err (Msg * bytes) :=
  if blen r =? 0 then Err RE_EOF
  else if blen r <? 4 then Err RE_UnexpectedEOF
  else
    let n := be32_val (upto 4 r) in
    let r := from 4 r in
    if MaxFrame <? n then Err (RE_TooLong n)
    else if blen r <? n then Err RE_Short
    else match Unmarshal (upto n r) with
         | Err e => Err (RE_Decode e)
         | Ok m => Ok (m, from n r)
         end.

(** ** Packs in data frames *)

(** What the pack writer puts on its writer for a record and at the end. *)
Class PackFormat := {
  pw_add : bytes → result string (list bytes);
  pw_close : list bytes;
}.

Record chunkWriter := mkCW { cw_out : bytes; cw_buf : bytes }.

Definition cw_flush (c : chunkWriter) : result string chunkWriter :=
  if blen (cw_buf c) =? 0 then Ok c
  else match WriteMsg (msg_data (cw_buf c)) with
       | Ok f => Ok (mkCW (cw_out c ++ f) [])
       | Err e => Err e
       end.

(** One turn of the loop of [chunkWriter.Write] on what is left of [p]. *)
Definition cw_step (c : chunkWriter) (p : bytes) : result string (chunkWriter * bytes) :=
  let take := Z.min (ChunkSize - blen (cw_buf c)) (blen p) in
  let c := mkCW (cw_out c) (cw_buf c ++ upto take p) in
  let p := from take p in
  if blen (cw_buf c) =? ChunkSize
  then match cw_flush c with Ok c => Ok (c, p) | Err e => Err e end
  else Ok (c, p).

Fixpoint cw_loop (fuel : nat) (c : chunkWriter) (p : bytes) : result string chunkWriter :=
  match fuel with
  | O => Ok c
  | S fuel =>
      if blen p =? 0 then Ok c
      else match cw_step c p with Ok (c, p) => cw_loop fuel c p | Err e => Err e end
  end.

(** A turn of the loop takes at least a byte of [p]. *)
Definition cw_Write (c : chunkWriter) (p : bytes) : result string chunkWriter := cw_loop (length p) c p.

Definition cw_finish (c : chunkWriter) : result string bytes :=
  match cw_flush c with
  | Err e => Err e
  | Ok c => match WriteMsg (msg TDataEnd) with Ok f => Ok (cw_out c ++ f) | Err e => Err e end
  end.

Fixpoint cw_writes (c : chunkWriter) (ps : list bytes) : result string chunkWriter :=
  match ps with
  | [] => Ok c
  | p :: ps => match cw_Write c p with Ok c => cw_writes c ps | Err e => Err e end
  end.

(** The records of a pack, each read on demand; the first failure ends it. *)
Fixpoint add_records `{PackFormat} (c : chunkWriter) (recs : list (result string bytes)) : result string chunkWriter :=
  match recs with
  | [] => Ok c
  | Err e :: _ => Err e
  | Ok rec :: recs =>
      match pw_add rec with
      | Err e => Err e
      | Ok ps => match cw_writes c ps with Ok c => add_records c recs | Err e => Err e end
      end
  end.

Definition SendPackRecords `{PackFormat} (recs : list (result string bytes)) : result string bytes :=
  match add_records (mkCW [] []) recs with
  | Err e => Err e
  | Ok c => match cw_writes c pw_close with Ok c => cw_finish c | Err e => Err e end
  end.

(** ** Reading a pack back *)

Inductive pack_err := PE_Read (e : read_err) | PE_Remote (e : RemoteError) | PE_Protocol (t : Z).

Record packReader := mkPR { pr_r : bytes; pr_cur : bytes; pr_done : bool; pr_err : option pack_err }.

Definition NewPackReader (r : bytes) : packReader := mkPR r [] false None.

Inductive read_end := End_EOF | End_Err (e : pack_err).

(** The loop that looks for a frame with data. A frame is at least its header,
    so the length of the stream bounds the turns. *)
Fixpoint pr_fill (fuel : nat) (p : packReader) : packReader * option read_end :=
  match fuel with
  | O => (p, None)
  | S fuel =>
      if negb (blen (pr_cur p) =? 0) then (p, None)
      else match pr_err p with
      | Some e => (p, Some (End_Err e))
      | None =>
          if pr_done p then (p, Some End_EOF)
          else match ReadMsg (pr_r p) with
          | Err e => let e := PE_Read e in (mkPR (pr_r p) [] false (Some e), Some (End_Err e))
          | Ok (m, r) =>
              if m_Type m =? TData then pr_fill fuel (mkPR r (m_Data m) (pr_done p) None)
              else if m_Type m =? TDataEnd then pr_fill fuel (mkPR r [] true None)
              else
                let e := if m_Type m =? TErr then PE_Remote (RemoteFromMsg m) else PE_Protocol (m_Type m) in
                (mkPR r [] false (Some e), Some (End_Err e))
          end
      end
  end.

(** [packReader.Read] into a buffer of [n] bytes. *)
Definition pr_Read (n : Z) (p : packReader) : packReader * bytes * option read_end :=
  let '(p, e) := pr_fill (S (S (length (pr_r p)))) p in
  match e with
  | Some e => (p, [], Some e)
  | None => (mkPR (pr_r p) (from n (pr_cur p)) (pr_done p) (pr_err p), upto n (pr_cur p), None)
  end.

(** Reading to the end, with buffers of the sizes [n 0, n 1, ...] ([io.Copy]). *)
Fixpoint read_all (fuel : nat) (n : nat → Z) (p : packReader) : option (packReader * bytes * read_end) :=
  match fuel with
  | O => None
  | S fuel =>
      let '(p, b, e) := pr_Read (n O) p in
      match e with
      | Some e => Some (p, [], e)
      | None => match read_all fuel (λ i, n (S i)) p with
                | Some (p, bs, e) => Some (p, b ++ bs, e)
                | None => None
                end
      end
  end.

(** ** Facts *)

Lemma be32_round n : 0 <= n < 2 ^ 32 → be32_val (be32 n) = n.
Proof.
  intros Hn. unfold be32, be32_val. cbn [fmap list_fmap foldl].
  rewrite !N_ascii_embedding, !Z2N.id by (try apply Z.mod_pos_bound; try (apply N2Z.inj_lt; rewrite Z2N.id; [|]); try apply Z.mod_pos_bound; lia).
  replace (2 ^ 0) with 1 by done. rewrite Z.div_1_r.
  pose proof (Z.div_mod n (2 ^ 8) ltac:(lia)). pose proof (Z.div_mod (n / 2 ^ 8) (2 ^ 8) ltac:(lia)).
  pose proof (Z.div_mod (n / 2 ^ 8 / 2 ^ 8) (2 ^ 8) ltac:(lia)).
  rewrite !Z.div_div in * by lia. change (2 ^ 8 * 2 ^ 8) with (2 ^ 16) in *. change (2 ^ 16 * 2 ^ 8) with (2 ^ 24) in *.
  change 256 with (2 ^ 8). rewrite (Z.mod_small (n / 2 ^ 24) (2 ^ 8)); [lia|].
  split; [apply Z.div_pos; lia|]. apply Z.div_lt_upper_bound; lia.
Qed.

Lemma from_blen_app a b : from (blen a) (a ++ b) = b.
Proof. unfold from, blen. rewrite Nat2Z.id. apply drop_app_length. Qed.

Lemma upto_blen_app a b : upto (blen a) (a ++ b) = a.
Proof. unfold upto, blen. rewrite Nat2Z.id. apply take_app_length. Qed.

Lemma upto_from n b : upto n b ++ from n b = b.
Proof. apply take_drop. Qed.

Lemma read_written m f tail : WriteMsg m = Ok f → ReadMsg (f ++ tail) = Ok (m, tail).
Proof.
  unfold WriteMsg. destruct (Marshal m) as [pl|] eqn:E; [|done]. destruct (Z.ltb_spec MaxFrame (blen pl)) as [|Hle]; [done|]. intros Hf.
  assert (f = be32 (blen pl) ++ pl) as -> by congruence. clear Hf. pose proof (blen_pos pl). pose proof (blen_pos tail). assert (H4 : blen (be32 (blen pl)) = 4) by done.
  unfold ReadMsg. rewrite <- (assoc_L (++)), !blen_app, H4.
  destruct (Z.eqb_spec (4 + (blen pl + blen tail)) 0); [lia|]. destruct (Z.ltb_spec (4 + (blen pl + blen tail)) 4); [lia|].
  rewrite <- H4, upto_blen_app, from_blen_app, be32_round, blen_app by (unfold MaxFrame in *; lia).
  destruct (Z.ltb_spec MaxFrame (blen pl)); [lia|]. destruct (Z.ltb_spec (blen pl + blen tail) (blen pl)); [lia|].
  rewrite upto_blen_app, from_blen_app. by rewrite (Unmarshal_Marshal _ _ E).
Qed.

(** A run of data frames carrying the chunks [ds]. *)
Inductive data_stream : list bytes → bytes → Prop :=
| ds_nil : data_stream [] []
| ds_cons d ds f b : WriteMsg (msg_data d) = Ok f → 0 < blen d <= ChunkSize → data_stream ds b → data_stream (d :: ds) (f ++ b).

Lemma data_stream_snoc ds b d f :
  data_stream ds b → WriteMsg (msg_data d) = Ok f → 0 < blen d <= ChunkSize → data_stream (ds ++ [d]) (b ++ f).
Proof.
  induction 1 as [|d' ds f' b H1 H2 H3 IH]; intros Hw Hd; simpl.
  - rewrite <- (app_nil_r f). econstructor; eauto using data_stream.
  - rewrite <- (assoc_L (++)). econstructor; eauto.
Qed.

Definition cw_ok (total : bytes) (c : chunkWriter) : Prop :=
  ∃ ds, data_stream ds (cw_out c) ∧ concat ds ++ cw_buf c = total ∧ blen (cw_buf c) < ChunkSize.

Lemma cw_flush_ok ds c c' :
  data_stream ds (cw_out c) → blen (cw_buf c) <= ChunkSize → cw_flush c = Ok c' →
  ∃ ds', data_stream ds' (cw_out c') ∧ concat ds' = concat ds ++ cw_buf c ∧ cw_buf c' = [].
Proof.
  intros Hd Hb. unfold cw_flush. destruct (Z.eqb_spec (blen (cw_buf c)) 0) as [E0|E0].
  - intros [= <-]. exists ds. by rewrite (blen_nil _ E0), app_nil_r.
  - destruct (WriteMsg _) as [f|] eqn:E; [|done]. intros [= <-]. pose proof (blen_pos (cw_buf c)).
    exists (ds ++ [cw_buf c]). split_and!; [|by rewrite concat_app; simpl; rewrite app_nil_r|done].
    eapply data_stream_snoc; eauto. lia.
Qed.

Lemma cw_step_ok total c p c' p' :
  cw_ok total c → 0 < blen p → cw_step c p = Ok (c', p') →
  ∃ q, p = q ++ p' ∧ q ≠ [] ∧ cw_ok (total ++ q) c'.
Proof.
  intros (ds & Hd & Ht & Hb) Hp. unfold cw_step. pose proof (blen_pos (cw_buf c)).
  set (tk := Z.min _ _). assert (Hk : 0 < tk <= blen p) by (unfold tk; lia).
  assert (Hlen : blen (cw_buf c ++ upto tk p) = blen (cw_buf c) + tk) by (rewrite blen_app, blen_upto; lia).
  assert (Hq : upto tk p ≠ []) by (intros Hn; apply (f_equal blen) in Hn; rewrite blen_upto in Hn by lia; unfold blen in Hn at 1; simpl in Hn; lia).
  cbn [cw_buf cw_out]. destruct (Z.eqb_spec (blen (cw_buf c ++ upto tk p)) ChunkSize) as [E|E].
  - destruct (cw_flush _) as [c1|] eqn:Ef; [|done]. intros [= <- <-].
    destruct (cw_flush_ok ds (mkCW (cw_out c) (cw_buf c ++ upto tk p)) _ Hd (Z.eq_le_incl _ _ E) Ef) as (ds' & Hd' & Hc & Hn). exists (upto tk p). rewrite upto_from.
    split_and!; [done|done|]. exists ds'. rewrite Hn, Hc, app_nil_r. simpl. rewrite (assoc_L (++)), Ht. split_and!; done.
  - intros [= <- <-]. exists (upto tk p). rewrite upto_from. split_and!; [done|done|]. exists ds. simpl.
    rewrite (assoc_L (++)), Ht. split_and!; [done|done|]. unfold tk in *. lia.
Qed.

Lemma cw_loop_ok fuel : ∀ total c p c',
  cw_ok total c → (length p <= fuel)%nat → cw_loop fuel c p = Ok c' → cw_ok (total ++ p) c'.
Proof.
  induction fuel as [|fuel IH]; intros total c p c' Hc Hf; cbn [cw_loop].
  - intros [= <-]. destruct p; [by rewrite app_nil_r|simpl in Hf; lia].
  - destruct (Z.eqb_spec (blen p) 0) as [E|E]; [intros [= <-]; by rewrite (blen_nil _ E), app_nil_r|].
    destruct (cw_step c p) as [[c1 p1]|] eqn:Es; [|done]. assert (Hp : 0 < blen p) by (pose proof (blen_pos p); lia).
    destruct (cw_step_ok _ _ _ _ _ Hc Hp Es) as (q & -> & Hq & Hc1). intros Hl. rewrite (assoc_L (++)). eapply IH; [done| |done].
    rewrite length_app in Hf. destruct q; [done|]. simpl in Hf. lia.
Qed.

Lemma cw_writes_ok ps : ∀ total c c', cw_ok total c → cw_writes c ps = Ok c' → cw_ok (total ++ concat ps) c'.
Proof.
  induction ps as [|p ps IH]; intros total c c' Hc; simpl; [intros [= <-]; by rewrite app_nil_r|].
  destruct (cw_Write c p) as [c1|] eqn:E; [|done]. intros H. rewrite (assoc_L (++)). eapply IH; [|done].
  eapply cw_loop_ok; [done| |done]. lia.
Qed.

(** What a pack's records put on the stream. *)
Fixpoint pack_bytes `{PackFormat} (recs : list (result string bytes)) : bytes :=
  match recs with
  | Ok rec :: recs => match pw_add rec with Ok ps => concat ps ++ pack_bytes recs | Err _ => [] end
  | _ => concat pw_close
  end.

Lemma add_records_ok `{PackFormat} recs : ∀ total c c' c'',
  cw_ok total c → add_records c recs = Ok c' → cw_writes c' pw_close = Ok c'' → cw_ok (total ++ pack_bytes recs) c''.
Proof.
  induction recs as [|[rec|e] recs IH]; intros total c c' c'' Hc; simpl; [intros [= <-]; by apply cw_writes_ok| |done].
  destruct (pw_add rec) as [ps|]; [|done]. destruct (cw_writes c ps) as [c1|] eqn:E; [|done]. intros H1 H2.
  rewrite (assoc_L (++)). eapply IH; [|done..]. by eapply cw_writes_ok.
Qed.

(** A pack's frames, its end frame, and the rest of the stream. *)
Definition pack_stream (ds : list bytes) (tail b : bytes) : Prop :=
  ∃ body e, data_stream ds body ∧ WriteMsg (msg TDataEnd) = Ok e ∧ b = body ++ e ++ tail.

Lemma sent_stream `{PackFormat} recs b tail :
  SendPackRecords recs = Ok b → ∃ ds, pack_stream ds tail (b ++ tail) ∧ concat ds = pack_bytes recs ∧ Forall (λ d, 0 < blen d <= ChunkSize) ds.
Proof.
  unfold SendPackRecords. destruct (add_records _ recs) as [c1|] eqn:E1; [|done]. destruct (cw_writes c1 pw_close) as [c2|] eqn:E2; [|done].
  assert (Hc : cw_ok ([] ++ pack_bytes recs) c2).
  { eapply add_records_ok; [|done..]. exists []. repeat split; constructor. }
  destruct Hc as (ds & Hd & Ht & Hb). unfold cw_finish. destruct (cw_flush c2) as [c3|] eqn:E3; [|done].
  destruct (WriteMsg (msg TDataEnd)) as [e|] eqn:Ee; [|done]. intros [= <-].
  destruct (cw_flush_ok _ _ _ Hd ltac:(lia) E3) as (ds' & Hd' & Hc & _). exists ds'. split_and!.
  - exists (cw_out c3), e. by rewrite <- (assoc_L (++)).
  - by rewrite Hc, Ht.
  - clear -Hd'. induction Hd'; constructor; done.
Qed.

(** The reader in the middle of a pack: the chunks still on the stream. *)
Definition reading (ds : list bytes) (tail : bytes) (p : packReader) : Prop :=
  pr_err p = None ∧ if pr_done p then ds = [] ∧ pr_r p = tail else pack_stream ds tail (pr_r p).

Definition pending (ds : list bytes) (p : packReader) : bytes := pr_cur p ++ concat ds.

Lemma fill_cur fuel p : pr_cur p ≠ [] → pr_fill (S fuel) p = (p, None).
Proof. intros H. cbn [pr_fill]. destruct (Z.eqb_spec (blen (pr_cur p)) 0) as [E|]; [by apply blen_nil in E|done]. Qed.

Lemma fill_empty fuel p : pr_cur p = [] → pr_err p = None → pr_fill (S fuel) p =
  if pr_done p then (p, Some End_EOF)
  else match ReadMsg (pr_r p) with
  | Err e => let e := PE_Read e in (mkPR (pr_r p) [] false (Some e), Some (End_Err e))
  | Ok (m, r) =>
      if m_Type m =? TData then pr_fill fuel (mkPR r (m_Data m) (pr_done p) None)
      else if m_Type m =? TDataEnd then pr_fill fuel (mkPR r [] true None)
      else let e := if m_Type m =? TErr then PE_Remote (RemoteFromMsg m) else PE_Protocol (m_Type m) in
           (mkPR r [] false (Some e), Some (End_Err e))
  end.
Proof. intros Hc He. cbn [pr_fill]. by rewrite Hc, He. Qed.

Lemma fill_frame fuel ds tail p :
  reading ds tail p →
  ∃ p', if bool_decide (pending ds p = [])
        then pr_fill (S (S fuel)) p = (p', Some End_EOF) ∧ pr_r p' = tail
        else ∃ ds', pr_fill (S (S fuel)) p = (p', None) ∧ reading ds' tail p' ∧ pr_cur p' ≠ [] ∧ pending ds' p' = pending ds p.
Proof.
  intros [He Hd]. unfold pending. destruct (decide (pr_cur p = [])) as [Ec|Ec].
  - rewrite Ec. cbn [app]. rewrite (fill_empty _ _ Ec He). destruct (pr_done p) eqn:Ed.
    + destruct Hd as [-> Hr]. cbn. eauto.
    + destruct Hd as (body & e & Hds & Hw & Hr). rewrite Hr. destruct Hds as [|d ds f b Hf Hsz Hds].
      * cbn [app concat]. rewrite bool_decide_eq_true_2, (read_written _ _ tail Hw) by done. cbn. eauto.
      * rewrite <- (assoc_L (++)), (read_written _ _ _ Hf). cbn [m_Type msg_data Z.eqb TData Pos.eqb m_Data].
        assert (Hne : d ≠ []) by (intros ->; unfold blen in Hsz; simpl in Hsz; lia).
        rewrite bool_decide_eq_false_2 by (destruct d; [done|by simpl]).
        exists (mkPR (b ++ e ++ tail) d false None), ds.
        rewrite fill_cur by done. split_and!; [done| |done|done]. split; [done|]. cbn. exists b, e. done.
  - exists p. rewrite bool_decide_eq_false_2 by (destruct (pr_cur p); [done|by simpl]). exists ds. by rewrite fill_cur.
Qed.

Lemma read_all_ok fuel : ∀ n ds tail p,
  (∀ i, 0 < n i) → reading ds tail p → (length (pending ds p) < fuel)%nat →
  ∃ p', read_all fuel n p = Some (p', pending ds p, End_EOF) ∧ pr_r p' = tail.
Proof.
  induction fuel as [|fuel IH]; intros n ds tail p Hn Hr Hf; [lia|]. cbn [read_all]. unfold pr_Read.
  destruct (fill_frame (length (pr_r p)) ds tail p Hr) as [p' H]. case_bool_decide as Hp.
  - destruct H as [-> Ht]. rewrite Hp. eauto.
  - destruct H as (ds' & -> & Hr' & Hc & Hpend). cbn [pr_cur].
    set (q := mkPR _ _ _ _). assert (Hq : upto (n 0%nat) (pr_cur p') ++ pending ds' q = pending ds p).
    { rewrite <- Hpend. unfold pending, q. cbn. by rewrite (assoc_L (++)), upto_from. }
    assert (Hne : (0 < length (upto (n 0%nat) (pr_cur p')))%nat).
    { unfold upto. rewrite length_take. specialize (Hn 0%nat). destruct (pr_cur p'); [done|]. simpl. lia. }
    destruct (IH (λ i, n (S i)) ds' tail q) as (p'' & -> & Ht); [done|exact Hr'| |].
    + rewrite <- Hq, length_app in Hf. lia.
    + exists p''. by rewrite Hq.
Qed.

(** Frames round-trip: whatever follows it on the stream, a written frame
    is read back as the message that was written, and nothing of what follows
    is consumed. *)
Theorem frame_roundtrip m f tail : WriteMsg m = Ok f → ReadMsg (f ++ tail) = Ok (m, tail).
Proof. apply read_written. Qed.

(** Packs round-trip: a pack sent in data frames is read back byte for
    byte, however the reader's buffers are sized, and reading it to the end
    leaves the stream at the frame after the pack. No data frame carries more
    than [ChunkSize] bytes. *)
Theorem pack_roundtrip `{PackFormat} recs b tail n fuel :
  SendPackRecords recs = Ok b → (∀ i, 0 < n i) → (length (pack_bytes recs) < fuel)%nat →
  (∃ p, read_all fuel n (NewPackReader (b ++ tail)) = Some (p, pack_bytes recs, End_EOF) ∧ pr_r p = tail) ∧
  ∃ ds, pack_stream ds tail (b ++ tail) ∧ Forall (λ d, 0 < blen d <= ChunkSize) ds.
Proof.
  intros Hs Hn Hf. destruct (sent_stream recs b tail Hs) as (ds & Hp & Hc & Hsz). split; [|eauto].
  rewrite <- Hc in Hf |- *. destruct (read_all_ok fuel n ds tail (NewPackReader (b ++ tail))) as (p & Hr & Ht); [done|by split|done|eauto].
Qed.
End Frames.

(** ** A concrete codec, for data frames and their end *)

Global Instance RefInfo_eq_dec : EqDecision RefInfo.
Proof. solve_decision. Defined.
Global Instance DataEndpointRec_eq_dec : EqDecision DataEndpointRec.
Proof. solve_decision. Defined.
Global Instance Msg_eq_dec : EqDecision Msg.
Proof. solve_decision. Defined.

Definition tag_Marshal (m : Msg) : result string bytes :=
  if decide (m = msg_data (m_Data m)) then Ok ("d"%char :: m_Data m)
  else if decide (m = msg TDataEnd) then Ok ["e"%char] else Err "not a data frame".

Definition tag_Unmarshal (b : bytes) : result string Msg :=
  match b with
  | c :: b => if decide (c = "d"%char) then Ok (msg_data b) else Ok (msg TDataEnd)
  | [] => Err "empty frame"
  end.

Lemma tag_codec m b : tag_Marshal m = Ok b → tag_Unmarshal b = Ok m.
Proof.
  unfold tag_Marshal. case_decide as E1; [intros [= <-]; simpl; by rewrite <- E1|].
  case_decide as E2; [|done]. intros [= <-]. by rewrite E2.
Qed.

Definition tag_msgs : MsgLib := {| Marshal := tag_Marshal; Unmarshal := tag_Unmarshal; Unmarshal_Marshal := tag_codec |}.
Definition plain_pack : PackFormat := {| pw_add := λ r, Ok [r]; pw_close := [["!"%char]] |}.

Lemma frame_roundtrip_witness :
  ∃ f, @WriteMsg tag_msgs (msg_data ["x"; "y"]%char) = Ok f ∧ @ReadMsg tag_msgs (f ++ ["z"%char]) = Ok (msg_data ["x"; "y"]%char, ["z"%char]).
Proof. eexists. split; [vm_compute; reflexivity|]. apply (@frame_roundtrip tag_msgs). vm_compute. reflexivity. Defined.

Lemma pack_roundtrip_witness :
  ∃ b p, @SendPackRecords tag_msgs plain_pack [Ok ["x"; "y"]%char; Ok ["z"%char]] = Ok b ∧
    @read_all tag_msgs 9 (λ _, 1) (@NewPackReader (b ++ ["w"%char])) = Some (p, ["x"; "y"; "z"; "!"]%char, End_EOF) ∧ pr_r p = ["w"%char].
Proof.
  assert (E : ∃ b, @SendPackRecords tag_msgs plain_pack [Ok ["x"; "y"]%char; Ok ["z"%char]] = Ok b) by (eexists; vm_compute; reflexivity).
  destruct E as [b E].
  destruct (@pack_roundtrip tag_msgs plain_pack _ b ["w"%char] (λ _, 1) 9 E) as [(p & Hp) _]; [intros _; lia|simpl; lia|eauto].
Defined.
