(* ===== verification/Sync.v ===== *)
(** * The want loop (src/amberiroh/wantsync.go)

    The receiver of a transfer announces which keys it is missing, the sender
    answers each round with exactly those objects. The object store and the
    tree format are third-party code behind [PackStore]; the peer, the order in
    which concurrently decoded objects arrive and the transport's failures are
    inputs of the model. *)
From S2P Require Import Prelude GoLib Keys Wire LogBuf Frames.
From Stdlib Require Import Ascii SpecFloat.
Local Open Scope string_scope.
Local Open Scope list_scope.

(** A tree is complete in a store when its objects are there, all the way down. *)
Inductive complete `{KL : KeyLib} (get : Key → option string) (kids : Key → string → result string (list Key)) : Key → Prop :=
| complete_node k d ks : get k = Some d → kids k d = Ok ks → (∀ c, c ∈ ks → complete get kids c) → complete get kids k.

(** [CheckComplete] fails for want of an object, or because of a store fault. *)
Inductive check_err := MissingObject | CheckFault (e : string).

(** packstore and fstree: reading, the completeness walk, the verified parallel
    write (its error comes with how many objects it had taken), child keys. A
    write stores what it accepts and forgets nothing: keys are content hashes. *)
Class PackStore `{KL : KeyLib} := {
  PObjs : Type;
  po_Get : PObjs → Key → option string;
  po_Has : PObjs → Key → result string bool;
  po_Check : PObjs → Key → result check_err unit;
  po_Write : PObjs → list (Key * string) → PObjs * option (nat * string);
  po_Sort : PObjs → list Key → list Key;
  ChildKeys : Key → string → result string (list Key);
  po_Check_complete s k : po_Check s k = Ok tt → complete (po_Get s) ChildKeys k;
  po_Write_keeps s l s' r k d : po_Write s l = (s', r) → po_Get s k = Some d → po_Get s' k = Some d;
  po_Write_stores s l s' k d : po_Write s l = (s', None) → (k, d) ∈ l → po_Get s' k = Some d;
  po_Sort_perm s ks : po_Sort s ks ≡ₚ ks;
}.

Section Sync.
Context `{PS : PackStore}.

Definition maxWantsPerRound : nat := Z.to_nat (32 * 2 ^ 10).

Definition splitWants (wants : list Key) (max : nat) : list Key * list Key :=
  if bool_decide (length wants <= max)%nat then (wants, []) else (take max wants, drop max wants).

(** [Wants]: the keys of the frontier whose subtree is not complete, once each. *)
Fixpoint wants_from (st : PObjs) (seen : gset Key) (frontier : list Key) : result string (list Key) :=
  match frontier with
  | [] => Ok []
  | k :: ks =>
      if decide (k ∈ seen) then wants_from st seen ks
      else
        let rest := wants_from st ({[k]} ∪ seen) ks in
        let want := match rest with Ok w => Ok (k :: w) | Err e => Err e end in
        match po_Has st k with
        | Err e => Err e
        | Ok false => want
        | Ok true =>
            match po_Check st k with
            | Ok _ => rest
            | Err MissingObject => want
            | Err (CheckFault e) => Err e
            end
        end
  end.

Definition Wants (st : PObjs) (frontier : list Key) : result string (list Key) := wants_from st ∅ frontier.

Definition encodeKeys (ks : list Key) : list string := key_bytes <$> ks.

Fixpoint decodeKeys (bs : list string) : result string (list Key) :=
  match bs with
  | [] => Ok []
  | b :: bs =>
      match key_parse b with
      | None => Err "bad key"
      | Some k => match decodeKeys bs with Ok ks => Ok (k :: ks) | Err e => Err e end
      end
  end.

Definition keyBytes (ks : list Key) : Z := foldl (λ n k, i64 (n + key_Length k)) 0%Z ks.

(** ** Dealing wants across channels *)

(** Go's [float64]: IEEE binary64. *)
Definition f64 (z : Z) : spec_float := binary_normalize 53 1024 z 0 false.
Definition f64_div : spec_float → spec_float → spec_float := SFdiv 53 1024.
Definition f64_add : spec_float → spec_float → spec_float := SFadd 53 1024.

Definition shardWants (wants : list Key) (n : nat) : list (list Key) :=
  foldl (λ shards ik, alter (λ s, s ++ [snd ik]) (fst ik `mod` n)%nat shards) (replicate n []) (imap pair wants).

(** The channel with the lowest assigned-to-weight ratio, the lower index on a tie. *)
Definition lightest (assigned w : list spec_float) : nat :=
  let ratio i := f64_div (nth i assigned (f64 0)) (nth i w (f64 1)) in
  foldl (λ best i, if SFltb (ratio i) (ratio best) then i else best) O (seq 1 (length w - 1)).

Definition deal_one (w : list spec_float) (acc : list spec_float * list (list Key)) (k : Key) : list spec_float * list (list Key) :=
  let '(assigned, shards) := acc in
  let best := lightest assigned w in
  let bytes := f64 (key_Length k) in
  let bytes := if SFltb bytes (f64 1) then f64 1 else bytes in
  (alter (λ a, f64_add a bytes) best assigned, alter (λ s, s ++ [k]) best shards).

Definition dealWants (wants : list Key) (weights : list Z) : list (list Key) :=
  let n := length weights in
  if bool_decide (n = 1%nat) then [wants]
  else
    let w := (λ wt, f64 (if (wt <? 1)%Z then 1 else wt)) <$> weights in
    (foldl (deal_one w) (replicate n (f64 0), replicate n []) wants).2.

(** ** One round *)

Definition checkDelivered (received : gset Key) (wants : list Key) : result (nat * nat) unit :=
  let missing := length (List.filter (λ k, negb (bool_decide (k ∈ received))) wants) in
  if bool_decide (0 < missing)%nat then Err (missing, length wants) else Ok tt.

(** What the decoder of one channel takes off its pack before it ends (or is
    stopped because the writer gave up): objects, then perhaps a failure, with
    the remote error when the sender reported one inside the pack. *)
Record chan_reply := mkReply { cr_objs : list (Key * string); cr_fail : option (option RemoteError * string) }.

Record item := mkItem { it_key : Key; it_data : string; it_kids : list Key }.

(** A decoder: each object with its children, until one does not parse. *)
Fixpoint decode_objs (objs : list (Key * string)) : list item * option string :=
  match objs with
  | [] => ([], None)
  | (k, d) :: objs =>
      match ChildKeys k d with
      | Err e => ([], Some e)
      | Ok kids => let '(its, e) := decode_objs objs in (mkItem k d kids :: its, e)
      end
  end.

Definition decode_chan (r : chan_reply) : list item * (option RemoteError * option string) :=
  let '(its, e) := decode_objs (cr_objs r) in
  match e, cr_fail r with
  | Some e, _ => (its, (None, Some e))
  | None, Some (rem, e) => (its, (rem, Some e))
  | None, None => (its, (None, None))
  end.

(** The outside of one round: the failure of writing to a channel, the replies,
    the bytes read so far per channel, and the order in which the decoders hand
    their objects over (the numbers of the active channels, in turn). *)
Record round_env := mkRound {
  re_send : nat → option string;
  re_reply : nat → chan_reply;
  re_wire : list Z;
  re_sched : list nat }.

(** The merge of the decoders' streams in that order. *)
Fixpoint merge_by {A} (sched : list nat) (ls : list (list A)) : list A :=
  match sched with
  | [] => concat ls
  | i :: sched =>
      match ls !! i with
      | Some (x :: r) => x :: merge_by sched (<[i := r]> ls)
      | _ => merge_by sched ls
      end
  end.

Inductive recv_err :=
| RV_Store (e : string) | RV_Send (e : string) | RV_Remote (e : RemoteError) | RV_Decode (es : list string)
| RV_Write (e : string) | RV_Omitted (missing asked : nat).

Record Stats := mkStats { x_Rounds : Z; x_Requested : Z; x_Received : Z; x_Bytes : Z }.

(** Writing the non-empty shards to their channels; the first failure ends it. *)
Fixpoint send_shards (env : round_env) (i : nat) (shards : list (list Key)) : option string :=
  match shards with
  | [] => None
  | [] :: shards => send_shards env (S i) shards
  | _ :: shards => match re_send env i with Some e => Some e | None => send_shards env (S i) shards end
  end.

(** The channels that got a shard. *)
Fixpoint actives (i : nat) (shards : list (list Key)) : list nat :=
  match shards with
  | [] => []
  | [] :: shards => actives (S i) shards
  | _ :: shards => i :: actives (S i) shards
  end.

(** The round after the wants were sent: decode, merge, write, and judge the
    outcome in the order of the code. *)
Definition round_outcome (env : round_env) (st : PObjs) (wants : list Key) (shards : list (list Key)) :
    PObjs * nat * result recv_err (list Key) :=
  let decoded := (λ i, decode_chan (re_reply env i)) <$> actives 0 shards in
  let merged := merge_by (re_sched env) decoded.*1 in
  let '(st, werr) := po_Write st ((λ it, (it_key it, it_data it)) <$> merged) in
  let taken := match werr with Some (n, _) => take n merged | None => merged end in
  let received : gset Key := list_to_set (it_key <$> taken) in
  let r :=
    match omap (λ d : list item * (option RemoteError * option string), d.2.1) decoded with
    | rem :: _ => Err (RV_Remote rem)
    | [] =>
        match omap (λ d : list item * (option RemoteError * option string), d.2.2) decoded with
        | e :: es => Err (RV_Decode (e :: es))
        | [] =>
            match werr with
            | Some (_, e) => Err (RV_Write e)
            | None =>
                match checkDelivered received wants with
                | Err (m, n) => Err (RV_Omitted m n)
                | Ok _ => Ok (concat (it_kids <$> taken))
                end
            end
        end
    end in
  (st, size received, r).

(** The variables of the loop of [Receive] between two rounds: the wire bytes
    read per channel now and a round before, the frontier and the counters. *)
Record loop := mkLoop { lp_round : nat; lp_prev : list Z; lp_wire : list Z; lp_frontier : list Key; lp_stats : Stats }.

Definition loop_start (nch : nat) (root : Key) : loop := mkLoop 0 (replicate nch 0%Z) (replicate nch 0%Z) [root] (mkStats 0 0 0 0).

(** One turn of the loop: it goes on, or [Receive] returns. *)
Definition receive_round (peer : list (list Key) → round_env) (nch : nat) (lp : loop) (st : PObjs) :
    PObjs * (loop + Stats * result recv_err unit) :=
  let x := lp_stats lp in
  match Wants st (lp_frontier lp) with
  | Err e => (st, inr (x, Err (RV_Store e)))
  | Ok wants =>
      let '(wants, carry) := splitWants wants maxWantsPerRound in
      let x := mkStats (x_Rounds x + 1) (x_Requested x + Z.of_nat (length wants)) (x_Received x) (x_Bytes x) in
      match wants with
      | [] =>
          let env := peer (replicate nch []) in
          match omap (re_send env) (seq 0 nch) with
          | e :: _ => (st, inr (x, Err (RV_Send e)))
          | [] => (st, inr (mkStats (x_Rounds x) (x_Requested x) (x_Received x) (foldr Z.add 0%Z (lp_wire lp)), Ok tt))
          end
      | _ :: _ =>
          let shards := dealWants wants (zip_with (λ a b, i64 (a - b)) (lp_wire lp) (lp_prev lp)) in
          let env := peer shards in
          match send_shards env 0 shards with
          | Some e => (st, inr (x, Err (RV_Send e)))
          | None =>
              let '(st, n, r) := round_outcome env st wants shards in
              let x := mkStats (x_Rounds x) (x_Requested x) (x_Received x + Z.of_nat n) (x_Bytes x) in
              match r with
              | Err e => (st, inr (x, Err e))
              | Ok next => (st, inl (mkLoop (S (lp_round lp)) (lp_wire lp) (re_wire env) (next ++ carry) x))
              end
          end
      end
  end.

Fixpoint receive_loop (fuel : nat) (peer : nat → list (list Key) → round_env) (nch : nat) (lp : loop) (st : PObjs) :
    option (PObjs * Stats * result recv_err unit) :=
  match fuel with
  | O => None
  | S fuel =>
      match receive_round (peer (lp_round lp)) nch lp st with
      | (st, inl lp) => receive_loop fuel peer nch lp st
      | (st, inr (x, r)) => Some (st, x, r)
      end
  end.

(** [Receive]: rounds until nothing below the root is missing. *)
Definition Receive (fuel : nat) (peer : nat → list (list Key) → round_env) (nch : nat) (st : PObjs) (root : Key) :
    option (PObjs * Stats * result recv_err unit) :=
  receive_loop fuel peer nch (loop_start nch root) st.

(** ** The sender *)

Fixpoint dedupe_from (seen : gset Key) (ks : list Key) : list Key :=
  match ks with
  | [] => []
  | k :: ks => if decide (k ∈ seen) then dedupe_from seen ks else k :: dedupe_from ({[k]} ∪ seen) ks
  end.

Definition dedupeKeys (ks : list Key) : list Key := dedupe_from ∅ ks.

(** One answer of [Send]: the records of the requested keys, in the store's
    order, ended by the first that cannot be read. *)
Inductive send_result := SendDone | SendPack (objs : list (Key * string)) (fail : option string) | SendReject (e : string).

Fixpoint read_records (st : PObjs) (ks : list Key) : list (Key * string) * option string :=
  match ks with
  | [] => ([], None)
  | k :: ks =>
      match po_Get st k with
      | None => ([], Some ("object " +:+ key_String k))
      | Some d => let '(objs, e) := read_records st ks in ((k, d) :: objs, e)
      end
  end.

Definition Send_round (st : PObjs) (m : Msg) : send_result :=
  if (m_Type m =? TErr)%Z then SendReject (m_Text m)
  else if negb (m_Type m =? TWants)%Z then SendReject "protocol: unexpected frame"
  else match m_Keys m with
  | [] => SendDone
  | bs =>
      match decodeKeys bs with
      | Err e => SendReject e
      | Ok ks => let '(objs, e) := read_records st (po_Sort st (dedupeKeys ks)) in SendPack objs e
      end
  end.
End Sync.
