(* ===== verification/SyncFacts.v ===== *)
(** * What the want loop guarantees

    Whatever the peer sends, a transfer that succeeds leaves the whole tree in
    the store; with an honest sender it succeeds, within as many rounds as the
    tree has objects. *)
From S2P Require Import Prelude GoLib Keys Wire LogBuf Frames Sync.
From Stdlib Require Import Ascii SpecFloat.
Local Open Scope string_scope.
Local Open Scope list_scope.
#[local] Set Warnings "-register-all".

Lemma merge_by_perm {A} sched : ∀ ls : list (list A), merge_by sched ls ≡ₚ concat ls.
Proof.
  induction sched as [|i sched IH]; intros ls; simpl; [done|]. destruct (ls !! i) as [[|x r]|] eqn:E; [by apply IH| |by apply IH].
  rewrite IH. rewrite (insert_take_drop ls i r) by (by eapply lookup_lt_Some).
  rewrite <- (take_drop_middle ls i (x :: r) E) at 3. rewrite !concat_app. simpl. rewrite Permutation_middle. done.
Qed.

Lemma alter_snoc_perm {A} (k : A) i (ls : list (list A)) :
  (i < length ls)%nat → concat (alter (λ s, s ++ [k]) i ls) ≡ₚ k :: concat ls.
Proof.
  revert i. induction ls as [|s ls IH]; intros [|i] Hi; simpl in *; try lia.
  - rewrite <- (assoc_L (++)). simpl. by rewrite Permutation_middle.
  - etransitivity; [apply Permutation_app_head, (IH i); lia|]. by rewrite Permutation_middle.
Qed.

Section SyncFacts.
Context `{PS : PackStore}.

Abbreviation comp st := (complete (po_Get st) ChildKeys).

(** The objects of a store are still in a later one. *)
Definition grown (st st' : PObjs) : Prop := ∀ k d, po_Get st k = Some d → po_Get st' k = Some d.

Lemma complete_grown st st' k : grown st st' → comp st k → comp st' k.
Proof. intros Hg. induction 1 as [k d ks Hk Hks _ IH]. econstructor; eauto. Qed.

(** ** Wants *)

Lemma wants_from_spec st frontier : ∀ seen w, wants_from st seen frontier = Ok w →
  NoDup w ∧ (∀ k, k ∈ w → k ∈ frontier ∧ k ∉ seen) ∧ ∀ k, k ∈ frontier → k ∈ seen ∨ k ∈ w ∨ comp st k.
Proof.
  induction frontier as [|k ks IH]; intros seen w; cbn [wants_from].
  { intros [= <-]. split_and!; [constructor|by intros ? ?%elem_of_nil..]. }
  case_decide as Hs.
  { intros (H1 & H2 & H3)%IH. split_and!; [done| |].
    - intros x Hx. destruct (H2 x Hx). split; [by right|done].
    - intros x [->|Hx]%elem_of_cons; [by left|by apply H3]. }
  destruct (wants_from st ({[k]} ∪ seen) ks) as [w'|e] eqn:E.
  2: { destruct (po_Has st k) as [[]|]; [|done..]. by destruct (po_Check st k) as [|[]]. }
  destruct (IH _ _ E) as (H1 & H2 & H3).
  assert (Hwant : NoDup (k :: w') ∧ (∀ x, x ∈ k :: w' → x ∈ k :: ks ∧ x ∉ seen) ∧ ∀ x, x ∈ k :: ks → x ∈ seen ∨ x ∈ k :: w' ∨ comp st x).
  { split_and!.
    - constructor; [|done]. intros Hk. destruct (H2 k Hk). set_solver.
    - intros x [->|Hx]%elem_of_cons; [split; [left|done]|]. destruct (H2 x Hx). split; [by right|set_solver].
    - intros x [->|Hx]%elem_of_cons; [right; left; left|]. destruct (H3 x Hx) as [?|[?|?]]; [|right; left; by right|by do 2 right].
      destruct (decide (x = k)) as [->|]; [right; left; left|left; set_solver]. }
  destruct (po_Has st k) as [[]|]; [|by intros [= <-]|done].
  destruct (po_Check st k) as [[]|[]] eqn:Ec; [|by intros [= <-]|done]. intros [= <-]. apply po_Check_complete in Ec. split_and!; [done| |].
  - intros x Hx. destruct (H2 x Hx). split; [by right|set_solver].
  - intros x [->|Hx]%elem_of_cons; [by do 2 right|]. destruct (H3 x Hx) as [?|[?|?]]; [|by right; left|by do 2 right].
    destruct (decide (x = k)) as [->|]; [by do 2 right|left; set_solver].
Qed.

Lemma split_app wants max a b : splitWants wants max = (a, b) → a ++ b = wants.
Proof. unfold splitWants. case_bool_decide; intros [= <- <-]; [apply app_nil_r|apply take_drop]. Qed.

(** ** Dealing *)

Lemma lightest_lt assigned w : w ≠ [] → (lightest assigned w < length w)%nat.
Proof.
  intros Hw. unfold lightest. set (pick := λ best i, _).
  assert (H : ∀ l best, Forall (λ i, i < length w)%nat l → (best < length w)%nat → (foldl pick best l < length w)%nat).
  { induction l as [|i l IH]; intros best Hl Hb; simpl; [done|]. inv Hl. apply IH; [done|]. unfold pick. by case_match. }
  apply H; [|destruct w; [done|simpl; lia]]. apply Forall_forall. intros i Hi%elem_of_seq. destruct w; [done|simpl in *; lia].
Qed.

Lemma deal_fold w wants : ∀ assigned shards, w ≠ [] → length shards = length w →
  let r := (foldl (deal_one w) (assigned, shards) wants).2 in
  length r = length w ∧ concat r ≡ₚ wants ++ concat shards.
Proof.
  induction wants as [|k ks IH]; intros assigned shards Hw Hl; cbn [foldl]; [done|].
  set (best := lightest assigned w). set (assigned' := (deal_one w (assigned, shards) k).1).
  change (deal_one w (assigned, shards) k) with (assigned', alter (λ s, s ++ [k]) best shards).
  destruct (IH assigned' (alter (λ s, s ++ [k]) best shards) Hw) as [H1 H2].
  { by rewrite length_alter. }
  split; [done|]. rewrite H2, alter_snoc_perm by (rewrite Hl; by apply lightest_lt). simpl. by rewrite Permutation_middle.
Qed.

Lemma concat_replicate_nil {A} n : concat (replicate n ([] : list A)) = [].
Proof. by induction n. Qed.

Lemma deal_spec wants weights : weights ≠ [] →
  length (dealWants wants weights) = length weights ∧ concat (dealWants wants weights) ≡ₚ wants.
Proof.
  intros Hw. unfold dealWants. case_bool_decide as H1; [rewrite H1; simpl; by rewrite app_nil_r|].
  set (w := _ <$> weights). assert (Hl : length w = length weights) by apply length_fmap.
  destruct (deal_fold w wants (replicate (length weights) (f64 0)) (replicate (length weights) [])) as [H2 H3].
  - intros E%(f_equal length). rewrite Hl in E. by apply Hw, nil_length_inv.
  - by rewrite length_replicate.
  - rewrite concat_replicate_nil, app_nil_r in H3. split; [by etransitivity|done].
Qed.

(** ** One round *)

Definition item_ok (it : item) : Prop := ChildKeys (it_key it) (it_data it) = Ok (it_kids it).

Lemma decode_objs_ok objs : Forall item_ok (decode_objs objs).1.
Proof.
  induction objs as [|[k d] objs IH]; simpl; [constructor|]. destruct (ChildKeys k d) eqn:E; [|constructor].
  destruct (decode_objs objs). by constructor.
Qed.

Lemma decode_chan_ok r : Forall item_ok (decode_chan r).1.
Proof.
  unfold decode_chan. pose proof (decode_objs_ok (cr_objs r)). destruct (decode_objs _) as [its []]; [done|].
  destruct (cr_fail r) as [[]|]; done.
Qed.

Lemma delivered_all received wants : checkDelivered received wants = Ok tt → ∀ k, k ∈ wants → k ∈ received.
Proof.
  unfold checkDelivered. case_bool_decide as H; [done|]. intros _ k Hk. destruct (decide (k ∈ received)) as [|Hn]; [done|].
  destruct H. assert (Hin : k ∈ List.filter (λ k, negb (bool_decide (k ∈ received))) wants).
  { apply list_elem_of_In, filter_In. split; [by apply list_elem_of_In|]. by rewrite bool_decide_eq_false_2. }
  destruct (List.filter _ wants); [by apply elem_of_nil in Hin|simpl; lia].
Qed.

Lemma round_grown env st wants shards st' n r : round_outcome env st wants shards = (st', n, r) → grown st st'.
Proof.
  unfold round_outcome. destruct (po_Write _ _) as [st1 werr] eqn:E. intros [= <- _ _] k d. by eapply po_Write_keeps.
Qed.

(** After a good round every wanted object is stored and its children are next. *)
Lemma round_ok env st wants shards st' n next : round_outcome env st wants shards = (st', n, Ok next) →
  ∀ k, k ∈ wants → ∃ d ks, po_Get st' k = Some d ∧ ChildKeys k d = Ok ks ∧ ks ⊆ next.
Proof.
  unfold round_outcome. set (merged := merge_by _ _). destruct (po_Write _ _) as [st1 werr] eqn:E.
  destruct (omap _ _) as [|]; [|done]. destruct (omap _ _) as [|]; [|done]. destruct werr as [[]|]; [done|].
  destruct (checkDelivered _ _) as [[]|[]] eqn:Ed; [|done]. intros [= <- _ <-] k Hk.
  pose proof (delivered_all _ _ Ed k Hk) as Hr. apply elem_of_list_to_set, list_elem_of_fmap in Hr as (it & -> & Hit).
  assert (Hok : Forall item_ok merged).
  { eapply Permutation_Forall; [symmetry; apply merge_by_perm|]. apply Forall_concat, Forall_forall. intros its Hin.
    apply list_elem_of_fmap in Hin as (d & -> & Hd). apply list_elem_of_fmap in Hd as (i & -> & _). apply decode_chan_ok. }
  exists (it_data it), (it_kids it). split_and!.
  - eapply po_Write_stores; [done|]. apply list_elem_of_fmap. eauto.
  - by eapply (proj1 (Forall_forall _ _) Hok).
  - intros c Hc. apply list_elem_of_In, in_concat. exists (it_kids it). split; [|by apply list_elem_of_In].
    apply list_elem_of_In, list_elem_of_fmap. eauto.
Qed.

(** ** Soundness: whatever the peer does *)

Lemma split_none wants carry max : (0 < max)%nat → splitWants wants max = ([], carry) → wants = [].
Proof.
  intros Hm. unfold splitWants. case_bool_decide as H; [by intros [= -> _]|]. intros [= E _]. destruct wants; [done|].
  destruct max; [lia|done].
Qed.

Lemma max_pos : (0 < maxWantsPerRound)%nat.
Proof. unfold maxWantsPerRound. lia. Qed.
#[local] Opaque maxWantsPerRound.

(** Storing everything at or below [frontier] would complete the root. *)
Definition owes (st : PObjs) (frontier : list Key) (root : Key) : Prop :=
  ∀ st', grown st st' → (∀ k, k ∈ frontier → comp st' k) → comp st' root.

Lemma grown_refl st : grown st st.
Proof. by intros ? ?. Qed.
Lemma grown_trans a b c : grown a b → grown b c → grown a c.
Proof. intros H1 H2 k d ?. by apply H2, H1. Qed.

Lemma owes_grown st st' fr root : grown st st' → owes st fr root → owes st' fr root.
Proof. intros Hg Ho st1 Hg1. apply Ho. by eapply grown_trans. Qed.

(** One round keeps what the loop owes, and a round that ends the loop well
    leaves the root complete; whatever the peer does. *)
Lemma receive_round_sound peer nch lp st st' o root :
  receive_round peer nch lp st = (st', o) → owes st (lp_frontier lp) root →
  grown st st' ∧ match o with inl lp' => owes st' (lp_frontier lp') root | inr (_, r) => r = Ok tt → comp st' root end.
Proof.
  unfold receive_round. destruct (Wants st _) as [w|e] eqn:Ew; [|intros [= <- <-] _; split; [apply grown_refl|done]].
  destruct (wants_from_spec _ _ _ _ Ew) as (_ & _ & Hw). destruct (splitWants w maxWantsPerRound) as [wants carry] eqn:Es.
  destruct wants as [|k0 ks0].
  { apply (split_none _ _ _ max_pos) in Es. subst w. destruct (omap _ _); intros [= <- <-] Ho; (split; [apply grown_refl|]); [|done].
    intros _. apply Ho; [apply grown_refl|]. intros k Hk. destruct (Hw k Hk) as [?|[?%elem_of_nil|?]]; [set_solver|done..]. }
  apply split_app in Es. remember (k0 :: ks0) as wants. clear Heqwants.
  set (shards := dealWants _ _). destruct (send_shards _ 0 shards); [intros [= <- <-] _; split; [apply grown_refl|done]|].
  destruct (round_outcome _ st wants shards) as [[st1 n] [next|e]] eqn:Er; intros [= <- <-] Ho;
    pose proof (round_grown _ _ _ _ _ _ _ Er) as Hg1; (split; [done|]); [|done].
  cbn [lp_frontier]. intros st2 Hg2 Hc. apply Ho; [by eapply grown_trans|]. intros k Hk.
  destruct (Hw k Hk) as [?|[Hin|Hdone]]; [set_solver| |].
  - rewrite <- Es in Hin. apply elem_of_app in Hin as [Hin|Hin]; [|apply Hc, elem_of_app; by right].
    destruct (round_ok _ _ _ _ _ _ _ Er k Hin) as (d & ks & Hd & Hks & Hsub). econstructor; [by eapply Hg2|done|].
    intros c Hcin. apply Hc, elem_of_app. left. by apply Hsub.
  - eapply complete_grown, Hdone. by eapply grown_trans.
Qed.

Lemma receive_loop_sound fuel peer nch root : ∀ lp st st' x r,
  owes st (lp_frontier lp) root → receive_loop fuel peer nch lp st = Some (st', x, r) →
  grown st st' ∧ (r = Ok tt → comp st' root).
Proof.
  induction fuel as [|fuel IH]; intros lp st st' x r Ho; [done|]. cbn [receive_loop].
  destruct (receive_round _ nch lp st) as [st1 [lp1|[x1 r1]]] eqn:E; destruct (receive_round_sound _ _ _ _ _ _ root E Ho) as [Hg Hk].
  - intros [Hg1 H1]%IH; [|done]. split; [by eapply grown_trans|done].
  - by intros [= <- <- <-].
Qed.

Lemma start_owes st nch root : owes st (lp_frontier (loop_start nch root)) root.
Proof. intros st' _ H. apply H. left. Qed.

(** A transfer that succeeds is complete: whatever the peer sent, in
    whatever order and over however many channels, when [Receive] reports
    success the whole tree below the root is in the store, and nothing that was
    there before has gone. *)
Theorem receive_complete fuel peer nch st root st' x :
  Receive fuel peer nch st root = Some (st', x, Ok tt) → comp st' root ∧ grown st st'.
Proof. intros [Hg Hc]%(receive_loop_sound _ _ _ root); [by split; [apply Hc|]|apply start_owes]. Qed.

(** Dealing loses nothing: the shards of a round, one per channel, hold
    exactly the wanted keys, whatever throughput the channels showed. *)
Theorem deal_partition wants weights : weights ≠ [] →
  length (dealWants wants weights) = length weights ∧ concat (dealWants wants weights) ≡ₚ wants.
Proof. apply deal_spec. Qed.

(** ** Termination with an honest sender *)

(** The number of objects of a tree, counted with repetition. *)
Inductive weighs (st : PObjs) : Key → nat → Prop :=
| weighs_node k d ks ns : po_Get st k = Some d → ChildKeys k d = Ok ks → Forall2 (weighs st) ks ns → weighs st k (S (sum_list ns)).

Definition total (st : PObjs) (ks : list Key) (n : nat) : Prop := ∃ ns, Forall2 (weighs st) ks ns ∧ sum_list ns = n.

Lemma weighs_inv st k n : weighs st k n →
  ∃ d ks ns, po_Get st k = Some d ∧ ChildKeys k d = Ok ks ∧ Forall2 (weighs st) ks ns ∧ n = S (sum_list ns).
Proof. destruct 1. naive_solver. Qed.

Lemma complete_weighs st k : comp st k → ∃ n, weighs st k n.
Proof.
  induction 1 as [k d ks Hd Hks _ IH]. assert (H : ∃ ns, Forall2 (weighs st) ks ns).
  { clear Hks. induction ks as [|c ks IHks]; [exists []; constructor|]. destruct (IH c) as [n Hn]; [left|].
    destruct IHks as [ns Hns]; [intros x Hx; apply IH; by right|]. exists (n :: ns). by constructor. }
  destruct H as [ns Hns]. eexists. by econstructor.
Qed.

Lemma total_perm st ks ks' n : ks ≡ₚ ks' → total st ks n → total st ks' n.
Proof.
  intros Hp. revert n. induction Hp as [|k ks ks' _ IH|a b ks|ks1 ks2 ks3 _ IH1 _ IH2]; intros n; [done| | |by eauto].
  - intros (ns & Hf & <-). inv Hf as [|? m ? ms Hm Hms]. destruct (IH (sum_list ms)) as (ms' & Hms' & E); [by exists ms|].
    exists (m :: ms'). split; [by constructor|]. simpl. lia.
  - intros (ns & Hf & <-). inv Hf as [|? m ? ms Hm Hms]. inv Hms as [|? m' ? ms' Hm' Hms'].
    exists (m' :: m :: ms'). split; [by repeat constructor|]. simpl. lia.
Qed.

Lemma total_app st a b n : total st (a ++ b) n ↔ ∃ na nb, total st a na ∧ total st b nb ∧ (na + nb)%nat = n.
Proof.
  split.
  - intros (ns & Hf & <-). apply Forall2_app_inv_l in Hf as (na & nb & Ha & Hb & ->). exists (sum_list na), (sum_list nb).
    split_and!; [by exists na|by exists nb|]. by rewrite sum_list_with_app.
  - intros (? & ? & (na & Ha & <-) & (nb & Hb & <-) & <-). exists (na ++ nb). split; [by apply Forall2_app|apply sum_list_with_app].
Qed.

Lemma total_sublist st a b n : a `sublist_of` b → total st b n → ∃ m, total st a m ∧ (m <= n)%nat.
Proof.
  intros Hs. revert n. induction Hs as [|k a b _ IH|k a b _ IH]; intros n.
  - eauto.
  - intros (ns & Hf & <-). inv Hf as [|? m ? ms Hm Hms]. destruct (IH (sum_list ms)) as (p & (ps & Hps & <-) & Hle); [by exists ms|].
    exists (sum_list (m :: ps)). split; [exists (m :: ps); split; [by constructor|done]|simpl; lia].
  - intros (ns & Hf & <-). inv Hf as [|? m ? ms Hm Hms]. destruct (IH (sum_list ms)) as (p & Hp & Hle); [by exists ms|].
    exists p. split; [done|simpl; lia].
Qed.

Lemma total_elem st ks n k : total st ks n → k ∈ ks → ∃ m, weighs st k m.
Proof.
  intros (ns & Hf & _) Hk. induction Hf as [|a m ks ns Ham _ IH]; [by apply elem_of_nil in Hk|].
  apply elem_of_cons in Hk as [->|Hk]; eauto.
Qed.

Lemma wants_sublist st frontier : ∀ seen w, wants_from st seen frontier = Ok w → w `sublist_of` frontier.
Proof.
  induction frontier as [|k ks IH]; intros seen w; cbn [wants_from]; [by intros [= <-]|].
  case_decide as Hs; [intros H%IH; by constructor|]. destruct (wants_from st ({[k]} ∪ seen) ks) as [w'|e] eqn:E.
  2: { destruct (po_Has st k) as [[]|]; [|done..]. by destruct (po_Check st k) as [|[]]. }
  apply IH in E. destruct (po_Has st k) as [[]|]; [|intros [= <-]; by constructor|done].
  destruct (po_Check st k) as [|[]]; [intros [= <-]; by constructor|intros [= <-]; by constructor|done].
Qed.

(** *** An honest round *)

Lemma dedupe_nodup seen ks : NoDup ks → (∀ k, k ∈ ks → k ∉ seen) → dedupe_from seen ks = ks.
Proof.
  revert seen. induction ks as [|k ks IH]; intros seen Hn Hs; simpl; [done|]. inv Hn. rewrite decide_False by (apply Hs; left).
  f_equal. apply IH; [done|]. intros x Hx. assert (x ≠ k) by (by intros ->). pose proof (Hs x ltac:(by right)). set_solver.
Qed.

Lemma decode_encode_keys ks : decodeKeys (encodeKeys ks) = Ok ks.
Proof. induction ks as [|k ks IH]; simpl; [done|]. by rewrite key_parse_bytes, IH. Qed.

(** An item whose object is the sender's. *)
Definition src_item (src : PObjs) (it : item) : Prop := po_Get src (it_key it) = Some (it_data it) ∧ item_ok it.

Lemma sent_items src ks : (∀ k, k ∈ ks → ∃ m, weighs src k m) →
  ∃ objs its, read_records src ks = (objs, None) ∧ decode_objs objs = (its, None) ∧ it_key <$> its = ks ∧ Forall (src_item src) its ∧
    ∀ o, o ∈ objs → po_Get src o.1 = Some o.2.
Proof.
  induction ks as [|k ks IH]; intros Hw; [exists [], []; repeat split; [constructor|by intros ? ?%elem_of_nil]|].
  destruct IH as (objs & its & E1 & E2 & E3 & E4 & E5); [intros x Hx; apply Hw; by right|].
  destruct (Hw k ltac:(left)) as [m Hm]. inv Hm as [? d kids ns Hd Hk Hns]. exists ((k, d) :: objs), (mkItem k d kids :: its). simpl.
  rewrite Hd, E1. cbn [decode_objs]. rewrite Hk, E2. split_and!; [done|done|by f_equal|by constructor|].
  intros o [->|Ho]%elem_of_cons; [done|by apply E5].
Qed.

(** What an honest sender answers to a shard. *)
Definition honest_reply (src : PObjs) (shard : list Key) : chan_reply :=
  match Send_round src (msg_keys (encodeKeys shard)) with
  | SendPack objs e => mkReply objs ((λ e, (Some (mkRemote CodeInternal e ""), e)) <$> e)
  | _ => mkReply [] None
  end.

Lemma honest_items src shard : shard ≠ [] → NoDup shard → (∀ k, k ∈ shard → ∃ m, weighs src k m) →
  ∃ its, decode_chan (honest_reply src shard) = (its, (None, None)) ∧ it_key <$> its ≡ₚ shard ∧ Forall (src_item src) its.
Proof.
  intros Hne Hn Hw. unfold honest_reply, Send_round. cbn [m_Type msg_keys m_Keys].
  change (TWants =? TErr)%Z with false. change (TWants =? TWants)%Z with true. cbn [negb].
  destruct (encodeKeys shard) as [|b bs] eqn:Eb; [by destruct shard|]. rewrite <- Eb, decode_encode_keys.
  unfold dedupeKeys. rewrite dedupe_nodup by (done || set_solver).
  destruct (sent_items src (po_Sort src shard)) as (objs & its & E1 & E2 & E3 & E4 & _).
  { intros k Hk. apply Hw. by rewrite po_Sort_perm in Hk. }
  rewrite E1. exists its. unfold decode_chan. simpl. rewrite E2. split_and!; [done| |done]. rewrite E3. apply po_Sort_perm.
Qed.

(** The peer answers every shard honestly and the transport does not fail. *)
Record honest (src : PObjs) (nch : nat) (peer : nat → list (list Key) → round_env) : Prop := {
  h_send r shards i : re_send (peer r shards) i = None;
  h_wire r shards : length (re_wire (peer r shards)) = nch;
  h_reply r shards i shard : shards !! i = Some shard → re_reply (peer r shards) i = honest_reply src shard }.

(** The receiver's store reads without faults and accepts the sender's objects. *)
Record healthy (src : PObjs) : Prop := {
  h_has st k : ∃ b, po_Has st k = Ok b;
  h_check st k e : po_Check st k ≠ Err (CheckFault e);
  h_write st l : (∀ o, o ∈ l → po_Get src o.1 = Some o.2) → ∃ st', po_Write st l = (st', None) }.

Lemma send_shards_none env shards : (∀ i, re_send env i = None) → ∀ i, send_shards env i shards = None.
Proof. intros H. induction shards as [|[|k s] shards IH]; intros i; simpl; [done|done|]. by rewrite H. Qed.

Lemma honest_decoded src env shards : ∀ o,
  (∀ j shard, shards !! j = Some shard → re_reply env (o + j)%nat = honest_reply src shard) →
  NoDup (concat shards) → (∀ k, k ∈ concat shards → ∃ m, weighs src k m) →
  ∃ itss, (λ i, decode_chan (re_reply env i)) <$> actives o shards = (λ its, (its, (None, None))) <$> itss ∧
    it_key <$> concat itss ≡ₚ concat shards ∧ Forall (src_item src) (concat itss).
Proof.
  induction shards as [|s shards IH]; intros o Hr Hn Hw; [by exists []|]. simpl in Hn, Hw.
  apply NoDup_app in Hn as (Hs & _ & Hn). destruct (IH (S o)) as (itss & E1 & E2 & E3); [|done|intros k Hk; apply Hw, elem_of_app; by right|].
  { intros j shard Hj. replace (S o + j)%nat with (o + S j)%nat by lia. by apply (Hr (S j)). }
  destruct s as [|k s]; [by exists itss|]. remember (k :: s) as shard. assert (Ha : actives o (shard :: shards) = o :: actives (S o) shards) by (by subst).
  rewrite Ha. destruct (honest_items src shard) as (its & F1 & F2 & F3); [by subst|done|intros x Hx; apply Hw, elem_of_app; by left|].
  exists (its :: itss). split_and!.
  - rewrite !fmap_cons, E1. f_equal. rewrite <- F1. f_equal. rewrite <- (Nat.add_0_r o). by apply (Hr 0%nat).
  - simpl. by rewrite fmap_app, F2, E2.
  - simpl. by apply Forall_app.
Qed.

Lemma omap_none {A B C} (f : A → B) (g : B → option C) l : (∀ x, g (f x) = None) → omap g (f <$> l) = [].
Proof. intros H. induction l as [|x l IH]; [done|]. cbn. rewrite H. exact IH. Qed.

(** The children of the objects of a list weigh one less each. *)
Lemma kids_total src its n : Forall (src_item src) its → total src (it_key <$> its) n →
  ∃ m, total src (concat (it_kids <$> its)) m ∧ (m + length its)%nat = n.
Proof.
  intros Hi. revert n. induction Hi as [|it its [Hd Hk] _ IH]; intros n (ns & Hf & <-).
  - inv Hf. exists 0%nat. split; [by exists []|done].
  - rewrite fmap_cons in Hf. inv Hf as [|? w ? ws Hw Hws]. destruct (IH (sum_list ws)) as (m & Hm & Em); [by exists ws|].
    apply weighs_inv in Hw as (d & ks & ns & Hd' & Hk' & Hns & ->). assert (d = it_data it) as -> by congruence. unfold item_ok in Hk. assert (ks = it_kids it) as -> by congruence.
    exists (sum_list ns + m)%nat. split; [|simpl; lia]. simpl. apply total_app. exists (sum_list ns), m. split_and!; [by exists ns|done..].
Qed.

Lemma honest_round src nch peer round st wants weights n :
  honest src nch peer → healthy src → weights ≠ [] → NoDup wants → total src wants n →
  let shards := dealWants wants weights in
  ∃ st' c next m, round_outcome (peer round shards) st wants shards = (st', c, Ok next) ∧ total src next m ∧ (m + length wants)%nat = n.
Proof.
  intros Hh Hy Hwt Hn Ht shards. destruct (deal_spec wants weights Hwt) as [_ Hp]. fold shards in Hp.
  destruct (honest_decoded src (peer round shards) shards 0) as (itss & E1 & E2 & E3).
  { intros j shard Hj. by eapply h_reply. } { by rewrite Hp. } { intros k Hk. eapply total_elem; [done|]. by rewrite <- Hp. }
  unfold round_outcome. rewrite E1. set (merged := merge_by _ _).
  assert (Hm : merged ≡ₚ concat itss). { unfold merged. rewrite merge_by_perm, <- list_fmap_compose. by rewrite list_fmap_id. }
  assert (Hok : Forall (src_item src) merged) by (by rewrite Hm).
  destruct (h_write src Hy st ((λ it, (it_key it, it_data it)) <$> merged)) as [st' ->].
  { intros o Ho. apply list_elem_of_fmap in Ho as (it & -> & Hit). by eapply (proj1 (Forall_forall _ _) Hok). }
  rewrite !omap_none by done. assert (Hk : it_key <$> merged ≡ₚ wants) by (by rewrite Hm, E2, Hp).
  destruct (checkDelivered _ wants) as [[]|[a b]] eqn:Ed.
  - destruct (kids_total src merged n Hok) as (m & Hmt & Em); [by eapply total_perm|]. eexists _, _, _, m. split_and!; [done|done|].
    rewrite <- Em. f_equal. by rewrite <- (length_fmap it_key merged), Hk.
  - exfalso. revert Ed. unfold checkDelivered. case_bool_decide as Hpos; [|done]. intros _.
    assert (Hf : List.filter (λ k, negb (bool_decide (k ∈ (list_to_set (it_key <$> merged) : gset Key)))) wants = []); [|rewrite Hf in Hpos; simpl in Hpos; lia].
    destruct (List.filter _ wants) as [|k l] eqn:Ef; [done|]. assert (Hin : In k (k :: l)) by (by left). rewrite <- Ef in Hin.
    apply filter_In in Hin as [Hin Hb]. apply negb_true_iff, bool_decide_eq_false in Hb. destruct Hb.
    apply elem_of_list_to_set. rewrite Hk. by apply list_elem_of_In.
Qed.

Lemma healthy_wants src st frontier : healthy src → ∀ seen, ∃ w, wants_from st seen frontier = Ok w.
Proof.
  intros Hy. induction frontier as [|k ks IH]; intros seen; cbn [wants_from]; [eauto|]. case_decide; [apply IH|].
  destruct (IH ({[k]} ∪ seen)) as [w ->]. destruct (h_has src Hy st k) as [[] ->]; [|eauto].
  pose proof (h_check src Hy st k). destruct (po_Check st k) as [|[]]; [eauto|eauto|naive_solver].
Qed.

Lemma receive_loop_total src nch peer (Hh : honest src nch peer) (Hy : healthy src) (Hc : (0 < nch)%nat) fuel :
  ∀ lp st n, length (lp_prev lp) = nch → length (lp_wire lp) = nch → total src (lp_frontier lp) n → (n < fuel)%nat →
  ∃ st' x', receive_loop fuel peer nch lp st = Some (st', x', Ok tt).
Proof.
  induction fuel as [|fuel IH]; intros lp st n Hp Hw Ht Hf; [lia|]. cbn [receive_loop]. unfold receive_round.
  destruct (healthy_wants src st (lp_frontier lp) Hy ∅) as [w Ew]. unfold Wants. rewrite Ew.
  destruct (wants_from_spec _ _ _ _ Ew) as (Hn & _ & _).
  destruct (total_sublist src w _ n (wants_sublist _ _ _ _ Ew) Ht) as (m & Hm & Hmn).
  destruct (splitWants w maxWantsPerRound) as [wants carry] eqn:Es. destruct wants as [|k0 ks0].
  { replace (omap _ _) with (@nil string); [eauto|]. symmetry. rewrite <- (list_fmap_id (seq 0 nch)). apply omap_none. intros i. by eapply h_send. }
  apply split_app in Es. rewrite <- Es in Hn, Hm. apply NoDup_app in Hn as (Hn & _ & _). apply total_app in Hm as (m1 & m2 & Hm1 & Hm2 & Em).
  remember (k0 :: ks0) as wants eqn:Ek.
  destruct (honest_round src nch peer (lp_round lp) st wants (zip_with (λ a b, i64 (a - b)) (lp_wire lp) (lp_prev lp)) m1 Hh Hy) as (st' & c & next & m' & -> & Hnext & Em'); [|done|done|].
  { intros E%(f_equal length). rewrite length_zip_with, Hp, Hw in E. simpl in E. lia. }
  rewrite send_shards_none by (intros i; by eapply h_send).
  eapply (IH _ _ (m' + m2)%nat); [done|by eapply h_wire| |].
  - apply total_app. eauto.
  - subst wants. simpl in Em'. lia.
Qed.

(** [C35] The loop ends: with an honest sender that has the whole tree, and a
    store without faults, [Receive] succeeds within one round more than the
    tree has objects, over any number of channels and from whatever was already
    there, and the tree is then complete. *)
Theorem receive_terminates src nch peer st root :
  honest src nch peer → healthy src → (0 < nch)%nat → comp src root →
  ∃ n st' x, weighs src root n ∧ Receive (S n) peer nch st root = Some (st', x, Ok tt) ∧ comp st' root.
Proof.
  intros Hh Hy Hc [n Hn]%complete_weighs. exists n.
  destruct (receive_loop_total src nch peer Hh Hy Hc (S n) (loop_start nch root) st n) as (st' & x & E).
  - apply length_replicate. - apply length_replicate. - exists [n]. split; [by repeat constructor|simpl; lia]. - lia.
  - exists st', x. split_and!; [done|done|]. by apply (receive_loop_sound _ _ _ root) in E as [_ E]; [apply E|apply start_owes].
Qed.
End SyncFacts.

(** ** A concrete store: an object's content is its key, its child the rest of it *)

Definition chain_kids (k d : string) : result string (list string) :=
  match k with EmptyString => Ok [] | String _ r => Ok [r] end.

Fixpoint chain_check (s : gset string) (k : string) : result check_err unit :=
  if decide (k ∈ s) then match k with EmptyString => Ok tt | String _ r => chain_check s r end else Err MissingObject.

Definition chain_get (s : gset string) (k : string) : option string := if decide (k ∈ s) then Some k else None.

Fixpoint chain_write (n : nat) (s : gset string) (l : list (string * string)) : gset string * option (nat * string) :=
  match l with
  | [] => (s, None)
  | (k, d) :: l => if String.eqb k d then chain_write (S n) ({[k]} ∪ s) l else (s, Some (n, "verify"))
  end.

Lemma chain_check_ok s k : chain_check s k = Ok tt → @complete string_keys (chain_get s) chain_kids k.
Proof.
  induction k as [|a k IH]; simpl; case_decide as Hk; try done; intros H;
    (eapply (complete_node (KL := string_keys)); [unfold chain_get; by rewrite decide_True by done|reflexivity|]).
  - by intros c ?%elem_of_nil.
  - intros c ->%list_elem_of_singleton. by apply IH.
Qed.

Lemma chain_write_keeps l : ∀ n s s' r k d, chain_write n s l = (s', r) → chain_get s k = Some d → chain_get s' k = Some d.
Proof.
  induction l as [|[a b] l IH]; intros n s s' r k d; simpl; [by intros [= <- _]|]. destruct (String.eqb a b); [|by intros [= <- _]].
  intros H Hg. eapply IH; [done|]. unfold chain_get in *. case_decide; [|done]. by rewrite decide_True by set_solver.
Qed.

Lemma chain_write_stores l : ∀ n s s' k d, chain_write n s l = (s', None) → (k, d) ∈ l → chain_get s' k = Some d.
Proof.
  induction l as [|[a b] l IH]; intros n s s' k d; simpl; [by intros _ ?%elem_of_nil|]. destruct (String.eqb_spec a b) as [->|]; [|done].
  intros H [[= -> ->]|Hin]%elem_of_cons; [|by eapply IH]. eapply chain_write_keeps; [done|]. unfold chain_get. by rewrite decide_True by set_solver.
Qed.

Definition chain_store : @PackStore string_keys := {|
  PObjs := gset string;
  po_Get := chain_get : gset string → @Key string_keys → option string;
  po_Has := λ s (k : @Key string_keys), Ok (bool_decide (k ∈ s));
  po_Check := chain_check : gset string → @Key string_keys → _;
  po_Write := chain_write 0 : gset string → list (@Key string_keys * string) → _;
  po_Sort := λ _ ks, ks;
  ChildKeys := chain_kids : @Key string_keys → string → result string (list (@Key string_keys));
  po_Check_complete := chain_check_ok;
  po_Write_keeps := λ s l, chain_write_keeps l 0 s;
  po_Write_stores := λ s l, chain_write_stores l 0 s;
  po_Sort_perm := λ _ ks, reflexivity ks |}.

(** A peer that answers from the chain below ab, over [nch] channels. *)
Definition chain_src : gset string := {["ab"; "b"; ""]}.
Definition chain_peer (nch : nat) (r : nat) (shards : list (list (@Key string_keys))) : @round_env string_keys :=
  mkRound (λ _, None) (λ i, @honest_reply string_keys chain_store chain_src (default [] (shards !! i))) (replicate nch 0%Z) [1%nat; 0%nat].

Lemma chain_honest nch : @honest string_keys chain_store chain_src nch (chain_peer nch).
Proof. split; [done|intros; apply length_replicate|]. intros r shards i shard H. unfold chain_peer; cbn [re_reply]. rewrite H. reflexivity. Qed.

Lemma chain_healthy : @healthy string_keys chain_store chain_src.
Proof.
  split; [simpl; eauto| |].
  - intros st k e. cbn [po_Check chain_store]. revert e. induction k as [|a k IH]; intros e; simpl; case_decide; [done..|apply IH|done].
  - intros st l. cbn [po_Write chain_store]. generalize 0%nat. revert st. induction l as [|[k d] l IH]; intros st n Hl; simpl; [eauto|].
    assert (k = d) as ->. { pose proof (Hl (k, d) ltac:(left)) as H. simpl in H. unfold chain_get in H. case_decide; naive_solver. }
    rewrite String.eqb_refl. apply IH. intros o Ho. apply Hl. by right.
Qed.

Lemma chain_complete : @complete string_keys (chain_get chain_src) chain_kids "ab".
Proof. apply chain_check_ok. vm_compute. reflexivity. Qed.

Lemma receive_complete_witness :
  ∃ st x, @Receive string_keys chain_store 4 (chain_peer 2) 2 {["b"]} "ab" = Some (st, x, Ok tt) ∧ @complete string_keys (chain_get st) chain_kids "ab".
Proof.
  assert (E : is_ok (match @Receive string_keys chain_store 4 (chain_peer 2) 2 {["b"]} "ab" with Some r => r.2 | None => Err (RV_Store "") end) = true)
    by (vm_compute; reflexivity).
  destruct (@Receive string_keys chain_store 4 (chain_peer 2) 2 {["b"]} "ab") as [[[st x] [[]|e]]|] eqn:ER; try discriminate E.
  exists st, x. split; [reflexivity|]. apply (@receive_complete string_keys chain_store) in ER. exact (proj1 ER).
Defined.

Lemma deal_partition_witness : concat (@dealWants string_keys ["abc"; "de"; "f"] [3000; 1000]%Z) ≡ₚ ["abc"; "de"; "f"].
Proof. apply (@deal_partition string_keys). discriminate. Defined.

Lemma receive_terminates_witness :
  ∃ n st x, @weighs string_keys chain_store chain_src "ab" n ∧ @Receive string_keys chain_store (S n) (chain_peer 3) 3 {["b"]} "ab" = Some (st, x, Ok tt).
Proof.
  destruct (@receive_terminates string_keys chain_store chain_src 3 (chain_peer 3) {["b"]} "ab" (chain_honest 3) chain_healthy ltac:(lia) chain_complete)
    as (n & st & x & Hn & Hr & _). eauto.
Defined.
