(* ===== verification/AmberServer.v ===== *)
(** * The store server (src/amberiroh/server.go)

    Every stream a peer opens is served by a goroutine of its own: the state of
    the server is what they share - objects, references, the per-name locks of
    reference commits, the registry of sharded transfers - and where each one
    stands. A step is one goroutine going on to its next synchronisation point;
    what it reads from its peer and from the clock is the step's input. *)
From S2P Require Import Prelude GoLib Keys Wire LogBuf Frames Sync.
Local Open Scope string_scope.
Local Open Scope list_scope.

Record Reference := mkReference { rf_Name : string; rf_Key : string; rf_CreatedAt : Z; rf_User : string }.

(** The reference package and the listing of a refstore. *)
Class RefCodec := {
  ref_ValidateName : string → bool;
  ref_Encode : Reference → result string string;
  ref_Decode : string → result string Reference;
  refs_All : gmap string string → list (string * string);
  ref_Decode_Encode r b : ref_Encode r = Ok b → ref_Decode b = Ok r;
  refs_All_perm m : refs_All m ≡ₚ map_to_list m;
}.

(** A goroutine; its number is also the number of the stream it serves. *)
Abbreviation thread := nat.
Abbreviation stream := nat.
Abbreviation chan := nat.

Section Server.
Context `{PS : PackStore} {RC : RefCodec}.

(** What the server is set up with: the collector's [PrepareRef], the faults of
    the reference store, the advertised data endpoints. *)
Record config := mkConfig {
  cf_guard : option (Key → result string unit);
  cf_rfault : string → option string;
  cf_wfault : string → option string;
  cf_dataPorts : list Z;
  cf_dataEndpoints : list DataEndpointRec }.

Definition maxDataConns : Z := 16.

(** What a sharded transfer is being gathered for. *)
Inductive purpose := ForPush (m : Msg) (root : Key) | ForPull.

(** How one channel of a pull stands: its [Send] still runs, or returned. *)
Inductive sending := Sending | Sent | SendFailed (remote : bool).

(** Streams gathered for a transfer and its token. *)
Record shards := mkShards { sh_token : option string; sh_extras : list stream }.

(** Where a goroutine stands. *)
Inductive pc :=
| PC_Read
| PC_Attach (ch : chan)
| PC_Handed
| PC_Gather (p : purpose) (token : string) (ch : chan) (n : nat) (out : list stream)
| PC_Receive (m : Msg) (root : Key) (lp : loop) (sh : shards)
| PC_Lock (m : Msg) (root : Key) (sh : shards)
| PC_Locked (m : Msg) (root : Key) (sh : shards)
| PC_Prepared (m : Msg) (root : Key) (raw : string) (sh : shards)
| PC_Send (cs : list sending) (sh : shards)
| PC_End.

Inductive guard_event := GuardPrepare (t : thread) (k : Key) | GuardCommit (t : thread) | GuardAbort (t : thread).

(** A reference write: a push's commit, or one of another part of the system. *)
Inductive ref_write := Pushed (t : thread) (m : Msg) (root : Key) (raw : string) | Outside (name : string) (raw : option string).

Record Server := mkServer {
  sv_objs : PObjs;
  sv_refs : gmap string string;
  sv_locks : gmap string thread;
  sv_pending : gmap string chan;
  sv_chans : gmap chan (list stream);
  sv_threads : gmap thread pc;
  sv_out : thread → list Msg;
  sv_closed : list stream;
  sv_access : list string;
  sv_pins : list string;
  sv_guard : list guard_event;
  sv_log : list ref_write }.

Definition set_sv_objs x s := mkServer x (sv_refs s) (sv_locks s) (sv_pending s) (sv_chans s) (sv_threads s) (sv_out s) (sv_closed s) (sv_access s) (sv_pins s) (sv_guard s) (sv_log s).
Definition set_sv_refs x s := mkServer (sv_objs s) x (sv_locks s) (sv_pending s) (sv_chans s) (sv_threads s) (sv_out s) (sv_closed s) (sv_access s) (sv_pins s) (sv_guard s) (sv_log s).
Definition set_sv_locks x s := mkServer (sv_objs s) (sv_refs s) x (sv_pending s) (sv_chans s) (sv_threads s) (sv_out s) (sv_closed s) (sv_access s) (sv_pins s) (sv_guard s) (sv_log s).
Definition set_sv_pending x s := mkServer (sv_objs s) (sv_refs s) (sv_locks s) x (sv_chans s) (sv_threads s) (sv_out s) (sv_closed s) (sv_access s) (sv_pins s) (sv_guard s) (sv_log s).
Definition set_sv_chans x s := mkServer (sv_objs s) (sv_refs s) (sv_locks s) (sv_pending s) x (sv_threads s) (sv_out s) (sv_closed s) (sv_access s) (sv_pins s) (sv_guard s) (sv_log s).
Definition set_sv_threads x s := mkServer (sv_objs s) (sv_refs s) (sv_locks s) (sv_pending s) (sv_chans s) x (sv_out s) (sv_closed s) (sv_access s) (sv_pins s) (sv_guard s) (sv_log s).
Definition set_sv_out x s := mkServer (sv_objs s) (sv_refs s) (sv_locks s) (sv_pending s) (sv_chans s) (sv_threads s) x (sv_closed s) (sv_access s) (sv_pins s) (sv_guard s) (sv_log s).
Definition set_sv_closed x s := mkServer (sv_objs s) (sv_refs s) (sv_locks s) (sv_pending s) (sv_chans s) (sv_threads s) (sv_out s) x (sv_access s) (sv_pins s) (sv_guard s) (sv_log s).
Definition set_sv_access x s := mkServer (sv_objs s) (sv_refs s) (sv_locks s) (sv_pending s) (sv_chans s) (sv_threads s) (sv_out s) (sv_closed s) x (sv_pins s) (sv_guard s) (sv_log s).
Definition set_sv_pins x s := mkServer (sv_objs s) (sv_refs s) (sv_locks s) (sv_pending s) (sv_chans s) (sv_threads s) (sv_out s) (sv_closed s) (sv_access s) x (sv_guard s) (sv_log s).
Definition set_sv_guard x s := mkServer (sv_objs s) (sv_refs s) (sv_locks s) (sv_pending s) (sv_chans s) (sv_threads s) (sv_out s) (sv_closed s) (sv_access s) (sv_pins s) x (sv_log s).
Definition set_sv_log x s := mkServer (sv_objs s) (sv_refs s) (sv_locks s) (sv_pending s) (sv_chans s) (sv_threads s) (sv_out s) (sv_closed s) (sv_access s) (sv_pins s) (sv_guard s) x.

Definition New (objs : PObjs) (refs : gmap string string) : Server :=
  mkServer objs refs ∅ ∅ ∅ ∅ (λ _, []) [] [] [] [] [].

Definition goto (t : thread) (p : pc) (s : Server) : Server := set_sv_threads (<[t := p]> (sv_threads s)) s.
Definition say (t : thread) (m : Msg) (s : Server) : Server :=
  set_sv_out (λ t', if decide (t' = t) then sv_out s t ++ [m] else sv_out s t') s.
Definition closeStream (rw : stream) (s : Server) : Server := set_sv_closed (sv_closed s ++ [rw]) s.
Definition closeAll (rws : list stream) (s : Server) : Server := set_sv_closed (sv_closed s ++ rws) s.

(** The frame of [fail], and the end of an operation with it or without. *)
Definition fail (code text : string) : Msg := msg_err code text "".
Definition end_op (t : thread) (o : option Msg) (s : Server) : Server :=
  goto t PC_End (closeStream t (match o with Some m => say t m s | None => s end)).

(** [failLocal]: an error that came from the peer is not echoed back. *)
Definition failLocal (e : recv_err) : option Msg :=
  match e with RV_Remote _ => None | _ => Some (fail CodeInternal "transfer") end.

(** ** The transfer registry *)

Definition create (token : string) (s : Server) : chan * Server :=
  let ch := fresh (dom (sv_chans s)) in
  (ch, set_sv_chans (<[ch := []]> (sv_chans s)) (set_sv_pending (<[token := ch]> (sv_pending s)) s)).

(** [drop]: unregister, close what was attached and never gathered. *)
Definition drop_transfer (token : string) (s : Server) : Server :=
  match sv_pending s !! token with
  | None => s
  | Some ch =>
      closeAll (default [] (sv_chans s !! ch))
        (set_sv_chans (<[ch := []]> (sv_chans s)) (set_sv_pending (delete token (sv_pending s)) s))
  end.

(** The second half of [attach]: a send that does not block. *)
Definition attach_send (ch : chan) (rw : stream) (s : Server) : Server * bool :=
  let q := default [] (sv_chans s !! ch) in
  if (Z.of_nat (length q) <? maxDataConns)%Z then (set_sv_chans (<[ch := q ++ [rw]]> (sv_chans s)) s, true)
  else (s, false).

(** [release] of [shardChannels], and the deferred function of [handlePull]. *)
Definition release (sh : shards) (s : Server) : Server :=
  match sh_token sh with
  | None => s
  | Some token => closeAll (sh_extras sh) (drop_transfer token s)
  end.

(** ** Reading references *)

Inductive got := Got (raw : string) | NotFound | GetFault (e : string).

Definition refs_Get (cf : config) (s : Server) (name : string) : got :=
  match cf_rfault cf name with
  | Some e => GetFault e
  | None => match sv_refs s !! name with Some raw => Got raw | None => NotFound end
  end.

Definition checkCAS (cf : config) (s : Server) (m : Msg) : result Msg unit :=
  let judge current :=
    if String.eqb current (m_ExpectedOld m) then Ok tt
    else Err (msg_err CodeCASMismatch ("remote ref " +:+ m_Name m +:+ " changed") current) in
  match refs_Get cf s (m_Name m) with
  | Got raw => match ref_Decode raw with Ok rec => judge (rf_Key rec) | Err e => Err (fail CodeInternal e) end
  | NotFound => judge ""
  | GetFault e => Err (fail CodeInternal e)
  end.

Definition precondition (cf : config) (s : Server) (m : Msg) : result Msg unit :=
  if m_CAS m then checkCAS cf s m else Ok tt.

(** ** The operations *)

Fixpoint ref_infos (rs : list (string * string)) : result string (list RefInfo) :=
  match rs with
  | [] => Ok []
  | (name, raw) :: rs =>
      match ref_Decode raw with
      | Err e => Err ("reference " +:+ name +:+ ": " +:+ e)
      | Ok rec =>
          match ref_infos rs with
          | Ok l => Ok (mkRefInfo name (rf_Key rec) (rf_CreatedAt rec) (rf_User rec) :: l)
          | Err e => Err e
          end
      end
  end.

Definition msg_refs (l : list RefInfo) : Msg := mkMsg TRefs "" "" false "" "" l [] [] "" "" "" "" "" 0 [] [] [].

Definition handleRefList (t : thread) (s : Server) : Server :=
  end_op t (Some (match ref_infos (refs_All (sv_refs s)) with Ok l => msg_refs l | Err e => fail CodeInternal e end)) s.

Fixpoint pin_names (cf : config) (names : list string) (s : Server) : Server * option string :=
  match names with
  | [] => (s, None)
  | name :: names =>
      match refs_Get cf s name with
      | NotFound => pin_names cf names s
      | GetFault e => (s, Some e)
      | Got _ => pin_names cf names (set_sv_pins (sv_pins s ++ [name]) s)
      end
  end.

Definition handlePin (cf : config) (t : thread) (m : Msg) (s : Server) : Server :=
  let '(s, e) := pin_names cf (m_Names m) s in
  end_op t (Some (match e with Some e => fail CodeInternal e | None => msg TOK end)) s.

Definition msg_accept (cf : config) (token : string) : Msg :=
  mkMsg TAccept "" "" false "" "" [] [] [] "" "" "" "" token 0 (cf_dataPorts cf) (cf_dataEndpoints cf) [].
Definition msg_ref (cf : config) (raw : string) (token : option string) : Msg :=
  match token with
  | None => mkMsg TRef "" "" false "" raw [] [] [] "" "" "" "" "" 0 [] [] []
  | Some token => mkMsg TRef "" "" false "" raw [] [] [] "" "" "" "" token 0 (cf_dataPorts cf) (cf_dataEndpoints cf) []
  end.

(** Offering a token: create a transfer, announce it, start gathering. [token]
    is what the random source gave, [werr] whether announcing failed. *)
Definition offer (t : thread) (p : purpose) (conns : Z) (announce : Msg) (token : string) (werr : option Msg) (broken : bool) (s : Server) : Server :=
  let '(ch, s) := create token s in
  if broken then end_op t werr (drop_transfer token s)
  else goto t (PC_Gather p token ch (Z.to_nat (Z.min conns maxDataConns)) []) (say t announce s).

(** [handlePush] up to the point where it has its channels. *)
Definition push_begin (cf : config) (t : thread) (m : Msg) (token : result string string) (broken : bool) (s : Server) : Server :=
  if negb (ref_ValidateName (m_Name m)) then end_op t (Some (fail CodeBadRequest "name")) s
  else match key_parse (m_Root m) with
  | None => end_op t (Some (fail CodeBadRequest "root key")) s
  | Some root =>
      match precondition cf s m with
      | Err f => end_op t (Some f) s
      | Ok _ =>
          if (m_DataConns m <=? 0)%Z then goto t (PC_Receive m root (loop_start 1 root) (mkShards None [])) s
          else match token with
          | Err e => end_op t (Some (fail CodeInternal e)) s
          | Ok token => offer t (ForPush m root) (m_DataConns m) (msg_accept cf token) token (Some (fail CodeInternal "write")) broken s
          end
      end
  end.

(** [handlePull] up to the point where it has its channels. *)
Definition pull_begin (cf : config) (t : thread) (m : Msg) (token : result string string) (broken : bool) (s : Server) : Server :=
  match refs_Get cf s (m_Name m) with
  | NotFound => end_op t (Some (fail CodeUnknownRef ("ref " +:+ m_Name m +:+ " not found"))) s
  | GetFault e => end_op t (Some (fail CodeInternal e)) s
  | Got raw =>
      let s := set_sv_access (sv_access s ++ [m_Name m]) s in
      if (0 <? m_DataConns m)%Z then
        match token with
        | Err e => end_op t (Some (fail CodeInternal e)) s
        | Ok token => offer t ForPull (m_DataConns m) (msg_ref cf raw (Some token)) token None broken s
        end
      else if broken then end_op t None s
      else goto t (PC_Send [Sending] (mkShards None [])) (say t (msg_ref cf raw None) s)
  end.

(** [HandleStream] on its first frame. *)
Definition dispatch_op (cf : config) (t : thread) (m : Msg) (token : result string string) (broken : bool) (s : Server) : Server :=
  if (m_Type m =? TAttach)%Z then
    match sv_pending s !! m_Token m with
    | Some ch => goto t (PC_Attach ch) s
    | None => end_op t (Some (fail CodeBadRequest "unknown transfer token")) s
    end
  else if (m_Type m =? TRefList)%Z then handleRefList t s
  else if (m_Type m =? TPush)%Z then push_begin cf t m token broken s
  else if (m_Type m =? TPull)%Z then pull_begin cf t m token broken s
  else if (m_Type m =? TPin)%Z then handlePin cf t m s
  else end_op t (Some (fail CodeBadRequest "unknown operation")) s.

(** [gather] has what it waited for, or its time is up. *)
Definition gathered (t : thread) (p : purpose) (token : string) (out : list stream) (s : Server) : Server :=
  let sh := mkShards (Some token) out in
  match p with
  | ForPush m root => goto t (PC_Receive m root (loop_start (S (length out)) root) sh) s
  | ForPull => goto t (PC_Send (replicate (S (length out)) Sending) sh) s
  end.

Definition gather_take (t : thread) (p : purpose) (token : string) (ch : chan) (n : nat) (out : list stream) (s : Server) : option Server :=
  match sv_chans s !! ch with
  | Some (rw :: q) =>
      let s := set_sv_chans (<[ch := q]> (sv_chans s)) s in
      let out := out ++ [rw] in
      Some (if bool_decide (n <= length out)%nat then gathered t p token out s else goto t (PC_Gather p token ch n out) s)
  | _ => None
  end.

Definition unlock (name : string) (s : Server) : Server := set_sv_locks (delete name (sv_locks s)) s.

(** The end of a push that holds the lock of its name. *)
Definition end_locked (t : thread) (m : Msg) (sh : shards) (o : Msg) (s : Server) : Server :=
  end_op t (Some o) (release sh (unlock (m_Name m) s)).

(** One round of the transfer. *)
Definition push_receive (t : thread) (m : Msg) (root : Key) (lp : loop) (sh : shards) (peer : list (list Key) → round_env) (s : Server) : Server :=
  let '(st, o) := receive_round peer (S (length (sh_extras sh))) lp (sv_objs s) in
  let s := set_sv_objs st s in
  match o with
  | inl lp => goto t (PC_Receive m root lp sh) s
  | inr (_, Ok _) => goto t (PC_Lock m root sh) s
  | inr (_, Err e) => end_op t (failLocal e) (release sh s)
  end.

(** Under the lock: the precondition again, the record, the collector's barrier. *)
Definition push_check (cf : config) (t : thread) (m : Msg) (root : Key) (sh : shards) (now : Z) (s : Server) : Server :=
  match precondition cf s m with
  | Err f => end_locked t m sh f s
  | Ok _ =>
      match ref_Encode (mkReference (m_Name m) (key_bytes root) now "") with
      | Err e => end_locked t m sh (fail CodeInternal e) s
      | Ok raw =>
          match cf_guard cf with
          | None => goto t (PC_Prepared m root raw sh) s
          | Some prepare =>
              match prepare root with
              | Err e => end_locked t m sh (fail CodeInternal ("gc guard: " +:+ e)) s
              | Ok _ => goto t (PC_Prepared m root raw sh) (set_sv_guard (sv_guard s ++ [GuardPrepare t root]) s)
              end
          end
      end
  end.

Definition guard_end (cf : config) (e : guard_event) (s : Server) : Server :=
  match cf_guard cf with Some _ => set_sv_guard (sv_guard s ++ [e]) s | None => s end.

Definition push_put (cf : config) (t : thread) (m : Msg) (root : Key) (raw : string) (sh : shards) (s : Server) : Server :=
  match cf_wfault cf (m_Name m) with
  | Some e => end_locked t m sh (fail CodeInternal e) (guard_end cf (GuardAbort t) s)
  | None =>
      let s := set_sv_refs (<[m_Name m := raw]> (sv_refs s)) (set_sv_log (sv_log s ++ [Pushed t m root raw]) s) in
      let s := guard_end cf (GuardCommit t) s in
      let s := set_sv_access (sv_access s ++ [m_Name m]) s in
      end_locked t m sh (msg_ok (key_bytes root)) s
  end.

(** A frame arrives on a channel of a pull, or reading it fails. *)
Definition send_one (st : PObjs) (r : result string Msg) : sending :=
  match r with
  | Err _ => SendFailed false
  | Ok m =>
      match Send_round st m with
      | SendDone => Sent
      | SendPack _ None => Sending
      | SendPack _ (Some _) => SendFailed false
      | SendReject _ => SendFailed (m_Type m =? TErr)%Z
      end
  end.

Definition still_sending (c : sending) : bool := match c with Sending => true | _ => false end.

Definition pull_end (t : thread) (cs : list sending) (sh : shards) (s : Server) : option Server :=
  if existsb still_sending cs then None
  else
    let remote := existsb (λ c, match c with SendFailed true => true | _ => false end) cs in
    let failed := existsb (λ c, match c with SendFailed _ => true | _ => false end) cs in
    Some (end_op t (if failed && negb remote then Some (fail CodeInternal "transfer") else None) (release sh s)).

(** ** Steps *)

Inductive input :=
| InFrame (r : result string Msg) (token : result string string) (broken : bool)
| InTake | InDeadline
| InRound (peer : list (list Key) → round_env)
| InTime (now : Z)
| InChan (i : nat) (r : result string Msg)
| InGo.

(** One step of goroutine [t]; [None] when it cannot make this step now. *)
Definition step (cf : config) (t : thread) (i : input) (s : Server) : option Server :=
  match sv_threads s !! t, i with
  | Some PC_Read, InFrame (Err _) _ _ => Some (end_op t None s)
  | Some PC_Read, InFrame (Ok m) token broken => Some (dispatch_op cf t m token broken s)
  | Some (PC_Attach ch), InGo =>
      let '(s, ok) := attach_send ch t s in
      Some (if ok then goto t PC_Handed s else end_op t (Some (fail CodeBadRequest "unknown transfer token")) s)
  | Some (PC_Gather p token ch n out), InTake => gather_take t p token ch n out s
  | Some (PC_Gather p token ch n out), InDeadline => Some (gathered t p token out s)
  | Some (PC_Receive m root lp sh), InRound peer => Some (push_receive t m root lp sh peer s)
  | Some (PC_Lock m root sh), InGo =>
      match sv_locks s !! m_Name m with
      | Some _ => None
      | None => Some (goto t (PC_Locked m root sh) (set_sv_locks (<[m_Name m := t]> (sv_locks s)) s))
      end
  | Some (PC_Locked m root sh), InTime now => Some (push_check cf t m root sh now s)
  | Some (PC_Prepared m root raw sh), InGo => Some (push_put cf t m root raw sh s)
  | Some (PC_Send cs sh), InChan i r =>
      match cs !! i with
      | Some Sending => Some (goto t (PC_Send (<[i := send_one (sv_objs s) r]> cs) sh) s)
      | _ => None
      end
  | Some (PC_Send cs sh), InGo => pull_end t cs sh s
  | _, _ => None
  end.

(** What happens to the server: a peer opens a stream, a goroutine goes on,
    another part of the system writes or deletes a reference, or adds objects.
    Objects that the collector reaps meanwhile are not among the steps. *)
Inductive happens (cf : config) : Server → Server → Prop :=
| h_accept t s : sv_threads s !! t = None → happens cf s (goto t PC_Read s)
| h_step t i s s' : step cf t i s = Some s' → happens cf s s'
| h_outside name raw s : happens cf s (set_sv_refs (match raw with Some r => <[name := r]> (sv_refs s) | None => delete name (sv_refs s) end)
    (set_sv_log (sv_log s ++ [Outside name raw]) s))
| h_objects st s : (∀ k d, po_Get (sv_objs s) k = Some d → po_Get st k = Some d) → happens cf s (set_sv_objs st s).

Definition reachable (cf : config) (objs : PObjs) (refs : gmap string string) : Server → Prop :=
  rtc (happens cf) (New objs refs).
End Server.
