(* ===== verification/AmberServerFacts.v ===== *)
(** * What the store server guarantees

    Objects before the reference: a push commits only over a complete tree.
    Compare-and-swap is atomic among pushes. Streams have one owner. *)
From S2P Require Import Prelude GoLib Keys Wire LogBuf Frames Sync SyncFacts AmberServer.
Local Open Scope string_scope.
Local Open Scope list_scope.

Section ServerFacts.
Context `{PS : PackStore} {RC : RefCodec}.
Variable cf : config.
Implicit Types (s : Server) (t : thread) (sh : shards).

Abbreviation comp st := (complete (po_Get st) ChildKeys).

(** ** What the parts of a step leave alone *)

(** Equal up to the stream bookkeeping, the frames, hooks and guard events. *)
Record quiet s s' : Prop := mkQuiet {
  q_objs : sv_objs s' = sv_objs s; q_refs : sv_refs s' = sv_refs s; q_locks : sv_locks s' = sv_locks s; q_log : sv_log s' = sv_log s }.

Lemma quiet_refl s : quiet s s.
Proof. done. Qed.
Lemma quiet_trans s1 s2 s3 : quiet s1 s2 → quiet s2 s3 → quiet s1 s3.
Proof. intros [] []. split; congruence. Qed.

Lemma drop_quiet token s : quiet s (drop_transfer token s) ∧ sv_threads (drop_transfer token s) = sv_threads s.
Proof. unfold drop_transfer. by case_match. Qed.

Lemma release_quiet sh s : quiet s (release sh s) ∧ sv_threads (release sh s) = sv_threads s.
Proof. unfold release. case_match; [|done]. destruct (drop_quiet s0 s) as [[] Ht]. by split; [split|]. Qed.

Lemma end_op_quiet t o s : quiet s (end_op t o s) ∧ sv_threads (end_op t o s) = <[t := PC_End]> (sv_threads s).
Proof. by destruct o. Qed.

Lemma pin_quiet names s : ∀ s' e, pin_names cf names s = (s', e) → quiet s s' ∧ sv_threads s' = sv_threads s.
Proof.
  revert s. induction names as [|n names IH]; intros s s' e; simpl; [by intros [= <- _]|].
  destruct (refs_Get cf s n); [|apply IH|by intros [= <- _]]. intros [Hq Ht]%IH. split; [|done]. by destruct Hq.
Qed.

(** ** The invariant *)

(** The key a reference store records for a name: [""] when it has none. *)
Definition current (refs : gmap string string) (name : string) : option string :=
  match refs !! name with
  | None => Some ""
  | Some raw => match ref_Decode raw with Ok r => Some (rf_Key r) | Err _ => None end
  end.

Definition apply_write (refs : gmap string string) (w : ref_write) : gmap string string :=
  match w with
  | Pushed _ m _ raw => <[m_Name m := raw]> refs
  | Outside name (Some raw) => <[name := raw]> refs
  | Outside name None => delete name refs
  end.
Definition apply_writes (refs : gmap string string) (l : list ref_write) : gmap string string := foldl apply_write refs l.

(** No other part of the system wrote this name. *)
Definition only_pushed (name : string) (l : list ref_write) : Prop := ∀ raw, Outside name raw ∉ l.

Definition holds (p : pc) : option string :=
  match p with PC_Locked m _ _ => Some (m_Name m) | PC_Prepared m _ _ _ => Some (m_Name m) | _ => None end.

Definition record_of (name : string) (root : Key) (raw : string) : Prop :=
  ∃ r, ref_Decode raw = Ok r ∧ rf_Name r = name ∧ rf_Key r = key_bytes root.

Definition pc_ok (objs : PObjs) (refs : gmap string string) (l : list ref_write) (p : pc) : Prop :=
  match p with
  | PC_Receive _ root lp _ => owes objs (lp_frontier lp) root
  | PC_Lock _ root _ | PC_Locked _ root _ => comp objs root
  | PC_Prepared m root raw _ =>
      comp objs root ∧ record_of (m_Name m) root raw ∧
      (m_CAS m = true → only_pushed (m_Name m) l → current refs (m_Name m) = Some (m_ExpectedOld m))
  | _ => True
  end.

Definition write_ok (objs : PObjs) (w : ref_write) : Prop :=
  match w with Pushed _ m root raw => comp objs root ∧ record_of (m_Name m) root raw | Outside _ _ => True end.

(** Every compare-and-swap in the log was made against the value its writer
    expected, as long as only pushes write the name. *)
Definition cas_ok (refs0 : gmap string string) (l : list ref_write) : Prop :=
  ∀ pre t m root raw post, l = pre ++ Pushed t m root raw :: post → m_CAS m = true → only_pushed (m_Name m) l →
    current (apply_writes refs0 pre) (m_Name m) = Some (m_ExpectedOld m).

Record server_ok (refs0 : gmap string string) s : Prop := mkOk {
  ok_locks : ∀ name t, sv_locks s !! name = Some t ↔ ∃ p, sv_threads s !! t = Some p ∧ holds p = Some name;
  ok_refs : sv_refs s = apply_writes refs0 (sv_log s);
  ok_pcs : ∀ t p, sv_threads s !! t = Some p → pc_ok (sv_objs s) (sv_refs s) (sv_log s) p;
  ok_log : ∀ w, w ∈ sv_log s → write_ok (sv_objs s) w;
  ok_cas : cas_ok refs0 (sv_log s) }.

Lemma pc_ok_grown a b refs l p : grown a b → pc_ok a refs l p → pc_ok b refs l p.
Proof.
  intros Hg. destruct p; simpl; try done; [by apply owes_grown|by apply complete_grown..|].
  intros (Hc & H). split; [by eapply complete_grown|done].
Qed.

Lemma write_ok_grown a b w : grown a b → write_ok a w → write_ok b w.
Proof. intros Hg. destruct w; [|done]. intros [Hc ?]. split; [by eapply complete_grown|done]. Qed.

Lemma ok_grown refs0 s st : server_ok refs0 s → grown (sv_objs s) st → server_ok refs0 (set_sv_objs st s).
Proof.
  intros [] Hg. split; simpl; [done..| | |done].
  - intros t p Ht. eapply pc_ok_grown; [done|eauto].
  - intros w Hw. eapply write_ok_grown; [done|eauto].
Qed.

(** A goroutine that holds no lock goes on, quietly. *)
Lemma ok_quiet refs0 s s' t p p' :
  server_ok refs0 s → quiet s s' → sv_threads s !! t = Some p → sv_threads s' = <[t := p']> (sv_threads s) →
  holds p = holds p' → pc_ok (sv_objs s) (sv_refs s) (sv_log s) p' → server_ok refs0 s'.
Proof.
  intros [Hl Hr Hp Hw Hc] [Eo Er El Eg] Ht E Hh Hp'. split; rewrite ?Eo, ?Er, ?El, ?Eg, ?E; [|done| |done..].
  - intros name u. rewrite Hl. destruct (decide (u = t)) as [->|Hn]; [|by rewrite lookup_insert_ne].
    rewrite lookup_insert_eq. split; intros (q & Hq & Eq); eexists; (split; [done|]); congruence.
  - intros u q. destruct (decide (u = t)) as [->|Hn]; [rewrite lookup_insert_eq; by intros [= <-]|rewrite lookup_insert_ne by done; apply Hp].
Qed.

(** A goroutine ends and gives its lock back. *)
Lemma ok_unlock refs0 s s' t p name :
  server_ok refs0 s → sv_threads s !! t = Some p → holds p = Some name →
  quiet (set_sv_locks (delete name (sv_locks s)) s) s' → sv_threads s' = <[t := PC_End]> (sv_threads s) → server_ok refs0 s'.
Proof.
  intros [Hl Hr Hp Hw Hc] Ht Hh [Eo Er El Eg] E. simpl in Eo, Er, El, Eg. split; rewrite ?Eo, ?Er, ?El, ?Eg, ?E; [|done| |done..].
  - intros nm u. destruct (decide (u = t)) as [->|Hn].
    + rewrite lookup_insert_eq. split; [|intros (q & [= <-] & ?); done]. intros [Hne Hk]%lookup_delete_Some.
      apply Hl in Hk as (q & Hq & Eq). congruence.
    + rewrite lookup_insert_ne by done. rewrite <- Hl, lookup_delete_Some. split; [by intros []|]. intros Hk. split; [|done].
      intros ->. assert (sv_locks s !! nm = Some t) by (apply Hl; eauto). congruence.
  - intros u q. destruct (decide (u = t)) as [->|Hn]; [rewrite lookup_insert_eq; by intros [= <-]|rewrite lookup_insert_ne by done; apply Hp].
Qed.

Lemma only_pushed_snoc name l t m root raw : only_pushed name (l ++ [Pushed t m root raw]) → only_pushed name l.
Proof. intros H r Hin. apply (H r), elem_of_app. by left. Qed.

Lemma only_pushed_outside name l nm raw : only_pushed name (l ++ [Outside nm raw]) → only_pushed name l ∧ nm ≠ name.
Proof. intros H. split; [intros r Hin; apply (H r), elem_of_app; by left|]. intros ->. apply (H raw), elem_of_app. right. left. Qed.

Lemma cas_ok_snoc refs0 l w : cas_ok refs0 l →
  (∀ t m root raw, w = Pushed t m root raw → m_CAS m = true → only_pushed (m_Name m) l →
    current (apply_writes refs0 l) (m_Name m) = Some (m_ExpectedOld m)) → cas_ok refs0 (l ++ [w]).
Proof.
  intros Hc Hw pre t m root raw post E Hm Ho.
  assert (Ho' : only_pushed (m_Name m) l) by (intros r Hin; apply (Ho r), elem_of_app; by left).
  destruct (decide (post = [])) as [->|Hne].
  - apply app_inj_tail in E as [-> ->]. by eapply Hw.
  - destruct (exists_last Hne) as (post' & w' & ->). rewrite app_comm_cons, (assoc_L (++)) in E. apply app_inj_tail in E as [-> _].
    by eapply Hc.
Qed.

(** The write of a push that checked its precondition under the lock. *)
Lemma ok_put refs0 s s' t m root raw sh :
  server_ok refs0 s → sv_threads s !! t = Some (PC_Prepared m root raw sh) →
  sv_objs s' = sv_objs s → sv_refs s' = <[m_Name m := raw]> (sv_refs s) → sv_log s' = sv_log s ++ [Pushed t m root raw] →
  sv_locks s' = delete (m_Name m) (sv_locks s) → sv_threads s' = <[t := PC_End]> (sv_threads s) → server_ok refs0 s'.
Proof.
  intros Hok Ht Eo Er Eg El E. assert (Hok' : server_ok refs0 (goto t PC_End (unlock (m_Name m) s))) by (by eapply ok_unlock).
  destruct Hok as [Hl Hr Hp Hw Hc], Hok' as [Hl' _ Hp' _ _]. pose proof (Hp t _ Ht) as (Hcomp & Hrec & Hcur).
  split; rewrite ?Eo, ?Er, ?El, ?Eg, ?E; [exact Hl'| | | |].
  - unfold apply_writes in *. rewrite foldl_app. simpl. by rewrite Hr.
  - intros u q Hq. specialize (Hp' u q Hq). simpl in Hp'. destruct q; try done. simpl in Hp' |- *. destruct Hp' as (? & ? & Hq').
    split_and!; [done..|]. intros Hm Ho. destruct (decide (m_Name m0 = m_Name m)) as [En|En].
    + exfalso. assert (H1 : sv_locks s !! m_Name m = Some t) by (apply Hl; eauto).
      apply lookup_insert_Some in Hq as [[_ Hq]|[Hne Hq]]; [done|]. assert (H2 : sv_locks s !! m_Name m = Some u) by (apply Hl; rewrite <- En; eauto). congruence.
    + unfold current. rewrite lookup_insert_ne by done. apply Hq'; [done|]. by eapply only_pushed_snoc.
  - intros w [Hin| ->%list_elem_of_singleton]%elem_of_app; [by apply Hw|by split].
  - apply cas_ok_snoc; [done|]. intros ? ? ? ? [= <- <- <- <-] Hm Ho. rewrite <- Hr. by apply Hcur.
Qed.

Lemma ok_outside refs0 s name raw : server_ok refs0 s →
  server_ok refs0 (set_sv_refs (match raw with Some r => <[name := r]> (sv_refs s) | None => delete name (sv_refs s) end)
    (set_sv_log (sv_log s ++ [Outside name raw]) s)).
Proof.
  intros [Hl Hr Hp Hw Hc]. split; simpl; [done| | | |].
  - unfold apply_writes in *. rewrite foldl_app. simpl. rewrite Hr. by destruct raw.
  - intros t p Ht. specialize (Hp t p Ht). destruct p; try done. simpl in Hp |- *. destruct Hp as (? & ? & Hcur). split_and!; [done..|].
    intros Hm [Ho Hne]%only_pushed_outside. rewrite <- (Hcur Hm Ho). unfold current. destruct raw; by rewrite ?lookup_insert_ne, ?lookup_delete_ne.
  - intros w [Hin| ->%list_elem_of_singleton]%elem_of_app; [by apply Hw|done].
  - by apply cas_ok_snoc.
Qed.

(** ** Every step keeps it *)

(** The opening steps of an operation are quiet and lead to a place that holds
    no lock. *)
Definition opens t s s' : Prop :=
  quiet s s' ∧ ∃ p, sv_threads s' = <[t := p]> (sv_threads s) ∧ holds p = None ∧ ∀ refs l, pc_ok (sv_objs s) refs l p.

Lemma opens_end t o s s0 : quiet s s0 → sv_threads s0 = sv_threads s → opens t s (end_op t o s0).
Proof.
  intros Hq E. destruct (end_op_quiet t o s0) as [Hq' Ht]. split; [by eapply quiet_trans|]. exists PC_End. by rewrite Ht, E.
Qed.

Lemma opens_offer t p conns a token w b s s0 : quiet s s0 → sv_threads s0 = sv_threads s → opens t s (offer t p conns a token w b s0).
Proof.
  intros Hq E. unfold offer. destruct (create token s0) as [ch s1] eqn:Ec.
  assert (Hq1 : quiet s0 s1 ∧ sv_threads s1 = sv_threads s0) by (injection Ec as _ <-; done). destruct Hq1 as [Hq1 E1].
  destruct b.
  - destruct (drop_quiet token s1) as [Hq2 E2]. apply opens_end; [by do 2 (eapply quiet_trans; [done|])|congruence].
  - split; [by do 2 (eapply quiet_trans; [done|])|]. eexists. split_and!; [simpl; by rewrite E1, E|done|done].
Qed.

Lemma opens_push t m token b s : opens t s (push_begin cf t m token b s).
Proof.
  unfold push_begin. case_match; [by apply opens_end|]. case_match; [|by apply opens_end]. case_match; [|by apply opens_end].
  case_match; [|destruct token; [by apply opens_offer|by apply opens_end]].
  split; [done|]. eexists. split_and!; [done|done|]. intros ? ?. eapply (start_owes _ 1%nat).
Qed.

Lemma opens_pull t m token b s : opens t s (pull_begin cf t m token b s).
Proof.
  unfold pull_begin. case_match; [|by apply opens_end..]. case_match.
  - destruct token; [by apply opens_offer|by apply opens_end].
  - destruct b; [by apply opens_end|]. split; [done|]. by eexists.
Qed.

Lemma opens_dispatch t m token b s : opens t s (dispatch_op cf t m token b s).
Proof.
  unfold dispatch_op. repeat case_match; [split; [done|by eexists]|by apply opens_end|by apply opens_end|apply opens_push|apply opens_pull| |by apply opens_end].
  unfold handlePin. destruct (pin_names cf (m_Names m) s) as [s1 e] eqn:E. destruct (pin_quiet _ _ _ _ E). by apply opens_end.
Qed.

Lemma opens_gathered t p token out s s0 : quiet s s0 → sv_threads s0 = sv_threads s → opens t s (gathered t p token out s0).
Proof.
  intros Hq E. unfold gathered. destruct p; (split; [by eapply quiet_trans|]); (eexists; split_and!; [simpl; by rewrite E|done|]); [|done].
  intros ? ?. eapply (start_owes _ 1%nat).
Qed.

Lemma ok_opens refs0 s s' t p : server_ok refs0 s → sv_threads s !! t = Some p → holds p = None → opens t s s' → server_ok refs0 s'.
Proof. intros Hok Ht Hh (Hq & p' & E & Hh' & Hp). eapply ok_quiet; [done|done|done|done|congruence|done]. Qed.

Lemma cas_current s m : precondition cf s m = Ok tt → m_CAS m = true → current (sv_refs s) (m_Name m) = Some (m_ExpectedOld m).
Proof.
  unfold precondition, checkCAS, refs_Get, current. intros H E. rewrite E in H. revert H.
  destruct (cf_rfault cf _); [done|]. destruct (sv_refs s !! m_Name m) as [raw|]; [destruct (ref_Decode raw) as [r|]; [|done]|];
    match goal with |- context [String.eqb ?a ?b] => by destruct (String.eqb_spec a b) as [->|] end.
Qed.

Lemma end_locked_quiet t m sh o s :
  quiet (unlock (m_Name m) s) (end_locked t m sh o s) ∧ sv_threads (end_locked t m sh o s) = <[t := PC_End]> (sv_threads s).
Proof.
  unfold end_locked. destruct (release_quiet sh (unlock (m_Name m) s)) as [H1 H2].
  destruct (end_op_quiet t (Some o) (release sh (unlock (m_Name m) s))) as [H3 H4]. split; [by eapply quiet_trans|]. by rewrite H4, H2.
Qed.

Lemma ok_end_locked refs0 s t p m sh o : server_ok refs0 s → sv_threads s !! t = Some p → holds p = Some (m_Name m) →
  server_ok refs0 (end_locked t m sh o s).
Proof. intros Hok Ht Hh. destruct (end_locked_quiet t m sh o s). by eapply ok_unlock. Qed.

Lemma guard_end_quiet e s : quiet s (guard_end cf e s) ∧ sv_threads (guard_end cf e s) = sv_threads s.
Proof. unfold guard_end. by case_match. Qed.

Lemma ok_same refs0 s s' : quiet s s' → sv_threads s' = sv_threads s → server_ok refs0 s → server_ok refs0 s'.
Proof. intros [Eo Er El Eg] E []. by split; rewrite ?Eo, ?Er, ?El, ?Eg, ?E. Qed.

Lemma receive_ok refs0 s t m root lp sh peer :
  server_ok refs0 s → sv_threads s !! t = Some (PC_Receive m root lp sh) → server_ok refs0 (push_receive t m root lp sh peer s).
Proof.
  intros Hok Ht. unfold push_receive. destruct (receive_round _ _ _ _) as [st o] eqn:E.
  destruct (receive_round_sound _ _ _ _ _ _ root E (ok_pcs _ _ Hok _ _ Ht)) as [Hg Ho]. pose proof (ok_grown _ _ _ Hok Hg) as Hok'.
  destruct o as [lp'|[x [[]|e]]].
  - by eapply ok_quiet.
  - eapply ok_quiet; [exact Hok'|done|done|done|done|]. by apply Ho.
  - destruct (release_quiet sh (set_sv_objs st s)). by eapply ok_opens; [exact Hok'|done|done|apply opens_end].
Qed.

Lemma check_ok refs0 s t m root sh now :
  server_ok refs0 s → sv_threads s !! t = Some (PC_Locked m root sh) → server_ok refs0 (push_check cf t m root sh now s).
Proof.
  intros Hok Ht. unfold push_check. destruct (precondition cf s m) as [[]|f] eqn:Ep; [|by eapply ok_end_locked].
  destruct (ref_Encode _) as [raw|e] eqn:Ee; [|by eapply ok_end_locked].
  assert (Hp : pc_ok (sv_objs s) (sv_refs s) (sv_log s) (PC_Prepared m root raw sh)).
  { split_and!; [exact (ok_pcs _ _ Hok _ _ Ht)| |intros Hm _; by apply cas_current].
    apply ref_Decode_Encode in Ee. by eexists. }
  destruct (cf_guard cf) as [pr|]; [destruct (pr root); [|by eapply ok_end_locked]|]; by eapply ok_quiet.
Qed.

Lemma put_ok refs0 s t m root raw sh :
  server_ok refs0 s → sv_threads s !! t = Some (PC_Prepared m root raw sh) → server_ok refs0 (push_put cf t m root raw sh s).
Proof.
  intros Hok Ht. unfold push_put. destruct (cf_wfault cf _).
  - destruct (guard_end_quiet (GuardAbort t) s) as [Hq E]. eapply ok_end_locked; [by eapply ok_same|by rewrite E|done].
  - cbv zeta. set (s0 := set_sv_refs _ _). destruct (guard_end_quiet (GuardCommit t) s0) as [[Eo Er El Eg] E].
    set (s1 := set_sv_access _ _). destruct (end_locked_quiet t m sh (msg_ok (key_bytes root)) s1) as [[Eo' Er' El' Eg'] E'].
    eapply ok_put; [exact Hok|exact Ht|rewrite Eo'; exact Eo|rewrite Er'; exact Er|rewrite Eg'; exact Eg| |].
    + rewrite El'. simpl. rewrite El. done.
    + rewrite E'. simpl. rewrite E. done.
Qed.

Lemma put_unlocks t m root raw sh s : sv_locks (push_put cf t m root raw sh s) !! m_Name m = None.
Proof.
  unfold push_put. destruct (cf_wfault cf _); cbv zeta.
  - destruct (end_locked_quiet t m sh (fail CodeInternal s0) (guard_end cf (GuardAbort t) s)) as [[_ _ -> _] _]. apply lookup_delete_eq.
  - match goal with |- sv_locks (end_locked _ _ _ ?o ?x) !! _ = _ => destruct (end_locked_quiet t m sh o x) as [[_ _ -> _] _] end. apply lookup_delete_eq.
Qed.

Lemma server_step_ok refs0 s t i s' : server_ok refs0 s → step cf t i s = Some s' → server_ok refs0 s'.
Proof.
  intros Hok. unfold step. destruct (sv_threads s !! t) as [p|] eqn:Ht; [|done]. pose proof (ok_opens refs0 s s' t p Hok Ht) as Hopen.
  destruct p, i as [[m'|] tk b| | | | | |]; try done.
  - intros [= <-]. apply Hopen; [done|apply opens_dispatch].
  - intros [= <-]. apply Hopen; [done|by apply opens_end].
  - unfold attach_send. destruct (Z.ltb _ _); intros [= <-]; (apply Hopen; [done|]); [split; [done|by eexists]|by apply opens_end].
  - unfold gather_take. destruct (sv_chans s !! ch) as [[|rw q]|]; [done| |done]. intros [= <-]. apply Hopen; [done|].
    case_bool_decide; [by apply opens_gathered|split; [done|by eexists]].
  - intros [= <-]. apply Hopen; [done|by apply opens_gathered].
  - intros [= <-]. by apply receive_ok.
  - destruct (sv_locks s !! m_Name m) eqn:El; [done|]. intros [= <-]. pose proof (ok_pcs _ _ Hok _ _ Ht) as Hc.
    destruct Hok as [Hl Hr Hp Hw Hcas]. split; simpl; [|done| |done..].
    + intros nm u. destruct (decide (u = t)) as [->|Hn].
      * rewrite lookup_insert_eq, lookup_insert_Some. split; [|intros (q & [= <-] & [= <-]); by left].
        intros [[<- _]|[Hne Hk]]; [by eexists|]. apply Hl in Hk as (q & Hq & Eq). rewrite Ht in Hq. injection Hq as <-. done.
      * rewrite (lookup_insert_ne (sv_threads s)) by done. rewrite <- Hl, lookup_insert_Some. split; [by intros [[_ ?]|[_ ?]]|]. intros Hk. right. split; [congruence|done].
    + intros u q. destruct (decide (u = t)) as [->|Hn]; [rewrite lookup_insert_eq; by intros [= <-]|rewrite lookup_insert_ne by done; apply Hp].
  - intros [= <-]. by apply check_ok.
  - intros [= <-]. by apply put_ok.
  - destruct (cs !! i) as [[]|]; [|done..]. intros [= <-]. apply Hopen; [done|split; [done|by eexists]].
  - unfold pull_end. destruct (existsb _ cs); [done|]. intros [= <-]. apply Hopen; [done|]. destruct (release_quiet sh s). by apply opens_end.
Qed.

Lemma new_ok objs refs0 : server_ok refs0 (New objs refs0).
Proof.
  split; simpl; [|done| | |].
  - intros name t. rewrite lookup_empty. split; [done|]. intros (p & Hp & _). by rewrite lookup_empty in Hp.
  - intros t p. by rewrite lookup_empty.
  - by intros w ?%elem_of_nil.
  - intros pre ? ? ? ? post E. by destruct pre.
Qed.

Lemma happens_ok refs0 s s' : happens cf s s' → server_ok refs0 s → server_ok refs0 s'.
Proof.
  intros [t s1 Ht|t i s1 s2 Hs|name raw s1|st s1 Hg] Hok; [|by eapply server_step_ok|by apply ok_outside|by apply ok_grown].
  destruct Hok as [Hl Hr Hp Hw Hc]. split; simpl; [|done| |done..].
  - intros nm u. rewrite Hl. destruct (decide (u = t)) as [->|Hn]; [|by rewrite lookup_insert_ne].
    rewrite lookup_insert_eq. split; intros (q & Hq & Eq); [congruence|injection Hq as <-; done].
  - intros u q. destruct (decide (u = t)) as [->|Hn]; [rewrite lookup_insert_eq; by intros [= <-]|rewrite lookup_insert_ne by done; apply Hp].
Qed.

Lemma reachable_ok objs refs0 s : reachable cf objs refs0 s → server_ok refs0 s.
Proof. intros H. pose proof (new_ok objs refs0). induction H; eauto using happens_ok. Qed.

(** Objects before the reference: whatever peers send and however their
    operations interleave, every reference a push has committed names a root
    whose whole tree is in the store, and records that root under that name. *)
Theorem push_commits_complete objs refs0 s t m root raw :
  reachable cf objs refs0 s → Pushed t m root raw ∈ sv_log s →
  comp (sv_objs s) root ∧ record_of (m_Name m) root raw.
Proof. intros Hr%reachable_ok Hin. exact (ok_log _ _ Hr _ Hin). Qed.

(** [C12] Compare-and-swap is atomic among pushes: the reference store is the
    initial one with the logged writes applied in order, and every push that
    asked for a precondition was applied to exactly the value it expected, as
    long as no other part of the system writes that name; so of several pushes
    that expect the same value, the second to commit finds it restored. *)
Theorem push_cas_atomic objs refs0 s :
  reachable cf objs refs0 s →
  sv_refs s = apply_writes refs0 (sv_log s) ∧
  ∀ pre t m root raw post, sv_log s = pre ++ Pushed t m root raw :: post → m_CAS m = true → only_pushed (m_Name m) (sv_log s) →
    current (apply_writes refs0 pre) (m_Name m) = Some (m_ExpectedOld m).
Proof. intros Hr%reachable_ok. split; [apply Hr|]. intros ? ? ? ? ? ?. apply (ok_cas _ _ Hr). Qed.

(** A push never waits in vain: when one waits for the lock of its name,
    either the lock is free and it goes on, or another goroutine holds it that
    can go on by itself, whatever the clock reads, and after at most two such
    steps has given the lock back. *)
Theorem push_lock_progress objs refs0 s t m root sh :
  reachable cf objs refs0 s → sv_threads s !! t = Some (PC_Lock m root sh) →
  (∃ s', step cf t InGo s = Some s' ∧ sv_locks s' !! m_Name m = Some t) ∨
  ∃ h, sv_locks s !! m_Name m = Some h ∧ ∀ now, ∃ s1,
    (step cf h (InTime now) s = Some s1 ∨ step cf h InGo s = Some s1) ∧
    (sv_locks s1 !! m_Name m = None ∨ ∃ s2, step cf h InGo s1 = Some s2 ∧ sv_locks s2 !! m_Name m = None).
Proof.
  intros Hr%reachable_ok Ht. destruct (sv_locks s !! m_Name m) as [h|] eqn:El.
  2: { left. eexists. unfold step. rewrite Ht, El. split; [done|]. simpl. by rewrite lookup_insert_eq. }
  right. exists h. split; [done|]. intros now. apply (ok_locks _ _ Hr) in El as (p & Hp & Hh).
  destruct p as [| | | | | |m' root' sh'|m' root' raw' sh'| |]; try discriminate Hh; injection Hh as Hn.
  - exists (push_check cf h m' root' sh' now s). unfold step at 1. rewrite Hp. split; [by left|].
    assert (Hend : ∀ o, sv_locks (end_locked h m' sh' o s) !! m_Name m = None)
      by (intros o; destruct (end_locked_quiet h m' sh' o s) as [[_ _ -> _] _]; simpl; rewrite Hn; apply lookup_delete_eq).
    assert (Hput : ∀ raw s1, sv_threads s1 !! h = Some (PC_Prepared m' root' raw sh') → ∃ s2, step cf h InGo s1 = Some s2 ∧ sv_locks s2 !! m_Name m = None).
    { intros raw s1 Hs1. eexists. unfold step. rewrite Hs1. split; [done|]. rewrite <- Hn. apply put_unlocks. }
    unfold push_check. destruct (precondition cf s m'); [|left; apply Hend]. destruct (ref_Encode _); [|left; apply Hend].
    destruct (cf_guard cf) as [pr|]; [destruct (pr root'); [|left; apply Hend]|]; right; eapply Hput; simpl; apply lookup_insert_eq.
  - eexists. unfold step at 2. rewrite Hp. split; [by right|]. left. rewrite <- Hn. apply put_unlocks.
Qed.
End ServerFacts.
