(* ===== verification/AmberStreams.v ===== *)
(** * Who closes a stream of the store server

    A stream is closed by the goroutine that serves it, or by the transfer it
    was handed to; never by both. One hand-over has no owner at all. *)
From S2P Require Import Prelude GoLib Keys Wire LogBuf Frames Sync SyncFacts AmberServer.
Local Open Scope string_scope.
Local Open Scope list_scope.

(** Everything the values of a map list. *)
Definition listed {A} (f : A → list nat) (m : gmap nat A) : list nat := concat (f <$> (map_to_list m).*2).

Lemma listed_new {A} (f : A → list nat) m k v : m !! k = None → listed f (<[k := v]> m) ≡ₚ f v ++ listed f m.
Proof. intros H. unfold listed. by rewrite (map_to_list_insert m k v H). Qed.

Lemma listed_insert {A} (f : A → list nat) m k v v0 : m !! k = Some v0 → f v0 ++ listed f (<[k := v]> m) ≡ₚ f v ++ listed f m.
Proof.
  intros H. rewrite <- (insert_delete_id m k v0 H) at 2. rewrite <- insert_delete_eq.
  rewrite !listed_new by apply lookup_delete_eq. rewrite !(assoc_L (++)). apply Permutation_app_tail, Permutation_app_comm.
Qed.

Section Streams.
Context `{PS : PackStore} {RC : RefCodec}.
Variable cf : config.
Implicit Types (s : Server) (t u : thread) (sh : shards).

(** The streams an operation was given. *)
Definition extras (p : pc) : list stream :=
  match p with
  | PC_Gather _ _ _ _ out => out
  | PC_Receive _ _ _ sh | PC_Lock _ _ sh | PC_Locked _ _ sh | PC_Prepared _ _ _ sh | PC_Send _ sh => sh_extras sh
  | _ => []
  end.

Definition shards_of (p : pc) : option shards :=
  match p with
  | PC_Receive _ _ _ sh | PC_Lock _ _ sh | PC_Locked _ _ sh | PC_Prepared _ _ _ sh | PC_Send _ sh => Some sh
  | _ => None
  end.

Definition sh_ok sh : Prop := sh_token sh = None → sh_extras sh = [].
Definition p_ok (p : pc) : Prop := match shards_of p with Some sh => sh_ok sh | None => True end.

(** A goroutine that no longer owns the stream it was started for. *)
Definition gave_up (p : pc) : bool := match p with PC_Handed | PC_End => true | _ => false end.

Definition queues s : list stream := listed id (sv_chans s).
Definition gathered_all s : list stream := listed extras (sv_threads s).
(** Where the streams that changed hands are. *)
Definition places s : list stream := queues s ++ gathered_all s ++ sv_closed s.

(** What moves with one step of [t]. *)
Record moved t (p : pc) s s' : Prop := mkMoved {
  mv_thread : sv_threads s' = <[t := p]> (sv_threads s);
  mv_ok : p_ok p;
  mv_places : places s' ≡ₚ (if gave_up p then [t] else []) ++ places s;
  mv_closed : p = PC_End → t ∈ sv_closed s';
  mv_keep : sv_closed s ⊆ sv_closed s' }.

(** A change of channels and closed streams that loses none. *)
Record shuffled (xs : list stream) s s' : Prop := mkShuffled {
  sf_threads : sv_threads s' = sv_threads s;
  sf_perm : queues s' ++ sv_closed s' ≡ₚ xs ++ queues s ++ sv_closed s;
  sf_keep : sv_closed s ⊆ sv_closed s' }.

Lemma shuffled_same s s' : sv_threads s' = sv_threads s → sv_chans s' = sv_chans s → sv_closed s' = sv_closed s → shuffled [] s s'.
Proof. intros E1 E2 E3. split; [done|unfold queues; by rewrite E2, E3|by rewrite E3]. Qed.

Lemma shuffled_trans xs ys s1 s2 s3 : shuffled xs s1 s2 → shuffled ys s2 s3 → shuffled (xs ++ ys) s1 s3.
Proof.
  intros [E1 P1 K1] [E2 P2 K2]. split; [congruence| |set_solver].
  rewrite P2, P1. rewrite !(assoc_L (++)). do 2 apply Permutation_app_tail. apply Permutation_app_comm.
Qed.

Lemma drop_shuffled token s : shuffled [] s (drop_transfer token s).
Proof.
  unfold drop_transfer. destruct (sv_pending s !! token) as [ch|]; [|by apply shuffled_same].
  split; [done| |simpl; set_solver]. simpl. unfold queues. simpl. destruct (sv_chans s !! ch) as [q|] eqn:E; simpl.
  - pose proof (listed_insert id _ ch [] q E) as H. simpl in H. rewrite <- H.
    rewrite (Permutation_app_comm q), <- !(assoc_L (++)). apply Permutation_app_head, Permutation_app_comm.
  - rewrite (listed_new id _ ch [] E), app_nil_r. done.
Qed.

Lemma release_shuffled sh s : sh_ok sh → shuffled (sh_extras sh) s (release sh s).
Proof.
  intros Hs. unfold release. unfold sh_ok in Hs. destruct (sh_token sh) as [token|]; [|rewrite Hs by done; by apply shuffled_same].
  destruct (drop_shuffled token s) as [E P K]. split; [done| |simpl; set_solver].
  simpl. unfold queues in *. simpl. rewrite (assoc_L (++)), P. apply Permutation_app_comm.
Qed.

Lemma moved_end t o p s s0 : sv_threads s !! t = Some p → shuffled (extras p) s s0 → moved t PC_End s (end_op t o s0).
Proof.
  intros Ht [E P K]. assert (Ho : ∃ s1, end_op t o s0 = goto t PC_End (closeStream t s1) ∧ sv_threads s1 = sv_threads s0 ∧ sv_chans s1 = sv_chans s0 ∧ sv_closed s1 = sv_closed s0)
    by (destruct o; by eexists). destruct Ho as (s1 & -> & E1 & E2 & E3). split; [simpl; by rewrite E1, E|done| |intros _; simpl; set_solver|simpl; rewrite E3; set_solver].
  pose proof (listed_insert extras (sv_threads s) t PC_End p Ht) as H. simpl in H. unfold places, gathered_all, queues in *. simpl. rewrite E1, E2, E3, E.
  rewrite <- H. rewrite !(assoc_L (++)). rewrite Permutation_app_comm. simpl. constructor.
  rewrite <- !(assoc_L (++)). rewrite (Permutation_app_comm (listed extras _)), !(assoc_L (++)). rewrite P.
  rewrite <- !(assoc_L (++)). rewrite (Permutation_app_comm (sv_closed s)). rewrite !(assoc_L (++)). do 2 apply Permutation_app_tail.
  apply Permutation_app_comm.
Qed.

Lemma moved_end_here t o p s s0 : sv_threads s !! t = Some p → extras p = [] → shuffled [] s s0 → moved t PC_End s (end_op t o s0).
Proof. intros Ht He Hs. eapply moved_end; [done|by rewrite He]. Qed.

(** A goroutine goes on with the streams it has. *)
Lemma moved_on t p p' s s0 s' : sv_threads s !! t = Some p → shuffled [] s s0 → sv_threads s' = <[t := p']> (sv_threads s0) →
  sv_chans s' = sv_chans s0 → sv_closed s' = sv_closed s0 → gave_up p' = false → p_ok p' → extras p' = extras p → moved t p' s s'.
Proof.
  intros Ht [E P K] E1 E2 E3 Hg Hp He. split; [by rewrite E1, E|done| |by intros ->|by rewrite E3].
  rewrite Hg. simpl in P |- *. unfold places, gathered_all, queues in *. rewrite E1, E2, E3, E.
  pose proof (listed_insert extras (sv_threads s) t p' p Ht) as H. rewrite He in H. apply Permutation_app_inv_l in H. rewrite H.
  rewrite (Permutation_app_comm (listed extras _)), !(assoc_L (++)), P. rewrite <- !(assoc_L (++)). apply Permutation_app_head, Permutation_app_comm.
Qed.

Lemma same_shuffled s : shuffled [] s s.
Proof. by apply shuffled_same. Qed.

Lemma create_shuffled token s : shuffled [] s (create token s).2.
Proof.
  split; [done| |done]. unfold queues. simpl. rewrite listed_new by apply not_elem_of_dom, is_fresh. done.
Qed.

Lemma moved_offer t p q conns a token w b s s0 : sv_threads s !! t = Some p → extras p = [] → shuffled [] s s0 →
  ∃ p', moved t p' s (offer t q conns a token w b s0).
Proof.
  intros Ht He Hs. unfold offer. pose proof (create_shuffled token s0) as Hc. destruct (create token s0) as [ch s1]. simpl in Hc.
  pose proof (shuffled_trans _ _ _ _ _ Hs Hc) as Hs1. destruct b.
  - exists PC_End. eapply moved_end_here; [done..|]. exact (shuffled_trans _ _ _ _ _ Hs1 (drop_shuffled token s1)).
  - eexists. eapply moved_on; [done|exact Hs1|done..].
Qed.

Lemma pins_shuffled names : ∀ s, shuffled [] s (pin_names cf names s).1.
Proof.
  induction names as [|n names IH]; intros s; simpl; [apply same_shuffled|]. destruct (refs_Get cf s n); [|apply IH|apply same_shuffled].
  eapply (shuffled_trans [] []); [|apply IH]. by apply shuffled_same.
Qed.

Lemma moved_dispatch t m token b s : sv_threads s !! t = Some PC_Read → ∃ p', moved t p' s (dispatch_op cf t m token b s).
Proof.
  intros Ht. assert (Hend : ∀ o s0, shuffled [] s s0 → ∃ p', moved t p' s (end_op t o s0)) by (intros o s0 Hs; eexists; by eapply moved_end_here).
  assert (Hsame : ∀ o, ∃ p', moved t p' s (end_op t o s)) by (intros o; apply Hend, same_shuffled).
  assert (Hgo : ∀ p' s0 s1, shuffled [] s s0 → sv_threads s1 = <[t := p']> (sv_threads s0) → sv_chans s1 = sv_chans s0 → sv_closed s1 = sv_closed s0 →
    gave_up p' = false → p_ok p' → extras p' = [] → ∃ p', moved t p' s s1) by (intros; eexists; by eapply moved_on).
  unfold dispatch_op, push_begin, pull_begin, handlePin, handleRefList.
  repeat case_match; try apply Hsame; try (by apply moved_offer with PC_Read; [|done|apply shuffled_same]); try (by eapply (Hgo _ s); [apply same_shuffled|done..]).
  all: apply Hend; first [by apply shuffled_same|pose proof (pins_shuffled (m_Names m) s) as Hpin].
  all: match goal with E : pin_names _ _ _ = _ |- _ => by rewrite E in Hpin end.
Qed.

(** Handing the streams gathered so far on, one more among them or not. *)
Lemma moved_gathered t p q token out s : sv_threads s !! t = Some p → extras p = out → ∃ p', moved t p' s (gathered t q token out s).
Proof. intros Ht He. unfold gathered. destruct q; eexists; (eapply moved_on; [done|apply same_shuffled|done..]). Qed.

Lemma moved_take t q token ch n out s s' : sv_threads s !! t = Some (PC_Gather q token ch n out) →
  gather_take t q token ch n out s = Some s' → ∃ p', moved t p' s s'.
Proof.
  intros Ht. unfold gather_take. destruct (sv_chans s !! ch) as [[|rw qu]|] eqn:E; [done| |done]. cbv zeta. intros [= <-].
  set (p' := if bool_decide (n <= length (out ++ [rw]))%nat
    then match q with ForPush m root => PC_Receive m root (loop_start (S (length (out ++ [rw]))) root) (mkShards (Some token) (out ++ [rw]))
                    | ForPull => PC_Send (replicate (S (length (out ++ [rw]))) Sending) (mkShards (Some token) (out ++ [rw])) end
    else PC_Gather q token ch n (out ++ [rw])).
  assert (Hp : extras p' = out ++ [rw] ∧ gave_up p' = false ∧ p_ok p') by (unfold p'; case_bool_decide; [destruct q|]; done).
  destruct Hp as (Hx & Hg & Hk). exists p'.
  match goal with |- moved _ _ _ ?x => set (s1 := x); assert (E1 : sv_threads s1 = <[t := p']> (sv_threads s) ∧ sv_chans s1 = <[ch := qu]> (sv_chans s) ∧ sv_closed s1 = sv_closed s)
    by (unfold s1, p'; case_bool_decide; [destruct q|]; done) end.
  clearbody p' s1. destruct E1 as (E1 & E2 & E3). split; [done|done| |by intros ->|by rewrite E3]. rewrite Hg. simpl.
  unfold places, gathered_all, queues. rewrite E1, E2, E3. rewrite !(assoc_L (++)). apply Permutation_app_tail.
  pose proof (listed_insert id (sv_chans s) ch qu (rw :: qu) E) as H1. pose proof (listed_insert extras (sv_threads s) t p' _ Ht) as H2.
  rewrite Hx in H2. simpl in H1, H2. apply (Permutation_app_inv_l (rw :: qu ++ out)). transitivity (qu ++ (out ++ [rw]) ++ listed id (sv_chans s) ++ listed extras (sv_threads s)).
  2: { rewrite <- !(assoc_L (++)). simpl. rewrite (assoc_L (++) qu out), <- Permutation_middle. by rewrite <- !(assoc_L (++)). }
  transitivity ((rw :: qu ++ listed id (<[ch := qu]> (sv_chans s))) ++ out ++ listed extras (<[t := p']> (sv_threads s))).
  { simpl. constructor. rewrite <- !(assoc_L (++)). apply Permutation_app_head. rewrite !(assoc_L (++)). apply Permutation_app_tail, Permutation_app_comm. }
  rewrite H1, H2. rewrite <- !(assoc_L (++)). apply Permutation_app_head. rewrite !(assoc_L (++)). apply Permutation_app_tail. rewrite <- (assoc_L (++)). apply Permutation_app_comm.
Qed.

Lemma moved_attach t ch s s' ok : sv_threads s !! t = Some (PC_Attach ch) → attach_send ch t s = (s', ok) →
  ∃ p', moved t p' s (if ok then goto t PC_Handed s' else end_op t (Some (fail CodeBadRequest "unknown transfer token")) s').
Proof.
  intros Ht. unfold attach_send. destruct (Z.ltb _ _); intros [= <- <-]; [|eexists; eapply moved_end_here; [done|done|apply same_shuffled]].
  exists PC_Handed. split; [done|done| |done|done]. simpl. unfold places, gathered_all, queues. simpl. rewrite !(assoc_L (++)), app_comm_cons. apply Permutation_app_tail.
  pose proof (listed_insert extras (sv_threads s) t PC_Handed _ Ht) as H2. simpl in H2. rewrite H2, app_comm_cons. apply Permutation_app_tail.
  destruct (sv_chans s !! ch) as [q|] eqn:E; simpl.
  - pose proof (listed_insert id _ ch (q ++ [t]) q E) as H1. simpl in H1. apply (Permutation_app_inv_l q). rewrite H1. rewrite <- (assoc_L (++)). by simpl.
  - by rewrite (listed_new id _ ch [t] E).
Qed.

Lemma moved_locked t p m sh o s s0 : sv_threads s !! t = Some p → shards_of p = Some sh → extras p = sh_extras sh → sh_ok sh → shuffled [] s s0 →
  moved t PC_End s (end_locked t m sh o s0).
Proof.
  intros Ht Hs He Hk Hs0. unfold end_locked. eapply moved_end; [done|]. rewrite He. eapply (shuffled_trans [] (sh_extras sh)); [exact Hs0|].
  apply (shuffled_trans [] _ _ (unlock (m_Name m) s0)); [by apply shuffled_same|by apply release_shuffled].
Qed.

Lemma step_moved t i s s' p : sv_threads s !! t = Some p → p_ok p → step cf t i s = Some s' → ∃ p', gave_up p = false ∧ moved t p' s s'.
Proof.
  intros Ht Hk. unfold step. rewrite Ht. destruct p, i as [[m'|] tk b| | | | | |]; try done.
  - intros [= <-]. destruct (moved_dispatch t m' tk b s Ht). eauto.
  - intros [= <-]. exists PC_End. split; [done|]. eapply moved_end_here; [done|done|apply same_shuffled].
  - destruct (attach_send ch t s) as [s1 ok] eqn:E. intros [= <-]. destruct (moved_attach _ _ _ _ _ Ht E). eauto.
  - intros H. destruct (moved_take _ _ _ _ _ _ _ _ Ht H). eauto.
  - intros [= <-]. destruct (moved_gathered t _ p token out s Ht eq_refl). eauto.
  - unfold push_receive. destruct (receive_round _ _ _ _) as [st [lp'|[x [[]|e]]]]; intros [= <-]; eexists; (split; [done|]).
    + by eapply moved_on; [done|apply same_shuffled|..].
    + by eapply moved_on; [done|apply same_shuffled|..].
    + eapply moved_end; [done|]. simpl. apply (shuffled_trans [] _ _ (set_sv_objs st s)); [by apply shuffled_same|by apply release_shuffled].
  - case_match; [done|]. intros [= <-]. eexists. split; [done|]. by eapply moved_on; [done|apply same_shuffled|..].
  - intros [= <-]. unfold push_check. assert (He : ∀ o, ∃ p', false = false ∧ moved t p' s (end_locked t m sh o s))
      by (intros o; exists PC_End; split; [done|]; by eapply moved_locked; [| | | |apply same_shuffled]).
    assert (Hp : ∀ raw s1, sv_threads s1 = <[t := PC_Prepared m root raw sh]> (sv_threads s) → sv_chans s1 = sv_chans s → sv_closed s1 = sv_closed s → ∃ p', false = false ∧ moved t p' s s1)
      by (intros; eexists; split; [done|]; by eapply moved_on; [done|apply same_shuffled|..]).
    repeat case_match; try apply He; by eapply Hp.
  - intros [= <-]. exists PC_End. split; [done|]. unfold push_put. case_match; cbv zeta; (eapply moved_locked; [done|done|done|done|]; unfold guard_end; destruct (cf_guard cf); by apply shuffled_same).
  - destruct (cs !! i) as [[]|]; [|done..]. intros [= <-]. eexists. split; [done|]. by eapply moved_on; [done|apply same_shuffled|..].
  - unfold pull_end. destruct (existsb _ cs); [done|]. intros [= <-]. exists PC_End. split; [done|]. eapply moved_end; [done|]. by apply release_shuffled.
Qed.

Record streams_ok s : Prop := mkStreamsOk {
  st_nodup : NoDup (places s);
  st_place : ∀ u, u ∈ places s ↔ ∃ p, sv_threads s !! u = Some p ∧ gave_up p = true;
  st_ended : ∀ u, sv_threads s !! u = Some PC_End → u ∈ sv_closed s;
  st_shards : ∀ u p, sv_threads s !! u = Some p → p_ok p }.

Lemma ok_moved t p p' s s' : streams_ok s → sv_threads s !! t = Some p → gave_up p = false → moved t p' s s' → streams_ok s'.
Proof.
  intros [Hn Hp He Hs] Ht Hg [E Hk P Hc K]. assert (Hnt : t ∉ places s) by (intros (q & Hq & Hgq)%Hp; congruence). split.
  - rewrite P. destruct (gave_up p'); [constructor|]; done.
  - intros u. rewrite P, elem_of_app, Hp, E. destruct (decide (u = t)) as [->|Hu].
    + rewrite lookup_insert_eq. split.
      * intros [Hin|(q & Hq & Hgq)]; [|congruence]. exists p'. split; [done|]. by destruct (gave_up p'); [|apply elem_of_nil in Hin].
      * intros (q & [= <-] & ->). left. left.
    + rewrite lookup_insert_ne by done. split; [|by right]. intros [Hin|]; [|done]. destruct (gave_up p'); [|by apply elem_of_nil in Hin].
      by apply list_elem_of_singleton in Hin.
  - intros u. rewrite E. destruct (decide (u = t)) as [->|Hu]; [rewrite lookup_insert_eq; intros [= Hq]; by apply Hc|].
    rewrite lookup_insert_ne by done. intros Hq. by apply K, He.
  - intros u q. rewrite E. destruct (decide (u = t)) as [->|Hu]; [rewrite lookup_insert_eq; by intros [= <-]|]. rewrite lookup_insert_ne by done. apply Hs.
Qed.

Lemma happens_streams s s' : happens cf s s' → streams_ok s → streams_ok s'.
Proof.
  intros [t s1 Ht|t i s1 s2 Hst|name raw s1|st s1 Hg] Hok; [| |by destruct Hok as [? ? ? ?]..].
  - destruct Hok as [Hn Hp He Hs]. assert (P : places (goto t PC_Read s1) ≡ₚ places s1).
    { unfold places, gathered_all, queues. simpl. by rewrite (listed_new extras _ t PC_Read Ht). }
    split; [by rewrite P| | |]; simpl.
    + intros u. rewrite P, Hp. destruct (decide (u = t)) as [->|Hu]; [|by rewrite lookup_insert_ne].
      rewrite lookup_insert_eq. split; intros (q & Hq & Hgq); [congruence|injection Hq as <-; done].
    + intros u. destruct (decide (u = t)) as [->|Hu]; [by rewrite lookup_insert_eq|]. rewrite lookup_insert_ne by done. apply He.
    + intros u q. destruct (decide (u = t)) as [->|Hu]; [rewrite lookup_insert_eq; by intros [= <-]|]. rewrite lookup_insert_ne by done. apply Hs.
  - destruct (sv_threads s1 !! t) as [p|] eqn:Ht; [|unfold step in Hst; by rewrite Ht in Hst].
    destruct (step_moved t i s1 s2 p Ht (st_shards _ Hok _ _ Ht) Hst) as (p' & Hg & Hm). by eapply ok_moved.
Qed.

Lemma reachable_streams objs refs s : reachable cf objs refs s → streams_ok s.
Proof.
  intros H. assert (Hok : streams_ok (New objs refs)).
  { split; simpl; [constructor| |intros ?; by rewrite lookup_empty|intros ? ?; by rewrite lookup_empty].
    intros u. split; [by intros ?%elem_of_nil|]. intros (p & Hp & _). by rewrite lookup_empty in Hp. }
  induction H; eauto using happens_streams.
Qed.

(** A stream has one owner: however operations interleave, no stream is
    closed twice; the stream of an operation that ended is closed; a stream
    still served by its own goroutine is neither closed nor in anyone else's
    hands; and a stream that was handed to a transfer is in exactly one place -
    waiting in its channel, gathered, or closed. *)
Theorem stream_single_owner objs refs s u p :
  reachable cf objs refs s → sv_threads s !! u = Some p →
  NoDup (queues s ++ gathered_all s ++ sv_closed s) ∧
  match p with
  | PC_End => u ∈ sv_closed s ∧ (u ∉ queues s) ∧ (u ∉ gathered_all s)
  | PC_Handed => u ∈ (queues s ++ gathered_all s ++ sv_closed s)
  | _ => u ∉ (queues s ++ gathered_all s ++ sv_closed s)
  end.
Proof.
  intros [Hn Hp He _]%reachable_streams Hu. split; [exact Hn|]. fold (places s).
  assert (Hin : u ∈ places s ↔ gave_up p = true) by (rewrite Hp; split; [intros (q & Hq & ?); congruence|eauto]).
  destruct p; try (rewrite Hin; done). specialize (He u Hu). apply NoDup_app in Hn as (_ & Hd & Hn). apply NoDup_app in Hn as (_ & Hd' & _).
  split_and!; [done| |]; intros Hx; [by apply (Hd u Hx), elem_of_app; right|by apply (Hd' u Hx)].
Qed.

(** ** A hand-over without an owner *)

(** A stream waits in a channel that no registered transfer has and no
    goroutine gathers from. *)
Record orphan u (ch : chan) s : Prop := mkOrphan {
  or_queued : u ∈ default [] (sv_chans s !! ch);
  or_pending : ∀ token, sv_pending s !! token ≠ Some ch;
  or_gather : ∀ t q token n out, sv_threads s !! t ≠ Some (PC_Gather q token ch n out) }.

Lemma orphan_goto u ch t p s : orphan u ch s → (∀ q token n out, p ≠ PC_Gather q token ch n out) → orphan u ch (goto t p s).
Proof.
  intros [H1 H2 H3] Hp. split; [done|done|]. intros t' q token n out. simpl.
  destruct (decide (t' = t)) as [->|]; [rewrite lookup_insert_eq; intros [= E]; by apply Hp in E|]. by rewrite lookup_insert_ne.
Qed.

Lemma orphan_drop u ch token s : orphan u ch s → orphan u ch (drop_transfer token s).
Proof.
  intros [H1 H2 H3]. unfold drop_transfer. destruct (sv_pending s !! token) as [c|] eqn:E; [|done]. assert (c ≠ ch) by (intros ->; by apply H2 in E).
  split; simpl; [by rewrite lookup_insert_ne| |done]. intros tk [_ Hk]%lookup_delete_Some. by apply H2 in Hk.
Qed.

Lemma orphan_same u ch s s' : orphan u ch s → sv_chans s' = sv_chans s → sv_pending s' = sv_pending s → sv_threads s' = sv_threads s → orphan u ch s'.
Proof. intros [H1 H2 H3] E1 E2 E3. split; rewrite ?E1, ?E2, ?E3; done. Qed.

Lemma orphan_release u ch sh s : orphan u ch s → orphan u ch (release sh s).
Proof. intros H. unfold release. case_match; [|done]. eapply orphan_same; [by apply orphan_drop|done..]. Qed.

Lemma orphan_end u ch t o s : orphan u ch s → orphan u ch (end_op t o s).
Proof. intros H. unfold end_op. apply orphan_goto; [|done]. by destruct o; eapply orphan_same. Qed.

Lemma orphan_locked u ch t m sh o s : orphan u ch s → orphan u ch (end_locked t m sh o s).
Proof. intros H. unfold end_locked. apply orphan_end, orphan_release. by eapply orphan_same. Qed.

Lemma orphan_offer u ch t q conns a token w b s : orphan u ch s → orphan u ch (offer t q conns a token w b s).
Proof.
  intros H. unfold offer. destruct (create token s) as [c s1] eqn:E. injection E as Ec Es.
  assert (Hne : c ≠ ch). { intros ->. destruct H as [H _ _]. revert H. rewrite (not_elem_of_dom_1 (sv_chans s) ch); [by intros ?%elem_of_nil|]. rewrite <- Ec. apply is_fresh. }
  assert (H1 : orphan u ch s1).
  { destruct H as [H1 H2 H3]. subst s1. split; simpl; [rewrite lookup_insert_ne by congruence; done| |done].
    intros tk [[_ Hk]|[_ Hk]]%lookup_insert_Some; [congruence|by apply H2 in Hk]. }
  destruct b; [by apply orphan_end, orphan_drop|]. apply orphan_goto; [by eapply orphan_same|]. intros ? ? ? ? [= _ _ Hc _]. congruence.
Qed.

Lemma orphan_pins u ch names : ∀ s, orphan u ch s → orphan u ch (pin_names cf names s).1.
Proof.
  induction names as [|n names IH]; intros s H; simpl; [done|]. destruct (refs_Get cf s n); [|by apply IH|done]. apply IH. by eapply orphan_same.
Qed.

Lemma orphan_dispatch u ch t m token b s : orphan u ch s → orphan u ch (dispatch_op cf t m token b s).
Proof.
  intros H. unfold dispatch_op, push_begin, pull_begin, handlePin, handleRefList.
  repeat case_match; try (by apply orphan_end); try (by apply orphan_offer); try (by apply orphan_goto);
    try (by apply orphan_end; eapply orphan_same); try (by apply orphan_offer; eapply orphan_same);
    try (by apply orphan_goto; [eapply orphan_same|]);
    match goal with E : pin_names _ _ _ = _ |- _ => pose proof (orphan_pins u ch (m_Names m) s H) as Hp; rewrite E in Hp; by apply orphan_end end.
Qed.

Lemma orphan_step u ch t i s s' : orphan u ch s → step cf t i s = Some s' → orphan u ch s'.
Proof.
  intros H. unfold step. destruct (sv_threads s !! t) as [p|] eqn:Ht; [|done]. destruct p, i as [[m'|] tk b| | | | | |]; try done.
  - intros [= <-]. by apply orphan_dispatch.
  - intros [= <-]. by apply orphan_end.
  - unfold attach_send. destruct (Z.ltb _ _); intros [= <-]; [|by apply orphan_end]. apply orphan_goto; [|done].
    destruct H as [H1 H2 H3]. split; simpl; [|done|done]. destruct (decide (ch0 = ch)) as [->|]; [|by rewrite lookup_insert_ne].
    rewrite lookup_insert_eq. simpl. apply elem_of_app. by left.
  - unfold gather_take. destruct (decide (ch0 = ch)) as [->|Hne]; [by apply (or_gather _ _ _ H) in Ht|].
    destruct (sv_chans s !! ch0) as [[|rw qu]|]; [done| |done]. intros [= <-].
    assert (H' : orphan u ch (set_sv_chans (<[ch0 := qu]> (sv_chans s)) s)) by (destruct H as [H1 H2 H3]; split; simpl; [by rewrite lookup_insert_ne|done..]).
    case_bool_decide; [|apply orphan_goto; [done|congruence]]. unfold gathered. destruct p; by apply orphan_goto.
  - intros [= <-]. unfold gathered. destruct p; by apply orphan_goto.
  - unfold push_receive. destruct (receive_round _ _ _ _) as [st o]. assert (H' : orphan u ch (set_sv_objs st s)) by (by eapply orphan_same).
    destruct o as [lp'|[x [[]|e]]]; intros [= <-]; [by apply orphan_goto..|]. by apply orphan_end, orphan_release.
  - case_match; [done|]. intros [= <-]. apply orphan_goto; [by eapply orphan_same|done].
  - intros [= <-]. unfold push_check. repeat case_match; try (by apply orphan_locked); (apply orphan_goto; [by eapply orphan_same|done]).
  - intros [= <-]. unfold push_put, guard_end. repeat case_match; cbv zeta; apply orphan_locked; by eapply orphan_same.
  - destruct (cs !! i) as [[]|]; [|done..]. intros [= <-]. by apply orphan_goto.
  - unfold pull_end. destruct (existsb _ cs); [done|]. intros [= <-]. by apply orphan_end, orphan_release.
Qed.

Lemma orphan_for_good objs refs u ch s s' : reachable cf objs refs s → orphan u ch s → rtc (happens cf) s s' → u ∉ sv_closed s'.
Proof.
  intros Hr Ho Hs. assert (Hr' : reachable cf objs refs s') by (by eapply rtc_trans). assert (Ho' : orphan u ch s').
  { clear Hr Hr'. induction Hs as [|s s1 s2 Hh _ IH]; [done|]. apply IH. destruct Hh; [by apply orphan_goto|by eapply orphan_step|by eapply orphan_same..]. }
  destruct (reachable_streams _ _ _ Hr') as [Hn _ _ _]. apply NoDup_app in Hn as (_ & Hd & _). intros Hc. apply (Hd u); [|apply elem_of_app; by right].
  destruct Ho' as [Hq _ _]. unfold queues, listed. destruct (sv_chans s' !! ch) as [q|] eqn:E; [|by apply elem_of_nil in Hq].
  apply list_elem_of_In, in_concat. exists q. split; [|by apply list_elem_of_In]. apply list_elem_of_In. rewrite list_fmap_id.
  apply list_elem_of_fmap. exists (ch, q). split; [done|]. by apply elem_of_map_to_list.
Qed.
End Streams.

(** * The store server on concrete streams

    A codec for reference records and runs of the server, for the theorems of
    AmberServerFacts and AmberStreams. *)
From S2P Require Import Prelude GoLib Keys Wire LogBuf Frames Sync SyncFacts AmberServer AmberServerFacts.
From Stdlib Require Import Ascii.

(** A countable type as strings of bits. *)
Fixpoint bits (p : positive) : string :=
  match p with xH => "" | xO p => String "0" (bits p) | xI p => String "1" (bits p) end.
Fixpoint unbits (s : string) : positive :=
  match s with String "0" s => xO (unbits s) | String _ s => xI (unbits s) | EmptyString => xH end.

Lemma unbits_bits p : unbits (bits p) = p.
Proof. induction p as [p IH|p IH|]; simpl; congruence. Qed.

Global Instance Reference_eq_dec : EqDecision Reference.
Proof. solve_decision. Defined.
Global Instance Reference_countable : Countable Reference.
Proof.
  refine (inj_countable' (λ r, (rf_Name r, rf_Key r, rf_CreatedAt r, rf_User r)) (λ '(a, b, c, d), mkReference a b c d) _). by intros [].
Defined.

Definition bits_Encode (r : Reference) : result string string := Ok (bits (encode r)).
Definition bits_Decode (b : string) : result string Reference :=
  match decode (unbits b) with Some r => Ok r | None => Err "bad record" end.

Lemma bits_round r b : bits_Encode r = Ok b → bits_Decode b = Ok r.
Proof. intros [= <-]. unfold bits_Decode. by rewrite unbits_bits, decode_encode. Qed.

Definition bits_refs : RefCodec := {|
  ref_ValidateName := λ n, negb (String.eqb n "");
  ref_Encode := bits_Encode; ref_Decode := bits_Decode; refs_All := map_to_list;
  ref_Decode_Encode := bits_round; refs_All_perm := λ m, reflexivity _ |}.

#[local] Existing Instance string_keys.
#[local] Existing Instance chain_store.
#[local] Existing Instance bits_refs.

(** No faults, a guard that lets everything pass. *)
Definition plain_cf : config := mkConfig (Some (λ _, Ok tt)) (λ _, None) (λ _, None) [] [].

Definition push_msg (name root old : string) (conns : Z) : Msg :=
  mkMsg TPush name (String "k" root) true old "" [] [] [] "" "" "" "" "" conns [] [] [].
Definition attach_msg (token : string) : Msg := mkMsg TAttach "" "" false "" "" [] [] [] "" "" "" "" token 0 [] [] [].

(** What peers and goroutines do, one after the other. *)
Inductive act := Open (t : thread) | Go (t : thread) (i : input).
Definition act_step (a : act) (s : Server) : option Server :=
  match a with
  | Open t => match sv_threads s !! t with None => Some (goto t PC_Read s) | Some _ => None end
  | Go t i => step plain_cf t i s
  end.
Fixpoint run (l : list act) (s : Server) : option Server :=
  match l with [] => Some s | a :: l => match act_step a s with Some s => run l s | None => None end end.

Lemma run_reachable objs refs l s : run l (New objs refs) = Some s → reachable plain_cf objs refs s.
Proof.
  unfold reachable. generalize (New objs refs). induction l as [|a l IH]; intros s0; simpl; [by intros [= ->]|].
  destruct (act_step a s0) as [s1|] eqn:E; [|done]. intros H. eapply rtc_l; [|by apply IH].
  destruct a as [t|t i]; simpl in E; [|by eapply h_step]. destruct (sv_threads s0 !! t) eqn:Et; [done|]. injection E as <-. by constructor.
Qed.

Definition good_peer (shards : list (list string)) : round_env := chain_peer (length shards) 0 shards.
Definition bad_peer (shards : list (list string)) : round_env := mkRound (λ _, Some "gone") (λ _, mkReply [] None) [] [].

(** Two pushes of one name race; both expect it absent, the second loses. *)
Definition race : list act :=
  [Open 1; Open 2; Go 1 (InFrame (Ok (push_msg "n" "ab" "" 0)) (Err "no") false); Go 2 (InFrame (Ok (push_msg "n" "b" "" 0)) (Err "no") false);
   Go 1 (InRound good_peer); Go 2 (InRound good_peer); Go 1 (InRound good_peer); Go 1 (InRound good_peer); Go 1 (InRound good_peer);
   Go 2 (InRound good_peer); Go 1 InGo; Go 1 (InTime 7); Go 1 InGo; Go 2 InGo; Go 2 (InTime 8)].

(** A transfer gives up between the two halves of an attach. *)
Definition late_attach : list act :=
  [Open 1; Open 2; Go 1 (InFrame (Ok (push_msg "n" "ab" "" 1)) (Ok "tok") false); Go 2 (InFrame (Ok (attach_msg "tok")) (Err "no") false);
   Go 1 InDeadline; Go 1 (InRound bad_peer); Go 2 InGo].
Definition fresh_server : Server := New (∅ : gset string) ∅.

Definition ran {A} (o : option A) : bool := match o with Some _ => true | None => false end.
Lemma run_default l : ran (run l fresh_server) = true → reachable plain_cf (∅ : gset string) ∅ (default fresh_server (run l fresh_server)).
Proof. intros H. apply (run_reachable _ _ l). fold fresh_server. by destruct (run l fresh_server). Qed.

Definition raced : Server := default fresh_server (run race fresh_server).
Definition leaked : Server := default fresh_server (run late_attach fresh_server).
(** Before the second push gets the lock, while the first has it. *)
Definition contended : Server := default fresh_server (run (take 11 race) fresh_server).

Lemma raced_reachable : reachable plain_cf (∅ : gset string) ∅ raced.
Proof. apply (run_default race). vm_compute. reflexivity. Qed.
Lemma leaked_reachable : reachable plain_cf (∅ : gset string) ∅ leaked.
Proof. apply (run_default late_attach). vm_compute. reflexivity. Qed.
Lemma contended_reachable : reachable plain_cf (∅ : gset string) ∅ contended.
Proof. apply (run_default (take 11 race)). vm_compute. reflexivity. Qed.

Definition pushed_raw : string := Eval vm_compute in default "" (sv_refs raced !! "n").

Lemma push_commits_complete_witness :
  Pushed 1 (push_msg "n" "ab" "" 0) "ab" pushed_raw ∈ sv_log raced ∧
  @complete string_keys (chain_get (sv_objs raced)) chain_kids "ab".
Proof.
  assert (Hin : Pushed 1 (push_msg "n" "ab" "" 0) "ab" pushed_raw ∈ sv_log raced) by (vm_compute; left).
  split; [exact Hin|]. exact (proj1 (push_commits_complete plain_cf _ _ _ _ _ _ _ raced_reachable Hin)).
Defined.

Lemma push_cas_atomic_witness : current (apply_writes ∅ []) "n" = Some "" ∧ sv_refs raced = apply_writes ∅ (sv_log raced).
Proof.
  destruct (push_cas_atomic plain_cf _ _ _ raced_reachable) as [Hr Hc]. split; [|exact Hr].
  apply (Hc [] 1%nat (push_msg "n" "ab" "" 0) "ab" pushed_raw []); [vm_compute; reflexivity|reflexivity|].
  intros raw Hin. change (Outside "n" raw ∈ [Pushed 1 (push_msg "n" "ab" "" 0) "ab" pushed_raw]) in Hin. apply list_elem_of_singleton in Hin. discriminate Hin.
Defined.

Lemma push_lock_progress_witness :
  (∃ s', step plain_cf 2 InGo contended = Some s' ∧ sv_locks s' !! "n" = Some 2%nat) ∨
  ∃ h, sv_locks contended !! "n" = Some h ∧ ∀ now, ∃ s1,
    (step plain_cf h (InTime now) contended = Some s1 ∨ step plain_cf h InGo contended = Some s1) ∧
    (sv_locks s1 !! "n" = None ∨ ∃ s2, step plain_cf h InGo s1 = Some s2 ∧ sv_locks s2 !! "n" = None).
Proof. apply (push_lock_progress plain_cf _ _ contended 2%nat (push_msg "n" "b" "" 0) "b" (mkShards None []) contended_reachable). vm_compute. reflexivity. Defined.

Lemma stream_single_owner_witness : 2%nat ∈ (queues leaked ++ gathered_all leaked ++ sv_closed leaked).
Proof. apply (stream_single_owner plain_cf _ _ leaked 2%nat PC_Handed leaked_reachable). vm_compute. reflexivity. Defined.

(** A stream can be lost: [attach] looks its transfer up and sends on the
    channel in two steps, and a transfer that is dropped in between has already
    drained it. The stream is then accepted, waits in a channel nobody reads,
    and is never closed, whatever the server does afterwards. *)
Theorem attach_leak :
  ∃ s u, reachable plain_cf (∅ : gset string) ∅ s ∧ sv_threads s !! u = Some PC_Handed ∧ sv_pending s = ∅ ∧
    ∀ s', rtc (happens plain_cf) s s' → u ∉ sv_closed s'.
Proof.
  exists leaked, 2%nat. split_and!; [apply leaked_reachable|vm_compute; reflexivity|vm_compute; reflexivity|].
  intros s' Hs. apply (orphan_for_good plain_cf _ _ 2%nat 0%nat leaked s' leaked_reachable); [|done].
  split; [vm_compute; left|intros token; vm_compute; discriminate|].
  intros t q token n out Ht. assert (Hin : (t, PC_Gather q token 0%nat n out) ∈ map_to_list (sv_threads leaked)) by (by apply elem_of_map_to_list).
  change (map_to_list (sv_threads leaked)) with [(2%nat, @PC_Handed string_keys); (1%nat, PC_End)] in Hin.
  apply elem_of_cons in Hin as [Hin|Hin]; [discriminate Hin|]. apply list_elem_of_singleton in Hin. discriminate Hin.
Qed.
