(* ===== verification/Pool.v ===== *)
(** * The client's pool of shard connections (src/amberclient/pool.go)

    Concurrent transfers share pooled connections: [acquire] evicts unusable
    entries, starts background dials, waits when nothing can be picked yet and
    hands out the least loaded entries; [release], [discard], the idle sweep
    and [drain] give them back or close them. The state is the pool, the
    entries by identity, the calls of [close], and where every goroutine
    stands; a step is one critical section under the pool's mutex. What a step
    reads from outside - the clock, the fate and path of a connection - is its
    input. *)
From S2P Require Import Prelude GoLib.
Local Open Scope string_scope.
Local Open Scope list_scope.

Definition poolEntryMaxUses : Z := 90.
Definition punchAbandon : Z := 5 * 60 * 1000000000.

(** A pooled connection, by its number in the order of dialling; [pe_id] is the
    authenticated identity, [""] the zero one. *)
Abbreviation conn := nat.

Record poolEntry := mkPE { pe_id : string; pe_streams : Z; pe_uses : Z; pe_dialed : Z; pe_lastUsed : Z }.

Record shardPool := mkPool {
  sp_baseline : Z; sp_max : Z; sp_entries : list conn; sp_dialing : Z; sp_wake : option nat; sp_active : Z;
  (** whether the idle timer is armed *) sp_sweep : bool; sp_closed : bool }.

Definition set_sp_entries x p := mkPool (sp_baseline p) (sp_max p) x (sp_dialing p) (sp_wake p) (sp_active p) (sp_sweep p) (sp_closed p).
Definition set_sp_dialing x p := mkPool (sp_baseline p) (sp_max p) (sp_entries p) x (sp_wake p) (sp_active p) (sp_sweep p) (sp_closed p).
Definition set_sp_wake x p := mkPool (sp_baseline p) (sp_max p) (sp_entries p) (sp_dialing p) x (sp_active p) (sp_sweep p) (sp_closed p).
Definition set_sp_active x p := mkPool (sp_baseline p) (sp_max p) (sp_entries p) (sp_dialing p) (sp_wake p) x (sp_sweep p) (sp_closed p).
Definition set_sp_sweep x p := mkPool (sp_baseline p) (sp_max p) (sp_entries p) (sp_dialing p) (sp_wake p) (sp_active p) x (sp_closed p).
Definition set_sp_closed x p := mkPool (sp_baseline p) (sp_max p) (sp_entries p) (sp_dialing p) (sp_wake p) (sp_active p) (sp_sweep p) x.

Definition newShardPool (baseline max : Z) : shardPool :=
  let baseline := if (baseline <? 1)%Z then 1%Z else baseline in
  let max := if (max <? baseline)%Z then baseline else max in
  mkPool baseline max [] 0 None 0 false false.

(** Where the goroutine of a transfer stands. *)
Inductive pool_pc :=
| Waiting (k : Z) (directOnly : bool)
| Blocked (ch : nat) (k : Z) (directOnly : bool)
| Picking (k : Z) (directOnly : bool)
| Holding (picked : list conn) (fresh : list conn) (parked : Z)
| Refused
| Released.

(** The pool with everything around it: entries, closed connections in the
    order of the calls, closed wake channels, dials in flight by slot. *)
Record world := mkWorld {
  wo_pool : shardPool; wo_heap : gmap conn poolEntry; wo_next : nat; wo_closes : list conn;
  wo_chan : nat; wo_woken : gset nat; wo_dials : list Z; wo_threads : gmap nat pool_pc }.

Definition set_pool x w := mkWorld x (wo_heap w) (wo_next w) (wo_closes w) (wo_chan w) (wo_woken w) (wo_dials w) (wo_threads w).
Definition set_heap x w := mkWorld (wo_pool w) x (wo_next w) (wo_closes w) (wo_chan w) (wo_woken w) (wo_dials w) (wo_threads w).
Definition set_next x w := mkWorld (wo_pool w) (wo_heap w) x (wo_closes w) (wo_chan w) (wo_woken w) (wo_dials w) (wo_threads w).
Definition set_closes x w := mkWorld (wo_pool w) (wo_heap w) (wo_next w) x (wo_chan w) (wo_woken w) (wo_dials w) (wo_threads w).
Definition set_chan x w := mkWorld (wo_pool w) (wo_heap w) (wo_next w) (wo_closes w) x (wo_woken w) (wo_dials w) (wo_threads w).
Definition set_woken x w := mkWorld (wo_pool w) (wo_heap w) (wo_next w) (wo_closes w) (wo_chan w) x (wo_dials w) (wo_threads w).
Definition set_dials x w := mkWorld (wo_pool w) (wo_heap w) (wo_next w) (wo_closes w) (wo_chan w) (wo_woken w) x (wo_threads w).
Definition set_threads x w := mkWorld (wo_pool w) (wo_heap w) (wo_next w) (wo_closes w) (wo_chan w) (wo_woken w) (wo_dials w) x.

Definition initial (baseline max : Z) : world := mkWorld (newShardPool baseline max) ∅ 0 [] 0 ∅ [] ∅.

(** What a step reads from outside: the time, and of each connection whether
    it is dead and whether it rides a relay. *)
Record outside := mkOutside { ou_now : Z; ou_dead : conn → bool; ou_relayed : conn → bool }.

Definition goto_pool (t : nat) (x : pool_pc) (w : world) : world := set_threads (<[t := x]> (wo_threads w)) w.
Definition close_all (cs : list conn) (w : world) : world := set_closes (wo_closes w ++ cs) w.
Definition entry (w : world) (c : conn) : poolEntry := default (mkPE "" 0 0 0 0) (wo_heap w !! c).

(** [wakeLocked] closes the channel, [waitChLocked] makes one when there is none. *)
Definition wakeLocked (w : world) : world :=
  match sp_wake (wo_pool w) with
  | Some ch => set_woken ({[ch]} ∪ wo_woken w) (set_pool (set_sp_wake None (wo_pool w)) w)
  | None => w
  end.

Definition waitChLocked (w : world) : nat * world :=
  match sp_wake (wo_pool w) with
  | Some ch => (ch, w)
  | None => (wo_chan w, set_chan (S (wo_chan w)) (set_pool (set_sp_wake (Some (wo_chan w)) (wo_pool w)) w))
  end.

Section Steps.
Context (o : outside).

Definition usable (directOnly : bool) (c : conn) : bool := negb (directOnly && ou_relayed o c).

Definition pickableLocked (directOnly : bool) (w : world) : Z := Z.of_nat (length (List.filter (usable directOnly) (sp_entries (wo_pool w)))).

(** ** acquire: evicting *)

(** [eps]: the identities the server advertises, [None] where one does not parse. *)
Definition stale (eps : list (option string)) (w : world) (c : conn) : bool :=
  let e := entry w c in
  ou_dead o c
  || (negb (bool_decide (eps = [])) && negb (String.eqb (pe_id e) "") && negb (existsb (λ r, bool_decide (r = Some (pe_id e))) eps))
  || ((pe_streams e =? 0) && (poolEntryMaxUses <=? pe_uses e))%Z
  || ((pe_streams e =? 0) && (punchAbandon <? ou_now o - pe_dialed e) && ou_relayed o c)%Z.

Definition evict_stale (eps : list (option string)) (w : world) : world :=
  let es := sp_entries (wo_pool w) in
  close_all (List.filter (stale eps w) es) (set_pool (set_sp_entries (List.filter (λ c, negb (stale eps w c)) es) (wo_pool w)) w).

(** ** acquire: growing *)

Definition perID (w : world) (id : string) : Z :=
  Z.of_nat (length (List.filter (λ c, String.eqb (pe_id (entry w c)) id) (sp_entries (wo_pool w)))).

(** The advertised endpoints, those with the fewest connections first. *)
Definition ranked (eps : list (option string)) (w : world) : list Z :=
  let count (i : Z) := match eps !! Z.to_nat i with Some (Some id) => perID w id | _ => (-1)%Z end in
  ssort (λ a b, (count a <=? count b)%Z) (seqZ 0 (Z.of_nat (length eps))).

Definition grow_need (k : Z) (p : shardPool) : Z :=
  let target := Z.min (i64 (sp_baseline p * sp_active p)) (sp_max p) in
  Z.min (target - Z.of_nat (length (sp_entries p)) - sp_dialing p) k.

Definition grow_slots (k : Z) (eps : list (option string)) (w : world) : list Z :=
  let need := grow_need k (wo_pool w) in
  if ((0 <? need)%Z && negb (bool_decide (eps = []))) then
    let idx := ranked eps w in
    (λ i, default 0%Z (idx !! Z.to_nat (i mod Z.of_nat (length idx)))) <$> seqZ 0 need
  else seqZ 0 need.

(** The first critical section: evict, decide how many dials to start, and
    whether to wait for them. *)
Definition acquire_enter (t : nat) (k : Z) (directOnly : bool) (eps : list (option string)) (w : world) : world :=
  if sp_closed (wo_pool w) then goto_pool t Refused w
  else
    let w := set_pool (set_sp_sweep false (set_sp_active (sp_active (wo_pool w) + 1) (wo_pool w))) w in
    let w := evict_stale eps w in
    let slots := grow_slots k eps w in
    let w := set_pool (set_sp_dialing (sp_dialing (wo_pool w) + Z.of_nat (length slots)) (wo_pool w)) w in
    let cold := ((pickableLocked directOnly w =? 0) && (0 <? sp_dialing (wo_pool w)))%Z in
    goto_pool t (if cold then Waiting k directOnly else Picking k directOnly) (set_dials (wo_dials w ++ slots) w).

(** One round of the wait of a cold pool. *)
Definition acquire_check (t : nat) (k : Z) (directOnly : bool) (w : world) : world :=
  if ((k <=? pickableLocked directOnly w) || (sp_dialing (wo_pool w) =? 0))%Z then goto_pool t (Picking k directOnly) w
  else let '(ch, w) := waitChLocked w in goto_pool t (Blocked ch k directOnly) w.

(** ** acquire: picking *)

(** The order of picking: fewest streams first, then the latest used. *)
Definition load_leb (w : world) (a b : conn) : bool :=
  let ea := entry w a in let eb := entry w b in
  if (pe_streams ea =? pe_streams eb)%Z then (pe_lastUsed eb <=? pe_lastUsed ea)%Z else (pe_streams ea <? pe_streams eb)%Z.

(** The least loaded usable entries, at most [k]. *)
Definition pick (k : Z) (directOnly : bool) (es : list conn) : list conn := take (Z.to_nat k) (List.filter (usable directOnly) es).

Definition use_entry (e : poolEntry) : poolEntry := mkPE (pe_id e) (pe_streams e + 1) (pe_uses e + 1) (pe_dialed e) (ou_now o).
Definition put_entry (e : poolEntry) : poolEntry := mkPE (pe_id e) (pe_streams e - 1) (pe_uses e) (pe_dialed e) (ou_now o).

Definition on_entries (f : poolEntry → poolEntry) (cs : list conn) (w : world) : world :=
  set_heap (foldr (λ c h, alter f c h) (wo_heap w) cs) w.

Definition acquire_pick (t : nat) (k : Z) (directOnly : bool) (w : world) : world :=
  let es := ssort (load_leb w) (sp_entries (wo_pool w)) in
  let picked := pick k directOnly es in
  let parked := Z.of_nat (length (List.filter (λ c, negb (usable directOnly c)) es)) in
  let w := on_entries use_entry picked (set_pool (set_sp_entries es (wo_pool w)) w) in
  let fresh := List.filter (λ c, (pe_uses (entry w c) =? 1)%Z) picked in
  goto_pool t (Holding picked fresh parked) w.

(** ** Giving back *)

Definition release (t : nat) (picked : list conn) (w : world) : world :=
  let w := on_entries put_entry picked w in
  let p := set_sp_active (sp_active (wo_pool w) - 1) (wo_pool w) in
  let p := if ((sp_active p =? 0)%Z && negb (sp_closed p)) then set_sp_sweep true p else p in
  goto_pool t Released (set_pool p w).

(** One background dial ends: with a connection of some identity, or not. *)
Definition dialSlot (res : option string) (w : world) : world :=
  let w := set_pool (set_sp_dialing (sp_dialing (wo_pool w) - 1) (wo_pool w)) w in
  match res with
  | None => wakeLocked w
  | Some id =>
      let c := wo_next w in
      let w := set_next (S c) w in
      if sp_closed (wo_pool w) then wakeLocked (close_all [c] w)
      else wakeLocked (set_pool (set_sp_entries (sp_entries (wo_pool w) ++ [c]) (wo_pool w))
             (set_heap (<[c := mkPE id 0 0 (ou_now o) (ou_now o)]> (wo_heap w)) w))
  end.

Definition discard (drop : list conn) (w : world) : world :=
  let es := sp_entries (wo_pool w) in
  close_all (List.filter (λ c, bool_decide (c ∈ drop)) es)
    (set_pool (set_sp_entries (List.filter (λ c, negb (bool_decide (c ∈ drop))) es) (wo_pool w)) w).

(** The order of the idle sweep: direct paths first, then the latest used. *)
Definition sweep_leb (w : world) (a b : conn) : bool :=
  if eqb (ou_relayed o a) (ou_relayed o b) then (pe_lastUsed (entry w b) <=? pe_lastUsed (entry w a))%Z
  else ou_relayed o b.

(** Up to [n] entries of distinct identities, and the rest. *)
Fixpoint distinct_ids (w : world) (n : nat) (seen : list string) (es : list conn) : list conn * list conn :=
  match es with
  | [] => ([], [])
  | e :: es =>
      match n with
      | O => let '(keep, rest) := distinct_ids w O seen es in (keep, e :: rest)
      | S n' =>
          if bool_decide (pe_id (entry w e) ∈ seen) then let '(keep, rest) := distinct_ids w n seen es in (keep, e :: rest)
          else let '(keep, rest) := distinct_ids w n' (pe_id (entry w e) :: seen) es in (e :: keep, rest)
      end
  end.

Definition sweep_keep (w : world) : list conn * list conn :=
  let es := ssort (sweep_leb w) (sp_entries (wo_pool w)) in
  let n := Z.to_nat (sp_baseline (wo_pool w)) in
  let '(keep, rest) := distinct_ids w n [] es in
  let keep := keep ++ take (n - length keep)%nat rest in
  (keep, List.filter (λ c, negb (bool_decide (c ∈ keep))) es).

Definition scaleDown (w : world) : world :=
  let p := wo_pool w in
  if ((0 <? sp_active p)%Z || sp_closed p || (Z.of_nat (length (sp_entries p)) <=? sp_baseline p)%Z) then w
  else let '(keep, gone) := sweep_keep w in close_all gone (set_pool (set_sp_entries keep p) w).

Definition drain (w : world) : world :=
  let p := wo_pool w in
  close_all (sp_entries p) (set_pool (set_sp_entries [] (set_sp_sweep false (set_sp_closed true p))) w).
End Steps.

(** ** Interleavings *)

(** One step of the pool and its users: a transfer enters (asking for a
    negative number of entries would panic), waits, is woken or
    gives up, picks and releases (once); a dial in flight ends; a transfer
    discards entries; the idle timer fires (also one stopped too late); the
    client drains the pool. *)
Inductive pstep : world → world → Prop :=
| P_enter o t k directOnly eps w : wo_threads w !! t = None → (0 ≤ k)%Z → pstep w (acquire_enter o t k directOnly eps w)
| P_check o t k directOnly w : wo_threads w !! t = Some (Waiting k directOnly) → pstep w (acquire_check o t k directOnly w)
| P_woken t ch k directOnly w : wo_threads w !! t = Some (Blocked ch k directOnly) → ch ∈ wo_woken w →
    pstep w (goto_pool t (Waiting k directOnly) w)
| P_giveup t ch k directOnly w : wo_threads w !! t = Some (Blocked ch k directOnly) → pstep w (goto_pool t (Picking k directOnly) w)
| P_pick o t k directOnly w : wo_threads w !! t = Some (Picking k directOnly) → pstep w (acquire_pick o t k directOnly w)
| P_release o t picked fresh parked w : wo_threads w !! t = Some (Holding picked fresh parked) → pstep w (release o t picked w)
| P_dial o res slots1 i slots2 w : wo_dials w = slots1 ++ i :: slots2 → pstep w (dialSlot o res (set_dials (slots1 ++ slots2) w))
| P_discard drop w : pstep w (discard drop w)
| P_sweep o w : pstep w (scaleDown o w)
| P_drain w : pstep w (drain w).
