(* ===== verification/PoolFacts.v ===== *)
(** * What the connection pool guarantees

    However its users interleave, the pool stays within its bound, closes
    every connection exactly once and none that is in use and well, and never
    leaves a transfer waiting for nothing. *)
From S2P Require Import Prelude GoLib Pool.
Local Open Scope string_scope.
Local Open Scope list_scope.

(** ** Sums over the goroutines *)

Definition msum {A} (f : A → Z) (m : gmap nat A) : Z := map_fold (λ _ x n, (f x + n)%Z) 0%Z m.

Lemma msum_insert {A} (f : A → Z) m t x : m !! t = None → msum f (<[t := x]> m) = (f x + msum f m)%Z.
Proof. intros H. unfold msum. rewrite map_fold_insert_L; [done| |done]. intros. lia. Qed.

Lemma msum_update {A} (f : A → Z) m t x y : m !! t = Some y → msum f (<[t := x]> m) = (f x - f y + msum f m)%Z.
Proof.
  intros H. rewrite <- (insert_delete_id m t y H) at 2. rewrite <- (insert_delete_eq m t x). rewrite !msum_insert by apply lookup_delete_eq. lia.
Qed.

Lemma msum_nonneg {A} (f : A → Z) m : (∀ x, 0 ≤ f x)%Z → (0 ≤ msum f m)%Z.
Proof. intros H. induction m as [|t x m Ht IH] using map_ind; [done|]. rewrite msum_insert by done. specialize (H x). lia. Qed.

Lemma msum_elem {A} (f : A → Z) m t x : (∀ x, 0 ≤ f x)%Z → m !! t = Some x → (f x ≤ msum f m)%Z.
Proof.
  intros H Ht. rewrite <- (insert_delete_id m t x Ht), msum_insert by apply lookup_delete_eq. pose proof (msum_nonneg f (delete t m) H). lia.
Qed.

Lemma msum_zero {A} (f : A → Z) m : (∀ t x, m !! t = Some x → f x = 0%Z) → msum f m = 0%Z.
Proof.
  induction m as [|t x m Ht IH] using map_ind; intros H; [done|]. rewrite msum_insert by done.
  rewrite (H t x) by apply lookup_insert_eq. rewrite IH; [done|]. intros t' x' Hx'. apply (H t'). rewrite lookup_insert_ne; [done|]. intros <-. congruence.
Qed.

(** ** The invariant *)

(** A transfer in flight counts as active, and once for every entry it holds. *)
Definition f_active (x : pool_pc) : Z := match x with Waiting _ _ | Blocked _ _ _ | Picking _ _ | Holding _ _ _ => 1 | Refused | Released => 0 end.
Definition f_hold (c : conn) (x : pool_pc) : Z := match x with Holding picked _ _ => if bool_decide (c ∈ picked) then 1 else 0 | _ => 0 end.

Lemma f_active_nonneg x : (0 ≤ f_active x)%Z.
Proof. by destruct x. Qed.
Lemma f_hold_nonneg c x : (0 ≤ f_hold c x)%Z.
Proof. destruct x; simpl; try done. by case_bool_decide. Qed.
Lemma f_hold_active c x : (f_hold c x ≤ f_active x)%Z.
Proof. destruct x; simpl; try done. by case_bool_decide. Qed.

(** Bounds, and the fate of every connection made. *)
Record conserved (w : world) : Prop := {
  cs_base : (1 ≤ sp_baseline (wo_pool w) ≤ sp_max (wo_pool w))%Z;
  cs_dials : sp_dialing (wo_pool w) = Z.of_nat (length (wo_dials w));
  cs_bound : (Z.of_nat (length (sp_entries (wo_pool w))) + sp_dialing (wo_pool w) ≤ sp_max (wo_pool w))%Z;
  cs_once : NoDup (wo_closes w ++ sp_entries (wo_pool w));
  cs_all : ∀ c, c ∈ wo_closes w ++ sp_entries (wo_pool w) ↔ (c < wo_next w)%nat;
  cs_closed : sp_closed (wo_pool w) = true → sp_entries (wo_pool w) = [] }.

(** The books of the transfers in flight. *)
Record booked (w : world) : Prop := {
  bk_heap : ∀ c, c ∈ sp_entries (wo_pool w) → is_Some (wo_heap w !! c);
  bk_active : sp_active (wo_pool w) = msum f_active (wo_threads w);
  bk_streams : ∀ c e, wo_heap w !! c = Some e → pe_streams e = msum (f_hold c) (wo_threads w);
  bk_held : ∀ t picked fresh parked, wo_threads w !! t = Some (Holding picked fresh parked) → NoDup picked ∧ ∀ c, c ∈ picked → is_Some (wo_heap w !! c);
  bk_made : ∀ c, is_Some (wo_heap w !! c) → (c < wo_next w)%nat }.

(** A transfer waits for a channel that is closed, or that the end of a dial in flight will close. *)
Definition waits_well (w : world) : Prop :=
  ∀ t ch k dO, wo_threads w !! t = Some (Blocked ch k dO) →
    ch ∈ wo_woken w ∨ (sp_wake (wo_pool w) = Some ch ∧ (0 < sp_dialing (wo_pool w))%Z).

(** ** Conservation *)

Lemma filter_split {A} (f : A → bool) l : List.filter f l ++ List.filter (λ x, negb (f x)) l ≡ₚ l.
Proof.
  induction l as [|x l IH]; [done|]. simpl. destruct (f x); simpl; [by rewrite IH|]. by rewrite <- Permutation_middle, IH.
Qed.

(** Moving entries to the closed ones. *)
Lemma conserved_move w w' gone keep : conserved w → wo_pool w' = set_sp_entries keep (wo_pool w) → gone ++ keep ≡ₚ sp_entries (wo_pool w) →
  wo_closes w' = wo_closes w ++ gone → wo_next w' = wo_next w → wo_dials w' = wo_dials w → conserved w'.
Proof.
  intros [Hb Hd Hm Ho Ha Hc] Ep Hp Ec En Ed. assert (Hperm : wo_closes w' ++ sp_entries (wo_pool w') ≡ₚ wo_closes w ++ sp_entries (wo_pool w)).
  { rewrite Ep, Ec. simpl. by rewrite <- app_assoc, Hp. }
  pose proof (Permutation_length Hp) as Hl. rewrite length_app in Hl. split.
  - by rewrite Ep.
  - by rewrite Ep, Ed.
  - rewrite Ep. simpl. lia.
  - by rewrite Hperm.
  - intros c. rewrite Hperm, En. apply Ha.
  - rewrite Ep. simpl. intros H%Hc. rewrite H in Hp. apply Permutation_nil_r, app_eq_nil in Hp as [_ ?]. done.
Qed.

(** Steps that leave entries, dials and closed connections alone. *)
Lemma conserved_same w w' : conserved w → sp_baseline (wo_pool w') = sp_baseline (wo_pool w) → sp_max (wo_pool w') = sp_max (wo_pool w) →
  sp_entries (wo_pool w') ≡ₚ sp_entries (wo_pool w) → sp_dialing (wo_pool w') = sp_dialing (wo_pool w) → sp_closed (wo_pool w') = sp_closed (wo_pool w) →
  wo_closes w' = wo_closes w → wo_next w' = wo_next w → wo_dials w' = wo_dials w → conserved w'.
Proof.
  intros [Hb Hd Hm Ho Ha Hc] E1 E2 Ep E3 E4 Ec En Ed. pose proof (Permutation_length Ep) as El.
  split; try by rewrite ?E1, ?E2, ?E3, ?Ed.
  - rewrite E2, E3, El. done.
  - by rewrite Ec, Ep.
  - intros c. rewrite Ec, Ep, En. apply Ha.
  - rewrite E4. intros H%Hc. rewrite H in Ep. by apply Permutation_nil_r in Ep.
Qed.

Lemma evict_conserved o eps w : conserved w → conserved (evict_stale o eps w).
Proof. intros H. eapply (conserved_move w); try done. apply filter_split. Qed.

Lemma ssort_length {A} (leb : A → A → bool) l : length (ssort leb l) = length l.
Proof. apply Permutation_length, ssort_perm. Qed.

(** Dials are started only up to the bound. *)
Lemma grow_slots_bound k eps w : conserved w →
  (Z.of_nat (length (sp_entries (wo_pool w))) + (sp_dialing (wo_pool w) + Z.of_nat (length (grow_slots k eps w))) ≤ sp_max (wo_pool w))%Z.
Proof.
  intros H. assert (El : length (grow_slots k eps w) = Z.to_nat (grow_need k (wo_pool w))).
  { unfold grow_slots. destruct (_ && _); [rewrite length_fmap|]; apply length_seqZ. }
  rewrite El. pose proof (cs_bound _ H). unfold grow_need. lia.
Qed.

Lemma enter_conserved o t k dO eps w : conserved w → conserved (acquire_enter o t k dO eps w).
Proof.
  intros H. unfold acquire_enter. destruct (sp_closed (wo_pool w)) eqn:Ec; [by eapply (conserved_same w)|].
  set (w1 := set_pool _ w). assert (H1 : conserved w1) by (by eapply (conserved_same w)).
  set (w2 := evict_stale o eps w1). assert (H2 : conserved w2) by (by apply evict_conserved). pose proof (grow_slots_bound k eps w2 H2) as Hb.
  destruct H2 as [Hba Hd Hm Ho Ha Hc]. pose proof (cs_dials _ H). split; try done; cbn; rewrite ?length_app; lia.
Qed.

Lemma wake_conserved w : conserved w → conserved (wakeLocked w).
Proof. intros H. unfold wakeLocked. destruct (sp_wake (wo_pool w)); [by eapply (conserved_same w)|done]. Qed.

Lemma dial_conserved o res s1 i s2 w : conserved w → wo_dials w = s1 ++ i :: s2 → conserved (dialSlot o res (set_dials (s1 ++ s2) w)).
Proof.
  intros [Hb Hd Hm Ho Ha Hc] E. rewrite E, length_app in Hd. cbn in Hd. unfold dialSlot.
  assert (Hfresh : (wo_next w ∉ wo_closes w ++ sp_entries (wo_pool w))) by (rewrite Ha; lia).
  assert (Hnext : ∀ l c, l ≡ₚ wo_next w :: wo_closes w ++ sp_entries (wo_pool w) → c ∈ l ↔ (c < S (wo_next w))%nat).
  { intros l c ->. rewrite elem_of_cons, Ha. lia. }
  destruct res as [id|]; [cbn; destruct (sp_closed (wo_pool w)) eqn:Ecl|]; apply wake_conserved.
  - assert (Hp : (wo_closes w ++ [wo_next w]) ++ sp_entries (wo_pool w) ≡ₚ wo_next w :: wo_closes w ++ sp_entries (wo_pool w)).
    { rewrite <- app_assoc. simpl. by rewrite Permutation_middle. }
    split; cbn; rewrite ?length_app; [done|lia|lia|rewrite Hp; by constructor|eauto|auto].
  - assert (Hp : wo_closes w ++ sp_entries (wo_pool w) ++ [wo_next w] ≡ₚ wo_next w :: wo_closes w ++ sp_entries (wo_pool w)).
    { rewrite app_assoc. by rewrite Permutation_app_comm. }
    split; cbn; rewrite ?length_app; [done|lia|cbn; lia|rewrite Hp; by constructor|eauto|congruence].
  - split; cbn; rewrite ?length_app; [done|lia|lia|done|done|done].
Qed.

Lemma distinct_ids_perm w n : ∀ es seen, fst (distinct_ids w n seen es) ++ snd (distinct_ids w n seen es) ≡ₚ es.
Proof.
  intros es. revert n. induction es as [|e es IH]; intros n seen; [by destruct n|]. destruct n as [|n]; simpl.
  - specialize (IH O seen). destruct (distinct_ids w 0 seen es) as [keep rest]. simpl in *. rewrite <- Permutation_middle. by rewrite IH.
  - case_bool_decide.
    + specialize (IH (S n) seen). destruct (distinct_ids w (S n) seen es) as [keep rest]. simpl in *. rewrite <- Permutation_middle. by rewrite IH.
    + specialize (IH n (pe_id (entry w e) :: seen)). destruct (distinct_ids w n _ es) as [keep rest]. simpl in *. by rewrite IH.
Qed.

(** What is not kept of a list without duplicates. *)
Lemma filter_out_perm (keep rest l : list conn) : NoDup l → keep ++ rest ≡ₚ l → List.filter (λ c, negb (bool_decide (c ∈ keep))) l ++ keep ≡ₚ l.
Proof.
  intros Hnd Hp. assert (Hnd' : NoDup (keep ++ rest)) by (by rewrite Hp). apply NoDup_app in Hnd' as (Hk & Hkr & Hr).
  apply NoDup_Permutation; [|done|].
  - apply NoDup_app. split; [by apply NoDup_ListNoDup, List.NoDup_filter, NoDup_ListNoDup|]. split; [|done].
    intros c [_ Hc]%list_elem_of_In%filter_In Hin. by rewrite bool_decide_eq_true_2 in Hc.
  - intros c. rewrite elem_of_app, (list_elem_of_In (List.filter _ _) c), filter_In, <- list_elem_of_In, negb_true_iff, bool_decide_eq_false, <- Hp, elem_of_app.
    destruct (decide (c ∈ keep)); tauto.
Qed.

Lemma sweep_conserved o w : conserved w → conserved (scaleDown o w).
Proof.
  intros H. unfold scaleDown. destruct (_ || _); [done|]. unfold sweep_keep.
  set (es := ssort _ _). assert (Hes : es ≡ₚ sp_entries (wo_pool w)) by apply ssort_perm.
  pose proof (distinct_ids_perm w (Z.to_nat (sp_baseline (wo_pool w))) es []) as Hp.
  destruct (distinct_ids w _ [] es) as [keep rest]. cbn [fst snd] in Hp. cbv zeta. set (n := (Z.to_nat _ - _)%nat).
  eapply (conserved_move w); try done. cbn. rewrite <- Hes. apply (filter_out_perm _ (drop n rest)).
  - rewrite Hes. pose proof (cs_once _ H) as Hn. by apply NoDup_app in Hn as (_ & _ & ?).
  - by rewrite <- app_assoc, take_drop.
Qed.

Lemma drain_conserved w : conserved w → conserved (drain w).
Proof.
  intros [Hb Hd Hm Ho Ha Hc]. assert (Hm' : (sp_dialing (wo_pool w) ≤ sp_max (wo_pool w))%Z) by lia.
  split; cbn; rewrite ?app_nil_r; [done|done|lia|done|done|done].
Qed.

Lemma pstep_conserved w w' : pstep w w' → conserved w → conserved w'.
Proof.
  intros Hs H. destruct Hs as [| |t ch k dO w|t ch k dO w|o t k dO w|o t picked fr pk w| |drop w| |].
  - by apply enter_conserved.
  - unfold acquire_check. destruct (_ || _); [by eapply (conserved_same w)|]. unfold waitChLocked.
    destruct (sp_wake (wo_pool w)); by eapply (conserved_same w).
  - by eapply (conserved_same w).
  - by eapply (conserved_same w).
  - eapply (conserved_same w); try done. apply ssort_perm.
  - unfold release. destruct (_ && _); by eapply (conserved_same w).
  - by eapply dial_conserved.
  - eapply (conserved_move w); try done. apply filter_split.
  - by apply sweep_conserved.
  - by apply drain_conserved.
Qed.

(** ** The books *)

Lemma foldr_alter_lookup (f : poolEntry → poolEntry) (cs : list conn) (h : gmap conn poolEntry) c : NoDup cs →
  foldr (λ c h, alter f c h) h cs !! c = if bool_decide (c ∈ cs) then f <$> h !! c else h !! c.
Proof.
  induction 1 as [|x cs Hx Hn IH]; [done|]. simpl. destruct (decide (c = x)) as [->|Hne].
  - rewrite lookup_alter_eq, IH. rewrite (bool_decide_eq_false_2 _ Hx), bool_decide_eq_true_2; [done|left].
  - rewrite lookup_alter_ne by done. rewrite IH. do 2 case_bool_decide; set_solver.
Qed.

Lemma foldr_alter_some (f : poolEntry → poolEntry) (cs : list conn) (h : gmap conn poolEntry) c : NoDup cs → is_Some (foldr (λ c h, alter f c h) h cs !! c) ↔ is_Some (h !! c).
Proof. intros H. rewrite foldr_alter_lookup by done. case_bool_decide; [by rewrite fmap_is_Some|done]. Qed.

(** A goroutine moves on without taking or giving back entries. *)
Lemma booked_move w w' t x : booked w →
  (∀ c, c ∈ sp_entries (wo_pool w') → c ∈ sp_entries (wo_pool w)) → wo_heap w' = wo_heap w → (wo_next w ≤ wo_next w')%nat →
  wo_threads w' = <[t := x]> (wo_threads w) → (∀ picked fr pk, x ≠ Holding picked fr pk) →
  (∀ picked fr pk, wo_threads w !! t ≠ Some (Holding picked fr pk)) →
  sp_active (wo_pool w') = (sp_active (wo_pool w) + f_active x - from_option f_active 0 (wo_threads w !! t))%Z → booked w'.
Proof.
  intros [Hh Ha Hs Hk Hm] He Eh Hn Et Hx Hy Eact.
  assert (Hsum : ∀ f, msum f (wo_threads w') = (msum f (wo_threads w) + f x - from_option f 0 (wo_threads w !! t))%Z).
  { intros f. rewrite Et. destruct (wo_threads w !! t) as [y|] eqn:Ey; simpl; [rewrite (msum_update _ _ _ _ _ Ey)|rewrite msum_insert by done]; lia. }
  assert (Hz : ∀ c, f_hold c x = 0%Z ∧ from_option (f_hold c) 0%Z (wo_threads w !! t) = 0%Z).
  { intros c. split; [destruct x; naive_solver|]. destruct (wo_threads w !! t) as [[]|]; simpl; naive_solver. }
  split.
  - intros c Hc. rewrite Eh. auto.
  - rewrite Eact, Hsum, Ha. done.
  - intros c e. rewrite Eh, Hsum. intros Hc%Hs. destruct (Hz c). lia.
  - intros t' picked fr pk. rewrite Et, Eh. intros [[<- Hp]|[Hne Hp]]%lookup_insert_Some; [by destruct (Hx picked fr pk)|eauto].
  - intros c. rewrite Eh. intros Hc%Hm. lia.
Qed.

Lemma booked_less w w' : booked w → (∀ c, c ∈ sp_entries (wo_pool w') → c ∈ sp_entries (wo_pool w)) → wo_heap w' = wo_heap w →
  wo_next w' = wo_next w → wo_threads w' = wo_threads w → sp_active (wo_pool w') = sp_active (wo_pool w) → booked w'.
Proof.
  intros [Hh Ha Hs Hk Hm] He Eh En Et Ea. split; rewrite ?Eh, ?En, ?Et, ?Ea; try done. auto.
Qed.

Lemma elem_filter {A} (f : A → bool) l x : x ∈ List.filter f l → x ∈ l.
Proof. rewrite !list_elem_of_In. by intros [? _]%filter_In. Qed.

Lemma enter_booked o t k dO eps w : booked w → wo_threads w !! t = None → booked (acquire_enter o t k dO eps w).
Proof.
  intros H Ht. unfold acquire_enter. destruct (sp_closed (wo_pool w)).
  - eapply (booked_move w _ t Refused); try done; [by rewrite Ht|]. rewrite Ht. cbn. lia.
  - eapply (booked_move w); try done; rewrite ?Ht; try done; [|by destruct (_ && _)|cbn; destruct (_ && _); cbn; lia].
    cbn. intros c. apply elem_filter.
Qed.

Lemma pick_sub o k dO es c : c ∈ pick o k dO es → c ∈ es.
Proof. intros Hc%elem_of_take. destruct Hc as (i & Hi & _). apply list_elem_of_lookup_2 in Hi. by eapply elem_filter. Qed.

Lemma pick_nodup o k dO es : NoDup es → NoDup (pick o k dO es).
Proof.
  intros H. unfold pick. eapply sublist_NoDup; [|apply sublist_take]. by apply NoDup_ListNoDup, List.NoDup_filter, NoDup_ListNoDup.
Qed.

Lemma pick_booked o t k dO w : conserved w → booked w → wo_threads w !! t = Some (Picking k dO) → booked (acquire_pick o t k dO w).
Proof.
  intros Hcs [Hh Ha Hs Hk Hm] Ht. unfold acquire_pick. set (es := ssort (load_leb w) (sp_entries (wo_pool w))).
  assert (Hes : es ≡ₚ sp_entries (wo_pool w)) by apply ssort_perm.
  assert (Hnd : NoDup (pick o k dO es)).
  { apply pick_nodup. rewrite Hes. pose proof (cs_once _ Hcs) as Hn. by apply NoDup_app in Hn as (_ & _ & ?). }
  split; cbn.
  - intros c Hc. apply foldr_alter_some; [done|]. apply Hh. by rewrite <- Hes.
  - rewrite (msum_update _ _ _ _ _ Ht). cbn. lia.
  - intros c e. rewrite foldr_alter_lookup by done. rewrite (msum_update _ _ _ _ _ Ht). cbn. case_bool_decide as Hc; [|intros He%Hs; lia].
    destruct (wo_heap w !! c) as [e0|] eqn:E0; [|done]. intros [= <-]. apply Hs in E0. cbn. lia.
  - intros t' picked fr pk [[<- [= <- <- <-]]|[Hne Hp]]%lookup_insert_Some.
    + split; [done|]. intros c Hc. apply foldr_alter_some; [done|]. apply Hh. rewrite <- Hes. by eapply pick_sub.
    + destruct (Hk _ _ _ _ Hp) as [? Hp']. split; [done|]. intros c Hc. apply foldr_alter_some; auto.
  - intros c Hc%foldr_alter_some; auto.
Qed.

Lemma release_booked o t picked fr pk w : booked w → wo_threads w !! t = Some (Holding picked fr pk) → booked (release o t picked w).
Proof.
  intros [Hh Ha Hs Hk Hm] Ht. destruct (Hk _ _ _ _ Ht) as [Hnd Hin].
  assert (Eact : sp_active (wo_pool (release o t picked w)) = (sp_active (wo_pool w) - 1)%Z) by (unfold release; by destruct (_ && _)).
  assert (Eent : sp_entries (wo_pool (release o t picked w)) = sp_entries (wo_pool w)) by (unfold release; by destruct (_ && _)).
  split; rewrite ?Eact, ?Eent; cbn.
  - intros c Hc. apply foldr_alter_some; auto.
  - rewrite (msum_update _ _ _ _ _ Ht). cbn. lia.
  - intros c e. rewrite foldr_alter_lookup by done. rewrite (msum_update _ _ _ _ _ Ht). cbn. case_bool_decide as Hc; [|intros He%Hs; lia].
    destruct (wo_heap w !! c) as [e0|] eqn:E0; [|done]. intros [= <-]. apply Hs in E0. cbn. lia.
  - intros t' p' fr' pk' [[<- ?]|[Hne Hp]]%lookup_insert_Some; [done|]. destruct (Hk _ _ _ _ Hp) as [? Hp']. split; [done|].
    intros c Hc. apply foldr_alter_some; auto.
  - intros c Hc%foldr_alter_some; auto.
Qed.

Lemma wake_booked w : booked w → booked (wakeLocked w).
Proof. intros H. unfold wakeLocked. destruct (sp_wake (wo_pool w)); [by eapply (booked_less w)|done]. Qed.

Lemma dial_booked o res dials w : booked w → booked (dialSlot o res (set_dials dials w)).
Proof.
  intros H. destruct (id H) as [Hh Ha Hs Hk Hm]. assert (Hfresh : wo_heap w !! wo_next w = None).
  { apply eq_None_not_Some. intros ?%Hm. lia. }
  unfold dialSlot. destruct res as [id|]; [cbn; destruct (sp_closed (wo_pool w))|]; apply wake_booked; [| |by eapply (booked_less w)].
  - split; cbn; try done. intros c Hc%Hm. lia.
  - split; cbn.
    + intros c [Hc| ->%list_elem_of_singleton]%elem_of_app; [|rewrite lookup_insert_eq; eauto]. rewrite lookup_insert_is_Some'. auto.
    + done.
    + intros c e [[<- <-]|[Hne He]]%lookup_insert_Some; [|auto]. cbn. symmetry. apply msum_zero. intros t x Hx. destruct x; try done. cbn.
      rewrite bool_decide_eq_false_2; [done|]. intros Hc. destruct (Hk _ _ _ _ Hx) as [_ Hp]. destruct (Hp _ Hc). congruence.
    + intros t picked fr pk Ht. destruct (Hk _ _ _ _ Ht) as [? Hp]. split; [done|]. intros c Hc. rewrite lookup_insert_is_Some'. auto.
    + intros c. rewrite lookup_insert_is_Some'. intros [<-|Hc%Hm]; lia.
Qed.

Lemma goto_booked w t x y : booked w → wo_threads w !! t = Some y → f_active x = f_active y →
  (∀ picked fr pk, x ≠ Holding picked fr pk) → (∀ picked fr pk, y ≠ Holding picked fr pk) → booked (goto_pool t x w).
Proof. intros H Ht Ea Hx Hy. eapply (booked_move w); try done; rewrite Ht; [congruence|]. cbn. lia. Qed.

Lemma pstep_booked w w' : pstep w w' → conserved w → booked w → booked w'.
Proof.
  intros Hs Hcs H. destruct Hs as [o t k dO eps w Ht Hk|o t k dO w Ht|t ch k dO w Ht Hch|t ch k dO w Ht|o t k dO w Ht|o t picked fr pk w Ht|o res s1 i s2 w Hd|drop w|o w|w].
  - by apply enter_booked.
  - unfold acquire_check. destruct (_ || _); [by eapply goto_booked|]. unfold waitChLocked. destruct (sp_wake (wo_pool w)); [by eapply goto_booked|].
    eapply goto_booked; [|exact Ht|done..]. by eapply (booked_less w).
  - by eapply goto_booked.
  - by eapply goto_booked.
  - by apply pick_booked.
  - by eapply release_booked.
  - by apply dial_booked.
  - eapply (booked_less w); try done. cbn. intros c. apply elem_filter.
  - unfold scaleDown. destruct (_ || _); [done|]. unfold sweep_keep. set (es := ssort _ _).
    pose proof (distinct_ids_perm w (Z.to_nat (sp_baseline (wo_pool w))) es []) as Hp. destruct (distinct_ids w _ [] es) as [keep rest]. cbn [fst snd] in Hp.
    eapply (booked_less w); try done. cbn. intros c Hc. apply (elem_of_ssort (sweep_leb o w)). fold es. rewrite <- Hp. rewrite elem_of_app in *.
    destruct Hc as [|(j & Hj & _)%elem_of_take]; [auto|]. right. by eapply list_elem_of_lookup_2.
  - eapply (booked_less w); try done. cbn. by intros c ?%elem_of_nil.
Qed.

(** ** Waiting *)

(** A step that wakes nobody keeps those who wait well. *)
Lemma waits_move w w' t x : waits_well w → wo_woken w' = wo_woken w → sp_wake (wo_pool w') = sp_wake (wo_pool w) →
  (sp_dialing (wo_pool w) ≤ sp_dialing (wo_pool w'))%Z → wo_threads w' = <[t := x]> (wo_threads w) → (∀ ch k dO, x ≠ Blocked ch k dO) → waits_well w'.
Proof.
  intros H Ew Ek Hd Et Hx t' ch k dO. rewrite Et, Ew, Ek. intros [[<- Hb]|[_ Hb]]%lookup_insert_Some; [by destruct (Hx ch k dO)|].
  destruct (H _ _ _ _ Hb) as [|[? ?]]; [auto|]. right. split; [done|lia].
Qed.

Lemma waits_same w w' : waits_well w → wo_woken w' = wo_woken w → sp_wake (wo_pool w') = sp_wake (wo_pool w) →
  sp_dialing (wo_pool w') = sp_dialing (wo_pool w) → wo_threads w' = wo_threads w → waits_well w'.
Proof. intros H Ew Ek Ed Et t ch k dO. rewrite Et, Ew, Ek, Ed. apply H. Qed.

(** The end of a dial wakes every transfer that waits. *)
Lemma dial_wakes o res dials w t ch k dO : waits_well w → wo_threads w !! t = Some (Blocked ch k dO) →
  ch ∈ wo_woken (dialSlot o res (set_dials dials w)).
Proof.
  intros H Ht. unfold dialSlot. destruct res; cbn; [destruct (sp_closed _)|]; unfold wakeLocked; cbn;
    (destruct (H _ _ _ _ Ht) as [Hc|[-> _]]; [destruct (sp_wake (wo_pool w)); cbn; set_solver|cbn; set_solver]).
Qed.

Lemma dial_threads o res w : wo_threads (dialSlot o res w) = wo_threads w.
Proof. unfold dialSlot. destruct res; cbn; [destruct (sp_closed _)|]; unfold wakeLocked; cbn; by destruct (sp_wake _). Qed.

Lemma check_waits o t k dO w : conserved w → waits_well w → waits_well (acquire_check o t k dO w).
Proof.
  intros Hcs H. unfold acquire_check. destruct (_ || _) eqn:E; [by eapply (waits_move w)|].
  apply orb_false_iff in E as [_ Hd%Z.eqb_neq]. pose proof (cs_dials _ Hcs). unfold waitChLocked.
  destruct (sp_wake (wo_pool w)) as [ch|] eqn:Ew; intros t' ch' k' dO'; cbn; intros [[_ [= <- <- <-]]|[_ Hb]]%lookup_insert_Some.
  - right. split; [done|lia].
  - by apply (H t' ch' k' dO').
  - right. split; [done|lia].
  - destruct (H _ _ _ _ Hb) as [|[? _]]; [auto|congruence].
Qed.

Lemma pstep_waits w w' : pstep w w' → conserved w → waits_well w → waits_well w'.
Proof.
  intros Hs Hcs H. destruct Hs as [o t k dO eps w Ht Hk|o t k dO w Ht|t ch k dO w Ht Hch|t ch k dO w Ht|o t k dO w Ht|o t picked fr pk w Ht|o res s1 i s2 w Hd|drop w|o w|w].
  - unfold acquire_enter. destruct (sp_closed _); eapply (waits_move w); try done; [cbn; lia|by destruct (_ && _)].
  - by apply check_waits.
  - by eapply (waits_move w).
  - by eapply (waits_move w).
  - by eapply (waits_move w).
  - unfold release. destruct (_ && _); by eapply (waits_move w).
  - intros t ch k dO. rewrite dial_threads. cbn. intros Ht. left. by eapply dial_wakes.
  - by eapply (waits_same w).
  - unfold scaleDown. destruct (_ || _); [done|]. destruct (sweep_keep o w). by eapply (waits_same w).
  - by eapply (waits_same w).
Qed.

(** ** Every reachable state *)

Lemma pool_initial_ok baseline max : conserved (initial baseline max) ∧ booked (initial baseline max) ∧ waits_well (initial baseline max).
Proof.
  split; [|split].
  - split; cbn; unfold newShardPool; cbn.
    + destruct (Z.ltb_spec baseline 1); [destruct (Z.ltb_spec max 1)|destruct (Z.ltb_spec max baseline)]; lia.
    + done.
    + destruct (Z.ltb_spec baseline 1); [destruct (Z.ltb_spec max 1)|destruct (Z.ltb_spec max baseline)]; lia.
    + constructor.
    + intros c. split; [by intros ?%elem_of_nil|lia].
    + done.
  - split; cbn; try done; [by intros ? ?%elem_of_nil|]. by intros ? [? ?].
  - by intros t ch k dO.
Qed.

Lemma pool_reachable_ok baseline max w : rtc pstep (initial baseline max) w → conserved w ∧ booked w ∧ waits_well w.
Proof.
  intros H. pose proof (pool_initial_ok baseline max) as H0. induction H as [|w1 w2 w3 Hs _ IH]; [done|]. destruct H0 as (H1 & H2 & H3).
  apply IH. split; [by eapply pstep_conserved|]. split; [by eapply pstep_booked|by eapply pstep_waits].
Qed.

(** [C24] Pooled connections are conserved. However transfers, dials, the idle
    sweep and the drain interleave, the entries and the dials in flight stay
    within the pool's maximum, and every connection ever made is in the pool
    or has been closed exactly once, never both. When a drained pool has no
    dial in flight, every connection has been closed exactly once. *)
Theorem pool_conserves baseline max w : rtc pstep (initial baseline max) w →
  (Z.of_nat (length (sp_entries (wo_pool w))) + Z.of_nat (length (wo_dials w)) ≤ sp_max (wo_pool w))%Z ∧
  wo_closes w ++ sp_entries (wo_pool w) ≡ₚ seq 0 (wo_next w) ∧
  (sp_closed (wo_pool w) = true → wo_closes w ≡ₚ seq 0 (wo_next w)).
Proof.
  intros (H & _ & _)%pool_reachable_ok. destruct H as [Hb Hd Hm Ho Ha Hc].
  assert (Hp : wo_closes w ++ sp_entries (wo_pool w) ≡ₚ seq 0 (wo_next w)).
  { apply NoDup_Permutation; [done|apply NoDup_seq|]. intros c. rewrite Ha, elem_of_seq. lia. }
  split; [lia|]. split; [done|]. intros E%Hc. by rewrite E, app_nil_r in Hp.
Qed.

(** The transfers that hold an entry. *)
Definition held (w : world) (c : conn) : Prop := ∃ t picked fr pk, wo_threads w !! t = Some (Holding picked fr pk) ∧ c ∈ picked.

Lemma held_streams w c e : booked w → wo_heap w !! c = Some e → held w c → (0 < pe_streams e)%Z.
Proof.
  intros H He (t & picked & fr & pk & Ht & Hc). rewrite (bk_streams _ H _ _ He).
  pose proof (msum_elem (f_hold c) _ _ _ (f_hold_nonneg c) Ht) as Hle. cbn in Hle. rewrite bool_decide_eq_true_2 in Hle by done. lia.
Qed.

Lemma held_active w c : booked w → held w c → (0 < sp_active (wo_pool w))%Z.
Proof.
  intros H (t & picked & fr & pk & Ht & Hc). rewrite (bk_active _ H). pose proof (msum_elem f_active _ _ _ f_active_nonneg Ht) as Hle. cbn in Hle. lia.
Qed.

(** No well connection is closed under a transfer. In every reachable
    state the active count is the number of transfers in flight and an
    entry's stream count the number of transfers that hold it; so the idle
    sweep closes nothing that is held, and entering the pool closes a held
    entry only if its connection is dead or its identity is no longer
    advertised. *)
Theorem pool_spares_held baseline max w : rtc pstep (initial baseline max) w →
  sp_active (wo_pool w) = msum f_active (wo_threads w) ∧
  (∀ c e, wo_heap w !! c = Some e → pe_streams e = msum (f_hold c) (wo_threads w)) ∧
  (∀ o c, c ∈ wo_closes (scaleDown o w) → c ∈ wo_closes w ∨ ¬ held w c) ∧
  (∀ o t k dO eps c, c ∈ wo_closes (acquire_enter o t k dO eps w) → c ∈ wo_closes w ∨ ¬ held w c ∨ ou_dead o c = true ∨
     (eps ≠ [] ∧ ∀ id, Some id ∈ eps → id ≠ pe_id (entry w c))).
Proof.
  intros (_ & H & _)%pool_reachable_ok. split; [apply H|]. split; [apply H|]. split.
  - intros o c. unfold scaleDown. destruct (Z.ltb_spec 0 (sp_active (wo_pool w))) as [|Hz]; [simpl; auto|]. destruct (_ || _); [auto|].
    destruct (sweep_keep o w) as [keep gone]. cbn. intros _. right. intros ?%held_active; [lia|done].
  - intros o t k dO eps c. unfold acquire_enter. destruct (sp_closed _); [auto|]. cbn. intros [|Hc]%elem_of_app; [auto|]. right.
    pose proof (elem_filter _ _ _ Hc) as Hin. apply list_elem_of_In, filter_In in Hc as [_ Hst]. unfold stale, entry in Hst. cbn in Hst.
    destruct (bk_heap _ H c Hin) as [e He]. rewrite He in Hst. cbn in Hst. unfold entry. rewrite He. cbn.
    assert (Hnot : (pe_streams e =? 0)%Z = true → ¬ held w c).
    { intros Hz%Z.eqb_eq Hh. pose proof (held_streams _ _ _ H He Hh). lia. }
    apply orb_true_iff in Hst as [Hst|[[Hst _]%andb_true_iff _]%andb_true_iff]; [|auto].
    apply orb_true_iff in Hst as [Hst|[Hst _]%andb_true_iff]; [|auto].
    apply orb_true_iff in Hst as [Hst|[[Hst _]%andb_true_iff Hid]%andb_true_iff]; [auto|]. right. right.
    apply negb_true_iff, bool_decide_eq_false in Hst. split; [done|]. intros id Hi ->. apply negb_true_iff in Hid.
    assert (existsb (λ r, bool_decide (r = Some (pe_id e))) eps = true) as Hex; [|congruence].
    apply existsb_exists. exists (Some (pe_id e)). split; [by apply list_elem_of_In|by apply bool_decide_eq_true_2].
Qed.

(** [C25] No transfer waits for nothing: in every reachable state a transfer
    blocked on the pool waits on a channel that is closed, or there is a dial
    in flight, and the end of any dial in flight, whatever its outcome,
    closes that channel. *)
Theorem pool_wait_progress baseline max w t ch k dO : rtc pstep (initial baseline max) w →
  wo_threads w !! t = Some (Blocked ch k dO) →
  ch ∈ wo_woken w ∨ (wo_dials w ≠ [] ∧ ∀ o res slots1 i slots2, wo_dials w = slots1 ++ i :: slots2 →
    ch ∈ wo_woken (dialSlot o res (set_dials (slots1 ++ slots2) w))).
Proof.
  intros (Hc & _ & H)%pool_reachable_ok Ht. destruct (H _ _ _ _ Ht) as [|[_ Hd]]; [auto|]. right. split.
  - intros E. rewrite (cs_dials _ Hc), E in Hd. cbn in Hd. lia.
  - intros o res s1 i s2 _. by eapply dial_wakes.
Qed.

(** * The connection pool on a concrete run

    A cold pool serves a transfer: it enters, blocks, a dial succeeds, it
    picks the entry and holds it; then the pool is drained. *)
From S2P Require Import Prelude GoLib Pool.

Definition calm : outside := mkOutside 1000 (λ _, false) (λ _, false).

Definition d0 : world := initial 1 3.
Definition d1 : world := acquire_enter calm 7 1 true [Some "srv"] d0.
Definition d2 : world := acquire_check calm 7 1 true d1.
Definition d3 : world := dialSlot calm (Some "srv") (set_dials [] d2).
Definition d4 : world := goto_pool 7 (Waiting 1 true) d3.
Definition d5 : world := acquire_check calm 7 1 true d4.
Definition d6 : world := acquire_pick calm 7 1 true d5.
Definition d7 : world := drain d6.

Lemma run_blocked : rtc pstep d0 d2.
Proof.
  apply (rtc_l _ d0 d1); [by apply (P_enter calm 7 1 true [Some "srv"] d0)|].
  apply (rtc_l _ d1 d2); [apply (P_check calm 7 1 true d1); vm_compute; reflexivity|]. reflexivity.
Qed.

Lemma run_held : rtc pstep d0 d6.
Proof.
  etrans; [exact run_blocked|].
  apply (rtc_l _ d2 d3); [apply (P_dial calm (Some "srv") [] 0 [] d2); vm_compute; reflexivity|].
  apply (rtc_l _ d3 d4); [apply (P_woken 7 0 1 true d3); [vm_compute; reflexivity|]; cbn; set_solver|].
  apply (rtc_l _ d4 d5); [apply (P_check calm 7 1 true d4); vm_compute; reflexivity|].
  apply (rtc_l _ d5 d6); [apply (P_pick calm 7 1 true d5); vm_compute; reflexivity|]. reflexivity.
Qed.

Lemma run_drained : rtc pstep d0 d7.
Proof. etrans; [exact run_held|]. apply (rtc_l _ d6 d7); [apply P_drain|]. reflexivity. Qed.

Lemma pool_conserves_witness : wo_closes d7 ≡ₚ [0%nat].
Proof. destruct (pool_conserves 1 3 d7 run_drained) as (_ & _ & H). apply H. reflexivity. Defined.

Lemma pool_spares_held_witness : wo_threads d6 !! 7%nat = Some (Holding [0%nat] [0%nat] 0) ∧
  ∀ c, c ∈ wo_closes (scaleDown calm d6) → c ∈ wo_closes d6 ∨ ¬ held d6 c.
Proof. split; [vm_compute; reflexivity|]. destruct (pool_spares_held 1 3 d6 run_held) as (_ & _ & H & _). apply H. Defined.

Lemma pool_wait_progress_witness : wo_threads d2 !! 7%nat = Some (Blocked 0 1 true) ∧
  (0%nat ∈ wo_woken d2 ∨ (wo_dials d2 ≠ [] ∧ ∀ o res slots1 i slots2, wo_dials d2 = slots1 ++ i :: slots2 →
    0%nat ∈ wo_woken (dialSlot o res (set_dials (slots1 ++ slots2) d2)))).
Proof.
  assert (Ht : wo_threads d2 !! 7%nat = Some (Blocked 0 1 true)) by (vm_compute; reflexivity). split; [exact Ht|].
  exact (pool_wait_progress 1 3 d2 7 0 1 true run_blocked Ht).
Defined.
