(* ===== verification/LayerStream.v ===== *)
(** * Layer blobs that exist nowhere (src/registryd/stream.go)

    The registry serves a layer by generating its tar while it is read. A
    [layerStream] makes the one-way generator look like a seekable file: a
    seek is arithmetic, and the next read restarts or skips forward. *)
From S2P Require Import Prelude GoLib.
Local Open Scope string_scope.
Local Open Scope list_scope.

(** Go's [io.EOF], [io.ErrUnexpectedEOF], the stream's own errors, and what a
    generator fails with. *)
Inductive rerr := REOF | RUnexpectedEOF | RClosed | RNegative | RWhence | RGen (e : string).

Global Instance rerr_eq_dec : EqDecision rerr.
Proof. solve_decision. Defined.

(** Bytes are lists here, so that offsets are lengths. *)
Abbreviation bytes_t := (list Ascii.ascii).

(** An open generator: the bytes it has not delivered yet. *)
Record layerStream := mkLS {
  ls_size : Z; ls_pos : Z; ls_rc : option bytes_t; ls_streamPos : Z; ls_err : option rerr; ls_closed : bool }.

Definition set_ls_pos x s := mkLS (ls_size s) x (ls_rc s) (ls_streamPos s) (ls_err s) (ls_closed s).
Definition set_ls_rc x s := mkLS (ls_size s) (ls_pos s) x (ls_streamPos s) (ls_err s) (ls_closed s).
Definition set_ls_streamPos x s := mkLS (ls_size s) (ls_pos s) (ls_rc s) x (ls_err s) (ls_closed s).
Definition set_ls_err x s := mkLS (ls_size s) (ls_pos s) (ls_rc s) (ls_streamPos s) x (ls_closed s).
Definition set_ls_closed x s := mkLS (ls_size s) (ls_pos s) (ls_rc s) (ls_streamPos s) (ls_err s) x.

Definition newLayerStream (size : Z) : layerStream := mkLS size 0 None 0 None false.

(** What the generator does during one call of [Read]: what it delivers when it
    is opened, whether it fails while bytes are skipped (after how many) or
    read, how many bytes one read delivers at most, and whether the end comes
    with the last bytes or with the next read. *)
Record generator := mkGen {
  g_open : result string bytes_t; g_skip_fault : option (nat * string); g_n : nat; g_fault : option string; g_eof_with : bool }.

(** ** The generator's reader *)

(** [io.CopyN(io.Discard, rc, skip)]. *)
Definition gen_skip (g : generator) (skip : Z) (rem : bytes_t) : Z * option rerr * bytes_t :=
  match g_skip_fault g with
  | Some (m, e) =>
      if (Z.of_nat m <? Z.min skip (Z.of_nat (length rem)))%Z then (Z.of_nat m, Some (RGen e), drop m rem)
      else if (skip <=? Z.of_nat (length rem))%Z then (skip, None, drop (Z.to_nat skip) rem)
      else (Z.of_nat (length rem), Some REOF, [])
  | None =>
      if (skip <=? Z.of_nat (length rem))%Z then (skip, None, drop (Z.to_nat skip) rem)
      else (Z.of_nat (length rem), Some REOF, [])
  end.

(** One read of at most [plen] bytes. *)
Definition gen_read (g : generator) (plen : Z) (rem : bytes_t) : bytes_t * option rerr * bytes_t :=
  let n := Nat.min (Z.to_nat plen) (Nat.min (g_n g) (length rem)) in
  let out := take n rem in
  let rest := drop n rem in
  match g_fault g with
  | Some e => (out, Some (RGen e), rest)
  | None => if (bool_decide (rest = []) && (g_eof_with g || bool_decide (out = []))) then (out, Some REOF, rest) else (out, None, rest)
  end.

(** ** The stream *)

Definition closeStream (s : layerStream) : layerStream := set_ls_rc None s.

(** A failure is kept: the stream delivers nothing after it. *)
Definition ls_fail (e : rerr) (s : layerStream) : rerr * layerStream :=
  let s := closeStream s in
  match ls_err s with
  | Some e0 => (e0, s)
  | None => (e, set_ls_err (Some e) s)
  end.

Definition restart (g : generator) (s : layerStream) : result rerr unit * layerStream :=
  let s := closeStream s in
  match g_open g with
  | Err e => let '(e, s) := ls_fail (RGen e) s in (Err e, s)
  | Ok rem => (Ok tt, set_ls_streamPos 0 (set_ls_rc (Some rem) s))
  end.

Inductive whence := SeekStart | SeekCurrent | SeekEnd | SeekOther.

(** Where a seek leads; offsets are [int64]. *)
Definition seek_to (size pos offset : Z) (wh : whence) : result rerr Z :=
  match (match wh with
         | SeekStart => Some offset
         | SeekCurrent => Some (i64 (pos + offset))
         | SeekEnd => Some (i64 (size + offset))
         | SeekOther => None
         end) with
  | None => Err RWhence
  | Some abs => if (abs <? 0)%Z then Err RNegative else Ok abs
  end.

Definition Seek (offset : Z) (wh : whence) (s : layerStream) : result rerr Z * layerStream :=
  match seek_to (ls_size s) (ls_pos s) offset wh with
  | Err e => (Err e, s)
  | Ok abs => (Ok abs, set_ls_pos abs s)
  end.

(** The last part of [Read]: one read of the positioned generator. *)
Definition read_here (g : generator) (plen : Z) (rem : bytes_t) (s : layerStream) : bytes_t * option rerr * layerStream :=
  let plen := Z.min plen (ls_size s - ls_pos s) in
  let '(out, err, rest) := gen_read g plen rem in
  let n := Z.of_nat (length out) in
  let s := set_ls_rc (Some rest) (set_ls_streamPos (ls_streamPos s + n) (set_ls_pos (ls_pos s + n) s)) in
  let err := if bool_decide (err = Some REOF) && (ls_pos s <? ls_size s)%Z then Some RUnexpectedEOF else err in
  match err with
  | None | Some REOF => (out, err, s)
  | Some e => let '(e, s) := ls_fail e s in (out, Some e, s)
  end.

(** The part before it: the generator is brought to the position. *)
Definition Read (g : generator) (plen : Z) (s : layerStream) : bytes_t * option rerr * layerStream :=
  if ls_closed s then ([], Some RClosed, s)
  else match ls_err s with
  | Some e => ([], Some e, s)
  | None =>
      if (ls_size s <=? ls_pos s)%Z then ([], Some REOF, s)
      else
        let need := match ls_rc s with None => true | Some _ => (ls_pos s <? ls_streamPos s)%Z end in
        let '(r, s) := if need then restart g s else (Ok tt, s) in
        match r, ls_rc s with
        | Err e, _ => ([], Some e, s)
        | Ok _, None => ([], None, s)
        | Ok _, Some rem =>
            let skip := (ls_pos s - ls_streamPos s)%Z in
            if (0 <? skip)%Z then
              let '(n, err, rest) := gen_skip g skip rem in
              let s := set_ls_rc (Some rest) (set_ls_streamPos (ls_streamPos s + n) s) in
              match err with
              | Some e => let '(e, s) := ls_fail e s in ([], Some e, s)
              | None => read_here g plen rest s
              end
            else read_here g plen rem s
        end
  end.

Definition Close (s : layerStream) : layerStream := closeStream (set_ls_closed true s).

Definition failure (s : layerStream) : option rerr := if bool_decide (ls_err s = Some RClosed) then None else ls_err s.

(** ** The reference: a byte array with a position *)

(** The bytes of [c] from [pos] on. *)
Definition from_at (c : bytes_t) (pos : Z) : bytes_t := drop (Z.to_nat pos) c.

(** A generator of the tar [c]: whenever it is opened it delivers [c] from its
    first byte, and it does not fail. *)
Definition generates (c : bytes_t) (g : generator) : Prop := g_open g = Ok c.
Definition faultless (g : generator) : Prop := g_skip_fault g = None ∧ g_fault g = None.

(** The open generator of a stream stands where the stream says. *)
Record tracks (c : bytes_t) (s : layerStream) : Prop := {
  tr_pos : (0 ≤ ls_pos s)%Z;
  tr_size : (0 ≤ ls_size s < 2 ^ 63)%Z;
  tr_rc : ∀ rem, ls_rc s = Some rem → (0 ≤ ls_streamPos s ≤ Z.of_nat (length c))%Z ∧ rem = from_at c (ls_streamPos s) }.

Lemma tracks_new c size : (0 ≤ size < 2 ^ 63)%Z → tracks c (newLayerStream size).
Proof. intros H. by split. Qed.

Lemma Seek_tracks c off wh s : tracks c s → tracks c (snd (Seek off wh s)).
Proof.
  intros [Hp Hs Hr]. unfold Seek. destruct (seek_to _ _ off wh) as [abs|] eqn:E; [|done]. split; cbn; try done. unfold seek_to in E.
  destruct wh; cbn in E; try done; (destruct (_ <? 0)%Z eqn:El; [done|]; injection E as <-; by apply Z.ltb_ge in El).
Qed.

(** ** Reading *)

Lemma from_at_drop c pos n : (0 ≤ pos)%Z → (0 ≤ n)%Z → drop (Z.to_nat n) (from_at c pos) = from_at c (pos + n).
Proof. intros Hp Hn. unfold from_at. rewrite drop_drop. f_equal. lia. Qed.

Lemma from_at_length c pos : (0 ≤ pos ≤ Z.of_nat (length c))%Z → Z.of_nat (length (from_at c pos)) = (Z.of_nat (length c) - pos)%Z.
Proof. intros H. unfold from_at. rewrite length_drop. lia. Qed.

Lemma ls_fail_keeps c e s e' s' : tracks c s → ls_fail e s = (e', s') →
  tracks c s' ∧ ls_size s' = ls_size s ∧ ls_pos s' = ls_pos s ∧ ls_err s' = Some e' ∧ (ls_err s = None → e' = e).
Proof.
  intros [Hp Hs Hr]. unfold ls_fail, closeStream. cbn. destruct (ls_err s) eqn:E; intros [= <- <-]; (split; [by split|]); done.
Qed.

Lemma gen_read_spec g plen rem out err rest : gen_read g plen rem = (out, err, rest) → (0 ≤ plen)%Z →
  out = take (length out) rem ∧ rest = drop (length out) rem ∧ (Z.of_nat (length out) ≤ plen)%Z ∧ (length out ≤ length rem)%nat ∧
  (err = None ∨ (err = Some REOF ∧ rest = []) ∨ ∃ e, g_fault g = Some e ∧ err = Some (RGen e)) ∧
  ((0 < plen)%Z → (0 < g_n g)%nat → rem ≠ [] → out ≠ []).
Proof.
  unfold gen_read. set (n := Nat.min _ _). intros H Hpl. assert (Hn : length (take n rem) = n) by (rewrite length_take; unfold n; lia).
  assert (Ho : out = take n rem ∧ rest = drop n rem).
  { destruct (g_fault g); [by injection H as <- _ <-|]. destruct (_ && _); by injection H as <- _ <-. }
  destruct Ho as [-> ->]. rewrite Hn. split; [done|]. split; [done|]. split; [unfold n; lia|]. split; [unfold n; lia|]. split.
  - destruct (g_fault g) as [e|]; [injection H as <-; eauto|]. destruct (_ && _) eqn:E; injection H as <-; [|auto].
    apply andb_true_iff in E as [E%bool_decide_eq_true_1 _]. auto.
  - intros H1 H2 H3 E%(f_equal length). rewrite Hn in E. destruct rem; [done|]. unfold n in E. cbn in E. lia.
Qed.

(** What one call of [Read] guarantees: the bytes delivered are those of [c] at
    the position, a failure is the one returned, and without faults the end is
    reported at the end only. *)
Record read_ok (c : bytes_t) (g : generator) (plen : Z) (s : layerStream) (out : bytes_t) (err : option rerr) (s' : layerStream) : Prop := {
  ro_tracks : tracks c s';
  ro_size : ls_size s' = ls_size s;
  ro_bytes : out = take (length out) (from_at c (ls_pos s));
  ro_len : (Z.of_nat (length out) ≤ plen)%Z;
  ro_pos : ls_pos s' = (ls_pos s + Z.of_nat (length out))%Z;
  ro_sticky : ∀ e, ls_err s' = Some e → err = Some e;
  ro_clean : faultless g → (ls_size s ≤ Z.of_nat (length c))%Z →
    ls_err s' = None ∧ (err = None ∨ (err = Some REOF ∧ (ls_size s ≤ ls_pos s')%Z)) ∧
    ((0 < plen)%Z → (0 < g_n g)%nat → (ls_pos s < ls_size s)%Z → out ≠ []) }.

Lemma read_here_ok c g plen s out err s' : tracks c s → (0 ≤ plen)%Z → ls_err s = None → (ls_pos s < ls_size s)%Z →
  ls_streamPos s = ls_pos s → (ls_pos s ≤ Z.of_nat (length c))%Z → read_here g plen (from_at c (ls_pos s)) s = (out, err, s') →
  read_ok c g plen s out err s'.
Proof.
  intros Ht Hpl He Hlt Hsp Hpc. destruct (id Ht) as [Hp Hs Hr]. unfold read_here.
  destruct (gen_read g _ _) as [[o er] rest] eqn:Eg. apply gen_read_spec in Eg as (Ho & Hrest & Hle & Hlr & Hcase & Hprog); [|lia].
  set (n := Z.of_nat (length o)) in *. cbv zeta.
  set (s1 := set_ls_rc (Some rest) (set_ls_streamPos (ls_streamPos s + n) (set_ls_pos (ls_pos s + n) s))).
  pose proof (from_at_length c (ls_pos s) ltac:(lia)) as Hlen.
  assert (Hr1 : rest = from_at c (ls_pos s + n)) by (rewrite Hrest, <- from_at_drop by lia; f_equal; unfold n; lia).
  assert (H1 : tracks c s1). { split; cbn; [lia|done|]. intros rem [= <-]. rewrite Hsp. split; [lia|done]. }
  assert (Hend : rest = [] → (ls_size s ≤ Z.of_nat (length c))%Z → (ls_size s ≤ ls_pos s1)%Z).
  { intros E Hsc. rewrite Hr1 in E. apply (f_equal length) in E. unfold from_at in E. rewrite length_drop in E.
    change (ls_pos s1) with (ls_pos s + n)%Z. change (length []) with 0%nat in E. lia. }
  assert (Hprog' : (0 < plen)%Z → (0 < g_n g)%nat → (ls_size s ≤ Z.of_nat (length c))%Z → o ≠ []).
  { intros A B C. apply Hprog; [lia|lia|]. intros E. rewrite E in Hlen. cbn in Hlen. lia. }
  destruct (bool_decide (er = Some REOF) && (ls_pos s1 <? ls_size s1)%Z) eqn:Eu.
  - apply andb_true_iff in Eu as [->%bool_decide_eq_true_1 Hps%Z.ltb_lt]. destruct (ls_fail RUnexpectedEOF s1) as [e' s2] eqn:Ef.
    destruct (ls_fail_keeps _ _ _ _ _ H1 Ef) as (Ht2 & Es & Epos & Eerr & Ee). intros [= <- <- <-]. split; try done.
    + lia.
    + intros e. rewrite Eerr. by intros [= <-].
    + intros [_ Hnf] Hsc. exfalso. destruct Hcase as [|[[_ Hrn]|(? & ? & ?)]]; [done| |congruence]. specialize (Hend Hrn Hsc). change (ls_size s1) with (ls_size s) in Hps. lia.
  - destruct er as [er|]; [|intros [= <- <- <-]; split; try done; [lia|cbn; congruence|intros _ Hsc; split_and!; auto]].
    destruct Hcase as [|[[[= ->] Hrn]|(e & Hge & [= ->])]]; [done| |].
    + intros [= <- <- <-]. split; try done; [lia|cbn; congruence|]. intros _ Hsc. split; [done|]. split; [right; auto|auto].
    + destruct (ls_fail (RGen e) s1) as [e' s2] eqn:Ef. destruct (ls_fail_keeps _ _ _ _ _ H1 Ef) as (Ht2 & Es & Epos & Eerr & Ee).
      intros [= <- <- <-]. split; try done; [lia| |intros [_ Hnf]; congruence]. intros e0. rewrite Eerr. by intros [= <-].
Qed.

Lemma gen_skip_spec g skip rem n err rest : gen_skip g skip rem = (n, err, rest) → (0 < skip)%Z →
  (0 ≤ n ≤ Z.of_nat (length rem))%Z ∧ rest = drop (Z.to_nat n) rem ∧ (err = None → n = skip) ∧
  (∀ e, err = Some e → g_skip_fault g ≠ None ∨ (Z.of_nat (length rem) < skip)%Z).
Proof.
  assert (Hplain : ∀ n err rest, (if (skip <=? Z.of_nat (length rem))%Z then (skip, None, drop (Z.to_nat skip) rem)
      else (Z.of_nat (length rem), Some REOF, [])) = (n, err, rest) → (0 < skip)%Z →
    (0 ≤ n ≤ Z.of_nat (length rem))%Z ∧ rest = drop (Z.to_nat n) rem ∧ (err = None → n = skip) ∧
    (∀ e, err = Some e → g_skip_fault g ≠ None ∨ (Z.of_nat (length rem) < skip)%Z)).
  { intros n0 err0 rest0. destruct (Z.leb_spec skip (Z.of_nat (length rem))); intros [= <- <- <-] Hs; (split; [lia|]).
    - split; [done|]. split; [done|]. done.
    - split; [symmetry; apply drop_ge; lia|]. split; [done|]. auto. }
  unfold gen_skip. destruct (g_skip_fault g) as [[m e]|]; [|apply Hplain].
  destruct (Z.ltb_spec (Z.of_nat m) (Z.min skip (Z.of_nat (length rem)))); [|apply Hplain].
  intros [= <- <- <-] Hs. split; [lia|]. split; [f_equal; lia|]. split; [done|]. intros e0 _. left. done.
Qed.

(** The generator brought to the position. *)
Lemma restart_spec c g s r s' : tracks c s → generates c g → restart g s = (r, s') → ls_err s = None →
  r = Ok tt ∧ s' = set_ls_streamPos 0 (set_ls_rc (Some c) (closeStream s)) ∧ tracks c s'.
Proof.
  intros [Hp Hs Hr] Hg. unfold restart. rewrite Hg. intros [= <- <-] _. split; [done|]. split; [done|]. split; cbn; [done|done|].
  intros rem [= <-]. split; [lia|]. unfold from_at. by rewrite drop_0.
Qed.

Lemma skip_read_ok c g plen s rem out err s' : tracks c s → (0 ≤ plen)%Z → ls_err s = None → (ls_pos s < ls_size s)%Z →
  ls_rc s = Some rem → (ls_streamPos s ≤ ls_pos s)%Z →
  (let skip := (ls_pos s - ls_streamPos s)%Z in
   if (0 <? skip)%Z then
     let '(n, err, rest) := gen_skip g skip rem in
     let s := set_ls_rc (Some rest) (set_ls_streamPos (ls_streamPos s + n) s) in
     match err with
     | Some e => let '(e, s) := ls_fail e s in ([], Some e, s)
     | None => read_here g plen rest s
     end
   else read_here g plen rem s) = (out, err, s') → read_ok c g plen s out err s'.
Proof.
  intros Ht Hpl He Hlt Hrc Hle. destruct (id Ht) as [Hp Hs Hr]. destruct (Hr _ Hrc) as [Hsp ->]. cbv zeta.
  pose proof (from_at_length c (ls_streamPos s) Hsp) as Hlen.
  destruct (Z.ltb_spec 0 (ls_pos s - ls_streamPos s)) as [Hsk|Hsk].
  - destruct (gen_skip g _ _) as [[n er] rest] eqn:Eg. apply gen_skip_spec in Eg as (Hn & -> & Hok & Hbad); [|done].
    rewrite from_at_drop by lia. set (s1 := set_ls_rc _ _).
    assert (H1 : tracks c s1). { split; cbn; [done|done|]. intros rem' [= <-]. split; [lia|done]. }
    destruct er as [er|].
    + destruct (ls_fail er s1) as [e' s2] eqn:Ef. destruct (ls_fail_keeps _ _ _ _ _ H1 Ef) as (Ht2 & Es & Epos & Eerr & _).
      intros [= <- <- <-]. split; try done; [transitivity (ls_pos s); [exact Epos|cbn; lia]|intros e; rewrite Eerr; by intros [= <-]|].
      intros [Hnf _] Hsc. destruct (Hbad _ eq_refl) as [|]; [done|lia].
    + specialize (Hok eq_refl). subst n. intros Hread. replace (ls_streamPos s + (ls_pos s - ls_streamPos s))%Z with (ls_pos s) in Hread by lia.
      assert (Hro : read_ok c g plen s1 out err s'); [|by destruct Hro].
      apply read_here_ok; try done; [cbn; lia|change (ls_pos s1) with (ls_pos s); lia].
  - assert (Eq : ls_streamPos s = ls_pos s) by lia. rewrite Eq. intros Hread. apply read_here_ok; try done. lia.
Qed.

Lemma Read_ok c g plen s out err s' : tracks c s → generates c g → (0 ≤ plen)%Z → ls_closed s = false → ls_err s = None →
  Read g plen s = (out, err, s') → read_ok c g plen s out err s'.
Proof.
  intros Ht Hg Hpl Hcl He. unfold Read. rewrite Hcl, He. destruct (Z.leb_spec (ls_size s) (ls_pos s)) as [Hend|Hlt].
  { intros [= <- <- <-]. split; try done; [cbn; lia|congruence|]. intros _ _. split; [done|]. split; [auto|lia]. }
  destruct (match ls_rc s with None => true | Some _ => (ls_pos s <? ls_streamPos s)%Z end) eqn:En.
  - destruct (restart g s) as [r s1] eqn:Er. destruct (restart_spec c g s r s1 Ht Hg Er He) as (-> & -> & Ht1). cbn [ls_rc set_ls_rc set_ls_streamPos].
    intros Hread. assert (Hro : read_ok c g plen (set_ls_streamPos 0 (set_ls_rc (Some c) (closeStream s))) out err s'); [|by destruct Hro].
    eapply skip_read_ok; [exact Ht1|done|done|done|reflexivity| |exact Hread]. cbn. destruct Ht as [? _ _]. lia.
  - destruct (ls_rc s) as [rem|] eqn:Erc; [|done]. apply Z.ltb_ge in En. intros Hread. by eapply skip_read_ok.
Qed.

(** ** Sequences of operations *)

Inductive sop := OSeek (offset : Z) (wh : whence) | ORead (g : generator) (plen : Z).
Inductive sres := RSeek (r : result rerr Z) | RRead (out : bytes_t) (err : option rerr).

Definition do_op (op : sop) (s : layerStream) : sres * layerStream :=
  match op with
  | OSeek off wh => let '(r, s) := Seek off wh s in (RSeek r, s)
  | ORead g plen => let '(out, err, s) := Read g plen s in (RRead out err, s)
  end.

Fixpoint run_ops (ops : list sop) (s : layerStream) : list sres * layerStream :=
  match ops with
  | [] => ([], s)
  | op :: ops => let '(r, s) := do_op op s in let '(rs, s) := run_ops ops s in (r :: rs, s)
  end.

(** The reference: the bytes [c] with a position and a failure that stays. A
    read delivers the bytes at the position, and with a faultless generator
    and as many bytes as promised it makes progress and ends at the end. *)
Definition ref_op (c : bytes_t) (size : Z) (op : sop) (st : Z * option rerr) (r : sres) (st' : Z * option rerr) : Prop :=
  match op, r with
  | OSeek off wh, RSeek r => r = seek_to size (fst st) off wh ∧ st' = (match r with Ok abs => abs | Err _ => fst st end, snd st)
  | ORead g plen, RRead out err =>
      match snd st with
      | Some e => out = [] ∧ err = Some e ∧ st' = st
      | None =>
          out = take (length out) (from_at c (fst st)) ∧ (Z.of_nat (length out) ≤ plen)%Z ∧ fst st' = (fst st + Z.of_nat (length out))%Z ∧
          (∀ e, snd st' = Some e → err = Some e) ∧
          (faultless g → (size ≤ Z.of_nat (length c))%Z → snd st' = None ∧ (err = None ∨ (err = Some REOF ∧ (size ≤ fst st')%Z)) ∧
            ((0 < plen)%Z → (0 < g_n g)%nat → (fst st < size)%Z → out ≠ []))
      end
  | _, _ => False
  end.

Inductive ref_run (c : bytes_t) (size : Z) : list sop → Z * option rerr → list sres → Prop :=
| ref_nil st : ref_run c size [] st []
| ref_cons op ops st r rs st' : ref_op c size op st r st' → ref_run c size ops st' rs → ref_run c size (op :: ops) st (r :: rs).

Definition op_ok (c : bytes_t) (op : sop) : Prop := match op with OSeek _ _ => True | ORead g plen => generates c g ∧ (0 ≤ plen)%Z end.

Lemma Read_closed g plen s out err s' : Read g plen s = (out, err, s') → ls_closed s' = ls_closed s.
Proof.
  assert (Hf : ∀ e s e' s', ls_fail e s = (e', s') → ls_closed s' = ls_closed s).
  { intros e s0 e' s1. unfold ls_fail. cbn. destruct (ls_err s0); by intros [= _ <-]. }
  assert (Hh : ∀ rem s out err s', read_here g plen rem s = (out, err, s') → ls_closed s' = ls_closed s).
  { intros rem s0 out0 err0 s1. unfold read_here. destruct (gen_read g _ rem) as [[o er] rest]. cbv zeta. set (s2 := set_ls_rc _ _). intros H.
    assert (E2 : ls_closed s2 = ls_closed s0) by done. repeat case_match; simplify_eq; try done; match goal with H : ls_fail _ _ = _ |- _ => apply Hf in H; congruence end. }
  unfold Read. destruct (ls_closed s) eqn:Ecl; [by intros [= _ _ <-]|]. destruct (ls_err s); [by intros [= _ _ <-]|]. destruct (_ <=? _)%Z; [by intros [= _ _ <-]|].
  set (need := match ls_rc s with None => true | Some _ => _ end). intros H. destruct (if need then restart g s else (Ok tt, s)) as [r s1] eqn:Er.
  assert (E1 : ls_closed s1 = false).
  { destruct need; [|injection Er as _ <-; done]. unfold restart in Er. destruct (g_open g); [injection Er as _ <-; done|].
    destruct (ls_fail _ _) as [e1 s2] eqn:Ef. apply Hf in Ef. injection Er as _ <-. rewrite Ef. done. }
  destruct r; [|injection H as _ _ <-; done]. destruct (ls_rc s1) as [rem|]; [|injection H as _ _ <-; done]. cbv zeta in H.
  destruct (0 <? _)%Z; [|apply Hh in H; congruence]. destruct (gen_skip g _ rem) as [[n er] rest]. destruct er as [e|].
  - destruct (ls_fail e _) as [e1 s2] eqn:Ef. apply Hf in Ef. injection H as _ _ <-. rewrite Ef. done.
  - apply Hh in H. rewrite H. done.
Qed.

Lemma do_op_ref c op s r s' : tracks c s → ls_closed s = false → op_ok c op → do_op op s = (r, s') →
  ref_op c (ls_size s) op (ls_pos s, ls_err s) r (ls_pos s', ls_err s') ∧ tracks c s' ∧ ls_closed s' = false ∧ ls_size s' = ls_size s.
Proof.
  intros Ht Hcl Hok. destruct op as [off wh|g plen]; cbn.
  - pose proof (Seek_tracks c off wh s Ht) as Ht'. unfold Seek in *. destruct (seek_to _ _ off wh); intros [= <- <-]; done.
  - destruct Hok as [Hg Hpl]. destruct (Read g plen s) as [[out err] s1] eqn:E. intros [= <- <-].
    assert (Hcl' : ls_closed s1 = false) by (by rewrite (Read_closed _ _ _ _ _ _ E)).
    destruct (ls_err s) as [e|] eqn:Ee.
    + unfold Read in E. rewrite Hcl, Ee in E. injection E as <- <- <-. rewrite Ee. done.
    + destruct (Read_ok c g plen s out err s1 Ht Hg Hpl Hcl Ee E) as [? ? ? ? ? ? ?]. done.
Qed.

(** A generated layer reads like a file. Over every sequence of seeks and
    reads, with a generator that delivers [c] from the start whenever it is
    opened, in whatever pieces and with whatever failures, the stream answers
    as the bytes [c] with a position: every read delivers exactly the bytes at
    the position, seeking is arithmetic, and after a failure nothing but that
    failure is delivered. With a generator that does not fail and delivers at
    least the promised size, reads make progress, never fail, and report the
    end at the promised size and not before. *)
Theorem layer_stream_refines c size ops rs s' : (0 ≤ size < 2 ^ 63)%Z → Forall (op_ok c) ops →
  run_ops ops (newLayerStream size) = (rs, s') → ref_run c size ops (0%Z, None) rs.
Proof.
  intros Hsize Hops.
  assert (Hgen : ∀ s, tracks c s → ls_closed s = false → ls_size s = size → ∀ rs s', run_ops ops s = (rs, s') → ref_run c size ops (ls_pos s, ls_err s) rs).
  { clear rs s'. induction Hops as [|op ops Hop Hops IH]; intros s Ht Hcl Hs rs s'; simpl; [intros [= <- <-]; constructor|].
    destruct (do_op op s) as [r s1] eqn:E. destruct (run_ops ops s1) as [rs1 s2] eqn:E2. intros [= <- <-].
    destruct (do_op_ref c op s r s1 Ht Hcl Hop E) as (Href & Ht1 & Hcl1 & Hs1). rewrite Hs in *. econstructor; [exact Href|]. by eapply IH. }
  intros H. eapply (Hgen (newLayerStream size)); [by apply tracks_new|done|done|exact H].
Qed.

(** After [Close] nothing is delivered, and no generator is left open. *)
Lemma closed_reads_nothing g plen s : Read g plen (Close s) = ([], Some RClosed, Close s) ∧ ls_rc (Close s) = None.
Proof. done. Qed.

(** ** A run, and where the end is reported too early *)

Definition tar : bytes_t := String.list_ascii_of_string "0123456789".
Definition steady : generator := mkGen (Ok tar) None 4 None false.

Definition demo_ops : list sop := [ORead steady 3; OSeek 6 SeekStart; ORead steady 8; OSeek (-9) SeekCurrent; ORead steady 2].

Lemma layer_stream_refines_witness : ref_run tar 10 demo_ops (0%Z, None)
  [RRead (String.list_ascii_of_string "012") None; RSeek (Ok 6%Z); RRead (String.list_ascii_of_string "6789") None; RSeek (Ok 1%Z);
   RRead (String.list_ascii_of_string "12") None].
Proof.
  eapply (layer_stream_refines tar 10 demo_ops); [lia| |vm_compute; reflexivity].
  repeat (constructor; [first [exact I | split; [reflexivity | lia]]|]). constructor.
Defined.

(** A store that lost content is to be reported as a truncation, not as a clean
    end; but when the missing bytes are skipped and not read, the stream
    reports the clean end [io.EOF] before the promised size. *)
Theorem skip_reports_clean_end :
  let '(r, s) := do_op (OSeek 5 SeekStart) (newLayerStream 10) in
  fst (do_op (ORead (mkGen (Ok (take 3 tar)) None 4 None false) 4) s) = RRead [] (Some REOF) ∧ (ls_pos s < ls_size s)%Z.
Proof. vm_compute. done. Qed.
