(* ===== verification/Stages.v ===== *)
(** * The runner's stage drivers (src/runner, src/amber/buildfrom.go)

    What one attempt at a stage does with the runner's own store: the import
    fetch, the assembly of a build-from tree, plugin resolution, pinning and the
    build itself. Sandboxes, recipe evaluation and the file system are a
    parameter ([StageIO]); how results are published is the interface
    [RefWriter]. *)
From S2P Require Import Prelude GoLib Keys Wire Builddef Store.
Local Open Scope string_scope.
Local Open Scope list_scope.

(** ** Outcomes (src/runner/importjob.go) *)

Section Outcomes.
Context `{KL : KeyLib}.

Record Outcome := mkOutcome {
  o_OutputKey : option Key; o_Decline : bool; o_DeclineReason : string; o_Cancelled : bool; o_Failed : bool;
  o_Class : string; o_ExitCode : Z; o_Phase : string; o_Stderr : string }.

Definition retryable (phase err : string) : Outcome := mkOutcome None false "" false true "retryable" 0 phase err.
Definition hard (phase msg : string) (exit : Z) : Outcome := mkOutcome None false "" false true "hard" exit phase msg.
Definition cancelled : Outcome := mkOutcome None false "" true false "" 0 "" "".
Definition succeeded (k : Key) : Outcome := mkOutcome (Some k) false "" false false "" 0 "" "".
Definition exited (class : string) (exit : Z) (phase tail : string) : Outcome := mkOutcome None false "" false true class exit phase tail.

(** Why publishing references failed. *)
Inductive write_err := RefsNotAssigned | RefsAckTimeout (e : string) | WriteFailed (e : string).

Definition pushOutcome (phase : string) (e : write_err) : Outcome :=
  match e with
  | RefsNotAssigned => cancelled
  | RefsAckTimeout e => mkOutcome None false "" false true "control" 0 phase e
  | WriteFailed e => retryable phase e
  end.

Definition exTempFail : Z := 75.
End Outcomes.

(** ** The monad of a driver: the store and the collected proposals, or an outcome *)

Section Monad.
Context `{SL : StoreLib}.

(** The runner's local store with what the ref writer collected. *)
Record rstate := mkRS { rs_st : Store; rs_refs : list RefProposal }.
Definition set_rs_st (st : Store) (s : rstate) : rstate := mkRS st (rs_refs s).

Definition R (A : Type) : Type := rstate → rstate * result Outcome A.
Global Instance R_ret : MRet R := λ A a s, (s, Ok a).
Global Instance R_bind : MBind R := λ A B k m s,
  match m s with (s, Ok a) => k a s | (s, Err o) => (s, Err o) end.

(** Ending the stage early with an outcome. *)
Definition stop {A} (o : Outcome) : R A := λ s, (s, Err o).
(** A call that may fail, its failure made an outcome by [f]. *)
Definition orElse {A} (r : result string A) (f : string → Outcome) : R A := λ s, (s, match r with Ok a => Ok a | Err e => Err (f e) end).
(** [GetKey] on the runner's store. *)
Definition r_get (name : string) (f : string → Outcome) : R (option Key) := λ s,
  (s, match GetKey name (rs_st s) with Ok k => Ok k | Err e => Err (f e) end).
Definition objs_do {A} (g : Objs → Objs * result string A) (f : string → Outcome) : R A := λ s,
  let '(o, r) := g (st_objs (rs_st s)) in
  (set_rs_st (set_objs o (rs_st s)) s, match r with Ok a => Ok a | Err e => Err (f e) end).
Definition objs_ask {A} (g : Objs → result string A) (f : string → Outcome) : R A := λ s,
  (s, match g (st_objs (rs_st s)) with Ok a => Ok a | Err e => Err (f e) end).
End Monad.

(** ** Publishing (src/runner/refwriter.go) *)

Section Refs.
Context `{KL : KeyLib}.
Record Ref := mkRRef { rr_Name : string; rr_Key : Key; rr_Label : string }.
End Refs.

Class RefWriter `{SL : StoreLib} := {
  WriteRef : string → Key → rstate → rstate * result write_err unit;
  WriteRefs : list Ref → rstate → rstate * result write_err unit;
}.

Section Writers.
Context `{SL : StoreLib}.

Definition put_one (record : Ref → list RefProposal) (r : Ref) (s : rstate) : rstate * result write_err unit :=
  match PutRef (rr_Name r) (rr_Key r) (rs_st s) with
  | (st, Err e) => (set_rs_st st s, Err (WriteFailed e))
  | (st, Ok _) => (mkRS st (rs_refs s ++ record r), Ok tt)
  end.

(** In order, stopping at the first error. *)
Fixpoint put_all (record : Ref → list RefProposal) (rs : list Ref) (s : rstate) : rstate * result write_err unit :=
  match rs with
  | [] => (s, Ok tt)
  | r :: rs => match put_one record r s with (s, Ok _) => put_all record rs s | (s, Err e) => (s, Err e) end
  end.

(** [LocalRefWriter]: straight into the store. *)
Definition LocalRefWriter : RefWriter := {|
  WriteRef := λ name k, put_one (λ _, []) (mkRRef name k "");
  WriteRefs := put_all (λ _, []) |}.

(** [collectRefWriter] (src/runnerd/refwriter.go): into the runner's store, and
    into the list of proposals. [WriteRef] drops labels. *)
Definition proposal (r : Ref) : RefProposal := mkRef (rr_Name r) (key_bytes (rr_Key r)) (rr_Label r).
Definition collectRefWriter : RefWriter := {|
  WriteRef := λ name k, put_one (λ r, [proposal r]) (mkRRef name k "");
  WriteRefs := put_all (λ r, [proposal r]) |}.
End Writers.

(** ** The world around a stage *)

Section World.
Context `{KL : KeyLib}.

Record CacheMount := mkMount { cm_ID : string; cm_Path : string; cm_HostDir : string; cm_SeedKey : option Key }.

Record BuildSpec := mkSpec {
  bs_StoreKey : Key; bs_ShellBOK : Key; bs_JobsDeps : gmap string string; bs_SourceKey : Key; bs_SourceDir : string; bs_Workdir : string;
  bs_Env : gmap string string; bs_Script : string; bs_Caches : list CacheMount; bs_MemoryMaxBytes : Z; bs_Node : string }.

Record BuildRunCfg := mkBRC { brc_Platform : string; brc_ShellKey : Key; brc_MemoryMaxBytes : Z }.

(** What a sandboxed run leaves: exit code, tail of stderr, output directory. *)
Record exec_result := mkExec { x_ExitCode : Z; x_StderrTail : string; x_OutDir : string }.

(** A materialised build-from tree: the file [dir] (empty if absent), whether it
    is a directory below env, and the other files ([None]: unreadable). *)
Record env_files := mkEnvFiles {
  ef_dir : string; ef_dirOK : bool; ef_params : option string; ef_platform : option string; ef_override : option string; ef_recipe : option string }.

(** What [recipe.EvalBuild] returns ([recipe.BuildResult]). *)
Record eval_result := mkEval {
  er_Inputs : list (string * Input); er_Env : gmap string string; er_Script : string; er_RuntimeDeps : list Input; er_Caches : list PinnedCache;
  er_Resources : option PinnedResources; er_Name : string; er_Sources : list string; er_Closure : list string; er_Generated : gmap string string;
  er_AllowEscaping : list string }.

(** The environment a recipe is evaluated in. *)
Record eval_env := mkEnv {
  ee_Platform : string; ee_Params : string; ee_Recipe : string; ee_Dir : string; ee_Source : Key; ee_Context : option Key }.
End World.

(** The object half of the store as the drivers use it ([obj_Ls] lists a
    directory: names, and content keys where there are any), the codecs, the
    order in which a Go map is ranged over, which of several concurrent failures
    comes first, recipe evaluation, sandboxes and the disk. [io_dying] is
    whether the run was being cancelled when the sandbox failed, [io_skipped]
    which of the concurrent resolutions of a set of inputs saw the run cancelled
    before they had begun. *)
Class StageIO `{SL : StoreLib} := {
  obj_Ls : Objs → Key → result string (list (string * option Key));
  obj_StoreTree : Objs → list Key → Objs * result string Key;
  obj_FromTree : Objs → Key → string → string → string → option string → Objs * result string Key;
  obj_TreeFile : Objs → Key → string → result string string;
  enc_PluginResolved : PluginResolved → result string string;
  enc_Pinned : Pinned → result string string;
  io_Platform : string;
  io_env : Objs → Key → result string env_files;
  io_EvalPlugins : eval_env → result string (gmap string Input * gmap string Input);
  io_extract : Objs → Key → string → result string string;
  io_ParsePins : string → result string unit;
  io_range : gmap string Input → list (string * Input);
  io_range_perm m : io_range m ≡ₚ map_to_list m;
  io_pick : nat;
  io_skipped : list PinnedInput → nat → bool;
  io_EvalBuild : eval_env → gmap string string → result (bool * string) eval_result;
  io_WalkClosure : Objs → Key → string → list string → list string → result string (list string);
  io_Walk : Objs → Key → string → list string → list string → result string (list string);
  io_seed : Objs → PinnedCache → option Key → result string string;
  io_RunBuild : BuildSpec → result string exec_result;
  io_finalCache : Objs → CacheMount → Objs * result (string * string) (option Key);
  io_finalOutput : Objs → string → Objs * result (string * string) Key;
  io_fetcherArtifact : Key → string → result string string;
  io_fetcher : string → string → result string (option string);
  io_workdir : result string string;
  io_params : ImportDef → result string string;
  io_secrets : list string → result string unit;
  io_fetch : Key → string → Key → option Key → result string exec_result;
  io_ingestOutput : Objs → string → Objs * result string Key;
  io_dying : bool;
}.

Section Stages.
Context `{SIO : StageIO} {RW : RefWriter}.

Definition publish (phase : string) (m : rstate → rstate * result write_err unit) : R unit := λ s,
  match m s with (s, Ok _) => (s, Ok tt) | (s, Err e) => (s, Err (pushOutcome phase e)) end.

Definition pullFileBytes (phase : string) (k : Key) : R string := objs_ask (λ o, obj_ReadFile o k) (retryable phase).

(** ** Looking into trees and references *)

Definition resolveSubdirKey (o : Objs) (root : Key) (name : string) : result string Key :=
  match obj_Ls o root with
  | Err e => Err e
  | Ok ents =>
      match List.find (λ e : string * option Key, String.eqb (fst e) name) ents with
      | Some (_, Some k) => Ok k
      | Some (_, None) => Err ("entry " +:+ name +:+ " has no content key")
      | None => Err ("no " +:+ name +:+ " entry")
      end
  end.

Fixpoint subtree_segs (o : Objs) (cur : Key) (segs : list string) : result string Key :=
  match segs with
  | [] => Ok cur
  | seg :: segs =>
      if String.eqb seg "" then subtree_segs o cur segs
      else match resolveSubdirKey o cur seg with Ok next => subtree_segs o next segs | Err e => Err e end
  end.

Definition resolveSubtreeKey (o : Objs) (root : Key) (dir : string) : result string Key := subtree_segs o root (Split dir slash).

(** src/amber/buildfrom.go: the K to F bridge. *)
Definition via_F (ref : Key → string) (k : Key) (f : string → Outcome) : R (option Key) :=
  F ← r_get (build_from k) f;
  match F with None => mret None | Some F => r_get (ref F) f end.
Definition ResolveBuildOutput (k : Key) (f : string → Outcome) : R (option Key) := via_F build_output k f.
Definition ResolveBuildOutputDeps (k : Key) (f : string → Outcome) : R (option Key) := via_F build_output_deps k f.

(** [ResolveBuildArtifact]: the c/ subtree, with the direct fallback. *)
Definition ResolveBuildArtifact (k : Key) : R (option Key) :=
  let f := retryable "resolving" in
  out ← ResolveBuildOutput k f;
  out ← match out with Some out => mret (Some out) | None => r_get (build_output k) f end;
  match out with
  | None => mret None
  | Some out =>
      c ← objs_ask (λ o, obj_TreeSubdir o out "c") f;
      match c with
      | Some c => mret (Some c)
      | None => stop (hard "resolving" "build output has no c/ artifact" 0)
      end
  end.

Definition require_some {A} (o : option A) (out : Outcome) : R A := match o with Some a => mret a | None => stop out end.

Definition ensureImportDef (k : Key) : R unit := _ ← r_get ("import:" +:+ key_String k) (retryable "pulling import def"); mret tt.
Definition ensureBuildDef (k : Key) : R unit := _ ← r_get ("build:" +:+ key_String k) (retryable "pulling build def"); mret tt.
Definition ensureBuildFromTree (f : Key) : R unit := _ ← r_get (build_from_tree f) (retryable "pulling build-from tree"); mret tt.

(** ** Imports (src/runner/importjob.go) *)

Definition resolve_fetcher (def : ImportDef) (platform : string) : R string :=
  if negb (String.eqb (i_FetcherDef def) "") then
    fk ← orElse (FileKey (i_FetcherDef def)) (λ e, hard "resolving" ("fetcher build def key: " +:+ e) 0);
    ak ← ResolveBuildArtifact fk;
    ak ← require_some ak (retryable "resolving" ("fetcher build " +:+ key_String fk +:+ " output not resolvable yet"));
    orElse (io_fetcherArtifact ak (i_Fetcher def)) (retryable "resolving")
  else
    found ← orElse (io_fetcher (i_Fetcher def) platform) (retryable "resolving");
    require_some found (hard "resolving" ("no fetcher " +:+ i_Fetcher def +:+ " for " +:+ platform) 0).

Definition fetcher_closure (def : ImportDef) : R (option Key) :=
  if String.eqb (i_FetcherDef def) "" then mret None
  else match FileKey (i_FetcherDef def) with
  | Err _ => mret None
  | Ok fk =>
      ck ← ResolveBuildOutputDeps fk (retryable "resolving");
      match ck with Some ck => mret (Some ck) | None => r_get (build_output_deps fk) (retryable "resolving") end
  end.

Definition RunImport (k : Key) : R Outcome :=
  ensureImportDef k;;
  defBytes ← pullFileBytes "pulling" k;
  def ← orElse (dec_Import defBytes) (λ e, hard "pulling" ("decode definition: " +:+ e) 0);
  let platform := if String.eqb (i_Platform def) "" then io_Platform else i_Platform def in
  fdir ← resolve_fetcher def platform;
  shell ← r_get ("shell:" +:+ platform) (retryable "resolving");
  closure ← fetcher_closure def;
  work ← orElse io_workdir (retryable "fetching");
  params ← orElse (io_params def) (λ e, hard "fetching" ("render params: " +:+ e) 0);
  (if bool_decide (i_RequiredTags def = []) then mret tt else orElse (io_secrets (i_RequiredTags def)) (retryable "fetching"));;
  match io_fetch k fdir (default inhabitant shell) closure with
  | Err e => stop (if io_dying then cancelled else retryable "fetching" e)
  | Ok res =>
      if (x_ExitCode res =? 0)%Z then
        r ← objs_do (λ o, io_ingestOutput o work) (retryable "ingesting");
        publish "pushing" (WriteRefs [mkRRef (import_output k) r ""]);;
        mret (succeeded r)
      else if (x_ExitCode res =? exTempFail)%Z then stop (exited "retryable" (x_ExitCode res) "fetching" (x_StderrTail res))
      else stop (exited "hard" (x_ExitCode res) "fetching" (x_StderrTail res))
  end.

(** ** Build-from trees (src/runner/buildfrom.go) *)

Definition resolveSourceContentTree (source : Input) : R Key :=
  srcK ← orElse (FileKey (in_Definition source)) (λ e, hard "resolving" ("source key: " +:+ e) 0);
  if String.eqb (in_Kind source) InputKind.Import then
    out ← r_get (import_output srcK) (retryable "resolving");
    require_some out (retryable "resolving" (import_output srcK +:+ " not found (source not built)"))
  else if String.eqb (in_Kind source) InputKind.Build then
    out ← ResolveBuildOutput srcK (retryable "resolving");
    out ← require_some out (retryable "resolving" ("build output for source " +:+ key_String srcK +:+ " not found"));
    objs_ask (λ o, resolveSubdirKey o out "c") (retryable "resolving")
  else if String.eqb (in_Kind source) InputKind.Tree then
    tk ← orElse (dec_TreeKey (in_Definition source)) (λ e, hard "resolving" ("decode tree source: " +:+ e) 0);
    ensureBuildFromTree tk;;
    _ ← objs_ask (λ o, obj_Ls o tk) (retryable "resolving");
    mret tk
  else stop (hard "resolving" ("unknown source kind: " +:+ in_Kind source) 0).

(** The recipe to splice at the top of the tree, or nothing when the build
    root's own recipe is the effective one. *)
Definition resolveRecipeOverride (o : Objs) (env : Key) (buildFile inline : string) : result string (option string) :=
  effective ← (if String.eqb inline "" && negb (String.eqb buildFile "") then
      match obj_TreeFile o env buildFile with
      | Ok b => Ok b
      | Err e => Err ("recipe not found at " +:+ buildFile +:+ " in build root: " +:+ e)
      end
    else Ok inline);
  let envRecipe := obj_TreeFile o env "BUILD.jobs" in
  if negb (String.eqb effective "") && negb (match envRecipe with Ok b => String.eqb effective b | Err _ => false end) then Ok (Some effective)
  else if is_ok envRecipe then Ok None
  else Err "no BUILD.jobs in source and no override/build_file".

Definition RunBuildFrom (k : Key) : R Outcome :=
  ensureBuildDef k;;
  defBytes ← pullFileBytes "pulling" k;
  def ← orElse (dec_Definition defBytes) (λ e, hard "pulling" ("decode definition: " +:+ e) 0);
  orElse (ValidateCtx (d_Ctx def)) (λ e, hard "resolving" e 0);;
  contentTree ← resolveSourceContentTree (d_Source def);
  buildRoot ← objs_ask (λ o, resolveSubtreeKey o contentTree (d_Dir def)) (λ e, hard "resolving" ("dir not found in source: " +:+ e) 0);
  override ← objs_ask (λ o, resolveRecipeOverride o buildRoot (d_BuildFile def) (d_BuildJobs def)) (λ e, hard "resolving" e 0);
  let '(envKey, dirEntry) := if (d_Ctx def =? CtxWidened)%Z then (contentTree, d_Dir def) else (buildRoot, "") in
  f ← objs_do (λ o, obj_FromTree o envKey dirEntry (d_Params def) (d_Platform def) override) (retryable "assembling");
  publish "pushing" (WriteRefs [mkRRef (build_from k) f ""; mkRRef (build_from_tree f) f ""]);;
  mret (succeeded f).

(** ** Evaluating recipes (src/runner/buildeval.go, src/runner/buildfromenv.go) *)

Definition loadBuildFromEnv (f : Key) : R eval_env :=
  ensureBuildFromTree f;;
  files ← objs_ask (λ o, io_env o f) (retryable "materializing");
  envKey ← objs_ask (λ o, resolveSubdirKey o f "env") (λ e, hard "materializing" ("build-from tree missing env: " +:+ e) 0);
  let dir := ef_dir files in
  root ← (if String.eqb dir "" then mret (envKey, None)
    else if negb (ef_dirOK files) then stop (hard "materializing" ("build-from tree dir " +:+ dir +:+ " not found under env") 0)
    else sk ← objs_ask (λ o, resolveSubtreeKey o envKey dir) (λ e, hard "materializing" ("build-from tree dir subtree: " +:+ e) 0);
         mret (sk, Some envKey));
  params ← require_some (ef_params files) (hard "materializing" "build-from tree missing params" 0);
  platform ← require_some (ef_platform files) (hard "materializing" "build-from tree missing platform" 0);
  recipe ← require_some (match ef_override files with Some b => Some b | None => ef_recipe files end)
    (hard "materializing" "no effective BUILD.jobs in build-from tree" 0);
  mret (mkEnv platform params recipe dir (fst root) (snd root)).

Fixpoint ingest_all (defs : list string) : R unit :=
  match defs with
  | [] => mret tt
  | d :: ds => _ ← objs_do (λ o, obj_IngestFile o d) (retryable "ingesting"); ingest_all ds
  end.

(** The distinct tree sources among the sub-builds. *)
Definition tree_source (i : Input) : option Key :=
  if String.eqb (in_Kind i) InputKind.Build then
    match dec_Definition (in_Definition i) with
    | Ok def =>
        if String.eqb (in_Kind (d_Source def)) InputKind.Tree
        then match dec_TreeKey (in_Definition (d_Source def)) with Ok tk => Some tk | Err _ => None end
        else None
    | Err _ => None
    end
  else None.

Fixpoint tree_refs (seen : gset Key) (inputs : list Input) : R unit :=
  match inputs with
  | [] => mret tt
  | i :: is' =>
      match tree_source i with
      | None => tree_refs seen is'
      | Some tk =>
          if decide (tk ∈ seen) then tree_refs seen is'
          else publish "pushing tree source ref" (WriteRef (build_from_tree tk) tk);; tree_refs ({[tk]} ∪ seen) is'
      end
  end.
Definition writeTreeSourceRefs (inputs : list Input) : R unit := tree_refs ∅ inputs.

Definition RunPluginResolve (f : Key) : R Outcome :=
  env ← loadBuildFromEnv f;
  pres ← orElse (io_EvalPlugins env) (λ e, hard "evaluating" ("recipe plugins(): " +:+ e) 0);
  let inputs := (io_range (fst pres)).*2 ++ (io_range (snd pres)).*2 in
  ingest_all (in_Definition <$> inputs);;
  writeTreeSourceRefs inputs;;
  body ← orElse (enc_PluginResolved (Build_PluginResolved (fst pres) (snd pres))) (retryable "encoding");
  r ← objs_do (λ o, obj_IngestFile o body) (retryable "ingesting");
  publish "pushing" (WriteRef (build_plugin_resolved f) r);;
  mret (succeeded r).

Definition readPluginPins (artifact : Key) : R unit :=
  k ← objs_ask (λ o, obj_TreeSubdir o artifact "fetchers.toml") (retryable "resolving");
  match k with
  | None => mret tt
  | Some k =>
      b ← objs_ask (λ o, obj_ReadFile o k) (retryable "resolving");
      orElse (io_ParsePins b) (λ e, hard "resolving" ("fetchers.toml: " +:+ e) 0)
  end.

Fixpoint buildPluginCallers (plugins : list (string * Input)) : R unit :=
  match plugins with
  | [] => mret tt
  | (name, i) :: ps =>
      pk ← orElse (FileKey (in_Definition i)) (λ e, hard "resolving" ("plugin " +:+ name +:+ " key: " +:+ e) 0);
      out ← r_get (import_output pk) (retryable "resolving");
      out ← match out with Some out => mret (Some out) | None => ResolveBuildOutput pk (retryable "resolving") end;
      out ← require_some out (retryable "resolving" ("no output for plugin " +:+ name));
      readPluginPins out;;
      buildPluginCallers ps
  end.

(** ** Resolving inputs (src/runner/buildrun.go, src/runner/depsmount.go) *)

Definition resolveInputOutputKey (pi : PinnedInput) : R Key :=
  ik ← orElse (FileKey (pi_Definition pi)) (λ e, hard "resolving" ("input key: " +:+ e) 0);
  if String.eqb (pi_Kind pi) InputKind.Import then
    out ← r_get (import_output ik) (retryable "resolving");
    require_some out (retryable "resolving" (import_output ik +:+ " not found"))
  else if String.eqb (pi_Kind pi) InputKind.Build then
    out ← ResolveBuildOutput ik (retryable "resolving");
    out ← require_some out (retryable "resolving" ("build output for " +:+ key_String ik +:+ " not found"));
    objs_ask (λ o, resolveSubdirKey o out "c") (retryable "resolving")
  else stop (hard "resolving" ("unknown input kind: " +:+ pi_Kind pi) 0).

(** Every resolution dep extracted to disk, by name. *)
Fixpoint materializeDeps (deps : list (string * Input)) : R (gmap string string) :=
  match deps with
  | [] => mret ∅
  | (name, i) :: deps =>
      orElse (ValidateDepName name) (λ e, hard "materializing" e 0);;
      out ← resolveInputOutputKey (Build_PinnedInput name (in_Kind i) (in_Definition i));
      dir ← objs_ask (λ o, io_extract o out name) (retryable "materializing");
      dirs ← materializeDeps deps;
      mret (<[name := dir]> dirs)
  end.

(** ** Pinning *)

(** [BuildResult.Validate] (src/recipe/recipe.go): runtime deps are inputs, and
    the caches are well formed. *)
Fixpoint input_ids (ins : list Input) : result string (list (string * Key)) :=
  match ins with
  | [] => Ok []
  | i :: is' =>
      match FileKey (in_Definition i) with
      | Err e => Err e
      | Ok k => match input_ids is' with Ok ids => Ok ((in_Kind i, k) :: ids) | Err e => Err e end
      end
  end.

Definition Validate (r : eval_result) : result string unit :=
  match input_ids (er_Inputs r).*2 with
  | Err e => Err e
  | Ok have =>
      for_each (λ d, match FileKey (in_Definition d) with
                     | Err e => Err e
                     | Ok k => if bool_decide ((in_Kind d, k) ∈ have) then Ok tt
                               else Err ("runtime_dep " +:+ in_Kind d +:+ "-" +:+ key_String k +:+ " is not in inputs")
                     end) (er_RuntimeDeps r) ≫= λ _,
      ValidateCaches (er_Caches r)
  end.

(** The covered closure of a pin: [Pinned.Sources] and [Pinned.Closure]. *)
Definition pin_cover (env : eval_env) (res : eval_result) : R (list string * list string) :=
  if negb (bool_decide (er_Closure res = [])) then
    c ← objs_ask (λ o, io_WalkClosure o (default (ee_Source env) (ee_Context env)) (ee_Dir env) (er_Closure res) (er_AllowEscaping res)) (λ e, hard "covering" e 0);
    mret ([], c)
  else match ee_Context env with
  | Some ctx =>
      c ← objs_ask (λ o, io_Walk o ctx (ee_Dir env) (er_Sources res) (er_AllowEscaping res)) (λ e, hard "covering" e 0);
      mret (c, [])
  | None =>
      if negb (bool_decide (er_Sources res = []))
      then stop (hard "covering" "recipe declares sources= but the build has no widened context" 0)
      else mret ([], [])
  end.

Fixpoint runtime_keys (ds : list Input) : result string (list string) :=
  match ds with
  | [] => Ok []
  | d :: ds =>
      match FileKey (in_Definition d) with
      | Err e => Err e
      | Ok k => match runtime_keys ds with Ok ks => Ok (key_bytes k :: ks) | Err e => Err e end
      end
  end.

Definition pinned_input (n : string * Input) : PinnedInput := Build_PinnedInput (fst n) (in_Kind (snd n)) (in_Definition (snd n)).

(** The description a pin publishes. *)
Definition make_pinned (env : eval_env) (res : eval_result) (rtKeys covered closure : list string) : Pinned :=
  Build_Pinned (CanonicalPinnedInputs (pinned_input <$> er_Inputs res)) (er_Env res) (er_Script res) (SortKeys rtKeys)
    (CanonicalCaches (er_Caches res)) (er_Resources res) (CanonicalSources covered) (CanonicalSources closure) (ee_Dir env) (er_Generated res).

Definition RunPin (f : Key) : R Outcome :=
  env ← loadBuildFromEnv f;
  prKey ← r_get (build_plugin_resolved f) (retryable "pulling");
  prKey ← require_some prKey (retryable "pulling" (build_plugin_resolved f +:+ " not found"));
  prBytes ← pullFileBytes "pulling" prKey;
  pr ← orElse (dec_PluginResolved prBytes) (λ e, hard "pulling" ("decode plugin-resolved: " +:+ e) 0);
  depDirs ← materializeDeps (io_range (pr_Deps pr));
  buildPluginCallers (io_range (pr_Plugins pr));;
  res ← (match io_EvalBuild env depDirs with
         | Ok res => mret res
         | Err (true, e) => stop (retryable "evaluating" e)
         | Err (false, e) => stop (hard "evaluating" ("recipe build(): " +:+ e) 0)
         end);
  orElse (Validate res) (λ e, hard "validating" e 0);;
  cover ← pin_cover env res;
  writeTreeSourceRefs (er_Inputs res).*2;;
  rtKeys ← orElse (runtime_keys (er_RuntimeDeps res)) (λ e, hard "assembling" ("runtimeDep key: " +:+ e) 0);
  let pinned := make_pinned env res rtKeys (fst cover) (snd cover) in
  ingest_all (pi_Definition <$> p_Inputs pinned);;
  body ← orElse (enc_Pinned pinned) (retryable "encoding");
  r ← objs_do (λ o, obj_IngestFile o body) (retryable "ingesting");
  publish "pushing" (WriteRefs [mkRRef (build_pinned f) r (er_Name res)]);;
  mret (succeeded r).

(** ** Builds (src/runner/buildrun.go, src/runner/cachedir.go, src/runner/cachedir_linux.go) *)

Definition parseStoreEntryKey (name : string) : option Key := match hex_decode name with Some b => key_parse b | None => None end.

Fixpoint entry_keys (names : list string) : result string (list Key) :=
  match names with
  | [] => Ok []
  | n :: ns =>
      match parseStoreEntryKey n with
      | None => Err ("deps entry name: " +:+ n)
      | Some k => match entry_keys ns with Ok ks => Ok (k :: ks) | Err e => Err e end
      end
  end.

Definition resolveInputDeps (pi : PinnedInput) : R (list Key) :=
  if negb (String.eqb (pi_Kind pi) InputKind.Build) then mret []
  else
    ik ← orElse (FileKey (pi_Definition pi)) (λ e, hard "resolving" ("input key: " +:+ e) 0);
    depsTree ← ResolveBuildOutputDeps ik (retryable "resolving");
    depsTree ← require_some depsTree (retryable "resolving" ("build-output-deps for " +:+ key_String ik +:+ " not found"));
    ents ← objs_ask (λ o, obj_Ls o depsTree) (retryable "resolving");
    orElse (entry_keys (fst <$> ents)) (λ e, hard "resolving" e 0).

Definition resolve_one (pi : PinnedInput) : R (string * Key * list Key) :=
  bok ← resolveInputOutputKey pi;
  deps ← resolveInputDeps pi;
  mret (pi_Name pi, bok, deps).

(** The inputs resolve concurrently, and only read: every input is resolved
    against the same store, and one of the failures, if any, is reported. An
    input skipped because the run is cancelled is not a failure: its result
    stays the zero value, a zero key and no deps. *)
Definition collectStore (inputs : list PinnedInput) : R (list (string * Key * list Key)) := λ s,
  let rs := imap (λ i pi, if io_skipped inputs i then Ok (pi_Name pi, inhabitant, []) else snd (resolve_one pi s)) inputs in
  match omap (λ r, match r with Err o => Some o | Ok _ => None end) rs with
  | o :: os => (s, Err (default o (os !! io_pick)))
  | [] => (s, Ok (omap (λ r, match r with Ok x => Some x | Err _ => None end) rs))
  end.

Definition boks (l : list (string * Key * list Key)) : list Key := concat ((λ x : string * Key * list Key, x.1.2 :: x.2) <$> l).
Definition storePath (bok : Key) : string := "/jobs/store/" +:+ key_String bok.
Definition jobs_deps (l : list (string * Key * list Key)) : gmap string string :=
  foldl (λ m (x : string * Key * list Key), <[x.1.1 := storePath x.1.2]> m) ∅ l.

(** [runtimeDepInputs]: the input with each runtime dep's identity. *)
Fixpoint by_key (ins : list PinnedInput) (m : gmap string PinnedInput) : result string (gmap string PinnedInput) :=
  match ins with
  | [] => Ok m
  | pi :: pis =>
      match FileKey (pi_Definition pi) with
      | Err e => Err ("input key: " +:+ e)
      | Ok k => by_key pis (<[key_bytes k := pi]> m)
      end
  end.

Fixpoint find_deps (m : gmap string PinnedInput) (ks : list string) : result string (list PinnedInput) :=
  match ks with
  | [] => Ok []
  | k :: ks =>
      match m !! k with
      | None => Err ("runtimeDep is not among inputs: " +:+ hex_encode k)
      | Some pi => match find_deps m ks with Ok pis => Ok (pi :: pis) | Err e => Err e end
      end
  end.

Definition runtimeDepInputs (p : Pinned) : result string (list PinnedInput) :=
  match by_key (p_Inputs p) ∅ with Err e => Err e | Ok m => find_deps m (p_RuntimeDeps p) end.

(** The seeding of the declared caches from their last published state. *)
Fixpoint seedCaches (platform : string) (decls : list PinnedCache) : R (list CacheMount) :=
  match decls with
  | [] => mret []
  | d :: ds =>
      seed ← r_get (CacheRefName (c_ID d) platform) (retryable "seeding cache");
      dir ← objs_ask (λ o, io_seed o d seed) (retryable "seeding cache");
      rest ← seedCaches platform ds;
      mret (mkMount (c_ID d) (c_Path d) dir seed :: rest)
  end.

(** Pruned, ingested, and published only when not empty and changed. *)
Fixpoint finalizeCaches (platform : string) (cms : list CacheMount) : R (list Ref) :=
  match cms with
  | [] => mret []
  | cm :: cms =>
      c ← (λ s, let '(o, r) := io_finalCache (st_objs (rs_st s)) cm in
                (set_rs_st (set_objs o (rs_st s)) s, match r with Ok c => Ok c | Err (ph, e) => Err (retryable ph e) end));
      rest ← finalizeCaches platform cms;
      mret (match c with
            | None => rest
            | Some c => if bool_decide (cm_SeedKey cm = Some c) then rest
                        else mkRRef (CacheRefName (cm_ID cm) platform) c "" :: rest
            end)
  end.

Definition assembleBuildSpec (brc : BuildRunCfg) (kp : Key) : R (BuildSpec * Pinned) :=
  pinnedKey ← r_get (build_pinned kp) (retryable "pulling");
  pinnedKey ← require_some pinnedKey (retryable "pulling" (build_pinned kp +:+ " not found (not pinned yet)"));
  pinnedBytes ← pullFileBytes "pulling" pinnedKey;
  pinned ← orElse (dec_Pinned pinnedBytes) (λ e, hard "pulling" ("decode build-pinned: " +:+ e) 0);
  ins ← collectStore (p_Inputs pinned);
  storeKey ← objs_do (λ o, obj_StoreTree o (boks ins ++ [brc_ShellKey brc])) (retryable "assembling store");
  caches ← seedCaches (brc_Platform brc) (p_Caches pinned);
  mret (mkSpec storeKey (brc_ShellKey brc) (jobs_deps ins) kp "src" (p_Dir pinned) (p_Env pinned) (p_Script pinned) caches (brc_MemoryMaxBytes brc)
          ("build|" +:+ key_String kp), pinned).

Definition RunBuild (brc : BuildRunCfg) (kp : Key) : R Outcome :=
  sp ← assembleBuildSpec brc kp;
  let '(spec, pinned) := sp in
  match io_RunBuild spec with
  | Err e => stop (if io_dying then cancelled else retryable "building" e)
  | Ok res =>
      if negb (x_ExitCode res =? 0)%Z then stop (exited "hard" (x_ExitCode res) "building" (x_StderrTail res))
      else
        cacheRefs ← finalizeCaches (brc_Platform brc) (bs_Caches spec);
        r ← (λ s, let '(o, r) := io_finalOutput (st_objs (rs_st s)) (x_OutDir res) in
                  (set_rs_st (set_objs o (rs_st s)) s, match r with Ok k => Ok k | Err (ph, e) => Err (retryable ph e) end));
        rtInputs ← orElse (runtimeDepInputs pinned) (λ e, hard "assembling" e 0);
        deps ← collectStore rtInputs;
        depsKey ← objs_do (λ o, obj_StoreTree o (boks deps)) (retryable "assembling deps");
        publish "pushing" (WriteRefs (cacheRefs ++ [mkRRef (build_output_deps kp) depsKey ""; mkRRef (build_output kp) r ""]));;
        mret (succeeded r)
  end.
End Stages.
