(* ===== verification/RunnerJob.v ===== *)
(** * Running one job (src/runnerd/job.go, src/runnerd/refwriter.go)

    From a fetched message to its result: pull the inputs, take the in-band
    definition, run the stage, push the outputs under one scratch reference,
    report, and acknowledge or hand the message back. *)
From S2P Require Import Prelude GoLib Keys Wire Builddef Store Stages.
Local Open Scope string_scope.
Local Open Scope list_scope.

(** Where the code asks whether its context was cancelled. *)
Inductive ctx_point := AtPull (name : string) | AtShell | AfterExec | AtPush.

Section RunnerJob.
Context `{SIO : StageIO}.

(** The client of the store server ([syncClient]) and the context. A pull may
    add objects and its reference to the local store. *)
Record net := mkNet {
  net_Pull : string → Store → Store * result string Key;
  net_Push : string → Key → option string;
  net_ctxErr : ctx_point → bool }.

Record daemon := mkDaemon { dm_id : string; dm_platform : string }.

Definition checkComplete (st : Store) (k : Key) : bool := is_ok (obj_CheckComplete (st_objs st) k).

Inductive pull_err := PullFailed (e : string) | PullIncomplete.

(** [ensureRef]: present and complete, or pulled, or pulled again. *)
Definition ensureRef (w : net) (name : string) (st : Store) : Store * result pull_err Key :=
  let present := match GetKey name st with Ok (Some k) => if checkComplete st k then Some k else None | _ => None end in
  match present with
  | Some k => (st, Ok k)
  | None =>
      match net_Pull w name st with
      | (st, Err e) => (st, Err (PullFailed ("pull " +:+ name +:+ ": " +:+ e)))
      | (st, Ok root) =>
          if checkComplete st root then (st, Ok root)
          else match net_Pull w name st with
          | (st, Err e) => (st, Err (PullFailed ("re-pull " +:+ name +:+ ": " +:+ e)))
          | (st, Ok root) => if checkComplete st root then (st, Ok root) else (st, Err PullIncomplete)
          end
      end
  end.

Definition pull_outcome (e : pull_err) : Outcome :=
  match e with PullFailed e => retryable "pulling" e | PullIncomplete => hard "pulling" "pulled ref closure incomplete after re-pull" 0 end.

(** The pull loop: the names ensured so far, and the outcome that ends it. *)
Fixpoint pull_refs (w : net) (names : list string) (st : Store) : Store * list string * option Outcome :=
  match names with
  | [] => (st, [], None)
  | name :: names =>
      match ensureRef w name st with
      | (st, Err e) => (st, [], Some (if net_ctxErr w (AtPull name) then cancelled else pull_outcome e))
      | (st, Ok _) => let '(st, read, o) := pull_refs w names st in (st, name :: read, o)
      end
  end.

(** The in-band definition, its identity and the bookkeeping reference. *)
Definition take_def (job : Job) (k : Key) (st : Store) : Store * option Outcome :=
  if String.eqb (j_Def job) "" then (st, None)
  else match obj_IngestFile (st_objs st) (j_Def job) with
  | (o, Err e) => (set_objs o st, Some (retryable "pulling" ("ingest def: " +:+ e)))
  | (o, Ok ik) =>
      let st := set_objs o st in
      if negb (bool_decide (ik = k)) then (st, Some (hard "pulling" ("in-band def hashes to " +:+ key_String ik) 0))
      else
        let put name := match PutRef name k st with
                        | (st, Err e) => (st, Some (retryable "pulling" ("local def ref: " +:+ e)))
                        | (st, Ok _) => (st, None)
                        end in
        match j_Kind job with
        | KindImport => put ("import:" +:+ key_String k)
        | KindBuildFrom => put ("build:" +:+ key_String k)
        | _ => (st, None)
        end
  end.

(** [buildRunCfg]: the shell, pulled when missing. *)
Definition buildRunCfg (w : net) (d : daemon) (job : Job) : R BuildRunCfg := λ s,
  let platform := if String.eqb (j_Platform job) "" then dm_platform d else j_Platform job in
  match ensureRef w ("shell:" +:+ platform) (rs_st s) with
  | (st, Err e) =>
      let e := match e with PullFailed e => e | PullIncomplete => "incomplete" end in
      (set_rs_st st s, Err (if net_ctxErr w AtShell then cancelled else retryable "pulling" ("resolve shell: " +:+ e)))
  | (st, Ok shellKey) => (set_rs_st st s, Ok (mkBRC platform shellKey (j_MemBytes job)))
  end.

Definition driveStage (w : net) (d : daemon) (job : Job) : R Outcome :=
  match key_parse (j_Key job) with
  | None => stop (hard "" "bad job key" 0)
  | Some k =>
      match j_Kind job with
      | KindImport => @RunImport _ _ _ collectRefWriter k
      | KindBuildFrom => _ ← buildRunCfg w d job; @RunBuildFrom _ _ _ collectRefWriter k
      | KindPluginResolve => _ ← buildRunCfg w d job; @RunPluginResolve _ _ _ collectRefWriter k
      | KindPin => _ ← buildRunCfg w d job; @RunPin _ _ _ collectRefWriter k
      | KindBuildRun => brc ← buildRunCfg w d job; @RunBuild _ _ _ collectRefWriter brc k
      | KindBuildValue => stop (hard "" "kind is not executable" 0)
      end
  end.

Definition execute (w : net) (d : daemon) (job : Job) (st : Store) : rstate * Outcome :=
  let '(s, r) := driveStage w d job (mkRS st []) in (s, match r with Ok o => o | Err o => o end).

Definition scratchRefName (runnerID node : string) (gen : Z) : string := "runner-push/" +:+ runnerID +:+ "/" +:+ node +:+ "-" +:+ itoa gen.

Fixpoint proposed_keys (refs : list RefProposal) : option (list Key) :=
  match refs with
  | [] => Some []
  | r :: rs => match key_parse (r_Key r), proposed_keys rs with Some k, Some ks => Some (k :: ks) | _, _ => None end
  end.

(** What an attempt leaves: the store, what it reports, and what it pushed. *)
Record attempted := mkAttempt {
  at_store : Store; at_out : Outcome; at_refs : list RefProposal; at_scratch : string; at_read : list string; at_pushed : option (string * Key) }.

(** The outputs go out under one scratch reference over the union of their trees. *)
Definition push_outputs (w : net) (d : daemon) (job : Job) (read : list string) (out : Outcome) (s : rstate) : attempted :=
  let refs := rs_refs s in
  let ends st o pushed := mkAttempt st o [] "" read pushed in
  match refs with
  | [] => mkAttempt (rs_st s) out refs "" read None
  | _ :: _ =>
      match proposed_keys refs with
      | None => ends (rs_st s) (hard "pushing" "proposed ref key" 0) None
      | Some roots =>
          let '(o, r) := obj_StoreTree (st_objs (rs_st s)) roots in
          let st := set_objs o (rs_st s) in
          match r with
          | Err e => ends st (retryable "pushing" ("assemble scratch tree: " +:+ e)) None
          | Ok union =>
              let scratch := scratchRefName (dm_id d) (j_Node job) (j_Gen job) in
              match net_Push w scratch union with
              | Some e => ends st (if net_ctxErr w AtPush then cancelled else retryable "pushing" ("push outputs: " +:+ e)) (Some (scratch, union))
              | None => mkAttempt st out refs scratch read (Some (scratch, union))
              end
          end
      end
  end.

Definition attempt (w : net) (d : daemon) (job : Job) (st : Store) : attempted :=
  let '(st, read, stopped) := pull_refs w (j_PullRefs job) st in
  let ends st o := mkAttempt st o [] "" read None in
  match stopped with
  | Some o => ends st o
  | None =>
      match key_parse (j_Key job) with
      | None => ends st (hard "pulling" "bad job key" 0)
      | Some k =>
          match take_def job k st with
          | (st, Some o) => ends st o
          | (st, None) =>
              let '(s, out) := execute w d job st in
              if net_ctxErr w AfterExec && (o_Failed out || o_Decline out) then ends (rs_st s) cancelled
              else if o_Cancelled out || o_Decline out || o_Failed out then ends (rs_st s) out
              else push_outputs w d job read out s
          end
      end
  end.

(** ** Reporting *)

Definition buildResult (job : Job) (runnerID : string) (out : Outcome) (refs : list RefProposal) (scratch : string) (read : list string) : Result :=
  let res class exit err refs scratch := Build_Result (j_Node job) (j_Gen job) runnerID class exit err refs scratch read in
  if o_Cancelled out then res ClassCancelled 0%Z "" [] ""
  else if o_Decline out then res ClassRetryable 0%Z ("declined: " +:+ o_DeclineReason out) [] ""
  else if o_Failed out then
    let class := if String.eqb (o_Class out) "" then ClassHard else o_Class out in
    let err := if negb (String.eqb (o_Phase out) "") && negb (String.eqb (o_Stderr out) "") then o_Phase out +:+ ": " +:+ o_Stderr out
               else if negb (String.eqb (o_Phase out) "") then o_Phase out +:+ ": failed" else o_Stderr out in
    res class (o_ExitCode out) err [] ""
  else res ClassOK 0%Z "" refs scratch.

Definition finishOutcome (class : string) : string :=
  if String.eqb class ClassOK then "completed" else if String.eqb class ClassCancelled then "cancelled" else "failed".

Inductive ack := Ack | Nak.

(** [handleJob]: the result it built, whether the broker took it, and what
    became of the message. *)
Definition handleJob (w : net) (d : daemon) (job : Job) (published : bool) (st : Store) : Store * Result * ack :=
  let a := attempt w d job st in
  let res := buildResult job (dm_id d) (at_out a) (at_refs a) (at_scratch a) (at_read a) in
  (at_store a, res, if negb published then Nak else if String.eqb (res_Class res) ClassCancelled then Nak else Ack).
End RunnerJob.
