(* ===== verification/RunnerFacts.v ===== *)
(** * What a runner reports

    The references a stage proposes are the ones the server's gate admits, in
    the order its commit needs; they are pushed before they are reported; and a
    failure proposes nothing. *)
From S2P Require Import Prelude GoLib Keys Wire Builddef Store Gate Commit Stages RunnerJob.
Local Open Scope string_scope.
Local Open Scope list_scope.

Section RunnerFacts.
Context `{SIO : StageIO}.
#[local] Existing Instance collectRefWriter.

(** ** Reasoning about a driver *)

(** Every early end of a stage is a failure of a known class or a cancellation. *)
Definition bad (o : Outcome) : Prop :=
  o_Decline o = false ∧ o_Failed o = negb (o_Cancelled o) ∧ (o_Failed o = true → o_Class o ∈ [ClassHard; ClassRetryable; ClassControl]).

Definition rwp {A} (m : R A) (s : rstate) (Q : rstate → A → Prop) : Prop :=
  match m s with (s', Ok a) => Q s' a | (_, Err o) => bad o end.

(** Proposes nothing and writes no reference. *)
Definition silent {A} (m : R A) : Prop := ∀ s, rwp m s (λ s' _, rs_refs s' = rs_refs s) ∧ extends (rs_st s) (rs_st (m s).1) [].

Lemma rwp_bind {A B} (m : R A) (k : A → R B) s Q : rwp m s (λ s' a, rwp (k a) s' Q) → rwp (m ≫= k) s Q.
Proof. unfold rwp, mbind, R_bind. by destruct (m s) as [s' [a|o]]. Qed.

Lemma rwp_mono {A} (m : R A) s (P Q : rstate → A → Prop) : rwp m s P → (∀ s' a, P s' a → Q s' a) → rwp m s Q.
Proof. unfold rwp. destruct (m s) as [s' [a|o]]; auto. Qed.

Lemma rwp_silent {A B} (m : R A) (k : A → R B) s Q :
  silent m → (∀ s' a, rs_refs s' = rs_refs s → rwp (k a) s' Q) → rwp (m ≫= k) s Q.
Proof. intros Hm Hk. apply rwp_bind. eapply rwp_mono; [apply (Hm s)|done]. Qed.

Lemma silent_ret {A} (a : A) : silent (mret a : R A).
Proof. intros s. split; [done|apply extends_refl]. Qed.
Lemma silent_stop {A} o : bad o → silent (stop o : R A).
Proof. intros H s. split; [done|apply extends_refl]. Qed.
Lemma silent_bind {A B} (m : R A) (k : A → R B) : silent m → (∀ a, silent (k a)) → silent (m ≫= k).
Proof.
  intros Hm Hk s. split; [apply rwp_silent; [done|]; intros s' a E; eapply rwp_mono; [apply Hk|]; simpl; congruence|].
  pose proof (proj2 (Hm s)) as E1. unfold mbind, R_bind. destruct (m s) as [s' [a|o]]; [|done]. apply (extends_trans _ _ _ [] [] E1 (proj2 (Hk a s'))).
Qed.
Lemma silent_orElse {A} (r : result string A) f : (∀ e, bad (f e)) → silent (orElse r f).
Proof. intros H s. split; [unfold rwp, orElse; by destruct r|apply extends_refl]. Qed.
Lemma silent_get name f : (∀ e, bad (f e)) → silent (r_get name f).
Proof. intros H s. split; [unfold rwp, r_get; by destruct (GetKey name _)|apply extends_refl]. Qed.
Lemma silent_ask {A} (g : Objs → result string A) f : (∀ e, bad (f e)) → silent (objs_ask g f).
Proof. intros H s. split; [unfold rwp, objs_ask; by destruct (g _)|apply extends_refl]. Qed.
Lemma silent_do {A} (g : Objs → Objs * result string A) f : (∀ e, bad (f e)) → silent (objs_do g f).
Proof. intros H s. unfold rwp, objs_do. destruct (g _) as [o []]; (split; [done|apply extends_set_objs]). Qed.
Lemma silent_some {A} (o : option A) out : bad out → silent (require_some o out).
Proof. intros H. destruct o; [apply silent_ret|by apply silent_stop]. Qed.

Lemma bad_retryable p e : bad (retryable p e).
Proof. split_and!; [done|done|]. intros _. simpl. right. left. Qed.
Lemma bad_hard p e x : bad (hard p e x).
Proof. split_and!; [done|done|]. intros _. left. Qed.
Lemma bad_cancelled : bad cancelled.
Proof. by split_and!. Qed.
Lemma bad_hard_exit x p e : bad (exited "hard" x p e).
Proof. split_and!; [done|done|]. intros _. left. Qed.
Lemma bad_retry_exit x p e : bad (exited "retryable" x p e).
Proof. split_and!; [done|done|]. intros _. right. left. Qed.
Lemma bad_push p e : bad (pushOutcome p e).
Proof. destruct e; [apply bad_cancelled| |apply bad_retryable]. split_and!; [done|done|]. intros _. right. right. left. Qed.
End RunnerFacts.

Ltac is_bad := first [apply bad_retryable | apply bad_hard | apply bad_cancelled | apply bad_hard_exit | apply bad_retry_exit | apply bad_push].

(** A part of a driver that proposes nothing. *)
Ltac silently :=
  repeat first
    [ apply silent_bind; [|intros ?] | apply silent_stop | apply silent_orElse; intros ? | apply silent_get; intros ? | apply silent_ask; intros ?
    | apply silent_do; intros ? | apply silent_some | apply silent_ret | is_bad | case_match ].

Section Drivers.
Context `{SIO : StageIO}.
#[local] Existing Instance collectRefWriter.

Lemma silent_pull p k : silent (pullFileBytes p k).
Proof. unfold pullFileBytes. silently. Qed.
Lemma silent_via ref k f : (∀ e, bad (f e)) → silent (via_F ref k f).
Proof. intros Hf. unfold via_F. silently; by apply Hf. Qed.
Lemma silent_artifact k : silent (ResolveBuildArtifact k).
Proof. unfold ResolveBuildArtifact, ResolveBuildOutput, via_F. silently. Qed.
Lemma silent_fetcher def p : silent (resolve_fetcher def p).
Proof. unfold resolve_fetcher. silently. Qed.
Lemma silent_closure def : silent (fetcher_closure def).
Proof. unfold fetcher_closure, ResolveBuildOutputDeps, via_F. silently. Qed.
Lemma silent_source i : silent (resolveSourceContentTree i).
Proof. unfold resolveSourceContentTree, ResolveBuildOutput, via_F, ensureBuildFromTree. silently. Qed.
Lemma silent_env f : silent (loadBuildFromEnv f).
Proof. unfold loadBuildFromEnv, ensureBuildFromTree. silently. Qed.
Lemma silent_ingest ds : silent (ingest_all ds).
Proof. induction ds; simpl; silently. done. Qed.
Lemma silent_pins k : silent (readPluginPins k).
Proof. unfold readPluginPins. silently. Qed.
Lemma silent_callers ps : silent (buildPluginCallers ps).
Proof. induction ps as [|[n i] ps IH]; simpl; unfold ResolveBuildOutput, via_F, readPluginPins; silently; done. Qed.
Lemma silent_deps ds : silent (materializeDeps ds).
Proof. induction ds as [|[n i] ds IH]; simpl; unfold resolveInputOutputKey, ResolveBuildOutput, via_F; silently; done. Qed.
Lemma silent_cover env res : silent (pin_cover env res).
Proof. unfold pin_cover. silently. Qed.
Lemma silent_resolve pi : silent (resolve_one pi).
Proof. unfold resolve_one, resolveInputOutputKey, resolveInputDeps, ResolveBuildOutput, ResolveBuildOutputDeps, via_F. silently. Qed.

Lemma silent_collect ins : silent (collectStore ins).
Proof.
  intros s. unfold rwp, collectStore. set (rs := imap _ ins). split; [|destruct (omap _ rs); apply extends_refl].
  assert (Hb : Forall bad (omap (λ r : result Outcome (string * Key * list Key), match r with Err o => Some o | Ok _ => None end) rs)).
  { apply Forall_forall. intros o Ho. apply list_elem_of_omap in Ho as (r & Hr & Eo). unfold rs in Hr. apply elem_of_lookup_imap in Hr as (i & pi & -> & _). destruct (io_skipped ins i); [done|].
    pose proof (proj1 (silent_resolve pi s)) as H. unfold rwp in H. destruct (resolve_one pi s) as [s' [x|o']]; simpl in Eo; [done|]. by injection Eo as <-. }
  destruct (omap _ rs) as [|o os]; [done|]. inversion_clear Hb. destruct (os !! io_pick) as [o'|] eqn:E; simpl; [|done].
  eapply Forall_lookup_1 in E; [exact E|done].
Qed.

Lemma silent_seed plat ds : silent (seedCaches plat ds).
Proof. induction ds; simpl; silently; done. Qed.

(** The mounts of the seeded caches are the declared ones. *)
Lemma seed_ids plat ds s : rwp (seedCaches plat ds) s (λ s' cms, rs_refs s' = rs_refs s ∧ (cm_ID <$> cms) = (c_ID <$> ds)).
Proof.
  revert s. induction ds as [|d ds IH]; intros s; simpl; [done|].
  apply rwp_silent; [silently|]. intros s1 seed E1. apply rwp_silent; [silently|]. intros s2 dir E2.
  apply rwp_bind. eapply rwp_mono; [apply IH|]. intros s3 cms [E3 Hi]. split; [simpl; congruence|]. change (c_ID d :: (cm_ID <$> cms) = c_ID d :: (c_ID <$> ds)). by rewrite Hi.
Qed.

Lemma finalize_ids plat cms s : rwp (finalizeCaches plat cms) s (λ s' refs, rs_refs s' = rs_refs s ∧
  ∃ cs : list (string * Key), refs = (λ c, mkRRef (CacheRefName c.1 plat) c.2 "") <$> cs ∧ cs.*1 ⊆ (cm_ID <$> cms)).
Proof.
  revert s. induction cms as [|cm cms IH]; intros s; cbn [finalizeCaches]; [split; [done|by exists []]|].
  apply rwp_bind. unfold rwp at 1. destruct (io_finalCache _ cm) as [o [c|[ph e]]]; simpl; [|apply bad_retryable].
  apply rwp_bind. eapply rwp_mono; [apply IH|]. intros s' refs (E & cs & -> & Hin).
  assert (Hw : cs.*1 ⊆ (cm_ID <$> cm :: cms)) by (intros x Hx; right; by apply Hin).
  unfold rwp, mret, R_ret. split; [by rewrite E|]. destruct c as [c|]; [case_bool_decide|]; [by exists cs| |by exists cs].
  exists ((cm_ID cm, c) :: cs). split; [done|]. intros x [->|Hx]%elem_of_cons; [left|right; by apply Hin].
Qed.

(** What the reference writer collects. *)
Definition named (refs : list RefProposal) : Prop := Forall (λ r, ValidateName (r_Name r) = true) refs.

Lemma put_all_collects rs : ∀ s, match put_all (λ r, [proposal r]) rs s with
  | (s', Ok _) => rs_refs s' = rs_refs s ++ (proposal <$> rs) ∧ named (proposal <$> rs)
  | (_, Err e) => ∃ m, e = WriteFailed m end.
Proof.
  induction rs as [|r rs IH]; intros s; simpl; [split; [by rewrite app_nil_r|constructor]|].
  unfold put_one. destruct (PutRef (rr_Name r) (rr_Key r) (rs_st s)) as [st [[]|e]] eqn:E; [|eauto].
  assert (Hv : ValidateName (rr_Name r) = true) by (revert E; unfold PutRef; destruct (ValidateName _); done).
  specialize (IH (mkRS st (rs_refs s ++ [proposal r]))). destruct (put_all _ rs _) as [s' [[]|e']]; [|done].
  destruct IH as [-> Hn]. simpl. split; [by rewrite <- (assoc_L (++))|]. by constructor.
Qed.

Lemma publish_refs ph rs s : rwp (publish ph (WriteRefs rs)) s (λ s' _, rs_refs s' = rs_refs s ++ (proposal <$> rs) ∧ named (proposal <$> rs)).
Proof.
  unfold rwp, publish. pose proof (put_all_collects rs s) as H. change (WriteRefs rs) with (put_all (λ r, [proposal r]) rs).
  destruct (put_all _ rs s) as [s' [[]|e]]; [done|]. apply bad_push.
Qed.

Lemma publish_ref ph name k s : rwp (publish ph (WriteRef name k)) s (λ s' _, rs_refs s' = rs_refs s ++ [proposal (mkRRef name k "")] ∧ named [proposal (mkRRef name k "")]).
Proof.
  pose proof (publish_refs ph [mkRRef name k ""] s) as H. revert H. unfold rwp, publish.
  change (WriteRefs [mkRRef name k ""]) with (put_all (λ r, [proposal r]) [mkRRef name k ""]). change (WriteRef name k) with (put_one (λ r, [proposal r]) (mkRRef name k "")).
  cbn [put_all]. by destruct (put_one _ _ s) as [s' [[]|e]].
Qed.

(** ** The batch each stage proposes *)

Definition tree_prop (tk : Key) : RefProposal := mkRef (build_from_tree tk) (key_bytes tk) "".

Definition batch_shape (kd : kind) (k : Key) (plat : string) (ids : list string) (new : list RefProposal) : Prop :=
  match kd with
  | KindImport => ∃ r, new = [mkRef (import_output k) (key_bytes r) ""]
  | KindBuildFrom => ∃ f, new = [mkRef (build_from k) (key_bytes f) ""; mkRef (build_from_tree f) (key_bytes f) ""]
  | KindPluginResolve => ∃ ts r, new = (tree_prop <$> ts) ++ [mkRef (build_plugin_resolved k) (key_bytes r) ""]
  | KindPin => ∃ ts r label, new = (tree_prop <$> ts) ++ [mkRef (build_pinned k) (key_bytes r) label]
  | KindBuildRun => ∃ (cs : list (string * Key)) dk r, cs.*1 ⊆ ids ∧
      new = ((λ c, mkRef (CacheRefName c.1 plat) (key_bytes c.2) "") <$> cs) ++ [mkRef (build_output_deps k) (key_bytes dk) ""; mkRef (build_output k) (key_bytes r) ""]
  | KindBuildValue => False
  end.

(** A stage that ends well proposes exactly such a batch, with valid names. *)
Definition proposes (kd : kind) (k : Key) (plat : string) (ids : list string) (m : R Outcome) (s : rstate) : Prop :=
  rwp m s (λ s' o, (∃ r, o = succeeded r) ∧ ∃ new, rs_refs s' = rs_refs s ++ new ∧ named new ∧ batch_shape kd k plat ids new).

Lemma tree_refs_batch ins : ∀ seen s, rwp (tree_refs seen ins) s (λ s' _, ∃ ts, rs_refs s' = rs_refs s ++ (tree_prop <$> ts) ∧ named (tree_prop <$> ts)).
Proof.
  induction ins as [|i ins IH]; intros seen s; cbn [tree_refs]; [exists []; split; [by rewrite app_nil_r|constructor]|].
  destruct (tree_source i) as [tk|]; [|apply IH]. case_decide; [apply IH|]. apply rwp_bind. eapply rwp_mono; [apply publish_ref|].
  intros s1 _ [E1 Hn1]. eapply rwp_mono; [apply IH|]. intros s2 _ (ts & E2 & Hn2). exists (tk :: ts). split; [rewrite E2, E1, <- (assoc_L (++)); done|].
  simpl. inv Hn1. by constructor.
Qed.
End Drivers.

(** A silent step of a driver, then the rest. *)
Ltac quiet_step lem := apply rwp_silent; [first [apply lem|silently]|intros ? ? ?].
Ltac next := quiet_step I.

Section Batches.
Context `{SIO : StageIO}.
#[local] Existing Instance collectRefWriter.

Lemma import_batch k plat s : proposes KindImport k plat [] (RunImport k) s.
Proof.
  unfold proposes, RunImport, ensureImportDef, pullFileBytes. do 3 next. quiet_step silent_fetcher. next. quiet_step silent_closure. do 3 next.
  destruct (io_fetch _ _ _ _) as [res|e]; [|unfold rwp, stop; case_match; is_bad].
  destruct (x_ExitCode res =? 0)%Z; [|destruct (Z.eqb _ exTempFail); unfold rwp, stop; is_bad]. next. apply rwp_bind. eapply rwp_mono; [apply publish_refs|].
  intros sN _ [E Hn]. split; [by eexists|]. eexists. split; [rewrite E; f_equal; congruence|]. split; [done|]. by eexists.
Qed.

Lemma from_batch k plat s : proposes KindBuildFrom k plat [] (RunBuildFrom k) s.
Proof.
  unfold proposes, RunBuildFrom, ensureBuildDef, pullFileBytes. do 4 next. quiet_step silent_source. do 2 next.
  case_match. next. apply rwp_bind. eapply rwp_mono; [apply publish_refs|].
  intros sN _ [E Hn]. split; [by eexists|]. eexists. split; [rewrite E; f_equal; congruence|]. split; [done|]. by eexists.
Qed.

Lemma resolve_batch k plat s : proposes KindPluginResolve k plat [] (RunPluginResolve k) s.
Proof.
  unfold proposes, RunPluginResolve. quiet_step silent_env. next. quiet_step silent_ingest.
  apply rwp_bind. eapply rwp_mono; [apply tree_refs_batch|]. intros s1 _ (ts & E1 & Hn1). do 2 next.
  apply rwp_bind. eapply rwp_mono; [apply publish_ref|]. intros sN _ [E Hn]. split; [by eexists|].
  eexists ((tree_prop <$> ts) ++ [_]). split; [rewrite E, (assoc_L (++)); f_equal; congruence|]. split; [by apply Forall_app|]. by eexists _, _.
Qed.

Lemma pin_batch k plat s : proposes KindPin k plat [] (RunPin k) s.
Proof.
  unfold proposes, RunPin, pullFileBytes. quiet_step silent_env. do 4 next. quiet_step silent_deps. quiet_step silent_callers.
  apply rwp_silent; [silently|intros ? res ?]. next. quiet_step silent_cover.
  apply rwp_bind. eapply rwp_mono; [apply tree_refs_batch|]. intros s1 _ (ts & E1 & Hn1). next. quiet_step silent_ingest. do 2 next.
  apply rwp_bind. eapply rwp_mono; [apply publish_refs|]. intros sN _ [E Hn]. split; [by eexists|].
  eexists ((tree_prop <$> ts) ++ [_]). split; [rewrite E, (assoc_L (++)); f_equal; congruence|]. split; [by apply Forall_app|]. by eexists _, _, _.
Qed.

(** The description a build stage reads from its store. *)
Definition described (st : Store) (kp : Key) (p : Pinned) : Prop :=
  ∃ pk b, GetKey (build_pinned kp) st = Ok (Some pk) ∧ obj_ReadFile (st_objs st) pk = Ok b ∧ dec_Pinned b = Ok p.

Lemma assemble_spec brc kp s : rwp (assembleBuildSpec brc kp) s (λ s' sp,
  rs_refs s' = rs_refs s ∧ described (rs_st s) kp sp.2 ∧ cm_ID <$> bs_Caches sp.1 = c_ID <$> p_Caches sp.2).
Proof.
  unfold assembleBuildSpec. apply rwp_bind. unfold rwp at 1, r_get. destruct (GetKey (build_pinned kp) (rs_st s)) as [pk|] eqn:E1; [|apply bad_retryable].
  apply rwp_bind. unfold rwp at 1, require_some. destruct pk as [pk|]; [|apply bad_retryable].
  apply rwp_bind. unfold rwp at 1, pullFileBytes, objs_ask. destruct (obj_ReadFile _ pk) as [b|] eqn:E2; [|apply bad_retryable].
  apply rwp_bind. unfold rwp at 1, orElse. destruct (dec_Pinned b) as [p|] eqn:E3; [|apply bad_hard].
  quiet_step silent_collect. next. apply rwp_bind. eapply rwp_mono; [apply seed_ids|]. intros s3 cms [E4 Hi]. cbn.
  split_and!; [congruence|by exists pk, b|done].
Qed.

Lemma run_batch brc k s : rwp (RunBuild brc k) s (λ s' o, (∃ r, o = succeeded r) ∧ ∃ p new,
  described (rs_st s) k p ∧ rs_refs s' = rs_refs s ++ new ∧ named new ∧ batch_shape KindBuildRun k (brc_Platform brc) (c_ID <$> p_Caches p) new).
Proof.
  unfold RunBuild. apply rwp_bind. eapply rwp_mono; [apply assemble_spec|]. intros s1 [sp p] (E1 & Hd & Hi). cbn [fst snd] in *.
  destruct (io_RunBuild sp) as [res|e]; [|unfold rwp, stop; case_match; is_bad].
  destruct (negb _); [unfold rwp, stop; is_bad|]. apply rwp_bind. eapply rwp_mono; [apply finalize_ids|].
  intros s2 refs (E2 & cs & -> & Hcs). apply rwp_bind. unfold rwp at 1. destruct (io_finalOutput _ _) as [o [r|[ph e]]]; [|apply bad_retryable].
  next. quiet_step silent_collect. next. apply rwp_bind. eapply rwp_mono; [apply publish_refs|]. intros sN _ [E Hn]. split; [by eexists|].
  exists p. eexists. split; [done|]. split; [rewrite E; f_equal; simpl in *; congruence|]. split; [done|]. rewrite Hi in Hcs.
  eexists cs, _, _. split; [done|]. rewrite fmap_app, <- list_fmap_compose. done.
Qed.
End Batches.

Section Attempts.
Context `{SIO : StageIO}.
#[local] Existing Instance collectRefWriter.

(** ** Batches pass the gate, in commit order *)

Lemma batch_gate kd k plat ids new caches :
  named new → batch_shape kd k plat ids new →
  (kd = KindBuildRun → plat ≠ "" ∧ ids ⊆ (c_ID <$> caches) ∧ Forall (λ id, ValidateCacheID id = Ok tt) ids) →
  gateAllowed kd k plat new caches = Ok tt.
Proof.
  intros Hn Hs Hc. apply gateAllowed_spec. split.
  - intros -> r Hr _. destruct Hs as [f ->]. apply elem_of_cons in Hr as [->|Hr]; [|apply list_elem_of_singleton in Hr as ->]; simpl; by rewrite key_parse_bytes.
  - intros r Hr. split; [by eapply (proj1 (Forall_forall _ _) Hn)|]. destruct kd; simpl in Hs.
    + destruct Hs as [x ->]. apply list_elem_of_singleton in Hr as ->. by constructor.
    + destruct Hs as [f ->]. apply elem_of_cons in Hr as [->|Hr]; [by constructor|]. apply list_elem_of_singleton in Hr as ->.
      apply (perm_from_tree _ _ _ _ _ f); [done|done|]. apply batch_F_last; [done|done|]. intros r' ->%list_elem_of_singleton. discriminate.
    + destruct Hs as (ts & x & ->). apply elem_of_app in Hr as [(tk & -> & _)%list_elem_of_fmap| ->%list_elem_of_singleton]; [|by constructor].
      apply (perm_tree _ _ _ _ _ _ tk); [by left|done|done].
    + destruct Hs as (ts & x & lb & ->). apply elem_of_app in Hr as [(tk & -> & _)%list_elem_of_fmap| ->%list_elem_of_singleton]; [|by constructor].
      apply (perm_tree _ _ _ _ _ _ tk); [by right|done|done].
    + destruct Hs as (cs & dk & x & Hids & ->). destruct Hc as (Hp & Hsub & Hv); [done|].
      apply elem_of_app in Hr as [(c & -> & Hin)%list_elem_of_fmap|Hr].
      * assert (Hid : c.1 ∈ ids) by (apply Hids, list_elem_of_fmap; eauto).
        apply (perm_cache _ _ _ _ _ c.1); [done|by eapply (proj1 (Forall_forall _ _) Hv)|done|by apply Hsub].
      * apply elem_of_cons in Hr as [->|Hr]; [by constructor|]. apply list_elem_of_singleton in Hr as ->. by constructor.
    + done.
Qed.

Lemma deps_first_none names : (∀ x, build_output x ∉ names) → deps_first names.
Proof. intros H l1 x l2 ->. exfalso. apply (H x), elem_of_app. right. left. Qed.

Lemma deps_first_last pre k : (∀ x, build_output x ∉ pre) → deps_first (pre ++ [build_output_deps k; build_output k]).
Proof.
  intros H l1 x l2 E. destruct (decide (l2 = [])) as [->|Hne].
  - change [build_output_deps k; build_output k] with ([build_output_deps k] ++ [build_output k]) in E. rewrite (assoc_L (++)) in E.
    apply app_inj_tail in E as [<- Hk]. apply ref_name_inj in Hk as ->. apply elem_of_app. right. left.
  - exfalso. destruct (exists_last Hne) as (l3 & y & ->). change [build_output_deps k; build_output k] with ([build_output_deps k] ++ [build_output k]) in E.
    rewrite (assoc_L (++)), app_comm_cons, (assoc_L (++)) in E. apply app_inj_tail in E as [E _].
    assert (Hin : build_output x ∈ pre ++ [build_output_deps k]) by (rewrite E; apply elem_of_app; right; left).
    apply elem_of_app in Hin as [Hin|Hin]; [by apply H in Hin|]. apply list_elem_of_singleton in Hin. discriminate Hin.
Qed.

Lemma batch_order kd k plat ids new : batch_shape kd k plat ids new → deps_first (r_Name <$> new).
Proof.
  assert (Ht : ∀ (ts : list Key) x, build_output x ∉ r_Name <$> (tree_prop <$> ts)).
  { intros ts x (r & E & (tk & -> & _)%list_elem_of_fmap)%list_elem_of_fmap. discriminate E. }
  destruct kd; simpl.
  - intros [r ->]. apply deps_first_none. intros x Hx. simpl in Hx. apply list_elem_of_singleton in Hx. discriminate Hx.
  - intros [f ->]. apply deps_first_none. intros x [Hx|Hx]%elem_of_cons; [discriminate Hx|]. apply list_elem_of_singleton in Hx. discriminate Hx.
  - intros (ts & r & ->). apply deps_first_none. intros x Hx. rewrite fmap_app in Hx. apply elem_of_app in Hx as [Hx|Hx]; [by apply Ht in Hx|].
    apply list_elem_of_singleton in Hx. discriminate Hx.
  - intros (ts & r & lb & ->). apply deps_first_none. intros x Hx. rewrite fmap_app in Hx. apply elem_of_app in Hx as [Hx|Hx]; [by apply Ht in Hx|].
    apply list_elem_of_singleton in Hx. discriminate Hx.
  - intros (cs & dk & r & _ & ->). rewrite fmap_app. apply deps_first_last. intros x (p & E & (c & -> & _)%list_elem_of_fmap)%list_elem_of_fmap. discriminate E.
  - done.
Qed.

(** ** Attempts *)

Lemma pull_bad w names : ∀ st st' read o, pull_refs w names st = (st', read, Some o) → bad o.
Proof.
  induction names as [|n names IH]; intros st st' read o; simpl; [done|]. destruct (ensureRef w n st) as [st1 [k|e]].
  - destruct (pull_refs w names st1) as [[st2 read2] o2] eqn:E. intros [= <- _ ->]. by eapply IH.
  - intros [= _ _ <-]. destruct (net_ctxErr _ _); [is_bad|]. destruct e; is_bad.
Qed.

Lemma def_bad job k st st' o : take_def job k st = (st', Some o) → bad o.
Proof.
  unfold take_def. destruct (String.eqb _ _); [done|]. destruct (obj_IngestFile _ _) as [ob [ik|e]]; [|intros [= _ <-]; is_bad].
  destruct (negb _); [intros [= _ <-]; is_bad|].
  destruct (j_Kind job); try done; destruct (PutRef _ _ _) as [st1 [[]|e]]; try done; intros [= _ <-]; is_bad.
Qed.

Definition stage_platform (d : daemon) (job : Job) : string := if String.eqb (j_Platform job) "" then dm_platform d else j_Platform job.

Lemma cfg_spec w d job s : rwp (buildRunCfg w d job) s (λ s' brc, rs_refs s' = rs_refs s ∧ brc_Platform brc = stage_platform d job ∧
  rs_st s' = fst (ensureRef w ("shell:" +:+ stage_platform d job) (rs_st s))).
Proof.
  unfold rwp, buildRunCfg. fold (stage_platform d job). destruct (ensureRef _ _ _) as [st [k|e]]; [done|]. destruct (net_ctxErr _ _); is_bad.
Qed.

(** What a stage leaves when it is driven for a job. *)
Lemma drive_spec w d job s : rwp (driveStage w d job) s (λ s' o, (∃ r, o = succeeded r) ∧ ∃ k p new,
  key_parse (j_Key job) = Some k ∧ rs_refs s' = rs_refs s ++ new ∧ named new ∧
  (j_Kind job = KindBuildRun → described (fst (ensureRef w ("shell:" +:+ stage_platform d job) (rs_st s))) k p) ∧
  batch_shape (j_Kind job) k (stage_platform d job) (c_ID <$> p_Caches p) new).
Proof.
  assert (Hp : Inhabited Pinned) by (constructor; exact (Build_Pinned [] ∅ "" [] [] None [] [] "" ∅)).
  unfold driveStage. destruct (key_parse (j_Key job)) as [k|]; [|unfold rwp, stop; is_bad]. destruct (j_Kind job).
  - eapply rwp_mono; [apply (import_batch k (stage_platform d job))|]. intros s' o (Ho & new & E & Hn & Hs). split; [done|]. by exists k, inhabitant, new.
  - apply rwp_bind. eapply rwp_mono; [apply cfg_spec|]. intros s1 brc (E1 & _ & _).
    eapply rwp_mono; [apply (from_batch k (stage_platform d job))|]. intros s' o (Ho & new & E & Hn & Hs). split; [done|]. exists k, inhabitant, new. by rewrite E, E1.
  - apply rwp_bind. eapply rwp_mono; [apply cfg_spec|]. intros s1 brc (E1 & _ & _).
    eapply rwp_mono; [apply (resolve_batch k (stage_platform d job))|]. intros s' o (Ho & new & E & Hn & Hs). split; [done|]. exists k, inhabitant, new. by rewrite E, E1.
  - apply rwp_bind. eapply rwp_mono; [apply cfg_spec|]. intros s1 brc (E1 & _ & _).
    eapply rwp_mono; [apply (pin_batch k (stage_platform d job))|]. intros s' o (Ho & new & E & Hn & Hs). split; [done|]. exists k, inhabitant, new. by rewrite E, E1.
  - apply rwp_bind. eapply rwp_mono; [apply cfg_spec|]. intros s1 brc (E1 & Eb & Est).
    eapply rwp_mono; [apply run_batch|]. intros s' o (Ho & p & new & Hd & E & Hn & Hs). split; [done|]. exists k, p, new. rewrite E, E1, <- Est, <- Eb. done.
  - unfold rwp, stop. is_bad.
Qed.

Definition good (o : Outcome) : Prop := o_Cancelled o = false ∧ o_Decline o = false ∧ o_Failed o = false.

Lemma bad_not_good o : bad o → ¬ good o.
Proof. intros (_ & Hf & _) (Hc & _ & Hf'). rewrite Hc in Hf. simpl in Hf. congruence. Qed.

(** The store a job's stage starts from: inputs pulled, definition taken, shell there. *)
Definition stage_store (w : net) (d : daemon) (job : Job) (k : Key) (st : Store) : Store :=
  fst (ensureRef w ("shell:" +:+ stage_platform d job) (fst (take_def job k (fst (fst (pull_refs w (j_PullRefs job) st)))))).

(** An attempt that ended well: its batch, and what it pushed before. *)
Record attempt_good (w : net) (d : daemon) (job : Job) (st : Store) (a : attempted) (k : Key) (p : Pinned) (roots : list Key) (union : Key) : Prop := mkGood {
  ag_parse : key_parse (j_Key job) = Some k;
  ag_desc : j_Kind job = KindBuildRun → described (stage_store w d job k st) k p;
  ag_named : named (at_refs a);
  ag_shape : batch_shape (j_Kind job) k (stage_platform d job) (c_ID <$> p_Caches p) (at_refs a);
  ag_keys : proposed_keys (at_refs a) = Some roots;
  ag_tree : ∃ objs, snd (obj_StoreTree objs roots) = Ok union;
  ag_scratch : at_scratch a = scratchRefName (dm_id d) (j_Node job) (j_Gen job);
  ag_push : at_pushed a = Some (at_scratch a, union) ∧ net_Push w (at_scratch a) union = None }.

Lemma shape_nonempty kd k plat ids new : batch_shape kd k plat ids new → new ≠ [].
Proof. destruct kd; simpl; [intros [? ->]..|intros (? & ? & ->)|intros (? & ? & ? & ->)|intros (? & ? & ? & _ & ->)|done]; try done; by intros [_ ?]%app_nil. Qed.

Lemma push_cases w d job k p read out s :
  (∃ r, out = succeeded r) → named (rs_refs s) → batch_shape (j_Kind job) k (stage_platform d job) (c_ID <$> p_Caches p) (rs_refs s) →
  let a := push_outputs w d job read out s in
  (bad (at_out a) ∧ at_refs a = [] ∧ at_scratch a = "") ∨
  good (at_out a) ∧ at_refs a = rs_refs s ∧ at_scratch a = scratchRefName (dm_id d) (j_Node job) (j_Gen job) ∧
  ∃ roots union, proposed_keys (rs_refs s) = Some roots ∧ (∃ objs, snd (obj_StoreTree objs roots) = Ok union) ∧
    at_pushed a = Some (at_scratch a, union) ∧ net_Push w (at_scratch a) union = None.
Proof.
  intros [r ->] Hn Hs. cbv zeta. unfold push_outputs. destruct (rs_refs s) as [|r0 rs] eqn:Er; [by apply shape_nonempty in Hs|].
  destruct (proposed_keys (r0 :: rs)) as [roots|]; [|left; split_and!; [apply bad_hard|done..]].
  destruct (obj_StoreTree (st_objs (rs_st s)) roots) as [o [u|e]] eqn:Eo; [|left; split_and!; [apply bad_retryable|done..]].
  destruct (net_Push w _ u) as [e|] eqn:Ep; [left; split_and!; [destruct (net_ctxErr _ _); is_bad|done..]|].
  right. split_and!; [done|done|done|]. exists roots, u. split_and!; [done| |done|done]. exists (st_objs (rs_st s)). by rewrite Eo.
Qed.

Lemma attempt_cases w d job st :
  let a := attempt w d job st in
  (bad (at_out a) ∧ at_refs a = [] ∧ at_scratch a = "") ∨ good (at_out a) ∧ ∃ k p roots union, attempt_good w d job st a k p roots union.
Proof.
  cbv zeta. unfold attempt. destruct (pull_refs w (j_PullRefs job) st) as [[st1 read] stopped] eqn:E1.
  destruct stopped as [o|]; [left; split_and!; [by eapply pull_bad|done..]|].
  destruct (key_parse (j_Key job)) as [k|] eqn:Ek; [|left; split_and!; [apply bad_hard|done..]].
  destruct (take_def job k st1) as [st2 [o|]] eqn:E2; [left; split_and!; [by eapply def_bad|done..]|].
  unfold execute. pose proof (drive_spec w d job (mkRS st2 [])) as Hd. unfold rwp in Hd. destruct (driveStage w d job (mkRS st2 [])) as [s [o|o]].
  - destruct Hd as ([r ->] & k' & p & new & Ek' & Er & Hn & Hdesc & Hs). assert (k' = k) as -> by congruence. cbn [rs_refs app] in Er. subst new.
    replace (net_ctxErr w AfterExec && _) with false by (by destruct (net_ctxErr w AfterExec)). cbn [o_Cancelled o_Decline o_Failed succeeded orb].
    destruct (push_cases w d job k p read (succeeded r) s) as [Hbad|(Hg & Ea & Es & roots & union & Hk & Ht & Hp & Hnp)]; [by eexists|done|done|by left|].
    right. split; [done|]. exists k, p, roots, union. split; rewrite ?Ea; try done. intros Hkd. specialize (Hdesc Hkd). unfold stage_store. rewrite E1. cbn [fst]. by rewrite E2.
  - left. destruct Hd as (Hdec & Hf & Hcl). destruct (net_ctxErr w AfterExec && _) eqn:Ec; [split_and!; [apply bad_cancelled|done..]|].
    rewrite Hdec, Hf. destruct (o_Cancelled o) eqn:Eo; cbn; (split_and!; [|done..]); split_and!; try done; by rewrite Eo.
Qed.

(** [C13] What a runner proposes, the server accepts: the references of an
    attempt that ended well pass the gate for the node it ran, on the platform
    it ran for, when the server declares at least the (well-formed) caches of
    the pinned description the runner read; and committing them keeps every
    output with its closure at every crash point. *)
Theorem runner_batch_admitted w d job st :
  good (at_out (attempt w d job st)) → stage_platform d job ≠ "" →
  ∃ k p, key_parse (j_Key job) = Some k ∧ (j_Kind job = KindBuildRun → described (stage_store w d job k st) k p) ∧
  (∀ caches, (c_ID <$> p_Caches p) ⊆ (c_ID <$> caches) → Forall (λ id, ValidateCacheID id = Ok tt) (c_ID <$> p_Caches p) →
    gateAllowed (j_Kind job) k (stage_platform d job) (at_refs (attempt w d job st)) caches = Ok tt) ∧
  ∀ sp srv srv' r, cs_refs sp = at_refs (attempt w d job st) → output_has_deps (st_refs srv) → commit sp srv = (srv', r) →
    crash_safe output_has_deps srv srv'.
Proof.
  intros Hgood Hp. destruct (attempt_cases w d job st) as [(Hb & _)|[_ (k & p & roots & union & Hg)]]; [by apply bad_not_good in Hb|].
  exists k, p. split_and!; [apply Hg|apply Hg| |].
  - intros caches Hsub Hv. eapply batch_gate; [apply Hg|apply Hg|]. by intros _.
  - intros sp srv srv' r Hr. apply commit_keeps_deps. rewrite Hr. eapply batch_order, Hg.
Qed.

(** Failures propose nothing, successes are pushed first: a result is of
    one of the five classes; one of class ok proposes the batch its stage wrote,
    all of whose trees were pushed under the scratch reference it names before
    it was built; any other proposes no reference and names no scratch; and the
    message is acknowledged exactly when the result was published and the
    attempt was not cancelled. *)
Theorem runner_reports_faithfully w d job published st st' res ack_ :
  handleJob w d job published st = (st', res, ack_) →
  res_Class res ∈ [ClassOK; ClassHard; ClassRetryable; ClassControl; ClassCancelled] ∧
  (res_Class res = ClassOK → ∃ roots union objs, res_Refs res ≠ [] ∧ proposed_keys (res_Refs res) = Some roots ∧ snd (obj_StoreTree objs roots) = Ok union ∧
    res_ScratchRef res = scratchRefName (dm_id d) (j_Node job) (j_Gen job) ∧ net_Push w (res_ScratchRef res) union = None ∧
    at_pushed (attempt w d job st) = Some (res_ScratchRef res, union)) ∧
  (res_Class res ≠ ClassOK → res_Refs res = [] ∧ res_ScratchRef res = "") ∧
  (ack_ = Ack ↔ published = true ∧ res_Class res ≠ ClassCancelled).
Proof.
  unfold handleJob. set (a := attempt w d job st). set (r := buildResult _ _ _ _ _ _). intros [= _ <- <-].
  assert (Hack : (if negb published then Nak else if String.eqb (res_Class r) ClassCancelled then Nak else Ack) = Ack ↔ published = true ∧ res_Class r ≠ ClassCancelled).
  { destruct published; simpl; [|naive_solver]. destruct (String.eqb_spec (res_Class r) ClassCancelled); naive_solver. }
  destruct (attempt_cases w d job st) as [(Hb & Er & Es)|[Hg Hag]]; fold a in Hb || fold a in Hg, Hag.
  - assert (Hc : res_Class r ∈ [ClassHard; ClassRetryable; ClassControl; ClassCancelled] ∧ res_Refs r = [] ∧ res_ScratchRef r = "").
    { unfold r, buildResult. destruct Hb as (Hdec & Hf & Hcl). rewrite Hdec. destruct (o_Cancelled (at_out a)); [split_and!; [do 3 right; left|done..]|].
      rewrite Hf. cbn [negb res_Class res_Refs res_ScratchRef]. split_and!; [|done..]. specialize (Hcl Hf).
      destruct (String.eqb_spec (o_Class (at_out a)) "") as [E|E]; [left|]. set_solver. }
    destruct Hc as (Hc & Hr & Hs). split_and!; [by right| |done|done]. intros E. rewrite E in Hc. exfalso. revert Hc. clear. set_solver.
  - destruct Hg as (H1 & H2 & H3). assert (E : r = Build_Result (j_Node job) (j_Gen job) (dm_id d) ClassOK 0 "" (at_refs a) (at_scratch a) (at_read a)).
    { unfold r, buildResult. by rewrite H1, H2, H3. }
    rewrite E in *. split_and!; [left| |done|done]. intros _. destruct Hag as (k & p & roots & union & [_ _ _ Hsh Hk [objs Ht] Hsc [Hpu Hnp]]).
    exists roots, union, objs. cbn [res_Refs res_ScratchRef]. split_and!; [by eapply shape_nonempty|done..].
Qed.

(** ** Descriptions a pin publishes can be built *)

(** [pi] is the input with identity [b]. *)
Definition has_key (b : string) (pi : PinnedInput) : Prop := ∃ k, FileKey (pi_Definition pi) = Ok k ∧ key_bytes k = b.

Lemma by_key_spec ins : ∀ m m', by_key ins m = Ok m' →
  (∀ b, is_Some (m !! b) ∨ (∃ pi, pi ∈ ins ∧ has_key b pi) → is_Some (m' !! b)) ∧
  ∀ b pi, m' !! b = Some pi → m !! b = Some pi ∨ pi ∈ ins ∧ has_key b pi.
Proof.
  induction ins as [|pi ins IH]; intros m m'; simpl.
  { intros [= <-]. split; [intros b [?|(pi & ?%elem_of_nil & _)]; done|by left]. }
  destruct (FileKey (pi_Definition pi)) as [k|] eqn:E; [|done]. intros [H1 H2]%IH. split.
  - intros b Hb. apply H1. destruct (decide (b = key_bytes k)) as [->|Hne]; [left; rewrite lookup_insert_eq; by eexists|].
    destruct Hb as [Hb|(pi' & [->|Hin]%elem_of_cons & Hk)]; [left; by rewrite lookup_insert_ne| |right; eauto].
    destruct Hk as (k' & Hk & <-). congruence.
  - intros b pi' [Hl|[Hin Hk]]%H2; [|right; split; [by right|done]]. apply lookup_insert_Some in Hl as [[<- <-]|[_ ?]]; [|by left].
    right. split; [left|]. by exists k.
Qed.

Lemma by_key_total ins : (∀ pi, pi ∈ ins → ∃ k, FileKey (pi_Definition pi) = Ok k) → ∀ m, ∃ m', by_key ins m = Ok m'.
Proof.
  induction ins as [|pi ins IH]; intros H m; simpl; [eauto|]. destruct (H pi) as [k ->]; [left|]. apply IH. intros pi' Hp. apply H. by right.
Qed.

Lemma find_deps_total m (P : string → PinnedInput → Prop) ks : (∀ b pi, m !! b = Some pi → P b pi) → (∀ k, k ∈ ks → is_Some (m !! k)) →
  ∃ pis, find_deps m ks = Ok pis ∧ Forall2 P ks pis.
Proof.
  intros HP. induction ks as [|k ks IH]; intros H; simpl; [eauto|]. destruct (H k) as [pi Hpi]; [left|]. rewrite Hpi.
  destruct IH as (pis & -> & Hf); [intros x Hx; apply H; by right|]. exists (pi :: pis). split; [done|]. constructor; auto.
Qed.

Lemma input_ids_spec ins ids : input_ids ins = Ok ids →
  (∀ i, i ∈ ins → ∃ k, FileKey (in_Definition i) = Ok k) ∧ ∀ kd k, (kd, k) ∈ ids → ∃ i, i ∈ ins ∧ in_Kind i = kd ∧ FileKey (in_Definition i) = Ok k.
Proof.
  revert ids. induction ins as [|i ins IH]; intros ids; simpl; [intros [= <-]; split; [by intros ? ?%elem_of_nil|by intros ? ? ?%elem_of_nil]|].
  destruct (FileKey (in_Definition i)) as [k|] eqn:E; [|done]. destruct (input_ids ins) as [ids'|]; [|done]. intros [= <-].
  destruct (IH _ eq_refl) as [H1 H2]. split.
  - intros j [->|Hj]%elem_of_cons; [eauto|by apply H1].
  - intros kd k' [[= -> ->]|Hin]%elem_of_cons; [exists i; split_and!; [left|done..]|]. destruct (H2 _ _ Hin) as (j & Hj & ?). exists j. split; [by right|done].
Qed.

Lemma runtime_keys_spec ds ks : runtime_keys ds = Ok ks → ∀ b, b ∈ ks → ∃ d k, d ∈ ds ∧ FileKey (in_Definition d) = Ok k ∧ b = key_bytes k.
Proof.
  revert ks. induction ds as [|d ds IH]; intros ks; simpl; [intros [= <-]; by intros ? ?%elem_of_nil|].
  destruct (FileKey (in_Definition d)) as [k|] eqn:E; [|done]. destruct (runtime_keys ds) as [ks'|]; [|done]. intros [= <-].
  intros b [->|Hb]%elem_of_cons; [exists d, k; split_and!; [left|done..]|]. destruct (IH _ eq_refl b Hb) as (d' & k' & Hd & ?). exists d', k'. split; [by right|done].
Qed.

(** A pinned description can be built: when a recipe's result passes
    validation and its inputs have distinct names, as a map's have, every
    runtime dependency the pin records is found among its inputs, so the build
    stage does not fail on it, and its caches are valid. *)
Theorem validated_pin_resolves env res rtKeys covered closure :
  Validate res = Ok tt → NoDup (er_Inputs res).*1 → runtime_keys (er_RuntimeDeps res) = Ok rtKeys →
  ValidateCaches (er_Caches res) = Ok tt ∧
  ∃ ins, runtimeDepInputs (make_pinned env res rtKeys covered closure) = Ok ins ∧
    Forall2 (λ b pi, pi ∈ p_Inputs (make_pinned env res rtKeys covered closure) ∧ has_key b pi) (SortKeys rtKeys) ins.
Proof.
  intros Hv Hn Hk. unfold Validate in Hv. destruct (input_ids _) as [have|] eqn:Ei; [|done]. apply input_ids_spec in Ei as [Hall Hhave].
  destruct (for_each _ _) as [[]|] eqn:Ef; [|done]. apply for_each_Ok in Ef. split; [exact Hv|].
  set (ins := pinned_input <$> er_Inputs res). assert (Hin : ∀ pi, pi ∈ CanonicalPinnedInputs ins ↔ pi ∈ ins).
  { intros pi. unfold CanonicalPinnedInputs. rewrite dedup_by_id; [by rewrite ssort_perm| |by intros ? _ ?%not_elem_of_empty].
    rewrite ssort_perm. unfold ins. rewrite <- list_fmap_compose. exact Hn. }
  unfold runtimeDepInputs, make_pinned. cbn [p_Inputs p_RuntimeDeps]. fold ins.
  destruct (by_key_total (CanonicalPinnedInputs ins)) with (m := (∅ : gmap string PinnedInput)) as [m Em].
  { intros pi (n & -> & Hp)%Hin%list_elem_of_fmap. apply Hall. apply list_elem_of_fmap. eauto. }
  rewrite Em. apply by_key_spec in Em as [H1 H2]. apply find_deps_total.
  - intros b pi [?|Hpi]%H2; [by rewrite lookup_empty in *|done].
  - intros b Hb. apply H1. right. unfold SortKeys in Hb. apply dedup_by_elem in Hb as [Hb _]. rewrite ssort_perm in Hb.
    destruct (runtime_keys_spec _ _ Hk b Hb) as (d & k & Hd & Hdk & ->). pose proof (proj1 (Forall_forall _ _) Ef d Hd) as Hd'. simpl in Hd'. rewrite Hdk in Hd'.
    case_bool_decide as Hh; [|done]. destruct (Hhave _ _ Hh) as (i & Hi & _ & Hik). apply list_elem_of_fmap in Hi as (n & -> & Hni).
    exists (pinned_input n). split; [apply Hin, list_elem_of_fmap; eauto|]. by exists k.
Qed.

(** The recipe a build-from tree is evaluated with: the override spliced at
    its top if there is one, else the build root's own, is exactly the recipe
    the definition asks for - the inline one, else the named file, else the
    default; and it is spliced only when it differs from the build root's, so
    definitions that mean the same recipe assemble the same tree. *)
Theorem recipe_override_effective o env buildFile inline ov :
  resolveRecipeOverride o env buildFile inline = Ok ov →
  let asked := if negb (String.eqb inline "") then Ok inline else if negb (String.eqb buildFile "") then obj_TreeFile o env buildFile else obj_TreeFile o env "BUILD.jobs" in
  (asked ≠ Ok "" → match ov with Some b => Ok b | None => obj_TreeFile o env "BUILD.jobs" end = asked) ∧
  (ov = None → is_ok (obj_TreeFile o env "BUILD.jobs") = true) ∧
  (∀ b, ov = Some b → b ≠ "" ∧ obj_TreeFile o env "BUILD.jobs" ≠ Ok b).
Proof.
  assert (Hsplice : ∀ e, (if negb (String.eqb e "") && negb (match obj_TreeFile o env "BUILD.jobs" with Ok b => String.eqb e b | Err _ => false end) then Ok (Some e)
      else if is_ok (obj_TreeFile o env "BUILD.jobs") then Ok None else Err "no BUILD.jobs in source and no override/build_file") = Ok ov →
    (e ≠ "" → match ov with Some b => Ok b | None => obj_TreeFile o env "BUILD.jobs" end = Ok e) ∧
    (ov = None → is_ok (obj_TreeFile o env "BUILD.jobs") = true) ∧ (∀ b, ov = Some b → b ≠ "" ∧ obj_TreeFile o env "BUILD.jobs" ≠ Ok b)).
  { intros e. destruct (String.eqb_spec e "") as [->|He]; cbn [negb andb].
    - destruct (is_ok _) eqn:Eo; [|done]. by intros [= <-].
    - destruct (obj_TreeFile o env "BUILD.jobs") as [b|]; [destruct (String.eqb_spec e b) as [->|Hn]|]; cbn; intros [= <-]; split_and!; naive_solver. }
  unfold resolveRecipeOverride. destruct (String.eqb_spec inline "") as [->|Hi]; cbn [andb negb].
  - destruct (String.eqb_spec buildFile "") as [->|Hb]; cbn [andb negb].
    + cbn. destruct (is_ok _) eqn:Eo; [|done]. intros [= <-]. by split_and!.
    + destruct (obj_TreeFile o env buildFile) as [b|]; [|done]. intros H%Hsplice. cbv zeta. destruct H as (H1 & H2 & H3). split_and!; [|done|done].
      intros Hne. apply H1. congruence.
  - intros H%Hsplice. cbv zeta. destruct H as (H1 & H2 & H3). split_and!; [|done|done]. intros _. by apply H1.
Qed.
End Attempts.

(** * A runner on a concrete store

    One build attempt with an input, a runtime dependency and a cache, for the
    theorems of RunnerFacts. *)
From S2P Require Import Prelude GoLib Keys Wire Builddef Store Gate Commit Stages RunnerJob.

#[local] Existing Instance string_keys.

(** The input "src", also a runtime dependency, and one cache. *)
Definition demo_eval : eval_result :=
  mkEval [("lib", mkInput InputKind.Import "src")] ∅ "make" [mkInput InputKind.Import "src"] [mkCache "/cache" "gocache"] None "demo" [] [] ∅ [].
Definition demo_env_ : eval_env := mkEnv "linux" "" "recipe" "" "root" None.
Definition runner_pinned : Pinned := make_pinned demo_env_ demo_eval ["ksrc"] [] [].

Definition runner_lib : StoreLib := {|
  Objs := unit;
  ValidateName := λ n, negb (String.eqb n "");
  FileKey := λ b, @Ok string (@Key string_keys) b;
  obj_ReadFile := λ _ k, @Ok string string k;
  obj_CheckComplete := λ _ _, Ok tt;
  obj_IngestFile := λ o b, (o, @Ok string (@Key string_keys) b);
  obj_TreeSubdir := λ _ k n, @Ok string (option (@Key string_keys)) (Some k);
  obj_Derive := λ o b _ _ _, (o, @Ok string (@Key string_keys) b);
  dec_Import := λ _, Err "no import";
  dec_Definition := λ _, Err "no definition";
  dec_PluginResolved := λ _, Err "no plugins";
  dec_Pinned := λ _, Ok runner_pinned;
  dec_TreeKey := λ b, @Ok string (@Key string_keys) b |}.

Definition runner_io : @StageIO string_keys runner_lib.
Proof.
  refine {| obj_Ls := λ _ k, Ok [("c", Some k); ("env", Some k)]; obj_StoreTree := λ o (ks : list (@Key string_keys)), (o, @Ok string (@Key string_keys) ("tree:" +:+ Join (ks : list string) ","));
    obj_FromTree := λ o k _ _ _ _, (o, @Ok string (@Key string_keys) k); obj_TreeFile := λ _ k name, if String.eqb name "BUILD.jobs" then Ok "std" else Err "no file";
    enc_PluginResolved := λ _, Ok "pr"; enc_Pinned := λ _, Ok "pinned"; io_Platform := "linux";
    io_env := λ _ _, Err "no env"; io_EvalPlugins := λ _, Err "no plugins"; io_extract := λ _ _ _, Ok "/tmp/d"; io_ParsePins := λ _, Ok tt;
    io_range := map_to_list; io_pick := 0; io_skipped := λ _ _, false; io_EvalBuild := λ _ _, Ok demo_eval; io_WalkClosure := λ _ _ _ ps _, Ok ps; io_Walk := λ _ _ _ ps _, Ok ps;
    io_seed := λ _ _ _, Ok "/tmp/c"; io_RunBuild := λ _, Ok (mkExec 0 "" "/out"); io_finalCache := λ o _, (o, Ok (Some "cache2"));
    io_finalOutput := λ o _, (o, @Ok (string * string) (@Key string_keys) "out"); io_fetcherArtifact := λ _ _, Ok "/f"; io_fetcher := λ _ _, Ok None; io_workdir := Ok "/w";
    io_params := λ _, Ok "{}"; io_secrets := λ _, Ok tt; io_fetch := λ _ _ _ _, Err "no fetch"; io_ingestOutput := λ o _, (o, Err "no"); io_dying := false |}.
  reflexivity.
Defined.

#[local] Existing Instance runner_lib.
#[local] Existing Instance runner_io.

Definition runner_store : Store :=
  mkStore tt {[ "shell:linux" := "sh"; build_pinned "kp" := "desc"; import_output "src" := "srcout" ]} [] (λ _, false) (λ _, false).
Definition demo_net : net := mkNet (λ _ st, (st, Err "offline")) (λ _ _, None) (λ _, false).
Definition demo_daemon : daemon := mkDaemon "r1" "linux".
Definition demo_job : Job :=
  {| j_Node := "buildrun|kp"; j_Kind := KindBuildRun; j_Key := "kkp"; j_Gen := 7; j_Platform := "linux"; j_Class := "c1-m1"; j_Def := "";
     j_PullRefs := [build_pinned "kp"; import_output "src"]; j_CPUMilli := 1000; j_MemBytes := 1073741824 |}.

Definition demo_attempt : attempted := attempt demo_net demo_daemon demo_job runner_store.

Lemma runner_batch_admitted_witness :
  ∃ k p, key_parse (j_Key demo_job) = Some k ∧ p_Caches p = [mkCache "/cache" "gocache"] ∧
    gateAllowed KindBuildRun k "linux" (at_refs demo_attempt) [mkCache "/cache" "gocache"] = Ok tt.
Proof.
  destruct (runner_batch_admitted demo_net demo_daemon demo_job runner_store) as (k & p & Hk & Hd & Hg & _).
  - vm_compute. auto.
  - discriminate.
  - destruct (Hd eq_refl) as (pk & b & _ & _ & Hp). assert (p = runner_pinned) as -> by (injection Hp as <-; reflexivity).
    exists k, runner_pinned. split; [exact Hk|]. split; [vm_compute; reflexivity|]. apply Hg; [set_solver|]. vm_compute. repeat constructor.
Defined.

Lemma runner_reports_faithfully_witness :
  ∃ st res, handleJob demo_net demo_daemon demo_job true runner_store = (st, res, Ack) ∧ res_Class res = ClassOK ∧ res_Refs res ≠ [].
Proof.
  destruct (handleJob demo_net demo_daemon demo_job true runner_store) as [[st res] a] eqn:E.
  assert (Hc : res_Class res = ClassOK). { change res with (snd (fst (st, res, a))). rewrite <- E. vm_compute. reflexivity. }
  destruct (runner_reports_faithfully demo_net demo_daemon demo_job true runner_store st res a E) as (_ & Hok & _ & Hack).
  exists st, res. split; [rewrite (proj2 Hack); [reflexivity|split; [reflexivity|rewrite Hc; discriminate]]|]. split; [exact Hc|].
  destruct (Hok Hc) as (roots & union & objs & Hne & _). exact Hne.
Defined.

Lemma validated_pin_resolves_witness :
  ∃ ins, runtimeDepInputs (make_pinned demo_env_ demo_eval ["ksrc"] [] []) = Ok ins ∧ length ins = 1%nat.
Proof.
  destruct (validated_pin_resolves demo_env_ demo_eval ["ksrc"] [] []) as [_ (ins & Hi & Hf)].
  - vm_compute. reflexivity.
  - simpl. apply NoDup_singleton.
  - reflexivity.
  - exists ins. split; [exact Hi|]. apply Forall2_length in Hf. rewrite <- Hf. vm_compute. reflexivity.
Defined.

Lemma recipe_override_effective_witness :
  resolveRecipeOverride tt "root" "" "std" = Ok None ∧ obj_TreeFile tt "root" "BUILD.jobs" = Ok "std".
Proof.
  assert (E : resolveRecipeOverride tt "root" "" "std" = Ok None) by (vm_compute; reflexivity). split; [exact E|].
  destruct (recipe_override_effective (tt : @Objs string_keys runner_lib) "root" "" "std" None E) as [H _]. apply H. discriminate.
Defined.
