(* ===== verification/Admission.v ===== *)
(** * The runner's admission ledger and its sweeper (src/runnerd)

    [admission] (src/runnerd/admission.go) is the runner's ledger of held
    reservations; [sweep] is one pass of [fetchLoop] over the class lanes and
    [dispatch] (src/runnerd/runnerd.go) hands a fetched message to a job. Jobs
    run concurrently and release their reservation at any time: the releases
    that fall between two operations of the sweeper are part of its input. *)
From S2P Require Import Prelude GoLib Resources Keys Wire.
From Stdlib Require Import Ascii.
Local Open Scope string_scope.
Local Open Scope list_scope.
Local Open Scope Z_scope.

(** ** The ledger *)

(** [a_changed] counts the broadcasts: the channel a waiter holds is closed
    once the count differs from the one it read. *)
Record admission := mkAdm {
  a_capacity : Resources; a_slots : Z; a_held : gmap string Resources; a_changed : nat }.

Definition newAdmission (capacity : Resources) (slots : Z) : admission := mkAdm capacity slots ∅ 0.

Definition set_held (m : gmap string Resources) (a : admission) : admission :=
  mkAdm (a_capacity a) (a_slots a) m (a_changed a).

(** The loop that adds up the held reservations, at 64 bits. *)
Definition used (a : admission) : Resources := foldl (λ u kv, Add u (snd kv)) (mkRes 0 0) (map_to_list (a_held a)).

Definition tryAcquireLocked (a : admission) (id : string) (r : Resources) : admission * bool :=
  if bool_decide (is_Some (a_held a !! id)) then (a, false)
  else if (0 <? a_slots a) && (a_slots a <=? Z.of_nat (size (a_held a))) then (a, false)
  else
    let u := used a in
    if (CPUMilli (a_capacity a) <? i64 (CPUMilli u + CPUMilli r)) || (MemBytes (a_capacity a) <? i64 (MemBytes u + MemBytes r))
    then (a, false)
    else (set_held (<[id := r]> (a_held a)) a, true).

Definition TryAcquire := tryAcquireLocked.

(** [Acquire]: what happens while it waits is its input. *)
Inductive wake := CtxDone | Woken (others : admission → admission).

(** [Some true]: acquired; [Some false]: the context ended; [None]: still blocked. *)
Fixpoint Acquire (ws : list wake) (a : admission) (id : string) (r : Resources) : admission * option bool :=
  let '(a', ok) := tryAcquireLocked a id r in
  if ok then (a', Some true)
  else match ws with
       | [] => (a', None)
       | CtxDone :: _ => (a', Some false)
       | Woken f :: ws' => Acquire ws' (f a') id r
       end.

Definition Rename (a : admission) (old new : string) : admission * bool :=
  match a_held a !! old with
  | None => (a, false)
  | Some r =>
      if bool_decide (is_Some (a_held a !! new)) then (a, false)
      else (set_held (<[new := r]> (delete old (a_held a))) a, true)
  end.

Definition Release (a : admission) (id : string) : admission :=
  match a_held a !! id with
  | None => a
  | Some _ => mkAdm (a_capacity a) (a_slots a) (delete id (a_held a)) (S (a_changed a))
  end.

Definition jobIDPrefix := "job/".

Definition Snapshot (a : admission) : Resources * Z :=
  let '(free, inflight) := foldl (λ acc kv, let '(free, n) := acc in
      (Sub free (snd kv), if HasPrefix (fst kv) jobIDPrefix then n + 1 else n))
    (a_capacity a, 0) (map_to_list (a_held a)) in
  (mkRes (if CPUMilli free <? 0 then 0 else CPUMilli free) (if MemBytes free <? 0 then 0 else MemBytes free), inflight).

(** ** The sweeper *)

(** A fetched message: the job it decodes to. *)
Inductive fetch := FetchErr | FetchMsgs (ms : list (option Job)).

Inductive action := ATerm | ANakDelay (node : string) (gen : Z) | ANak | ARun (job_id : string) (j : Job).

Definition laneID (class : string) : string := "lane/" +:+ class.
Definition jobID (j : Job) : string := jobIDPrefix +:+ j_Node j +:+ "-" +:+ itoa (j_Gen j).

Definition dispatch (a : admission) (msg : option Job) (lane : string) : admission * bool * list action :=
  match msg with
  | None => (a, false, [ATerm])
  | Some job =>
      let '(a', ok) := Rename a lane (jobID job) in
      if ok then (a', true, [ARun (jobID job) job])
      else (a', false, [ANakDelay (j_Node job) (j_Gen job)])
  end.

(** The messages of one batch: the first that is claimed ends the claiming. *)
Fixpoint dispatch_all (a : admission) (claimed : bool) (ms : list (option Job)) (lane : string) : admission * bool * list action :=
  match ms with
  | [] => (a, claimed, [])
  | m :: ms' =>
      let '(a, c, acts) := if claimed then (a, true, [ANak]) else dispatch a m lane in
      let '(a, c, acts') := dispatch_all a c ms' lane in
      (a, c, acts ++ acts')
  end.

(** What the other goroutines and the broker do around one lane's turn: jobs
    released before the reservation, during the fetch, and the answer. *)
Record lane_input := { li_before : list Job; li_during : list Job; li_fetch : fetch }.

Definition release_jobs (a : admission) (js : list Job) : admission := foldl (λ a j, Release a (jobID j)) a js.

Definition sweep_class (a : admission) (class : string) (i : lane_input) : admission * bool * list action :=
  let a := release_jobs a (li_before i) in
  let lane := laneID class in
  let '(a, ok) := TryAcquire a lane (classRes class) in
  if negb ok then (a, false, [])
  else
    let a := release_jobs a (li_during i) in
    match li_fetch i with
    | FetchErr => (Release a lane, false, [])
    | FetchMsgs ms =>
        let '(a, claimed, acts) := dispatch_all a false ms lane in
        if claimed then (a, true, acts) else (Release a lane, false, acts)
    end.

(** One sweep: the lanes largest first. *)
Fixpoint sweep_lanes (a : admission) (classes : list string) (env : string → lane_input) : admission * bool * list action :=
  match classes with
  | [] => (a, false, [])
  | c :: cs =>
      let '(a, d, acts) := sweep_class a c (env c) in
      let '(a, d', acts') := sweep_lanes a cs env in
      (a, d || d', acts ++ acts')
  end.

Definition sweep (a : admission) (env : string → lane_input) : admission * bool * list action :=
  sweep_lanes a (rev (ClassesWithin (a_capacity a))) env.

(** ** Sums *)

Definition total (f : Resources → Z) (m : gmap string Resources) : Z := map_fold (λ _ r acc, f r + acc) 0 m.

Lemma total_insert f m id r : m !! id = None → total f (<[id := r]> m) = f r + total f m.
Proof. intros H. unfold total. by rewrite (map_fold_insert_L _ _ id r m) by (try done; intros; lia). Qed.

Lemma total_delete f m id r : m !! id = Some r → total f m = f r + total f (delete id m).
Proof.
  intros H. rewrite <- (insert_delete_id m id r H) at 1. apply total_insert, lookup_delete_eq.
Qed.

Lemma total_nonneg f m : map_Forall (λ _ r, 0 <= f r) m → 0 <= total f m.
Proof.
  induction m as [|i x m Hi IH] using map_ind; intros H; [done|]. rewrite total_insert by done.
  apply map_Forall_insert in H as [? ?]; [|done]. apply IH in H0. lia.
Qed.

Lemma total_foldr f m : total f m = foldr (λ kv acc, f (snd kv) + acc) 0 (map_to_list m).
Proof. unfold total. rewrite map_fold_foldr. induction (map_to_list m) as [|[k v] l IH]; simpl; congruence. Qed.

(** Adding at 64 bits is exact modulo 2^64. *)
Lemma i64_add_l x y : i64 (i64 x + y) = i64 (x + y).
Proof.
  unfold i64. replace ((x + 2 ^ 63) mod 2 ^ 64 - 2 ^ 63 + y + 2 ^ 63) with ((x + 2 ^ 63) mod 2 ^ 64 + y) by lia.
  rewrite Zplus_mod_idemp_l. by replace (x + 2 ^ 63 + y) with (x + y + 2 ^ 63) by lia.
Qed.

Lemma fold_add (l : list (string * Resources)) : ∀ u, in_i64 (CPUMilli u) → in_i64 (MemBytes u) →
  foldl (λ u kv, Add u (snd kv)) u l =
  mkRes (i64 (CPUMilli u + foldr (λ kv acc, CPUMilli (snd kv) + acc) 0 l))
        (i64 (MemBytes u + foldr (λ kv acc, MemBytes (snd kv) + acc) 0 l)).
Proof.
  induction l as [|[k r] l IH]; intros [c m] Hc Hm; simpl in *; [rewrite !Z.add_0_r, !i64_id; done|].
  rewrite IH by (simpl; apply i64_range). simpl. rewrite !i64_add_l. by rewrite !Z.add_assoc.
Qed.

Lemma used_total a : used a = mkRes (i64 (total CPUMilli (a_held a))) (i64 (total MemBytes (a_held a))).
Proof.
  unfold used. pose proof (fold_add (map_to_list (a_held a)) (mkRes 0 0)) as H. simpl in H. rewrite H by (unfold in_i64; simpl; lia).
  by rewrite <- !total_foldr.
Qed.

(** ** The ledger's invariant: no overcommit *)

Definition nonneg (r : Resources) : Prop := 0 <= CPUMilli r ∧ 0 <= MemBytes r.

(** Reservations small enough that adding one to the capacity does not wrap. *)
Definition small (cap r : Resources) : Prop :=
  nonneg r ∧ CPUMilli cap + CPUMilli r < 2 ^ 63 ∧ MemBytes cap + MemBytes r < 2 ^ 63.

Record adm_ok (a : admission) : Prop := {
  ao_nonneg : map_Forall (λ _ r, nonneg r) (a_held a);
  ao_cap : nonneg (a_capacity a) ∧ in_i64 (CPUMilli (a_capacity a)) ∧ in_i64 (MemBytes (a_capacity a));
  ao_cpu : total CPUMilli (a_held a) <= CPUMilli (a_capacity a);
  ao_mem : total MemBytes (a_held a) <= MemBytes (a_capacity a);
  ao_slots : 0 < a_slots a → Z.of_nat (size (a_held a)) <= a_slots a }.

Definition room (a : admission) (r : Resources) : Prop :=
  total CPUMilli (a_held a) + CPUMilli r <= CPUMilli (a_capacity a) ∧
  total MemBytes (a_held a) + MemBytes r <= MemBytes (a_capacity a) ∧
  (0 < a_slots a → Z.of_nat (size (a_held a)) < a_slots a).

Lemma adm_totals a : adm_ok a → 0 <= total CPUMilli (a_held a) ∧ 0 <= total MemBytes (a_held a).
Proof. intros [H _ _ _ _]. split; apply total_nonneg; intros i r Hr; apply (H i r Hr). Qed.

(** [tryAcquireLocked] admits exactly what fits. *)
Lemma tryAcquire_iff a id r :
  adm_ok a → small (a_capacity a) r →
  tryAcquireLocked a id r = (set_held (<[id := r]> (a_held a)) a, true) ∧ a_held a !! id = None ∧ room a r ∨
  tryAcquireLocked a id r = (a, false) ∧ (is_Some (a_held a !! id) ∨ ¬ room a r).
Proof.
  intros Ha ([R1 R2] & S1 & S2). pose proof (adm_totals a Ha) as [T1 T2]. destruct Ha as [_ (_ & C1 & C2) H1 H2 _].
  unfold in_i64 in *. unfold tryAcquireLocked. case_bool_decide as Hd; [right; auto|]. rewrite <- eq_None_not_Some in Hd.
  destruct ((0 <? a_slots a) && _) eqn:Es. { right. split; [done|]. right. intros (_ & _ & H3). lia. }
  rewrite used_total. simpl. rewrite !i64_add_l, !i64_id by (unfold in_i64; lia).
  destruct ((_ <? _) || _) eqn:Ef; [right|left]; (split; [done|]); unfold room; [right|split; [done|]]; lia.
Qed.

Lemma acquire_ok a id r : adm_ok a → a_held a !! id = None → nonneg r → room a r → adm_ok (set_held (<[id := r]> (a_held a)) a).
Proof.
  intros [H1 H2 H3 H4 H5] Hn Hr (R1 & R2 & R3). split; simpl; [|done|rewrite total_insert by done; lia..|].
  - by apply map_Forall_insert_2.
  - rewrite map_size_insert, Hn. lia.
Qed.

Lemma release_ok a id : adm_ok a → adm_ok (Release a id).
Proof.
  intros [H1 H2 H3 H4 H5]. unfold Release. destruct (a_held a !! id) as [r|] eqn:E; [|by split].
  assert (Hr : nonneg r) by by eapply H1. destruct Hr as [R1 R2].
  rewrite (total_delete _ _ _ _ E) in H3. rewrite (total_delete _ _ _ _ E) in H4. split; simpl; [|done|lia|lia|].
  - intros i x [_ Hx]%lookup_delete_Some. by eapply H1.
  - rewrite map_size_delete, E. simpl. lia.
Qed.

Lemma rename_held a old new r :
  a_held a !! old = Some r → a_held a !! new = None →
  (∀ f, total f (<[new := r]> (delete old (a_held a))) = total f (a_held a)) ∧
  size (<[new := r]> (delete old (a_held a))) = size (a_held a).
Proof.
  intros Ho Hn. assert (Hd : delete old (a_held a) !! new = None) by (rewrite lookup_delete; by case_decide). split.
  - intros f. rewrite total_insert by done. by rewrite <- total_delete.
  - rewrite map_size_insert, Hd, map_size_delete, Ho. assert (size (a_held a) ≠ 0%nat); [|lia].
    rewrite map_size_ne_0_lookup. eauto.
Qed.

Lemma rename_ok a old new : adm_ok a → adm_ok (Rename a old new).1.
Proof.
  intros Ha. unfold Rename. destruct (a_held a !! old) as [r|] eqn:E; [|done]. case_bool_decide as Hd; [done|].
  rewrite <- eq_None_not_Some in Hd. destruct (rename_held a old new r E Hd) as [Ht Hs].
  destruct Ha as [H1 H2 H3 H4 H5]. split; simpl; rewrite ?Ht, ?Hs; try done.
  apply map_Forall_insert_2; [by eapply H1|]. intros i x [_ Hx]%lookup_delete_Some. by eapply H1.
Qed.

(** ** Sweeps keep it *)

Definition cap_small (cap : Resources) : Prop := nonneg cap ∧ CPUMilli cap < 2 ^ 62 ∧ MemBytes cap < 2 ^ 62.

(** Every entry of the ledger, except the lane's, is a running job on a rung. *)
Record led_ok (cap : Resources) (slots : Z) (lane : option string) (a : admission) : Prop := {
  lo_adm : adm_ok a; lo_cap : a_capacity a = cap; lo_nslots : a_slots a = slots;
  lo_held : ∀ id r, a_held a !! id = Some r →
    (HasPrefix id jobIDPrefix = true ∨ lane = Some id) ∧ ∃ c, c ∈ ClassesWithin cap ∧ r = classRes c }.

Lemma class_small cap c : cap_small cap → c ∈ ClassesWithin cap → small cap (classRes c).
Proof.
  intros ([N1 N2] & C1 & C2) [Hc Hf]%elem_of_ClassesWithin. apply Fits_iff in Hf as [F1 F2].
  assert (Hn : nonneg (classRes c)); [|unfold small; split; [done|lia]].
  assert (H : Forall (λ c, 0 <= CPUMilli (classRes c) ∧ 0 <= MemBytes (classRes c)) Classes)
    by (apply (bool_decide_unpack _); vm_compute; exact I).
  rewrite Forall_forall in H. by apply H.
Qed.

Lemma jobID_prefix j : HasPrefix (jobID j) jobIDPrefix = true.
Proof. apply HasPrefix_app. Qed.

Lemma led_release cap slots lane a id : led_ok cap slots lane a → led_ok cap slots lane (Release a id).
Proof.
  intros [H1 H2 H3 H4]. split; [by apply release_ok|..]; unfold Release; destruct (a_held a !! id) as [x|]; try done.
  simpl. intros i r [_ Hi]%lookup_delete_Some. by apply H4.
Qed.

Lemma led_releases cap slots lane js : ∀ a, led_ok cap slots lane a → led_ok cap slots lane (release_jobs a js).
Proof. induction js as [|j js IH]; intros a H; simpl; [done|]. by apply IH, led_release. Qed.

Lemma led_acquire cap slots a c :
  cap_small cap → c ∈ ClassesWithin cap → led_ok cap slots None a →
  let '(a', ok) := TryAcquire a (laneID c) (classRes c) in
  if ok : bool then led_ok cap slots (Some (laneID c)) a' else a' = a.
Proof.
  intros Hcap Hc [H1 H2 H3 H4]. unfold TryAcquire. pose proof (class_small cap c Hcap Hc) as Hsm.
  destruct (tryAcquire_iff a (laneID c) (classRes c) H1) as [(-> & Hn & Hr)|[-> _]]; [by rewrite H2| |done].
  split; simpl; [apply acquire_ok; try done; apply Hsm|done|done|].
  intros id r [[<- <-]|[_ Hi]]%lookup_insert_Some; [split; [by right|eauto]|].
  destruct (H4 id r Hi) as [[?|?] ?]; [auto|done].
Qed.

(** Releasing the lane's reservation leaves only jobs. *)
Lemma led_unlane cap slots lane a : led_ok cap slots (Some lane) a → led_ok cap slots None (Release a lane).
Proof.
  intros H. pose proof (led_release _ _ _ _ lane H) as [H1 H2 H3 H4]. split; try done.
  intros id r Hi. destruct (H4 id r Hi) as [[?|[= <-]] ?]; [auto|].
  unfold Release in Hi. destruct (a_held a !! lane) as [x|] eqn:E; simpl in Hi; [by rewrite lookup_delete_eq in Hi|congruence].
Qed.

Lemma dispatch_ok cap slots a m lane a' c acts :
  led_ok cap slots (Some lane) a → dispatch a m lane = (a', c, acts) →
  if c : bool then led_ok cap slots None a' else led_ok cap slots (Some lane) a' ∧ a' = a.
Proof.
  intros H. unfold dispatch. destruct m as [j|]; [|by intros [= <- <- <-]].
  destruct (Rename a lane (jobID j)) as [a1 []] eqn:E; intros [= <- <- <-].
  - pose proof (rename_ok a lane (jobID j) (lo_adm _ _ _ _ H)) as Ha. rewrite E in Ha. simpl in Ha. destruct H as [_ H2 H3 H4].
    unfold Rename in E. destruct (a_held a !! lane) as [r|] eqn:El; [|done]. case_bool_decide as Hd; [done|]. injection E as <-.
    split; simpl; [done..|]. intros id x [[<- <-]|[Hne [Hne' Hi]%lookup_delete_Some]]%lookup_insert_Some.
    + split; [left; apply jobID_prefix|]. by apply (H4 lane).
    + destruct (H4 id x Hi) as [[?|[= <-]] ?]; [auto|done].
  - unfold Rename in E. destruct (a_held a !! lane) as [r|] eqn:El; [case_bool_decide|]; simplify_eq; done.
Qed.

Lemma dispatch_all_ok cap slots lane ms : ∀ a claimed a' c acts,
  led_ok cap slots (if claimed : bool then None else Some lane) a → dispatch_all a claimed ms lane = (a', c, acts) →
  led_ok cap slots (if c : bool then None else Some lane) a'.
Proof.
  induction ms as [|m ms IH]; intros a claimed a' c acts H; simpl; [by intros [= <- <- <-]|].
  destruct claimed.
  - destruct (dispatch_all a true ms lane) as [[a2 c2] acts2] eqn:E2. intros [= <- <- <-]. by eapply (IH a true); [|exact E2].
  - destruct (dispatch a m lane) as [[a1 c1] acts1] eqn:E1. destruct (dispatch_all a1 c1 ms lane) as [[a2 c2] acts2] eqn:E2.
    intros [= <- <- <-]. eapply IH; [|exact E2]. pose proof (dispatch_ok _ _ _ _ _ _ _ _ H E1) as Hd. destruct c1; [done|apply Hd].
Qed.

Lemma sweep_class_ok cap slots a c i a' d acts :
  cap_small cap → c ∈ ClassesWithin cap → led_ok cap slots None a → sweep_class a c i = (a', d, acts) → led_ok cap slots None a'.
Proof.
  intros Hcap Hc H. unfold sweep_class. apply (led_releases _ _ _ (li_before i)) in H. set (a0 := release_jobs a _) in *.
  pose proof (led_acquire cap slots a0 c Hcap Hc H) as Ha. destruct (TryAcquire a0 (laneID c) (classRes c)) as [a1 ok].
  destruct ok; simpl; [|intros [= <- <- <-]; by subst].
  apply (led_releases _ _ _ (li_during i)) in Ha. destruct (li_fetch i) as [|ms]; [intros [= <- <- <-]; by apply led_unlane|].
  destruct (dispatch_all _ false ms _) as [[a2 c2] acts2] eqn:E. apply (dispatch_all_ok cap slots (laneID c)) in E; [|done].
  destruct c2; intros [= <- <- <-]; [done|by apply led_unlane].
Qed.

Lemma sweep_lanes_ok cap slots cs env : ∀ a a' d acts,
  cap_small cap → (∀ c, c ∈ cs → c ∈ ClassesWithin cap) → led_ok cap slots None a →
  sweep_lanes a cs env = (a', d, acts) → led_ok cap slots None a'.
Proof.
  induction cs as [|c cs IH]; intros a a' d acts Hcap Hcs H; simpl; [by intros [= <- <- <-]|].
  destruct (sweep_class a c (env c)) as [[a1 d1] acts1] eqn:E1. destruct (sweep_lanes a1 cs env) as [[a2 d2] acts2] eqn:E2.
  intros [= <- <- <-]. eapply IH; [done| |by eapply sweep_class_ok; [| |exact H|exact E1]; [|apply Hcs; left]|exact E2].
  intros x Hx. apply Hcs. by right.
Qed.

(** The states of a runner: sweeps, and jobs that finish between them. *)
Inductive runner_reach (cap : Resources) (slots : Z) : admission → Prop :=
  | rr_init : runner_reach cap slots (newAdmission cap slots)
  | rr_sweep a env a' d acts : runner_reach cap slots a → sweep a env = (a', d, acts) → runner_reach cap slots a'
  | rr_done a j : runner_reach cap slots a → runner_reach cap slots (Release a (jobID j)).

Lemma init_led cap slots : cap_small cap → 0 <= slots → led_ok cap slots None (newAdmission cap slots).
Proof.
  intros ([N1 N2] & C1 & C2) Hs. split; [|done|done|by intros id r]. split; simpl; [by intros i r|unfold nonneg, in_i64; lia|..];
    unfold total; rewrite ?map_fold_empty, ?map_size_empty; lia.
Qed.

Lemma runner_led cap slots a : cap_small cap → 0 <= slots → runner_reach cap slots a → led_ok cap slots None a.
Proof.
  intros Hcap Hs. induction 1 as [|a env a' d acts _ IH E|a j _ IH]; [by apply init_led| |by apply led_release].
  eapply sweep_lanes_ok; [done| |exact IH|exact E]. intros c Hc. rewrite (lo_cap _ _ _ _ IH) in Hc.
  apply list_elem_of_In, in_rev in Hc. by apply list_elem_of_In.
Qed.

(** [C38] The runner never overcommits: whatever the queue delivers and whenever
    jobs finish, between sweeps every held reservation belongs to a running job
    and is a rung of the ladder, the reservations add up to at most the
    capacity, and their number stays within the slots. *)
Theorem no_overcommit cap slots a :
  cap_small cap → 0 <= slots → runner_reach cap slots a →
  total CPUMilli (a_held a) <= CPUMilli cap ∧ total MemBytes (a_held a) <= MemBytes cap ∧
  (0 < slots → Z.of_nat (size (a_held a)) <= slots) ∧
  ∀ id r, a_held a !! id = Some r → HasPrefix id jobIDPrefix = true ∧ ∃ c, c ∈ ClassesWithin cap ∧ r = classRes c.
Proof.
  intros Hcap Hs Hr. destruct (runner_led _ _ _ Hcap Hs Hr) as [[_ _ H1 H2 H3] <- <- H4]. split_and!; try done.
  intros id r Hi. destruct (H4 id r Hi) as [[?|?] ?]; done.
Qed.

(** ** Duplicate deliveries *)

Lemma jobID_inj `{KL : KeyLib} j j' k key k' key' :
  j_Node j = NodeName k key → j_Node j' = NodeName k' key' → jobID j = jobID j' → j_Node j = j_Node j' ∧ j_Gen j = j_Gen j'.
Proof. unfold jobID. intros -> -> H%msgid_inj. done. Qed.

(** An attempt runs at most once at a time on a runner: a message whose
    attempt is running is handed back with a delay and changes no reservation;
    any other decodable message takes the lane's reservation over to its
    attempt, and messages of different attempts never share an entry. *)
Theorem dispatch_exact `{KL : KeyLib} a j lane r k key :
  j_Node j = NodeName k key → a_held a !! lane = Some r →
  match a_held a !! jobID j with
  | Some _ => dispatch a (Some j) lane = (a, false, [ANakDelay (j_Node j) (j_Gen j)])
  | None => ∃ a', dispatch a (Some j) lane = (a', true, [ARun (jobID j) j]) ∧
              a_held a' !! jobID j = Some r ∧ (lane ≠ jobID j → a_held a' !! lane = None) ∧
              ∀ j' k' key', j_Node j' = NodeName k' key' → (j_Node j', j_Gen j') ≠ (j_Node j, j_Gen j) → lane ≠ jobID j' →
                a_held a' !! jobID j' = a_held a !! jobID j'
  end.
Proof.
  intros Hj Hl. unfold dispatch, Rename. rewrite Hl. destruct (a_held a !! jobID j) as [x|] eqn:E.
  - by rewrite bool_decide_eq_true_2.
  - rewrite bool_decide_eq_false_2 by (by intros []). eexists. split_and!; [done|simpl; apply lookup_insert_eq|..].
    + intros Hne. simpl. rewrite lookup_insert_ne by done. apply lookup_delete_eq.
    + intros j' k' key' Hj' Hne Hl'. simpl. rewrite lookup_insert_ne, lookup_delete_ne; [done|done|].
      intros Heq. destruct (jobID_inj j j' _ _ _ _ Hj Hj' Heq). congruence.
Qed.

(** ** Waiting *)

Inductive op := OTry (id : string) (r : Resources) | ORename (old new : string).

Definition apply_op (a : admission) (o : op) : admission :=
  match o with OTry id r => (TryAcquire a id r).1 | ORename old new => (Rename a old new).1 end.

Definition op_small (cap : Resources) (o : op) : Prop := match o with OTry _ r => small cap r | ORename _ _ => True end.

Lemma op_room a o r :
  adm_ok a → op_small (a_capacity a) o → ¬ room a r →
  adm_ok (apply_op a o) ∧ a_capacity (apply_op a o) = a_capacity a ∧ ¬ room (apply_op a o) r.
Proof.
  intros Ha Ho Hr. destruct o as [id x|old new]; simpl.
  - unfold TryAcquire. destruct (tryAcquire_iff a id x Ha Ho) as [(-> & Hn & Hx)|[-> _]]; [|done]. simpl.
    split_and!; [apply acquire_ok; try done; apply Ho|done|]. intros (R1 & R2 & R3). apply Hr. destruct Ho as [[? ?] _].
    simpl in *. rewrite total_insert in R1, R2 by done. rewrite map_size_insert, Hn in R3. unfold room. lia.
  - split; [by apply rename_ok|]. unfold Rename. destruct (a_held a !! old) as [x|] eqn:E; [|done]. case_bool_decide as Hd; [done|].
    rewrite <- eq_None_not_Some in Hd. destruct (rename_held a old new x E Hd) as [Ht Hs]. split; [done|].
    unfold room. simpl. rewrite !Ht, Hs. done.
Qed.

(** No wake-up is lost: a request that does not fit stays unfit however
    many reservations the others take or rename, so waiting for the next
    release misses no chance to be admitted. *)
Theorem blocked_until_release a id r ops :
  adm_ok a → small (a_capacity a) r → a_held a !! id = None → (tryAcquireLocked a id r).2 = false →
  Forall (op_small (a_capacity a)) ops →
  (tryAcquireLocked (foldl apply_op a ops) id r).2 = false.
Proof.
  intros Ha Hr Hn Ht. destruct (tryAcquire_iff a id r Ha Hr) as [(E & _)|[_ [Hd|Hroom]]]; [by rewrite E in Ht|by rewrite Hn in Hd; destruct Hd|].
  clear Hn Ht. revert a Ha Hr Hroom. induction ops as [|o ops IH]; intros a Ha Hr Hroom Hops; simpl.
  - destruct (tryAcquire_iff a id r Ha Hr) as [(_ & _ & ?)|[-> _]]; done.
  - apply Forall_cons in Hops as [Ho Hops]. destruct (op_room a o r Ha Ho Hroom) as (Ha' & Hc & Hr'). apply IH; try done; by rewrite Hc.
Qed.

(** ** The heartbeat's snapshot *)

Lemma i64_sub_l x y : i64 (i64 x - y) = i64 (x - y).
Proof. rewrite <- !(Z.add_opp_r _ y). apply i64_add_l. Qed.

Lemma snapshot_fold l : ∀ free n, in_i64 (CPUMilli free) → in_i64 (MemBytes free) →
  foldl (λ acc kv, let '(free, n) := acc in (Sub free (snd kv), if HasPrefix (fst kv) jobIDPrefix then n + 1 else n)) (free, n) l =
  (mkRes (i64 (CPUMilli free - foldr (λ (kv : string * Resources) acc, CPUMilli (snd kv) + acc) 0 l))
         (i64 (MemBytes free - foldr (λ (kv : string * Resources) acc, MemBytes (snd kv) + acc) 0 l)),
   n + Z.of_nat (length (List.filter (λ kv : string * Resources, HasPrefix (fst kv) jobIDPrefix) l))).
Proof.
  induction l as [|[k r] l IH]; intros [c m] n Hc Hm; simpl in *; [rewrite !Z.sub_0_r, !i64_id, Z.add_0_r; done|].
  rewrite IH by (simpl; apply i64_range). simpl. rewrite !i64_sub_l, !Z.sub_add_distr. f_equal. destruct (HasPrefix k jobIDPrefix); simpl; lia.
Qed.

(** The heartbeat reports exactly the free capacity: what is held and what
    is reported free add up to the capacity, nothing is clamped, and the number
    of jobs in flight is the number of job entries. *)
Theorem snapshot_free_exact a :
  adm_ok a →
  Snapshot a = (mkRes (CPUMilli (a_capacity a) - total CPUMilli (a_held a)) (MemBytes (a_capacity a) - total MemBytes (a_held a)),
    Z.of_nat (length (List.filter (λ kv : string * Resources, HasPrefix (fst kv) jobIDPrefix) (map_to_list (a_held a))))).
Proof.
  intros Ha. pose proof (adm_totals a Ha) as [T1 T2]. destruct Ha as [_ (_ & C1 & C2) H1 H2 _]. unfold Snapshot.
  rewrite snapshot_fold by done. rewrite <- !total_foldr. unfold in_i64 in *. rewrite !i64_id by (unfold in_i64; lia). simpl.
  do 2 (case_match; [lia|]). done.
Qed.

(** ** A runner with four cores, and one job on its smallest lane *)

Definition demo_cap : Resources := mkRes 4000 (8 * GiB).

Definition demo_job : Job :=
  {| j_Node := @NodeName string_keys KindPin "F"; j_Kind := KindPin; j_Key := "kF"; j_Gen := 7; j_Platform := "linux/amd64";
     j_Class := "c0.2-m1"; j_Def := ""; j_PullRefs := []; j_CPUMilli := 200; j_MemBytes := 512 * MiB |}.

Definition demo_lanes (c : string) : lane_input :=
  {| li_before := []; li_during := []; li_fetch := FetchMsgs (if String.eqb c "c0.2-m1" then [Some demo_job] else []) |}.

Definition demo_adm : admission := (sweep (newAdmission demo_cap 2) demo_lanes).1.1.

Lemma demo_cap_small : cap_small demo_cap.
Proof. unfold cap_small, nonneg, demo_cap, GiB. simpl. lia. Qed.

Lemma two_nonneg : 0 <= 2.
Proof. lia. Qed.

Lemma demo_adm_reach : runner_reach demo_cap 2 demo_adm.
Proof.
  unfold demo_adm. destruct (sweep (newAdmission demo_cap 2) demo_lanes) as [[a d] acts] eqn:E. simpl.
  by eapply rr_sweep; [apply rr_init|].
Qed.

Lemma no_overcommit_witness : total CPUMilli (a_held demo_adm) <= 4000 ∧ a_held demo_adm !! "job/pin_6b46-7" = Some (mkRes 200 GiB).
Proof.
  split; [|vm_compute; reflexivity].
  destruct (no_overcommit demo_cap 2 demo_adm) as [H _].
  - apply demo_cap_small.
  - lia.
  - apply demo_adm_reach.
  - exact H.
Defined.

(** The same, with the next lane reserved. *)
Definition demo_adm2 : admission := set_held (<["lane/c1-m1" := mkRes 1000 GiB]> (a_held demo_adm)) demo_adm.

Lemma dispatch_exact_witness : dispatch demo_adm2 (Some demo_job) "lane/c1-m1" = (demo_adm2, false, [ANakDelay "pin_6b46" 7]).
Proof.
  assert (Hl : a_held demo_adm2 !! "lane/c1-m1" = Some (mkRes 1000 GiB)) by (vm_compute; reflexivity).
  pose proof (dispatch_exact (KL := string_keys) demo_adm2 demo_job "lane/c1-m1" _ KindPin "F" eq_refl Hl) as H.
  assert (Hj : a_held demo_adm2 !! jobID demo_job = Some (mkRes 200 GiB)) by (vm_compute; reflexivity).
  rewrite Hj in H. exact H.
Defined.

Lemma blocked_until_release_witness :
  (tryAcquireLocked (foldl apply_op demo_adm [ORename "job/pin_6b46-7" "job/x-1"]) "lane/c4-m8" (mkRes 4000 (8 * GiB))).2 = false.
Proof.
  apply (blocked_until_release demo_adm "lane/c4-m8" (mkRes 4000 (8 * GiB))).
  - apply (lo_adm _ _ _ _ (runner_led _ _ _ demo_cap_small two_nonneg demo_adm_reach)).
  - rewrite (lo_cap _ _ _ _ (runner_led _ _ _ demo_cap_small two_nonneg demo_adm_reach)).
    unfold small, nonneg, demo_cap, GiB. simpl. lia.
  - vm_compute. reflexivity.
  - vm_compute. reflexivity.
  - repeat constructor.
Defined.

Lemma snapshot_free_exact_witness : Snapshot demo_adm = (mkRes 3800 (7 * GiB), 1).
Proof.
  rewrite (snapshot_free_exact demo_adm).
  - vm_compute. reflexivity.
  - apply (lo_adm _ _ _ _ (runner_led _ _ _ demo_cap_small two_nonneg demo_adm_reach)).
Defined.
