(* ===== verification/Reftrack.v ===== *)
(** * The reference access tracker (src/reftrack/reftrack.go)

    When each reference was last used, with pins, the mirroring of touches and
    pins within a build-output family, reconciliation with the store's listing
    and the expiry list. Times are nanoseconds. *)
From S2P Require Import Prelude GoLib.
From Stdlib Require Import Ascii.
Local Open Scope string_scope.
Local Open Scope list_scope.

Definition protectedPrefixes : list string := ["shell:"; "fetcher:"; "seed-src:"].
Definition outputPrefix := "build-output:".
Definition depsPrefix := "build-output-deps:".

Definition Protected (name : string) : bool := existsb (HasPrefix name) protectedPrefixes.

Record Entry := mkEntry { FirstSeen : Z; LastAccess : Z; Pinned_ : bool }.

Abbreviation Tracker := (gmap string Entry).

Definition Tracker_New : Tracker := ∅.

(** A map read of an absent name is the zero entry. *)
Definition entry_at (t : Tracker) (name : string) : Entry := default (mkEntry 0 0 false) (t !! name).

Definition touchLocked (t : Tracker) (name : string) (now : Z) : Tracker :=
  let e := entry_at t name in
  let first := if bool_decide (is_Some (t !! name)) then FirstSeen e else now in
  <[name := mkEntry first now (Pinned_ e)]> t.

Definition familySibling (name : string) : option string :=
  match CutPrefix name depsPrefix with
  | Some s => Some (outputPrefix +:+ s)
  | None =>
      match CutPrefix name outputPrefix with
      | Some s => Some (depsPrefix +:+ s)
      | None => None
      end
  end.

(** Apply to the family sibling when it is tracked. *)
Definition on_sibling (t : Tracker) (name : string) (f : Tracker → string → Tracker) : Tracker :=
  match familySibling name with
  | Some sib => if bool_decide (is_Some (t !! sib)) then f t sib else t
  | None => t
  end.

Definition Touch (t : Tracker) (name : string) (now : Z) : Tracker :=
  on_sibling (touchLocked t name now) name (λ t sib, touchLocked t sib now).

(** Each name of [TouchAll] reads the clock anew. *)
Definition TouchAll (t : Tracker) (names : list (string * Z)) : Tracker := foldl (λ t nz, Touch t nz.1 nz.2) t names.

Definition set_pin (t : Tracker) (name : string) (b : bool) : Tracker :=
  let e := entry_at t name in <[name := mkEntry (FirstSeen e) (LastAccess e) b]> t.

Definition Pin (t : Tracker) (name : string) (now : Z) : Tracker :=
  on_sibling (set_pin (touchLocked t name now) name true) name (λ t sib, set_pin (touchLocked t sib now) sib true).

Definition Unpin (t : Tracker) (name : string) : Tracker :=
  let t := if bool_decide (is_Some (t !! name)) then set_pin t name false else t in
  on_sibling t name (λ t sib, set_pin t sib false).

Definition Tracker_Get (t : Tracker) (name : string) : option Entry := t !! name.

Definition Forget (t : Tracker) (name : string) : Tracker := delete name t.

(** [Counts]: tracked and pinned totals. *)
Definition Counts (t : Tracker) : nat * nat := (size t, length (List.filter (λ kv : string * Entry, Pinned_ (snd kv)) (map_to_list t))).

Definition seed (now : Z) (t : Tracker) (name : string) : Tracker :=
  if bool_decide (is_Some (t !! name)) then t else <[name := mkEntry now now false]> t.

Definition Reconcile (t : Tracker) (existing : list string) (now : Z) : Tracker :=
  filter (λ kv, kv.1 ∈ existing) (foldl (seed now) t existing).

(** Deps names sort after everything else. *)
Definition expiry_leb (a b : string) : bool :=
  let di := HasPrefix a depsPrefix in
  let dj := HasPrefix b depsPrefix in
  if Bool.eqb di dj then str_leb a b else negb di.

Definition is_expired (retention now : Z) (kv : string * Entry) : bool :=
  negb (Pinned_ (snd kv)) && negb (Protected (fst kv)) && (LastAccess (snd kv) <? now - retention)%Z.

Definition Expired (t : Tracker) (retention now : Z) : list string :=
  ssort expiry_leb (fst <$> List.filter (is_expired retention now) (map_to_list t)).

(** The persisted shape, and the file as its source. *)
Record snapEntry := mkSnap { se_First : Z; se_Last : Z; se_Pinned : bool }.

Inductive snap_file := SnapMissing | SnapUnreadable (e : string) | SnapCorrupt (e : string) | SnapOk (m : gmap string snapEntry).

Definition Load (t : Tracker) (f : snap_file) : Tracker * result string unit :=
  match f with
  | SnapMissing => (t, Ok tt)
  | SnapUnreadable e => (t, Err e)
  | SnapCorrupt e => (t, Err ("reftrack: decode: " +:+ e))
  | SnapOk m => ((λ s, mkEntry (se_First s) (se_Last s) (se_Pinned s)) <$> m, Ok tt)
  end.

Definition Flush (t : Tracker) : gmap string snapEntry :=
  (λ e, mkSnap (i64 (FirstSeen e)) (i64 (LastAccess e)) (Pinned_ e)) <$> t.

(** ** The expiry list *)

Lemma expiry_total a b : expiry_leb a b = true ∨ expiry_leb b a = true.
Proof. unfold expiry_leb. destruct (HasPrefix a depsPrefix), (HasPrefix b depsPrefix); simpl; auto using str_leb_total. Qed.

Lemma expiry_trans a b c : expiry_leb a b = true → expiry_leb b c = true → expiry_leb a c = true.
Proof.
  unfold expiry_leb. destruct (HasPrefix a depsPrefix), (HasPrefix b depsPrefix), (HasPrefix c depsPrefix); simpl; try done; apply str_leb_trans.
Qed.

Lemma elem_of_Expired t retention now name :
  name ∈ Expired t retention now ↔
  ∃ e, t !! name = Some e ∧ Pinned_ e = false ∧ Protected name = false ∧ (LastAccess e < now - retention)%Z.
Proof.
  unfold Expired. rewrite elem_of_ssort, list_elem_of_fmap. split.
  - intros ([n e] & -> & H). apply list_elem_of_In, filter_In in H as [H1 H2]. apply list_elem_of_In, elem_of_map_to_list in H1.
    unfold is_expired in H2. rewrite !andb_true_iff, !negb_true_iff, Z.ltb_lt in H2. simpl in *. exists e. tauto.
  - intros (e & He & Hp & Hq & Hl). exists (name, e). split; [done|]. apply list_elem_of_In, filter_In. split.
    + by apply list_elem_of_In, elem_of_map_to_list.
    + unfold is_expired. rewrite !andb_true_iff, !negb_true_iff, Z.ltb_lt. done.
Qed.

Lemma Expired_NoDup t retention now : NoDup (Expired t retention now).
Proof.
  unfold Expired. rewrite ssort_perm.
  assert (H : ∀ l : list (string * Entry), NoDup l.*1 → NoDup (List.filter (is_expired retention now) l).*1).
  { induction l as [|x l IH]; simpl; [done|]. intros [Hx Hl]%NoDup_cons. destruct (is_expired _ _ x); simpl; [|by apply IH].
    apply NoDup_cons. split; [|by apply IH]. intros Hin. apply Hx. apply list_elem_of_fmap in Hin as (y & -> & Hy).
    apply list_elem_of_fmap. exists y. split; [done|]. apply list_elem_of_In, filter_In in Hy as [? _]. by apply list_elem_of_In. }
  apply H, NoDup_fst_map_to_list.
Qed.

(** In the expiry list an output precedes every deps name. *)
Lemma Expired_order t retention now l1 d l2 o :
  Expired t retention now = l1 ++ d :: l2 → HasPrefix d depsPrefix = true → HasPrefix o depsPrefix = false →
  o ∈ Expired t retention now → o ∈ l1.
Proof.
  intros E Hd Ho Hin. pose proof (ssort_sorted expiry_leb expiry_total expiry_trans
    (fst <$> List.filter (is_expired retention now) (map_to_list t))) as Hs.
  fold (Expired t retention now) in Hs. rewrite E in Hs, Hin. apply elem_of_app in Hin as [?|[->|Hin]%elem_of_cons]; [done|congruence|].
  apply StronglySorted_app in Hs as (_ & _ & Hs). apply StronglySorted_inv in Hs as [_ Hs]. rewrite Forall_forall in Hs.
  specialize (Hs o Hin). unfold expiry_leb in Hs. rewrite Hd, Ho in Hs. done.
Qed.

(** ** Families *)

Lemma sibling_deps x : familySibling (depsPrefix +:+ x) = Some (outputPrefix +:+ x).
Proof. unfold familySibling. by rewrite CutPrefix_app. Qed.

Lemma cut_output_deps x : CutPrefix (outputPrefix +:+ x) depsPrefix = None.
Proof. done. Qed.

Lemma sibling_output x : familySibling (outputPrefix +:+ x) = Some (depsPrefix +:+ x).
Proof. unfold familySibling. by rewrite cut_output_deps, CutPrefix_app. Qed.

Lemma output_deps_ne x y : outputPrefix +:+ x ≠ depsPrefix +:+ y.
Proof. discriminate. Qed.

Lemma sibling_inv name sib : familySibling name = Some sib → familySibling sib = Some name ∧ sib ≠ name.
Proof.
  unfold familySibling at 1. destruct (CutPrefix name depsPrefix) as [s|] eqn:E.
  - apply CutPrefix_Some in E as ->. intros [= <-]. split; [apply sibling_output|apply output_deps_ne].
  - destruct (CutPrefix name outputPrefix) as [s|] eqn:E2; [|done]. apply CutPrefix_Some in E2 as ->. intros [= <-].
    split; [apply sibling_deps|]. intros H. symmetry in H. by apply output_deps_ne in H.
Qed.

(** Siblings that are both tracked have the same clock and the same pin. *)
Definition in_sync (t : Tracker) : Prop :=
  ∀ a b ea eb, familySibling a = Some b → t !! a = Some ea → t !! b = Some eb →
    LastAccess ea = LastAccess eb ∧ Pinned_ ea = Pinned_ eb.

(** Both siblings of a name are tracked, or neither is. *)
Definition paired (t : Tracker) (name : string) : Prop :=
  ∀ sib, familySibling name = Some sib → is_Some (t !! name) ↔ is_Some (t !! sib).

(** An update confined to a family keeps the others in step. *)
Lemma in_sync_family (t t' : Tracker) name :
  in_sync t →
  (∀ n, n ≠ name → familySibling name ≠ Some n → t' !! n = t !! n) →
  (∀ sib ea eb, familySibling name = Some sib → t' !! name = Some ea → t' !! sib = Some eb →
     LastAccess ea = LastAccess eb ∧ Pinned_ ea = Pinned_ eb) →
  in_sync t'.
Proof.
  intros Hs Ho Hn a b ea eb Hab Ha Hb. destruct (decide (a = name)) as [->|Hna]; [by apply (Hn b)|].
  destruct (sibling_inv _ _ Hab) as [Hba Hne]. destruct (decide (b = name)) as [->|Hnb].
  { destruct (Hn a eb ea Hba Hb Ha) as [-> ->]. done. }
  assert (Ea : familySibling name ≠ Some a) by (intros E; apply sibling_inv in E as [E _]; congruence).
  assert (Eb : familySibling name ≠ Some b) by (intros E; apply sibling_inv in E as [E _]; congruence).
  rewrite Ho in Ha, Hb by done. by apply (Hs a b ea eb).
Qed.

Lemma touch_lookup (t : Tracker) name now n :
  touchLocked t name now !! n = if decide (n = name)
    then Some (mkEntry (if bool_decide (is_Some (t !! name)) then FirstSeen (entry_at t name) else now) now (Pinned_ (entry_at t name)))
    else t !! n.
Proof. unfold touchLocked. case_decide as Hd; [subst; apply lookup_insert_eq|by apply lookup_insert_ne]. Qed.

Lemma set_pin_lookup (t : Tracker) name b n :
  set_pin t name b !! n = if decide (n = name)
    then Some (mkEntry (FirstSeen (entry_at t name)) (LastAccess (entry_at t name)) b) else t !! n.
Proof. unfold set_pin. case_decide as Hd; [subst; apply lookup_insert_eq|by apply lookup_insert_ne]. Qed.

(** The entry of a name after it is touched. *)
Definition touched (t : Tracker) (n : string) (now : Z) (b : bool) : Entry :=
  mkEntry (if bool_decide (is_Some (t !! n)) then FirstSeen (entry_at t n) else now) now b.

(** Where a family operation acts: on the name, and on its sibling if tracked. *)
Definition acts (t : Tracker) (name n : string) : Prop := n = name ∨ (familySibling name = Some n ∧ is_Some (t !! n)).

Global Instance acts_dec t name n : Decision (acts t name n).
Proof. unfold acts. apply _. Defined.

Lemma Touch_lookup (t : Tracker) name now n :
  (acts t name n → Touch t name now !! n = Some (touched t n now (Pinned_ (entry_at t n)))) ∧
  (¬ acts t name n → Touch t name now !! n = t !! n).
Proof.
  unfold acts, Touch, on_sibling, touched. destruct (familySibling name) as [sib|] eqn:E.
  - destruct (sibling_inv _ _ E) as [_ Hne]. rewrite touch_lookup, decide_False by done.
    case_bool_decide as Hb; rewrite !touch_lookup; split; intros Ha; repeat case_decide; simplify_eq; try naive_solver.
    unfold entry_at. rewrite touch_lookup, decide_False by done. done.
  - rewrite touch_lookup. split; intros Ha; case_decide; naive_solver.
Qed.

Lemma Pin_lookup (t : Tracker) name now n :
  (acts t name n → Pin t name now !! n = Some (touched t n now true)) ∧ (¬ acts t name n → Pin t name now !! n = t !! n).
Proof.
  unfold acts, Pin, on_sibling, touched.
  assert (He : ∀ t n now, mkEntry (FirstSeen (entry_at (touchLocked t n now) n)) (LastAccess (entry_at (touchLocked t n now) n)) true
    = touched t n now true).
  { intros. unfold entry_at, touched. rewrite touch_lookup, decide_True by done. done. }
  destruct (familySibling name) as [sib|] eqn:E.
  - destruct (sibling_inv _ _ E) as [_ Hne]. rewrite set_pin_lookup, touch_lookup, !decide_False by done.
    destruct (decide (n = name)) as [->|Hn]; [|destruct (decide (n = sib)) as [->|Hs]].
    + split; [intros _|intros []; by left].
      case_bool_decide.
      * rewrite set_pin_lookup, decide_False, touch_lookup, decide_False by done. rewrite set_pin_lookup, decide_True by done. by rewrite He.
      * rewrite set_pin_lookup, decide_True by done. by rewrite He.
    + split; intros Ha; case_bool_decide as Hb; rewrite !set_pin_lookup.
      * rewrite decide_True, He by done. unfold touched, entry_at. rewrite set_pin_lookup, touch_lookup, !decide_False by done. by rewrite bool_decide_eq_true_2.
      * by destruct Ha as [?|[_ ?]].
      * destruct Ha. by right.
      * by rewrite touch_lookup, !decide_False.
    + split; [by intros [?|[[= ?] _]]|intros _].
      case_bool_decide; repeat (rewrite ?set_pin_lookup, ?touch_lookup; rewrite !decide_False by done); done.
  - rewrite set_pin_lookup, He, touch_lookup. split; intros Ha; repeat case_decide; naive_solver.
Qed.

Definition unpinned (e : Entry) : Entry := mkEntry (FirstSeen e) (LastAccess e) false.

Lemma Unpin_lookup (t : Tracker) name n :
  Unpin t name !! n = if decide (n = name ∨ familySibling name = Some n) then unpinned <$> t !! n else t !! n.
Proof.
  unfold Unpin, on_sibling.
  assert (H1 : ∀ (t : Tracker) m, (if bool_decide (is_Some (t !! m)) then set_pin t m false else t) !! n =
    if decide (n = m) then unpinned <$> t !! n else t !! n).
  { intros t0 m. case_bool_decide as Hb; [rewrite set_pin_lookup|]; case_decide; subst; try done.
    - destruct Hb as [e He]. unfold entry_at. rewrite He. done.
    - rewrite <- eq_None_not_Some in Hb. by rewrite Hb. }
  destruct (familySibling name) as [sib|] eqn:E; [|rewrite H1; repeat case_decide; naive_solver].
  destruct (sibling_inv _ _ E) as [_ Hne]. rewrite H1, H1. repeat case_decide; naive_solver.
Qed.

(** A build-output family stays in step: when an output and its deps are
    tracked together, touching, pinning or unpinning either keeps their clocks
    and pins equal. *)
Theorem family_in_step t name now :
  in_sync t → paired t name →
  in_sync (Touch t name now) ∧ in_sync (Pin t name now) ∧ in_sync (Unpin t name).
Proof.
  intros Hs Hp. assert (Hpin : ∀ sib, familySibling name = Some sib → Pinned_ (entry_at t name) = Pinned_ (entry_at t sib)).
  { intros sib E. unfold entry_at. specialize (Hp sib E). destruct (t !! name) as [ea|] eqn:Ea, (t !! sib) as [eb|] eqn:Eb; simpl.
    - by apply (Hs name sib ea eb). - by destruct Hp as [[? ?] _]. - by destruct Hp as [_ [? ?]]. - done. }
  split_and!.
  - apply (in_sync_family t _ name Hs).
    + intros n Hn Hn'. apply Touch_lookup. by intros [?|[? _]].
    + intros sib ea eb E. destruct (sibling_inv _ _ E) as [_ Hne]. rewrite (proj1 (Touch_lookup t name now name)) by (by left).
      intros [= <-]. destruct (decide (is_Some (t !! sib))) as [Ht|Ht].
      * rewrite (proj1 (Touch_lookup t name now sib)) by (right; auto). intros [= <-]. split; [done|]. by apply Hpin.
      * rewrite (proj2 (Touch_lookup t name now sib)) by (by intros [?|[_ ?]]). intros Hb. destruct Ht. eauto.
  - apply (in_sync_family t _ name Hs).
    + intros n Hn Hn'. apply Pin_lookup. by intros [?|[? _]].
    + intros sib ea eb E. destruct (sibling_inv _ _ E) as [_ Hne]. rewrite (proj1 (Pin_lookup t name now name)) by (by left). intros [= <-].
      destruct (decide (is_Some (t !! sib))) as [Ht|Ht].
      * rewrite (proj1 (Pin_lookup t name now sib)) by (right; auto). by intros [= <-].
      * rewrite (proj2 (Pin_lookup t name now sib)) by (by intros [?|[_ ?]]). intros Hb. destruct Ht. eauto.
  - apply (in_sync_family t _ name Hs).
    + intros n Hn Hn'. rewrite Unpin_lookup, decide_False by naive_solver. done.
    + intros sib ea eb E. rewrite !Unpin_lookup, !decide_True by auto.
      destruct (t !! name) as [xa|] eqn:Ea, (t !! sib) as [xb|] eqn:Eb; try done. intros [= <-] [= <-]. split; [|done].
      by apply (Hs name sib xa xb).
Qed.

Lemma family_in_step_witness : in_sync (Pin {["build-output:a" := mkEntry 1 1 false; "build-output-deps:a" := mkEntry 1 1 false]} "build-output:a" 9).
Proof.
  refine (proj1 (proj2 (family_in_step {["build-output:a" := mkEntry 1 1 false; "build-output-deps:a" := mkEntry 1 1 false]} "build-output:a" 9 _ _))).
  - intros a b ea eb _ Ha Hb.
    assert (H : ∀ n e, ({["build-output:a" := mkEntry 1 1 false; "build-output-deps:a" := mkEntry 1 1 false]} : Tracker) !! n = Some e → e = mkEntry 1 1 false).
    { intros n e [[_ <-]|[_ [_ <-]%lookup_singleton_Some]]%lookup_insert_Some; done. }
    apply H in Ha, Hb. by subst.
  - intros sib [= <-]. split; intros _; vm_compute; by eexists.
Defined.

(** ** Reconciliation *)

Lemma seed_lookup now t name n :
  seed now t name !! n = if decide (n = name ∧ t !! name = None) then Some (mkEntry now now false) else t !! n.
Proof.
  unfold seed. case_bool_decide as Hb.
  - rewrite decide_False; [done|]. intros [_ H]. rewrite H in Hb. by destruct Hb.
  - rewrite <- eq_None_not_Some in Hb. case_decide as Hd; [destruct Hd as [-> _]; apply lookup_insert_eq|].
    apply lookup_insert_ne. naive_solver.
Qed.

Lemma seeds_lookup now names : ∀ t n,
  foldl (seed now) t names !! n = match t !! n with Some e => Some e | None => if decide (n ∈ names) then Some (mkEntry now now false) else None end.
Proof.
  induction names as [|m names IH]; intros t n; simpl; [by destruct (t !! n)|]. rewrite IH, seed_lookup.
  case_decide as Hd; [destruct Hd as [-> Hn]; rewrite Hn; by rewrite decide_True by left|].
  destruct (t !! n) as [e|] eqn:E; [done|]. repeat case_decide; set_solver.
Qed.

Lemma Reconcile_lookup (t : Tracker) names now n :
  Reconcile t names now !! n = if decide (n ∈ names) then Some (default (mkEntry now now false) (t !! n)) else None.
Proof.
  unfold Reconcile. rewrite map_lookup_filter, seeds_lookup. case_decide as Hd.
  - destruct (t !! n); simpl; by rewrite option_guard_True.
  - destruct (t !! n); simpl; [by rewrite option_guard_False|done].
Qed.

(** The safe-upgrade rule: after reconciling, exactly the listed names are
    tracked, known names keep their clocks and pins, and a name first seen now
    is not expired before a full retention has passed. *)
Theorem reconcile_safe t names now retention later :
  (0 <= retention)%Z → let t' := Reconcile t names now in
  (∀ n, is_Some (t' !! n) ↔ n ∈ names) ∧ (∀ n e, n ∈ names → t !! n = Some e → t' !! n = Some e) ∧
  (∀ n, t !! n = None → n ∈ Expired t' retention later → (now + retention < later)%Z).
Proof.
  intros Hr t'. unfold t'. split_and!.
  - intros n. rewrite Reconcile_lookup. case_decide; split; try done; by intros []. 
  - intros n e Hn He. rewrite Reconcile_lookup, decide_True by done. by rewrite He.
  - intros n Hn (e & He & _ & _ & Hl)%elem_of_Expired. rewrite Reconcile_lookup in He. case_decide; [|done].
    rewrite Hn in He. injection He as <-. simpl in Hl. lia.
Qed.

Lemma reconcile_safe_witness : "a" ∉ Expired (Reconcile ∅ ["a"] 100) 50 120.
Proof.
  intros H. destruct (reconcile_safe ∅ ["a"] 100 50 120 ltac:(lia)) as (_ & _ & Hx).
  specialize (Hx "a" (lookup_empty _) H). lia.
Defined.
