(* ===== verification/GcSweep.v ===== *)
(** * The garbage-collection sweep (src/gcsweep)

    One sweep: reconcile the tracker with the reference listing, expire cold
    references, run a collector cycle when it is worth it, sweep the cache
    directory, report. The collector (package gc of the store library), the
    filesystem and what the rest of the process does meanwhile, to the tracker
    and to the references, are inputs. *)
From S2P Require Import Prelude GoLib Keys Builddef Store Gate Commit Reftrack.
From Stdlib Require Import Ascii.
Local Open Scope string_scope.
Local Open Scope list_scope.

Section GcSweep.
Context `{SL : StoreLib}.

Definition gcOutputPrefix := "build-output:".
Definition gcDepsPrefix := "build-output-deps:".

Definition depsOutputName (name : string) : option string :=
  match CutPrefix name gcDepsPrefix with
  | Some s => Some (gcOutputPrefix +:+ s)
  | None => None
  end.

(** What the rest of the process does while a sweep runs: reads and pins reach
    the tracker, commits, peers and local builds write and delete references. *)
Inductive track_op := TTouch (name : string) (now : Z) | TPin (name : string) (now : Z) | TUnpin (name : string).
Inductive other_op := OTrack (o : track_op) | OPut (name : string) (k : Key) | ODel (name : string).

Definition apply_track (t : Tracker) (o : track_op) : Tracker :=
  match o with
  | TTouch n now => Touch t n now
  | TPin n now => Pin t n now
  | TUnpin n => Unpin t n
  end.

Record expiry := mkExp { x_track : Tracker; x_store : Store; x_failed : gset string; x_deleted : nat }.

Definition set_track (t : Tracker) (x : expiry) : expiry := mkExp t (x_store x) (x_failed x) (x_deleted x).
Definition set_store (st : Store) (x : expiry) : expiry := mkExp (x_track x) st (x_failed x) (x_deleted x).

Definition apply_other (x : expiry) (o : other_op) : expiry :=
  match o with
  | OTrack o => set_track (apply_track (x_track x) o) x
  | OPut n k => set_store (PutRef n k (x_store x)).1 x
  | ODel n => set_store (DeleteRef n (x_store x)).1 x
  end.

Definition others (x : expiry) (os : list other_op) : expiry := foldl apply_other x os.

(** One turn of the expiry loop. *)
Definition expire_one (x : expiry) (name : string) : expiry :=
  let skip := match depsOutputName name with Some out => bool_decide (out ∈ x_failed x) | None => false end in
  if skip then x
  else match Tracker_Get (x_track x) name with
  | None => x
  | Some e =>
      if Pinned_ e then x
      else
        let '(st, r) := DeleteRef name (x_store x) in
        match r with
        | Err _ => mkExp (x_track x) st (if HasPrefix name gcOutputPrefix then {[name]} ∪ x_failed x else x_failed x) (x_deleted x)
        | Ok _ => mkExp (Forget (x_track x) name) st (x_failed x) (S (x_deleted x))
        end
  end.

Fixpoint expire_all (x : expiry) (names : list string) (between : string → list other_op) : expiry :=
  match names with
  | [] => x
  | n :: ns => expire_all (expire_one (others x (between n)) n) ns between
  end.

(** ** The cache directory *)

Record dir_entry := mkDir { de_name : string; de_isdir : bool; de_mtime : option Z; de_removable : bool }.

Definition fetcherStaleAfter : Z := 24 * 3600 * 1000000000.

Definition parseTreeKey (name : string) : option Key :=
  let name := if HasSuffix name ".bin" then TrimSuffix name ".bin" else name in
  parseHexKey name.

(** Unknown or recent: kept. *)
Definition recent (e : dir_entry) (cutoff : Z) : bool :=
  match de_mtime e with None => true | Some m => (cutoff <? m)%Z end.

(** Whether the sweep removes an entry of the trees directory. *)
Definition tree_dead (has : Key → result string bool) (cutoff : Z) (e : dir_entry) : bool :=
  if negb (de_isdir e) then false
  else if HasPrefix (de_name e) "staging-" || HasPrefix (de_name e) "bin-staging-" then negb (recent e cutoff)
  else match parseTreeKey (de_name e) with
       | Some k => match has k with Err _ => false | Ok b => negb b end
       | None => true
       end.

Definition fetcher_dead (cutoff : Z) (e : dir_entry) : bool :=
  HasPrefix (de_name e) "fetcher-" && negb (recent e cutoff).

(** The entries gone after the sweep; a removal that fails is retried next time. *)
Definition sweepTrees (cacheDir : string) (has : Key → result string bool) (now : Z)
    (trees cache : option (list dir_entry)) : list string * list string :=
  if String.eqb cacheDir "" then ([], [])
  else
    let cutoff := (now - fetcherStaleAfter)%Z in
    let gone dead es := de_name <$> List.filter (λ e, dead e && de_removable e) (default [] es) in
    (gone (tree_dead has cutoff) trees, gone (fetcher_dead cutoff) cache).

(** ** The sweep *)

Record cycle := mkCycle { cy_Start : Z; cy_Reaped : Z; cy_Freed : Z; cy_Duration : Z }.

Record Stats := mkStats {
  s_RetentionNs : Z; s_LastSweepNs : Z; s_ExpiredLast : Z; s_ExpiredTotal : Z; s_Pinned : Z; s_RefCount : Z;
  s_DiskBytes : Z; s_LiveBytes : Z; s_GarbageBytes : Z; s_LastCycleNs : Z; s_LastCycleReaped : Z; s_LastCycleFreed : Z;
  s_LastCycleWallNs : Z; s_LastError : string; s_TreesRemoved : Z; s_FetcherDirsRemoved : Z }.

Record Sweeper := mkSweeper {
  g_track : Tracker; g_refs : Store; g_stats : Stats; g_cacheDir : string; g_retention : Z; g_snap : gmap string snapEntry }.

(** What one sweep reads of its surroundings. *)
Record sweep_env := {
  ev_now : Z;
  ev_list : result string unit;
  (** what others do between the listing and the reconciliation, between that
      and the expiry list, and before each turn of the loop *)
  ev_listed : list other_op;
  ev_seeded : list other_op;
  ev_between : string → list other_op;
  ev_status : result string (Z * Z);
  (** the garbage fraction reaches the collector's line *)
  ev_worth : Z → Z → bool;
  ev_freeBelow : bool;
  ev_run : result string cycle;
  ev_has : Key → result string bool;
  ev_trees : option (list dir_entry);
  ev_cache : option (list dir_entry);
  ev_dirSize : Z }.

Definition set_lastError (e : string) (s : Stats) : Stats :=
  mkStats (s_RetentionNs s) (s_LastSweepNs s) (s_ExpiredLast s) (s_ExpiredTotal s) (s_Pinned s) (s_RefCount s)
    (s_DiskBytes s) (s_LiveBytes s) (s_GarbageBytes s) (s_LastCycleNs s) (s_LastCycleReaped s) (s_LastCycleFreed s)
    (s_LastCycleWallNs s) e (s_TreesRemoved s) (s_FetcherDirsRemoved s).

Definition failSweep (g : Sweeper) (e : string) : Sweeper * result string Stats :=
  (mkSweeper (g_track g) (g_refs g) (set_lastError e (g_stats g)) (g_cacheDir g) (g_retention g) (g_snap g), Err e).

(** Steps 1 and 2: reconcile, then expire in the order of the list. *)
Definition at_expiry (g : Sweeper) (env : sweep_env) : expiry :=
  let names := elements (dom (st_refs (g_refs g))) in
  let x := others (mkExp (g_track g) (g_refs g) ∅ 0) (ev_listed env) in
  others (set_track (Reconcile (x_track x) names (ev_now env)) x) (ev_seeded env).

Definition expire_phase (g : Sweeper) (env : sweep_env) : expiry :=
  let x := at_expiry g env in
  expire_all x (Expired (x_track x) (g_retention g) (ev_now env)) (ev_between env).

Definition Sweep (g : Sweeper) (env : sweep_env) (force : bool) : Sweeper * result string Stats :=
  match ev_list env with
  | Err e => failSweep g ("list refs: " +:+ e)
  | Ok _ =>
      let x := expire_phase g env in
      let g := mkSweeper (x_track x) (x_store x) (g_stats g) (g_cacheDir g) (g_retention g) (g_snap g) in
      match ev_status env with
      | Err e => failSweep g ("gc status: " +:+ e)
      | Ok (live, garbage) =>
          let run := force || (0 <? x_deleted x)%nat || ev_worth env live garbage || ev_freeBelow env in
          let '(trees, fetchers) := sweepTrees (g_cacheDir g) (ev_has env) (ev_now env) (ev_trees env) (ev_cache env) in
          let '(total, pinned) := Counts (g_track g) in
          let s := g_stats g in
          let '(ns, reaped, freed, wall) :=
            match run, ev_run env with
            | true, Ok c => (cy_Start c, cy_Reaped c, cy_Freed c, cy_Duration c)
            | _, _ => (s_LastCycleNs s, s_LastCycleReaped s, s_LastCycleFreed s, s_LastCycleWallNs s)
            end in
          let cerr := match run, ev_run env with true, Err e => Some e | _, _ => None end in
          let s := mkStats (s_RetentionNs s) (ev_now env) (Z.of_nat (x_deleted x)) (s_ExpiredTotal s + Z.of_nat (x_deleted x))
            (Z.of_nat pinned) (Z.of_nat total) (ev_dirSize env) live garbage ns reaped freed wall (default "" cerr)
            (Z.of_nat (length trees)) (Z.of_nat (length fetchers)) in
          (mkSweeper (g_track g) (g_refs g) s (g_cacheDir g) (g_retention g) (Flush (g_track g)),
           match cerr with Some e => Err e | None => Ok s end)
      end
  end.

(** [Sweeper.Pin] and [Sweeper.Unpin]: reading the reference is itself an access. *)
Definition Sweeper_Pin (g : Sweeper) (name : string) (t1 t2 : Z) : Sweeper * result string Entry :=
  match GetKey name (g_refs g) with
  | Err e => (g, Err e)
  | Ok None => (g, Err (name +:+ " not found"))
  | Ok (Some _) =>
      let t := Pin (Touch (g_track g) name t1) name t2 in
      (mkSweeper t (g_refs g) (g_stats g) (g_cacheDir g) (g_retention g) (Flush t), Ok (entry_at t name))
  end.

Definition Sweeper_Unpin (g : Sweeper) (name : string) (t1 : Z) : Sweeper * option Entry :=
  let t := Unpin (g_track g) name in
  let snap := Flush t in
  match GetKey name (g_refs g) with
  | Ok (Some _) => let t := Touch t name t1 in
                   (mkSweeper t (g_refs g) (g_stats g) (g_cacheDir g) (g_retention g) snap, Some (entry_at t name))
  | _ => (mkSweeper t (g_refs g) (g_stats g) (g_cacheDir g) (g_retention g) snap, None)
  end.

(** ** Families in the store *)

Abbreviation out x := (outputPrefix +:+ x).
Abbreviation deps x := (depsPrefix +:+ x).

(** No output without its deps, in the families [F]. *)
Definition whole_in (F : string → Prop) (m : gmap string Key) : Prop := ∀ x, F x → is_Some (m !! out x) → is_Some (m !! deps x).

Definition of_family (x n : string) : Prop := n = out x ∨ n = deps x.

Lemma whole_same F m m' : (∀ x n, F x → of_family x n → m' !! n = m !! n) → whole_in F m → whole_in F m'.
Proof. intros E H x Hx. rewrite !(E x) by (first [done|by left|by right]). by apply H. Qed.

Lemma whole_delete_other F m name : (∀ x, name ≠ deps x) → whole_in F m → whole_in F (delete name m).
Proof.
  intros Hne HI x HF Hx. rewrite lookup_delete_ne by done. apply HI; [done|]. rewrite lookup_delete in Hx. by case_decide; [destruct Hx|].
Qed.

Lemma whole_delete_deps (F : string → Prop) m x : (F x → m !! out x = None) → whole_in F m → whole_in F (delete (deps x) m).
Proof.
  intros Ho HI y HF Hy. rewrite lookup_delete_ne in Hy by apply not_eq_sym, output_deps_ne.
  rewrite lookup_delete_ne; [by apply HI|]. intros E%append_inj_l. subst y. rewrite Ho in Hy by done. by destruct Hy.
Qed.

(** What a deletion does to the store. *)
Lemma DeleteRef_spec name st st' r :
  DeleteRef name st = (st', r) →
  (r = Ok tt ∧ st' = log_wop (WDel name) st) ∨ ((∃ e, r = Err e) ∧ st' = st).
Proof. unfold DeleteRef. repeat case_match; intros [= <- <-]; eauto. Qed.

Lemma crash_safe_delete (I : gmap string Key → Prop) name st :
  I (st_refs st) → I (delete name (st_refs st)) → crash_safe I st (log_wop (WDel name) st).
Proof.
  intros HI HI'. exists [WDel name]. split; [apply extends_log|]. intros [|n]; simpl; [done|]. by rewrite take_nil.
Qed.

(** ** The tracker while the sweep runs *)

(** Unpinning a name of the family, or writing or deleting its references. *)
Definition unpins (x : string) (o : track_op) : Prop := match o with TUnpin n => of_family x n | _ => False end.
Definition meddles (x : string) (o : other_op) : Prop :=
  match o with OTrack o => unpins x o | OPut n _ | ODel n => of_family x n end.

Lemma family_sibling x n m : of_family x n → familySibling m = Some n → of_family x m.
Proof. intros [-> | ->] [E _]%sibling_inv; [rewrite sibling_output in E; right|rewrite sibling_deps in E; left]; congruence. Qed.

(** An unpin elsewhere. *)
Lemma unpin_else t x m n : ¬ unpins x (TUnpin m) → of_family x n → Unpin t m !! n = t !! n.
Proof. intros Hm Hn. rewrite Unpin_lookup, decide_False; [done|]. intros [->|E]; [done|]. by apply Hm, (family_sibling x n). Qed.

(** A pin of the output reaches its tracked deps, and both stay. *)
Definition pin_covers (t : Tracker) (x : string) : Prop :=
  ∃ ed, t !! deps x = Some ed ∧ ∀ eo, t !! out x = Some eo → Pinned_ eo = true → Pinned_ ed = true.

Lemma pinned_entry t n e : t !! n = Some e → entry_at t n = e.
Proof. unfold entry_at. by intros ->. Qed.

Lemma op_pin_covers t o x : ¬ unpins x o → pin_covers t x → pin_covers (apply_track t o) x.
Proof.
  intros Ho (ed & Hd & Hp). destruct o as [n now|n now|n]; [..|unfold pin_covers; simpl; rewrite !(unpin_else t x n) by (first [done|by left|by right]); eauto]; simpl.
  - destruct (Touch_lookup t n now (deps x)) as [D1 D2], (Touch_lookup t n now (out x)) as [O1 O2].
    assert (Hed : ∃ e, Touch t n now !! deps x = Some e ∧ Pinned_ e = Pinned_ ed).
    { destruct (decide (acts t n (deps x))) as [Ha|Ha]; [rewrite D1 by done|rewrite D2 by done; eauto].
      eexists. split; [done|]. simpl. by rewrite (pinned_entry _ _ _ Hd). }
    destruct Hed as (e & He & Hpe). exists e. split; [done|]. intros eo Heo Hpo. rewrite Hpe.
    destruct (decide (acts t n (out x))) as [Ha|Ha]; [rewrite O1 in Heo by done|rewrite O2 in Heo by done; by eapply Hp].
    injection Heo as <-. simpl in Hpo. unfold entry_at in Hpo. destruct (t !! out x) as [eo|] eqn:Eo; [by eapply Hp|done].
  - destruct (Pin_lookup t n now (deps x)) as [D1 D2], (Pin_lookup t n now (out x)) as [O1 O2].
    destruct (decide (acts t n (deps x))) as [Ha|Ha].
    + eexists. rewrite D1 by done. split; [done|]. done.
    + exists ed. rewrite D2 by done. split; [done|]. intros eo Heo Hpo. destruct (decide (acts t n (out x))) as [Hb|Hb].
      * destruct Ha. destruct Hb as [<-|[Hs _]].
        -- right. split; [apply sibling_output|eauto].
        -- left. apply sibling_inv in Hs as [Hs _]. rewrite sibling_output in Hs. congruence.
      * rewrite O2 in Heo by done. by eapply Hp.
Qed.

Definition pinned_in (t : Tracker) (n : string) : Prop := ∃ e, t !! n = Some e ∧ Pinned_ e = true.

Lemma op_keeps_pin t o x : ¬ unpins x o → pinned_in t (out x) → pinned_in (apply_track t o) (out x).
Proof.
  intros Ho (e & He & Hp). unfold pinned_in. destruct o as [m now|m now|m]; simpl.
  - destruct (Touch_lookup t m now (out x)) as [T1 T2]. destruct (decide (acts t m (out x))); [rewrite T1 by done|rewrite T2 by done; eauto].
    eexists. split; [done|]. simpl. by rewrite (pinned_entry _ _ _ He).
  - destruct (Pin_lookup t m now (out x)) as [T1 T2]. destruct (decide (acts t m (out x))); [rewrite T1 by done; eauto|rewrite T2 by done; eauto].
  - rewrite (unpin_else t x m) by (first [done|by left]). eauto.
Qed.

Lemma op_keeps_tracked t o n : is_Some (t !! n) → is_Some (apply_track t o !! n).
Proof.
  intros [e He]. destruct o as [m now|m now|m]; simpl.
  - destruct (Touch_lookup t m now n) as [T1 T2]. destruct (decide (acts t m n)); [rewrite T1 by done|rewrite T2 by done]; eauto.
  - destruct (Pin_lookup t m now n) as [T1 T2]. destruct (decide (acts t m n)); [rewrite T1 by done|rewrite T2 by done]; eauto.
  - rewrite Unpin_lookup, He. case_decide; eauto.
Qed.

(** ** The expiry loop keeps families whole *)

Section Loop.
(** The families the sweep keeps whole. *)
Context (F : string → Prop).

(** The output of a family whose deps are still to be processed. *)
Definition out_state (rest : list string) (x : expiry) (X : string) : Prop :=
  st_refs (x_store x) !! out X = None ∨ out X ∈ rest ∨ out X ∈ x_failed x ∨ pinned_in (x_track x) (out X).

Record loop_ok (rest : list string) (x : expiry) : Prop := {
  lk_family : whole_in F (st_refs (x_store x));
  lk_tracked : ∀ n, n ∈ rest → is_Some (x_track x !! n);
  lk_deps : ∀ X, F X → deps X ∈ rest → pin_covers (x_track x) X ∧ out_state rest x X }.

(** An output never follows its deps. *)
Definition ordered (rest : list string) : Prop := ∀ X l1 l2, rest = l1 ++ deps X :: l2 → out X ∉ l2.

Lemma ordered_tail n rest : ordered (n :: rest) → ordered rest.
Proof. intros H X l1 l2 ->. by apply (H X (n :: l1)). Qed.

Lemma out_state_next n rest x x' X :
  out_state (n :: rest) x X → (n = out X → st_refs (x_store x') !! out X = None ∨ out X ∈ x_failed x' ∨ pinned_in (x_track x') (out X)) →
  (st_refs (x_store x) !! out X = None → st_refs (x_store x') !! out X = None) → x_failed x ⊆ x_failed x' →
  (n ≠ out X → pinned_in (x_track x) (out X) → pinned_in (x_track x') (out X)) → out_state rest x' X.
Proof.
  intros H Hn Hst Hf Hp. unfold out_state. destruct (decide (n = out X)) as [Heq|Hne].
  - destruct (Hn Heq) as [?|[?|?]]; auto.
  - destruct H as [H|[H|[H|H]]]; [auto| |auto|auto]. apply elem_of_cons in H as [H|H]; [by rewrite H in Hne|auto].
Qed.

(** What others write. *)
Definition spares (os : list other_op) : Prop := ∀ X o, F X → o ∈ os → ¬ meddles X o.

Lemma write_elsewhere w st X : F X → (∀ n, (∃ k, w = WPut n k) ∨ w = WDel n → ¬ of_family X n) → ∀ n, of_family X n → st_refs (log_wop w st) !! n = st_refs st !! n.
Proof.
  intros HF Hw n Hn. destruct w as [m k|m]; simpl; [rewrite lookup_insert_ne|rewrite lookup_delete_ne]; try done; intros ->; destruct (Hw n); eauto.
Qed.

Lemma other_stores x o : (∀ X, F X → ¬ meddles X o) → whole_in F (st_refs (x_store x)) →
  crash_safe (whole_in F) (x_store x) (x_store (apply_other x o)) ∧
  ∀ X n, F X → of_family X n → st_refs (x_store (apply_other x o)) !! n = st_refs (x_store x) !! n.
Proof.
  intros Ho Hw. assert (Hlog : ∀ w, (∀ X n, F X → of_family X n → st_refs (log_wop w (x_store x)) !! n = st_refs (x_store x) !! n) →
    crash_safe (whole_in F) (x_store x) (log_wop w (x_store x))).
  { intros w Hs. exists [w]. split; [apply extends_log|]. intros [|i]; [done|]. simpl. rewrite take_nil. by apply (whole_same F (st_refs (x_store x)) (st_refs (log_wop w (x_store x)))). }
  destruct o as [o|n k|n]; simpl; [split; [by apply crash_safe_refl|done]|..].
  - unfold PutRef. repeat case_match; simpl; try (split; [by apply crash_safe_refl|done]).
    assert (Hs : ∀ X m, F X → of_family X m → st_refs (log_wop (WPut n k) (x_store x)) !! m = st_refs (x_store x) !! m).
    { intros X m HF Hm. apply (write_elsewhere _ _ X); [done| |done]. intros ? [[? [= <- <-]]|]; [by apply Ho|done]. }
    split; [by apply Hlog|exact Hs].
  - unfold DeleteRef. repeat case_match; simpl; try (split; [by apply crash_safe_refl|done]).
    assert (Hs : ∀ X m, F X → of_family X m → st_refs (log_wop (WDel n) (x_store x)) !! m = st_refs (x_store x) !! m).
    { intros X m HF Hm. apply (write_elsewhere _ _ X); [done| |done]. intros ? [[? ?]|[= <-]]; [done|by apply Ho]. }
    split; [by apply Hlog|exact Hs].
Qed.

Lemma other_op_ok rest x o : (∀ X, F X → ¬ meddles X o) → loop_ok rest x →
  loop_ok rest (apply_other x o) ∧ crash_safe (whole_in F) (x_store x) (x_store (apply_other x o)).
Proof.
  intros Ho [H1 H2 H3]. destruct (other_stores x o Ho H1) as [Hc Hs]. split; [|done]. split; [by apply (crash_safe_end _ _ _ Hc)|..].
  - intros n Hn. destruct o; simpl; [apply op_keeps_tracked|..]; auto.
  - intros X HF HX. destruct (H3 X HF HX) as [Hp Hx]. split.
    + destruct o; simpl; [apply op_pin_covers; [by apply Ho|done]|done..].
    + unfold out_state in *. rewrite (Hs X) by (first [done|by left]). destruct Hx as [?|[?|[?|Hx]]]; [by left|by right; left|right; right; left; by destruct o|].
      right. right. right. destruct o; simpl; [apply op_keeps_pin; [by apply (Ho X)|done]|done..].
Qed.

Lemma others_ok rest os : ∀ x, spares os → loop_ok rest x →
  loop_ok rest (others x os) ∧ crash_safe (whole_in F) (x_store x) (x_store (others x os)).
Proof.
  induction os as [|o os IH]; intros x Hos Hl; [split; [done|apply crash_safe_refl, Hl]|].
  destruct (other_op_ok rest x o) as [Hl' Hc]; [intros X HF; apply Hos; [done|by left]|done|].
  destruct (IH (apply_other x o)) as [Hl2 Hc2]; [intros X o' HF Ho'; apply Hos; [done|by right]|done|]. split; [exact Hl2|by eapply crash_safe_trans].
Qed.

(** Skipping a name. *)
Lemma skip_ok n rest x :
  (∀ X, n = out X → out X ∈ x_failed x ∨ pinned_in (x_track x) (out X)) → loop_ok (n :: rest) x → loop_ok rest x.
Proof.
  intros Hn [H1 H2 H3]. split; [done|by intros m Hm; apply H2; right|]. intros X HF HX.
  destruct (H3 X HF ltac:(by right)) as [Hp Ho]. split; [done|]. eapply out_state_next; [exact Ho| |done|done|done].
  intros E. destruct (Hn X E); auto.
Qed.

Lemma deps_out_failed n x : (match depsOutputName n with Some o => bool_decide (o ∈ x_failed x) | None => false end) = true → ∀ X, n ≠ out X.
Proof. intros H X ->. unfold depsOutputName in H. change gcDepsPrefix with depsPrefix in H. by rewrite (cut_output_deps X) in H. Qed.

(** Deleting a name that is tracked and not pinned. *)
Lemma delete_ok n rest x e :
  ordered (n :: rest) → NoDup (n :: rest) → loop_ok (n :: rest) x → x_track x !! n = Some e → Pinned_ e = false →
  (∀ X, n = deps X → out X ∉ x_failed x) →
  let x' := mkExp (Forget (x_track x) n) (log_wop (WDel n) (x_store x)) (x_failed x) (S (x_deleted x)) in
  loop_ok rest x' ∧ crash_safe (whole_in F) (x_store x) (x_store x').
Proof.
  intros Hord Hnd Hl He Hpe Hskip x'. apply NoDup_cons in Hnd as [Hnin Hnd]. destruct Hl as [H1 H2 H3].
  assert (Hfam : whole_in F (delete n (st_refs (x_store x)))).
  { destruct (CutPrefix n depsPrefix) as [X|] eqn:EX.
    - apply CutPrefix_Some in EX as ->. apply whole_delete_deps; [|done]. intros HF. destruct (H3 X HF ltac:(left)) as [(ed & Hd & Hpc) Ho].
      destruct Ho as [?|[Ho|[Ho|(eo & Heo & Hpo)]]]; [done| |by destruct (Hskip X eq_refl)|].
      + exfalso. apply elem_of_cons in Ho as [Ho|Ho]; [by apply output_deps_ne in Ho|]. by apply (Hord X [] rest).
      + rewrite He in Hd. injection Hd as <-. rewrite (Hpc eo Heo Hpo) in Hpe. done.
    - apply whole_delete_other; [|done]. intros X ->. by rewrite CutPrefix_app in EX. }
  split; [|by apply crash_safe_delete]. split; simpl; [done|..].
  - intros m Hm. unfold Forget. rewrite lookup_delete_ne by (by intros <-). apply H2. by right.
  - intros X HF HX. destruct (H3 X HF ltac:(by right)) as [(ed & Hd & Hpc) Ho]. split.
    + exists ed. unfold Forget. rewrite lookup_delete_ne by (intros E; by rewrite E in Hnin). split; [done|].
      intros eo [_ Heo]%lookup_delete_Some. by apply Hpc.
    + eapply out_state_next; [exact Ho| | |done|]; simpl.
      * intros ->. left. apply lookup_delete_eq.
      * intros Hn. rewrite lookup_delete. by case_decide.
      * intros Hne (eo & Heo & Hpo). exists eo. unfold Forget. by rewrite lookup_delete_ne.
Qed.

Lemma expire_one_ok n rest x :
  ordered (n :: rest) → NoDup (n :: rest) → loop_ok (n :: rest) x →
  loop_ok rest (expire_one x n) ∧ crash_safe (whole_in F) (x_store x) (x_store (expire_one x n)).
Proof.
  intros Hord Hnd Hl. unfold expire_one. pose proof (crash_safe_refl (whole_in F) (x_store x) (lk_family _ _ Hl)) as Hrefl.
  destruct (match depsOutputName n with Some _ => _ | None => _ end) eqn:Esk.
  { split; [|done]. eapply skip_ok; [|exact Hl]. intros X HX. by destruct (deps_out_failed n x Esk X). }
  unfold Tracker_Get. destruct (lk_tracked _ _ Hl n ltac:(left)) as [e He]. rewrite He. destruct (Pinned_ e) eqn:Ep.
  { split; [|done]. eapply skip_ok; [|exact Hl]. intros X <-. right. by exists e. }
  destruct (DeleteRef n (x_store x)) as [st r] eqn:Ed. apply DeleteRef_spec in Ed as [[-> ->]|[[er ->] ->]].
  - apply (delete_ok n rest x e); try done.
    intros X -> Hf. unfold depsOutputName in Esk. change gcDepsPrefix with depsPrefix in Esk.
    rewrite CutPrefix_app in Esk. by apply bool_decide_eq_false in Esk.
  - split; [|done]. destruct Hl as [H1 H2 H3].
    eapply skip_ok; [|split; simpl; [exact H1|exact H2|]].
    + intros X ->. left. cbn [x_failed]. change gcOutputPrefix with outputPrefix. rewrite HasPrefix_app. by apply elem_of_union_l, elem_of_singleton_2.
    + intros X HF HX. destruct (H3 X HF HX) as [Hp Ho]. split; [done|]. destruct Ho as [?|[?|[Ho|?]]]; unfold out_state; auto.
      right. right. left. cbn [x_failed] in *. destruct (HasPrefix n gcOutputPrefix); [by apply elem_of_union_r|done].
Qed.

Lemma expire_all_ok rest between : ∀ x,
  ordered rest → NoDup rest → (∀ n, spares (between n)) → loop_ok rest x →
  crash_safe (whole_in F) (x_store x) (x_store (expire_all x rest between)).
Proof.
  induction rest as [|n rest IH]; intros x Hord Hnd Hb Hl; simpl; [apply crash_safe_refl, Hl|].
  destruct (others_ok (n :: rest) (between n) x (Hb n) Hl) as [Hl1 Hc1].
  destruct (expire_one_ok n rest _ Hord Hnd Hl1) as [Hl' Hc].
  eapply crash_safe_trans; [exact Hc1|]. eapply crash_safe_trans; [exact Hc|]. apply IH; try done; [by eapply ordered_tail|by apply NoDup_cons in Hnd as [_ ?]].
Qed.
End Loop.

Lemma Expired_ordered t retention now : ordered (Expired t retention now).
Proof.
  intros X l1 l2 E Hin. assert (Ho : out X ∈ l1).
  { eapply Expired_order; [exact E|apply HasPrefix_app| |rewrite E; apply elem_of_app; right; by right].
    apply not_true_iff_false. rewrite HasPrefix_iff. intros [r Hr]. by apply output_deps_ne in Hr. }
  pose proof (Expired_NoDup t retention now) as Hnd. rewrite E in Hnd. apply NoDup_app in Hnd as (_ & Hd & _).
  apply (Hd _ Ho). by right.
Qed.

Lemma output_not_protected x : Protected (out x) = false.
Proof. done. Qed.

(** An output and its deps, both tracked, with the same clock and pin. *)
Definition in_step (t : Tracker) (X : string) : Prop :=
  ∀ ed eo, t !! deps X = Some ed → t !! out X = Some eo → LastAccess ed = LastAccess eo ∧ Pinned_ ed = Pinned_ eo.

(** The sweep starts its loop with these families whole. *)
Lemma expire_start (F : string → Prop) x retention now :
  (∀ X, F X → is_Some (st_refs (x_store x) !! out X) → is_Some (x_track x !! out X)) → (∀ X, F X → in_step (x_track x) X) → whole_in F (st_refs (x_store x)) →
  loop_ok F (Expired (x_track x) retention now) x.
Proof.
  intros Ht Hs Hf. split; [done|..].
  - intros n (e & He & _)%elem_of_Expired. eauto.
  - intros X HF (ed & Hd & Hp & _ & Hl)%elem_of_Expired. split.
    + exists ed. split; [done|]. intros eo Heo Hpo. destruct (Hs X HF _ _ Hd Heo). congruence.
    + destruct (x_track x !! out X) as [eo|] eqn:Heo.
      * right. left. apply elem_of_Expired. exists eo. destruct (Hs X HF _ _ Hd Heo) as [H1 H2].
        split_and!; [done|congruence|apply output_not_protected|lia].
      * left. apply eq_None_not_Some. intros H%Ht; [|done]. rewrite Heo in H. by destruct H.
Qed.

Lemma others_track os n : ∀ x, is_Some (x_track x !! n) → is_Some (x_track (others x os) !! n).
Proof. induction os as [|o os IH]; intros x Hx; [done|]. apply IH. destruct o; simpl; [by apply op_keeps_tracked|done..]. Qed.

Lemma others_store (F : string → Prop) os : ∀ x, spares F os → whole_in F (st_refs (x_store x)) →
  crash_safe (whole_in F) (x_store x) (x_store (others x os)) ∧
  ∀ X n, F X → of_family X n → st_refs (x_store (others x os)) !! n = st_refs (x_store x) !! n.
Proof.
  induction os as [|o os IH]; intros x Hos Hw; [split; [by apply crash_safe_refl|done]|].
  destruct (other_stores F x o) as [Hc Hs]; [intros X HF; apply Hos; [done|by left]|done|].
  destruct (IH (apply_other x o)) as [Hc' Hs']; [intros X o' HF Ho'; apply Hos; [done|by right]|by apply (crash_safe_end _ _ _ Hc)|].
  split; [by eapply crash_safe_trans|]. intros X n HF Hn. change (others x (o :: os)) with (others (apply_other x o) os). by rewrite (Hs' X), (Hs X).
Qed.

(** What others do at any moment of a sweep. *)
Definition during (env : sweep_env) (o : other_op) : Prop := o ∈ ev_listed env ∨ o ∈ ev_seeded env ∨ ∃ n, o ∈ ev_between env n.

(** A family that is whole when the sweep begins, whose tracked clocks and pins
    agree when the expiry list is made, and that nobody writes, deletes or
    unpins meanwhile. *)
Definition left_alone (g : Sweeper) (env : sweep_env) (X : string) : Prop :=
  (is_Some (st_refs (g_refs g) !! out X) → is_Some (st_refs (g_refs g) !! deps X)) ∧
  in_step (x_track (at_expiry g env)) X ∧ ∀ o, during env o → ¬ meddles X o.

Lemma alone_spares g env os : (∀ o, o ∈ os → during env o) → spares (left_alone g env) os.
Proof. intros H X o (_ & _ & Hm) Ho. by apply Hm, H. Qed.

(** From the listing to the expiry list. *)
Lemma at_expiry_ok g env : let F := left_alone g env in let x := at_expiry g env in
  crash_safe (whole_in F) (g_refs g) (x_store x) ∧ ∀ X, F X → is_Some (st_refs (x_store x) !! out X) → is_Some (x_track x !! out X).
Proof.
  intros F x. unfold x, at_expiry. set (x0 := mkExp (g_track g) (g_refs g) ∅ 0). assert (H0 : whole_in F (st_refs (x_store x0))) by (intros X [H _]; apply H).
  assert (S1 : spares F (ev_listed env)) by (apply alone_spares; intros o Ho; by left). assert (S2 : spares F (ev_seeded env)) by (apply alone_spares; intros o Ho; right; by left).
  destruct (others_store F (ev_listed env) x0 S1 H0) as [Hc1 Hs1]. pose proof (crash_safe_end _ _ _ Hc1) as H1.
  set (x1 := others x0 (ev_listed env)) in *. set (x2 := set_track _ x1). destruct (others_store F (ev_seeded env) x2 S2 H1) as [Hc2 Hs2].
  split; [by eapply crash_safe_trans|]. intros X HF. rewrite (Hs2 X _ HF ltac:(by left)). change (x_store x2) with (x_store x1). rewrite (Hs1 X _ HF ltac:(by left)). simpl. intros Ho.
  apply others_track. simpl. rewrite Reconcile_lookup, decide_True; [eauto|]. by apply elem_of_elements, elem_of_dom.
Qed.

Lemma sweep_store g env force :
  g_refs (Sweep g env force).1 = g_refs g ∨ g_refs (Sweep g env force).1 = x_store (expire_phase g env).
Proof. unfold Sweep, failSweep. repeat case_match; simpl; auto. Qed.

(** [C39] A sweep orphans no output that is left alone: when a family was whole
    in the store as the sweep began, its output and deps have the same clock and
    pin in the tracker when the expiry list is made (if both are tracked), and
    nobody writes or deletes its references or unpins it while the sweep runs,
    then its output is never without its deps, at every moment of the sweep and
    so after a crash inside it, whatever others do to the tracker and to the
    references of other families meanwhile, and whichever deletions fail. *)
Theorem sweep_keeps_families g env force :
  crash_safe (whole_in (left_alone g env)) (g_refs g) (g_refs (Sweep g env force).1).
Proof.
  destruct (at_expiry_ok g env) as [Hc Ht]. destruct (sweep_store g env force) as [-> | ->]; [apply crash_safe_refl; intros X [H _]; apply H|].
  eapply crash_safe_trans; [exact Hc|]. unfold expire_phase. apply expire_all_ok.
  - apply Expired_ordered.
  - apply Expired_NoDup.
  - intros n. apply alone_spares. intros o Ho. right. right. eauto.
  - apply expire_start; [exact Ht|by intros X (_ & H & _)|by apply (crash_safe_end _ _ _ Hc)].
Qed.

(** ** What is deleted *)

Lemma expire_one_refs x n m :
  st_refs (x_store (expire_one x n)) !! m = st_refs (x_store x) !! m ∨
  (m = n ∧ st_refs (x_store (expire_one x n)) !! m = None).
Proof.
  unfold expire_one. repeat case_match; simpl; auto;
    match goal with H : DeleteRef _ _ = _ |- _ => apply DeleteRef_spec in H as [[? ->]|[_ ->]]; [|by auto] end; try (by left).
  all: simpl; destruct (decide (m = n)) as [->|Hne]; [right; split; [done|apply lookup_delete_eq]|left; by apply lookup_delete_ne].
Qed.

(** Others neither put nor delete [n]. *)
Definition writes (n : string) (o : other_op) : Prop := match o with OTrack _ => False | OPut m _ | ODel m => m = n end.

Lemma others_refs os m : (∀ o, o ∈ os → ¬ writes m o) → ∀ x, st_refs (x_store (others x os)) !! m = st_refs (x_store x) !! m.
Proof.
  induction os as [|o os IH]; intros Ho x; [done|]. change (others x (o :: os)) with (others (apply_other x o) os). rewrite IH by (intros o' H; apply Ho; by right).
  specialize (Ho o ltac:(left)). destruct o as [o|n k|n]; simpl in *; [done|unfold PutRef|unfold DeleteRef]; repeat case_match; try done; simpl; [by rewrite lookup_insert_ne|by rewrite lookup_delete_ne].
Qed.

Lemma expire_all_refs ns between m : (∀ n o, o ∈ between n → ¬ writes m o) → ∀ x,
  st_refs (x_store (expire_all x ns between)) !! m = st_refs (x_store x) !! m ∨
  (m ∈ ns ∧ st_refs (x_store (expire_all x ns between)) !! m = None).
Proof.
  intros Hw. induction ns as [|n ns IH]; intros x; simpl; [by left|]. destruct (IH (expire_one (others x (between n)) n)) as [E|[Hm E]].
  - rewrite E. destruct (expire_one_refs (others x (between n)) n m) as [->|[-> ?]]; [left; apply others_refs; apply Hw|right; split; [left|done]].
  - right. split; [by right|done].
Qed.

(** [C40] A sweep deletes only cold references: one that nobody else writes or
    deletes while it runs either keeps its value, or is not protected and was
    tracked, unpinned and idle for longer than the retention when the expiry
    list was made. *)
Theorem sweep_deletes_only_cold g env force n :
  (∀ o, during env o → ¬ writes n o) →
  st_refs (g_refs (Sweep g env force).1) !! n = st_refs (g_refs g) !! n ∨
  (st_refs (g_refs (Sweep g env force).1) !! n = None ∧ Protected n = false ∧
   ∃ e, x_track (at_expiry g env) !! n = Some e ∧ Pinned_ e = false ∧ (LastAccess e < ev_now env - g_retention g)%Z).
Proof.
  intros Hd. destruct (sweep_store g env force) as [-> | ->]; [by left|]. unfold expire_phase.
  destruct (expire_all_refs (Expired (x_track (at_expiry g env)) (g_retention g) (ev_now env)) (ev_between env) n) with (x := at_expiry g env) as [E|[Hn E]].
  - intros m o Ho. apply Hd. right. right. eauto.
  - left. rewrite E. unfold at_expiry. rewrite others_refs by (intros o Ho; apply Hd; right; by left). simpl. by rewrite others_refs by (intros o Ho; apply Hd; by left).
  - right. split; [exact E|]. apply elem_of_Expired in Hn as (e & He & Hp & Hq & Hl). split; [done|]. eauto.
Qed.

(** ** The cache directory *)

Lemma prefix_byte s p c : HasPrefix s p = true → ContainsByte p c = true → ContainsByte s c = true.
Proof. rewrite HasPrefix_iff. intros [r ->] H. by rewrite ContainsByte_append, H. Qed.

Lemma suffix_byte s p c : HasSuffix s p = true → ContainsByte p c = true → ContainsByte s c = true.
Proof. rewrite HasSuffix_iff. intros [r ->] H. by rewrite ContainsByte_append, H, orb_true_r. Qed.

Lemma parseTreeKey_key k : parseTreeKey (key_String k) = Some k ∧ parseTreeKey (key_String k +:+ ".bin") = Some k.
Proof.
  unfold parseTreeKey. assert (H : HasSuffix (key_String k) ".bin" = false).
  { apply not_true_iff_false. intros H. eapply (suffix_byte _ _ "."%char) in H; [|done]. by rewrite key_String_no_byte in H. }
  rewrite H. replace (HasSuffix (key_String k +:+ ".bin") ".bin") with true by (symmetry; apply HasSuffix_iff; eauto).
  rewrite TrimSuffix_app. split; apply parseHexKey_String.
Qed.

Lemma not_staging k s : s = key_String k ∨ s = key_String k +:+ ".bin" → HasPrefix s "staging-" || HasPrefix s "bin-staging-" = false.
Proof.
  intros Hs. assert (H : ContainsByte s "-" = false).
  { destruct Hs as [-> | ->]; [|rewrite ContainsByte_append, orb_false_r]; by apply key_String_no_byte. }
  apply orb_false_iff. split; apply not_true_iff_false; intros Hp; eapply (prefix_byte _ _ "-"%char) in Hp; try done; congruence.
Qed.

(** Sweeping the cache keeps what is in use: the directory of a tree, and
    the companion directory staged with it, are never removed while the store
    has the tree's object or cannot tell. *)
Theorem trees_in_use_kept cacheDir has now trees cache k name :
  has k ≠ Ok false → name = key_String k ∨ name = key_String k +:+ ".bin" →
  name ∉ (sweepTrees cacheDir has now trees cache).1.
Proof.
  intros Hk Hname. unfold sweepTrees. destruct (String.eqb cacheDir ""); simpl; [by intros ?%elem_of_nil|].
  intros (e & -> & He)%list_elem_of_fmap. apply list_elem_of_In, filter_In in He as [_ He].
  apply andb_true_iff in He as [Hd _]. unfold tree_dead in Hd. destruct (de_isdir e); [|done]. simpl in Hd.
  rewrite (not_staging k) in Hd by done.
  assert (Hp : parseTreeKey (de_name e) = Some k) by (destruct Hname as [-> | ->]; apply parseTreeKey_key).
  rewrite Hp in Hd. destruct (has k) as [[]|]; done.
Qed.
End GcSweep.

(** ** Concrete sweeps *)

Section SweepDemo.
#[local] Existing Instance string_keys.
#[local] Existing Instance demo_lib.

Definition sweep_at (now : Z) : sweep_env := {|
  ev_now := now; ev_list := Ok tt; ev_listed := []; ev_seeded := []; ev_between := λ _, []; ev_status := Ok (0%Z, 0%Z); ev_worth := λ _ _, false; ev_freeBelow := false;
  ev_run := Ok (mkCycle now 0 0 0); ev_has := λ _, Ok true; ev_trees := None; ev_cache := None; ev_dirSize := 0 |}.

Definition zero_stats : Stats := mkStats 100 0 0 0 0 0 0 0 0 0 0 0 0 "" 0 0.

(** An output and its deps, under a retention of 100. *)
Definition pair_store : Store :=
  mkStore () (list_to_map [("build-output:x", "o"); ("build-output-deps:x", "d")]) [] (λ _, false) (λ _, false).

Definition sweeper (t : Tracker) : Sweeper := mkSweeper t pair_store zero_stats "" 100 ∅.

Definition old_pair : Tracker := {["build-output:x" := mkEntry 1 1 false; "build-output-deps:x" := mkEntry 1 1 false]}.

Lemma pair_alone : left_alone (sweeper old_pair) (sweep_at 1000) "x".
Proof.
  split; [intros _; vm_compute; eauto|]. split; [|intros o [Ho|[Ho|[n Ho]]]; by apply elem_of_nil in Ho].
  intros ed eo Hd Ho. vm_compute in Hd, Ho. by injection Hd as <-; injection Ho as <-.
Qed.

Lemma sweep_keeps_families_witness :
  let st := g_refs (Sweep (sweeper old_pair) (sweep_at 1000) false).1 in
  (is_Some (st_refs st !! "build-output:x") → is_Some (st_refs st !! "build-output-deps:x")) ∧ st_refs st !! "build-output:x" = None ∧ st_refs st !! "build-output-deps:x" = None.
Proof.
  intros st. split; [|split; vm_compute; reflexivity].
  apply (crash_safe_end _ _ _ (sweep_keeps_families (sweeper old_pair) (sweep_at 1000) false) "x" pair_alone).
Defined.

Lemma sweep_deletes_only_cold_witness :
  st_refs (g_refs (Sweep (sweeper old_pair) (sweep_at 50) false).1) !! "build-output:x" = Some "o".
Proof.
  destruct (sweep_deletes_only_cold (sweeper old_pair) (sweep_at 50) false "build-output:x") as [H|(_ & _ & e & He & _ & Hl)].
  - intros o [Ho|[Ho|[n Ho]]]; by apply elem_of_nil in Ho.
  - etransitivity; [exact H|vm_compute; reflexivity].
  - vm_compute in He. injection He as <-. vm_compute in Hl. discriminate Hl.
Defined.

Definition tree_key : Key := "t".
Definition tree_dirs : list dir_entry := [mkDir (key_String tree_key) true None true].

Lemma trees_in_use_kept_witness : key_String tree_key ∉ (sweepTrees "cache" (λ _, Ok true) 0 (Some tree_dirs) None).1.
Proof.
  apply (trees_in_use_kept "cache" (λ _, Ok true) 0 (Some tree_dirs) None tree_key).
  - discriminate.
  - left. reflexivity.
Defined.

(** Pinning an output whose deps are not tracked yet leaves the deps
    expirable: the pin is mirrored only onto a tracked sibling, so after the
    deps are seeded by the next sweep they expire on their own clock. The
    output survives, pinned, without its deps. *)
Theorem pin_orphans_deps :
  let g1 := (Sweeper_Pin (sweeper ∅) "build-output:x" 0 0).1 in
  let g2 := (Sweep g1 (sweep_at 10) false).1 in
  let g3 := (Sweep g2 (sweep_at 200) false).1 in
  is_Some (st_refs (g_refs g1) !! "build-output-deps:x") ∧ Pinned_ (entry_at (g_track g3) "build-output:x") = true ∧
  st_refs (g_refs g3) !! "build-output:x" = Some "o" ∧ st_refs (g_refs g3) !! "build-output-deps:x" = None.
Proof.
  intros g1 g2 g3. split; [by vm_compute; eexists|]. split; [vm_compute; reflexivity|]. split; vm_compute; reflexivity.
Qed.

(** A commit that publishes a family again, its deps and then its output, in
    between the two deletions of a sweep loses the deps it has just written: the
    loop looks at the pin again before it deletes, not at the last access. *)
Definition recommit : list other_op :=
  [OPut "build-output-deps:x" "d2"; OTrack (TTouch "build-output-deps:x" 999); OPut "build-output:x" "o2"; OTrack (TTouch "build-output:x" 999)].

Definition recommitting (now : Z) : sweep_env := {|
  ev_now := now; ev_list := Ok tt; ev_listed := []; ev_seeded := [];
  ev_between := λ n, if String.eqb n "build-output-deps:x" then recommit else []; ev_status := Ok (0%Z, 0%Z); ev_worth := λ _ _, false; ev_freeBelow := false;
  ev_run := Ok (mkCycle now 0 0 0); ev_has := λ _, Ok true; ev_trees := None; ev_cache := None; ev_dirSize := 0 |}.

Theorem recommit_orphaned :
  let g := (Sweep (sweeper old_pair) (recommitting 1000) false).1 in
  st_refs (g_refs g) !! "build-output:x" = Some "o2" ∧ st_refs (g_refs g) !! "build-output-deps:x" = None.
Proof. split; vm_compute; reflexivity. Qed.
End SweepDemo.
