(* ===== verification/SchedState.v ===== *)
(** * The scheduler's state (src/sched/sched.go, src/sched/node.go [node],
    src/sched/submit.go [request])

    Nodes are shared mutable objects reached through pointers, so they live in
    a heap of locations; the node table maps an identity to a location, and an
    evicted node stays in the heap as long as a request still points to it. What
    the process reads from its surroundings (the clock, the order in which Go
    visits a map, acknowledgements of the message broker, random ids, the CBOR
    codec) is the interface [SchedEnv], indexed by a counter so that every read
    may answer differently; what it sends out is a list of effects. *)
From S2P Require Import Prelude GoLib Resources Keys Wire Builddef Store Gate Commit LogBuf.
From Stdlib Require Import Ascii.
Local Open Scope string_scope.
Local Open Scope list_scope.

(** Pointers. *)
Definition loc := positive.

Section State.
Context `{SL : StoreLib}.

(** [f]/[fResolved] and [kp]/[kpResolved] are one option each; a zero
    [time.Time] is [None]; times are nanoseconds. *)
Record node := mkNode {
  n_id : kind * Key; n_name : string; n_phase : phase; n_gen : Z; n_def : string;
  n_platform : string; n_deps : gset loc; n_dependents : gset loc; n_interest : gset string;
  n_f : option Key; n_kp : option Key; n_pinnedRes : Resources; n_caches : list PinnedCache;
  n_pinInputs : list Input; n_label : string; n_runInputs : list Input; n_consecRetry : Z;
  n_consecControl : Z; n_lastResultGen : Z; n_runner : string; n_queueSeq : Z;
  n_errSummary : string; n_enqueuedAt : option Z; n_startedAt : option Z; n_doneAt : option Z;
  n_cached : bool }.

(** [target] is [nil] only before the node is joined. *)
Record request := mkReq {
  q_id : string; q_k : Key; q_platform : string; q_res : Resources; q_createdNs : Z;
  q_cancelled : bool; q_target : option loc; q_failReason : string; q_noRunnersSince : option Z }.

Record nodeLog := mkNodeLog { nl_gen : Z; nl_buf : logBuffer; nl_updated : option Z }.

(** src/wire/wire.go [FailureRecord]. *)
Record FailureRecord := mkFail {
  fr_Node : string; fr_Gen : Z; fr_Platform : string; fr_Label : string;
  fr_Origin : fail_origin; fr_Disposition : fail_disposition; fr_ErrSummary : string;
  fr_ConsecRetry : Z; fr_ConsecCtrl : Z; fr_BackoffMs : Z;
  fr_RequestIDs : list string; fr_ForF : list string; fr_Result : option Result;
  fr_EnqueuedNs : Z; fr_StartedNs : Z; fr_FailedNs : Z;
  fr_LogHead : bytes; fr_LogGap : Z; fr_LogTail : bytes; fr_LogMissing : bool }.

(** A pending re-enqueue timer: node, its identity and generation, delay. *)
Record timer := mkTimer { t_node : loc; t_id : kind * Key; t_gen : Z; t_delay : Z }.

(** What leaves the process. *)
Inductive effect :=
| EJob (subject msgid : string) (j : Job) (seq : Z)
| EFailure (subject msgid : string) (rec : FailureRecord)
| EStatus (name : string) (p : phase) (gen : Z) (runner err : string) (startedNs : Z)
| EPurge (name : string)
| EDeleteMsg (seq : Z)
| EReqStatus (id : string) (phase : string) (counts : Counts)
| ETouch (names : list string).

(** The part of [Sched] the graph operations work on; [g_ctxDone] is
    [s.ctx.Err() != nil]. *)
Record Sched := mkSched {
  g_store : Store; g_heap : gmap loc node; g_next : loc; g_nodes : gmap (kind * Key) loc;
  g_requests : gmap string request; g_fleet : gmap string RunnerInfo;
  g_logs : gmap string nodeLog; g_lanes : gset string; g_closed : bool; g_ctxDone : bool;
  g_retryBase : Z; g_noRunnerAfter : Z; g_version : Z; g_ticks : nat; g_timers : list timer;
  g_out : list effect }.

(** ** Field updates *)

Definition set_n_phase (v : phase) (r : node) : node :=
  mkNode (n_id r) (n_name r) v (n_gen r) (n_def r) (n_platform r) (n_deps r) (n_dependents r) (n_interest r) (n_f r) (n_kp r) (n_pinnedRes r) (n_caches r) (n_pinInputs r) (n_label r) (n_runInputs r) (n_consecRetry r) (n_consecControl r) (n_lastResultGen r) (n_runner r) (n_queueSeq r) (n_errSummary r) (n_enqueuedAt r) (n_startedAt r) (n_doneAt r) (n_cached r).
Definition set_n_gen (v : Z) (r : node) : node :=
  mkNode (n_id r) (n_name r) (n_phase r) v (n_def r) (n_platform r) (n_deps r) (n_dependents r) (n_interest r) (n_f r) (n_kp r) (n_pinnedRes r) (n_caches r) (n_pinInputs r) (n_label r) (n_runInputs r) (n_consecRetry r) (n_consecControl r) (n_lastResultGen r) (n_runner r) (n_queueSeq r) (n_errSummary r) (n_enqueuedAt r) (n_startedAt r) (n_doneAt r) (n_cached r).
Definition set_n_def (v : string) (r : node) : node :=
  mkNode (n_id r) (n_name r) (n_phase r) (n_gen r) v (n_platform r) (n_deps r) (n_dependents r) (n_interest r) (n_f r) (n_kp r) (n_pinnedRes r) (n_caches r) (n_pinInputs r) (n_label r) (n_runInputs r) (n_consecRetry r) (n_consecControl r) (n_lastResultGen r) (n_runner r) (n_queueSeq r) (n_errSummary r) (n_enqueuedAt r) (n_startedAt r) (n_doneAt r) (n_cached r).
Definition set_n_platform (v : string) (r : node) : node :=
  mkNode (n_id r) (n_name r) (n_phase r) (n_gen r) (n_def r) v (n_deps r) (n_dependents r) (n_interest r) (n_f r) (n_kp r) (n_pinnedRes r) (n_caches r) (n_pinInputs r) (n_label r) (n_runInputs r) (n_consecRetry r) (n_consecControl r) (n_lastResultGen r) (n_runner r) (n_queueSeq r) (n_errSummary r) (n_enqueuedAt r) (n_startedAt r) (n_doneAt r) (n_cached r).
Definition set_n_deps (v : gset loc) (r : node) : node :=
  mkNode (n_id r) (n_name r) (n_phase r) (n_gen r) (n_def r) (n_platform r) v (n_dependents r) (n_interest r) (n_f r) (n_kp r) (n_pinnedRes r) (n_caches r) (n_pinInputs r) (n_label r) (n_runInputs r) (n_consecRetry r) (n_consecControl r) (n_lastResultGen r) (n_runner r) (n_queueSeq r) (n_errSummary r) (n_enqueuedAt r) (n_startedAt r) (n_doneAt r) (n_cached r).
Definition set_n_dependents (v : gset loc) (r : node) : node :=
  mkNode (n_id r) (n_name r) (n_phase r) (n_gen r) (n_def r) (n_platform r) (n_deps r) v (n_interest r) (n_f r) (n_kp r) (n_pinnedRes r) (n_caches r) (n_pinInputs r) (n_label r) (n_runInputs r) (n_consecRetry r) (n_consecControl r) (n_lastResultGen r) (n_runner r) (n_queueSeq r) (n_errSummary r) (n_enqueuedAt r) (n_startedAt r) (n_doneAt r) (n_cached r).
Definition set_n_interest (v : gset string) (r : node) : node :=
  mkNode (n_id r) (n_name r) (n_phase r) (n_gen r) (n_def r) (n_platform r) (n_deps r) (n_dependents r) v (n_f r) (n_kp r) (n_pinnedRes r) (n_caches r) (n_pinInputs r) (n_label r) (n_runInputs r) (n_consecRetry r) (n_consecControl r) (n_lastResultGen r) (n_runner r) (n_queueSeq r) (n_errSummary r) (n_enqueuedAt r) (n_startedAt r) (n_doneAt r) (n_cached r).
Definition set_n_f (v : option Key) (r : node) : node :=
  mkNode (n_id r) (n_name r) (n_phase r) (n_gen r) (n_def r) (n_platform r) (n_deps r) (n_dependents r) (n_interest r) v (n_kp r) (n_pinnedRes r) (n_caches r) (n_pinInputs r) (n_label r) (n_runInputs r) (n_consecRetry r) (n_consecControl r) (n_lastResultGen r) (n_runner r) (n_queueSeq r) (n_errSummary r) (n_enqueuedAt r) (n_startedAt r) (n_doneAt r) (n_cached r).
Definition set_n_kp (v : option Key) (r : node) : node :=
  mkNode (n_id r) (n_name r) (n_phase r) (n_gen r) (n_def r) (n_platform r) (n_deps r) (n_dependents r) (n_interest r) (n_f r) v (n_pinnedRes r) (n_caches r) (n_pinInputs r) (n_label r) (n_runInputs r) (n_consecRetry r) (n_consecControl r) (n_lastResultGen r) (n_runner r) (n_queueSeq r) (n_errSummary r) (n_enqueuedAt r) (n_startedAt r) (n_doneAt r) (n_cached r).
Definition set_n_pinnedRes (v : Resources) (r : node) : node :=
  mkNode (n_id r) (n_name r) (n_phase r) (n_gen r) (n_def r) (n_platform r) (n_deps r) (n_dependents r) (n_interest r) (n_f r) (n_kp r) v (n_caches r) (n_pinInputs r) (n_label r) (n_runInputs r) (n_consecRetry r) (n_consecControl r) (n_lastResultGen r) (n_runner r) (n_queueSeq r) (n_errSummary r) (n_enqueuedAt r) (n_startedAt r) (n_doneAt r) (n_cached r).
Definition set_n_caches (v : list PinnedCache) (r : node) : node :=
  mkNode (n_id r) (n_name r) (n_phase r) (n_gen r) (n_def r) (n_platform r) (n_deps r) (n_dependents r) (n_interest r) (n_f r) (n_kp r) (n_pinnedRes r) v (n_pinInputs r) (n_label r) (n_runInputs r) (n_consecRetry r) (n_consecControl r) (n_lastResultGen r) (n_runner r) (n_queueSeq r) (n_errSummary r) (n_enqueuedAt r) (n_startedAt r) (n_doneAt r) (n_cached r).
Definition set_n_pinInputs (v : list Input) (r : node) : node :=
  mkNode (n_id r) (n_name r) (n_phase r) (n_gen r) (n_def r) (n_platform r) (n_deps r) (n_dependents r) (n_interest r) (n_f r) (n_kp r) (n_pinnedRes r) (n_caches r) v (n_label r) (n_runInputs r) (n_consecRetry r) (n_consecControl r) (n_lastResultGen r) (n_runner r) (n_queueSeq r) (n_errSummary r) (n_enqueuedAt r) (n_startedAt r) (n_doneAt r) (n_cached r).
Definition set_n_label (v : string) (r : node) : node :=
  mkNode (n_id r) (n_name r) (n_phase r) (n_gen r) (n_def r) (n_platform r) (n_deps r) (n_dependents r) (n_interest r) (n_f r) (n_kp r) (n_pinnedRes r) (n_caches r) (n_pinInputs r) v (n_runInputs r) (n_consecRetry r) (n_consecControl r) (n_lastResultGen r) (n_runner r) (n_queueSeq r) (n_errSummary r) (n_enqueuedAt r) (n_startedAt r) (n_doneAt r) (n_cached r).
Definition set_n_runInputs (v : list Input) (r : node) : node :=
  mkNode (n_id r) (n_name r) (n_phase r) (n_gen r) (n_def r) (n_platform r) (n_deps r) (n_dependents r) (n_interest r) (n_f r) (n_kp r) (n_pinnedRes r) (n_caches r) (n_pinInputs r) (n_label r) v (n_consecRetry r) (n_consecControl r) (n_lastResultGen r) (n_runner r) (n_queueSeq r) (n_errSummary r) (n_enqueuedAt r) (n_startedAt r) (n_doneAt r) (n_cached r).
Definition set_n_consecRetry (v : Z) (r : node) : node :=
  mkNode (n_id r) (n_name r) (n_phase r) (n_gen r) (n_def r) (n_platform r) (n_deps r) (n_dependents r) (n_interest r) (n_f r) (n_kp r) (n_pinnedRes r) (n_caches r) (n_pinInputs r) (n_label r) (n_runInputs r) v (n_consecControl r) (n_lastResultGen r) (n_runner r) (n_queueSeq r) (n_errSummary r) (n_enqueuedAt r) (n_startedAt r) (n_doneAt r) (n_cached r).
Definition set_n_consecControl (v : Z) (r : node) : node :=
  mkNode (n_id r) (n_name r) (n_phase r) (n_gen r) (n_def r) (n_platform r) (n_deps r) (n_dependents r) (n_interest r) (n_f r) (n_kp r) (n_pinnedRes r) (n_caches r) (n_pinInputs r) (n_label r) (n_runInputs r) (n_consecRetry r) v (n_lastResultGen r) (n_runner r) (n_queueSeq r) (n_errSummary r) (n_enqueuedAt r) (n_startedAt r) (n_doneAt r) (n_cached r).
Definition set_n_lastResultGen (v : Z) (r : node) : node :=
  mkNode (n_id r) (n_name r) (n_phase r) (n_gen r) (n_def r) (n_platform r) (n_deps r) (n_dependents r) (n_interest r) (n_f r) (n_kp r) (n_pinnedRes r) (n_caches r) (n_pinInputs r) (n_label r) (n_runInputs r) (n_consecRetry r) (n_consecControl r) v (n_runner r) (n_queueSeq r) (n_errSummary r) (n_enqueuedAt r) (n_startedAt r) (n_doneAt r) (n_cached r).
Definition set_n_runner (v : string) (r : node) : node :=
  mkNode (n_id r) (n_name r) (n_phase r) (n_gen r) (n_def r) (n_platform r) (n_deps r) (n_dependents r) (n_interest r) (n_f r) (n_kp r) (n_pinnedRes r) (n_caches r) (n_pinInputs r) (n_label r) (n_runInputs r) (n_consecRetry r) (n_consecControl r) (n_lastResultGen r) v (n_queueSeq r) (n_errSummary r) (n_enqueuedAt r) (n_startedAt r) (n_doneAt r) (n_cached r).
Definition set_n_queueSeq (v : Z) (r : node) : node :=
  mkNode (n_id r) (n_name r) (n_phase r) (n_gen r) (n_def r) (n_platform r) (n_deps r) (n_dependents r) (n_interest r) (n_f r) (n_kp r) (n_pinnedRes r) (n_caches r) (n_pinInputs r) (n_label r) (n_runInputs r) (n_consecRetry r) (n_consecControl r) (n_lastResultGen r) (n_runner r) v (n_errSummary r) (n_enqueuedAt r) (n_startedAt r) (n_doneAt r) (n_cached r).
Definition set_n_errSummary (v : string) (r : node) : node :=
  mkNode (n_id r) (n_name r) (n_phase r) (n_gen r) (n_def r) (n_platform r) (n_deps r) (n_dependents r) (n_interest r) (n_f r) (n_kp r) (n_pinnedRes r) (n_caches r) (n_pinInputs r) (n_label r) (n_runInputs r) (n_consecRetry r) (n_consecControl r) (n_lastResultGen r) (n_runner r) (n_queueSeq r) v (n_enqueuedAt r) (n_startedAt r) (n_doneAt r) (n_cached r).
Definition set_n_enqueuedAt (v : option Z) (r : node) : node :=
  mkNode (n_id r) (n_name r) (n_phase r) (n_gen r) (n_def r) (n_platform r) (n_deps r) (n_dependents r) (n_interest r) (n_f r) (n_kp r) (n_pinnedRes r) (n_caches r) (n_pinInputs r) (n_label r) (n_runInputs r) (n_consecRetry r) (n_consecControl r) (n_lastResultGen r) (n_runner r) (n_queueSeq r) (n_errSummary r) v (n_startedAt r) (n_doneAt r) (n_cached r).
Definition set_n_startedAt (v : option Z) (r : node) : node :=
  mkNode (n_id r) (n_name r) (n_phase r) (n_gen r) (n_def r) (n_platform r) (n_deps r) (n_dependents r) (n_interest r) (n_f r) (n_kp r) (n_pinnedRes r) (n_caches r) (n_pinInputs r) (n_label r) (n_runInputs r) (n_consecRetry r) (n_consecControl r) (n_lastResultGen r) (n_runner r) (n_queueSeq r) (n_errSummary r) (n_enqueuedAt r) v (n_doneAt r) (n_cached r).
Definition set_n_doneAt (v : option Z) (r : node) : node :=
  mkNode (n_id r) (n_name r) (n_phase r) (n_gen r) (n_def r) (n_platform r) (n_deps r) (n_dependents r) (n_interest r) (n_f r) (n_kp r) (n_pinnedRes r) (n_caches r) (n_pinInputs r) (n_label r) (n_runInputs r) (n_consecRetry r) (n_consecControl r) (n_lastResultGen r) (n_runner r) (n_queueSeq r) (n_errSummary r) (n_enqueuedAt r) (n_startedAt r) v (n_cached r).
Definition set_n_cached (v : bool) (r : node) : node :=
  mkNode (n_id r) (n_name r) (n_phase r) (n_gen r) (n_def r) (n_platform r) (n_deps r) (n_dependents r) (n_interest r) (n_f r) (n_kp r) (n_pinnedRes r) (n_caches r) (n_pinInputs r) (n_label r) (n_runInputs r) (n_consecRetry r) (n_consecControl r) (n_lastResultGen r) (n_runner r) (n_queueSeq r) (n_errSummary r) (n_enqueuedAt r) (n_startedAt r) (n_doneAt r) v.
Definition set_q_cancelled (v : bool) (r : request) : request :=
  mkReq (q_id r) (q_k r) (q_platform r) (q_res r) (q_createdNs r) v (q_target r) (q_failReason r) (q_noRunnersSince r).
Definition set_q_target (v : option loc) (r : request) : request :=
  mkReq (q_id r) (q_k r) (q_platform r) (q_res r) (q_createdNs r) (q_cancelled r) v (q_failReason r) (q_noRunnersSince r).
Definition set_q_failReason (v : string) (r : request) : request :=
  mkReq (q_id r) (q_k r) (q_platform r) (q_res r) (q_createdNs r) (q_cancelled r) (q_target r) v (q_noRunnersSince r).
Definition set_q_noRunnersSince (v : option Z) (r : request) : request :=
  mkReq (q_id r) (q_k r) (q_platform r) (q_res r) (q_createdNs r) (q_cancelled r) (q_target r) (q_failReason r) v.
Definition set_g_store (v : Store) (r : Sched) : Sched :=
  mkSched v (g_heap r) (g_next r) (g_nodes r) (g_requests r) (g_fleet r) (g_logs r) (g_lanes r) (g_closed r) (g_ctxDone r) (g_retryBase r) (g_noRunnerAfter r) (g_version r) (g_ticks r) (g_timers r) (g_out r).
Definition set_g_heap (v : gmap loc node) (r : Sched) : Sched :=
  mkSched (g_store r) v (g_next r) (g_nodes r) (g_requests r) (g_fleet r) (g_logs r) (g_lanes r) (g_closed r) (g_ctxDone r) (g_retryBase r) (g_noRunnerAfter r) (g_version r) (g_ticks r) (g_timers r) (g_out r).
Definition set_g_next (v : loc) (r : Sched) : Sched :=
  mkSched (g_store r) (g_heap r) v (g_nodes r) (g_requests r) (g_fleet r) (g_logs r) (g_lanes r) (g_closed r) (g_ctxDone r) (g_retryBase r) (g_noRunnerAfter r) (g_version r) (g_ticks r) (g_timers r) (g_out r).
Definition set_g_nodes (v : gmap (kind * Key) loc) (r : Sched) : Sched :=
  mkSched (g_store r) (g_heap r) (g_next r) v (g_requests r) (g_fleet r) (g_logs r) (g_lanes r) (g_closed r) (g_ctxDone r) (g_retryBase r) (g_noRunnerAfter r) (g_version r) (g_ticks r) (g_timers r) (g_out r).
Definition set_g_requests (v : gmap string request) (r : Sched) : Sched :=
  mkSched (g_store r) (g_heap r) (g_next r) (g_nodes r) v (g_fleet r) (g_logs r) (g_lanes r) (g_closed r) (g_ctxDone r) (g_retryBase r) (g_noRunnerAfter r) (g_version r) (g_ticks r) (g_timers r) (g_out r).
Definition set_g_fleet (v : gmap string RunnerInfo) (r : Sched) : Sched :=
  mkSched (g_store r) (g_heap r) (g_next r) (g_nodes r) (g_requests r) v (g_logs r) (g_lanes r) (g_closed r) (g_ctxDone r) (g_retryBase r) (g_noRunnerAfter r) (g_version r) (g_ticks r) (g_timers r) (g_out r).
Definition set_g_logs (v : gmap string nodeLog) (r : Sched) : Sched :=
  mkSched (g_store r) (g_heap r) (g_next r) (g_nodes r) (g_requests r) (g_fleet r) v (g_lanes r) (g_closed r) (g_ctxDone r) (g_retryBase r) (g_noRunnerAfter r) (g_version r) (g_ticks r) (g_timers r) (g_out r).
Definition set_g_lanes (v : gset string) (r : Sched) : Sched :=
  mkSched (g_store r) (g_heap r) (g_next r) (g_nodes r) (g_requests r) (g_fleet r) (g_logs r) v (g_closed r) (g_ctxDone r) (g_retryBase r) (g_noRunnerAfter r) (g_version r) (g_ticks r) (g_timers r) (g_out r).
Definition set_g_closed (v : bool) (r : Sched) : Sched :=
  mkSched (g_store r) (g_heap r) (g_next r) (g_nodes r) (g_requests r) (g_fleet r) (g_logs r) (g_lanes r) v (g_ctxDone r) (g_retryBase r) (g_noRunnerAfter r) (g_version r) (g_ticks r) (g_timers r) (g_out r).
Definition set_g_ctxDone (v : bool) (r : Sched) : Sched :=
  mkSched (g_store r) (g_heap r) (g_next r) (g_nodes r) (g_requests r) (g_fleet r) (g_logs r) (g_lanes r) (g_closed r) v (g_retryBase r) (g_noRunnerAfter r) (g_version r) (g_ticks r) (g_timers r) (g_out r).
Definition set_g_retryBase (v : Z) (r : Sched) : Sched :=
  mkSched (g_store r) (g_heap r) (g_next r) (g_nodes r) (g_requests r) (g_fleet r) (g_logs r) (g_lanes r) (g_closed r) (g_ctxDone r) v (g_noRunnerAfter r) (g_version r) (g_ticks r) (g_timers r) (g_out r).
Definition set_g_noRunnerAfter (v : Z) (r : Sched) : Sched :=
  mkSched (g_store r) (g_heap r) (g_next r) (g_nodes r) (g_requests r) (g_fleet r) (g_logs r) (g_lanes r) (g_closed r) (g_ctxDone r) (g_retryBase r) v (g_version r) (g_ticks r) (g_timers r) (g_out r).
Definition set_g_version (v : Z) (r : Sched) : Sched :=
  mkSched (g_store r) (g_heap r) (g_next r) (g_nodes r) (g_requests r) (g_fleet r) (g_logs r) (g_lanes r) (g_closed r) (g_ctxDone r) (g_retryBase r) (g_noRunnerAfter r) v (g_ticks r) (g_timers r) (g_out r).
Definition set_g_ticks (v : nat) (r : Sched) : Sched :=
  mkSched (g_store r) (g_heap r) (g_next r) (g_nodes r) (g_requests r) (g_fleet r) (g_logs r) (g_lanes r) (g_closed r) (g_ctxDone r) (g_retryBase r) (g_noRunnerAfter r) (g_version r) v (g_timers r) (g_out r).
Definition set_g_timers (v : list timer) (r : Sched) : Sched :=
  mkSched (g_store r) (g_heap r) (g_next r) (g_nodes r) (g_requests r) (g_fleet r) (g_logs r) (g_lanes r) (g_closed r) (g_ctxDone r) (g_retryBase r) (g_noRunnerAfter r) (g_version r) (g_ticks r) v (g_out r).
Definition set_g_out (v : list effect) (r : Sched) : Sched :=
  mkSched (g_store r) (g_heap r) (g_next r) (g_nodes r) (g_requests r) (g_fleet r) (g_logs r) (g_lanes r) (g_closed r) (g_ctxDone r) (g_retryBase r) (g_noRunnerAfter r) (g_version r) (g_ticks r) (g_timers r) v.

Global Instance node_inhabited : Inhabited node :=
  populate (mkNode (KindImport, inhabitant) "" PhaseWaiting 0 "" "" ∅ ∅ ∅ None None (mkRes 0 0)
    [] [] "" [] 0 0 0 "" 0 "" None None None false).

Definition getN (s : Sched) (l : loc) : node := g_heap s !!! l.
Definition updN (l : loc) (f : node → node) (s : Sched) : Sched :=
  set_g_heap (alter f l (g_heap s)) s.

(** Tunables, in nanoseconds. *)
Definition defaultRetryBase : Z := 1000000000.
Definition noRunnerFailAfter : Z := 5 * 60 * 1000000000.

(** A fresh scheduler over a store ([New]). *)
Definition new_sched (st : Store) : Sched :=
  mkSched st ∅ 1%positive ∅ ∅ ∅ ∅ ∅ false false defaultRetryBase noRunnerFailAfter 0 0 [] [].
End State.

(** ** What the scheduler reads from its surroundings *)

Class SchedEnv `{SL : StoreLib} := {
  (** [time.Now().UnixNano()] *)
  clk : nat → Z;
  (** the order in which [range] visits a set of pointers *)
  map_order : nat → gset loc → list loc;
  map_order_perm i X : map_order i X ≡ₚ elements X;
  (** the broker's answer to a job publish: the stream sequence, or an error *)
  js_publish : nat → result string Z;
  (** whether creating a lane's consumer succeeds *)
  js_lane : nat → bool;
  (** [newRequestID]: 8 random bytes *)
  rand_id : nat → result string string;
  (** the CBOR decoder of results and the canonical encoder of definitions *)
  dec_Result : string → option Result;
  enc_Definition : Definition_ → result string string;
  (** [strconv.ParseFloat(s, 64)] scaled and rounded to millicpu *)
  parse_float_milli : string → option Z;
}.

Section Prims.
Context `{SE0 : SchedEnv}.

Abbreviation MS := (M Sched).

(** One read of the surroundings uses up one index. *)
Definition fresh_tick : MS nat := λ s, Some (g_ticks s, set_g_ticks (S (g_ticks s)) s).

Definition time_Now : MS Z := i ← fresh_tick; mret (clk i).
Definition range_map (X : gset loc) : MS (list loc) := i ← fresh_tick; mret (map_order i X).
Definition node_at (l : loc) : MS node := s ← getS; mret (getN s l).
Definition upd (l : loc) (f : node → node) : MS unit := modS (updN l f).
Definition emit (e : effect) : MS unit := modS (λ s, set_g_out (g_out s ++ [e]) s).

(** Run a store operation on the scheduler's store. *)
Definition liftSE {A} (m : SE A) : MS (result string A) := λ s,
  let '(st', r) := m (g_store s) in Some (r, set_g_store st' s).

(** [genSeed]. *)
Definition genSeed : MS Z := t ← time_Now; mret (u64 t).

(** [bumpLocked]. *)
Definition bumpLocked : MS unit := modS (λ s, set_g_version (u64 (g_version s + 1)) s).

(** [putNodeStatusLocked]: the status key-value mirror, observation only. *)
Definition putNodeStatusLocked (l : loc) : MS unit :=
  n ← node_at l;
  emit (EStatus (n_name n) (n_phase n) (n_gen n) (n_runner n) (n_errSummary n) (default 0%Z (n_startedAt n))).

Definition purgeNodeStatusLocked (name : string) : MS unit := emit (EPurge name).

Definition dropNodeLogLocked (name : string) : MS unit :=
  modS (λ s, set_g_logs (delete name (g_logs s)) s).
End Prims.
