(* ===== verification/PullRefs.v ===== *)
(** * Pull references (src/sched/pullrefs.go [computePullRefsLocked])

    Which references a runner must pull before it runs a stage, computed
    against the store when the job is enqueued. *)
From S2P Require Import Prelude GoLib Resources Keys Wire Builddef Store Gate Commit LogBuf SchedState.
From Stdlib Require Import Ascii.
Local Open Scope string_scope.
Local Open Scope list_scope.

Section PullRefs.
Context `{SL : StoreLib}.

(** [add]: append the names not seen yet. *)
Definition add_ref (out : list string) (name : string) : list string :=
  if decide (name ∈ out) then out else out ++ [name].
Definition add_refs (out : list string) (names : list string) : list string := foldl add_ref out names.

Definition addIfPresent (name : string) (out : list string) : SE (list string) :=
  k ← se_get name;
  match k with Some _ => mret (add_ref out name) | None => mret out end.

Definition addInputOutputs (i : Input) (withDeps : bool) (out : list string) : SE (list string) :=
  k ← se_lift (FileKey (in_Definition i));
  if String.eqb (in_Kind i) InputKind.Import then mret (add_refs out [import_output k])
  else if String.eqb (in_Kind i) InputKind.Build then
    f ← se_get (build_from k);
    match f with
    | None => se_err (build_from k +:+ " missing for done input")
    | Some f =>
        let out := add_refs out [build_from k; build_output f] in
        mret (if withDeps then add_refs out [build_output_deps f] else out)
    end
  else if String.eqb (in_Kind i) InputKind.Tree then
    tk ← se_lift (dec_TreeKey (in_Definition i));
    mret (add_refs out [build_from_tree tk])
  else mret out.

Fixpoint addInputs (withDeps : bool) (l : list Input) (out : list string) : SE (list string) :=
  match l with
  | [] => mret out
  | i :: l' => out ← addInputOutputs i withDeps out; addInputs withDeps l' out
  end.

Fixpoint addPresent (l : list string) (out : list string) : SE (list string) :=
  match l with
  | [] => mret out
  | name :: l' => out ← addIfPresent name out; addPresent l' out
  end.

Definition pull_import (n : node) : SE (list string) :=
  def ← se_lift (dec_Import (n_def n));
  let platform := if String.eqb (i_Platform def) "" then n_platform n else i_Platform def in
  out ← addIfPresent ("shell:" +:+ platform) [];
  if negb (String.eqb (i_FetcherDef def) "") then
    fk ← se_lift (FileKey (i_FetcherDef def));
    ff ← se_get (build_from fk);
    match ff with
    | None => se_err (build_from fk +:+ " missing for done fetcher build")
    | Some ff =>
        let out := add_refs out [build_from fk; build_output ff] in
        addIfPresent (build_output_deps ff) out
    end
  else addIfPresent ("fetcher:" +:+ i_Fetcher def +:+ ":" +:+ platform) out.

Definition pull_buildfrom (n : node) : SE (list string) :=
  def ← se_lift (dec_Definition (n_def n));
  let sk := in_Kind (d_Source def) in
  if String.eqb sk InputKind.Import || String.eqb sk InputKind.Build || String.eqb sk InputKind.Tree
  then addInputOutputs (d_Source def) (String.eqb sk InputKind.Build) []
  else se_err ("unknown source kind " +:+ sk).

Definition pull_pin (n : node) : SE (list string) :=
  let k := snd (n_id n) in
  healCarrier (FTreeRef k) k;;
  out ← addIfPresent ("shell:" +:+ n_platform n) (add_refs [] [FTreeRef k; build_plugin_resolved k]);
  addInputs false (n_pinInputs n) out.

Definition pull_buildrun (n : node) : SE (list string) :=
  let k := snd (n_id n) in
  healCarrier (KPTreeRef k) k;;
  out ← addIfPresent ("shell:" +:+ n_platform n) (add_refs [] [KPTreeRef k; build_pinned k]);
  out ← addInputs true (n_runInputs n) out;
  addPresent ((λ c, CacheRefName (c_ID c) (n_platform n)) <$> n_caches n) out.

Definition computePullRefs (n : node) : SE (list string) :=
  match fst (n_id n) with
  | KindImport => pull_import n
  | KindBuildFrom => pull_buildfrom n
  | KindPluginResolve =>
      let k := snd (n_id n) in healCarrier (FTreeRef k) k;; mret (add_refs [] [FTreeRef k])
  | KindPin => pull_pin n
  | KindBuildRun => pull_buildrun n
  | KindBuildValue => mret []
  end.
End PullRefs.
