(* ===== verification/Graph.v ===== *)
(** * The dependency graph (src/sched/node.go)

    Get-or-create of nodes, interest, unfolding, the buildvalue orchestrator,
    completion, failure, enqueueing and eviction. The mutual recursion of the
    source goes through two calls, [require] and [advanceBuildValueLocked]; an
    operation that makes one of them takes them as a record [procs], and
    [run_procs] ties the knot with fuel. *)
From S2P Require Import Prelude GoLib Resources Keys Wire Builddef Store Gate Commit LogBuf SchedState PullRefs.
From Stdlib Require Import Ascii.
Local Open Scope string_scope.
Local Open Scope list_scope.

Section Graph.
Context `{SE0 : SchedEnv}.

Abbreviation MS := (M Sched).

Definition maxConsecRetryable : Z := 3.
Definition maxConsecControl : Z := 20.

(** The recursive entry points. *)
Record procs := mkProcs {
  p_require : kind → Key → string → string → option loc → option (gset string) → string → MS loc;
  p_advance : loc → MS unit }.

(** ** Small helpers *)

Definition placeable (k : kind) : bool := negb (bool_decide (k = KindBuildValue)).

Definition resKind (k : kind) : string :=
  match k with
  | KindImport => ResKind.Import
  | KindBuildFrom => ResKind.BuildFrom
  | KindPluginResolve => ResKind.BuildPluginResolve
  | KindPin => ResKind.BuildPin
  | KindBuildRun => ResKind.Build
  | KindBuildValue => kind_name KindBuildValue
  end.

Definition getKey (name : string) : MS (result string (option Key)) := liftSE (se_get name).

(** [interestIDs] and [waiterFs]: sorted, so independent of map order. *)
Definition interestIDs (n : node) : list string := SortStrings (elements (n_interest n)).

Definition waiterFs (s : Sched) (n : node) : list string :=
  if bool_decide (fst (n_id n) = KindBuildRun) then
    SortStrings (omap (λ d, let x := getN s d in
      if bool_decide (fst (n_id x) = KindBuildValue) then key_String <$> n_f x else None)
      (elements (n_dependents n)))
  else [].

(** ** Failure records *)

Definition failureLogHeadCap : Z := 256 * 2 ^ 10.
Definition failureLogTailCap : Z := 512 * 2 ^ 10.

Definition log_part (s : Sched) (n : node) : bytes * Z * bytes * bool :=
  match g_logs s !! n_name n with
  | Some lb =>
      if (nl_gen lb =? n_gen n)%Z then (trimLogSnapshot (nl_buf lb) failureLogHeadCap failureLogTailCap, false)
      else (([], 0%Z, []), true)
  | None => (([], 0%Z, []), true)
  end.

(** [time.Duration.Milliseconds]. *)
Definition Milliseconds (d : Z) : Z := Z.quot d 1000000.

Definition failure_record (s : Sched) (n : node) (res : option Result) (origin : fail_origin)
    (disposition : fail_disposition) (summary : string) (backoff now : Z) : FailureRecord :=
  let '(head, gap, tail, missing) := log_part s n in
  mkFail (n_name n) (n_gen n) (n_platform n) (n_label n) origin disposition summary
    (n_consecRetry n) (n_consecControl n) (Milliseconds backoff) (interestIDs n) (waiterFs s n) res
    (default 0%Z (n_enqueuedAt n)) (default 0%Z (n_startedAt n)) now head gap tail missing.

Definition recordFailureLocked (l : loc) (res : option Result) (origin : fail_origin)
    (disposition : fail_disposition) (summary : string) (backoff : Z) : MS unit :=
  let skip := match res, disposition with
              | Some r, FailDispositionRetry => String.eqb (res_Class r) ClassCancelled
              | _, _ => false
              end in
  if skip then mret tt
  else
    now ← time_Now;
    s ← getS;
    let n := getN s l in
    emit (EFailure (FailuresSubject (n_name n)) (FailureMsgID (n_name n) (n_gen n))
            (failure_record s n res origin disposition summary backoff now)).

Definition failNodeAttrLocked (l : loc) (res : option Result) (origin : fail_origin) (summary : string) : MS unit :=
  n ← node_at l;
  if bool_decide (n_phase n = PhaseFailed) || bool_decide (n_phase n = PhaseDone) then mret tt
  else
    upd l (set_n_phase PhaseFailed);;
    upd l (set_n_errSummary summary);;
    now ← time_Now;
    upd l (set_n_doneAt (Some now));;
    recordFailureLocked l res origin FailDispositionFailed summary 0;;
    putNodeStatusLocked l;;
    bumpLocked.

Definition failNodeLocked (l : loc) (summary : string) : MS unit :=
  failNodeAttrLocked l None FailOriginServer summary.

(** ** Interest *)

(** [propagateInterest]: the fuel is the recursion depth; a node is entered
    again only when it gains an id, so one more than the number of nodes is
    enough (see [propagateInterest_total]). *)
Fixpoint propagate (fuel : nat) (ids : gset string) (l : loc) : MS unit :=
  match fuel with
  | O => out_of_fuel
  | S fuel =>
      n ← node_at l;
      if decide (ids ⊆ n_interest n) then mret tt
      else
        upd l (set_n_interest (n_interest n ∪ ids));;
        ds ← range_map (n_deps n);
        mfor (propagate fuel ids) ds
  end.

Definition propagateInterest (l : loc) (ids : gset string) : MS unit :=
  s ← getS; propagate (S (size (g_heap s))) ids l.

(** ** Doneness *)

Definition outputExistsLocked (l : loc) : MS (result string bool) :=
  n ← node_at l;
  let k := snd (n_id n) in
  let present name := r ← getKey name; mret (match r with Ok o => Ok (bool_decide (is_Some o)) | Err e => Err e end) in
  match fst (n_id n) with
  | KindImport => present (import_output k)
  | KindBuildFrom => present (build_from k)
  | KindPluginResolve => present (build_plugin_resolved k)
  | KindPin => present (build_pinned k)
  | KindBuildRun => present (build_output k)
  | KindBuildValue =>
      r ← getKey (build_from k);
      match r with
      | Err e => mret (Err e)
      | Ok None => mret (Ok false)
      | Ok (Some f) => upd l (set_n_f (Some f));; present (build_output f)
      end
  end.

(** ** Enqueueing *)

(** [requirementLocked]; the maximum does not depend on the visiting order. *)
Definition requirementLocked (s : Sched) (n : node) : Resources :=
  let base := Max (DefaultFor (resKind (fst (n_id n)))) (n_pinnedRes n) in
  foldl (λ req d,
    let x := getN s d in
    if negb (bool_decide (fst (n_id x) = KindBuildValue)) then req
    else foldl (λ req rid,
           match g_requests s !! rid with
           | Some r => if negb (q_cancelled r) && bool_decide (q_k r = snd (n_id x)) then Max req (q_res r) else req
           | None => req
           end) req (elements (n_interest x)))
    base (elements (n_dependents n)).

Definition armReenqueueLocked (l : loc) (d : Z) : MS unit :=
  n ← node_at l;
  modS (λ s, set_g_timers (g_timers s ++ [mkTimer l (n_id n) (n_gen n) d]) s).

(** [ensureLaneLocked]: the lane's shared consumer is created once. *)
Definition ensureLaneLocked (platform class : string) : MS unit :=
  let name := ConsumerName platform class in
  s ← getS;
  if decide (name ∈ g_lanes s) then mret tt
  else i ← fresh_tick;
       if js_lane i then modS (λ s, set_g_lanes ({[name]} ∪ g_lanes s) s) else mret tt.

Definition job_of (n : node) (class : string) (pull : list string) (req : Resources) : Job :=
  {| j_Node := n_name n; j_Kind := fst (n_id n); j_Key := key_bytes (snd (n_id n)); j_Gen := n_gen n;
     j_Platform := n_platform n; j_Class := class;
     j_Def := if bool_decide (fst (n_id n) = KindImport) || bool_decide (fst (n_id n) = KindBuildFrom)
              then n_def n else "";
     j_PullRefs := pull; j_CPUMilli := CPUMilli req; j_MemBytes := MemBytes req |}.

(** The publish half of [enqueueLocked]. *)
Definition publishJob (l : loc) (class : string) (pull : list string) (req : Resources) : MS unit :=
  n ← node_at l;
  let subject := JobsSubject (n_platform n) class in
  ensureLaneLocked (n_platform n) class;;
  i ← fresh_tick;
  s ← getS;
  match (if g_ctxDone s then Err "context canceled" else js_publish i) with
  | Err _ =>
      if g_closed s || g_ctxDone s then mret tt
      else upd l (set_n_phase PhaseWaiting);; armReenqueueLocked l (g_retryBase s)
  | Ok seq =>
      emit (EJob subject (JobMsgID (n_name n) (n_gen n)) (job_of n class pull req) seq);;
      upd l (set_n_queueSeq seq);;
      upd l (set_n_phase PhaseQueued);;
      putNodeStatusLocked l;;
      bumpLocked
  end.

Definition enqueueLocked (l : loc) : MS unit :=
  s ← getS;
  if g_closed s then mret tt
  else
    n ← node_at l;
    upd l (set_n_gen (u64 (n_gen n + 1)));;
    upd l (set_n_runner "");;
    upd l (set_n_startedAt None);;
    now ← time_Now;
    upd l (set_n_enqueuedAt (Some now));;
    upd l (set_n_queueSeq 0);;
    s ← getS;
    let req := requirementLocked s (getN s l) in
    let class := fst (ClassFor req) in
    pull ← liftSE (computePullRefs (getN s l));
    match pull with
    | Err e => failNodeLocked l ("compute pull refs: " +:+ e)
    | Ok pull => publishJob l class pull req
    end.

Definition maybeEnqueueLocked (l : loc) : MS unit :=
  s ← getS;
  let n := getN s l in
  if negb (placeable (fst (n_id n))) || negb (bool_decide (n_phase n = PhaseWaiting))
     || bool_decide (n_interest n = ∅) then mret tt
  else if forallb (λ d, bool_decide (n_phase (getN s d) = PhaseDone)) (elements (n_deps n))
  then enqueueLocked l
  else mret tt.

(** ** Cycle detection *)

(** Visit a list of successors, stopping at the first one that finds. *)
Fixpoint dfs_any (visit : gset loc → loc → option (gset loc * option (list string)))
    (ds : list loc) (seen : gset loc) : option (gset loc * option (list string)) :=
  match ds with
  | [] => Some (seen, None)
  | d :: ds' =>
      match visit seen d with
      | Some (seen', None) => dfs_any visit ds' seen'
      | r => r
      end
  end.

Fixpoint cycle_dfs (fuel : nat) (s : Sched) (ord : gset loc → list loc) (target : kind * Key)
    (seen : gset loc) (l : loc) : option (gset loc * option (list string)) :=
  match fuel with
  | O => None
  | S fuel =>
      if decide (l ∈ seen) then Some (seen, None)
      else
        let seen := {[l]} ∪ seen in
        let n := getN s l in
        if decide (n_id n = target) then Some (seen, Some [n_name n])
        else match dfs_any (cycle_dfs fuel s ord target) (ord (n_dependents n)) seen with
             | Some (seen', Some chain) => Some (seen', Some (chain ++ [n_name n]))
             | r => r
             end
  end.

Definition cycleChainLocked (from : loc) (target : kind * Key) : MS (option (list string)) :=
  i ← fresh_tick;
  s ← getS;
  match cycle_dfs (S (size (g_heap s))) s (map_order i) target ∅ from with
  | None => out_of_fuel
  | Some (_, chain) => mret chain
  end.

(** ** Completion *)

Definition onDepDoneLocked (P : procs) (d : loc) : MS unit :=
  n ← node_at d;
  if bool_decide (fst (n_id n) = KindBuildValue) then p_advance P d else maybeEnqueueLocked d.

Definition nodeDoneLocked (P : procs) (l : loc) : MS unit :=
  n ← node_at l;
  if bool_decide (n_phase n = PhaseDone) then mret tt
  else
    upd l (set_n_phase PhaseDone);;
    now ← time_Now;
    upd l (set_n_doneAt (Some now));;
    upd l (set_n_errSummary "");;
    putNodeStatusLocked l;;
    bumpLocked;;
    n ← node_at l;
    ds ← range_map (n_dependents n);
    mfor (onDepDoneLocked P) ds.

(** ** The buildvalue orchestrator *)

Definition stage_done (l : loc) : MS bool := n ← node_at l; mret (bool_decide (n_phase n = PhaseDone)).

(** Join one stage of [bv]; the answer is whether it is done. *)
Definition require_stage (P : procs) (bv : loc) (kd : kind) (k : Key) (def : string) : MS bool :=
  n ← node_at bv;
  l ← p_require P kd k def (n_platform n) (Some bv) None (n_label n);
  stage_done l.

(** F of a buildvalue whose buildfrom is done; [None] after a failure. *)
Definition resolve_F (bv : loc) : MS (option Key) :=
  n ← node_at bv;
  match n_f n with
  | Some f => mret (Some f)
  | None =>
      let name := build_from (snd (n_id n)) in
      r ← getKey name;
      match r with
      | Err e => failNodeLocked bv ("resolve F: " +:+ e);; mret None
      | Ok None => failNodeLocked bv (name +:+ " missing after buildfrom done");; mret None
      | Ok (Some f) => upd bv (set_n_f (Some f));; mret (Some f)
      end
  end.

Definition resolve_KP (bv : loc) (f : Key) : MS (option Key) :=
  n ← node_at bv;
  match n_kp n with
  | Some kp => mret (Some kp)
  | None =>
      r ← liftSE (resolveKP f);
      match r with
      | Err e => failNodeLocked bv ("resolve KP: " +:+ e);; mret None
      | Ok kp => upd bv (set_n_kp (Some kp));; mret (Some kp)
      end
  end.

Definition advanceBuildValueLocked (P : procs) (bv : loc) : MS unit :=
  n ← node_at bv;
  if bool_decide (n_phase n = PhaseDone) || bool_decide (n_phase n = PhaseFailed) then mret tt
  else
    d ← require_stage P bv KindBuildFrom (snd (n_id n)) (n_def n);
    if negb d then mret tt else
    f ← resolve_F bv;
    match f with None => mret tt | Some f =>
    d ← require_stage P bv KindPluginResolve f "";
    if negb d then mret tt else
    d ← require_stage P bv KindPin f "";
    if negb d then mret tt else
    kp ← resolve_KP bv f;
    match kp with None => mret tt | Some kp =>
    d ← require_stage P bv KindBuildRun kp "";
    if negb d then mret tt else
    r ← liftSE (ensureFAliases f kp);
    match r with
    | Err e => failNodeLocked bv ("write build-output aliases: " +:+ e)
    | Ok _ => nodeDoneLocked P bv
    end end end.

(** ** Unfolding *)

Definition sortedNamedInputs (plugins deps : gmap string Input) : list (string * Input) :=
  flat_map (λ m : gmap string Input,
    omap (λ name, (λ i, (name, i)) <$> m !! name) (SortStrings (elements (dom m)))) [plugins; deps].

Definition requireInputLocked (P : procs) (parent : loc) (i : Input) (label : string) : MS unit :=
  p ← node_at parent;
  if String.eqb (in_Kind i) InputKind.Import then
    match FileKey (in_Definition i) with
    | Err e => failNodeLocked parent ("input key: " +:+ e)
    | Ok k => p_require P KindImport k (in_Definition i) (n_platform p) (Some parent) None label;; mret tt
    end
  else if String.eqb (in_Kind i) InputKind.Build then
    match FileKey (in_Definition i) with
    | Err e => failNodeLocked parent ("input key: " +:+ e)
    | Ok k =>
        chain ← cycleChainLocked parent (KindBuildValue, k);
        match chain with
        | Some c => failNodeLocked parent ("sub-build cycle: " +:+ Join c " -> ")
        | None =>
            let platform := match dec_Definition (in_Definition i) with
                            | Ok d => if String.eqb (d_Platform d) "" then n_platform p else d_Platform d
                            | Err _ => n_platform p
                            end in
            p_require P KindBuildValue k (in_Definition i) platform (Some parent) None label;; mret tt
        end
    end
  else if String.eqb (in_Kind i) InputKind.Tree then mret tt
  else failNodeLocked parent ("unknown input kind: " +:+ in_Kind i).

Definition unfold_import (P : procs) (l : loc) : MS unit :=
  n ← node_at l;
  if String.eqb (n_def n) "" then failNodeLocked l "import definition unavailable (defs travel in-band)"
  else match dec_Import (n_def n) with
  | Err e => failNodeLocked l ("decode import def: " +:+ e)
  | Ok def =>
      (if String.eqb (i_Platform def) "" then mret tt else upd l (set_n_platform (i_Platform def)));;
      (if String.eqb (n_label n) "" then upd l (set_n_label ("fetch " +:+ i_Fetcher def)) else mret tt);;
      if String.eqb (i_FetcherDef def) "" then mret tt
      else match FileKey (i_FetcherDef def) with
           | Err e => failNodeLocked l ("fetcher build def key: " +:+ e)
           | Ok fk =>
               n ← node_at l;
               p_require P KindBuildValue fk (i_FetcherDef def) (n_platform n) (Some l) None
                 ("fetcher " +:+ i_Fetcher def);; mret tt
           end
  end.

Definition unfold_buildfrom (P : procs) (l : loc) : MS unit :=
  n ← node_at l;
  if String.eqb (n_def n) "" then failNodeLocked l "build definition unavailable (defs travel in-band)"
  else match dec_Definition (n_def n) with
  | Err e => failNodeLocked l ("decode build def: " +:+ e)
  | Ok def =>
      (if String.eqb (d_Platform def) "" then mret tt else upd l (set_n_platform (d_Platform def)));;
      (if String.eqb (n_label n) "" && negb (String.eqb (d_Dir def) "") then upd l (set_n_label (d_Dir def)) else mret tt);;
      requireInputLocked P l (d_Source def) ""
  end.

(** [readRefFileLocked] and the two blob readers. *)
Definition readRefFileLocked (name : string) : MS (result string string) :=
  s ← getS; mret (readRefFile name (g_store s)).
Definition readPluginResolvedLocked (f : Key) : MS (result string PluginResolved) :=
  b ← readRefFileLocked (build_plugin_resolved f); mret (b ≫= dec_PluginResolved).
Definition readPinnedLocked (f : Key) : MS (result string Pinned) :=
  b ← readRefFileLocked (build_pinned f); mret (b ≫= dec_Pinned).

Definition unfold_pin (P : procs) (l : loc) : MS unit :=
  n ← node_at l;
  pr ← readPluginResolvedLocked (snd (n_id n));
  match pr with
  | Err e => failNodeLocked l ("read build-plugin-resolved: " +:+ e)
  | Ok pr =>
      upd l (set_n_pinInputs []);;
      mfor (λ ni : string * Input,
        upd l (λ x, set_n_pinInputs (n_pinInputs x ++ [ni.2]) x);;
        requireInputLocked P l ni.2 ni.1) (sortedNamedInputs (pr_Plugins pr) (pr_Deps pr))
  end.

Definition unfold_buildrun (P : procs) (l : loc) : MS unit :=
  n ← node_at l;
  pinned ← readPinnedLocked (snd (n_id n));
  match pinned with
  | Err e => failNodeLocked l ("read build-pinned: " +:+ e)
  | Ok pinned =>
      match p_Resources pinned with
      | Some r => upd l (set_n_pinnedRes (mkRes (pr_CPUMilli r) (pr_MemBytes r)))
      | None => mret tt
      end;;
      upd l (set_n_caches (p_Caches pinned));;
      upd l (set_n_runInputs []);;
      mfor (λ pi : PinnedInput,
        let i := mkInput (pi_Kind pi) (pi_Definition pi) in
        upd l (λ x, set_n_runInputs (n_runInputs x ++ [i]) x);;
        requireInputLocked P l i (pi_Name pi)) (p_Inputs pinned)
  end.

Definition unfoldLocked (P : procs) (l : loc) : MS unit :=
  n ← node_at l;
  match fst (n_id n) with
  | KindImport => unfold_import P l
  | KindBuildFrom => unfold_buildfrom P l
  | KindPluginResolve => mret tt
  | KindPin => unfold_pin P l
  | KindBuildRun => unfold_buildrun P l
  | KindBuildValue => p_advance P l
  end.

(** ** The join *)

Definition new_node (id : kind * Key) (seed : Z) : node :=
  mkNode id (NodeName id.1 id.2) PhaseWaiting seed "" "" ∅ ∅ ∅ None None (mkRes 0 0)
    [] [] "" [] 0 0 0 "" 0 "" None None None false.

(** Get or create; the flag says whether the node existed. *)
Definition get_or_create (id : kind * Key) : MS (loc * bool) :=
  s ← getS;
  match g_nodes s !! id with
  | Some l => mret (l, true)
  | None =>
      seed ← genSeed;
      let l := g_next s in
      modS (λ s, set_g_next (Pos.succ l) (set_g_nodes (<[id := l]> (g_nodes s))
                   (set_g_heap (<[l := new_node id seed]> (g_heap s)) s)));;
      mret (l, false)
  end.

(** Fill the fields a join may fill, never overwriting. *)
Definition fill_fields (def platform label : string) (n : node) : node :=
  let n := if String.eqb (n_def n) "" && negb (String.eqb def "") then set_n_def def n else n in
  let n := if String.eqb (n_platform n) "" then set_n_platform platform n else n in
  if String.eqb (n_label n) "" then set_n_label label n else n.

(** Link a dependency to its parent, both ways. *)
Definition link (parent l : loc) : MS unit :=
  p ← node_at parent;
  if decide (l ∈ n_deps p) then mret tt
  else upd parent (λ x, set_n_deps ({[l]} ∪ n_deps x) x);;
       upd l (λ x, set_n_dependents ({[parent]} ∪ n_dependents x) x).

(** The creation of a fresh node: doneness fast path, else unfold and enqueue. *)
Definition activate (P : procs) (l : loc) : MS unit :=
  d ← outputExistsLocked l;
  match d with
  | Err e => failNodeLocked l ("doneness check: " +:+ e)
  | Ok true =>
      upd l (set_n_phase PhaseDone);;
      upd l (set_n_cached true);;
      putNodeStatusLocked l
  | Ok false => unfoldLocked P l;; maybeEnqueueLocked l
  end;;
  bumpLocked.

Definition require (P : procs) (kd : kind) (k : Key) (def platform : string) (parent : option loc)
    (extra : option (gset string)) (label : string) : MS loc :=
  r ← get_or_create (kd, k);
  let '(l, existed) := r in
  upd l (fill_fields def platform label);;
  match parent with
  | Some p => link p l;; pn ← node_at p; propagateInterest l (n_interest pn)
  | None => mret tt
  end;;
  match extra with
  | Some ids => propagateInterest l ids
  | None => mret tt
  end;;
  (if existed : bool then mret tt else activate P l);;
  mret l.

(** The knot, with fuel for its depth. *)
Fixpoint run_procs (fuel : nat) : procs :=
  match fuel with
  | O => mkProcs (λ _ _ _ _ _ _ _, out_of_fuel) (λ _, out_of_fuel)
  | S fuel => mkProcs (require (run_procs fuel)) (advanceBuildValueLocked (run_procs fuel))
  end.

(** ** Eviction *)

(** Preorder walk of a closure through [next]; [seen] in visiting order. *)
Fixpoint walk_list (visit : list loc → loc → option (list loc)) (ds : list loc) (seen : list loc) : option (list loc) :=
  match ds with
  | [] => Some seen
  | d :: ds' => match visit seen d with Some seen' => walk_list visit ds' seen' | None => None end
  end.

Fixpoint walk (fuel : nat) (next : loc → list loc) (seen : list loc) (l : loc) : option (list loc) :=
  match fuel with
  | O => None
  | S fuel =>
      if decide (l ∈ seen) then Some seen
      else walk_list (walk fuel next) (next l) (seen ++ [l])
  end.

(** The closure of a node through its dependencies. *)
Definition dep_closure (l : loc) : MS (list loc) :=
  i ← fresh_tick;
  s ← getS;
  match walk (S (size (g_heap s))) (λ d, map_order i (n_deps (getN s d))) [] l with
  | None => out_of_fuel
  | Some seen => mret seen
  end.

Definition evict (l : loc) : MS unit :=
  s ← getS;
  let n := getN s l in
  if negb (bool_decide (n_interest n = ∅)) then mret tt
  else if negb (bool_decide (g_nodes s !! n_id n = Some l)) then mret tt
  else
    (if negb (n_queueSeq n =? 0)%Z && (bool_decide (n_phase n = PhaseQueued) || bool_decide (n_phase n = PhaseRunning))
     then emit (EDeleteMsg (n_queueSeq n)) else mret tt);;
    modS (λ s, set_g_nodes (delete (n_id n) (g_nodes s)) s);;
    ds ← range_map (n_deps n);
    mfor (λ d, upd d (λ x, set_n_dependents (n_dependents x ∖ {[l]}) x)) ds;;
    dropNodeLogLocked (n_name n);;
    purgeNodeStatusLocked (n_name n).

Definition dropInterestLocked (reqID : string) (target : option loc) : MS unit :=
  match target with
  | None => mret tt
  | Some t =>
      seen ← dep_closure t;
      mfor (λ l, upd l (λ x, set_n_interest (n_interest x ∖ {[reqID]}) x)) seen;;
      ls ← range_map (list_to_set seen);
      mfor evict ls;;
      bumpLocked
  end.

(** ** Display labels *)

Definition recipe_label (refs : list RefProposal) : string :=
  match find (λ r, negb (String.eqb (r_Label r) "") && HasPrefix (r_Name r) "build-pinned:") refs with
  | Some r => r_Label r
  | None => ""
  end.

Definition applyRecipeLabelLocked (l : loc) (refs : list RefProposal) : MS unit :=
  let label := recipe_label refs in
  if String.eqb label "" then mret tt
  else
    upd l (set_n_label label);;
    n ← node_at l;
    ds ← range_map (n_dependents n);
    mfor (λ d, x ← node_at d;
               if bool_decide (fst (n_id x) = KindBuildValue) then upd d (set_n_label label) else mret tt) ds.

(** A fired re-enqueue timer (the closure of [armReenqueueLocked]). *)
Definition fireTimer (t : timer) : MS unit :=
  s ← getS;
  match g_nodes s !! t_id t with
  | Some m =>
      let n := getN s m in
      if negb (bool_decide (m = t_node t)) || g_closed s || negb (n_gen n =? t_gen t)%Z
         || negb (bool_decide (n_phase n = PhaseWaiting)) || bool_decide (n_interest n = ∅)
      then mret tt
      else enqueueLocked m
  | None => mret tt
  end.
End Graph.
