(* ===== verification/Results.v ===== *)
(** * Results (src/sched/results.go)

    Applying a runner's result to the graph. [handleResult] releases the
    scheduler's lock while it commits, so it is three steps: [result_lock] (the
    first critical section), [commit] on the store, [result_finish] (the
    second); between them other operations may run. *)
From S2P Require Import Prelude GoLib Resources Keys Wire Builddef Store Gate Commit LogBuf SchedState PullRefs Graph.
From Stdlib Require Import Ascii.
Local Open Scope string_scope.
Local Open Scope list_scope.

Section Results.
Context `{SE0 : SchedEnv}.

Abbreviation MS := (M Sched).

(** The backoff of the n-th consecutive retryable result. *)
Definition retry_backoff (base n : Z) : Z :=
  let backoff := i64 (Z.shiftl base (n - 1)) in
  let limit := i64 (30 * base) in
  if (limit <? backoff)%Z then limit else backoff.

Definition retryLocked (l : loc) (res : Result) (origin : fail_origin) (summary : string) (control : bool) : MS unit :=
  n ← node_at l;
  if control then
    upd l (set_n_consecControl (n_consecControl n + 1));;
    if (maxConsecControl <? n_consecControl n + 1)%Z
    then failNodeAttrLocked l (Some res) origin ("control budget exhausted: " +:+ summary)
    else
      upd l (set_n_phase PhaseWaiting);;
      upd l (set_n_errSummary summary);;
      recordFailureLocked l (Some res) origin FailDispositionRetry summary 0;;
      enqueueLocked l
  else
    upd l (set_n_consecRetry (n_consecRetry n + 1));;
    upd l (set_n_consecControl 0);;
    if (maxConsecRetryable <? n_consecRetry n + 1)%Z
    then failNodeAttrLocked l (Some res) origin ("retry budget exhausted: " +:+ summary)
    else
      s ← getS;
      let backoff := retry_backoff (g_retryBase s) (n_consecRetry n + 1) in
      upd l (set_n_phase PhaseWaiting);;
      upd l (set_n_errSummary summary);;
      recordFailureLocked l (Some res) origin FailDispositionRetry summary backoff;;
      putNodeStatusLocked l;;
      bumpLocked;;
      armReenqueueLocked l backoff.

(** The deduplication guard: a result is live when it answers the node's
    current attempt and none was handled for it yet. *)
Definition live_result (n : node) (res : Result) : bool :=
  (res_Gen res =? n_gen n)%Z && negb (res_Gen res <=? n_lastResultGen n)%Z &&
  (bool_decide (n_phase n = PhaseQueued) || bool_decide (n_phase n = PhaseRunning)).

Definition runnerScratchPrefix := "runner-push/".

(** [deleteScratch]: only the runner's scratch namespace is deletable. *)
Definition deleteScratch (ref : string) : MS unit :=
  if String.eqb ref "" then mret tt
  else if negb (HasPrefix ref runnerScratchPrefix) then mret tt
  else modS (λ s, set_g_store (DeleteRef ref (g_store s)).1 s).

(** The class switch of a live result; an ok result asks for a commit. *)
Definition dispose (l : loc) (res : Result) : MS (option commitSpec) :=
  n ← node_at l;
  if String.eqb (res_Class res) ClassOK then
    upd l (set_n_phase PhasePublishing);;
    putNodeStatusLocked l;;
    bumpLocked;;
    mret (Some (mkSpec (fst (n_id n)) (snd (n_id n)) (n_platform n) (n_caches n) (res_Refs res)))
  else
    (if String.eqb (res_Class res) ClassHard then
       failNodeAttrLocked l (Some res) FailOriginResult
         (if String.eqb (res_ErrSummary res) "" then "hard failure (exit " +:+ itoa (res_Exit res) +:+ ")"
          else res_ErrSummary res)
     else if String.eqb (res_Class res) ClassRetryable then
       retryLocked l res FailOriginResult (res_ErrSummary res) false
     else if String.eqb (res_Class res) ClassControl then
       retryLocked l res FailOriginResult (res_ErrSummary res) true
     else if String.eqb (res_Class res) ClassCancelled then
       if bool_decide (n_interest n = ∅) then mret tt
       else retryLocked l res FailOriginResult (res_ErrSummary res) true
     else failNodeAttrLocked l (Some res) FailOriginResult ("unknown result class " +:+ res_Class res));;
    mret None.

(** The first critical section of [handleResult]. *)
Definition result_lock (res : Result) : MS (option (loc * commitSpec)) :=
  match ParseNodeName (res_Node res) with
  | None => mret None
  | Some id =>
      s ← getS;
      match g_nodes s !! id with
      | None => mret None
      | Some l =>
          let n := getN s l in
          if negb (live_result n res) then mret None
          else
            upd l (set_n_lastResultGen (res_Gen res));;
            upd l (set_n_runner (res_Runner res));;
            (if bool_decide (n_startedAt n = None) then upd l (set_n_startedAt (n_enqueuedAt n)) else mret tt);;
            sp ← dispose l res;
            mret ((λ sp, (l, sp)) <$> sp)
      end
  end.

(** The commit, run without the lock. *)
Definition result_commit (sp : commitSpec) : MS (result commit_err unit) := λ s,
  let '(st', r) := commit sp (g_store s) in Some (r, set_g_store st' s).

(** The second critical section: the node may have been cancelled meanwhile. *)
Definition result_finish (P : procs) (l : loc) (res : Result) (r : result commit_err unit) : MS unit :=
  s ← getS;
  let n := getN s l in
  if negb (bool_decide (g_nodes s !! n_id n = Some l)) || negb (n_gen n =? res_Gen res)%Z then mret tt
  else match r with
  | Ok _ =>
      upd l (set_n_consecRetry 0);;
      upd l (set_n_consecControl 0);;
      applyRecipeLabelLocked l (res_Refs res);;
      nodeDoneLocked P l
  | Err (CGate e) => failNodeAttrLocked l (Some res) FailOriginGate e
  | Err (CFail e) => retryLocked l res FailOriginCommit ("commit: " +:+ e) false
  end.

Definition handleResult (P : procs) (data : string) : MS unit :=
  match dec_Result data with
  | None => mret tt
  | Some res =>
      (if bool_decide (res_ReadRefs res = []) then mret tt else emit (ETouch (res_ReadRefs res)));;
      p ← result_lock res;
      match p with
      | None => mret tt
      | Some (l, sp) => r ← result_commit sp; result_finish P l res r
      end;;
      deleteScratch (res_ScratchRef res)
  end.
End Results.
