(* ===== verification/Submit.v ===== *)
(** * Requests (src/sched/submit.go, src/sched/logfold.go, src/sched/diagnose.go)

    Submitting, cancelling and deleting builds, the snapshot of a request, the
    no-runners watchdog, the fleet fold and the log fold. *)
From S2P Require Import Prelude GoLib Resources Keys Wire Builddef Store Gate Commit LogBuf SchedState PullRefs Graph Results.
From Stdlib Require Import Ascii.
Local Open Scope string_scope.
Local Open Scope list_scope.

(** Error codes of the public methods (src/sched/errors.go). *)
Inductive err_code := CodeBadRequest | CodeNotFound | CodeIncomplete | CodeInternal | CodeUnavailable.

Section Submit.
Context `{SE0 : SchedEnv}.

Abbreviation MS := (M Sched).

(** ** Snapshots *)

Record NodeSnap := mkSnap {
  ns_Node : string; ns_Label : string; ns_Phase : phase; ns_Gen : Z; ns_Runner : string;
  ns_ElapsedMs : Z; ns_ErrSummary : string; ns_Deps : list string; ns_Cached : bool }.

Record Snapshot := mkSnapshot {
  sn_RequestID : string; sn_Phase : string; sn_Counts : Counts; sn_Nodes : list NodeSnap;
  sn_Terminal : bool; sn_Error : string }.

Definition elapsedMs (n : node) (now : Z) : Z :=
  match (match n_startedAt n with Some t => Some t | None => n_enqueuedAt n end) with
  | None => 0
  | Some start =>
      let fin := default now (n_doneAt n) in
      if (fin <? start)%Z then 0 else Milliseconds (fin - start)
  end.

(** [upstreamFailed]: a memoised walk; an entry is put in the memo as false
    before its dependencies are visited. *)
Fixpoint up_any (visit : gmap loc bool → loc → option (gmap loc bool * bool)) (failed : loc → bool)
    (ds : list loc) (memo : gmap loc bool) : option (gmap loc bool * bool) :=
  match ds with
  | [] => Some (memo, false)
  | d :: ds' =>
      if failed d then Some (memo, true)
      else match visit memo d with
           | Some (memo', false) => up_any visit failed ds' memo'
           | r => r
           end
  end.

Fixpoint upstreamFailed (fuel : nat) (s : Sched) (ord : gset loc → list loc)
    (memo : gmap loc bool) (l : loc) : option (gmap loc bool * bool) :=
  match fuel with
  | O => None
  | S fuel =>
      match memo !! l with
      | Some v => Some (memo, v)
      | None =>
          match up_any (upstreamFailed fuel s ord) (λ d, bool_decide (n_phase (getN s d) = PhaseFailed))
                  (ord (n_deps (getN s l))) (<[l := false]> memo) with
          | Some (memo', v) => Some (<[l := v]> memo', v)
          | None => None
          end
      end
  end.

(** The phases of a closure's nodes as a request sees them, with the memo
    threaded through as in the source. *)
Fixpoint closure_phases (fuel : nat) (s : Sched) (ord : gset loc → list loc)
    (memo : gmap loc bool) (ls : list loc) : option (list (loc * phase)) :=
  match ls with
  | [] => Some []
  | l :: ls' =>
      let p := n_phase (getN s l) in
      if bool_decide (p = PhaseDone) || bool_decide (p = PhaseFailed) then
        r ← closure_phases fuel s ord memo ls'; Some ((l, p) :: r)
      else
        '(memo', v) ← upstreamFailed fuel s ord memo l;
        r ← closure_phases fuel s ord memo' ls';
        Some ((l, if (v : bool) then PhaseUpstream else p) :: r)
  end.

Definition count_phase (c : Counts) (p : phase) : Counts :=
  let t := (c_Total c + 1)%Z in
  match p with
  | PhaseDone => mkCounts t (c_Done c + 1) (c_Failed c) (c_Running c) (c_Waiting c)
  | PhaseFailed | PhaseUpstream => mkCounts t (c_Done c) (c_Failed c + 1) (c_Running c) (c_Waiting c)
  | PhaseQueued | PhaseRunning | PhasePublishing => mkCounts t (c_Done c) (c_Failed c) (c_Running c + 1) (c_Waiting c)
  | PhaseWaiting | PhaseCancelled => mkCounts t (c_Done c) (c_Failed c) (c_Running c) (c_Waiting c + 1)
  end.

Definition is_failed (p : phase) : bool :=
  match p with PhaseFailed | PhaseUpstream => true | _ => false end.

Definition node_snap (s : Sched) (now : Z) (lp : loc * phase) : NodeSnap :=
  let n := getN s lp.1 in
  mkSnap (n_name n) (n_label n) lp.2 (n_gen n) (n_runner n) (elapsedMs n now) (n_errSummary n)
    (SortStrings ((λ d, n_name (getN s d)) <$> elements (n_deps n))) (n_cached n).

Definition request_phase (s : Sched) (r : request) (anyFailed : bool) : string :=
  if q_cancelled r then "cancelled"
  else if negb (String.eqb (q_failReason r) "") then "failed"
  else if match q_target r with Some t => bool_decide (n_phase (getN s t) = PhaseDone) | None => false end then "done"
  else if anyFailed then "failed" else "running".

Definition assembleLocked (r : request) : MS Snapshot :=
  closure ← match q_target r with Some t => dep_closure t | None => mret [] end;
  i ← fresh_tick;
  now ← time_Now;
  s ← getS;
  match closure_phases (S (size (g_heap s))) s (map_order i) ∅ closure with
  | None => out_of_fuel
  | Some phs =>
      let counts := foldl count_phase (mkCounts 0 0 0 0 0) (snd <$> phs) in
      let anyFailed := existsb is_failed (snd <$> phs) in
      let nodes := ssort (λ a b, str_leb (ns_Node a) (ns_Node b)) (node_snap s now <$> phs) in
      let phase := request_phase s r anyFailed in
      mret (mkSnapshot (q_id r) phase counts nodes (negb (String.eqb phase "running")) (q_failReason r))
  end.

Definition putRequestStatusLocked (r : request) (snap : Snapshot) : MS unit :=
  emit (EReqStatus (q_id r) (sn_Phase snap) (sn_Counts snap)).

(** ** The fleet *)

Definition runnerLiveWindow : Z := 15 * 1000000000.

Definition livePlatformLocked (s : Sched) (platform : string) (now : Z) : bool :=
  let cutoff := (now - runnerLiveWindow)%Z in
  existsb (λ kv : string * RunnerInfo, String.eqb (ri_Platform kv.2) platform && (cutoff <=? ri_SeenNs kv.2)%Z)
    (map_to_list (g_fleet s)).

Record Hello := { h_ID : string; h_Name : string; h_Platform : string; h_Size : string; h_CPUMilli : Z; h_MemBytes : Z }.
Record Heartbeat := { hb_ID : string; hb_InFlight : Z; hb_FreeCPU : Z; hb_FreeMem : Z }.

Definition onRunnerHello (hello : option Hello) : MS unit :=
  match hello with
  | None => mret tt
  | Some h =>
      if String.eqb (h_ID h) "" then mret tt
      else now ← time_Now;
           modS (λ s, set_g_fleet (<[h_ID h := {| ri_ID := h_ID h; ri_Name := h_Name h; ri_Platform := h_Platform h;
             ri_Size := h_Size h; ri_InFlight := 0; ri_FreeCPU := h_CPUMilli h; ri_FreeMem := h_MemBytes h;
             ri_SeenNs := now |}]> (g_fleet s)) s)
  end.

Definition zero_info : RunnerInfo :=
  {| ri_ID := ""; ri_Name := ""; ri_Platform := ""; ri_Size := ""; ri_InFlight := 0; ri_FreeCPU := 0;
     ri_FreeMem := 0; ri_SeenNs := 0 |}.

Definition onRunnerHeartbeat (hb : option Heartbeat) : MS unit :=
  match hb with
  | None => mret tt
  | Some h =>
      if String.eqb (hb_ID h) "" then mret tt
      else now ← time_Now;
           modS (λ s,
             let info := default zero_info (g_fleet s !! hb_ID h) in
             set_g_fleet (<[hb_ID h := {| ri_ID := hb_ID h; ri_Name := ri_Name info; ri_Platform := ri_Platform info;
               ri_Size := ri_Size info; ri_InFlight := hb_InFlight h; ri_FreeCPU := hb_FreeCPU h;
               ri_FreeMem := hb_FreeMem h; ri_SeenNs := now |}]> (g_fleet s)) s)
  end.

(** ** Submitting *)

Record SubmitRequest := {
  sr_Def : string; sr_CPU : string; sr_Memory : string; sr_ScratchRef : string; sr_Label : string }.

Definition ParseCPU (s : string) : result string Z :=
  let s := TrimSpace s in
  if String.eqb s "" then Err "empty cpu"
  else if HasSuffix s "m" then
    match ParseInt (TrimSuffix s "m") with Some v => Ok v | None => Err ("cpu " +:+ s) end
  else match parse_float_milli s with Some v => Ok v | None => Err ("cpu " +:+ s) end.

Definition clientScratchPrefix := "client-push/".

Definition fail {A} (c : err_code) (msg : string) : MS (result (err_code * string) A) := mret (Err (c, msg)).

(** The validation of a submission, before anything is written. *)
Definition check_submit (req : SubmitRequest) : result (err_code * string) (Definition_ * Resources) :=
  if String.eqb (sr_Def req) "" then Err (CodeBadRequest, "submit: empty definition")
  else match dec_Definition (sr_Def req) with
  | Err e => Err (CodeBadRequest, "submit: decode definition: " +:+ e)
  | Ok def =>
  match enc_Definition def with
  | Err e => Err (CodeBadRequest, "submit: canonicalize definition: " +:+ e)
  | Ok canon =>
  if negb (String.eqb canon (sr_Def req)) then Err (CodeBadRequest, "submit: definition is not canonical CBOR")
  else if String.eqb (d_Platform def) "" then Err (CodeBadRequest, "submit: definition has no platform")
  else
    let sk := in_Kind (d_Source def) in
    if negb (String.eqb sk InputKind.Import || String.eqb sk InputKind.Build || String.eqb sk InputKind.Tree)
    then Err (CodeBadRequest, "submit: unknown source kind " +:+ sk)
    else match (if String.eqb (sr_CPU req) "" then Ok 0%Z else ParseCPU (sr_CPU req)) with
    | Err e => Err (CodeBadRequest, "submit: " +:+ e)
    | Ok cpu =>
    match (if String.eqb (sr_Memory req) "" then Ok 0%Z else ParseMem (sr_Memory req)) with
    | Err e => Err (CodeBadRequest, "submit: " +:+ e)
    | Ok mem => Ok (def, mkRes cpu mem)
    end end end end.

(** The store half: publish a complete tree source, ingest the definition,
    write its bookkeeping reference. *)
Definition publish_submit (req : SubmitRequest) (def : Definition_) : Store → Store * result (err_code * string) Key := λ st,
  let tree :=
    if negb (String.eqb (in_Kind (d_Source def)) InputKind.Tree) then (st, Ok tt)
    else match dec_TreeKey (in_Definition (d_Source def)) with
    | Err e => (st, Err (CodeBadRequest, "submit: decode tree source: " +:+ e))
    | Ok t =>
        match obj_CheckComplete (st_objs st) t with
        | Err e => (st, Err (CodeIncomplete, "submit: source tree incomplete: " +:+ e))
        | Ok _ => let '(st', r) := PutRef (build_from_tree t) t st in
                  (st', match r with Ok _ => Ok tt | Err e => Err (CodeInternal, "submit: publish build-from-tree: " +:+ e) end)
        end
    end in
  match tree with
  | (st, Err e) => (st, Err e)
  | (st, Ok _) =>
      let '(o, r) := obj_IngestFile (st_objs st) (sr_Def req) in
      let st := set_objs o st in
      match r with
      | Err e => (st, Err (CodeInternal, "submit: ingest definition: " +:+ e))
      | Ok k =>
          if negb (bool_decide (FileKey (sr_Def req) = Ok k))
          then (st, Err (CodeInternal, "submit: ingested key does not match definition key"))
          else let '(st, r) := PutRef ("build:" +:+ key_String k) k st in
               (st, match r with Ok _ => Ok k | Err e => Err (CodeInternal, "submit: bookkeeping ref: " +:+ e) end)
      end
  end.

Definition set_target (id : string) (t : loc) : MS unit :=
  modS (λ s, set_g_requests (alter (set_q_target (Some t)) id (g_requests s)) s).

(** The critical section: register, join, snapshot, reject without runners. *)
Definition submit_locked (P : procs) (id : string) (k : Key) (req : SubmitRequest) (def : Definition_) (res : Resources)
    : MS (result (err_code * string) unit) :=
  s ← getS;
  if g_closed s then fail CodeUnavailable "scheduler closed"
  else
    now ← time_Now;
    modS (λ s, set_g_requests (<[id := mkReq id k (d_Platform def) res now false None "" None]> (g_requests s)) s);;
    t ← require P KindBuildValue k (sr_Def req) (d_Platform def) None (Some {[id]}) (sr_Label req);
    set_target id t;;
    let r := mkReq id k (d_Platform def) res now false (Some t) "" None in
    snap ← assembleLocked r;
    now2 ← time_Now;
    s ← getS;
    if negb (sn_Terminal snap) && negb (livePlatformLocked s (d_Platform def) now2) then
      dropInterestLocked id (Some t);;
      modS (λ s, set_g_requests (delete id (g_requests s)) s);;
      fail CodeUnavailable ("no live runners for platform " +:+ d_Platform def)
    else
      putRequestStatusLocked r snap;;
      bumpLocked;;
      mret (Ok tt).

Definition delete_client_scratch (ref : string) : MS unit :=
  if String.eqb ref "" then mret tt
  else if negb (HasPrefix ref clientScratchPrefix) then mret tt
  else modS (λ s, set_g_store (DeleteRef ref (g_store s)).1 s).

Definition newRequestID : MS (result string string) := i ← fresh_tick; mret (rand_id i).

Definition Submit (P : procs) (req : SubmitRequest) : MS (result (err_code * string) (string * Key)) :=
  match check_submit req with
  | Err e => mret (Err e)
  | Ok (def, res) =>
      r ← (λ s, let '(st, r) := publish_submit req def (g_store s) in Some (r, set_g_store st s));
      match r with
      | Err e => mret (Err e)
      | Ok k =>
          idr ← newRequestID;
          match idr with
          | Err e => fail CodeInternal ("submit: " +:+ e)
          | Ok id =>
              r ← submit_locked P id k req def res;
              match r with
              | Err e => mret (Err e)
              | Ok _ => delete_client_scratch (sr_ScratchRef req);; mret (Ok (id, k))
              end
          end
      end
  end.

(** ** Cancelling and deleting *)

Definition upd_req (id : string) (f : request → request) : MS unit :=
  modS (λ s, set_g_requests (alter f id (g_requests s)) s).

Definition Cancel (id : string) : MS (result (err_code * string) unit) :=
  s ← getS;
  match g_requests s !! id with
  | None => fail CodeNotFound ("request " +:+ id +:+ " not found")
  | Some r =>
      if q_cancelled r then mret (Ok tt)
      else
        upd_req id (set_q_cancelled true);;
        let r := set_q_cancelled true r in
        dropInterestLocked id (q_target r);;
        snap ← assembleLocked r;
        putRequestStatusLocked r snap;;
        bumpLocked;;
        mret (Ok tt)
  end.

(** [Delete], with the final snapshot it hands to the request's watchers. *)
Definition Delete (id : string) : MS (result (err_code * string) Snapshot) :=
  s ← getS;
  match g_requests s !! id with
  | None => fail CodeNotFound ("request " +:+ id +:+ " not found")
  | Some r =>
      upd_req id (set_q_cancelled true);;
      let r := set_q_cancelled true r in
      dropInterestLocked id (q_target r);;
      final ← assembleLocked r;
      let final := mkSnapshot (sn_RequestID final) (sn_Phase final) (sn_Counts final) (sn_Nodes final) true (sn_Error final) in
      modS (λ s, set_g_requests (delete id (g_requests s)) s);;
      bumpLocked;;
      emit (EPurge ("req." +:+ id));;
      mret (Ok final)
  end.

(** ** The no-runners watchdog *)

(** One request's turn of [checkNoRunnersLocked]. *)
Definition check_request (now : Z) (id : string) : MS unit :=
  s ← getS;
  match g_requests s !! id with
  | None => mret tt
  | Some r =>
      if q_cancelled r || negb (String.eqb (q_failReason r) "") then upd_req id (set_q_noRunnersSince None)
      else
        snap ← assembleLocked r;
        s ← getS;
        if sn_Terminal snap || livePlatformLocked s (q_platform r) now then upd_req id (set_q_noRunnersSince None)
        else match q_noRunnersSince r with
        | None => upd_req id (set_q_noRunnersSince (Some now))
        | Some since =>
            if (now - since <? g_noRunnerAfter s)%Z then mret tt
            else
              upd_req id (set_q_failReason ("no live runners for platform " +:+ q_platform r));;
              dropInterestLocked (q_id r) (q_target r);;
              bumpLocked
        end
  end.

(** The requests are visited in some order; [SortStrings] is one of them. *)
Definition checkNoRunnersLocked (now : Z) : MS unit :=
  s ← getS;
  mfor (check_request now) (SortStrings (elements (dom (g_requests s)))).

(** ** The log fold *)

Definition logHeadCap : Z := 2 ^ 20.
Definition logTailCap : Z := 3 * 2 ^ 20.
Definition maxLogNodes : nat := 512.

Record LogChunk := { lc_Gen : Z; lc_Stream : string; lc_Seq : Z; lc_Data : bytes }.

(** The entry updated least recently (never updated is oldest). *)
Definition log_before (a b : option Z) : bool :=
  match a, b with
  | None, Some _ => true
  | Some x, Some y => (x <? y)%Z
  | _, None => false
  end.

Definition oldest_log (logs : gmap string nodeLog) : option string :=
  fst <$> foldl (λ acc kv, match acc with
    | None => Some (kv.1, nl_updated kv.2)
    | Some (n, t) => if log_before (nl_updated kv.2) t then Some (kv.1, nl_updated kv.2) else Some (n, t)
    end) None (map_to_list logs).

Fixpoint evictLogs (fuel : nat) (logs : gmap string nodeLog) : gmap string nodeLog :=
  match fuel with
  | O => logs
  | S fuel =>
      if (maxLogNodes <? size logs)%nat then
        match oldest_log logs with Some n => evictLogs fuel (delete n logs) | None => logs end
      else logs
  end.

Definition evictLogsLocked : MS unit :=
  modS (λ s, set_g_logs (evictLogs (size (g_logs s)) (g_logs s)) s).

(** Fold a chunk into the node's newest capture. *)
Definition fold_chunk (name : string) (c : LogChunk) : MS unit :=
  s ← getS;
  (match g_logs s !! name with
   | Some lb => if (nl_gen lb <? lc_Gen c)%Z
                then modS (λ s, set_g_logs (<[name := mkNodeLog (lc_Gen c) (newLogBuffer logHeadCap logTailCap) None]> (g_logs s)) s);;
                     evictLogsLocked
                else mret tt
   | None => modS (λ s, set_g_logs (<[name := mkNodeLog (lc_Gen c) (newLogBuffer logHeadCap logTailCap) None]> (g_logs s)) s);;
             evictLogsLocked
   end).

Definition onLogChunk (subject : string) (chunk : option LogChunk) : MS unit :=
  match CutPrefix subject "logs.", chunk with
  | Some name, Some c =>
      if String.eqb name "" then mret tt else
      fold_chunk name c;;
      now ← time_Now;
      modS (λ s, match g_logs s !! name with
        | Some lb => if (lc_Gen c =? nl_gen lb)%Z
                     then set_g_logs (<[name := mkNodeLog (nl_gen lb)
                            (logBuffer_write (nl_buf lb) (lc_Stream c) (lc_Seq c) (lc_Data c)) (Some now)]> (g_logs s)) s
                     else s
        | None => s
        end);;
      match ParseNodeName name with
      | None => mret tt
      | Some id =>
          s ← getS;
          match g_nodes s !! id with
          | None => mret tt
          | Some l =>
              let n := getN s l in
              if (n_gen n =? lc_Gen c)%Z && bool_decide (n_phase n = PhaseQueued) then
                upd l (set_n_phase PhaseRunning);;
                now ← time_Now;
                upd l (set_n_startedAt (Some now));;
                putNodeStatusLocked l;;
                bumpLocked
              else mret tt
          end
      end
  | _, _ => mret tt
  end.

(** ** Diagnosis: the root failures of a request's closure *)

Definition failingClosureLocked (r : request) : MS (list string) :=
  closure ← match q_target r with Some t => dep_closure t | None => mret [] end;
  s ← getS;
  let name l := n_name (getN s l) in
  let failed := List.filter (λ l, bool_decide (n_phase (getN s l) = PhaseFailed)) closure in
  let retrying := List.filter (λ l, let n := getN s l in
    negb (bool_decide (n_phase n = PhaseFailed)) && ((0 <? n_consecRetry n)%Z || (0 <? n_consecControl n)%Z)) closure in
  mret (SortStrings (name <$> (if bool_decide (failed = []) then retrying else failed))).
End Submit.
