(* ===== verification/GraphFacts.v ===== *)
(** * Facts about the graph operations: what every one of them preserves

    [grows s s'] is the relation between a state and any later state of one
    critical section: no node, edge, interest or reference disappears, a done
    node stays done, a publishing one is left alone. Every operation of [Graph] but eviction keeps it. *)
From S2P Require Import Prelude GoLib Resources Keys Wire Builddef Store Gate Commit LogBuf SchedState PullRefs Graph Results Submit.
From Stdlib Require Import Ascii.
Local Open Scope string_scope.
Local Open Scope list_scope.

Section WP.
Context {S : Type}.

(** Partial correctness: whatever [m] returns from [s] satisfies [Q]. *)
Definition wp {A} (m : M S A) (s : S) (Q : A → S → Prop) : Prop :=
  ∀ a s', m s = Some (a, s') → Q a s'.

Lemma wp_bind {A B} (m : M S A) (k : A → M S B) s Q :
  wp m s (λ a s', wp (k a) s' Q) → wp (m ≫= k) s Q.
Proof.
  intros H b s' Hb. apply M_bind_inv in Hb as (a & s1 & H1 & H2). by eapply H.
Qed.
Lemma wp_ret {A} (a : A) s (Q : A → S → Prop) : Q a s → wp (mret a) s Q.
Proof. by intros ? ? ? [= <- <-]. Qed.
Lemma wp_get s (Q : S → S → Prop) : Q s s → wp getS s Q.
Proof. by intros ? ? ? [= <- <-]. Qed.
Lemma wp_mod f s (Q : unit → S → Prop) : Q tt (f s) → wp (modS f) s Q.
Proof. by intros ? ? ? [= <- <-]. Qed.
Lemma wp_fuel {A} s (Q : A → S → Prop) : wp out_of_fuel s Q.
Proof. by intros ? ? [=]. Qed.
Lemma wp_mono {A} (m : M S A) s (Q Q' : A → S → Prop) :
  wp m s Q → (∀ a s', Q a s' → Q' a s') → wp m s Q'.
Proof. intros H HQ a s' E. eauto. Qed.
Lemma wp_keeps {A} R (m : M S A) s (Q : A → S → Prop) :
  keeps R m → (∀ a s', R s s' → Q a s') → wp m s Q.
Proof. intros H HQ a s' E. eauto. Qed.

Lemma wp_for {A} (I : S → Prop) (f : A → M S unit) l s :
  I s → (∀ x s, x ∈ l → I s → wp (f x) s (λ _, I)) → wp (mfor f l) s (λ _, I).
Proof.
  revert s. induction l as [|x l IH]; intros s Hs Hf; simpl; [by apply wp_ret|].
  apply wp_bind. eapply wp_mono; [apply Hf; [left|done]|]. intros [] s' Hs'.
  apply IH; [done|]. intros y s1 Hy. apply Hf. by right.
Qed.
End WP.

(** Symbolic execution of one step. *)
Ltac wp_step :=
  lazymatch goal with
  | |- wp (mbind _ _) _ _ => apply wp_bind
  | |- wp (mret _) _ _ => apply wp_ret
  | |- wp getS _ _ => apply wp_get
  | |- wp (modS _) _ _ => apply wp_mod
  | |- wp out_of_fuel _ _ => apply wp_fuel
  | |- wp (if ?b then _ else _) _ _ => destruct b eqn:?
  | |- wp (match ?x with _ => _ end) _ _ => destruct x eqn:?
  end.

Section GraphFacts.
Context `{SE0 : SchedEnv}.

(** ** Growth *)

Record node_le (n n' : node) : Prop := {
  nle_id : n_id n' = n_id n;
  nle_name : n_name n' = n_name n;
  nle_last : n_lastResultGen n' = n_lastResultGen n;
  nle_retry : n_consecRetry n' = n_consecRetry n;
  nle_control : n_consecControl n' = n_consecControl n;
  nle_deps : n_deps n ⊆ n_deps n';
  nle_dependents : n_dependents n ⊆ n_dependents n';
  nle_interest : n_interest n ⊆ n_interest n';
  nle_done : n_phase n = PhaseDone → n_phase n' = PhaseDone;
  nle_pub : n_phase n = PhasePublishing ↔ n_phase n' = PhasePublishing;
  nle_f : is_Some (n_f n) → n_f n' = n_f n }.

Global Instance node_le_preorder : PreOrder node_le.
Proof.
  split.
  - intros n. by split.
  - intros n1 n2 n3 [] []. split; try congruence; try (by etransitivity); auto.
    intros H. rewrite nle_f1; [auto|]. by rewrite nle_f0.
Qed.

Record grows (s s' : Sched) : Prop := {
  gr_nodes : g_nodes s ⊆ g_nodes s';
  gr_heap : ∀ l n, g_heap s !! l = Some n → ∃ n', g_heap s' !! l = Some n' ∧ node_le n n';
  gr_refs : dom (st_refs (g_store s)) ⊆ dom (st_refs (g_store s'));
  gr_reqs : g_requests s' = g_requests s;
  gr_closed : g_closed s' = g_closed s;
  gr_out : ∃ es, g_out s' = g_out s ++ es }.

Global Instance grows_preorder : PreOrder grows.
Proof.
  split.
  - intros s. split; try done; [intros l n ?; exists n; by split|exists []; by rewrite app_nil_r].
  - intros s1 s2 s3 [N1 H1 R1 Q1 C1 [o1 O1]] [N2 H2 R2 Q2 C2 [o2 O2]].
    split; try congruence; try (by etransitivity).
    + intros l n Hn. apply H1 in Hn as (n' & Hn' & L). apply H2 in Hn' as (n'' & Hn'' & L').
      exists n''. split; [done|]. by etransitivity.
    + exists (o1 ++ o2). by rewrite O2, O1, (assoc_L (++)).
Qed.

Lemma getN_heap s l n : g_heap s !! l = Some n → getN s l = n.
Proof. intros H. unfold getN. by apply lookup_total_correct. Qed.

Lemma grows_updN l f s : node_le (getN s l) (f (getN s l)) → grows s (updN l f s).
Proof.
  intros Hf. split; simpl; try done; [|exists []; by rewrite app_nil_r].
  intros l' n Hn. destruct (decide (l = l')) as [<-|Hne].
  - exists (f n). rewrite lookup_alter_eq, Hn. split; [done|]. by rewrite <- (getN_heap _ _ _ Hn).
  - exists n. by rewrite lookup_alter_ne.
Qed.

(** Store operations: no reference is ever removed by one. *)
Definition puts_only {A} (m : SE A) : Prop :=
  ∀ st, dom (st_refs st) ⊆ dom (st_refs (m st).1).

Lemma po_ret {A} (a : A) : puts_only (mret a). Proof. by intros st. Qed.
Lemma po_err {A} e : puts_only (se_err (A := A) e). Proof. by intros st. Qed.
Lemma po_get n : puts_only (se_get n). Proof. by intros st. Qed.
Lemma po_obj {A} f : puts_only (se_obj (A := A) f). Proof. by intros st. Qed.
Lemma po_lift {A} r : puts_only (se_lift (A := A) r). Proof. by intros st. Qed.
Lemma po_ingest {A} f : puts_only (se_ingest (A := A) f).
Proof. intros st. unfold se_ingest. by destruct (f (st_objs st)). Qed.
Lemma po_put n k : puts_only (se_put n k).
Proof.
  intros st. unfold se_put, PutRef. repeat case_match; simpl; [done..|]. rewrite dom_insert. set_solver.
Qed.
Lemma po_bind {A B} (m : SE A) (k : A → SE B) : puts_only m → (∀ a, puts_only (k a)) → puts_only (m ≫= k).
Proof.
  intros Hm Hk st. unfold mbind, SE_bind. specialize (Hm st). destruct (m st) as [st1 [a|e]]; simpl in *; [|done].
  etransitivity; [exact Hm|apply Hk].
Qed.
End GraphFacts.

Create HintDb growdb.
#[export] Hint Resolve po_ret po_err po_get po_obj po_lift po_ingest po_put : growdb.

(** Decompose [puts_only] over the structure of a program. *)
Ltac po_auto :=
  repeat first
    [ progress intros
    | solve [eauto with growdb]
    | apply po_bind
    | match goal with |- puts_only (match ?x with _ => _ end) => destruct x end
    | match goal with |- puts_only (if ?x then _ else _) => destruct x end ].

Section StoreOps.
Context `{SL : StoreLib}.

Lemma po_deriveKP f : puts_only (deriveKP f).
Proof. unfold deriveKP. po_auto. Qed.
Lemma po_resolveKP f : puts_only (resolveKP f).
Proof. unfold resolveKP. apply po_bind; [po_auto|]. intros [kp|]; [apply po_ret|apply po_deriveKP]. Qed.
Lemma po_ensureFAliases f kp : puts_only (ensureFAliases f kp).
Proof. unfold ensureFAliases. po_auto. Qed.
Lemma po_healCarrier n k : puts_only (healCarrier n k).
Proof. unfold healCarrier. po_auto. Qed.
Lemma po_addIfPresent n out : puts_only (addIfPresent n out).
Proof. unfold addIfPresent. po_auto. Qed.
Lemma po_addInputOutputs i w out : puts_only (addInputOutputs i w out).
Proof. unfold addInputOutputs. po_auto. Qed.
Lemma po_addInputs w l out : puts_only (addInputs w l out).
Proof. revert out. induction l; intros out; simpl; [apply po_ret|]. apply po_bind; [apply po_addInputOutputs|auto]. Qed.
Lemma po_addPresent l out : puts_only (addPresent l out).
Proof. revert out. induction l; intros out; simpl; [apply po_ret|]. apply po_bind; [apply po_addIfPresent|auto]. Qed.
End StoreOps.

#[export] Hint Resolve po_resolveKP po_ensureFAliases po_healCarrier po_addIfPresent po_addInputOutputs
  po_addInputs po_addPresent : growdb.

Lemma po_computePullRefs `{SL : StoreLib} n : puts_only (computePullRefs n).
Proof. unfold computePullRefs, pull_import, pull_buildfrom, pull_pin, pull_buildrun. po_auto. Qed.

#[export] Hint Resolve po_computePullRefs : growdb.

(** ** Interest propagation *)

Section Interest.
Context `{SE0 : SchedEnv}.

Abbreviation interest s l := (n_interest (getN s l)).
Abbreviation deps s l := (n_deps (getN s l)).

(** [int_only s s']: only interest was added. *)
Record int_only (s s' : Sched) : Prop := {
  io_rest : s' = set_g_heap (g_heap s') (set_g_ticks (g_ticks s') s);
  io_heap : ∀ l, ∃ I, g_heap s' !! l = set_n_interest I <$> g_heap s !! l ∧ n_interest (getN s l) ⊆ I }.

Lemma set_interest_id n : set_n_interest (n_interest n) n = n.
Proof. by destruct n. Qed.

Lemma int_only_refl s : int_only s s.
Proof.
  split; [by destruct s|]. intros l. exists (interest s l). split; [|done].
  unfold getN. rewrite lookup_total_alt. destruct (g_heap s !! l) as [n|]; simpl; [|done].
  by rewrite set_interest_id.
Qed.

Lemma int_only_getN s s' l :
  int_only s s' → ∃ I, getN s' l = set_n_interest I (getN s l) ∧ (l ∉ dom (g_heap s) → I = ∅) ∧ interest s l ⊆ I.
Proof.
  intros H. destruct (io_heap _ _ H l) as (I & Hh & HI). unfold getN in *. rewrite !lookup_total_alt in *. rewrite Hh.
  destruct (g_heap s !! l) as [n|] eqn:E; simpl in *.
  - exists I. split_and!; [done| |done]. intros Hn. destruct Hn. by apply elem_of_dom.
  - exists ∅. split_and!; [done|done|done].
Qed.

Lemma int_only_trans s1 s2 s3 : int_only s1 s2 → int_only s2 s3 → int_only s1 s3.
Proof.
  intros H1 H2. split.
  - rewrite (io_rest _ _ H2) at 1. rewrite (io_rest _ _ H1). done.
  - intros l. destruct (io_heap _ _ H1 l) as (I1 & E1 & S1), (io_heap _ _ H2 l) as (I2 & E2 & S2).
    exists I2. rewrite E2, E1. split; [by destruct (g_heap s1 !! l)|].
    destruct (int_only_getN _ _ l H1) as (I' & E & _ & HI). rewrite E in S2. simpl in S2. set_solver.
Qed.

Lemma int_only_deps s s' l : int_only s s' → deps s' l = deps s l.
Proof. intros H. by destruct (int_only_getN _ _ l H) as (I & -> & _). Qed.

Lemma int_only_interest s s' l : int_only s s' → interest s l ⊆ interest s' l.
Proof. intros H. by destruct (int_only_getN _ _ l H) as (I & -> & _ & HI). Qed.

Lemma int_only_dom s s' : int_only s s' → dom (g_heap s') = dom (g_heap s).
Proof.
  intros H. apply set_eq. intros l. destruct (io_heap _ _ H l) as (I & E & _).
  rewrite !elem_of_dom, E. by destruct (g_heap s !! l); simpl; split; intros [? ?]; eauto.
Qed.

Lemma int_only_grows s s' : int_only s s' → grows s s'.
Proof.
  intros H. pose proof (io_rest _ _ H) as E. split.
  - by rewrite E.
  - intros l n Hn. destruct (io_heap _ _ H l) as (I & Hl & HI). rewrite Hn in Hl. simpl in Hl.
    exists (set_n_interest I n). split; [done|]. rewrite (getN_heap _ _ _ Hn) in HI. by split.
  - by rewrite E.
  - by rewrite E.
  - by rewrite E.
  - rewrite E. exists []. by rewrite app_nil_r.
Qed.

Lemma int_only_tick s : int_only s (set_g_ticks (S (g_ticks s)) s).
Proof. split; [by destruct s|]. intros l. destruct (io_heap _ _ (int_only_refl s) l) as (I & ? & ?). by exists I. Qed.

Lemma int_only_upd s l I : interest s l ⊆ I → int_only s (updN l (set_n_interest I) s).
Proof.
  intros HI. split; [by destruct s|]. intros l'. destruct (decide (l = l')) as [<-|Hne].
  - exists I. split; [|done]. simpl. by rewrite lookup_alter_eq.
  - destruct (io_heap _ _ (int_only_refl s) l') as (I' & ? & ?). exists I'. split; [|done].
    simpl. by rewrite lookup_alter_ne.
Qed.

Lemma getN_updN s l f : l ∈ dom (g_heap s) → getN (updN l f s) l = f (getN s l).
Proof.
  intros [n Hn]%elem_of_dom. unfold getN. simpl. rewrite !lookup_total_alt, lookup_alter_eq, Hn. done.
Qed.

Lemma getN_updN_ne s l l' f : l ≠ l' → getN (updN l f s) l' = getN s l'.
Proof. intros H. unfold getN. simpl. by rewrite !lookup_total_alt, lookup_alter_ne. Qed.

(** Edges leave from and arrive at allocated nodes. *)
Definition deps_alloc (s : Sched) : Prop := ∀ l d, d ∈ deps s l → d ∈ dom (g_heap s).

(** Interest is closed along dependency edges, off a set of nodes. *)
Definition closed_off (St : gset loc) (s : Sched) : Prop :=
  ∀ l d, l ∉ St → d ∈ deps s l → interest s l ⊆ interest s d.

Definition interest_closed (s : Sched) : Prop := closed_off ∅ s.

Lemma deps_alloc_int s s' : int_only s s' → deps_alloc s → deps_alloc s'.
Proof. intros H Ha l d. rewrite (int_only_deps _ _ _ H), (int_only_dom _ _ H). apply Ha. Qed.

Lemma wp_node_at l s (Q : node → Sched → Prop) : Q (getN s l) s → wp (node_at l) s Q.
Proof. by intros ? ? ? [= <- <-]. Qed.
Lemma wp_range X s (Q : list loc → Sched → Prop) :
  Q (map_order (g_ticks s) X) (set_g_ticks (S (g_ticks s)) s) → wp (range_map X) s Q.
Proof. by intros ? ? ? [= <- <-]. Qed.
Lemma wp_now s (Q : Z → Sched → Prop) :
  Q (clk (g_ticks s)) (set_g_ticks (S (g_ticks s)) s) → wp time_Now s Q.
Proof. by intros ? ? ? [= <- <-]. Qed.
Lemma wp_tick s (Q : nat → Sched → Prop) :
  Q (g_ticks s) (set_g_ticks (S (g_ticks s)) s) → wp fresh_tick s Q.
Proof. by intros ? ? ? [= <- <-]. Qed.

(** Reachability along dependencies. *)
Definition reach (s : Sched) : loc → loc → Prop := rtc (λ a b, b ∈ deps s a).

Lemma reach_eq s s' a b : (∀ x, deps s x ⊆ deps s' x) → reach s a b → reach s' a b.
Proof. intros H. apply rtc_subrel. intros x y Hy. by apply H. Qed.

(** What a propagation of [ids] establishes. *)
Definition prop_post (ids : gset string) (St : gset loc) (ls : list loc) (s s' : Sched) : Prop :=
  int_only s s' ∧ closed_off St s' ∧ (∀ l, l ∈ ls → ids ⊆ interest s' l) ∧
  (∀ x, interest s' x ⊆ interest s x ∪ ids) ∧
  (∀ x, interest s' x = interest s x ∨ ∃ l, l ∈ ls ∧ reach s l x).

Lemma propagate_for fuel ids St ds :
  (∀ l s, (∀ x, x ∈ St → ids ⊆ interest s x) → l ∈ dom (g_heap s) → deps_alloc s → closed_off St s →
    wp (propagate fuel ids l) s (λ _, prop_post ids St [l] s)) →
  ∀ s, (∀ x, x ∈ St → ids ⊆ interest s x) → (∀ d, d ∈ ds → d ∈ dom (g_heap s)) → deps_alloc s → closed_off St s →
  wp (mfor (propagate fuel ids) ds) s (λ _, prop_post ids St ds s).
Proof.
  intros Hp. induction ds as [|d ds IH]; intros s HSt Hdom Hal Hcl; simpl.
  { apply wp_ret. split_and!; [apply int_only_refl|done|intros l []%elem_of_nil|set_solver|by left]. }
  apply wp_bind. eapply wp_mono; [apply Hp; [done|apply Hdom; left|done|done]|].
  intros [] s1 (Hio & Hcl1 & Hd & Hb & Hr). eapply wp_mono; [apply IH|].
  - intros x Hx. etransitivity; [by apply HSt|by apply int_only_interest].
  - intros x Hx. rewrite (int_only_dom _ _ Hio). apply Hdom. by right.
  - by eapply deps_alloc_int.
  - done.
  - intros [] s2 (Hio2 & Hcl2 & Hd2 & Hb2 & Hr2). split_and!; [by eapply int_only_trans|done| | |].
    + intros l [->|Hl]%elem_of_cons; [|by apply Hd2].
      etransitivity; [apply (Hd d); left|by apply int_only_interest].
    + intros x. specialize (Hb x). specialize (Hb2 x). set_solver.
    + intros x. destruct (Hr2 x) as [->|(l & Hl & Hx)].
      * destruct (Hr x) as [->|(l & ->%list_elem_of_singleton & Hx)]; [by left|right]. exists d. split; [left|done].
      * right. exists l. split; [by right|]. eapply reach_eq; [|exact Hx]. intros y. by rewrite (int_only_deps _ _ y Hio).
Qed.

Lemma propagate_spec fuel ids : ∀ St l s,
  (∀ x, x ∈ St → ids ⊆ interest s x) → l ∈ dom (g_heap s) → deps_alloc s → closed_off St s →
  wp (propagate fuel ids l) s (λ _, prop_post ids St [l] s).
Proof.
  induction fuel as [|fuel IH]; intros St l s HSt Hl Hal Hcl; [apply wp_fuel|]. simpl.
  apply wp_bind, wp_node_at. destruct (decide (ids ⊆ interest s l)) as [Hin|Hnin].
  { apply wp_ret. split_and!; [apply int_only_refl|done| |set_solver|by left].
    intros l' ->%list_elem_of_singleton. done. }
  apply wp_bind, wp_mod. apply wp_bind, wp_range.
  set (s0 := updN l (set_n_interest (interest s l ∪ ids)) s).
  set (s1 := set_g_ticks (S (g_ticks s0)) s0).
  assert (Hio : int_only s s1).
  { eapply int_only_trans; [apply (int_only_upd s l (interest s l ∪ ids)); set_solver|apply int_only_tick]. }
  assert (Hself : interest s1 l = interest s l ∪ ids).
  { change (interest s1 l) with (interest s0 l). unfold s0. by rewrite getN_updN. }
  assert (Hother : ∀ x, x ≠ l → interest s1 x = interest s x).
  { intros x Hx. change (interest s1 x) with (interest s0 x). unfold s0. by rewrite getN_updN_ne. }
  eapply wp_mono; [apply (propagate_for fuel ids ({[l]} ∪ St)); [intros; by apply IH|..]|].
  - intros x [->%elem_of_singleton|Hx]%elem_of_union; [set_solver|].
    etransitivity; [by apply HSt|by apply int_only_interest].
  - intros d Hd. rewrite (int_only_dom _ _ Hio). apply (Hal l).
    rewrite map_order_perm in Hd. by apply elem_of_elements.
  - by eapply deps_alloc_int.
  - intros x d Hx Hd. rewrite (int_only_deps _ _ _ Hio) in Hd. rewrite (Hother x) by set_solver.
    etransitivity; [apply (Hcl x d); set_solver|by apply int_only_interest].
  - intros [] s2 (Hio2 & Hcl2 & Hd2 & Hb2 & Hr2).
    assert (Hd : ∀ d, d ∈ deps s l → ids ⊆ interest s2 d).
    { intros d Hd. apply Hd2. rewrite map_order_perm. by apply elem_of_elements. }
    assert (Hbnd : ∀ x, interest s2 x ⊆ interest s x ∪ ids).
    { intros x. specialize (Hb2 x). destruct (decide (x = l)) as [->|Hx]; [set_solver|].
      rewrite (Hother x Hx) in Hb2. done. }
    split_and!; [by eapply int_only_trans| | |done|].
    + intros x d Hx Hxd. destruct (decide (x = l)) as [->|Hne]; [|apply Hcl2; set_solver].
      rewrite (int_only_deps _ _ _ Hio2), (int_only_deps _ _ _ Hio) in Hxd.
      specialize (Hbnd l). specialize (Hd d Hxd). specialize (Hcl l d Hx Hxd).
      pose proof (int_only_interest _ _ d (int_only_trans _ _ _ Hio Hio2)). set_solver.
    + intros l' ->%list_elem_of_singleton.
      etransitivity; [|by apply (int_only_interest _ _ l Hio2)]. set_solver.
    + intros x. destruct (Hr2 x) as [->|(d & Hdx & Hx)].
      * destruct (decide (x = l)) as [->|Hx]; [right; exists l; split; [left|constructor]|left; by apply Hother].
      * right. exists l. split; [left|]. rewrite map_order_perm, elem_of_elements in Hdx.
        econstructor; [exact Hdx|]. eapply reach_eq; [|exact Hx]. intros y. by rewrite (int_only_deps _ _ y Hio).
Qed.

(** ** Termination of the propagation *)

(** The nodes that lack one of [ids]. *)
Definition lacking (ids : gset string) (s : Sched) : gset loc :=
  filter (λ l, ¬ (ids ⊆ interest s l)) (dom (g_heap s)).

Lemma lacking_int ids s s' : int_only s s' → lacking ids s' ⊆ lacking ids s.
Proof.
  intros H l. unfold lacking. rewrite !elem_of_filter, (int_only_dom _ _ H). intros [Hn Hl]. split; [|done].
  intros Hin. apply Hn. etransitivity; [exact Hin|by apply int_only_interest].
Qed.

Lemma lacking_upd ids l s :
  l ∈ lacking ids s →
  (size (lacking ids (updN l (set_n_interest (interest s l ∪ ids)) s)) < size (lacking ids s))%nat.
Proof.
  intros Hl. apply subset_size. split.
  - apply lacking_int, int_only_upd. set_solver.
  - intros Hs. specialize (Hs l Hl). unfold lacking in Hs, Hl. rewrite elem_of_filter in Hs, Hl.
    rewrite getN_updN in Hs by apply Hl. simpl in Hs. set_solver.
Qed.

Lemma propagate_io fuel ids l : keeps int_only (propagate fuel ids l).
Proof.
  revert l. induction fuel as [|fuel IH]; intros l s a s'; [done|]. revert a s'.
  change (wp (propagate (S fuel) ids l) s (λ _ s', int_only s s')). simpl.
  apply wp_bind, wp_node_at. case_decide; [apply wp_ret, int_only_refl|].
  apply wp_bind, wp_mod. apply wp_bind, wp_range.
  match goal with |- wp _ ?s1 _ => set (s2 := s1) end.
  assert (Hio : int_only s s2).
  { eapply int_only_trans; [apply (int_only_upd s l (interest s l ∪ ids)); set_solver|apply int_only_tick]. }
  apply (wp_for (int_only s)); [done|]. intros x s3 _ H3 a s4 H4.
  eapply int_only_trans; [exact H3|by eapply IH].
Qed.

Lemma propagate_total fuel ids : ∀ l s,
  l ∈ dom (g_heap s) → deps_alloc s → (size (lacking ids s) < fuel)%nat →
  ∃ s', propagate fuel ids l s = Some (tt, s').
Proof.
  induction fuel as [|fuel IH]; intros l s Hl Hal Hf; [lia|]. simpl.
  unfold mbind, M_bind. simpl. case_decide as Hin; [by eexists|].
  set (s1 := set_g_ticks _ _).
  assert (Hlack : l ∈ lacking ids s) by (unfold lacking; rewrite elem_of_filter; done).
  pose proof (lacking_upd ids l s Hlack) as Hlt.
  assert (Hio : int_only s s1).
  { eapply int_only_trans; [apply (int_only_upd s l (interest s l ∪ ids)); set_solver|apply int_only_tick]. }
  assert (Hs1 : (size (lacking ids s1) < fuel)%nat) by (change (lacking ids s1) with (lacking ids (updN l (set_n_interest (interest s l ∪ ids)) s)); lia).
  assert (Hds : ∀ d, d ∈ map_order (g_ticks s) (deps s l) → d ∈ dom (g_heap s1)).
  { intros d. rewrite map_order_perm, elem_of_elements, (int_only_dom _ _ Hio). apply Hal. }
  assert (Hal1 : deps_alloc s1) by by eapply deps_alloc_int.
  clearbody s1. revert Hds Hal1 Hs1. generalize (map_order (g_ticks s) (deps s l)).
  clear -IH. intros ds. revert s1. induction ds as [|d ds IHds]; intros s1 Hds Hal1 Hs1; simpl; [by exists s1|].
  destruct (IH d s1) as [s2 E]; [apply Hds; left|done|done|]. unfold mbind, M_bind. rewrite E.
  pose proof (propagate_io _ _ _ _ _ _ E) as Hio. apply IHds.
  - intros x Hx. rewrite (int_only_dom _ _ Hio). apply Hds. by right.
  - by eapply deps_alloc_int.
  - pose proof (subseteq_size _ _ (lacking_int ids _ _ Hio)). lia.
Qed.

Lemma lacking_bound ids s : (size (lacking ids s) <= size (g_heap s))%nat.
Proof. rewrite <- size_dom. apply subseteq_size. unfold lacking. intros x; rewrite elem_of_filter; tauto. Qed.

Lemma propagateInterest_spec l ids s :
  l ∈ dom (g_heap s) → deps_alloc s → interest_closed s →
  ∃ s', propagateInterest l ids s = Some (tt, s') ∧ prop_post ids ∅ [l] s s'.
Proof.
  intros Hl Hal Hcl. unfold propagateInterest, mbind, M_bind. simpl.
  destruct (propagate_total (S (size (g_heap s))) ids l s) as [s' E]; [done|done| |].
  { pose proof (lacking_bound ids s). lia. }
  exists s'. split; [exact E|]. by eapply (propagate_spec _ ids ∅ l s); [set_solver|..].
Qed.
End Interest.

(** * The log fold (src/sched/logfold.go)

    The fold of log chunks per node: its eviction loop terminates and keeps the
    fold within its cap, and what it evicts once the fold is full. *)
From S2P Require Import Prelude GoLib Resources Keys Wire Builddef Store Gate Commit LogBuf SchedState PullRefs Graph Results Submit.

Section LogFold.
Context `{SE0 : SchedEnv}.

(** ** The eviction loop *)

Lemma oldest_log_some logs : logs ≠ ∅ → ∃ n lb, oldest_log logs = Some n ∧ logs !! n = Some lb.
Proof.
  intros Hne. unfold oldest_log. set (f := λ acc kv, _).
  assert (H : ∀ l acc, (∀ a, acc = Some a → ∃ lb, logs !! a.1 = Some lb) → (∀ kv, kv ∈ l → logs !! kv.1 = Some kv.2) →
    (acc ≠ None ∨ l ≠ []) → ∃ a lb, foldl f acc l = Some a ∧ logs !! a.1 = Some lb).
  { induction l as [|[k v] l IH]; intros acc Ha Hl Hor; simpl.
    - destruct acc as [a|]; [|by destruct Hor]. destruct (Ha a eq_refl) as [lb ?]. eauto.
    - apply IH; [|set_solver|].
      + intros a. unfold f. destruct acc as [[n t]|]; [case_match|]; intros [= <-]; simpl; try (by eexists; apply (Hl (k, v)); left).
        apply (Ha _ eq_refl).
      + left. unfold f. destruct acc as [[n t]|]; [case_match|]; done. }
  destruct (H (map_to_list logs) None) as (a & lb & -> & Hlb).
  - done.
  - intros [k v] Hkv. by apply elem_of_map_to_list.
  - right. by rewrite map_to_list_empty_iff.
  - by exists a.1, lb.
Qed.

Lemma evictLogs_bound fuel logs :
  (size logs <= fuel + maxLogNodes)%nat → (size (evictLogs fuel logs) <= maxLogNodes)%nat ∧ evictLogs fuel logs ⊆ logs.
Proof.
  revert logs. induction fuel as [|fuel IH]; intros logs Hsz; simpl; [done|].
  destruct (Nat.ltb_spec maxLogNodes (size logs)) as [Hlt|Hle]; [|done].
  destruct (oldest_log_some logs) as (n & lb & -> & Hn). { intros ->. rewrite map_size_empty in Hlt. lia. }
  assert (Hs : size (delete n logs) = pred (size logs)) by (rewrite map_size_delete, Hn; done).
  destruct (IH (delete n logs)) as [H1 H2]; [lia|]. split; [done|]. etransitivity; [exact H2|]. apply delete_subseteq.
Qed.

(** ** What a full fold evicts *)

Definition updated (lb : nodeLog) : Prop := is_Some (nl_updated lb).

(** An entry that was never updated is the oldest. *)
Lemma oldest_log_new logs name lb :
  map_Forall (λ _ lb, updated lb) logs → logs !! name = None → nl_updated lb = None →
  oldest_log (<[name := lb]> logs) = Some name.
Proof.
  intros Hall Hn Hlb. unfold oldest_log. set (f := λ acc kv, _).
  assert (Hkeep : ∀ l, foldl f (Some (name, None)) l = Some (name, None)).
  { induction l as [|[k v] l IH]; simpl; [done|]. by destruct (nl_updated v). }
  assert (H : ∀ l acc, (∀ a, acc = Some a → is_Some a.2) → (name, lb) ∈ l →
    (∀ k v, (k, v) ∈ l → (k, v) = (name, lb) ∨ updated v) → foldl f acc l = Some (name, None)).
  { induction l as [|[k v] l IH]; intros acc Ha Hin Hl; [by apply elem_of_nil in Hin|]. simpl.
    destruct (Hl k v) as [[= -> ->]|Hu]; [left| |].
    - rewrite <- (Hkeep l). f_equal. unfold f. destruct acc as [[n t]|]; simpl; [|by rewrite Hlb].
      destruct (Ha _ eq_refl) as [t' Ht']. simpl in Ht'. subst t. by rewrite Hlb.
    - apply elem_of_cons in Hin as [[= <- <-]|Hin]; [destruct Hu; congruence|]. apply IH; [|done|set_solver].
      intros a. unfold f. destruct acc as [[n t]|]; [case_match|]; intros [= <-]; simpl; try done. by apply (Ha _ eq_refl). }
  rewrite H; [done|done|apply elem_of_map_to_list, lookup_insert_eq|].
  intros k v Hkv%elem_of_map_to_list. apply lookup_insert_Some in Hkv as [[<- <-]|[_ Hkv]]; [by left|right]. by apply (Hall k v).
Qed.

(** Folding a chunk keeps the fold within its cap, whatever it held. *)
Theorem log_fold_bounded name c s :
  (size (g_logs s) <= maxLogNodes)%nat →
  ∃ s', fold_chunk name c s = Some (tt, s') ∧ (size (g_logs s') <= maxLogNodes)%nat ∧
    ∀ m lb, m ≠ name → g_logs s' !! m = Some lb → g_logs s !! m = Some lb.
Proof.
  intros Hsz. unfold fold_chunk, mbind, M_bind. simpl. set (nb := mkNodeLog _ _ _).
  destruct (evictLogs_bound (size (<[name := nb]> (g_logs s))) (<[name := nb]> (g_logs s))) as [H1 H2]; [lia|].
  assert (H3 : ∀ m lb, m ≠ name → evictLogs (size (<[name := nb]> (g_logs s))) (<[name := nb]> (g_logs s)) !! m = Some lb →
    g_logs s !! m = Some lb).
  { intros m lb Hm Hl. eapply lookup_weaken in Hl; [|exact H2]. by rewrite lookup_insert_ne in Hl. }
  destruct (g_logs s !! name) as [lb|]; [case_match|]; eexists; split_and!; try done.
Qed.

(** Once the fold is full it records no new node: the entry made for the
    first chunk of an unseen node carries no update time yet, so the eviction
    that makes room removes that entry itself and the chunk is lost. *)
Theorem full_fold_drops_new_logs name c s :
  size (g_logs s) = maxLogNodes → map_Forall (λ _ lb, updated lb) (g_logs s) → g_logs s !! name = None →
  ∃ s', fold_chunk name c s = Some (tt, s') ∧ g_logs s' = g_logs s.
Proof.
  intros Hsz Hall Hn. unfold fold_chunk, mbind, M_bind. simpl. rewrite Hn. eexists. split; [done|]. simpl.
  assert (HS : ∀ n, evictLogs (S n) (<[name := mkNodeLog (lc_Gen c) (newLogBuffer logHeadCap logTailCap) None]> (g_logs s)) = g_logs s).
  { intros n. unfold evictLogs. fold evictLogs. rewrite map_size_insert, Hn, Hsz. rewrite oldest_log_new by done.
    rewrite delete_insert_id by done. destruct n; simpl; [done|]. by rewrite Hsz. }
  rewrite map_size_insert, Hn, Hsz. apply HS.
Qed.
End LogFold.

(** * What a job asks its runner to pull

    The references computed for a job exist when the job is published, without
    duplicates, provided the node's inputs are done; carriers missing from the
    store are written back first. *)
From S2P Require Import Prelude GoLib Resources Keys Wire Builddef Store Gate Commit LogBuf SchedState PullRefs.

Section PullFacts.
Context `{SL : StoreLib}.

Abbreviation present st := (dom (st_refs st)).

(** ** Inputs that are done *)

Definition input_ready (withDeps : bool) (st : Store) (i : Input) : Prop :=
  (in_Kind i = InputKind.Import → ∀ k, FileKey (in_Definition i) = Ok k → import_output k ∈ present st) ∧
  (in_Kind i = InputKind.Build → ∀ k f, FileKey (in_Definition i) = Ok k → st_refs st !! build_from k = Some f →
     build_output f ∈ present st ∧ (withDeps = true → build_output_deps f ∈ present st)) ∧
  (in_Kind i = InputKind.Tree → ∀ k, dec_TreeKey (in_Definition i) = Ok k → build_from_tree k ∈ present st).

Definition node_ready (st : Store) (n : node) : Prop :=
  match fst (n_id n) with
  | KindImport => ∀ def fk ff, dec_Import (n_def n) = Ok def → i_FetcherDef def ≠ "" → FileKey (i_FetcherDef def) = Ok fk →
      st_refs st !! build_from fk = Some ff → build_output ff ∈ present st
  | KindBuildFrom => ∀ def, dec_Definition (n_def n) = Ok def → input_ready true st (d_Source def)
  | KindPin => build_plugin_resolved (snd (n_id n)) ∈ present st ∧ Forall (input_ready false st) (n_pinInputs n)
  | KindBuildRun => build_pinned (snd (n_id n)) ∈ present st ∧ Forall (input_ready true st) (n_runInputs n)
  | KindPluginResolve | KindBuildValue => True
  end.

(** ** Lists of names *)

Definition good (st : Store) (out : list string) : Prop := NoDup out ∧ ∀ name, name ∈ out → name ∈ present st.

Lemma good_nil st : good st [].
Proof. split; [constructor|]. by intros ? ?%elem_of_nil. Qed.

Lemma good_add st out name : good st out → name ∈ present st → good st (add_ref out name).
Proof.
  intros [Hn Ho] Hp. unfold add_ref. case_decide as Hin; [done|]. split.
  - apply NoDup_app. split_and!; [done|by intros x Hx ->%list_elem_of_singleton|apply NoDup_singleton].
  - intros x [Hx| ->%list_elem_of_singleton]%elem_of_app; auto.
Qed.

Lemma good_adds st names : ∀ out, good st out → (∀ name, name ∈ names → name ∈ present st) → good st (add_refs out names).
Proof.
  induction names as [|name names IH]; intros out Ho Hn; simpl; [done|].
  apply IH; [apply good_add; [done|apply Hn; left]|]. intros x Hx. apply Hn. by right.
Qed.

(** ** Reading steps leave the store alone *)

Definition reads {A} (m : SE A) (st : Store) (Q : A → Prop) : Prop := ∀ st' a, m st = (st', Ok a) → st' = st ∧ Q a.

Lemma reads_bind {A B} (m : SE A) (k : A → SE B) st (P : A → Prop) Q :
  reads m st P → (∀ a, P a → reads (k a) st Q) → reads (m ≫= k) st Q.
Proof.
  intros Hm Hk st' b. unfold mbind, SE_bind. destruct (m st) as [st1 [a|e]] eqn:E; [|done].
  destruct (Hm _ _ E) as [-> Ha]. by apply Hk.
Qed.

Lemma reads_ret {A} (a : A) st (Q : A → Prop) : Q a → reads (mret a) st Q.
Proof. intros H st' b [= <- <-]. done. Qed.
Lemma reads_err {A} e st (Q : A → Prop) : reads (se_err e) st Q.
Proof. by intros st' b [=]. Qed.
Lemma reads_get name st : reads (se_get name) st (λ o, o = st_refs st !! name).
Proof. intros st' o [= <- H]. split; [done|]. unfold GetKey in H. repeat case_match; naive_solver. Qed.
Lemma reads_lift {A} (r : result string A) st : reads (se_lift r) st (λ a, r = Ok a).
Proof. by intros st' a [= <- ->]. Qed.

Lemma reads_present name out st : good st out → reads (addIfPresent name out) st (good st).
Proof.
  intros Ho. eapply reads_bind; [apply reads_get|]. intros [k|] Hk; apply reads_ret; [|done].
  apply good_add; [done|]. symmetry in Hk. by eapply elem_of_dom_2.
Qed.

Lemma reads_input i w out st : good st out → input_ready w st i → reads (addInputOutputs i w out) st (good st).
Proof.
  intros Ho (Hi & Hb & Ht). unfold addInputOutputs. eapply reads_bind; [apply reads_lift|]. intros k Hk.
  destruct (String.eqb_spec (in_Kind i) InputKind.Import) as [E|_].
  { apply reads_ret, good_adds; [done|]. intros x ->%list_elem_of_singleton. auto. }
  destruct (String.eqb_spec (in_Kind i) InputKind.Build) as [E|_].
  { eapply reads_bind; [apply reads_get|]. intros [f|] Hf; [|apply reads_err]. symmetry in Hf. destruct (Hb E k f Hk Hf) as [H1 H2].
    assert (G : good st (add_refs out [build_from k; build_output f])).
    { apply good_adds; [done|]. intros x [-> |[-> |[]%elem_of_nil]%elem_of_cons]%elem_of_cons; [by eapply elem_of_dom_2|done]. }
    apply reads_ret. destruct w; [|done]. apply good_adds; [done|]. intros x ->%list_elem_of_singleton. auto. }
  destruct (String.eqb_spec (in_Kind i) InputKind.Tree) as [E|_]; [|by apply reads_ret].
  eapply reads_bind; [apply reads_lift|]. intros tk Htk. apply reads_ret, good_adds; [done|].
  intros x ->%list_elem_of_singleton. auto.
Qed.

Lemma reads_inputs w ls st : ∀ out, good st out → Forall (input_ready w st) ls → reads (addInputs w ls out) st (good st).
Proof.
  induction ls as [|i ls IH]; intros out Ho Hf; simpl; [by apply reads_ret|]. apply Forall_cons in Hf as [Hi Hf].
  eapply reads_bind; [by apply reads_input|]. intros out' Ho'. by apply IH.
Qed.

Lemma reads_presents ls st : ∀ out, good st out → reads (addPresent ls out) st (good st).
Proof.
  induction ls as [|n ls IH]; intros out Ho; simpl; [by apply reads_ret|].
  eapply reads_bind; [by apply reads_present|]. intros out' Ho'. by apply IH.
Qed.

(** Healing a carrier leaves it present and everything else as it was. *)
Lemma heal_spec name k st st' u :
  healCarrier name k st = (st', Ok u) →
  name ∈ present st' ∧ (∀ x, x ≠ name → st_refs st' !! x = st_refs st !! x) ∧ present st ⊆ present st'.
Proof.
  unfold healCarrier, mbind, SE_bind, se_get. destruct (GetKey name st) as [[k0|]|e] eqn:E; [| |done].
  - intros [= <- <-]. apply GetKey_Some in E. split_and!; [by eapply elem_of_dom_2|done|done].
  - unfold se_put, PutRef. do 2 (case_match; [done|]). intros [= <- <-]. simpl. rewrite dom_insert_L.
    split_and!; [set_solver| |set_solver]. intros x Hx. by rewrite lookup_insert_ne.
Qed.

Lemma input_ready_mono w st st' i :
  present st ⊆ present st' → (∀ k, st_refs st' !! build_from k = st_refs st !! build_from k) →
  input_ready w st i → input_ready w st' i.
Proof.
  intros Hs Hb (H1 & H2 & H3). split_and!.
  - intros E k Hk. apply Hs. auto.
  - intros E k f Hk Hf. rewrite Hb in Hf. destruct (H2 E k f Hk Hf) as [? ?]. split; [auto|]. intros ?. auto.
  - intros E k Hk. apply Hs. auto.
Qed.

Lemma healed name k st (m : SE (list string)) (w : bool) ls st' out :
  (∀ x, name ≠ build_from x) → Forall (input_ready w st) ls →
  (healCarrier name k;; m) st = (st', Ok out) →
  (∀ st1, name ∈ present st1 → present st ⊆ present st1 → Forall (input_ready w st1) ls → reads m st1 (good st1)) →
  good st' out.
Proof.
  intros Hne Hls H Hm. unfold mbind, SE_bind in H. destruct (healCarrier name k st) as [st1 [u|e]] eqn:E; [|done].
  destruct (heal_spec _ _ _ _ _ E) as (Hp & Hx & Hs). destruct (Hm st1 Hp Hs) with (st' := st') (a := out) as [-> Hg]; [|done|done].
  eapply Forall_impl; [exact Hls|]. intros i. apply input_ready_mono; [done|]. intros x. apply Hx. by intros Heq; apply (Hne x).
Qed.

Lemma ftree_ne f x : FTreeRef f ≠ build_from x.
Proof. unfold FTreeRef, build_from. simpl. intros [=]. Qed.
Lemma kptree_ne kp x : KPTreeRef kp ≠ build_from x.
Proof. unfold KPTreeRef, build_from. simpl. intros [=]. Qed.

(** A published job can be prepared: when the node's inputs are done, every
    reference the job tells its runner to pull is present in the store at that
    moment, and none is listed twice. *)
Theorem pull_refs_present n st st' out :
  node_ready st n → computePullRefs n st = (st', Ok out) →
  NoDup out ∧ ∀ name, name ∈ out → is_Some (st_refs st' !! name).
Proof.
  intros Hr H. assert (G : good st' out); [|destruct G as [G1 G2]; split; [done|]; intros x Hx; by apply elem_of_dom, G2].
  assert (Hreads : ∀ m : SE (list string), reads m st (good st) → m st = (st', Ok out) → good st' out).
  { intros m Hm E. by destruct (Hm _ _ E) as [-> ?]. }
  unfold computePullRefs, node_ready in *. destruct (fst (n_id n)) eqn:Ek.
  - eapply Hreads; [|exact H]. unfold pull_import. eapply reads_bind; [apply reads_lift|]. intros def Hdef.
    eapply reads_bind; [apply reads_present, good_nil|]. intros out1 G1.
    destruct (String.eqb_spec (i_FetcherDef def) "") as [_|Hf]; cbn [negb]; [by apply reads_present|].
    eapply reads_bind; [apply reads_lift|]. intros fk Hfk. eapply reads_bind; [apply reads_get|].
    intros [ff|] Hff; [|apply reads_err]. symmetry in Hff. apply reads_present, good_adds; [done|].
    intros x [-> | ->%list_elem_of_singleton]%elem_of_cons; [by eapply elem_of_dom_2|by apply (Hr def fk ff)].
  - eapply Hreads; [|exact H]. unfold pull_buildfrom. eapply reads_bind; [apply reads_lift|]. intros def Hdef.
    case_match; [|apply reads_err]. apply reads_input; [apply good_nil|]. specialize (Hr def Hdef).
    destruct (String.eqb _ InputKind.Build); [done|]. destruct Hr as (H1 & H2 & H3). split_and!; [done| |done].
    intros E k f Hk Hf. destruct (H2 E k f Hk Hf). done.
  - eapply (healed _ _ st _ true []); [apply ftree_ne|constructor|exact H|]. intros st1 Hp _ _.
    apply reads_ret, good_adds; [apply good_nil|]. by intros x ->%list_elem_of_singleton.
  - destruct Hr as [Hr Hin]. eapply (healed _ _ st _ false (n_pinInputs n)); [apply ftree_ne|done|exact H|]. intros st1 Hp Hs Hin1.
    eapply reads_bind; [apply reads_present, good_adds; [apply good_nil|]|].
    + intros x [-> | ->%list_elem_of_singleton]%elem_of_cons; auto.
    + intros out1 G1. by apply reads_inputs.
  - destruct Hr as [Hr Hin]. eapply (healed _ _ st _ true (n_runInputs n)); [apply kptree_ne|done|exact H|]. intros st1 Hp Hs Hin1.
    eapply reads_bind; [apply reads_present, good_adds; [apply good_nil|]|].
    + intros x [-> | ->%list_elem_of_singleton]%elem_of_cons; auto.
    + intros out1 G1. eapply reads_bind; [by apply reads_inputs|]. intros out2 G2. by apply reads_presents.
  - eapply Hreads; [|exact H]. apply reads_ret, good_nil.
Qed.
End PullFacts.
