(* ===== verification/SchedInv.v ===== *)
(** * The scheduler's invariant, preserved by every graph operation

    [graph_ok] collects what holds between any two operations of [Graph]:
    table and heap agree, edges are two-way and allocated, interest is closed
    along dependencies, a buildvalue is never placed, a done buildvalue has its
    F-keyed output reference, and retry counters stay within their budgets. *)
From S2P Require Import Prelude GoLib Resources Keys Wire Builddef Store Gate Commit LogBuf SchedState PullRefs Graph Results Submit GraphFacts.
From Stdlib Require Import Ascii.
Local Open Scope string_scope.
Local Open Scope list_scope.

(** The nodes whose published output another writer of the store deleted while
    they were done: no operation of the scheduler changes this set. *)
Class Gone := gone : gset loc.

Section SchedInv.
Context `{SE0 : SchedEnv} {GN : Gone}.

Abbreviation interest s l := (n_interest (getN s l)).
Abbreviation deps s l := (n_deps (getN s l)).
Abbreviation refs s := (st_refs (g_store s)).

Definition kind_of (n : node) : kind := fst (n_id n).

Definition terminal (p : phase) : Prop := p = PhaseDone ∨ p = PhaseFailed.

Definition in_budget (n : node) : Prop :=
  (0 <= n_consecRetry n <= maxConsecRetryable + 1)%Z ∧ (0 <= n_consecControl n <= maxConsecControl + 1)%Z ∧
  (terminal (n_phase n) ∨ (n_consecRetry n <= maxConsecRetryable ∧ n_consecControl n <= maxConsecControl)%Z).

(** What holds of one node, given the evaluated trees whose output is served. *)
Record node_ok (served : Key → Prop) (n : node) : Prop := {
  no_name : n_name n = NodeName (fst (n_id n)) (snd (n_id n));
  no_budget : in_budget n;
  no_placed : kind_of n = KindBuildValue → n_phase n = PhaseWaiting ∨ terminal (n_phase n);
  no_alias : kind_of n = KindBuildValue → n_phase n = PhaseDone →
    ∃ f, n_f n = Some f ∧ served f }.

(** The output of [f] is published, or was deleted from under the node [l]. *)
Definition served (s : Sched) (l : loc) (f : Key) : Prop := build_output f ∈ dom (refs s) ∨ l ∈ gone.

Record graph_base (s : Sched) : Prop := {
  go_node : ∀ l n, g_heap s !! l = Some n → node_ok (served s l) n;
  go_table : ∀ id l, g_nodes s !! id = Some l → ∃ n, g_heap s !! l = Some n ∧ n_id n = id;
  go_next : ∀ l, l ∈ dom (g_heap s) → (l < g_next s)%positive;
  go_deps : deps_alloc s;
  go_dependents : ∀ l p, p ∈ n_dependents (getN s l) → p ∈ dom (g_heap s) ∧ l ∈ deps s p;
  go_occ : ∀ l p, p ∈ n_dependents (getN s l) → g_nodes s !! n_id (getN s p) = Some p;
  go_timers : ∀ t, t ∈ g_timers s → ∃ n, g_heap s !! t_node t = Some n ∧ n_id n = t_id t ∧ kind_of n ≠ KindBuildValue }.

(** The root of a request: its target, or while it is being submitted the
    table's node for its key. *)
Definition root (s : Sched) (rid : string) (t : loc) : Prop :=
  ∃ r, g_requests s !! rid = Some r ∧
    (q_target r = Some t ∨ (q_target r = None ∧ g_nodes s !! (KindBuildValue, q_k r) = Some t)).

(** Interest of a request is only held below its root. *)
Definition owned (s : Sched) : Prop :=
  ∀ rid l, rid ∈ interest s l → ∃ t, root s rid t ∧ reach s t l.

(** Every node of the table, off a set, is wanted by some request. *)
Definition live_off (X : gset loc) (s : Sched) : Prop :=
  ∀ id l, g_nodes s !! id = Some l → l ∉ X → interest s l ≠ ∅.

(** The invariant, with a set of nodes that are still being joined. *)
Record graph_okX (X : gset loc) (s : Sched) : Prop := {
  go_base : graph_base s; go_interest : interest_closed s; go_owned : owned s; go_live : live_off X s }.

Definition graph_ok (s : Sched) : Prop := graph_okX ∅ s.

(** A node that occupies its table entry, and one that may still be unfolded. *)
Definition occ (s : Sched) (l : loc) : Prop := l ∈ dom (g_heap s) ∧ g_nodes s !! n_id (getN s l) = Some l.
Definition act (s : Sched) (l : loc) : Prop := occ s l ∧ n_phase (getN s l) ≠ PhasePublishing.

(** The outcome of every operation. *)
Definition okS (s0 s : Sched) : Prop := graph_ok s ∧ grows s0 s.

Lemma okS_refl s : graph_ok s → okS s s.
Proof. by split. Qed.

Lemma okS_trans s0 s1 s2 : grows s0 s1 → okS s1 s2 → okS s0 s2.
Proof. intros H [? ?]. split; [done|]. by etransitivity. Qed.

Lemma grows_dom s s' l : grows s s' → l ∈ dom (g_heap s) → l ∈ dom (g_heap s').
Proof. intros H [n Hn]%elem_of_dom. apply (gr_heap _ _ H) in Hn as (n' & Hn' & _). by eapply elem_of_dom_2. Qed.

Lemma grows_node s s' l : grows s s' → l ∈ dom (g_heap s) → node_le (getN s l) (getN s' l).
Proof.
  intros H [n Hn]%elem_of_dom. destruct (gr_heap _ _ H _ _ Hn) as (n' & Hn' & L).
  by rewrite (getN_heap _ _ _ Hn), (getN_heap _ _ _ Hn').
Qed.

Lemma grows_ref s s' name : grows s s' → name ∈ dom (refs s) → name ∈ dom (refs s').
Proof. intros H. apply (gr_refs _ _ H). Qed.

Lemma go_nodeN s l : graph_base s → l ∈ dom (g_heap s) → node_ok (served s l) (getN s l).
Proof. intros H [n Hn]%elem_of_dom. rewrite (getN_heap _ _ _ Hn). by eapply go_node. Qed.

(** ** Frame rules *)

Lemma node_ok_mono (P P' : Key → Prop) n : (∀ f, P f → P' f) → node_ok P n → node_ok P' n.
Proof. intros HP []. split; auto. intros Hk Hd. destruct (no_alias0 Hk Hd) as (f & Hf & Hin). eauto. Qed.

(** Updating one node without touching its identity, edges or interest. *)
Record frame (n n' : node) : Prop := {
  fr_id : n_id n' = n_id n; fr_name : n_name n' = n_name n; fr_deps : n_deps n' = n_deps n;
  fr_dependents : n_dependents n' = n_dependents n; fr_interest : n_interest n' = n_interest n }.

Lemma getN_upd_frame s l f l' :
  frame (getN s l) (f (getN s l)) → frame (getN s l') (getN (updN l f s) l').
Proof.
  intros Hf. destruct (decide (l = l')) as [<-|Hne]; [|by rewrite getN_updN_ne].
  destruct (decide (l ∈ dom (g_heap s))) as [Hin|Hout]; [by rewrite getN_updN|].
  unfold getN. simpl. apply not_elem_of_dom in Hout. by rewrite !lookup_total_alt, lookup_alter_eq, Hout.
Qed.

Lemma graph_base_upd s l f :
  graph_base s → frame (getN s l) (f (getN s l)) →
  (l ∈ dom (g_heap s) → node_ok (served s l) (f (getN s l))) →
  graph_base (updN l f s).
Proof.
  intros [] Hf Hok. pose proof (λ l', getN_upd_frame s l f l' Hf) as HF. split; simpl.
  - intros l' n Hn. destruct (decide (l = l')) as [<-|Hne].
    + rewrite lookup_alter_eq in Hn. destruct (g_heap s !! l) as [n0|] eqn:E; simplify_eq/=.
      rewrite <- (getN_heap _ _ _ E). apply Hok. by eapply elem_of_dom_2.
    + rewrite lookup_alter_ne in Hn by done. by eapply go_node0.
  - intros id l' H. destruct (go_table0 id l' H) as (n & Hn & Hid). destruct (decide (l = l')) as [<-|Hne].
    + exists (f n). rewrite lookup_alter_eq, Hn. split; [done|].
      rewrite <- Hid. rewrite <- (getN_heap _ _ _ Hn). apply Hf.
    + exists n. by rewrite lookup_alter_ne.
  - intros l'. rewrite dom_alter_L. apply go_next0.
  - intros l' d. simpl. rewrite dom_alter_L, (fr_deps _ _ (HF l')). apply go_deps0.
  - intros l' p. rewrite dom_alter_L, (fr_dependents _ _ (HF l')), (fr_deps _ _ (HF p)). apply go_dependents0.
  - intros l' p. rewrite (fr_dependents _ _ (HF l')), (fr_id _ _ (HF p)). apply go_occ0.
  - intros t Ht. destruct (go_timers0 t Ht) as (n & Hn & Hid & Hk). destruct (decide (l = t_node t)) as [Heq|Hne].
    + exists (f n). rewrite <- Heq in *. rewrite lookup_alter_eq, Hn. split; [done|]. unfold kind_of in *.
      rewrite <- (getN_heap _ _ _ Hn) in *. by rewrite (fr_id _ _ Hf).
    + exists n. by rewrite lookup_alter_ne.
Qed.

Lemma graph_ok_upd {X} s l f :
  graph_okX X s → frame (getN s l) (f (getN s l)) →
  (l ∈ dom (g_heap s) → node_ok (served s l) (f (getN s l))) →
  graph_okX X (updN l f s).
Proof.
  intros [Hb Hi Ho Hl] Hf Hok. pose proof (λ l', getN_upd_frame s l f l' Hf) as HF. split.
  - by apply graph_base_upd.
  - intros x d Hx. rewrite (fr_deps _ _ (HF x)), (fr_interest _ _ (HF x)), (fr_interest _ _ (HF d)). by apply Hi.
  - intros rid x. rewrite (fr_interest _ _ (HF x)). intros (t & Ht & Hr)%Ho. exists t. split; [done|].
    eapply reach_eq; [|exact Hr]. intros y. by rewrite (fr_deps _ _ (HF y)).
  - intros id x. rewrite (fr_interest _ _ (HF x)). apply Hl.
Qed.

Lemma dom_updN s l f : dom (g_heap (updN l f s)) = dom (g_heap s).
Proof. simpl. apply dom_alter_L. Qed.

(** An update that also keeps phase, F and counters keeps everything. *)
Definition boring (f : node → node) : Prop :=
  ∀ n, frame n (f n) ∧ n_phase (f n) = n_phase n ∧ n_f (f n) = n_f n ∧
       n_consecRetry (f n) = n_consecRetry n ∧ n_consecControl (f n) = n_consecControl n ∧
       n_lastResultGen (f n) = n_lastResultGen n.

Lemma boring_le f n : boring f → node_le n (f n).
Proof. intros H. destruct (H n) as ([] & ? & ? & ? & ? & ?). split; try congruence. split; congruence. Qed.

Lemma boring_ok f P n : boring f → node_ok P n → node_ok P (f n).
Proof.
  intros H [N B Pl A]. destruct (H n) as ([] & Hp & Hf & H1 & H2 & _). unfold in_budget, kind_of in *. split.
  - congruence.
  - unfold in_budget. by rewrite H1, H2, Hp.
  - unfold kind_of. by rewrite fr_id0, Hp.
  - unfold kind_of. by rewrite fr_id0, Hp, Hf.
Qed.

Lemma wp_upd_boring s0 s l f (Q : unit → Sched → Prop) :
  boring f → okS s0 s → (∀ s', okS s0 s' → s' = updN l f s → Q tt s') → wp (upd l f) s Q.
Proof.
  intros Hf [Hok Hg] HQ. apply wp_mod. apply HQ; [|done]. split.
  - apply graph_ok_upd; [done|apply Hf|]. intros Hl. apply boring_ok; [done|apply go_nodeN; [by eapply go_base|done]].
  - etransitivity; [exact Hg|]. apply grows_updN. by apply boring_le.
Qed.

(** Changes outside heap, table and timers that lose no reference. *)
Record outside (s s' : Sched) : Prop := {
  os_heap : g_heap s' = g_heap s; os_nodes : g_nodes s' = g_nodes s; os_next : g_next s' = g_next s;
  os_timers : g_timers s' = g_timers s; os_refs : dom (refs s) ⊆ dom (refs s');
  os_reqs : g_requests s' = g_requests s; os_closed : g_closed s' = g_closed s;
  os_out : ∃ es, g_out s' = g_out s ++ es }.

Lemma outside_getN s s' l : outside s s' → getN s' l = getN s l.
Proof. intros H. unfold getN. by rewrite (os_heap _ _ H). Qed.

Lemma graph_ok_outside {X} s s' : outside s s' → graph_okX X s → graph_okX X s'.
Proof.
  intros H [[] Hint Ho Hl]. pose proof (λ l, outside_getN _ _ l H) as G. destruct H. split; [split|..].
  - intros l n. rewrite os_heap0. intros Hn. eapply node_ok_mono; [|by eapply go_node0].
    intros f [Hf|Hf]; [left; by apply os_refs0|by right].
  - rewrite os_nodes0, os_heap0. done.
  - rewrite os_heap0, os_next0. done.
  - intros l d. rewrite G, os_heap0. apply go_deps0.
  - intros l p. rewrite !G, os_heap0. apply go_dependents0.
  - intros l p. rewrite !G, os_nodes0. apply go_occ0.
  - rewrite os_timers0, os_heap0. done.
  - intros x d. rewrite !G. apply Hint.
  - intros rid x. rewrite G. intros (t & (r & Hr & Ht) & Hx)%Ho. exists t. split.
    + exists r. by rewrite os_reqs0, os_nodes0.
    + eapply reach_eq; [|exact Hx]. intros y. by rewrite G.
  - intros id x. rewrite G, os_nodes0. apply Hl.
Qed.

Lemma grows_outside s s' : outside s s' → grows s s'.
Proof. intros []. split; try done; [by rewrite os_nodes0|]. intros l n. rewrite os_heap0. intros Hn. exists n. by split. Qed.

Lemma okS_outside s0 s s' : outside s s' → okS s0 s → okS s0 s'.
Proof. intros H [? ?]. split; [by eapply graph_ok_outside|]. etransitivity; [done|by apply grows_outside]. Qed.

Lemma outside_tick s : outside s (set_g_ticks (S (g_ticks s)) s).
Proof. split; try done. exists []. by rewrite app_nil_r. Qed.

Lemma outside_emit e s : outside s (set_g_out (g_out s ++ [e]) s).
Proof. split; try done. by exists [e]. Qed.

Lemma outside_store st s : dom (refs s) ⊆ dom (st_refs st) → outside s (set_g_store st s).
Proof. split; try done. exists []. by rewrite app_nil_r. Qed.

(** ** Leaf operations *)

Lemma wp_bump s (Q : unit → Sched → Prop) :
  (∀ s', outside s s' → Q tt s') → wp bumpLocked s Q.
Proof. intros HQ. apply wp_mod, HQ. split; try done. exists []. by rewrite app_nil_r. Qed.

Lemma wp_emit e s (Q : unit → Sched → Prop) : (∀ s', outside s s' → Q tt s') → wp (emit e) s Q.
Proof. intros HQ. apply wp_mod, HQ, outside_emit. Qed.

Lemma wp_status l s (Q : unit → Sched → Prop) : (∀ s', outside s s' → Q tt s') → wp (putNodeStatusLocked l) s Q.
Proof. intros HQ. apply wp_bind, wp_node_at. by apply wp_emit. Qed.

Lemma wp_liftSE {A} (m : SE A) s (Q : result string A → Sched → Prop) :
  puts_only m → (∀ st' r, m (g_store s) = (st', r) → outside s (set_g_store st' s) → Q r (set_g_store st' s)) →
  wp (liftSE m) s Q.
Proof.
  intros Hp HQ a s' H. unfold liftSE in H. specialize (Hp (g_store s)). destruct (m (g_store s)) as [st r].
  simplify_eq. apply HQ; [done|]. by apply outside_store.
Qed.

Lemma outside_trans s1 s2 s3 : outside s1 s2 → outside s2 s3 → outside s1 s3.
Proof.
  intros [H1 H2 H3 H4 H5 H6 H7 [e1 E1]] [K1 K2 K3 K4 K5 K6 K7 [e2 E2]].
  split; try congruence; [by etransitivity|]. exists (e1 ++ e2). by rewrite E2, E1, (assoc_L (++)).
Qed.

Lemma outside_refl s : outside s s.
Proof. split; try done. exists []. by rewrite app_nil_r. Qed.

Lemma record_outside l res o d sm b s (Q : unit → Sched → Prop) :
  (∀ s', outside s s' → Q tt s') → wp (recordFailureLocked l res o d sm b) s Q.
Proof.
  intros HQ. unfold recordFailureLocked. wp_step; [apply wp_ret, HQ, outside_refl|].
  apply wp_bind, wp_now. apply wp_bind, wp_get. apply wp_emit. intros s' H.
  apply HQ. eapply outside_trans; [apply outside_tick|exact H].
Qed.

(** ** Failure *)

Lemma failNode_ok l res o sm s :
  graph_ok s → n_phase (getN s l) ≠ PhasePublishing → wp (failNodeAttrLocked l res o sm) s (λ _, okS s).
Proof.
  intros Hok Hpub. unfold failNodeAttrLocked. apply wp_bind, wp_node_at. wp_step; [by apply wp_ret, okS_refl|].
  apply orb_false_iff in Heqb as [Hnf Hnd]. apply bool_decide_eq_false in Hnf, Hnd.
  apply wp_bind, wp_mod.
  assert (H1 : okS s (updN l (set_n_phase PhaseFailed) s)).
  { split.
    - apply graph_ok_upd; [done|by split|]. intros Hl. destruct (go_nodeN _ _ (go_base _ _ Hok) Hl) as [N B P A].
      split; simpl; [done| |right; by right|by intros _ [=]].
      destruct B as (B1 & B2 & _). split; [done|]. split; [done|]. left. by right.
    - apply grows_updN. split; simpl; by try intros. }
  apply wp_bind. eapply (wp_upd_boring s); [by intros n; repeat split|exact H1|]. intros s2 H2 _.
  apply wp_bind, wp_now. pose proof (okS_outside _ _ _ (outside_tick s2) H2) as H3.
  apply wp_bind. eapply (wp_upd_boring s); [by intros n; repeat split|exact H3|]. intros s4 H4 _.
  apply wp_bind, record_outside. intros s5 O5. apply wp_bind, wp_status. intros s6 O6. apply wp_bump.
  intros s7 O7. eapply okS_outside; [exact O7|]. eapply okS_outside; [exact O6|]. by eapply okS_outside.
Qed.

(** ** Enqueueing *)

(** A node that may be enqueued. *)
Definition enq (s0 : Sched) (l : loc) (s : Sched) : Prop :=
  okS s0 s ∧ l ∈ dom (g_heap s) ∧ kind_of (getN s l) ≠ KindBuildValue ∧ n_phase (getN s l) = PhaseWaiting.

Lemma enq_upd s0 s l f (Q : unit → Sched → Prop) :
  boring f → enq s0 l s → (∀ s', enq s0 l s' → Q tt s') → wp (upd l f) s Q.
Proof.
  intros Hf (Hok & Hl & Hk & Hp) HQ. eapply wp_upd_boring; [done|done|]. intros s' H' ->. apply HQ.
  destruct (Hf (getN s l)) as ([] & Hph & _). split_and!; [done|by rewrite dom_updN|..]; rewrite getN_updN by done.
  - unfold kind_of in *. by rewrite fr_id0.
  - by rewrite Hph.
Qed.

Lemma enq_outside s0 l s s' : outside s s' → enq s0 l s → enq s0 l s'.
Proof.
  intros H (Hok & Hl & Hk & Hp). split_and!; [by eapply okS_outside|by rewrite (os_heap _ _ H)|..];
    by rewrite (outside_getN _ _ _ H).
Qed.

Lemma lane_outside pl c s (Q : unit → Sched → Prop) :
  (∀ s', outside s s' → Q tt s') → wp (ensureLaneLocked pl c) s Q.
Proof.
  intros HQ. unfold ensureLaneLocked. apply wp_bind, wp_get. case_decide; [apply wp_ret, HQ, outside_refl|].
  apply wp_bind, wp_tick. wp_step; [|apply wp_ret, HQ, outside_tick].
  apply wp_mod, HQ. split; try done. exists []. by rewrite app_nil_r.
Qed.

Lemma arm_ok s0 s l d :
  okS s0 s → l ∈ dom (g_heap s) → kind_of (getN s l) ≠ KindBuildValue →
  wp (armReenqueueLocked l d) s (λ _, okS s0).
Proof.
  intros [Hok Hg] Hl Hk. unfold armReenqueueLocked. apply wp_bind, wp_node_at, wp_mod. split.
  - destruct Hok as [[] Hint Ho Hlv]. split; [split; simpl; try done|done..]. intros t [Ht|Ht%list_elem_of_singleton]%elem_of_app; [by apply go_timers0|].
    subst t. simpl. apply elem_of_dom in Hl as [n Hn]. rewrite (getN_heap _ _ _ Hn) in *. eauto.
  - etransitivity; [exact Hg|]. split; simpl; try done; [intros x n Hn; exists n; by split|exists []; by rewrite app_nil_r].
Qed.

(** Setting a placeable, waiting node's phase to a non-terminal one. *)
Lemma set_phase_ok s0 s l p : enq s0 l s → ¬ terminal p → p ≠ PhasePublishing → okS s0 (updN l (set_n_phase p) s).
Proof.
  intros ([Hok Hg] & Hl & Hk & Hw) Hp Hpub. split.
  - apply graph_ok_upd; [done|by split|]. intros _. destruct (go_nodeN _ _ (go_base _ _ Hok) Hl) as [N (B1 & B2 & B3) P A].
    split; simpl; [done| |done|done]. split; [done|]. split; [done|]. right.
    destruct B3 as [[B3|B3]|B3]; [congruence..|done].
  - etransitivity; [exact Hg|]. apply grows_updN. split; simpl; try done; [congruence|]. split; congruence.
Qed.

Lemma publishJob_ok s0 s l c pull req : enq s0 l s → wp (publishJob l c pull req) s (λ _, okS s0).
Proof.
  intros He. unfold publishJob. apply wp_bind, wp_node_at. apply wp_bind, lane_outside. intros s1 O1.
  apply wp_bind, wp_tick. apply wp_bind, wp_get.
  pose proof (enq_outside _ _ _ _ (outside_trans _ _ _ O1 (outside_tick s1)) He) as H2.
  set (s2 := set_g_ticks _ s1) in *. clearbody s2.
  match goal with |- wp (match ?x with _ => _ end) _ _ => destruct x as [seq|e] end.
  - apply wp_bind, wp_emit. intros s3 O3. pose proof (enq_outside _ _ _ _ O3 H2) as H3.
    apply wp_bind. eapply enq_upd; [by intros n; repeat split|exact H3|]. intros s4 H4.
    apply wp_bind, wp_mod. pose proof (set_phase_ok _ _ _ PhaseQueued H4 ltac:(intros [?|?]; done) ltac:(done)) as H5.
    apply wp_bind, wp_status. intros s6 O6. apply wp_bump. intros s7 O7.
    eapply okS_outside; [exact O7|]. by eapply okS_outside.
  - wp_step; [apply wp_ret, H2|]. apply wp_bind, wp_mod.
    pose proof (set_phase_ok _ _ _ PhaseWaiting H2 ltac:(intros [?|?]; done) ltac:(done)) as H3.
    destruct H2 as (_ & Hl & Hk & _). apply arm_ok; [done|by rewrite dom_updN|]. by rewrite getN_updN.
Qed.

Lemma enqueue_ok s0 s l : enq s0 l s → wp (enqueueLocked l) s (λ _, okS s0).
Proof.
  intros He. unfold enqueueLocked. apply wp_bind, wp_get. wp_step; [apply wp_ret, He|].
  apply wp_bind, wp_node_at. do 3 (apply wp_bind; eapply enq_upd; [by intros n; repeat split|eassumption|];
    let s1 := fresh "s" in let H := fresh "H" in intros s1 H).
  apply wp_bind, wp_now. pose proof (enq_outside _ _ _ _ (outside_tick _) H1) as H3.
  do 2 (apply wp_bind; eapply enq_upd; [by intros n; repeat split|eassumption|];
    let s1 := fresh "s" in let H := fresh "H" in intros s1 H).
  apply wp_bind, wp_get. apply wp_bind, wp_liftSE; [apply po_computePullRefs|]. intros st' r _ O.
  pose proof (enq_outside _ _ _ _ O H4) as H5. destruct r as [pull|e]; [by apply publishJob_ok|].
  destruct H5 as ([Hok Hg] & _ & _ & Hw). eapply wp_mono; [apply failNode_ok; [done|congruence]|]. intros [] s' H'. by eapply okS_trans.
Qed.

Lemma maybeEnqueue_ok l s : graph_ok s → l ∈ dom (g_heap s) → wp (maybeEnqueueLocked l) s (λ _, okS s).
Proof.
  intros Hok Hl. unfold maybeEnqueueLocked. apply wp_bind, wp_get.
  wp_step; [by apply wp_ret, okS_refl|]. wp_step; [|by apply wp_ret, okS_refl].
  apply orb_false_iff in Heqb as [[Hp%negb_false_iff Hw%negb_false_iff]%orb_false_iff _].
  apply bool_decide_eq_true in Hw. unfold placeable in Hp. apply negb_true_iff, bool_decide_eq_false in Hp.
  by apply enqueue_ok.
Qed.

(** ** Joining a node to its parent *)

Lemma base_int s s' : int_only s s' → graph_base s → graph_base s'.
Proof.
  intros H []. pose proof (io_rest _ _ H) as E.
  assert (Hn : g_nodes s' = g_nodes s) by (by rewrite E). assert (Hx : g_next s' = g_next s) by (by rewrite E).
  assert (Ht : g_timers s' = g_timers s) by (by rewrite E). assert (Hr : refs s' = refs s) by (by rewrite E).
  assert (Hl : ∀ l n, g_heap s !! l = Some n → ∃ I, g_heap s' !! l = Some (set_n_interest I n)).
  { intros l n Hl. destruct (io_heap _ _ H l) as (I & Hl' & _). rewrite Hl in Hl'. eauto. }
  split; rewrite ?Hn, ?Hx, ?Ht, ?(int_only_dom _ _ H).
  - intros l n. destruct (io_heap _ _ H l) as (I & -> & _). destruct (g_heap s !! l) as [n0|] eqn:E0; [|done].
    intros [= <-]. unfold served. rewrite Hr. destruct (go_node0 _ _ E0) as [N B P A]. by split.
  - intros id l (n & Hl' & Hid)%go_table0. destruct (Hl _ _ Hl') as [I HI]. exists (set_n_interest I n). done.
  - done.
  - by eapply deps_alloc_int.
  - intros l p. destruct (int_only_getN _ _ l H) as (I & -> & _). rewrite (int_only_deps _ _ p H). apply go_dependents0.
  - intros l p. destruct (int_only_getN _ _ l H) as (I & -> & _), (int_only_getN _ _ p H) as (I' & -> & _). apply go_occ0.
  - intros t (n & Hl' & Hid & Hk)%go_timers0. destruct (Hl _ _ Hl') as [I HI]. exists (set_n_interest I n). done.
Qed.

Lemma owned_propagate St s s' l ids :
  owned s → prop_post ids St [l] s s' → (∀ id, id ∈ ids → ∃ t, root s id t ∧ reach s t l) → owned s'.
Proof.
  intros Ho (Hio & _ & _ & Hb & Hr) Hids rid x Hx.
  assert (E : ∃ t, root s rid t ∧ reach s t x).
  { destruct (Hr x) as [E|(l' & ->%list_elem_of_singleton & Hl)]; [rewrite E in Hx; by apply Ho|].
    specialize (Hb x). apply Hb, elem_of_union in Hx as [Hx|Hx]; [by apply Ho|].
    destruct (Hids rid Hx) as (t & Ht & Htl). exists t. split; [done|]. unfold reach in *. by etransitivity. }
  destruct E as (t & (r & Hq & Ht) & Htx). exists t. pose proof (io_rest _ _ Hio) as E. split.
  - exists r. by rewrite E.
  - eapply reach_eq; [|exact Htx]. intros y. by rewrite (int_only_deps _ _ y Hio).
Qed.

Lemma propagateInterest_ok {X} l ids s :
  graph_okX X s → l ∈ dom (g_heap s) → (∀ id, id ∈ ids → ∃ t, root s id t ∧ reach s t l) →
  wp (propagateInterest l ids) s (λ _ s', graph_okX X s' ∧ int_only s s' ∧ ids ⊆ interest s' l).
Proof.
  intros [Hb Hi Ho Hlv] Hl Hids. apply wp_bind, wp_get.
  eapply wp_mono; [apply (propagate_spec _ ids ∅); [set_solver|done|apply Hb|done]|].
  intros [] s' Hpost. pose proof Hpost as (Hio & Hc & Hin & _). pose proof (io_rest _ _ Hio) as E.
  split_and!; [split; [by eapply base_int|done|by eapply owned_propagate|]|done|by apply Hin; left].
  intros id x Hx. rewrite E in Hx. intros HX Hemp. apply (Hlv id x Hx HX).
  pose proof (int_only_interest _ _ x Hio). set_solver.
Qed.

(** Adding an edge to both ends. *)
Definition linked (p l : loc) (s : Sched) : Sched :=
  updN l (λ x, set_n_dependents ({[p]} ∪ n_dependents x) x) (updN p (λ x, set_n_deps ({[l]} ∪ n_deps x) x) s).

Lemma linked_getN p l s x :
  p ∈ dom (g_heap s) → l ∈ dom (g_heap s) →
  ∃ D E, getN (linked p l s) x = set_n_dependents E (set_n_deps D (getN s x)) ∧
    D = (if decide (x = p) then {[l]} else ∅) ∪ deps s x ∧
    E = (if decide (x = l) then {[p]} else ∅) ∪ n_dependents (getN s x).
Proof.
  intros Hp Hl. unfold linked.
  assert (Hl' : l ∈ dom (g_heap (updN p (λ x, set_n_deps ({[l]} ∪ n_deps x) x) s))) by by rewrite dom_updN.
  assert (Hemp : ∀ X : gset loc, ∅ ∪ X = X) by set_solver.
  assert (Hid : ∀ n, set_n_dependents (n_dependents n) (set_n_deps (n_deps n) n) = n) by by intros [].
  do 2 eexists. split; [|done].
  destruct (decide (x = p)) as [Hxp|Hxp]; destruct (decide (x = l)) as [Hxl|Hxl]; try subst.
  - rewrite !getN_updN by done. by destruct (getN s l).
  - rewrite getN_updN_ne, getN_updN, Hemp by done. by destruct (getN s p).
  - rewrite getN_updN, getN_updN_ne, Hemp by done. by destruct (getN s l).
  - rewrite !getN_updN_ne, !Hemp by done. by destruct (getN s x).
Qed.

Lemma linked_heap p l s x n :
  p ∈ dom (g_heap s) → l ∈ dom (g_heap s) → g_heap s !! x = Some n →
  g_heap (linked p l s) !! x = Some (getN (linked p l s) x).
Proof.
  intros Hp Hl Hx. assert (Hd : x ∈ dom (g_heap (linked p l s))).
  { unfold linked. rewrite !dom_updN. by eapply elem_of_dom_2. }
  apply elem_of_dom in Hd as [n' Hn']. by rewrite (getN_heap _ _ _ Hn').
Qed.

Lemma linked_base p l s :
  occ s p → l ∈ dom (g_heap s) → graph_base s → graph_base (linked p l s).
Proof.
  intros [Hp Hocc] Hl []. pose proof (λ x, linked_getN p l s x Hp Hl) as G.
  assert (Hd : dom (g_heap (linked p l s)) = dom (g_heap s)) by (unfold linked; by rewrite !dom_updN).
  split; rewrite ?Hd; simpl.
  - intros x n Hx. rewrite <- (getN_heap (linked p l s) x n Hx). destruct (G x) as (D & E & -> & _ & _).
    assert (Hin : x ∈ dom (g_heap s)) by (rewrite <- Hd; by eapply elem_of_dom_2).
    apply elem_of_dom in Hin as [n0 Hn0]. rewrite (getN_heap _ _ _ Hn0). destruct (go_node0 _ _ Hn0). by split.
  - intros id x (n & Hx & Hid)%go_table0. eexists. split; [by eapply linked_heap|].
    destruct (G x) as (D & E & -> & _ & _). simpl. by rewrite (getN_heap _ _ _ Hx).
  - done.
  - intros x d. rewrite Hd. destruct (G x) as (D & E & -> & -> & _). simpl. intros [H|H]%elem_of_union; [|by eapply go_deps0].
    case_decide; set_solver.
  - intros x q. destruct (G x) as (D & E & -> & _ & ->), (G q) as (D' & E' & -> & -> & _). simpl.
    intros [H|H]%elem_of_union.
    + case_decide; [|set_solver]. apply elem_of_singleton in H as ->. subst x. split; [done|].
      rewrite decide_True by done. set_solver.
    + apply go_dependents0 in H as [? ?]. split; [done|]. set_solver.
  - intros x q. destruct (G x) as (D & E & -> & _ & ->), (G q) as (D' & E' & -> & _ & _). simpl.
    intros [H|H]%elem_of_union; [|by eapply go_occ0]. case_decide; [|set_solver].
    apply elem_of_singleton in H as ->. done.
  - intros t (n & Hx & Hid & Hk)%go_timers0. eexists. split; [by eapply linked_heap|].
    destruct (G (t_node t)) as (D & E & -> & _ & _). rewrite (getN_heap _ _ _ Hx). done.
Qed.

Lemma linked_grows p l s : grows s (linked p l s).
Proof.
  unfold linked. etransitivity; apply grows_updN; split; simpl; try done; set_solver.
Qed.

(** The join: link, then give the dependency the parent's interest. *)
Definition same_rest (s s' : Sched) : Prop :=
  ∀ x, x ∈ dom (g_heap s) → n_phase (getN s' x) = n_phase (getN s x) ∧ n_f (getN s' x) = n_f (getN s x) ∧ n_id (getN s' x) = n_id (getN s x).

Lemma same_rest_int s s' : int_only s s' → same_rest s s'.
Proof. intros H x _. by destruct (int_only_getN _ _ x H) as (I & -> & _). Qed.

Lemma linked_closed p l s :
  p ∈ dom (g_heap s) → l ∈ dom (g_heap s) → interest_closed s → closed_off {[p]} (linked p l s).
Proof.
  intros Hp Hl Hc x d Hx. destruct (linked_getN p l s x Hp Hl) as (D & E & -> & -> & _).
  destruct (linked_getN p l s d Hp Hl) as (D' & E' & -> & _). simpl. rewrite decide_False by set_solver.
  intros Hd. apply Hc; set_solver.
Qed.

Lemma graph_ok_weaken X s : graph_ok s → graph_okX X s.
Proof. intros [B I O L]. split; try done. intros id x Hx _. apply (L id x Hx). set_solver. Qed.

(** Giving [l] a non-empty interest makes it a live node. *)
Lemma live_join l s s' ids :
  live_off {[l]} s → int_only s s' → ids ≠ ∅ → ids ⊆ interest s' l → live_off ∅ s'.
Proof.
  intros Hlv Hio Hne Hin id x Hx _ Hemp. rewrite (io_rest _ _ Hio) in Hx. simpl in Hx.
  destruct (decide (x = l)) as [->|Hxl]; [set_solver|].
  apply (Hlv id x Hx); [set_solver|]. pose proof (int_only_interest _ _ x Hio). set_solver.
Qed.

Lemma linked_owned p l s : owned s → p ∈ dom (g_heap s) → l ∈ dom (g_heap s) → owned (linked p l s).
Proof.
  intros Ho Hp Hl rid x. destruct (linked_getN p l s x Hp Hl) as (D & E & -> & _). simpl.
  intros (t & Ht & Hx)%Ho. exists t. split; [done|]. eapply reach_eq; [|exact Hx].
  intros y. destruct (linked_getN p l s y Hp Hl) as (D' & E' & -> & -> & _). simpl. set_solver.
Qed.

(** Propagation closes the only edge that was open. *)
Lemma join_closed p l s1 s2 :
  (∀ d, d ∈ deps s1 p → d ≠ l → interest s1 p ⊆ interest s1 d) →
  prop_post (interest s1 p) {[p]} [l] s1 s2 → interest_closed s2.
Proof.
  intros Hold (Hio & Hc & Hids & Hbnd & _) x d _ Hxd. specialize (Hids l ltac:(left)).
  destruct (decide (x = p)) as [->|Hne]; [|apply Hc; set_solver].
  rewrite (int_only_deps _ _ _ Hio) in Hxd. specialize (Hbnd p). pose proof (int_only_interest _ _ d Hio).
  destruct (decide (d = l)) as [->|Hdl]; [set_solver|]. specialize (Hold d Hxd Hdl). set_solver.
Qed.

Lemma join_ok p l s :
  graph_okX {[l]} s → occ s p → interest s p ≠ ∅ → l ∈ dom (g_heap s) →
  wp (link p l;; pn ← node_at p; propagateInterest l (n_interest pn)) s (λ _ s', okS s s' ∧ same_rest s s').
Proof.
  intros Hok [Hp Hocc] Hne Hl. pose proof Hok as [Hb Hi Ho Hlv]. apply wp_bind. unfold link. apply wp_bind, wp_node_at.
  case_decide as Hin.
  { apply wp_ret. apply wp_bind, wp_node_at. eapply wp_mono; [apply (propagateInterest_ok (X := {[l]})); [done|done|]|].
    - intros id (t & Ht & Hr)%Ho. exists t. split; [done|]. by eapply rtc_r.
    - intros [] s' ([B I O L] & Hio & Hsub). split; [split; [|by apply int_only_grows]|by apply same_rest_int].
      split; try done. by apply (live_join l s s' _ Hlv Hio Hne). }
  apply wp_bind, wp_mod, wp_mod. fold (linked p l s). set (s1 := linked p l s).
  assert (Hd : dom (g_heap s1) = dom (g_heap s)) by (unfold s1, linked; by rewrite !dom_updN).
  pose proof (linked_base p l s (conj Hp Hocc) Hl Hb) as Hb1. pose proof (linked_closed p l s Hp Hl Hi) as Hc1.
  pose proof (linked_owned p l s Ho Hp Hl) as Ho1. fold s1 in Hb1, Hc1, Ho1.
  pose proof (λ x, linked_getN p l s x Hp Hl) as G. fold s1 in G.
  assert (Hsame : ∀ x, interest s1 x = interest s x) by (intros x; by destruct (G x) as (D & E & -> & _)).
  assert (Hdeps : deps s1 p = {[l]} ∪ deps s p).
  { destruct (G p) as (D & E & -> & -> & _). simpl. by rewrite decide_True. }
  apply wp_bind, wp_node_at. unfold propagateInterest. apply wp_bind, wp_get.
  eapply wp_mono; [apply (propagate_spec _ (interest s1 p) {[p]}); [by intros x ->%elem_of_singleton|by rewrite Hd|apply Hb1|done]|].
  intros [] s2 Hpost. pose proof Hpost as (Hio & _ & Hids & _). split; [split; [split|]|].
  - by eapply base_int.
  - eapply join_closed; [|exact Hpost]. rewrite Hdeps. intros d [->%elem_of_singleton|Hpd]%elem_of_union Hdl; [done|].
    rewrite !Hsame. apply Hi; [set_solver|done].
  - eapply owned_propagate; [exact Ho1|exact Hpost|]. intros id (t & Ht & Hr)%Ho1. exists t. split; [done|].
    eapply rtc_r; [exact Hr|]. rewrite Hdeps. set_solver.
  - eapply (live_join l s1); [|done| |apply Hids; left].
    + intros id x Hx. rewrite Hsame. apply (Hlv id x Hx).
    + by rewrite Hsame.
  - etransitivity; [apply linked_grows|by apply int_only_grows].
  - intros x Hx. rewrite <- Hd in Hx. destruct (same_rest_int _ _ Hio x Hx) as (-> & -> & ->).
    by destruct (G x) as (D & E & -> & _).
Qed.

(** ** Creating a node *)

Definition alloc (id : kind * Key) (seed : Z) (s : Sched) : Sched :=
  set_g_next (Pos.succ (g_next s)) (set_g_nodes (<[id := g_next s]> (g_nodes s))
    (set_g_heap (<[g_next s := new_node id seed]> (g_heap s)) s)).

Lemma fresh_loc s : graph_base s → g_next s ∉ dom (g_heap s).
Proof. intros H Hin%(go_next _ H). lia. Qed.

Lemma alloc_getN id seed s x :
  getN (alloc id seed s) x = (if decide (x = g_next s) then new_node id seed else getN s x).
Proof.
  unfold getN, alloc. simpl. rewrite !lookup_total_alt.
  destruct (decide (x = g_next s)) as [->|]; [by rewrite lookup_insert_eq|by rewrite lookup_insert_ne].
Qed.

Lemma getN_fresh s : graph_base s → getN s (g_next s) = inhabitant.
Proof.
  intros H. unfold getN. rewrite lookup_total_alt. pose proof (fresh_loc s H) as Hn.
  apply not_elem_of_dom in Hn. by rewrite Hn.
Qed.

Lemma new_node_ok P id seed : node_ok P (new_node id seed).
Proof.
  split; simpl; [done| |by left|done]. unfold in_budget, maxConsecRetryable, maxConsecControl. simpl. lia.
Qed.

Lemma alloc_grows id seed s : graph_base s → g_nodes s !! id = None → grows s (alloc id seed s).
Proof.
  intros Hb Hid. split; simpl; try done; [by apply insert_subseteq| |exists []; by rewrite app_nil_r].
  intros l n Hn. exists n. split; [|done]. rewrite lookup_insert_ne; [done|].
  intros <-. apply (fresh_loc s Hb). by eapply elem_of_dom_2.
Qed.

Lemma alloc_base id seed s : graph_base s → g_nodes s !! id = None → graph_base (alloc id seed s).
Proof.
  intros Hb Hid. pose proof (alloc_grows id seed s Hb Hid) as Hg. pose proof (fresh_loc s Hb) as Hf.
  destruct Hb as [B1 B2 B3 B4 B5 B7 B6].
  assert (Hold : ∀ l n, g_heap s !! l = Some n → g_heap (alloc id seed s) !! l = Some n).
  { intros l n Hn. simpl. rewrite lookup_insert_ne; [done|]. intros <-. apply Hf. by eapply elem_of_dom_2. }
  assert (Hdom : dom (g_heap (alloc id seed s)) = {[g_next s]} ∪ dom (g_heap s)) by (simpl; apply dom_insert_L).
  split.
  - intros l n. simpl. rewrite lookup_insert. case_decide; [intros [= <-]; apply new_node_ok|apply B1].
  - intros id' l. simpl. rewrite lookup_insert. case_decide as Hd.
    + intros [= <-]. eexists. rewrite lookup_insert_eq. by split.
    + intros (n & Hn & Hi)%B2. exists n. split; [by apply Hold|done].
  - intros l. rewrite Hdom. simpl. intros [->%elem_of_singleton|Hl%B3]%elem_of_union; lia.
  - intros l d. rewrite Hdom, alloc_getN. case_decide; [set_solver|]. intros ?%B4. set_solver.
  - intros l p. rewrite Hdom, !alloc_getN. case_decide; [set_solver|]. intros [Hp Hd]%B5. split; [set_solver|].
    rewrite decide_False; [done|]. intros ->. done.
  - intros l p. rewrite !alloc_getN. case_decide; [set_solver|]. intros Hin. pose proof (B5 _ _ Hin) as [Hp _].
    apply B7 in Hin. rewrite decide_False by (intros ->; done). simpl. rewrite lookup_insert_ne; [done|]. congruence.
  - intros t (n & Hn & Hi & Hk)%B6. exists n. split; [by apply Hold|done].
Qed.

Lemma alloc_ok id seed s :
  graph_ok s → g_nodes s !! id = None → graph_okX {[g_next s]} (alloc id seed s).
Proof.
  intros [Hb Hi Ho Hlv] Hid. pose proof (fresh_loc s Hb) as Hf. split; [by apply alloc_base|..].
  - intros l d _. rewrite !alloc_getN. case_decide as Hl; [set_solver|]. intros Hd.
    rewrite decide_False; [by apply Hi|]. intros ->. by apply Hf, (go_deps _ Hb l).
  - intros rid l. rewrite alloc_getN. case_decide; [set_solver|]. intros (t & (r & Hr & Ht) & Hx)%Ho. exists t. split.
    + exists r. split; [done|]. destruct Ht as [Ht|[Hn Ht]]; [by left|right]. split; [done|]. simpl.
      rewrite lookup_insert_ne; [done|]. congruence.
    + eapply reach_eq; [|exact Hx]. intros y. rewrite alloc_getN. case_decide as Hy; [|done]. subst y.
      rewrite getN_fresh by done. done.
  - intros id' l. simpl. rewrite lookup_insert, alloc_getN. case_decide as Hd; [set_solver|].
    intros Hl Hx. rewrite decide_False by set_solver. apply (Hlv id' l Hl). set_solver.
Qed.

Definition fresh_node (s : Sched) (l : loc) : Prop :=
  n_phase (getN s l) = PhaseWaiting ∧ n_f (getN s l) = None.

Lemma occ_table {X} s id l : graph_okX X s → g_nodes s !! id = Some l → occ s l ∧ n_id (getN s l) = id.
Proof.
  intros Hok H. destruct (go_table _ (go_base _ _ Hok) _ _ H) as (n & Hn & Hid).
  unfold occ. rewrite (getN_heap _ _ _ Hn), Hid. split; [|done]. split; [by eapply elem_of_dom_2|done].
Qed.

Lemma get_or_create_ok id s :
  graph_ok s →
  wp (get_or_create id) s (λ r s', graph_okX {[r.1]} s' ∧ grows s s' ∧ g_nodes s' !! id = Some r.1 ∧
    (r.2 = false → fresh_node s' r.1)).
Proof.
  intros Hok. unfold get_or_create. apply wp_bind, wp_get. destruct (g_nodes s !! id) as [l|] eqn:E.
  { apply wp_ret. split_and!; [by apply graph_ok_weaken|done|done|done]. }
  apply wp_bind, wp_bind, wp_now, wp_ret. set (s1 := set_g_ticks _ s).
  pose proof (outside_tick s) as O. fold s1 in O. pose proof (graph_ok_outside _ _ O Hok) as Hok1.
  assert (E1 : g_nodes s1 !! id = None) by exact E.
  apply wp_bind, wp_mod, wp_ret. change (g_next s) with (g_next s1).
  fold (alloc id (u64 (clk (g_ticks s))) s1). set (s2 := alloc _ _ s1). cbn [fst snd].
  assert (Hnew : getN s2 (g_next s1) = new_node id (u64 (clk (g_ticks s)))).
  { unfold s2. rewrite alloc_getN. by rewrite decide_True. }
  split_and!.
  - by apply alloc_ok.
  - etransitivity; [by apply grows_outside|apply alloc_grows; [apply Hok1|done]].
  - simpl. by rewrite lookup_insert_eq.
  - intros _. unfold fresh_node. by rewrite Hnew.
Qed.

Lemma fill_boring def pl lb : boring (fill_fields def pl lb).
Proof. intros n. unfold fill_fields. repeat case_match; by repeat split. Qed.

End SchedInv.
