(* ===== verification/SchedRec.v ===== *)
(** * The recursive operations keep the scheduler's invariant

    [require], the buildvalue orchestrator, unfolding and completion call each
    other; they are handled together, for procedures that keep the invariant. *)
From S2P Require Import Prelude GoLib Resources Keys Wire Builddef Store Gate Commit LogBuf SchedState PullRefs Graph Results Submit GraphFacts SchedInv.
From Stdlib Require Import Ascii.
Local Open Scope string_scope.
Local Open Scope list_scope.

Section SchedRec.
Context `{SE0 : SchedEnv} {GN : Gone}.

Abbreviation interest s l := (n_interest (getN s l)).
Abbreviation deps s l := (n_deps (getN s l)).
Abbreviation refs s := (st_refs (g_store s)).

(** ** The mutually recursive operations *)

Record procs_ok (P : procs) : Prop := {
  po_require : ∀ kd k def pl p lb s, graph_ok s → occ s p →
    wp (p_require P kd k def pl (Some p) None lb) s (λ _, okS s);
  po_advance : ∀ l s, graph_ok s → occ s l → kind_of (getN s l) = KindBuildValue →
    wp (p_advance P l) s (λ _, okS s) }.

Lemma grows_kind s s' l : grows s s' → l ∈ dom (g_heap s) → n_id (getN s' l) = n_id (getN s l).
Proof. intros H Hl. apply (grows_node _ _ _ H Hl). Qed.

Lemma grows_occ s s' l : grows s s' → occ s l → occ s' l.
Proof.
  intros H [Hl Ho]. split; [by eapply grows_dom|]. rewrite (grows_kind _ _ _ H Hl).
  eapply lookup_weaken; [done|apply H].
Qed.

Lemma grows_act s s' l : grows s s' → act s l → act s' l.
Proof.
  intros H [Ho Hp]. split; [by eapply grows_occ|]. by rewrite <- (nle_pub _ _ (grows_node _ _ _ H (proj1 Ho))).
Qed.

Lemma bv_act s l : graph_ok s → occ s l → kind_of (getN s l) = KindBuildValue → act s l.
Proof.
  intros Hok Ho Hk. split; [done|]. destruct (no_placed _ _ (go_nodeN _ _ (go_base _ _ Hok) (proj1 Ho)) Hk) as [->|[->| ->]]; done.
Qed.

Lemma ensureFAliases_present f kp st st' :
  ensureFAliases f kp st = (st', Ok tt) → build_output f ∈ dom (st_refs st').
Proof.
  unfold ensureFAliases, mbind, SE_bind, se_get. intros H.
  destruct (GetKey (build_output f) st) as [[cur|]|e] eqn:E; simplify_eq/=.
  - injection H as <-. apply GetKey_Some in E. by eapply elem_of_dom_2.
  - destruct (GetKey (build_output_deps kp) st) as [d|e]; [|done].
    destruct (GetKey (build_output kp) st) as [[out|]|e]; [|done..]. destruct d as [d|]; [|done].
    unfold se_put in H. destruct (PutRef (build_output_deps f) d st) as [st1 [[]|e]]; [|done].
    apply PutRef_Ok in H as (_ & -> & _). simpl. rewrite dom_insert_L. set_solver.
Qed.

Section Recursive.
Context (P : procs) (HP : procs_ok P).

Lemma onDepDone_ok d s : graph_ok s → occ s d → wp (onDepDoneLocked P d) s (λ _, okS s).
Proof using HP.
  intros Hok Hd. apply wp_bind, wp_node_at. wp_step.
  - apply bool_decide_eq_true in Heqb. by apply (po_advance _ HP).
  - by apply maybeEnqueue_ok, Hd.
Qed.

Lemma wp_for_ok {A} (f : A → M Sched unit) ls s (D : Sched → Prop) :
  graph_ok s → D s → (∀ s1 s2, grows s1 s2 → D s1 → D s2) →
  (∀ x s1, x ∈ ls → graph_ok s1 → D s1 → grows s s1 → wp (f x) s1 (λ _, okS s1)) →
  wp (mfor f ls) s (λ _, okS s).
Proof using Type.
  intros Hok HD Hst Hf. eapply wp_mono; [apply (wp_for (λ s', okS s s' ∧ D s') f ls s)|by intros [] s' [? _]].
  - split; [by apply okS_refl|done].
  - intros x s1 Hx [[Hok1 Hg1] HD1]. eapply wp_mono; [by apply (Hf x s1)|]. intros [] s2 [Hok2 Hg2]. split.
    + split; [done|by etransitivity].
    + by eapply Hst.
Qed.

(** Marking a node done is sound when a buildvalue has its output. *)
Lemma mark_done l s :
  graph_ok s → l ∈ dom (g_heap s) →
  (kind_of (getN s l) = KindBuildValue → ∃ f, n_f (getN s l) = Some f ∧ build_output f ∈ dom (refs s)) →
  graph_ok (updN l (set_n_phase PhaseDone) s) ∧
  (n_phase (getN s l) ≠ PhasePublishing → grows s (updN l (set_n_phase PhaseDone) s)).
Proof using Type.
  intros Hok Hl Ha. split.
  - apply graph_ok_upd; [done|by split|]. intros _. destruct (go_nodeN _ _ (go_base _ _ Hok) Hl) as [N B Pl A].
    split; simpl; [done| |right; by left|intros Hk _; destruct (Ha Hk) as (f & Hf & Hin); exists f; split; [done|by left]].
    destruct B as (B1 & B2 & _). split; [done|]. split; [done|]. left. by left.
  - intros Hp. apply grows_updN. split; simpl; try done.
Qed.

Lemma nodeDone_ok l s :
  graph_ok s → l ∈ dom (g_heap s) →
  (kind_of (getN s l) = KindBuildValue → ∃ f, n_f (getN s l) = Some f ∧ build_output f ∈ dom (refs s)) →
  wp (nodeDoneLocked P l) s (λ _ s', graph_ok s' ∧ (n_phase (getN s l) ≠ PhasePublishing → grows s s') ∧
    (n_phase (getN s l) ≠ PhaseDone → grows (updN l (set_n_phase PhaseDone) s) s')).
Proof using HP.
  intros Hok Hl Ha. apply wp_bind, wp_node_at. wp_step.
  { apply bool_decide_eq_true in Heqb. by apply wp_ret. }
  apply wp_bind, wp_mod. destruct (mark_done l s Hok Hl Ha) as [Hok1 Hg1]. set (s1 := updN _ _ s) in *.
  eapply wp_mono; [|intros a s' H'; exact (conj (proj1 H') (conj (λ Hp, transitivity (Hg1 Hp) (proj2 H')) (λ _, proj2 H')))].
  clearbody s1. clear Hok Hl Ha Hg1 Heqb s. pose proof (okS_refl _ Hok1) as H1.
  apply wp_bind, wp_now. pose proof (okS_outside _ _ _ (outside_tick _) H1) as H2.
  apply wp_bind. eapply (wp_upd_boring s1); [by intros n; repeat split|exact H2|]. intros s3 H3 _.
  apply wp_bind. eapply (wp_upd_boring s1); [by intros n; repeat split|exact H3|]. intros s4 H4 _.
  apply wp_bind, wp_status. intros s5 O5. apply wp_bind, wp_bump. intros s6 O6.
  pose proof (okS_outside _ _ _ (outside_trans _ _ _ O5 O6) H4) as H6. apply wp_bind, wp_node_at. apply wp_bind, wp_range.
  pose proof (okS_outside _ _ _ (outside_tick s6) H6) as [Hok7 Hg7].
  eapply wp_mono; [apply (wp_for_ok _ _ _ (λ s', ∀ d, d ∈ map_order (g_ticks s6) (n_dependents (getN s6 l)) → occ s' d)); [done| |..]|].
  - intros d. rewrite map_order_perm, elem_of_elements. intros Hd. split.
    + by apply (go_dependents _ (go_base _ _ (proj1 H6)) l).
    + by apply (go_occ _ (go_base _ _ (proj1 H6)) l).
  - intros s8 s9 Hg HD d Hd. eapply grows_occ; [done|by apply HD].
  - intros d s8 Hd Hok8 HD _. apply onDepDone_ok; [done|by apply HD].
  - intros [] s' H'. by eapply okS_trans.
Qed.

Lemma require_stage_ok bv kd k def s :
  graph_ok s → act s bv → wp (require_stage P bv kd k def) s (λ _, okS s).
Proof using HP.
  intros Hok [Hbv _]. apply wp_bind, wp_node_at. apply wp_bind. eapply wp_mono; [by apply (po_require _ HP)|].
  intros l s' H'. apply wp_bind, wp_node_at, wp_ret, H'.
Qed.

Lemma resolve_F_ok bv s :
  graph_ok s → act s bv →
  wp (resolve_F bv) s (λ r s', okS s s' ∧ ∀ f, r = Some f → n_f (getN s' bv) = Some f).
Proof using Type.
  intros Hok [[Hbv Hocc] Hpub]. apply wp_bind, wp_node_at. destruct (n_f (getN s bv)) as [f|] eqn:Ef.
  { apply wp_ret. split; [by apply okS_refl|]. by intros ? [= <-]. }
  apply wp_bind, wp_liftSE; [apply po_get|]. intros st' r _ O. pose proof (graph_ok_outside _ _ O Hok) as Hok1.
  pose proof (grows_outside _ _ O) as Hg1.
  destruct r as [[f|]|e].
  2,3: apply wp_bind; (eapply wp_mono; [by apply failNode_ok|]); intros [] s' H'; apply wp_ret; split; [by eapply okS_trans|done].
  apply wp_bind, wp_mod, wp_ret. set (s1 := set_g_store st' s) in *.
  assert (Hbv1 : bv ∈ dom (g_heap s1)) by done.
  split; [|by intros ? [= <-]; rewrite getN_updN]. split.
  - apply graph_ok_upd; [done|by split|]. intros _. destruct (go_nodeN _ _ (go_base _ _ Hok1) Hbv1) as [N B Pl A]. split; simpl; try done.
    intros Hk Hd. destruct (A Hk Hd) as (f' & Hf' & _). change (getN s1 bv) with (getN s bv) in Hf'. congruence.
  - etransitivity; [exact Hg1|]. apply grows_updN. split; simpl; try done. change (getN s1 bv) with (getN s bv).
    rewrite Ef. by intros [? ?].
Qed.

Lemma resolve_KP_ok bv f s :
  graph_ok s → act s bv → wp (resolve_KP bv f) s (λ _, okS s).
Proof using Type.
  intros Hok [[Hbv Hocc] Hpub]. apply wp_bind, wp_node_at. wp_step; [by apply wp_ret, okS_refl|].
  apply wp_bind, wp_liftSE; [apply po_resolveKP|]. intros st' r _ O. pose proof (graph_ok_outside _ _ O Hok) as Hok1.
  pose proof (grows_outside _ _ O) as Hg1. destruct r as [kp|e].
  - apply wp_bind. eapply (wp_upd_boring s); [by intros n; repeat split|by split|]. intros s2 H2 _. by apply wp_ret.
  - apply wp_bind. eapply wp_mono; [by apply failNode_ok|]. intros [] s' H'. apply wp_ret. by eapply okS_trans.
Qed.

Lemma advance_ok bv s :
  graph_ok s → occ s bv → kind_of (getN s bv) = KindBuildValue →
  wp (advanceBuildValueLocked P bv) s (λ _, okS s).
Proof using HP.
  intros Hok Hocc Hk. pose proof (bv_act _ _ Hok Hocc Hk) as Hbv. apply wp_bind, wp_node_at. wp_step; [by apply wp_ret, okS_refl|]. clear Heqb.
  apply wp_bind. eapply wp_mono; [by apply require_stage_ok|]. intros d s1 [Hok1 G1].
  pose proof (grows_act _ _ _ G1 Hbv) as B1. wp_step; [by apply wp_ret|].
  apply wp_bind. eapply wp_mono; [by apply resolve_F_ok|]. intros r s2 [[Hok2 G2] Hf].
  pose proof (grows_act _ _ _ G2 B1) as B2. assert (G02 : grows s s2) by (by etransitivity).
  destruct r as [f|]; [|by apply wp_ret]. specialize (Hf f eq_refl).
  apply wp_bind. eapply wp_mono; [by apply require_stage_ok|]. intros d3 s3 [Hok3 G3].
  pose proof (grows_act _ _ _ G3 B2) as B3. assert (G03 : grows s s3) by (by etransitivity). wp_step; [by apply wp_ret|].
  apply wp_bind. eapply wp_mono; [by apply require_stage_ok|]. intros d4 s4 [Hok4 G4].
  pose proof (grows_act _ _ _ G4 B3) as B4. assert (G04 : grows s s4) by (by etransitivity). wp_step; [by apply wp_ret|].
  apply wp_bind. eapply wp_mono; [by apply resolve_KP_ok|]. intros kp s5 [Hok5 G5].
  pose proof (grows_act _ _ _ G5 B4) as B5. assert (G05 : grows s s5) by (by etransitivity).
  destruct kp as [kp|]; [|by apply wp_ret].
  apply wp_bind. eapply wp_mono; [by apply require_stage_ok|]. intros d6 s6 [Hok6 G6].
  pose proof (grows_act _ _ _ G6 B5) as B6. assert (G06 : grows s s6) by (by etransitivity). wp_step; [by apply wp_ret|].
  apply wp_bind, wp_liftSE; [apply po_ensureFAliases|]. intros st' r Hr O.
  pose proof (graph_ok_outside _ _ O Hok6) as Hok7. assert (G07 : grows s (set_g_store st' s6)) by (etransitivity; [exact G06|by apply grows_outside]).
  destruct r as [[]|e].
  - eapply wp_mono; [apply nodeDone_ok; [done|apply B6|]|].
    2:{ intros [] s' (Hok' & Hg' & _). split; [done|]. etransitivity; [exact G07|]. apply Hg', B6. }
    intros _. exists f. split; [|by eapply ensureFAliases_present].
    assert (G26 : grows s2 s6) by (etransitivity; [exact G3|etransitivity; [exact G4|etransitivity; [exact G5|exact G6]]]).
    change (getN (set_g_store st' s6) bv) with (getN s6 bv). rewrite (nle_f _ _ (grows_node _ _ _ G26 (proj1 (proj1 B2)))); [done|]. rewrite Hf. eauto.
  - eapply wp_mono; [apply failNode_ok; [done|apply B6]|]. intros [] s' H'. by eapply okS_trans.
Qed.

Lemma wp_fail_tail l sm s0 s : okS s0 s → act s l → wp (failNodeLocked l sm) s (λ _, okS s0).
Proof using Type.
  intros [Hok Hg] [_ Hp]. eapply wp_mono; [by apply failNode_ok|]. intros [] s' H'. by eapply okS_trans.
Qed.

Lemma require_tail kd k def pl p lb s0 s :
  okS s0 s → act s p →
  wp (p_require P kd k def pl (Some p) None lb;; mret tt) s (λ _, okS s0).
Proof using HP.
  intros [Hok Hg] [Hp _]. apply wp_bind. eapply wp_mono; [by apply (po_require _ HP)|].
  intros l s' H'. apply wp_ret. by eapply okS_trans.
Qed.

Lemma requireInput_ok p i lb s :
  graph_ok s → act s p → wp (requireInputLocked P p i lb) s (λ _, okS s).
Proof using HP.
  intros Hok Hp. pose proof (okS_refl _ Hok) as H0. apply wp_bind, wp_node_at.
  wp_step; [wp_step; [by apply require_tail|by apply wp_fail_tail]|].
  wp_step; [|wp_step; [by apply wp_ret|by apply wp_fail_tail]].
  wp_step; [|by apply wp_fail_tail].
  apply wp_bind. unfold cycleChainLocked. apply wp_bind, wp_tick. apply wp_bind, wp_get.
  pose proof (okS_outside _ _ _ (outside_tick s) H0) as H1.
  match goal with |- wp (match ?x with _ => _ end) _ _ => destruct x as [[seen [c|]]|] end;
    [apply wp_ret; by apply wp_fail_tail|apply wp_ret; by apply require_tail|apply wp_fuel].
Qed.

Lemma act_updN l f s : boring f → act s l → act (updN l f s) l.
Proof using Type.
  intros Hf [[Hl Ho] Hp]. destruct (Hf (getN s l)) as ([Hid _ _ _ _] & Hph & _).
  split; [split; [by rewrite dom_updN|]|]; rewrite getN_updN by done; simpl; congruence.
Qed.

(** An optional update of a display or placement field. *)
Lemma opt_upd (b : bool) l f s0 s (Q : unit → Sched → Prop) :
  boring f → okS s0 s → act s l → (∀ s', okS s0 s' → act s' l → Q tt s') →
  wp (if b then upd l f else mret tt) s Q.
Proof using Type.
  intros Hf Ho Hl HQ. destruct b; [|apply wp_ret; by apply HQ].
  eapply wp_upd_boring; [done|done|]. intros s' H' ->. apply HQ; [done|]. by apply act_updN.
Qed.

Lemma if_negb {A} (b : bool) (x y : A) : (if b then x else y) = (if negb b then y else x).
Proof using Type. by destruct b. Qed.

Lemma unfold_import_ok l s : graph_ok s → act s l → wp (unfold_import P l) s (λ _, okS s).
Proof using HP.
  intros Hok Hl. pose proof (okS_refl _ Hok) as H0. apply wp_bind, wp_node_at.
  wp_step; [by apply wp_fail_tail|]. wp_step; [|by apply wp_fail_tail].
  apply wp_bind. rewrite if_negb. eapply opt_upd; [by intros n; repeat split|exact H0|done|]. intros s1 H1 L1.
  apply wp_bind. eapply opt_upd; [by intros n; repeat split|exact H1|done|]. intros s2 H2 L2.
  wp_step; [by apply wp_ret|]. wp_step; [|by apply wp_fail_tail].
  apply wp_bind, wp_node_at. by apply require_tail.
Qed.

Lemma unfold_buildfrom_ok l s : graph_ok s → act s l → wp (unfold_buildfrom P l) s (λ _, okS s).
Proof using HP.
  intros Hok Hl. pose proof (okS_refl _ Hok) as H0. apply wp_bind, wp_node_at.
  wp_step; [by apply wp_fail_tail|]. wp_step; [|by apply wp_fail_tail].
  apply wp_bind. rewrite if_negb. eapply opt_upd; [by intros n; repeat split|exact H0|done|]. intros s1 H1 L1.
  apply wp_bind. eapply opt_upd; [by intros n; repeat split|exact H1|done|]. intros s2 [Hok2 G2] L2.
  eapply wp_mono; [by apply requireInput_ok|]. intros [] s' H'. by eapply okS_trans.
Qed.

(** The input loops of pin and buildrun. *)
Lemma input_loop {A} l (f : A → node → node) (g : A → Input) (h : A → string) ins s0 s :
  (∀ a, boring (f a)) → okS s0 s → act s l →
  wp (mfor (λ a, upd l (f a);; requireInputLocked P l (g a) (h a)) ins) s (λ _, okS s0).
Proof using HP.
  intros Hf [Hok Hg] Hl. eapply wp_mono; [apply (wp_for_ok _ _ _ (λ s', act s' l)); [done|done|..]|].
  - intros s1 s2 G. by apply grows_act.
  - intros a s1 _ Hok1 L1 _. apply wp_bind. eapply (wp_upd_boring s1); [done|by apply okS_refl|].
    intros s2 [Hok2 G2] ->. eapply wp_mono; [apply requireInput_ok; [done|by apply act_updN]|].
    intros [] s3 H3. by eapply okS_trans.
  - intros [] s' H'. by eapply okS_trans.
Qed.

Lemma unfold_pin_ok l s : graph_ok s → act s l → wp (unfold_pin P l) s (λ _, okS s).
Proof using HP.
  intros Hok Hl. apply wp_bind, wp_node_at. apply wp_bind. unfold readPluginResolvedLocked, readRefFileLocked.
  apply wp_bind, wp_bind, wp_get, wp_ret, wp_ret. wp_step; [|by apply wp_fail_tail; [apply okS_refl|]].
  apply wp_bind. eapply (wp_upd_boring s); [by intros n; repeat split|by apply okS_refl|]. intros s1 H1 ->.
  apply (input_loop l (λ (ni : string * Input) x, set_n_pinInputs (n_pinInputs x ++ [ni.2]) x) snd fst);
    [by intros ni n; repeat split|done|by apply act_updN; [intros n; repeat split|]].
Qed.

Lemma unfold_buildrun_ok l s : graph_ok s → act s l → wp (unfold_buildrun P l) s (λ _, okS s).
Proof using HP.
  intros Hok Hl. pose proof (okS_refl _ Hok) as H0. apply wp_bind, wp_node_at. apply wp_bind. unfold readPinnedLocked, readRefFileLocked.
  apply wp_bind, wp_bind, wp_get, wp_ret, wp_ret. match goal with |- wp (match ?x with _ => _ end) _ _ => destruct x as [pinned|e] end; [|by apply wp_fail_tail].
  apply wp_bind.
  assert (Hnext : ∀ s1, okS s s1 → act s1 l → wp (upd l (set_n_caches (p_Caches pinned));;
    upd l (set_n_runInputs []);;
    mfor (λ pi : PinnedInput, upd l (λ x, set_n_runInputs (n_runInputs x ++ [mkInput (pi_Kind pi) (pi_Definition pi)]) x);;
      requireInputLocked P l (mkInput (pi_Kind pi) (pi_Definition pi)) (pi_Name pi)) (p_Inputs pinned)) s1 (λ _, okS s)).
  { intros s1 H1 L1. apply wp_bind. eapply (wp_upd_boring s); [by intros n; repeat split|exact H1|]. intros s2 H2 ->.
    apply wp_bind. eapply (wp_upd_boring s); [by intros n; repeat split|exact H2|]. intros s3 H3 ->.
    apply (input_loop l (λ pi x, set_n_runInputs (n_runInputs x ++ [mkInput (pi_Kind pi) (pi_Definition pi)]) x)
      (λ pi, mkInput (pi_Kind pi) (pi_Definition pi)) pi_Name); [by intros pi n; repeat split|done|].
    by do 2 (apply act_updN; [intros n; repeat split|]). }
  wp_step; [|apply wp_ret; by apply Hnext].
  eapply (wp_upd_boring s); [by intros n; repeat split|exact H0|]. intros s1 H1 ->. apply Hnext; [done|by apply act_updN; [intros n; repeat split|]].
Qed.

Lemma unfold_ok l s : graph_ok s → act s l → wp (unfoldLocked P l) s (λ _, okS s).
Proof using HP.
  intros Hok Hl. apply wp_bind, wp_node_at. destruct (n_id (getN s l)).1 eqn:E.
  - by apply unfold_import_ok.
  - by apply unfold_buildfrom_ok.
  - by apply wp_ret, okS_refl.
  - by apply unfold_pin_ok.
  - by apply unfold_buildrun_ok.
  - apply (po_advance _ HP); [done|apply Hl|done].
Qed.

(** The doneness check; a positive answer for a buildvalue is backed by its
    F-keyed output. *)
Lemma outputExists_ok l s :
  graph_ok s → l ∈ dom (g_heap s) → fresh_node s l →
  wp (outputExistsLocked l) s (λ r s', okS s s' ∧ n_phase (getN s' l) = PhaseWaiting ∧
    (r = Ok true → kind_of (getN s' l) = KindBuildValue →
     ∃ f, n_f (getN s' l) = Some f ∧ build_output f ∈ dom (refs s'))).
Proof using Type.
  intros Hok Hl [Hw Hf]. apply wp_bind, wp_node_at.
  assert (Hpres : ∀ name s1, okS s s1 → n_phase (getN s1 l) = PhaseWaiting →
    (kind_of (getN s1 l) = KindBuildValue → ∃ f, n_f (getN s1 l) = Some f ∧ name = build_output f) →
    wp (r ← getKey name; mret (match r with Ok o => Ok (bool_decide (is_Some o)) | Err e => Err e end)) s1
      (λ r s', okS s s' ∧ n_phase (getN s' l) = PhaseWaiting ∧
      (r = Ok true → kind_of (getN s' l) = KindBuildValue → ∃ f, n_f (getN s' l) = Some f ∧ build_output f ∈ dom (refs s')))).
  { intros name s1 H1 W1 N1. apply wp_bind, wp_liftSE; [apply po_get|]. intros st' r Hr O. injection Hr as <- <-.
    apply wp_ret. split_and!; [by eapply okS_outside|done|].
    unfold se_get. destruct (GetKey name (g_store s1)) as [o|e] eqn:E; [|done].
    intros [= Ho%bool_decide_eq_true] Hk. destruct (N1 Hk) as (f & Hf1 & ->). exists f. split; [done|].
    destruct Ho as [k ->]. apply GetKey_Some in E. by eapply elem_of_dom_2. }
  destruct (n_id (getN s l)).1 eqn:E; try (apply Hpres; [by apply okS_refl|done|unfold kind_of; rewrite E; done]).
  apply wp_bind, wp_liftSE; [apply po_get|]. intros st' r Hr O. injection Hr as <- <-. unfold se_get.
  assert (Hs : set_g_store (g_store s) s = s) by (by destruct s). rewrite Hs in *.
  destruct (GetKey (build_from (n_id (getN s l)).2) (g_store s)) as [[f|]|e].
  2,3: apply wp_ret; split_and!; [by apply okS_refl|done|done].
  apply wp_bind, wp_mod.
  assert (H1 : okS s (updN l (set_n_f (Some f)) s)).
  { split.
    - apply graph_ok_upd; [done|by split|]. intros _. destruct (go_nodeN _ _ (go_base _ _ Hok) Hl) as [N B Pl A].
      split; simpl; try done. congruence.
    - apply grows_updN. split; simpl; try done. rewrite Hf. by intros [? ?]. }
  apply Hpres; [done| |].
  - by rewrite getN_updN.
  - intros _. exists f. by rewrite getN_updN.
Qed.

Lemma activate_ok l s :
  graph_ok s → occ s l → fresh_node s l → wp (activate P l) s (λ _, okS s).
Proof using HP.
  intros Hok Hl Hfr. apply wp_bind. eapply wp_mono; [apply outputExists_ok; [done|apply Hl|done]|]. intros r s1 ([Hok1 G1] & Hw & Ha).
  pose proof (grows_occ _ _ _ G1 Hl) as O1. pose proof (proj1 O1) as L1.
  assert (Hend : ∀ s2, okS s s2 → wp bumpLocked s2 (λ _, okS s)).
  { intros s2 H2. apply wp_bump. intros s3 O. by eapply okS_outside. }
  apply wp_bind. destruct r as [[]|e].
  - apply wp_bind, wp_mod. apply wp_bind.
    assert (H2 : okS s (updN l (set_n_phase PhaseDone) s1)).
    { split.
      - apply graph_ok_upd; [done|by split|]. intros _. destruct (go_nodeN _ _ (go_base _ _ Hok1) L1) as [N B Pl A].
        split; simpl; [done| |right; by left|intros Hk _; destruct (Ha eq_refl Hk) as (f & Hf & Hin); exists f; split; [done|by left]].
        destruct B as (B1 & B2 & _). split; [done|]. split; [done|]. left. by left.
      - etransitivity; [exact G1|]. apply grows_updN. split; simpl; try done. rewrite Hw. by split. }
    eapply (wp_upd_boring s); [by intros n; repeat split|exact H2|]. intros s3 H3 _.
    apply wp_status. intros s4 O. apply Hend. by eapply okS_outside.
  - apply wp_bind. eapply wp_mono; [apply unfold_ok; [done|split; [done|congruence]]|]. intros [] s2 [Hok2 G2].
    pose proof (grows_dom _ _ _ G2 L1) as L2.
    eapply wp_mono; [by apply maybeEnqueue_ok|]. intros [] s3 [Hok3 G3].
    apply Hend. split; [done|]. etransitivity; [exact G1|]. by etransitivity.
  - eapply wp_mono; [apply failNode_ok; [done|congruence]|]. intros [] s2 [Hok2 G2]. apply Hend. split; [done|]. by etransitivity.
Qed.

(** Where a join may get its interest from. *)
Definition joinable (s : Sched) (kd : kind) (k : Key) (parent : option loc) (extra : option (gset string)) : Prop :=
  match parent with
  | Some p => occ s p ∧ extra = None
  | None => ∃ ids, extra = Some ids ∧ ids ≠ ∅ ∧
      ∀ id, id ∈ ids → ∃ r, g_requests s !! id = Some r ∧ q_target r = None ∧ (kd, k) = (KindBuildValue, q_k r)
  end.

(** A node between its creation and its activation. *)
Lemma join_any kd k parent extra l s :
  joinable s kd k parent extra → graph_okX {[l]} s → g_nodes s !! (kd, k) = Some l →
  (∀ p, parent = Some p → interest s p ≠ ∅) →
  wp (match parent with
      | Some p => link p l;; pn ← node_at p; propagateInterest l (n_interest pn) | None => mret tt end;;
      match extra with Some ids => propagateInterest l ids | None => mret tt end) s
    (λ _ s', okS s s' ∧ same_rest s s').
Proof using Type.
  intros Hj Hok Ht Hint. destruct (occ_table _ _ _ Hok Ht) as [[Hl _] _]. apply wp_bind.
  destruct parent as [p|].
  - destruct Hj as [Hp ->]. eapply wp_mono; [by apply join_ok; [..|apply Hint|]|]. intros [] s' H'. by apply wp_ret.
  - destruct Hj as (ids & -> & Hne & Hr). apply wp_ret.
    eapply wp_mono; [apply (propagateInterest_ok (X := {[l]})); [done|done|]|].
    + intros id (r & Hq & Hn & Hk)%Hr. exists l. split; [|constructor]. exists r. split; [done|]. right.
      rewrite <- Hk. done.
    + intros [] s' ([B I O L] & Hio & Hsub). split; [split; [|by apply int_only_grows]|by apply same_rest_int].
      split; try done. by apply (live_join l s s' ids (go_live _ _ Hok) Hio Hne).
Qed.

Lemma occ_live s p : graph_ok s → occ s p → interest s p ≠ ∅.
Proof using Type. intros [_ _ _ L] [_ Ho]. apply (L _ _ Ho). apply not_elem_of_empty. Qed.

Lemma joinable_grows s s' kd k parent extra :
  grows s s' → joinable s kd k parent extra → joinable s' kd k parent extra.
Proof using Type.
  intros G. destruct parent as [p|]; simpl; [intros [? ?]; split; [by eapply grows_occ|done]|].
  by rewrite (gr_reqs _ _ G).
Qed.

Lemma require_ok kd k def pl parent extra lb s :
  graph_ok s → joinable s kd k parent extra →
  wp (require P kd k def pl parent extra lb) s (λ l s', okS s s' ∧ g_nodes s' !! (kd, k) = Some l).
Proof using HP.
  intros Hok Hj. apply wp_bind. eapply wp_mono; [by apply get_or_create_ok|].
  intros [l ex] s1 (Hok1 & G1 & Ht & Hfr). cbn [fst snd] in *. apply wp_bind, wp_mod.
  set (s2 := updN l (fill_fields def pl lb) s1).
  assert (Hok2 : graph_okX {[l]} s2).
  { apply graph_ok_upd; [done|apply fill_boring|]. intros Hl. apply boring_ok; [apply fill_boring|].
    apply go_nodeN; [apply Hok1|done]. }
  assert (G2 : grows s s2) by (etransitivity; [exact G1|]; apply grows_updN, boring_le, fill_boring).
  assert (Hfr2 : ex = false → fresh_node s2 l).
  { intros He. destruct (Hfr He) as [W N]. destruct (occ_table _ _ _ Hok1 Ht) as [[Hl _] _].
    unfold fresh_node, s2. rewrite getN_updN by done. destruct (fill_boring def pl lb (getN s1 l)) as (_ & -> & -> & _). done. }
  assert (Hint : ∀ p, parent = Some p → interest s2 p ≠ ∅).
  { intros p ->. destruct Hj as [Hp _]. pose proof (occ_live _ _ Hok Hp).
    pose proof (nle_interest _ _ (grows_node _ _ _ G2 (proj1 Hp))). set_solver. }
  assert (Ht2 : g_nodes s2 !! (kd, k) = Some l) by exact Ht. clearbody s2.
  pose proof (join_any _ _ _ _ l s2 (joinable_grows _ _ _ _ _ _ G2 Hj) Hok2 Ht2 Hint) as Hjoin.
  intros a s' Hrun. apply M_bind_inv in Hrun as ([] & s3 & E3 & Hrun). apply M_bind_inv in Hrun as ([] & s4 & E4 & Hrun).
  destruct (Hjoin tt s4) as [[Hok4 G4] SR]. { unfold mbind, M_bind in *. by rewrite E3. }
  revert a s' Hrun. apply wp_bind. assert (Ht4 : g_nodes s4 !! (kd, k) = Some l) by (eapply lookup_weaken; [done|apply G4]).
  destruct ex; [apply wp_ret, wp_ret; split; [split; [done|by etransitivity]|done]|].
  destruct (occ_table _ _ _ Hok4 Ht4) as [O4 _]. destruct (occ_table _ _ _ Hok2 Ht2) as [[L2 _] _].
  eapply wp_mono; [apply activate_ok; [done|done|]|].
  - destruct (SR l L2) as (H1 & H2 & _). destruct (Hfr2 eq_refl). unfold fresh_node. by rewrite H1, H2.
  - intros [] s5 [Hok5 G5]. apply wp_ret. split; [|eapply lookup_weaken; [done|apply G5]].
    split; [done|]. etransitivity; [exact G2|]. by etransitivity.
Qed.
End Recursive.

Lemma run_procs_ok fuel : procs_ok (run_procs fuel).
Proof.
  induction fuel as [|fuel IH]; split; simpl; intros; try apply wp_fuel.
  - eapply wp_mono; [apply require_ok; [done|done|by split]|]. by intros l s' [? _].
  - by apply advance_ok.
Qed.
End SchedRec.
