(* ===== verification/Walk.v ===== *)
(** * Walks over the graph (src/sched/node.go [cycleChainLocked] and the walk of
    [dropInterestLocked]; src/sched/submit.go [assembleLocked])

    The three depth-first walks terminate within their fuel, visit exactly what
    is reachable, and answer what they are asked. *)
From S2P Require Import Prelude GoLib Resources Keys Wire Builddef Store Gate Commit LogBuf SchedState PullRefs Graph Results Submit GraphFacts SchedInv SchedRec.
From Stdlib Require Import Ascii.
Local Open Scope string_scope.
Local Open Scope list_scope.

(** ** The closure walk *)

Section Closure.
Context (next : loc → list loc).

Abbreviation edge := (λ a b, b ∈ next a).

(** What a walk adds to the nodes already seen. *)
Definition walk_post (seen : list loc) (ls : list loc) (seen' : list loc) : Prop :=
  (∃ new, seen' = seen ++ new) ∧ (∀ x, x ∈ ls → x ∈ seen') ∧
  (∀ x, x ∈ seen' → x ∈ seen ∨ ∃ l, l ∈ ls ∧ rtc edge l x) ∧
  (∀ x d, x ∈ seen' → x ∉ seen → d ∈ next x → d ∈ seen') ∧
  (NoDup seen → NoDup seen').

Lemma walk_list_post visit ds :
  (∀ seen l seen', visit seen l = Some seen' → walk_post seen [l] seen') →
  ∀ seen seen', walk_list visit ds seen = Some seen' → walk_post seen ds seen'.
Proof using Type.
  intros Hv. induction ds as [|d ds IH]; intros seen seen'; simpl.
  { intros [= <-]. split_and!; [exists []; by rewrite app_nil_r|by intros x ?%elem_of_nil|by left|done|done]. }
  destruct (visit seen d) as [seen1|] eqn:E; [|done].
  intros ([new2 ->] & H2 & R2 & C2 & N2)%IH. apply Hv in E as ([new1 ->] & H1 & R1 & C1 & N1). split_and!.
  - exists (new1 ++ new2). by rewrite (assoc_L (++)).
  - intros x [->|Hx]%elem_of_cons; [|by apply H2]. apply elem_of_app. left. apply H1. left.
  - intros x Hx. apply R2 in Hx as [Hx|(l & Hl & Hx)]; [|right; exists l; split; [by right|done]].
    apply R1 in Hx as [Hx|(l & ->%list_elem_of_singleton & Hx)]; [by left|right; exists d; split; [left|done]].
  - intros x y Hx Hns Hy. destruct (decide (x ∈ seen ++ new1)) as [Hx1|Hx1]; [|by eapply C2].
    apply elem_of_app. left. by eapply C1.
  - auto.
Qed.

Lemma walk_spec fuel : ∀ seen l seen', walk fuel next seen l = Some seen' → walk_post seen [l] seen'.
Proof using Type.
  induction fuel as [|fuel IH]; intros seen l seen'; simpl; [done|]. case_decide as Hl.
  { intros [= <-]. split_and!; [exists []; by rewrite app_nil_r|by intros x ->%list_elem_of_singleton|by left|done|done]. }
  intros ([new ->] & H2 & R2 & C2 & N2)%(walk_list_post _ _ IH). rewrite <- (assoc_L (++)) in *. split_and!.
  - by exists ([l] ++ new).
  - intros x ->%list_elem_of_singleton. set_solver.
  - intros x Hx. apply R2 in Hx as [[Hx|Hx]%elem_of_app|(d & Hd & Hx)]; [by left|..]; right; exists l; (split; [left|]).
    + apply list_elem_of_singleton in Hx as ->. constructor.
    + by econstructor.
  - intros x y Hx Hns Hy. destruct (decide (x = l)) as [->|Hne]; [by apply H2|]. eapply C2; [done|set_solver|done].
  - intros Hn. apply N2. apply NoDup_app. split_and!; [done|set_solver|apply NoDup_singleton].
Qed.

(** Enough fuel: a walk nests at most once per node it has not seen. *)
Lemma walk_total (U : gset loc) (HU : ∀ x d, x ∈ U → d ∈ next x → d ∈ U) fuel : ∀ seen l,
  l ∈ U → (size (U ∖ list_to_set seen) < fuel)%nat → ∃ seen', walk fuel next seen l = Some seen'.
Proof using Type.
  induction fuel as [|fuel IH]; intros seen l Hl Hf; [lia|]. simpl. case_decide as Hin; [eauto|].
  assert (Hlt : (size (U ∖ list_to_set (seen ++ [l])) < fuel)%nat).
  { assert (U ∖ list_to_set (seen ++ [l]) ⊂ U ∖ list_to_set seen) as Hs%subset_size; [|lia].
    rewrite list_to_set_app_L. split; [set_solver|]. intros Hsub. specialize (Hsub l). set_solver. }
  assert (Hds : ∀ d, d ∈ next l → d ∈ U) by (intros d; by apply HU). clear Hf Hin Hl.
  revert Hds Hlt. generalize (next l) as ds, (seen ++ [l]) as sn. clear seen l.
  induction ds as [|d ds IHds]; intros sn Hds Hlt; simpl; [eauto|].
  destruct (IH sn d) as [sn' E]; [apply Hds; left|done|]. rewrite E. apply IHds; [set_solver|].
  apply walk_spec in E as ([new ->] & _). rewrite list_to_set_app_L.
  assert (Hs : U ∖ (list_to_set sn ∪ list_to_set new) ⊆ U ∖ list_to_set sn) by set_solver.
  apply subseteq_size in Hs. lia.
Qed.

Lemma walk_closure fuel l seen :
  walk fuel next [] l = Some seen → NoDup seen ∧ ∀ x, x ∈ seen ↔ rtc edge l x.
Proof using Type.
  intros (_ & H1 & R & C & N)%walk_spec. split; [apply N, NoDup_nil_2|]. intros x. split.
  - intros Hx. apply R in Hx as [Hx%elem_of_nil|(l' & ->%list_elem_of_singleton & Hx)]; done.
  - intros Hx. assert (Hl : l ∈ seen) by (apply H1; left). clear H1 R N. induction Hx as [|l y x Hy _ IH]; [done|].
    apply IH. eapply C; [done|apply not_elem_of_nil|done].
Qed.
End Closure.

Section Walk.
Context `{SE0 : SchedEnv} {GN : Gone}.

Abbreviation deps s l := (n_deps (getN s l)).

Lemma elem_of_map_order i (X : gset loc) x : x ∈ map_order i X ↔ x ∈ X.
Proof. by rewrite map_order_perm, elem_of_elements. Qed.

Local Arguments walk : simpl never.

(** The closure of a node: total, without repetition, exactly what is
    reachable along dependencies. *)
Lemma dep_closure_spec l s :
  deps_alloc s → l ∈ dom (g_heap s) →
  ∃ seen, dep_closure l s = Some (seen, set_g_ticks (S (g_ticks s)) s) ∧
    NoDup seen ∧ ∀ x, x ∈ seen ↔ reach s l x.
Proof.
  intros Hd Hl. unfold dep_closure, mbind, M_bind. simpl.
  set (s1 := set_g_ticks (S (g_ticks s)) s).
  set (next := λ d, map_order (g_ticks s) (deps s1 d)).
  destruct (walk_total next (dom (g_heap s)) ltac:(intros x d _; unfold next; rewrite elem_of_map_order; apply Hd)
    (S (size (g_heap s))) [] l Hl) as [seen E].
  { rewrite <- size_dom. simpl. rewrite difference_empty_L. lia. }
  rewrite E. exists seen. split; [done|]. apply walk_closure in E as [Hn Hr]. split; [done|].
  intros x. rewrite Hr. unfold reach. split; apply rtc_subrel; intros a b; unfold next; by rewrite elem_of_map_order.
Qed.

(** ** Cycle detection *)

Abbreviation anc s := (rtc (λ a b, b ∈ n_dependents (getN s a))).

(** A negative search: everything newly seen differs from the target and has
    all its dependents among the seen. *)
Definition dfs_none (s : Sched) (target : kind * Key) (seen : gset loc) (ls : list loc) (seen' : gset loc) : Prop :=
  seen ⊆ seen' ∧ (∀ x, x ∈ ls → x ∈ seen') ∧
  (∀ x, x ∈ seen' → x ∉ seen → n_id (getN s x) ≠ target ∧ ∀ p, p ∈ n_dependents (getN s x) → p ∈ seen').

(** A positive search: an ancestor is the target, and the chain leads to it. *)
Definition dfs_some (s : Sched) (target : kind * Key) (ls : list loc) (chain : list string) : Prop :=
  ∃ l t path, l ∈ ls ∧ anc s l t ∧ n_id (getN s t) = target ∧ chain = n_name (getN s t) :: path.

Section Dfs.
Context (s : Sched) (ord : gset loc → list loc) (Hord : ∀ X x, x ∈ ord X ↔ x ∈ X) (target : kind * Key).

Lemma dfs_any_spec visit ds :
  (∀ seen l seen' r, visit seen l = Some (seen', r) →
    match r with None => dfs_none s target seen [l] seen' | Some c => dfs_some s target [l] c end) →
  ∀ seen seen' r, dfs_any visit ds seen = Some (seen', r) →
    match r with None => dfs_none s target seen ds seen' | Some c => dfs_some s target ds c end.
Proof using Type.
  intros Hv. induction ds as [|d ds IH]; intros seen seen' r; simpl.
  { intros [= <- <-]. split_and!; [done|by intros x ?%elem_of_nil|done]. }
  destruct (visit seen d) as [[seen1 [c|]]|] eqn:E; [| |done].
  - intros [= <- <-]. apply Hv in E as (l & t & path & ->%list_elem_of_singleton & ?). exists d, t, path. split; [left|done].
  - intros H%IH. apply Hv in E as (S1 & H1 & C1). destruct r as [c|].
    + destruct H as (l & t & path & Hl & ?). exists l, t, path. split; [by right|done].
    + destruct H as (S2 & H2 & C2). split_and!; [by etransitivity| |].
      * intros x [->|Hx]%elem_of_cons; [|by apply H2]. apply S2, H1. left.
      * intros x Hx Hns. destruct (decide (x ∈ seen1)) as [Hx1|Hx1]; [|by apply C2].
        destruct (C1 x Hx1 Hns) as [? Hp]. split; [done|]. intros p ?. by apply S2, Hp.
Qed.

Lemma cycle_dfs_spec fuel : ∀ seen l seen' r,
  cycle_dfs fuel s ord target seen l = Some (seen', r) →
  match r with None => dfs_none s target seen [l] seen' | Some c => dfs_some s target [l] c end.
Proof using Hord.
  induction fuel as [|fuel IH]; intros seen l seen' r; simpl; [done|]. case_decide as Hl.
  { intros [= <- <-]. split_and!; [done|by intros x ->%list_elem_of_singleton|done]. }
  case_decide as Ht.
  { intros [= <- <-]. exists l, l, []. split_and!; [left|constructor|done|done]. }
  destruct (dfs_any _ _ _) as [[seen1 [c|]]|] eqn:E; [| |done]; intros [= <- <-]; apply (dfs_any_spec _ _ IH) in E.
  - destruct E as (d & t & path & Hd & Ha & Hi & ->). exists l, t, (path ++ [n_name (getN s l)]).
    split_and!; [left| |done|done]. econstructor; [|exact Ha]. by apply Hord.
  - destruct E as (S1 & H1 & C1). split_and!.
    + set_solver.
    + intros x ->%list_elem_of_singleton. set_solver.
    + intros x Hx Hns. destruct (decide (x = l)) as [->|Hne]; [|apply C1; set_solver].
      split; [done|]. intros p Hp. apply H1. by apply Hord.
Qed.

Lemma cycle_dfs_mono fuel seen l seen' r :
  cycle_dfs fuel s ord target seen l = Some (seen', r) → seen ⊆ seen'.
Proof using Hord.
  revert seen l seen' r. induction fuel as [|fuel IH]; intros seen l seen' r; simpl; [done|].
  do 2 (case_decide; [intros [= <- <-]; set_solver|]).
  assert (Hany : ∀ ds sn sn' r', dfs_any (cycle_dfs fuel s ord target) ds sn = Some (sn', r') → sn ⊆ sn').
  { induction ds as [|d ds IHds]; intros sn sn' r'; simpl; [by intros [= <- <-]|].
    destruct (cycle_dfs fuel s ord target sn d) as [[sn1 [c|]]|] eqn:E; [| |done].
    - intros [= <- <-]. by eapply IH.
    - intros Hr%IHds. etransitivity; [by eapply IH|done]. }
  destruct (dfs_any _ _ _) as [[seen1 [c|]]|] eqn:E; [| |done]; intros [= <- <-]; apply Hany in E; set_solver.
Qed.

Lemma cycle_dfs_total (U : gset loc) (HU : ∀ x p, x ∈ U → p ∈ n_dependents (getN s x) → p ∈ U) fuel : ∀ seen l,
  l ∈ U → (size (U ∖ seen) < fuel)%nat → is_Some (cycle_dfs fuel s ord target seen l).
Proof using Hord.
  induction fuel as [|fuel IH]; intros seen l Hl Hf; [lia|]. simpl. case_decide as Hin; [eauto|]. case_decide; [eauto|].
  assert (Hlt : (size (U ∖ ({[l]} ∪ seen)) < fuel)%nat).
  { assert (U ∖ ({[l]} ∪ seen) ⊂ U ∖ seen) as Hs%subset_size; [|lia].
    split; [set_solver|]. intros Hsub. specialize (Hsub l). set_solver. }
  assert (Hds : ∀ d, d ∈ ord (n_dependents (getN s l)) → d ∈ U) by (intros d ?%Hord; by eapply HU).
  enough (Hany : ∀ ds sn, (∀ d, d ∈ ds → d ∈ U) → (size (U ∖ sn) < fuel)%nat → is_Some (dfs_any (cycle_dfs fuel s ord target) ds sn)).
  { destruct (Hany _ _ Hds Hlt) as [[sn [c|]] ->]; eauto. }
  clear -IH Hord. induction ds as [|d ds IHds]; intros sn Hds Hlt; simpl; [eauto|].
  destruct (IH sn d) as [[sn' [c|]] E]; [apply Hds; left|done|rewrite E; eauto|]. rewrite E. apply IHds; [set_solver|].
  apply cycle_dfs_mono in E. assert (Hs : U ∖ sn' ⊆ U ∖ sn) by set_solver. apply subseteq_size in Hs. lia.
Qed.
End Dfs.

(** A negative answer means no ancestor has the target identity. *)
Lemma dfs_none_sound s target l seen t :
  dfs_none s target ∅ [l] seen → anc s l t → n_id (getN s t) ≠ target.
Proof.
  intros (_ & H1 & C) Ht. assert (Hl : l ∈ seen) by (apply H1; left). clear H1.
  induction Ht as [l|l p t Hp _ IH].
  - apply C; [done|apply not_elem_of_empty].
  - apply IH. eapply C; [exact Hl|apply not_elem_of_empty|done].
Qed.

Local Arguments cycle_dfs : simpl never.

(** Cycle detection is exact and total: [cycleChainLocked] always
    answers, with a chain exactly when the required identity is the requiring
    node or one of its ancestors along dependent edges; the chain starts at
    that ancestor. *)
Theorem cycleChain_exact from target s :
  graph_ok s → from ∈ dom (g_heap s) →
  ∃ r s', cycleChainLocked from target s = Some (r, s') ∧
    match r with
    | Some chain => ∃ t path, anc s from t ∧ n_id (getN s t) = target ∧ chain = n_name (getN s t) :: path
    | None => ∀ t, anc s from t → n_id (getN s t) ≠ target
    end.
Proof.
  intros Hok Hl. unfold cycleChainLocked, mbind, M_bind. simpl. set (s1 := set_g_ticks _ s).
  pose proof (λ X x, elem_of_map_order (g_ticks s) X x) as Hord.
  destruct (cycle_dfs_total s1 (map_order (g_ticks s)) Hord target (dom (g_heap s))
    ltac:(intros x p _ Hp; by apply (go_dependents _ (go_base _ _ Hok)) in Hp as [? _])
    (S (size (g_heap s))) ∅ from Hl) as [[seen r] E].
  { rewrite <- size_dom, difference_empty_L. lia. }
  rewrite E. exists r, s1. split; [done|]. apply (cycle_dfs_spec _ _ Hord) in E. destruct r as [c|].
  - destruct E as (l & t & path & ->%list_elem_of_singleton & Ha & Hi & ->). exists t, path. done.
  - intros t Ht. by apply (dfs_none_sound s1 target from seen t).
Qed.
End Walk.
