(* ===== verification/Snapshots.v ===== *)
(** * Snapshots (src/sched/submit.go [assembleLocked])

    The snapshot of a request is total and lists exactly its closure, each node
    with the phase the request sees: failed-upstream exactly when a transitive
    dependency failed. *)
From S2P Require Import Prelude GoLib Resources Keys Wire Builddef Store Gate Commit LogBuf SchedState PullRefs Graph Results Submit GraphFacts SchedInv SchedRec Walk.
From Stdlib Require Import Ascii.
Local Open Scope string_scope.
Local Open Scope list_scope.

Section Snapshots.
Context `{SE0 : SchedEnv}.

Abbreviation deps s l := (n_deps (getN s l)).
Abbreviation failed s l := (n_phase (getN s l) = PhaseFailed).

(** A transitive dependency failed. *)
Definition upstream (s : Sched) (l : loc) : Prop := ∃ y d, reach s l y ∧ d ∈ deps s y ∧ failed s d.

Lemma upstream_step s l : upstream s l ↔ ∃ d, d ∈ deps s l ∧ (failed s d ∨ upstream s d).
Proof.
  split.
  - intros (y & d & Hr & Hd & Hf). inversion Hr as [|? z ? Hz Hr']; subst; [eauto|].
    exists z. split; [done|]. right. by exists y, d.
  - intros (d & Hd & [Hf|(y & d' & Hr & Hd' & Hf)]).
    + exists l, d. split_and!; [constructor|done|done].
    + exists y, d'. split_and!; [by econstructor|done|done].
Qed.

(** Dependencies can be ranked: the graph has no cycle. *)
Definition acyclic (s : Sched) : Prop := ∃ rank : loc → nat, ∀ x d, d ∈ deps s x → (rank d < rank x)%nat.

Section Memo.
Context (s : Sched) (ord : gset loc → list loc) (Hord : ∀ X x, x ∈ ord X ↔ x ∈ X).
Context (rank : loc → nat) (Hrank : ∀ x d, d ∈ deps s x → (rank d < rank x)%nat).

(** The memo is right off the nodes still in progress. *)
Definition memo_ok (St : gset loc) (memo : gmap loc bool) : Prop :=
  ∀ x v, memo !! x = Some v → x ∉ St → (v = true ↔ upstream s x).

Lemma up_any_spec visit St ds :
  (∀ memo l memo' v, l ∈ ds → visit memo l = Some (memo', v) → memo_ok St memo →
    memo_ok St memo' ∧ (v = true ↔ upstream s l)) →
  ∀ memo memo' v, up_any visit (λ d, bool_decide (failed s d)) ds memo = Some (memo', v) → memo_ok St memo →
    memo_ok St memo' ∧ (v = true ↔ ∃ d, d ∈ ds ∧ (failed s d ∨ upstream s d)).
Proof using Type.
  intros Hv. induction ds as [|d ds IH]; intros memo memo' v; simpl.
  { intros [= <- <-] Hm. split; [done|]. split; [done|]. by intros (d & ?%elem_of_nil & _). }
  case_bool_decide as Hd.
  { intros [= <- <-] Hm. split; [done|]. split; [|done]. intros _. exists d. split; [left|by left]. }
  destruct (visit memo d) as [[memo1 []]|] eqn:E; [| |done].
  - intros [= <- <-] Hm. destruct (Hv _ _ _ _ ltac:(left) E Hm) as [Hm1 Hu]. split; [done|]. split; [|done].
    intros _. exists d. split; [left|right; by apply Hu].
  - intros H Hm. destruct (Hv _ _ _ _ ltac:(left) E Hm) as [Hm1 Hu].
    destruct (IH (λ m x m' v Hx, Hv m x m' v (list_elem_of_further _ _ _ Hx)) _ _ _ H Hm1) as [Hm' Hv']. split; [done|].
    rewrite Hv'. split.
    + intros (x & Hx & Hor). exists x. split; [by right|done].
    + intros (x & [->|Hx]%elem_of_cons & Hor); [|by exists x]. destruct Hor as [?|Hor]; [done|]. by apply Hu in Hor.
Qed.

Lemma upstreamFailed_spec fuel : ∀ St memo l memo' v,
  (∀ x, x ∈ St → (rank l < rank x)%nat) → memo_ok St memo →
  upstreamFailed fuel s ord memo l = Some (memo', v) → memo_ok St memo' ∧ (v = true ↔ upstream s l).
Proof using Hord Hrank.
  induction fuel as [|fuel IH]; intros St memo l memo' v HSt Hm; simpl; [done|].
  assert (HlSt : l ∉ St) by (intros Hin%HSt; lia).
  destruct (memo !! l) as [v0|] eqn:El.
  { intros [= <- <-]. split; [done|]. by apply (Hm l v0). }
  destruct (up_any _ _ _ _) as [[memo1 v1]|] eqn:E; [|done]. intros [= <- <-].
  apply (up_any_spec _ ({[l]} ∪ St)) in E as [Hm1 Hv].
  - assert (Hl : v1 = true ↔ upstream s l).
    { rewrite Hv, upstream_step. by setoid_rewrite Hord. }
    split; [|done]. intros x v. rewrite lookup_insert. case_decide as Hx; [intros [= <-]; by subst|].
    intros Hxv Hns. apply (Hm1 x v Hxv). set_solver.
  - intros memo2 d memo3 v3 Hd%Hord H2 Hok. eapply IH; [|done|done].
    intros x [->%elem_of_singleton|Hx%HSt]%elem_of_union; specialize (Hrank _ _ Hd); lia.
  - intros x v0. rewrite lookup_insert. case_decide as Hx; [set_solver|]. intros Hxv Hns. apply (Hm x v0 Hxv). set_solver.
Qed.

Lemma upstream_dom fuel memo l memo' v :
  upstreamFailed fuel s ord memo l = Some (memo', v) → dom memo ⊆ dom memo'.
Proof using Type.
  clear Hrank rank Hord. revert memo l memo' v. induction fuel as [|fuel IH]; intros memo l memo' v; simpl; [done|].
  destruct (memo !! l); [by intros [= <- <-]|].
  assert (Hany : ∀ ds m m' v', up_any (upstreamFailed fuel s ord) (λ d, bool_decide (failed s d)) ds m = Some (m', v') → dom m ⊆ dom m').
  { induction ds as [|d ds IHds]; intros m m' v'; simpl; [by intros [= <- <-]|].
    case_bool_decide; [by intros [= <- <-]|].
    destruct (upstreamFailed fuel s ord m d) as [[m1 []]|] eqn:E; [| |done].
    - intros [= <- <-]. by eapply IH.
    - intros Hr%IHds. etransitivity; [by eapply IH|done]. }
  destruct (up_any _ _ _ _) as [[memo1 v1]|] eqn:E; [|done]. intros [= <- <-]. apply Hany in E.
  rewrite dom_insert in *. set_solver.
Qed.

Lemma upstream_total (U : gset loc) (HU : ∀ x d, d ∈ deps s x → d ∈ U) fuel : ∀ memo l,
  l ∈ U → (size (U ∖ dom memo) < fuel)%nat → is_Some (upstreamFailed fuel s ord memo l).
Proof using Hord.
  clear Hrank rank. induction fuel as [|fuel IH]; intros memo l Hl Hf; [lia|]. simpl. destruct (memo !! l) as [v|] eqn:El; [eauto|].
  assert (Hlt : (size (U ∖ dom (<[l := false]> memo)) < fuel)%nat).
  { assert (U ∖ dom (<[l := false]> memo) ⊂ U ∖ dom memo) as Hs%subset_size; [|lia].
    rewrite dom_insert_L. apply not_elem_of_dom in El. split; [set_solver|]. intros Hsub. specialize (Hsub l). set_solver. }
  assert (Hds : ∀ d, d ∈ ord (deps s l) → d ∈ U) by (intros d ?%Hord; by eapply HU).
  enough (Hany : ∀ ds m, (∀ d, d ∈ ds → d ∈ U) → (size (U ∖ dom m) < fuel)%nat →
    is_Some (up_any (upstreamFailed fuel s ord) (λ d, bool_decide (failed s d)) ds m)).
  { destruct (Hany _ _ Hds Hlt) as [[m v] ->]; eauto. }
  clear -IH. induction ds as [|d ds IHds]; intros m Hds Hlt; simpl; [eauto|]. case_bool_decide; [eauto|].
  destruct (IH m d) as [[m' []] E]; [apply Hds; left|done|rewrite E; eauto|]. rewrite E. apply IHds; [set_solver|].
  apply upstream_dom in E. assert (Hs : U ∖ dom m' ⊆ U ∖ dom m) by set_solver. apply subseteq_size in Hs. lia.
Qed.
End Memo.

(** The phase of a node as a request sees it. *)
Definition seen_phase (s : Sched) (l : loc) (p : phase) : Prop :=
  let q := n_phase (getN s l) in
  (terminal q ∧ p = q) ∨ (¬ terminal q ∧ upstream s l ∧ p = PhaseUpstream) ∨ (¬ terminal q ∧ ¬ upstream s l ∧ p = q).

Lemma terminal_bool p : bool_decide (p = PhaseDone) || bool_decide (p = PhaseFailed) = true ↔ terminal p.
Proof. unfold terminal. rewrite orb_true_iff, !bool_decide_eq_true. done. Qed.

Lemma closure_phases_spec s ord rank (U : gset loc) fuel :
  (∀ X x, x ∈ ord X ↔ x ∈ X) → (∀ x d, d ∈ deps s x → (rank d < rank x)%nat) →
  (∀ x d, d ∈ deps s x → d ∈ U) → (size U < fuel)%nat →
  ∀ ls memo, (∀ l, l ∈ ls → l ∈ U) → memo_ok s ∅ memo →
  ∃ phs, closure_phases fuel s ord memo ls = Some phs ∧ phs.*1 = ls ∧ Forall (λ lp, seen_phase s lp.1 lp.2) phs.
Proof.
  intros Hord Hrank HU Hf. induction ls as [|l ls IH]; intros memo Hls Hm; simpl; [by exists []|].
  destruct (_ || _) eqn:Et.
  - destruct (IH memo) as (phs & -> & <- & Hp); [set_solver|done|]. eexists. split_and!; [done|done|].
    constructor; [|done]. left. by apply terminal_bool in Et.
  - assert (Hnt : ¬ terminal (n_phase (getN s l))) by (rewrite <- terminal_bool; congruence).
    destruct (upstream_total s ord Hord U HU fuel memo l) as [[memo' v] E]; [apply Hls; left| |].
    { assert (size (U ∖ dom memo) <= size U)%nat by (apply subseteq_size; set_solver). lia. }
    rewrite E. simpl. pose proof (upstreamFailed_spec s ord Hord rank Hrank fuel ∅ memo l memo' v ltac:(set_solver) Hm E) as [Hm' Hv].
    destruct (IH memo') as (phs & -> & <- & Hp); [set_solver|done|]. eexists. split_and!; [done|done|].
    constructor; [|done]. simpl. right. destruct v; [left|right]; split_and!; auto; [by apply Hv|]. intros Hu%Hv. done.
Qed.

(** Counting. *)
Lemma counts_spec ps c :
  let c' := foldl count_phase c ps in
  (c_Total c' = c_Total c + Z.of_nat (length ps) ∧
   c_Failed c' = c_Failed c + Z.of_nat (length (List.filter is_failed ps)) ∧
   c_Total c' - c_Done c' - c_Failed c' - c_Running c' - c_Waiting c' =
   c_Total c - c_Done c - c_Failed c - c_Running c - c_Waiting c)%Z.
Proof.
  revert c. induction ps as [|p ps IH]; intros c; simpl; [lia|].
  destruct (IH (count_phase c p)) as (-> & -> & ->). destruct p; simpl; lia.
Qed.

Local Arguments closure_phases : simpl never.

(** The phases are computed whatever the shape of the graph. *)
Lemma closure_phases_total s ord (U : gset loc) fuel :
  (∀ X x, x ∈ ord X ↔ x ∈ X) → (∀ x d, d ∈ deps s x → d ∈ U) → (size U < fuel)%nat →
  ∀ ls memo, (∀ l, l ∈ ls → l ∈ U) → is_Some (closure_phases fuel s ord memo ls).
Proof.
  intros Hord HU Hf. induction ls as [|l ls IH]; intros memo Hls; [by eexists|].
  change (is_Some (closure_phases fuel s ord memo (l :: ls))). unfold closure_phases. fold closure_phases.
  destruct (_ || _); [destruct (IH memo ltac:(set_solver)) as [r ->]; by eexists|].
  destruct (upstream_total s ord Hord U HU fuel memo l) as [[memo' v] ->]; [apply Hls; left| |].
  { assert (size (U ∖ dom memo) <= size U)%nat by (apply subseteq_size; set_solver). lia. }
  simpl. destruct (IH memo' ltac:(set_solver)) as [r ->]. by eexists.
Qed.

Lemma assemble_total r s :
  deps_alloc s → (∀ t, q_target r = Some t → t ∈ dom (g_heap s)) → is_Some (assembleLocked r s).
Proof.
  intros Hal Hdom. unfold assembleLocked, mbind, M_bind.
  assert (Hrest : ∀ cl i s1, g_heap s1 = g_heap s → (∀ l, l ∈ cl → l ∈ dom (g_heap s)) →
    is_Some (closure_phases (S (size (g_heap s1))) s1 (map_order i) ∅ cl)).
  { intros cl i s1 E Hcl. apply (closure_phases_total s1 _ (dom (g_heap s))); [apply elem_of_map_order| |rewrite size_dom, E; lia|done].
    intros x d. unfold getN. rewrite E. apply Hal. }
  destruct (q_target r) as [t|] eqn:Et.
  - destruct (dep_closure_spec t s Hal (Hdom _ eq_refl)) as (seen & -> & _ & Hr).
    simpl. match goal with |- context [closure_phases ?f ?s1 (map_order ?i) ?m ?ls] => destruct (Hrest ls i s1 eq_refl) as [phs E] end.
    + intros l Hl%Hr. destruct (rtc_inv_r _ _ Hl) as [<-|(y & _ & Hy)]; [by apply Hdom|by eapply Hal].
    + simpl in E. rewrite E. by eexists.
  - by eexists.
Qed.

(** [C36] The snapshot of a request is total and exact: it is always produced,
    lists every node of the target's closure once, each with the phase the
    request sees (failed-upstream exactly when a transitive dependency
    failed), its counts add up to the closure, and it is terminal exactly when
    its phase is not running. *)
Theorem snapshot_exact r t s :
  deps_alloc s → acyclic s → q_target r = Some t → t ∈ dom (g_heap s) →
  ∃ snap s' now phs, assembleLocked r s = Some (snap, s') ∧
    NoDup phs.*1 ∧ (∀ x, x ∈ phs.*1 ↔ reach s t x) ∧ Forall (λ lp, seen_phase s lp.1 lp.2) phs ∧
    sn_Nodes snap ≡ₚ (node_snap s' now <$> phs) ∧ (∀ x, getN s' x = getN s x) ∧
    (let c := sn_Counts snap in
     c_Total c = Z.of_nat (length phs) ∧ c_Total c = c_Done c + c_Failed c + c_Running c + c_Waiting c ∧
     c_Failed c = Z.of_nat (length (List.filter is_failed phs.*2)))%Z ∧
    sn_Phase snap = request_phase s r (existsb is_failed phs.*2) ∧
    sn_Terminal snap = negb (String.eqb (sn_Phase snap) "running").
Proof.
  intros Hal [rank Hrank] Ht Hdom. unfold assembleLocked. rewrite Ht.
  destruct (dep_closure_spec t s Hal Hdom) as (seen & E & Hnd & Hr). unfold mbind, M_bind. rewrite E. simpl.
  set (s3 := set_g_ticks _ _).
  destruct (closure_phases_spec s3 (map_order (S (g_ticks s))) rank (dom (g_heap s)) (S (size (g_heap s3)))
    (elem_of_map_order _) Hrank Hal ltac:(simpl; rewrite size_dom; lia) seen ∅) as (phs & Ep & Hl & Hp).
  { intros l Hx%Hr. destruct (rtc_inv_r _ _ Hx) as [<-|(y & _ & Hy)]; [done|by eapply Hal]. }
  { intros x v Hx. by rewrite lookup_empty in Hx. }
  match goal with |- context [closure_phases ?a ?b ?c ?d ?e] =>
    change (closure_phases a b c d e) with (closure_phases (S (size (g_heap s3))) s3 (map_order (S (g_ticks s))) ∅ seen) end.
  rewrite Ep. set (now := clk _). exists (mkSnapshot (q_id r) (request_phase s r (existsb is_failed phs.*2))
    (foldl count_phase (mkCounts 0 0 0 0 0) phs.*2) (ssort (λ a b, str_leb (ns_Node a) (ns_Node b)) (node_snap s3 now <$> phs))
    (negb (String.eqb (request_phase s r (existsb is_failed phs.*2)) "running")) (q_failReason r)), s3, now, phs.
  destruct (counts_spec phs.*2 (mkCounts 0 0 0 0 0)) as (C1 & C2 & C3). simpl in C1, C2, C3. rewrite length_fmap in C1.
  simpl. split_and!; [done|by rewrite Hl|by rewrite Hl|done|by apply ssort_perm|done|lia|lia|lia|done|done].
Qed.
End Snapshots.
