(* ===== verification/Evict.v ===== *)
(** * Dropping interest (src/sched/node.go [dropInterestLocked])

    Cancelling a request removes its interest everywhere, evicts from the table
    exactly the nodes nobody wants any more, and keeps the invariant. *)
From S2P Require Import Prelude GoLib Resources Keys Wire Builddef Store Gate Commit LogBuf SchedState PullRefs Graph Results Submit GraphFacts SchedInv SchedRec Walk.
From Stdlib Require Import Ascii.
Local Open Scope string_scope.
Local Open Scope list_scope.

Section Evict.
Context `{SE0 : SchedEnv} {GN : Gone}.

Abbreviation interest s l := (n_interest (getN s l)).
Abbreviation deps s l := (n_deps (getN s l)).
Abbreviation refs s := (st_refs (g_store s)).

(** Every registered request has its target and is filed under its id. *)
Definition reqs_ok (s : Sched) : Prop :=
  ∀ rid r, g_requests s !! rid = Some r → ∃ t, q_target r = Some t ∧ t ∈ dom (g_heap s) ∧ q_id r = rid.

(** ** Updating many nodes *)

(** [heap_upd h s]: the heap is [h], ticks and everything else as they were. *)
Record heap_only (s s' : Sched) : Prop := {
  ho_rest : s' = set_g_heap (g_heap s') (set_g_ticks (g_ticks s') s);
  ho_dom : dom (g_heap s') = dom (g_heap s) }.

Lemma heap_only_refl s : heap_only s s.
Proof. split; [by destruct s|done]. Qed.

Lemma heap_only_trans s1 s2 s3 : heap_only s1 s2 → heap_only s2 s3 → heap_only s1 s3.
Proof. intros [E1 D1] [E2 D2]. split; [|congruence]. rewrite E2 at 1. by rewrite E1. Qed.

Lemma heap_only_upd s l f : heap_only s (updN l f s).
Proof. split; [by destruct s|apply dom_updN]. Qed.

Lemma heap_only_tick s : heap_only s (set_g_ticks (S (g_ticks s)) s).
Proof. split; [by destruct s|done]. Qed.

Lemma mfor_upd f ds s :
  (∀ n, f (f n) = f n) → (∀ d, d ∈ ds → d ∈ dom (g_heap s)) →
  wp (mfor (λ d, upd d f) ds) s (λ _ s', heap_only s s' ∧
    ∀ x, getN s' x = if decide (x ∈ ds) then f (getN s x) else getN s x).
Proof.
  intros Hf. revert s. induction ds as [|d ds IH]; intros s Hds; simpl.
  { apply wp_ret. split; [apply heap_only_refl|]. done. }
  apply wp_bind, wp_mod. eapply wp_mono; [apply IH; intros x Hx; rewrite dom_updN; apply Hds; by right|].
  intros [] s' [Ho Hx]. split; [eapply heap_only_trans; [apply heap_only_upd|done]|].
  intros x. rewrite Hx. assert (Hd : d ∈ dom (g_heap s)) by (apply Hds; left).
  destruct (decide (x = d)) as [->|Hne].
  - rewrite getN_updN by done. rewrite (decide_True (P := d ∈ d :: ds)) by left. case_decide; [apply Hf|done].
  - rewrite getN_updN_ne by done. destruct (decide (x ∈ ds)), (decide (x ∈ d :: ds)); set_solver.
Qed.

(** ** Eviction of one node *)

(** Between two states of the eviction loop: fields other than dependents are
    kept, dependents and table only shrink, and only unwanted nodes leave. *)
Record evicts (s s' : Sched) : Prop := {
  ev_dom : dom (g_heap s') = dom (g_heap s);
  ev_node : ∀ x, ∃ D, getN s' x = set_n_dependents D (getN s x) ∧ D ⊆ n_dependents (getN s x);
  ev_edge : ∀ x p, p ∈ n_dependents (getN s x) →
    p ∈ n_dependents (getN s' x) ∨ g_nodes s' !! n_id (getN s p) ≠ Some p;
  ev_nodes : g_nodes s' ⊆ g_nodes s;
  ev_kept : ∀ id l, g_nodes s !! id = Some l → g_nodes s' !! id = Some l ∨ interest s l = ∅;
  ev_next : g_next s' = g_next s; ev_timers : g_timers s' = g_timers s; ev_store : g_store s' = g_store s;
  ev_reqs : g_requests s' = g_requests s; ev_closed : g_closed s' = g_closed s }.

Lemma set_dependents_id n : set_n_dependents (n_dependents n) n = n.
Proof. by destruct n. Qed.

Lemma evicts_refl s : evicts s s.
Proof. split; try done; [|by left|by left]. intros x. exists (n_dependents (getN s x)). by rewrite set_dependents_id. Qed.

Lemma evicts_trans s1 s2 s3 : evicts s1 s2 → evicts s2 s3 → evicts s1 s3.
Proof.
  intros [] []. split; try congruence.
  - intros x. destruct (ev_node0 x) as (D & E & HD), (ev_node1 x) as (D' & E' & HD'). exists D'. rewrite E', E in *. simpl in *.
    split; [done|]. set_solver.
  - intros x p [H|H]%ev_edge0.
    + apply ev_edge1 in H as [H|H]; [by left|right]. destruct (ev_node0 p) as (D & E & _). rewrite E in H. done.
    + right. intros H'. apply H. by eapply lookup_weaken.
  - by etransitivity.
  - intros id l [H|H]%ev_kept0; [|by right]. apply ev_kept1 in H as [H|H]; [by left|right].
    destruct (ev_node0 l) as (D & E & _). rewrite E in H. done.
Qed.

(** Removing the table entry of [l] and its edges in the other direction. *)
Lemma evicts_ok X s s' l :
  graph_okX X s → reqs_ok s → evicts s s' → g_nodes s' = delete (n_id (getN s l)) (g_nodes s) →
  g_nodes s !! n_id (getN s l) = Some l →
  (∀ x, n_dependents (getN s' x) = if decide (x ∈ deps s l) then n_dependents (getN s x) ∖ {[l]} else n_dependents (getN s x)) →
  graph_okX X s'.
Proof.
  intros [[B1 B2 B3 B4 B5 B7 B6] Hi Ho Hlv] Hrq [E1 E2 E10 E3 E4 E5 E6 E7 E8 E9] Hn Hocc Hd.
  assert (Hid : ∀ x, n_id (getN s' x) = n_id (getN s x) ∧ deps s' x = deps s x ∧ interest s' x = interest s x).
  { intros x. by destruct (E2 x) as (D & -> & _). }
  assert (Hheap : ∀ x n, g_heap s !! x = Some n → g_heap s' !! x = Some (getN s' x)).
  { intros x n Hx. assert (Hin : x ∈ dom (g_heap s')) by (rewrite E1; by eapply elem_of_dom_2).
    apply elem_of_dom in Hin as [n' Hn']. by rewrite (getN_heap _ _ _ Hn'). }
  split; [split|..].
  - intros x n Hx. unfold served; rewrite E7. assert (Hin : x ∈ dom (g_heap s)) by (rewrite <- E1; by eapply elem_of_dom_2).
    apply elem_of_dom in Hin as [n0 Hn0]. destruct (E2 x) as (D & E & _). rewrite (getN_heap _ _ _ Hx), (getN_heap _ _ _ Hn0) in E.
    subst n. destruct (B1 _ _ Hn0). by split.
  - intros id x Hx. apply (lookup_weaken _ _ _ _ Hx) in E3. apply B2 in E3 as (n & Hn' & Hi').
    eexists. split; [by eapply Hheap|]. destruct (Hid x) as (-> & _). by rewrite (getN_heap _ _ _ Hn').
  - rewrite E1, E5. done.
  - intros x d. rewrite E1. destruct (Hid x) as (_ & -> & _). apply B4.
  - intros x p. rewrite E1. destruct (Hid p) as (_ & -> & _). rewrite Hd. intros Hp. apply B5. case_decide; set_solver.
  - intros x p Hp. destruct (Hid p) as (-> & _). rewrite Hn.
    assert (Hp' : p ∈ n_dependents (getN s x)) by (rewrite Hd in Hp; case_decide; set_solver).
    assert (Hpl : p ≠ l).
    { intros ->. rewrite Hd in Hp. destruct (B5 _ _ Hp') as [_ Hx]. rewrite decide_True in Hp by done. set_solver. }
    apply B7 in Hp'. rewrite lookup_delete_ne; [done|]. congruence.
  - rewrite E6. intros t (n & Hn' & Hi' & Hk)%B6. eexists. split; [by eapply Hheap|].
    destruct (Hid (t_node t)) as (Hx & _). unfold kind_of in *. rewrite Hx, (getN_heap _ _ _ Hn'). done.
  - intros x d Hx. destruct (Hid x) as (_ & -> & ->), (Hid d) as (_ & _ & ->). by apply Hi.
  - intros rid x. destruct (Hid x) as (_ & _ & ->). intros (t & (r & Hr & Ht) & Hx)%Ho. exists t. split.
    + exists r. rewrite E8. split; [done|]. destruct Ht as [Ht|[Hnone _]]; [by left|].
      destruct (Hrq _ _ Hr) as (t' & Ht' & _). congruence.
    + eapply reach_eq; [|exact Hx]. intros y. by destruct (Hid y) as (_ & -> & _).
  - intros id x Hx. destruct (Hid x) as (_ & _ & ->). apply (Hlv id). by eapply lookup_weaken.
Qed.

(** The unlinking half of [evict]. *)
Lemma unlink_ok X l s s1 :
  graph_okX X s → reqs_ok s → g_nodes s !! n_id (getN s l) = Some l → interest s l = ∅ →
  outside s s1 → g_store s1 = g_store s →
  wp (modS (λ s0, set_g_nodes (delete (n_id (getN s l)) (g_nodes s0)) s0);;
    ds ← range_map (deps s l);
    mfor (λ d, upd d (λ x, set_n_dependents (n_dependents x ∖ {[l]}) x)) ds;;
    dropNodeLogLocked (n_name (getN s l));; purgeNodeStatusLocked (n_name (getN s l))) s1
    (λ _ s', graph_okX X s' ∧ evicts s s' ∧ g_nodes s' !! n_id (getN s l) = None).
Proof.
  intros Hok Hrq Hocc Hemp O Hst. apply wp_bind, wp_mod. apply wp_bind, wp_range. apply wp_bind.
  set (s2 := set_g_ticks _ _). set (f := λ x : node, set_n_dependents (n_dependents x ∖ {[l]}) x).
  assert (Hg : ∀ x, getN s2 x = getN s x) by (intros x; apply (outside_getN _ _ _ O)).
  eapply wp_mono; [apply (mfor_upd f)|].
  - intros n. assert (E : n_dependents n ∖ {[l]} ∖ {[l]} = n_dependents n ∖ {[l]}) by set_solver.
    unfold f, set_n_dependents. simpl. by rewrite E.
  - intros d. rewrite elem_of_map_order. change (g_heap s2) with (g_heap s1). rewrite (os_heap _ _ O). apply (go_deps _ (go_base _ _ Hok)).
  - intros [] s3 [[R3 D3] H3]. apply wp_bind, wp_mod, wp_mod.
    set (s4 := set_g_out _ _). assert (Hg4 : ∀ x, getN s4 x = getN s3 x) by done.
    assert (Hdeps : ∀ x, getN s4 x = if decide (x ∈ deps s l) then f (getN s x) else getN s x).
    { intros x. rewrite Hg4, H3, Hg. destruct (decide (x ∈ deps s l)) as [Hx|Hx]; case_decide as Hx'; try done;
        rewrite elem_of_map_order in Hx'; done. }
    assert (Hnodes : g_nodes s4 = delete (n_id (getN s l)) (g_nodes s)).
    { change (g_nodes s4) with (g_nodes s3). rewrite R3. simpl. by rewrite (os_nodes _ _ O). }
    assert (Hev : evicts s s4).
    { split.
      - change (dom (g_heap s4)) with (dom (g_heap s3)). rewrite D3. change (g_heap s2) with (g_heap s1). by rewrite (os_heap _ _ O).
      - intros x. rewrite Hdeps. case_decide.
        + eexists. split; [reflexivity|]. set_solver.
        + exists (n_dependents (getN s x)). by rewrite set_dependents_id.
      - intros x p Hp. rewrite Hdeps, Hnodes. case_decide; [|by left].
        destruct (decide (p = l)) as [->|Hpl]; [right; by rewrite lookup_delete_eq|left]. simpl. set_solver.
      - rewrite Hnodes. apply delete_subseteq.
      - intros id x Hx. rewrite Hnodes.
        destruct (decide (n_id (getN s l) = id)) as [<-|Hne]; [right; congruence|left]. by rewrite lookup_delete_ne.
      - change (g_next s4) with (g_next s3). rewrite R3. apply (os_next _ _ O).
      - change (g_timers s4) with (g_timers s3). rewrite R3. apply (os_timers _ _ O).
      - change (g_store s4) with (g_store s3). by rewrite R3.
      - change (g_requests s4) with (g_requests s3). rewrite R3. apply (os_reqs _ _ O).
      - change (g_closed s4) with (g_closed s3). rewrite R3. apply (os_closed _ _ O). }
    split_and!; [|done|by rewrite Hnodes, lookup_delete_eq]. eapply evicts_ok; [done|done|done|done|done|].
    intros x. rewrite Hdeps. by case_decide.
Qed.

Lemma evict_ok X l s :
  graph_okX X s → reqs_ok s → l ∈ dom (g_heap s) →
  wp (evict l) s (λ _ s', graph_okX X s' ∧ evicts s s' ∧ (interest s l = ∅ → g_nodes s' !! n_id (getN s l) ≠ Some l)).
Proof.
  intros Hok Hrq Hl. unfold evict. apply wp_bind, wp_get.
  wp_step. { apply wp_ret. split_and!; [done|apply evicts_refl|]. apply negb_true_iff, bool_decide_eq_false in Heqb. done. }
  wp_step. { apply wp_ret. split_and!; [done|apply evicts_refl|]. apply negb_true_iff, bool_decide_eq_false in Heqb0. done. }
  apply negb_false_iff, bool_decide_eq_true in Heqb, Heqb0. apply wp_bind.
  assert (Hpost : ∀ s', graph_okX X s' ∧ evicts s s' ∧ g_nodes s' !! n_id (getN s l) = None →
    graph_okX X s' ∧ evicts s s' ∧ (interest s l = ∅ → g_nodes s' !! n_id (getN s l) ≠ Some l)).
  { intros s' (? & ? & ->). done. }
  pose proof (λ s1, unlink_ok X l s s1 Hok Hrq Heqb0 Heqb) as Hrest. wp_step.
  - apply wp_mod. eapply wp_mono; [apply Hrest; [apply outside_emit|done]|]. intros [] s'. apply Hpost.
  - apply wp_ret. eapply wp_mono; [apply Hrest; [apply outside_refl|done]|]. intros [] s'. apply Hpost.
Qed.

(** ** Dropping a request's interest *)

Definition minus (reqID : string) (n : node) : node := set_n_interest (n_interest n ∖ {[reqID]}) n.

(** What dropping [reqID] does to the graph. *)
Record dropped (reqID : string) (s s' : Sched) : Prop := {
  dr_dom : dom (g_heap s') = dom (g_heap s);
  dr_node : ∀ x, ∃ D, getN s' x = set_n_dependents D (minus reqID (getN s x)) ∧ D ⊆ n_dependents (getN s x);
  dr_edge : ∀ x p, p ∈ n_dependents (getN s' x) ↔ p ∈ n_dependents (getN s x) ∧ interest s p ∖ {[reqID]} ≠ ∅;
  dr_table : ∀ id l, g_nodes s' !! id = Some l ↔ g_nodes s !! id = Some l ∧ interest s l ∖ {[reqID]} ≠ ∅;
  dr_store : g_store s' = g_store s; dr_reqs : g_requests s' = g_requests s; dr_closed : g_closed s' = g_closed s;
  dr_timers : g_timers s' = g_timers s; dr_next : g_next s' = g_next s }.

(** The state after the interest of [reqID] is gone, before evictions. *)
Lemma minus_ok reqID s s1 (X : gset loc) :
  graph_ok s → reqs_ok s → heap_only s s1 → (∀ x, getN s1 x = minus reqID (getN s x)) →
  (∀ x, reqID ∈ interest s x → x ∈ X) → graph_okX X s1.
Proof.
  intros [[B1 B2 B3 B4 B5 B7 B6] Hi Ho Hlv] Hrq [R D] G HX.
  assert (Hheap : ∀ x n, g_heap s !! x = Some n → g_heap s1 !! x = Some (minus reqID n)).
  { intros x n Hx. assert (Hin : x ∈ dom (g_heap s1)) by (rewrite D; by eapply elem_of_dom_2).
    apply elem_of_dom in Hin as [n' Hn']. rewrite Hn'. f_equal. rewrite <- (getN_heap _ _ _ Hn'), <- (getN_heap _ _ _ Hx). apply G. }
  assert (En : g_nodes s1 = g_nodes s) by (by rewrite R). assert (Eq : g_requests s1 = g_requests s) by (by rewrite R).
  split; [split|..].
  - intros x n Hx. assert (Hin : x ∈ dom (g_heap s)) by (rewrite <- D; by eapply elem_of_dom_2).
    apply elem_of_dom in Hin as [n0 Hn0]. rewrite (Hheap _ _ Hn0) in Hx. injection Hx as <-.
    unfold served. assert (refs s1 = refs s) as -> by (by rewrite R). destruct (B1 _ _ Hn0). by split.
  - rewrite En. intros id x (n & Hn & Hid)%B2. exists (minus reqID n). split; [by apply Hheap|done].
  - rewrite D. assert (g_next s1 = g_next s) as -> by (by rewrite R). done.
  - intros x d. rewrite D, G. apply B4.
  - intros x p. rewrite D, !G. apply B5.
  - intros x p. rewrite En, !G. apply B7.
  - assert (g_timers s1 = g_timers s) as -> by (by rewrite R).
    intros t (n & Hn & Hid & Hk)%B6. exists (minus reqID n). split; [by apply Hheap|done].
  - intros x d Hx. rewrite !G. simpl. intros Hd. specialize (Hi x d ltac:(set_solver) Hd). set_solver.
  - intros rid x. rewrite G. simpl. intros [(t & (r & Hr & Ht) & Hx)%Ho _]%elem_of_difference. exists t. split.
    + exists r. by rewrite Eq, En.
    + eapply reach_eq; [|exact Hx]. intros y. by rewrite G.
  - intros id x. rewrite En. intros Hx HxX. rewrite G. simpl. specialize (Hlv id x Hx ltac:(set_solver)).
    assert (reqID ∉ interest s x) by (intros ?%HX; done). set_solver.
Qed.

(** The eviction loop. *)
Lemma evict_loop ls : ∀ X s,
  graph_okX X s → reqs_ok s → (∀ l, l ∈ ls → l ∈ dom (g_heap s)) →
  wp (mfor evict ls) s (λ _ s', graph_okX X s' ∧ evicts s s' ∧
    ∀ l, l ∈ ls → interest s l = ∅ → g_nodes s' !! n_id (getN s l) ≠ Some l).
Proof.
  induction ls as [|l ls IH]; intros X s Hok Hrq Hls; simpl.
  { apply wp_ret. split_and!; [done|apply evicts_refl|by intros x ?%elem_of_nil]. }
  apply wp_bind. eapply wp_mono; [apply evict_ok; [done|done|apply Hls; left]|]. intros [] s1 (Hok1 & E1 & H1).
  assert (Hrq1 : reqs_ok s1) by (intros rid r; rewrite (ev_reqs _ _ E1), (ev_dom _ _ E1); apply Hrq).
  eapply wp_mono; [apply (IH X s1); [done|done|]|].
  { intros x Hx. rewrite (ev_dom _ _ E1). apply Hls. by right. }
  intros [] s2 (Hok2 & E2 & H2). split_and!; [done|by eapply evicts_trans|].
  intros x [->|Hx]%elem_of_cons Hemp.
  - intros Hs2. apply H1; [done|]. by eapply lookup_weaken; [|apply E2].
  - destruct (ev_node _ _ E1 x) as (D & Ex & _). specialize (H2 x Hx). rewrite Ex in H2. by apply H2.
Qed.

Lemma live_shrink s X : (∀ l, l ∈ X → interest s l = ∅ → ∀ id, g_nodes s !! id ≠ Some l) → graph_okX X s → graph_ok s.
Proof.
  intros H [B I O L]. split; try done. intros id l Hl _ Hemp. destruct (decide (l ∈ X)) as [HX|HX].
  - by apply (H l HX Hemp id).
  - by apply (L id l Hl HX).
Qed.

(** The marking half: the closure is found and loses the interest. *)
Lemma drop_marks reqID r t s {A} (k : list loc → M Sched A) Q :
  graph_ok s → reqs_ok s → g_requests s !! reqID = Some r → q_target r = Some t →
  (∀ seen s1, heap_only s s1 → (∀ x, getN s1 x = minus reqID (getN s x)) →
    (∀ l, l ∈ seen → l ∈ dom (g_heap s)) → (∀ x, reqID ∈ interest s x → x ∈ seen) → wp (k seen) s1 Q) →
  wp (seen ← dep_closure t;
      mfor (λ l, upd l (λ x, set_n_interest (n_interest x ∖ {[reqID]}) x)) seen;; k seen) s Q.
Proof.
  intros Hok Hrq Hr Ht Hk. destruct (Hrq _ _ Hr) as (t' & Ht' & Hdom & _). replace t' with t in * by congruence. clear t' Ht'.
  assert (Hreach : ∀ x, reqID ∈ interest s x → reach s t x).
  { intros x (t' & (r' & Hr' & Hor) & Hx)%(go_owned _ _ Hok). destruct Hor as [?|[? _]]; congruence. }
  apply wp_bind. destruct (dep_closure_spec t s (go_deps _ (go_base _ _ Hok)) Hdom) as (seen & E & _ & Hseen).
  intros a s0 E'. rewrite E in E'. injection E' as <- <-. set (s0 := set_g_ticks _ s).
  assert (Hin : ∀ l, l ∈ seen → l ∈ dom (g_heap s)).
  { intros l Hl%Hseen. destruct (rtc_inv_r _ _ Hl) as [<-|(y & _ & Hy)]; [done|by apply (go_deps _ (go_base _ _ Hok) y)]. }
  apply wp_bind. eapply wp_mono; [apply (mfor_upd (minus reqID)); [|done]|].
  { intros n. assert (En : n_interest n ∖ {[reqID]} ∖ {[reqID]} = n_interest n ∖ {[reqID]}) by set_solver.
    unfold minus, set_n_interest. simpl. by rewrite En. }
  intros [] s1 [Ho1 G1]. apply Hk; [eapply heap_only_trans; [apply heap_only_tick|exact Ho1]| |done|].
  - intros x. rewrite G1. change (getN s0 x) with (getN s x). case_decide as Hx; [done|].
    assert (Hno : interest s x ∖ {[reqID]} = interest s x) by (rewrite Hseen in Hx; specialize (Hreach x); set_solver).
    unfold minus. rewrite Hno. symmetry. apply set_interest_id.
  - intros x Hx. by apply Hseen, Hreach.
Qed.

(** Marking, then evictions, drop the request. *)
Lemma drop_table reqID s s1 s3 :
  heap_only s s1 → (∀ x, getN s1 x = minus reqID (getN s x)) → evicts s1 s3 → graph_ok s3 →
  ∀ id l, g_nodes s3 !! id = Some l ↔ g_nodes s !! id = Some l ∧ interest s l ∖ {[reqID]} ≠ ∅.
Proof.
  intros Ho G E3 Hok3 id l. assert (En : g_nodes s1 = g_nodes s) by (by rewrite (ho_rest _ _ Ho)). split.
  - intros Hl. split; [rewrite <- En; eapply lookup_weaken; [exact Hl|apply E3]|].
    pose proof (go_live _ _ Hok3 id l Hl ltac:(set_solver)) as Hne. destruct (ev_node _ _ E3 l) as (D & Ex & _).
    rewrite Ex, G in Hne. done.
  - intros [Hl Hne]. rewrite <- En in Hl. apply (ev_kept _ _ E3) in Hl as [Hl|Hl]; [done|]. rewrite G in Hl. done.
Qed.

Lemma drop_edges reqID s s1 s3 :
  graph_ok s → heap_only s s1 → (∀ x, getN s1 x = minus reqID (getN s x)) → evicts s1 s3 → graph_ok s3 →
  ∀ x p, p ∈ n_dependents (getN s3 x) ↔ p ∈ n_dependents (getN s x) ∧ interest s p ∖ {[reqID]} ≠ ∅.
Proof.
  intros Hok Ho G E3 Hok3 x p. pose proof (drop_table reqID s s1 s3 Ho G E3 Hok3) as Ht.
  assert (Hid : n_id (getN s3 p) = n_id (getN s p)) by (destruct (ev_node _ _ E3 p) as (D & -> & _); by rewrite G).
  assert (Hsame : n_dependents (getN s1 x) = n_dependents (getN s x)) by (by rewrite G).
  assert (Hid1 : n_id (getN s1 p) = n_id (getN s p)) by (by rewrite G). split.
  - intros Hp. split; [destruct (ev_node _ _ E3 x) as (D & E & HD); rewrite E in Hp; simpl in Hp; set_solver|].
    pose proof (go_occ _ (go_base _ _ Hok3) x p Hp) as Hocc. by apply Ht in Hocc as [_ ?].
  - intros [Hp Hne]. pose proof (go_occ _ (go_base _ _ Hok) x p Hp) as Hocc. rewrite <- Hsame in Hp.
    apply (ev_edge _ _ E3) in Hp as [Hp|Hp]; [done|]. destruct Hp. rewrite Hid1. by apply Ht.
Qed.

Lemma drop_result reqID s s1 s3 s4 :
  graph_ok s → heap_only s s1 → (∀ x, getN s1 x = minus reqID (getN s x)) →
  evicts s1 s3 → graph_ok s3 → outside s3 s4 → g_store s4 = g_store s3 → dropped reqID s s4.
Proof.
  intros Hok Ho G E3 Hok3 O4 Hst. assert (G4 : ∀ x, getN s4 x = getN s3 x) by (intros x; by apply outside_getN). split.
  - rewrite (os_heap _ _ O4), (ev_dom _ _ E3). apply Ho.
  - intros x. rewrite G4. destruct (ev_node _ _ E3 x) as (D & Ex & HD). exists D. rewrite Ex, G in *. done.
  - intros x p. rewrite G4. by eapply drop_edges.
  - intros id l. rewrite (os_nodes _ _ O4). by eapply drop_table.
  - rewrite Hst, (ev_store _ _ E3). by rewrite (ho_rest _ _ Ho).
  - rewrite (os_reqs _ _ O4), (ev_reqs _ _ E3). by rewrite (ho_rest _ _ Ho).
  - rewrite (os_closed _ _ O4), (ev_closed _ _ E3). by rewrite (ho_rest _ _ Ho).
  - rewrite (os_timers _ _ O4), (ev_timers _ _ E3). by rewrite (ho_rest _ _ Ho).
  - rewrite (os_next _ _ O4), (ev_next _ _ E3). by rewrite (ho_rest _ _ Ho).
Qed.

Lemma dropInterest_ok reqID r t s :
  graph_ok s → reqs_ok s → g_requests s !! reqID = Some r → q_target r = Some t →
  wp (dropInterestLocked reqID (Some t)) s (λ _ s', graph_ok s' ∧ dropped reqID s s').
Proof.
  intros Hok Hrq Hr Ht. unfold dropInterestLocked. eapply drop_marks; [done..|]. intros seen s1 Ho G Hin Hmem.
  pose proof (minus_ok reqID s s1 (list_to_set seen) Hok Hrq Ho G ltac:(intros x ?; rewrite elem_of_list_to_set; by apply Hmem)) as Hok1.
  assert (Hrq1 : reqs_ok s1) by (intros rid q; rewrite (ho_dom _ _ Ho), (ho_rest _ _ Ho); apply Hrq).
  apply wp_bind, wp_range. set (s2 := set_g_ticks _ s1).
  assert (O2 : outside s1 s2) by apply outside_tick. apply wp_bind.
  eapply wp_mono; [apply (evict_loop _ (list_to_set seen) s2); [by eapply graph_ok_outside|done|]|].
  { intros l Hl. rewrite elem_of_map_order, elem_of_list_to_set in Hl. change (dom (g_heap s2)) with (dom (g_heap s1)).
    rewrite (ho_dom _ _ Ho). by apply Hin. }
  intros [] s3 (Hok3 & E3 & H3).
  assert (Hgone : ∀ l, l ∈ (list_to_set seen : gset loc) → interest s3 l = ∅ → ∀ id, g_nodes s3 !! id ≠ Some l).
  { intros l Hl Hemp id Hid. destruct (occ_table _ _ _ Hok3 Hid) as [_ Hid']. destruct (ev_node _ _ E3 l) as (D & El & _).
    rewrite El in Hemp, Hid'. simpl in Hemp, Hid'. apply (H3 l); [by rewrite elem_of_map_order|done|]. by rewrite Hid'. }
  pose proof (live_shrink _ _ Hgone Hok3) as Hok3'. apply wp_mod.
  match goal with |- graph_ok ?s4 ∧ _ => assert (O4 : outside s3 s4) by (split; try done; exists []; by rewrite app_nil_r) end.
  split; [by eapply graph_ok_outside|]. eapply (drop_result reqID s s2 s3); [done|eapply heap_only_trans; [exact Ho|apply heap_only_tick]|exact G|done..].
Qed.

(** Totality: dropping never runs out of fuel. *)
Lemma mfor_total {A} (f : A → M Sched unit) ls : (∀ x s, is_Some (f x s)) → ∀ s, is_Some (mfor f ls s).
Proof.
  intros Hf. induction ls as [|x ls IH]; intros s; simpl; [by eexists|].
  unfold mbind, M_bind. destruct (Hf x s) as [[[] s'] ->]. apply IH.
Qed.

Lemma evict_total l s : is_Some (evict l s).
Proof.
  unfold evict, mbind, M_bind. simpl. do 2 (case_match; [by eexists|]).
  match goal with |- context [(if ?b then _ else _) ?s0] => destruct b end; simpl;
    match goal with |- context [mfor ?f ?ds ?s0] => destruct (mfor_total f ds ltac:(by eexists) s0) as [[[] s'] ->] end; by eexists.
Qed.

Lemma dropInterest_total reqID t s :
  deps_alloc s → t ∈ dom (g_heap s) → is_Some (dropInterestLocked reqID (Some t) s).
Proof.
  intros Hal Ht. unfold dropInterestLocked, mbind, M_bind. destruct (dep_closure_spec t s Hal Ht) as (seen & -> & _).
  match goal with |- context [mfor ?f ?ds ?s0] => destruct (mfor_total f ds ltac:(by eexists) s0) as [[[] s1] ->] end.
  unfold range_map, fresh_tick, mbind, M_bind. simpl.
  match goal with |- context [mfor ?f ?ds ?s0] => destruct (mfor_total f ds evict_total s0) as [[[] s2] ->] end. by eexists.
Qed.
End Evict.
