(* ===== verification/SchedSteps.v ===== *)
(** * The scheduler as a transition system

    Every handler of the scheduler, run under its lock, is one step; handling a
    result is two critical sections with the commit between them, so other
    steps may interleave with a pending commit. Every reachable state satisfies
    the invariant. *)
From S2P Require Import Prelude GoLib Resources Keys Wire Builddef Store Gate Commit LogBuf SchedState PullRefs Graph Results Submit GraphFacts SchedInv SchedRec Walk Evict.
From Stdlib Require Import Ascii.
Local Open Scope string_scope.
Local Open Scope list_scope.

Section SchedSteps.
Context `{SE0 : SchedEnv} {GN : Gone}.

Abbreviation interest s l := (n_interest (getN s l)).
Abbreviation deps s l := (n_deps (getN s l)).
Abbreviation refs s := (st_refs (g_store s)).

Definition sched_ok (s : Sched) : Prop := graph_ok s ∧ reqs_ok s.

(** A commit in flight: its node is publishing, and was placed. *)
Definition pend_ok (s : Sched) (l : loc) : Prop :=
  l ∈ dom (g_heap s) ∧ n_phase (getN s l) = PhasePublishing ∧ kind_of (getN s l) ≠ KindBuildValue.

(** ** Changes of the surroundings *)

Lemma outside_sched s s' : outside s s' → sched_ok s → sched_ok s'.
Proof.
  intros O [Hok Hrq]. split; [by eapply graph_ok_outside|]. intros rid r. rewrite (os_reqs _ _ O), (os_heap _ _ O). apply Hrq.
Qed.

Lemma grows_sched s s' : okS s s' → reqs_ok s → sched_ok s'.
Proof.
  intros [Hok Hg] Hrq. split; [done|]. intros rid r. rewrite (gr_reqs _ _ Hg). intros (t & Ht & Hd & Hid)%Hrq.
  exists t. split_and!; [done|by eapply grows_dom|done].
Qed.

(** Replacing the requests. *)
Lemma graph_ok_reqs X m s :
  graph_okX X s → (∀ rid l t, rid ∈ interest s l → root s rid t → root (set_g_requests m s) rid t) →
  graph_okX X (set_g_requests m s).
Proof.
  intros [[] Hi Ho Hl] Hroot. split; [by split|done| |done].
  intros rid l Hin. destruct (Ho rid l Hin) as (t & Ht & Hr). exists t. split; [by eapply Hroot|done].
Qed.

(** Replacing the store: the F-keyed outputs must survive. *)
Lemma graph_ok_store X st s :
  (∀ f, build_output f ∈ dom (refs s) → build_output f ∈ dom (st_refs st)) →
  graph_okX X s → graph_okX X (set_g_store st s).
Proof.
  intros Hst [[B1 B2 B3 B4 B5 B6 B7] Hi Ho Hl]. split; [split; try done|done..].
  intros l n Hn. destruct (B1 l n Hn) as [N B P A]. split; try done. intros Hk Hd. destruct (A Hk Hd) as (f & Hf & Hin).
  exists f. split; [done|]. destruct Hin as [Hin|Hin]; [left; by apply Hst|by right].
Qed.

Lemma DeleteRef_keeps ref st name :
  name ≠ ref → name ∈ dom (st_refs st) → name ∈ dom (st_refs (DeleteRef ref st).1).
Proof. intros Hne Hin. unfold DeleteRef. repeat case_match; simpl; try done. rewrite dom_delete_L. set_solver. Qed.

Lemma scratch_not_output p ref f : HasPrefix ref p = true → HasPrefix (build_output f) p = false → build_output f ≠ ref.
Proof. congruence. Qed.

Lemma deleteScratch_ok ref s :
  sched_ok s → wp (deleteScratch ref) s (λ _ s', sched_ok s' ∧ (∀ x, getN s' x = getN s x) ∧ g_heap s' = g_heap s).
Proof.
  intros [Hok Hrq]. unfold deleteScratch. wp_step; [by apply wp_ret|]. wp_step; [by apply wp_ret|]. apply wp_mod.
  apply negb_false_iff in Heqb0. split; [|done]. split; [|done]. apply graph_ok_store; [|done]. intros f. apply DeleteRef_keeps.
  by eapply scratch_not_output.
Qed.

(** ** Snapshots and requests *)

Lemma dep_closure_outside t s (Q : list loc → Sched → Prop) :
  (∀ a s', outside s s' → g_store s' = g_store s → Q a s') → wp (dep_closure t) s Q.
Proof.
  intros HQ. unfold dep_closure. apply wp_bind, wp_tick. apply wp_bind, wp_get. wp_step; [|apply wp_fuel].
  apply wp_ret, HQ; [apply outside_tick|done].
Qed.

Lemma assemble_outside r s (Q : Snapshot → Sched → Prop) :
  (∀ a s', outside s s' → g_store s' = g_store s → Q a s') → wp (assembleLocked r) s Q.
Proof.
  intros HQ. unfold assembleLocked. apply wp_bind.
  assert (Hrest : ∀ cl s1, outside s s1 → g_store s1 = g_store s → wp (i ← fresh_tick; now ← time_Now; s0 ← getS;
    match closure_phases (S (size (g_heap s0))) s0 (map_order i) ∅ cl with
    | None => out_of_fuel
    | Some phs =>
        let counts := foldl count_phase (mkCounts 0 0 0 0 0) (snd <$> phs) in
        let anyFailed := existsb is_failed (snd <$> phs) in
        let nodes := ssort (λ a b, str_leb (ns_Node a) (ns_Node b)) (node_snap s0 now <$> phs) in
        let phase := request_phase s0 r anyFailed in
        mret (mkSnapshot (q_id r) phase counts nodes (negb (String.eqb phase "running")) (q_failReason r))
    end) s1 Q).
  { intros cl s1 O Hst. apply wp_bind, wp_tick. apply wp_bind, wp_now. apply wp_bind, wp_get. wp_step; [|apply wp_fuel].
    apply wp_ret, HQ; [|done]. eapply outside_trans; [exact O|]. eapply outside_trans; apply outside_tick. }
  wp_step; [|apply wp_ret; apply Hrest; [apply outside_refl|done]].
  apply dep_closure_outside. intros cl s1 O Hst. by apply Hrest.
Qed.

(** Updating a request's flags keeps its root. *)
Definition flags_only (f : request → request) : Prop := ∀ r, q_target (f r) = q_target r ∧ q_k (f r) = q_k r ∧ q_id (f r) = q_id r.

Lemma upd_req_ok id f s (Q : unit → Sched → Prop) :
  flags_only f → sched_ok s →
  (∀ s', sched_ok s' → s' = set_g_requests (alter f id (g_requests s)) s → Q tt s') → wp (upd_req id f) s Q.
Proof.
  intros Hf [Hok Hrq] HQ. apply wp_mod, HQ; [|done]. split.
  - apply graph_ok_reqs; [done|]. intros rid l t _ (r & Hr & Ht). destruct (decide (id = rid)) as [<-|Hne].
    + exists (f r). simpl. rewrite lookup_alter_eq, Hr. split; [done|]. destruct (Hf r) as (-> & -> & _). done.
    + exists r. simpl. by rewrite lookup_alter_ne.
  - intros rid r. simpl. rewrite lookup_alter. case_decide as Hd; [|apply Hrq]. subst.
    destruct (g_requests s !! rid) as [r0|] eqn:E; [|done]. intros [= <-]. destruct (Hrq _ _ E) as (t & Ht & Hd & Hid).
    exists t. destruct (Hf r0) as (-> & _ & ->). done.
Qed.

Lemma drop_sched reqID r s :
  sched_ok s → g_requests s !! reqID = Some r →
  wp (dropInterestLocked reqID (q_target r)) s (λ _ s', sched_ok s' ∧ dropped reqID s s').
Proof.
  intros [Hok Hrq] Hr. destruct (Hrq _ _ Hr) as (t & Ht & Hd & _). rewrite Ht.
  eapply wp_mono; [by eapply dropInterest_ok|]. intros [] s' [Hok' Hdr]. split; [|done]. split; [done|].
  intros rid q. rewrite (dr_reqs _ _ _ Hdr), (dr_dom _ _ _ Hdr). apply Hrq.
Qed.

Lemma dropped_gone reqID s s' l : dropped reqID s s' → reqID ∉ interest s' l.
Proof. intros H. destruct (dr_node _ _ _ H l) as (D & -> & _). simpl. set_solver. Qed.

(** A request that holds no interest can be forgotten. *)
Lemma forget_ok id s :
  sched_ok s → (∀ l, id ∉ interest s l) → sched_ok (set_g_requests (delete id (g_requests s)) s).
Proof.
  intros [Hok Hrq] Hno. split.
  - apply graph_ok_reqs; [done|]. intros rid l t Hin (r & Hr & Ht). exists r. simpl. split; [|done].
    rewrite lookup_delete_ne; [done|]. intros <-. by apply (Hno l).
  - intros rid r. simpl. intros [_ Hr]%lookup_delete_Some. by apply (Hrq rid r).
Qed.

(** ** Handlers *)

(** What is never undone: objects stay allocated under their identity, the
    generation of the last handled result never goes back, and, off the nodes
    [X], nor does the count of consecutive retryable results. *)
Definition histX (X : gset loc) (s s' : Sched) : Prop := ∀ x, x ∈ dom (g_heap s) →
  x ∈ dom (g_heap s') ∧ n_id (getN s' x) = n_id (getN s x) ∧
  (n_lastResultGen (getN s x) <= n_lastResultGen (getN s' x))%Z ∧
  (x ∉ X → n_consecRetry (getN s x) <= n_consecRetry (getN s' x))%Z.

Definition hist : Sched → Sched → Prop := histX ∅.

Lemma hist_any X s s' : hist s s' → histX X s s'.
Proof. intros H x Hx. destruct (H x Hx) as (D & I & L & R). split_and!; [done..|]. intros _. apply R. set_solver. Qed.

Lemma hist_refl {X} s : histX X s s.
Proof. intros x Hx. split_and!; [done|done|lia|lia]. Qed.

Lemma hist_trans {X} s1 s2 s3 : histX X s1 s2 → histX X s2 s3 → histX X s1 s3.
Proof.
  intros H1 H2 x Hx. destruct (H1 x Hx) as (D1 & I1 & L1 & R1), (H2 x D1) as (D2 & I2 & L2 & R2).
  split_and!; [done|congruence|lia|]. intros HX. specialize (R1 HX). specialize (R2 HX). lia.
Qed.

Lemma hist_heap s s' : g_heap s' = g_heap s → hist s s'.
Proof. intros E x Hx. unfold getN. rewrite E. split_and!; [done|done|lia|lia]. Qed.

Lemma hist_grows s s' : grows s s' → hist s s'.
Proof.
  intros H x Hx. pose proof (grows_node _ _ _ H Hx) as L.
  split_and!; [by eapply grows_dom|apply (nle_id _ _ L)|rewrite (nle_last _ _ L); lia|rewrite (nle_retry _ _ L); lia].
Qed.

Lemma hist_upd {X} l f s :
  (n_id (f (getN s l)) = n_id (getN s l) ∧ n_lastResultGen (getN s l) <= n_lastResultGen (f (getN s l)) ∧
   (l ∉ X → n_consecRetry (getN s l) <= n_consecRetry (f (getN s l))))%Z →
  histX X s (updN l f s).
Proof.
  intros Hf x Hx. rewrite dom_updN. split; [done|]. destruct (decide (x = l)) as [->|Hne].
  - rewrite getN_updN by done. done.
  - rewrite getN_updN_ne by done. split_and!; [done|lia|lia].
Qed.

(** A handler keeps the invariant and leaves commits in flight alone. *)
Definition keep (s s' : Sched) : Prop := sched_ok s' ∧ (∀ l, pend_ok s l → pend_ok s' l) ∧ hist s s'.

Lemma keep_refl s : sched_ok s → keep s s.
Proof. intros H. split_and!; [done|done|apply hist_refl]. Qed.

Lemma keep_trans s1 s2 s3 : keep s1 s2 → keep s2 s3 → keep s1 s3.
Proof. intros (_ & H1 & G1) (H2 & H3 & G3). split_and!; [done|auto|by eapply hist_trans]. Qed.

Lemma pend_heap s s' : g_heap s' = g_heap s → ∀ l, pend_ok s l → pend_ok s' l.
Proof. intros H l. unfold pend_ok, getN. by rewrite H. Qed.

Lemma keep_heap s s' : sched_ok s' → g_heap s' = g_heap s → keep s s'.
Proof. intros H E. split_and!; [done|by apply pend_heap|by apply hist_heap]. Qed.

Lemma keep_outside s s' : outside s s' → sched_ok s → keep s s'.
Proof. intros O H. apply keep_heap; [by eapply outside_sched|apply O]. Qed.

Lemma keep_grows s s' : okS s s' → reqs_ok s → keep s s'.
Proof.
  intros H Hrq. split_and!; [by eapply grows_sched| |apply hist_grows, H]. destruct H as [_ Hg]. intros l (Hl & Hp & Hk).
  pose proof (grows_node _ _ _ Hg Hl) as L. split_and!; [by eapply grows_dom|by apply (nle_pub _ _ L)|].
  unfold kind_of in *. by rewrite (nle_id _ _ L).
Qed.

Lemma keep_dropped id s s' : dropped id s s' → sched_ok s' → keep s s'.
Proof.
  intros H Hok. split_and!; [done|..].
  - intros l (Hl & Hp & Hk). unfold pend_ok. rewrite (dr_dom _ _ _ H). by destruct (dr_node _ _ _ H l) as (D & -> & _).
  - intros l Hl. rewrite (dr_dom _ _ _ H). destruct (dr_node _ _ _ H l) as (D & -> & _). simpl. split_and!; [done|done|lia|lia].
Qed.

(** Sequencing handlers. *)
Lemma wp_keep {A} (m : M Sched A) s0 s :
  keep s0 s → (sched_ok s → wp m s (λ _, keep s)) → wp m s (λ _, keep s0).
Proof. intros Hk H. eapply wp_mono; [apply H, Hk|]. intros a s'. by apply keep_trans. Qed.

Lemma wp_keep_bind {A B} (m : M Sched A) (k : A → M Sched B) s0 s :
  keep s0 s → (sched_ok s → wp m s (λ _, keep s)) → (∀ a s', keep s0 s' → wp (k a) s' (λ _, keep s0)) →
  wp (m ≫= k) s (λ _, keep s0).
Proof. intros Hk Hm Hf. apply wp_bind. eapply wp_mono; [by eapply wp_keep|]. auto. Qed.

Lemma flags_cancelled : flags_only (set_q_cancelled true).
Proof. by intros r. Qed.

(** Cancel and Delete: mark, drop, snapshot. *)
Lemma cancel_core id r s0 s :
  keep s0 s → g_requests s !! id = Some r →
  wp (upd_req id (set_q_cancelled true);; dropInterestLocked id (q_target (set_q_cancelled true r));;
      assembleLocked (set_q_cancelled true r)) s
    (λ _ s', keep s0 s' ∧ (∀ l, id ∉ interest s' l)).
Proof.
  intros Hk Hr. apply wp_bind. eapply upd_req_ok; [apply flags_cancelled|apply Hk|]. intros s1 Hs1 E1.
  assert (K1 : keep s0 s1) by (eapply keep_trans; [exact Hk|]; apply keep_heap; [done|by rewrite E1]).
  apply wp_bind. eapply wp_mono; [apply (drop_sched id (set_q_cancelled true r)); [done|]|].
  { rewrite E1. simpl. by rewrite lookup_alter_eq, Hr. }
  intros [] s2 [Hs2 D2]. apply assemble_outside. intros snap s3 O3 _.
  assert (K2 : keep s0 s2) by (eapply keep_trans; [exact K1|by eapply keep_dropped]). split.
  - eapply keep_trans; [exact K2|by apply keep_outside].
  - intros l. rewrite (outside_getN _ _ _ O3). by eapply dropped_gone.
Qed.

Lemma emit_keep e s : sched_ok s → wp (emit e) s (λ _, keep s).
Proof. intros H. apply wp_emit. intros s' O. by apply keep_outside. Qed.

Lemma bump_keep s : sched_ok s → wp bumpLocked s (λ _, keep s).
Proof. intros H. apply wp_bump. intros s' O. by apply keep_outside. Qed.

Lemma Cancel_keep id s : sched_ok s → wp (Cancel id) s (λ _, keep s).
Proof.
  intros Hs. unfold Cancel. apply wp_bind, wp_get. wp_step; [|by apply wp_ret].
  wp_step; [by apply wp_ret|]. pose proof (cancel_core id r s s (keep_refl _ Hs) Heqo) as Hc.
  intros a s' Hrun. apply M_bind_inv in Hrun as ([] & s1 & E1 & Hrun). apply M_bind_inv in Hrun as ([] & s2 & E2 & Hrun).
  apply M_bind_inv in Hrun as (snap & s3 & E3 & Hrun).
  destruct (Hc snap s3) as [Hk _]. { unfold mbind, M_bind in *. by rewrite E1, E2. }
  revert a s' Hrun. eapply wp_keep_bind; [exact Hk|apply emit_keep|]. intros [] s4 Hk4.
  eapply wp_keep_bind; [exact Hk4|apply bump_keep|]. intros [] s5 Hk5. by apply wp_ret.
Qed.

Lemma Delete_keep id s : sched_ok s → wp (Delete id) s (λ _, keep s).
Proof.
  intros Hs. unfold Delete. apply wp_bind, wp_get. wp_step; [|by apply wp_ret].
  pose proof (cancel_core id r s s (keep_refl _ Hs) Heqo) as Hc.
  intros a s' Hrun. apply M_bind_inv in Hrun as ([] & s1 & E1 & Hrun). apply M_bind_inv in Hrun as ([] & s2 & E2 & Hrun).
  apply M_bind_inv in Hrun as (snap & s3 & E3 & Hrun).
  destruct (Hc snap s3) as [Hk Hno]. { unfold mbind, M_bind in *. by rewrite E1, E2. }
  revert a s' Hrun. apply wp_bind, wp_mod.
  assert (Hk4 : keep s (set_g_requests (delete id (g_requests s3)) s3)).
  { eapply keep_trans; [exact Hk|]. apply keep_heap; [|done]. apply forget_ok; [apply Hk|done]. }
  eapply wp_keep_bind; [exact Hk4|apply bump_keep|]. intros [] s5 Hk5.
  eapply wp_keep_bind; [exact Hk5|apply emit_keep|]. intros [] s6 Hk6. by apply wp_ret.
Qed.

(** The watchdog. *)
Lemma upd_req_keep id f s : flags_only f → sched_ok s → wp (upd_req id f) s (λ _, keep s).
Proof. intros Hf Hs. eapply upd_req_ok; [done|done|]. intros s' Hs' ->. by apply keep_heap. Qed.

Lemma drop_keep id r s : sched_ok s → g_requests s !! id = Some r → wp (dropInterestLocked id (q_target r)) s (λ _, keep s).
Proof. intros Hs Hr. eapply wp_mono; [by apply drop_sched|]. intros [] s' [? ?]. by eapply keep_dropped. Qed.

Lemma check_request_keep now id s : sched_ok s → wp (check_request now id) s (λ _, keep s).
Proof.
  intros Hs. unfold check_request. apply wp_bind, wp_get. destruct (g_requests s !! id) as [r|] eqn:Er; [|by apply wp_ret].
  assert (Hflag : ∀ v s1, keep s s1 → wp (upd_req id (set_q_noRunnersSince v)) s1 (λ _, keep s)).
  { intros v s1 Hk. eapply wp_keep; [done|]. intros. by apply upd_req_keep. }
  wp_step; [by apply Hflag|]. apply wp_bind, assemble_outside. intros snap s1 O1 _.
  pose proof (keep_outside _ _ O1 Hs) as K1. apply wp_bind, wp_get. wp_step; [by apply Hflag|].
  destruct (q_noRunnersSince r) as [since|]; [|by apply Hflag]. wp_step; [by apply wp_ret|].
  apply wp_bind. eapply upd_req_ok; [by intros q|apply K1|]. intros s2 Hs2 E2.
  assert (K2 : keep s s2) by (eapply keep_trans; [exact K1|]; apply keep_heap; [done|by rewrite E2]).
  assert (Er2 : g_requests s2 !! id = Some (set_q_failReason ("no live runners for platform " +:+ q_platform r) r)).
  { rewrite E2. simpl. by rewrite lookup_alter_eq, (os_reqs _ _ O1), Er. }
  assert (Hid : q_id r = id) by (by destruct (proj2 Hs _ _ Er) as (t & _ & _ & ?)). rewrite Hid.
  eapply wp_keep_bind; [exact K2| |]; [intros Hs2'; by apply (drop_keep id _ s2 Hs2' Er2)|].
  intros [] s3 K3. eapply wp_keep; [exact K3|]. apply bump_keep.
Qed.

Lemma checkNoRunners_keep now s : sched_ok s → wp (checkNoRunnersLocked now) s (λ _, keep s).
Proof.
  intros Hs. apply wp_bind, wp_get. apply (wp_for (keep s)); [done|]. intros id s1 _ K1.
  eapply wp_keep; [done|]. apply check_request_keep.
Qed.

(** Timers, runners and log chunks. *)
Lemma fireTimer_keep t s : sched_ok s → t ∈ g_timers s → wp (fireTimer t) s (λ _, keep s).
Proof.
  intros [Hok Hrq] Ht. unfold fireTimer. apply wp_bind, wp_get. destruct (g_nodes s !! t_id t) as [m|] eqn:Em; [|by apply wp_ret].
  wp_step; [by apply wp_ret|]. repeat (apply orb_false_iff in Heqb as [Heqb ?]).
  apply negb_false_iff, bool_decide_eq_true in Heqb. subst m.
  destruct (go_timers _ (go_base _ _ Hok) t Ht) as (n & Hn & Hid & Hk).
  eapply wp_mono; [apply (enqueue_ok s)|]; [|intros [] s' H'; by apply keep_grows].
  split_and!; [by apply okS_refl|by eapply elem_of_dom_2|by rewrite (getN_heap _ _ _ Hn)|].
  match goal with H : negb (bool_decide (n_phase _ = _)) = false |- _ => by apply negb_false_iff, bool_decide_eq_true in H end.
Qed.

Lemma hello_keep h s : sched_ok s → wp (onRunnerHello h) s (λ _, keep s).
Proof.
  intros Hs. unfold onRunnerHello. wp_step; [|by apply wp_ret]. wp_step; [by apply wp_ret|].
  apply wp_bind, wp_now, wp_mod. apply keep_outside; [|done]. split; try done. exists []. by rewrite app_nil_r.
Qed.

Lemma heartbeat_keep h s : sched_ok s → wp (onRunnerHeartbeat h) s (λ _, keep s).
Proof.
  intros Hs. unfold onRunnerHeartbeat. wp_step; [|by apply wp_ret]. wp_step; [by apply wp_ret|].
  apply wp_bind, wp_now, wp_mod. apply keep_outside; [|done]. split; try done. exists []. by rewrite app_nil_r.
Qed.

Lemma outside_logs f s : outside s (set_g_logs f s).
Proof. split; try done. exists []. by rewrite app_nil_r. Qed.

Lemma fold_chunk_outside name c s (Q : unit → Sched → Prop) : (∀ s', outside s s' → Q tt s') → wp (fold_chunk name c) s Q.
Proof.
  intros HQ. unfold fold_chunk, evictLogsLocked. apply wp_bind, wp_get.
  repeat wp_step; apply HQ; try apply outside_refl; (eapply outside_trans; apply outside_logs).
Qed.

(** Setting a queued node running. *)
Lemma run_ok l s :
  graph_ok s → l ∈ dom (g_heap s) → n_phase (getN s l) = PhaseQueued → okS s (updN l (set_n_phase PhaseRunning) s).
Proof.
  intros Hok Hl Hq. split.
  - apply graph_ok_upd; [done|by split|]. intros _. destruct (go_nodeN _ _ (go_base _ _ Hok) Hl) as [N (B1 & B2 & B3) P A].
    split; simpl; [done| |by intros Hk%P; rewrite Hq in Hk; destruct Hk as [?|[?|?]]|by intros _ [=]].
    split; [done|]. split; [done|]. right. rewrite Hq in B3. destruct B3 as [[?|?]|?]; done.
  - apply grows_updN. split; simpl; try done; [congruence|]. rewrite Hq. by split.
Qed.

Lemma onLogChunk_keep subj c s : sched_ok s → wp (onLogChunk subj c) s (λ _, keep s).
Proof.
  intros Hs. unfold onLogChunk. destruct (CutPrefix subj "logs.") as [name|]; [|by apply wp_ret].
  destruct c as [c|]; [|by apply wp_ret]. wp_step; [by apply wp_ret|].
  apply wp_bind, fold_chunk_outside. intros s1 O1. apply wp_bind, wp_now. apply wp_bind, wp_mod.
  match goal with |- wp _ ?st _ => assert (O2 : outside s st); [|set (s2 := st) in *; clearbody s2] end.
  { eapply outside_trans; [exact O1|]. eapply outside_trans; [apply outside_tick|].
    repeat case_match; first [apply outside_logs|apply outside_refl]. }
  pose proof (keep_outside _ _ O2 Hs) as K2. destruct (ParseNodeName name) as [id|]; [|by apply wp_ret].
  apply wp_bind, wp_get. destruct (g_nodes s2 !! id) as [l|] eqn:El; [|by apply wp_ret].
  wp_step; [|by apply wp_ret]. apply andb_true_iff in Heqb0 as [_ Hq]. apply bool_decide_eq_true in Hq.
  destruct K2 as [[Hok2 Hrq2] Hp2]. destruct (occ_table _ _ _ Hok2 El) as [[Hl _] _].
  assert (K2 : keep s s2) by done. apply wp_bind, wp_mod. pose proof (run_ok l s2 Hok2 Hl Hq) as H3.
  apply wp_bind, wp_now. pose proof (okS_outside _ _ _ (outside_tick _) H3) as H4.
  apply wp_bind. eapply (wp_upd_boring s2); [by intros n; repeat split|exact H4|]. intros s5 H5 _.
  apply wp_bind, wp_status. intros s6 O6. apply wp_bump. intros s7 O7.
  eapply keep_trans; [exact K2|]. apply keep_grows; [|done]. eapply okS_outside; [exact O7|]. by eapply okS_outside.
Qed.

(** ** Results *)

Definition placed (s : Sched) (l : loc) : Prop :=
  l ∈ dom (g_heap s) ∧ kind_of (getN s l) ≠ KindBuildValue ∧ ¬ terminal (n_phase (getN s l)).

(** Failing a placed node, whatever its counters were just set to. *)
Lemma failNode_from l res o sm s :
  ¬ terminal (n_phase (getN s l)) → graph_ok (updN l (set_n_phase PhaseFailed) s) →
  wp (failNodeAttrLocked l res o sm) s (λ _ s', okS (updN l (set_n_phase PhaseFailed) s) s').
Proof.
  intros Hnt H1. unfold failNodeAttrLocked. apply wp_bind, wp_node_at. wp_step.
  { apply orb_true_iff in Heqb as [H|H]; apply bool_decide_eq_true in H; destruct Hnt; [by right|by left]. }
  apply wp_bind, wp_mod. set (s1 := updN _ _ s) in *. apply okS_refl in H1.
  apply wp_bind. eapply (wp_upd_boring s1); [by intros n; repeat split|exact H1|]. intros s2 H2 _.
  apply wp_bind, wp_now. pose proof (okS_outside _ _ _ (outside_tick s2) H2) as H3.
  apply wp_bind. eapply (wp_upd_boring s1); [by intros n; repeat split|exact H3|]. intros s4 H4 _.
  apply wp_bind, record_outside. intros s5 O5. apply wp_bind, wp_status. intros s6 O6. apply wp_bump.
  intros s7 O7. eapply okS_outside; [exact O7|]. eapply okS_outside; [exact O6|]. by eapply okS_outside.
Qed.

(** Updates that move a placed node's phase and counters within the budget. *)
Lemma phase_upd l f s :
  graph_ok s → l ∈ dom (g_heap s) → kind_of (getN s l) ≠ KindBuildValue →
  frame (getN s l) (f (getN s l)) → in_budget (f (getN s l)) → graph_ok (updN l f s).
Proof.
  intros Hok Hl Hk Hf Hb. apply graph_ok_upd; [done|done|]. intros _. destruct (go_nodeN _ _ (go_base _ _ Hok) Hl) as [N B P A].
  destruct Hf as [F1 F2 F3 F4 F5]. split; [congruence|done|..]; unfold kind_of in *; rewrite F1; by intros ?.
Qed.

Lemma updN_updN l f g s : updN l g (updN l f s) = updN l (λ n, g (f n)) s.
Proof.
  unfold updN, set_g_heap. simpl. f_equal. apply map_eq. intros i. destruct (decide (l = i)) as [<-|Hne].
  - rewrite !lookup_alter_eq. by destruct (g_heap s !! l).
  - by rewrite !lookup_alter_ne.
Qed.

Lemma reqs_upd l f s : reqs_ok s → reqs_ok (updN l f s).
Proof. intros H rid r. rewrite dom_updN. apply H. Qed.

(** What handling a result does to commits in flight: only its own node moves. *)
Definition keep_but (l : loc) (s s' : Sched) : Prop := sched_ok s' ∧ (∀ l', l' ≠ l → pend_ok s l' → pend_ok s' l') ∧ hist s s'.

Lemma keep_but_keep l s s' : keep s s' → keep_but l s s'.
Proof. intros (? & ? & ?). split_and!; auto. Qed.

Lemma keep_but_trans l s1 s2 s3 : keep_but l s1 s2 → keep_but l s2 s3 → keep_but l s1 s3.
Proof. intros (_ & H1 & G1) (H2 & H3 & G3). split_and!; [done|auto|by eapply hist_trans]. Qed.

Lemma keep_but_upd l f s :
  graph_ok (updN l f s) → reqs_ok s → frame (getN s l) (f (getN s l)) →
  (n_lastResultGen (getN s l) <= n_lastResultGen (f (getN s l)))%Z →
  (n_consecRetry (getN s l) <= n_consecRetry (f (getN s l)))%Z → keep_but l s (updN l f s).
Proof.
  intros Hok Hrq Hf Hl Hr. split_and!; [split; [done|by apply reqs_upd]| |].
  - intros l' Hne (Hl' & Hp & Hk). unfold pend_ok. rewrite dom_updN, getN_updN_ne; done.
  - apply hist_upd. split_and!; [apply Hf|done|done].
Qed.

Lemma in_budget_bound s l :
  graph_ok s → placed s l →
  (0 <= n_consecRetry (getN s l) <= maxConsecRetryable ∧ 0 <= n_consecControl (getN s l) <= maxConsecControl)%Z.
Proof.
  intros Hok (Hl & _ & Hnt). destruct (no_budget _ _ (go_nodeN _ _ (go_base _ _ Hok) Hl)) as (? & ? & [?|[? ?]]); [done|lia].
Qed.

(** The failing branch of a retry: a counter passed its budget. *)
Lemma fail_retry l f res o sm s :
  sched_ok s → placed s l → frame (getN s l) (f (getN s l)) → n_phase (f (getN s l)) = n_phase (getN s l) →
  n_lastResultGen (f (getN s l)) = n_lastResultGen (getN s l) →
  (n_consecRetry (getN s l) <= n_consecRetry (f (getN s l)))%Z →
  (0 <= n_consecRetry (f (getN s l)) <= maxConsecRetryable + 1)%Z →
  (0 <= n_consecControl (f (getN s l)) <= maxConsecControl + 1)%Z →
  wp (failNodeAttrLocked l res o sm) (updN l f s) (λ _ s', keep_but l s s' ∧ n_consecRetry (getN s' l) = n_consecRetry (f (getN s l))).
Proof.
  intros [Hok Hrq] (Hl & Hk & Hnt) Hf Hph Hlast Hr B1 B2.
  assert (Hbud : graph_ok (updN l (set_n_phase PhaseFailed) (updN l f s))).
  { rewrite updN_updN. apply phase_upd; [done|done|done|by destruct Hf; split|].
    split; [done|]. split; [done|]. left. by right. }
  eapply wp_mono; [apply failNode_from; [by rewrite getN_updN, Hph|done]|].
  intros [] s' [Hok' Hg]. split; [eapply keep_but_trans; [|apply keep_but_keep, keep_grows; [by split|]]|].
  - rewrite updN_updN in *. apply keep_but_upd; [done|done|by destruct Hf; split|simpl; lia|done].
  - by apply reqs_upd, reqs_upd.
  - rewrite (nle_retry _ _ (grows_node _ _ l Hg ltac:(by rewrite !dom_updN))), updN_updN, getN_updN by done. done.
Qed.

(** The retrying branch: back to waiting, within the budget. *)
Lemma to_waiting l f s :
  sched_ok s → placed s l → frame (getN s l) (f (getN s l)) →
  n_lastResultGen (f (getN s l)) = n_lastResultGen (getN s l) →
  (n_consecRetry (getN s l) <= n_consecRetry (f (getN s l)))%Z →
  (0 <= n_consecRetry (f (getN s l)) <= maxConsecRetryable)%Z →
  (0 <= n_consecControl (f (getN s l)) <= maxConsecControl)%Z →
  let s1 := updN l (set_n_phase PhaseWaiting) (updN l f s) in keep_but l s s1 ∧ enq s1 l s1.
Proof.
  intros [Hok Hrq] (Hl & Hk & Hnt) Hf Hlast Hr B1 B2. rewrite updN_updN. set (g := λ n, _).
  assert (Hok1 : graph_ok (updN l g s)).
  { apply phase_upd; [done|done|done|by destruct Hf; split|]. split; [simpl; lia|]. split; [simpl; lia|]. right. simpl. lia. }
  split; [apply keep_but_upd; [done|done|by destruct Hf; split|unfold g; simpl; lia|done]|]. split_and!; [by apply okS_refl|by rewrite dom_updN|..]; rewrite getN_updN by done.
  - unfold kind_of in *. unfold g. simpl. destruct Hf as [-> _ _ _ _]. done.
  - done.
Qed.

(** A retry raises the count of consecutive retryable results by one, a control
    retry keeps it. *)
Lemma retry_ok l res o sm control s :
  sched_ok s → placed s l → wp (retryLocked l res o sm control) s (λ _ s', keep_but l s s' ∧
    n_consecRetry (getN s' l) = (n_consecRetry (getN s l) + (if control then 0 else 1))%Z).
Proof.
  intros Hs Hp. destruct (in_budget_bound _ _ (proj1 Hs) Hp) as [B1 B2]. pose proof Hp as (Hl & _). unfold retryLocked.
  assert (Hafter : ∀ s1 s2, keep_but l s s1 → l ∈ dom (g_heap s1) → okS s1 s2 → keep_but l s s2 ∧ n_consecRetry (getN s2 l) = n_consecRetry (getN s1 l)).
  { intros s1 s2 K1 L1 H2. split; [|apply (nle_retry _ _ (grows_node _ _ l (proj2 H2) L1))].
    eapply keep_but_trans; [exact K1|]. apply keep_but_keep, keep_grows; [done|apply K1]. }
  apply wp_bind, wp_node_at. destruct control.
  - apply wp_bind, wp_mod. wp_step.
    { eapply wp_mono; [apply fail_retry; simpl; [done|done|by split|done|done|lia|lia|lia]|]. intros [] s' [K ->]. split; [done|simpl; lia]. }
    apply Z.ltb_ge in Heqb. apply wp_bind, wp_mod.
    destruct (to_waiting l (set_n_consecControl (n_consecControl (getN s l) + 1)) s Hs Hp) as [K1 E1];
      [by split|done|simpl; lia|simpl; lia|simpl; lia|].
    set (s1 := updN l (set_n_phase _) _) in *.
    assert (R1 : n_consecRetry (getN s1 l) = n_consecRetry (getN s l)) by (unfold s1; rewrite updN_updN, getN_updN; done).
    apply wp_bind. eapply enq_upd; [by intros n; repeat split|exact E1|]. intros s2 E2.
    apply wp_bind, record_outside. intros s3 O3. eapply wp_mono; [apply (enqueue_ok s1); by eapply enq_outside|].
    intros [] s4 H4. destruct (Hafter s1 s4 K1 (proj1 (proj2 E1)) H4) as [K4 R4]. split; [done|lia].
  - apply wp_bind, wp_mod. apply wp_bind, wp_mod. rewrite updN_updN. wp_step.
    { eapply wp_mono; [apply fail_retry; simpl; [done|done|by split|done|done|lia|lia|unfold maxConsecControl; lia]|].
      intros [] s' [K ->]. split; [done|simpl; lia]. }
    apply Z.ltb_ge in Heqb. apply wp_bind, wp_get. apply wp_bind, wp_mod.
    destruct (to_waiting l (λ n, set_n_consecControl 0 (set_n_consecRetry (n_consecRetry (getN s l) + 1) n)) s Hs Hp) as [K1 E1];
      [by split|done|simpl; lia|simpl; lia|simpl; unfold maxConsecControl; lia|]. set (s1 := updN l (set_n_phase _) _) in *.
    assert (R1 : n_consecRetry (getN s1 l) = (n_consecRetry (getN s l) + 1)%Z) by (unfold s1; rewrite updN_updN, getN_updN; done).
    apply wp_bind. eapply enq_upd; [by intros n; repeat split|exact E1|]. intros s2 E2.
    apply wp_bind, record_outside. intros s3 O3. apply wp_bind, wp_status. intros s4 O4. apply wp_bind, wp_bump. intros s5 O5.
    pose proof (enq_outside _ _ _ _ (outside_trans _ _ _ O3 (outside_trans _ _ _ O4 O5)) E2) as (H5 & L5 & K5 & _).
    eapply wp_mono; [apply (arm_ok s1); done|]. intros [] s6 H6. destruct (Hafter s1 s6 K1 (proj1 (proj2 E1)) H6) as [K6 R6]. split; [done|lia].
Qed.

Lemma fail_placed l res o sm s : sched_ok s → placed s l → wp (failNodeAttrLocked l res o sm) s (λ _, keep_but l s).
Proof.
  intros Hs Hp. pose proof (in_budget_bound _ _ (proj1 Hs) Hp) as [B1 B2].
  assert (E : updN l (λ n, n) s = s).
  { unfold updN. rewrite alter_id by done. by destruct s. }
  pose proof (fail_retry l (λ n, n) res o sm s Hs Hp) as H. rewrite E in H.
  eapply wp_mono; [apply H; [by split|done|done|lia|unfold maxConsecRetryable in *; lia|unfold maxConsecControl in *; lia]|]. by intros [] s' [? _].
Qed.

(** Updates of a node's bookkeeping fields. *)
Definition plain (f : node → node) : Prop :=
  ∀ n, frame n (f n) ∧ n_phase (f n) = n_phase n ∧ n_f (f n) = n_f n ∧
       n_consecRetry (f n) = n_consecRetry n ∧ n_consecControl (f n) = n_consecControl n.

Lemma plain_ok l f s : plain f → sched_ok s → placed s l → sched_ok (updN l f s) ∧ placed (updN l f s) l.
Proof.
  intros Hf [Hok Hrq] (Hl & Hk & Hnt). destruct (Hf (getN s l)) as (F & Hph & Hff & H1 & H2). split; [split|].
  - apply phase_upd; [done|done|done|done|]. destruct (no_budget _ _ (go_nodeN _ _ (go_base _ _ Hok) Hl)) as (B1 & B2 & B3).
    unfold in_budget. rewrite H1, H2, Hph. done.
  - by apply reqs_upd.
  - unfold placed. rewrite dom_updN, getN_updN by done. unfold kind_of in *. rewrite Hph, (fr_id _ _ F). done.
Qed.

Lemma live_placed s l res : graph_ok s → l ∈ dom (g_heap s) → live_result (getN s l) res = true → placed s l.
Proof.
  intros Hok Hl Hlv. unfold live_result in Hlv. apply andb_true_iff in Hlv as [_ Hp]. apply orb_true_iff in Hp.
  assert (Hph : n_phase (getN s l) = PhaseQueued ∨ n_phase (getN s l) = PhaseRunning) by (rewrite !bool_decide_eq_true in Hp; done).
  split_and!; [done| |by destruct Hph as [-> | ->]; intros [?|?]].
  intros Hk. destruct (no_placed _ _ (go_nodeN _ _ (go_base _ _ Hok) Hl) Hk) as [?|[?|?]]; destruct Hph; congruence.
Qed.

(** A retryable result is counted. *)
Definition counted (l : loc) (res : Result) (s s' : Sched) : Prop :=
  res_Class res = ClassRetryable → n_consecRetry (getN s' l) = (n_consecRetry (getN s l) + 1)%Z.

Lemma uncounted c l res s s' : String.eqb (res_Class res) c = true → c ≠ ClassRetryable → counted l res s s'.
Proof. intros Hx%String.eqb_eq Hc Hr. congruence. Qed.

Lemma dispose_ok l res s :
  sched_ok s → placed s l →
  wp (dispose l res) s (λ r s', keep_but l s s' ∧ counted l res s s' ∧ match r with
    | Some sp => pend_ok s' l ∧ sp = mkSpec (fst (n_id (getN s l))) (snd (n_id (getN s l))) (n_platform (getN s l)) (n_caches (getN s l)) (res_Refs res)
    | None => True end).
Proof.
  intros Hs Hp. unfold dispose. apply wp_bind, wp_node_at. wp_step.
  - apply wp_bind, wp_mod. destruct Hs as [Hok Hrq], Hp as (Hl & Hk & Hnt).
    assert (Hok1 : graph_ok (updN l (set_n_phase PhasePublishing) s)).
    { apply phase_upd; [done|done|done|by split|]. pose proof (in_budget_bound s l Hok (conj Hl (conj Hk Hnt))) as [? ?].
      split; [simpl; unfold maxConsecRetryable in *; lia|]. split; [simpl; unfold maxConsecControl in *; lia|]. right. simpl. lia. }
    assert (Hs1 : sched_ok (updN l (set_n_phase PhasePublishing) s)) by (split; [done|by apply reqs_upd]).
    assert (Hp1 : pend_ok (updN l (set_n_phase PhasePublishing) s) l).
    { unfold pend_ok. rewrite dom_updN, getN_updN by done. done. }
    apply wp_bind, wp_status. intros s2 O2. apply wp_bind, wp_bump. intros s3 O3. apply wp_ret.
    pose proof (keep_outside _ _ (outside_trans _ _ _ O2 O3) Hs1) as K3. split_and!; [|by eapply uncounted|by apply K3|done].
    eapply keep_but_trans; [|by apply keep_but_keep]. apply keep_but_upd; [done|done|by split|simpl; lia|done].
  - apply wp_bind. eapply (wp_mono _ _ (λ _ s', keep_but l s s' ∧ counted l res s s')); [|intros [] s' [? ?]; by apply wp_ret].
    assert (Hfail : ∀ o sm, res_Class res ≠ ClassRetryable → wp (failNodeAttrLocked l (Some res) o sm) s (λ _ s', keep_but l s s' ∧ counted l res s s')).
    { intros o sm Hc. eapply wp_mono; [by apply fail_placed|]. intros [] s' K. split; [done|]. by intros Hr. }
    assert (Hretry : ∀ o sm c, (c = true → res_Class res ≠ ClassRetryable) → wp (retryLocked l res o sm c) s (λ _ s', keep_but l s s' ∧ counted l res s s')).
    { intros o sm c Hc. eapply wp_mono; [by apply retry_ok|]. intros [] s' [K E]. split; [done|]. intros Hr. destruct c; [by destruct Hc|done]. }
    repeat match goal with |- wp (if String.eqb (res_Class res) ?c then _ else _) _ _ => destruct (String.eqb_spec (res_Class res) c) as [Hc|?] end.
    + apply Hfail. by rewrite Hc.
    + by apply Hretry.
    + apply Hretry. intros _. by rewrite Hc.
    + wp_step; [apply wp_ret; split; [by apply keep_but_keep, keep_refl|intros Hr; by rewrite Hr in Hc]|]. apply Hretry. intros _. by rewrite Hc.
    + by apply Hfail.
Qed.

(** A live result leaves its generation behind on the node it was handled for. *)
Definition locked (res : Result) (s s' : Sched) (r : option (loc * commitSpec)) : Prop :=
  sched_ok s' ∧ hist s s' ∧ match r with Some (l, _) => pend_ok s' l | None => True end ∧
  ∀ id l, ParseNodeName (res_Node res) = Some id → g_nodes s !! id = Some l → live_result (getN s l) res = true →
    (res_Gen res <= n_lastResultGen (getN s' l))%Z ∧ counted l res s s'.

Lemma locked_noop res s : sched_ok s →
  (∀ id l, ParseNodeName (res_Node res) = Some id → g_nodes s !! id = Some l → live_result (getN s l) res = false) →
  locked res s s None.
Proof. intros Hs Hno. split_and!; [done|apply hist_refl|done|]. intros id l Hp Hl. by rewrite (Hno _ _ Hp Hl). Qed.

Lemma result_lock_ok res s : sched_ok s → wp (result_lock res) s (λ r s', locked res s s' r).
Proof.
  intros Hs. unfold result_lock. destruct (ParseNodeName (res_Node res)) as [id|] eqn:Eid;
    [|apply wp_ret, locked_noop; [done|by intros; simplify_eq]].
  apply wp_bind, wp_get. destruct (g_nodes s !! id) as [l|] eqn:El; [|apply wp_ret, locked_noop; [done|intros; congruence]].
  wp_step. { apply wp_ret, locked_noop; [done|]. intros ? ? ? ?. simplify_eq. by apply negb_true_iff. }
  apply negb_false_iff in Heqb. destruct (occ_table _ _ _ (proj1 Hs) El) as [[Hl _] _].
  pose proof (live_placed _ _ _ (proj1 Hs) Hl Heqb) as Hp.
  apply wp_bind, wp_mod. destruct (plain_ok l (set_n_lastResultGen (res_Gen res)) s) as [Hs1 P1]; [by repeat split|done|done|].
  assert (G1 : hist s (updN l (set_n_lastResultGen (res_Gen res)) s)).
  { apply hist_upd. unfold live_result in Heqb. rewrite !andb_true_iff in Heqb. simpl. split_and!; [done|lia|done]. }
  assert (L1 : n_lastResultGen (getN (updN l (set_n_lastResultGen (res_Gen res)) s) l) = res_Gen res) by (by rewrite getN_updN).
  assert (C1 : n_consecRetry (getN (updN l (set_n_lastResultGen (res_Gen res)) s) l) = n_consecRetry (getN s l)) by (by rewrite getN_updN).
  set (s1 := updN l _ s) in *. clearbody s1.
  assert (Hrest : ∀ s3, sched_ok s3 → placed s3 l → hist s1 s3 → n_consecRetry (getN s3 l) = n_consecRetry (getN s1 l) → wp (sp ← dispose l res; mret ((λ sp, (l, sp)) <$> sp)) s3
    (λ r s', locked res s s' r)).
  { intros s3 Hs3 P3 G3 C3. apply wp_bind. eapply wp_mono; [by apply dispose_ok|]. intros sp s4 ((Hs4 & _ & G4) & C4 & H4). apply wp_ret.
    split_and!; [done|by eapply hist_trans; [|eapply hist_trans]|destruct sp; [apply H4|done]|].
    intros ? ? ? ? _. simplify_eq. rewrite <- L1. split; [apply (hist_trans _ _ _ G3 G4), P1|]. intros Hr. rewrite (C4 Hr). congruence. }
  apply wp_bind, wp_mod. destruct (plain_ok l (set_n_runner (res_Runner res)) s1 ltac:(by repeat split) Hs1 P1) as [Hs2 P2].
  assert (G2 : hist s1 (updN l (set_n_runner (res_Runner res)) s1)) by (apply hist_upd; split_and!; [done|simpl; lia|done]).
  assert (C2 : n_consecRetry (getN (updN l (set_n_runner (res_Runner res)) s1) l) = n_consecRetry (getN s1 l)) by (rewrite getN_updN; [done|apply P1]).
  set (s2 := updN l (set_n_runner _) _) in *. clearbody s2. apply wp_bind.
  wp_step; [|apply wp_ret; by apply Hrest]. apply wp_mod.
  destruct (plain_ok l (set_n_startedAt (n_enqueuedAt (getN s l))) s2) as [Hs3 P3]; [by repeat split|done|done|].
  apply Hrest; [done|done| |].
  - eapply hist_trans; [exact G2|]. apply hist_upd. split_and!; [done|simpl; lia|done].
  - rewrite getN_updN by apply P2. done.
Qed.

(** The commit only adds references. *)
Lemma commit_puts sp st : dom (st_refs st) ⊆ dom (st_refs (commit sp st).1).
Proof.
  unfold commit. do 3 (case_match; [|done]). unfold sc_lift, commit_tail.
  assert (Hpo : ∀ ws, puts_only (put_refs ws)).
  { induction ws as [|[n k] ws IH]; simpl; [apply po_ret|]. apply po_bind; [apply po_put|auto]. }
  match goal with |- context [let '(_, _) := ?m st in _] => assert (Hm : puts_only m) end.
  { apply po_bind; [apply Hpo|]. intros _. apply po_bind; [case_bool_decide; [apply Hpo|apply po_ret]|].
    intros _. case_bool_decide; [|apply po_ret]. apply po_bind; [apply po_deriveKP|]. intros _. apply po_ret. }
  specialize (Hm st). by match goal with |- context [let '(_, _) := ?m st in _] => destruct (m st) as [st1 [x|e]] end.
Qed.

Lemma result_commit_keep sp s : sched_ok s → wp (result_commit sp) s (λ _, keep s).
Proof.
  intros Hs a s' H. unfold result_commit in H. pose proof (commit_puts sp (g_store s)) as Hp.
  destruct (commit sp (g_store s)) as [st r]. simplify_eq. apply keep_outside; [|done]. by apply outside_store.
Qed.

Lemma label_keep l refs s : sched_ok s → wp (applyRecipeLabelLocked l refs) s (λ _ s', okS s s' ∧
  (∀ x, n_phase (getN s' x) = n_phase (getN s x)) ∧ dom (g_heap s') = dom (g_heap s) ∧ (∀ x, n_id (getN s' x) = n_id (getN s x))).
Proof.
  intros [Hok Hrq]. set (J := λ s', okS s s' ∧ (∀ x, n_phase (getN s' x) = n_phase (getN s x)) ∧
    dom (g_heap s') = dom (g_heap s) ∧ (∀ x, n_id (getN s' x) = n_id (getN s x))).
  assert (Hupd : ∀ d s1, J s1 → J (updN d (set_n_label (recipe_label refs)) s1)).
  { intros d s1 ([Hok1 G1] & H1 & D1 & I1). assert (Hb : boring (set_n_label (recipe_label refs))) by (by intros n; repeat split).
    assert (HF : ∀ x, n_phase (getN (updN d (set_n_label (recipe_label refs)) s1) x) = n_phase (getN s1 x)
      ∧ n_id (getN (updN d (set_n_label (recipe_label refs)) s1) x) = n_id (getN s1 x)).
    { intros x. destruct (decide (d = x)) as [<-|Hne]; [|by rewrite getN_updN_ne].
      destruct (decide (d ∈ dom (g_heap s1))) as [Hd|Hd]; [by rewrite getN_updN|].
      unfold getN. simpl. apply not_elem_of_dom in Hd. rewrite !lookup_total_alt, lookup_alter_eq, Hd. done. }
    split_and!.
    - split; [|etransitivity; [exact G1|apply grows_updN, boring_le, Hb]]. apply graph_ok_upd; [done|apply Hb|].
      intros Hl. apply boring_ok; [done|]. apply go_nodeN; [apply Hok1|done].
    - intros x. by rewrite (proj1 (HF x)), H1.
    - by rewrite dom_updN.
    - intros x. by rewrite (proj2 (HF x)), I1. }
  unfold applyRecipeLabelLocked. wp_step; [apply wp_ret; split_and!; [by apply okS_refl|done|done|done]|].
  apply wp_bind, wp_mod. assert (J1 : J (updN l (set_n_label (recipe_label refs)) s)) by (apply Hupd; split_and!; [by apply okS_refl|done..]).
  apply wp_bind, wp_node_at. apply wp_bind, wp_range.
  apply (wp_for J); [|intros d s3 _ J3; apply wp_bind, wp_node_at; wp_step; [apply wp_mod; by apply Hupd|by apply wp_ret]].
  destruct J1 as (H1 & H2 & H3 & H4). split_and!; [eapply okS_outside; [apply outside_tick|done]|done..].
Qed.

Lemma result_finish_ok fuel l res r s :
  sched_ok s → pend_ok s l → wp (result_finish (run_procs fuel) l res r) s (λ _ s', sched_ok s' ∧
    histX match r with Ok _ => {[l]} | Err _ => ∅ end s s').
Proof.
  intros Hs (Hl & Hph & Hk). assert (Hp : placed s l) by (split_and!; [done|done|rewrite Hph; by intros [?|?]]).
  unfold result_finish. apply wp_bind, wp_get. wp_step; [apply wp_ret; split; [done|apply hist_refl]|]. destruct r as [[]|[e|e]].
  - apply wp_bind, wp_mod. apply wp_bind, wp_mod. rewrite updN_updN. set (s1 := updN _ _ s).
    assert (Hs1 : sched_ok s1).
    { destruct Hs as [Hok Hrq]. split; [|by apply reqs_upd]. apply phase_upd; [done|done|done|by split|].
      unfold in_budget, maxConsecRetryable, maxConsecControl. simpl. lia. }
    assert (Hl1 : l ∈ dom (g_heap s1)) by (unfold s1; by rewrite dom_updN).
    assert (Hk1 : kind_of (getN s1 l) ≠ KindBuildValue) by (unfold s1; by rewrite getN_updN).
    apply wp_bind. eapply wp_mono; [by apply label_keep|]. intros [] s2 ([Hok2 G2] & H2 & D2 & I2).
    eapply wp_mono; [apply (nodeDone_ok _ (run_procs_ok fuel) l); [done|by rewrite D2|]|].
    + intros Hbv. unfold kind_of in *. rewrite I2 in Hbv. done.
    + intros [] s3 (Hok3 & _ & Hg3).
      assert (Hrq2 : reqs_ok (updN l (set_n_phase PhaseDone) s2)) by (apply reqs_upd, (grows_sched s1 s2 (conj Hok2 G2) (proj2 Hs1))).
      assert (Hg : grows (updN l (set_n_phase PhaseDone) s2) s3).
      { apply Hg3. rewrite H2. unfold s1. rewrite getN_updN by done. simpl. congruence. }
      split; [by apply (grows_sched (updN l (set_n_phase PhaseDone) s2))|].
      apply (hist_trans _ s1); [apply hist_upd; split_and!; [done|simpl; lia|set_solver]|].
      apply (hist_trans _ s2); [by apply hist_any, hist_grows|]. eapply hist_trans; [|by apply hist_any, hist_grows].
      apply hist_upd. split_and!; [done|simpl; lia|set_solver].
  - eapply wp_mono; [by apply fail_placed|]. by intros [] s' (? & _ & ?).
  - eapply wp_mono; [by apply retry_ok|]. by intros [] s' [(? & _ & ?) _].
Qed.

(** ** Submissions *)

Lemma PutRef_puts n k st : dom (st_refs st) ⊆ dom (st_refs (PutRef n k st).1).
Proof. pose proof (po_put n k st) as H. unfold se_put in H. by destruct (PutRef n k st) as [st1 r]. Qed.

Lemma publish_puts req def st : dom (st_refs st) ⊆ dom (st_refs (publish_submit req def st).1).
Proof.
  unfold publish_submit. match goal with |- context [match ?t with (_, _) => _ end] => set (tr := t) end.
  assert (Ht : dom (st_refs st) ⊆ dom (st_refs tr.1)).
  { unfold tr. case_match; [done|]. case_match; [|done]. case_match; [|done].
    pose proof (PutRef_puts (build_from_tree a) a st). by destruct (PutRef _ _ st) as [st1 r]. }
  destruct tr as [st1 [[]|e]]; [|done]. simpl in Ht. destruct (obj_IngestFile _ _) as [o [k|e]]; [|done].
  case_match; [done|]. pose proof (PutRef_puts ("build:" +:+ key_String k) k (set_objs o st1)) as Hp.
  destruct (PutRef _ _ _) as [st2 r]. simpl in *. by etransitivity.
Qed.

Lemma publish_keep req def s :
  sched_ok s → keep s (set_g_store (publish_submit req def (g_store s)).1 s).
Proof. intros Hs. apply keep_outside; [|done]. apply outside_store, publish_puts. Qed.

(** Registering a fresh request disturbs nothing. *)
Lemma register_ok id r s :
  sched_ok s → g_requests s !! id = None → graph_ok (set_g_requests (<[id := r]> (g_requests s)) s).
Proof.
  intros [Hok Hrq] Hf. apply graph_ok_reqs; [done|]. intros rid l t _ (q & Hq & Ht). exists q. split; [|done].
  simpl. rewrite lookup_insert_ne; [done|congruence].
Qed.

(** Giving the request its target makes the registration complete. *)
Lemma target_ok id r t s s' :
  reqs_ok s → okS (set_g_requests (<[id := r]> (g_requests s)) s) s' →
  q_target r = None → q_id r = id → g_nodes s' !! (KindBuildValue, q_k r) = Some t →
  sched_ok (set_g_requests (alter (set_q_target (Some t)) id (g_requests s')) s').
Proof.
  intros Hrq [Hok' Hg] Hnone Hid Ht. pose proof (gr_reqs _ _ Hg) as HR. simpl in HR.
  destruct (occ_table _ _ _ Hok' Ht) as [[Hdom _] _]. split.
  - apply graph_ok_reqs; [done|]. intros rid l u _ (q & Hq & Hu). destruct (decide (rid = id)) as [->|Hne].
    + rewrite HR, lookup_insert_eq in Hq. injection Hq as <-. destruct Hu as [Hu|[_ Hu]]; [congruence|].
      exists (set_q_target (Some t) r). simpl. rewrite HR, lookup_alter_eq, lookup_insert_eq. split; [done|]. left. simpl. congruence.
    + exists q. simpl. by rewrite lookup_alter_ne.
  - intros rid q. simpl. rewrite HR, lookup_alter. case_decide as Hd.
    + subst rid. rewrite lookup_insert_eq. intros [= <-]. exists t. done.
    + rewrite lookup_insert_ne by done. intros (u & Hu & Hud & Hq)%Hrq. exists u. split_and!; [done| |done]. by eapply grows_dom.
Qed.

Lemma putRequestStatus_keep r snap s : sched_ok s → wp (putRequestStatusLocked r snap) s (λ _, keep s).
Proof. intros Hs. by apply emit_keep. Qed.

Lemma submit_locked_keep fuel id k req def res s :
  sched_ok s → g_requests s !! id = None → wp (submit_locked (run_procs fuel) id k req def res) s (λ _, keep s).
Proof.
  intros Hs Hf. unfold submit_locked. apply wp_bind, wp_get. wp_step; [by apply wp_ret|].
  apply wp_bind, wp_now. set (s1 := set_g_ticks _ s). pose proof (keep_outside _ _ (outside_tick s) Hs) as K1. fold s1 in K1.
  apply wp_bind, wp_mod. match goal with |- context [<[id := ?r0]> _] => set (r := r0) end.
  pose proof (register_ok id r s1 (proj1 K1) Hf) as Hreg. set (s2 := set_g_requests _ s1) in *.
  apply wp_bind. eapply wp_mono; [apply (require_ok _ (run_procs_ok fuel)); [done|]|].
  { exists {[id]}. split_and!; [done|set_solver|]. intros i ->%elem_of_singleton. exists r. unfold s2. simpl. by rewrite lookup_insert_eq. }
  intros t s3 [H3 Ht]. apply wp_bind, wp_mod.
  pose proof (target_ok id r t s1 s3 (proj2 (proj1 K1)) H3 eq_refl eq_refl Ht) as Hs4. set (s4 := set_g_requests _ s3) in *.
  assert (K4 : keep s s4).
  { assert (G4 : hist s s4) by apply (hist_grows _ _ (proj2 H3)).
    split_and!; [done| |done]. intros x (Hx & Hp & Hk). destruct H3 as [_ Hg]. pose proof (grows_node _ _ _ Hg Hx) as L.
    split_and!; [by apply (grows_dom _ _ _ Hg)|by apply (nle_pub _ _ L)|]. change (kind_of (getN s3 x) ≠ KindBuildValue). unfold kind_of in *. by rewrite (nle_id _ _ L). }
  assert (Er : g_requests s4 !! id = Some (set_q_target (Some t) r)).
  { unfold s4. simpl. rewrite (gr_reqs _ _ (proj2 H3)). simpl. by rewrite lookup_alter_eq, lookup_insert_eq. }
  clearbody s4. apply wp_bind, assemble_outside. intros snap s5 O5 _. apply wp_bind, wp_now. apply wp_bind, wp_get.
  pose proof (outside_trans _ _ _ O5 (outside_tick s5)) as O6. pose proof (keep_trans _ _ _ K4 (keep_outside _ _ O6 Hs4)) as K6.
  set (s6 := set_g_ticks _ s5) in *. assert (Er6 : g_requests s6 !! id = Some (set_q_target (Some t) r)) by (by rewrite (os_reqs _ _ O6)).
  clearbody s6. wp_step.
  - apply wp_bind. eapply wp_mono; [apply (drop_sched id _ s6 (proj1 K6) Er6)|]. intros [] s7 [Hs7 D7].
    apply wp_bind, wp_mod, wp_ret. eapply keep_trans; [exact K6|]. eapply keep_trans; [by eapply keep_dropped|].
    apply keep_heap; [|done]. apply forget_ok; [done|]. intros l. by eapply dropped_gone.
  - eapply wp_keep_bind; [exact K6|apply putRequestStatus_keep|]. intros [] s7 K7.
    eapply wp_keep_bind; [exact K7|apply bump_keep|]. intros [] s8 K8. by apply wp_ret.
Qed.

Lemma client_scratch_ok ref s : sched_ok s → wp (delete_client_scratch ref) s (λ _, keep s).
Proof.
  intros [Hok Hrq]. unfold delete_client_scratch. wp_step; [by apply wp_ret|]. wp_step; [by apply wp_ret|]. apply wp_mod.
  apply negb_false_iff in Heqb0. apply keep_heap; [|done]. split; [|done]. apply graph_ok_store; [|done]. intros f. apply DeleteRef_keeps.
  by eapply scratch_not_output.
Qed.
End SchedSteps.
