(* ===== verification/SchedSys.v ===== *)
(** * The scheduler as a transition system

    Each handler of the scheduler runs under its lock and is one step. Handling
    a result is a sequence of steps of the one results goroutine (first critical
    section, commit without the lock, second critical section, deletion of the
    scratch reference), so any other step may run between them. The collector,
    pushes and the API share the store: at any moment they may replace it with
    any other. Every reachable state satisfies the invariant. *)
From S2P Require Import Prelude GoLib Resources Keys Wire Builddef Store Gate Commit LogBuf SchedState PullRefs Graph Results Submit GraphFacts SchedInv SchedRec Walk Evict SchedSteps.
From Stdlib Require Import Ascii.
Local Open Scope string_scope.
Local Open Scope list_scope.

Section SchedSys.
Context `{SE0 : SchedEnv}.

Abbreviation refs s := (st_refs (g_store s)).

(** Where the results goroutine ([runResults]) is. *)
Inductive pending :=
  | PNone
  | PCommit (l : loc) (sp : commitSpec) (res : Result)
  | PFinish (l : loc) (res : Result) (r : result commit_err unit)
  | PScratch (ref : string).

Record cfg := mkCfg { c_sched : Sched; c_pend : pending }.

(** The handlers other goroutines run. *)
Inductive handler (s : Sched) : Sched → Prop :=
  | h_publish req def res : check_submit req = Ok (def, res) →
      handler s (set_g_store (publish_submit req def (g_store s)).1 s)
  | h_submit fuel id k req def res r s' : g_requests s !! id = None →
      submit_locked (run_procs fuel) id k req def res s = Some (r, s') → handler s s'
  | h_client_scratch ref r s' : delete_client_scratch ref s = Some (r, s') → handler s s'
  | h_cancel id r s' : Cancel id s = Some (r, s') → handler s s'
  | h_delete id r s' : Delete id s = Some (r, s') → handler s s'
  | h_timer t r s' : t ∈ g_timers s → fireTimer t s = Some (r, s') → handler s s'
  | h_log subj c r s' : onLogChunk subj c s = Some (r, s') → handler s s'
  | h_hello h r s' : onRunnerHello h s = Some (r, s') → handler s s'
  | h_heartbeat h r s' : onRunnerHeartbeat h s = Some (r, s') → handler s s'
  | h_watchdog now r s' : checkNoRunnersLocked now s = Some (r, s') → handler s s'
  | h_touch names r s' : emit (ETouch names) s = Some (r, s') → handler s s'
  | h_close : handler s (set_g_closed true s).

(** The steps of the scheduler itself. *)
Inductive own_step : cfg → cfg → Prop :=
  | st_handler s s' p : handler s s' → own_step (mkCfg s p) (mkCfg s' p)
  | st_lock s res o s' : result_lock res s = Some (o, s') →
      own_step (mkCfg s PNone) (mkCfg s' match o with Some (l, sp) => PCommit l sp res | None => PScratch (res_ScratchRef res) end)
  | st_commit s l sp res r s' : result_commit sp s = Some (r, s') → own_step (mkCfg s (PCommit l sp res)) (mkCfg s' (PFinish l res r))
  | st_finish fuel s l res r u s' : result_finish (run_procs fuel) l res r s = Some (u, s') →
      own_step (mkCfg s (PFinish l res r)) (mkCfg s' (PScratch (res_ScratchRef res)))
  | st_scratch s ref u s' : deleteScratch ref s = Some (u, s') → own_step (mkCfg s (PScratch ref)) (mkCfg s' PNone).

(** Every other writer of the store, the collector included: it may add,
    overwrite and delete any reference, at any moment. *)
Inductive step : cfg → cfg → Prop :=
  | st_own c c' : own_step c c' → step c c'
  | st_other s p st : step (mkCfg s p) (mkCfg (set_g_store st s) p).

Definition initial (st : Store) : cfg := mkCfg (new_sched st) PNone.

Definition reachable (c : cfg) : Prop := ∃ st, rtc step (initial st) c.

(** A buildvalue that is done and whose output the references [m] hold. *)
Definition output_in (m : gmap string Key) (n : node) : bool :=
  bool_decide (kind_of n = KindBuildValue) && bool_decide (n_phase n = PhaseDone) &&
  match n_f n with Some f => bool_decide (build_output f ∈ dom m) | None => false end.

(** The done nodes whose output another writer deletes. *)
Definition lost (s : Sched) (st : Store) : gset loc :=
  filter (λ l, output_in (refs s) (getN s l) = true ∧ output_in (st_refs st) (getN s l) = false) (dom (g_heap s)).

(** A run, with the nodes whose published output another writer deleted while
    they were done: only its steps extend the set. *)
Inductive sched_run : cfg → gset loc → Prop :=
  | run_init st : sched_run (initial st) ∅
  | run_own c c' D : sched_run c D → own_step c c' → sched_run c' D
  | run_other s p st D : sched_run (mkCfg s p) D → sched_run (mkCfg (set_g_store st s) p) (D ∪ lost s st).

(** The node of a commit in flight is publishing. *)
Definition pending_ok (c : cfg) : Prop :=
  match c_pend c with
  | PCommit l _ _ | PFinish l _ _ => pend_ok (c_sched c) l
  | PNone | PScratch _ => True
  end.

Definition cfg_okG (D : Gone) (c : cfg) : Prop := sched_ok (GN := D) (c_sched c) ∧ pending_ok c.

Definition cfg_ok (c : cfg) : Prop := ∃ D : Gone, cfg_okG D c.

(** What an own step may reset: the retry count of a node whose commit ended. *)
Definition resets (c : cfg) : gset loc :=
  match c_pend c with PFinish l _ (Ok _) => {[l]} | _ => ∅ end.

Lemma handler_keep {GN : Gone} s s' : handler s s' → sched_ok s → keep s s'.
Proof.
  intros H Hs. destruct H.
  - by apply publish_keep.
  - by eapply submit_locked_keep.
  - by eapply client_scratch_ok.
  - by eapply Cancel_keep.
  - by eapply Delete_keep.
  - by eapply fireTimer_keep.
  - by eapply onLogChunk_keep.
  - by eapply hello_keep.
  - by eapply heartbeat_keep.
  - by eapply checkNoRunners_keep.
  - by eapply emit_keep.
  - apply keep_heap; [|done]. destruct Hs as [[[] Hi Ho Hl] Hrq]. split; [|done]. split; [by split|done..].
Qed.

(** Another writer replaces the store. *)
Lemma other_ok (D : gset loc) s st : sched_ok (GN := D) s → sched_ok (GN := D ∪ lost s st) (set_g_store st s).
Proof.
  intros [[[B1 B2 B3 B4 B5 B6 B7] Hi Ho Hl] Hrq]. split; [|done]. split; [split; try done|done..].
  intros l n Hn. destruct (B1 l n Hn) as [N B P A]. split; try done. intros Hk Hd. destruct (A Hk Hd) as (f & Hf & Hin).
  exists f. split; [done|]. unfold served, gone in *. destruct Hin as [Hin|Hin]; [|right; set_solver].
  destruct (decide (build_output f ∈ dom (st_refs st))) as [Hst|Hst]; [by left|right]. apply elem_of_union_r, elem_of_filter.
  split; [|by eapply elem_of_dom_2]. rewrite (getN_heap s l n Hn). unfold output_in.
  rewrite Hf, !bool_decide_eq_true_2 by done. by rewrite bool_decide_eq_false_2.
Qed.

(** [handleResult] run without interference is a run of the system. *)
Lemma handleResult_steps fuel data s s' u :
  handleResult (run_procs fuel) data s = Some (u, s') → rtc own_step (mkCfg s PNone) (mkCfg s' PNone).
Proof.
  unfold handleResult. destruct (dec_Result data) as [res|]; [|intros [= _ <-]; apply rtc_refl].
  intros (a1 & s1 & E1 & H)%M_bind_inv. apply M_bind_inv in H as (o & s2 & E2 & H). apply M_bind_inv in H as ([] & s4 & E4 & H).
  assert (H1 : rtc own_step (mkCfg s PNone) (mkCfg s1 PNone)).
  { case_bool_decide; [injection E1 as _ <-; apply rtc_refl|]. apply rtc_once, st_handler. by eapply h_touch. }
  etransitivity; [exact H1|]. eapply rtc_l; [by apply st_lock|]. destruct o as [[l sp]|].
  - apply M_bind_inv in E4 as (r & s3 & E3 & E4). eapply rtc_l; [by apply st_commit|]. eapply rtc_l; [by eapply st_finish|].
    apply rtc_once. destruct u. by eapply st_scratch.
  - injection E4 as <-. apply rtc_once. destruct u. by eapply st_scratch.
Qed.

Lemma own_steps c c' : rtc own_step c c' → rtc step c c'.
Proof. induction 1; [done|]. eapply rtc_l; [by apply st_own|done]. Qed.

Lemma initial_ok st : cfg_okG (∅ : gset loc) (initial st).
Proof.
  assert (Hn : ∀ l, getN (new_sched st) l = inhabitant).
  { intros l. unfold getN. simpl. by rewrite lookup_total_empty. }
  split; [|done]. split; [|by intros rid r].
  split; [split|..]; simpl.
  - by intros l n.
  - by intros id l.
  - intros l. rewrite dom_empty_L. set_solver.
  - intros l d. rewrite Hn. set_solver.
  - intros l p. rewrite Hn. set_solver.
  - intros l p. rewrite Hn. set_solver.
  - by intros t ?%elem_of_nil.
  - intros l d _. rewrite !Hn. set_solver.
  - intros rid l. rewrite Hn. set_solver.
  - by intros id l.
Qed.

Lemma own_step_ok D c c' :
  own_step c c' → cfg_okG D c → cfg_okG D c' ∧ histX (resets c) (c_sched c) (c_sched c').
Proof.
  intros H [Hs Hp]. unfold cfg_okG, pending_ok, resets in *. destruct H; simpl in *.
  - destruct (handler_keep _ _ H Hs) as (Hs' & Hk & Hh). split; [split; [done|]; destruct p; auto|by apply hist_any].
  - destruct (result_lock_ok _ _ Hs _ _ H) as (Hs' & Hh & Hpend & _). split; [|done]. split; [done|]. by destruct o as [[l sp]|].
  - destruct (result_commit_keep _ _ Hs _ _ H) as (Hs' & Hk & Hh). auto.
  - destruct (result_finish_ok _ _ _ _ _ Hs Hp _ _ H) as [Hs' Hh]. auto.
  - destruct (deleteScratch_ok _ _ Hs _ _ H) as (Hs' & _ & Hh). split; [done|]. by apply hist_heap.
Qed.

Lemma step_ok c c' : step c c' → cfg_ok c → cfg_ok c' ∧ histX (resets c) (c_sched c) (c_sched c').
Proof.
  intros [? ? H|s p st] [D [Hs Hp]].
  - destruct (own_step_ok D _ _ H (conj Hs Hp)) as [? ?]. split; [by exists D|done].
  - split; [|apply hist_any, hist_heap; done]. exists ((D : gset loc) ∪ lost s st). split; [by apply other_ok|].
    unfold pending_ok in *. by destruct p.
Qed.

(** What no run undoes. *)
Definition lasting (s s' : Sched) : Prop := ∀ x, x ∈ dom (g_heap s) →
  x ∈ dom (g_heap s') ∧ (n_lastResultGen (getN s x) <= n_lastResultGen (getN s' x))%Z.

Lemma steps_ok c c' : rtc step c c' → cfg_ok c → cfg_ok c' ∧ lasting (c_sched c) (c_sched c').
Proof.
  induction 1 as [c|c1 c2 c3 H12 H23 IH]; intros Hok; [split; [done|]; intros x Hx; split; [done|lia]|].
  destruct (step_ok _ _ H12 Hok) as [Hok2 Hh]. destruct (IH Hok2) as [Hok3 Hh3]. split; [done|].
  intros x Hx. destruct (Hh x Hx) as (D2 & _ & L2 & _), (Hh3 x D2) as (D3 & L3). split; [done|lia].
Qed.

Lemma sched_run_ok c D : sched_run c D → cfg_okG D c.
Proof.
  induction 1 as [st|c c' D _ IH H|s p st D _ [Hs Hp]]; [apply initial_ok|by apply (own_step_ok D c)|].
  split; [by apply other_ok|]. unfold pending_ok in *. by destruct p.
Qed.

Lemma reachable_cfg_ok c : reachable c → cfg_ok c.
Proof. intros (st & H). apply (steps_ok _ _ H). exists (∅ : gset loc). apply initial_ok. Qed.

Lemma run_own_steps c c' D : sched_run c D → rtc own_step c c' → sched_run c' D.
Proof. intros Hr H. revert Hr. induction H as [|c1 c2 c3 H12 _ IH]; [done|]. intros Hr. apply IH. by eapply run_own. Qed.

Lemma run_reachable_cfg c D : sched_run c D → reachable c.
Proof.
  induction 1 as [st|c c' D _ [st Hr] H|s p st D _ [st0 Hr]]; [by exists st|..].
  - exists st. eapply rtc_r; [exact Hr|by apply st_own].
  - exists st0. eapply rtc_r; [exact Hr|apply st_other].
Qed.
End SchedSys.
