(* ===== verification/Demo.v ===== *)
(** * A concrete run

    Instances of the parameters (keys, store, decoders, clock, broker) and the
    states the witnesses and counterexamples evaluate: a runner says hello, then
    a build is submitted whose plugin is another build. *)
From S2P Require Import Prelude GoLib Resources Keys Wire Builddef Store Gate Commit LogBuf SchedState PullRefs Graph Results Submit GraphFacts SchedInv SchedRec Walk Evict SchedSteps SchedSys.
From Stdlib Require Import Ascii.
Local Open Scope string_scope.
Local Open Scope list_scope.

(** A definition named by its directory, built from a source tree. *)
Definition demo_def (name : string) : Definition_ :=
  {| d_Source := mkInput InputKind.Tree "tree"; d_Dir := name; d_Platform := "linux/amd64"; d_Params := "";
     d_BuildJobs := ""; d_BuildFile := ""; d_Ctx := 0 |}.

(** An import, with the build of its fetcher if it names one. *)
Definition demo_import (fetcher : string) : ImportDef :=
  {| i_Fetcher := "url"; i_Params := ""; i_RequiredTags := []; i_Platform := ""; i_FetcherDef := fetcher |}.

(** The build "top" resolves to a plugin that is a build and a fetched import. *)
Definition demo_resolved : PluginResolved :=
  {| pr_Plugins := {[ "a" := mkInput InputKind.Build "child" ]};
     pr_Deps := {[ "b" := mkInput InputKind.Import "fetch" ]} |}.

Definition demo_pinned : Pinned :=
  {| p_Inputs := [{| pi_Name := "b"; pi_Kind := InputKind.Import; pi_Definition := "fetch" |}]; p_Env := ∅; p_Script := "make";
     p_RuntimeDeps := []; p_Caches := []; p_Resources := None; p_Sources := []; p_Closure := []; p_Dir := ""; p_Generated := ∅ |}.

(** An import fetched by the build that wants it. *)
Definition loop_resolved : PluginResolved :=
  {| pr_Plugins := ∅; pr_Deps := {[ "b" := mkInput InputKind.Import "fetch" ]} |}.

(** The result of the queued import's attempt, with nothing proposed. *)
Definition demo_result (class : string) : Result :=
  {| res_Node := "import_6b6665746368"; res_Gen := 26002; res_Runner := "w1"; res_Class := class; res_Exit := 1;
     res_ErrSummary := "boom"; res_Refs := []; res_ScratchRef := "runner-push/x"; res_ReadRefs := [] |}.

(** A file is its own content, and nothing is missing. *)
Definition build_lib (fetcher : string) (resolved : PluginResolved) : @StoreLib string_keys := {|
  Objs := unit;
  ValidateName := λ n, negb (String.eqb n "");
  FileKey := λ b, @Ok string (@Key string_keys) b;
  obj_ReadFile := λ _ k, @Ok string string k;
  obj_CheckComplete := λ _ _, Ok tt;
  obj_IngestFile := λ o b, (o, @Ok string (@Key string_keys) b);
  obj_TreeSubdir := λ _ k n, @Ok string (option (@Key string_keys)) (Some k);
  obj_Derive := λ o b _ _ _, (o, @Ok string (@Key string_keys) ("kp-" +:+ b));
  dec_Import := λ _, Ok (demo_import fetcher);
  dec_Definition := λ b, Ok (demo_def b);
  dec_PluginResolved := λ _, Ok resolved;
  dec_Pinned := λ _, Ok demo_pinned;
  dec_TreeKey := λ b, @Ok string (@Key string_keys) b |}.

Definition demo_env (fetcher : string) (resolved : PluginResolved) : @SchedEnv string_keys (build_lib fetcher resolved).
Proof.
  refine {| clk := λ i, (1000 * Z.of_nat i + 1)%Z; map_order := λ _ X, elements X;
    js_publish := λ i, @Ok string Z (Z.of_nat i); js_lane := λ _, true; rand_id := λ i, @Ok string string ("r" +:+ itoa (Z.of_nat i));
    dec_Result := λ b, Some (demo_result b); enc_Definition := λ d, @Ok string string (d_Dir d); parse_float_milli := λ _, None |}.
  done.
Defined.

#[local] Existing Instance string_keys.

Definition demo_hello : Hello :=
  {| h_ID := "w1"; h_Name := "w1"; h_Platform := "linux/amd64"; h_Size := "m"; h_CPUMilli := 4000; h_MemBytes := 8589934592 |}.

Definition demo_submit : SubmitRequest :=
  {| sr_Def := "top"; sr_CPU := ""; sr_Memory := ""; sr_ScratchRef := ""; sr_Label := "top" |}.

Section Run.
Context `{SE0 : SchedEnv}.

Definition run {A} (m : M Sched A) (s : Sched) : Sched := match m s with Some (_, s') => s' | None => s end.

Lemma run_some {A} (m : M Sched A) s : match m s with Some _ => true | None => false end = true → ∃ a, m s = Some (a, run m s).
Proof. unfold run. destruct (m s) as [[a s']|]; [by eexists|done]. Qed.

(** One handler step of a run, whatever it returns. *)
Lemma run_handler {A} (m : M Sched A) s p c :
  (∀ r s', m s = Some (r, s') → handler s s') → rtc own_step c (mkCfg s p) → rtc own_step c (mkCfg (run m s) p).
Proof.
  intros Hm Hc. unfold run. destruct (m s) as [[r s']|] eqn:E; [|done].
  eapply rtc_r; [exact Hc|]. apply st_handler. by eapply Hm.
Qed.
End Run.

Section Demo.
Context (fetcher : string) (resolved : PluginResolved).

#[local] Instance demo_lib_inst : @StoreLib string_keys := build_lib fetcher resolved.
#[local] Instance demo_env_inst : SchedEnv := demo_env fetcher resolved.

(** The references present before the run: "top" is resolved up to its
    plugins; "child" was built under its content key only. *)
Definition demo_refs : gmap string (@Key string_keys) := list_to_map [
  (build_from "top", "F"); (build_plugin_resolved "F", "pr");
  (build_from "child", "G"); (build_plugin_resolved "G", "prG"); (build_pinned "G", "pinG");
  (PinCoverRef "G", "KG"); (build_output "KG", "out"); (build_output_deps "KG", "deps")].

Definition demo_store : Store := mkStore () demo_refs [] (λ _, false) (λ _, false).

Definition demo_s1 : Sched := run (onRunnerHello (Some demo_hello)) (new_sched demo_store).
Definition demo_s2 : Sched :=
  run (submit_locked (run_procs 8) "r1" "top" demo_submit (demo_def "top") (mkRes 0 0)) demo_s1.

Lemma demo_s1_reached : rtc own_step (initial demo_store) (mkCfg demo_s1 PNone).
Proof. apply run_handler; [|apply rtc_refl]. intros r s'. apply h_hello. Qed.

Lemma demo_s2_reached : rtc own_step (initial demo_store) (mkCfg demo_s2 PNone).
Proof. apply run_handler; [|apply demo_s1_reached]. intros r s'. apply h_submit. by vm_compute. Qed.

Lemma demo_reachable : reachable (mkCfg demo_s2 PNone).
Proof. exists demo_store. apply own_steps, demo_s2_reached. Qed.

Lemma demo_run : sched_run (mkCfg demo_s2 PNone) ∅.
Proof. eapply run_own_steps; [apply run_init|apply demo_s2_reached]. Qed.

(** The runner answers the import's attempt with an ok that proposes nothing. *)
Definition demo_s3 : Sched := run (handleResult (run_procs 8) ClassOK) demo_s2.

Lemma demo_s3_reached : rtc own_step (initial demo_store) (mkCfg demo_s3 PNone).
Proof.
  etransitivity; [apply demo_s2_reached|]. unfold demo_s3, run.
  destruct (handleResult _ _ _) as [[u s']|] eqn:E; [by eapply handleResult_steps|apply rtc_refl].
Qed.
End Demo.
