(* ===== verification/SchedClaims.v ===== *)
(** * What the scheduler guarantees, and where it does not

    The properties of every reachable state of the scheduler, each evaluated on
    a concrete run, and three runs on which the scheduler does not do what its
    comments say. *)
From S2P Require Import Prelude GoLib Resources Keys Wire Builddef Store Gate Commit LogBuf SchedState PullRefs Graph Results Submit GraphFacts SchedInv SchedRec Walk Snapshots Evict SchedSteps SchedSys Demo.
From Stdlib Require Import Ascii.
Local Open Scope string_scope.
Local Open Scope list_scope.

Section Guarantees.
Context `{SE0 : SchedEnv}.

Abbreviation interest s l := (n_interest (getN s l)).
Abbreviation refs s := (st_refs (g_store s)).

(** [C1] In every reachable state the node table and the interest sets are
    consistent: a table entry leads to an allocated node of that identity and
    name that some request wants, a dependency is wanted by everyone who
    wants its dependent, and interest is held only by registered requests and
    only below their target. *)
Theorem sched_invariant c :
  reachable c → let s := c_sched c in
  (∀ id l, g_nodes s !! id = Some l →
     l ∈ dom (g_heap s) ∧ n_id (getN s l) = id ∧ n_name (getN s l) = NodeName id.1 id.2 ∧ interest s l ≠ ∅) ∧
  (∀ l d, d ∈ n_deps (getN s l) → d ∈ dom (g_heap s) ∧ interest s l ⊆ interest s d) ∧
  (∀ rid l, rid ∈ interest s l →
     ∃ r t, g_requests s !! rid = Some r ∧ q_target r = Some t ∧ reach s t l).
Proof.
  intros [D [[Hok Hrq] _]]%reachable_cfg_ok s. split_and!.
  - intros id l Hl. destruct (occ_table _ _ _ Hok Hl) as [[Hd _] Hid].
    pose proof (no_name _ _ (go_nodeN _ _ (go_base _ _ Hok) Hd)) as Hn. rewrite Hid in Hn.
    split_and!; [done|done|done|]. by apply (go_live _ _ Hok id l Hl).
  - intros l d Hd. split; [by eapply go_deps; [apply Hok|]|]. by apply (go_interest _ _ Hok l d).
  - intros rid l Hin. destruct (go_owned _ _ Hok rid l Hin) as (t & (r & Hr & Ht) & Hreach). destruct (Hrq _ _ Hr) as (t' & Ht' & _).
    exists r, t. split_and!; [done| |done]. destruct Ht as [?|[? _]]; congruence.
Qed.

(** [C2] A buildvalue is never placed on a runner, and whenever it is done its
    output is published under the key of its evaluated tree: the reference
    build-output:F is present in the store. The one exception is a node whose
    output another writer of the store (the collector, a push) deleted while the
    node was done: the run keeps those nodes in [D]. *)
Theorem done_published c D l :
  sched_run c D → let s := c_sched c in
  l ∈ dom (g_heap s) → kind_of (getN s l) = KindBuildValue →
  n_phase (getN s l) ≠ PhaseQueued ∧ n_phase (getN s l) ≠ PhaseRunning ∧ n_phase (getN s l) ≠ PhasePublishing ∧
  (n_phase (getN s l) = PhaseDone → ∃ f, n_f (getN s l) = Some f ∧ (l ∈ D ∨ ∃ k, refs s !! build_output f = Some k)).
Proof.
  intros [[Hok Hrq] _]%sched_run_ok s Hl Hk. subst s. destruct (go_nodeN _ _ (go_base _ _ Hok) Hl) as [_ _ Hp Ha].
  destruct (Hp Hk) as [E|[E|E]]; rewrite E; split_and!; try done.
  intros _. destruct (Ha Hk E) as (f & Hf & [Hin|Hin]); exists f; (split; [done|]); [right|by left].
  by apply elem_of_dom in Hin.
Qed.

(** The steps of a run that does not end a commit of the node [l] well, with
    the number of retryable results handled for it: live results of class
    retryable, and commits of its result that failed on the store. *)
Inductive retried (l : loc) (c0 : cfg) : nat → cfg → Prop :=
  | rt_refl : retried l c0 0 c0
  | rt_quiet n c c' : retried l c0 n c → step c c' → l ∉ resets c → retried l c0 n c'
  | rt_result n s res id o s' : retried l c0 n (mkCfg s PNone) →
      ParseNodeName (res_Node res) = Some id → g_nodes s !! id = Some l → live_result (getN s l) res = true →
      res_Class res = ClassRetryable → result_lock res s = Some (o, s') →
      retried l c0 (S n) (mkCfg s' match o with Some (l, sp) => PCommit l sp res | None => PScratch (res_ScratchRef res) end)
  | rt_commit n s res e fuel u s' : retried l c0 n (mkCfg s (PFinish l res (Err (CFail e)))) →
      g_nodes s !! n_id (getN s l) = Some l → n_gen (getN s l) = res_Gen res →
      result_finish (run_procs fuel) l res (Err (CFail e)) s = Some (u, s') →
      retried l c0 (S n) (mkCfg s' (PScratch (res_ScratchRef res))).

Lemma finish_counted {GN : Gone} fuel l res e s :
  sched_ok s → pend_ok s l → g_nodes s !! n_id (getN s l) = Some l → n_gen (getN s l) = res_Gen res →
  wp (result_finish (run_procs fuel) l res (Err (CFail e))) s (λ _ s', n_consecRetry (getN s' l) = (n_consecRetry (getN s l) + 1)%Z).
Proof.
  intros Hs (Hl & Hph & Hk) Hn Hg. unfold result_finish. apply wp_bind, wp_get.
  rewrite bool_decide_eq_true_2, Hg, Z.eqb_refl by done. simpl. eapply wp_mono; [apply retry_ok; [done|]|by intros [] s' [_ ->]].
  split_and!; [done|done|rewrite Hph; by intros [?|?]].
Qed.

(** The count of the node is at least the number of retryable results. *)
Lemma retried_counts l c0 n c : retried l c0 n c → cfg_ok c0 → l ∈ dom (g_heap (c_sched c0)) →
  cfg_ok c ∧ l ∈ dom (g_heap (c_sched c)) ∧ (n_consecRetry (getN (c_sched c0) l) + Z.of_nat n <= n_consecRetry (getN (c_sched c) l))%Z.
Proof.
  intros H Hok0 Hl0. induction H as [|n c c' _ (Hok & Hl & IH) Hst Hnr|n s res id o s' _ (Hok & Hl & IH) Hid Hn Hlive Hc Hrun|n s res e fuel u s' _ (Hok & Hl & IH) Hn Hg Hrun].
  - split_and!; [done|done|lia].
  - destruct (step_ok _ _ Hst Hok) as [Hok' Hh]. destruct (Hh l Hl) as (Hl' & _ & _ & Hr). split_and!; [done|done|]. specialize (Hr Hnr). lia.
  - destruct (step_ok _ _ (st_own _ _ (st_lock _ _ _ _ Hrun)) Hok) as [Hok' Hh]. destruct (Hh l Hl) as (Hl' & _).
    split_and!; [done|done|]. destruct Hok as [D [Hs _]]. destruct (result_lock_ok _ _ Hs _ _ Hrun) as (_ & _ & _ & Hlast).
    destruct (Hlast id l Hid Hn Hlive) as [_ Hcount]. specialize (Hcount Hc). simpl in *. lia.
  - destruct (step_ok _ _ (st_own _ _ (st_finish fuel _ _ _ _ _ _ Hrun)) Hok) as [Hok' Hh]. destruct (Hh l Hl) as (Hl' & _).
    split_and!; [done|done|]. destruct Hok as [D [Hs Hp]].
    pose proof (finish_counted fuel l res e s Hs Hp Hn Hg _ _ Hrun) as E. simpl in *. lia.
Qed.

(** [C37] Retries are bounded: however long a run of the scheduler is, between
    two successful commits of a node it handles at most four retryable results
    for it (a live result of class retryable, or a commit that failed on the
    store), every one of them is counted on the node, and the fourth leaves the
    node terminal. *)
Theorem retry_budget l c n c' :
  reachable c → l ∈ dom (g_heap (c_sched c)) → retried l c n c' →
  (n <= 4)%nat ∧ (n = 4%nat → terminal (n_phase (getN (c_sched c') l))) ∧
  (n_consecRetry (getN (c_sched c) l) + Z.of_nat n <= n_consecRetry (getN (c_sched c') l))%Z.
Proof.
  intros Hok%reachable_cfg_ok Hl H. destruct (retried_counts l c n c' H Hok Hl) as (Hok' & Hl' & Hle).
  destruct Hok as [D [[Hok _] _]], Hok' as [D' [[Hok' _] _]].
  destruct (no_budget _ _ (go_nodeN _ _ (go_base _ _ Hok) Hl)) as (B0 & _).
  destruct (no_budget _ _ (go_nodeN _ _ (go_base _ _ Hok') Hl')) as (B1 & _ & B3). unfold maxConsecRetryable in *.
  split_and!; [lia| |done]. intros ->. destruct B3 as [?|[? _]]; [done|lia].
Qed.

(** A result that answers no live attempt of the table. *)
Definition stale (res : Result) (s : Sched) : bool :=
  match ParseNodeName (res_Node res) with
  | None => true
  | Some id => match g_nodes s !! id with None => true | Some l => negb (live_result (getN s l) res) end
  end.

Lemma stale_lock res s : stale res s = true → result_lock res s = Some (None, s).
Proof.
  unfold stale, result_lock. destruct (ParseNodeName (res_Node res)) as [id|]; [|done]. unfold mbind, M_bind. simpl.
  destruct (g_nodes s !! id) as [l|]; [|done]. by intros ->.
Qed.

(** Handling a stale result only records what it read and deletes its scratch
    reference. *)
Lemma stale_handled P data res s :
  dec_Result data = Some res → stale res s = true →
  handleResult P data s = Some (tt, set_g_store
    (if negb (String.eqb (res_ScratchRef res) "") && HasPrefix (res_ScratchRef res) runnerScratchPrefix
     then (DeleteRef (res_ScratchRef res) (g_store s)).1 else g_store s)
    (set_g_out (g_out s ++ if bool_decide (res_ReadRefs res = []) then [] else [ETouch (res_ReadRefs res)]) s)).
Proof.
  intros Hd Hst. assert (Hst' : ∀ o, stale res (set_g_out o s) = true) by (intros o; exact Hst).
  unfold handleResult. rewrite Hd. unfold mbind, M_bind, deleteScratch.
  case_bool_decide; simpl; [rewrite (stale_lock res s Hst)|rewrite (stale_lock res _ (Hst' _))]; simpl.
  all: destruct (String.eqb _ _), (HasPrefix _ _); simpl; rewrite ?app_nil_r; by destruct s.
Qed.

(** [C3] A result is handled at most once: once a live result of a node was
    handled, whatever runs afterwards, as long as its table entry is not given
    to a new node, redelivering it reaches no node. The whole handler then only
    touches the references the result read and deletes its scratch reference:
    table, heap, requests, timers and every other reference stay as they are. *)
Theorem result_at_most_once P data s res o s' id l c :
  reachable (mkCfg s PNone) → dec_Result data = Some res →
  ParseNodeName (res_Node res) = Some id → g_nodes s !! id = Some l →
  live_result (getN s l) res = true → result_lock res s = Some (o, s') →
  rtc step (mkCfg s' match o with Some (l, sp) => PCommit l sp res | None => PScratch (res_ScratchRef res) end) c →
  g_nodes (c_sched c) !! id = Some l ∨ g_nodes (c_sched c) !! id = None →
  ∃ st, handleResult P data (c_sched c) = Some (tt, set_g_store st (set_g_out (g_out (c_sched c) ++
          if bool_decide (res_ReadRefs res = []) then [] else [ETouch (res_ReadRefs res)]) (c_sched c))) ∧
    ∀ n, n ≠ res_ScratchRef res → st_refs st !! n = refs (c_sched c) !! n.
Proof.
  intros Hr Hdec Hid Hl Hlive Hrun Hsteps Hl'. pose proof (reachable_cfg_ok _ Hr) as Hok.
  destruct (step_ok _ _ (st_own _ _ (st_lock _ _ _ _ Hrun)) Hok) as [Hok' _]. destruct (steps_ok _ _ Hsteps Hok') as [_ Hh].
  destruct Hok as [D [Hs _]]. destruct (result_lock_ok _ _ Hs _ _ Hrun) as (_ & Hh0 & _ & Hlast).
  destruct (occ_table _ _ _ (proj1 Hs) Hl) as [[Hd _] _]. destruct (Hlast id l Hid Hl Hlive) as [Hgen _].
  destruct (Hh0 l Hd) as (Hd' & _). destruct (Hh l Hd') as [_ Hge].
  assert (Hst : stale res (c_sched c) = true).
  { unfold stale. rewrite Hid. destruct Hl' as [-> | ->]; [|done]. unfold live_result.
    assert ((res_Gen res <=? n_lastResultGen (getN (c_sched c) l))%Z = true) as -> by (apply Z.leb_le; simpl in Hge; lia).
    by rewrite andb_false_r. }
  eexists. split; [by apply stale_handled|]. intros n Hn. destruct (_ && _); [|done].
  unfold DeleteRef. destruct (refs (c_sched c) !! res_ScratchRef res); [|done]. destruct (st_werr _ _); [done|]. simpl. by rewrite lookup_delete_ne.
Qed.

(** [C4] Cancelling a live request always succeeds, and is exact: every node
    keeps all its fields but two, its interest set loses the request and its
    dependents lose the evicted nodes; the table keeps exactly the nodes some
    other request still wants; the store, the timers and the other requests
    stay as they are, and the request is marked cancelled. *)
Theorem cancel_exact c id r :
  reachable c → let s := c_sched c in
  g_requests s !! id = Some r → q_cancelled r = false →
  ∃ s', Cancel id s = Some (Ok tt, s') ∧
    (∀ l, getN s' l = set_n_dependents (filter (λ p, interest s p ∖ {[id]} ≠ ∅) (n_dependents (getN s l)))
                        (set_n_interest (interest s l ∖ {[id]}) (getN s l))) ∧
    (∀ nid l, g_nodes s' !! nid = Some l ↔ g_nodes s !! nid = Some l ∧ interest s l ∖ {[id]} ≠ ∅) ∧
    g_store s' = g_store s ∧ g_timers s' = g_timers s ∧
    (∀ rid, rid ≠ id → g_requests s' !! rid = g_requests s !! rid) ∧ q_cancelled <$> g_requests s' !! id = Some true.
Proof.
  intros [D [Hs _]]%reachable_cfg_ok s Hr Hc. fold s in Hs. unfold Cancel, mbind, M_bind. simpl. rewrite Hr, Hc. simpl.
  destruct (proj2 Hs _ _ Hr) as (t & Ht & Hd & _). rewrite Ht.
  set (s1 := set_g_requests _ s). assert (Hs1 : sched_ok s1).
  { eapply (upd_req_ok id (set_q_cancelled true) s (λ _, sched_ok)); [by intros q|done|by intros s'|done]. }
  assert (Hr1 : g_requests s1 !! id = Some (set_q_cancelled true r)) by (unfold s1; simpl; by rewrite lookup_alter_eq, Hr).
  pose proof (go_deps _ (go_base _ _ (proj1 Hs1))) as Hal1.
  destruct (dropInterest_total id t s1 Hal1 Hd) as [[[] s2] E2]. rewrite E2.
  destruct (drop_sched id (set_q_cancelled true r) s1 Hs1 Hr1 tt s2) as [Hs2 Dr]; [simpl; by rewrite Ht|].
  destruct (assemble_total (set_q_cancelled true r) s2) as [[snap s3] E3].
  { apply (go_deps _ (go_base _ _ (proj1 Hs2))). } { intros t' Ht'. simpl in Ht'. simplify_eq. by rewrite (dr_dom _ _ _ Dr). }
  rewrite E3. simpl. eexists. split; [done|].
  assert (O3 : outside s2 s3 ∧ g_store s3 = g_store s2) by (eapply (assemble_outside _ s2 (λ _ s', outside s2 s' ∧ g_store s' = g_store s2)); [done|exact E3]).
  destruct O3 as [O3 St3]. split_and!.
  - intros l. unfold getN at 1. simpl. rewrite (os_heap _ _ O3). fold (getN s2 l). destruct (dr_node _ _ _ Dr l) as (X & E & _).
    assert (HX : X = filter (λ p, interest s p ∖ {[id]} ≠ ∅) (n_dependents (getN s l))).
    { apply set_eq. intros p. rewrite elem_of_filter. pose proof (dr_edge _ _ _ Dr l p) as He. rewrite E in He. simpl in He. rewrite He. tauto. }
    rewrite E, HX. done.
  - intros nid l. simpl. rewrite (os_nodes _ _ O3). apply (dr_table _ _ _ Dr).
  - simpl. rewrite St3, (dr_store _ _ _ Dr). done.
  - simpl. rewrite (os_timers _ _ O3), (dr_timers _ _ _ Dr). done.
  - intros rid Hne. simpl. rewrite (os_reqs _ _ O3), (dr_reqs _ _ _ Dr). unfold s1. simpl. by rewrite lookup_alter_ne.
  - simpl. rewrite (os_reqs _ _ O3), (dr_reqs _ _ _ Dr), Hr1. done.
Qed.

(** Acyclicity, decided on a finite heap. *)
Lemma acyclic_check (rank : loc → nat) s :
  bool_decide (map_Forall (λ x n, set_Forall (λ d, rank d < rank x)%nat (n_deps n)) (g_heap s)) = true → acyclic s.
Proof.
  intros H%bool_decide_eq_true. exists rank. intros x d. unfold getN. rewrite lookup_total_alt.
  destruct (g_heap s !! x) as [n|] eqn:E; [apply (H x n E)|set_solver].
Qed.
End Guarantees.

(** ** A run on which they hold *)

#[local] Existing Instance string_keys.

#[local] Abbreviation env0 := (demo_env "" demo_resolved).
#[local] Abbreviation cfg0 := (mkCfg (KL := string_keys) (SL := build_lib "" demo_resolved) (demo_s2 "" demo_resolved) PNone).

#[local] Opaque demo_s2.

Lemma sched_invariant_witness :
  ∃ l, g_nodes (c_sched cfg0) !! (KindPin, "F") = Some l ∧ n_name (getN (c_sched cfg0) l) = "pin_6b46".
Proof.
  exists 4%positive. split; [vm_compute; reflexivity|].
  destruct (@sched_invariant _ _ env0 _ (demo_reachable "" demo_resolved)) as [H _].
  destruct (H (KindPin, "F") 4%positive) as (_ & _ & Hn & _); [vm_compute; reflexivity|].
  etransitivity; [exact Hn|vm_compute; reflexivity].
Defined.

Lemma done_published_witness :
  ∃ f k, n_f (getN (c_sched cfg0) 5%positive) = Some f ∧ st_refs (g_store (c_sched cfg0)) !! @build_output string_keys f = Some k.
Proof.
  destruct (@done_published _ _ env0 _ _ 5%positive (demo_run "" demo_resolved)) as (_ & _ & _ & H).
  - apply elem_of_dom. vm_compute. by eexists.
  - vm_compute. reflexivity.
  - assert (Hd : n_phase (getN (c_sched cfg0) 5%positive) = PhaseDone) by (vm_compute; reflexivity).
    destruct (H Hd) as (f & Hf & [Hin|[k Hk]]); [exfalso; exact (not_elem_of_empty (C := gset loc) _ Hin)|].
    exists f, k. split; [exact Hf|exact Hk].
Defined.

Lemma retry_budget_witness :
  ∃ o s', @result_lock _ _ env0 (demo_result ClassRetryable) (c_sched cfg0) = Some (o, s') ∧
    (1 <= n_consecRetry (getN s' 10%positive))%Z.
Proof.
  pose proof (run_some (@result_lock _ _ env0 (demo_result ClassRetryable)) (c_sched cfg0) ltac:(vm_compute; reflexivity)) as [o E].
  exists o, (run (@result_lock _ _ env0 (demo_result ClassRetryable)) (c_sched cfg0)). split; [exact E|].
  destruct (@retry_budget _ _ env0 10%positive cfg0 1 (mkCfg (run (@result_lock _ _ env0 (demo_result ClassRetryable)) (c_sched cfg0))
      match o with Some (l, sp) => PCommit l sp (demo_result ClassRetryable) | None => PScratch "runner-push/x" end)) as (_ & _ & H).
  - apply demo_reachable.
  - apply elem_of_dom. vm_compute. by eexists.
  - eapply (@rt_result _ _ env0 10%positive cfg0 0 _ (demo_result ClassRetryable) (KindImport, "fetch")).
    + apply rt_refl.
    + vm_compute. reflexivity.
    + vm_compute. reflexivity.
    + vm_compute. reflexivity.
    + reflexivity.
    + exact E.
  - assert (H0 : n_consecRetry (getN (c_sched cfg0) 10%positive) = 0%Z) by (vm_compute; reflexivity). rewrite H0 in H. exact H.
Defined.

Lemma result_at_most_once_witness :
  ∃ o s' st, @result_lock _ _ env0 (demo_result ClassHard) (c_sched cfg0) = Some (o, s') ∧
    @handleResult _ _ env0 (@run_procs _ _ env0 8) ClassHard s' = Some (tt, set_g_store st (set_g_out (g_out s' ++ []) s')).
Proof.
  pose proof (run_some (@result_lock _ _ env0 (demo_result ClassHard)) (c_sched cfg0) ltac:(vm_compute; reflexivity)) as [o E].
  set (s' := run _ _) in E. assert (Hs : s' = run (@result_lock _ _ env0 (demo_result ClassHard)) (c_sched cfg0)) by reflexivity.
  clearbody s'. exists o, s'.
  destruct (@result_at_most_once _ _ env0 (@run_procs _ _ env0 8) ClassHard (c_sched cfg0) (demo_result ClassHard) o s' (KindImport, "fetch") 10%positive
           (mkCfg s' match o with Some (l, sp) => PCommit l sp (demo_result ClassHard) | None => PScratch "runner-push/x" end)) as (st & Hh & _).
  - apply demo_reachable.
  - reflexivity.
  - vm_compute. reflexivity.
  - vm_compute. reflexivity.
  - vm_compute. reflexivity.
  - exact E.
  - apply rtc_refl.
  - left. rewrite Hs. vm_compute. reflexivity.
  - exists st. split; [exact E|exact Hh].
Defined.

Lemma cancel_exact_witness :
  ∃ s', @Cancel _ _ env0 "r1" (c_sched cfg0) = Some (Ok tt, s') ∧ ∀ l, "r1" ∉ n_interest (getN s' l).
Proof.
  assert (Hb : q_cancelled <$> g_requests (c_sched cfg0) !! "r1" = Some false) by (vm_compute; reflexivity).
  destruct (g_requests (c_sched cfg0) !! "r1") as [r|] eqn:Hr; [|discriminate Hb].
  destruct (@cancel_exact _ _ env0 cfg0 "r1" r) as (s' & E & Hi & _).
  - apply demo_reachable.
  - exact Hr.
  - by injection Hb.
  - exists s'. split; [exact E|]. intros l. rewrite (Hi l). cbn [n_interest set_n_dependents set_n_interest]. apply not_elem_of_difference. right. by apply elem_of_singleton.
Defined.

(** The run's graph is acyclic. *)
Definition demo_rank (l : loc) : nat :=
  if decide (l = 1%positive) then 3 else if decide (l = 4%positive) then 2 else if decide (l = 5%positive) then 1 else 0.

Lemma demo_acyclic : acyclic (c_sched cfg0).
Proof. apply (acyclic_check demo_rank). vm_compute. reflexivity. Qed.

Lemma demo_graph_ok : @graph_ok _ _ (∅ : gset loc) (c_sched cfg0).
Proof. apply (@sched_run_ok _ _ env0 cfg0 ∅), demo_run. Qed.

Definition demo_req : request := mkReq "r1" "top" "linux/amd64" (mkRes 0 0) 0 false (Some 1%positive) "" None.

Lemma snapshot_exact_witness :
  ∃ snap s', @assembleLocked _ _ env0 demo_req (c_sched cfg0) = Some (snap, s') ∧
    c_Total (sn_Counts snap) = (c_Done (sn_Counts snap) + c_Failed (sn_Counts snap) + c_Running (sn_Counts snap) + c_Waiting (sn_Counts snap))%Z.
Proof.
  destruct (@snapshot_exact _ _ env0 demo_req 1%positive (c_sched cfg0))
    as (snap & s' & now & phs & E & _ & _ & _ & _ & _ & (_ & Hc & _) & _).
  - apply demo_graph_ok.
  - apply demo_acyclic.
  - reflexivity.
  - apply elem_of_dom. vm_compute. by eexists.
  - exists snap, s'. split; [exact E|exact Hc].
Defined.

Lemma cycleChain_exact_witness :
  ∃ r s', @cycleChainLocked _ _ env0 4%positive (KindBuildValue, "top") (c_sched cfg0) = Some (r, s') ∧
    r = Some ["buildvalue_6b746f70"; "pin_6b46"].
Proof.
  destruct (@cycleChain_exact _ _ env0 (∅ : gset loc) 4%positive (KindBuildValue, "top") (c_sched cfg0)) as (r & s' & E & _).
  - apply demo_graph_ok.
  - apply elem_of_dom. vm_compute. by eexists.
  - exists r, s'. split; [exact E|].
    assert (Hr : fst <$> @cycleChainLocked _ _ env0 4%positive (KindBuildValue, "top") (c_sched cfg0)
      = Some (Some ["buildvalue_6b746f70"; "pin_6b46"])) by (vm_compute; reflexivity).
    rewrite E in Hr. by injection Hr.
Defined.

(** A pin whose one input is a fetched import. *)
Definition ready_pin : node := set_n_pinInputs [mkInput InputKind.Import "fetch"] (new_node (KL := string_keys) (KindPin, "F") 0).

Definition ready_store : @Store string_keys (build_lib "" demo_resolved) :=
  log_wop (SL := build_lib "" demo_resolved) (WPut (@import_output string_keys "fetch") "out") (demo_store "" demo_resolved).

Lemma pull_refs_present_witness :
  ∃ st' out, computePullRefs (SL := build_lib "" demo_resolved) ready_pin ready_store = (st', Ok out) ∧
    NoDup out ∧ "f-tree/6b46" ∈ out.
Proof.
  destruct (computePullRefs (SL := build_lib "" demo_resolved) ready_pin ready_store) as [st' [out|e]] eqn:E.
  - exists st', out. split; [done|].
    destruct (@pull_refs_present _ (build_lib "" demo_resolved) ready_pin ready_store st' out) as [Hn _].
    + split; [apply elem_of_dom; vm_compute; by eexists|]. constructor; [|constructor].
      split; [|split; intros H; discriminate H]. intros _ k [= <-]. apply elem_of_dom. vm_compute. by eexists.
    + exact E.
    + split; [exact Hn|].
      assert (Ho : (λ p : _ * result string (list string), match p.2 with Ok o => bool_decide ("f-tree/6b46" ∈ o) | Err _ => false end)
        (computePullRefs (SL := build_lib "" demo_resolved) ready_pin ready_store) = true) by (vm_compute; reflexivity).
      rewrite E in Ho. by apply bool_decide_eq_true in Ho.
  - assert (Ho : (λ p : _ * result string (list string), match p.2 with Ok _ => true | Err _ => false end)
      (computePullRefs (SL := build_lib "" demo_resolved) ready_pin ready_store) = true) by (vm_compute; reflexivity).
    rewrite E in Ho. discriminate Ho.
Defined.

(** A full log fold. *)
Definition full_logs : gmap string nodeLog :=
  list_to_map ((λ i, (itoa (Z.of_nat i), mkNodeLog 1 (newLogBuffer logHeadCap logTailCap) (Some 5%Z))) <$> seq 0 512).

Definition full_sched : Sched := set_g_logs full_logs (new_sched (demo_store "" demo_resolved)).

Definition demo_chunk : LogChunk := {| lc_Gen := 1; lc_Stream := "stdout"; lc_Seq := 0; lc_Data := [] |}.

Lemma log_fold_bounded_witness : ∃ s', @fold_chunk _ (build_lib "" demo_resolved) "new" demo_chunk full_sched = Some (tt, s') ∧ (size (g_logs s') <= 512)%nat.
Proof.
  destruct (@log_fold_bounded _ (build_lib "" demo_resolved) "new" demo_chunk full_sched) as (s' & E & Hs & _).
  - apply Nat.leb_le. vm_compute. reflexivity.
  - exists s'. split; [exact E|exact Hs].
Defined.

Lemma full_fold_drops_new_logs_witness :
  ∃ s', @fold_chunk _ (build_lib "" demo_resolved) "new" demo_chunk full_sched = Some (tt, s') ∧ g_logs s' !! "new" = None.
Proof.
  destruct (@full_fold_drops_new_logs _ (build_lib "" demo_resolved) "new" demo_chunk full_sched) as (s' & E & Hl).
  - vm_compute. reflexivity.
  - assert (H : bool_decide (map_Forall (λ _ lb, is_Some (nl_updated lb)) full_logs) = true) by (vm_compute; reflexivity).
    by apply bool_decide_eq_true in H.
  - vm_compute. reflexivity.
  - exists s'. split; [exact E|]. rewrite Hl. vm_compute. reflexivity.
Defined.

(** ** Where the comments promise more *)

(** A stage can be enqueued before its inputs are known: when a sub-build
    among a pin's inputs completes while it is being joined (its outputs exist
    under its content key, only the F-keyed alias is missing), its completion
    enqueues the pin although a later input has not been registered. In the
    resulting reachable state the pin's job is published and the pin depends on
    an import that is not done. *)
Theorem premature_enqueue :
  @reachable _ _ env0 cfg0 ∧
  n_name (getN (c_sched cfg0) 4%positive) = "pin_6b46" ∧ n_phase (getN (c_sched cfg0) 4%positive) = PhaseQueued ∧
  10%positive ∈ n_deps (getN (c_sched cfg0) 4%positive) ∧ n_phase (getN (c_sched cfg0) 10%positive) = PhaseQueued ∧
  ∃ subject msgid j seq, EJob subject msgid j seq ∈ g_out (c_sched cfg0) ∧ j_Node j = "pin_6b46" ∧
    @import_output string_keys "fetch" ∉ j_PullRefs j.
Proof.
  split; [apply demo_reachable|]. split; [vm_compute; reflexivity|]. split; [vm_compute; reflexivity|].
  split; [apply (bool_decide_unpack _); vm_compute; exact I|]. split; [vm_compute; reflexivity|].
  destruct (g_out (c_sched cfg0) !! 7) as [e|] eqn:E; [|vm_compute in E; discriminate].
  pose proof (list_elem_of_lookup_2 _ _ _ E) as Hin. vm_compute in E. injection E as <-.
  eexists _, _, _, _. split; [exact Hin|]. split; [reflexivity|]. apply (bool_decide_unpack _). vm_compute. exact I.
Qed.

(** Cycle detection misses cycles through a fetcher: an import joins the
    build of its fetcher without the check. A build whose plugins include an
    import fetched by that same build makes the build, its pin and the import
    wait for each other in a reachable state with no job published, no timer
    armed and the request running. *)
Theorem fetcher_cycle_undetected :
  let s := demo_s2 "top" loop_resolved in
  @reachable _ _ (demo_env "top" loop_resolved) (mkCfg s PNone) ∧
  (4%positive ∈ n_deps (getN s 1%positive) ∧ 5%positive ∈ n_deps (getN s 4%positive) ∧ 1%positive ∈ n_deps (getN s 5%positive)) ∧
  ((λ l, n_phase (getN s l)) <$> [1%positive; 4%positive; 5%positive]) = [PhaseWaiting; PhaseWaiting; PhaseWaiting] ∧
  g_timers s = [] ∧ forallb (λ e, match e with EJob _ _ _ _ => false | _ => true end) (g_out s) = true ∧
  ∃ c, last (g_out s) = Some (EReqStatus "r1" "running" c).
Proof.
  intros s. split; [apply demo_reachable|].
  split; [split_and!; apply (bool_decide_unpack _); vm_compute; exact I|].
  split; [vm_compute; reflexivity|]. split; [vm_compute; reflexivity|]. split; [vm_compute; reflexivity|].
  eexists. vm_compute. reflexivity.
Qed.

(** An ok result that proposes nothing passes the gate and the commit, so
    a node becomes done although its output reference does not exist. *)
Theorem ok_without_output :
  let s := demo_s3 "" demo_resolved in
  @reachable _ _ env0 (mkCfg s PNone) ∧
  n_id (getN s 10%positive) = (KindImport, "fetch") ∧ n_phase (getN s 10%positive) = PhaseDone ∧
  st_refs (g_store s) !! @import_output string_keys "fetch" = None.
Proof.
  intros s. split; [exists (demo_store "" demo_resolved); apply own_steps, demo_s3_reached|].
  split; [vm_compute; reflexivity|]. split; vm_compute; reflexivity.
Qed.
