(* ===== verification/Watch.v ===== *)
(** * Watchers, log followers and the snapshot ticker (src/sched/submit.go
    [watcher], [Watch], [Delete], [runTicker], src/sched/logfold.go [Logs],
    [onLogChunk], src/sched/sched.go [Close])

    Channels are bounded buffers that remember what was taken out of them; a
    send on a closed channel and closing a channel twice panic, so the
    operations run in a monad with a panic outcome. Watchers and followers are
    shared objects reached by pointers: the scheduler's tables hold some of
    them, the callers' stop functions all of them. *)
From S2P Require Import Prelude GoLib Resources Keys Wire Builddef Store Gate Commit LogBuf SchedState PullRefs Graph Results Submit SchedSys.
From Stdlib Require Import Ascii.
Local Open Scope string_scope.
Local Open Scope list_scope.

(** ** Channels *)

Record chan (A : Type) := mkChan { ch_cap : nat; ch_taken : list A; ch_buf : list A; ch_closed : bool }.
Arguments mkChan {A}. Arguments ch_cap {A}. Arguments ch_taken {A}. Arguments ch_buf {A}. Arguments ch_closed {A}.

Definition make_chan {A} (cap : nat) : chan A := mkChan cap [] [] false.

(** Everything ever sent. *)
Definition ch_sent {A} (c : chan A) : list A := ch_taken c ++ ch_buf c.

Inductive sent (A : Type) := SPanic | SFull | SSent (c : chan A).
Arguments SPanic {A}. Arguments SFull {A}. Arguments SSent {A}.

(** [select { case ch <- x: ... default: ... }] *)
Definition try_send {A} (x : A) (c : chan A) : sent A :=
  if ch_closed c then SPanic
  else if (length (ch_buf c) <? ch_cap c)%nat then SSent (mkChan (ch_cap c) (ch_taken c) (ch_buf c ++ [x]) false)
  else SFull.

(** [close(ch)]; [None] is the panic. *)
Definition close_chan {A} (c : chan A) : option (chan A) :=
  if ch_closed c then None else Some (mkChan (ch_cap c) (ch_taken c) (ch_buf c) true).

(** The receiver takes the oldest element. *)
Definition take_chan {A} (c : chan A) : option (A * chan A) :=
  match ch_buf c with
  | [] => None
  | x :: r => Some (x, mkChan (ch_cap c) (ch_taken c ++ [x]) r (ch_closed c))
  end.

Section Watch.
Context `{SE0 : SchedEnv}.

(** ** State *)

Record watcher := mkWatcher {
  w_reqID : string; w_ch : chan Snapshot; w_lastVer : Z; w_closed : bool; w_final : option Snapshot }.

(** A follower's channel and whether its stop function has run ([stopOnce]). *)
Record follower := mkFollower { f_node : string; f_ch : chan LogChunk; f_stopped : bool }.

(** [h_ws] and [h_fs] are the objects, [h_watchers] and [h_logSubs] the
    scheduler's tables of them; [h_stops] the watchers whose stop function
    was handed out. *)
Record hub := mkHub {
  h_cfg : cfg; h_ws : gmap loc watcher; h_watchers : gset loc; h_stops : gset loc;
  h_fs : gmap loc follower; h_logSubs : gmap string (gset loc);
  h_lastKVVersion : Z; h_lastReqKV : gmap string string; h_lastCheck : option Z; h_noRunnerCheck : Z }.

Abbreviation h_sched h := (c_sched (h_cfg h)).

Definition set_h_cfg (v : cfg) (h : hub) : hub :=
  mkHub v (h_ws h) (h_watchers h) (h_stops h) (h_fs h) (h_logSubs h) (h_lastKVVersion h) (h_lastReqKV h) (h_lastCheck h) (h_noRunnerCheck h).
Definition set_h_ws (v : gmap loc watcher) (h : hub) : hub :=
  mkHub (h_cfg h) v (h_watchers h) (h_stops h) (h_fs h) (h_logSubs h) (h_lastKVVersion h) (h_lastReqKV h) (h_lastCheck h) (h_noRunnerCheck h).
Definition set_h_watchers (v : gset loc) (h : hub) : hub :=
  mkHub (h_cfg h) (h_ws h) v (h_stops h) (h_fs h) (h_logSubs h) (h_lastKVVersion h) (h_lastReqKV h) (h_lastCheck h) (h_noRunnerCheck h).
Definition set_h_stops (v : gset loc) (h : hub) : hub :=
  mkHub (h_cfg h) (h_ws h) (h_watchers h) v (h_fs h) (h_logSubs h) (h_lastKVVersion h) (h_lastReqKV h) (h_lastCheck h) (h_noRunnerCheck h).
Definition set_h_fs (v : gmap loc follower) (h : hub) : hub :=
  mkHub (h_cfg h) (h_ws h) (h_watchers h) (h_stops h) v (h_logSubs h) (h_lastKVVersion h) (h_lastReqKV h) (h_lastCheck h) (h_noRunnerCheck h).
Definition set_h_logSubs (v : gmap string (gset loc)) (h : hub) : hub :=
  mkHub (h_cfg h) (h_ws h) (h_watchers h) (h_stops h) (h_fs h) v (h_lastKVVersion h) (h_lastReqKV h) (h_lastCheck h) (h_noRunnerCheck h).
Definition set_h_kv (ver : Z) (m : gmap string string) (h : hub) : hub :=
  mkHub (h_cfg h) (h_ws h) (h_watchers h) (h_stops h) (h_fs h) (h_logSubs h) ver m (h_lastCheck h) (h_noRunnerCheck h).
Definition set_h_lastCheck (v : option Z) (h : hub) : hub :=
  mkHub (h_cfg h) (h_ws h) (h_watchers h) (h_stops h) (h_fs h) (h_logSubs h) (h_lastKVVersion h) (h_lastReqKV h) v (h_noRunnerCheck h).

Definition noRunnerCheckEvery : Z := 10 * 1000000000.

(** The hub of a fresh scheduler. *)
Definition new_hub (c : cfg) : hub := mkHub c ∅ ∅ ∅ ∅ ∅ 0 ∅ None noRunnerCheckEvery.

(** ** The monad *)

Inductive run (A : Type) := RFuel | RPanic (why : string) | RRet (a : A) (h : hub).
Arguments RFuel {A}. Arguments RPanic {A}. Arguments RRet {A}.

Definition H (A : Type) : Type := hub → run A.

Global Instance H_ret : MRet H := λ A a h, RRet a h.
Global Instance H_bind : MBind H := λ A B k m h,
  match m h with RFuel => RFuel | RPanic w => RPanic w | RRet a h' => k a h' end.

Definition getH : H hub := λ h, RRet h h.
Definition modH (f : hub → hub) : H unit := λ h, RRet tt (f h).
Definition panic {A} (why : string) : H A := λ _, RPanic why.

Fixpoint hfold {A B} (f : B → A → H B) (b : B) (l : list A) : H B :=
  match l with [] => mret b | x :: r => b' ← f b x; hfold f b' r end.

(** [fmt.Sprintf("%s|%+v", snap.Phase, snap.Counts)] *)
Definition fingerprint (phase : string) (c : Counts) : string :=
  phase +:+ "|{Total:" +:+ itoa (c_Total c) +:+ " Done:" +:+ itoa (c_Done c) +:+ " Running:" +:+ itoa (c_Running c) +:+
  " Failed:" +:+ itoa (c_Failed c) +:+ " Waiting:" +:+ itoa (c_Waiting c) +:+ "}".

(** [putRequestStatusLocked] notes the fingerprint of every status it writes:
    the notes of an operation are those of the writes it made. *)
Definition note_status (m : gmap string string) (e : effect) : gmap string string :=
  match e with EReqStatus id ph c => <[id := fingerprint ph c]> m | _ => m end.

Definition note_statuses (before after : list effect) (m : gmap string string) : gmap string string :=
  foldl note_status m (drop (length before) after).

(** An operation of the scheduler proper. *)
Definition lift {A} (m : M Sched A) : H A := λ h,
  match m (h_sched h) with
  | None => RFuel
  | Some (a, s') =>
      RRet a (set_h_kv (h_lastKVVersion h) (note_statuses (g_out (h_sched h)) (g_out s') (h_lastReqKV h))
                (set_h_cfg (mkCfg s' (c_pend (h_cfg h))) h))
  end.

Global Instance watcher_inhabited : Inhabited watcher := populate (mkWatcher "" (make_chan 0) 0 true None).
Global Instance follower_inhabited : Inhabited follower := populate (mkFollower "" (make_chan 0) true).

Definition getW (h : hub) (p : loc) : watcher := h_ws h !!! p.
Definition getF (h : hub) (p : loc) : follower := h_fs h !!! p.

Definition set_w_final (v : option Snapshot) (w : watcher) : watcher :=
  mkWatcher (w_reqID w) (w_ch w) (w_lastVer w) (w_closed w) v.

Definition upd_w (p : loc) (f : watcher → watcher) : H unit := modH (λ h, set_h_ws (alter f p (h_ws h)) h).
Definition upd_f (p : loc) (f : follower → follower) : H unit := modH (λ h, set_h_fs (alter f p (h_fs h)) h).

(** [w.closed = true; close(w.ch)] *)
Definition close_watcher (p : loc) : H unit :=
  h ← getH;
  let w := getW h p in
  match close_chan (w_ch w) with
  | None => panic "close of closed channel"
  | Some c => upd_w p (λ w, mkWatcher (w_reqID w) c (w_lastVer w) true (w_final w))
  end.

Definition close_follower (p : loc) : H unit :=
  h ← getH;
  match close_chan (f_ch (getF h p)) with
  | None => panic "close of closed channel"
  | Some c => upd_f p (λ f, mkFollower (f_node f) c (f_stopped f))
  end.

(** ** Watching *)

Definition watchBuf : nat := 8.

(** [Watch]: the new watcher's object and whether its stop function does
    anything. *)
Definition Watch (id : string) : H (result (err_code * string) (loc * bool)) :=
  h ← getH;
  match g_requests (h_sched h) !! id with
  | None => mret (Err (CodeNotFound, "request " +:+ id +:+ " not found"))
  | Some r =>
      let ver := g_version (h_sched h) in
      snap ← lift (assembleLocked r);
      h ← getH;
      let p := fresh (dom (h_ws h)) in
      match try_send snap (make_chan watchBuf) with
      | SSent c =>
          modH (λ h, set_h_ws (<[p := mkWatcher id c ver false None]> (h_ws h)) h);;
          if sn_Terminal snap then
            match close_chan c with
            | None => panic "close of closed channel"
            | Some c' => upd_w p (λ w, mkWatcher (w_reqID w) c' (w_lastVer w) (w_closed w) (w_final w));;
                         mret (Ok (p, false))
            end
          else
            modH (λ h, set_h_watchers ({[p]} ∪ h_watchers h) h);;
            modH (λ h, set_h_stops ({[p]} ∪ h_stops h) h);;
            mret (Ok (p, true))
      | _ => panic "send blocks"
      end
  end.

(** The stop function of a registered watcher. *)
Definition stop_watch (p : loc) : H unit :=
  h ← getH;
  if w_closed (getW h p) then mret tt
  else
    modH (λ h, set_h_watchers (h_watchers h ∖ {[p]}) h);;
    close_watcher p.

(** [Delete]: the request's watchers keep its final snapshot. *)
Definition hub_Delete (id : string) : H (result (err_code * string) unit) :=
  r ← lift (Delete id);
  match r with
  | Err e => mret (Err e)
  | Ok final =>
      h ← getH;
      modH (λ h, set_h_ws (map_imap (λ p w,
        Some (if bool_decide (p ∈ h_watchers h) && String.eqb (w_reqID w) id then set_w_final (Some final) w else w)) (h_ws h)) h);;
      mret (Ok tt)
  end.

(** ** The ticker *)

Abbreviation snap_cache := (gmap string Snapshot).

(** [snapFor] *)
Definition snapFor (cache : snap_cache) (id : string) : H (snap_cache * option Snapshot) :=
  match cache !! id with
  | Some snap => mret (cache, Some snap)
  | None =>
      h ← getH;
      match g_requests (h_sched h) !! id with
      | None => mret (cache, None)
      | Some r => snap ← lift (assembleLocked r); mret (<[id := snap]> cache, Some snap)
      end
  end.

(** What a watcher is due, if anything. *)
Definition due (version : Z) (cache : snap_cache) (w : watcher) : H (snap_cache * option Snapshot) :=
  match w_final w with
  | Some f => mret (cache, Some f)
  | None =>
      '(cache, o) ← snapFor cache (w_reqID w);
      let snap := default (mkSnapshot (w_reqID w) "cancelled" (mkCounts 0 0 0 0 0) [] true "") o in
      mret (cache, if (w_lastVer w =? version)%Z && negb (sn_Terminal snap) then None else Some snap)
  end.

Definition push_one (version : Z) (cache : snap_cache) (p : loc) : H snap_cache :=
  h ← getH;
  '(cache, o) ← due version cache (getW h p);
  match o with
  | None => mret cache
  | Some snap =>
      match try_send snap (w_ch (getW h p)) with
      | SPanic => panic "send on closed channel"
      | SFull => mret cache
      | SSent c =>
          upd_w p (λ w, mkWatcher (w_reqID w) c version (w_closed w) (w_final w));;
          (if sn_Terminal snap then
             modH (λ h, set_h_watchers (h_watchers h ∖ {[p]}) h);;
             close_watcher p
           else mret tt);;
          mret cache
      end
  end.

(** A write of the mirror, made after unlocking. *)
Definition kv_put (id : string) (snap : Snapshot) : H unit :=
  modH (λ h, set_h_cfg (mkCfg (set_g_out (g_out (h_sched h) ++ [EReqStatus id (sn_Phase snap) (sn_Counts snap)]) (h_sched h))
                         (c_pend (h_cfg h))) h).

(** One request of the mirror's refresh: the writes to make after unlocking. *)
Definition mirror_one (acc : snap_cache * list (string * Snapshot)) (id : string) : H (snap_cache * list (string * Snapshot)) :=
  '(cache, o) ← snapFor acc.1 id;
  match o with
  | None => mret (cache, acc.2)
  | Some snap =>
      h ← getH;
      let fp := fingerprint (sn_Phase snap) (sn_Counts snap) in
      if bool_decide (h_lastReqKV h !! id = Some fp) then mret (cache, acc.2)
      else
        modH (λ h, set_h_kv (h_lastKVVersion h) (<[id := fp]> (h_lastReqKV h)) h);;
        mret (cache, acc.2 ++ [(id, snap)])
  end.

Definition mirror (version : Z) (cache : snap_cache) : H (list (string * Snapshot)) :=
  h ← getH;
  if (version =? h_lastKVVersion h)%Z then mret []
  else
    modH (λ h, set_h_kv version (h_lastReqKV h) h);;
    '(_, writes) ← hfold mirror_one (cache, []) (SortStrings (elements (dom (g_requests (h_sched h)))));
    modH (λ h, set_h_kv version (filter (λ kv, kv.1 ∈ dom (g_requests (h_sched h))) (h_lastReqKV h)) h);;
    mret writes.

(** The watchers are visited in some order. *)
Definition push_all (version : Z) : H snap_cache :=
  ps ← (λ h, RRet (map_order (g_ticks (h_sched h)) (h_watchers h)) h);
  hfold (push_one version) (∅ : snap_cache) ps.

Definition watchdog (now : Z) : H unit :=
  h ← getH;
  if match h_lastCheck h with None => true | Some t => (h_noRunnerCheck h <=? now - t)%Z end then
    modH (set_h_lastCheck (Some now));;
    lift (checkNoRunnersLocked now)
  else mret tt.

(** One turn of [runTicker]: the critical section, then the mirror's writes. *)
Definition tick : H unit :=
  now ← lift time_Now;
  watchdog now;;
  h ← getH;
  let version := g_version (h_sched h) in
  cache ← push_all version;
  writes ← mirror version cache;
  hfold (λ _ w, kv_put w.1 w.2) tt writes.

(** ** Log followers *)

Record LogView := mkView { lv_Node : string; lv_Gen : Z; lv_Head : LogBuf.bytes; lv_GapSize : Z; lv_Tail : LogBuf.bytes }.

Definition followBuf : nat := 256.

Definition log_view (s : Sched) (name : string) : LogView :=
  match g_logs s !! name with
  | Some lb => mkView name (nl_gen lb) (lb_head (nl_buf lb)) (lb_gap (nl_buf lb)) (lb_tail (nl_buf lb))
  | None => mkView name 0 [] 0 []
  end.

(** [Logs]: without [follow] the channel returned is closed from the start. *)
Definition Logs (name : string) (follow : bool) : H (result (err_code * string) (LogView * option loc)) :=
  match ParseNodeName name with
  | None => mret (Err (CodeBadRequest, "logs: bad node name"))
  | Some _ =>
      h ← getH;
      let view := log_view (h_sched h) name in
      if negb follow then mret (Ok (view, None))
      else
        let p := fresh (dom (h_fs h)) in
        modH (λ h, set_h_fs (<[p := mkFollower name (make_chan followBuf) false]> (h_fs h)) h);;
        modH (λ h, set_h_logSubs (<[name := {[p]} ∪ default ∅ (h_logSubs h !! name)]> (h_logSubs h)) h);;
        mret (Ok (view, Some p))
  end.

(** Unregister a follower; an empty set leaves the table. *)
Definition drop_sub (name : string) (p : loc) (m : gmap string (gset loc)) : gmap string (gset loc) :=
  match m !! name with
  | None => m
  | Some set => let set' := set ∖ {[p]} in if bool_decide (set' = ∅) then delete name m else <[name := set']> m
  end.

Definition stop_follow (p : loc) : H unit :=
  h ← getH;
  let f := getF h p in
  if f_stopped f then mret tt
  else
    upd_f p (λ f, mkFollower (f_node f) (f_ch f) true);;
    if bool_decide (p ∈ default ∅ (h_logSubs h !! f_node f)) then
      modH (λ h, set_h_logSubs (drop_sub (f_node f) p (h_logSubs h)) h);;
      close_follower p
    else mret tt.

Definition fan_one (c : LogChunk) (p : loc) : H unit :=
  h ← getH;
  match try_send c (f_ch (getF h p)) with
  | SPanic => panic "send on closed channel"
  | SFull => mret tt
  | SSent ch => upd_f p (λ f, mkFollower (f_node f) ch (f_stopped f))
  end.

(** [onLogChunk] with its fan-out. *)
Definition hub_onLogChunk (subject : string) (chunk : option LogChunk) : H unit :=
  lift (onLogChunk subject chunk);;
  match CutPrefix subject "logs.", chunk with
  | Some name, Some c =>
      if String.eqb name "" then mret tt
      else
        h ← getH;
        hfold (λ _ p, fan_one c p) tt (elements (default ∅ (h_logSubs h !! name)))
  | _, _ => mret tt
  end.

(** ** Closing *)

(** The second critical section of [Close]. *)
Definition hub_Close : H unit :=
  h ← getH;
  hfold (λ _ p, h ← getH; if w_closed (getW h p) then mret tt else close_watcher p) tt (elements (h_watchers h));;
  modH (set_h_watchers ∅);;
  hfold (λ _ p, close_follower p) tt (x ← (map_to_list (h_logSubs h)).*2; elements x);;
  modH (set_h_logSubs ∅).
End Watch.

Arguments RFuel {KL SL A}. Arguments RPanic {KL SL A}. Arguments RRet {KL SL A}.
