(* ===== verification/WatchFacts.v ===== *)
(** * Watch streams: no panic, and the terminal snapshot arrives

    Whatever the interleaving of handlers, ticks, stops, deletions, readers and
    the closing of the scheduler, no channel is closed twice or sent to after
    it was closed, no operation gets stuck, every stream carries at most one
    terminal snapshot and carries it last, and a tick delivers it to every
    watcher that has room. *)
From S2P Require Import Prelude GoLib Resources Keys Wire Builddef Store Gate Commit LogBuf SchedState PullRefs Graph Results Submit GraphFacts SchedInv SchedRec Walk Snapshots Evict SchedSteps SchedSys Watch.
From Stdlib Require Import Ascii.
Local Open Scope string_scope.
Local Open Scope list_scope.

Section WatchFacts.
Context `{SE0 : SchedEnv} {GN : Gone}.

Abbreviation h_sched h := (c_sched (h_cfg h)).

(** ** Total correctness *)

Definition hwp {A} (m : H A) (h : hub) (Q : A → hub → Prop) : Prop :=
  match m h with RRet a h' => Q a h' | _ => False end.

Lemma hwp_bind {A B} (m : H A) (k : A → H B) h Q : hwp m h (λ a h', hwp (k a) h' Q) → hwp (m ≫= k) h Q.
Proof. unfold hwp, mbind, H_bind. by destruct (m h). Qed.

Lemma hwp_ret {A} (a : A) h (Q : A → hub → Prop) : Q a h → hwp (mret a) h Q.
Proof. done. Qed.

Lemma hwp_get h (Q : hub → hub → Prop) : Q h h → hwp getH h Q.
Proof. done. Qed.

Lemma hwp_mod f h (Q : unit → hub → Prop) : Q tt (f h) → hwp (modH f) h Q.
Proof. done. Qed.

Lemma hwp_mono {A} (m : H A) h (Q Q' : A → hub → Prop) : hwp m h Q → (∀ a h', Q a h' → Q' a h') → hwp m h Q'.
Proof. unfold hwp. destruct (m h); auto. Qed.

Lemma hwp_fold {A B} (f : B → A → H B) (I : B → list A → hub → Prop) : ∀ l b h,
  I b l h → (∀ b x l h, I b (x :: l) h → hwp (f b x) h (λ b' h', I b' l h')) → hwp (hfold f b l) h (λ b' h', I b' [] h').
Proof.
  induction l as [|x l IH]; intros b h Hi Hs; simpl; [by apply hwp_ret|].
  apply hwp_bind. eapply hwp_mono; [by apply Hs|]. intros b' h' H'. by apply IH.
Qed.

(** ** Lifted operations *)

(** The hub after the scheduler moved to [s]. *)
Definition lifted (s : Sched) (h : hub) : hub :=
  set_h_kv (h_lastKVVersion h) (note_statuses (g_out (h_sched h)) (g_out s) (h_lastReqKV h))
    (set_h_cfg (mkCfg s (c_pend (h_cfg h))) h).

Lemma hwp_lift {A} (m : M Sched A) h a s' (Q : A → hub → Prop) :
  m (h_sched h) = Some (a, s') → Q a (lifted s' h) → hwp (lift m) h Q.
Proof. unfold hwp, lift. by intros ->. Qed.

(** ** The channels' invariant *)

Definition is_terminal (s : Snapshot) : Prop := sn_Terminal s = true.

(** At most one terminal snapshot, as the last; it closes the channel. *)
Definition stream_ok (w : watcher) : Prop :=
  let c := w_ch w in
  ch_cap c = watchBuf ∧ ch_sent c ≠ [] ∧
  (∀ pre x post, ch_sent c = pre ++ x :: post → is_terminal x → post = [] ∧ ch_closed c = true) ∧
  (∀ f, w_final w = Some f → is_terminal f).

Record chans_ok (h : hub) : Prop := {
  co_stream : ∀ p w, h_ws h !! p = Some w → stream_ok w;
  co_live : ∀ p, p ∈ h_watchers h → ∃ w, h_ws h !! p = Some w ∧ ch_closed (w_ch w) = false ∧ w_closed w = false;
  co_stop : ∀ p, p ∈ h_stops h → ∃ w, h_ws h !! p = Some w ∧ (w_closed w = false → p ∈ h_watchers h);
  co_subs : ∀ name ps p, h_logSubs h !! name = Some ps → p ∈ ps →
    ∃ f, h_fs h !! p = Some f ∧ f_node f = name ∧ ch_closed (f_ch f) = false }.

Definition same_chans (h h' : hub) : Prop :=
  h_ws h' = h_ws h ∧ h_watchers h' = h_watchers h ∧ h_stops h' = h_stops h ∧ h_fs h' = h_fs h ∧ h_logSubs h' = h_logSubs h.

Lemma chans_ext h h' : same_chans h h' → chans_ok h → chans_ok h'.
Proof.
  intros (E1 & E2 & E3 & E4 & E5) [C1 C2 C3 C4]. split.
  - intros p w. rewrite E1. apply C1.
  - intros p. rewrite E2, E1. apply C2.
  - intros p. rewrite E3, E2, E1. apply C3.
  - intros name ps p. rewrite E5, E4. apply C4.
Qed.

Definition hub_ok (h : hub) : Prop := cfg_okG GN (h_cfg h) ∧ chans_ok h.

Lemma lifted_chans s h : same_chans h (lifted s h).
Proof. done. Qed.

Lemma lifted_ok s h : keep (h_sched h) s → hub_ok h → hub_ok (lifted s h).
Proof.
  intros (Hs & Hp & _) [[_ Hpd] Hc]. split; [|by eapply chans_ext; [apply lifted_chans|]]. split; [done|].
  unfold pending_ok in *. simpl. destruct (c_pend (h_cfg h)); auto.
Qed.

(** A lifted operation that returns and keeps the scheduler's invariant. *)
Lemma hwp_lift_ok {A} (m : M Sched A) h (Q : A → hub → Prop) :
  hub_ok h → is_Some (m (h_sched h)) → wp m (h_sched h) (λ _, keep (h_sched h)) →
  (∀ a s', m (h_sched h) = Some (a, s') → hub_ok (lifted s' h) → Q a (lifted s' h)) → hwp (lift m) h Q.
Proof.
  intros Hh [[a s'] E] Hk HQ. eapply hwp_lift; [exact E|]. apply HQ; [done|]. apply lifted_ok; [by eapply Hk|done].
Qed.

(** ** Totality of the scheduler operations used *)

Lemma ok_alloc s : sched_ok s → deps_alloc s.
Proof. intros Hs. apply (go_deps _ (go_base _ _ (proj1 Hs))). Qed.

Lemma req_assemble s id r : sched_ok s → g_requests s !! id = Some r → is_Some (assembleLocked r s).
Proof.
  intros Hs Hr. apply assemble_total; [by apply ok_alloc|]. intros t Ht.
  destruct (proj2 Hs _ _ Hr) as (t' & Ht' & Hd & _). by simplify_eq.
Qed.

Lemma assemble_keep r s : sched_ok s → wp (assembleLocked r) s (λ _, keep s).
Proof. intros Hs. apply assemble_outside. intros a s' O _. by apply keep_outside. Qed.

(** Total correctness of scheduler operations. *)
Definition runs {A} (m : M Sched A) (s : Sched) (Q : A → Sched → Prop) : Prop := ∃ a s', m s = Some (a, s') ∧ Q a s'.

Lemma runs_wp {A} (m : M Sched A) s Q : is_Some (m s) → wp m s Q → runs m s Q.
Proof. intros [[a s'] E] Hw. exists a, s'. split; [done|by apply Hw]. Qed.

Lemma runs_bind {A B} (m : M Sched A) (k : A → M Sched B) s Q :
  runs m s (λ a s', runs (k a) s' Q) → runs (m ≫= k) s Q.
Proof. intros (a & s' & E & b & s2 & E2 & HQ). exists b, s2. unfold mbind, M_bind. by rewrite E. Qed.

Lemma runs_mono {A} (m : M Sched A) s (Q Q' : A → Sched → Prop) : runs m s Q → (∀ a s', Q a s' → Q' a s') → runs m s Q'.
Proof. intros (a & s' & E & HQ) HM. exists a, s'. auto. Qed.

Lemma runs_pure {A} (m : M Sched A) s a s' (Q : A → Sched → Prop) : m s = Some (a, s') → Q a s' → runs m s Q.
Proof. by exists a, s'. Qed.

Lemma runs_for {A} (f : A → M Sched unit) (I : Sched → Prop) l : ∀ s,
  I s → (∀ x s, I s → runs (f x) s (λ _, I)) → runs (mfor f l) s (λ _, I).
Proof.
  induction l as [|x l IH]; intros s Hs Hf; simpl; [by eapply runs_pure|].
  apply runs_bind. eapply runs_mono; [by apply Hf|]. intros [] s' Hs'. by apply IH.
Qed.

(** What settles a request, and how the watchdog and deletions leave it. *)
Definition settled (s : Sched) (r : request) : Prop :=
  q_cancelled r = true ∨ q_failReason r ≠ "" ∨
  ∃ t, q_target r = Some t ∧ (n_phase (getN s t) = PhaseDone ∨ ∃ x, reach s t x ∧ n_phase (getN s x) = PhaseFailed).

Record calm (s s' : Sched) : Prop := {
  ca_node : ∀ x, n_phase (getN s' x) = n_phase (getN s x) ∧ n_deps (getN s' x) = n_deps (getN s x);
  ca_req : ∀ id r, g_requests s !! id = Some r → ∃ r', g_requests s' !! id = Some r' ∧ q_target r' = q_target r ∧
    (q_cancelled r = true → q_cancelled r' = true) ∧ (q_failReason r ≠ "" → q_failReason r' ≠ "");
  ca_gone : ∀ id, g_requests s !! id = None → g_requests s' !! id = None }.

Lemma calm_refl s : calm s s.
Proof. split; [done| |done]. intros id r Hr. by exists r. Qed.

Lemma calm_after s1 s2 s3 : calm s1 s2 → calm s2 s3 → calm s1 s3.
Proof.
  intros [N1 R1 G1] [N2 R2 G2]. split; [| |auto].
  - intros x. destruct (N1 x) as [P1 D1], (N2 x) as [P2 D2]. split; congruence.
  - intros id r (r1 & E1 & T1 & C1 & F1)%R1. destruct (R2 _ _ E1) as (r2 & E2 & T2 & C2 & F2).
    exists r2. split_and!; [done|congruence|auto|auto].
Qed.

Lemma calm_reach s s' x y : calm s s' → reach s x y → reach s' x y.
Proof.
  intros [Hn _ _]. induction 1 as [|x z y Hz _ IH]; [constructor|]. econstructor; [|exact IH]. by rewrite (proj2 (Hn x)).
Qed.

Lemma calm_settled s s' id r : calm s s' → g_requests s !! id = Some r → settled s r →
  ∃ r', g_requests s' !! id = Some r' ∧ settled s' r'.
Proof.
  intros Hc Hr Hs. destruct (ca_req _ _ Hc _ _ Hr) as (r' & Hr' & Ht & Hcc & Hf). exists r'. split; [done|].
  destruct Hs as [?|[?|(t & Et & Hp)]]; [left; auto|right; left; auto|]. right. right. exists t. split; [congruence|].
  destruct Hp as [Hp|(x & Hx & Hp)]; [left; by rewrite (proj1 (ca_node _ _ Hc t))|].
  right. exists x. split; [by eapply calm_reach|]. by rewrite (proj1 (ca_node _ _ Hc x)).
Qed.

Lemma calm_outside s s' : outside s s' → calm s s'.
Proof.
  intros O. split.
  - intros x. by rewrite (outside_getN _ _ _ O).
  - intros id r Hr. exists r. by rewrite (os_reqs _ _ O).
  - intros id. by rewrite (os_reqs _ _ O).
Qed.

Lemma calm_dropped id s s' : dropped id s s' → calm s s'.
Proof.
  intros D. split.
  - intros x. by destruct (dr_node _ _ _ D x) as (D' & -> & _).
  - intros i r Hr. exists r. by rewrite (dr_reqs _ _ _ D).
  - intros i. by rewrite (dr_reqs _ _ _ D).
Qed.

(** A step of a handler that settles requests only. *)
Definition good (s s' : Sched) : Prop := keep s s' ∧ calm s s'.

Lemma good_refl s : sched_ok s → good s s.
Proof. intros Hs. split; [by apply keep_refl|apply calm_refl]. Qed.

Lemma good_trans s1 s2 s3 : good s1 s2 → good s2 s3 → good s1 s3.
Proof. intros [K1 C1] [K2 C2]. split; [by eapply keep_trans|by eapply calm_after]. Qed.

Lemma good_ok s s' : good s s' → sched_ok s'.
Proof. by intros [[? _] _]. Qed.

Lemma runs_good {A} (m : M Sched A) s0 s : good s0 s → runs m s (λ _, good s) → runs m s (λ _, good s0).
Proof. intros Hg Hr. eapply runs_mono; [exact Hr|]. intros a s'. by apply good_trans. Qed.

Lemma runs_outside {A} (m : M Sched A) s : sched_ok s → is_Some (m s) → wp m s (λ _, outside s) → runs m s (λ _, good s).
Proof.
  intros Hs Hm Hw. eapply runs_mono; [by apply runs_wp|]. intros a s' O. split; [by apply keep_outside|by apply calm_outside].
Qed.

Lemma runs_assemble s id r : sched_ok s → g_requests s !! id = Some r → runs (assembleLocked r) s (λ _, good s).
Proof. intros Hs Hr. apply runs_outside; [done|by eapply req_assemble|]. by apply assemble_outside. Qed.

Lemma runs_bump s : sched_ok s → runs bumpLocked s (λ _, good s).
Proof. intros Hs. apply runs_outside; [done|by eexists|]. by apply wp_bump. Qed.

(** Flags are only ever raised. *)
Definition raises (f : request → request) : Prop :=
  flags_only f ∧ ∀ r, (q_cancelled r = true → q_cancelled (f r) = true) ∧ (q_failReason r ≠ "" → q_failReason (f r) ≠ "").

Lemma runs_upd_req id f s : raises f → sched_ok s → runs (upd_req id f) s (λ _, good s).
Proof.
  intros [Hf Hr] Hs. apply runs_wp; [by eexists|]. eapply upd_req_ok; [done|done|]. intros s' Hs' ->. split; [by apply keep_heap|].
  split; [done| |]; simpl.
  - intros i r E. rewrite lookup_alter. case_decide as Hd; [|by exists r]. subst. rewrite E. exists (f r). destruct (Hr r), (Hf r). done.
  - intros i E. rewrite lookup_alter. case_decide; subst; by rewrite E.
Qed.

Lemma drop_total id r s : sched_ok s → g_requests s !! id = Some r → is_Some (dropInterestLocked id (q_target r) s).
Proof.
  intros Hs Hr. destruct (proj2 Hs _ _ Hr) as (t & Ht & Hd & _). rewrite Ht. apply dropInterest_total; [by apply ok_alloc|done].
Qed.

Lemma runs_drop id r s : sched_ok s → g_requests s !! id = Some r → runs (dropInterestLocked id (q_target r)) s (λ _, good s).
Proof.
  intros Hs Hr. apply runs_wp; [by eapply drop_total|]. eapply wp_mono; [by apply drop_sched|]. intros [] s' [? D].
  split; [by eapply keep_dropped|by eapply calm_dropped].
Qed.

Lemma raises_since v : raises (set_q_noRunnersSince v).
Proof. by split. Qed.

Lemma check_request_runs now id s : sched_ok s → runs (check_request now id) s (λ _, good s).
Proof.
  intros Hs. unfold check_request. apply runs_bind. eapply runs_pure; [done|].
  destruct (g_requests s !! id) as [r|] eqn:Er; [|eapply runs_pure; [done|by apply good_refl]].
  destruct (q_cancelled r || negb (String.eqb (q_failReason r) "")); [by apply runs_upd_req, Hs; apply raises_since|].
  apply runs_bind. eapply runs_mono; [by apply (runs_assemble s id)|]. intros snap s1 G1.
  pose proof (good_ok _ _ G1) as Hs1. apply runs_bind. eapply runs_pure; [done|].
  destruct (ca_req _ _ (proj2 G1) _ _ Er) as (r1 & Er1 & Ht1 & _).
  destruct (sn_Terminal snap || livePlatformLocked s1 (q_platform r) now); [eapply runs_good; [done|apply runs_upd_req; [apply raises_since|done]]|].
  destruct (q_noRunnersSince r) as [since|]; [|eapply runs_good; [done|apply runs_upd_req; [apply raises_since|done]]].
  destruct (_ <? _)%Z; [by eapply runs_pure|].
  apply runs_bind. eapply runs_mono; [apply runs_upd_req; [|done]|].
  { split; [by intros q|]. intros q. split; [done|]. intros _ [=]. }
  intros [] s2 G2. pose proof (good_trans _ _ _ G1 G2) as G. pose proof (good_ok _ _ G) as Hs2.
  destruct (ca_req _ _ (proj2 G) _ _ Er) as (r2 & Er2 & Ht2 & _).
  assert (Hid : q_id r = id) by (by destruct (proj2 Hs _ _ Er) as (t & _ & _ & ?)). rewrite Hid, <- Ht2.
  apply runs_bind. eapply runs_mono; [by apply runs_drop|]. intros [] s3 G3. pose proof (good_trans _ _ _ G G3) as G'.
  eapply runs_good; [exact G'|]. by apply runs_bump, (good_ok _ _ G').
Qed.

Lemma watchdog_runs now s : sched_ok s → runs (checkNoRunnersLocked now) s (λ _, good s).
Proof.
  intros Hs. apply runs_bind. eapply runs_pure; [done|]. apply runs_for; [by apply good_refl|].
  intros id s1 G1. eapply runs_good; [exact G1|]. by apply check_request_runs, (good_ok _ _ G1).
Qed.

Lemma Delete_runs id s : sched_ok s → is_Some (Delete id s).
Proof.
  intros Hs. unfold Delete, mbind, M_bind. simpl. destruct (g_requests s !! id) as [r|] eqn:Er; [|by eexists].
  cbn [upd_req modS]. set (s1 := set_g_requests _ s).
  destruct (runs_upd_req id (set_q_cancelled true) s) as (u & s1' & E1 & G1); [by split|done|]. injection E1 as _ <-. fold s1 in G1.
  assert (Er1 : g_requests s1 !! id = Some (set_q_cancelled true r)) by (unfold s1; simpl; by rewrite lookup_alter_eq, Er).
  destruct (runs_drop id _ s1 (good_ok _ _ G1) Er1) as ([] & s2 & E2 & G2).
  change (q_target (set_q_cancelled true r)) with (q_target r) in E2. rewrite E2.
  destruct (ca_req _ _ (proj2 G2) _ _ Er1) as (r2 & Er2 & Ht2 & _).
  destruct (assemble_total (set_q_cancelled true r) s2) as [[snap s3] ->].
  { apply ok_alloc, (good_ok _ _ G2). }
  { intros t Ht. destruct (proj2 (good_ok _ _ G2) _ _ Er2) as (t' & Ht' & Hd & _). rewrite Ht2 in Ht'. simpl in Ht, Ht'. by simplify_eq. }
  by eexists.
Qed.

(** ** The snapshot of a settled request is terminal *)

Lemma closure_phases_failed s ord fuel : ∀ ls memo phs,
  closure_phases fuel s ord memo ls = Some phs →
  ∀ l, l ∈ ls → n_phase (getN s l) = PhaseFailed → (l, PhaseFailed) ∈ phs.
Proof.
  induction ls as [|l ls IH]; intros memo phs; simpl; [intros _ l ?%elem_of_nil; done|].
  destruct (_ || _) eqn:Et; unfold mbind, option_bind.
  - destruct (closure_phases fuel s ord memo ls) as [r|] eqn:E; [|done]. intros [= <-] x [->|Hx]%elem_of_cons Hp; [rewrite Hp; left|].
    right. by eapply IH.
  - destruct (upstreamFailed fuel s ord memo l) as [[memo' v]|]; [|done].
    destruct (closure_phases fuel s ord memo' ls) as [r|] eqn:E; [|done]. intros [= <-] x [->|Hx]%elem_of_cons Hp.
    + by rewrite Hp in Et.
    + right. by eapply IH.
Qed.

Lemma assemble_terminal s id r snap s' :
  sched_ok s → g_requests s !! id = Some r → settled s r → assembleLocked r s = Some (snap, s') → is_terminal snap.
Proof.
  intros Hs Hr Hset. destruct (proj2 Hs _ _ Hr) as (t & Ht & Hd & _). unfold assembleLocked. rewrite Ht.
  destruct (dep_closure_spec t s (ok_alloc _ Hs) Hd) as (seen & E & _ & Hreach). unfold mbind, M_bind. rewrite E.
  unfold time_Now, mbind, M_bind, fresh_tick, getS, mret, M_ret. cbv beta iota.
  match goal with |- context [closure_phases ?f ?s1 ?o ?m ?l] => destruct (closure_phases f s1 o m l) as [phs|] eqn:Ep end; [|done].
  intros [= <- _]. unfold is_terminal. cbn [sn_Terminal]. unfold request_phase.
  destruct Hset as [->|[Hf|(t' & Ht' & Hp)]]; [done| |].
  - destruct (q_cancelled r); [done|]. destruct (String.eqb_spec (q_failReason r) ""); done.
  - rewrite Ht in Ht'. injection Ht' as <-. destruct (q_cancelled r); [done|]. destruct (negb (String.eqb (q_failReason r) "")); [done|]. rewrite Ht.
    destruct Hp as [Hp|(x & Hx & Hp)]; [rewrite bool_decide_true by exact Hp; done|].
    apply Hreach in Hx as Hx'. pose proof (closure_phases_failed _ _ _ _ _ _ Ep x Hx' Hp) as Hin.
    destruct (bool_decide _); [done|]. destruct (existsb is_failed phs.*2) eqn:Ee; [done|].
    exfalso. apply not_true_iff_false in Ee. apply Ee, existsb_exists. exists PhaseFailed. split; [|done].
    apply list_elem_of_In, list_elem_of_fmap. by exists (x, PhaseFailed).
Qed.

(** ** Pushing snapshots *)

Abbreviation snap_cache := (gmap string Snapshot).
Abbreviation reqs h := (g_requests (h_sched h)).

(** The watcher is due a terminal snapshot. *)
Definition over (h : hub) (w : watcher) : Prop :=
  is_Some (w_final w) ∨ match reqs h !! w_reqID w with None => True | Some r => settled (h_sched h) r end.

Definition cache_ok (h : hub) (cache : snap_cache) : Prop := ∀ id snap, cache !! id = Some snap →
  ∃ r, reqs h !! id = Some r ∧ (settled (h_sched h) r → is_terminal snap).

(** Only the scheduler's clock moved. *)
Record quiet_hub (h h' : hub) : Prop := { qh_chans : same_chans h h'; qh_out : outside (h_sched h) (h_sched h') }.

Lemma quiet_hub_refl h : quiet_hub h h.
Proof. split; [done|apply outside_refl]. Qed.

Lemma settled_outside s s' r : outside s s' → settled s' r ↔ settled s r.
Proof.
  intros O. unfold settled, reach, getN. by rewrite (os_heap _ _ O).
Qed.

Lemma cache_quiet h h' cache : outside (h_sched h) (h_sched h') → cache_ok h cache → cache_ok h' cache.
Proof.
  intros O Hc id snap E. destruct (Hc _ _ E) as (r & Hr & Ht). exists r. rewrite (os_reqs _ _ O). split; [done|].
  by rewrite settled_outside by done.
Qed.

Lemma over_quiet h h' w : outside (h_sched h) (h_sched h') → over h' w ↔ over h w.
Proof.
  intros O. unfold over. rewrite (os_reqs _ _ O). destruct (reqs h !! w_reqID w); [|done]. by rewrite settled_outside by done.
Qed.

Lemma snapFor_spec h cache id : hub_ok h → cache_ok h cache →
  hwp (snapFor cache id) h (λ co h', hub_ok h' ∧ quiet_hub h h' ∧ cache_ok h' co.1 ∧
    (co.2 = None ↔ reqs h !! id = None) ∧
    (∀ r snap, reqs h !! id = Some r → settled (h_sched h) r → co.2 = Some snap → is_terminal snap)).
Proof.
  intros Hh Hc. unfold snapFor. destruct (cache !! id) as [snap|] eqn:Ec.
  - apply hwp_ret. destruct (Hc _ _ Ec) as (r & Hr & Ht).
    split; [done|]. split; [apply quiet_hub_refl|]. split; [done|]. split; [simpl; by rewrite Hr|]. intros r' ? ? ? [= <-]. simplify_eq. auto.
  - apply hwp_bind, hwp_get. destruct (reqs h !! id) as [r|] eqn:Er.
    + apply hwp_bind. destruct (req_assemble _ _ _ (proj1 (proj1 Hh)) Er) as [[snap s'] E].
      eapply hwp_lift; [exact E|]. apply hwp_ret.
      assert (O : outside (h_sched h) s').
      { eapply (assemble_outside r _ (λ _ s', outside (h_sched h) s')); [done|exact E]. }
      assert (Hterm : settled (h_sched h) r → is_terminal snap) by (intros; by eapply assemble_terminal; [apply Hh| | |]).
      split; [apply lifted_ok; [apply keep_outside; [done|apply Hh]|done]|]. split; [by split|]. split; [|split; [done|]].
      * intros i sn. simpl. rewrite lookup_insert. case_decide as Hi.
        -- subst. intros [= <-]. exists r. rewrite (os_reqs _ _ O). split; [done|]. by rewrite settled_outside by done.
        -- intros Hl. by apply (cache_quiet h (lifted s' h) cache O Hc).
      * intros r' sn [= <-] Hs [= <-]. auto.
    + apply hwp_ret. split; [done|]. split; [apply quiet_hub_refl|done].
Qed.

Lemma due_spec h cache version w : hub_ok h → cache_ok h cache → (∀ f, w_final w = Some f → is_terminal f) →
  hwp (due version cache w) h (λ co h', hub_ok h' ∧ quiet_hub h h' ∧ cache_ok h' co.1 ∧
    (over h w → ∃ snap, co.2 = Some snap ∧ is_terminal snap)).
Proof.
  intros Hh Hc Hf. unfold due. destruct (w_final w) as [f|] eqn:Ef.
  - apply hwp_ret. split; [done|]. split; [apply quiet_hub_refl|]. split; [done|]. intros _. exists f. auto.
  - apply hwp_bind. eapply hwp_mono; [by apply snapFor_spec|]. intros [cache' o] h' (Hh' & Hq & Hc' & Hn & Ht). apply hwp_ret.
    split; [done|]. split; [done|]. split; [done|]. simpl in *. unfold over. rewrite Ef. intros [[? [=]]|Hov].
    enough (is_terminal (default (mkSnapshot (w_reqID w) "cancelled" (mkCounts 0 0 0 0 0) [] true "") o)) as Ht'.
    { eexists. unfold is_terminal in Ht'. rewrite Ht'. by rewrite andb_false_r. }
    destruct o as [snap|]; [|done]. destruct (reqs h !! w_reqID w) as [r|] eqn:Er; [by eapply Ht|]. destruct Hn as [_ Hn]. by specialize (Hn eq_refl).
Qed.

Lemma alter_found {A} (f : A → A) (m : gmap loc A) p x : m !! p = Some x → alter f p m = <[p := f x]> m.
Proof.
  intros E. apply map_eq. intros q. rewrite lookup_alter, lookup_insert. case_decide; [|done]. subst. by rewrite E.
Qed.

Lemma getW_found h p w : h_ws h !! p = Some w → getW h p = w.
Proof. apply lookup_total_correct. Qed.

(** Changing one watcher's object and membership. *)
Lemma chans_upd h p w' (W : gset loc) :
  chans_ok h → stream_ok w' → (p ∈ W → ch_closed (w_ch w') = false ∧ w_closed w' = false) →
  (p ∈ h_stops h → w_closed w' = false → p ∈ W) → (∀ q, q ≠ p → (q ∈ W ↔ q ∈ h_watchers h)) →
  chans_ok (set_h_watchers W (set_h_ws (<[p := w']> (h_ws h)) h)).
Proof.
  intros [C1 C2 C3 C4] Hst Hl Hs HW. split; simpl.
  - intros q w. rewrite lookup_insert. case_decide; [intros [= <-]; done|apply C1].
  - intros q Hq. destruct (decide (q = p)) as [->|Hne].
    + exists w'. rewrite lookup_insert_eq. destruct (Hl Hq). done.
    + rewrite lookup_insert_ne by done. apply C2. by apply HW.
  - intros q Hq. destruct (decide (q = p)) as [->|Hne].
    + exists w'. rewrite lookup_insert_eq. auto.
    + rewrite lookup_insert_ne by done. destruct (C3 q Hq) as (w & Hw & Hc). exists w. split; [done|]. intros ?%Hc. by apply HW.
  - apply C4.
Qed.

Definition room (w : watcher) : Prop := (length (ch_buf (w_ch w)) < ch_cap (w_ch w))%nat.

(** The watcher [w] of [h] received a terminal snapshot and nothing more. *)
Definition delivered (p : loc) (w : watcher) (h' : hub) : Prop :=
  (p ∉ h_watchers h') ∧ ∃ snap w', h_ws h' !! p = Some w' ∧ ch_closed (w_ch w') = true ∧
    ch_sent (w_ch w') = ch_sent (w_ch w) ++ [snap] ∧ is_terminal snap.

(** With room in its buffer the watcher got its terminal snapshot; a lagging
    one is left as it was, for the next tick. *)
Definition answered (p : loc) (w : watcher) (h' : hub) : Prop :=
  (room w → delivered p w h') ∧ (¬ room w → p ∈ h_watchers h' ∧ h_ws h' !! p = Some w).

Lemma answered_ext p w h h' :
  h_ws h' !! p = h_ws h !! p → (p ∈ h_watchers h' ↔ p ∈ h_watchers h) → answered p w h → answered p w h'.
Proof.
  intros E W [H1 H2]. split; [|intros Hr; rewrite E, W; by apply H2]. intros Hr. destruct (H1 Hr) as [Hn (snap & w' & Ew & ?)].
  split; [by rewrite W|]. exists snap, w'. by rewrite E.
Qed.

Definition push_ch (c : chan Snapshot) (snap : Snapshot) (closed : bool) : chan Snapshot :=
  mkChan (ch_cap c) (ch_taken c) (ch_buf c ++ [snap]) closed.

(** Sending keeps the stream well formed: nothing follows a terminal
    snapshot. *)
Lemma stream_push w snap ver closed wc : stream_ok w → ch_closed (w_ch w) = false →
  (is_terminal snap → closed = true) → stream_ok (mkWatcher (w_reqID w) (push_ch (w_ch w) snap closed) ver wc (w_final w)).
Proof.
  intros (Hcap & Hne & Ht & Hf) Ho Hc. unfold stream_ok, ch_sent in *. simpl. split_and!; [done| | |done].
  - rewrite app_assoc. intros [_ ?]%app_eq_nil. done.
  - intros pre x post E Hx. rewrite app_assoc in E. destruct post as [|y post] using rev_ind.
    + apply app_inj_tail in E as [_ <-]. auto.
    + exfalso. rewrite app_comm_cons, app_assoc in E. apply app_inj_tail in E as [E _].
      destruct (Ht _ _ _ E Hx) as [_ Hcl]. congruence.
Qed.

Lemma push_one_spec h cache version p : hub_ok h → cache_ok h cache → p ∈ h_watchers h →
  hwp (push_one version cache p) h (λ cache' h', hub_ok h' ∧ cache_ok h' cache' ∧ outside (h_sched h) (h_sched h') ∧
    (∀ q, q ≠ p → h_ws h' !! q = h_ws h !! q ∧ (q ∈ h_watchers h' ↔ q ∈ h_watchers h)) ∧
    (∀ w, h_ws h !! p = Some w → over h w → answered p w h')).
Proof.
  intros Hh Hc Hp. destruct (co_live _ (proj2 Hh) p Hp) as (w & Ew & Ho & Hwc). unfold push_one.
  apply hwp_bind, hwp_get. rewrite (getW_found _ _ _ Ew). apply hwp_bind.
  pose proof (co_stream _ (proj2 Hh) _ _ Ew) as Hst.
  eapply hwp_mono; [by apply due_spec; [| |apply Hst]|]. intros [cache' o] h1 (Hh1 & [(E1 & E2 & E3 & E4 & E5) O1] & Hc1 & Hov). simpl in *.
  assert (Hsame : ∀ q, q ≠ p → h_ws h1 !! q = h_ws h !! q ∧ (q ∈ h_watchers h1 ↔ q ∈ h_watchers h)) by (intros; by rewrite E1, E2).
  destruct o as [snap|].
  2:{ apply hwp_ret. split_and!; [done|done|done|done|]. intros w' Ew' Hov'. simplify_eq. destruct (Hov Hov') as (? & [=] & _). }
  unfold try_send. rewrite Ho. destruct (_ <? _)%nat eqn:Eroom.
  2:{ apply hwp_ret. split_and!; [done|done|done|done|]. intros w' Ew' _. simplify_eq. apply Nat.ltb_ge in Eroom.
      split; [unfold room; lia|]. intros _. by rewrite E1, E2. }
  assert (Ew1 : h_ws h1 !! p = Some w) by (by rewrite E1). assert (Hp1 : p ∈ h_watchers h1) by (by rewrite E2).
  apply hwp_bind, hwp_mod. rewrite (alter_found _ _ _ _ Ew1). destruct (sn_Terminal snap) eqn:Et.
  - apply hwp_bind, hwp_bind, hwp_mod. unfold close_watcher. apply hwp_bind, hwp_get. unfold getW. simpl. rewrite lookup_total_insert_eq. simpl.
    apply hwp_mod. simpl. rewrite (alter_found _ _ p _ (lookup_insert_eq _ _ _)), insert_insert_eq. simpl. apply hwp_ret.
    assert (Hch : chans_ok (set_h_watchers (h_watchers h1 ∖ {[p]})
      (set_h_ws (<[p := mkWatcher (w_reqID w) (push_ch (w_ch w) snap true) version true (w_final w)]> (h_ws h1)) h1))).
    { apply chans_upd; [apply Hh1|by apply stream_push|set_solver|done|set_solver]. }
    split_and!; [split; [apply Hh1|exact Hch]|done|done| |].
    + intros q Hq. simpl. rewrite lookup_insert_ne by done. rewrite E1, E2. split; [done|set_solver].
    + intros w' Ew' _. simplify_eq. split; [|intros []; by apply Nat.ltb_lt]. intros _. split; [simpl; set_solver|]. eexists snap, _. simpl. rewrite lookup_insert_eq. split_and!; [done|done| |done].
      unfold ch_sent. simpl. by rewrite app_assoc.
  - apply hwp_bind, hwp_ret, hwp_ret.
    assert (Hch : chans_ok (set_h_watchers (h_watchers h1)
      (set_h_ws (<[p := mkWatcher (w_reqID w) (push_ch (w_ch w) snap false) version (w_closed w) (w_final w)]> (h_ws h1)) h1))).
    { apply chans_upd; [apply Hh1|apply stream_push; [done|done|unfold is_terminal; congruence]|done|done|done]. }
    split_and!; [split; [apply Hh1|exact Hch]|done|done| |].
    + intros q Hq. simpl. rewrite lookup_insert_ne by done. by rewrite E1, E2.
    + intros w' Ew' Hov'. simplify_eq. destruct (Hov Hov') as (? & [= <-] & Ht). unfold is_terminal in Ht. congruence.
Qed.

Lemma push_all_spec h version : hub_ok h →
  hwp (push_all version) h (λ cache h', hub_ok h' ∧ cache_ok h' cache ∧ outside (h_sched h) (h_sched h') ∧
    (∀ p w, p ∈ h_watchers h → h_ws h !! p = Some w → over h w → answered p w h')).
Proof.
  intros Hh. unfold push_all. apply hwp_bind. unfold hwp. set (ps := map_order _ _).
  assert (Hps : ps ≡ₚ elements (h_watchers h)) by apply map_order_perm.
  change (hwp (hfold (push_one version) ∅ ps) h (λ cache h', hub_ok h' ∧ cache_ok h' cache ∧ outside (h_sched h) (h_sched h') ∧
    (∀ p w, p ∈ h_watchers h → h_ws h !! p = Some w → over h w → answered p w h'))).
  eapply hwp_mono; [apply (hwp_fold _ (λ cache l h', hub_ok h' ∧ cache_ok h' cache ∧ outside (h_sched h) (h_sched h') ∧ NoDup l ∧
    (∀ q, q ∈ l → q ∈ h_watchers h' ∧ h_ws h' !! q = h_ws h !! q) ∧
    (∀ p w, p ∈ h_watchers h → p ∉ l → h_ws h !! p = Some w → over h w → answered p w h')))|].
  - split; [done|]. split; [intros id snap; by rewrite lookup_empty|]. split; [apply outside_refl|].
    split; [rewrite Hps; apply NoDup_elements|]. split; [intros q; rewrite Hps, elem_of_elements; done|].
    intros p w Hp Hn. destruct Hn. by rewrite Hps, elem_of_elements.
  - intros cache p l h1 (Hh1 & Hc1 & O1 & [Hpl Hnd]%NoDup_cons & Hl & Hdel).
    destruct (Hl p) as [Hp1 Ew1]; [left|]. eapply hwp_mono; [by apply push_one_spec|].
    intros cache' h2 (Hh2 & Hc2 & O2 & Hoth & Hd). split; [done|]. split; [done|]. split; [by eapply outside_trans|]. split; [done|].
    split.
    + intros q Hq. destruct (Hl q) as [Hq1 Eq1]; [by right|]. destruct (Hoth q) as [E W]; [intros ->; done|].
      split; [by apply W|congruence].
    + intros q w Hq Hn Ew Hov. destruct (decide (q = p)) as [->|Hne].
      * apply Hd; [congruence|]. by rewrite over_quiet.
      * destruct (Hoth q Hne) as [E W]. apply (answered_ext _ _ h1); [done|done|]. apply (Hdel q w Hq); [set_solver|done|done].
  - intros cache h' (? & ? & ? & _ & _ & Hd). split_and!; [done|done|done|]. intros p w Hp. apply Hd; [done|apply not_elem_of_nil].
Qed.

(** What happens after the pushes leaves the channels alone. *)
Lemma mirror_spec h version cache : hub_ok h → cache_ok h cache →
  hwp (mirror version cache) h (λ _ h', hub_ok h' ∧ same_chans h h').
Proof.
  intros Hh Hc. unfold mirror. apply hwp_bind, hwp_get. destruct (_ =? _)%Z; [by apply hwp_ret|].
  apply hwp_bind, hwp_mod, hwp_bind. set (h1 := set_h_kv _ _ h). assert (Hh1 : hub_ok h1) by (split; [apply Hh|by eapply chans_ext; [|apply Hh]]).
  eapply hwp_mono; [apply (hwp_fold _ (λ acc _ h', hub_ok h' ∧ cache_ok h' acc.1 ∧ quiet_hub h h'))|].
  - split; [done|]. split; [done|]. split; [done|apply outside_refl].
  - intros acc id l h2 (Hh2 & Hc2 & [S2 O2]). unfold mirror_one. apply hwp_bind.
    eapply hwp_mono; [by apply snapFor_spec|]. intros [cache' o] h3 (Hh3 & [S3 O3] & Hc3 & _). simpl in Hc3.
    assert (Q : quiet_hub h h3).
    { split; [|by eapply outside_trans]. destruct S2 as (? & ? & ? & ? & ?), S3 as (? & ? & ? & ? & ?). unfold same_chans. split_and!; congruence. }
    destruct o as [snap|]; [|by apply hwp_ret]. apply hwp_bind, hwp_get. case_bool_decide; [by apply hwp_ret|].
    apply hwp_bind, hwp_mod, hwp_ret. split; [split; [apply Hh3|by eapply chans_ext; [|apply Hh3]]|]. split; [done|]. by destruct Q.
  - intros [cache' writes] h2 (Hh2 & _ & [S2 _]). apply hwp_bind, hwp_mod, hwp_ret.
    split; [split; [apply Hh2|by eapply chans_ext; [|apply Hh2]]|done].
Qed.

Lemma kv_put_spec id snap h : hub_ok h → hwp (kv_put id snap) h (λ _ h', hub_ok h' ∧ same_chans h h').
Proof.
  intros Hh. apply hwp_mod. split; [|done]. split; [|by eapply chans_ext; [|apply Hh]].
  pose proof (lifted_ok (set_g_out (g_out (h_sched h) ++ [EReqStatus id (sn_Phase snap) (sn_Counts snap)]) (h_sched h)) h) as HL.
  apply HL; [|done]. apply keep_outside; [apply outside_emit|apply Hh].
Qed.

Lemma hwp_runs {A} (m : M Sched A) h : hub_ok h → runs m (h_sched h) (λ _, good (h_sched h)) →
  hwp (lift m) h (λ _ h', hub_ok h' ∧ same_chans h h' ∧ calm (h_sched h) (h_sched h')).
Proof.
  intros Hh (a & s' & E & [Hk Hc]). eapply hwp_lift; [exact E|]. split; [by apply lifted_ok|]. split; [done|done].
Qed.

Lemma watchdog_spec now h : hub_ok h →
  hwp (watchdog now) h (λ _ h', hub_ok h' ∧ same_chans h h' ∧ calm (h_sched h) (h_sched h')).
Proof.
  intros Hh. unfold watchdog. apply hwp_bind, hwp_get. destruct (match h_lastCheck h with None => _ | Some t => _ end).
  - apply hwp_bind, hwp_mod. assert (Hh1 : hub_ok (set_h_lastCheck (Some now) h)) by (split; [apply Hh|by eapply chans_ext; [|apply Hh]]).
    eapply hwp_mono; [apply hwp_runs; [exact Hh1|apply watchdog_runs, Hh]|]. done.
  - apply hwp_ret. split; [done|]. split; [done|apply calm_refl].
Qed.

Lemma calm_over h h' w : calm (h_sched h) (h_sched h') → over h w → over h' w.
Proof.
  intros Hc [Hf|Hr]; [by left|right]. destruct (reqs h !! w_reqID w) as [r|] eqn:Er.
  - by destruct (calm_settled _ _ _ _ Hc Er Hr) as (r' & -> & ?).
  - by rewrite (ca_gone _ _ Hc _ Er).
Qed.

Lemma tick_spec h : hub_ok h →
  hwp tick h (λ _ h', hub_ok h' ∧ ∀ p w, p ∈ h_watchers h → h_ws h !! p = Some w → over h w → answered p w h').
Proof.
  intros Hh. unfold tick. apply hwp_bind. eapply hwp_mono; [apply hwp_runs; [done|]|].
  { apply runs_outside; [apply Hh|by eexists|]. intros a s' [= _ <-]. apply outside_tick. }
  intros now h1 (Hh1 & S1 & C1). apply hwp_bind. eapply hwp_mono; [by apply watchdog_spec|].
  intros [] h2 (Hh2 & S2 & C2). apply hwp_bind, hwp_get, hwp_bind. eapply hwp_mono; [by apply push_all_spec|].
  intros cache h3 (Hh3 & Hc3 & _ & Hd). apply hwp_bind. eapply hwp_mono; [by apply mirror_spec|].
  intros writes h4 [Hh4 S4]. eapply hwp_mono; [apply (hwp_fold _ (λ _ _ h', hub_ok h' ∧ same_chans h3 h'))|].
  - done.
  - intros _ w l h5 [Hh5 S5]. eapply hwp_mono; [by apply kv_put_spec|]. intros [] h6 [Hh6 S6]. split; [done|].
    destruct S5 as (? & ? & ? & ? & ?), S6 as (? & ? & ? & ? & ?). unfold same_chans. split_and!; congruence.
  - intros [] h5 [Hh5 S5]. split; [done|]. destruct S1 as (W1 & V1 & _), S2 as (W2 & V2 & _), S5 as (W5 & V5 & _).
    intros p w Hp Ew Hov. apply (answered_ext _ _ h3); [by rewrite W5|by rewrite V5|]. apply Hd; [by rewrite V2, V1|by rewrite W2, W1|].
    by eapply calm_over; [|eapply calm_over; [|exact Hov]].
Qed.

(** ** The other operations *)

Lemma set_same_watchers h : set_h_watchers (h_watchers h) h = h.
Proof. by destruct h. Qed.

Lemma Watch_spec id h : hub_ok h → hwp (Watch id) h (λ r h', hub_ok h' ∧
  ∀ p b, r = Ok (p, b) → ∃ w snap, h_ws h' !! p = Some w ∧ ch_sent (w_ch w) = [snap] ∧ w_reqID w = id ∧
    (if b then p ∈ h_watchers h' ∧ p ∈ h_stops h' else ch_closed (w_ch w) = true ∧ is_terminal snap)).
Proof.
  intros Hh. unfold Watch. apply hwp_bind, hwp_get. destruct (reqs h !! id) as [r|] eqn:Er; [|by apply hwp_ret].
  apply hwp_bind. eapply hwp_mono; [apply hwp_lift_ok with (Q := λ _ h', hub_ok h')|].
  { done. } { by eapply req_assemble; [apply Hh|]. } { apply assemble_keep, Hh. } { done. }
  intros snap h1 Hh1. apply hwp_bind, hwp_get. set (p := fresh (dom (h_ws h1))).
  assert (Hp : h_ws h1 !! p = None) by (apply not_elem_of_dom, is_fresh). 
  change (try_send snap (make_chan watchBuf)) with (SSent (mkChan 8 [] [snap] false)). cbv iota beta.
  set (w := mkWatcher id (mkChan 8 [] [snap] false) (g_version (h_sched h)) false None).
  assert (Hnp : p ∉ h_watchers h1).
  { intros (w' & Ew' & _)%(co_live _ (proj2 Hh1)). congruence. }
  assert (Hns : p ∉ h_stops h1).
  { intros (w' & Ew' & _)%(co_stop _ (proj2 Hh1)). congruence. }
  assert (Hst : ∀ closed, (is_terminal snap → closed = true) → stream_ok (mkWatcher id (mkChan 8 [] [snap] closed) (g_version (h_sched h)) false None)).
  { intros closed Hc. unfold stream_ok, ch_sent. simpl. split_and!; [done|done| |done]. intros [|y pre] x post E Hx; [injection E as <- <-; auto|].
    injection E as _ E. by destruct pre. }
  apply hwp_bind, hwp_mod. destruct (sn_Terminal snap) eqn:Et.
  - cbn [close_chan ch_closed ch_cap ch_taken ch_buf]. apply hwp_bind, hwp_mod, hwp_ret. simpl.
    rewrite (alter_found _ _ p w (lookup_insert_eq _ _ _)), insert_insert_eq. split.
    + split; [apply Hh1|]. eapply chans_ext; [|apply (chans_upd h1 p (mkWatcher id (mkChan 8 [] [snap] true) (g_version (h_sched h)) false None) (h_watchers h1))].
      * unfold same_chans. simpl. done.
      * apply Hh1. * by apply Hst. * done. * done. * done.
    + intros p' b [= <- <-]. eexists _, snap. simpl. rewrite lookup_insert_eq. done.
  - apply hwp_bind, hwp_mod, hwp_bind, hwp_mod, hwp_ret. split.
    + split; [apply Hh1|]. pose proof (chans_upd h1 p w ({[p]} ∪ h_watchers h1) (proj2 Hh1)) as [C1 C2 C3 C4].
      { apply Hst. unfold is_terminal. congruence. } { done. } { set_solver. } { set_solver. }
      split; simpl in *; [exact C1|exact C2| |exact C4]. intros q [->%elem_of_singleton|Hq]%elem_of_union; [|by apply C3].
      exists w. rewrite lookup_insert_eq. split; [done|set_solver].
    + intros p' b [= <- <-]. exists w, snap. simpl. rewrite lookup_insert_eq. set_solver.
Qed.

Lemma close_watcher_spec h p w W : chans_ok h → h_ws h !! p = Some w → ch_closed (w_ch w) = false →
  (∀ q, q ≠ p → (q ∈ W ↔ q ∈ h_watchers h)) → (p ∉ W) →
  hwp (close_watcher p) (set_h_watchers W h) (λ _ h', chans_ok h' ∧ h_watchers h' = W ∧ h_cfg h' = h_cfg h ∧
    h_stops h' = h_stops h ∧ h_fs h' = h_fs h ∧ h_logSubs h' = h_logSubs h ∧ ∀ q, q ≠ p → h_ws h' !! q = h_ws h !! q).
Proof.
  intros Hc Ew Ho HW Hp. unfold close_watcher. apply hwp_bind, hwp_get. rewrite (getW_found (set_h_watchers W h) _ _ Ew).
  unfold close_chan. rewrite Ho. apply hwp_mod. simpl. rewrite (alter_found _ _ _ _ Ew). split; [|split_and!; try done; intros q Hq; by rewrite lookup_insert_ne].
  destruct (co_stream _ Hc _ _ Ew) as (Hcap & Hne & Ht & Hf).
  eapply chans_ext; [|apply (chans_upd h p (mkWatcher (w_reqID w) (mkChan (ch_cap (w_ch w)) (ch_taken (w_ch w)) (ch_buf (w_ch w)) true) (w_lastVer w) true (w_final w)) W)].
  - done. - done. - unfold stream_ok. split_and!; [done|done| |done]. intros pre x post E Hx. split; [by eapply Ht|done]. - done. - done. - done.
Qed.

Lemma stop_watch_spec p h : hub_ok h → p ∈ h_stops h → hwp (stop_watch p) h (λ _, hub_ok).
Proof.
  intros Hh Hp. unfold stop_watch. apply hwp_bind, hwp_get. destruct (co_stop _ (proj2 Hh) p Hp) as (w & Ew & Hw).
  rewrite (getW_found _ _ _ Ew). destruct (w_closed w) eqn:Ec; [by apply hwp_ret|].
  destruct (co_live _ (proj2 Hh) p (Hw eq_refl)) as (w' & Ew' & Ho & _). simplify_eq.
  apply hwp_bind, hwp_mod. eapply hwp_mono; [apply (close_watcher_spec h p w (h_watchers h ∖ {[p]})); [apply Hh|done|done|set_solver|set_solver]|].
  intros [] h' (Hc & _ & E & _). split; [rewrite E; apply Hh|done].
Qed.

Lemma Delete_final id s : wp (Delete id) s (λ r _, ∀ f, r = Ok f → is_terminal f).
Proof.
  unfold Delete. apply wp_bind, wp_get. destruct (g_requests s !! id); [|by apply wp_ret].
  do 2 (apply wp_bind; intros [] ? _). apply wp_bind. intros snap ? _. do 3 (apply wp_bind; intros [] ? _).
  apply wp_ret. by intros f [= <-].
Qed.

Lemma hub_Delete_spec id h : hub_ok h → hwp (hub_Delete id) h (λ _, hub_ok).
Proof.
  intros Hh. unfold hub_Delete. apply hwp_bind. eapply hwp_lift_ok; [done|apply Delete_runs, Hh|apply Delete_keep, Hh|].
  intros r s' E Hh1. destruct r as [f|e]; [|by apply hwp_ret]. apply hwp_bind, hwp_get, hwp_bind, hwp_mod, hwp_ret.
  pose proof (Delete_final id (h_sched h) _ _ E f eq_refl) as Hf. destruct Hh1 as [Hcf [C1 C2 C3 C4]]. split; [done|].
  set (g := λ p w, _ : option watcher). assert (Hl : ∀ p, map_imap g (h_ws (lifted s' h)) !! p = h_ws (lifted s' h) !! p ≫= g p) by (intros; apply map_lookup_imap).
  assert (Hg : ∀ p w, ∃ w', g p w = Some w' ∧ w_ch w' = w_ch w ∧ w_closed w' = w_closed w ∧ (w_final w' = w_final w ∨ w_final w' = Some f)).
  { intros p w. unfold g. destruct (_ && _); eexists; split_and!; try done; simpl; auto. }
  split; simpl in *.
  - intros p w. rewrite Hl. destruct (h_ws h !! p) as [w0|] eqn:E0; [|done]. simpl. destruct (Hg p w0) as (w' & -> & Ec & _ & Hfin).
    intros [= <-]. destruct (C1 _ _ E0) as (S1 & S2 & S3 & S4). unfold stream_ok. rewrite Ec. split_and!; [done|done|done|].
    intros f' Ef. destruct Hfin as [Hfin|Hfin]; [apply S4; congruence|]. rewrite Hfin in Ef. by injection Ef as <-.
  - intros p Hp. destruct (C2 p Hp) as (w & Ew & Ho & Hc). destruct (Hg p w) as (w' & Eg & Ec & Ecl & _).
    exists w'. rewrite Hl, Ew. simpl. rewrite Eg. split; [done|]. rewrite Ec, Ecl. done.
  - intros p Hp. destruct (C3 p Hp) as (w & Ew & Hc). destruct (Hg p w) as (w' & Eg & Ec & Ecl & _).
    exists w'. rewrite Hl, Ew. simpl. rewrite Eg. split; [done|]. by rewrite Ecl.
  - done.
Qed.

(** ** Log followers *)

Lemma getF_found h p f : h_fs h !! p = Some f → getF h p = f.
Proof. apply lookup_total_correct. Qed.

(** A follower's object changes but stays open if it is registered. *)
Lemma chans_upd_f h p f f' : chans_ok h → h_fs h !! p = Some f → f_node f' = f_node f →
  (ch_closed (f_ch f) = false → ch_closed (f_ch f') = false) → chans_ok (set_h_fs (<[p := f']> (h_fs h)) h).
Proof.
  intros [C1 C2 C3 C4] Ef En Ho. split; simpl; [done..|]. intros name ps q Hs Hq.
  destruct (C4 _ _ _ Hs Hq) as (g & Eg & Hn & Hg). destruct (decide (q = p)) as [->|Hne].
  - simplify_eq. exists f'. rewrite lookup_insert_eq. auto.
  - exists g. by rewrite lookup_insert_ne.
Qed.

Lemma Logs_spec name follow h : hub_ok h → hwp (Logs name follow) h (λ r h', hub_ok h' ∧
  ∀ view p, r = Ok (view, Some p) → view = log_view (h_sched h) name ∧ p ∈ default ∅ (h_logSubs h' !! name) ∧
    h_fs h' !! p = Some (mkFollower name (make_chan followBuf) false)).
Proof.
  intros Hh. unfold Logs. destruct (ParseNodeName name) as [nid|]; [|by apply hwp_ret]. apply hwp_bind, hwp_get.
  destruct follow; simpl; [|by apply hwp_ret]. set (p := fresh (dom (h_fs h))).
  assert (Hp : h_fs h !! p = None) by (apply not_elem_of_dom, is_fresh).
  apply hwp_bind, hwp_mod, hwp_bind, hwp_mod, hwp_ret. split.
  - destruct Hh as [Hcf [C1 C2 C3 C4]]. split; [done|]. split; simpl; [done..|]. intros n ps q. rewrite lookup_insert. case_decide as Hn.
    + subst. intros [= <-] [Hq%elem_of_singleton|Hq]%elem_of_union; [rewrite Hq; eexists; by rewrite lookup_insert_eq|].
      destruct (h_logSubs h !! n) as [ps|] eqn:Es; [|set_solver]. destruct (C4 _ _ _ Es Hq) as (f & Ef & ?). exists f.
      rewrite lookup_insert_ne by congruence. done.
    + intros Es Hq. destruct (C4 _ _ _ Es Hq) as (f & Ef & ?). exists f. rewrite lookup_insert_ne by congruence. done.
  - intros view q [= <- <-]. simpl. rewrite !lookup_insert_eq. simpl. split_and!; [done|set_solver|done].
Qed.

Lemma drop_sub_lookup name p m n ps : drop_sub name p m !! n = Some ps →
  ∃ ps0, m !! n = Some ps0 ∧ ps ⊆ ps0 ∧ (n = name → p ∉ ps).
Proof.
  unfold drop_sub. destruct (m !! name) as [set|] eqn:E; [|intros H; exists ps; split_and!; [done|done|congruence]].
  case_bool_decide.
  - rewrite lookup_delete. case_decide; [done|]. intros H1. exists ps. split_and!; [done|done|congruence].
  - rewrite lookup_insert. case_decide; [|intros H1; exists ps; split_and!; [done|done|congruence]].
    subst. intros [= <-]. exists set. set_solver.
Qed.

Lemma stop_follow_spec p h : hub_ok h → is_Some (h_fs h !! p) → hwp (stop_follow p) h (λ _, hub_ok).
Proof.
  intros Hh [f Ef]. unfold stop_follow. apply hwp_bind, hwp_get. rewrite (getF_found _ _ _ Ef).
  destruct (f_stopped f); [by apply hwp_ret|]. apply hwp_bind, hwp_mod. rewrite (alter_found _ _ _ _ Ef).
  set (f1 := mkFollower _ _ true). assert (Hc1 : chans_ok (set_h_fs (<[p := f1]> (h_fs h)) h)) by (by eapply chans_upd_f; [apply Hh|done|done|]).
  case_bool_decide as Hin; [|by apply hwp_ret; split; [apply Hh|]]. simpl in Hin.
  destruct (h_logSubs h !! f_node f) as [ps|] eqn:Es; [|set_solver]. simpl in Hin.
  destruct (co_subs _ (proj2 Hh) _ _ _ Es Hin) as (f' & Ef' & _ & Ho). simplify_eq.
  apply hwp_bind, hwp_mod. unfold close_follower. apply hwp_bind, hwp_get. unfold getF. simpl. rewrite lookup_total_insert_eq. simpl.
  unfold close_chan. rewrite Ho. apply hwp_mod. simpl. rewrite (alter_found _ _ p f1 (lookup_insert_eq _ _ _)), insert_insert_eq.
  split; [apply Hh|]. destruct Hc1 as [C1 C2 C3 C4]. split; simpl in *; [done..|]. intros n qs q Hs Hq.
  destruct (drop_sub_lookup _ _ _ _ _ Hs) as (ps0 & Es0 & Hsub & Hn). destruct (co_subs _ (proj2 Hh) _ _ q Es0) as (g & Eg & Hgn & Hgo); [set_solver|].
  destruct (decide (q = p)) as [->|Hne]; [|exists g; by rewrite lookup_insert_ne]. simplify_eq. by destruct (Hn eq_refl).
Qed.

(** The fan-out reaches every registered follower with room, and only those. *)
Definition fanned (c : LogChunk) (f f' : follower) : Prop :=
  f_node f' = f_node f ∧ ch_closed (f_ch f') = ch_closed (f_ch f) ∧ ch_cap (f_ch f') = ch_cap (f_ch f) ∧
  ch_sent (f_ch f') = if decide (length (ch_buf (f_ch f)) < ch_cap (f_ch f))%nat then ch_sent (f_ch f) ++ [c] else ch_sent (f_ch f).

Lemma fan_one_spec c p f h : hub_ok h → h_fs h !! p = Some f → ch_closed (f_ch f) = false →
  hwp (fan_one c p) h (λ _ h', hub_ok h' ∧ h_logSubs h' = h_logSubs h ∧ (∀ q, q ≠ p → h_fs h' !! q = h_fs h !! q) ∧
    ∃ f', h_fs h' !! p = Some f' ∧ fanned c f f').
Proof.
  intros Hh Ef Ho. unfold fan_one. apply hwp_bind, hwp_get. rewrite (getF_found _ _ _ Ef). unfold try_send. rewrite Ho.
  destruct (_ <? _)%nat eqn:Er.
  - apply Nat.ltb_lt in Er. apply hwp_mod. rewrite (alter_found _ _ _ _ Ef). simpl. split; [split; [apply Hh|by eapply chans_upd_f; [apply Hh|..]]|].
    split; [done|]. split; [intros q Hq; by rewrite lookup_insert_ne|]. eexists. rewrite lookup_insert_eq. split; [done|].
    unfold fanned, ch_sent. simpl. rewrite decide_True by done. by rewrite Ho, app_assoc.
  - apply Nat.ltb_ge in Er. apply hwp_ret. split; [done|]. split; [done|]. split; [done|]. exists f. split; [done|]. unfold fanned.
    rewrite decide_False by lia. done.
Qed.

Lemma onLogChunk_total subject chunk s : is_Some (onLogChunk subject chunk s).
Proof.
  unfold onLogChunk. destruct (CutPrefix subject "logs.") as [name|], chunk as [c|]; try by eexists.
  destruct (String.eqb name ""); [by eexists|]. unfold mbind, M_bind.
  destruct (fold_chunk name c s) as [[[] s1]|] eqn:E.
  - simpl. destruct (ParseNodeName name) as [id|]; [|by eexists]. unfold mbind, M_bind. simpl.
    destruct (g_nodes _ !! id); [|by eexists]. destruct (_ && _); by eexists.
  - unfold fold_chunk, mbind, M_bind in E. simpl in E. destruct (g_logs s !! name) as [lb|]; [|done]. by destruct (_ <? _)%Z.
Qed.

Lemma hub_onLogChunk_spec subject chunk h : hub_ok h → hwp (hub_onLogChunk subject chunk) h (λ _ h', hub_ok h' ∧
  ∀ name c p f, CutPrefix subject "logs." = Some name → chunk = Some c → name ≠ "" →
    p ∈ default ∅ (h_logSubs h !! name) → h_fs h !! p = Some f → ∃ f', h_fs h' !! p = Some f' ∧ fanned c f f').
Proof.
  intros Hh. unfold hub_onLogChunk. apply hwp_bind.
  eapply hwp_lift_ok; [done|apply onLogChunk_total|apply onLogChunk_keep, Hh|]. intros [] s' _ Hh1.
  destruct (CutPrefix subject "logs.") as [name|]; [|by apply hwp_ret]. destruct chunk as [c|]; [|by apply hwp_ret].
  destruct (String.eqb_spec name "") as [->|Hn]; [by apply hwp_ret; split; [|intros ? ? ? ? [= <-]]|]. apply hwp_bind, hwp_get.
  change (h_logSubs (lifted s' h)) with (h_logSubs h). set (ps := default ∅ (h_logSubs h !! name)). set (h1 := lifted s' h) in *.
  assert (Hreg : ∀ q, q ∈ ps → ∃ f, h_fs h !! q = Some f ∧ ch_closed (f_ch f) = false).
  { intros q Hq. unfold ps in Hq. destruct (h_logSubs h !! name) as [ps'|] eqn:Es; [|set_solver].
    destruct (co_subs _ (proj2 Hh) _ _ _ Es Hq) as (f & ? & _ & ?). eauto. }
  eapply hwp_mono; [apply (hwp_fold _ (λ _ l h', hub_ok h' ∧ NoDup l ∧ (∀ q, q ∈ l → q ∈ ps ∧ h_fs h' !! q = h_fs h !! q) ∧
    (∀ p f, p ∈ ps → p ∉ l → h_fs h !! p = Some f → ∃ f', h_fs h' !! p = Some f' ∧ fanned c f f')))|].
  - split; [done|]. split; [apply NoDup_elements|]. split; [intros q Hq%elem_of_elements; done|].
    intros p f Hp Hnp. destruct Hnp. by apply elem_of_elements.
  - intros _ q l h2 (Hh2 & [Hql Hnd]%NoDup_cons & Hl & Hd). destruct (Hl q) as [Hq Eq]; [left|].
    destruct (Hreg q Hq) as (f & Ef & Ho). eapply hwp_mono; [apply (fan_one_spec c q f); [done|congruence|done]|].
    intros [] h3 (Hh3 & _ & Hoth & f' & Ef' & Hf). split; [done|]. split; [done|]. split.
    + intros x Hx. destruct (Hl x) as [? Ex]; [by right|]. split; [done|]. rewrite Hoth; [done|]. intros ->. done.
    + intros x g Hx Hnx Eg. destruct (decide (x = q)) as [->|Hne]; [simplify_eq; eauto|].
      destruct (Hd x g Hx) as (g' & Eg' & ?); [set_solver|done|]. exists g'. by rewrite Hoth.
  - intros [] h2 (Hh2 & _ & _ & Hd). split; [done|]. intros name' c' p f [= <-] [= <-] _ Hp Ef. apply Hd; [done|apply not_elem_of_nil|done].
Qed.

(** ** Closing the scheduler *)

Lemma close_watcher_frame p W h (Q : unit → hub → Prop) :
  hwp (close_watcher p) (set_h_watchers W h) Q → hwp (close_watcher p) h (λ a h', Q a (set_h_watchers W h')).
Proof. unfold hwp, close_watcher, mbind, H_bind, getH, getW. simpl. by destruct (close_chan (w_ch (h_ws h !!! p))). Qed.

Lemma close_watchers_spec h : hub_ok h →
  hwp (hfold (λ _ p, h ← getH; if w_closed (getW h p) then mret tt else close_watcher p) tt (elements (h_watchers h))) h
    (λ _ h', cfg_okG GN (h_cfg h') ∧ chans_ok (set_h_watchers ∅ h') ∧ h_logSubs h' = h_logSubs h).
Proof.
  intros Hh. eapply hwp_mono; [apply (hwp_fold _ (λ _ l h', cfg_okG GN (h_cfg h') ∧ chans_ok (set_h_watchers (list_to_set l) h') ∧
    h_logSubs h' = h_logSubs h ∧ NoDup l))|].
  - split; [apply Hh|]. split; [rewrite list_to_set_elements_L, set_same_watchers; apply Hh|]. split; [done|apply NoDup_elements].
  - intros _ p l h1 (Hcf & Hc & El & [Hp Hnd]%NoDup_cons). apply hwp_bind, hwp_get.
    destruct (co_live _ Hc p) as (w & Ew & Ho & Hwc); [simpl; set_solver|]. simpl in Ew. rewrite (getW_found _ _ _ Ew), Hwc.
    pose proof (close_watcher_spec (set_h_watchers (list_to_set (p :: l)) h1) p w (list_to_set l) Hc Ew Ho) as Hcl.
    eapply hwp_mono; [apply (close_watcher_frame p (list_to_set l)); apply Hcl; simpl; set_solver|].
    intros [] h2 (Hc2 & _ & E2 & _ & _ & El2 & _). simpl in *. rewrite E2. split; [done|]. split; [done|]. split; [congruence|done].
  - intros [] h1 (? & ? & ? & _). done.
Qed.

Lemma subs_nodup (node : loc → option string) (L : list (string * gset loc)) :
  NoDup L.*1 → (∀ n ps p, (n, ps) ∈ L → p ∈ ps → node p = Some n) → NoDup (x ← L.*2; elements x).
Proof.
  induction L as [|[n ps] L IH]; intros Hnd Hn; [constructor|]. apply NoDup_cons in Hnd as [Hni Hnd]. apply NoDup_app. split_and!.
  - apply NoDup_elements.
  - intros p Hp%elem_of_elements (qs & Hq%elem_of_elements & Hin)%list_elem_of_bind. apply Hni.
    apply list_elem_of_fmap in Hin as ([n' qs'] & -> & Hin). simpl in *.
    pose proof (Hn n ps p ltac:(left) Hp) as E1. pose proof (Hn n' qs' p ltac:(by right) Hq) as E2. rewrite E1 in E2. injection E2 as ->.
    apply list_elem_of_fmap. by exists (n', qs').
  - apply IH; [done|]. intros n' qs p Hin. apply Hn. by right.
Qed.

Lemma close_follower_spec h p f : chans_ok (set_h_logSubs ∅ h) → h_fs h !! p = Some f → ch_closed (f_ch f) = false →
  hwp (close_follower p) h (λ _ h', chans_ok (set_h_logSubs ∅ h') ∧ h_cfg h' = h_cfg h ∧ ∀ q, q ≠ p → h_fs h' !! q = h_fs h !! q).
Proof.
  intros Hc Ef Ho. unfold close_follower. apply hwp_bind, hwp_get. rewrite (getF_found _ _ _ Ef). unfold close_chan. rewrite Ho.
  apply hwp_mod. rewrite (alter_found _ _ _ _ Ef). split; [|split; [done|intros q Hq; simpl; by rewrite lookup_insert_ne]].
  destruct Hc as [C1 C2 C3 C4]. split; [done..|]. intros n ps q. simpl. by rewrite lookup_empty.
Qed.

Lemma hub_Close_spec h : hub_ok h → hwp hub_Close h (λ _, hub_ok).
Proof.
  intros Hh. unfold hub_Close. apply hwp_bind, hwp_get, hwp_bind. eapply hwp_mono; [by apply close_watchers_spec|].
  intros [] h1 (Hcf & Hc & El). apply hwp_bind, hwp_mod, hwp_bind. set (h2 := set_h_watchers ∅ h1). fold h2 in Hc.
  assert (Hsub : ∀ n ps p, (n, ps) ∈ map_to_list (h_logSubs h) → p ∈ ps → ∃ f, h_fs h2 !! p = Some f ∧ f_node f = n ∧ ch_closed (f_ch f) = false).
  { intros n ps p Hin%elem_of_map_to_list. apply (co_subs _ Hc). by rewrite <- Hin; simpl; rewrite El. }
  eapply hwp_mono; [apply (hwp_fold _ (λ _ l h', cfg_okG GN (h_cfg h') ∧ chans_ok (set_h_logSubs ∅ h') ∧ NoDup l ∧
    ∀ q, q ∈ l → ∃ f, h_fs h' !! q = Some f ∧ ch_closed (f_ch f) = false))|].
  - split; [done|]. split; [destruct Hc as [C1 C2 C3 C4]; split; [done..|]; intros n ps q; simpl; by rewrite lookup_empty|]. split.
    + apply (subs_nodup (λ p, f_node <$> h_fs h2 !! p)); [apply NoDup_fst_map_to_list|].
      intros n ps p Hin Hp. destruct (Hsub _ _ _ Hin Hp) as (f & -> & <- & _). done.
    + intros q (ps & Hq%elem_of_elements & ([n ps'] & -> & Hin)%list_elem_of_fmap)%list_elem_of_bind.
      destruct (Hsub _ _ _ Hin Hq) as (f & ? & _ & ?). eauto.
  - intros _ p l h3 (Hcf3 & Hc3 & [Hp Hnd]%NoDup_cons & Hl). destruct (Hl p) as (f & Ef & Ho); [left|].
    eapply hwp_mono; [by apply (close_follower_spec h3 p f)|]. intros [] h4 (Hc4 & E4 & Hoth). rewrite E4.
    split; [done|]. split; [done|]. split; [done|]. intros q Hq. destruct (Hl q) as (g & Eg & ?); [by right|].
    exists g. rewrite Hoth; [done|]. intros ->. done.
  - intros [] h3 (Hcf3 & Hc3 & _). by apply hwp_mod.
Qed.

(** ** The system *)

(** What callers and goroutines do; a stop function runs at most once per
    call, and only for what it was handed out for. *)
Inductive hub_op (h : hub) : H unit → Prop :=
  | op_watch id : hub_op h (Watch id;; mret tt)
  | op_stop p : p ∈ h_stops h → hub_op h (stop_watch p)
  | op_delete id : hub_op h (hub_Delete id;; mret tt)
  | op_tick : hub_op h tick
  | op_logs name follow : hub_op h (Logs name follow;; mret tt)
  | op_unfollow p : is_Some (h_fs h !! p) → hub_op h (stop_follow p)
  | op_chunk subject chunk : hub_op h (hub_onLogChunk subject chunk)
  | op_close : hub_op h hub_Close.

(** Besides, the scheduler's own handlers run, and readers take what was
    sent. *)
Inductive hub_step : hub → hub → Prop :=
  | hs_op h m h' : hub_op h m → m h = RRet tt h' → hub_step h h'
  | hs_sched h c : step (h_cfg h) c →
      hub_step h (set_h_kv (h_lastKVVersion h) (note_statuses (g_out (h_sched h)) (g_out (c_sched c)) (h_lastReqKV h)) (set_h_cfg c h))
  | hs_read h p w x ch : h_ws h !! p = Some w → take_chan (w_ch w) = Some (x, ch) →
      hub_step h (set_h_ws (<[p := mkWatcher (w_reqID w) ch (w_lastVer w) (w_closed w) (w_final w)]> (h_ws h)) h)
  | hs_read_log h p f x ch : h_fs h !! p = Some f → take_chan (f_ch f) = Some (x, ch) →
      hub_step h (set_h_fs (<[p := mkFollower (f_node f) ch (f_stopped f)]> (h_fs h)) h).

Definition hub_reachable (h : hub) : Prop := ∃ st, rtc hub_step (new_hub (initial st)) h.

Lemma hub_op_total h m : hub_ok h → hub_op h m → hwp m h (λ _, hub_ok).
Proof.
  intros Hh [].
  - apply hwp_bind. eapply hwp_mono; [by apply Watch_spec|]. by intros r h' [? _].
  - by apply stop_watch_spec.
  - apply hwp_bind. eapply hwp_mono; [by apply hub_Delete_spec|]. done.
  - eapply hwp_mono; [by apply tick_spec|]. by intros r h' [? _].
  - apply hwp_bind. eapply hwp_mono; [by apply Logs_spec|]. by intros r h' [? _].
  - by apply stop_follow_spec.
  - eapply hwp_mono; [by apply hub_onLogChunk_spec|]. by intros r h' [? _].
  - by apply hub_Close_spec.
Qed.

Lemma take_sent {A} (c : chan A) x c' : take_chan c = Some (x, c') →
  ch_sent c' = ch_sent c ∧ ch_closed c' = ch_closed c ∧ ch_cap c' = ch_cap c.
Proof.
  unfold take_chan, ch_sent. destruct (ch_buf c); [done|]. intros [= <- <-]. simpl. by rewrite <- app_assoc.
Qed.

Lemma Cancel_settles id r s : sched_ok s → g_requests s !! id = Some r →
  ∃ s' r', Cancel id s = Some (Ok tt, s') ∧ g_requests s' !! id = Some r' ∧ q_cancelled r' = true.
Proof.
  intros Hs Hr. unfold Cancel, mbind, M_bind. simpl. rewrite Hr. destruct (q_cancelled r) eqn:Ec; [by exists s, r|].
  cbn [upd_req modS]. set (s1 := set_g_requests _ s).
  destruct (runs_upd_req id (set_q_cancelled true) s) as (u & s1' & E1 & G1); [by split|done|]. injection E1 as _ <-. fold s1 in G1.
  assert (Er1 : g_requests s1 !! id = Some (set_q_cancelled true r)) by (unfold s1; simpl; by rewrite lookup_alter_eq, Hr).
  destruct (runs_drop id _ s1 (good_ok _ _ G1) Er1) as ([] & s2 & E2 & G2).
  change (q_target (set_q_cancelled true r)) with (q_target r) in E2. rewrite E2.
  destruct (ca_req _ _ (proj2 G2) _ _ Er1) as (r2 & Er2 & Ht2 & Hc2 & _).
  destruct (assemble_total (set_q_cancelled true r) s2) as [[snap s3] E3].
  { apply ok_alloc, (good_ok _ _ G2). }
  { intros t Ht. destruct (proj2 (good_ok _ _ G2) _ _ Er2) as (t' & Ht' & Hd & _). rewrite Ht2 in Ht'. simpl in Ht, Ht'. by simplify_eq. }
  assert (O3 : outside s2 s3) by (eapply (assemble_outside _ s2 (λ _ s', outside s2 s')); [done|exact E3]).
  rewrite E3. eexists _, r2. split; [done|]. simpl. rewrite (os_reqs _ _ O3). split; [done|]. by apply Hc2.
Qed.

(** Receiving from a channel keeps the invariant. *)
Lemma hub_read_ok h p w x ch : hub_ok h → h_ws h !! p = Some w → take_chan (w_ch w) = Some (x, ch) →
  hub_ok (set_h_ws (<[p := mkWatcher (w_reqID w) ch (w_lastVer w) (w_closed w) (w_final w)]> (h_ws h)) h).
Proof.
  intros Hh Ew Et. split; [apply Hh|]. destruct (take_sent _ _ _ Et) as (Es & Ec & Ecap).
  eapply chans_ext; [|eapply (chans_upd h p _ (h_watchers h))]; [done|apply Hh|..].
  - destruct (co_stream _ (proj2 Hh) _ _ Ew) as (? & ? & ? & ?). unfold stream_ok. simpl. rewrite Es, Ec, Ecap. done.
  - simpl. intros Hp. destruct (co_live _ (proj2 Hh) p Hp) as (w' & ? & ? & ?). simplify_eq. by rewrite Ec.
  - simpl. intros Hp. destruct (co_stop _ (proj2 Hh) p Hp) as (w' & ? & ?). by simplify_eq.
  - done.
Qed.

Lemma hub_read_log_ok h p f x ch : hub_ok h → h_fs h !! p = Some f → take_chan (f_ch f) = Some (x, ch) →
  hub_ok (set_h_fs (<[p := mkFollower (f_node f) ch (f_stopped f)]> (h_fs h)) h).
Proof.
  intros Hh Ef Et. split; [apply Hh|]. destruct (take_sent _ _ _ Et) as (Es & Ec & Ecap).
  by eapply chans_upd_f; [apply Hh|done|done|simpl; rewrite Ec].
Qed.
End WatchFacts.

Section WatchClaims.
Context `{SE0 : SchedEnv}.

Lemma hub_step_ok h h' : hub_step h h' → (∃ D : Gone, hub_ok h) → ∃ D : Gone, hub_ok h'.
Proof.
  intros [h0 m h1 Hop E|h0 c Hs|h0 p w x ch Ew Et|h0 p f x ch Ef Et] [D Hh].
  - exists D. pose proof (hub_op_total _ _ Hh Hop) as H. unfold hwp in H. by rewrite E in H.
  - destruct (step_ok _ _ Hs (ex_intro _ D (proj1 Hh))) as [[D' Hc] _]. exists D'. split; [done|]. by eapply chans_ext; [|apply Hh].
  - exists D. by apply (hub_read_ok _ _ _ x).
  - exists D. by apply (hub_read_log_ok _ _ _ x).
Qed.

Lemma hub_reachable_ok h : hub_reachable h → ∃ D : Gone, hub_ok h.
Proof.
  intros [st Hr]. assert (H0 : ∃ D : Gone, hub_ok (new_hub (initial st))).
  { exists (∅ : gset loc). split; [apply initial_ok|]. split; simpl; [by intros p w|set_solver..|]. intros n ps p. by rewrite lookup_empty. }
  revert H0. induction Hr as [|h1 h2 h3 Hs _ IH]; [done|]. intros H0. by apply IH, (hub_step_ok _ _ Hs).
Qed.

(** Runs of the scheduler are runs of the hub. *)
Lemma sched_hub c c' : rtc step c c' → ∀ h, h_cfg h = c → ∃ h', rtc hub_step h h' ∧ h_cfg h' = c' ∧ same_chans h h'.
Proof.
  induction 1 as [c|c c1 c' Hs _ IH]; intros h E; [exists h; split; [constructor|done]|].
  subst c. pose proof (hs_sched h c1 Hs) as Hh. match type of Hh with hub_step _ ?h1 => destruct (IH h1 eq_refl) as (h' & Hr & Ec & Hsame) end.
  exists h'. split; [by eapply rtc_l|]. done.
Qed.

(** [C5] Watch streams and log followers are safe whatever the interleaving:
    in every reachable state every operation returns without a panic (no send
    on a closed channel, none closed twice), and in every stream a terminal
    snapshot is the last one and has closed the channel. *)
Theorem watch_safe h : hub_reachable h →
  (∀ m, hub_op h m → ∃ h', m h = RRet tt h') ∧
  (∀ p w pre x post, h_ws h !! p = Some w → ch_sent (w_ch w) = pre ++ x :: post → is_terminal x →
     post = [] ∧ ch_closed (w_ch w) = true).
Proof.
  intros [D Hh]%hub_reachable_ok. split.
  - intros m Hm. pose proof (hub_op_total _ _ Hh Hm) as H. unfold hwp in H. destruct (m h) as [| |[] h']; [done|done|by exists h'].
  - intros p w pre x post Ew. by apply (co_stream _ (proj2 Hh) _ _ Ew).
Qed.

(** The terminal snapshot arrives: once a watched request was cancelled,
    failed, deleted, or its target is done or a node of its closure failed,
    the next tick completes and sends every watcher of it that has room one
    terminal snapshot, closes its channel and lets go of it. *)
Theorem watch_delivers h p w : hub_reachable h →
  p ∈ h_watchers h → h_ws h !! p = Some w → over h w → room w →
  ∃ h', tick h = RRet tt h' ∧ delivered p w h'.
Proof.
  intros [D Hh]%hub_reachable_ok Hp Ew Hov Hr. pose proof (tick_spec h Hh) as H. unfold hwp in H.
  destruct (tick h) as [| |[] h']; [done|done|]. exists h'. split; [done|]. by apply H.
Qed.
End WatchClaims.

(** * A watched request, from submission to its terminal snapshot *)
From S2P Require Import Prelude GoLib Resources Keys Wire Builddef Store Gate Commit LogBuf SchedState PullRefs Graph Results Submit GraphFacts SchedInv SchedRec Walk Snapshots Evict SchedSteps SchedSys Demo Watch.

#[local] Abbreviation env0 := (demo_env "" demo_resolved).
#[local] Abbreviation cfg0 := (mkCfg (KL := string_keys) (SL := build_lib "" demo_resolved) (demo_s2 "" demo_resolved) PNone).
#[local] Existing Instance demo_env.

(** The hub of the run with the one request and no watchers yet. *)
Lemma demo_hub : ∃ h, @hub_reachable _ _ env0 h ∧ h_cfg h = cfg0 ∧ h_ws h = ∅ ∧ h_watchers h = ∅.
Proof.
  destruct (demo_reachable "" demo_resolved) as [st Hr].
  destruct (@sched_hub _ _ env0 _ _ Hr (new_hub (initial st)) eq_refl) as (h & Hh & Ec & (E1 & E2 & _)).
  exists h. split; [by exists st|]. done.
Qed.

Lemma watch_safe_witness : ∃ h h', h_cfg h = cfg0 ∧ @tick _ _ env0 h = RRet tt h'.
Proof.
  destruct demo_hub as (h & Hr & Ec & _). destruct (@watch_safe _ _ env0 h Hr) as [Hop _].
  destruct (Hop tick) as [h' E]; [constructor|]. by exists h, h'.
Defined.

(** Watching the running request registers a watcher. *)
Lemma demo_watched : ∃ h p w, @hub_reachable _ _ env0 h ∧ p ∈ h_watchers h ∧ h_ws h !! p = Some w ∧
  w_reqID w = "r1" ∧ (length (ch_sent (w_ch w)) = 1)%nat ∧ is_Some (g_requests (c_sched (h_cfg h)) !! "r1").
Proof.
  destruct demo_hub as (h & [st Hr] & Ec & Ew & _).
  destruct (@hub_reachable_ok _ _ env0 h (ex_intro _ st Hr)) as [D Hok].
  pose proof (@Watch_spec _ _ env0 D "r1" h Hok) as HW. unfold hwp in HW.
  assert (Hb : match @Watch _ _ env0 "r1" h with
    | RRet (Ok (_, true)) h' => bool_decide (is_Some (g_requests (c_sched (h_cfg h')) !! "r1")) | _ => false end = true).
  { clear -Ec. destruct h as [c ws W S F L v m lc nr]. simpl in Ec. subst c. unfold Watch, mbind, H_bind, getH. cbn [h_cfg].
    assert (Ea : match g_requests (c_sched cfg0) !! "r1" with Some r => match @assembleLocked _ _ env0 r (c_sched cfg0) with
      | Some (snap, s') => negb (sn_Terminal snap) && bool_decide (is_Some (g_requests s' !! "r1")) | None => false end | None => false end = true)
      by (vm_compute; reflexivity).
    destruct (g_requests (c_sched cfg0) !! "r1") as [r|]; [|done].
    unfold lift. cbn [h_cfg]. destruct (assembleLocked r (c_sched cfg0)) as [[snap s']|]; [|done].
    apply andb_prop in Ea as [Et Eq]. cbn [try_send make_chan ch_closed ch_buf length ch_cap watchBuf ch_taken app]. simpl.
    destruct (sn_Terminal snap); [done|]. simpl. exact Eq. }
  destruct (Watch "r1" h) as [| |[[p []]|e] h2] eqn:E; try discriminate Hb.
  destruct HW as [Hok2 HW]. destruct (HW p true eq_refl) as (w & snap & Ew2 & Es & Eid & Hp & _).
  exists h2, p, w. split; [|split_and!; [done|done|done|by rewrite Es|by apply bool_decide_eq_true in Hb]].
  exists st. eapply rtc_r; [exact Hr|]. eapply (hs_op h (Watch "r1";; mret tt)); [constructor|]. unfold mbind, H_bind. by rewrite E.
Qed.

(** It is cancelled. *)
Lemma demo_cancelled : ∃ h p w, @hub_reachable _ _ env0 h ∧ p ∈ h_watchers h ∧ h_ws h !! p = Some w ∧ over h w ∧ room w.
Proof.
  destruct demo_watched as (h & p & w & [st Hr] & Hp & Ew & Eid & El & [r Er]).
  destruct (@hub_reachable_ok _ _ env0 h (ex_intro _ st Hr)) as [D [[Hs _] Hc]].
  destruct (@Cancel_settles _ _ env0 D "r1" r (c_sched (h_cfg h)) Hs Er) as (s' & r' & E & Er' & Hcan).
  assert (Hst : @step _ _ env0 (h_cfg h) (mkCfg s' (c_pend (h_cfg h)))).
  { destruct (h_cfg h) as [s pd]. by eapply st_own, st_handler, h_cancel. }
  eexists _, p, w. split_and!.
  - exists st. eapply rtc_r; [exact Hr|]. exact (@hs_sched _ _ env0 h _ Hst).
  - exact Hp.
  - exact Ew.
  - right. simpl. rewrite Eid, Er'. by left.
  - unfold room. destruct (co_stream _ Hc _ _ Ew) as (-> & _). unfold ch_sent in El. rewrite length_app in El. unfold watchBuf. lia.
Qed.

(** The cancellation reaches the watcher at the next tick. *)
Lemma watch_delivers_witness : ∃ h p w h', @tick _ _ env0 h = RRet tt h' ∧ delivered p w h'.
Proof.
  destruct demo_cancelled as (h & p & w & Hr & Hp & Ew & Hov & Hroom).
  exists h, p, w. exact (@watch_delivers _ _ env0 h p w Hr Hp Ew Hov Hroom).
Defined.
