(* ===== verification/Diagnose.v ===== *)
(** * Failure reports (src/sched/diagnose.go)

    [Diagnose] assembles a report from the durable stream of failure records
    and what the live graph still knows. The stream's consumer and the status
    key-value store are services: a consumer is what it had pending when it was
    made and what each fetch answers. The scheduler's lock is released between
    the walk of the closure and each node, so what other goroutines do to the
    scheduler meanwhile is a parameter. The theorems: reading returns the
    decodable records it was promised, and the report of a live request names
    exactly the root failures of its closure, within the bounds asked for, each
    node it shows as failed with at least one attempt. *)
From S2P Require Import Prelude GoLib Resources Keys Wire Builddef Store Gate Commit LogBuf SchedState PullRefs Graph Results Submit GraphFacts SchedInv SchedRec Walk Snapshots Evict SchedSteps SchedSys Demo Watch WatchFacts.
From Stdlib Require Import Ascii.
Local Open Scope string_scope.
Local Open Scope list_scope.

(** A consumer: [NumPending] at creation, and the answer to the i-th fetch of
    up to n messages, each decoded or undecodable. *)
Record js_consumer := mkCons { jc_pending : Z; jc_fetch : nat → Z → result string (list (option FailureRecord)) }.

Record DiagnoseRequest := mkDiag { dg_RequestID : string; dg_Node : string; dg_MaxAttempts : Z; dg_MaxLogBytes : Z }.

Record AttemptReport := mkAttempt { at_Record : FailureRecord; at_LogTruncated : bool }.

Record NodeDiagnosis := mkND {
  nd_Node : string; nd_Label : string; nd_Kind : kind; nd_Platform : string; nd_Phase : option phase; nd_Gen : Z;
  nd_Attempts : list AttemptReport }.

Record DiagnoseReply := mkReply {
  dr_RequestID : string; dr_Phase : string; dr_Counts : Counts; dr_Nodes : list NodeDiagnosis; dr_Truncated : bool }.

Definition failuresPerNode : Z := 8.
Definition diagnoseDefaultAttempts : Z := 4.
Definition diagnoseMaxNodes : nat := 4.

Definition set_fr_log (l : LogBuf.bytes * Z * LogBuf.bytes) (r : FailureRecord) : FailureRecord :=
  mkFail (fr_Node r) (fr_Gen r) (fr_Platform r) (fr_Label r) (fr_Origin r) (fr_Disposition r) (fr_ErrSummary r)
    (fr_ConsecRetry r) (fr_ConsecCtrl r) (fr_BackoffMs r) (fr_RequestIDs r) (fr_ForF r) (fr_Result r)
    (fr_EnqueuedNs r) (fr_StartedNs r) (fr_FailedNs r) l.1.1 l.1.2 l.2 (fr_LogMissing r).

(** [trimAttempt] on a record. *)
Definition report_attempt (maxLogBytes : Z) (r : FailureRecord) : AttemptReport :=
  let '(l, cut) := trimAttempt (fr_LogHead r, fr_LogGap r, fr_LogTail r) maxLogBytes in
  mkAttempt (set_fr_log l r) cut.

(** The loop of [readFailures]: batches of at most 64 until what was pending
    is read or a fetch comes back empty. *)
Fixpoint read_loop (fuel : nat) (c : js_consumer) (i : nat) (pending : Z) (out : list FailureRecord)
    : option (result string (list FailureRecord)) :=
  if (pending <=? 0)%Z then Some (Ok out)
  else match fuel with
  | O => None
  | S fuel =>
      match jc_fetch c i (Z.min pending 64) with
      | Err e => Some (Err e)
      | Ok [] => Some (Ok out)
      | Ok batch => read_loop fuel c (S i) (pending - Z.of_nat (length batch)) (out ++ omap id batch)
      end
  end.

Section Diagnose.
Context `{SE0 : SchedEnv}.
Context (consumer : nat → string → result string js_consumer) (kv_get : nat → string → option (string * Counts)).

(** What other goroutines do to the scheduler while its lock is free. *)
Context (others : nat → Sched → Sched).

Abbreviation MS := (M Sched).
Abbreviation Res A := (result (err_code * string) A).

Definition readFailures (filter : string) : MS (Res (list FailureRecord)) :=
  i ← fresh_tick;
  match consumer i filter with
  | Err e => fail CodeInternal ("diagnose: failures consumer: " +:+ e)
  | Ok c =>
      match read_loop (Z.to_nat (jc_pending c)) c 0 (jc_pending c) [] with
      | None => out_of_fuel
      | Some (Err e) => fail CodeInternal ("diagnose: fetch failures: " +:+ e)
      | Some (Ok recs) => mret (Ok recs)
      end
  end.

Definition unlocked : MS unit := i ← fresh_tick; modS (others i).

(** [synthAttemptLocked] *)
Definition synthAttemptLocked (s : Sched) (n : node) : FailureRecord :=
  let '(log, missing) := match g_logs s !! n_name n with
    | Some lb => if (nl_gen lb =? n_gen n)%Z then (trimLogSnapshot (nl_buf lb) failureLogHeadCap failureLogTailCap, false)
                 else (([], 0%Z, []), true)
    | None => (([], 0%Z, []), true)
    end in
  mkFail (n_name n) (n_gen n) (n_platform n) "" FailOriginServer FailDispositionFailed (n_errSummary n)
    (n_consecRetry n) (n_consecControl n) 0 (interestIDs n) [] None
    (default 0%Z (n_enqueuedAt n)) (default 0%Z (n_startedAt n)) (default 0%Z (n_doneAt n)) log.1.1 log.1.2 log.2 missing.

(** The newest [max] records, newest first. *)
Definition newest {A} (max : Z) (recs : list A) : list A :=
  rev (if (max <? Z.of_nat (length recs))%Z then drop (length recs - Z.to_nat max) recs else recs).

Definition first_platform (l : list AttemptReport) : string :=
  default "" (find (λ p, negb (String.eqb p "")) ((λ a, fr_Platform (at_Record a)) <$> l)).

Definition diagnoseNode (name : string) (maxAttempts maxLogBytes : Z) : MS (Res NodeDiagnosis) :=
  match ParseNodeName name with
  | None => fail CodeBadRequest "diagnose: bad node name"
  | Some (kd, k) =>
      unlocked;;
      s ← getS;
      let live := match g_nodes s !! (kd, k) with Some l => Some (getN s l) | None => None end in
      let synth := match live with
        | Some n => if bool_decide (n_phase n = PhaseFailed) then Some (synthAttemptLocked s n) else None
        | None => None end in
      r ← readFailures (FailuresSubject name);
      match r with
      | Err e => mret (Err e)
      | Ok records =>
          let attempts := report_attempt maxLogBytes <$> newest maxAttempts records in
          let attempts := match attempts, synth with
            | [], Some rec => [report_attempt maxLogBytes rec]
            | _, _ => attempts end in
          let platform := match live with Some n => n_platform n | None => "" end in
          let platform := if String.eqb platform "" then first_platform attempts else platform in
          mret (Ok (mkND name (match live with Some n => n_label n | None => "" end) kd platform
            (n_phase <$> live) (match live with Some n => n_gen n | None => 0%Z end) attempts))
      end
  end.

Fixpoint diagnose_each (names : list string) (maxAttempts maxLogBytes : Z) : MS (Res (list NodeDiagnosis)) :=
  match names with
  | [] => mret (Ok [])
  | name :: rest =>
      r ← diagnoseNode name maxAttempts maxLogBytes;
      match r with
      | Err e => mret (Err e)
      | Ok nd =>
          rs ← diagnose_each rest maxAttempts maxLogBytes;
          match rs with Err e => mret (Err e) | Ok nds => mret (Ok (nd :: nds)) end
      end
  end.

(** The nodes the records tagged with a request name, each once. *)
Fixpoint tagged (id : string) (seen : gset string) (recs : list FailureRecord) : list string :=
  match recs with
  | [] => []
  | r :: rest =>
      if negb (bool_decide (id ∈ fr_RequestIDs r)) || bool_decide (fr_Node r ∈ seen) then tagged id seen rest
      else fr_Node r :: tagged id ({[fr_Node r]} ∪ seen) rest
  end.

(** The reply's phase and counts, and the failing nodes: from the live graph,
    or after a restart from the mirror and the stream. *)
Definition failing_nodes (id : string) : MS (Res (string * Counts * list string)) :=
  s ← getS;
  match g_requests s !! id with
  | Some r =>
      snap ← assembleLocked r;
      names ← failingClosureLocked r;
      mret (Ok (sn_Phase snap, sn_Counts snap, names))
  | None =>
      i ← fresh_tick;
      let '(phase, counts) := default ("", mkCounts 0 0 0 0 0) (kv_get i ("req." +:+ id)) in
      r ← readFailures ("failures" +:+ ".>");
      match r with
      | Err e => mret (Err e)
      | Ok records =>
          let names := SortStrings (tagged id ∅ records) in
          if String.eqb phase "" && bool_decide (names = [])
          then fail CodeNotFound ("request " +:+ id +:+ " not found (and no failure records mention it)")
          else mret (Ok (phase, counts, names))
      end
  end.

Definition diagnoseRequest (id : string) (maxAttempts maxLogBytes : Z) : MS (Res DiagnoseReply) :=
  r ← failing_nodes id;
  match r with
  | Err e => mret (Err e)
  | Ok (phase, counts, names) =>
      let truncated := (diagnoseMaxNodes <? length names)%nat in
      let names := if truncated then take diagnoseMaxNodes names else names in
      r ← diagnose_each names maxAttempts maxLogBytes;
      match r with
      | Err e => mret (Err e)
      | Ok nds => mret (Ok (mkReply id phase counts nds truncated))
      end
  end.

Definition attempt_cap (max : Z) : Z :=
  if (max <=? 0)%Z || (failuresPerNode <? max)%Z then diagnoseDefaultAttempts else max.

Definition Diagnose (req : DiagnoseRequest) : MS (Res DiagnoseReply) :=
  if Bool.eqb (String.eqb (dg_RequestID req) "") (String.eqb (dg_Node req) "")
  then fail CodeBadRequest "diagnose: exactly one of requestId and node must be set"
  else
    let maxAttempts := attempt_cap (dg_MaxAttempts req) in
    if negb (String.eqb (dg_Node req) "") then
      match ParseNodeName (dg_Node req) with
      | None => fail CodeBadRequest "diagnose: bad node name"
      | Some _ =>
          r ← diagnoseNode (dg_Node req) maxAttempts (dg_MaxLogBytes req);
          match r with
          | Err e => mret (Err e)
          | Ok nd =>
              if bool_decide (nd_Attempts nd = []) then fail CodeNotFound ("no failure records for node " +:+ dg_Node req)
              else mret (Ok (mkReply "" "" (mkCounts 0 0 0 0 0) [nd] false))
          end
      end
    else diagnoseRequest (dg_RequestID req) maxAttempts (dg_MaxLogBytes req).

(** ** Reading the stream *)

(** A consumer that serves the messages [ms]: every fetch returns at least one
    and at most what was asked for, from where the last one stopped. *)
Definition serves (c : js_consumer) (ms : list (option FailureRecord)) : Prop :=
  jc_pending c = Z.of_nat (length ms) ∧
  ∃ pos : nat → nat, pos 0%nat = 0%nat ∧ ∀ i n, (pos i < length ms)%nat → (0 < n)%Z →
    ∃ k, (1 <= k)%nat ∧ (Z.of_nat k <= n)%Z ∧ jc_fetch c i n = Ok (take k (drop (pos i) ms)) ∧
      pos (S i) = (pos i + length (take k (drop (pos i) ms)))%nat.

Lemma read_loop_total c fuel : ∀ i pending out, (pending <= Z.of_nat fuel)%Z → is_Some (read_loop fuel c i pending out).
Proof.
  induction fuel as [|fuel IH]; intros i pending out Hf; cbn [read_loop].
  - destruct (Z.leb_spec pending 0); [by eexists|lia].
  - destruct (Z.leb_spec pending 0); [by eexists|]. destruct (jc_fetch c i (Z.min pending 64)) as [[|m batch]|e]; [by eexists| |by eexists].
    apply IH. simpl. lia.
Qed.

(** Every record that could be decoded, in order, is returned. *)
Theorem read_all c ms : serves c ms →
  read_loop (Z.to_nat (jc_pending c)) c 0 (jc_pending c) [] = Some (Ok (omap id ms)).
Proof.
  intros [Hp (pos & P0 & Hf)]. rewrite Hp, Nat2Z.id.
  enough (Hgen : ∀ fuel i out, (pos i <= length ms)%nat → (length ms - pos i <= fuel)%nat →
    read_loop fuel c i (Z.of_nat (length ms) - Z.of_nat (pos i)) out = Some (Ok (out ++ omap id (drop (pos i) ms)))).
  { specialize (Hgen (length ms) 0%nat []). rewrite P0 in Hgen. rewrite Z.sub_0_r in Hgen. rewrite Hgen by lia. by rewrite drop_0. }
  induction fuel as [|fuel IH]; intros i out Hi Hfu; cbn [read_loop]; destruct (Z.leb_spec (Z.of_nat (length ms) - Z.of_nat (pos i)) 0).
  - rewrite drop_ge by lia. by rewrite app_nil_r.
  - lia.
  - rewrite drop_ge by lia. by rewrite app_nil_r.
  - destruct (Hf i (Z.min (Z.of_nat (length ms) - Z.of_nat (pos i)) 64)) as (k & Hk1 & Hk2 & -> & Hpos); [lia|lia|].
    assert (Hlen : length (take k (drop (pos i) ms)) = k) by (rewrite length_take, length_drop; lia). rewrite Hlen in Hpos.
    destruct (take k (drop (pos i) ms)) as [|m batch] eqn:Et; [simpl in Hlen; lia|]. rewrite Hlen, <- Et.
    replace (Z.of_nat (length ms) - Z.of_nat (pos i) - Z.of_nat k)%Z with (Z.of_nat (length ms) - Z.of_nat (pos (S i)))%Z by lia.
    rewrite IH by lia. rewrite Hpos, <- drop_drop. rewrite <- (take_drop k (drop (pos i) ms)) at 3. by rewrite omap_app, app_assoc.
Qed.

(** ** The report *)

(** Consumers can be made and fetched from. *)
Definition reads_ok : Prop := ∀ i filter, ∃ c, consumer i filter = Ok c ∧ ∀ j n, is_ok (jc_fetch c j n) = true.

Lemma read_loop_ok c fuel : (∀ j n, is_ok (jc_fetch c j n) = true) → ∀ i pending out,
  (pending <= Z.of_nat fuel)%Z → ∃ recs, read_loop fuel c i pending out = Some (Ok recs).
Proof.
  intros Hok. induction fuel as [|fuel IH]; intros i pending out Hf; cbn [read_loop].
  - destruct (Z.leb_spec pending 0); [by eexists|lia].
  - destruct (Z.leb_spec pending 0); [by eexists|]. specialize (Hok i (Z.min pending 64)).
    destruct (jc_fetch c i (Z.min pending 64)) as [[|m batch]|e]; [by eexists| |done]. apply IH. simpl. lia.
Qed.

Lemma readFailures_ok filter s : reads_ok → runs (readFailures filter) s (λ r s', outside s s' ∧ ∃ recs, r = Ok recs).
Proof.
  intros Hr. unfold readFailures. apply runs_bind. eapply runs_pure; [done|]. destruct (Hr (g_ticks s) filter) as (c & -> & Hf).
  destruct (read_loop_ok c (Z.to_nat (jc_pending c)) Hf 0 (jc_pending c) []) as [recs ->]; [lia|].
  eapply runs_pure; [done|]. split; [apply outside_tick|by eexists].
Qed.

Lemma newest_length {A} max (l : list A) : (0 <= max)%Z → (Z.of_nat (length (newest max l)) <= max)%Z.
Proof.
  intros Hm. unfold newest. rewrite length_rev. destruct (Z.ltb_spec max (Z.of_nat (length l))); [|lia]. rewrite length_drop. lia.
Qed.

Definition within (max : Z) (a : AttemptReport) : Prop :=
  (0 < max)%Z → (blen (fr_LogHead (at_Record a)) + blen (fr_LogTail (at_Record a)) <= max)%Z.

Lemma report_within max r : within max (report_attempt max r).
Proof.
  intros Hm. unfold report_attempt, trimAttempt. set (h := fr_LogHead r). set (t := fr_LogTail r).
  assert (Hh : (0 <= blen h)%Z) by apply blen_pos. assert (Ht : (0 <= blen t)%Z) by apply blen_pos.
  destruct ((max <=? 0)%Z || (blen h + blen t <=? max)%Z) eqn:E; simpl.
  { apply orb_true_iff in E as [E|E]; apply Z.leb_le in E; [lia|]. done. }
  apply orb_false_iff in E as [_ E]. apply Z.leb_gt in E.
  destruct (Z.ltb_spec 0 (blen t - max)).
  - assert (Hd : blen (from (blen t - max) t) = max) by (unfold blen, from in *; rewrite length_drop; lia).
    rewrite Hd. destruct (Z.ltb_spec 0 (blen h - (max - max))); simpl; rewrite ?Hd; unfold blen, upto in *; rewrite ?length_take; lia.
  - destruct (Z.ltb_spec 0 (blen h - (max - blen t))); simpl; [|lia]. unfold blen, upto in *. rewrite length_take. lia.
Qed.

(** A table entry and a node that no other goroutine changes meanwhile. *)
Definition untouched (id : kind * Key) (l : loc) : Prop :=
  ∀ i s, g_nodes (others i s) !! id = g_nodes s !! id ∧ getN (others i s) l = getN s l.

Definition drift (s s' : Sched) : Prop :=
  ∀ id l, untouched id l → g_nodes s' !! id = g_nodes s !! id ∧ getN s' l = getN s l.

Lemma drift_outside s s' : outside s s' → drift s s'.
Proof. intros O id l _. by rewrite (os_nodes _ _ O), (outside_getN _ _ _ O). Qed.

Lemma drift_trans s1 s2 s3 : drift s1 s2 → drift s2 s3 → drift s1 s3.
Proof. intros H1 H2 id l Hu. destruct (H1 id l Hu), (H2 id l Hu). split; congruence. Qed.

Lemma drift_unlocked i s : drift s (others i (set_g_ticks (S (g_ticks s)) s)).
Proof. intros id l Hu. by destruct (Hu i (set_g_ticks (S (g_ticks s)) s)) as [-> ->]. Qed.

(** What a node's diagnosis promises. *)
Definition nd_ok (s : Sched) (ma ml : Z) (name : string) (nd : NodeDiagnosis) : Prop :=
  nd_Node nd = name ∧ (Z.of_nat (length (nd_Attempts nd)) <= Z.max 1 ma)%Z ∧ Forall (within ml) (nd_Attempts nd) ∧
  (nd_Phase nd = Some PhaseFailed → nd_Attempts nd ≠ []) ∧
  ∀ id l, ParseNodeName name = Some id → untouched id l → g_nodes s !! id = Some l → n_phase (getN s l) = PhaseFailed →
    nd_Phase nd = Some PhaseFailed.

Lemma diagnoseNode_ok name ma ml s : reads_ok → (0 <= ma)%Z → is_Some (ParseNodeName name) →
  runs (diagnoseNode name ma ml) s (λ r s', drift s s' ∧ ∃ nd, r = Ok nd ∧ nd_ok s ma ml name nd).
Proof.
  intros Hr Hma [[kd k] Hp]. unfold diagnoseNode, unlocked. rewrite Hp. apply runs_bind, runs_bind. eapply runs_pure; [done|].
  eapply runs_pure; [done|]. pose proof (drift_unlocked (g_ticks s) s) as D0. set (s0 := others _ _) in *. clearbody s0.
  apply runs_bind. eapply runs_pure; [done|]. apply runs_bind.
  eapply runs_mono; [by apply readFailures_ok|]. intros r s' [O [recs ->]]. eapply runs_pure; [done|].
  split; [eapply drift_trans; [exact D0|by apply drift_outside]|]. eexists. split; [done|].
  pose proof (newest_length ma recs Hma) as Hlen. unfold nd_ok. cbn [nd_Node nd_Attempts nd_Phase]. split; [done|].
  assert (Hw : Forall (within ml) (report_attempt ml <$> newest ma recs)).
  { apply Forall_fmap, Forall_true. intros x. apply report_within. }
  assert (Hph : ∀ id l, Some (kd, k) = Some id → untouched id l → g_nodes s !! id = Some l → n_phase (getN s l) = PhaseFailed →
    n_phase <$> match g_nodes s0 !! (kd, k) with Some l => Some (getN s0 l) | None => None end = Some PhaseFailed).
  { intros id l [= <-] Hu El Hf. destruct (D0 _ _ Hu) as [E1 E2]. rewrite E1, El. simpl. by rewrite E2, Hf. }
  rewrite Hp. destruct (report_attempt ml <$> newest ma recs) as [|a l] eqn:Ea.
  - destruct (g_nodes s0 !! (kd, k)) as [loc|] eqn:El.
    + case_bool_decide as Hf; simpl; (split; [lia|]); (split; [repeat constructor; apply report_within|]); (split; [|exact Hph]); [done|].
      intros [= Hx]. done.
    + simpl. split; [lia|]. split; [done|]. split; [done|exact Hph].
  - apply (f_equal length) in Ea. rewrite length_fmap in Ea. simpl in Ea. split; [simpl; lia|]. split; [done|]. split; [done|exact Hph].
Qed.

Lemma nd_ok_drift s s' ma ml name nd : drift s s' → nd_ok s' ma ml name nd → nd_ok s ma ml name nd.
Proof.
  intros D (? & ? & ? & ? & H). split_and!; [done|done|done|done|]. intros id l Hp Hu Hl Hf. destruct (D id l Hu) as [E1 E2].
  by eapply H; [done|done|rewrite E1|rewrite E2].
Qed.

Lemma diagnose_each_ok names ma ml : reads_ok → (0 <= ma)%Z → Forall (λ n, is_Some (ParseNodeName n)) names → ∀ s,
  runs (diagnose_each names ma ml) s (λ r s', drift s s' ∧ ∃ nds, r = Ok nds ∧ Forall2 (nd_ok s ma ml) names nds).
Proof.
  intros Hr Hma. induction 1 as [|name names Hp _ IH]; intros s; cbn [diagnose_each].
  { eapply runs_pure; [done|]. split; [by intros id l|]. exists []. by repeat constructor. }
  apply runs_bind. eapply runs_mono; [by apply diagnoseNode_ok|]. intros r s1 [O1 (nd & -> & Hnd)]. apply runs_bind.
  eapply runs_mono; [apply IH|]. intros rs s2 [O2 (nds & -> & Hnds)]. eapply runs_pure; [done|]. split; [by eapply drift_trans|].
  exists (nd :: nds). split; [done|]. constructor; [done|]. eapply Forall2_impl; [exact Hnds|]. intros. by eapply nd_ok_drift.
Qed.

Lemma failingClosure_spec r t s : deps_alloc s → q_target r = Some t → t ∈ dom (g_heap s) →
  (∃ x, reach s t x ∧ n_phase (getN s x) = PhaseFailed) →
  runs (failingClosureLocked r) s (λ names s', outside s s' ∧
    ∀ name, name ∈ names ↔ ∃ x, reach s t x ∧ n_phase (getN s x) = PhaseFailed ∧ n_name (getN s x) = name).
Proof.
  intros Hal Ht Hd (x0 & Hx0 & Hf0). unfold failingClosureLocked. rewrite Ht. apply runs_bind.
  destruct (dep_closure_spec t s Hal Hd) as (seen & E & _ & Hseen). eapply runs_pure; [exact E|]. apply runs_bind.
  eapply runs_pure; [done|]. eapply runs_pure; [done|]. split; [apply outside_tick|]. intros name. cbn [getN set_g_ticks g_heap].
  change (getN (set_g_ticks (S (g_ticks s)) s)) with (getN s).
  set (failed := List.filter _ seen). assert (Hfl : ∀ x, x ∈ failed ↔ reach s t x ∧ n_phase (getN s x) = PhaseFailed).
  { intros x. unfold failed. rewrite list_elem_of_In, filter_In, <- list_elem_of_In, bool_decide_eq_true. by rewrite Hseen. }
  rewrite bool_decide_false by (intros En; assert (x0 ∈ failed) by (by apply Hfl); rewrite En in *; by eapply elem_of_nil).
  unfold SortStrings. rewrite elem_of_ssort, list_elem_of_fmap. setoid_rewrite Hfl. naive_solver.
Qed.

(** The names in a request's closure are node names. *)
Lemma node_name_parses {GN : Gone} s t x : sched_ok s → t ∈ dom (g_heap s) → reach s t x →
  ParseNodeName (n_name (getN s x)) = Some (n_id (getN s x)).
Proof.
  intros Hs Hd Hx. assert (Hdx : x ∈ dom (g_heap s)) by (destruct (rtc_inv_r _ _ Hx) as [<-|(y & _ & Hy)]; [done|by eapply ok_alloc]).
  rewrite (no_name _ _ (go_nodeN _ _ (go_base _ _ (proj1 Hs)) Hdx)), ParseNodeName_NodeName. by destruct (n_id (getN s x)).
Qed.

Lemma diagnoseRequest_ok {GN : Gone} id r t cap ml s : sched_ok s → reads_ok → (0 <= cap)%Z →
  g_requests s !! id = Some r → q_target r = Some t → (∃ x, reach s t x ∧ n_phase (getN s x) = PhaseFailed) →
  runs (diagnoseRequest id cap ml) s (λ r _, ∃ reply, r = Ok reply ∧ dr_RequestID reply = id ∧
    ∃ names, (∀ name, name ∈ names ↔ ∃ x, reach s t x ∧ n_phase (getN s x) = PhaseFailed ∧ n_name (getN s x) = name) ∧
      dr_Truncated reply = (4 <? length names)%nat ∧ Forall2 (nd_ok s cap ml) (take 4 names) (dr_Nodes reply)).
Proof.
  intros Hs Hr Hcap Hreq Ht Hfail. destruct (proj2 Hs _ _ Hreq) as (t' & Ht' & Hd & _). rewrite Ht in Ht'. injection Ht' as <-.
  pose proof (ok_alloc _ Hs) as Hal.
  unfold diagnoseRequest, failing_nodes. apply runs_bind, runs_bind. eapply runs_pure; [done|]. rewrite Hreq. apply runs_bind.
  eapply runs_mono; [by apply runs_wp; [by eapply req_assemble|apply (assemble_outside r s (λ _ s', outside s s'))]|]. intros snap s1 O1.
  apply runs_bind. assert (R1 : ∀ x y, reach s1 x y ↔ reach s x y) by (intros; unfold reach, getN; by rewrite (os_heap _ _ O1)).
  assert (G1 : ∀ x, getN s1 x = getN s x) by (intros; by apply outside_getN).
  eapply runs_mono; [apply (failingClosure_spec r t s1)|].
  { intros x d. rewrite G1, (os_heap _ _ O1). apply Hal. } { done. } { by rewrite (os_heap _ _ O1). }
  { destruct Hfail as (x & ? & ?). exists x. by rewrite R1, G1. }
  intros names s2 [O2 Hn]. eapply runs_pure; [done|]. cbv beta iota.
  assert (Hn' : ∀ name, name ∈ names ↔ ∃ x, reach s t x ∧ n_phase (getN s x) = PhaseFailed ∧ n_name (getN s x) = name).
  { intros name. rewrite Hn. split; intros (x & Hx); exists x; [by rewrite <- R1, <- !G1|by rewrite R1, !G1]. }
  replace (if (diagnoseMaxNodes <? length names)%nat then take diagnoseMaxNodes names else names) with (take 4 names)
    by (destruct (Nat.ltb_spec diagnoseMaxNodes (length names)); [done|apply take_ge; unfold diagnoseMaxNodes in *; lia]).
  apply runs_bind. eapply runs_mono; [apply diagnose_each_ok; [done|lia|]|].
  { apply Forall_take, Forall_forall. intros name (x & Hx & _ & <-)%Hn'. rewrite (node_name_parses s t x) by done. by eexists. }
  intros rs s3 [O3 (nds & -> & Hnds)]. eapply runs_pure; [done|]. eexists. split; [done|]. split; [done|]. exists names. split; [done|].
  split; [done|]. eapply Forall2_impl; [exact Hnds|]. intros name nd. apply nd_ok_drift, drift_outside. eapply outside_trans; [exact O1|exact O2].
Qed.

End Diagnose.

(** ** A failed fetch whose records did not survive *)

#[local] Abbreviation env0 := (demo_env "" demo_resolved).
#[local] Abbreviation cfg0 := (mkCfg (KL := string_keys) (SL := build_lib "" demo_resolved) (demo_s2 "" demo_resolved) PNone).

Definition failed_s : @Sched string_keys (build_lib "" demo_resolved) :=
  Demo.run (@handleResult _ _ env0 (@run_procs _ _ env0 8) ClassHard) (demo_s2 "" demo_resolved).

Lemma failed_reachable : @reachable _ _ env0 (mkCfg failed_s PNone).
Proof.
  destruct (demo_reachable "" demo_resolved) as [st Hr]. exists st. etransitivity; [exact Hr|].
  destruct (run_some (@handleResult _ _ env0 (@run_procs _ _ env0 8) ClassHard) (demo_s2 "" demo_resolved) ltac:(vm_compute; reflexivity)) as [o E].
  exact (own_steps _ _ (@handleResult_steps _ _ env0 8 ClassHard _ _ o E)).
Qed.

Definition empty_consumer : js_consumer := mkCons 0 (λ _ _, Ok []).

