(* ===== verification/Api.v ===== *)
(** * The client protocol and its server (src/api/api.go, src/serve/apihandler.go,
    src/serve/gc.go, src/sched/submit.go [Requests], [Stats],
    src/sched/logfold.go [Fleet], src/sched/errors.go)

    One request per stream: a length-prefixed frame is read, dispatched over the
    scheduler and the garbage collector, and answered by one frame, or by the
    frames of a watch or log stream. The CBOR codec of frames and bodies, the
    listing of references and the size of a directory are libraries or I/O:
    parameters ([ApiCodec], [api_env]). *)
From S2P Require Import Prelude GoLib Resources Keys Wire Builddef Store Gate Commit LogBuf Frames Reftrack GcSweep SchedState PullRefs Graph Results Submit SchedSys Watch Diagnose.
From Stdlib Require Import Ascii.
Local Open Scope string_scope.
Local Open Scope list_scope.

(** ** Frame types *)

Definition TSubmit := "submit".
Definition TWatch := "watch".
Definition TLogs := "logs".
Definition TCancel := "cancel".
Definition TRequests := "requests".
Definition TFleet := "fleet".
Definition TStats := "stats".
Definition TRefs := "refs".
Definition TDelete := "delete".
Definition TDiagnose := "diagnose".
Definition TGC := "gc".
Definition TPin := "pin".
Definition TUnpin := "unpin".

Section Api.
Context `{SE0 : SchedEnv}.

(** ** Payloads *)

Record RequestInfo := mkReqInfo {
  rq_RequestID : string; rq_K : Key; rq_Platform : string; rq_Phase : string; rq_Counts : Wire.Counts; rq_CreatedNs : Z }.

(** One reference of a listing as the store returns it, and as a row. *)
Record ref_rec := mkRefRec { rr_Name : string; rr_Key : Key; rr_CreatedNs : Z }.
Record RefInfo := mkRow { rw_Name : string; rw_Key : option Key; rw_CreatedNs : Z; rw_LastAccessNs : Z; rw_Pinned : bool }.

Record StatsReply := mkStatsReply {
  sp_StoreBytes : Z; sp_RefCount : Z; sp_UptimeNs : Z; sp_Requests : Z; sp_NodesTracked : Z; sp_GC : option Stats }.

(** What the server sends, by frame type. *)
Inductive reply :=
| RSubmitted (id : string) (k : Key)
| RSnapshot (s : Snapshot)
| RLogView (v : LogView)
| RLogChunk (c : LogChunk)
| ROK
| RError (code : err_code) (text : string)
| RRequests (l : list RequestInfo)
| RFleet (l : list RunnerInfo)
| RStats (s : StatsReply)
| RRefs (l : list RefInfo)
| RDiagnose (r : DiagnoseReply)
| RGC (s : Stats)
| RPin (r : RefInfo).

Definition reply_type (r : reply) : string :=
  match r with
  | RSubmitted _ _ => "submitted" | RSnapshot _ => "snapshot" | RLogView _ => "logview" | RLogChunk _ => "logchunk"
  | ROK => "ok" | RError _ _ => "error" | RRequests _ => "requests-reply" | RFleet _ => "fleet-reply" | RStats _ => "stats-reply"
  | RRefs _ => "refs-reply" | RDiagnose _ => "diagnose-reply" | RGC _ => "gc-reply" | RPin _ => "pin-reply"
  end.

(** ** The codec *)

Class ApiCodec := {
  (** the envelope [{t, b}]; an absent body decodes to an empty one *)
  frame_Marshal : string → option bytes → result string bytes;
  frame_Unmarshal : bytes → result string (string * bytes);
  frame_law t b p : frame_Marshal t b = Ok p → frame_Unmarshal p = Ok (t, default [] b);
  enc_reply : reply → result string bytes;
  dec_Submit : bytes → result string SubmitRequest;
  dec_Watch : bytes → result string string;
  dec_Logs : bytes → result string (string * bool);
  dec_Cancel : bytes → result string string;
  dec_Refs : bytes → result string (string * Z);
  dec_Diagnose : bytes → result string DiagnoseRequest;
  (** the forced selection line of a collection, if any *)
  dec_GC : bytes → result string (option Z);
  dec_Pin : bytes → result string string;
}.

Section Frames.
Context {AC : ApiCodec}.

(** [WriteFrame], on the encoded body ([nil] for bodyless frames). *)
Definition WriteFrame (t : string) (body : option bytes) : result string bytes :=
  match frame_Marshal t body with
  | Err e => Err ("encode " +:+ t +:+ " frame: " +:+ e)
  | Ok payload =>
      if (MaxFrame <? blen payload)%Z then Err (t +:+ " frame exceeds the limit")
      else Ok (be32 (blen payload) ++ payload)
  end.

Definition WriteReply (r : reply) : result string bytes :=
  match r with
  | ROK => WriteFrame (reply_type r) None
  | _ => match enc_reply r with
         | Err e => Err ("encode " +:+ reply_type r +:+ " body: " +:+ e)
         | Ok b => WriteFrame (reply_type r) (Some b)
         end
  end.

(** [io.ReadFull]: nothing read is [EOF], a part [ErrUnexpectedEOF]. *)
Definition ReadFull (n : Z) (r : bytes) : result read_err (bytes * bytes) :=
  if (blen r <? n)%Z then Err (if (blen r =? 0)%Z then RE_EOF else RE_UnexpectedEOF)
  else Ok (upto n r, from n r).

Definition ReadFrame (r : bytes) : result read_err (string * bytes * bytes) :=
  '(hdr, r) ← ReadFull 4 r;
  let n := be32_val hdr in
  if (MaxFrame <? n)%Z then Err (RE_TooLong n)
  else
    '(payload, r) ← ReadFull n r;
    match frame_Unmarshal payload with
    | Err e => Err (RE_Decode e)
    | Ok (t, b) => if String.eqb t "" then Err (RE_Decode "frame without type") else Ok (t, b, r)
    end.

Definition DecodeBody {A} (dec : bytes → result string A) (b : bytes) : result string A :=
  if (blen b =? 0)%Z then Err "frame without body" else dec b.

Lemma ReadFull_app n a b : blen a = n → ReadFull n (a ++ b) = Ok (a, b).
Proof.
  intros <-. unfold ReadFull. destruct (Z.ltb_spec (blen (a ++ b)) (blen a)) as [Hlt|_].
  - unfold blen in Hlt. rewrite length_app in Hlt. lia.
  - by rewrite upto_blen_app, from_blen_app.
Qed.

(** A frame read back is the frame written, whatever follows it. *)
Theorem api_frame_roundtrip t body f tail : t ≠ "" →
  WriteFrame t body = Ok f → ReadFrame (f ++ tail) = Ok (t, default [] body, tail).
Proof.
  intros Ht. unfold WriteFrame. destruct (frame_Marshal t body) as [p|] eqn:E; [|done].
  destruct (Z.ltb_spec MaxFrame (blen p)) as [?|Hp]; [done|]. intros Hf.
  assert (Hf' : f = be32 (blen p) ++ p) by congruence. subst f.
  assert (H32 : (0 <= blen p < 2 ^ 32)%Z) by (unfold MaxFrame in *; pose proof (blen_pos p); lia).
  unfold ReadFrame. rewrite <- app_assoc, (ReadFull_app 4) by done. cbn [mbind result_mbind result_bind].
  rewrite be32_round by done. destruct (Z.ltb_spec MaxFrame (blen p)); [lia|]. rewrite ReadFull_app by done.
  cbn [mbind result_mbind result_bind]. rewrite (frame_law _ _ _ E). by destruct (String.eqb_spec t "").
Qed.
End Frames.

(** ** Listings of the scheduler *)

Definition req_leb (a b : RequestInfo) : bool :=
  if (rq_CreatedNs a =? rq_CreatedNs b)%Z then str_leb (rq_RequestID a) (rq_RequestID b) else (rq_CreatedNs b <? rq_CreatedNs a)%Z.

Fixpoint request_infos (rs : list request) : M Sched (list RequestInfo) :=
  match rs with
  | [] => mret []
  | r :: rest =>
      snap ← assembleLocked r;
      l ← request_infos rest;
      mret (mkReqInfo (q_id r) (q_k r) (q_platform r) (sn_Phase snap) (sn_Counts snap) (q_createdNs r) :: l)
  end.

(** Newest first. *)
Definition Requests : M Sched (list RequestInfo) :=
  s ← getS;
  l ← request_infos (snd <$> map_to_list (g_requests s));
  mret (ssort req_leb l).

Definition Fleet (s : Sched) : list RunnerInfo := ssort (λ a b, str_leb (ri_ID a) (ri_ID b)) (snd <$> map_to_list (g_fleet s)).

(** ** The server *)

(** The scheduler with its watchers, and the collector unless it is disabled. *)
Record server := mkServer { sv_hub : hub; sv_gc : option Sweeper }.

Definition sv_sched (sv : server) : Sched := c_sched (h_cfg (sv_hub sv)).

(** What the handlers read of their surroundings. *)
Record api_env := mkEnv {
  ae_refs : nat → Store → result string (list ref_rec);
  ae_created : string → Z;
  ae_dirSize : nat → Z;
  ae_started : Z;
  ae_sweep : nat → option Z → sweep_env;
  ae_consumer : nat → string → result string js_consumer;
  ae_kv : nat → string → option (string * Wire.Counts);
  ae_procs : procs }.

Inductive srun (A : Type) := SVFuel | SVPanic (why : string) | SVRet (a : A) (sv : server).
Arguments SVFuel {A}. Arguments SVPanic {A}. Arguments SVRet {A}.

Definition SV (A : Type) : Type := server → srun A.
Global Instance SV_ret : MRet SV := λ A a sv, SVRet a sv.
Global Instance SV_bind : MBind SV := λ A B k m sv,
  match m sv with SVFuel => SVFuel | SVPanic w => SVPanic w | SVRet a sv' => k a sv' end.

Definition getSV : SV server := λ sv, SVRet sv sv.

Definition on_hub {A} (m : H A) : SV A := λ sv,
  match m (sv_hub sv) with RFuel => SVFuel | RPanic w => SVPanic w | RRet a h => SVRet a (mkServer h (sv_gc sv)) end.

Definition on_sched {A} (m : M Sched A) : SV A := on_hub (lift m).

(** Run the collector on the server's store. *)
Definition on_gc {A} (g : Sweeper) (f : Sweeper → Sweeper * A) : SV A := λ sv,
  let s := sv_sched sv in
  let '(g', a) := f (mkSweeper (g_track g) (g_store s) (g_stats g) (g_cacheDir g) (g_retention g) (g_snap g)) in
  SVRet a (mkServer (set_h_cfg (mkCfg (set_g_store (g_refs g') s) (c_pend (h_cfg (sv_hub sv)))) (sv_hub sv)) (Some g')).

(** Errors: those of the scheduler carry a code, others are internal
    ([ErrorCode]). *)
Inductive api_error := AE (c : err_code) (text : string) | APlain (text : string).
Definition ErrorCode (e : api_error) : err_code := match e with AE c _ => c | APlain _ => CodeInternal end.
Definition error_text (e : api_error) : string := match e with AE _ t | APlain t => t end.

Definition badRequest (text : string) : api_error := AE CodeBadRequest text.
Definition badFrame (t e : string) : api_error := badRequest ("decode " +:+ t +:+ " request: " +:+ e).
Definition gcDisabled : api_error := AE CodeUnavailable "GC is disabled on this server (--gc-retention 0)".

(** How a request is answered: one frame, or the frames of a stream. *)
Inductive outcome :=
| OReply (r : reply)
| OWatch (p : loc) (live : bool)
| OLogs (view : LogView) (follow : option loc).

Abbreviation Ans := (result api_error outcome).

Definition coded {A} (r : result (err_code * string) A) (k : A → SV Ans) : SV Ans :=
  match r with Err (c, t) => mret (Err (AE c t)) | Ok a => k a end.

Definition answer (r : reply) : SV Ans := mret (Ok (OReply r)).

Section Dispatch.
Context {AC : ApiCodec} (env : api_env) (admin : bool).

(** Decode the body or refuse the request. *)
Definition with_body {A} (t : string) (dec : bytes → result string A) (body : bytes) (k : A → SV Ans) : SV Ans :=
  match DecodeBody dec body with Err e => mret (Err (badFrame t e)) | Ok a => k a end.

(** The frames both protocols accept. *)
Definition build_request (t : string) (body : bytes) : option (SV Ans) :=
  if String.eqb t TSubmit then Some (with_body t dec_Submit body (λ req,
    r ← on_sched (Submit (ae_procs env) req); coded r (λ idk, answer (RSubmitted idk.1 idk.2))))
  else if String.eqb t TWatch then Some (with_body t dec_Watch body (λ id,
    r ← on_hub (Watch id); coded r (λ pl, mret (Ok (OWatch pl.1 pl.2)))))
  else if String.eqb t TLogs then Some (with_body t dec_Logs body (λ nf,
    r ← on_hub (Logs nf.1 nf.2); coded r (λ vp, mret (Ok (OLogs vp.1 vp.2)))))
  else if String.eqb t TCancel then Some (with_body t dec_Cancel body (λ id,
    r ← on_sched (Cancel id); coded r (λ _, answer ROK)))
  else None.

(** The rows of a listing: by prefix, up to a limit, with the collector's view. *)
Fixpoint ref_rows (gc : option Sweeper) (prefix : string) (limit : Z) (n : Z) (recs : list ref_rec) : list RefInfo :=
  match recs with
  | [] => []
  | r :: rest =>
      if negb (String.eqb prefix "") && negb (HasPrefix (rr_Name r) prefix) then ref_rows gc prefix limit n rest
      else
        let row := match gc ≫= λ g, Tracker_Get (g_track g) (rr_Name r) with
          | Some e => mkRow (rr_Name r) (Some (rr_Key r)) (rr_CreatedNs r) (LastAccess e) (Pinned_ e)
          | None => mkRow (rr_Name r) (Some (rr_Key r)) (rr_CreatedNs r) 0 false end in
        row :: (if (0 <? limit)%Z && (n + 1 =? limit)%Z then [] else ref_rows gc prefix limit (n + 1) rest)
  end.

(** [refRow] *)
Definition refRow (name : string) (st : Store) (e : Entry) : RefInfo :=
  mkRow name (match GetKey name st with Ok (Some k) => Some k | _ => None end) (ae_created env name) (LastAccess e) (Pinned_ e).

Definition optional_body {A} (t : string) (dec : bytes → result string A) (dflt : A) (body : bytes) (k : A → SV Ans) : SV Ans :=
  if (0 <? blen body)%Z then with_body t dec body k else k dflt.

Definition pin_request (t : string) (g : Sweeper) (name : string) : SV Ans :=
  if String.eqb name "" then mret (Err (badRequest "pin: name is required"))
  else
    t1 ← on_sched time_Now;
    t2 ← on_sched time_Now;
    sv ← getSV;
    let st := g_store (sv_sched sv) in
    if String.eqb t TPin then
      r ← on_gc g (λ g, Sweeper_Pin g name t1 t2);
      match r with
      | Err e => mret (Err (match GetKey name st with Ok None => AE CodeNotFound e | _ => APlain e end))
      | Ok e => answer (RPin (refRow name st e))
      end
    else
      o ← on_gc g (λ g, Sweeper_Unpin g name t1);
      answer (RPin (match o with None => mkRow name None 0 0 false | Some e => refRow name st e end)).

Definition admin_request (t : string) (body : bytes) : SV Ans :=
  sv ← getSV;
  if String.eqb t TRequests then l ← on_sched Requests; answer (RRequests l)
  else if String.eqb t TFleet then answer (RFleet (Fleet (sv_sched sv)))
  else if String.eqb t TStats then
    i ← on_sched fresh_tick;
    now ← on_sched time_Now;
    let n := match ae_refs env i (g_store (sv_sched sv)) with Ok l => Z.of_nat (length l) | Err _ => 0%Z end in
    answer (RStats (mkStatsReply (ae_dirSize env i) n (now - ae_started env)
      (Z.of_nat (size (g_requests (sv_sched sv)))) (Z.of_nat (size (g_nodes (sv_sched sv)))) (g_stats <$> sv_gc sv)))
  else if String.eqb t TRefs then optional_body t dec_Refs ("", 0%Z) body (λ pl,
    i ← on_sched fresh_tick;
    match ae_refs env i (g_store (sv_sched sv)) with
    | Err e => mret (Err (APlain e))
    | Ok recs => answer (RRefs (ref_rows (sv_gc sv) pl.1 pl.2 0 recs))
    end)
  else if String.eqb t TDelete then with_body t dec_Cancel body (λ id,
    r ← on_hub (hub_Delete id); coded r (λ _, answer ROK))
  else if String.eqb t TDiagnose then with_body t dec_Diagnose body (λ req,
    r ← on_sched (Diagnose (ae_consumer env) (ae_kv env) (λ _ s, s) req); coded r (λ rp, answer (RDiagnose rp)))
  else if String.eqb t TGC then
    match sv_gc sv with
    | None => mret (Err gcDisabled)
    | Some g => optional_body t dec_GC None body (λ garbage,
        i ← on_sched fresh_tick;
        r ← on_gc g (λ g, Sweep g (ae_sweep env i garbage) true);
        match r with Err e => mret (Err (APlain e)) | Ok st => answer (RGC st) end)
    end
  else if String.eqb t TPin || String.eqb t TUnpin then
    match sv_gc sv with
    | None => mret (Err gcDisabled)
    | Some g => with_body t dec_Pin body (pin_request t g)
    end
  else mret (Err (badRequest ("unknown frame type " +:+ t))).

Definition dispatch (t : string) (body : bytes) : SV Ans :=
  match build_request t body with
  | Some m => m
  | None =>
      if negb admin then mret (Err (badRequest ("frame type " +:+ t +:+ " is not served on the build ALPN")))
      else admin_request t body
  end.

(** [serveStream] up to the first frames: what is read, and what is written or
    left to the stream. *)
Inductive served := SNothing | SFrames (l : list reply) | SStream (first : list reply) (o : outcome).

Definition serveStream (input : bytes) : SV served :=
  match ReadFrame input with
  | Err _ => mret SNothing
  | Ok (t, body, _) =>
      r ← dispatch t body;
      mret (match r with
        | Err e => SFrames [RError (ErrorCode e) (error_text e)]
        | Ok (OReply rp) => SFrames [rp]
        | Ok (OWatch p l) => SStream [] (OWatch p l)
        | Ok (OLogs v p) => SStream [RLogView v] (OLogs v p)
        end)
  end.
End Dispatch.
End Api.

Arguments SVFuel {KL SL A}. Arguments SVPanic {KL SL A}. Arguments SVRet {KL SL A}.
