(* ===== verification/ApiFacts.v ===== *)
(** * What a build client can do (src/serve/apihandler.go)

    The build protocol accepts four frames. Whatever a client sends, the
    collector's state is untouched, no request is forgotten, and no reference
    outside the scratch namespace of client pushes is deleted; a frame of the
    admin protocol is refused and changes nothing. *)
From S2P Require Import Prelude GoLib Resources Keys Wire Builddef Store Gate Commit LogBuf Frames Reftrack GcSweep SchedState PullRefs Graph Results Submit GraphFacts SchedInv SchedRec Walk Snapshots Evict SchedSteps SchedSys Demo Watch WatchFacts Diagnose Api.
From Stdlib Require Import Ascii.
Local Open Scope string_scope.
Local Open Scope list_scope.

Section ApiFacts.
Context `{SE0 : SchedEnv}.

Abbreviation refs s := (st_refs (g_store s)).

(** ** Operations that forget nothing *)

Record mild (s s' : Sched) : Prop := {
  mi_refs : ∀ n, n ∈ dom (refs s) → n ∈ dom (refs s') ∨ HasPrefix n clientScratchPrefix = true;
  mi_reqs : ∀ id, is_Some (g_requests s !! id) → is_Some (g_requests s' !! id) }.

Lemma mild_refl s : mild s s.
Proof. split; auto. Qed.

Lemma mild_trans s1 s2 s3 : mild s1 s2 → mild s2 s3 → mild s1 s3.
Proof.
  intros [R1 Q1] [R2 Q2]. split; [|auto]. intros n [Hn|?]%R1; [by apply R2|by right].
Qed.

Lemma mild_outside s s' : outside s s' → mild s s'.
Proof. intros O. split; [intros n Hn; left; by apply (os_refs _ _ O)|]. intros id. by rewrite (os_reqs _ _ O). Qed.

Lemma mild_dropped id s s' : dropped id s s' → mild s s'.
Proof. intros D. split; [intros n Hn; left; by rewrite (dr_store _ _ _ D)|]. intros i. by rewrite (dr_reqs _ _ _ D). Qed.

Lemma mild_grows s s' : grows s s' → mild s s'.
Proof. intros G. split; [intros n Hn; left; by apply (gr_refs _ _ G)|]. intros i. by rewrite (gr_reqs _ _ G). Qed.

Lemma mild_reqs s m : (∀ id, is_Some (g_requests s !! id) → is_Some (m !! id)) → mild s (set_g_requests m s).
Proof. intros H. split; [by left|done]. Qed.

Lemma wp_mild_bind {A B} (m : M Sched A) (k : A → M Sched B) s0 s :
  mild s0 s → wp m s (λ _, mild s) → (∀ a s', mild s0 s' → wp (k a) s' (λ _, mild s0)) → wp (m ≫= k) s (λ _, mild s0).
Proof. intros H0 Hm Hk. apply wp_bind. eapply wp_mono; [exact Hm|]. intros a s' H1. apply Hk. by eapply mild_trans. Qed.

Lemma wp_mild {A} (m : M Sched A) s0 s : mild s0 s → wp m s (λ _, mild s) → wp m s (λ _, mild s0).
Proof. intros H0 Hm. eapply wp_mono; [exact Hm|]. intros a s'. by apply mild_trans. Qed.

Lemma upd_req_mild id f s : wp (upd_req id f) s (λ _, mild s).
Proof. apply wp_mod, mild_reqs. intros i [r Hr]. rewrite lookup_alter. case_decide; subst; rewrite Hr; by eexists. Qed.

Lemma assemble_mild r s : wp (assembleLocked r) s (λ _, mild s).
Proof. apply assemble_outside. intros a s' O _. by apply mild_outside. Qed.

Lemma emit_mild e s : wp (emit e) s (λ _, mild s).
Proof. apply wp_emit. intros s' O. by apply mild_outside. Qed.

Lemma bump_mild s : wp bumpLocked s (λ _, mild s).
Proof. apply wp_bump. intros s' O. by apply mild_outside. Qed.

Lemma Cancel_mild {GN : Gone} id s : sched_ok s → wp (Cancel id) s (λ _, mild s).
Proof.
  intros Hs. unfold Cancel. apply wp_bind, wp_get. destruct (g_requests s !! id) as [r|] eqn:Er; [|apply wp_ret, mild_refl].
  destruct (q_cancelled r); [apply wp_ret, mild_refl|]. apply wp_bind. eapply upd_req_ok; [apply flags_cancelled|done|]. intros s1 Hs1 E1.
  assert (M1 : mild s s1). { rewrite E1. apply mild_reqs. intros i [q Hq]. rewrite lookup_alter. case_decide; subst; rewrite Hq; by eexists. }
  assert (Er1 : g_requests s1 !! id = Some (set_q_cancelled true r)) by (rewrite E1; simpl; by rewrite lookup_alter_eq, Er).
  eapply wp_mild_bind; [exact M1|eapply wp_mono; [by apply (drop_sched id (set_q_cancelled true r))|]; intros [] s2 [_ D]; by eapply mild_dropped|].
  intros [] s2 M2. eapply wp_mild_bind; [exact M2|apply assemble_mild|]. intros snap s3 M3.
  eapply wp_mild_bind; [exact M3|apply emit_mild|]. intros [] s4 M4. eapply wp_mild_bind; [exact M4|apply bump_mild|]. intros [] s5 M5. by apply wp_ret.
Qed.

Lemma submit_locked_mild {GN : Gone} fuel id k req def res s :
  sched_ok s → g_requests s !! id = None → wp (submit_locked (run_procs fuel) id k req def res) s (λ _, mild s).
Proof.
  intros Hs Hf. unfold submit_locked. apply wp_bind, wp_get. destruct (g_closed s); [apply wp_ret, mild_refl|].
  apply wp_bind, wp_now. set (s1 := set_g_ticks _ s). pose proof (keep_outside _ _ (outside_tick s) Hs) as K1. fold s1 in K1.
  apply wp_bind, wp_mod. match goal with |- context [<[id := ?r0]> _] => set (r := r0) end.
  pose proof (register_ok id r s1 (proj1 K1) Hf) as Hreg. set (s2 := set_g_requests _ s1) in *.
  apply wp_bind. eapply wp_mono; [apply (require_ok _ (run_procs_ok fuel)); [done|]|].
  { exists {[id]}. split_and!; [done|set_solver|]. intros i ->%elem_of_singleton. exists r. unfold s2. simpl. by rewrite lookup_insert_eq. }
  intros t s3 [H3 Ht]. apply wp_bind, wp_mod.
  pose proof (target_ok id r t s1 s3 (proj2 (proj1 K1)) H3 eq_refl eq_refl Ht) as Hs4. set (s4 := set_g_requests _ s3) in *.
  assert (Er : g_requests s4 !! id = Some (set_q_target (Some t) r)).
  { unfold s4. simpl. rewrite (gr_reqs _ _ (proj2 H3)). simpl. by rewrite lookup_alter_eq, lookup_insert_eq. }
  assert (M4 : ∀ i, i ≠ id → is_Some (g_requests s !! i) → is_Some (g_requests s4 !! i)).
  { intros i Hi Hq. unfold s4. simpl. rewrite lookup_alter_ne by done. rewrite (gr_reqs _ _ (proj2 H3)). simpl. by rewrite lookup_insert_ne. }
  assert (R4 : dom (refs s) ⊆ dom (refs s4)) by apply (gr_refs _ _ (proj2 H3)).
  clearbody s4. apply wp_bind, assemble_outside. intros snap s5 O5 _. apply wp_bind, wp_now. apply wp_bind, wp_get.
  pose proof (outside_trans _ _ _ O5 (outside_tick s5)) as O6. pose proof (keep_outside _ _ O6 Hs4) as K6. set (s6 := set_g_ticks _ s5) in *.
  assert (Hm : ∀ s', mild s6 s' → mild s s').
  { intros s'. apply mild_trans. split; [intros n Hn; left; by apply (os_refs _ _ O6), R4|].
    intros i Hi. rewrite (os_reqs _ _ O6). destruct (decide (i = id)) as [->|Hne]; [by eexists|auto]. }
  destruct (_ && _).
  - apply wp_bind. eapply wp_mono; [apply (drop_sched id (set_q_target (Some t) r) s6 (proj1 K6)); by rewrite (os_reqs _ _ O6)|].
    intros [] s7 [_ D7]. apply wp_bind, wp_mod, wp_ret. pose proof (Hm _ (mild_dropped _ _ _ D7)) as [R7 Q7]. split; [done|].
    intros i Hi. simpl. rewrite lookup_delete_ne; [by apply Q7|]. intros ->. destruct Hi as [q Hq]. congruence.
  - eapply wp_mono; [eapply (wp_mild_bind _ _ s6 s6 (mild_refl _)); [apply emit_mild|]|intros a s'; apply Hm].
    intros [] s7 M7. eapply wp_mild_bind; [exact M7|apply bump_mild|]. intros [] s8 M8. by apply wp_ret.
Qed.

Lemma scratch_mild ref s : wp (delete_client_scratch ref) s (λ _, mild s).
Proof.
  unfold delete_client_scratch. destruct (String.eqb ref ""); [apply wp_ret, mild_refl|].
  destruct (HasPrefix ref clientScratchPrefix) eqn:Ep; simpl; [|apply wp_ret, mild_refl]. apply wp_mod. split; [|done].
  intros n Hn. simpl. destruct (decide (n = ref)) as [->|Hne]; [by right|]. left. by apply DeleteRef_keeps.
Qed.

Lemma Submit_mild {GN : Gone} fuel req s : sched_ok s → (∀ id, rand_id (g_ticks s) = Ok id → g_requests s !! id = None) →
  wp (Submit (run_procs fuel) req) s (λ _, mild s).
Proof.
  intros Hs Hfr. unfold Submit. destruct (check_submit req) as [[def res]|e]; [|apply wp_ret, mild_refl]. apply wp_bind.
  intros r s1 E. pose proof (publish_puts req def (g_store s)) as Hp. pose proof (publish_keep req def s Hs) as K.
  destruct (publish_submit req def (g_store s)) as [st r0] eqn:Ep. injection E as <- <-. simpl in Hp, K.
  assert (M1 : mild s (set_g_store st s)) by (split; [intros n Hn; left; by apply Hp|done]).
  destruct r0 as [k|e]; [|by apply wp_ret]. apply wp_bind. intros idr s2 [= <- <-].
  assert (O2 : outside (set_g_store st s) (set_g_ticks (S (g_ticks (set_g_store st s))) (set_g_store st s))) by apply outside_tick.
  set (s2 := set_g_ticks _ _) in *. pose proof (mild_trans _ _ _ M1 (mild_outside _ _ O2)) as M2.
  destruct (rand_id (g_ticks s)) as [id|e] eqn:Eid; [|by apply wp_ret].
  eapply wp_mild_bind; [exact M2|apply submit_locked_mild; [by apply (keep_outside _ _ O2), K|by eapply Hfr]|].
  intros [[]|e] s3 M3; [|by apply wp_ret]. eapply wp_mild_bind; [exact M3|apply scratch_mild|]. intros [] s4 M4. by apply wp_ret.
Qed.

(** ** Requests of the build protocol *)

Context {AC : ApiCodec} (env : api_env) (fuel : nat).
Hypothesis Hprocs : ae_procs env = run_procs fuel.

(** The outcome of a request that forgets nothing. *)
Definition confined (sv : server) (sv' : server) : Prop := sv_gc sv' = sv_gc sv ∧ mild (sv_sched sv) (sv_sched sv').

Lemma confined_refl sv : confined sv sv.
Proof. split; [done|apply mild_refl]. Qed.

Lemma on_sched_confined {A} (m : M Sched A) sv a sv' : wp m (sv_sched sv) (λ _, mild (sv_sched sv)) →
  on_sched m sv = SVRet a sv' → confined sv sv'.
Proof.
  unfold on_sched, on_hub, lift, sv_sched. intros Hw. destruct (m _) as [[b s']|] eqn:E; [|done]. intros [= <- <-]. split; [done|by apply (Hw b)].
Qed.

(** Watching and reading logs only move the clock. *)
Lemma hub_confined {A} (m : H A) sv a sv' : (∀ b h', m (sv_hub sv) = RRet b h' → outside (sv_sched sv) (c_sched (h_cfg h'))) →
  on_hub m sv = SVRet a sv' → confined sv sv'.
Proof.
  intros Hm. unfold on_hub. destruct (m (sv_hub sv)) as [| |b h'] eqn:E; try done. intros [= <- <-]. split; [done|].
  apply mild_outside. by apply (Hm b).
Qed.

Lemma Watch_outside id h b h' : Watch id h = RRet b h' → outside (c_sched (h_cfg h)) (c_sched (h_cfg h')).
Proof.
  unfold Watch, mbind, H_bind, getH. destruct (g_requests _ !! id) as [r|]; [|intros [= _ <-]; apply outside_refl].
  unfold lift at 1. destruct (assembleLocked r _) as [[snap s']|] eqn:E; [|done].
  assert (O : outside (c_sched (h_cfg h)) s') by (eapply (assemble_outside r _ (λ _ s', outside _ s')); [done|exact E]).
  destruct (try_send snap (make_chan watchBuf)) as [| |c]; [done|done|]. cbn [modH]. destruct (sn_Terminal snap).
  - destruct (close_chan c); [|done]. by intros [= _ <-].
  - by intros [= _ <-].
Qed.

Lemma Logs_outside name follow h b h' : Logs name follow h = RRet b h' → outside (c_sched (h_cfg h)) (c_sched (h_cfg h')).
Proof.
  unfold Logs, mbind, H_bind, getH. destruct (ParseNodeName name); [|intros [= _ <-]; apply outside_refl].
  destruct follow; intros [= _ <-]; apply outside_refl.
Qed.

Lemma coded_state {A} (r : result (err_code * string) A) (k : A → SV (result api_error outcome)) sv a sv' :
  (∀ x a sv', k x sv = SVRet a sv' → sv' = sv) → coded r k sv = SVRet a sv' → sv' = sv.
Proof. intros Hk. destruct r as [x|[c t]]; [apply Hk|by intros [= _ <-]]. Qed.

Lemma body_confined {A} t (dec : bytes → result string A) body k sv a sv' :
  (∀ x a sv', k x sv = SVRet a sv' → confined sv sv') → with_body t dec body k sv = SVRet a sv' → confined sv sv'.
Proof. intros Hk. unfold with_body. destruct (DecodeBody dec body); [apply Hk|intros [= _ <-]; apply confined_refl]. Qed.

(** A handler that runs one operation and answers. *)
Lemma step_confined {A} (m : SV A) (k : A → SV (result api_error outcome)) sv a sv' :
  (∀ b sv1, m sv = SVRet b sv1 → confined sv sv1) → (∀ x sv1 a sv2, k x sv1 = SVRet a sv2 → sv2 = sv1) →
  (m ≫= k) sv = SVRet a sv' → confined sv sv'.
Proof.
  intros Hm Hk. unfold mbind, SV_bind. destruct (m sv) as [| |b sv1] eqn:E; [done|done|]. intros H%Hk. subst. by eapply Hm.
Qed.

(** [C14] What a build client can do: whatever frame it sends in a reachable
    state whose next random request id is not in use, the collector is
    untouched, every request stays known and no reference outside its scratch
    namespace is deleted; a frame type that is not submit, watch, logs or
    cancel is refused as a bad request and changes nothing. *)
Theorem build_confined t body sv a sv' :
  hub_reachable (sv_hub sv) → (∀ id, rand_id (g_ticks (sv_sched sv)) = Ok id → g_requests (sv_sched sv) !! id = None) →
  dispatch env false t body sv = SVRet a sv' →
  confined sv sv' ∧ (t ∉ [TSubmit; TWatch; TLogs; TCancel] → sv' = sv ∧ ∃ text, a = Err (AE CodeBadRequest text)).
Proof using Hprocs.
  intros [D [[Hs _] _]]%hub_reachable_ok Hfr. unfold dispatch, build_request. rewrite Hprocs.
  destruct (String.eqb_spec t TSubmit) as [->|N1].
  { intros H. split; [|set_solver]. revert H. apply body_confined. intros req b sv1. apply step_confined; [|intros; by eapply coded_state; [|done]; intros ? ? ? [= _ <-]].
    intros r sv2. apply on_sched_confined. by apply Submit_mild. }
  destruct (String.eqb_spec t TWatch) as [->|N2].
  { intros H. split; [|set_solver]. revert H. apply body_confined. intros id b sv1. apply step_confined; [|intros; by eapply coded_state; [|done]; intros ? ? ? [= _ <-]].
    intros r sv2. apply hub_confined. intros. by eapply Watch_outside. }
  destruct (String.eqb_spec t TLogs) as [->|N3].
  { intros H. split; [|set_solver]. revert H. apply body_confined. intros nf b sv1. apply step_confined; [|intros; by eapply coded_state; [|done]; intros ? ? ? [= _ <-]].
    intros r sv2. apply hub_confined. intros. by eapply Logs_outside. }
  destruct (String.eqb_spec t TCancel) as [->|N4].
  { intros H. split; [|set_solver]. revert H. apply body_confined. intros id b sv1. apply step_confined; [|intros; by eapply coded_state; [|done]; intros ? ? ? [= _ <-]].
    intros r sv2. apply on_sched_confined. by apply Cancel_mild. }
  intros [= <- <-]. split; [apply confined_refl|]. intros _. split; [done|by eexists].
Qed.
End ApiFacts.

(** * A build client's submission, on a concrete codec *)
From S2P Require Import Prelude GoLib Resources Keys Wire Builddef Store Gate Commit LogBuf Frames Reftrack GcSweep SchedState PullRefs Graph Results Submit GraphFacts SchedInv SchedRec Walk Snapshots Evict SchedSteps SchedSys Demo Watch WatchFacts Diagnose Api.

(** A frame is its type's length in ones, a zero, the type and the body. *)
Fixpoint take_ones (b : LogBuf.bytes) : option (nat * LogBuf.bytes) :=
  match b with
  | [] => None
  | c :: r => if decide (c = "1"%char) then '(n, r) ← take_ones r; Some (S n, r) else Some (0%nat, r)
  end.

Definition plain_frame (t : string) (b : option LogBuf.bytes) : LogBuf.bytes :=
  let l := String.list_ascii_of_string t in replicate (length l) "1"%char ++ "0"%char :: l ++ default [] b.

Definition plain_unframe (p : LogBuf.bytes) : result string (string * LogBuf.bytes) :=
  match take_ones p with
  | None => Err "short"
  | Some (n, r) => Ok (String.string_of_list_ascii (take n r), drop n r)
  end.

Lemma take_ones_replicate n r : take_ones (replicate n "1"%char ++ "0"%char :: r) = Some (n, r).
Proof. induction n as [|n IH]; simpl; [done|]. by rewrite IH. Qed.

Lemma plain_law t b p : @Ok string _ (plain_frame t b) = Ok p → plain_unframe p = Ok (t, default [] b).
Proof.
  intros [= <-]. unfold plain_unframe, plain_frame. rewrite take_ones_replicate, take_app_length, drop_app_length.
  by rewrite String.string_of_list_ascii_of_string.
Qed.

#[local] Abbreviation lib0 := (build_lib "" demo_resolved).
#[local] Abbreviation env0 := (demo_env "" demo_resolved).

(** Every body stands for the same request. *)
Definition demo_codec : @ApiCodec string_keys := {|
  frame_Marshal := λ t b, Ok (plain_frame t b); frame_Unmarshal := plain_unframe; frame_law := plain_law;
  enc_reply := λ r, match r with RSnapshot s => Ok (String.list_ascii_of_string (sn_Phase s)) | _ => Ok ["x"%char] end;
  dec_Submit := λ _, Ok demo_submit; dec_Watch := λ _, Ok "r1"; dec_Logs := λ _, Ok ("n", true); dec_Cancel := λ _, Ok "r1";
  dec_Refs := λ _, Ok ("", 0%Z); dec_Diagnose := λ _, Ok (mkDiag "r1" "" 0 0); dec_GC := λ _, Ok None; dec_Pin := λ _, Ok "x" |}.

Definition demo_api : @api_env string_keys lib0 := {|
  ae_refs := λ _ _, Ok []; ae_created := λ _, 0%Z; ae_dirSize := λ _, 0%Z; ae_started := 0%Z;
  ae_sweep := λ i _, sweep_at (Z.of_nat i); ae_consumer := λ _ _, Ok empty_consumer;
  ae_kv := λ _ _, None; ae_procs := @run_procs _ _ env0 8 |}.

(** The hub after the scheduler moved to [s]. *)
Definition moved (s : Sched) (h : @hub string_keys lib0) : hub :=
  set_h_kv (h_lastKVVersion h) (note_statuses (g_out (c_sched (h_cfg h))) (g_out s) (h_lastReqKV h)) (set_h_cfg (mkCfg s PNone) h).

(** The server with one request running. *)
Definition demo_sv : @server string_keys lib0 :=
  mkServer (moved (demo_s2 "" demo_resolved) (moved (demo_s1 "" demo_resolved) (new_hub (initial (demo_store "" demo_resolved))))) None.

Lemma moved_step {A} (m : M Sched A) s h : h_cfg h = mkCfg s PNone → match m s with Some _ => true | None => false end = true →
  (∀ r s', m s = Some (r, s') → @handler _ _ env0 s s') → @hub_step _ _ env0 h (moved (Demo.run m s) h).
Proof.
  intros Ec Hm Hh. destruct (run_some m s Hm) as [a E]. eapply (@hs_sched _ _ env0 h). rewrite Ec. by eapply st_own, st_handler, Hh.
Qed.

Lemma demo_sv_reachable : @hub_reachable _ _ env0 (sv_hub demo_sv).
Proof.
  exists (demo_store "" demo_resolved). eapply rtc_l; [|apply rtc_once].
  - apply (moved_step (@onRunnerHello _ _ env0 (Some demo_hello))); [reflexivity|vm_compute; reflexivity|]. intros r s'. apply h_hello.
  - apply (moved_step (@submit_locked _ _ env0 (@run_procs _ _ env0 8) "r1" "top" demo_submit (demo_def "top") (mkRes 0 0))); [reflexivity|vm_compute; reflexivity|].
    intros r s'. apply h_submit. by vm_compute.
Qed.

Lemma build_confined_witness : ∃ a sv',
  @dispatch _ _ env0 demo_codec demo_api false TSubmit ["x"%char] demo_sv = SVRet a sv' ∧ is_Some (g_requests (sv_sched sv') !! "r1").
Proof.
  assert (Hb : match @dispatch _ _ env0 demo_codec demo_api false TSubmit ["x"%char] demo_sv with
    | SVRet (Ok (OReply (RSubmitted _ _))) _ => true | _ => false end = true) by (vm_compute; reflexivity).
  destruct (@dispatch _ _ env0 demo_codec demo_api false TSubmit ["x"%char] demo_sv) as [| |a sv'] eqn:E; try discriminate Hb.
  exists a, sv'. split; [reflexivity|].
  destruct (@build_confined _ _ env0 demo_codec demo_api 8 eq_refl TSubmit ["x"%char] demo_sv a sv' demo_sv_reachable) as [[_ [_ Hq]] _].
  - intros id Hid. assert (Hn : match @rand_id _ _ env0 (g_ticks (sv_sched demo_sv)) with
      | Ok id => bool_decide (g_requests (sv_sched demo_sv) !! id = None) | Err _ => true end = true) by (vm_compute; reflexivity).
    rewrite Hid in Hn. by apply bool_decide_eq_true in Hn.
  - exact E.
  - apply Hq. vm_compute. by eexists.
Defined.
