(* ===== verification/BlobCache.v ===== *)
(** * The registry's blob files (src/registryd/blobcache.go)

    Blobs live in one directory under their digests. A blob is written to a
    temporary file, hashed on the way, verified, synced and renamed. Any number
    of writers, the sweep and readers run at once, and the machine may crash:
    files are inodes that names lead to, and a crash keeps only what was synced. *)
From S2P Require Import Prelude GoLib.
Local Open Scope string_scope.
Local Open Scope list_scope.

(** [v1.Hash]: an algorithm and the digest in hex. *)
Record Hash := mkHash { Algorithm : string; Hex : string }.

Global Instance Hash_eq_dec : EqDecision Hash.
Proof. solve_decision. Defined.

Definition Hash_String (d : Hash) : string := Algorithm d +:+ ":" +:+ Hex d.

(** ** The directory *)

Record file := mkFile { f_data : string; f_mtime : Z; f_synced : bool }.

(** [fs_links] are all the names that ever led to a file: those that a crash
    may bring back. Inode numbers are not used again. *)
Record fsys := mkFs {
  fs_dir : gmap string nat; fs_inodes : gmap nat file; fs_links : list (string * nat); fs_next : nat }.

Definition fs_empty : fsys := mkFs ∅ ∅ [] 0.

Definition link (n : string) (i : nat) (fs : fsys) : fsys := mkFs (<[n := i]> (fs_dir fs)) (fs_inodes fs) ((n, i) :: fs_links fs) (fs_next fs).
Definition unlink (n : string) (fs : fsys) : fsys := mkFs (delete n (fs_dir fs)) (fs_inodes fs) (fs_links fs) (fs_next fs).
Definition set_inode (i : nat) (f : file) (fs : fsys) : fsys := mkFs (fs_dir fs) (<[i := f]> (fs_inodes fs)) (fs_links fs) (fs_next fs).

(** The file a name leads to. *)
Definition stat (n : string) (fs : fsys) : option (nat * file) :=
  i ← fs_dir fs !! n; f ← fs_inodes fs !! i; Some (i, f).

(** [os.CreateTemp]: a new empty file. *)
Definition create (n : string) (now : Z) (fs : fsys) : fsys :=
  let i := fs_next fs in
  mkFs (<[n := i]> (fs_dir fs)) (<[i := mkFile "" now false]> (fs_inodes fs)) ((n, i) :: fs_links fs) (S i).

Definition append_file (i : nat) (b : string) (now : Z) (fs : fsys) : fsys :=
  match fs_inodes fs !! i with
  | Some f => set_inode i (mkFile (f_data f +:+ b) now false) fs
  | None => fs
  end.

Definition sync_file (i : nat) (fs : fsys) : fsys :=
  match fs_inodes fs !! i with
  | Some f => set_inode i (mkFile (f_data f) (f_mtime f) true) fs
  | None => fs
  end.

(** [os.Rename] within the directory. *)
Definition rename (src dst : string) (fs : fsys) : option fsys :=
  match fs_dir fs !! src with
  | Some i => Some (link dst i (unlink src fs))
  | None => None
  end.

(** [os.Chtimes]: only the times change. *)
Definition chtimes (n : string) (now : Z) (fs : fsys) : fsys :=
  match stat n fs with
  | Some (i, f) => set_inode i (mkFile (f_data f) now (f_synced f)) fs
  | None => fs
  end.

(** ** The cache's operations *)

(** Only the sha256 directory exists: other digests have no file. *)
Definition has (d : Hash) (fs : fsys) : bool := String.eqb (Algorithm d) "sha256" && bool_decide (is_Some (stat (Hex d) fs)).

Definition touch (d : Hash) (now : Z) (fs : fsys) : fsys := if String.eqb (Algorithm d) "sha256" then chtimes (Hex d) now fs else fs.

Definition get (d : Hash) (fs : fsys) : option string :=
  if String.eqb (Algorithm d) "sha256" then (λ p, f_data (snd p)) <$> stat (Hex d) fs else None.

(** [open]: the bytes behind the descriptor, and their length. *)
Definition open (d : Hash) (fs : fsys) : option (string * Z) := (λ b, (b, Z.of_nat (String.length b))) <$> get d fs.

Definition is_tmp (n : string) : bool := HasPrefix n "tmp-".

Section Put.
(** The hex form of the SHA-256 of some bytes. *)
Context (sha256 : string → string).

(** What the outside decides about one operation of a writer: it succeeds, it
    fails (a write possibly after some bytes), the reader delivers bytes, the
    name a temporary file gets. *)
Inductive put_ev := EvOk | EvFault (e : string) (written : string) | EvChunk (b : string) | EvTmp (n : string).

(** Where a call of [put] stands. [PRemove] is the deferred close and removal
    of the temporary file, with the result to return. *)
Inductive put_pc :=
| PHas | PTouch | PMkdir | PCreate
| PCopy (tmp : string) (i : nat) (hashed : string)
| PSync (tmp : string) (i : nat)
| PClose (tmp : string) (i : nat)
| PRename (tmp : string) (i : nat)
| PRemove (tmp : string) (r : result string unit)
| PDone (r : result string unit).

Record putter := mkPut { pu_d : Hash; pu_pc : put_pc }.

Definition put_begin (d : Hash) : putter :=
  mkPut d (if String.eqb (Algorithm d) "sha256" then PHas else PDone (Err ("unsupported digest algorithm " +:+ Algorithm d))).

(** One operation of [put]. [None]: the event does not fit the operation. *)
Definition put_step (ev : put_ev) (now : Z) (p : putter) (fs : fsys) : option (putter * fsys) :=
  let d := pu_d p in
  let go pc fs := Some (mkPut d pc, fs) in
  match pu_pc p, ev with
  | PHas, EvOk => go (if has d fs then PTouch else PMkdir) fs
  | PTouch, EvOk => go (PDone (Ok tt)) (touch d now fs)
  | PTouch, EvFault _ _ => go (PDone (Ok tt)) fs
  | PMkdir, EvOk => go PCreate fs
  | PMkdir, EvFault e _ => go (PDone (Err e)) fs
  | PCreate, EvFault e _ => go (PDone (Err e)) fs
  | PCreate, EvTmp n =>
      if is_tmp n && bool_decide (fs_dir fs !! n = None) then go (PCopy n (fs_next fs) "") (create n now fs) else None
  | PCopy tmp i h, EvChunk b => go (PCopy tmp i (h +:+ b)) (append_file i b now fs)
  | PCopy tmp i h, EvFault e w => go (PRemove tmp (Err e)) (append_file i w now fs)
  | PCopy tmp i h, EvOk =>
      if String.eqb (sha256 h) (Hex d) then go (PSync tmp i) fs
      else go (PRemove tmp (Err ("blob hash mismatch: wrote sha256:" +:+ sha256 h +:+ ", want " +:+ Hash_String d))) fs
  | PSync tmp i, EvOk => go (PClose tmp i) (sync_file i fs)
  | PSync tmp i, EvFault e _ => go (PRemove tmp (Err e)) fs
  | PClose tmp i, EvOk => go (PRename tmp i) fs
  | PClose tmp i, EvFault e _ => go (PRemove tmp (Err e)) fs
  | PRename tmp i, EvOk =>
      match rename tmp (Hex d) fs with
      | Some fs => go (PRemove tmp (Ok tt)) fs
      | None => go (PRemove tmp (Err "no such file")) fs
      end
  | PRename tmp i, EvFault e _ => go (PRemove tmp (Err e)) fs
  | PRemove tmp r, EvOk => go (PDone r) (unlink tmp fs)
  | PRemove tmp r, EvFault _ _ => go (PDone r) fs
  | _, _ => None
  end.

(** The temporary file a writer may still write or rename. *)
Definition temp_of (p : putter) : option (string * nat) :=
  match pu_pc p with
  | PCopy t i _ | PSync t i | PClose t i | PRename t i => Some (t, i)
  | _ => None
  end.

(** ** The sweep *)

Definition hour : Z := 3600000000000.

(** Not read for [ttl]; temporary files expire after an hour as well. *)
Definition is_stale (ttl now : Z) (n : string) (mtime : Z) : bool :=
  let stale := (mtime <? i64 (now - ttl))%Z in
  if is_tmp n then (mtime <? i64 (now - hour))%Z || stale else stale.

(** The sweep between its operations: the names still to look at, and the one
    found stale, with its size. *)
Inductive sweeper := SwNext (names : list string) (removed : Z) (bytes : Z) | SwRemove (n : string) (size : Z) (names : list string) (removed : Z) (bytes : Z).

(** One operation: [fault] is whether it fails. [Info] reads the file's state
    when it is called, and removal takes whatever has the name by then. *)
Definition sweep_step (ttl now : Z) (fault : bool) (sw : sweeper) (fs : fsys) : option (sweeper * fsys) :=
  match sw with
  | SwNext [] _ _ => None
  | SwNext (n :: ns) r b =>
      match (if fault then None else stat n fs) with
      | None => Some (SwNext ns r b, fs)
      | Some (_, f) =>
          if is_stale ttl now n (f_mtime f) then Some (SwRemove n (Z.of_nat (String.length (f_data f))) ns r b, fs)
          else Some (SwNext ns r b, fs)
      end
  | SwRemove n sz ns r b =>
      if fault || bool_decide (fs_dir fs !! n = None) then Some (SwNext ns r b, fs)
      else Some (SwNext ns (r + 1) (b + sz), unlink n fs)
  end.

(** ** The cache while it runs *)

Record cache := mkCache { c_fs : fsys; c_put : gmap nat putter; c_sweep : option (Z * Z * sweeper) }.

Definition cache_empty : cache := mkCache fs_empty ∅ None.

(** A crash: of the files not synced anything may be left, the names are any
    of those that were ever given, and whoever ran is gone. *)
Definition crashed (dir : gmap string nat) (left_ : nat → string) (fs : fsys) : fsys :=
  mkFs dir (map_imap (λ i f, Some (if f_synced f then f else mkFile (left_ i) (f_mtime f) false)) (fs_inodes fs)) (fs_links fs) (fs_next fs).

(** The steps of the cache. Digests are hex ([v1.NewHash] accepts no others,
    and computed ones are printed so). [CreateTemp] draws names at random; a name is not
    drawn again while the writer that got it first may still use it. *)
Inductive cache_step : cache → cache → Prop :=
| cs_begin s j d : c_put s !! j = None → all_bytes is_hex_byte (Hex d) = true → cache_step s (mkCache (c_fs s) (<[j := put_begin d]> (c_put s)) (c_sweep s))
| cs_put s j p ev now p' fs' : c_put s !! j = Some p → put_step ev now p (c_fs s) = Some (p', fs') →
    (∀ n, ev = EvTmp n → ∀ j' q i, c_put s !! j' = Some q → temp_of q ≠ Some (n, i)) →
    cache_step s (mkCache fs' (<[j := p']> (c_put s)) (c_sweep s))
| cs_end s j p r : c_put s !! j = Some p → pu_pc p = PDone r → cache_step s (mkCache (c_fs s) (delete j (c_put s)) (c_sweep s))
| cs_touch s d now : cache_step s (mkCache (touch d now (c_fs s)) (c_put s) (c_sweep s))
| cs_sweep_begin s ttl now names : cache_step s (mkCache (c_fs s) (c_put s) (Some (ttl, now, SwNext names 0 0)))
| cs_sweep s ttl now fault sw sw' fs' : c_sweep s = Some (ttl, now, sw) → sweep_step ttl now fault sw (c_fs s) = Some (sw', fs') →
    cache_step s (mkCache fs' (c_put s) (Some (ttl, now, sw')))
| cs_crash s dir left_ : (∀ n i, dir !! n = Some i → (n, i) ∈ fs_links (c_fs s)) → cache_step s (mkCache (crashed dir left_ (c_fs s)) ∅ None).

Inductive cache_reach : cache → Prop :=
| cr_start : cache_reach cache_empty
| cr_step s s' : cache_reach s → cache_step s s' → cache_reach s'.

(** ** The invariant *)

(** A blob file is complete, on disk, and hashes to its name. *)
Definition sound_file (fs : fsys) (n : string) (i : nat) : Prop := ∃ f, fs_inodes fs !! i = Some f ∧ f_synced f = true ∧ sha256 (f_data f) = n.

Record fs_sound (fs : fsys) : Prop := {
  fss_links : ∀ n i, (n, i) ∈ fs_links fs → is_tmp n = false → sound_file fs n i;
  fss_dir : ∀ n i, fs_dir fs !! n = Some i → (n, i) ∈ fs_links fs;
  fss_next : ∀ n i, (n, i) ∈ fs_links fs → (i < fs_next fs)%nat }.

(** What a writer may rely on about its temporary file. *)
Definition pc_ok (fs : fsys) (d : Hash) (pc : put_pc) : Prop :=
  match pc with
  | PCopy _ i h => ∃ f, fs_inodes fs !! i = Some f ∧ f_data f = h
  | PSync _ i => ∃ f, fs_inodes fs !! i = Some f ∧ sha256 (f_data f) = Hex d
  | PClose _ i | PRename _ i => ∃ f, fs_inodes fs !! i = Some f ∧ sha256 (f_data f) = Hex d ∧ f_synced f = true
  | _ => True
  end.

(** Its temporary file is no blob, and its name leads nowhere else. *)
Record temp_ok (fs : fsys) (t : string) (i : nat) : Prop := {
  to_tmp : is_tmp t = true;
  to_lt : (i < fs_next fs)%nat;
  to_only : ∀ k, fs_dir fs !! t = Some k → k = i;
  to_noblob : ∀ n, (n, i) ∈ fs_links fs → is_tmp n = true }.

Record cache_inv (s : cache) : Prop := {
  ci_fs : fs_sound (c_fs s);
  ci_hex : ∀ j p, c_put s !! j = Some p → is_tmp (Hex (pu_d p)) = false;
  ci_pc : ∀ j p, c_put s !! j = Some p → pc_ok (c_fs s) (pu_d p) (pu_pc p);
  ci_temp : ∀ j p t i, c_put s !! j = Some p → temp_of p = Some (t, i) → temp_ok (c_fs s) t i;
  ci_excl : ∀ j j' p p' t t' i i', c_put s !! j = Some p → c_put s !! j' = Some p' → temp_of p = Some (t, i) → temp_of p' = Some (t', i') →
    j ≠ j' → t ≠ t' ∧ i ≠ i' }.

Lemma hex_not_tmp h : all_bytes is_hex_byte h = true → is_tmp h = false.
Proof.
  destruct h as [|a h]; [done|]. intros H. unfold is_tmp, HasPrefix. cbn [String.prefix]. destruct (Ascii.ascii_dec _ a) as [<-|]; [|done].
  by apply andb_true_iff in H as [H _].
Qed.

(** ** Operations that change no content *)

(** Names may go and times and sync marks change; contents stay. *)
Record quiet (fs fs' : fsys) : Prop := {
  q_inodes : ∀ i f, fs_inodes fs !! i = Some f → ∃ f', fs_inodes fs' !! i = Some f' ∧ f_data f' = f_data f ∧ (f_synced f = true → f_synced f' = true);
  q_links : fs_links fs' = fs_links fs;
  q_next : fs_next fs' = fs_next fs;
  q_dir : ∀ n i, fs_dir fs' !! n = Some i → fs_dir fs !! n = Some i }.

Lemma fs_quiet_refl fs : quiet fs fs.
Proof. split; eauto. Qed.

Lemma quiet_unlink n fs : quiet fs (unlink n fs).
Proof. split; cbn; eauto. intros m i [_ H]%lookup_delete_Some. done. Qed.

Lemma quiet_set_inode i f f' fs : fs_inodes fs !! i = Some f → f_data f' = f_data f → (f_synced f = true → f_synced f' = true) → quiet fs (set_inode i f' fs).
Proof.
  intros Hi Hd Hs. split; cbn; try done. intros k g Hk. destruct (decide (i = k)) as [->|Hne].
  - rewrite lookup_insert_eq. assert (g = f) as -> by congruence. eauto.
  - rewrite lookup_insert_ne by done. eauto.
Qed.

Lemma quiet_touch d now fs : quiet fs (touch d now fs).
Proof.
  unfold touch, chtimes. destruct (String.eqb _ _); [|apply fs_quiet_refl]. destruct (stat _ fs) as [[i f]|] eqn:E; [|apply fs_quiet_refl].
  unfold stat in E. apply bind_Some in E as (i' & _ & E). apply bind_Some in E as (f' & Hf & [= -> ->]). by eapply quiet_set_inode.
Qed.

Lemma quiet_sync i fs : quiet fs (sync_file i fs).
Proof. unfold sync_file. destruct (fs_inodes fs !! i) eqn:E; [|apply fs_quiet_refl]. by eapply quiet_set_inode. Qed.

Lemma quiet_sound fs fs' : quiet fs fs' → fs_sound fs → fs_sound fs'.
Proof.
  intros [Hi Hl Hn Hd] [S1 S2 S3]. split.
  - intros n i. rewrite Hl. intros Hin Ht. destruct (S1 n i Hin Ht) as (f & Hf & Hs & Hh). destruct (Hi i f Hf) as (f' & Hf' & Ed & Es).
    exists f'. rewrite Ed. auto.
  - intros n i H%Hd. rewrite Hl. auto.
  - intros n i. rewrite Hl, Hn. apply S3.
Qed.

Lemma quiet_pc fs fs' d pc : quiet fs fs' → pc_ok fs d pc → pc_ok fs' d pc.
Proof.
  intros [Hi _ _ _]. destruct pc; cbn; try done; intros (f & Hf & H); destruct (Hi _ f Hf) as (f' & Hf' & Ed & Es); exists f'; rewrite Ed; naive_solver.
Qed.

Lemma quiet_temp fs fs' t i : quiet fs fs' → temp_ok fs t i → temp_ok fs' t i.
Proof. intros [_ Hl Hn Hd] [? ? ? ?]. split; rewrite ?Hl, ?Hn; eauto. Qed.

(** ** The other operations *)

Lemma create_others n now fs t i d pc : is_tmp n = true → temp_ok fs t i → t ≠ n → (temp_of (mkPut d pc) = Some (t, i) → pc_ok fs d pc → pc_ok (create n now fs) d pc) ∧ temp_ok (create n now fs) t i.
Proof.
  intros Hn [Ht Hlt Ho Hb] Hne. split.
  - destruct pc; cbn; try done; intros [= -> ->] (f & Hf & H); exists f; rewrite lookup_insert_ne by lia; done.
  - split; cbn; [done|lia| |].
    + intros k. rewrite lookup_insert_ne by done. apply Ho.
    + intros m [[= -> ->]|H]%elem_of_cons; [done|by apply Hb].
Qed.

Lemma create_sound n now fs : is_tmp n = true → fs_sound fs → fs_sound (create n now fs).
Proof.
  intros Hn [S1 S2 S3]. split; cbn.
  - intros m i [[= -> ->]|H]%elem_of_cons Hm; [congruence|]. destruct (S1 m i H Hm) as (f & Hf & Hrest). exists f. cbn.
    specialize (S3 m i H). rewrite lookup_insert_ne by lia. done.
  - intros m i. destruct (decide (n = m)) as [->|Hne]; [rewrite lookup_insert_eq; intros [= <-]; left|].
    rewrite lookup_insert_ne by done. intros H%S2. by right.
  - intros m i [[= -> ->]|H]%elem_of_cons; [lia|]. specialize (S3 m i H). lia.
Qed.

Lemma append_lookup i b now fs k : k ≠ i → fs_inodes (append_file i b now fs) !! k = fs_inodes fs !! k.
Proof. intros Hk. unfold append_file. destruct (fs_inodes fs !! i); [|done]. cbn. by rewrite lookup_insert_ne. Qed.

Lemma append_same i b now fs : fs_dir (append_file i b now fs) = fs_dir fs ∧ fs_links (append_file i b now fs) = fs_links fs ∧ fs_next (append_file i b now fs) = fs_next fs.
Proof. unfold append_file. by destruct (fs_inodes fs !! i). Qed.

Lemma append_sound i b now fs : (∀ n, (n, i) ∈ fs_links fs → is_tmp n = true) → fs_sound fs → fs_sound (append_file i b now fs).
Proof.
  intros Hi [S1 S2 S3]. destruct (append_same i b now fs) as (Ed & El & En). split; rewrite ?Ed, ?El, ?En; try done.
  intros n k Hin Ht. destruct (S1 n k Hin Ht) as (f & Hf & Hr). exists f. rewrite append_lookup; [done|]. intros ->. rewrite (Hi n Hin) in Ht. done.
Qed.

Lemma append_temp i b now fs t k : temp_ok fs t k → temp_ok (append_file i b now fs) t k.
Proof. intros [? ? ? ?]. destruct (append_same i b now fs) as (Ed & El & En). split; rewrite ?Ed, ?El, ?En; done. Qed.

Lemma pc_ok_inode fs fs' p t i : temp_of p = Some (t, i) → fs_inodes fs' !! i = fs_inodes fs !! i → pc_ok fs (pu_d p) (pu_pc p) → pc_ok fs' (pu_d p) (pu_pc p).
Proof. unfold temp_of. destruct (pu_pc p); cbn; try done; intros [= <- <-] ->; done. Qed.

Lemma pc_ok_none fs fs' p : temp_of p = None → pc_ok fs (pu_d p) (pu_pc p) → pc_ok fs' (pu_d p) (pu_pc p).
Proof. unfold temp_of. by destruct (pu_pc p). Qed.

Lemma rename_sound t d fs fs' i f : rename t (Hex d) fs = Some fs' → temp_ok fs t i → fs_inodes fs !! i = Some f → f_synced f = true → sha256 (f_data f) = Hex d →
  fs_sound fs → fs_sound fs' ∧ fs_links fs' = (Hex d, i) :: fs_links fs ∧ fs_next fs' = fs_next fs ∧ fs_inodes fs' = fs_inodes fs ∧
    ∀ n k, fs_dir fs' !! n = Some k → (n = Hex d ∧ k = i) ∨ fs_dir fs !! n = Some k.
Proof.
  unfold rename. intros E [Ht Hlt Ho Hb] Hf Hs Hh [S1 S2 S3]. destruct (fs_dir fs !! t) as [k|] eqn:Ed; [|done]. injection E as <-.
  specialize (Ho k eq_refl) as ->.
  assert (Hd : ∀ n k, fs_dir (link (Hex d) i (unlink t fs)) !! n = Some k → (n = Hex d ∧ k = i) ∨ fs_dir fs !! n = Some k).
  { intros n k. cbn. destruct (decide (Hex d = n)) as [<-|Hne]; [rewrite lookup_insert_eq; intros [= <-]; auto|].
    rewrite lookup_insert_ne by done. intros [_ H]%lookup_delete_Some. auto. }
  split; [|done]. split; cbn.
  - intros n k [[= -> ->]|H]%elem_of_cons Hn; [by exists f|]. destruct (S1 n k H Hn) as (g & Hg & Hr). by exists g.
  - intros n k [[-> ->]|H]%Hd; [left|]. right. by apply S2.
  - intros n k [[= -> ->]|H]%elem_of_cons; [done|eauto].
Qed.

(** ** The invariant is kept *)

Lemma inv_update s j p p' fs' sw : cache_inv s → c_put s !! j = Some p → pu_d p' = pu_d p → fs_sound fs' → pc_ok fs' (pu_d p') (pu_pc p') →
  (∀ t i, temp_of p' = Some (t, i) → temp_ok fs' t i ∧
    (temp_of p = Some (t, i) ∨ ∀ j' q t' i', j' ≠ j → c_put s !! j' = Some q → temp_of q = Some (t', i') → t' ≠ t ∧ i' ≠ i)) →
  (∀ j' q, j' ≠ j → c_put s !! j' = Some q → pc_ok fs' (pu_d q) (pu_pc q)) →
  (∀ j' q t i, j' ≠ j → c_put s !! j' = Some q → temp_of q = Some (t, i) → temp_ok fs' t i) →
  cache_inv (mkCache fs' (<[j := p']> (c_put s)) sw).
Proof.
  intros [I1 I2 I3 I4 I5] Hj Hd Hfs Hpc Ht Hopc Hot. split; cbn; [done|..].
  - intros j' q [[<- <-]|[Hne Hq]]%lookup_insert_Some; [rewrite Hd|]; eauto.
  - intros j' q [[<- <-]|[Hne Hq]]%lookup_insert_Some; eauto.
  - intros j' q t i [[<- <-]|[Hne Hq]]%lookup_insert_Some Hq'; [by apply Ht|by eapply Hot].
  - intros j1 j2 q1 q2 t1 t2 i1 i2 [[<- <-]|[Hne1 H1]]%lookup_insert_Some [[<- <-]|[Hne2 H2]]%lookup_insert_Some E1 E2 Hj12; [done|..].
    + destruct (Ht _ _ E1) as [_ [Hp|Hf]]; [by eapply (I5 j j2)|]. destruct (Hf j2 q2 t2 i2) as [? ?]; auto.
    + destruct (Ht _ _ E2) as [_ [Hp|Hf]]; [by eapply (I5 j1 j)|]. destruct (Hf j1 q1 t1 i1) as [? ?]; auto.
    + by eapply (I5 j1 j2).
Qed.

(** A quiet operation of a writer that keeps or gives up its temporary file. *)
Lemma inv_quiet s j p p' fs' sw : cache_inv s → c_put s !! j = Some p → pu_d p' = pu_d p → quiet (c_fs s) fs' → pc_ok fs' (pu_d p') (pu_pc p') →
  (∀ t i, temp_of p' = Some (t, i) → temp_of p = Some (t, i)) → cache_inv (mkCache fs' (<[j := p']> (c_put s)) sw).
Proof.
  intros I Hj Hd Hq Hpc Ht. destruct (id I) as [I1 I2 I3 I4 I5]. eapply inv_update; eauto using quiet_sound, quiet_pc, quiet_temp.
  intros t i H. specialize (Ht _ _ H). split; [|auto]. eauto using quiet_temp.
Qed.

Lemma inv_quiet_fs s fs' sw : cache_inv s → quiet (c_fs s) fs' → cache_inv (mkCache fs' (c_put s) sw).
Proof. intros [I1 I2 I3 I4 I5] Hq. split; cbn; eauto using quiet_sound, quiet_pc, quiet_temp. Qed.

Lemma inv_append s j p p' t i h b now sw : cache_inv s → c_put s !! j = Some p → pu_pc p = PCopy t i h → pu_d p' = pu_d p →
  (pu_pc p' = PCopy t i (h +:+ b) ∨ temp_of p' = None) → cache_inv (mkCache (append_file i b now (c_fs s)) (<[j := p']> (c_put s)) sw).
Proof.
  intros I Hj Hpc Hd Hp'. destruct (id I) as [I1 I2 I3 I4 I5]. assert (Htp : temp_of p = Some (t, i)) by (unfold temp_of; by rewrite Hpc).
  pose proof (I4 j p t i Hj Htp) as Hto. pose proof (I3 j p Hj) as Hok. rewrite Hpc in Hok. destruct Hok as (f & Hf & Hfd).
  eapply inv_update; eauto using append_sound, to_noblob, append_temp.
  - destruct Hp' as [->|Hn]; [|unfold temp_of in Hn; by destruct (pu_pc p')]. cbn. unfold append_file. rewrite Hf. cbn. rewrite lookup_insert_eq.
    eexists. split; [done|]. cbn. by rewrite Hfd.
  - intros t0 i0 Ht0. destruct Hp' as [E|E]; [|congruence]. unfold temp_of in Ht0. rewrite E in Ht0. injection Ht0 as <- <-. split; [by apply append_temp|auto].
  - intros j' q Hne Hq. destruct (temp_of q) as [[t' i']|] eqn:Eq; [|eapply pc_ok_none; eauto]. destruct (I5 j' j q p t' t i' i Hq Hj Eq Htp Hne) as [_ Hi].
    eapply pc_ok_inode; [exact Eq|by apply append_lookup|eauto].
Qed.

Lemma inv_create s j p n now sw : cache_inv s → c_put s !! j = Some p → pu_pc p = PCreate → is_tmp n = true → fs_dir (c_fs s) !! n = None →
  (∀ j' q i, c_put s !! j' = Some q → temp_of q ≠ Some (n, i)) →
  cache_inv (mkCache (create n now (c_fs s)) (<[j := mkPut (pu_d p) (PCopy n (fs_next (c_fs s)) "")]> (c_put s)) sw).
Proof.
  intros I Hj Hpc Hn Hd Hfresh. destruct (id I) as [I1 I2 I3 I4 I5]. eapply inv_update; eauto using create_sound.
  - cbn. rewrite lookup_insert_eq. eauto.
  - intros t i [= <- <-]. split.
    + split; cbn; [done|lia| |].
      * intros k. rewrite lookup_insert_eq. by intros [= <-].
      * intros m [[= ->]|H]%elem_of_cons; [done|]. apply (fss_next _ I1) in H. lia.
    + right. intros j' q t' i' Hne Hq Ht. split; [intros ->; by eapply Hfresh|]. destruct (I4 _ _ _ _ Hq Ht) as [_ Hlt _ _]. lia.
  - intros j' q Hne Hq. destruct (temp_of q) as [[t' i']|] eqn:Eq; [|eapply pc_ok_none; eauto]. destruct (I4 _ _ _ _ Hq Eq) as [_ Hlt _ _].
    eapply pc_ok_inode; [exact Eq| |eauto]. cbn. rewrite lookup_insert_ne by lia. done.
  - intros j' q t i Hne Hq Ht. eapply (create_others n now (c_fs s) t i (pu_d q) (pu_pc q)); eauto. intros ->. by eapply Hfresh.
Qed.

Lemma inv_rename s j p t i r fs' sw : cache_inv s → c_put s !! j = Some p → pu_pc p = PRename t i → rename t (Hex (pu_d p)) (c_fs s) = Some fs' →
  cache_inv (mkCache fs' (<[j := mkPut (pu_d p) (PRemove t r)]> (c_put s)) sw).
Proof.
  intros I Hj Hpc Hr. destruct (id I) as [I1 I2 I3 I4 I5]. assert (Htp : temp_of p = Some (t, i)) by (unfold temp_of; by rewrite Hpc).
  pose proof (I4 j p t i Hj Htp) as Hto. pose proof (I3 j p Hj) as Hok. rewrite Hpc in Hok. destruct Hok as (f & Hf & Hh & Hs).
  destruct (rename_sound _ _ _ _ _ _ Hr Hto Hf Hs Hh I1) as (Hfs & El & En & Ei & Hdir). eapply inv_update; eauto; [done|done|..].
  - intros j' q Hne Hq. destruct (temp_of q) as [[t' i']|] eqn:Eq; [|eapply pc_ok_none; eauto]. eapply pc_ok_inode; [exact Eq|by rewrite Ei|eauto].
  - intros j' q t' i' Hne Hq Ht. destruct (I5 j' j q p t' t i' i Hq Hj Ht Htp Hne) as [Htt Hii]. destruct (I4 _ _ _ _ Hq Ht) as [T1 T2 T3 T4].
    split; rewrite ?El, ?En; try done.
    + intros k [[-> ->]|H]%Hdir; [|by apply T3]. rewrite (I2 j p Hj) in T1. done.
    + intros n [[= -> ->]|H]%elem_of_cons; [done|by apply T4].
Qed.

Lemma put_step_inv s j p ev now p' fs' sw : cache_inv s → c_put s !! j = Some p → put_step ev now p (c_fs s) = Some (p', fs') →
  (∀ n, ev = EvTmp n → ∀ j' q i, c_put s !! j' = Some q → temp_of q ≠ Some (n, i)) → cache_inv (mkCache fs' (<[j := p']> (c_put s)) sw).
Proof.
  intros I Hj Hst Hfr. pose proof (ci_pc _ I j p Hj) as Hok. unfold put_step in Hst.
  destruct (pu_pc p) eqn:Epc; destruct ev; cbn in Hst; try discriminate Hst;
    try (injection Hst as <- <-; eapply inv_quiet; eauto using fs_quiet_refl, quiet_unlink, quiet_touch, quiet_sync; done).
  - injection Hst as <- <-. eapply inv_quiet; eauto using fs_quiet_refl; by destruct (has _ _).
  - destruct (is_tmp n && _) eqn:E; [|done]. apply andb_true_iff in E as [E1 E2%bool_decide_eq_true_1]. injection Hst as <- <-. eapply inv_create; eauto.
  - destruct (String.eqb_spec (sha256 hashed) (Hex (pu_d p))) as [E|E]; injection Hst as <- <-; (eapply inv_quiet; eauto using fs_quiet_refl; [|]).
    + cbn. destruct Hok as (f & Hf & <-). eauto.
    + intros t i0. unfold temp_of. by rewrite Epc.
    + done.
    + done.
  - injection Hst as <- <-. eapply inv_append; eauto.
  - injection Hst as <- <-. eapply inv_append; eauto.
  - injection Hst as <- <-. eapply inv_quiet; eauto using quiet_sync; [|intros t i0; unfold temp_of; by rewrite Epc].
    cbn. destruct Hok as (f & Hf & Hh). unfold sync_file. rewrite Hf. cbn. rewrite lookup_insert_eq. eauto.
  - injection Hst as <- <-. eapply inv_quiet; eauto using fs_quiet_refl. intros t i0. unfold temp_of. by rewrite Epc.
  - destruct (rename _ _ _) as [fs1|] eqn:Er; injection Hst as <- <-; [by eapply inv_rename|]. eapply inv_quiet; eauto using fs_quiet_refl; done.
Qed.

Lemma sweep_step_quiet ttl now fault sw fs sw' fs' : sweep_step ttl now fault sw fs = Some (sw', fs') → quiet fs fs'.
Proof.
  unfold sweep_step. destruct sw as [[|n ns] r b|n sz ns r b]; [done|..].
  - destruct (if fault then None else stat n fs) as [[i f]|]; [destruct (is_stale _ _ _ _)|]; intros [= _ <-]; apply fs_quiet_refl.
  - destruct (fault || _); intros [= _ <-]; [apply fs_quiet_refl|apply quiet_unlink].
Qed.

Lemma crashed_sound dir left_ fs : (∀ n i, dir !! n = Some i → (n, i) ∈ fs_links fs) → fs_sound fs → fs_sound (crashed dir left_ fs).
Proof.
  intros Hdir [S1 S2 S3]. split; cbn; [|done|done]. intros n i Hin Ht. destruct (S1 n i Hin Ht) as (f & Hf & Hs & Hh). exists f.
  split; [|done]. cbn. rewrite map_lookup_imap, Hf. cbn. by rewrite Hs.
Qed.

Lemma cache_step_inv s s' : cache_inv s → cache_step s s' → cache_inv s'.
Proof.
  intros I Hst. destruct Hst as [s j d Hj Hhex|s j p ev now p' fs' Hj Hst Hfr|s j p r Hj Hpc|s d now|s ttl now names|s ttl now fault sw sw' fs' Hsw Hst|s dir left_ Hdir].
  - destruct (id I) as [I1 I2 I3 I4 I5]. assert (Hb : temp_of (put_begin d) = None) by (unfold temp_of, put_begin; cbn; by destruct (String.eqb _ _)).
    split; cbn; [done|..].
    + intros j' q [[<- <-]|[Hne Hq]]%lookup_insert_Some; [by apply hex_not_tmp|eauto].
    + intros j' q [[<- <-]|[Hne Hq]]%lookup_insert_Some; [cbn; by destruct (String.eqb _ _)|eauto].
    + intros j' q t i [[<- <-]|[Hne Hq]]%lookup_insert_Some; [congruence|eauto].
    + intros j1 j2 q1 q2 t1 t2 i1 i2 [[<- <-]|[? H1]]%lookup_insert_Some [[<- <-]|[? H2]]%lookup_insert_Some; try congruence. by apply (I5 j1 j2 q1 q2).
  - by eapply put_step_inv.
  - destruct I as [I1 I2 I3 I4 I5]. split; cbn; [done|..].
    + intros j' q [_ Hq]%lookup_delete_Some. eauto.
    + intros j' q [_ Hq]%lookup_delete_Some. eauto.
    + intros j' q t i [_ Hq]%lookup_delete_Some. eauto.
    + intros j1 j2 q1 q2 t1 t2 i1 i2 [_ H1]%lookup_delete_Some [_ H2]%lookup_delete_Some. by apply (I5 j1 j2 q1 q2).
  - apply inv_quiet_fs; [done|apply quiet_touch].
  - apply inv_quiet_fs; [done|apply fs_quiet_refl].
  - eapply inv_quiet_fs; [done|]. by eapply sweep_step_quiet.
  - destruct I as [I1 _ _ _ _]. split; cbn; [by apply crashed_sound|..]; intros *; rewrite ?lookup_empty; done.
Qed.

Lemma cache_reach_inv s : cache_reach s → cache_inv s.
Proof.
  induction 1 as [|s s' _ IH Hst]; [|by eapply cache_step_inv].
  split; cbn; [split; cbn; try done; intros n i H; by apply elem_of_nil in H|..]; intros *; rewrite ?lookup_empty; done.
Qed.

Lemma get_sound fs d data : fs_sound fs → get d fs = Some data → is_tmp (Hex d) = false → sha256 data = Hex d.
Proof.
  intros [S1 S2 S3] Hg Ht. unfold get in Hg. destruct (String.eqb _ _); [|done]. apply fmap_Some in Hg as ([i f] & Hst & ->).
  unfold stat in Hst. apply bind_Some in Hst as (i' & Hi & Hst). apply bind_Some in Hst as (f' & Hf & [= -> ->]).
  destruct (S1 _ _ (S2 _ _ Hi) Ht) as (g & Hg & _ & <-). cbn. congruence.
Qed.

(** [C28] A blob file is never wrong. However writers, readers and the sweep
    interleave, whichever operations fail, and whatever a crash leaves of
    unsynced files and of names, what is read under a digest hashes to it. *)
Theorem blob_names_sound s d data : cache_reach s → get d (c_fs s) = Some data → all_bytes is_hex_byte (Hex d) = true → sha256 data = Hex d.
Proof. intros Hr Hg Hh. eapply get_sound; [apply (ci_fs _ (cache_reach_inv _ Hr))|done|by apply hex_not_tmp]. Qed.

(** ** One call without interference *)

(** [put] of a reader that delivers the chunks, with no operation failing. *)
Fixpoint put_run (fuel : nat) (chunks : list string) (tmp : string) (now : Z) (p : putter) (fs : fsys) : option (result string unit * fsys) :=
  match pu_pc p with
  | PDone r => Some (r, fs)
  | pc =>
      match fuel with
      | O => None
      | S fuel =>
          let '(ev, chunks) := match pc, chunks with
                               | PCreate, _ => (EvTmp tmp, chunks)
                               | PCopy _ _ _, c :: chunks => (EvChunk c, chunks)
                               | _, _ => (EvOk, chunks)
                               end in
          '(p, fs) ← put_step ev now p fs; put_run fuel chunks tmp now p fs
      end
  end.

Definition concat_chunks (chunks : list string) : string := foldr String.append "" chunks.

Definition put (d : Hash) (chunks : list string) (tmp : string) (now : Z) (fs : fsys) : option (result string unit * fsys) :=
  put_run (length chunks + 9) chunks tmp now (put_begin d) fs.

(** What it leaves: the same blobs, and the new one when its bytes are right. *)
Definition same_blobs (fs fs' : fsys) : Prop := ∀ d, is_tmp (Hex d) = false → get d fs' = get d fs.

Lemma put_run_inv fuel chunks tmp now : ∀ p fs r fs', cache_inv (mkCache fs {[ 0%nat := p ]} None) → put_run fuel chunks tmp now p fs = Some (r, fs') → fs_sound fs'.
Proof.
  revert chunks. induction fuel as [|fuel IH]; intros chunks p fs r fs' I H.
  - cbn in H. destruct (pu_pc p); try discriminate H. assert (fs' = fs) as -> by congruence. apply (ci_fs _ I).
  - cbn in H.
    assert (Hstep : ∀ ev cs, ('(p, fs) ← put_step ev now p fs; put_run fuel cs tmp now p fs) = Some (r, fs') → fs_sound fs').
    { intros ev cs E. apply bind_Some in E as ([p1 fs1] & E1 & E2). eapply IH; [|exact E2]. pose proof (put_step_inv _ 0 p ev now p1 fs1 None I) as Hi. cbn in Hi.
      rewrite insert_singleton_eq in Hi. apply Hi; [apply lookup_singleton_eq|done|]. intros n -> j' q i [_ <-]%lookup_singleton_Some. unfold put_step in E1. unfold temp_of.
      by destruct (pu_pc p). }
    destruct (pu_pc p); try (by eapply Hstep); try (destruct chunks; by eapply Hstep). assert (fs' = fs) as -> by congruence. apply (ci_fs _ I).
Qed.

Lemma copy_run n chunks tmp now d i : ∀ h fs f, fs_inodes fs !! i = Some f → f_data f = h →
  ∃ fs' f', put_run (length chunks + n) chunks tmp now (mkPut d (PCopy tmp i h)) fs = put_run n [] tmp now (mkPut d (PCopy tmp i (h +:+ concat_chunks chunks))) fs' ∧
    fs_inodes fs' !! i = Some f' ∧ f_data f' = h +:+ concat_chunks chunks ∧ fs_dir fs' = fs_dir fs ∧ ∀ k, k ≠ i → fs_inodes fs' !! k = fs_inodes fs !! k.
Proof.
  induction chunks as [|c chunks IH]; intros h fs f Hf Hd.
  - exists fs, f. cbn. rewrite append_empty_r. done.
  - destruct (IH (h +:+ c) (append_file i c now fs) (mkFile (h +:+ c) now false)) as (fs' & f' & H1 & H2 & H3 & H4 & H5).
    + unfold append_file. rewrite Hf. cbn. by rewrite lookup_insert_eq, Hd.
    + done.
    + exists fs', f'. cbn. rewrite H1. cbn [concat_chunks foldr].
      replace (h +:+ c +:+ foldr String.append "" chunks) with ((h +:+ c) +:+ concat_chunks chunks) by apply append_assoc. destruct (append_same i c now fs) as (Ed & _ & _).
      split_and!; [done|done|done|congruence|]. intros k Hk. rewrite H5 by done. by apply append_lookup.
Qed.

Lemma get_agree fs fs' d : (∀ i, fs_dir fs' !! Hex d = Some i ↔ fs_dir fs !! Hex d = Some i) → (∀ i, fs_dir fs !! Hex d = Some i → fs_inodes fs' !! i = fs_inodes fs !! i) →
  get d fs' = get d fs.
Proof.
  intros H1 H2. unfold get, stat. destruct (String.eqb _ _); [|done]. f_equal.
  replace (fs_dir fs' !! Hex d) with (fs_dir fs !! Hex d) by (apply option_eq; intros i; by rewrite H1). destruct (fs_dir fs !! Hex d) as [i|] eqn:E; [|done]. cbn. by rewrite H2.
Qed.

Lemma touch_same d now fs : same_blobs fs (touch d now fs).
Proof.
  intros d' _. unfold touch, chtimes. destruct (String.eqb _ _); [|done]. unfold stat. destruct (fs_dir fs !! Hex d) as [i|] eqn:Ed; [|done]. cbn.
  destruct (fs_inodes fs !! i) as [f|] eqn:Ef; [|done]. cbn. unfold get, stat. cbn. destruct (String.eqb _ _); [|done].
  destruct (fs_dir fs !! Hex d') as [k|]; [|done]. cbn. destruct (decide (i = k)) as [<-|Hne]; [|by rewrite lookup_insert_ne].
  rewrite lookup_insert_eq, Ef. done.
Qed.

Lemma put_run_ok n tmp now p p' fs fs' : match pu_pc p with PDone _ | PCreate => False | _ => True end →
  put_step EvOk now p fs = Some (p', fs') → put_run (S n) [] tmp now p fs = put_run n [] tmp now p' fs'.
Proof. intros H E. cbn [put_run]. destruct (pu_pc p); done || by rewrite E. Qed.

Lemma finish_ok tmp now d i h fs f : String.eqb (sha256 h) (Hex d) = true → fs_inodes fs !! i = Some f → fs_dir fs !! tmp = Some i →
  put_run 6 [] tmp now (mkPut d (PCopy tmp i h)) fs = Some (Ok tt, unlink tmp (link (Hex d) i (unlink tmp (set_inode i (mkFile (f_data f) (f_mtime f) true) fs)))).
Proof.
  intros Hh Hf Hd. rewrite (put_run_ok _ _ _ _ (mkPut d (PSync tmp i)) _ fs); [|done|unfold put_step; cbn [pu_pc pu_d]; by rewrite Hh].
  rewrite (put_run_ok _ _ _ _ (mkPut d (PClose tmp i)) _ (sync_file i fs)) by done. rewrite (put_run_ok _ _ _ _ (mkPut d (PRename tmp i)) _ (sync_file i fs)) by done.
  unfold sync_file. rewrite Hf. set (fs1 := set_inode _ _ fs).
  rewrite (put_run_ok _ _ _ _ (mkPut d (PRemove tmp (Ok tt))) _ (link (Hex d) i (unlink tmp fs1))); [|done|].
  - by rewrite (put_run_ok _ _ _ _ (mkPut d (PDone (Ok tt))) _ (unlink tmp (link (Hex d) i (unlink tmp fs1)))).
  - unfold put_step, rename. cbn [pu_pc pu_d]. change (fs_dir fs1) with (fs_dir fs). by rewrite Hd.
Qed.

Lemma finish_bad tmp now d i h fs : String.eqb (sha256 h) (Hex d) = false →
  ∃ e, put_run 6 [] tmp now (mkPut d (PCopy tmp i h)) fs = Some (Err e, unlink tmp fs).
Proof.
  intros Hh. set (e := "blob hash mismatch: wrote sha256:" +:+ sha256 h +:+ ", want " +:+ Hash_String d). exists e.
  rewrite (put_run_ok _ _ _ _ (mkPut d (PRemove tmp (Err e))) _ fs); [|done|unfold put_step; cbn [pu_pc pu_d]; by rewrite Hh].
  by rewrite (put_run_ok _ _ _ _ (mkPut d (PDone (Err e))) _ (unlink tmp fs)).
Qed.

(** A call that nothing disturbs always returns: it keeps the blob that is there,
    stores the bytes when they hash to the digest, and otherwise fails; every
    other blob stays as it was. *)
Lemma put_spec d chunks tmp now fs : fs_sound fs → Algorithm d = "sha256" → is_tmp (Hex d) = false → is_tmp tmp = true → fs_dir fs !! tmp = None →
  ∃ r fs', put d chunks tmp now fs = Some (r, fs') ∧ fs_sound fs' ∧
    if has d fs then r = Ok tt ∧ same_blobs fs fs'
    else if String.eqb (sha256 (concat_chunks chunks)) (Hex d) then
      r = Ok tt ∧ get d fs' = Some (concat_chunks chunks) ∧ ∀ d', is_tmp (Hex d') = false → d' ≠ d → get d' fs' = get d' fs
    else is_ok r = false ∧ same_blobs fs fs'.
Proof.
  intros Hs Ha Hh Ht Hfree.
  assert (I : cache_inv (mkCache fs {[ 0%nat := put_begin d ]} None)).
  { split; cbn; [done|..].
    - by intros j p [_ <-]%lookup_singleton_Some.
    - intros j p [_ <-]%lookup_singleton_Some. unfold put_begin. by rewrite Ha.
    - intros j p t i [_ <-]%lookup_singleton_Some. unfold put_begin. by rewrite Ha.
    - intros j j' p p' t t' i i' [<- <-]%lookup_singleton_Some [<- <-]%lookup_singleton_Some. done. }
  enough (∃ r fs', put d chunks tmp now fs = Some (r, fs') ∧
    if has d fs then r = Ok tt ∧ same_blobs fs fs'
    else if String.eqb (sha256 (concat_chunks chunks)) (Hex d) then
      r = Ok tt ∧ get d fs' = Some (concat_chunks chunks) ∧ ∀ d', is_tmp (Hex d') = false → d' ≠ d → get d' fs' = get d' fs
    else is_ok r = false ∧ same_blobs fs fs') as (r & fs' & E & H).
  { exists r, fs'. split; [done|]. split; [by eapply put_run_inv|done]. }
  clear I. unfold put, put_begin. rewrite Ha. change (String.eqb "sha256" "sha256") with true. cbn iota.
  replace (length chunks + 9)%nat with (S (S (S (length chunks + 6)))) by lia.
  destruct (has d fs) eqn:Ehas.
  { cbn -[has touch]. rewrite Ehas. cbn -[has touch]. eexists _, _. split; [reflexivity|]. split; [done|apply touch_same]. }
  cbn -[has touch create plus]. rewrite Ehas. cbn -[has touch create plus]. rewrite Ht, (bool_decide_eq_true_2 _ Hfree). cbn -[has touch create plus].
  destruct (copy_run 6 chunks tmp now d (fs_next fs) "" (create tmp now fs) (mkFile "" now false)) as (fs1 & f1 & -> & Hf1 & Hd1 & Hdir & Hino); [cbn; by rewrite lookup_insert_eq|done|].
  set (data := concat_chunks chunks) in *. change ("" +:+ data) with data in *.
  assert (Hsame : ∀ d' fs2, is_tmp (Hex d') = false → (∀ k, fs_dir fs2 !! Hex d' = Some k ↔ fs_dir fs !! Hex d' = Some k) → (∀ k, k ≠ fs_next fs → fs_inodes fs2 !! k = fs_inodes fs1 !! k) → get d' fs2 = get d' fs).
  { intros d' fs2 Hd' H1 H2. apply get_agree; [done|]. intros k Hk. assert ((k < fs_next fs)%nat) by (eapply fss_next, fss_dir; eauto).
    rewrite H2, Hino by lia. cbn. rewrite lookup_insert_ne by lia. done. }
  assert (Hnt : ∀ n, is_tmp n = false → n ≠ tmp) by (intros n ? ->; congruence).
  assert (Hdt : fs_dir fs1 !! tmp = Some (fs_next fs)) by (rewrite Hdir; apply lookup_insert_eq).
  assert (Hdo : ∀ n, is_tmp n = false → fs_dir fs1 !! n = fs_dir fs !! n) by (intros n Hn; rewrite Hdir; cbn; rewrite lookup_insert_ne by (apply not_eq_sym, Hnt; done); done).
  destruct (String.eqb (sha256 data) (Hex d)) eqn:Eh.
  - rewrite (finish_ok _ _ _ _ _ _ _ Eh Hf1 Hdt). eexists _, _. split; [reflexivity|]. split; [done|]. split.
    + unfold get, stat. rewrite Ha. cbn -[delete insert]. rewrite lookup_delete_ne by (apply not_eq_sym, Hnt; done). rewrite lookup_insert_eq. cbn. rewrite lookup_insert_eq. cbn. by rewrite Hd1.
    + intros d' Hd' Hne. destruct (decide (Algorithm d' = "sha256")) as [Ea|Ea]; [|unfold get; by rewrite (proj2 (String.eqb_neq _ _) Ea)].
      assert (Hex d' ≠ Hex d) by (destruct d, d'; cbn in *; congruence).
      apply Hsame; [done| |intros k Hk; cbn; by rewrite lookup_insert_ne]. intros k. cbn -[delete insert].
      rewrite lookup_delete_ne by (apply not_eq_sym, Hnt; done). rewrite lookup_insert_ne by done. rewrite lookup_delete_ne by (apply not_eq_sym, Hnt; done). by rewrite Hdo.
  - destruct (finish_bad tmp now d (fs_next fs) data fs1 Eh) as [e ->]. eexists _, _. split; [reflexivity|]. split; [done|]. intros d' Hd'. apply Hsame; [done| |done].
    intros k. cbn -[delete insert]. rewrite lookup_delete_ne by (apply not_eq_sym, Hnt; done). by rewrite Hdo.
Qed.

(** ** One sweep without interference *)

Fixpoint sweep_run (fuel : nat) (ttl now : Z) (sw : sweeper) (fs : fsys) : sweeper * fsys :=
  match fuel, sweep_step ttl now false sw fs with
  | S fuel, Some (sw, fs) => sweep_run fuel ttl now sw fs
  | _, _ => (sw, fs)
  end.

(** What the sweep would remove. *)
Definition expired (ttl now : Z) (fs : fsys) (n : string) : bool := match stat n fs with Some (_, f) => is_stale ttl now n (f_mtime f) | None => false end.
Definition size_of (fs : fsys) (n : string) : Z := match stat n fs with Some (_, f) => Z.of_nat (String.length (f_data f)) | None => 0 end.

Lemma stat_unlink n m fs : n ≠ m → stat m (unlink n fs) = stat m fs.
Proof. intros H. unfold stat. cbn. by rewrite lookup_delete_ne. Qed.

(** A sweep over the directory removes exactly the expired names, and reports
    how many and how large they were. *)
Lemma sweep_spec ttl now names : ∀ fuel fs r b, NoDup names → (2 * length names ≤ fuel)%nat →
  ∃ fs', sweep_run fuel ttl now (SwNext names r b) fs =
      (SwNext [] (r + Z.of_nat (length (List.filter (expired ttl now fs) names))) (b + foldr Z.add 0%Z (size_of fs <$> List.filter (expired ttl now fs) names)), fs') ∧
    fs_inodes fs' = fs_inodes fs ∧ ∀ m, fs_dir fs' !! m = if bool_decide (m ∈ names) && expired ttl now fs m then None else fs_dir fs !! m.
Proof.
  induction names as [|n names IH]; intros fuel fs r b Hnd Hfuel.
  - exists fs. assert (sweep_run fuel ttl now (SwNext [] r b) fs = (SwNext [] r b, fs)) as -> by (by destruct fuel).
    cbn. rewrite !Z.add_0_r. split_and!; [done|done|]. intros m. by rewrite bool_decide_eq_false_2 by (by intros ?%elem_of_nil).
  - apply NoDup_cons in Hnd as [Hnin Hnd]. cbn in Hfuel. destruct fuel as [|[|fuel]]; [lia|lia|].
    destruct (expired ttl now fs n) eqn:Ex.
    + pose proof Ex as Ex0. unfold expired in Ex. destruct (stat n fs) as [[i f]|] eqn:Est; [|done].
      assert (Hin : fs_dir fs !! n ≠ None) by (unfold stat in Est; by destruct (fs_dir fs !! n)).
      destruct (IH fuel (unlink n fs) (r + 1)%Z (b + Z.of_nat (String.length (f_data f)))%Z Hnd) as (fs' & Hrun & Hi & Hd); [lia|].
      assert (Hf : List.filter (expired ttl now (unlink n fs)) names = List.filter (expired ttl now fs) names).
      { apply List.filter_ext_in. intros m Hm%list_elem_of_In. unfold expired. rewrite stat_unlink; [done|]. by intros ->. }
      assert (Hsz : size_of (unlink n fs) <$> List.filter (expired ttl now fs) names = size_of fs <$> List.filter (expired ttl now fs) names).
      { apply list_fmap_ext. intros k m Hm%list_elem_of_lookup_2. unfold size_of. rewrite stat_unlink; [done|].
        apply list_elem_of_In, List.filter_In in Hm as [Hm%list_elem_of_In _]. by intros ->. }
      rewrite Hf, Hsz in Hrun. exists fs'. split; [|split; [done|]].
      * cbn [sweep_run sweep_step]. rewrite Est, Ex. cbn [sweep_run sweep_step orb]. rewrite bool_decide_eq_false_2 by done. rewrite Hrun.
        cbn [List.filter]. rewrite Ex0. cbn [length fmap list_fmap foldr]. assert (size_of fs n = Z.of_nat (String.length (f_data f))) as -> by (unfold size_of; by rewrite Est). f_equal. f_equal; lia.
      * intros m. rewrite Hd. cbn [fs_dir unlink]. destruct (decide (m = n)) as [->|Hne].
        -- rewrite bool_decide_eq_false_2 by done. rewrite bool_decide_eq_true_2 by left. unfold expired. rewrite Est, Ex. cbn. apply lookup_delete_eq.
        -- rewrite lookup_delete_ne by done. unfold expired at 1. rewrite stat_unlink by done. fold (expired ttl now fs m).
           assert (bool_decide (m ∈ n :: names) = bool_decide (m ∈ names)) as -> by (apply bool_decide_ext; rewrite elem_of_cons; naive_solver). done.
    + destruct (IH (S fuel) fs r b Hnd) as (fs' & Hrun & Hi & Hd); [lia|]. exists fs'. split; [|split; [done|]].
      * cbn [List.filter]. rewrite Ex. rewrite <- Hrun. cbn [sweep_run sweep_step]. unfold expired in Ex. destruct (stat n fs) as [[i f]|]; [by rewrite Ex|done].
      * intros m. rewrite Hd. destruct (decide (m = n)) as [->|Hne]; [by rewrite Ex, !andb_false_r|].
        assert (bool_decide (m ∈ n :: names) = bool_decide (m ∈ names)) as -> by (apply bool_decide_ext; rewrite elem_of_cons; naive_solver). done.
Qed.
End Put.

(** ** A run: a blob is written in two pieces, the machine crashes, and it is read *)

Definition toy_blob : Hash := mkHash "sha256" (hex_encode "oci").

Definition toy_events : list put_ev := [EvOk; EvOk; EvTmp "tmp-1"; EvChunk "o"; EvChunk "ci"; EvOk; EvOk; EvOk; EvOk].

Fixpoint toy_put (evs : list put_ev) (p : putter) (fs : fsys) : option (putter * fsys) :=
  match evs with
  | [] => Some (p, fs)
  | ev :: evs => '(p, fs) ← put_step hex_encode ev 7 p fs; toy_put evs p fs
  end.

Lemma toy_put_reach evs : ∀ p fs p' fs', cache_reach hex_encode (mkCache fs {[ 0%nat := p ]} None) → toy_put evs p fs = Some (p', fs') →
  cache_reach hex_encode (mkCache fs' {[ 0%nat := p' ]} None).
Proof.
  induction evs as [|ev evs IH]; intros p fs p' fs' Hr H; [by injection H as <- <-|]. cbn in H. apply bind_Some in H as ([p1 fs1] & E1 & E2).
  eapply IH; [|exact E2]. eapply cr_step; [exact Hr|]. replace ({[ 0%nat := p1 ]} : gmap nat putter) with (<[ 0%nat := p1 ]> ({[ 0%nat := p ]} : gmap nat putter)) by apply insert_singleton_eq.
  assert (Hp : c_put (mkCache fs {[ 0%nat := p ]} None) !! 0%nat = Some p) by apply lookup_singleton_eq. refine (cs_put _ _ _ _ _ _ _ _ Hp E1 _).
  cbn [c_put]. intros n -> j q i [_ <-]%lookup_singleton_Some. unfold put_step in E1. unfold temp_of. by destruct (pu_pc p).
Qed.

Lemma blob_names_sound_witness : ∃ s, cache_reach hex_encode s ∧ c_put s = ∅ ∧ get toy_blob (c_fs s) = Some "oci" ∧ hex_encode "oci" = Hex toy_blob.
Proof.
  destruct (toy_put toy_events (put_begin toy_blob) fs_empty) as [[p fs]|] eqn:E; [|vm_compute in E; discriminate E].
  set (dir := {[ Hex toy_blob := 0%nat ]} : gmap string nat). exists (mkCache (crashed dir (λ _, "torn") fs) ∅ None).
  assert (Hr : cache_reach hex_encode (mkCache (crashed dir (λ _, "torn") fs) ∅ None)).
  { eapply cr_step; [eapply toy_put_reach; [|exact E]|].
    - eapply cr_step; [apply cr_start|]. refine (cs_begin _ cache_empty 0%nat toy_blob _ _); [apply lookup_empty|reflexivity].
    - refine (cs_crash _ (mkCache fs _ None) dir (λ _, "torn") _). intros n i [<- <-]%lookup_singleton_Some. apply list_elem_of_In.
      vm_compute in E. injection E as <- <-. vm_compute. auto. }
  assert (Hg : get toy_blob (crashed dir (λ _, "torn") fs) = Some "oci") by (vm_compute in E; injection E as <- <-; vm_compute; reflexivity).
  split; [exact Hr|]. split; [reflexivity|]. split; [exact Hg|]. apply (blob_names_sound hex_encode _ toy_blob "oci" Hr Hg). reflexivity.
Defined.
