(* ===== verification/Image.v ===== *)
(** * Container images of build outputs (src/runner/image.go, src/runner/ocilayer.go, src/runner/entrypoint.go)

    A registry image has two layers, each the tar of a specification over the
    content-addressed store. Writing tars, hashing and the encoding of configs
    and manifests are libraries, behind the interface [OciLib]. *)
From S2P Require Import Prelude GoLib Keys Builddef Store Stages BlobCache.
Local Open Scope string_scope.
Local Open Scope list_scope.

Inductive tar_type := TypeReg | TypeDir | TypeSymlink | TypeOther (flag : Z).

Global Instance tar_type_eq_dec : EqDecision tar_type.
Proof. solve_decision. Defined.

(** A header as it is written, with the bytes that follow it. *)
Record tar_entry := mkTar { th_Name : string; th_Mode : Z; th_Size : Z; th_Typeflag : tar_type; th_Linkname : string; th_ModTime : Z; th_body : string }.

Record Entrypoint := mkEP { ep_Command : string; ep_Args : list string; ep_Env : gmap string string }.

(** The parts of an image config the code sets. *)
Record img_config := mkCfg {
  cf_OS : string; cf_Architecture : string; cf_Created : Z; cf_Entrypoint : list string; cf_Cmd : list string; cf_Env : list string; cf_WorkingDir : string }.

(** The libraries: [key.Key{}], listing a directory, streaming a tree as tar entries, writing
    a tar, SHA-256 in hex, the raw config and manifest of an image with given
    layers, and JSON. *)
Class OciLib `{SL : StoreLib} := {
  zero_key : Key;
  oci_Ls : Objs → Key → result string (list (string * option Key));
  oci_Tar : Objs → Key → result string (list tar_entry);
  tar_write : list tar_entry → result string string;
  sha256 : string → string;
  sha256_hex b : all_bytes is_hex_byte (sha256 b) = true;
  image_raw : list (Hash * Z) → img_config → result string (string * string);
  json_Entrypoint : string → result string Entrypoint;
}.

Section Image.
Context `{OL : OciLib}.

(** ** The entrypoint *)

Definition EntrypointFile : string := "JOBS.entrypoint".

Definition decodeEntrypoint (b : string) : result string Entrypoint :=
  match json_Entrypoint b with
  | Err e => Err ("invalid JOBS.entrypoint: " +:+ e)
  | Ok ep => if String.eqb (ep_Command ep) "" then Err "invalid JOBS.entrypoint: command is required" else Ok ep
  end.

Definition imageEntrypointArgv (ep : Entrypoint) : list string := path_Join "/" (ep_Command ep) :: ep_Args ep.

(** The entrypoint's variables win over the structural ones. *)
Definition imageEnv (epEnv : gmap string string) (shellBOK : Key) (includeShell : bool) : list string :=
  let pathVal := if includeShell then "/bin" +:+ ":" +:+ storePath shellBOK +:+ "/bin" else "/bin" in
  let merged := epEnv ∪ {[ "PATH" := pathVal; "HOME" := "/tmp" ]} in
  SortStrings ((λ kv : string * string, kv.1 +:+ "=" +:+ kv.2) <$> map_to_list merged).

(** ** Layer tars *)

Definition epoch : Z := 0.

Definition LayerDeps : string := "deps".
Definition LayerArtifact : string := "artifact".

Record LayerSpec := mkLSpec { sp_Kind : string; sp_Deps : list Key; sp_Shell : Key; sp_Artifact : Key }.
Record ImageLayer := mkIL { il_Digest : Hash; il_Size : Z; il_Spec : LayerSpec }.

Definition TrimPrefix (s p : string) : string := default s (CutPrefix s p).

(** One entry of a tree's tar under [prefix]: owner and time normalised; the
    root itself is left out. *)
Definition copy_entry (prefix : string) (h : tar_entry) : option tar_entry :=
  let name := TrimPrefix (TrimPrefix (th_Name h) "./") "/" in
  if String.eqb name "" || String.eqb name "." then None
  else
    let nm := prefix +:+ name in
    let nm := if bool_decide (th_Typeflag h = TypeDir) && negb (HasSuffix nm "/") then nm +:+ "/" else nm in
    Some (mkTar nm (th_Mode h) (th_Size h) (th_Typeflag h) (th_Linkname h) epoch (if bool_decide (th_Typeflag h = TypeReg) then th_body h else "")).

Definition copyTreeInto (o : Objs) (bok : Key) (prefix : string) : result string (list tar_entry) :=
  match oci_Tar o bok with
  | Err e => Err ("stream " +:+ key_String bok +:+ ": " +:+ e)
  | Ok es => Ok (omap (copy_entry prefix) es)
  end.

Definition writeDir (name : string) : tar_entry := mkTar name 493 0 TypeDir "" epoch "".
Definition writeSymlink (name target : string) : tar_entry := mkTar name 511 0 TypeSymlink target epoch "".

Fixpoint dedup_keys (seen : gset Key) (ks : list Key) : list Key :=
  match ks with
  | [] => []
  | k :: ks => if decide (k ∈ seen) then dedup_keys seen ks else k :: dedup_keys ({[k]} ∪ seen) ks
  end.

Definition key_leb (a b : Key) : bool := str_leb (key_String a) (key_String b).

Definition sortedDedupKeys (ks : list Key) : list Key := ssort key_leb (dedup_keys ∅ ks).

(** Each tree under its store path, in order. *)
Fixpoint copy_store (o : Objs) (ks : list Key) : result string (list tar_entry) :=
  match ks with
  | [] => Ok []
  | k :: ks =>
      let prefix := "jobs/store/" +:+ key_String k +:+ "/" in
      es ← copyTreeInto o k prefix; rest ← copy_store o ks; Ok ((writeDir prefix :: es) ++ rest)
  end.

Definition writeDepsTar (o : Objs) (deps : list Key) (shell : Key) : result string string :=
  let includeShell := negb (bool_decide (shell = zero_key)) in
  let storeBOKs := deps ++ (if includeShell then [shell] else []) in
  es ← copy_store o (sortedDedupKeys storeBOKs);
  let links := if includeShell then [writeSymlink "bin/sh" (storePath shell +:+ "/bin/sh"); writeSymlink "jobs/shell" (storePath shell)] else [] in
  tar_write ([writeDir "jobs/"; writeDir "jobs/store/"] ++ es ++ links).

Definition writeArtifactTar (o : Objs) (artifact : Key) : result string string :=
  es ← copyTreeInto o artifact ""; tar_write (es ++ [writeDir "tmp/"]).

(** The single layer of an image written as a tarball: the build target at the
    root, the closure under its store paths, and the shell's links. *)
Definition writeStoreTar (o : Objs) (selfBOK : Key) (depBOKs : list Key) (shellBOK : Key) (includeShell : bool) : result string string :=
  self ← copyTreeInto o selfBOK "";
  let storeBOKs := sortedDedupKeys (depBOKs ++ (if includeShell then [shellBOK] else [])) in
  es ← copy_store o storeBOKs;
  let store := if bool_decide (storeBOKs = []) then [] else [writeDir "jobs/"; writeDir "jobs/store/"] ++ es in
  let links := if includeShell then [writeSymlink "bin/sh" (storePath shellBOK +:+ "/bin/sh"); writeSymlink "jobs/shell" (storePath shellBOK)] else [] in
  tar_write (self ++ store ++ [writeDir "tmp/"] ++ links).

(** The bytes of a layer. *)
Definition WriteLayerTar (o : Objs) (spec : LayerSpec) : result string string :=
  if String.eqb (sp_Kind spec) LayerDeps then writeDepsTar o (sp_Deps spec) (sp_Shell spec)
  else if String.eqb (sp_Kind spec) LayerArtifact then writeArtifactTar o (sp_Artifact spec)
  else Err ("unknown image layer kind " +:+ sp_Kind spec).

(** [v1.SHA256]. *)
Definition SHA256 (b : string) : Hash := mkHash "sha256" (sha256 b).

(** A layer is measured by generating it once. *)
Definition newTarLayer (o : Objs) (spec : LayerSpec) : result string (Hash * Z) :=
  tar ← WriteLayerTar o spec; Ok (SHA256 tar, Z.of_nat (String.length tar)).

(** ** The image *)

(** An assembled image: its raw config and manifest. *)
Record image := mkImage { im_config : string; im_manifest : string }.

Definition AssembleOCIImage (o : Objs) (artifact : Key) (deps : list Key) (shell : Key) (ep : option Entrypoint) (platform : string) :
    result string (image * list ImageLayer) :=
  match Cut platform slash with
  | Some (osName, arch) =>
      if String.eqb osName "" || String.eqb arch "" then Err ("invalid platform " +:+ platform)
      else
        let specs := [mkLSpec LayerDeps deps shell zero_key; mkLSpec LayerArtifact [] zero_key artifact] in
        assembled ← mapM (λ spec, '(d, size) ← newTarLayer o spec; Ok (mkIL d size spec)) specs;
        let cf := mkCfg osName arch epoch (match ep with Some ep => imageEntrypointArgv ep | None => [] end) []
                    (imageEnv (match ep with Some ep => ep_Env ep | None => ∅ end) shell (negb (bool_decide (shell = zero_key)))) "/" in
        '(cfg, man) ← image_raw ((λ l, (il_Digest l, il_Size l)) <$> assembled) cf;
        Ok (mkImage cfg man, assembled)
  | None => Err ("invalid platform " +:+ platform)
  end.

(** The image of [jobs-client image]: one layer, always with an entrypoint. *)
Definition assembleImage (o : Objs) (selfBOK : Key) (depBOKs : list Key) (shellBOK : Key) (ep : Entrypoint) (platform : string) (includeShell : bool) :
    result string image :=
  match Cut platform slash with
  | Some (osName, arch) =>
      if String.eqb osName "" || String.eqb arch "" then Err ("invalid platform " +:+ platform)
      else
        tar ← writeStoreTar o selfBOK depBOKs shellBOK includeShell;
        let cf := mkCfg osName arch epoch (imageEntrypointArgv ep) [] (imageEnv (ep_Env ep) shellBOK includeShell) "/" in
        '(cfg, man) ← image_raw [(SHA256 tar, Z.of_nat (String.length tar))] cf;
        Ok (mkImage cfg man)
  | None => Err ("invalid platform " +:+ platform)
  end.

Definition defaultTag (ident : string) : string := "jobs-" +:+ String.substring 0 12 ident +:+ ":latest".

(** ** Layers depend on the closure as a set *)

Lemma elem_of_dedup_keys ks : ∀ seen k, k ∈ dedup_keys seen ks ↔ k ∈ ks ∧ k ∉ seen.
Proof.
  induction ks as [|x ks IH]; intros seen k; cbn; [set_solver|]. destruct (decide (x ∈ seen)).
  - rewrite IH, elem_of_cons. naive_solver.
  - rewrite !elem_of_cons, IH. destruct (decide (k = x)) as [->|]; set_solver.
Qed.

Lemma dedup_keys_NoDup ks : ∀ seen, NoDup (dedup_keys seen ks).
Proof.
  induction ks as [|x ks IH]; intros seen; cbn; [constructor|]. destruct (decide (x ∈ seen)); [done|]. constructor; [|done].
  rewrite elem_of_dedup_keys. set_solver.
Qed.

Lemma sortedDedupKeys_set ks1 ks2 : (∀ k, k ∈ ks1 ↔ k ∈ ks2) → sortedDedupKeys ks1 = sortedDedupKeys ks2.
Proof.
  intros H. eapply (sorted_perm_eq (λ a b, key_leb a b = true)).
  - intros x y H1 H2. apply key_String_inj. by apply str_leb_antisym.
  - apply ssort_sorted; unfold key_leb; [intros; apply str_leb_total|intros; by eapply str_leb_trans].
  - apply ssort_sorted; unfold key_leb; [intros; apply str_leb_total|intros; by eapply str_leb_trans].
  - unfold sortedDedupKeys. rewrite !ssort_perm. apply NoDup_Permutation; [apply dedup_keys_NoDup..|]. intros k. rewrite !elem_of_dedup_keys, H. done.
Qed.

(** The runtime layer is a function of the set of dependencies and the shell. *)
Lemma deps_layer_of_set o ks1 ks2 shell : (∀ k, k ∈ ks1 ↔ k ∈ ks2) → writeDepsTar o ks1 shell = writeDepsTar o ks2 shell.
Proof.
  intros H. unfold writeDepsTar. rewrite (sortedDedupKeys_set (ks1 ++ _) (ks2 ++ (if negb (bool_decide (shell = zero_key)) then [shell] else []))); [done|].
  intros k. rewrite !elem_of_app, H. done.
Qed.

Lemma store_layer_of_set o self ks1 ks2 shell b : (∀ k, k ∈ ks1 ↔ k ∈ ks2) → writeStoreTar o self ks1 shell b = writeStoreTar o self ks2 shell b.
Proof.
  intros H. unfold writeStoreTar. rewrite (sortedDedupKeys_set (ks1 ++ _) (ks2 ++ (if b then [shell] else []))); [done|]. intros k. rewrite !elem_of_app, H. done.
Qed.

(** ** Layers as the store grows *)

(** A larger store streams the trees it had before as before. *)
Definition grows (o o' : Objs) : Prop := ∀ k es, oci_Tar o k = Ok es → oci_Tar o' k = Ok es.

Global Instance grows_preorder : PreOrder grows.
Proof. split; [by intros o k es|]. intros a b c H1 H2 k es H. by apply H2, H1. Qed.

Lemma copyTreeInto_grows o o' k prefix es : grows o o' → copyTreeInto o k prefix = Ok es → copyTreeInto o' k prefix = Ok es.
Proof. intros H. unfold copyTreeInto. destruct (oci_Tar o k) eqn:E; [|done]. by rewrite (H _ _ E). Qed.

Lemma copy_store_grows o o' ks : ∀ es, grows o o' → copy_store o ks = Ok es → copy_store o' ks = Ok es.
Proof.
  induction ks as [|k ks IH]; intros es H; cbn; [done|]. intros (e1 & E1 & E)%bind_Ok_inv. apply bind_Ok_inv in E as (e2 & E2 & E).
  rewrite (copyTreeInto_grows _ _ _ _ _ H E1). cbn. by rewrite (IH _ H E2).
Qed.

Lemma WriteLayerTar_grows o o' spec tar : grows o o' → WriteLayerTar o spec = Ok tar → WriteLayerTar o' spec = Ok tar.
Proof.
  intros H. unfold WriteLayerTar, writeDepsTar, writeArtifactTar. destruct (String.eqb _ LayerDeps); [|destruct (String.eqb _ LayerArtifact); [|done]].
  - intros (es & E & Ew)%bind_Ok_inv. by rewrite (copy_store_grows _ _ _ _ H E).
  - intros (es & E & Ew)%bind_Ok_inv. by rewrite (copyTreeInto_grows _ _ _ _ _ H E).
Qed.

(** What assembling an image says about its layers. *)
Lemma AssembleOCIImage_layers o artifact deps shell ep platform img layers : AssembleOCIImage o artifact deps shell ep platform = Ok (img, layers) →
  (∀ l, l ∈ layers → ∃ tar, WriteLayerTar o (il_Spec l) = Ok tar ∧ il_Digest l = SHA256 tar ∧ il_Size l = Z.of_nat (String.length tar)) ∧
  il_Spec <$> layers = [mkLSpec LayerDeps deps shell zero_key; mkLSpec LayerArtifact [] zero_key artifact].
Proof.
  unfold AssembleOCIImage. destruct (Cut platform slash) as [[os arch]|]; [|done]. destruct (_ || _); [done|]. intros (ls & Hm & H)%bind_Ok_inv.
  apply bind_Ok_inv in H as ([cfg man] & _ & [= _ <-]). set (specs := [_; _]) in *. clearbody specs.
  revert ls Hm. induction specs as [|sp specs IH]; intros ls Hm; cbn in Hm; [injection Hm as <-; split; [|done]; intros l Hl; by apply elem_of_nil in Hl|].
  apply bind_Ok_inv in Hm as (l0 & H0 & Hm). apply bind_Ok_inv in Hm as (ls' & Hm & [= <-]). apply bind_Ok_inv in H0 as ([d sz] & H0 & [= <-]).
  unfold newTarLayer in H0. apply bind_Ok_inv in H0 as (tar & Ht & [= <- <-]). destruct (IH _ Hm) as [IH1 IH2]. split; [|cbn; by rewrite IH2].
  intros l [->|Hl]%elem_of_cons; [exists tar; done|by apply IH1].
Qed.
End Image.
