(* ===== verification/Registry.v ===== *)
(** * The image registry (src/registryd)

    A read-only container registry over build outputs. An image is resolved and
    assembled on demand; its manifest and config are cached as blob files, its
    layers only as specifications from which their tars are generated again.
    The state is what the daemon shares between requests: its store, the blob
    files ([BlobCache]), the records on disk, the layer index and the pins. *)
From S2P Require Import Prelude GoLib Keys Builddef Store Stages BlobCache Image.
From Stdlib Require Import Ascii.
Local Open Scope string_scope.
Local Open Scope list_scope.

(** ** Records (src/registryd/layers.go, src/registryd/assemble.go) *)

Record layerRecord := mkLR {
  lr_Digest : string; lr_Size : Z; lr_Kind : string; lr_Deps : list string; lr_Shell : string; lr_Artifact : string }.

Record imageRecord := mkIR {
  ir_K : string; ir_F : string; ir_Platform : string; ir_Manifest : string; ir_MediaType : string; ir_Config : string; ir_Layers : list layerRecord; ir_CreatedNs : Z }.

(** Errors by how the HTTP layer tells them apart. *)
Inductive reg_err := ENotFound (m : string) | EUpstream (m : string) | ECancelled | EOther (m : string).

(** ** Pins (src/registryd/pins.go) *)

Record pinAsserter := mkPins { pa_sent : gmap string Z; pa_disabled : bool }.

Definition newPinAsserter : pinAsserter := mkPins ∅ false.
Definition pinAssertEvery : Z := hour.

Fixpoint due_loop (names : list string) (now : Z) (sent : gmap string Z) : gmap string Z * list string :=
  match names with
  | [] => (sent, [])
  | n :: names =>
      match sent !! n with
      | Some last => if (i64 (now - last) <? pinAssertEvery)%Z then due_loop names now sent
                     else let '(sent, out) := due_loop names now (<[n := now]> sent) in (sent, n :: out)
      | None => let '(sent, out) := due_loop names now (<[n := now]> sent) in (sent, n :: out)
      end
  end.

Definition due (names : list string) (now : Z) (p : pinAsserter) : pinAsserter * list string :=
  if pa_disabled p then (p, [])
  else let '(sent, out) := due_loop names now (pa_sent p) in (mkPins sent (pa_disabled p), out).

Definition retry (names : list string) (p : pinAsserter) : pinAsserter := mkPins (foldl (λ m n, delete n m) (pa_sent p) names) (pa_disabled p).
Definition disable (p : pinAsserter) : pinAsserter := mkPins (pa_sent p) true.

Definition pinNames (rec : imageRecord) : list string :=
  ["build-from:" +:+ ir_K rec; "build:" +:+ ir_K rec; "build-output:" +:+ ir_F rec; "build-output-deps:" +:+ ir_F rec] ++
  (if String.eqb (ir_Platform rec) "" then [] else ["shell:" +:+ ir_Platform rec]).

(** What the server answered: nothing, or a [RemoteError] with its code. *)
Inductive pin_err := PinRemote (code : string) | PinTransport.
Definition shouldDisable (e : pin_err) : bool := match e with PinRemote c => String.eqb c "bad-request" | PinTransport => false end.

(** The end of the goroutine [assertPins] starts. *)
Definition pin_finished (due : list string) (err : option pin_err) (p : pinAsserter) : pinAsserter :=
  match err with
  | None => p
  | Some e => if shouldDisable e then disable p else retry due p
  end.

(** [v1.NewHash]: a digest parses to what prints as it, SHA-256 in hex; and every
    computed digest parses. *)
Class HashLib `{OL : OciLib} := {
  NewHash : string → option Hash;
  NewHash_String s d : NewHash s = Some d → Hash_String d = s;
  NewHash_hex s d : NewHash s = Some d → Algorithm d = "sha256" ∧ all_bytes is_hex_byte (Hex d) = true;
  NewHash_SHA256 b : NewHash (Hash_String (SHA256 b)) = Some (SHA256 b);
}.

Section Registry.
Context `{HL : HashLib}.

(** [parseHexKey] of the registry: 64 characters, lower-case hex. *)
Definition is_upper (a : Ascii.ascii) : bool := let n := Ascii.N_of_ascii a in (65 <=? n)%N && (n <=? 90)%N.
Definition parseHexKey64 (s : string) : option Key :=
  if negb (Nat.eqb (String.length s) 64) || negb (all_bytes (λ a, negb (is_upper a)) s) then None else parseHexKey s.

Definition newLayerRecord (l : ImageLayer) : layerRecord :=
  let sp := il_Spec l in
  let rec deps shell artifact := mkLR (Hash_String (il_Digest l)) (il_Size l) (sp_Kind sp) deps shell artifact in
  if String.eqb (sp_Kind sp) LayerDeps then rec (key_String <$> sp_Deps sp) (if bool_decide (sp_Shell sp = zero_key) then "" else key_String (sp_Shell sp)) ""
  else if String.eqb (sp_Kind sp) LayerArtifact then rec [] "" (key_String (sp_Artifact sp))
  else rec [] "" "".

Fixpoint parse_deps (l : layerRecord) (ss : list string) : result string (list Key) :=
  match ss with
  | [] => Ok []
  | s :: ss =>
      match parseHexKey64 s with
      | None => Err ("layer " +:+ lr_Digest l +:+ ": bad dep key " +:+ s)
      | Some k => ks ← parse_deps l ss; Ok (k :: ks)
      end
  end.

(** [layerRecord.spec]: fails closed on anything it cannot read. *)
Definition lr_spec (l : layerRecord) : result string LayerSpec :=
  if String.eqb (lr_Kind l) LayerDeps then
    ks ← parse_deps l (lr_Deps l);
    if String.eqb (lr_Shell l) "" then Ok (mkLSpec (lr_Kind l) ks zero_key zero_key)
    else match parseHexKey64 (lr_Shell l) with
    | None => Err ("layer " +:+ lr_Digest l +:+ ": bad shell key " +:+ lr_Shell l)
    | Some k => Ok (mkLSpec (lr_Kind l) ks k zero_key)
    end
  else if String.eqb (lr_Kind l) LayerArtifact then
    match parseHexKey64 (lr_Artifact l) with
    | None => Err ("layer " +:+ lr_Digest l +:+ ": bad artifact key " +:+ lr_Artifact l)
    | Some k => Ok (mkLSpec (lr_Kind l) [] zero_key k)
    end
  else Err ("layer " +:+ lr_Digest l +:+ ": unknown kind " +:+ lr_Kind l).

(** [layerIndex]: which record streams a digest. *)
Abbreviation layerIndex := (gmap string layerRecord).
Definition li_put (recs : list layerRecord) (x : layerIndex) : layerIndex :=
  foldl (λ x l, if String.eqb (lr_Digest l) "" then x else <[lr_Digest l := l]> x) x recs.

(** ** The daemon *)

(** [r_repos] is the directory of records: what a file [<K>.json] decodes to,
    [None] for one that does not decode; [r_log] lists all records ever written.
    [r_down]: shutting down. *)
Record registry := mkReg {
  r_st : Store; r_blobs : fsys; r_layers : layerIndex; r_pins : pinAsserter; r_repos : gmap string (option imageRecord); r_log : list imageRecord;
  r_ttl : Z; r_defaultPlatform : string; r_noShell : bool; r_down : bool }.

Definition set_st x r := mkReg x (r_blobs r) (r_layers r) (r_pins r) (r_repos r) (r_log r) (r_ttl r) (r_defaultPlatform r) (r_noShell r) (r_down r).
Definition set_blobs x r := mkReg (r_st r) x (r_layers r) (r_pins r) (r_repos r) (r_log r) (r_ttl r) (r_defaultPlatform r) (r_noShell r) (r_down r).
Definition set_layers x r := mkReg (r_st r) (r_blobs r) x (r_pins r) (r_repos r) (r_log r) (r_ttl r) (r_defaultPlatform r) (r_noShell r) (r_down r).
Definition set_pins x r := mkReg (r_st r) (r_blobs r) (r_layers r) x (r_repos r) (r_log r) (r_ttl r) (r_defaultPlatform r) (r_noShell r) (r_down r).
Definition set_repos x r := mkReg (r_st r) (r_blobs r) (r_layers r) (r_pins r) x (r_log r) (r_ttl r) (r_defaultPlatform r) (r_noShell r) (r_down r).
Definition log_record rec r := mkReg (r_st r) (r_blobs r) (r_layers r) (r_pins r) (r_repos r) (rec :: r_log r) (r_ttl r) (r_defaultPlatform r) (r_noShell r) (r_down r).

Inductive pull_fail := PullNotFound | PullFail (e : string).

(** What the outside decides during one request: pulls and the listing of the
    server, the clock, failing writes, whether the client went away, and what
    the sweep removed between finding an image and reading its manifest. *)
Record world := mkWorld {
  w_Pull : string → Store → Store * result pull_fail Key;
  w_Refs : result string (list (string * Key));
  w_now : Z;
  w_put_fault : Hash → option string;
  w_record_fault : option string;
  w_gone : bool;
  w_removed : nat → list string }.

(** ** Resolving a build (src/registryd/resolve.go) *)

Definition RM (A : Type) : Type := Store → Store * result reg_err A.
Definition rm_ret {A} (a : A) : RM A := λ st, (st, Ok a).
Definition rm_fail {A} (e : reg_err) : RM A := λ st, (st, Err e).
Definition rm_bind {A B} (m : RM A) (k : A → RM B) : RM B := λ st,
  match m st with (st, Ok a) => k a st | (st, Err e) => (st, Err e) end.

Definition reg_complete (st : Store) (k : Key) : bool := is_ok (obj_CheckComplete (st_objs st) k).

(** A complete local copy, or a pull, or a second pull. [None]: the server does
    not have the reference. *)
Definition reg_ensureRef (w : world) (name : string) : RM (option Key) := λ st,
  match GetKey name st with
  | Err e => (st, Err (EOther e))
  | Ok o =>
      match (match o with Some k => if reg_complete st k then Some k else None | None => None end) with
      | Some k => (st, Ok (Some k))
      | None =>
          match w_Pull w name st with
          | (st, Err PullNotFound) => (st, Ok None)
          | (st, Err (PullFail e)) => (st, Err (EUpstream ("pull " +:+ name +:+ ": " +:+ e)))
          | (st, Ok root) =>
              if reg_complete st root then (st, Ok (Some root))
              else match w_Pull w name st with
              | (st, Err e) => (st, Err (EUpstream ("re-pull " +:+ name)))
              | (st, Ok root) => if reg_complete st root then (st, Ok (Some root)) else (st, Err (EOther ("pull " +:+ name +:+ " left store incomplete")))
              end
          end
      end
  end.

(** K to F by the server's listing; a plain build-output:K stands for itself. *)
Definition resolveF (w : world) (k : Key) : RM Key :=
  match w_Refs w with
  | Err e => rm_fail (EUpstream ("list refs: " +:+ e))
  | Ok refs =>
      match List.find (λ ref : string * Key, String.eqb ref.1 ("build-from:" +:+ key_String k)) refs with
      | Some ref => rm_ret ref.2
      | None =>
          if existsb (λ ref : string * Key, String.eqb ref.1 ("build-output:" +:+ key_String k)) refs then rm_ret k
          else rm_fail (ENotFound ("build " +:+ key_String k +:+ " not on jobs-server"))
      end
  end.

Fixpoint dep_keys (ents : list (string * option Key)) : result reg_err (list Key) :=
  match ents with
  | [] => Ok []
  | e :: ents =>
      match parseHexKey64 e.1 with
      | None => Err (EOther ("runtime closure entry " +:+ e.1 +:+ " is not a store key"))
      | Some k => ks ← dep_keys ents; Ok (k :: ks)
      end
  end.

Definition resolveDeps (w : world) (f : Key) : RM (list Key) :=
  rm_bind (reg_ensureRef w ("build-output-deps:" +:+ key_String f)) (λ o,
    match o with
    | None => rm_ret []
    | Some root => λ st,
        match oci_Ls (st_objs st) root with
        | Err e => (st, Err (EOther ("list runtime closure: " +:+ e)))
        | Ok ents => (st, dep_keys ents)
        end
    end).

Definition resolveShell (w : world) (noShell : bool) (platform : string) : RM Key :=
  if noShell then rm_ret zero_key
  else rm_bind (reg_ensureRef w ("shell:" +:+ platform)) (λ o, rm_ret (default zero_key o)).

(** Any miss falls back to the default platform. *)
Definition buildPlatform (w : world) (dflt : string) (k : Key) : RM string := λ st,
  match reg_ensureRef w ("build:" +:+ key_String k) st with
  | (st, Ok (Some root)) =>
      (st, Ok (match obj_ReadFile (st_objs st) root with
               | Err _ => dflt
               | Ok canon => match dec_Definition canon with
                             | Err _ => dflt
                             | Ok def => if String.eqb (d_Platform def) "" then dflt else d_Platform def
                             end
               end))
  | (st, _) => (st, Ok dflt)
  end.

(** A missing or invalid entrypoint is tolerated. *)
Definition buildEntrypoint (o : Objs) (artifact : Key) : option Entrypoint :=
  match oci_Ls o artifact with
  | Err _ => None
  | Ok ents =>
      match List.find (λ e : string * option Key, String.eqb e.1 EntrypointFile && bool_decide (is_Some e.2)) ents with
      | Some (_, Some k) =>
          match obj_ReadFile o k with
          | Err _ => None
          | Ok b => match decodeEntrypoint b with Ok ep => Some ep | Err _ => None end
          end
      | _ => None
      end
  end.

Record resolvedBuild := mkRB { rb_f : Key; rb_artifact : Key; rb_deps : list Key; rb_shell : Key; rb_ep : option Entrypoint; rb_platform : string }.

Definition resolveBuild (w : world) (dflt : string) (noShell : bool) (k : Key) (fHint : Key) : RM resolvedBuild :=
  rm_bind (if bool_decide (fHint = zero_key) then resolveF w k else rm_ret fHint) (λ f,
  rm_bind (reg_ensureRef w ("build-output:" +:+ key_String f)) (λ o,
  match o with
  | None => rm_fail (ENotFound ("build-output:" +:+ key_String f +:+ " missing on jobs-server"))
  | Some outRoot => λ st,
      match obj_TreeSubdir (st_objs st) outRoot "c" with
      | Err e => (st, Err (EOther ("descend into output of " +:+ key_String k +:+ ": " +:+ e)))
      | Ok None => (st, Err (ENotFound ("build output for " +:+ key_String k +:+ " has no artifact (c/)")))
      | Ok (Some artifact) =>
          rm_bind (resolveDeps w f) (λ deps,
          rm_bind (buildPlatform w dflt k) (λ platform,
          rm_bind (resolveShell w noShell platform) (λ shell st,
          (st, Ok (mkRB f artifact deps shell (buildEntrypoint (st_objs st) artifact) platform))))) st
      end
  end)).

(** ** Records on disk (src/registryd/assemble.go) *)

Definition readRecord (kHex : string) (r : registry) : option imageRecord :=
  match r_repos r !! kHex with
  | Some (Some rec) => if String.eqb (ir_K rec) kHex then Some rec else None
  | _ => None
  end.

(** Temporary file and rename: the record is replaced or nothing changes. *)
Definition writeRecord (w : world) (rec : imageRecord) (r : registry) : registry * result reg_err unit :=
  match w_record_fault w with
  | Some e => (r, Err (EOther e))
  | None => (log_record rec (set_repos (<[ir_K rec := Some rec]> (r_repos r)) r), Ok tt)
  end.

(** In the order of the file names. *)
Definition record_names (r : registry) : list string :=
  ssort (λ a b, str_leb (a +:+ ".json") (b +:+ ".json")) (fst <$> map_to_list (r_repos r)).
Definition listRecords (r : registry) : list imageRecord := omap (λ k, readRecord k r) (record_names r).

Definition findRecordByDigest (d : Hash) (r : registry) : option imageRecord :=
  List.find (λ rec, String.eqb (ir_Manifest rec) (Hash_String d) || String.eqb (ir_Config rec) (Hash_String d)) (listRecords r).
Definition findRecordByManifest (d : Hash) (r : registry) : option imageRecord :=
  List.find (λ rec, String.eqb (ir_Manifest rec) (Hash_String d)) (listRecords r).

(** Its two blobs are there, and every layer can be streamed. *)
Definition recordComplete (rec : imageRecord) (r : registry) : bool :=
  negb (String.eqb (ir_Config rec) "" || bool_decide (ir_Layers rec = [])) &&
  forallb (λ ds, match NewHash ds with Some d => has d (r_blobs r) | None => false end) [ir_Manifest rec; ir_Config rec] &&
  forallb (λ l, bool_decide (is_Some (NewHash (lr_Digest l))) && is_ok (lr_spec l)) (ir_Layers rec).

Definition touchRecord (now : Z) (rec : imageRecord) (r : registry) : registry :=
  let touch_one b ds := match NewHash ds with Some d => touch d now b | None => b end in
  set_blobs (foldl touch_one (r_blobs r) [ir_Manifest rec; ir_Config rec]) r.

(** ** Assembling (src/registryd/assemble.go) *)

(** A temporary name that is not taken: longer than every name that is. *)
Fixpoint zeros (n : nat) : string := match n with O => "" | S n => "0" +:+ zeros n end.
Definition tmp_name (fs : fsys) : string := let used := (λ p : string * nat, String.length p.1) <$> map_to_list (fs_dir fs) in
  "tmp-" +:+ zeros (foldr Nat.max 0%nat used).

(** [blobCache.put] of bytes held in memory; a call that fails changes no blob. *)
Definition blob_put (w : world) (d : Hash) (data : string) (r : registry) : registry * result reg_err unit :=
  match w_put_fault w d with
  | Some e => (r, Err (EOther e))
  | None =>
      match put sha256 d [data] (tmp_name (r_blobs r)) (w_now w) (r_blobs r) with
      | Some (Ok _, fs) => (set_blobs fs r, Ok tt)
      | Some (Err e, fs) => (set_blobs fs r, Err (EOther e))
      | None => (r, Err (EOther "put"))
      end
  end.

Definition OCIManifestSchema1 : string := "application/vnd.oci.image.manifest.v1+json".

Definition make_record (k : Key) (res : resolvedBuild) (img : image) (layers : list ImageLayer) (now : Z) : imageRecord :=
  mkIR (key_String k) (key_String (rb_f res)) (rb_platform res) (Hash_String (SHA256 (im_manifest img))) OCIManifestSchema1
    (Hash_String (SHA256 (im_config img))) (newLayerRecord <$> layers) now.

Definition assembleAndCache (w : world) (k : Key) (r : registry) : registry * result reg_err imageRecord :=
  let fHint := match readRecord (key_String k) r with Some rec => default zero_key (parseHexKey64 (ir_F rec)) | None => zero_key end in
  match resolveBuild w (r_defaultPlatform r) (r_noShell r) k fHint (r_st r) with
  | (st, Err e) => (set_st st r, Err e)
  | (st, Ok res) =>
      let r := set_st st r in
      match AssembleOCIImage (st_objs st) (rb_artifact res) (rb_deps res) (rb_shell res) (rb_ep res) (rb_platform res) with
      | Err e => (r, Err (EOther ("assemble image for " +:+ key_String k +:+ ": " +:+ e)))
      | Ok (img, layers) =>
          let layerRecs := newLayerRecord <$> layers in
          match blob_put w (SHA256 (im_config img)) (im_config img) r with
          | (r, Err e) => (r, Err e)
          | (r, Ok _) =>
              match blob_put w (SHA256 (im_manifest img)) (im_manifest img) r with
              | (r, Err e) => (r, Err e)
              | (r, Ok _) =>
                  let rec := make_record k res img layers (w_now w) in
                  let r := set_layers (li_put layerRecs (r_layers r)) r in
                  match writeRecord w rec r with
                  | (r, Err e) => (r, Err e)
                  | (r, Ok _) => (r, Ok rec)
                  end
              end
          end
      end
  end.

(** [imageFor]: from the records, or assembled; a client that leaves does not
    stop the assembly, it only does not see its end. *)
Definition imageFor (w : world) (k : Key) (r : registry) : registry * result reg_err (imageRecord * bool) :=
  let cached := match readRecord (key_String k) r with Some rec => if recordComplete rec r then Some rec else None | None => None end in
  match cached with
  | Some rec => (r, Ok (rec, false))
  | None =>
      if r_down r then (r, Err (EUpstream "registry shutting down"))
      else
        let '(r, res) := assembleAndCache w k r in
        if w_gone w then (r, Err ECancelled)
        else (r, match res with Ok rec => Ok (rec, true) | Err e => Err e end)
  end.

(** ** Serving (src/registryd/handler.go) *)

(** What a response carries. A layer's bytes are generated from its record. *)
Inductive body := BNone | BBytes (b : string) | BLayer (l : layerRecord) | BTags (tags : list string) (next : option string).
Record response := mkResp { rs_status : Z; rs_code : string; rs_digest : string; rs_body : body }.

Definition writeError (status : Z) (code : string) : response := mkResp status code "" BNone.

Definition mapError (e : reg_err) : response :=
  match e with
  | ECancelled => writeError 503 "UNAVAILABLE"
  | ENotFound _ => writeError 404 "MANIFEST_UNKNOWN"
  | EUpstream _ => writeError 503 "UNAVAILABLE"
  | EOther _ => writeError 500 "INTERNAL"
  end.

Definition assertPins (now : Z) (rec : imageRecord) (r : registry) : registry :=
  if r_down r then r else set_pins (fst (due (pinNames rec) now (r_pins r))) r.

(** The sweep removed some blobs. *)
Definition swept (names : list string) (r : registry) : registry := set_blobs (foldl (λ fs n, unlink n fs) (r_blobs r) names) r.

(** Two rounds: a blob that vanished is assembled again. *)
Fixpoint manifest_rounds (w : world) (k : Key) (rounds : nat) (last : reg_err) (r : registry) : registry * result reg_err (string * imageRecord) :=
  match rounds with
  | O => (r, Err last)
  | S rounds =>
      match imageFor w k r with
      | (r, Err e) => (r, Err e)
      | (r, Ok (rec, _)) =>
          match NewHash (ir_Manifest rec) with
          | None => (r, Err (EOther "bad manifest digest"))
          | Some d =>
              let r := swept (w_removed w rounds) r in
              match get d (r_blobs r) with
              | None => manifest_rounds w k rounds (EOther "manifest blob vanished") r
              | Some b => (r, Ok (b, rec))
              end
          end
      end
  end.
Definition manifestFor (w : world) (k : Key) (r : registry) := manifest_rounds w k 2 (EOther "") r.

Definition writeManifest (head : bool) (b digest : string) : response := mkResp 200 "" digest (if head then BNone else BBytes b).

Definition recoverDigest (w : world) (d : Hash) (r : registry) : registry * bool :=
  match findRecordByDigest d r with
  | None => (r, false)
  | Some rec =>
      match parseHexKey64 (ir_K rec) with
      | None => (r, false)
      | Some k =>
          match imageFor w k r with
          | (r, Err _) => (r, false)
          | (r, Ok _) => (r, has d (r_blobs r))
          end
      end
  end.

Definition serveManifestByDigest (w : world) (head : bool) (ref : string) (r : registry) : registry * response :=
  match NewHash ref with
  | None => (r, writeError 400 "DIGEST_INVALID")
  | Some d =>
      match findRecordByManifest d r with
      | None => (r, writeError 404 "MANIFEST_UNKNOWN")
      | Some rec =>
          let served b r := (assertPins (w_now w) rec (touchRecord (w_now w) rec r), writeManifest head b (Hash_String d)) in
          match get d (r_blobs r) with
          | Some b => served b r
          | None =>
              match recoverDigest w d r with
              | (r, false) => (r, writeError 404 "MANIFEST_UNKNOWN")
              | (r, true) =>
                  let r := swept (w_removed w 0) r in
                  match get d (r_blobs r) with Some b => served b r | None => (r, mapError (EOther "no such file")) end
              end
          end
      end
  end.

Definition serveManifest (w : world) (head : bool) (ref : string) (r : registry) : registry * response :=
  if ContainsByte ref ":"%char then serveManifestByDigest w head ref r
  else match parseHexKey64 ref with
  | None => (r, writeError 404 "MANIFEST_UNKNOWN")
  | Some k =>
      match manifestFor w k r with
      | (r, Err e) => (r, mapError e)
      | (r, Ok (b, rec)) => (assertPins (w_now w) rec (touchRecord (w_now w) rec r), writeManifest head b (ir_Manifest rec))
      end
  end.

(** A record whose specification cannot be read streams nothing. *)
Definition streamLayer (head : bool) (d : Hash) (lay : layerRecord) : response :=
  match lr_spec lay with
  | Err _ => writeError 404 "BLOB_UNKNOWN"
  | Ok _ => mkResp 200 "" (Hash_String d) (if head then BNone else BLayer lay)
  end.

Definition serveBlob (w : world) (head : bool) (digest : string) (r : registry) : registry * response :=
  match NewHash digest with
  | None => (r, writeError 400 "DIGEST_INVALID")
  | Some d =>
      match r_layers r !! Hash_String d with
      | Some lay => (r, streamLayer head d lay)
      | None =>
          let served b r := (set_blobs (touch d (w_now w) (r_blobs r)) r, mkResp 200 "" (Hash_String d) (if head then BNone else BBytes b)) in
          match open d (r_blobs r) with
          | Some (b, _) => served b r
          | None =>
              match recoverDigest w d r with
              | (r, false) => (r, writeError 404 "BLOB_UNKNOWN")
              | (r, true) =>
                  let r := swept (w_removed w 0) r in
                  match open d (r_blobs r) with Some (b, _) => served b r | None => (r, mapError (EOther "no such file")) end
              end
          end
      end
  end.

(** The page of a sorted list of tags after [last], at most [n] of them, and the
    tag the link to the next page names. *)
Definition SearchStrings (tags : list string) (x : string) : nat := length (List.filter (λ t, str_ltb t x) tags).
Definition tags_page (tags : list string) (last : string) (n : option Z) : list string * option string :=
  let tags :=
    if String.eqb last "" then tags
    else let i := SearchStrings tags last in
         let i := match tags !! i with Some t => if String.eqb t last then S i else i | None => i end in
         drop i tags in
  match n with
  | Some n =>
      if (0 <=? n)%Z && (n <? Z.of_nat (length tags))%Z then
        let tags := take (Z.to_nat n) tags in (tags, if (0 <? n)%Z then List.last (Some <$> tags) None else None)
      else (tags, None)
  | None => (tags, None)
  end.

(** The build keys that can be pulled: those assembled, and those the server
    lists when it can be reached. *)
Definition all_tags (w : world) (r : registry) : list string :=
  let seen : gset string := list_to_set (map ir_K (listRecords r)) in
  let seen := match w_Refs w with
              | Ok refs => foldl (λ s (ref : string * Key), match CutPrefix ref.1 "build-from:" with
                                                            | Some kHex => if bool_decide (is_Some (parseHexKey64 kHex)) then {[kHex]} ∪ s else s
                                                            | None => s end) seen refs
              | Err _ => seen
              end in
  SortStrings (elements seen).

Definition serveTags (w : world) (last nStr : string) (r : registry) : registry * response :=
  let n := if String.eqb nStr "" then None else ParseInt nStr in
  let '(tags, next) := tags_page (all_tags w r) last n in
  (r, mkResp 200 "" "" (BTags tags next)).

Definition repoName : string := "jobs".

(** A request: the method, the path and the two paging parameters. *)
Record request := mkReq { rq_method : string; rq_path : string; rq_last : string; rq_n : string }.

Definition route (w : world) (q : request) (r : registry) : registry * response :=
  if negb (String.eqb (rq_method q) "GET") && negb (String.eqb (rq_method q) "HEAD") then (r, writeError 405 "UNSUPPORTED")
  else match CutPrefix (rq_path q) "/v2" with
  | None => (r, writeError 404 "UNSUPPORTED")
  | Some p =>
      let p := TrimPrefix p "/" in
      let head := String.eqb (rq_method q) "HEAD" in
      if String.eqb p "" then (r, mkResp 200 "" "" BNone)
      else if String.eqb p "_catalog" then (r, mkResp 200 "" "" (BTags [repoName] None))
      else match Split p slash with
      | [repo; what; arg] =>
          if negb (String.eqb repo repoName) then (r, writeError 404 "NAME_UNKNOWN")
          else if String.eqb what "tags" && String.eqb arg "list" then serveTags w (rq_last q) (rq_n q) r
          else if String.eqb what "manifests" then serveManifest w head arg r
          else if String.eqb what "blobs" then serveBlob w head arg r
          else (r, writeError 404 "UNSUPPORTED")
      | _ => (r, writeError 404 "UNSUPPORTED")
      end
  end.

(** ** The daemon's life (src/registryd/registryd.go) *)

(** [Run]: the layer index is rebuilt from the records on disk. *)
Definition start (st : Store) (fs : fsys) (repos : gmap string (option imageRecord)) (log : list imageRecord) (ttl : Z) (dflt : string) (noShell : bool) : registry :=
  let r := mkReg st fs ∅ newPinAsserter repos log (if (ttl <=? 0)%Z then (24 * hour)%Z else ttl) dflt noShell false in
  set_layers (foldl (λ x rec, li_put (ir_Layers rec) x) (r_layers r) (listRecords r)) r.

Definition minute : Z := 60000000000.

(** How often [sweepLoop] sweeps. *)
Definition sweep_interval (ttl : Z) : Z := let i := (ttl ÷ 4)%Z in let i := if (hour <? i)%Z then hour else i in if (i <? minute)%Z then minute else i.

(** One sweep of the blob directory. *)
Definition sweep (now : Z) (r : registry) : registry :=
  let names := fst <$> map_to_list (fs_dir (r_blobs r)) in
  set_blobs (snd (sweep_run (2 * length names) (r_ttl r) now (SwNext names 0 0) (r_blobs r))) r.

(** Pulling into a content-addressed store only adds. The steps of the daemon:
    a request, a sweep, the end of a pin assertion,
    being told to stop, and a start after a stop or a crash, which keeps the
    store and of the files what [crashed] says; a record
    may be lost or not decode, and an older one may come back. *)
Definition pull_grows (w : world) : Prop := ∀ name st st' res, w_Pull w name st = (st', res) → grows (st_objs st) (st_objs st').

Inductive reg_step : registry → registry → Prop :=
| rg_request w q r : pull_grows w → reg_step r (fst (route w q r))
| rg_sweep now r : reg_step r (sweep now r)
| rg_pins due err r : reg_step r (set_pins (pin_finished due err (r_pins r)) r)
| rg_stop r : reg_step r (mkReg (r_st r) (r_blobs r) (r_layers r) (r_pins r) (r_repos r) (r_log r) (r_ttl r) (r_defaultPlatform r) (r_noShell r) true)
| rg_restart dir left_ repos ttl dflt noShell r :
    (∀ n i, dir !! n = Some i → (n, i) ∈ fs_links (r_blobs r)) →
    (∀ k rec, repos !! k = Some (Some rec) → rec ∈ r_log r) →
    reg_step r (start (r_st r) (crashed dir left_ (r_blobs r)) repos (r_log r) ttl dflt noShell).

(** Every state of a registry that began with nothing but a store. *)
Inductive reg_reach : registry → Prop :=
| rr_start st ttl dflt noShell : reg_reach (start st fs_empty ∅ [] ttl dflt noShell)
| rr_step r r' : reg_reach r → reg_step r r' → reg_reach r'.
End Registry.
