(* ===== verification/RegistryFacts.v ===== *)
(** * What the registry serves is what it says (src/registryd)

    The invariant of the daemon's state over requests, sweeps, stops and
    crashes, and what follows for its answers. *)
From S2P Require Import Prelude GoLib Keys Builddef Store Stages BlobCache Image Registry.
From Stdlib Require Import Ascii.
Local Open Scope string_scope.
Local Open Scope list_scope.

(** ** Names and keys *)

Lemma is_hex_byte_lower a : is_hex_byte a = true → is_upper a = false.
Proof. destruct a as [[] [] [] [] [] [] [] []]; vm_compute; congruence. Qed.

Lemma all_bytes_impl (P Q : ascii → bool) s : (∀ a, P a = true → Q a = true) → all_bytes P s = true → all_bytes Q s = true.
Proof. intros H. induction s as [|a s IH]; cbn; [done|]. rewrite !andb_true_iff. naive_solver. Qed.

Lemma hex_encode_length s : String.length (hex_encode s) = (2 * String.length s)%nat.
Proof. induction s as [|a s IH]; cbn; [done|]. rewrite IH. lia. Qed.

Lemma zeros_length n : String.length (zeros n) = n.
Proof. induction n as [|n IH]; [done|]. change (S (String.length (zeros n)) = S n). by rewrite IH. Qed.

Lemma append_length a b : String.length (a +:+ b) = (String.length a + String.length b)%nat.
Proof. induction a as [|c a IH]; [done|]. change (S (String.length (a +:+ b)) = S (String.length a + String.length b)). by rewrite IH. Qed.

Lemma tmp_name_free fs : fs_dir fs !! tmp_name fs = None ∧ is_tmp (tmp_name fs) = true.
Proof.
  split; [|apply HasPrefix_app]. destruct (fs_dir fs !! tmp_name fs) as [i|] eqn:E; [|done]. exfalso.
  apply elem_of_map_to_list in E. unfold tmp_name in E. set (used := _ <$> _) in E. set (m := foldr Nat.max 0%nat used) in E.
  assert (Hle : ∀ l x, x ∈ l → (x ≤ foldr Nat.max 0%nat l)%nat) by (induction l as [|y l IH]; intros x; [by intros ?%elem_of_nil|]; cbn; intros [->|?%IH]%elem_of_cons; lia).
  specialize (Hle used (String.length ("tmp-" +:+ zeros m))). rewrite append_length, zeros_length in Hle. change (String.length "tmp-") with 4%nat in Hle.
  fold m in Hle. enough (4 + m ≤ m)%nat by lia. apply Hle. unfold used. apply list_elem_of_fmap. eexists. split; [|exact E]. cbn [fst]. by rewrite append_length, zeros_length.
Qed.

Section Facts.
Context `{HL : HashLib}.
(** Keys are 32 bytes. *)
Context (Hk32 : ∀ k : Key, String.length (key_bytes k) = 32%nat).

Lemma parseHexKey64_String k : parseHexKey64 (key_String k) = Some k.
Proof using Hk32.
  unfold parseHexKey64. assert (String.length (key_String k) = 64%nat) as -> by (unfold key_String; by rewrite hex_encode_length, Hk32).
  assert (all_bytes (λ a, negb (is_upper a)) (key_String k) = true) as ->; [|apply parseHexKey_String].
  eapply all_bytes_impl; [|apply hex_encode_bytes]. intros a H. by rewrite is_hex_byte_lower.
Qed.

(** ** Records *)

(** The specifications an assembly makes: only the fields of the kind are set. *)
Definition spec_shape (sp : LayerSpec) : Prop :=
  (sp_Kind sp = LayerDeps ∧ sp_Artifact sp = zero_key) ∨ (sp_Kind sp = LayerArtifact ∧ sp_Deps sp = [] ∧ sp_Shell sp = zero_key).

Lemma parse_deps_String l ks : parse_deps l (key_String <$> ks) = Ok ks.
Proof using Hk32. induction ks as [|k ks IH]; cbn; [done|]. rewrite parseHexKey64_String, IH. done. Qed.

(** A recorded layer is read back as the specification it was made from. *)
Lemma layer_record_roundtrip il : spec_shape (il_Spec il) → lr_spec (newLayerRecord il) = Ok (il_Spec il).
Proof using Hk32.
  destruct il as [d sz [kind deps shell art]]. unfold spec_shape. cbn. intros [[-> ->]|(-> & -> & ->)]; unfold newLayerRecord, lr_spec; cbn -[parse_deps].
  - rewrite parse_deps_String. cbn. destruct (bool_decide (shell = zero_key)) eqn:E.
    + apply bool_decide_eq_true_1 in E as ->. done.
    + destruct (String.eqb_spec (key_String shell) "") as [E0|_]; [by apply key_String_nonempty in E0|]. by rewrite parseHexKey64_String.
  - by rewrite parseHexKey64_String.
Qed.

(** A layer that can be streamed, and hashes to its digest. *)
Definition layer_ok (o : Objs) (l : layerRecord) : Prop :=
  ∃ spec tar, lr_spec l = Ok spec ∧ WriteLayerTar o spec = Ok tar ∧ lr_Digest l = Hash_String (SHA256 tar) ∧ lr_Size l = Z.of_nat (String.length tar).

Definition rec_ok (o : Objs) (rec : imageRecord) : Prop := ∀ l, l ∈ ir_Layers rec → layer_ok o l.

Lemma layer_ok_grows o o' l : grows o o' → layer_ok o l → layer_ok o' l.
Proof. intros H (sp & tar & H1 & H2 & H3). exists sp, tar. split; [done|]. split; [by eapply WriteLayerTar_grows|done]. Qed.

Lemma layer_ok_digest o l : layer_ok o l → lr_Digest l ≠ "".
Proof. intros (sp & tar & _ & _ & -> & _). done. Qed.

Lemma assembled_ok o artifact deps shell ep platform img layers : AssembleOCIImage o artifact deps shell ep platform = Ok (img, layers) →
  (∀ l, l ∈ newLayerRecord <$> layers → layer_ok o l) ∧ newLayerRecord <$> layers ≠ [].
Proof using Hk32.
  intros H. destruct (AssembleOCIImage_layers _ _ _ _ _ _ _ _ H) as [Hl Hs]. split.
  - intros l (il & -> & Hin)%list_elem_of_fmap. destruct (Hl il Hin) as (tar & Ht & Hd & Hz). exists (il_Spec il), tar. split; [|split; [done|]].
    + apply layer_record_roundtrip. assert (il_Spec il ∈ il_Spec <$> layers) as Hsp by (apply list_elem_of_fmap; eauto). rewrite Hs in Hsp.
      apply elem_of_cons in Hsp as [->|Hsp]; [by left|]. apply list_elem_of_singleton in Hsp as ->. by right.
    + unfold newLayerRecord. repeat case_match; cbn; by rewrite Hd.
  - destruct layers; [done|]. done.
Qed.

(** ** The layer index *)

Lemma li_put_lookup recs : ∀ x d l, li_put recs x !! d = Some l → x !! d = Some l ∨ (l ∈ recs ∧ lr_Digest l = d).
Proof.
  induction recs as [|r recs IH]; intros x d l H; [by left|]. unfold li_put in H. cbn in H. fold (li_put recs (if String.eqb (lr_Digest r) "" then x else <[lr_Digest r := r]> x)) in H.
  apply IH in H as [H|[H1 H2]]; [|right; split; [by right|done]]. destruct (String.eqb _ _); [by left|].
  apply lookup_insert_Some in H as [[<- <-]|[_ H]]; [right; split; [left|done]|by left].
Qed.

Lemma li_put_mono recs : ∀ x d, is_Some (x !! d) → is_Some (li_put recs x !! d).
Proof.
  induction recs as [|r recs IH]; intros x d H; [done|]. apply (IH (if String.eqb (lr_Digest r) "" then x else <[lr_Digest r := r]> x)).
  destruct (String.eqb _ _); [done|]. destruct (decide (lr_Digest r = d)) as [->|Hne]; [rewrite lookup_insert_eq; eauto|by rewrite lookup_insert_ne].
Qed.

Lemma li_put_in recs : ∀ x l, l ∈ recs → lr_Digest l ≠ "" → is_Some (li_put recs x !! lr_Digest l).
Proof.
  induction recs as [|r recs IH]; intros x l Hl Hd; [by apply elem_of_nil in Hl|]. apply elem_of_cons in Hl as [->|Hl]; [|by apply (IH (if String.eqb (lr_Digest r) "" then x else <[lr_Digest r := r]> x))].
  apply (li_put_mono recs (if String.eqb (lr_Digest r) "" then x else <[lr_Digest r := r]> x)). destruct (String.eqb_spec (lr_Digest r) ""); [done|].
  rewrite lookup_insert_eq. eauto.
Qed.

(** ** The invariant *)

Record reg_inv (r : registry) : Prop := {
  ri_fs : fs_sound sha256 (r_blobs r);
  ri_layers : ∀ d l, r_layers r !! d = Some l → lr_Digest l = d ∧ layer_ok (st_objs (r_st r)) l;
  ri_log : ∀ rec, rec ∈ r_log r → rec_ok (st_objs (r_st r)) rec;
  ri_keys : ∀ rec, rec ∈ r_log r → ∃ k, ir_K rec = key_String k;
  ri_repos : ∀ k rec, r_repos r !! k = Some (Some rec) → rec ∈ r_log r;
  ri_index : ∀ k rec l, readRecord k r = Some rec → l ∈ ir_Layers rec → is_Some (r_layers r !! lr_Digest l) }.

Lemma readRecord_Some k r rec : readRecord k r = Some rec → r_repos r !! k = Some (Some rec) ∧ ir_K rec = k.
Proof. unfold readRecord. destruct (r_repos r !! k) as [[rec'|]|]; try done. destruct (String.eqb_spec (ir_K rec') k); [|done]. intros [= <-]. done. Qed.

Lemma inv_set_blobs r fs : reg_inv r → fs_sound sha256 fs → reg_inv (set_blobs fs r).
Proof. intros [I1 I2 I3 IK I4 I5] H. by split. Qed.

Lemma inv_set_pins r p : reg_inv r → reg_inv (set_pins p r).
Proof. intros [I1 I2 I3 IK I4 I5]. by split. Qed.

Lemma inv_set_st r st : reg_inv r → grows (st_objs (r_st r)) (st_objs st) → reg_inv (set_st st r).
Proof.
  intros [I1 I2 I3 IK I4 I5] Hg. split; try done; cbn.
  - intros d l H. destruct (I2 d l H). split; [done|]. by eapply layer_ok_grows.
  - intros rec H l Hl. eapply layer_ok_grows; [done|]. by eapply I3.
Qed.

Lemma inv_quiet_blobs r fs : reg_inv r → quiet (r_blobs r) fs → reg_inv (set_blobs fs r).
Proof. intros I H. apply inv_set_blobs; [done|]. eapply quiet_sound; [done|apply I]. Qed.

Lemma fs_quiet_trans a b c : quiet a b → quiet b c → quiet a c.
Proof.
  intros [A1 A2 A3 A4] [B1 B2 B3 B4]. split; [|congruence|congruence|auto]. intros i f H. destruct (A1 i f H) as (f1 & H1 & E1 & S1).
  destruct (B1 i f1 H1) as (f2 & H2 & E2 & S2). exists f2. split; [done|]. split; [congruence|auto].
Qed.

Lemma quiet_foldl {A} (f : fsys → A → fsys) l : (∀ fs a, quiet fs (f fs a)) → ∀ fs, quiet fs (foldl f fs l).
Proof. intros H. induction l as [|a l IH]; intros fs; cbn; [apply fs_quiet_refl|]. eapply fs_quiet_trans; [apply H|apply IH]. Qed.

Lemma inv_swept ns r : reg_inv r → reg_inv (swept ns r).
Proof. intros I. apply inv_quiet_blobs; [done|]. apply quiet_foldl. intros. apply quiet_unlink. Qed.

Lemma inv_touchRecord now rec r : reg_inv r → reg_inv (touchRecord now rec r).
Proof. intros I. apply inv_quiet_blobs; [done|]. apply quiet_foldl. intros fs ds. destruct (NewHash ds); [apply quiet_touch|apply fs_quiet_refl]. Qed.

Lemma inv_assertPins now rec r : reg_inv r → reg_inv (assertPins now rec r).
Proof. intros I. unfold assertPins. destruct (r_down r); [done|]. by apply inv_set_pins. Qed.

(** ** Resolving only adds to the store *)

Definition rm_grows {A} (m : RM A) : Prop := ∀ st st' res, m st = (st', res) → grows (st_objs st) (st_objs st').

Lemma rm_grows_ret {A} (a : A) : rm_grows (rm_ret a).
Proof. intros st st' res [= <- _]. done. Qed.

Lemma rm_grows_fail {A} e : rm_grows (rm_fail (A := A) e).
Proof. intros st st' res [= <- _]. done. Qed.

Lemma rm_grows_bind {A B} (m : RM A) (k : A → RM B) : rm_grows m → (∀ a, rm_grows (k a)) → rm_grows (rm_bind m k).
Proof.
  intros Hm Hk st st' res. unfold rm_bind. destruct (m st) as [st1 [a|e]] eqn:E.
  - intros H. etransitivity; [by eapply Hm|by eapply Hk].
  - intros [= <- _]. by eapply Hm.
Qed.

Lemma rm_grows_ensure w name : pull_grows w → rm_grows (reg_ensureRef w name).
Proof.
  intros Hw st st' res. unfold reg_ensureRef. destruct (GetKey name st) as [o|]; [|by intros [= <- _]].
  destruct (match o with Some k => if reg_complete st k then Some k else None | None => None end); [by intros [= <- _]|].
  destruct (w_Pull w name st) as [st1 [root|[|e]]] eqn:E1; [|intros [= <- _]; by eapply Hw..]. destruct (reg_complete st1 root); [intros [= <- _]; by eapply Hw|].
  destruct (w_Pull w name st1) as [st2 [root2|e2]] eqn:E2.
  - destruct (reg_complete st2 root2); intros [= <- _]; (etransitivity; by eapply Hw).
  - intros [= <- _]. etransitivity; by eapply Hw.
Qed.

Lemma rm_grows_resolve w dflt noShell k fHint : pull_grows w → rm_grows (resolveBuild w dflt noShell k fHint).
Proof.
  intros Hw. assert (He : ∀ name, rm_grows (reg_ensureRef w name)) by (intros; by apply rm_grows_ensure). unfold resolveBuild. apply rm_grows_bind.
  { destruct (bool_decide _); [|apply rm_grows_ret]. unfold resolveF. destruct (w_Refs w); [|apply rm_grows_fail]. destruct (List.find _ _); [apply rm_grows_ret|].
    destruct (existsb _ _); [apply rm_grows_ret|apply rm_grows_fail]. }
  intros f. apply rm_grows_bind; [done|]. intros [root|]; [|apply rm_grows_fail]. intros st st' res. destruct (obj_TreeSubdir _ _ _) as [[art|]|]; [|by intros [= <- _]..].
  apply (rm_grows_bind (resolveDeps w f)).
  { apply rm_grows_bind; [done|]. intros [root'|]; [|apply rm_grows_ret]. intros s s' x. destruct (oci_Ls _ _); by intros [= <- _]. }
  intros deps. apply rm_grows_bind.
  { intros s s' x. unfold buildPlatform. destruct (reg_ensureRef w _ s) as [s1 [[root'|]|]] eqn:E; intros [= <- _]; by eapply He. }
  intros platform. apply rm_grows_bind; [|intros shell s s' x; by intros [= <- _]].
  unfold resolveShell. destruct noShell; [apply rm_grows_ret|]. apply rm_grows_bind; [done|]. intros o. apply rm_grows_ret.
Qed.

(** ** Assembling keeps the invariant *)

Lemma blob_put_ok w data r r' res : reg_inv r → blob_put w (SHA256 data) data r = (r', res) →
  reg_inv r' ∧ r_st r' = r_st r ∧ r_layers r' = r_layers r ∧ r_log r' = r_log r ∧ r_repos r' = r_repos r.
Proof.
  intros I. unfold blob_put. destruct (w_put_fault w _); [by intros [= <- _]|]. destruct (tmp_name_free (r_blobs r)) as [Hf Ht].
  destruct (put_spec sha256 (SHA256 data) [data] (tmp_name (r_blobs r)) (w_now w) (r_blobs r) (ri_fs _ I)) as (x & fs & -> & Hs & _); [done|apply hex_not_tmp, sha256_hex|done..|].
  destruct x; intros [= <- _]; (split; [by apply inv_set_blobs|done]).
Qed.

Lemma inv_new_record r w rec k r' res : reg_inv r → rec_ok (st_objs (r_st r)) rec → ir_K rec = key_String k → writeRecord w rec (set_layers (li_put (ir_Layers rec) (r_layers r)) r) = (r', res) →
  reg_inv r' ∧ (res = Ok tt → readRecord (ir_K rec) r' = Some rec).
Proof.
  intros [I1 I2 I3 IK I4 I5] Hok HK. set (r1 := set_layers _ r).
  assert (J : reg_inv r1).
  { split; try done; cbn.
    - intros d l [H|[H1 H2]]%li_put_lookup; [eauto|]. split; [done|]. by apply Hok.
    - intros k' rec' l Hr Hl. apply li_put_mono. by eapply (I5 k' rec'). }
  unfold writeRecord. destruct (w_record_fault w); intros [= <- <-]; [done|]. split.
  - destruct J as [J1 J2 J3 JK J4 J5]. split; try done; cbn.
    + intros rec' [->|H]%elem_of_cons; [done|by apply I3].
    + intros rec' [->|H]%elem_of_cons; [by exists k|by apply IK].
    + intros k' rec' [[<- [= <-]]|[_ H]]%lookup_insert_Some; [by left|]. right. by eapply I4.
    + intros k' rec' l Hr Hl. apply readRecord_Some in Hr as [Hr Hk]. cbn in Hr. apply lookup_insert_Some in Hr as [[<- [= <-]]|[Hne Hr]].
      * apply li_put_in; [done|]. eapply layer_ok_digest. by apply Hok.
      * apply (J5 k' rec' l); [|done]. unfold readRecord. cbn. rewrite Hr. by rewrite (proj2 (String.eqb_eq _ _) Hk).
  - intros _. unfold readRecord. cbn. rewrite lookup_insert_eq. by rewrite String.eqb_refl.
Qed.

Lemma assemble_inv w k r r' res : pull_grows w → reg_inv r → assembleAndCache w k r = (r', res) →
  reg_inv r' ∧ ∀ rec, res = Ok rec → readRecord (key_String k) r' = Some rec ∧ ir_Layers rec ≠ [].
Proof using Hk32.
  intros Hw I. unfold assembleAndCache. set (fH := match readRecord _ r with Some _ => _ | None => _ end). destruct (resolveBuild _ _ _ k fH (r_st r)) as [st [rb|e]] eqn:Er;
    pose proof (rm_grows_resolve w _ _ k fH Hw _ _ _ Er) as Hg; [|intros [= <- <-]; split; [by apply inv_set_st|done]].
  cbv zeta. pose proof (inv_set_st _ _ I Hg) as I1. destruct (AssembleOCIImage _ _ _ _ _ _) as [[img layers]|e] eqn:Ea; [|by intros [= <- <-]].
  apply assembled_ok in Ea as [Hlay Hne].
  destruct (blob_put w (SHA256 (im_config img)) (im_config img) (set_st st r)) as [r1 x1] eqn:E1. destruct (blob_put_ok _ _ _ _ _ I1 E1) as (J1 & S1 & L1 & G1 & P1).
  destruct x1; [|by intros [= <- <-]]. destruct (blob_put w (SHA256 (im_manifest img)) (im_manifest img) r1) as [r2 x2] eqn:E2. destruct (blob_put_ok _ _ _ _ _ J1 E2) as (J2 & S2 & L2 & G2 & P2).
  destruct x2; [|by intros [= <- <-]]. set (rec := make_record k rb img layers (w_now w)). assert (Hok : rec_ok (st_objs (r_st r2)) rec).
  { intros l Hl. rewrite S2, S1. by apply Hlay. }
  change (newLayerRecord <$> layers) with (ir_Layers rec). destruct (writeRecord w rec _) as [r3 x3] eqn:E3.
  destruct (inv_new_record _ _ _ k _ _ J2 Hok eq_refl E3) as [J3 Hr]. destruct x3 as [[]|]; intros [= <- <-]; (split; [done|]); [|done]. intros rec' [= <-].
  split; [by apply Hr|done].
Qed.

Lemma imageFor_inv w k r r' res : pull_grows w → reg_inv r → imageFor w k r = (r', res) →
  reg_inv r' ∧ ∀ rec b, res = Ok (rec, b) → readRecord (key_String k) r' = Some rec ∧ ir_Layers rec ≠ [].
Proof using Hk32.
  intros Hw I. unfold imageFor. set (cached := match readRecord _ r with Some _ => _ | None => _ end). destruct cached as [rec|] eqn:Ec; subst cached.
  - intros [= <- <-]. split; [done|]. intros rec' b [= <- _]. destruct (readRecord (key_String k) r) as [rec0|]; [|done].
    destruct (recordComplete rec0 r) eqn:Er; [|done]. injection Ec as ->. split; [done|]. unfold recordComplete in Er.
    intros E. rewrite E in Er. cbn in Er. by rewrite orb_true_r in Er.
  - destruct (r_down r); [by intros [= <- <-]|]. destruct (assembleAndCache w k r) as [r1 x] eqn:E. destruct (assemble_inv _ _ _ _ _ Hw I E) as [I1 H1].
    destruct (w_gone w); intros [= <- <-]; (split; [done|]); [done|]. intros rec b. destruct x; [|done]. intros [= <- _]. by apply H1.
Qed.

Lemma readRecord_swept k ns r : readRecord k (swept ns r) = readRecord k r.
Proof. done. Qed.

Lemma manifest_rounds_inv w k rounds : ∀ last r r' res, pull_grows w → reg_inv r → manifest_rounds w k rounds last r = (r', res) →
  reg_inv r' ∧ ∀ b rec, res = Ok (b, rec) → readRecord (key_String k) r' = Some rec ∧ ir_Layers rec ≠ [] ∧
    ∃ d, NewHash (ir_Manifest rec) = Some d ∧ get d (r_blobs r') = Some b.
Proof using Hk32.
  induction rounds as [|rounds IH]; intros last r r' res Hw I; cbn [manifest_rounds]; [by intros [= <- <-]|].
  destruct (imageFor w k r) as [r1 [[rec fl]|e]] eqn:E; destruct (imageFor_inv _ _ _ _ _ Hw I E) as [I1 H1]; [|by intros [= <- <-]].
  destruct (H1 rec fl eq_refl) as [Hr Hn]. destruct (NewHash (ir_Manifest rec)) as [d|] eqn:Ed; [|by intros [= <- <-]]. cbv zeta.
  pose proof (inv_swept (w_removed w rounds) r1 I1) as I2. destruct (get d _) as [b|] eqn:Eg; [|by apply IH].
  intros [= <- <-]. split; [done|]. intros b' rec' [= <- <-]. eauto.
Qed.

Lemma recoverDigest_inv w d r r' x : pull_grows w → reg_inv r → recoverDigest w d r = (r', x) → reg_inv r'.
Proof using Hk32.
  intros Hw I. unfold recoverDigest. destruct (findRecordByDigest d r); [|by intros [= <- _]]. destruct (parseHexKey64 _) as [k|]; [|by intros [= <- _]].
  destruct (imageFor w k r) as [r1 y] eqn:E. destruct (imageFor_inv _ _ _ _ _ Hw I E) as [I1 _]. destruct y; by intros [= <- _].
Qed.

(** A response whose body hashes to the digest it names. *)
Definition sound_response (o : Objs) (resp : response) : Prop :=
  match rs_body resp with
  | BBytes b => rs_digest resp = Hash_String (SHA256 b)
  | BLayer l => ∃ spec tar, lr_spec l = Ok spec ∧ WriteLayerTar o spec = Ok tar ∧ rs_digest resp = Hash_String (SHA256 tar) ∧ lr_Size l = Z.of_nat (String.length tar)
  | _ => True
  end.

Lemma get_digest r s d b : reg_inv r → NewHash s = Some d → get d (r_blobs r) = Some b → Hash_String d = Hash_String (SHA256 b).
Proof.
  intros I Hd Hg. destruct (NewHash_hex s d Hd) as [Ha Hh]. pose proof (get_sound sha256 _ _ _ (ri_fs _ I) Hg (hex_not_tmp _ Hh)) as E.
  unfold Hash_String. cbn. by rewrite Ha, E.
Qed.

Lemma error_sound o st c : sound_response o (writeError st c).
Proof. done. Qed.

Lemma mapError_sound o e : sound_response o (mapError e).
Proof. by destruct e. Qed.

Lemma byDigest_inv w head ref r r' resp : pull_grows w → reg_inv r → serveManifestByDigest w head ref r = (r', resp) →
  reg_inv r' ∧ sound_response (st_objs (r_st r')) resp.
Proof using Hk32.
  intros Hw I. unfold serveManifestByDigest. destruct (NewHash ref) as [d|] eqn:Ed; [|by intros [= <- <-]]. destruct (findRecordByManifest d r) as [rec|]; [|by intros [= <- <-]].
  assert (Hs : ∀ r1 b, reg_inv r1 → get d (r_blobs r1) = Some b → (assertPins (w_now w) rec (touchRecord (w_now w) rec r1), writeManifest head b (Hash_String d)) = (r', resp) →
    reg_inv r' ∧ sound_response (st_objs (r_st r')) resp).
  { intros r1 b I1 Hg [= <- <-]. split; [by apply inv_assertPins, inv_touchRecord|]. destruct head; [done|]. by eapply get_digest. }
  cbv zeta. destruct (get d (r_blobs r)) as [b|] eqn:Eg; [by apply Hs|]. destruct (recoverDigest w d r) as [r1 [|]] eqn:Er; pose proof (recoverDigest_inv _ _ _ _ _ Hw I Er) as I1; [|by intros [= <- <-]].
  pose proof (inv_swept (w_removed w 0) r1 I1) as I2. destruct (get d (r_blobs (swept (w_removed w 0) r1))) as [b|] eqn:Eg2; [by apply Hs|]. by intros [= <- <-].
Qed.

Lemma readRecord_served now rec k r : readRecord k (assertPins now rec (touchRecord now rec r)) = readRecord k r.
Proof. unfold assertPins. destruct (r_down _); done. Qed.

Lemma serveManifest_inv w head ref r r' resp : pull_grows w → reg_inv r → serveManifest w head ref r = (r', resp) →
  reg_inv r' ∧ sound_response (st_objs (r_st r')) resp ∧
  ∀ k, ref = key_String k → rs_status resp = 200%Z → ∃ rec, readRecord ref r' = Some rec ∧ ir_Manifest rec = rs_digest resp ∧ ir_Layers rec ≠ [].
Proof using Hk32.
  intros Hw I. unfold serveManifest. destruct (ContainsByte ref _) eqn:Ec.
  { intros H. destruct (byDigest_inv _ _ _ _ _ _ Hw I H) as [I1 S1]. split; [done|]. split; [done|]. intros k ->. by rewrite key_String_no_byte in Ec. }
  destruct (parseHexKey64 ref) as [k|] eqn:Ek; [|by intros [= <- <-]]. destruct (manifestFor w k r) as [r1 [[b rec]|e]] eqn:E;
    destruct (manifest_rounds_inv _ _ _ _ _ _ _ Hw I E) as [I1 H1]; [|intros [= <- <-]; split; [done|]; split; [apply mapError_sound|]; by destruct e].
  destruct (H1 b rec eq_refl) as (Hr & Hn & d & Hd & Hg). intros [= <- <-]. split; [by apply inv_assertPins, inv_touchRecord|]. split.
  - destruct head; [done|]. unfold sound_response. cbn. rewrite <- (NewHash_String _ _ Hd). by eapply get_digest.
  - intros k' -> _. rewrite parseHexKey64_String in Ek. injection Ek as ->. exists rec. rewrite readRecord_served. done.
Qed.

Lemma streamLayer_sound o head d l : layer_ok o l → lr_Digest l = Hash_String d →
  sound_response o (streamLayer head d l) ∧ rs_status (streamLayer head d l) = 200%Z ∧ rs_digest (streamLayer head d l) = lr_Digest l.
Proof.
  intros (sp & tar & Hs & Ht & Hd & Hz) E. unfold streamLayer. rewrite Hs. split; [|done]. destruct head; [done|]. exists sp, tar. cbn. rewrite <- E. done.
Qed.

Lemma serveBlob_inv w head digest r r' resp : pull_grows w → reg_inv r → serveBlob w head digest r = (r', resp) →
  reg_inv r' ∧ sound_response (st_objs (r_st r')) resp.
Proof using Hk32.
  intros Hw I. unfold serveBlob. destruct (NewHash digest) as [d|] eqn:Ed; [|by intros [= <- <-]]. destruct (r_layers r !! Hash_String d) as [l|] eqn:El.
  { intros [= <- <-]. split; [done|]. destruct (ri_layers _ I _ _ El) as [E Hl]. by apply streamLayer_sound. }
  assert (Hs : ∀ r1 b, reg_inv r1 → get d (r_blobs r1) = Some b → (set_blobs (touch d (w_now w) (r_blobs r1)) r1, mkResp 200 "" (Hash_String d) (if head then BNone else BBytes b)) = (r', resp) →
    reg_inv r' ∧ sound_response (st_objs (r_st r')) resp).
  { intros r1 b I1 Hg [= <- <-]. split; [apply inv_quiet_blobs; [done|apply quiet_touch]|]. destruct head; [done|]. by eapply get_digest. }
  cbv zeta. unfold open. destruct (get d (r_blobs r)) as [b|] eqn:Eg; [by apply Hs|]. cbn [fmap option_fmap option_map].
  destruct (recoverDigest w d r) as [r1 [|]] eqn:Er; pose proof (recoverDigest_inv _ _ _ _ _ Hw I Er) as I1; [|by intros [= <- <-]].
  pose proof (inv_swept (w_removed w 0) r1 I1) as I2. destruct (get d (r_blobs (swept _ r1))) as [b|] eqn:Eg2; [by apply Hs|]. by intros [= <- <-].
Qed.

Lemma route_inv w q r r' resp : pull_grows w → reg_inv r → route w q r = (r', resp) → reg_inv r' ∧ sound_response (st_objs (r_st r')) resp.
Proof using Hk32.
  intros Hw I. unfold route. destruct (_ && _); [by intros [= <- <-]|]. destruct (CutPrefix _ _) as [p|]; [|by intros [= <- <-]]. cbv zeta.
  destruct (String.eqb (TrimPrefix p "/") ""); [by intros [= <- <-]|]. destruct (String.eqb (TrimPrefix p "/") "_catalog"); [by intros [= <- <-]|].
  destruct (Split _ _) as [|repo [|what [|arg [|]]]]; try (by intros [= <- <-]). destruct (negb _); [by intros [= <- <-]|].
  destruct (_ && _); [unfold serveTags; destruct (tags_page _ _ _); by intros [= <- <-]|]. destruct (String.eqb what "manifests").
  { intros H. destruct (serveManifest_inv _ _ _ _ _ _ Hw I H) as (I1 & S1 & _). done. }
  destruct (String.eqb what "blobs"); [by apply serveBlob_inv|by intros [= <- <-]].
Qed.

(** ** Sweeps and restarts *)

Lemma sweep_run_quiet fuel ttl now : ∀ sw fs, quiet fs (snd (sweep_run fuel ttl now sw fs)).
Proof.
  induction fuel as [|fuel IH]; intros sw fs; cbn [sweep_run]; [apply fs_quiet_refl|]. destruct (sweep_step _ _ _ _ _) as [[sw' fs']|] eqn:E; [|apply fs_quiet_refl].
  eapply fs_quiet_trans; [by eapply sweep_step_quiet|apply IH].
Qed.

Lemma elem_of_listRecords rec r : rec ∈ listRecords r ↔ ∃ k, readRecord k r = Some rec.
Proof.
  unfold listRecords. rewrite list_elem_of_omap. split; [naive_solver|]. intros [k Hk]. exists k. split; [|done]. unfold record_names.
  rewrite elem_of_ssort. apply readRecord_Some in Hk as [Hk _]. apply list_elem_of_fmap. exists (k, Some rec). split; [done|]. by apply elem_of_map_to_list.
Qed.

Definition index_of (recs : list imageRecord) (x : gmap string layerRecord) : gmap string layerRecord := foldl (λ x rec, li_put (ir_Layers rec) x) x recs.

Lemma index_lookup recs : ∀ x d l, index_of recs x !! d = Some l → x !! d = Some l ∨ (lr_Digest l = d ∧ ∃ rec, rec ∈ recs ∧ l ∈ ir_Layers rec).
Proof.
  induction recs as [|rec recs IH]; intros x d l H; [by left|]. apply IH in H as [[H|[H1 H2]]%li_put_lookup|(H1 & rec' & H2 & H3)]; [by left|..]; right; (split; [done|]).
  - exists rec. split; [left|done].
  - exists rec'. split; [by right|done].
Qed.

Lemma index_mono recs : ∀ x d, is_Some (x !! d) → is_Some (index_of recs x !! d).
Proof. induction recs as [|rec recs IH]; intros x d H; [done|]. by apply IH, li_put_mono. Qed.

Lemma index_in recs : ∀ x rec l, rec ∈ recs → l ∈ ir_Layers rec → lr_Digest l ≠ "" → is_Some (index_of recs x !! lr_Digest l).
Proof.
  induction recs as [|rec0 recs IH]; intros x rec l Hr Hl Hd; [by apply elem_of_nil in Hr|]. apply elem_of_cons in Hr as [->|Hr]; [|by eapply (IH _ rec)].
  apply (index_mono recs (li_put (ir_Layers rec0) x)). by apply li_put_in.
Qed.

Lemma start_inv st fs repos log ttl dflt noShell : fs_sound sha256 fs → (∀ rec, rec ∈ log → rec_ok (st_objs st) rec) → (∀ rec, rec ∈ log → ∃ k, ir_K rec = key_String k) →
  (∀ k rec, repos !! k = Some (Some rec) → rec ∈ log) → reg_inv (start st fs repos log ttl dflt noShell).
Proof.
  intros Hfs Hlog HK Hrep. unfold start. set (r0 := mkReg _ _ _ _ _ _ _ _ _ _). change (foldl _ (r_layers r0) (listRecords r0)) with (index_of (listRecords r0) (r_layers r0)).
  assert (Hread : ∀ rec, rec ∈ listRecords r0 → rec ∈ log) by (intros rec [k Hk]%elem_of_listRecords; apply readRecord_Some in Hk as [Hk _]; by eapply Hrep).
  split; try done; cbn.
  - intros d l [H|(H1 & rec & H2 & H3)]%index_lookup; [by rewrite lookup_empty in H|]. split; [done|]. by apply (Hlog rec); [apply Hread|].
  - intros k rec l Hk Hl. assert (Hin : rec ∈ listRecords r0) by (apply elem_of_listRecords; by exists k). eapply index_in; [done|done|].
    eapply layer_ok_digest. by apply (Hlog rec); [apply Hread|].
Qed.

Lemma reg_step_inv r r' : reg_inv r → reg_step r r' → reg_inv r'.
Proof using Hk32.
  intros I Hst. destruct Hst as [w q r Hw|now r|due err r|r|dir left_ repos ttl dflt noShell r Hdir Hrep].
  - destruct (route w q r) as [r1 resp] eqn:E. by destruct (route_inv _ _ _ _ _ Hw I E).
  - apply inv_quiet_blobs; [done|apply sweep_run_quiet].
  - by apply inv_set_pins.
  - destruct I as [I1 I2 I3 IK I4 I5]. by split.
  - destruct I as [I1 I2 I3 IK I4 I5]. apply start_inv; [by apply crashed_sound|done..].
Qed.

Lemma reg_reach_inv r : reg_reach r → reg_inv r.
Proof using Hk32.
  induction 1 as [st ttl dflt noShell|r r' _ IH Hst]; [|by eapply reg_step_inv]. apply start_inv.
  - split; cbn; try done; intros n i H; by apply elem_of_nil in H.
  - intros rec H. by apply elem_of_nil in H.
  - intros rec H. by apply elem_of_nil in H.
  - intros k rec H. by rewrite lookup_empty in H.
Qed.

Lemma rtc_inv r r' : reg_inv r → rtc reg_step r r' → reg_inv r'.
Proof using Hk32. intros I H. induction H as [|a b c Hab _ IH]; [done|]. apply IH. by eapply reg_step_inv. Qed.

(** [C26] The registry serves what it says. In every state reached by requests,
    sweeps, stops and crashes, a body served under a digest hashes to it: a
    manifest or config is the blob of that digest, and a layer, which is stored
    nowhere, is generated from the store with exactly that digest and the size
    its manifest promises. *)
Theorem served_bytes_sound r w q r' resp : reg_reach r → pull_grows w → route w q r = (r', resp) → sound_response (st_objs (r_st r')) resp.
Proof using Hk32. intros Hr Hw H. by eapply route_inv; [..|exact H]; [done|apply reg_reach_inv]. Qed.

Lemma layer_served r l w : reg_inv r → layer_ok (st_objs (r_st r)) l → is_Some (r_layers r !! lr_Digest l) →
  ∃ lay, serveBlob w false (lr_Digest l) r = (r, mkResp 200 "" (lr_Digest l) (BLayer lay)) ∧ lr_Digest lay = lr_Digest l ∧ layer_ok (st_objs (r_st r)) lay.
Proof.
  intros I (sp & tar & Hs & Ht & Hd & Hz) [lay Hlay]. destruct (ri_layers _ I _ _ Hlay) as [E (sp' & tar' & Hs' & Hrest)]. exists lay. split; [|split; [done|by exists sp', tar']].
  unfold serveBlob. rewrite Hd, NewHash_SHA256, <- Hd, Hlay. unfold streamLayer. by rewrite Hs', Hd.
Qed.

(** [C27] An image that is served can be pulled. When the manifest of a build is
    served, a record of it with layers is on disk that names this manifest, and
    as long as that record is there - through later requests, sweeps, restarts
    and crashes, and without the server - every layer it names is served under
    its digest. *)
Theorem image_pullable w k r r' resp : reg_reach r → pull_grows w → serveManifest w false (key_String k) r = (r', resp) → rs_status resp = 200%Z →
  ∃ rec, readRecord (key_String k) r' = Some rec ∧ ir_Manifest rec = rs_digest resp ∧ ir_Layers rec ≠ [] ∧
    ∀ r2 w2 l, rtc reg_step r' r2 → readRecord (key_String k) r2 = Some rec → l ∈ ir_Layers rec →
      ∃ lay, serveBlob w2 false (lr_Digest l) r2 = (r2, mkResp 200 "" (lr_Digest l) (BLayer lay)) ∧ layer_ok (st_objs (r_st r2)) lay.
Proof using Hk32.
  intros Hr Hw H H200. destruct (serveManifest_inv _ _ _ _ _ _ Hw (reg_reach_inv _ Hr) H) as (I1 & _ & Hrec). destruct (Hrec k eq_refl H200) as (rec & H1 & H2 & H3).
  exists rec. split; [done|]. split; [done|]. split; [done|]. intros r2 w2 l Hst Hread Hl. pose proof (rtc_inv _ _ I1 Hst) as I2.
  destruct (layer_served r2 l w2 I2) as (lay & Hs & _ & Hok); [|by eapply ri_index|by exists lay].
  apply readRecord_Some in Hread as [Hread _]. by eapply (ri_log _ I2 rec); [eapply ri_repos|].
Qed.

(** ** Listing tags page by page *)

Definition tag_lt (a b : string) : Prop := str_ltb a b = true.

Lemma string_compare_refl s : String.compare s s = Eq.
Proof. induction s as [|a s IH]; cbn; [done|]. by rewrite ascii_compare_refl. Qed.

Lemma str_ltb_iff a b : str_ltb a b = true ↔ str_leb a b = true ∧ a ≠ b.
Proof.
  rewrite str_leb_compare. unfold str_ltb, String.ltb. split.
  - destruct (String.compare a b) eqn:E; try done. intros _. split; [done|]. intros ->. by rewrite string_compare_refl in E.
  - intros [H1 H2]. destruct (String.compare a b) eqn:E; [|done|done]. by apply String.compare_eq_iff in E.
Qed.

Lemma sorted_after A t B : StronglySorted tag_lt (A ++ t :: B) → Forall (λ a, tag_lt a t) A ∧ Forall (tag_lt t) B.
Proof.
  induction A as [|a A IH]; cbn; intros H; [split; [constructor|]; by inversion H|]. inversion H as [|?? H1 H2]; subst. destruct (IH H1) as [IH1 IH2].
  split; [|done]. constructor; [|done]. rewrite Forall_forall in H2. apply H2. set_solver.
Qed.

Lemma search_here A t B : StronglySorted tag_lt (A ++ t :: B) → SearchStrings (A ++ t :: B) t = length A.
Proof.
  intros [HA HB]%sorted_after. unfold SearchStrings. rewrite List.filter_app. cbn.
  assert (str_ltb t t = false) as -> by (apply not_true_iff_false; by intros [_ ?]%str_ltb_iff).
  assert (List.filter (λ x, str_ltb x t) A = A) as -> by (induction HA as [|a A Ha HA IH]; cbn; [done|]; by rewrite Ha, IH).
  assert (List.filter (λ x, str_ltb x t) B = []) as ->; [|by rewrite app_nil_r].
  induction HB as [|b B Hb HB IH]; cbn; [done|]. assert (str_ltb b t = false) as ->; [|done]. apply not_true_iff_false. intros H.
  apply str_ltb_iff in H as [H1 _]. apply str_ltb_iff in Hb as [H2 H3]. by apply H3, str_leb_antisym.
Qed.

(** The client: asks for pages of [n] tags, following the links. *)
Fixpoint fetch_tags (fuel : nat) (w : world) (nStr last : string) (r : registry) : option (list string) :=
  match serveTags w last nStr r with
  | (_, resp) =>
      match rs_body resp, fuel with
      | BTags tags None, _ => Some tags
      | BTags tags (Some t), S fuel => rest ← fetch_tags fuel w nStr t r; Some (tags ++ rest)
      | _, _ => None
      end
  end.

Lemma page_rest A B last n : StronglySorted tag_lt (A ++ B) → (A = [] ∧ last = "" ∨ last ≠ "" ∧ ∃ A', A = A' ++ [last]) →
  tags_page (A ++ B) last (Some n) = if (0 <=? n)%Z && (n <? Z.of_nat (length B))%Z
    then (take (Z.to_nat n) B, if (0 <? n)%Z then List.last (Some <$> take (Z.to_nat n) B) None else None) else (B, None).
Proof.
  intros Hs HA. unfold tags_page. assert (Hd : (if String.eqb last "" then A ++ B else
    let i := SearchStrings (A ++ B) last in
    let i := match (A ++ B) !! i with Some t => if String.eqb t last then S i else i | None => i end in drop i (A ++ B)) = B).
  { destruct HA as [[-> ->]|(Hne & A' & ->)]; [done|]. rewrite (proj2 (String.eqb_neq _ _) Hne). rewrite <- (assoc_L (++)) in *. cbn [app] in *.
    rewrite (search_here _ _ _ Hs). rewrite list_lookup_middle by done. rewrite String.eqb_refl. cbv zeta. rewrite (cons_middle last A' B), (assoc_L (++)).
    replace (S (length A')) with (length (A' ++ [last])) by (rewrite length_app; cbn; lia). apply drop_app_length. }
  cbv zeta in *. rewrite Hd. done.
Qed.

Lemma last_take n (B : list string) : (0 < n < length B)%nat → ∃ t, List.last (Some <$> take n B) None = Some t ∧ take n B = take (n - 1) B ++ [t].
Proof.
  intros Hn. destruct (lookup_lt_is_Some_2 B (n - 1)) as [t Ht]; [lia|]. exists t. assert (E : take n B = take (n - 1) B ++ [t]).
  { replace n with (S (n - 1)) at 1 by lia. by rewrite (take_S_r _ _ _ Ht). }
  split; [|done]. rewrite E, fmap_app. cbn. by rewrite List.last_last.
Qed.

Lemma fetch_rest w r nStr n : nStr ≠ "" → ParseInt nStr = Some n → (0 < n)%Z → StronglySorted tag_lt (all_tags w r) → Forall (λ t, t ≠ "") (all_tags w r) →
  ∀ fuel A B last, all_tags w r = A ++ B → (A = [] ∧ last = "" ∨ last ≠ "" ∧ ∃ A', A = A' ++ [last]) → (length B ≤ fuel)%nat →
  fetch_tags fuel w nStr last r = Some B.
Proof.
  intros Hstr Hn Hpos Hs Hne. induction fuel as [|fuel IH]; intros A B last Htags HA Hlen; cbn [fetch_tags]; unfold serveTags;
    rewrite (proj2 (String.eqb_neq _ _) Hstr), Hn, Htags; rewrite Htags in Hs; rewrite (page_rest _ _ _ _ Hs HA).
  - destruct B; [|cbn in Hlen; lia]. destruct (_ && _) eqn:E; [|done]. apply andb_true_iff in E as [_ E%Z.ltb_lt]. cbn in E. lia.
  - destruct ((0 <=? n)%Z && (n <? Z.of_nat (length B))%Z) eqn:E; [|done]. apply andb_true_iff in E as [_ E%Z.ltb_lt].
    rewrite (proj2 (Z.ltb_lt 0 n) Hpos). destruct (last_take (Z.to_nat n) B) as (t & -> & Et); [lia|]. cbn [rs_body].
    rewrite (IH (A ++ take (Z.to_nat n) B) (drop (Z.to_nat n) B) t).
    + cbn. by rewrite take_drop.
    + by rewrite <- (assoc_L (++)), take_drop.
    + right. split.
      * rewrite Forall_forall in Hne. apply Hne. rewrite Htags, <- (take_drop (Z.to_nat n) B), Et. set_solver.
      * exists (A ++ take (Z.to_nat n - 1) B). by rewrite Et, (assoc_L (++)).
    + rewrite length_drop. lia.
Qed.

Lemma sorted_strict l : StronglySorted (λ a b, str_leb a b = true) l → NoDup l → StronglySorted tag_lt l.
Proof.
  induction 1 as [|a l Hs IH Hall]; intros Hnd; [constructor|]. apply NoDup_cons in Hnd as [Hin Hnd]. constructor; [by apply IH|].
  rewrite Forall_forall in *. intros x Hx. apply str_ltb_iff. split; [by apply Hall|]. by intros ->.
Qed.

Lemma server_tags (refs : list (string * Key)) t : ∀ s : gset string,
  t ∈ foldl (λ s (ref : string * Key), match CutPrefix ref.1 "build-from:" with
                                       | Some kHex => if bool_decide (is_Some (parseHexKey64 kHex)) then {[kHex]} ∪ s else s
                                       | None => s end) s refs ↔
  t ∈ s ∨ (is_Some (parseHexKey64 t) ∧ ∃ key, ("build-from:" +:+ t, key) ∈ refs).
Proof.
  induction refs as [|[nm key] refs IH]; intros s; cbn [foldl fst].
  - split; [auto|]. intros [H|(_ & key & H%elem_of_nil)]; done.
  - rewrite IH. assert (Hstep : t ∈ match CutPrefix nm "build-from:" with
                                       | Some kHex => if bool_decide (is_Some (parseHexKey64 kHex)) then {[kHex]} ∪ s else s
                                       | None => s end ↔ t ∈ s ∨ (is_Some (parseHexKey64 t) ∧ nm = "build-from:" +:+ t)).
    { destruct (CutPrefix nm "build-from:") as [kHex|] eqn:Ec.
      - apply CutPrefix_Some in Ec as ->. destruct (bool_decide _) eqn:Eb.
        + apply bool_decide_eq_true_1 in Eb. rewrite elem_of_union, elem_of_singleton. split; [intros [->|]; auto|]. intros [?|[_ H%append_inj_l]]; auto.
        + apply bool_decide_eq_false_1 in Eb. split; [auto|]. intros [?|[H1 ->%append_inj_l]]; done.
      - split; [auto|]. intros [?|[_ ->]]; [done|]. by rewrite CutPrefix_app in Ec. }
    rewrite Hstep. setoid_rewrite elem_of_cons. split.
    + intros [[?|[? ->]]|(? & key' & ?)]; eauto.
    + intros [?|(? & key' & [[= <- <-]|?])]; eauto.
Qed.

(** The keys that can be pulled: of the records, and of the server's listing. *)
Definition pullable (w : world) (r : registry) (t : string) : Prop :=
  (∃ rec, readRecord t r = Some rec) ∨ (is_Some (parseHexKey64 t) ∧ ∃ refs key, w_Refs w = Ok refs ∧ ("build-from:" +:+ t, key) ∈ refs).

Lemma elem_of_all_tags w r t : t ∈ all_tags w r ↔ pullable w r t.
Proof.
  unfold all_tags, pullable. cbv zeta. unfold SortStrings. rewrite elem_of_ssort, elem_of_elements.
  assert (Hl : t ∈ (list_to_set (map ir_K (listRecords r)) : gset string) ↔ ∃ rec, readRecord t r = Some rec).
  { rewrite elem_of_list_to_set, list_elem_of_fmap. split.
    - intros (rec & -> & [k Hk]%elem_of_listRecords). destruct (readRecord_Some _ _ _ Hk) as [_ ->]. eauto.
    - intros [rec Hk]. exists rec. destruct (readRecord_Some _ _ _ Hk) as [_ E]. split; [done|]. apply elem_of_listRecords. eauto. }
  destruct (w_Refs w) as [refs|]; [rewrite server_tags|]; rewrite Hl; naive_solver.
Qed.

Lemma all_tags_sorted w r : StronglySorted tag_lt (all_tags w r).
Proof. apply sorted_strict; [apply SortStrings_sorted|]. unfold all_tags. rewrite SortStrings_perm. apply NoDup_elements. Qed.

(** Paging through the tags is complete. Whatever the page size, a client
    that follows the links comes to an end and has seen every build key that can
    be pulled - assembled here or listed by the server - once, in order. *)
Theorem tags_pages_complete w r nStr n : reg_reach r → ParseInt nStr = Some n → (0 < n)%Z →
  ∃ tags, fetch_tags (length (all_tags w r)) w nStr "" r = Some tags ∧ StronglySorted tag_lt tags ∧ ∀ t, t ∈ tags ↔ pullable w r t.
Proof using Hk32.
  intros Hr Hn Hpos. exists (all_tags w r). split; [|split; [apply all_tags_sorted|apply elem_of_all_tags]].
  eapply (fetch_rest w r nStr n) with (A := []); try done; [by intros ->|apply all_tags_sorted| |by left].
  apply Forall_forall. intros t Ht ->. apply elem_of_all_tags in Ht as [[rec Hrec]|([k Hk] & _)]; [|done]. apply readRecord_Some in Hrec as [Hrep Hk].
  destruct (ri_keys _ (reg_reach_inv _ Hr) rec) as [k Hk']; [by eapply ri_repos; [apply reg_reach_inv|]|]. rewrite Hk in Hk'. by apply (key_String_nonempty k).
Qed.
End Facts.

(** * A registry at work

    Keys of 32 bytes, a small store and a server that has one build: its image
    is assembled, served and listed. *)
From S2P Require Import Prelude GoLib Keys Builddef Store Stages BlobCache Image Registry.

(** ** Keys of 32 bytes: a letter and padding *)

Definition pad31 : string := zeros 31.

Definition byte_parse (b : string) : option ascii := match b with String a r => if String.eqb r pad31 then Some a else None | EmptyString => None end.

Lemma byte_parse_bytes a : byte_parse (String a pad31) = Some a.
Proof. unfold byte_parse. by rewrite String.eqb_refl. Qed.

Lemma byte_parse_inv b a : byte_parse b = Some a → String a pad31 = b.
Proof. destruct b as [|c r]; cbn [byte_parse]; [done|]. destruct (String.eqb_spec r pad31) as [->|]; [|done]. by intros [= <-]. Qed.

Definition byte_keys : KeyLib := {|
  Key := ascii;
  Key_inhabited := populate "0"%char;
  key_bytes := λ a, String a pad31;
  key_parse := byte_parse;
  key_Length := λ _, 0%Z;
  key_parse_bytes := byte_parse_bytes;
  key_parse_inv := byte_parse_inv;
  key_bytes_nonempty := λ k H, ltac:(discriminate H) |}.

Definition reg_store_lib : @StoreLib byte_keys := {|
  Objs := unit;
  ValidateName := λ n, negb (String.eqb n "");
  FileKey := λ _, @Err string (@Key byte_keys) "no";
  obj_ReadFile := λ _ _, Err "no file";
  obj_CheckComplete := λ _ _, Ok tt;
  obj_IngestFile := λ o _, (o, @Err string (@Key byte_keys) "no");
  obj_TreeSubdir := λ _ k n, if String.eqb n "c" then @Ok string (option (@Key byte_keys)) (Some "A"%char) else Ok None;
  obj_Derive := λ o _ _ _ _, (o, @Err string (@Key byte_keys) "no");
  dec_Import := λ _, Err "no";
  dec_Definition := λ _, Err "no";
  dec_PluginResolved := λ _, Err "no";
  dec_Pinned := λ _, Err "no";
  dec_TreeKey := λ _, @Err string (@Key byte_keys) "no" |}.

Definition reg_oci : @OciLib byte_keys reg_store_lib := {|
  zero_key := "0"%char : @Key byte_keys;
  oci_Ls := λ _ k, if bool_decide ((k : ascii) = "D"%char) then Ok [(@key_String byte_keys "X"%char, None)] else Ok [];
  oci_Tar := λ _ _, Ok [mkTar "./" 493 0 TypeDir "" 7 ""; mkTar "./bin" 493 0 TypeDir "" 7 ""; mkTar "./bin/app" 493 2 TypeReg "" 7 "hi"];
  tar_write := λ es, Ok (zeros (length es));
  sha256 := hex_encode;
  sha256_hex := hex_encode_bytes;
  image_raw := λ _ _, Ok ("config", "manifest");
  json_Entrypoint := λ _, Err "no" |}.

Definition toy_NewHash (s : string) : option Hash :=
  match CutPrefix s "sha256:" with Some h => if all_bytes is_hex_byte h then Some (mkHash "sha256" h) else None | None => None end.

Definition reg_hashes : @HashLib byte_keys reg_store_lib reg_oci.
Proof.
  refine {| NewHash := toy_NewHash |}.
  - intros s d. unfold toy_NewHash. destruct (CutPrefix s "sha256:") as [h|] eqn:E; [|done]. destruct (all_bytes _ h); [|done]. intros [= <-]. by apply CutPrefix_Some in E as ->.
  - intros s d. unfold toy_NewHash. destruct (CutPrefix s "sha256:") as [h|]; [|done]. destruct (all_bytes _ h) eqn:E; [|done]. by intros [= <-].
  - intros b. unfold toy_NewHash, Hash_String, SHA256. cbn [Algorithm Hex sha256 reg_oci]. change ("sha256" +:+ ":" +:+ hex_encode b) with ("sha256:" +:+ hex_encode b).
    by rewrite CutPrefix_app, hex_encode_bytes.
Defined.

#[local] Existing Instance byte_keys.
#[local] Existing Instance reg_store_lib.
#[local] Existing Instance reg_oci.
#[local] Existing Instance reg_hashes.

Lemma byte_keys_32 (k : Key) : String.length (key_bytes k) = 32%nat.
Proof. reflexivity. Qed.

(** ** The server, and a client that pulls and lists *)

Definition build_K : Key := "K"%char.
Definition build_F : Key := "F"%char.

Definition demo_pull (name : string) (st : Store) : Store * result pull_fail Key :=
  (st, if String.eqb name ("build-output:" +:+ key_String build_F) then Ok ("R"%char : Key)
       else if String.eqb name ("build-output-deps:" +:+ key_String build_F) then Ok ("D"%char : Key)
       else if String.eqb name "shell:linux/amd64" then Ok ("S"%char : Key)
       else Err PullNotFound).

Definition reg_world : world := mkWorld demo_pull (Ok [("build-from:" +:+ key_String build_K, build_F); ("build-from:" +:+ key_String ("L"%char : Key), build_F)]) 1000 (λ _, None) None false (λ _, []).

Definition reg_r0 : registry := start (mkStore tt ∅ [] (λ _, false) (λ _, false)) fs_empty ∅ [] 0 "linux/amd64" false.

Lemma reg_world_grows : pull_grows reg_world.
Proof. intros name st st' res. cbn. unfold demo_pull. intros [= <- _]. reflexivity. Qed.

Lemma served_bytes_sound_witness :
  let '(r', resp) := route reg_world (mkReq "GET" ("/v2/jobs/manifests/" +:+ key_String build_K) "" "") reg_r0 in
  rs_status resp = 200%Z ∧ rs_body resp = BBytes "manifest" ∧ sound_response (st_objs (r_st r')) resp.
Proof.
  destruct (route reg_world _ reg_r0) as [r' resp] eqn:E.
  assert (H1 : rs_status resp = 200%Z ∧ rs_body resp = BBytes "manifest") by (change resp with (snd (r', resp)); rewrite <- E; split; vm_compute; reflexivity).
  destruct H1 as [H1 H2]. split; [exact H1|]. split; [exact H2|].
  exact (served_bytes_sound byte_keys_32 reg_r0 reg_world _ r' resp (rr_start _ 0 "linux/amd64" false) reg_world_grows E).
Defined.

Lemma image_pullable_witness :
  let '(r', resp) := serveManifest reg_world false (key_String build_K) reg_r0 in
  rs_status resp = 200%Z ∧ ∃ rec, readRecord (key_String build_K) r' = Some rec ∧ length (ir_Layers rec) = 2%nat ∧
    ∀ l, l ∈ ir_Layers rec → ∃ lay, serveBlob reg_world false (lr_Digest l) r' = (r', mkResp 200 "" (lr_Digest l) (BLayer lay)).
Proof.
  destruct (serveManifest reg_world false _ reg_r0) as [r' resp] eqn:E.
  assert (H1 : rs_status resp = 200%Z) by (change resp with (snd (r', resp)); rewrite <- E; vm_compute; reflexivity).
  assert (H2 : (length ∘ ir_Layers <$> readRecord (key_String build_K) r') = Some 2%nat) by (change r' with (fst (r', resp)); rewrite <- E; vm_compute; reflexivity).
  split; [exact H1|].
  destruct (image_pullable byte_keys_32 reg_world build_K reg_r0 r' resp (rr_start _ 0 "linux/amd64" false) reg_world_grows E H1) as (rec & Hr & _ & _ & Hl).
  exists rec. split; [exact Hr|]. split.
  - rewrite Hr in H2. cbn in H2. congruence.
  - intros l Hin. destruct (Hl r' reg_world l (rtc_refl _ _) Hr Hin) as (lay & Hs & _). exists lay. exact Hs.
Defined.

Lemma tags_pages_complete_witness : ParseInt "1" = Some 1%Z ∧ length (all_tags reg_world reg_r0) = 2%nat ∧
  ∃ tags, fetch_tags (length (all_tags reg_world reg_r0)) reg_world "1" "" reg_r0 = Some tags ∧ ∀ t, t ∈ tags ↔ pullable reg_world reg_r0 t.
Proof.
  split; [vm_compute; reflexivity|]. split; [vm_compute; reflexivity|].
  destruct (tags_pages_complete byte_keys_32 reg_world reg_r0 "1" 1 (rr_start _ 0 "linux/amd64" false)) as (tags & H1 & _ & H2); [vm_compute; reflexivity|lia|].
  exists tags. split; [exact H1|exact H2].
Defined.
