(* ===== verification/DiskFs.v ===== *)
(** * A file system with symbolic links

    What the extractors and the source reader call: path resolution as the
    kernel does it (links are followed, with a budget), and the operations of
    Go's [os] package built on it. A path is the list of its elements; a file
    system maps real paths to nodes. *)
From S2P Require Import Prelude GoLib Keys Cover Paths.
From Stdlib Require Import Ascii.
Local Open Scope string_scope.
Local Open Scope list_scope.

Inductive node := NDir | NFile (mode : Z) (data : string) | NLink (target : string).

Abbreviation disk := (gmap (list string) node).

Inductive errno := ENOENT | ENOTDIR | ELOOP | EEXIST | EISDIR | ENOTEMPTY.

Definition is_link (n : option node) : bool := match n with Some (NLink _) => true | _ => false end.

(** The elements of an absolute path; the kernel ignores empty ones. *)
Definition psegs (p : string) : list string := List.filter (λ s, negb (String.eqb s "")) (Split p slash).

(** ** Path resolution *)

(** The real path [segs] leads to from [cur]: the last element need not exist,
    and is followed only when [follow] says so. *)
Fixpoint lookup_from (budget : nat) (follow : bool) (fs : disk) : list string → list string → result errno (list string) :=
  fix go cur segs {struct segs} :=
    match segs with
    | [] => Ok cur
    | s :: rest =>
        if String.eqb s "" || String.eqb s "." then go cur rest
        else if String.eqb s ".." then go (removelast cur) rest
        else
          let p := cur ++ [s] in
          match fs !! p with
          | None => match rest with [] => Ok p | _ => Err ENOENT end
          | Some NDir => go p rest
          | Some (NFile _ _) => match rest with [] => Ok p | _ => Err ENOTDIR end
          | Some (NLink t) =>
              if bool_decide (rest = []) && negb follow then Ok p
              else match budget with
              | O => Err ELOOP
              | S budget => lookup_from budget follow fs (if is_rooted t then [] else cur) (Split t slash ++ rest)
              end
          end
    end.

(** Linux follows at most 40 links. *)
Definition max_links : nat := 40.

Definition look (follow : bool) (fs : disk) (segs : list string) : result errno (list string) := lookup_from max_links follow fs [] segs.

Definition node_at (follow : bool) (fs : disk) (segs : list string) : result errno node :=
  match look follow fs segs with
  | Err e => Err e
  | Ok q => match fs !! q with Some n => Ok n | None => Err ENOENT end
  end.

(** ** Operations *)

Definition os_Stat := node_at true.
Definition os_Lstat := node_at false.

Definition os_Mkdir (segs : list string) (fs : disk) : disk * result errno unit :=
  match look false fs segs with
  | Err e => (fs, Err e)
  | Ok q => match fs !! q with Some _ => (fs, Err EEXIST) | None => (<[q := NDir]> fs, Ok tt) end
  end.

(** The path is given from its last element on. *)
Fixpoint mkdir_all (rsegs : list string) (fs : disk) : disk * result errno unit :=
  match os_Stat fs (rev rsegs) with
  | Ok NDir => (fs, Ok tt)
  | Ok _ => (fs, Err ENOTDIR)
  | Err _ =>
      match rsegs with
      | [] => (fs, Err ENOENT)
      | _ :: rparent =>
          match mkdir_all rparent fs with
          | (fs, Err e) => (fs, Err e)
          | (fs, Ok _) =>
              match os_Mkdir (rev rsegs) fs with
              | (fs, Ok _) => (fs, Ok tt)
              | (fs, Err e) => (fs, match os_Lstat fs (rev rsegs) with Ok NDir => Ok tt | _ => Err e end)
              end
          end
      end
  end.
Definition os_MkdirAll (segs : list string) (fs : disk) : disk * result errno unit := mkdir_all (rev segs) fs.

(** [os.OpenFile] for writing with [O_CREATE|O_TRUNC], and what is then written. *)
Definition write_file (nofollow : bool) (segs : list string) (mode : Z) (data : string) (fs : disk) : disk * result errno unit :=
  match look (negb nofollow) fs segs with
  | Err e => (fs, Err e)
  | Ok q =>
      match fs !! q with
      | None => (<[q := NFile mode data]> fs, Ok tt)
      | Some (NFile m _) => (<[q := NFile m data]> fs, Ok tt)
      | Some NDir => (fs, Err EISDIR)
      | Some (NLink _) => (fs, Err ELOOP)
      end
  end.

Definition os_Chmod (segs : list string) (mode : Z) (fs : disk) : disk * result errno unit :=
  match look true fs segs with
  | Err e => (fs, Err e)
  | Ok q =>
      match fs !! q with
      | None => (fs, Err ENOENT)
      | Some (NFile _ d) => (<[q := NFile mode d]> fs, Ok tt)
      | Some _ => (fs, Ok tt)
      end
  end.

Definition has_children (q : list string) (fs : disk) : bool :=
  existsb (λ kv : list string * node, bool_decide (kv.1 ≠ q) && bool_decide (q `prefix_of` kv.1)) (map_to_list fs).

Definition os_Remove (segs : list string) (fs : disk) : disk * result errno unit :=
  match look false fs segs with
  | Err e => (fs, Err e)
  | Ok q =>
      match fs !! q with
      | None => (fs, Err ENOENT)
      | Some NDir => if has_children q fs then (fs, Err ENOTEMPTY) else (delete q fs, Ok tt)
      | Some _ => (delete q fs, Ok tt)
      end
  end.

Definition os_Symlink (target : string) (segs : list string) (fs : disk) : disk * result errno unit :=
  if String.eqb target "" then (fs, Err ENOENT)
  else match look false fs segs with
  | Err e => (fs, Err e)
  | Ok q => match fs !! q with Some _ => (fs, Err EEXIST) | None => (<[q := NLink target]> fs, Ok tt) end
  end.

(** ** Paths that pass through no link *)

(** No proper prefix of [segs] below [base] is a link. *)
Definition clear (fs : disk) (segs : list string) : Prop := ∀ a b, segs = a ++ b → b ≠ [] → a ≠ [] → is_link (fs !! a) = false.

Lemma lookup_from_nil budget follow fs cur : lookup_from budget follow fs cur [] = Ok cur.
Proof. by destruct budget. Qed.

Lemma lookup_from_name budget follow fs cur s rest : name_ok s → lookup_from budget follow fs cur (s :: rest) =
  match fs !! (cur ++ [s]) with
  | None => match rest with [] => Ok (cur ++ [s]) | _ => Err ENOENT end
  | Some NDir => lookup_from budget follow fs (cur ++ [s]) rest
  | Some (NFile _ _) => match rest with [] => Ok (cur ++ [s]) | _ => Err ENOTDIR end
  | Some (NLink t) =>
      if bool_decide (rest = []) && negb follow then Ok (cur ++ [s])
      else match budget with O => Err ELOOP | S budget => lookup_from budget follow fs (if is_rooted t then [] else cur) (Split t slash ++ rest) end
  end.
Proof.
  intros [(H1 & H2 & H3) _]. destruct budget; cbn [lookup_from]; by rewrite (proj2 (String.eqb_neq _ _) H1), (proj2 (String.eqb_neq _ _) H2), (proj2 (String.eqb_neq _ _) H3).
Qed.

Lemma look_plain fs follow segs : ∀ budget cur q, Forall name_ok segs →
  (∀ a b, segs = a ++ b → a ≠ [] → b ≠ [] ∨ follow = true → is_link (fs !! (cur ++ a)) = false) →
  lookup_from budget follow fs cur segs = Ok q → q = cur ++ segs.
Proof.
  induction segs as [|s rest IH]; intros budget cur q Hok Hcl.
  - rewrite lookup_from_nil, app_nil_r. by intros [= <-].
  - apply Forall_cons in Hok as [Hs Hok]. rewrite lookup_from_name by done. specialize (Hcl [s] rest eq_refl ltac:(done)) as Hl.
    destruct (fs !! (cur ++ [s])) as [[|m d|t]|] eqn:E.
    + intros H. rewrite cons_middle, (assoc_L (++)). eapply IH; [done| |exact H]. intros a c -> Ha Hc. rewrite <- (assoc_L (++)). by apply (Hcl (s :: a) c).
    + destruct rest; [by intros [= <-]|done].
    + destruct rest as [|s' rest'], follow; cbn; try (by intros [= <-]); by specialize (Hl ltac:(auto)).
    + destruct rest; [by intros [= <-]|done].
Qed.

Lemma look_clear fs segs q : Forall name_ok segs → clear fs segs → look false fs segs = Ok q → q = segs.
Proof. intros H1 H2 H. apply (look_plain fs false segs max_links [] q H1); [|done]. intros a b E Ha [Hb|]; [|done]. by eapply H2. Qed.

Lemma look_clear_follow fs segs q : Forall name_ok segs → clear fs segs → is_link (fs !! segs) = false → look true fs segs = Ok q → q = segs.
Proof.
  intros H1 H2 H3 H. apply (look_plain fs true segs max_links [] q H1); [|done]. intros a b E Ha _. destruct b as [|x b]; [rewrite app_nil_r in E; by subst|].
  by apply (H2 a (x :: b)).
Qed.

(** ** What the operations change *)

(** Directories are made on the way to a path. *)
Definition made_dirs (fs fs' : disk) (segs : list string) : Prop :=
  ∀ p, fs' !! p = fs !! p ∨ (fs !! p = None ∧ fs' !! p = Some NDir ∧ p `prefix_of` segs).

(** The node at a path changes, and directories are made on the way to it. *)
Definition changed_at (fs fs' : disk) (segs : list string) : Prop :=
  ∀ p, fs' !! p = fs !! p ∨ p = segs ∨ (fs !! p = None ∧ fs' !! p = Some NDir ∧ p `prefix_of` segs).

Lemma made_dirs_refl fs segs : made_dirs fs fs segs.
Proof. intros p. by left. Qed.

Lemma made_dirs_changed fs fs' a segs : made_dirs fs fs' a → a `prefix_of` segs → changed_at fs fs' segs.
Proof. intros H Ha p. destruct (H p) as [|(? & ? & ?)]; [by left|]. right. right. split_and!; [done..|]. by etrans. Qed.

Lemma changed_at_refl fs segs : changed_at fs fs segs.
Proof. intros p. by left. Qed.

Lemma changed_at_trans fs fs1 fs2 segs : changed_at fs fs1 segs → changed_at fs1 fs2 segs → changed_at fs fs2 segs.
Proof.
  intros H1 H2 p. destruct (H2 p) as [E2|[->|(N2 & D2 & P2)]]; [rewrite E2; apply H1|auto|]. destruct (H1 p) as [E1|[->|(N1 & D1 & P1)]]; [|auto|congruence].
  rewrite <- E1. auto.
Qed.

Lemma changed_at_insert fs segs n : changed_at fs (<[segs := n]> fs) segs.
Proof. intros p. destruct (decide (segs = p)) as [<-|Hne]; [auto|]. left. by apply lookup_insert_ne. Qed.

Lemma changed_at_delete fs segs : changed_at fs (delete segs fs) segs.
Proof. intros p. destruct (decide (segs = p)) as [<-|Hne]; [auto|]. left. by apply lookup_delete_ne. Qed.

Lemma clear_changed fs fs' segs : changed_at fs fs' segs → clear fs segs → clear fs' segs.
Proof.
  intros H Hc a b E Hb Ha. destruct (H a) as [->|[->|(_ & -> & _)]]; [by eapply Hc| |done].
  exfalso. apply Hb. rewrite <- (app_nil_r segs) in E at 1. by apply app_inv_head in E.
Qed.

Lemma clear_prefix fs a b : clear fs (a ++ b) → clear fs a.
Proof. intros H c d -> Hd Hc. apply (H c (d ++ b)); [by rewrite (assoc_L (++))|by destruct d|done]. Qed.

Lemma Mkdir_made segs fs fs' r : Forall name_ok segs → clear fs segs → os_Mkdir segs fs = (fs', r) → made_dirs fs fs' segs.
Proof.
  intros Hn Hc. unfold os_Mkdir. destruct (look false fs segs) as [q|] eqn:E; [|intros [= <- _]; apply made_dirs_refl].
  apply look_clear in E as ->; [|done..]. destruct (fs !! segs) eqn:El; intros [= <- _]; [apply made_dirs_refl|]. intros p.
  destruct (decide (segs = p)) as [<-|Hne]; [right; by rewrite lookup_insert_eq|left; by apply lookup_insert_ne].
Qed.

Lemma mkdir_all_made rsegs : ∀ fs fs' r, Forall name_ok rsegs → clear fs (rev rsegs) → mkdir_all rsegs fs = (fs', r) → made_dirs fs fs' (rev rsegs).
Proof.
  induction rsegs as [|s rparent IH]; intros fs fs' r Hn Hc; cbn [mkdir_all].
  - destruct (os_Stat fs _) as [[]|]; intros [= <- _]; apply made_dirs_refl.
  - apply Forall_cons in Hn as [Hs Hn]. cbn [rev] in *. destruct (os_Stat fs _) as [[]|]; try (intros [= <- _]; apply made_dirs_refl).
    destruct (mkdir_all rparent fs) as [fs1 r1] eqn:E1. specialize (IH fs fs1 r1 Hn (clear_prefix _ _ _ Hc) E1).
    assert (H1 : made_dirs fs fs1 (rev rparent ++ [s])) by (intros p; destruct (IH p) as [|(? & ? & ?)]; [by left|right; split_and!; [done..|]; by apply prefix_app_r]).
    destruct r1; [|intros [= <- _]; done]. destruct (os_Mkdir _ fs1) as [fs2 r2] eqn:E2.
    assert (Hn' : Forall name_ok (rev rparent ++ [s])) by (apply Forall_app; split; [by apply Forall_rev|by constructor]).
    assert (H2 : made_dirs fs1 fs2 (rev rparent ++ [s])).
    { eapply Mkdir_made; [done| |exact E2]. eapply clear_changed; [|done]. by eapply made_dirs_changed. }
    assert (made_dirs fs fs2 (rev rparent ++ [s])).
    { intros p. destruct (H2 p) as [->|(N & D & P)]; [apply H1|]. destruct (H1 p) as [E|(? & ? & ?)]; [|congruence]. right. rewrite <- E. done. }
    destruct r2; intros [= <- _]; done.
Qed.

Lemma MkdirAll_made segs fs fs' r : Forall name_ok segs → clear fs segs → os_MkdirAll segs fs = (fs', r) → made_dirs fs fs' segs.
Proof.
  intros Hn Hc H. rewrite <- (rev_involutive segs). eapply mkdir_all_made; [by apply Forall_rev|by rewrite rev_involutive|exact H].
Qed.

Lemma write_changed nf segs mode data fs fs' r : Forall name_ok segs → clear fs segs → nf = true ∨ is_link (fs !! segs) = false →
  write_file nf segs mode data fs = (fs', r) → changed_at fs fs' segs ∧ (r = Ok tt → is_link (fs' !! segs) = false).
Proof.
  intros Hn Hc Hnf. unfold write_file. destruct (look (negb nf) fs segs) as [q|] eqn:E; [|intros [= <- <-]; split; [apply changed_at_refl|done]].
  assert (q = segs) as ->. { destruct nf; cbn in E; [by eapply look_clear|]. destruct Hnf as [|Hl]; [done|]. by eapply look_clear_follow. }
  destruct (fs !! segs) as [[|m d|t]|] eqn:El; intros [= <- <-]; (split; [apply changed_at_refl || apply changed_at_insert|]); try done; intros _; by rewrite lookup_insert_eq.
Qed.

Lemma Chmod_changed segs mode fs fs' r : Forall name_ok segs → clear fs segs → is_link (fs !! segs) = false → os_Chmod segs mode fs = (fs', r) → changed_at fs fs' segs.
Proof.
  intros Hn Hc Hl. unfold os_Chmod. destruct (look true fs segs) as [q|] eqn:E; [|intros [= <- _]; apply changed_at_refl].
  apply look_clear_follow in E as ->; [|done..]. destruct (fs !! segs) as [[|m d|t]|]; intros [= <- _]; apply changed_at_refl || apply changed_at_insert.
Qed.

Lemma Remove_changed segs fs fs' r : Forall name_ok segs → clear fs segs → os_Remove segs fs = (fs', r) → changed_at fs fs' segs.
Proof.
  intros Hn Hc. unfold os_Remove. destruct (look false fs segs) as [q|] eqn:E; [|intros [= <- _]; apply changed_at_refl].
  apply look_clear in E as ->; [|done..]. destruct (fs !! segs) as [[|m d|t]|]; [destruct (has_children _ _)|..]; intros [= <- _]; apply changed_at_refl || apply changed_at_delete.
Qed.

Lemma Symlink_changed target segs fs fs' r : Forall name_ok segs → clear fs segs → os_Symlink target segs fs = (fs', r) → changed_at fs fs' segs.
Proof.
  intros Hn Hc. unfold os_Symlink. destruct (String.eqb _ _); [intros [= <- _]; apply changed_at_refl|].
  destruct (look false fs segs) as [q|] eqn:E; [|intros [= <- _]; apply changed_at_refl].
  apply look_clear in E as ->; [|done..]. destruct (fs !! segs); intros [= <- _]; apply changed_at_refl || apply changed_at_insert.
Qed.
