(* ===== verification/Extract.v ===== *)
(** * Unpacking archives onto disk (src/fetchers/tarextract, src/fetchers/github/extract.go, src/runner/fetcher.go)

    Three extractors: of the tarball fetchers, of the GitHub fetcher, and the
    one that lays out store trees on a runner. They check the names of entries
    as strings; what a name leads to on disk depends on the links that earlier
    entries made. *)
From S2P Require Import Prelude GoLib Keys Builddef Store Stages Trees BlobCache Image Cover Paths DiskFs.
From Stdlib Require Import Ascii.
Local Open Scope string_scope.
Local Open Scope list_scope.

(** An archive as it is read: the entries, each possibly cut short by a read
    error while its content is copied, and how the stream ends (an archive that
    cannot be decompressed ends at once). Of a file's mode the permission bits
    are modelled; directories have none. *)
Record archive := mkAr { ar_entries : list (tar_entry * option string); ar_end : option string }.

(** Entries in order, up to the first error. *)
Fixpoint extract_loop {E} (step : tar_entry → option string → disk → disk * result E unit) (es : list (tar_entry * option string)) (fs : disk) : disk * result E unit :=
  match es with
  | [] => (fs, Ok tt)
  | (e, fault) :: es => match step e fault fs with (fs, Ok _) => extract_loop step es fs | (fs, Err x) => (fs, Err x) end
  end.

(** ** src/fetchers/tarextract/tarextract.go *)

Definition trim_slash_right (s : string) : string := str_rev (trim_slash_left (str_rev s)).

Definition stripComponents (name : string) (n : Z) : option string :=
  if (n <=? 0)%Z then Some name
  else let parts := Split (trim_slash_right name) slash in
       if (Z.of_nat (length parts) <=? n)%Z then None else Some (Join (drop (Z.to_nat n) parts) "/").

(** [filepath.Rel] of cleaned paths: the common elements are dropped. *)
Fixpoint drop_common (a b : list string) : list string * list string :=
  match a, b with
  | x :: a', y :: b' => if String.eqb x y then drop_common a' b' else (a, b)
  | _, _ => (a, b)
  end.

Definition Rel (base targ : string) : result string string :=
  let base := path_Clean base in
  let targ := path_Clean targ in
  if String.eqb targ base then Ok "."
  else if negb (Bool.eqb (is_rooted base) (is_rooted targ)) then Err ("Rel: can't make " +:+ targ +:+ " relative to " +:+ base)
  else
    let '(bs, ts) := drop_common (if String.eqb base "." then [] else psegs base) (psegs targ) in
    match bs with
    | [] => Ok (Join ts "/")
    | b :: _ => if String.eqb b ".." then Err "Rel" else Ok (Join (replicate (length bs) ".." ++ ts) "/")
    end.

Definition mode_perm (m : Z) : Z := Z.land m 511.

Section Extract.
(** The process's file mode creation mask. *)
Context (umask : Z).

Definition masked (m : Z) : Z := Z.ldiff m umask.

Definition errno_msg {A} (r : result errno A) : result string A := match r with Ok a => Ok a | Err _ => Err "system call" end.

(** The name an entry is extracted under: [Ok None] for one that is skipped. *)
Definition te_name (strip : Z) (e : tar_entry) : result string (option string) :=
  match stripComponents (th_Name e) strip with
  | None => Ok None
  | Some rel =>
      let clean := path_Clean rel in
      if String.eqb clean "." then Ok None
      else if String.eqb clean ".." || HasPrefix clean "../" || is_rooted clean then Err ("unsafe path in tarball: " +:+ th_Name e)
      else Ok (Some clean)
  end.

Definition te_regular (dst : string) (e : tar_entry) (fault : option string) (fs : disk) : disk * result string unit :=
  match os_MkdirAll (psegs (path_Dir dst)) fs with
  | (fs, Err _) => (fs, Err "mkdir")
  | (fs, Ok _) =>
      let perm := mode_perm (th_Mode e) in
      match write_file true (psegs dst) (masked perm) (th_body e) fs with
      | (fs, Err _) => (fs, Err "open")
      | (fs, Ok _) =>
          match fault with
          | Some x => (fs, Err x)
          | None => let '(fs, r) := os_Chmod (psegs dst) perm fs in (fs, errno_msg r)
          end
      end
  end.

Definition te_symlink (outDir dst : string) (e : tar_entry) (fs : disk) : disk * result string unit :=
  let target := th_Linkname e in
  let resolved := if is_rooted target then target else path_Join (path_Dir dst) target in
  let unsafe := match Rel outDir (path_Clean resolved) with Err _ => true | Ok r => String.eqb r ".." || HasPrefix r "../" end in
  if unsafe then (fs, Err ("unsafe symlink in tarball: " +:+ th_Name e +:+ " -> " +:+ target))
  else match os_MkdirAll (psegs (path_Dir dst)) fs with
  | (fs, Err _) => (fs, Err "mkdir")
  | (fs, Ok _) =>
      let '(fs, _) := os_Remove (psegs dst) fs in
      let '(fs, r) := os_Symlink target (psegs dst) fs in (fs, errno_msg r)
  end.

Definition te_entry (outDir : string) (strip : Z) (e : tar_entry) (fault : option string) (fs : disk) : disk * result string unit :=
  match te_name strip e with
  | Err x => (fs, Err x)
  | Ok None => (fs, Ok tt)
  | Ok (Some clean) =>
      let dst := path_Join outDir clean in
      match th_Typeflag e with
      | TypeDir => let '(fs, r) := os_MkdirAll (psegs dst) fs in (fs, errno_msg r)
      | TypeReg => te_regular dst e fault fs
      | TypeSymlink => te_symlink outDir dst e fs
      | TypeOther _ => (fs, Ok tt)
      end
  end.

Definition Extract (ar : archive) (outDir : string) (strip : Z) (fs : disk) : disk * result string unit :=
  match extract_loop (te_entry outDir strip) (ar_entries ar) fs with
  | (fs, Ok _) => (fs, match ar_end ar with Some x => Err ("tar: " +:+ x) | None => Ok tt end)
  | (fs, Err x) => (fs, Err x)
  end.

(** ** src/runner/fetcher.go *)

Definition target_of (dest : string) (e : tar_entry) : string := path_Join (path_Clean dest) (path_Clean ("/" +:+ th_Name e)).

Definition xt_entry (dest : string) (e : tar_entry) (fault : option string) (fs : disk) : disk * result string unit :=
  let cleanDest := path_Clean dest in
  let target := target_of dest e in
  if negb (String.eqb target cleanDest) && negb (HasPrefix target (cleanDest +:+ "/")) then (fs, Err ("tar entry escapes destination: " +:+ th_Name e))
  else match th_Typeflag e with
  | TypeDir => let '(fs, r) := os_MkdirAll (psegs target) fs in (fs, errno_msg r)
  | TypeReg =>
      match os_MkdirAll (psegs (path_Dir target)) fs with
      | (fs, Err _) => (fs, Err "mkdir")
      | (fs, Ok _) =>
          match write_file false (psegs target) (masked (mode_perm (th_Mode e))) (th_body e) fs with
          | (fs, Err _) => (fs, Err "open")
          | (fs, Ok _) => (fs, match fault with Some x => Err x | None => Ok tt end)
          end
      end
  | TypeSymlink => let '(fs, _) := os_Symlink (th_Linkname e) (psegs target) fs in (fs, Ok tt)
  | TypeOther _ => (fs, Ok tt)
  end.

Definition extractTar (ar : archive) (dest : string) (fs : disk) : disk * result string unit :=
  match extract_loop (xt_entry dest) (ar_entries ar) fs with
  | (fs, Ok _) => (fs, match ar_end ar with Some x => Err x | None => Ok tt end)
  | (fs, Err x) => (fs, Err x)
  end.

(** ** src/fetchers/github/extract.go *)

(** A failure is final or worth another attempt. *)
Inductive fetch_err := Hard (m : string) | Retryable (m : string).

Definition stripTop (name : string) : option string :=
  let name := trim_slash_left (TrimPrefix name "./") in
  match Cut name slash with
  | None => None
  | Some (_, rest) => if String.eqb rest "" then None else Some rest
  end.

Definition within (base target : string) : bool :=
  let base := path_Clean base in
  let target := path_Clean target in
  String.eqb target base || HasPrefix target (base +:+ "/").

Definition safeJoin (base rel : string) : option string :=
  let target := path_Clean (path_Join base rel) in if within base target then Some target else None.

(** The second result is whether something was written. *)
Definition gh_entry (dest : string) (e : tar_entry) (fault : option string) (fs : disk) : disk * result fetch_err bool :=
  match stripTop (th_Name e) with
  | None => (fs, Ok false)
  | Some rel =>
      match safeJoin dest rel with
      | None => (fs, Err (Hard "unsafe path"))
      | Some target =>
          match th_Typeflag e with
          | TypeDir => let '(fs, r) := os_MkdirAll (psegs target) fs in (fs, match r with Ok _ => Ok true | Err _ => Err (Hard "mkdir") end)
          | TypeReg =>
              match os_MkdirAll (psegs (path_Dir target)) fs with
              | (fs, Err _) => (fs, Err (Hard "mkdir parent"))
              | (fs, Ok _) =>
                  match write_file false (psegs target) (masked (mode_perm (th_Mode e))) (th_body e) fs with
                  | (fs, Err _) => (fs, Err (Hard "create"))
                  | (fs, Ok _) => (fs, match fault with Some x => Err (Retryable ("write: " +:+ x)) | None => Ok true end)
                  end
              end
          | TypeSymlink =>
              if is_rooted (th_Linkname e) then (fs, Err (Hard "absolute symlink"))
              else if negb (within dest (path_Join (path_Dir target) (th_Linkname e))) then (fs, Err (Hard "symlink escapes root"))
              else match os_MkdirAll (psegs (path_Dir target)) fs with
              | (fs, Err _) => (fs, Err (Hard "mkdir parent"))
              | (fs, Ok _) => let '(fs, r) := os_Symlink (th_Linkname e) (psegs target) fs in (fs, match r with Ok _ => Ok true | Err _ => Err (Hard "symlink") end)
              end
          | TypeOther _ => (fs, Ok false)
          end
      end
  end.

Fixpoint gh_loop (dest : string) (es : list (tar_entry * option string)) (wrote : bool) (fs : disk) : disk * result fetch_err bool :=
  match es with
  | [] => (fs, Ok wrote)
  | (e, fault) :: es => match gh_entry dest e fault fs with (fs, Ok w) => gh_loop dest es (wrote || w) fs | (fs, Err x) => (fs, Err x) end
  end.

Definition extractTarball (ar : archive) (dest : string) (fs : disk) : disk * result fetch_err unit :=
  match gh_loop dest (ar_entries ar) false fs with
  | (fs, Err x) => (fs, Err x)
  | (fs, Ok wrote) =>
      (fs, match ar_end ar with
           | Some x => Err (Retryable ("read tar: " +:+ x))
           | None => if wrote then Ok tt else Err (Hard "tarball had no repository content")
           end)
  end.
End Extract.

(** ** Names checked as strings are not places on disk *)

Definition link_entry (name target : string) : tar_entry := mkTar name 511 0 TypeSymlink target 0 "".
Definition dir_entry (name : string) : tar_entry := mkTar name 493 0 TypeDir "" 0 "".
Definition file_entry (name data : string) : tar_entry := mkTar name 420 (Z.of_nat (String.length data)) TypeReg "" 0 data.

(** A link to the root of the tree, a link made through it whose target, read
    from its name, ends in the tree and, read from where it really lies, above
    it, and a file below that link. *)
Definition escaping (top : string) : archive := mkAr
  [(dir_entry (top +:+ "a/b/"), None); (link_entry (top +:+ "a/b/up") "../..", None); (link_entry (top +:+ "a/b/up/out") "../../..", None);
   (file_entry (top +:+ "out/etc/passwd") "evil", None)] None.

Definition victim : disk := {[ [] := NDir; ["etc"] := NDir; ["etc"; "passwd"] := NFile 420 "good"; ["tmp"] := NDir; ["tmp"; "out"] := NDir ]}.

(** Each extractor accepts the archive, and a file outside of its directory has
    been overwritten. *)
Theorem extract_escapes :
  let '(fs, r) := Extract 18 (escaping "") "/tmp/out" 0 victim in r = Ok tt ∧ fs !! ["etc"; "passwd"] = Some (NFile 420 "evil").
Proof. vm_compute. done. Qed.

Theorem github_extract_escapes :
  let '(fs, r) := extractTarball 18 (escaping "owner-repo-1/") "/tmp/out" victim in r = Ok tt ∧ fs !! ["etc"; "passwd"] = Some (NFile 420 "evil").
Proof. vm_compute. done. Qed.
