(* ===== verification/ExtractFacts.v ===== *)
(** * Extraction stays in its directory when nothing lies below a link

    The extractors write only below their directory, provided that no entry of
    the archive has a name below that of a link in it; the archive of a tree is
    like that. *)
From S2P Require Import Prelude GoLib Keys Builddef Store Stages Trees BlobCache Image Cover Paths DiskFs Extract.
From Stdlib Require Import Ascii.
Local Open Scope string_scope.
Local Open Scope list_scope.

(** ** Absolute paths *)

Definition abs (segs : list string) : string := "/" +:+ joined segs.

Lemma Split_abs segs : Forall name_ok segs → Split (abs segs) slash = "" :: (if bool_decide (segs = []) then [""] else segs).
Proof.
  intros H. change (abs segs) with ("" +:+ String slash (joined segs)). rewrite Split_app by done. f_equal. destruct segs as [|s segs]; [done|].
  rewrite bool_decide_eq_false_2 by done. apply Split_joined; [done|by apply segs_ok_noslash].
Qed.

Lemma filter_names segs : Forall name_ok segs → List.filter (λ s, negb (String.eqb s "")) segs = segs.
Proof. induction 1 as [|s segs [[Hs _] _] _ IH]; cbn; [done|]. by rewrite (proj2 (String.eqb_neq _ _) Hs), IH. Qed.

Lemma psegs_abs segs : Forall name_ok segs → psegs (abs segs) = segs.
Proof. intros H. unfold psegs. rewrite Split_abs by done. cbn. destruct segs; [done|]. rewrite bool_decide_eq_false_2 by done. by apply filter_names. Qed.

Lemma abs_rooted segs : is_rooted (abs segs) = true.
Proof. apply (rooted_cons "/"). Qed.

Lemma clean_segs_skip r out segs : clean_segs r out ("" :: segs) = clean_segs r out segs.
Proof. done. Qed.

Lemma clean_abs_segs segs : Forall name_ok segs → clean_segs true [] (Split (abs segs) slash) = segs.
Proof.
  intros H. rewrite Split_abs by done. rewrite clean_segs_skip. destruct segs as [|s segs]; [done|]. rewrite bool_decide_eq_false_2 by done.
  rewrite clean_segs_plain_id; [done|by apply segs_ok_plain].
Qed.

Lemma Clean_abs segs : Forall name_ok segs → path_Clean (abs segs) = abs segs.
Proof. intros H. unfold path_Clean. rewrite abs_rooted, clean_abs_segs by done. done. Qed.

Lemma Split_slash a b : Split (a +:+ String slash b) slash = Split a slash ++ Split b slash.
Proof.
  induction a as [|c a IH]; [change (EmptyString +:+ String slash b) with (EmptyString +:+ String slash b); by rewrite (Split_app "" slash b)|].
  change (String c a +:+ String slash b) with (String c (a +:+ String slash b)). cbn [Split]. rewrite IH. destruct (ascii_dec c slash); [done|].
  destruct (Split a slash) eqn:E; [by apply Split_nonempty in E|done].
Qed.

Lemma clean_plain_app segs : ∀ out rest, Forall plain_seg segs → clean_segs true out (segs ++ rest) = clean_segs true (rev segs ++ out) rest.
Proof.
  induction segs as [|s segs IH]; intros out rest H; [done|]. apply Forall_cons in H as [(H1 & H2 & H3) H]. cbn [app clean_segs].
  rewrite (proj2 (String.eqb_neq _ _) H1), (proj2 (String.eqb_neq _ _) H2), (proj2 (String.eqb_neq _ _) H3). cbn [orb]. rewrite IH by done. f_equal.
  cbn [rev]. by rewrite <- (assoc_L (++)).
Qed.

Lemma clean_tail segs : ∀ out, Forall plain_seg segs → clean_segs true out segs = rev out ++ segs.
Proof. intros out H. rewrite <- (app_nil_r segs) at 1. rewrite clean_plain_app by done. cbn. by rewrite rev_app_distr, rev_involutive. Qed.

(** Appending a path below an absolute one. *)
Lemma Clean_below o x segs : Forall name_ok o → Forall name_ok segs → (∀ out, clean_segs true out (Split x slash) = clean_segs true out segs) →
  path_Clean (abs o +:+ "/" +:+ x) = abs (o ++ segs).
Proof.
  intros Ho Hs Hx. unfold path_Clean. assert (Hr : is_rooted (abs o +:+ "/" +:+ x) = true) by apply (rooted_cons "/"). rewrite Hr. unfold abs at 2, joined. do 2 f_equal.
  change (abs o +:+ "/" +:+ x) with (abs o +:+ String slash x). rewrite Split_slash, Split_abs by done. cbn [app]. rewrite clean_segs_skip.
  destruct o as [|s o]; [cbn [bool_decide app]; rewrite bool_decide_eq_true_2 by done; cbn [app]; rewrite clean_segs_skip, Hx; by apply clean_tail, segs_ok_plain|].
  rewrite bool_decide_eq_false_2 by done. rewrite clean_plain_app, app_nil_r, Hx, clean_tail by (by apply segs_ok_plain). by rewrite rev_involutive.
Qed.

Lemma Join_abs o n : Forall name_ok o → segs_ok n → path_Join (abs o) (joined n) = abs (o ++ n).
Proof.
  intros Ho [Hne Hn]. assert (E : path_Join (abs o) (joined n) = path_Clean (abs o +:+ "/" +:+ joined n)).
  { unfold path_Join. destruct (joined n) eqn:E; [by apply joined_nonempty in E|done]. }
  rewrite E. apply Clean_below; [done..|]. intros out. by rewrite Split_joined by (done || by apply segs_ok_noslash).
Qed.

Lemma Join_abs_abs o n : Forall name_ok o → Forall name_ok n → path_Join (abs o) (abs n) = abs (o ++ n).
Proof.
  intros Ho Hn. change (path_Join (abs o) (abs n)) with (path_Clean (abs o +:+ "/" +:+ abs n)). apply Clean_below; [done..|]. intros out.
  rewrite Split_abs, clean_segs_skip by done. by destruct n.
Qed.

Lemma Dir_abs t s : Forall name_ok (t ++ [s]) → path_Dir (abs (t ++ [s])) = abs t.
Proof.
  intros H. unfold path_Dir. rewrite Split_abs by done. rewrite bool_decide_eq_false_2 by (by destruct t).
  replace ("" :: t ++ [s]) with (("" :: t) ++ [s]) by done. rewrite rev_app_distr. cbn [rev app].
  apply Forall_app in H as [Ht _]. destruct (rev t ++ [""]) as [|x r] eqn:E; [by destruct (rev t)|].
  assert (Er : rev (x :: r) = "" :: t) by (rewrite <- E, rev_app_distr, rev_involutive; done). rewrite Er.
  destruct t as [|y t]; [done|]. change (Join ("" :: y :: t) "/" +:+ "/") with (abs (y :: t) +:+ "/" +:+ "").
  rewrite (Clean_below _ "" []); [by rewrite app_nil_r|done..].
Qed.

(** ** Containment *)

(** No operation but [Symlink] makes links. *)
Definition no_new_links (fs fs' : disk) : Prop := ∀ p, is_link (fs' !! p) = true → is_link (fs !! p) = true.

Lemma no_new_links_trans a b c : no_new_links a b → no_new_links b c → no_new_links a c.
Proof. unfold no_new_links. auto. Qed.

Lemma no_new_links_insert fs p n : is_link (Some n) = false → no_new_links fs (<[p := n]> fs).
Proof. intros Hn q. destruct (decide (p = q)) as [<-|Hne]; [by rewrite lookup_insert_eq, Hn|by rewrite lookup_insert_ne]. Qed.

Lemma made_no_links fs fs' segs : made_dirs fs fs' segs → no_new_links fs fs'.
Proof. intros H p. destruct (H p) as [->|(_ & -> & _)]; done. Qed.

Lemma write_no_links nf segs mode data fs fs' r : write_file nf segs mode data fs = (fs', r) → no_new_links fs fs'.
Proof.
  unfold write_file. destruct (look _ fs segs) as [q|]; [|by intros [= <- _] ?]. destruct (fs !! q) as [[|m d|t]|]; intros [= <- _]; try (by intros ?); by apply no_new_links_insert.
Qed.

Lemma Chmod_no_links segs mode fs fs' r : os_Chmod segs mode fs = (fs', r) → no_new_links fs fs'.
Proof. unfold os_Chmod. destruct (look _ fs segs) as [q|]; [|by intros [= <- _] ?]. destruct (fs !! q) as [[|m d|t]|]; intros [= <- _]; try (by intros ?); by apply no_new_links_insert. Qed.

(** The directory an archive is unpacked into: really there, and so far without
    links other than those of the archive's link entries. *)
Record inside (o : list string) (L : list (list string)) (fs : disk) : Prop := {
  in_real : ∀ a b, o = a ++ b → fs !! a = Some NDir;
  in_links : ∀ n, is_link (fs !! (o ++ n)) = true → n ∈ L }.

Lemma proper_prefix_ne {A} (k b : list A) : b ≠ [] → k ≠ k ++ b.
Proof. intros Hb E. apply Hb. rewrite <- (app_nil_r k) in E at 1. by apply app_inv_head in E. Qed.

Lemma inside_clear o L fs n : inside o L fs → (∀ l, l ∈ L → l `prefix_of` n → l = n) → clear fs (o ++ n).
Proof.
  intros [Hr Hl] HL a b E Hb Ha. apply app_eq_inv in E as [(k & Ek & _)|(k & -> & ->)].
  - by rewrite (Hr a k Ek).
  - destruct (is_link (fs !! (o ++ k))) eqn:Ek; [|done]. apply Hl in Ek. exfalso. apply (proper_prefix_ne k b Hb). apply HL; [done|by exists b].
Qed.

Lemma inside_changed o L fs fs' n : inside o L fs → n ≠ [] → changed_at fs fs' (o ++ n) → no_new_links fs fs' ∨ n ∈ L →
  inside o L fs' ∧ ∀ p, ¬ o `prefix_of` p → fs' !! p = fs !! p.
Proof.
  intros [Hr Hl] Hn Hc HL. assert (Hbase : ∀ p b, o = p ++ b → fs' !! p = fs !! p).
  { intros p b E. destruct (Hc p) as [|[->|(N & _ & _)]]; [done| |by rewrite (Hr p b E) in N]. exfalso. rewrite <- (assoc_L (++)) in E.
    apply (proper_prefix_ne o (n ++ b)); [by destruct n|done]. }
  split; [split|].
  - intros x b E. rewrite (Hbase x b E). by eapply Hr.
  - intros m Hm. destruct HL as [HL|HL]; [by apply Hl, HL|]. destruct (Hc (o ++ m)) as [E|[E|(_ & D & _)]].
    + rewrite E in Hm. by apply Hl.
    + by apply app_inv_head in E as ->.
    + by rewrite D in Hm.
  - intros p Hp. destruct (Hc p) as [|[->|(N & _ & [b E])]]; [done|by destruct Hp; exists n|]. apply app_eq_inv in E as [(k & E & _)|(k & -> & _)].
    + by eapply Hbase.
    + destruct Hp. by exists k.
Qed.

(** What one entry does, in general: nothing, or a change at its own name. *)
Definition entry_ok (o : list string) (L : list (list string)) (fs fs' : disk) : Prop :=
  fs' = fs ∨ ∃ n, n ≠ [] ∧ changed_at fs fs' (o ++ n) ∧ (no_new_links fs fs' ∨ n ∈ L).

Lemma loop_contained {E} (step : tar_entry → option string → disk → disk * result E unit) o L es : 
  (∀ e fault fs fs' r, e ∈ (fst <$> es) → inside o L fs → step e fault fs = (fs', r) → entry_ok o L fs fs') →
  ∀ fs fs' r, inside o L fs → extract_loop step es fs = (fs', r) → inside o L fs' ∧ ∀ p, ¬ o `prefix_of` p → fs' !! p = fs !! p.
Proof.
  induction es as [|[e fault] es IH]; intros Hstep fs fs' r Hin; cbn; [by intros [= <- _]|]. destruct (step e fault fs) as [fs1 r1] eqn:E1.
  assert (H1 : inside o L fs1 ∧ ∀ p, ¬ o `prefix_of` p → fs1 !! p = fs !! p).
  { destruct (Hstep e fault fs fs1 r1) as [->|(n & Hn & Hc & HL)]; [by left|done|done|done|]. by eapply inside_changed. }
  destruct H1 as [Hin1 Hout1]. destruct r1; [|by intros [= <- _]]. intros H. destruct (IH) with (fs := fs1) (fs' := fs') (r := r) as [Hin2 Hout2]; [|done|done|].
  - intros e' f' fs2 fs3 r3 He'. apply Hstep. by right.
  - split; [done|]. intros p Hp. by rewrite Hout2, Hout1.
Qed.

(** ** The tarball extractor *)

Lemma Clean_rooted p : is_rooted p = true → is_rooted (path_Clean p) = true.
Proof. intros H. unfold path_Clean. rewrite H. apply (rooted_cons "/"). Qed.

Lemma te_name_ok strip e clean : te_name strip e = Ok (Some clean) → ∃ n, segs_ok n ∧ clean = joined n.
Proof.
  unfold te_name. destruct (stripComponents (th_Name e) strip) as [rel|]; [|done]. destruct (String.eqb_spec (path_Clean rel) ".") as [|Hd]; [done|].
  destruct (_ || _ || is_rooted _) eqn:E; [done|]. apply orb_false_iff in E as [Ee Er]. intros [= <-].
  assert (is_rooted rel = false) as Hr by (destruct (is_rooted rel) eqn:H; [by rewrite (Clean_rooted _ H) in Er|done]).
  destruct (Clean_rel rel Hr Ee) as [|(n & Hn & ->)]; [done|]. eauto.
Qed.

(** The elements of the name an entry is extracted under. *)
Definition te_segs (strip : Z) (e : tar_entry) : option (list string) :=
  match te_name strip e with Ok (Some clean) => Some (Split clean slash) | _ => None end.

(** Operations below the directory, at names that lie below no link. *)
Lemma mkdir_ok o L fs fs' r n : inside o L fs → Forall name_ok (o ++ n) → (∀ l, l ∈ L → l `prefix_of` n → l = n) →
  os_MkdirAll (o ++ n) fs = (fs', r) → changed_at fs fs' (o ++ n) ∧ no_new_links fs fs'.
Proof.
  intros Hin Hn HL H. assert (Hm : made_dirs fs fs' (o ++ n)) by (eapply MkdirAll_made; [done|by eapply inside_clear|exact H]).
  split; [by eapply made_dirs_changed|by eapply made_no_links].
Qed.

Lemma parent_ok o L fs fs' r n s : inside o L fs → Forall name_ok (o ++ n ++ [s]) → (∀ l, l ∈ L → l `prefix_of` (n ++ [s]) → l = n ++ [s]) →
  os_MkdirAll (o ++ n) fs = (fs', r) → changed_at fs fs' (o ++ n ++ [s]) ∧ no_new_links fs fs' ∧ clear fs' (o ++ n ++ [s]).
Proof.
  intros Hin Hn HL H. pose proof (inside_clear o L fs _ Hin HL) as Hc.
  assert (Hm : made_dirs fs fs' (o ++ n)).
  { eapply MkdirAll_made; [|eapply (clear_prefix fs (o ++ n) [s]); by rewrite <- (assoc_L (++))|exact H]. rewrite (assoc_L (++)) in Hn. by apply Forall_app in Hn as [? _]. }
  assert (Hch : changed_at fs fs' (o ++ n ++ [s])) by (eapply made_dirs_changed; [done|]; rewrite (assoc_L (++)); by eexists).
  split; [done|]. split; [by eapply made_no_links|]. by eapply clear_changed.
Qed.

Section Contained.
Context (umask : Z) (o : list string) (Ho : Forall name_ok o).

Lemma dst_segs n s : Forall name_ok (n ++ [s]) → psegs (abs (o ++ n ++ [s])) = o ++ n ++ [s] ∧ psegs (path_Dir (abs (o ++ n ++ [s]))) = o ++ n.
Proof using Ho.
  intros Hn. assert (H : Forall name_ok (o ++ n ++ [s])) by (by apply Forall_app). split; [by apply psegs_abs|].
  rewrite (assoc_L (++)) in *. rewrite Dir_abs by done. apply psegs_abs. by apply Forall_app in H as [? _].
Qed.

Lemma write_ok n s nf mode data fs fs' r : Forall name_ok (o ++ n ++ [s]) → clear fs (o ++ n ++ [s]) → nf = true ∨ is_link (fs !! (o ++ n ++ [s])) = false →
  write_file nf (o ++ n ++ [s]) mode data fs = (fs', r) → changed_at fs fs' (o ++ n ++ [s]) ∧ no_new_links fs fs' ∧ clear fs' (o ++ n ++ [s]) ∧
    (r = Ok tt → is_link (fs' !! (o ++ n ++ [s])) = false).
Proof.
  intros Hn Hc Hnf H. destruct (write_changed _ _ _ _ _ _ _ Hn Hc Hnf H) as [H1 H2]. split; [done|]. split; [by eapply write_no_links|]. split; [by eapply clear_changed|done].
Qed.

Lemma te_regular_ok n s L e fault fs fs' r : Forall name_ok (n ++ [s]) → (∀ l, l ∈ L → l `prefix_of` (n ++ [s]) → l = n ++ [s]) → inside o L fs →
  te_regular umask (abs (o ++ n ++ [s])) e fault fs = (fs', r) → changed_at fs fs' (o ++ n ++ [s]) ∧ no_new_links fs fs'.
Proof using Ho.
  intros Hn HL Hin. destruct (dst_segs n s Hn) as [Ed Ep]. assert (Hall : Forall name_ok (o ++ n ++ [s])) by (by apply Forall_app).
  unfold te_regular. rewrite Ed, Ep. destruct (os_MkdirAll (o ++ n) fs) as [fs1 r1] eqn:E1. destruct (parent_ok _ _ _ _ _ _ _ Hin Hall HL E1) as (C1 & N1 & K1).
  destruct r1; [|by intros [= <- _]]. cbv zeta. destruct (write_file true _ _ _ fs1) as [fs2 r2] eqn:E2. destruct (write_ok _ _ _ _ _ _ _ _ Hall K1 (or_introl eq_refl) E2) as (C2 & N2 & K2 & F2).
  assert (C : changed_at fs fs2 (o ++ n ++ [s])) by (by eapply changed_at_trans). assert (N : no_new_links fs fs2) by (by eapply no_new_links_trans).
  destruct r2 as [[]|]; [|by intros [= <- _]]. destruct fault; [by intros [= <- _]|]. destruct (os_Chmod _ _ fs2) as [fs3 r3] eqn:E3. intros [= <- _].
  split; [eapply changed_at_trans; [done|]; eapply Chmod_changed; eauto|]. eapply no_new_links_trans; [done|by eapply Chmod_no_links].
Qed.

Lemma te_symlink_ok n s L e fs fs' r : Forall name_ok (n ++ [s]) → (∀ l, l ∈ L → l `prefix_of` (n ++ [s]) → l = n ++ [s]) → inside o L fs →
  te_symlink (abs o) (abs (o ++ n ++ [s])) e fs = (fs', r) → changed_at fs fs' (o ++ n ++ [s]).
Proof using Ho.
  intros Hn HL Hin. destruct (dst_segs n s Hn) as [Ed Ep]. assert (Hall : Forall name_ok (o ++ n ++ [s])) by (by apply Forall_app).
  unfold te_symlink. rewrite Ed, Ep. cbv zeta. destruct (match Rel _ _ with Err _ => true | Ok _ => _ end); [intros [= <- _]; apply changed_at_refl|].
  destruct (os_MkdirAll (o ++ n) fs) as [fs1 r1] eqn:E1. destruct (parent_ok _ _ _ _ _ _ _ Hin Hall HL E1) as (C1 & N1 & K1).
  destruct r1; [|by intros [= <- _]]. destruct (os_Remove _ fs1) as [fs2 r2] eqn:E2. pose proof (Remove_changed _ _ _ _ Hall K1 E2) as C2.
  destruct (os_Symlink _ _ fs2) as [fs3 r3] eqn:E3. pose proof (Symlink_changed _ _ _ _ _ Hall (clear_changed _ _ _ C2 K1) E3) as C3.
  intros [= <- _]. eapply changed_at_trans; [done|]. by eapply changed_at_trans.
Qed.

Lemma te_entry_ok strip L e fault fs fs' r : (∀ n l, te_segs strip e = Some n → l ∈ L → l `prefix_of` n → l = n) →
  (∀ n, th_Typeflag e = TypeSymlink → te_segs strip e = Some n → n ∈ L) →
  inside o L fs → te_entry umask (abs o) strip e fault fs = (fs', r) → entry_ok o L fs fs'.
Proof using Ho.
  intros HL Hsl Hin. unfold te_entry, te_segs in *. destruct (te_name strip e) as [[clean|]|] eqn:En; [|by intros [= <- _]; left..].
  apply te_name_ok in En as (n & [Hne Hn] & ->). rewrite Split_joined in HL, Hsl by (done || by apply segs_ok_noslash).
  assert (HL' : ∀ l, l ∈ L → l `prefix_of` n → l = n) by eauto. specialize (Hsl n). clear HL.
  rewrite Join_abs by done. destruct n as [|s n _] using rev_ind; [done|]. destruct (dst_segs n s Hn) as [Ed Ep].
  assert (Hall : Forall name_ok (o ++ n ++ [s])) by (by apply Forall_app). cbv zeta. intros H. destruct (th_Typeflag e) eqn:Et.
  - right. exists (n ++ [s]). split; [done|]. destruct (te_regular_ok _ _ _ _ _ _ _ _ Hn HL' Hin H). auto.
  - rewrite Ed in H. destruct (os_MkdirAll _ fs) as [fs1 r1] eqn:E1. injection H as <- _. right. exists (n ++ [s]). split; [done|].
    destruct (mkdir_ok _ _ _ _ _ _ Hin Hall HL' E1). auto.
  - right. exists (n ++ [s]). split; [done|]. split; [by eapply te_symlink_ok|]. right. by apply Hsl.
  - injection H as <- _. by left.
Qed.
End Contained.

(** The names of an archive's links, and that no entry lies below one. *)
Definition link_names (name : tar_entry → option (list string)) (es : list (tar_entry * option string)) : list (list string) :=
  omap (λ x : tar_entry * option string, if bool_decide (th_Typeflag x.1 = TypeSymlink) then name x.1 else None) es.

Definition none_below (name : tar_entry → option (list string)) (es : list (tar_entry * option string)) : bool :=
  forallb (λ x : tar_entry * option string, match name x.1 with
    | Some n => forallb (λ l, negb (bool_decide (l `prefix_of` n)) || bool_decide (l = n)) (link_names name es)
    | None => true
    end) es.

Lemma none_below_elim name es e n l : none_below name es = true → e ∈ (fst <$> es) → name e = Some n → l ∈ link_names name es → l `prefix_of` n → l = n.
Proof.
  unfold none_below. rewrite forallb_forall. intros H He En Hl Hp. apply list_elem_of_fmap in He as (x & -> & Hx). specialize (H x). rewrite En, forallb_forall in H.
  specialize (H (proj1 (list_elem_of_In _ _) Hx) l (proj1 (list_elem_of_In _ _) Hl)). apply orb_true_iff in H as [H|H]; [by rewrite (bool_decide_eq_true_2 _ Hp) in H|by apply bool_decide_eq_true in H].
Qed.

Lemma link_named name es e n : e ∈ (fst <$> es) → th_Typeflag e = TypeSymlink → name e = Some n → n ∈ link_names name es.
Proof.
  intros He Et En. apply list_elem_of_fmap in He as (x & -> & Hx). apply list_elem_of_omap. exists x. split; [done|]. by rewrite bool_decide_eq_true_2.
Qed.

(** A directory that is really there and holds no links yet. *)
Definition fresh_dir (o : list string) (fs : disk) : Prop := inside o [] fs.

Lemma fresh_inside o L fs : fresh_dir o fs → inside o L fs.
Proof. intros [Hr Hl]. split; [done|]. intros n Hn. apply Hl in Hn. by apply elem_of_nil in Hn. Qed.

(** [C29] A tarball no entry of which is named below one of its links is
    unpacked inside the output directory: whatever the entries' names, link
    targets and strip count, and however extraction ends, nothing outside of
    that directory is created, changed or removed. *)
Theorem extract_contained umask ar o strip fs fs' r :
  Forall name_ok o → fresh_dir o fs → none_below (te_segs strip) (ar_entries ar) = true →
  Extract umask ar (abs o) strip fs = (fs', r) → ∀ p, ¬ o `prefix_of` p → fs' !! p = fs !! p.
Proof.
  intros Ho Hf HL H. unfold Extract in H. destruct (extract_loop _ _ fs) as [fs1 r1] eqn:E. assert (fs1 = fs') as -> by (destruct r1; congruence).
  apply (loop_contained (te_entry umask (abs o) strip) o (link_names (te_segs strip) (ar_entries ar)) (ar_entries ar)) with (r := r1); [|by apply fresh_inside|done].
  intros e fault fa fb rb He Hin Hb. eapply te_entry_ok; [done| |..|exact Hin|exact Hb].
  - intros n l Hn Hl. by eapply none_below_elim.
  - intros n Ht Hn. by eapply link_named.
Qed.

(** ** The store tree extractor *)

Lemma clean_rooted_plain segs : ∀ out, Forall plain_seg out → Forall plain_seg (clean_segs true out segs).
Proof.
  induction segs as [|s segs IH]; intros out Ho; cbn; [by apply Forall_rev|]. destruct (String.eqb_spec s ""), (String.eqb_spec s "."); cbn; auto.
  destruct (String.eqb_spec s "..") as [->|]; [|apply IH; by repeat constructor].
  destruct out as [|x out]; [auto|]. apply Forall_cons in Ho as [(? & ? & Hx) Ho]. rewrite (proj2 (String.eqb_neq _ _) Hx). auto.
Qed.

(** A rooted path cleaned: no [..] is left. *)
Lemma Clean_rooted_abs p : is_rooted p = true → ∃ n, Forall name_ok n ∧ path_Clean p = abs n.
Proof.
  intros Hr. exists (clean_segs true [] (Split p slash)). split; [|unfold path_Clean; by rewrite Hr]. pose proof (clean_rooted_plain (Split p slash) [] (Forall_nil_2 _)) as Hp.
  rewrite Forall_forall in Hp. apply Forall_forall. intros s Hs. specialize (Hp s Hs). split; [done|].
  destruct (clean_segs_sub _ _ _ _ Hs) as [H|[H| ->]]; [by apply elem_of_nil in H| |by destruct Hp as (_ & _ & Hp)].
  pose proof (Split_elem p slash) as He. rewrite Forall_forall in He. by apply He.
Qed.

(** Resolving a path that consists of directories. *)
Lemma look_real budget follow fs segs : ∀ cur, Forall name_ok segs → (∀ a b, segs = a ++ b → fs !! (cur ++ a) = Some NDir) → lookup_from budget follow fs cur segs = Ok (cur ++ segs).
Proof.
  induction segs as [|s segs IH]; intros cur Hn Hr; [by rewrite lookup_from_nil, app_nil_r|]. apply Forall_cons in Hn as [Hs Hn]. rewrite lookup_from_name by done.
  rewrite (Hr [s] segs) by done. rewrite IH; [by rewrite <- (assoc_L (++))|done|]. intros a b ->. rewrite <- (assoc_L (++)). by apply (Hr (s :: a) b).
Qed.

Lemma real_look follow o L fs a b : Forall name_ok o → inside o L fs → o = a ++ b → look follow fs a = Ok a ∧ fs !! a = Some NDir.
Proof.
  intros Ho [Hr _] ->. apply Forall_app in Ho as [Ha _]. split; [|by eapply Hr]. apply (look_real _ follow fs a []); [done|]. intros c d ->.
  apply (Hr c (d ++ b)). by rewrite (assoc_L (++)).
Qed.

Lemma mkdir_real o L fs a b : Forall name_ok o → inside o L fs → o = a ++ b → os_MkdirAll a fs = (fs, Ok tt).
Proof.
  intros Ho Hin E. destruct (real_look true o L fs a b Ho Hin E) as [El En]. assert (Hs : os_Stat fs a = Ok NDir) by (unfold os_Stat, node_at; by rewrite El, En).
  unfold os_MkdirAll. destruct (rev a) as [|x r] eqn:Er; cbn [mkdir_all]; rewrite <- Er, rev_involutive; by rewrite Hs.
Qed.

Lemma Dir_abs_prefix o : Forall name_ok o → ∃ a b, o = a ++ b ∧ psegs (path_Dir (abs o)) = a.
Proof.
  intros Ho. destruct o as [|s o _] using rev_ind; [by exists [], []|]. exists o, [s]. split; [done|]. rewrite Dir_abs by done. apply psegs_abs. by apply Forall_app in Ho as [? _].
Qed.

(** The elements of the name an entry is laid out under. *)
Definition xt_segs (e : tar_entry) : list string := psegs (path_Clean ("/" +:+ th_Name e)).

Lemma xt_target o e : Forall name_ok o → Forall name_ok (xt_segs e) ∧ target_of (abs o) e = abs (o ++ xt_segs e).
Proof.
  intros Ho. destruct (Clean_rooted_abs ("/" +:+ th_Name e)) as (n & Hn & E); [by apply (rooted_cons "/")|].
  unfold xt_segs, target_of. rewrite E, psegs_abs, Clean_abs by done. split; [done|]. by apply Join_abs_abs.
Qed.

(** An entry for the destination itself changes nothing. *)
Lemma xt_root umask o L e fault fs fs' r : Forall name_ok o → inside o L fs → xt_segs e = [] → xt_entry umask (abs o) e fault fs = (fs', r) → fs' = fs.
Proof.
  intros Ho Hin En. destruct (xt_target o e Ho) as [_ Et]. rewrite En, app_nil_r in Et. unfold xt_entry. rewrite Et. cbv zeta. destruct (_ && _); [by intros [= <- _]|].
  rewrite psegs_abs by done. assert (Eo : o = o ++ []) by (by rewrite app_nil_r). destruct (th_Typeflag e).
  - destruct (Dir_abs_prefix o Ho) as (a & b & E & Ea). rewrite Ea, (mkdir_real _ _ _ _ _ Ho Hin E). unfold write_file.
    destruct (real_look true _ _ _ _ _ Ho Hin Eo) as [El En']. cbn [negb]. rewrite El, En'. by intros [= <- _].
  - rewrite (mkdir_real _ _ _ _ _ Ho Hin Eo). by intros [= <- _].
  - unfold os_Symlink. destruct (real_look false _ _ _ _ _ Ho Hin Eo) as [El En']. rewrite El, En'. destruct (String.eqb _ _); by intros [= <- _].
  - by intros [= <- _].
Qed.

(** A regular file is opened through a link at its own name, too. *)
Definition files_apart (es : list (tar_entry * option string)) : bool :=
  forallb (λ x : tar_entry * option string, negb (bool_decide (th_Typeflag x.1 = TypeReg)) || negb (bool_decide (xt_segs x.1 ∈ link_names (Some ∘ xt_segs) es))) es.

Lemma files_apart_elim es e : files_apart es = true → e ∈ (fst <$> es) → th_Typeflag e = TypeReg → xt_segs e ∉ link_names (Some ∘ xt_segs) es.
Proof.
  unfold files_apart. rewrite forallb_forall. intros H He Et. apply list_elem_of_fmap in He as (x & -> & Hx). specialize (H x (proj1 (list_elem_of_In _ _) Hx)).
  rewrite (bool_decide_eq_true_2 _ Et) in H. cbn in H. apply negb_true_iff in H. by apply bool_decide_eq_false in H.
Qed.

Lemma xt_entry_ok umask o L e fault fs fs' r : Forall name_ok o → (∀ l, l ∈ L → l `prefix_of` (xt_segs e) → l = xt_segs e) →
  (th_Typeflag e = TypeReg → xt_segs e ∉ L) → (th_Typeflag e = TypeSymlink → xt_segs e ∈ L) →
  inside o L fs → xt_entry umask (abs o) e fault fs = (fs', r) → entry_ok o L fs fs'.
Proof.
  intros Ho HL Hreg Hsl Hin H. destruct (xt_segs e) as [|s n _] eqn:En using rev_ind; [left; by eapply xt_root|].
  destruct (xt_target o e Ho) as [Hn Et]. rewrite En in *. assert (Hall : Forall name_ok (o ++ n ++ [s])) by (by apply Forall_app).
  destruct (dst_segs o Ho n s Hn) as [Ed Ep]. unfold xt_entry in H. rewrite Et in H. cbv zeta in H. destruct (_ && _); [injection H as <- _; by left|].
  rewrite Ed, ?Ep in H. pose proof (inside_clear _ _ _ _ Hin HL) as Hc. destruct (th_Typeflag e) eqn:Ety.
  - right. exists (n ++ [s]). split; [by destruct n|]. destruct (os_MkdirAll (o ++ n) fs) as [fs1 r1] eqn:E1. destruct (parent_ok _ _ _ _ _ _ _ Hin Hall HL E1) as (C1 & N1 & K1).
    destruct r1; [|injection H as <- _; auto]. destruct (write_file false _ _ _ fs1) as [fs2 r2] eqn:E2.
    assert (Hl : is_link (fs1 !! (o ++ n ++ [s])) = false).
    { destruct (is_link _) eqn:El; [|done]. exfalso. apply (Hreg eq_refl), (in_links _ _ _ Hin). by apply N1. }
    destruct (write_ok o _ _ _ _ _ _ _ _ Hall K1 (or_intror Hl) E2) as (C2 & N2 & _). assert (fs2 = fs') as -> by (destruct r2; congruence).
    split; [by eapply changed_at_trans|]. left. by eapply no_new_links_trans.
  - destruct (os_MkdirAll _ fs) as [fs1 r1] eqn:E1. injection H as <- _. right. exists (n ++ [s]). split; [by destruct n|]. destruct (mkdir_ok _ _ _ _ _ _ Hin Hall HL E1). auto.
  - destruct (os_Symlink _ _ fs) as [fs1 r1] eqn:E1. injection H as <- _. right. exists (n ++ [s]). split; [by destruct n|].
    split; [by eapply Symlink_changed|]. right. by apply Hsl.
  - injection H as <- _. by left.
Qed.

(** Laying out a store tree, likewise, when no file has the name of a link. *)
Theorem extractTar_contained umask ar o fs fs' r :
  Forall name_ok o → fresh_dir o fs → none_below (Some ∘ xt_segs) (ar_entries ar) = true → files_apart (ar_entries ar) = true →
  extractTar umask ar (abs o) fs = (fs', r) → ∀ p, ¬ o `prefix_of` p → fs' !! p = fs !! p.
Proof.
  intros Ho Hf HL Ha H. unfold extractTar in H. destruct (extract_loop _ _ fs) as [fs1 r1] eqn:E. assert (fs1 = fs') as -> by (destruct r1; congruence).
  apply (loop_contained (xt_entry umask (abs o)) o (link_names (Some ∘ xt_segs) (ar_entries ar)) (ar_entries ar)) with (r := r1); [|by apply fresh_inside|done].
  intros e fault fa fb rb He Hin Hb. eapply xt_entry_ok; [done|..|exact Hin|exact Hb].
  - intros l Hl. by eapply none_below_elim.
  - intros Ht. by apply files_apart_elim.
  - intros Ht. by eapply link_named.
Qed.

(** ** Witness *)

Definition nested : archive := mkAr [(dir_entry "p/a/", None); (link_entry "p/a/l" "../b", None); (file_entry "p/b" "data", None)] None.

Lemma out_fresh : fresh_dir ["tmp"; "out"] victim.
Proof.
  split.
  - intros a b E. destruct a as [|x [|y [|z a]]]; cbn in E; simplify_eq; vm_compute; done.
  - intros n Hn. exfalso. assert (Hv : map_Forall (λ _ n, is_link (Some n) = false) victim) by (apply map_Forall_to_list; vm_compute; repeat constructor).
    destruct (victim !! (["tmp"; "out"] ++ n)) as [x|] eqn:E; [|done]. apply Hv in E. congruence.
Qed.

Lemma extract_contained_witness :
  (Extract 18 nested "/tmp/out" 1 victim).1 !! ["tmp"; "out"; "b"] = Some (NFile 420 "data") ∧
  (Extract 18 nested "/tmp/out" 1 victim).1 !! ["etc"; "passwd"] = Some (NFile 420 "good").
Proof.
  split; [vm_compute; reflexivity|].
  transitivity (victim !! ["etc"; "passwd"]); [|vm_compute; reflexivity].
  apply (extract_contained 18 nested ["tmp"; "out"] 1 victim _ (Extract 18 nested "/tmp/out" 1 victim).2).
  - repeat constructor; done.
  - exact out_fresh.
  - vm_compute. reflexivity.
  - exact (surjective_pairing (Extract 18 nested "/tmp/out" 1 victim)).
  - intros [k E]. done.
Defined.
