(* ===== verification/Client.v ===== *)
(** * The store client (src/amberclient/client.go, shard.go, dial.go, path.go, shardtarget.go)

    One operation is one stream on the control connection, sharded over pooled
    connections when that seems worth it, and tried once more unsharded when a
    sharded attempt fails. What the server sends, the clock, the transport's
    failures and what the pool of connections hands out are inputs; the world
    keeps the client's own variables, its local store, and a ledger of open
    streams and held reservations. *)
From S2P Require Import Prelude GoLib Keys Wire LogBuf Frames Sync AmberServer.
Local Open Scope string_scope.
Local Open Scope list_scope.

Definition DefaultConns : Z := 4.
Definition DefaultPoolMax : Z := 12.

Definition clampPoolMax (n conns : Z) : Z :=
  Z.min (if (n =? 0)%Z then DefaultPoolMax else if (n <? conns)%Z then conns else n) 17.

Definition clampConns (n : Z) : Z :=
  if (n =? 0)%Z then DefaultConns else if (n <? 1)%Z then 1%Z else if (16 <? n)%Z then 16%Z else n.

(** Durations in nanoseconds. *)
Definition second : Z := 1000000000.
Definition gateSettle : Z := 30 * second.
Definition defaultGateWait : Z := 10 * second.
Definition defaultGatePoll : Z := 250 * 1000000.

(** ** The path of a connection (src/amberclient/path.go) *)

Record PathInfo := mkPath { pi_Selected : bool; pi_Validated : bool; pi_Relayed : bool; pi_HasRTT : bool; pi_RTT : Z; pi_Addr : option string }.

Record Path := mkPathSum { pa_Relayed : bool; pa_Addr : string; pa_RTT : Z }.

Definition preferred (a b : PathInfo) : bool :=
  if negb (Bool.eqb (pi_Selected a) (pi_Selected b)) then pi_Selected a
  else if negb (Bool.eqb (pi_Validated a) (pi_Validated b)) then pi_Validated a
  else if negb (Bool.eqb (pi_Relayed a) (pi_Relayed b)) then pi_Relayed b
  else if negb (Bool.eqb (pi_HasRTT a) (pi_HasRTT b)) then pi_HasRTT a
  else pi_HasRTT a && (pi_RTT a <? pi_RTT b)%Z.

(** The loop over the snapshot, with the best path so far. *)
Fixpoint best_path (best : option PathInfo) (paths : list PathInfo) : option PathInfo :=
  match paths with
  | [] => best
  | p :: paths => best_path (match best with None => Some p | Some b => if preferred p b then Some p else Some b end) paths
  end.

Definition pathOf (paths : list PathInfo) : option Path :=
  match best_path None paths with
  | None => None
  | Some p => Some (mkPathSum (pi_Relayed p) (default "" (pi_Addr p)) (if pi_HasRTT p then pi_RTT p else 0%Z))
  end.

(** ** Racing dials (src/amberclient/dial.go) *)

(** [arrivals] are the outcomes of the dials in the order they come in: the
    winner or the errors, and the connections closed because they came late. *)
Fixpoint raceConnect {C} (arrivals : list (result string C)) (errs : list string) : result (list string) C * list C :=
  match arrivals with
  | [] => (Err errs, [])
  | Err e :: rest => raceConnect rest (errs ++ [e])
  | Ok c :: rest => (Ok c, omap (λ r, match r with Ok l => Some l | Err _ => None end) rest)
  end.

(** ** Where a shard is dialled (src/amberclient/shardtarget.go) *)

Inductive TransportAddr := IPAddr (ap : string) | RelayAddr (url : string).

Definition is_relay (a : TransportAddr) : bool := match a with RelayAddr _ => true | IPAddr _ => false end.

#[export] Instance TransportAddr_eq_dec : EqDecision TransportAddr.
Proof. solve_decision. Defined.

(** netaddr and key: parsing, and the printed form addresses are compared by. *)
Class NetAddr := {
  ParseTransportAddr : string → option TransportAddr;
  EndpointIDFromSlice : string → option string;
  addr_String : TransportAddr → string;
}.

Section Target.
Context `{NA : NetAddr}.

Definition add_cand (acc : list TransportAddr) (a : TransportAddr) : list TransportAddr :=
  if existsb (λ c, String.eqb (addr_String c) (addr_String a)) acc then acc else acc ++ [a].

Definition add_addr (bare : bool) (acc : list TransportAddr) (s : string) : list TransportAddr :=
  match ParseTransportAddr s with
  | None => acc
  | Some a => if is_relay a && bare then acc else add_cand acc a
  end.

(** [Ok None]: there are no records. [ctrl] prints the address the control
    connection reached with a port. *)
Definition shardTarget (i : nat) (ctrl : option (Z → string)) (ports : list Z) (eps : list DataEndpointRec) (bare : bool) :
    result string (option (string * list TransportAddr)) :=
  match eps !! (i `mod` length eps)%nat with
  | None => Ok None
  | Some rec =>
      match EndpointIDFromSlice (ep_ID rec) with
      | None => Err "bad id"
      | Some id =>
          let dedicated := match ctrl, ports !! (i `mod` length ports)%nat with Some at_port, Some p => add_cand [] (IPAddr (at_port p)) | _, _ => [] end in
          match foldl (add_addr bare) dedicated (ep_Addrs rec) with
          | [] => Err "no dialable candidates"
          | cands => Ok (Some (id, cands))
          end
      end
  end.
End Target.

(** ** The client *)

Record Client := mkClient {
  c_conns : Z; c_punchDials : bool; c_dialedAt : Z; c_gateWait : Z; c_gatePoll : Z;
  c_gateLogged : bool; c_demoted : bool; c_dataEps : option (list Z * list DataEndpointRec) }.

Definition set_gateLogged c := mkClient (c_conns c) (c_punchDials c) (c_dialedAt c) (c_gateWait c) (c_gatePoll c) true (c_demoted c) (c_dataEps c).
Definition demote c := mkClient (c_conns c) (c_punchDials c) (c_dialedAt c) (c_gateWait c) (c_gatePoll c) (c_gateLogged c) true (c_dataEps c).
Definition set_dataEps de c := mkClient (c_conns c) (c_punchDials c) (c_dialedAt c) (c_gateWait c) (c_gatePoll c) (c_gateLogged c) (c_demoted c) de.

(** What [Dial] sets up once the control connection stands. *)
Definition dialed (conns : Z) (addrs : list string) (now : Z) : Client := mkClient (clampConns conns) (bool_decide (addrs = [])) now 0 0 false false None.

Definition cacheDataEndpoints (ports : list Z) (eps : list DataEndpointRec) (c : Client) : Client :=
  match ports, eps with [], [] => c | _, _ => set_dataEps (Some (ports, eps)) c end.

(** Readings of the gate: the age check, the start of the wait, and then a path
    and the clock before each turn. A path is relayed or not, or unknown. *)
Record gate_env := mkGate { ge_age : Z; ge_start : Z; ge_path : nat → option bool; ge_now : nat → Z }.

Definition relayed (p : option bool) : bool := match p with Some true => true | _ => false end.

(** The wait for the punch, from turn [i] on; [None] when it does not end
    within [fuel] turns. *)
Fixpoint gate_loop (fuel : nat) (g : gate_env) (deadline : Z) (i : nat) : option nat :=
  if relayed (ge_path g i) && (ge_now g i <? deadline)%Z then
    match fuel with O => None | S fuel => gate_loop fuel g deadline (S i) end
  else Some i.

Definition transferConns (fuel : nat) (g : gate_env) (c : Client) : option (Client * Z) :=
  if c_demoted c then Some (c, 1%Z)
  else if (1 <? c_conns c)%Z then
    let settled :=
      if relayed (ge_path g 0) && (ge_age g - c_dialedAt c <? gateSettle)%Z then
        gate_loop fuel g (ge_start g + (if (c_gateWait c =? 0)%Z then defaultGateWait else c_gateWait c)) 0
      else Some O in
    match settled with
    | None => None
    | Some i => Some (if relayed (ge_path g i) then (set_gateLogged c, 1%Z) else (c, c_conns c))
    end
  else Some (c, c_conns c).

Section Client.
Context `{PS : PackStore} {RC : RefCodec}.

(** The local store: the objects and the references. *)
Record local := mkLocal { lo_objs : PObjs; lo_refs : gmap string Key; lo_werr : string → bool; lo_hasErr : option string }.

(** A pooled connection: its number, and whether it was dialled for this
    acquisition. *)
Record entry := mkEntry { en_id : nat; en_fresh : bool }.

Record world := mkWorld {
  w_cl : Client; w_lo : local; w_held : gset nat; w_open : gset nat; w_next : nat; w_sent : list Msg; w_gone : list nat }.

Definition on_cl f w := mkWorld (f (w_cl w)) (w_lo w) (w_held w) (w_open w) (w_next w) (w_sent w) (w_gone w).
Definition set_objs o w := mkWorld (w_cl w) (mkLocal o (lo_refs (w_lo w)) (lo_werr (w_lo w)) (lo_hasErr (w_lo w))) (w_held w) (w_open w) (w_next w) (w_sent w) (w_gone w).
Definition set_refs m w := mkWorld (w_cl w) (mkLocal (lo_objs (w_lo w)) m (lo_werr (w_lo w)) (lo_hasErr (w_lo w))) (w_held w) (w_open w) (w_next w) (w_sent w) (w_gone w).
Definition send m w := mkWorld (w_cl w) (w_lo w) (w_held w) (w_open w) (w_next w) (w_sent w ++ [m]) (w_gone w).
Definition discard ids w := mkWorld (w_cl w) (w_lo w) (w_held w) (w_open w) (w_next w) (w_sent w) (w_gone w ++ ids).

(** The ledger: reservations and streams are numbered alike. *)
Definition acquire w := (mkWorld (w_cl w) (w_lo w) ({[w_next w]} ∪ w_held w) (w_open w) (S (w_next w)) (w_sent w) (w_gone w), w_next w).
Definition open_stream w := (mkWorld (w_cl w) (w_lo w) (w_held w) ({[w_next w]} ∪ w_open w) (S (w_next w)) (w_sent w) (w_gone w), w_next w).
(** [release] is guarded by a [sync.Once]. *)
Definition release r w := mkWorld (w_cl w) (w_lo w) (w_held w ∖ {[r]}) (w_open w) (w_next w) (w_sent w) (w_gone w).
Definition CloseStream s w := mkWorld (w_cl w) (w_lo w) (w_held w) (w_open w ∖ {[s]}) (w_next w) (w_sent w) (w_gone w).

Record reservation := mkRsv { rs_entries : list entry; rs_id : nat }.

Inductive client_err := CE_RefNotFound | CE_Remote (e : RemoteError) | CE_Recv (e : recv_err) | CE (e : string).

(** ** Planning *)

Record plan_env := mkPlan { pe_fuel : nat; pe_gate : gate_env; pe_entries : list entry; pe_parked : nat; pe_cancelled : bool }.

Definition planTransfer (env : plan_env) (w : world) : option (world * Z * option reservation) :=
  match transferConns (pe_fuel env) (pe_gate env) (w_cl w) with
  | None => None
  | Some (cl, conns) =>
      let w := on_cl (λ _, cl) w in
      Some (if (conns <=? 1)%Z then (w, 1%Z, None)
      else match c_dataEps cl with
      | None => (w, conns, None)
      | Some _ =>
          let '(w, r) := acquire w in
          match pe_entries env with
          | [] =>
              let w := release r w in
              if bool_decide (0 < pe_parked env)%nat then (w, 1%Z, None)
              else (if pe_cancelled env then w else on_cl demote w, 1%Z, None)
          | es => (w, (Z.of_nat (length es) + 1)%Z, Some (mkRsv es r))
          end
      end)
  end.

Definition retrySingle (cancelled : bool) (e : client_err) (w : world) : world * bool :=
  match e with
  | CE_RefNotFound => (w, false)
  | _ => if cancelled then (w, false) else (on_cl demote w, true)
  end.

(** ** Attaching shards *)

(** Opening a stream and announcing the token on it. *)
Inductive attach_result := AttNoStream | AttNoFrame | Attached.

Fixpoint attach_all (att : nat → attach_result) (i : nat) (entries : list entry) (w : world) : world * list (entry * option nat) :=
  match entries with
  | [] => (w, [])
  | e :: entries =>
      let '(w, slot) := match att i with
        | AttNoStream => (w, None)
        | AttNoFrame => let '(w, s) := open_stream w in (CloseStream s w, None)
        | Attached => let '(w, s) := open_stream w in (w, Some s)
        end in
      let '(w, slots) := attach_all att (S i) entries w in
      (w, (e, slot) :: slots)
  end.

Definition attachTo (att : nat → attach_result) (cancelled : bool) (entries : list entry) (w : world) : world * list nat :=
  let '(w, slots) := attach_all att 0 entries w in
  let failed := omap (λ x : entry * option nat, match x.2 with None => Some (en_id x.1) | Some _ => None end) slots in
  let streams := omap snd slots in
  let w := discard failed w in
  let anyReused := existsb (λ e, negb (en_fresh e)) entries in
  (if bool_decide (entries ≠ []) && bool_decide (streams = []) && negb cancelled && negb anyReused then on_cl demote w else w, streams).

(** The streams, and the acquisition to give back when they are closed. *)
Definition attachExtras (att : nat → attach_result) (cancelled : bool) (got : list entry) (n : Z) (w : world) : world * list nat * option nat :=
  if (n <=? 0)%Z then (w, [], None)
  else let '(w, r) := acquire w in
       let '(w, streams) := attachTo att cancelled got w in (w, streams, Some r).

Definition attachReserved (att : nat → attach_result) (cancelled : bool) (rsv : reservation) (w : world) : world * list nat := attachTo att cancelled (rs_entries rsv) w.

Definition close_all (ss : list nat) (w : world) : world := foldr CloseStream w ss.

Definition release_opt (r : option nat) (w : world) : world := match r with Some r => release r w | None => w end.

(** The closer both kinds of attachment return. *)
Definition closeExtras (ss : list nat) (r : option nat) (w : world) : world := release_opt r (close_all ss w).

(** ** One attempt *)

(** The outside of an attempt: whether the stream opens, whether the request and
    the replayed frame can be written, what comes in on the control stream and
    on each shard (a frame or a failure, and the failure of writing the answer),
    what the pool hands out, how attaching goes, whether the context ended
    meanwhile, and the rounds of a pull. *)
Record attempt := mkAttempt {
  at_open : option string; at_write : option string; at_replay : option string;
  at_ctrl : list (result string Msg * option string); at_chan : nat → list (result string Msg * option string);
  at_got : list entry; at_attach : nat → attach_result; at_cancelled : bool;
  at_fuel : nat; at_peer : nat → list (list Key) → round_env }.

Definition RemoteFromMsg (m : Msg) : RemoteError := mkRemote (m_Code m) (m_Text m) (m_Current m).

Definition ReadMsg (ins : list (result string Msg * option string)) : list (result string Msg * option string) * result client_err Msg :=
  match ins with
  | [] => ([], Err (CE "EOF"))
  | (Ok m, _) :: r => (r, Ok m)
  | (Err e, _) :: r => (r, Err (CE e))
  end.

(** [Send] on the frames of one channel. *)
Fixpoint Send (st : PObjs) (ins : list (result string Msg * option string)) : list (result string Msg * option string) * result client_err unit :=
  match ins with
  | [] => ([], Err (CE "EOF"))
  | (Err e, _) :: r => (r, Err (CE e))
  | (Ok m, werr) :: r =>
      match Send_round st m with
      | SendDone => (r, Ok tt)
      | SendReject e => (r, Err (if (m_Type m =? TErr)%Z then CE_Remote (RemoteFromMsg m) else CE e))
      | SendPack _ (Some e) => (r, Err (CE e))
      | SendPack _ None => match werr with Some e => (r, Err (CE e)) | None => Send st r end
      end
  end.

(** The shards of a sharded transfer, by reservation or from the pool. *)
Definition attach_shards (env : attempt) (conns : Z) (rsv : option reservation) (w : world) : world * list nat * option nat :=
  match rsv with
  | Some rsv => let '(w, ss) := attachReserved (at_attach env) (at_cancelled env) rsv w in (w, ss, None)
  | None => attachExtras (at_attach env) (at_cancelled env) (at_got env) (conns - 1) w
  end.

Definition release_rsv (rsv : option reservation) (w : world) : world := match rsv with Some r => release (rs_id r) w | None => w end.

Definition runSenders (env : attempt) (conns : Z) (rsv : option reservation) (w : world) :
    world * (list (result string Msg * option string) * result client_err unit) :=
  let st := lo_objs (w_lo w) in
  if (conns <=? 1)%Z then (w, Send st (at_ctrl env))
  else match ReadMsg (at_ctrl env) with
  | (rest, Err e) => (w, (rest, Err e))
  | (rest, Ok first) =>
      if (m_Type first =? TErr)%Z then (w, (rest, Err (CE_Remote (RemoteFromMsg first))))
      else if (m_Type first =? TWants)%Z then
        match at_replay env with
        | Some e => (w, (rest, Err (CE e)))
        | None => (release_rsv rsv w, Send st (at_ctrl env))
        end
      else if negb (m_Type first =? TAccept)%Z then (w, (rest, Err (CE "protocol: want TAccept or TWants")))
      else
        let w := on_cl (cacheDataEndpoints (m_DataPorts first) (m_DataEndpoints first)) w in
        let '(w, extras, r) := attach_shards env conns rsv w in
        (* the control channel decides; a shard that fails only cost parallelism *)
        let out := Send st rest in
        (closeExtras extras r w, out)
  end.

Definition request (t : Z) (name root : string) (conns : Z) : Msg :=
  mkMsg t name root false "" "" [] [] [] "" "" "" "" "" (if (1 <? conns)%Z then conns - 1 else 0)%Z [] [] [].

(** A stream for an operation, closed when it returns. *)
Definition with_stream {A} (failed : option string) (body : world → world * A) (err : string → A) (w : world) : world * A :=
  match failed with
  | Some e => (w, err e)
  | None => let '(w, s) := open_stream w in let '(w, a) := body w in (CloseStream s w, a)
  end.

Definition want_ok (m : Msg) : result client_err unit :=
  if (m_Type m =? TOK)%Z then Ok tt
  else if (m_Type m =? TErr)%Z then Err (CE_Remote (RemoteFromMsg m))
  else Err (CE "protocol: want TOK").

(** The request, the transfer and the server's verdict. *)
Definition push_body (env : attempt) (name : string) (root : Key) (conns : Z) (rsv : option reservation) (w : world) : world * result client_err unit :=
  match at_write env with
  | Some e => (w, Err (CE e))
  | None =>
      let w := send (request TPush name (key_bytes root) conns) w in
      match runSenders env conns rsv w with
      | (w, (_, Err e)) => (w, Err e)
      | (w, (rest, Ok _)) => (w, match ReadMsg rest with (_, Err e) => Err e | (_, Ok m) => want_ok m end)
      end
  end.

Definition pushOnce (env : attempt) (name : string) (root : Key) (conns : Z) (rsv : option reservation) (w : world) : world * result client_err unit :=
  let '(w, r) := with_stream (at_open env) (push_body env name root conns rsv) (λ e, Err (CE e)) w in
  (release_rsv rsv w, r).

Definition local_PutRef (name : string) (k : Key) (w : world) : world * result client_err unit :=
  if negb (ref_ValidateName name) || lo_werr (w_lo w) name then (w, Err (CE "writing local ref failed"))
  else (set_refs (<[name := k]> (lo_refs (w_lo w))) w, Ok tt).

(** The root a reply to a pull names. *)
Definition ref_root (m : Msg) : result client_err Key :=
  if (m_Type m =? TErr)%Z then Err (if String.eqb (m_Code m) CodeUnknownRef then CE_RefNotFound else CE_Remote (RemoteFromMsg m))
  else if negb (m_Type m =? TRef)%Z then Err (CE "protocol: want TRef")
  else match ref_Decode (m_Record m) with
  | Err e => Err (CE e)
  | Ok rec => match key_parse (rf_Key rec) with None => Err (CE "server ref record key") | Some root => Ok root end
  end.

(** The transfer over the control stream and [extras] shards, then the
    reference; [None] when the rounds do not end within [at_fuel]. *)
Definition pull_transfer (env : attempt) (name : string) (root : Key) (extras : nat) (w : world) : world * option (result client_err Key) :=
  match Receive (at_fuel env) (at_peer env) (S extras) (lo_objs (w_lo w)) root with
  | None => (w, None)
  | Some (st, _, Err e) => (set_objs st w, Some (Err (CE_Recv e)))
  | Some (st, _, Ok _) =>
      let '(w, r) := local_PutRef name root (set_objs st w) in
      (w, Some (match r with Err e => Err e | Ok _ => Ok root end))
  end.

(** The request, the reply, the shards and the transfer. *)
Definition pull_body (env : attempt) (name : string) (conns : Z) (rsv : option reservation) (w : world) : world * option (result client_err Key) :=
  match at_write env with
  | Some e => (w, Some (Err (CE e)))
  | None =>
      let w := send (request TPull name "" conns) w in
      match ReadMsg (at_ctrl env) with
      | (_, Err e) => (w, Some (Err e))
      | (_, Ok m) =>
          match ref_root m with
          | Err e => (w, Some (Err e))
          | Ok root =>
              let w := if String.eqb (m_Token m) "" then w else on_cl (cacheDataEndpoints (m_DataPorts m) (m_DataEndpoints m)) w in
              if negb (String.eqb (m_Token m) "") && (1 <? conns)%Z then
                let '(w, extras, a) := attach_shards env conns rsv w in
                let '(w, r) := pull_transfer env name root (length extras) w in
                (closeExtras extras a w, r)
              else pull_transfer env name root 0 (release_rsv rsv w)
          end
      end
  end.

Definition pullOnce (env : attempt) (name : string) (conns : Z) (rsv : option reservation) (w : world) : world * option (result client_err Key) :=
  let '(w, r) := with_stream (at_open env) (pull_body env name conns rsv) (λ e, Some (Err (CE e))) w in
  (release_rsv rsv w, r).

(** ** The operations *)

(** The outside of a push or a pull: planning, a first attempt, whether the
    context had ended after it, and a second attempt. *)
Record op_env := mkOp { op_plan : plan_env; op_first : attempt; op_cancelled : bool; op_second : attempt }.

Definition PushWithProgress (env : op_env) (name : string) (root : Key) (w : world) : option (world * result client_err unit) :=
  if negb (ref_ValidateName name) then Some (w, Err (CE "invalid name"))
  else match po_Has (lo_objs (w_lo w)) root with
  | Err e => Some (w, Err (CE e))
  | Ok false => Some (w, Err (CE "root not in local store"))
  | Ok true =>
      match planTransfer (op_plan env) w with
      | None => None
      | Some (w, conns, rsv) =>
          let '(w, r) := pushOnce (op_first env) name root conns rsv w in
          match r with
          | Ok _ => Some (w, Ok tt)
          | Err e =>
              if (1 <? conns)%Z then
                let '(w, again) := retrySingle (op_cancelled env) e w in
                Some (if again then pushOnce (op_second env) name root 1 None w else (w, Err e))
              else Some (w, Err e)
          end
      end
  end.

Definition PullWithProgress (env : op_env) (name : string) (w : world) : option (world * result client_err Key) :=
  if negb (ref_ValidateName name) then Some (w, Err (CE "invalid name"))
  else match planTransfer (op_plan env) w with
  | None => None
  | Some (w, conns, rsv) =>
      match pullOnce (op_first env) name conns rsv w with
      | (_, None) => None
      | (w, Some (Ok root)) => Some (w, Ok root)
      | (w, Some (Err e)) =>
          if (1 <? conns)%Z then
            let '(w, again) := retrySingle (op_cancelled env) e w in
            if again then match pullOnce (op_second env) name 1 None w with (w, Some r) => Some (w, r) | (_, None) => None end
            else Some (w, Err e)
          else Some (w, Err e)
      end
  end.

(** One request and one reply. *)
Definition ask {A} (env : attempt) (m : Msg) (reply : Msg → result client_err A) (w : world) : world * result client_err A :=
  with_stream (at_open env) (λ w,
    match at_write env with
    | Some e => (w, Err (CE e))
    | None => (send m w, match ReadMsg (at_ctrl env) with (_, Err e) => Err e | (_, Ok m) => reply m end)
    end) (λ e, Err (CE e)) w.

Record ListedRef := mkListed { lr_Name : string; lr_Key : Key; lr_CreatedAt : Z; lr_User : string }.

Fixpoint listed (rs : list RefInfo) : result client_err (list ListedRef) :=
  match rs with
  | [] => Ok []
  | r :: rs =>
      match key_parse (ri_Key r) with
      | None => Err (CE ("ref " +:+ ri_Name r +:+ ": key"))
      | Some k => match listed rs with Ok l => Ok (mkListed (ri_Name r) k (ri_CreatedAt r) (ri_User r) :: l) | Err e => Err e end
      end
  end.

Definition Refs (env : attempt) : world → world * result client_err (list ListedRef) :=
  ask env (msg TRefList) (λ m,
    if (m_Type m =? TErr)%Z then Err (CE_Remote (RemoteFromMsg m))
    else if negb (m_Type m =? TRefs)%Z then Err (CE "protocol: want TRefs")
    else listed (m_Refs m)).

Definition Pin (env : attempt) (names : list string) : world → world * result client_err unit :=
  ask env (mkMsg TPin "" "" false "" "" [] [] [] "" "" "" "" "" 0 [] [] names) want_ok.
End Client.
