(* ===== verification/ClientFacts.v ===== *)
(** * What a client's operation leaves behind

    Streams and reservations are given back on every path; a pull that succeeds
    has the whole tree and the reference, in that order; a push that succeeds was
    committed by the server; a failed sharded attempt is followed by at most one,
    unsharded. *)
From S2P Require Import Prelude GoLib Keys Wire LogBuf Frames Sync SyncFacts AmberServer AmberServerFacts Client.
Local Open Scope string_scope.
Local Open Scope list_scope.

(** ** Choosing a path *)

Lemma preferred_irrefl p : preferred p p = false.
Proof. unfold preferred. rewrite !Bool.eqb_reflx. cbn. destruct (pi_HasRTT p); cbn; [lia|done]. Qed.

(** "Not preferred to" is transitive. *)
Lemma preferred_cotrans a b c : preferred a b = false → preferred b c = false → preferred a c = false.
Proof.
  unfold preferred. destruct a as [[] [] [] [] ra ?], b as [[] [] [] [] rb ?], c as [[] [] [] [] rc ?]; cbn; intros; try done; lia.
Qed.

Lemma best_path_spec paths : ∀ best r, best_path best paths = Some r →
  (best = Some r ∨ r ∈ paths) ∧ (∀ p, p ∈ paths ∨ best = Some p → preferred p r = false).
Proof.
  induction paths as [|p paths IH]; intros best r; cbn [best_path].
  - intros ->. split; [by left|]. intros p [Hp|[= ->]]; [by apply elem_of_nil in Hp|apply preferred_irrefl].
  - intros H. destruct best as [b|].
    + destruct (preferred p b) eqn:E; apply IH in H as [Hin Hbest]; (split; [destruct Hin as [[= ->]|]; auto using list_elem_of_here, list_elem_of_further|]).
      * intros q [Hq|[= <-]]; [apply elem_of_cons in Hq as [->|]; auto|]. apply (preferred_cotrans _ p); [|by apply Hbest; right].
        unfold preferred in *. destruct p as [[] [] [] [] ? ?], b as [[] [] [] [] ? ?]; cbn in *; try done; lia.
      * intros q [Hq|[= <-]]; [apply elem_of_cons in Hq as [->|]; auto|by apply Hbest; right]. eapply preferred_cotrans; [exact E|by apply Hbest; right].
    + apply IH in H as [Hin Hbest]. split; [destruct Hin as [[= ->]|]; right; auto using list_elem_of_here, list_elem_of_further|].
      intros q [Hq|Hq]; [|done]. apply elem_of_cons in Hq as [->|]; auto.
Qed.

(** The reported path is one of the snapshot, and none is preferred to it. *)
Theorem pathOf_best paths r : best_path None paths = Some r → r ∈ paths ∧ ∀ p, p ∈ paths → preferred p r = false.
Proof. intros H. apply best_path_spec in H as [[|H] Hb]; [done|]. split; [done|]. auto. Qed.

(** ** Racing *)

Definition conns_of {C} (l : list (result string C)) : list C := omap (λ r, match r with Ok c => Some c | Err _ => None end) l.

(** Every connection that comes up is kept or closed, exactly one is kept when
    any came up, and the errors are reported only when none did. *)
Theorem race_keeps_one {C} (arrivals : list (result string C)) errs :
  match raceConnect arrivals errs with
  | (Ok c, closed) => conns_of arrivals = c :: closed
  | (Err es, closed) => conns_of arrivals = [] ∧ closed = [] ∧ length es = (length errs + length arrivals)%nat
  end.
Proof.
  revert errs. induction arrivals as [|[c|e] rest IH]; intros errs; cbn; [split_and!; [done..|lia]|done|]. specialize (IH (errs ++ [e])).
  destruct (raceConnect rest (errs ++ [e])) as [[c|es] closed]; [done|]. destruct IH as (? & ? & ->). rewrite length_app. cbn. split_and!; [done..|lia].
Qed.

(** ** Shard targets *)

Section Targets.
Context `{NA : NetAddr}.

Definition cands_ok (bare : bool) (cs : list TransportAddr) : Prop := NoDup (addr_String <$> cs) ∧ (bare = true → Forall (λ a, is_relay a = false) cs).

Lemma add_cand_ok bare cs a : cands_ok bare cs → (bare = true → is_relay a = false) → cands_ok bare (add_cand cs a).
Proof.
  intros [Hd Hr] Ha. unfold add_cand. destruct (existsb _ cs) eqn:E; [done|]. split.
  - rewrite fmap_app. apply NoDup_app. split_and!; [done| |apply NoDup_singleton]. intros s Hs Hin%list_elem_of_singleton. subst s.
    apply list_elem_of_fmap in Hs as (c & Ec & Hc). apply Bool.not_true_iff_false in E. apply E. apply existsb_exists. exists c. split; [by apply list_elem_of_In|]. by apply String.eqb_eq.
  - intros Hb. apply Forall_app. split; [auto|]. repeat constructor; auto.
Qed.

Lemma add_addrs_ok bare l : ∀ cs, cands_ok bare cs → cands_ok bare (foldl (add_addr bare) cs l).
Proof.
  induction l as [|s l IH]; intros cs H; cbn; [done|]. apply IH. unfold add_addr. destruct (ParseTransportAddr s) as [a|]; [|done].
  destruct (is_relay a && bare) eqn:E; [done|]. apply add_cand_ok; [done|]. intros ->. by rewrite andb_true_r in E.
Qed.

(** The addresses a shard is dialled at: some, each once, and none through a
    relay from an endpoint that has none. *)
Theorem shardTarget_dialable i ctrl ports eps bare id cs :
  shardTarget i ctrl ports eps bare = Ok (Some (id, cs)) → cs ≠ [] ∧ cands_ok bare cs.
Proof.
  unfold shardTarget. destruct (eps !! _) as [rec|]; [|done]. destruct (EndpointIDFromSlice _) as [id'|]; [|done].
  set (ded := match ctrl with Some _ => _ | None => _ end). assert (Hd : cands_ok bare ded).
  { unfold ded. assert (Hn : cands_ok bare []) by (split; [apply NoDup_nil_2|done]). destruct ctrl; [|done]. destruct (ports !! _); [|done]. by apply add_cand_ok. }
  pose proof (add_addrs_ok bare (ep_Addrs rec) ded Hd) as Hok. destruct (foldl _ _ _) as [|a cs'] eqn:E; [done|]. by intros [= _ <-].
Qed.
End Targets.

(** ** The gate's wait ends *)

Lemma gate_loop_ends g poll deadline : (0 < poll)%Z → (∀ i, ge_now g i + poll <= ge_now g (S i))%Z →
  ∀ fuel i, (deadline - ge_now g i <= Z.of_nat fuel * poll)%Z → ∃ j, gate_loop fuel g deadline i = Some j.
Proof.
  intros Hp Hnow. induction fuel as [|fuel IH]; intros i Hi; cbn [gate_loop].
  - destruct (ge_now g i <? deadline)%Z eqn:E; [lia|]. rewrite andb_false_r. eauto.
  - destruct (_ && _); [|eauto]. apply IH. specialize (Hnow i). lia.
Qed.

(** With a clock that advances by at least the poll interval per turn, planning
    decides within as many turns as intervals fit into the wait. *)
Theorem transferConns_decides g c poll fuel :
  (0 < poll)%Z → (∀ i, ge_now g i + poll <= ge_now g (S i))%Z → (ge_start g <= ge_now g 0)%Z →
  (Z.max defaultGateWait (c_gateWait c) <= Z.of_nat fuel * poll)%Z → ∃ c' n, transferConns fuel g c = Some (c', n).
Proof.
  intros Hp Hn H0 Hf. unfold transferConns. destruct (c_demoted c); [eauto|]. destruct (1 <? c_conns c)%Z; [|eauto]. cbv zeta.
  destruct (relayed (ge_path g 0) && _); [|destruct (relayed _); eauto].
  destruct (gate_loop_ends g poll (ge_start g + (if (c_gateWait c =? 0)%Z then defaultGateWait else c_gateWait c)) Hp Hn fuel 0) as [j ->];
    [destruct (c_gateWait c =? 0)%Z; lia|]. destruct (relayed _); eauto.
Qed.

Section Facts.
Context `{PS : PackStore} {RC : RefCodec}.
Implicit Types w : world.
Abbreviation comp st := (complete (po_Get st) ChildKeys).

(** ** The ledger *)

(** Numbers in use are below the next one. *)
Definition numbered w : Prop := ∀ n, n ∈ w_held w ∪ w_open w → (n < w_next w)%nat.

(** Since [w0], at most the reservations [H] and the streams [O] were added. *)
Record ledger (w0 w : world) (H O : gset nat) : Prop := {
  ld_held0 : w_held w0 ⊆ w_held w; ld_held : w_held w ⊆ w_held w0 ∪ H;
  ld_open0 : w_open w0 ⊆ w_open w; ld_open : w_open w ⊆ w_open w0 ∪ O;
  ld_next : (w_next w0 <= w_next w)%nat; ld_new : ∀ n, n ∈ H ∪ O → (w_next w0 <= n)%nat }.

(** Parts of the world the ledger does not see. *)
Definition same_ledger w w' : Prop := w_held w' = w_held w ∧ w_open w' = w_open w ∧ w_next w' = w_next w.

Lemma ledger_refl w : ledger w w ∅ ∅.
Proof. split; try set_solver; lia. Qed.

Lemma ledger_same w0 w w' H O : same_ledger w w' → ledger w0 w H O → ledger w0 w' H O.
Proof. intros (Eh & Eo & En) [? ? ? ? ? ?]. split; rewrite ?Eh, ?Eo, ?En; done. Qed.

Lemma ledger_acquire w0 w H O : ledger w0 w H O → ledger w0 (acquire w).1 ({[(acquire w).2]} ∪ H) O.
Proof. intros [? ? ? ? ? Hn]. split; cbn; [set_solver..|lia|]. intros n Hi. assert (n = w_next w ∨ n ∈ H ∪ O) as [->|Hi'%Hn] by set_solver; lia. Qed.

Lemma ledger_open w0 w H O : ledger w0 w H O → ledger w0 (open_stream w).1 H ({[(open_stream w).2]} ∪ O).
Proof. intros [? ? ? ? ? Hn]. split; cbn; [set_solver..|lia|]. intros n Hi. assert (n = w_next w ∨ n ∈ H ∪ O) as [->|Hi'%Hn] by set_solver; lia. Qed.

Lemma not_used w0 n : numbered w0 → (w_next w0 <= n)%nat → n ∉ w_held w0 ∪ w_open w0.
Proof. intros Hw Hn Hi%Hw. lia. Qed.

Lemma ledger_release w0 w H O r : numbered w0 → (w_next w0 <= r)%nat → ledger w0 w H O → ledger w0 (release r w) (H ∖ {[r]}) O.
Proof. intros Hw Hr%not_used [? ? ? ? ? Hn]; [|done]. split; cbn; [set_solver..|done|]. intros n Hi. apply Hn. set_solver. Qed.

Lemma ledger_close w0 w H O s : numbered w0 → (w_next w0 <= s)%nat → ledger w0 w H O → ledger w0 (CloseStream s w) H (O ∖ {[s]}).
Proof. intros Hw Hr%not_used [? ? ? ? ? Hn]; [|done]. split; cbn; [set_solver..|done|]. intros n Hi. apply Hn. set_solver. Qed.

Lemma ledger_weaken w0 w H O H' O' : ledger w0 w H O → H ⊆ H' → O ⊆ O' → (∀ n, n ∈ H' ∪ O' → w_next w0 <= n)%nat → ledger w0 w H' O'.
Proof. intros [? ? ? ? ? ?] ? ? ?. split; try done; set_solver. Qed.

Lemma ledger_close_all w0 H O ss : ∀ w, numbered w0 → (∀ s, s ∈ ss → w_next w0 <= s)%nat → ledger w0 w H O → ledger w0 (close_all ss w) H (O ∖ list_to_set ss).
Proof.
  induction ss as [|s ss IH]; intros w Hw Hs Hl; cbn; [by rewrite difference_empty_L|]. replace (O ∖ ({[s]} ∪ list_to_set ss)) with (O ∖ list_to_set ss ∖ {[s]}) by set_solver.
  apply ledger_close; [done|apply Hs; left|]. apply IH; [done| |done]. intros x Hx. apply Hs. by right.
Qed.

(** ** Attaching *)

Lemma attach_all_ledger att w0 H es : ∀ i w O w' slots, numbered w0 → ledger w0 w H O → attach_all att i es w = (w', slots) →
  ledger w0 w' H (list_to_set (omap snd slots) ∪ O).
Proof.
  induction es as [|e es IH]; intros i w O w' slots Hw Hl; cbn [attach_all].
  - intros [= <- <-]. cbn. by rewrite union_empty_l_L.
  - pose proof (ledger_open _ _ _ _ Hl) as Ho. assert (Hge : (w_next w0 <= w_next w)%nat) by apply Hl. destruct (att i).
    + destruct (attach_all att (S i) es w) as [w1 sl] eqn:E. intros [= <- <-]. cbn. by eapply IH.
    + cbn [open_stream fst snd] in *. destruct (attach_all att (S i) es _) as [w1 sl] eqn:E. intros [= <- <-]. cbn. eapply IH; [done| |exact E].
      eapply ledger_weaken; [exact (ledger_close _ _ _ _ (w_next w) Hw Hge Ho)|done|set_solver|]. intros n Hn. apply (ld_new _ _ _ _ Hl). set_solver.
    + cbn [open_stream fst snd] in *. destruct (attach_all att (S i) es _) as [w1 sl] eqn:E. intros [= <- <-]. cbn.
      pose proof (IH _ _ _ _ _ Hw Ho E) as Hf. eapply ledger_weaken; [exact Hf|done|set_solver|]. intros n Hn. apply (ld_new _ _ _ _ Hf). set_solver.
Qed.

Lemma same_on_cl f w : same_ledger w (on_cl f w).
Proof. done. Qed.

Lemma attachTo_ledger att canc w0 H O es w w' ss : numbered w0 → ledger w0 w H O → attachTo att canc es w = (w', ss) → ledger w0 w' H (list_to_set ss ∪ O).
Proof.
  intros Hw Hl. unfold attachTo. destruct (attach_all att 0 es w) as [w1 slots] eqn:E. cbv zeta. intros [= <- <-].
  pose proof (attach_all_ledger _ _ _ _ _ _ _ _ _ Hw Hl E) as Hl1. destruct (_ && _); [eapply ledger_same; [|exact Hl1]; done|]. eapply ledger_same; [|exact Hl1]. done.
Qed.

(** The acquisition made for the shards, if any. *)
Definition opt_set (r : option nat) : gset nat := match r with Some r => {[r]} | None => ∅ end.

Lemma attach_shards_ledger env conns rsv w0 H O w w' ss r : numbered w0 → ledger w0 w H O → attach_shards env conns rsv w = (w', ss, r) →
  ledger w0 w' (opt_set r ∪ H) (list_to_set ss ∪ O).
Proof.
  intros Hw Hl. unfold attach_shards, attachReserved, attachExtras. destruct rsv as [rsv|].
  - destruct (attachTo _ _ _ w) as [w1 ss1] eqn:E. intros [= <- <- <-]. cbn. rewrite union_empty_l_L. by eapply attachTo_ledger.
  - destruct (_ <=? 0)%Z; [intros [= <- <- <-]; cbn; by rewrite !union_empty_l_L|]. pose proof (ledger_acquire _ _ _ _ Hl) as Ha. destruct (acquire w) as [w1 a]. cbn in Ha.
    destruct (attachTo _ _ _ w1) as [w2 ss2] eqn:E. intros [= <- <- <-]. cbn. by eapply attachTo_ledger.
Qed.

Lemma closeExtras_ledger w0 H O w ss r : numbered w0 → (∀ n, n ∈ ss → w_next w0 <= n)%nat → (∀ n, r = Some n → w_next w0 <= n)%nat → ledger w0 w H O →
  ledger w0 (closeExtras ss r w) (H ∖ opt_set r) (O ∖ list_to_set ss).
Proof.
  intros Hw Hs Hr Hl. unfold closeExtras. pose proof (ledger_close_all _ _ _ ss _ Hw Hs Hl) as Hc. destruct r as [r|]; cbn; [apply ledger_release; auto|].
  by rewrite difference_empty_L.
Qed.

(** ** Attempts *)

(** A part of an operation that gives back what it takes. *)
Definition keeps {A} (w0 : world) (f : world → world * A) : Prop := ∀ H O w w' a, ledger w0 w H O → f w = (w', a) → ledger w0 w' H O.

Lemma extras_kept env conns rsv w0 H O w w1 w2 ss r : numbered w0 → ledger w0 w H O → attach_shards env conns rsv w = (w1, ss, r) →
  ledger w0 w2 (opt_set r ∪ H) (list_to_set ss ∪ O) → ledger w0 (closeExtras ss r w2) H O.
Proof.
  intros Hw Hl E H2. pose proof (attach_shards_ledger _ _ _ _ _ _ _ _ _ _ Hw Hl E) as H1. eapply ledger_weaken.
  - apply closeExtras_ledger; [done|..|exact H2].
    + intros n Hn. apply (ld_new _ _ _ _ H1). set_solver.
    + intros n ->. apply (ld_new _ _ _ _ H1). cbn. set_solver.
  - set_solver.
  - set_solver.
  - apply Hl.
Qed.

Definition rsv_set (rsv : option reservation) : gset nat := match rsv with Some r => {[rs_id r]} | None => ∅ end.

(** A reservation made since [w0]. *)
Definition rsv_new (w0 : world) (rsv : option reservation) : Prop := ∀ n, n ∈ rsv_set rsv → (w_next w0 <= n)%nat.

Lemma release_rsv_ledger w0 w H O rsv : numbered w0 → rsv_new w0 rsv → ledger w0 w H O → ledger w0 (release_rsv rsv w) (H ∖ rsv_set rsv) O.
Proof.
  intros Hw Hr Hl. destruct rsv as [r|]; cbn in *; [|by rewrite difference_empty_L]. apply ledger_release; [done| |done]. apply Hr. cbn. set_solver.
Qed.

Lemma release_rsv_keeps w0 w H O rsv : numbered w0 → rsv_new w0 rsv → ledger w0 w H O → ledger w0 (release_rsv rsv w) H O.
Proof. intros Hw Hr Hl. eapply ledger_weaken; [by apply release_rsv_ledger|set_solver|done|apply Hl]. Qed.

Lemma runSenders_keeps env conns rsv w0 : numbered w0 → rsv_new w0 rsv → keeps w0 (runSenders env conns rsv).
Proof.
  intros Hw Hr H O w w' a Hl. unfold runSenders. cbv zeta. destruct (conns <=? 1)%Z; [by intros [= <- _]|].
  destruct (ReadMsg (at_ctrl env)) as [rest [first|e]]; [|by intros [= <- _]]. destruct (m_Type first =? TErr)%Z; [by intros [= <- _]|].
  destruct (m_Type first =? TWants)%Z.
  { destruct (at_replay env); [by intros [= <- _]|]. intros [= <- _]. by apply release_rsv_keeps. }
  destruct (negb _); [by intros [= <- _]|]. destruct (attach_shards _ _ _ _) as [[w1 ss] r] eqn:E. intros [= <- _].
  assert (Hl' : ledger w0 (on_cl (cacheDataEndpoints (m_DataPorts first) (m_DataEndpoints first)) w) H O) by (by eapply ledger_same; [|exact Hl]).
  eapply extras_kept; [done|exact Hl'|exact E|]. by eapply attach_shards_ledger.
Qed.

Lemma with_stream_keeps {A} failed (body : world → world * A) err w0 : numbered w0 → keeps w0 body → keeps w0 (with_stream failed body err).
Proof.
  intros Hw Hb H O w w' a Hl. unfold with_stream. destruct failed; [by intros [= <- _]|]. pose proof (ledger_open _ _ _ _ Hl) as Ho.
  assert (Hge : (w_next w0 <= w_next w)%nat) by apply Hl. cbn [open_stream fst snd] in *.
  destruct (body _) as [w2 a2] eqn:E. intros [= <- _]. pose proof (Hb _ _ _ _ _ Ho E) as E'.
  eapply ledger_weaken; [exact (ledger_close _ _ _ _ _ Hw Hge E')|done|set_solver|apply Hl].
Qed.

Lemma pushOnce_ledger env name root conns rsv w0 H O w w' r : numbered w0 → rsv_new w0 rsv → ledger w0 w H O →
  pushOnce env name root conns rsv w = (w', r) → ledger w0 w' (H ∖ rsv_set rsv) O.
Proof.
  intros Hw Hr Hl. unfold pushOnce. destruct (with_stream _ _ _ w) as [w1 r1] eqn:E. intros [= <- _]. apply release_rsv_ledger; [done..|].
  eapply (with_stream_keeps _ _ _ w0 Hw); [|exact Hl|exact E]. clear -Hw Hr. intros H O w w' a Hl. unfold push_body. destruct (at_write env); [by intros [= <- _]|].
  destruct (runSenders _ _ _ _) as [w2 [rest r2]] eqn:E. assert (Hl' : ledger w0 (send (request TPush name (key_bytes root) conns) w) H O) by (by eapply ledger_same; [|exact Hl]).
  pose proof (runSenders_keeps _ _ _ _ Hw Hr _ _ _ _ _ Hl' E). destruct r2; by intros [= <- _].
Qed.

Lemma pull_transfer_keeps env name root n w0 : keeps w0 (pull_transfer env name root n).
Proof.
  intros H O w w' a Hl. unfold pull_transfer, local_PutRef. destruct (Receive _ _ _ _ _) as [[[st x] [?|e]]|]; [|intros [= <- _]; by eapply ledger_same; [|exact Hl]|by intros [= <- _]].
  destruct (_ || _); intros [= <- _]; by eapply ledger_same; [|exact Hl].
Qed.

Lemma pullOnce_ledger env name conns rsv w0 H O w w' r : numbered w0 → rsv_new w0 rsv → ledger w0 w H O →
  pullOnce env name conns rsv w = (w', r) → ledger w0 w' (H ∖ rsv_set rsv) O.
Proof.
  intros Hw Hr Hl. unfold pullOnce. destruct (with_stream _ _ _ w) as [w1 r1] eqn:E. intros [= <- _]. apply release_rsv_ledger; [done..|].
  eapply (with_stream_keeps _ _ _ w0 Hw); [|exact Hl|exact E]. clear -Hw Hr. intros H O w w' a Hl. unfold pull_body. destruct (at_write env); [by intros [= <- _]|].
  destruct (ReadMsg _) as [rest [m|e]]; [|intros [= <- _]; by eapply ledger_same; [|exact Hl]]. destruct (ref_root m) as [root|e]; [|intros [= <- _]; by eapply ledger_same; [|exact Hl]].
  cbv zeta. set (w1 := if String.eqb (m_Token m) "" then _ else _). assert (Hl1 : ledger w0 w1 H O) by (unfold w1; destruct (String.eqb _ _); by eapply ledger_same; [|exact Hl]).
  destruct (_ && _).
  - destruct (attach_shards _ _ _ _) as [[w2 ss] q] eqn:E. destruct (pull_transfer _ _ _ _ w2) as [w3 a3] eqn:E3. intros [= <- _].
    eapply extras_kept; [done|exact Hl1|exact E|]. eapply pull_transfer_keeps; [|exact E3]. by eapply attach_shards_ledger.
  - apply pull_transfer_keeps. by apply release_rsv_keeps.
Qed.

Lemma planTransfer_ledger env w w' conns rsv : numbered w → planTransfer env w = Some (w', conns, rsv) → rsv_new w rsv ∧ ledger w w' (rsv_set rsv) ∅.
Proof.
  intros Hw. unfold planTransfer. destruct (transferConns _ _ _) as [[cl n]|]; [|done]. cbv zeta.
  assert (H0 : ledger w (on_cl (λ _, cl) w) ∅ ∅) by (by eapply ledger_same; [|apply ledger_refl]). assert (Hn : rsv_new w None) by (intros x Hx; by apply elem_of_empty in Hx).
  destruct (n <=? 1)%Z; [by intros [= <- _ <-]|]. destruct (c_dataEps cl); [|by intros [= <- _ <-]].
  pose proof (ledger_acquire _ _ _ _ H0) as Ha. cbn [acquire fst snd] in *. destruct (pe_entries env) as [|e es].
  - assert (Hrel : ledger w (release (w_next w) (acquire (on_cl (λ _, cl) w)).1) ∅ ∅).
    { eapply ledger_weaken; [apply ledger_release; [done| |exact Ha]; cbn; lia|set_solver|done|set_solver]. }
    destruct (bool_decide _); [by intros [= <- _ <-]|]. destruct (pe_cancelled env); intros [= <- _ <-]; [done|]. split; [done|]. by eapply ledger_same; [|exact Hrel].
  - intros [= <- _ <-]. cbn in *. assert (Hx : rsv_new w (Some (mkRsv (e :: es) (w_next w)))) by (intros x Hx; cbn in Hx; assert (x = w_next w) as -> by set_solver; lia).
    split; [done|]. eapply ledger_weaken; [exact Ha|set_solver|done|]. intros x Hi. apply Hx. cbn. set_solver.
Qed.

(** [ledger] with nothing added is balance. *)
Definition balanced w w' : Prop := w_held w' = w_held w ∧ w_open w' = w_open w.

Lemma ledger_balanced w w' H O : ledger w w' H O → H ⊆ ∅ → O ⊆ ∅ → balanced w w'.
Proof. intros [? ? ? ? ? ?] ? ?. split; set_solver. Qed.

Lemma retry_same c e w w' b : retrySingle c e w = (w', b) → same_ledger w w'.
Proof. unfold retrySingle. destruct e, c; by intros [= <- _]. Qed.

(** [C11] An operation gives back what it takes: whatever the server, the
    transport, the pool and the clock do, whichever attempt fails and where, when
    a push or a pull returns every stream it opened, on the control connection and
    on shards, is closed, and its reservations of pooled connections are
    released. *)
Theorem client_balanced env name root w w' :
  numbered w →
  (∀ r, PushWithProgress env name root w = Some (w', r) → balanced w w') ∧
  (∀ r, PullWithProgress env name w = Some (w', r) → balanced w w').
Proof.
  intros Hw. assert (Hn : rsv_new w None) by (intros x Hx; by apply elem_of_empty in Hx). split; intros r.
  - unfold PushWithProgress. destruct (negb _); [by intros [= <- _]|]. destruct (po_Has _ _) as [[]|]; [|by intros [= <- _]..].
    destruct (planTransfer _ _) as [[[w1 conns] rsv]|] eqn:Ep; [|done]. destruct (planTransfer_ledger _ _ _ _ _ Hw Ep) as [Hr H1].
    destruct (pushOnce _ _ _ _ _ w1) as [w2 r2] eqn:E2. pose proof (pushOnce_ledger _ _ _ _ _ _ _ _ _ _ _ Hw Hr H1 E2) as H2.
    assert (B2 : ledger w w2 ∅ ∅) by (eapply ledger_weaken; [exact H2|set_solver..]). destruct r2; [intros [= <- _]; by eapply ledger_balanced|].
    destruct (1 <? conns)%Z; [|intros [= <- _]; by eapply ledger_balanced]. destruct (retrySingle _ _ _) as [w3 []] eqn:E3; apply retry_same in E3;
      pose proof (ledger_same _ _ _ _ _ E3 B2) as H3; [|intros [= <- _]; by eapply ledger_balanced].
    intros [= E4]. pose proof (pushOnce_ledger _ _ _ _ _ _ _ _ _ _ _ Hw Hn H3 E4) as H4. eapply ledger_balanced; [exact H4|set_solver..].
  - unfold PullWithProgress. destruct (negb _); [by intros [= <- _]|].
    destruct (planTransfer _ _) as [[[w1 conns] rsv]|] eqn:Ep; [|done]. destruct (planTransfer_ledger _ _ _ _ _ Hw Ep) as [Hr H1].
    destruct (pullOnce _ _ _ _ w1) as [w2 r2] eqn:E2. pose proof (pullOnce_ledger _ _ _ _ _ _ _ _ _ _ Hw Hr H1 E2) as H2.
    assert (B2 : ledger w w2 ∅ ∅) by (eapply ledger_weaken; [exact H2|set_solver..]). destruct r2 as [[]|]; [intros [= <- _]; by eapply ledger_balanced| |done].
    destruct (1 <? conns)%Z; [|intros [= <- _]; by eapply ledger_balanced]. destruct (retrySingle _ _ _) as [w3 []] eqn:E3; apply retry_same in E3;
      pose proof (ledger_same _ _ _ _ _ E3 B2) as H3; [|intros [= <- _]; by eapply ledger_balanced].
    destruct (pullOnce _ _ _ _ w3) as [w4 [r4|]] eqn:E4; [|done]. intros [= <- _].
    pose proof (pullOnce_ledger _ _ _ _ _ _ _ _ _ _ Hw Hn H3 E4) as H4. eapply ledger_balanced; [exact H4|set_solver..].
Qed.

(** ** The local store *)

Lemma attach_all_lo att es : ∀ i w w' slots, attach_all att i es w = (w', slots) → w_lo w' = w_lo w.
Proof.
  induction es as [|e es IH]; intros i w w' slots; cbn [attach_all]; [by intros [= <- _]|]. destruct (att i); cbn;
    destruct (attach_all _ _ _ _) as [w1 sl] eqn:E; intros [= <- _]; by apply IH in E.
Qed.

Lemma attach_shards_lo env conns rsv w w' ss r : attach_shards env conns rsv w = (w', ss, r) → w_lo w' = w_lo w.
Proof.
  assert (Ha : ∀ att c es w w' ss, attachTo att c es w = (w', ss) → w_lo w' = w_lo w).
  { intros att c es w1 w1' ss1. unfold attachTo. destruct (attach_all _ _ _ _) as [w2 sl] eqn:E. apply attach_all_lo in E. cbv zeta. intros [= <- _]. by destruct (_ && _). }
  unfold attach_shards, attachReserved, attachExtras. destruct rsv; [|destruct (_ <=? 0)%Z; [by intros [= <- _ _]|]]; cbn;
    (destruct (attachTo _ _ _ _) as [w2 ss2] eqn:E; apply Ha in E; by intros [= <- _ _]).
Qed.

Lemma close_all_lo ss w : w_lo (close_all ss w) = w_lo w.
Proof. induction ss as [|s ss IH]; cbn; [done|exact IH]. Qed.

Lemma closeExtras_lo ss r w : w_lo (closeExtras ss r w) = w_lo w.
Proof. unfold closeExtras. rewrite <- (close_all_lo ss w). by destruct r. Qed.

Lemma release_rsv_lo rsv w : w_lo (release_rsv rsv w) = w_lo w.
Proof. by destruct rsv. Qed.

(** What one attempt to pull does to the local store. *)
Definition pulled (env : attempt) (name : string) (w : world) (o : world * option (result client_err Key)) : Prop :=
  let '(w', r) := o in
  grown (lo_objs (w_lo w)) (lo_objs (w_lo w')) ∧
  match r with
  | Some (Ok root) => comp (lo_objs (w_lo w')) root ∧ lo_refs (w_lo w') = <[name := root]> (lo_refs (w_lo w)) ∧
      ∃ m rest, ReadMsg (at_ctrl env) = (rest, Ok m) ∧ ref_root m = Ok root
  | _ => lo_refs (w_lo w') = lo_refs (w_lo w)
  end.

Lemma pulled_same env name w w' r : (∀ k, r ≠ Some (Ok k)) → w_lo w' = w_lo w → pulled env name w (w', r).
Proof. intros Hr E. split; [rewrite E; apply grown_refl|]. destruct r as [[k|]|]; [by destruct (Hr k)|by rewrite E..]. Qed.

Lemma pull_transfer_pulled env name root n m rest w0 w : w_lo w = w_lo w0 → ReadMsg (at_ctrl env) = (rest, Ok m) → ref_root m = Ok root →
  pulled env name w0 (pull_transfer env name root n w).
Proof.
  intros E Hm Hroot. unfold pull_transfer, local_PutRef. destruct (Receive _ _ _ _ _) as [[[st x] r]|] eqn:Er; [|by apply pulled_same].
  apply (receive_loop_sound _ _ _ root) in Er as [Hg Hc]; [|apply start_owes]. rewrite E in *. destruct r as [[]|e]; [|split; [done|]; cbn; by rewrite E].
  destruct (_ || _); [split; [done|]; cbn; by rewrite E|]. split; [done|]. cbn. split_and!; [by apply Hc|by rewrite E|eauto].
Qed.

Lemma pull_body_pulled env name conns rsv w : pulled env name w (pull_body env name conns rsv w).
Proof.
  unfold pull_body. destruct (at_write env); [by apply pulled_same|]. cbv zeta. destruct (ReadMsg (at_ctrl env)) as [rest [m|e]] eqn:Em; [|by apply pulled_same].
  destruct (ref_root m) as [root|e] eqn:Er; [|by apply pulled_same]. set (w2 := if String.eqb (m_Token m) "" then _ else _).
  assert (E2 : w_lo w2 = w_lo w) by (unfold w2; by destruct (String.eqb _ _)). destruct (_ && _).
  - destruct (attach_shards _ _ _ _) as [[w3 ss] q] eqn:E3. apply attach_shards_lo in E3. pose proof (pull_transfer_pulled env name root (length ss) m rest w w3) as Hp.
    destruct (pull_transfer _ _ _ _ w3) as [w4 r4]. unfold pulled in *. rewrite closeExtras_lo. apply Hp; [congruence|done..].
  - eapply pull_transfer_pulled; [by rewrite release_rsv_lo|done..].
Qed.

Lemma pullOnce_pulled env name conns rsv w : pulled env name w (pullOnce env name conns rsv w).
Proof.
  unfold pullOnce, with_stream. destruct (at_open env); [by apply pulled_same, release_rsv_lo|]. cbn [open_stream].
  pose proof (pull_body_pulled env name conns rsv (open_stream w).1) as H. cbn [open_stream fst] in H. destruct (pull_body _ _ _ _ _) as [w1 r1].
  unfold pulled in *. by rewrite release_rsv_lo.
Qed.

Lemma planTransfer_lo env w w' conns rsv : planTransfer env w = Some (w', conns, rsv) → w_lo w' = w_lo w.
Proof.
  unfold planTransfer. destruct (transferConns _ _ _) as [[cl n]|]; [|done]. cbv zeta. destruct (n <=? 1)%Z; [by intros [= <- _ _]|].
  destruct (c_dataEps cl); [|by intros [= <- _ _]]. cbn. destruct (pe_entries env); [|by intros [= <- _ _]]. repeat case_match; by intros [= <- _ _].
Qed.

Lemma retry_lo c e w w' b : retrySingle c e w = (w', b) → w_lo w' = w_lo w.
Proof. unfold retrySingle. destruct e, c; by intros [= <- _]. Qed.

Lemma pull_spec env name w w' r :
  PullWithProgress env name w = Some (w', r) →
  grown (lo_objs (w_lo w)) (lo_objs (w_lo w')) ∧
  match r with
  | Ok root => complete (po_Get (lo_objs (w_lo w'))) ChildKeys root ∧ lo_refs (w_lo w') = <[name := root]> (lo_refs (w_lo w)) ∧
      ∃ a m rest, a ∈ [op_first env; op_second env] ∧ ReadMsg (at_ctrl a) = (rest, Ok m) ∧ ref_root m = Ok root
  | Err _ => lo_refs (w_lo w') = lo_refs (w_lo w)
  end.
Proof.
  unfold PullWithProgress. destruct (negb _); [intros [= <- <-]; split; [apply grown_refl|done]|].
  destruct (planTransfer _ _) as [[[w1 conns] rsv]|] eqn:Ep; [|done]. apply planTransfer_lo in Ep.
  pose proof (pullOnce_pulled (op_first env) name conns rsv w1) as H1. destruct (pullOnce _ _ _ _ w1) as [w2 r2]. unfold pulled in H1. rewrite Ep in H1. destruct H1 as [G1 H1].
  destruct r2 as [[root|e]|]; [|..|done].
  { destruct H1 as (Hc & Hf & m & rest & Hm & Hr). intros [= <- <-]. split_and!; [done..|]. exists (op_first env), m, rest. split; [left|done]. }
  destruct (1 <? conns)%Z; [|by intros [= <- <-]]. destruct (retrySingle _ _ _) as [w3 []] eqn:E3; apply retry_lo in E3; [|intros [= <- <-]; by rewrite E3].
  pose proof (pullOnce_pulled (op_second env) name 1 None w3) as H4. destruct (pullOnce _ _ _ _ w3) as [w4 [r4|]]; [|done]. unfold pulled in H4. rewrite E3, H1 in H4.
  destruct H4 as [G4 H4]. intros [= <- <-]. split; [by eapply grown_trans|]. destruct r4 as [root|]; [|done].
  destruct H4 as (Hc & Hf & m & rest & Hm & Hr). split_and!; [done..|]. exists (op_second env), m, rest. split; [right; left|done].
Qed.

(** [C10] Objects before the reference, on the client too: whatever the server
    sends, over however many channels, in one attempt or two, a pull that
    succeeds has the whole tree of the root the server's record names in the
    local store and has pointed the local reference at it; a pull that fails has
    written no reference; and no object is lost. *)
Theorem pull_complete env name w w' r :
  PullWithProgress env name w = Some (w', r) →
  grown (lo_objs (w_lo w)) (lo_objs (w_lo w')) ∧
  match r with
  | Ok root => complete (po_Get (lo_objs (w_lo w'))) ChildKeys root ∧ lo_refs (w_lo w') = <[name := root]> (lo_refs (w_lo w)) ∧
      ∃ a m rest, a ∈ [op_first env; op_second env] ∧ ReadMsg (at_ctrl a) = (rest, Ok m) ∧ ref_root m = Ok root
  | Err _ => lo_refs (w_lo w') = lo_refs (w_lo w)
  end.
Proof. apply pull_spec. Qed.

(** ** Attempts *)

(** Nothing asked, and sharding not resumed. *)
Definition calm w w' : Prop := w_sent w' = w_sent w ∧ (c_demoted (w_cl w) = true → c_demoted (w_cl w') = true).

Lemma calm_trans a b c : calm a b → calm b c → calm a c.
Proof. unfold calm. intros [-> ?] [-> ?]. auto. Qed.

Lemma attach_all_calm att es : ∀ i w w' slots, attach_all att i es w = (w', slots) → calm w w'.
Proof.
  induction es as [|e es IH]; intros i w w' slots; cbn [attach_all]; [by intros [= <- _]|]. destruct (att i); cbn;
    destruct (attach_all _ _ _ _) as [w1 sl] eqn:E; intros [= <- _]; by apply IH in E.
Qed.

Lemma attach_shards_calm env conns rsv w w' ss r : attach_shards env conns rsv w = (w', ss, r) → calm w w'.
Proof.
  assert (Ha : ∀ att c es w w' ss, attachTo att c es w = (w', ss) → calm w w').
  { intros att c es w1 w1' ss1. unfold attachTo. destruct (attach_all _ _ _ _) as [w2 sl] eqn:E. apply attach_all_calm in E. cbv zeta. intros [= <- _]. destruct (_ && _); [|done]. by destruct E. }
  unfold attach_shards, attachReserved, attachExtras. destruct rsv; [|destruct (_ <=? 0)%Z; [by intros [= <- _ _]|]]; cbn;
    (destruct (attachTo _ _ _ _) as [w2 ss2] eqn:E; apply Ha in E; by intros [= <- _ _]).
Qed.

Lemma closeExtras_calm ss r w : calm w (closeExtras ss r w).
Proof. assert (H : calm w (close_all ss w)) by (induction ss as [|s ss IH]; cbn; [done|exact IH]). destruct r; exact H. Qed.

Lemma release_rsv_calm rsv w : calm w (release_rsv rsv w).
Proof. by destruct rsv. Qed.

Lemma cache_calm ports eps w : calm w (on_cl (cacheDataEndpoints ports eps) w).
Proof. unfold calm, cacheDataEndpoints. by destruct ports, eps. Qed.

(** At most the request was sent. *)
Definition asked (m : Msg) w w' : Prop := (w_sent w' = w_sent w ∨ w_sent w' = w_sent w ++ [m]) ∧ (c_demoted (w_cl w) = true → c_demoted (w_cl w') = true).

Lemma asked_calm m w w1 w' : asked m w w1 → calm w1 w' → asked m w w'.
Proof. unfold asked, calm. intros [? ?] [-> ?]. auto. Qed.

Lemma asked_send m w : asked m w (send m w).
Proof. split; [by right|done]. Qed.

Lemma with_stream_asked {A} m failed (body : world → world * A) err w : (∀ w, asked m w (body w).1) → asked m w (with_stream failed body err w).1.
Proof.
  intros Hb. unfold with_stream. destruct failed; [split; [by left|done]|]. cbn. specialize (Hb (open_stream w).1). cbn in Hb. destruct (body _) as [w2 a]. exact Hb.
Qed.

Lemma runSenders_calm env conns rsv w : calm w (runSenders env conns rsv w).1.
Proof.
  unfold runSenders. cbv zeta. destruct (conns <=? 1)%Z; [done|]. destruct (ReadMsg _) as [rest [first|]]; [|done].
  destruct (m_Type first =? TErr)%Z; [done|]. destruct (m_Type first =? TWants)%Z; [destruct (at_replay env); [done|apply release_rsv_calm]|].
  destruct (negb _); [done|]. destruct (attach_shards _ _ _ _) as [[w2 ss] q] eqn:E. apply attach_shards_calm in E.
  eapply calm_trans; [eapply calm_trans; [apply cache_calm|exact E]|apply closeExtras_calm].
Qed.

Lemma pushOnce_asked env name root conns rsv w w' r : pushOnce env name root conns rsv w = (w', r) → asked (request TPush name (key_bytes root) conns) w w'.
Proof.
  unfold pushOnce. destruct (with_stream _ _ _ w) as [w1 r1] eqn:E. intros [= <- _]. eapply asked_calm; [|apply release_rsv_calm]. change w1 with (w1, r1).1. rewrite <- E.
  apply with_stream_asked. clear. intros w. unfold push_body. destruct (at_write env); [split; [by left|done]|]. cbv zeta. eapply asked_calm; [apply asked_send|].
  set (w1 := send _ w). pose proof (runSenders_calm env conns rsv w1) as H. by destruct (runSenders _ _ _ w1) as [w2 [rest []]].
Qed.

Lemma pull_transfer_calm env name root n w : calm w (pull_transfer env name root n w).1.
Proof. unfold pull_transfer, local_PutRef. repeat case_match; simplify_eq; done. Qed.

Lemma pullOnce_asked env name conns rsv w w' r : pullOnce env name conns rsv w = (w', r) → asked (request TPull name "" conns) w w'.
Proof.
  unfold pullOnce. destruct (with_stream _ _ _ w) as [w1 r1] eqn:E. intros [= <- _]. eapply asked_calm; [|apply release_rsv_calm]. change w1 with (w1, r1).1. rewrite <- E.
  apply with_stream_asked. clear. intros w. unfold pull_body. destruct (at_write env); [split; [by left|done]|]. cbv zeta. eapply asked_calm; [apply asked_send|].
  set (w1 := send _ w). destruct (ReadMsg _) as [rest [m|]]; [|done]. destruct (ref_root m) as [root|]; [|done].
  set (w2 := if String.eqb (m_Token m) "" then _ else _). assert (H2 : calm w1 w2) by (unfold w2; destruct (String.eqb _ _); [done|apply cache_calm]). destruct (_ && _).
  - destruct (attach_shards _ _ _ _) as [[w3 ss] q] eqn:E. apply attach_shards_calm in E. pose proof (pull_transfer_calm env name root (length ss) w3) as H3.
    destruct (pull_transfer _ _ _ _ w3) as [w4 r4]. cbn in *. eapply calm_trans; [|apply closeExtras_calm]. eapply calm_trans; [eapply calm_trans; [exact H2|exact E]|exact H3].
  - eapply calm_trans; [exact H2|]. eapply calm_trans; [apply release_rsv_calm|apply pull_transfer_calm].
Qed.

Lemma planTransfer_calm env w w' conns rsv : planTransfer env w = Some (w', conns, rsv) → calm w w' ∧ (c_demoted (w_cl w) = true → conns = 1%Z).
Proof.
  unfold planTransfer, transferConns. destruct (c_demoted (w_cl w)) eqn:Ed.
  { cbn. intros [= <- <- _]. split; [|done]. by split. }
  intros H. split; [|done]. split; [|congruence]. revert H. destruct (if (1 <? c_conns (w_cl w))%Z then _ else _) as [[cl n]|]; [|done]. cbv zeta.
  destruct (n <=? 1)%Z; [by intros [= <- _ _]|]. destruct (c_dataEps cl); [|by intros [= <- _ _]]. cbn. destruct (pe_entries env); [|by intros [= <- _ _]]. repeat case_match; by intros [= <- _ _].
Qed.

Lemma retry_calm c e w w' : retrySingle c e w = (w', true) → calm w w' ∧ c_demoted (w_cl w') = true.
Proof. unfold retrySingle. destruct e, c; intros [= <-]; by split. Qed.

Lemma retry_none c e w w' : retrySingle c e w = (w', false) → w' = w.
Proof. unfold retrySingle. by destruct e, c; intros [= <-]. Qed.

(** At most two requests, the second not sharded and after giving sharding up. *)
Definition attempts (t : Z) (name root : string) w w' : Prop :=
  ∃ l, w_sent w' = w_sent w ++ l ∧ (length l <= 2)%nat ∧ (∀ a b, l = [a; b] → b = request t name root 1 ∧ c_demoted (w_cl w') = true) ∧
    (c_demoted (w_cl w) = true → l ⊆ [request t name root 1] ∧ (length l <= 1)%nat).

Lemma attempts_one t name root conns w w1 w2 : calm w w1 → (c_demoted (w_cl w) = true → conns = 1%Z) → asked (request t name root conns) w1 w2 → attempts t name root w w2.
Proof.
  intros [Es Ed] Hc [Ha Hd]. rewrite Es in Ha. destruct Ha as [Ha|Ha]; [exists []|exists [request t name root conns]];
    (split_and!; [by rewrite ?app_nil_r|cbn; lia|done|intros H; split; [|cbn; lia]; try rewrite (Hc H); set_solver]).
Qed.

Lemma attempts_two t name root conns w w1 w2 w3 w4 : calm w w1 → (c_demoted (w_cl w) = true → conns = 1%Z) → (1 < conns)%Z →
  asked (request t name root conns) w1 w2 → calm w2 w3 → c_demoted (w_cl w3) = true → asked (request t name root 1) w3 w4 → attempts t name root w w4.
Proof.
  intros [Es Ed] Hc Hlt [Ha Hd] [Es3 _] Hd3 [Hb Hd4]. rewrite Es3 in Hb. assert (Hnd : c_demoted (w_cl w) = true → False) by (intros H; specialize (Hc H); lia).
  destruct Ha as [Ha|Ha], Hb as [Hb|Hb]; rewrite Ha, Es in Hb; [exists []|eexists [_]|eexists [_]|eexists [_; _]; rewrite <- (assoc_L (++)) in Hb];
    (split_and!; [by rewrite ?app_nil_r; exact Hb|cbn; lia|intros a b [= <- <-]; auto|by intros ?%Hnd]) || (split_and!; [by rewrite ?app_nil_r; exact Hb|cbn; lia|done|by intros ?%Hnd]).
Qed.

(** A push and a pull make at most one more attempt, unsharded, and a client
    that has given up sharding never shards again. *)
Theorem retries_bounded env name root w w' :
  (∀ r, PushWithProgress env name root w = Some (w', r) → attempts TPush name (key_bytes root) w w') ∧
  (∀ r, PullWithProgress env name w = Some (w', r) → attempts TPull name "" w w').
Proof.
  assert (H0 : ∀ t n ro, attempts t n ro w w) by (intros; exists []; split_and!; [by rewrite app_nil_r|cbn; lia|done|intros _; split; [set_solver|cbn; lia]]). split; intros r.
  - unfold PushWithProgress. destruct (negb _); [by intros [= <- _]|]. destruct (po_Has _ _) as [[]|]; [|by intros [= <- _]..].
    destruct (planTransfer _ _) as [[[w1 conns] rsv]|] eqn:Ep; [|done]. apply planTransfer_calm in Ep as [C1 Hc].
    destruct (pushOnce _ _ _ _ _ w1) as [w2 r2] eqn:E2. apply pushOnce_asked in E2. pose proof (attempts_one _ _ _ _ _ _ _ C1 Hc E2) as H1. destruct r2; [by intros [= <- _]|].
    destruct (1 <? conns)%Z eqn:El; [|by intros [= <- _]]. destruct (retrySingle _ _ _) as [w3 []] eqn:E3; [|apply retry_none in E3 as ->; by intros [= <- _]].
    apply retry_calm in E3 as [C3 D3]. intros [= E4]. apply pushOnce_asked in E4. eapply attempts_two; eauto. lia.
  - unfold PullWithProgress. destruct (negb _); [by intros [= <- _]|].
    destruct (planTransfer _ _) as [[[w1 conns] rsv]|] eqn:Ep; [|done]. apply planTransfer_calm in Ep as [C1 Hc].
    destruct (pullOnce _ _ _ _ w1) as [w2 r2] eqn:E2. apply pullOnce_asked in E2. pose proof (attempts_one _ _ _ _ _ _ _ C1 Hc E2) as H1. destruct r2 as [[]|]; [by intros [= <- _]| |done].
    destruct (1 <? conns)%Z eqn:El; [|by intros [= <- _]]. destruct (retrySingle _ _ _) as [w3 []] eqn:E3; [|apply retry_none in E3 as ->; by intros [= <- _]].
    apply retry_calm in E3 as [C3 D3]. destruct (pullOnce _ _ _ _ w3) as [w4 [r4|]] eqn:E4; [|done]. intros [= <- _]. apply pullOnce_asked in E4. eapply attempts_two; eauto. lia.
Qed.

(** What a successful push attempt has read: the server's [TOK]. *)
Lemma Send_suffix st ins rest r : Send st ins = (rest, r) → rest `suffix_of` ins.
Proof.
  induction ins as [|[[m|e] werr] ins IH]; cbn [Send]; [by intros [= <- _]| |intros [= <- _]; by eexists [_]].
  destruct (Send_round st m) as [|objs [e|]|e]; [intros [= <- _]; by eexists [_]..| |intros [= <- _]; by eexists [_]].
  destruct werr; [intros [= <- _]; by eexists [_]|]. intros [k ->]%IH. by exists ((Ok m, None) :: k).
Qed.

Lemma ReadMsg_suffix ins rest r : ReadMsg ins = (rest, r) → rest `suffix_of` ins.
Proof. destruct ins as [|[[m|e] ?] ins]; intros [= <- _]; [done|by eexists [_]..]. Qed.

Lemma runSenders_suffix env conns rsv w w' rest r : runSenders env conns rsv w = (w', (rest, r)) → rest `suffix_of` at_ctrl env.
Proof.
  unfold runSenders. cbv zeta. destruct (conns <=? 1)%Z; [intros [= _ H]; by eapply Send_suffix|]. destruct (ReadMsg (at_ctrl env)) as [r1 [first|e]] eqn:E; apply ReadMsg_suffix in E;
    [|by intros [= _ <- _]]. destruct (m_Type first =? TErr)%Z; [by intros [= _ <- _]|]. destruct (m_Type first =? TWants)%Z.
  { destruct (at_replay env); [by intros [= _ <- _]|]. intros [= _ H]. by eapply Send_suffix. }
  destruct (negb _); [by intros [= _ <- _]|]. destruct (attach_shards _ _ _ _) as [[w2 ss] q]. intros [= _ H]. apply Send_suffix in H. by etrans.
Qed.

Lemma pushOnce_verdict env name root conns rsv w w' : pushOnce env name root conns rsv w = (w', Ok tt) →
  w_sent w' = w_sent w ++ [request TPush name (key_bytes root) conns] ∧ ∃ m e, (Ok m, e) ∈ at_ctrl env ∧ m_Type m = TOK.
Proof.
  unfold pushOnce, with_stream. destruct (at_open env); [done|]. cbn [open_stream]. set (w1 := mkWorld _ _ _ _ _ _ _).
  unfold push_body. destruct (at_write env); [done|]. cbv zeta. pose proof (runSenders_calm env conns rsv (send (request TPush name (key_bytes root) conns) w1)) as [Es _].
  destruct (runSenders _ _ _ _) as [w2 [rest r]] eqn:E. destruct r as [[]|]; [|done]. intros [= <- H]. split; [destruct rsv; exact Es|].
  apply runSenders_suffix in E as [pre E]. unfold want_ok in H. destruct rest as [|[[m|e] q] rest]; cbn in H; [done| |done]. exists m, q. split.
  - rewrite E. apply elem_of_app. right. left.
  - destruct (m_Type m =? TOK)%Z eqn:Et; [lia|]. by destruct (m_Type m =? TErr)%Z.
Qed.

(** The attempt a push owes its success to: the planned one, or the second. *)
Lemma push_verdict env name root w w' : PushWithProgress env name root w = Some (w', Ok tt) →
  ∃ a conns, (a = op_first env ∧ (∃ w1 rsv, planTransfer (op_plan env) w = Some (w1, conns, rsv)) ∨ a = op_second env ∧ conns = 1%Z) ∧
    request TPush name (key_bytes root) conns ∈ w_sent w' ∧ ∃ m e, (Ok m, e) ∈ at_ctrl a ∧ m_Type m = TOK.
Proof.
  unfold PushWithProgress. destruct (negb _); [done|]. destruct (po_Has _ _) as [[]|]; [|done..]. destruct (planTransfer _ _) as [[[w1 conns] rsv]|]; [|done].
  destruct (pushOnce _ _ _ _ _ w1) as [w2 r2] eqn:E2. destruct r2 as [[]|].
  - intros [= <-]. apply pushOnce_verdict in E2 as [Es Hv]. exists (op_first env), conns. split_and!; [left; eauto|rewrite Es; set_solver|done].
  - destruct (1 <? conns)%Z; [|done]. destruct (retrySingle _ _ _) as [w3 []]; [|done]. intros [= E4]. apply pushOnce_verdict in E4 as [Es Hv].
    exists (op_second env), 1%Z. split_and!; [by right|rewrite Es; set_solver|done].
Qed.
End Facts.
