(* ===== verification/ClientServer.v ===== *)
(** * A push between client and server

    The store server answers [TOK] to a push only when it has committed the
    reference; with the client's side, a push that reports success is committed
    and its tree complete on the server. *)
From S2P Require Import Prelude GoLib Keys Wire LogBuf Frames Sync SyncFacts AmberServer AmberServerFacts Client ClientFacts.
Local Open Scope string_scope.
Local Open Scope list_scope.

Section Reply.
Context `{PS : PackStore} {RC : RefCodec}.
Context (cf : config).
Implicit Types s : Server.

(** ** What goroutines do to each other's replies *)

(** Goroutine [t] went on: others stand where they stood and have said what
    they had said, and the log of writes grew. *)
Record mine (t : thread) s s' : Prop := mkMine {
  mi_out : ∀ u, u ≠ t → sv_out s' u = sv_out s u;
  mi_pc : ∀ u, u ≠ t → sv_threads s' !! u = sv_threads s !! u;
  mi_log : sv_log s `prefix_of` sv_log s' }.

Lemma mine_refl t s : mine t s s.
Proof. by split. Qed.

Lemma mine_trans t s1 s2 s3 : mine t s1 s2 → mine t s2 s3 → mine t s1 s3.
Proof. intros [a1 b1 c1] [a2 b2 c2]. split; [intros u Hu; by rewrite a2, a1|intros u Hu; by rewrite b2, b1|by etrans]. Qed.

Lemma mine_same t s s' : sv_out s' = sv_out s → sv_threads s' = sv_threads s → sv_log s' = sv_log s → mine t s s'.
Proof. intros E1 E2 E3. split; by rewrite ?E1, ?E2, ?E3. Qed.

Lemma mine_goto t p s : mine t s (goto t p s).
Proof. split; [done|intros u Hu; cbn; by apply lookup_insert_ne|done]. Qed.

Lemma mine_say t m s : mine t s (say t m s).
Proof. split; [intros u Hu; cbn; by rewrite decide_False|done|done]. Qed.

Lemma drop_same token s : let s' := drop_transfer token s in sv_out s' = sv_out s ∧ sv_threads s' = sv_threads s ∧ sv_log s' = sv_log s.
Proof. unfold drop_transfer. by destruct (sv_pending s !! token). Qed.

Lemma release_same sh s : let s' := AmberServer.release sh s in sv_out s' = sv_out s ∧ sv_threads s' = sv_threads s ∧ sv_log s' = sv_log s.
Proof. unfold AmberServer.release. destruct (sh_token sh); [|done]. apply (drop_same s0 s). Qed.

Lemma mine_end t o s s0 : mine t s s0 → mine t s (end_op t o s0).
Proof.
  intros H. eapply mine_trans; [exact H|]. unfold end_op. eapply mine_trans; [|apply mine_goto]. destruct o; [|by apply mine_same]. eapply mine_trans; [apply mine_say|by apply mine_same].
Qed.

Lemma mine_drop t token s s0 : mine t s s0 → mine t s (drop_transfer token s0).
Proof. intros H. eapply mine_trans; [exact H|]. destruct (drop_same token s0) as (? & ? & ?). by apply mine_same. Qed.

Lemma mine_release t sh s s0 : mine t s s0 → mine t s (AmberServer.release sh s0).
Proof. intros H. eapply mine_trans; [exact H|]. destruct (release_same sh s0) as (? & ? & ?). by apply mine_same. Qed.

Lemma mine_locked t m sh o s s0 : mine t s s0 → mine t s (end_locked t m sh o s0).
Proof. intros H. apply mine_end, mine_release. eapply mine_trans; [exact H|by apply mine_same]. Qed.

Lemma mine_offer t p conns a token w b s s0 : mine t s s0 → mine t s (offer t p conns a token w b s0).
Proof.
  intros H. unfold offer. cbn. assert (H1 : mine t s (create token s0).2) by (eapply mine_trans; [exact H|by apply mine_same]). cbn in H1. destruct b; [by apply mine_end, mine_drop|].
  eapply mine_trans; [|apply mine_goto]. eapply mine_trans; [exact H1|apply mine_say].
Qed.

Lemma mine_pins t names : ∀ s, mine t s (pin_names cf names s).1.
Proof.
  induction names as [|n names IH]; intros s; cbn; [apply mine_refl|]. destruct (refs_Get cf s n); [|done|apply mine_refl]. eapply mine_trans; [|apply IH]. by apply mine_same.
Qed.

Lemma mine_dispatch t m token b s : mine t s (dispatch_op cf t m token b s).
Proof.
  unfold dispatch_op. destruct (m_Type m =? TAttach)%Z; [destruct (sv_pending s !! _); [apply mine_goto|apply mine_end, mine_refl]|].
  destruct (m_Type m =? TRefList)%Z; [apply mine_end, mine_refl|]. destruct (m_Type m =? TPush)%Z.
  { unfold push_begin. destruct (negb _); [apply mine_end, mine_refl|]. destruct (key_parse _); [|apply mine_end, mine_refl]. destruct (precondition _ _ _); [|apply mine_end, mine_refl].
    destruct (_ <=? 0)%Z; [apply mine_goto|]. destruct token; [apply mine_offer, mine_refl|apply mine_end, mine_refl]. }
  destruct (m_Type m =? TPull)%Z.
  { unfold pull_begin. destruct (refs_Get _ _ _); [|apply mine_end, mine_refl..]. cbv zeta. set (s1 := set_sv_access _ s). assert (H1 : mine t s s1) by (by apply mine_same).
    destruct (0 <? _)%Z; [destruct token; [by apply mine_offer|by apply mine_end]|]. destruct b; [by apply mine_end|]. eapply mine_trans; [|apply mine_goto]. eapply mine_trans; [exact H1|apply mine_say]. }
  destruct (m_Type m =? TPin)%Z; [|apply mine_end, mine_refl]. unfold handlePin. pose proof (mine_pins t (m_Names m) s) as H. destruct (pin_names _ _ _). by apply mine_end.
Qed.

Lemma mine_gathered t p token out s s0 : mine t s s0 → mine t s (gathered t p token out s0).
Proof. intros H. unfold gathered. destruct p; (eapply mine_trans; [exact H|apply mine_goto]). Qed.

Lemma step_mine t i s s' : step cf t i s = Some s' → mine t s s'.
Proof.
  unfold step. destruct (sv_threads s !! t) as [p|]; [|done]. destruct p as [| | |q token ch n out|m root lp sh|m root sh|m root sh|m root raw sh|cs sh|], i as [r tok b| | |peer|now|j r|]; try done.
  - destruct r; intros [= <-]; [apply mine_dispatch|apply mine_end, mine_refl].
  - destruct (attach_send _ _ _) as [s1 ok] eqn:E. assert (H1 : mine t s s1) by (unfold attach_send in E; destruct (_ <? _)%Z; simplify_eq; by apply mine_same).
    intros [= <-]. destruct ok; [|by apply mine_end]. eapply mine_trans; [exact H1|apply mine_goto].
  - unfold gather_take. destruct (sv_chans s !! ch) as [[|rw qs]|]; [done| |done]. intros [= <-]. set (s1 := set_sv_chans _ s). assert (H1 : mine t s s1) by (by apply mine_same).
    destruct (bool_decide _); [by apply mine_gathered|]. eapply mine_trans; [exact H1|apply mine_goto].
  - intros [= <-]. apply mine_gathered, mine_refl.
  - intros [= <-]. unfold push_receive. destruct (receive_round _ _ _ _) as [st [lp'|[x r]]]; [eapply mine_trans; [|apply mine_goto]; by apply mine_same|].
    destruct r; [eapply mine_trans; [|apply mine_goto]; by apply mine_same|]. apply mine_end, mine_release. by apply mine_same.
  - destruct (sv_locks s !! _); [done|]. intros [= <-]. eapply mine_trans; [|apply mine_goto]. by apply mine_same.
  - intros [= <-]. unfold push_check. destruct (precondition _ _ _); [|apply mine_locked, mine_refl]. destruct (ref_Encode _); [|apply mine_locked, mine_refl].
    destruct (cf_guard cf); [|apply mine_goto]. destruct (r _); [|apply mine_locked, mine_refl]. eapply mine_trans; [|apply mine_goto]. by apply mine_same.
  - intros [= <-]. unfold push_put, guard_end. destruct (cf_wfault cf _); [apply mine_locked; destruct (cf_guard cf); by apply mine_same|].
    apply mine_locked. destruct (cf_guard cf); (split; [done|done|]; cbn; by apply prefix_app_r).
  - destruct (cs !! j) as [[]|]; [|done..]. intros [= <-]. apply mine_goto.
  - unfold pull_end. destruct (existsb _ cs); [done|]. intros [= <-]. apply mine_end, mine_release, mine_refl.
Qed.

(** ** Replies to a push *)

(** Where a goroutine may stand that serves the push [m]. *)
Definition at_push (m : Msg) (p : pc) : Prop :=
  match p with
  | PC_Gather (ForPush m' root) _ _ _ _ | PC_Receive m' root _ _ | PC_Lock m' root _ | PC_Locked m' root _ | PC_Prepared m' root _ _ => m' = m ∧ key_parse (m_Root m) = Some root
  | PC_End => True
  | _ => False
  end.

Definition committed (t : thread) (m : Msg) s : Prop := ∃ root raw, key_parse (m_Root m) = Some root ∧ Pushed t m root raw ∈ sv_log s.

Record push_served (t : thread) (m : Msg) s : Prop := mkServed {
  ps_pc : ∃ p, sv_threads s !! t = Some p ∧ at_push m p;
  ps_ok : (∃ f, f ∈ sv_out s t ∧ m_Type f = TOK) → committed t m s }.

Lemma end_op_out t o s : sv_out (end_op t o s) t = sv_out s t ++ option_list o.
Proof. destruct o; cbn; [by rewrite decide_True|by rewrite app_nil_r]. Qed.

Lemma served_end t m o s s0 : push_served t m s → sv_out s0 t = sv_out s t → sv_log s `prefix_of` sv_log s0 → (∀ f, o = Some f → m_Type f = TOK → committed t m s0) → push_served t m (end_op t o s0).
Proof.
  intros [_ Hok] Eo [k Hk] Hf. split; [exists PC_End; split; [|done]; destruct o; cbn; by rewrite lookup_insert_eq|]. intros (f & Hin & Ht). rewrite end_op_out, Eo in Hin.
  assert (El : sv_log (end_op t o s0) = sv_log s0) by (by destruct o). assert (Hc : committed t m s0); [|destruct Hc as (root & raw & ? & ?); exists root, raw; by rewrite El].
  apply elem_of_app in Hin as [Hin|Hin]; [|destruct o; cbn in Hin; [apply list_elem_of_singleton in Hin as ->; by eapply Hf|by apply elem_of_nil in Hin]].
  destruct Hok as (root & raw & ? & ?); [eauto|]. exists root, raw. split; [done|]. rewrite Hk. apply elem_of_app. by left.
Qed.

Lemma served_goto t m p s s0 : push_served t m s → at_push m p → sv_out s0 t = sv_out s t → sv_log s0 = sv_log s → push_served t m (goto t p s0).
Proof.
  intros [_ Hok] Hp Eo El. split; [exists p; split; [cbn; by rewrite lookup_insert_eq|done]|]. cbn. rewrite Eo. intros H. destruct (Hok H) as (root & raw & ? & ?). exists root, raw. cbn. by rewrite El.
Qed.

Lemma served_locked t m sh o s s0 : push_served t m s → sv_out s0 t = sv_out s t → sv_log s `prefix_of` sv_log s0 → (m_Type o = TOK → committed t m s0) → push_served t m (end_locked t m sh o s0).
Proof.
  intros H Eo Hl Hf. unfold end_locked. destruct (release_same sh (unlock (m_Name m) s0)) as (E1 & E2 & E3). eapply served_end; [exact H|by rewrite E1|by rewrite E3|].
  intros f [= <-] Ht. destruct (Hf Ht) as (root & raw & ? & ?). exists root, raw. split; [done|]. by rewrite E3.
Qed.

Lemma not_ok code text : m_Type (fail code text) = TOK → False.
Proof. done. Qed.

Lemma served_step t m i s s' : push_served t m s → step cf t i s = Some s' → push_served t m s'.
Proof.
  intros Hs. pose proof Hs as [(p & Ep & Hp) Hok]. unfold step. rewrite Ep. destruct p as [| | |q token ch n out|m' root lp sh|m' root sh|m' root sh|m' root raw sh|cs sh|], i as [r tok b| | |peer|now|j r|]; try done;
    cbn in Hp; try (destruct q as [m' root|]; [|done]); try (destruct Hp as [-> Hroot]).
  - unfold gather_take. destruct (sv_chans s !! ch) as [[|rw qs]|]; [done| |done]. intros [= <-]. destruct (bool_decide _); by eapply served_goto.
  - intros [= <-]. by eapply served_goto.
  - intros [= <-]. unfold push_receive. destruct (receive_round _ _ _ _) as [st [lp'|[x r]]]; [by eapply served_goto|]. destruct r as [|e]; [by eapply served_goto|].
    destruct (release_same sh (set_sv_objs st s)) as (E1 & E2 & E3). eapply served_end; [exact Hs|by rewrite E1|by rewrite E3|]. intros f Hf Ht. destruct e; cbn in Hf; simplify_eq; done.
  - destruct (sv_locks s !! _); [done|]. intros [= <-]. by eapply served_goto.
  - intros [= <-]. unfold push_check, precondition, checkCAS. assert (Hfail : ∀ f, m_Type f ≠ TOK → push_served t m (end_locked t m sh f s)) by (intros f Hf; by eapply served_locked).
    destruct (if m_CAS m then _ else _) as [|f] eqn:Ec; [|apply Hfail; intros Ht; repeat case_match; simplify_eq; done].
    destruct (ref_Encode _); [|by apply Hfail]. destruct (cf_guard cf); [|by eapply served_goto]. destruct (r _); [|by apply Hfail]. by eapply served_goto.
  - intros [= <-]. unfold push_put, guard_end. destruct (cf_wfault cf _); [eapply served_locked; [exact Hs|by destruct (cf_guard cf)|by destruct (cf_guard cf)|done]|].
    eapply served_locked; [exact Hs|by destruct (cf_guard cf)|destruct (cf_guard cf); cbn; by apply prefix_app_r|]. intros _. exists root, raw. split; [done|].
    destruct (cf_guard cf); cbn; apply elem_of_app; right; left.
Qed.

Lemma served_other t m u s s' : u ≠ t → mine u s s' → push_served t m s → push_served t m s'.
Proof.
  intros Hne [Ho Hp [k Hl]] [(p & Ep & Hat) Hok]. split; [exists p; by rewrite Hp|]. rewrite Ho by done. intros H. destruct (Hok H) as (root & raw & ? & ?).
  exists root, raw. split; [done|]. rewrite Hl. apply elem_of_app. by left.
Qed.

Lemma served_happens t m s s' : push_served t m s → happens cf s s' → push_served t m s'.
Proof.
  intros Hs H. destruct H as [u s Hu|u i s s' H|name raw s|st s Hst].
  - destruct (decide (u = t)) as [->|Hne]; [destruct Hs as [(p & Ep & _) _]; by rewrite Ep in Hu|]. eapply served_other; [exact Hne|apply mine_goto|done].
  - destruct (decide (u = t)) as [->|Hne]; [by eapply served_step|]. eapply served_other; [exact Hne|by eapply step_mine|done].
  - destruct Hs as [Hp Hok]. split; [done|]. cbn. intros H. destruct (Hok H) as (root & r & ? & ?). exists root, r. split; [done|]. cbn. apply elem_of_app. by left.
  - destruct Hs as [Hp Hok]. by split.
Qed.

(** A goroutine that has not read its request has said nothing. *)
Definition silent s : Prop := ∀ t, sv_threads s !! t = None ∨ sv_threads s !! t = Some PC_Read → sv_out s t = [].

Lemma step_leaves t i s s' : step cf t i s = Some s' → ∃ p, sv_threads s' !! t = Some p ∧ p ≠ PC_Read.
Proof.
  assert (Hend : ∀ o s, ∃ p, sv_threads (end_op t o s) !! t = Some p ∧ p ≠ PC_Read) by (intros o s0; exists PC_End; destruct o; cbn; by rewrite lookup_insert_eq).
  assert (Hgo : ∀ p s, p ≠ PC_Read → ∃ p', sv_threads (goto t p s) !! t = Some p' ∧ p' ≠ PC_Read) by (intros p s0 Hp; exists p; cbn; by rewrite lookup_insert_eq).
  assert (Hof : ∀ p c a k w b s, ∃ p', sv_threads (offer t p c a k w b s) !! t = Some p' ∧ p' ≠ PC_Read) by (intros p c a k w b s0; unfold offer; cbn; destruct b; [apply Hend|by apply Hgo]).
  assert (Hga : ∀ p k out s, ∃ p', sv_threads (gathered t p k out s) !! t = Some p' ∧ p' ≠ PC_Read) by (intros [] k out s0; by apply Hgo).
  unfold step. destruct (sv_threads s !! t) as [p|]; [|done]. destruct p as [| | |q token ch n out|m root lp sh|m root sh|m root sh|m root raw sh|cs sh|], i as [r tok b| | |peer|now|j r|]; try done.
  - destruct r as [m|]; intros [= <-]; [|done]. unfold dispatch_op, push_begin, pull_begin, handlePin, handleRefList. repeat case_match; auto.
  - destruct (attach_send _ _ _) as [s1 []]; intros [= <-]; auto.
  - unfold gather_take. repeat case_match; intros [= <-]; auto.
  - intros [= <-]. auto.
  - intros [= <-]. unfold push_receive. repeat case_match; auto.
  - destruct (sv_locks s !! _); [done|]. intros [= <-]. auto.
  - intros [= <-]. unfold push_check, end_locked. repeat case_match; auto.
  - intros [= <-]. unfold push_put, end_locked. repeat case_match; auto.
  - destruct (cs !! j) as [[]|]; [|done..]. intros [= <-]. auto.
  - unfold pull_end. destruct (existsb _ cs); [done|]. intros [= <-]. auto.
Qed.

Lemma reachable_silent objs refs s : reachable cf objs refs s → silent s.
Proof.
  intros H. assert (H0 : silent (New objs refs)) by (by intros t _). revert H H0. unfold reachable. generalize (New objs refs). intros sn H. induction H as [|s0 s1 s2 Hh _ IH]; [done|]. intros H0. apply IH. clear IH.
  destruct Hh as [u s Hu|u i s s' H|name raw s|st s Hst]; intros t Ht; [| |by apply H0..].
  - cbn in *. apply H0. destruct (decide (u = t)) as [->|Hne]; [by left|]. by rewrite lookup_insert_ne in Ht by done.
  - destruct (decide (t = u)) as [->|Hne]; [destruct (step_leaves _ _ _ _ H) as (p & Ep & Hp); rewrite Ep in Ht; naive_solver|].
    destruct (step_mine _ _ _ _ H) as [Ho Hp _]. rewrite Ho by done. apply H0. by rewrite <- Hp.
Qed.

(** Serving the first frame of a push. *)
Lemma served_begin objs refs t m tok b s s' : reachable cf objs refs s → m_Type m = TPush → step cf t (InFrame (Ok m) tok b) s = Some s' → push_served t m s'.
Proof.
  intros Hr Ht. unfold step. destruct (sv_threads s !! t) as [[]|] eqn:Ep; try done. intros [= <-]. assert (Hsil : sv_out s t = []) by (apply (reachable_silent _ _ _ Hr); by right).
  assert (Hend : ∀ o s0, sv_out s0 t = [] → (∀ f, o = Some f → m_Type f ≠ TOK) → push_served t m (end_op t o s0)).
  { intros o s0 E0 Hf. split; [exists PC_End; split; [|done]; destruct o; cbn; by rewrite lookup_insert_eq|]. rewrite end_op_out, E0. intros (f & Hin & Hk). destruct o as [g|]; [|by apply elem_of_nil in Hin].
    apply list_elem_of_singleton in Hin as ->. by destruct (Hf g eq_refl). }
  unfold dispatch_op. rewrite Ht. cbn [Z.eqb]. change (TPush =? TAttach)%Z with false. change (TPush =? TRefList)%Z with false. change (TPush =? TPush)%Z with true. cbn.
  unfold push_begin. destruct (negb _); [apply Hend; [done|by intros f [= <-]]|]. destruct (key_parse (m_Root m)) as [root|] eqn:Eroot; [|apply Hend; [done|by intros f [= <-]]].
  destruct (precondition cf s m) as [|f] eqn:Ec; [|apply Hend; [done|intros f' [= <-] Hf; unfold precondition, checkCAS in Ec; repeat case_match; simplify_eq; done]].
  destruct (_ <=? 0)%Z; [split; [eexists; split; [cbn; by rewrite lookup_insert_eq|done]|cbn; rewrite Hsil; by intros (f & Hf%elem_of_nil & _)]|].
  destruct tok as [token|]; [|apply Hend; [done|by intros f [= <-]]]. unfold offer. cbn. destruct b.
  - apply Hend; [|by intros f [= <-]]. unfold drop_transfer. cbn. by rewrite lookup_insert_eq.
  - split; [eexists; split; [cbn; by rewrite lookup_insert_eq|done]|]. cbn. rewrite decide_True by done. rewrite Hsil. intros (f & Hf%list_elem_of_singleton & Hk). by subst f.
Qed.

(** ** Both sides *)

(** The transport does not invent replies: a [TOK] the client reads in an
    attempt was said by a goroutine of the server that had read this attempt's
    request. *)
Definition delivered objs refs s (a : attempt) (req : Msg) : Prop :=
  ∀ m e, (Ok m, e) ∈ at_ctrl a → m_Type m = TOK →
    ∃ t s0 tok b s1, reachable cf objs refs s0 ∧ step cf t (InFrame (Ok req) tok b) s0 = Some s1 ∧ rtc (happens cf) s1 s ∧ m ∈ sv_out s t.

(** [C9] A push that reports success was committed: between a client and a
    server, with any interleaving of other operations there and any failures in
    between, when [PushWithProgress] returns without error the server's log has
    the write of the pushed root under the pushed name, and the whole tree below
    that root is in the server's store. *)
Theorem push_committed objs refs s env name root w w' :
  PushWithProgress env name root w = Some (w', Ok tt) →
  (∀ w1 conns rsv, planTransfer (op_plan env) w = Some (w1, conns, rsv) → delivered objs refs s (op_first env) (request TPush name (key_bytes root) conns)) →
  delivered objs refs s (op_second env) (request TPush name (key_bytes root) 1) →
  ∃ t m raw, m_Name m = name ∧ Pushed t m root raw ∈ sv_log s ∧ complete (po_Get (sv_objs s)) ChildKeys root ∧ record_of name root raw.
Proof.
  intros H H1 H2. apply push_verdict in H as (a & conns & Ha & _ & f & e & Hf & Hok).
  assert (Hd : delivered objs refs s a (request TPush name (key_bytes root) conns)) by (destruct Ha as [(-> & w1 & rsv & Hp)|[-> ->]]; [by eapply H1|done]).
  destruct (Hd f e Hf Hok) as (t & s0 & tok & b & s1 & Hr & Hs & Hrun & Hout). set (m := request TPush name (key_bytes root) conns) in *.
  assert (Hserved : push_served t m s) by (assert (H0 : push_served t m s1) by (eapply served_begin; [exact Hr|done|exact Hs]); clear -H0 Hrun; induction Hrun; [done|]; eauto using served_happens).
  assert (Hreach : reachable cf objs refs s) by (unfold reachable in *; etransitivity; [exact Hr|]; eapply rtc_l; [by eapply h_step|done]).
  destruct (ps_ok _ _ _ Hserved) as (root' & raw & Hroot & Hlog); [eauto|]. unfold m in Hroot. cbn in Hroot. rewrite key_parse_bytes in Hroot. injection Hroot as <-.
  exists t, m, raw. split_and!; [done..| |]; destruct (ok_log _ _ (reachable_ok cf _ _ _ Hreach) _ Hlog); done.
Qed.
End Reply.

(** * The store client on concrete servers

    A pull whose sharded attempt fails, and a push served by the store server. *)
From S2P Require Import Prelude GoLib Keys Wire LogBuf Frames Sync SyncFacts AmberServer AmberServerFacts AmberStreams Client ClientFacts.
From Stdlib Require Import Ascii.

#[local] Existing Instance string_keys.
#[local] Existing Instance chain_store.
#[local] Existing Instance bits_refs.

(** The default width passes the total when the width is set above it. *)
Theorem default_pool_below_width : (clampPoolMax 0 (clampConns 16) < clampConns 16)%Z.
Proof. done. Qed.

Definition empty_local : local := mkLocal (∅ : gset string) ∅ (λ _, false) None.
Definition full_local : local := mkLocal chain_src ∅ (λ _, false) None.
Definition idle (conns : Z) (lo : local) : world := mkWorld (dialed conns ["h:1"] 0) lo ∅ ∅ 0 [] [].
Definition direct : gate_env := mkGate 0 0 (λ _, Some false) (λ _, 0%Z).

Definition ref_reply : Msg := msg_ref plain_cf (bits (encode (mkReference "n" "kab" 7 ""))) (Some "tok").

(** The first attempt gets its shards and then a dead peer, the second goes well. *)
Definition broken_pull : attempt := mkAttempt None None None [(Ok ref_reply, None)] (λ _, []) [mkEntry 5 true; mkEntry 6 true] (λ i, if decide (i = 0%nat) then Attached else AttNoFrame) false 9 (λ _, bad_peer).
Definition good_pull : attempt := mkAttempt None None None [(Ok ref_reply, None)] (λ _, []) [] (λ _, Attached) false 9 (chain_peer 1).
Definition two_tries : op_env := mkOp (mkPlan 0 direct [] 0 false) broken_pull false good_pull.

Definition after_pull : option (world * result client_err string) := PullWithProgress two_tries "n" (idle 3 empty_local).
Definition pull_world : world := match after_pull with Some (w, _) => w | None => idle 3 empty_local end.

Lemma after_pull_ok : after_pull = Some (pull_world, Ok "ab").
Proof.
  assert (H : match after_pull with Some (_, Ok k) => String.eqb k "ab" | _ => false end = true) by (vm_compute; reflexivity). unfold pull_world.
  destruct after_pull as [[w [k|e]]|]; [|discriminate..]. apply String.eqb_eq in H. by subst k.
Qed.

Lemma idle_numbered n lo : numbered (idle n lo).
Proof. intros x Hx. set_solver. Qed.

Lemma client_balanced_witness : w_open pull_world = ∅ ∧ w_held pull_world = ∅ ∧ w_gone pull_world = [6%nat].
Proof.
  destruct (client_balanced two_tries "n" "ab" (idle 3 empty_local) pull_world (idle_numbered 3 empty_local)) as [_ H].
  destruct (H (Ok "ab") after_pull_ok) as [Hh Ho]. split; [exact Ho|]. split; [exact Hh|]. vm_compute. reflexivity.
Defined.

Lemma pull_complete_witness : complete (po_Get (lo_objs (w_lo pull_world))) ChildKeys "ab" ∧ lo_refs (w_lo pull_world) = <["n" := "ab"]> ∅.
Proof.
  destruct (pull_complete two_tries "n" (idle 3 empty_local) pull_world (Ok "ab") after_pull_ok) as [_ (Hc & Hr & _)]. split; [exact Hc|exact Hr].
Defined.

(** A push over the control stream alone, and the goroutine that serves it. *)
Definition push_req : Msg := request TPush "n" "kab" 1.
Definition wants (ks : list string) : result string Msg * option string := (Ok (msg_keys ks), None).
Definition ok_frame : Msg := msg_ok "kab".
Definition good_push : attempt := mkAttempt None None None [wants ["kab"]; wants ["kb"]; wants ["k"]; wants []; (Ok ok_frame, None)] (λ _, []) [] (λ _, Attached) false 0 (chain_peer 1).
Definition no_attempt : attempt := mkAttempt (Some "closed") None None [] (λ _, []) [] (λ _, AttNoStream) false 0 (chain_peer 1).
Definition one_try : op_env := mkOp (mkPlan 0 direct [] 0 false) good_push false no_attempt.

Definition after_push : option (world * result client_err unit) := PushWithProgress one_try "n" ("ab" : string) (idle 1 full_local).
Definition push_world : world := match after_push with Some (w, _) => w | None => idle 1 full_local end.

Lemma after_push_ok : after_push = Some (push_world, Ok tt).
Proof.
  assert (H : match after_push with Some (_, Ok _) => true | _ => false end = true) by (vm_compute; reflexivity). unfold push_world.
  by destruct after_push as [[w [[]|e]]|].
Qed.

Definition opened : Server := goto 1%nat PC_Read fresh_server.
Definition served : list act := [Go 1 (InRound good_peer); Go 1 (InRound good_peer); Go 1 (InRound good_peer); Go 1 (InRound good_peer); Go 1 InGo; Go 1 (InTime 7); Go 1 InGo].
Definition asked_server : Server := default fresh_server (step plain_cf 1 (InFrame (Ok push_req) (Err "no") false) opened).
Definition done_server : Server := default fresh_server (run served asked_server).

Lemma run_happens l : ∀ s0 s, run l s0 = Some s → rtc (happens plain_cf) s0 s.
Proof.
  induction l as [|a l IH]; intros s0 s; simpl; [by intros [= ->]|]. destruct (act_step a s0) as [s1|] eqn:E; [|done]. intros H. eapply rtc_l; [|by apply IH].
  destruct a as [t|t i]; simpl in E; [|by eapply h_step]. destruct (sv_threads s0 !! t) eqn:Et; [done|]. injection E as <-. by constructor.
Qed.

Lemma opened_reachable : reachable plain_cf (∅ : gset string) ∅ opened.
Proof. eapply rtc_once. by constructor. Qed.

Lemma asked_ok : step plain_cf 1 (InFrame (Ok push_req) (Err "no") false) opened = Some asked_server.
Proof. assert (H : ran (step plain_cf 1 (InFrame (Ok push_req) (Err "no") false) opened) = true) by (vm_compute; reflexivity). unfold asked_server. by destruct (step _ _ _ _). Qed.

Lemma served_ok : run served asked_server = Some done_server.
Proof. assert (H : ran (run served asked_server) = true) by (vm_compute; reflexivity). unfold done_server. by destruct (run _ _). Qed.

Lemma push_delivered : delivered plain_cf (∅ : gset string) ∅ done_server good_push push_req.
Proof.
  intros m e Hin Ht. exists 1%nat, opened, (Err "no"), false, asked_server. split_and!; [exact opened_reachable|exact asked_ok|exact (run_happens _ _ _ served_ok)|].
  assert (m = ok_frame) as ->; [|vm_compute; left]. cbn in Hin. repeat (apply elem_of_cons in Hin as [[= -> _]|Hin]; [done|]). by apply elem_of_nil in Hin.
Qed.

Lemma push_planned : planTransfer (op_plan one_try) (idle 1 full_local) = Some (idle 1 full_local, 1%Z, None).
Proof. reflexivity. Qed.

Lemma push_committed_witness : ∃ t m raw, m_Name m = "n" ∧ Pushed t m "ab" raw ∈ sv_log done_server ∧
  complete (po_Get (sv_objs done_server)) ChildKeys "ab" ∧ record_of "n" "ab" raw.
Proof.
  apply (@push_committed string_keys chain_store bits_refs plain_cf (∅ : gset string) ∅ done_server one_try "n" _ (idle 1 full_local) push_world after_push_ok).
  - intros w1 conns rsv Hp. rewrite push_planned in Hp. injection Hp as _ <- _. exact push_delivered.
  - intros m e Hin. apply elem_of_nil in Hin. destruct Hin.
Defined.
