(* ===== verification/Reconn.v ===== *)
(** * Redialling clients (src/runnerd/sync.go, src/registryd/sync.go)

    A [reconnSync] holds the current connection under a mutex; operations of
    many goroutines share it, and each may drop it and dial anew. A step is one
    goroutine going on to its next synchronisation point; the outcome of dialling
    and of an operation, and whether the caller's context has ended, are inputs. *)
From S2P Require Import Prelude GoLib Keys.
Local Open Scope list_scope.

(** How an operation on a client ends: without error, with an error the server
    answered, or with any other error. *)
Inductive outcome := Success | Verdict | Transport.

#[export] Instance outcome_eq_dec : EqDecision outcome.
Proof. solve_decision. Defined.

Definition isRemoteVerdict (o : outcome) : bool := match o with Verdict => true | _ => false end.

(** Which of the two daemons: the registry keeps the client when the caller's
    own context has ended. *)
Inductive flavour := Runner | Registry.

(** Where a goroutine stands in [do] (or [Close]); a client is a number. *)
Inductive rpc :=
| R_Client (attempt : nat)
| R_Op (c : nat) (attempt : nat)
| R_Drop (c : nat) (attempt : nat) (cancelled : bool)
| R_Close (c : nat) (next : option nat)
| R_Return.

Record reconnSync := mkReconn {
  rc_cur : option nat; rc_next : nat; rc_closed : list nat;
  rc_threads : gmap nat rpc; rc_ops : gmap nat (list (nat * outcome)); rc_shut : list nat }.

Definition newReconnSync : reconnSync := mkReconn None 0 [] ∅ ∅ [].

Definition goto (t : nat) (p : rpc) (r : reconnSync) : reconnSync := mkReconn (rc_cur r) (rc_next r) (rc_closed r) (<[t := p]> (rc_threads r)) (rc_ops r) (rc_shut r).

Inductive rinput := InDial (ok : bool) | InOutcome (o : outcome) (cancelled : bool) | InNone.

(** [client]: the current one, or a fresh dial; all of it under the mutex. *)
Definition client (ok : bool) (r : reconnSync) : reconnSync * option nat :=
  match rc_cur r with
  | Some c => (r, Some c)
  | None => if ok then (mkReconn (Some (rc_next r)) (S (rc_next r)) (rc_closed r) (rc_threads r) (rc_ops r) (rc_shut r), Some (rc_next r)) else (r, None)
  end.

(** The first half of [drop]: forget the client if it is still current. *)
Definition forget (c : nat) (r : reconnSync) : reconnSync :=
  mkReconn (if decide (rc_cur r = Some c) then None else rc_cur r) (rc_next r) (rc_closed r) (rc_threads r) (rc_ops r) (rc_shut r).

Definition close_client (c : nat) (r : reconnSync) : reconnSync := mkReconn (rc_cur r) (rc_next r) (rc_closed r ++ [c]) (rc_threads r) (rc_ops r) (rc_shut r).

Definition log_op (t c : nat) (o : outcome) (r : reconnSync) : reconnSync :=
  mkReconn (rc_cur r) (rc_next r) (rc_closed r) (rc_threads r) (<[t := default [] (rc_ops r !! t) ++ [(c, o)]]> (rc_ops r)) (rc_shut r).

(** What [do] decides about an operation's outcome: return, or drop the client. *)
Definition returns (f : flavour) (o : outcome) (cancelled : bool) : bool :=
  match f with
  | Registry => bool_decide (o = Success) || isRemoteVerdict o || cancelled
  | Runner => bool_decide (o = Success) || isRemoteVerdict o
  end.

(** Whether it gives up after dropping. *)
Definition gives_up (f : flavour) (attempt : nat) (cancelled : bool) : bool :=
  match f with Registry => bool_decide (1 <= attempt) | Runner => bool_decide (1 <= attempt) || cancelled end.

(** One step of goroutine [t]; [None] when it cannot make this step. *)
Definition do_step (f : flavour) (t : nat) (i : rinput) (r : reconnSync) : option reconnSync :=
  match rc_threads r !! t, i with
  | Some (R_Client n), InDial ok =>
      let '(r, c) := client ok r in
      Some (match c with Some c => goto t (R_Op c n) r | None => goto t R_Return r end)
  | Some (R_Op c n), InOutcome o cancelled =>
      let r := log_op t c o r in
      Some (if returns f o cancelled then goto t R_Return r else goto t (R_Drop c n cancelled) r)
  | Some (R_Drop c n cancelled), InNone => Some (goto t (R_Close c (if gives_up f n cancelled then None else Some (S n))) (forget c r))
  | Some (R_Close c next), InNone => Some (goto t (match next with Some n => R_Client n | None => R_Return end) (close_client c r))
  | _, _ => None
  end.

(** [Close] under the mutex: the current client is taken away and closed next. *)
Definition Close_begin (t : nat) (r : reconnSync) : reconnSync :=
  match rc_cur r with
  | None => goto t R_Return r
  | Some c => goto t (R_Close c None) (mkReconn None (rc_next r) (rc_closed r) (rc_threads r) (rc_ops r) (rc_shut r ++ [c]))
  end.

(** What happens: a goroutine enters [do] or [Close], or goes on. *)
Inductive reconn_step (f : flavour) : reconnSync → reconnSync → Prop :=
| rs_do t r : rc_threads r !! t = None → reconn_step f r (goto t (R_Client 0) r)
| rs_close t r : rc_threads r !! t = None → reconn_step f r (Close_begin t r)
| rs_go t i r r' : do_step f t i r = Some r' → reconn_step f r r'.

Definition reconn_reach (f : flavour) : reconnSync → Prop := rtc (reconn_step f) newReconnSync.

(** ** Theorems *)

Section Facts.
Context (f : flavour).
Implicit Types r : reconnSync.

(** Client [c] is in a goroutine's hands to be closed. *)
Definition closing (c : nat) (p : rpc) : Prop := match p with R_Close c' _ => c' = c | _ => False end.

(** At most two attempts, the second after a failure the server did not answer. *)
Definition tried (l : list (nat * outcome)) : Prop := (length l <= 2)%nat ∧ ∀ a b, l = [a; b] → a.2 = Transport.

Lemma tried_all l : (length l <= 1)%nat → Forall (λ x, x.2 = Transport) l → ∀ x, tried (l ++ [x]).
Proof. intros Hl Hall x. split; [rewrite length_app; cbn; lia|]. destruct l as [|y [|z l]]; cbn in *; [done| |lia]. intros a b [= <- <-]. by inv Hall. Qed.

Lemma tried_nil : tried [].
Proof. split; [cbn; lia|done]. Qed.

(** The attempts a goroutine has behind it, by where it stands. *)
Definition done_ops (p : rpc) (l : list (nat * outcome)) : Prop :=
  match p with
  | R_Client n | R_Op _ n => length l = n ∧ (n <= 1)%nat ∧ Forall (λ x, x.2 = Transport) l
  | R_Drop c n _ => length l = S n ∧ (n <= 1)%nat ∧ Forall (λ x, x.2 = Transport) l ∧ last l = Some (c, Transport)
  | R_Close c (Some n) => length l = n ∧ (n <= 1)%nat ∧ Forall (λ x, x.2 = Transport) l
  | R_Close _ None | R_Return => tried l
  end.

Lemma done_tried p l : done_ops p l → tried l.
Proof.
  assert (Hrev : ∀ l, (length l <= 2)%nat → Forall (λ x, x.2 = Transport) l → tried l).
  { intros l' Hl Hall. split; [done|]. intros a b ->. by inv Hall. }
  destruct p as [n|c n|c n b|c [n|]|]; cbn; [..|done|done]; intros; destruct_and?; apply Hrev; done || lia.
Qed.

(** A client some operation failed on other than by the server's answer. *)
Definition failed_on (c : nat) r : Prop := ∃ t l, rc_ops r !! t = Some l ∧ (c, Transport) ∈ l.

Record reconn_ok r : Prop := {
  ro_kept : ∀ c, (c < rc_next r)%nat → rc_cur r = Some c ∨ c ∈ rc_closed r ∨ ∃ t p, rc_threads r !! t = Some p ∧ closing c p;
  ro_ops : ∀ t, match rc_threads r !! t with Some p => done_ops p (default [] (rc_ops r !! t)) | None => rc_ops r !! t = None end;
  ro_why : ∀ c, c ∈ rc_closed r ∨ (∃ t p, rc_threads r !! t = Some p ∧ closing c p) → failed_on c r ∨ c ∈ rc_shut r }.

Lemma new_reconn_ok : reconn_ok newReconnSync.
Proof. split; cbn; [lia|by intros t; rewrite !lookup_empty|]. intros c [H|(t & p & H & _)]; [by apply elem_of_nil in H|by rewrite lookup_empty in H]. Qed.

(** Goroutine [t] moves on from [p] to [p']. *)
Lemma closing_goto c t p p' (m : gmap nat rpc) : m !! t = Some p → ¬ closing c p →
  (∃ u q, m !! u = Some q ∧ closing c q) → ∃ u q, <[t := p']> m !! u = Some q ∧ closing c q.
Proof. intros Ht Hn (u & q & Hu & Hq). exists u, q. rewrite lookup_insert_ne; [done|]. intros ->. congruence. Qed.

Lemma closing_new c t p p' (m : gmap nat rpc) : m !! t = p → (∀ q, p = Some q → ¬ closing c q) →
  (∃ u q, m !! u = Some q ∧ closing c q) → ∃ u q, <[t := p']> m !! u = Some q ∧ closing c q.
Proof. intros Ht Hn (u & q & Hu & Hq). exists u, q. rewrite lookup_insert_ne; [done|]. intros ->. rewrite Hu in Ht. by apply (Hn q). Qed.

Lemma closing_back c t p' (m : gmap nat rpc) : (∃ u q, <[t := p']> m !! u = Some q ∧ closing c q) → closing c p' ∨ ∃ u q, m !! u = Some q ∧ closing c q.
Proof. intros (u & q & Hu & Hq). apply lookup_insert_Some in Hu as [[<- <-]|[_ Hu]]; [by left|right; eauto]. Qed.

Lemma ops_goto t p' r r' : rc_threads r' = <[t := p']> (rc_threads r) → (∀ u, u ≠ t → rc_ops r' !! u = rc_ops r !! u) →
  done_ops p' (default [] (rc_ops r' !! t)) → reconn_ok r →
  ∀ u, match rc_threads r' !! u with Some p => done_ops p (default [] (rc_ops r' !! u)) | None => rc_ops r' !! u = None end.
Proof.
  intros Et Eo Hp Hok u. rewrite Et. destruct (decide (t = u)) as [<-|Hne]; [by rewrite lookup_insert_eq|]. rewrite lookup_insert_ne, Eo by done. apply Hok.
Qed.

Lemma failed_mono t l c r r' : rc_ops r' = <[t := default [] (rc_ops r !! t) ++ l]> (rc_ops r) → failed_on c r → failed_on c r'.
Proof.
  intros E (u & l' & Hu & Hl). destruct (decide (t = u)) as [->|Hne].
  - exists u, (default [] (rc_ops r !! u) ++ l). rewrite E, lookup_insert_eq, Hu. split; [done|]. cbn. apply elem_of_app. by left.
  - exists u, l'. by rewrite E, lookup_insert_ne.
Qed.

Lemma reconn_enter t r : rc_threads r !! t = None → reconn_ok r → reconn_ok (goto t (R_Client 0) r).
Proof.
  intros Ht Hok. pose proof Hok as [Hk Ho Hw]. split; cbn.
  - intros c Hc. destruct (Hk c Hc) as [|[|H]]; [auto..|]. right. right. eapply closing_new; [exact Ht|done|done].
  - refine (ops_goto t (R_Client 0) r (goto t (R_Client 0) r) _ _ _ Hok); [done|done|]. cbn. specialize (Ho t). rewrite Ht in Ho. rewrite Ho. cbn. auto.
  - intros c [H|H]; [apply Hw; auto|]. apply closing_back in H as [[]|H]. apply Hw. auto.
Qed.

Lemma reconn_shut t r : rc_threads r !! t = None → reconn_ok r → reconn_ok (Close_begin t r).
Proof.
  intros Ht Hok. pose proof Hok as [Hk Ho Hw]. assert (Hn : done_ops R_Return (default [] (rc_ops r !! t))) by (specialize (Ho t); rewrite Ht in Ho; rewrite Ho; apply tried_nil).
  unfold Close_begin. destruct (rc_cur r) as [c0|] eqn:Ec; split; cbn.
  - intros c Hc. destruct (Hk c Hc) as [[= ->]|[|H]]; [|auto|]; right; right; [exists t, (R_Close c None); by rewrite lookup_insert_eq|]. eapply closing_new; [exact Ht|done|done].
  - by refine (ops_goto t (R_Close c0 None) r (goto t (R_Close c0 None) r) _ _ _ Hok).
  - intros c [H|H]; [destruct (Hw c); [by left|by left|right; set_solver]|]. apply closing_back in H as [->|H]; [right; set_solver|]. destruct (Hw c); [by right|by left|right; set_solver].
  - intros c Hc. destruct (Hk c Hc) as [|[|H]]; [congruence|auto|]. right. right. eapply closing_new; [exact Ht|done|done].
  - by refine (ops_goto t R_Return r (goto t R_Return r) _ _ _ Hok).
  - intros c [H|H]; [apply Hw; auto|]. apply closing_back in H as [[]|H]. apply Hw. auto.
Qed.

(** A step that neither dials, forgets nor closes. *)
Lemma reconn_move t p p' r r' : rc_threads r !! t = Some p → reconn_ok r → (∀ c, ¬ closing c p) → (∀ c, ¬ closing c p') →
  rc_cur r' = rc_cur r → rc_next r' = rc_next r → rc_closed r' = rc_closed r → rc_shut r' = rc_shut r → rc_threads r' = <[t := p']> (rc_threads r) →
  (∃ l, rc_ops r' = <[t := default [] (rc_ops r !! t) ++ l]> (rc_ops r)) ∨ rc_ops r' = rc_ops r → done_ops p' (default [] (rc_ops r' !! t)) → reconn_ok r'.
Proof.
  intros Ht Hok Hp Hp' Ec En Ecl Es Et Eo Hd. pose proof Hok as [Hk Ho Hw].
  assert (Hf : ∀ c, failed_on c r → failed_on c r') by (intros c H; destruct Eo as [[l E]|E]; [by eapply failed_mono|unfold failed_on in *; by rewrite E]). split.
  - rewrite Ec, En, Ecl, Et. intros c Hc. destruct (Hk c Hc) as [|[|H]]; [auto..|]. right. right. by eapply closing_goto.
  - eapply ops_goto; [done| |done|done]. intros u Hu. destruct Eo as [[l E]|E]; rewrite E; [by rewrite lookup_insert_ne|done].
  - rewrite Ecl, Es, Et. intros c H. assert (H' : failed_on c r ∨ c ∈ rc_shut r); [|destruct H'; auto]. apply Hw. destruct H as [H|H]; [auto|]. apply closing_back in H as [H|H]; [by destruct (Hp' c)|auto].
Qed.

Lemma reconn_dial t n ok r : rc_threads r !! t = Some (R_Client n) → reconn_ok r →
  reconn_ok (let '(r, c) := client ok r in match c with Some c => goto t (R_Op c n) r | None => goto t R_Return r end).
Proof.
  intros Ht Hok. pose proof Hok as [Hk Ho Hw]. pose proof (Ho t) as Hot. rewrite Ht in Hot. cbn in Hot. destruct Hot as (Hl & Hn & Hall). unfold client. destruct (rc_cur r) as [c0|] eqn:Ec.
  - eapply (reconn_move t _ (R_Op c0 n)); [exact Ht|exact Hok|by intros c []|by intros c []|done..|by right|by split_and!].
  - assert (Htr : tried (default [] (rc_ops r !! t))).
    { destruct (default [] (rc_ops r !! t)) as [|x l _] using rev_ind; [apply tried_nil|]. rewrite length_app in Hl. cbn in Hl. apply Forall_app in Hall as [Hall _]. apply tried_all; [lia|done]. }
    destruct ok; [|eapply (reconn_move t _ R_Return); [exact Ht|exact Hok|by intros c []|by intros c []|done..|by right|done]]. split; cbn.
    + intros c Hc. destruct (decide (c = rc_next r)) as [->|Hne]; [by left|]. destruct (Hk c) as [|[|H]]; [lia|congruence|auto|]. right. right. eapply closing_goto; [exact Ht|by intros []|done].
    + by refine (ops_goto t (R_Op (rc_next r) n) r (goto t (R_Op (rc_next r) n) r) _ _ _ Hok).
    + intros c [H|H]; [apply Hw; auto|]. apply closing_back in H as [[]|H]. apply Hw. auto.
Qed.

Lemma log_lookup t c o r : default [] (rc_ops (log_op t c o r) !! t) = default [] (rc_ops r !! t) ++ [(c, o)].
Proof. cbn. by rewrite lookup_insert_eq. Qed.

Lemma returns_not o cancelled : returns f o cancelled = false → o = Transport.
Proof. unfold returns. destruct f, o, cancelled; done. Qed.

Lemma reconn_op t c n o cancelled r : rc_threads r !! t = Some (R_Op c n) → reconn_ok r →
  reconn_ok (if returns f o cancelled then goto t R_Return (log_op t c o r) else goto t (R_Drop c n cancelled) (log_op t c o r)).
Proof.
  intros Ht Hok. pose proof (ro_ops _ Hok t) as Hot. rewrite Ht in Hot. destruct Hot as (Hl & Hn & Hall). destruct (returns f o cancelled) eqn:Er.
  - eapply (reconn_move t _ R_Return); [exact Ht|exact Hok|by intros ? []|by intros ? []|done..|left; by exists [(c, o)]|]. change (rc_ops (goto t R_Return (log_op t c o r))) with (rc_ops (log_op t c o r)). rewrite log_lookup. apply tried_all; [lia|done].
  - apply returns_not in Er as ->. eapply (reconn_move t _ (R_Drop c n cancelled)); [exact Ht|exact Hok|by intros ? []|by intros ? []|done..|left; by exists [(c, Transport)]|].
    change (rc_ops (goto t (R_Drop c n cancelled) (log_op t c Transport r))) with (rc_ops (log_op t c Transport r)). rewrite log_lookup. cbn.
    split_and!; [rewrite length_app; cbn; lia|done|apply Forall_app; by repeat constructor|by rewrite last_snoc].
Qed.

Lemma reconn_drop t c n cancelled r : rc_threads r !! t = Some (R_Drop c n cancelled) → reconn_ok r →
  reconn_ok (goto t (R_Close c (if gives_up f n cancelled then None else Some (S n))) (forget c r)).
Proof.
  intros Ht Hok. pose proof Hok as [Hk Ho Hw]. pose proof (Ho t) as Hot. rewrite Ht in Hot. destruct Hot as (Hl & Hn & Hall & Hlast). set (nx := if gives_up f n cancelled then None else Some (S n)).
  assert (Hfail : failed_on c r). { destruct (rc_ops r !! t) as [l|] eqn:E; [|done]. exists t, l. split; [done|]. cbn in Hlast. apply last_Some in Hlast as [l' ->]. set_solver. }
  assert (Hd : done_ops (R_Close c nx) (default [] (rc_ops r !! t))).
  { assert (Htr : tried (default [] (rc_ops r !! t))).
    { apply last_Some in Hlast as [l' El]. rewrite El in *. rewrite length_app in Hl. cbn in Hl. apply Forall_app in Hall as [Hall _]. apply tried_all; [lia|done]. }
    unfold nx, gives_up. destruct f, cancelled; repeat case_bool_decide; cbn; try done; split_and!; try done; lia. }
  split; cbn.
  - intros c' Hc. destruct (decide (c' = c)) as [->|Hne]; [right; right; exists t, (R_Close c nx); by rewrite lookup_insert_eq|]. destruct (Hk c' Hc) as [H|[H|H]]; [|auto|].
    + left. rewrite decide_False; [done|]. congruence.
    + right. right. eapply closing_goto; [exact Ht|by intros []|done].
  - by refine (ops_goto t (R_Close c nx) r (goto t (R_Close c nx) r) _ _ _ Hok).
  - intros c' [H|H]; [apply Hw; auto|]. apply closing_back in H as [H|H]; [cbn in H; subst c'; by left|]. apply Hw. auto.
Qed.

Lemma reconn_close t c nx r : rc_threads r !! t = Some (R_Close c nx) → reconn_ok r →
  reconn_ok (goto t (match nx with Some n => R_Client n | None => R_Return end) (close_client c r)).
Proof.
  intros Ht Hok. pose proof Hok as [Hk Ho Hw]. pose proof (Ho t) as Hot. rewrite Ht in Hot. set (p' := match nx with Some n => R_Client n | None => R_Return end).
  assert (Hn : ∀ c, ¬ closing c p') by (unfold p'; destruct nx; by intros ? []). split; cbn.
  - intros c' Hc. destruct (Hk c' Hc) as [|[H|H]]; [auto|right; left; set_solver|]. destruct (decide (c' = c)) as [->|Hne]; [right; left; set_solver|].
    right. right. eapply closing_goto; [exact Ht|cbn; congruence|done].
  - refine (ops_goto t p' r (goto t p' r) _ _ _ Hok); [done|done|]. cbn. unfold p'. by destruct nx.
  - intros c' [H|H]; [|apply closing_back in H as [H|H]; [by destruct (Hn c')|apply Hw; auto]]. apply elem_of_app in H as [H|H%list_elem_of_singleton]; [apply Hw; auto|subst c'].
    apply Hw. right. exists t, (R_Close c nx). done.
Qed.

Lemma reconn_reach_ok r : reconn_reach f r → reconn_ok r.
Proof.
  intros H. pose proof new_reconn_ok as H0. unfold reconn_reach in H. revert H0. induction H as [|r0 r1 r2 Hs _ IH]; [done|]. intros H0. apply IH. clear IH.
  destruct Hs as [t r Ht|t r Ht|t i r r' Hs]; [by apply reconn_enter|by apply reconn_shut|]. unfold do_step in Hs.
  destruct (rc_threads r !! t) as [[n|c n|c n b|c nx|]|] eqn:Ht, i as [ok|o b'|]; try done.
  - pose proof (reconn_dial t n ok r Ht H0) as Hd. destruct (client ok r) as [r1' c]. by injection Hs as <-.
  - injection Hs as <-. by apply reconn_op.
  - injection Hs as <-. by apply reconn_drop.
  - injection Hs as <-. by apply reconn_close.
Qed.

(** Redialling neither leaks nor cuts connections short: however the
    operations of many goroutines interleave on the shared client, each is tried
    at most twice and again only after a failure the server did not answer; a
    connection is closed only when an operation on it failed like that or on
    [Close]; and every connection dialled and no longer current is closed or in
    the hands of a goroutine about to close it, so when none is running all but
    the current one are closed. *)
Theorem reconn_sound r : reconn_reach f r →
  (∀ t l, rc_ops r !! t = Some l → (length l <= 2)%nat ∧ ∀ a b, l = [a; b] → a.2 = Transport) ∧
  (∀ c, c ∈ rc_closed r → failed_on c r ∨ c ∈ rc_shut r) ∧
  ((∀ t p, rc_threads r !! t = Some p → p = R_Return) → ∀ c, (c < rc_next r)%nat → rc_cur r = Some c ∨ c ∈ rc_closed r).
Proof.
  intros Hr%reconn_reach_ok. destruct Hr as [Hk Ho Hw]. split_and!.
  - intros t l Hl. specialize (Ho t). rewrite Hl in Ho. cbn in Ho. destruct (rc_threads r !! t) as [p|]; [|done]. by apply done_tried in Ho.
  - intros c Hc. apply Hw. by left.
  - intros Hq c Hc. destruct (Hk c Hc) as [|[|(t & p & Ht & Hp)]]; [auto..|]. rewrite (Hq t p Ht) in Hp. destruct Hp.
Qed.
End Facts.

(** The registry keeps a client its caller gave up on; the runner drops it. *)
Theorem cancelled_keeps_client c n o r t :
  rc_threads r !! t = Some (R_Op c n) → ∃ r', do_step Registry t (InOutcome o true) r = Some r' ∧ rc_threads r' !! t = Some R_Return ∧ rc_cur r' = rc_cur r ∧ rc_closed r' = rc_closed r.
Proof. intros H. unfold do_step. rewrite H. eexists. split; [done|]. unfold returns. rewrite orb_true_r. split_and!; [cbn; by rewrite lookup_insert_eq|done..]. Qed.

(** ** Witness *)

(** Two goroutines share a client that breaks; both redial. *)
Definition shared_run : list (nat * rinput) :=
  [(1, InDial true); (2, InDial true); (1, InOutcome Transport false); (1, InNone); (2, InOutcome Transport false); (1, InNone); (1, InDial true); (2, InNone);
   (2, InNone); (2, InDial true); (1, InOutcome Success false); (2, InOutcome Verdict false)]%nat.

Fixpoint run_do (f : flavour) (l : list (nat * rinput)) (r : reconnSync) : option reconnSync :=
  match l with [] => Some r | (t, i) :: l => match do_step f t i r with Some r => run_do f l r | None => None end end.

Lemma run_do_steps f l : ∀ r r', run_do f l r = Some r' → rtc (reconn_step f) r r'.
Proof.
  induction l as [|[t i] l IH]; intros r r'; cbn; [by intros [= ->]|]. destruct (do_step f t i r) as [r1|] eqn:E; [|done]. intros H%IH. eapply rtc_l; [by eapply rs_go|done].
Qed.

Definition two_in : reconnSync := goto 2 (R_Client 0) (goto 1 (R_Client 0) newReconnSync).
Definition shared_end : reconnSync := default newReconnSync (run_do Registry shared_run two_in).

Lemma shared_reach : reconn_reach Registry shared_end.
Proof.
  assert (H : run_do Registry shared_run two_in = Some shared_end) by (vm_compute; reflexivity). eapply rtc_l; [by apply (rs_do _ 1%nat)|]. eapply rtc_l; [by apply (rs_do _ 2%nat)|].
  by eapply run_do_steps.
Qed.

Lemma reconn_sound_witness : rc_cur shared_end = Some 1%nat ∧ failed_on 0 shared_end ∧ (rc_cur shared_end = Some 0%nat ∨ 0%nat ∈ rc_closed shared_end).
Proof.
  destruct (reconn_sound Registry shared_end shared_reach) as (_ & Hc & Hq). split; [vm_compute; reflexivity|]. split.
  - destruct (Hc 0%nat) as [H|H]; [vm_compute; left|exact H|]. change (rc_shut shared_end) with (@nil nat) in H. apply elem_of_nil in H. destruct H.
  - apply Hq; [|vm_compute; lia]. intros t p Ht. assert (H : map_Forall (λ _ p, p = R_Return) (rc_threads shared_end)) by (apply map_Forall_to_list; vm_compute; repeat constructor). exact (H t p Ht).
Defined.
