(* ===== verification/LogTracker.v ===== *)
(** * Following logs in the terminal (src/clientcli/logtracker.go, watchview.go, liveview.go)

    The bytes of a node's log as permanent lines, the set of nodes whose logs
    are followed, and the block of progress lines that is redrawn in place. *)
From S2P Require Import Prelude GoLib Keys Wire LogBuf SchedState Submit.
From Stdlib Require Import Ascii.
Local Open Scope list_scope.

(** ** Lines *)

Definition nl : ascii := "010"%char.
Definition cr : ascii := "013"%char.

(** [bytes.IndexByte] and the two sides of it. *)
Fixpoint cut_nl (b : bytes) : option (bytes * bytes) :=
  match b with
  | [] => None
  | a :: b => if ascii_dec a nl then Some ([], b) else match cut_nl b with Some (x, y) => Some (a :: x, y) | None => None end
  end.

(** [bytes.TrimSuffix(line, "\r")]. *)
Definition trim_cr (b : bytes) : bytes := match rev b with a :: r => if ascii_dec a cr then rev r else b | [] => b end.

(** What is printed: a line of the node's output, the mark of a gap, the mark of
    a retried attempt, or that more nodes are active than are followed. *)
Inductive printed := Line (b : bytes) | Gap (n : Z) | Retried (gen : Z) | Unavailable | CapNote.

Record logPrinter := mkPrinter { lp_out : list printed; lp_pending : bytes }.

Definition lp_println (b : bytes) (p : logPrinter) : logPrinter := mkPrinter (lp_out p ++ [Line (trim_cr b)]) (lp_pending p).
Definition lp_note (x : printed) (p : logPrinter) : logPrinter := mkPrinter (lp_out p ++ [x]) (lp_pending p).
Definition set_pending (b : bytes) (p : logPrinter) : logPrinter := mkPrinter (lp_out p) b.

(** The loop of [write]; every turn takes a byte at least off the pending ones. *)
Fixpoint write_loop (fuel : nat) (p : logPrinter) : logPrinter :=
  match fuel with
  | O => p
  | S fuel => match cut_nl (lp_pending p) with None => p | Some (line, rest) => write_loop fuel (set_pending rest (lp_println line p)) end
  end.

Definition lp_write (data : bytes) (p : logPrinter) : logPrinter :=
  let p := set_pending (lp_pending p ++ data) p in write_loop (S (length (lp_pending p))) p.

Definition lp_flush (p : logPrinter) : logPrinter :=
  match lp_pending p with [] => p | b => set_pending [] (lp_println b p) end.

(** The stored part of a log (api.go). *)
Record LogView := mkView { lv_Gen : Z; lv_Head : bytes; lv_GapSize : Z; lv_Tail : bytes }.

Definition printView (v : LogView) (p : logPrinter) : logPrinter :=
  let p := lp_write (lv_Head v) p in
  let p := if (0 <? lv_GapSize v)%Z then lp_note (Gap (lv_GapSize v)) (lp_flush p) else p in
  lp_write (lv_Tail v) p.

(** ** A follower *)

(** One chunk of the stream; the second component is the attempt shown. *)
Definition follow_chunk (st : logPrinter * Z) (c : LogChunk) : logPrinter * Z :=
  let '(p, gen) := st in
  if (lc_Gen c <? gen)%Z then (p, gen)
  else
    let '(p, gen) :=
      if (gen <? lc_Gen c)%Z then (if (0 <? gen)%Z then lp_note (Retried (lc_Gen c)) (lp_flush p) else p, lc_Gen c) else (p, gen) in
    (lp_write (lc_Data c) p, gen).

(** [runFollower]: the view, the chunks until the stream ends, the last line. *)
Definition runFollower (opened : option LogView) (cancelled : bool) (chunks : list LogChunk) : list printed :=
  match opened with
  | None => if cancelled then [] else [Unavailable]
  | Some v => lp_out (lp_flush (foldl follow_chunk (printView v (mkPrinter [] []), lv_Gen v) chunks).1)
  end.

(** ** What a follower shows *)

(** The lines of a text: split at newlines, an empty last part left out. *)
Fixpoint text_lines (cur : bytes) (b : bytes) : list bytes :=
  match b with
  | [] => match cur with [] => [] | _ => [cur] end
  | a :: b => if ascii_dec a nl then cur :: text_lines [] b else text_lines (cur ++ [a]) b
  end.

Definition show (b : bytes) : list printed := (λ l, Line (trim_cr l)) <$> text_lines [] b.

(** The output of the attempts shown, one after the other: each is the text of
    its chunks. Chunks of an older attempt are left out; text that came before
    any attempt was known belongs to the first. *)
Fixpoint show_attempts (gen : Z) (text : bytes) (chunks : list LogChunk) : list printed :=
  match chunks with
  | [] => show text
  | c :: chunks =>
      if (lc_Gen c <? gen)%Z then show_attempts gen text chunks
      else if (gen <? lc_Gen c)%Z && (0 <? gen)%Z then show text ++ Retried (lc_Gen c) :: show_attempts (lc_Gen c) (lc_Data c) chunks
      else show_attempts (lc_Gen c) (text ++ lc_Data c) chunks
  end.

Definition show_log (v : LogView) (chunks : list LogChunk) : list printed :=
  if (0 <? lv_GapSize v)%Z then show (lv_Head v) ++ Gap (lv_GapSize v) :: show_attempts (lv_Gen v) (lv_Tail v) chunks
  else show_attempts (lv_Gen v) (lv_Head v ++ lv_Tail v) chunks.

(** The printer holds a text: what it has printed after [base] are the complete
    lines of it, and the rest is pending. *)
Fixpoint complete_lines (cur : bytes) (b : bytes) : list bytes * bytes :=
  match b with
  | [] => ([], cur)
  | a :: b => if ascii_dec a nl then let '(ls, r) := complete_lines [] b in (cur :: ls, r) else complete_lines (cur ++ [a]) b
  end.

Definition holds (base : list printed) (text : bytes) (p : logPrinter) : Prop :=
  lp_out p = base ++ ((λ l, Line (trim_cr l)) <$> (complete_lines [] text).1) ∧ lp_pending p = (complete_lines [] text).2.

Lemma complete_lines_app a : ∀ cur b, complete_lines cur (a ++ b) =
  let '(ls, r) := complete_lines cur a in let '(ls', r') := complete_lines r b in (ls ++ ls', r').
Proof.
  induction a as [|x a IH]; intros cur b; cbn; [by destruct (complete_lines cur b)|]. destruct (ascii_dec x nl); [|apply IH]. rewrite IH.
  destruct (complete_lines [] a) as [ls r]. by destruct (complete_lines r b).
Qed.

Lemma complete_cut b : ∀ cur, complete_lines cur b = match cut_nl b with None => ([], cur ++ b) | Some (x, y) => ((cur ++ x) :: (complete_lines [] y).1, (complete_lines [] y).2) end.
Proof.
  induction b as [|a b IH]; intros cur; cbn; [by rewrite app_nil_r|]. destruct (ascii_dec a nl); [rewrite app_nil_r; by destruct (complete_lines [] b)|].
  rewrite IH. destruct (cut_nl b) as [[x y]|]; by rewrite <- (assoc_L (++)).
Qed.

Lemma cut_shorter b x y : cut_nl b = Some (x, y) → (length y < length b)%nat.
Proof. revert x y. induction b as [|a b IH]; intros x y; cbn; [done|]. destruct (ascii_dec a nl); [intros [= _ <-]; lia|]. destruct (cut_nl b) as [[x' y']|]; [|done]. intros [= _ <-]. specialize (IH _ _ eq_refl). lia. Qed.

Lemma write_loop_spec fuel : ∀ p, (length (lp_pending p) < fuel)%nat →
  write_loop fuel p = mkPrinter (lp_out p ++ ((λ l, Line (trim_cr l)) <$> (complete_lines [] (lp_pending p)).1)) (complete_lines [] (lp_pending p)).2.
Proof.
  induction fuel as [|fuel IH]; intros p Hf; [lia|]. cbn [write_loop]. rewrite (complete_cut (lp_pending p)). destruct (cut_nl (lp_pending p)) as [[line rest]|] eqn:E.
  - rewrite IH; [|apply cut_shorter in E; cbn; lia]. cbn. by rewrite <- (assoc_L (++)).
  - cbn. rewrite app_nil_r. by destruct p.
Qed.

Lemma pending_plain text : ∀ cur, (complete_lines [] cur).1 = [] → complete_lines [] (complete_lines cur text).2 = ([], (complete_lines cur text).2).
Proof.
  induction text as [|a text IH]; intros cur Hc; cbn.
  - destruct (complete_lines [] cur) as [ls r] eqn:E. cbn in Hc. subst ls. f_equal. rewrite complete_cut in E. destruct (cut_nl cur) as [[x y]|]; [done|]. by injection E as <-.
  - destruct (ascii_dec a nl) as [Ha|Ha]; [destruct (complete_lines [] text) as [ls r] eqn:E; cbn; by specialize (IH [] eq_refl); rewrite E in IH|]. apply IH.
    rewrite complete_lines_app. destruct (complete_lines [] cur) as [ls r]. cbn in *. subst ls. by destruct (ascii_dec a nl).
Qed.

Lemma write_holds base text data p : holds base text p → holds base (text ++ data) (lp_write data p).
Proof.
  intros [Ho Hp]. unfold lp_write. rewrite write_loop_spec by (cbn; lia). unfold holds. cbn [lp_out lp_pending set_pending]. rewrite Ho, Hp, !complete_lines_app.
  pose proof (pending_plain text [] eq_refl) as Hpl. destruct (complete_lines [] text) as [ls r]. cbn in Hpl. cbn [fst snd]. rewrite Hpl. destruct (complete_lines r data) as [ls' r'].
  cbn. by rewrite fmap_app, (assoc_L (++)).
Qed.

Lemma text_complete b : ∀ cur, text_lines cur b = let '(ls, r) := complete_lines cur b in ls ++ match r with [] => [] | _ => [r] end.
Proof. induction b as [|a b IH]; intros cur; cbn; [done|]. destruct (ascii_dec a nl); [|apply IH]. rewrite IH. by destruct (complete_lines [] b). Qed.

Lemma flush_holds base text p : holds base text p → lp_flush p = mkPrinter (base ++ show text) [].
Proof.
  intros [Ho Hp]. unfold lp_flush, show. rewrite text_complete. destruct (complete_lines [] text) as [ls r]. cbn in *. rewrite Hp. destruct r as [|a r].
  - rewrite app_nil_r. destruct p. cbn in *. by subst.
  - unfold set_pending, lp_println. cbn [lp_out lp_pending]. by rewrite Ho, fmap_app, (assoc_L (++)).
Qed.

Lemma holds_start base p : lp_out p = base → lp_pending p = [] → holds base [] p.
Proof. intros <- Hp. split; cbn; [by rewrite app_nil_r|done]. Qed.

Lemma follow_shows chunks : ∀ base text p gen, holds base text p →
  lp_out (lp_flush (foldl follow_chunk (p, gen) chunks).1) = base ++ show_attempts gen text chunks.
Proof.
  induction chunks as [|c chunks IH]; intros base text p gen H; cbn [foldl show_attempts]; [cbn; by rewrite (flush_holds _ _ _ H)|]. cbn [follow_chunk].
  destruct (lc_Gen c <? gen)%Z eqn:El; [by apply IH|]. destruct (gen <? lc_Gen c)%Z eqn:Eg; cbn [andb].
  - destruct (0 <? gen)%Z; cbn [andb]; [|by apply IH, write_holds]. rewrite (flush_holds _ _ _ H). rewrite (IH ((base ++ show text) ++ [Retried (lc_Gen c)]) (lc_Data c)).
    + by rewrite <- !(assoc_L (++)).
    + apply (write_holds _ []). by apply holds_start.
  - assert (lc_Gen c = gen) as -> by lia. by apply IH, write_holds.
Qed.

(** What a follower prints does not depend on how the output was cut into
    chunks: it is the lines of the stored head and tail, with the mark of a gap
    between them, and of the text of each attempt in turn, marked where one
    follows another; chunks of attempts that were given up are left out. *)
Theorem follower_exact v chunks : runFollower (Some v) false chunks = show_log v chunks.
Proof.
  unfold runFollower, printView, show_log. pose proof (write_holds [] [] (lv_Head v) (mkPrinter [] []) (holds_start [] (mkPrinter [] []) eq_refl eq_refl)) as Hh. cbn [app] in Hh.
  destruct (0 <? lv_GapSize v)%Z.
  - rewrite (flush_holds _ _ _ Hh). rewrite (follow_shows chunks (show (lv_Head v) ++ [Gap (lv_GapSize v)]) (lv_Tail v)); [by rewrite <- (assoc_L (++))|].
    apply (write_holds _ []). by apply holds_start.
  - rewrite (follow_shows chunks [] (lv_Head v ++ lv_Tail v)); [done|]. by apply write_holds.
Qed.

(** ** The followers of a watch *)

Definition isActivePhase (p : phase) : bool := match p with PhaseQueued | PhaseRunning | PhasePublishing => true | _ => false end.

Definition maxFollowNodes : nat := 8.

Record logTracker := mkTracker {
  lt_active : gset string; lt_labels : gmap string string; lt_followed : gset string; lt_closed : bool; lt_capNoted : bool;
  lt_stopping : list string }.

Definition newLogTracker : logTracker := mkTracker ∅ ∅ ∅ false false [].

Definition followLocked (node : string) (t : logTracker) : logTracker :=
  mkTracker ({[node]} ∪ lt_active t) (lt_labels t) ({[node]} ∪ lt_followed t) (lt_closed t) (lt_capNoted t) (lt_stopping t).

Definition note_cap (t : logTracker) : logTracker := mkTracker (lt_active t) (lt_labels t) (lt_followed t) (lt_closed t) true (lt_stopping t).

Definition active_nodes (nodes : list NodeSnap) : gset string := list_to_set (ns_Node <$> List.filter (λ n, isActivePhase (ns_Phase n)) nodes).

Definition add_labels (nodes : list NodeSnap) (m : gmap string string) : gmap string string :=
  foldl (λ m n, if String.eqb (ns_Label n) "" then m else <[ns_Node n := ns_Label n]> m) m nodes.

(** One pass over the snapshot, for running nodes or for the others. *)
Fixpoint sync_pass (runningPass : bool) (active : gset string) (nodes : list NodeSnap) (t : logTracker) (slots : nat) : logTracker * nat :=
  match nodes with
  | [] => (t, slots)
  | n :: nodes =>
      if negb (bool_decide (ns_Node n ∈ active)) || negb (Bool.eqb (bool_decide (ns_Phase n = PhaseRunning)) runningPass) || bool_decide (ns_Node n ∈ lt_active t)
      then sync_pass runningPass active nodes t slots
      else if bool_decide (maxFollowNodes <= slots)%nat then sync_pass runningPass active nodes (note_cap t) slots
      else sync_pass runningPass active nodes (followLocked (ns_Node n) t) (S slots)
  end.

Definition sync (snap : Snapshot) (t : logTracker) : logTracker :=
  if lt_closed t then t
  else
    let nodes := sn_Nodes snap in
    let active := active_nodes nodes in
    let keep := lt_active t ∩ active in
    let t := mkTracker keep (add_labels nodes (lt_labels t)) (lt_followed t) false (lt_capNoted t) (lt_stopping t ++ elements (lt_active t ∖ active)) in
    let '(t, slots) := sync_pass true active nodes t (size keep) in
    (sync_pass false active nodes t slots).1.

Definition lt_close (t : logTracker) : logTracker :=
  if lt_closed t then t else mkTracker ∅ (lt_labels t) (lt_followed t) true (lt_capNoted t) (lt_stopping t ++ elements (lt_active t)).

Definition streamedNodes (t : logTracker) : gset string := lt_followed t.

(** The nodes a pass is about. *)
Definition pass_node (pass : bool) (active : gset string) (nodes : list NodeSnap) (name : string) : Prop :=
  ∃ n, n ∈ nodes ∧ ns_Node n = name ∧ name ∈ active ∧ bool_decide (ns_Phase n = PhaseRunning) = pass.

Record passed (pass : bool) (active : gset string) (nodes : list NodeSnap) (t t' : logTracker) : Prop := {
  pa_more : lt_active t ⊆ lt_active t';
  pa_only : ∀ x, x ∈ lt_active t' → x ∈ lt_active t ∨ pass_node pass active nodes x;
  pa_cap : (size (lt_active t) <= maxFollowNodes)%nat → (size (lt_active t') <= maxFollowNodes)%nat;
  pa_all : ∀ x, pass_node pass active nodes x → x ∈ lt_active t' ∨ (maxFollowNodes <= size (lt_active t'))%nat }.

Lemma sync_pass_spec pass active nodes : ∀ t slots t' slots', slots = size (lt_active t) → sync_pass pass active nodes t slots = (t', slots') →
  slots' = size (lt_active t') ∧ passed pass active nodes t t'.
Proof.
  induction nodes as [|n nodes IH]; intros t slots t' slots' Hs; cbn [sync_pass].
  - intros [= <- <-]. split; [done|]. split; [done|by left|done|]. intros x (m & Hm & _). by apply elem_of_nil in Hm.
  - assert (Hsplit : ∀ x, pass_node pass active (n :: nodes) x → (ns_Node n = x ∧ x ∈ active ∧ bool_decide (ns_Phase n = PhaseRunning) = pass) ∨ pass_node pass active nodes x).
    { intros x (m & Hm & Hx & Ha & Hp). apply elem_of_cons in Hm as [->|Hm]; [by left|right; by exists m]. }
    assert (Hmore : ∀ x, pass_node pass active nodes x → pass_node pass active (n :: nodes) x) by (intros x (m & Hm & H); exists m; split; [by right|done]).
    destruct (_ || _) eqn:Eskip; [|destruct (bool_decide (maxFollowNodes <= slots)%nat) eqn:Ecap].
    + intros [Hs' [H1 H2 H3 H4]]%IH; [|done]. split; [done|]. split; [done|intros x [|]%H2; auto|done|]. intros x [(Hx & Ha & Hp)|]%Hsplit; [|auto].
      rewrite Hx, bool_decide_eq_true_2, Hp, eqb_reflx in Eskip by done. cbn in Eskip. apply bool_decide_eq_true in Eskip. left. by apply H1.
    + apply bool_decide_eq_true in Ecap. intros [Hs' [H1 H2 H3 H4]]%IH; [|done]. split; [done|]. split; [done|intros x [|]%H2; auto|done|]. intros x [(Hx & Ha & Hp)|]%Hsplit; [|auto].
      right. cbn in H1. apply subseteq_size in H1. lia.
    + apply bool_decide_eq_false in Ecap. apply orb_false_iff in Eskip as [[Ea Ep]%orb_false_iff Ein]. apply negb_false_iff, bool_decide_eq_true in Ea. apply negb_false_iff, eqb_prop in Ep. apply bool_decide_eq_false in Ein.
      assert (Esz : size (lt_active (followLocked (ns_Node n) t)) = S (size (lt_active t))) by (cbn; rewrite size_union, size_singleton by set_solver; done).
      intros [Hs' [H1 H2 H3 H4]]%IH; [|by rewrite Esz, Hs]. split; [done|]. cbn in H1. split; [set_solver| | |].
      * intros x [Hx|Hx]%H2; [|auto]. cbn in Hx. apply elem_of_union in Hx as [Hx%elem_of_singleton|Hx]; [|by left]. subst x. right. exists n. split_and!; [left|done..].
      * intros _. apply H3. rewrite Esz. lia.
      * intros x [(Hx & _)|]%Hsplit; [|auto]. left. apply H1. set_solver.
Qed.

Definition running_nodes (nodes : list NodeSnap) (x : string) : Prop := ∃ n, n ∈ nodes ∧ ns_Node n = x ∧ ns_Phase n = PhaseRunning.

Lemma elem_active nodes x : x ∈ active_nodes nodes ↔ ∃ n, n ∈ nodes ∧ ns_Node n = x ∧ isActivePhase (ns_Phase n) = true.
Proof.
  unfold active_nodes. rewrite elem_of_list_to_set, list_elem_of_fmap. setoid_rewrite list_elem_of_In. setoid_rewrite filter_In. naive_solver.
Qed.

(** One snapshot: at most eight nodes are followed, all of them active; a node
    that is still active stays followed; one that is not is stopped; an active
    node is left out only when all slots are taken, and a running one only when
    no slot went to a node that is not running. *)
Theorem sync_exact snap t :
  lt_closed t = false → (size (lt_active t) <= maxFollowNodes)%nat →
  let t' := sync snap t in let act := active_nodes (sn_Nodes snap) in
  (size (lt_active t') <= maxFollowNodes)%nat ∧ lt_active t ∩ act ⊆ lt_active t' ∧ lt_active t' ⊆ act ∧
  (∀ x, x ∈ act → x ∈ lt_active t' ∨ size (lt_active t') = maxFollowNodes) ∧
  (∀ x, running_nodes (sn_Nodes snap) x → x ∉ lt_active t' → ∀ y, y ∈ lt_active t' → y ∈ lt_active t ∨ running_nodes (sn_Nodes snap) y).
Proof.
  intros Hc Hsz. unfold sync. rewrite Hc. cbv zeta. set (act := active_nodes (sn_Nodes snap)). set (t0 := mkTracker _ _ _ _ _ _).
  destruct (sync_pass true act (sn_Nodes snap) t0 _) as [t1 s1] eqn:E1. destruct (sync_pass_spec _ _ _ t0 _ _ _ eq_refl E1) as [Hs1 [A1 B1 C1 D1]].
  destruct (sync_pass false act (sn_Nodes snap) t1 s1) as [t2 s2] eqn:E2. destruct (sync_pass_spec _ _ _ _ _ _ _ Hs1 E2) as [Hs2 [A2 B2 C2 D2]]. cbn [fst]. cbn in A1, B1, C1.
  assert (Hcap1 : (size (lt_active t1) <= maxFollowNodes)%nat) by (apply C1; transitivity (size (lt_active t)); [apply subseteq_size; set_solver|exact Hsz]). specialize (C2 Hcap1).
  assert (Hact : ∀ pass x, pass_node pass act (sn_Nodes snap) x → x ∈ act) by (by intros pass x (n & _ & _ & Ha & _)).
  assert (Hrun : ∀ x, pass_node true act (sn_Nodes snap) x ↔ running_nodes (sn_Nodes snap) x).
  { intros x. split; [intros (n & Hn & Hx & _ & Hp%bool_decide_eq_true); by exists n|]. intros (n & Hn & Hx & Hp). exists n. split_and!; [done..| |by apply bool_decide_eq_true]. apply elem_active. exists n. by rewrite Hp. }
  split_and!; [done|set_solver| | |].
  - intros x [Hx|Hx]%B2; [|by eapply Hact]. apply B1 in Hx as [Hx|Hx]; [set_solver|by eapply Hact].
  - intros x Hx. apply elem_active in Hx as Hx'. destruct Hx' as (n & Hn & Hnx & Hp). destruct (bool_decide (ns_Phase n = PhaseRunning)) eqn:Er.
    + destruct (D1 x) as [|H]; [by exists n|left; set_solver|]. right. apply subseteq_size in A2. lia.
    + destruct (D2 x) as [|H]; [by exists n|by left|]. right. lia.
  - intros x Hx Hnx y Hy. assert (Heq : lt_active t1 = lt_active t2).
    { apply set_subseteq_size_eq; [done|]. destruct (D1 x) as [H|H]; [by apply Hrun|by destruct Hnx; apply A2|lia]. }
    rewrite <- Heq in Hy. apply B1 in Hy as [Hy|Hy]; [left; set_solver|right; by apply Hrun].
Qed.

(** Whatever snapshots come, no more than eight streams are open. *)
Theorem follow_bounded snaps : ∀ t, (size (lt_active t) <= maxFollowNodes)%nat → (size (lt_active (foldl (λ t s, sync s t) t snaps)) <= maxFollowNodes)%nat.
Proof.
  induction snaps as [|s snaps IH]; intros t Ht; cbn; [done|]. apply IH. destruct (lt_closed t) eqn:Ec; [unfold sync; by rewrite Ec|]. by apply sync_exact.
Qed.
