(* ===== verification/LiveView.v ===== *)
(** * The live view of the command line (src/clientcli/liveview.go)

    A block of lines at the end of the terminal that is redrawn in place, below
    permanent lines. A terminal is its rows with the cursor at the start of a
    row; it is wide enough that a line of at most [width] characters stays on one
    row, and high enough that the block is on the screen. *)
From S2P Require Import Prelude GoLib.
Local Open Scope list_scope.

(** ** Truncating lines *)

Abbreviation rune := Z.
Definition ESC : rune := 27.
Definition ellipsis : rune := 8230.
(** [ESC [ 0 m] *)
Definition reset : list rune := [27; 91; 48; 109]%Z.

(** A final byte of a control sequence. *)
Definition is_final (r : rune) : bool := (0x40 <=? r)%Z && (r <=? 0x7e)%Z.

(** The runes after the introducer, up to and with the final byte. *)
Fixpoint csi_rest (r : list rune) : nat :=
  match r with [] => 0 | x :: r => if is_final x then 1 else S (csi_rest r) end.

(** [csiEnd] at the head of [r]: the length of the sequence. *)
Definition csiEnd (r : list rune) : option nat :=
  match r with
  | x :: y :: r => if (x =? ESC)%Z && (y =? 91)%Z then Some (2 + csi_rest r)%nat else None
  | _ => None
  end.

(** The loops go on from an index; here from the rest of the runes. *)
Fixpoint visible_from (fuel : nat) (r : list rune) : nat :=
  match fuel, r with
  | O, _ | _, [] => 0
  | S fuel, _ :: r' => match csiEnd r with Some j => visible_from fuel (drop j r) | None => S (visible_from fuel r') end
  end.

Definition visibleLen (r : list rune) : nat := visible_from (length r) r.

Fixpoint truncate_from (fuel : nat) (printed : nat) (limit : nat) (r : list rune) : list rune * bool :=
  match fuel, r with
  | O, _ | _, [] => ([], false)
  | S fuel, x :: r' =>
      if bool_decide (limit <= printed)%nat then ([], false)
      else match csiEnd r with
      | Some j => let '(b, _) := truncate_from fuel printed limit (drop j r) in (take j r ++ b, true)
      | None => let '(b, saw) := truncate_from fuel (S printed) limit r' in (x :: b, saw)
      end
  end.

Definition truncateLine (s : list rune) (width : Z) : list rune :=
  if (width <=? 0)%Z || (Z.of_nat (visibleLen s) <=? width)%Z then s
  else if (width =? 1)%Z then [ellipsis]
  else let '(b, sawCSI) := truncate_from (length s) 0 (Z.to_nat (width - 1)) s in b ++ [ellipsis] ++ (if sawCSI then reset else []).

(** ** Drawing *)

(** What is written to the terminal: a line and a newline, or up [n] rows and
    clear to the end. *)
Inductive write := WLine (l : list rune) | WErase (n : nat).

Record liveView := mkLive { v_isTTY : bool; v_width : Z; v_drawn : nat; v_written : list write }.

Definition emit (ws : list write) (v : liveView) : liveView := mkLive (v_isTTY v) (v_width v) (v_drawn v) (v_written v ++ ws).
Definition set_drawn (n : nat) (v : liveView) : liveView := mkLive (v_isTTY v) (v_width v) n (v_written v).

Definition Update (lines : list (list rune)) (v : liveView) : liveView :=
  if negb (v_isTTY v) then v
  else if bool_decide (v_drawn v = 0%nat) && bool_decide (lines = []) then v
  else set_drawn (length lines)
         (emit ((if bool_decide (0 < v_drawn v)%nat then [WErase (v_drawn v)] else []) ++ ((λ l, WLine (truncateLine l (v_width v))) <$> lines)) v).

Definition eraseLocked (v : liveView) : liveView :=
  if v_isTTY v && bool_decide (0 < v_drawn v)%nat then set_drawn 0 (emit [WErase (v_drawn v)] v) else v.

Definition Println (line : list rune) (v : liveView) : liveView := emit [WLine line] (eraseLocked v).

Definition Collapse (final : list rune) (v : liveView) : liveView :=
  let v := eraseLocked v in if bool_decide (final = []) then v else emit [WLine final] v.

(** ** The terminal *)

(** The rows above the cursor; writing happens at the end. *)
Definition screen_step (rows : list (list rune)) (w : write) : list (list rune) :=
  match w with WLine l => rows ++ [l] | WErase n => take (length rows - n) rows end.
Definition screen (ws : list write) : list (list rune) := foldl screen_step [] ws.

Inductive op := OUpdate (lines : list (list rune)) | OPrintln (line : list rune) | OCollapse (final : list rune).

Definition perform (v : liveView) (o : op) : liveView :=
  match o with OUpdate ls => Update ls v | OPrintln l => Println l v | OCollapse f => Collapse f v end.

(** What should be seen: the permanent lines, and the block. *)
Record seen := mkSeen { se_lines : list (list rune); se_block : list (list rune) }.

Definition see (tty : bool) (width : Z) (s : seen) (o : op) : seen :=
  match o with
  | OUpdate ls => if tty then mkSeen (se_lines s) ((λ l, truncateLine l width) <$> ls) else s
  | OPrintln l => mkSeen (se_lines s ++ [l]) []
  | OCollapse f => mkSeen (se_lines s ++ if bool_decide (f = []) then [] else [f]) []
  end.

Definition shows (v : liveView) (s : seen) : Prop :=
  screen (v_written v) = se_lines s ++ se_block s ∧ v_drawn v = length (se_block s) ∧ (v_isTTY v = false → se_block s = []).

Lemma screen_app a b : screen (a ++ b) = foldl screen_step (screen a) b.
Proof. unfold screen. apply foldl_app. Qed.

Lemma screen_lines rows ls : foldl screen_step rows (WLine <$> ls) = rows ++ ls.
Proof. revert rows. induction ls as [|l ls IH]; intros rows; cbn; [by rewrite app_nil_r|]. rewrite IH. by rewrite <- (assoc_L (++)). Qed.

Lemma take_all_but {A} (a b : list A) n : n = length b → take (length (a ++ b) - n) (a ++ b) = a.
Proof. intros ->. rewrite length_app. replace (length a + length b - length b)%nat with (length a) by lia. by rewrite take_app_length. Qed.

Lemma erase_shows v s : shows v s → shows (eraseLocked v) (mkSeen (se_lines s) []).
Proof.
  intros (Hs & Hd & Ht). unfold eraseLocked. destruct (v_isTTY v) eqn:Et; cbn [andb].
  - case_bool_decide as Hp.
    + unfold shows, emit, set_drawn. cbn [v_written v_drawn v_isTTY se_lines se_block]. rewrite screen_app, Hs, app_nil_r. cbn [foldl screen_step]. rewrite take_all_but by done. split_and!; done.
    + assert (se_block s = []) as Eb by (apply nil_length_inv; lia). unfold shows. rewrite Hs, Eb. split_and!; [done|cbn; rewrite Hd, Eb; done|done].
  - specialize (Ht eq_refl). unfold shows. rewrite Hs, Ht. split_and!; [done|by rewrite Hd, Ht|done].
Qed.

Lemma emit_line v s l : shows v (mkSeen (se_lines s) []) → shows (emit [WLine l] v) (mkSeen (se_lines s ++ [l]) []).
Proof. intros (Hs & Hd & _). unfold shows. cbn in *. rewrite screen_app, Hs. cbn. by rewrite !app_nil_r. Qed.

Lemma perform_shows v s o : shows v s → shows (perform v o) (see (v_isTTY v) (v_width v) s o) ∧ v_isTTY (perform v o) = v_isTTY v ∧ v_width (perform v o) = v_width v.
Proof.
  intros H. pose proof (erase_shows _ _ H) as He. assert (Ek : v_isTTY (eraseLocked v) = v_isTTY v ∧ v_width (eraseLocked v) = v_width v) by (unfold eraseLocked; by destruct (_ && _)).
  destruct o as [ls|l|f]; cbn [perform see].
  - destruct H as (Hs & Hd & Ht). unfold Update. destruct (v_isTTY v) eqn:Et; cbn [negb]; [|split; [split_and!; [done|done|by intros _; apply Ht]|by rewrite Et]]. destruct (bool_decide (v_drawn v = 0%nat) && bool_decide (ls = [])) eqn:E0.
    { apply andb_true_iff in E0 as [E1%bool_decide_eq_true ->%bool_decide_eq_true]. split; [|done]. assert (se_block s = []) as Eb by (apply nil_length_inv; lia).
      unfold shows. cbn. rewrite Hs, Eb. split_and!; done. }
    split; [|done]. unfold shows, emit, set_drawn. cbn [v_written v_drawn v_isTTY se_lines se_block]. rewrite screen_app, Hs, foldl_app. set (base := foldl screen_step (se_lines s ++ se_block s) _). assert (Eb : base = se_lines s).
    { unfold base. clear E0. destruct (decide (0 < v_drawn v)%nat) as [Hp|Hp]; [rewrite bool_decide_eq_true_2 by done|rewrite bool_decide_eq_false_2 by done]; cbn [foldl screen_step].
      - by apply take_all_but.
      - assert (se_block s = []) as -> by (apply nil_length_inv; lia). by rewrite app_nil_r. }
    rewrite Eb. pose proof (screen_lines (se_lines s) ((λ l, truncateLine l (v_width v)) <$> ls)) as Hl. rewrite <- list_fmap_compose in Hl. rewrite length_fmap. split_and!; [exact Hl|done|congruence].
  - unfold Println. split; [|done]. by apply emit_line.
  - unfold Collapse. cbv zeta. case_bool_decide; [by rewrite app_nil_r|]. split; [|done]. by apply emit_line.
Qed.

(** Whatever is printed and redrawn, in whatever order, the terminal shows the
    permanent lines in order and below them the last block, nothing else. *)
Theorem live_view_refines tty width ops :
  let v := foldl perform (mkLive tty width 0 []) ops in let s := foldl (see tty width) (mkSeen [] []) ops in
  screen (v_written v) = se_lines s ++ se_block s.
Proof.
  assert (H : ∀ v s, shows v s → v_isTTY v = tty → v_width v = width → shows (foldl perform v ops) (foldl (see tty width) s ops)).
  { induction ops as [|o ops IH]; intros v s Hs Et Ew; cbn; [done|]. destruct (perform_shows v s o Hs) as (H1 & H2 & H3). rewrite Et, Ew in H1. apply IH; [done|congruence..]. }
  apply (H _ (mkSeen [] [])); [|done..]. by split_and!.
Qed.

(** ** Truncated lines fit *)

Lemma csi_rest_le r : (csi_rest r <= length r)%nat.
Proof. induction r as [|x r IH]; cbn; [lia|]. destruct (is_final x); cbn; lia. Qed.

Lemma csiEnd_bounds r j : csiEnd r = Some j → (2 <= j <= length r)%nat.
Proof. destruct r as [|x [|y r]]; [done..|]. cbn. destruct (_ && _); [|done]. intros [= <-]. pose proof (csi_rest_le r). lia. Qed.

Lemma visible_fuel : ∀ f1 f2 r, (length r <= f1)%nat → (length r <= f2)%nat → visible_from f1 r = visible_from f2 r.
Proof.
  induction f1 as [|f1 IH]; intros f2 r H1 H2; [destruct r; cbn in *; [by destruct f2|lia]|]. destruct r as [|x r]; [by destruct f2|]. destruct f2 as [|f2]; [cbn in *; lia|].
  cbn [visible_from]. destruct (csiEnd (x :: r)) as [j|] eqn:E.
  - apply csiEnd_bounds in E. apply IH; rewrite length_drop; cbn in *; lia.
  - f_equal. apply IH; cbn in *; lia.
Qed.

Lemma visible_cons x r : csiEnd (x :: r) = None → visibleLen (x :: r) = S (visibleLen r).
Proof. intros E. unfold visibleLen. cbn [length visible_from]. by rewrite E. Qed.

Lemma visible_csi r j : csiEnd r = Some j → visibleLen r = visibleLen (drop j r).
Proof.
  intros E. pose proof (csiEnd_bounds _ _ E) as Hb. destruct r as [|x r]; [done|]. unfold visibleLen at 1. cbn [length visible_from]. rewrite E. apply visible_fuel; [|done]. rewrite length_drop. cbn in *. lia.
Qed.

(** Whether a sequence ends before the runes do does not depend on what follows. *)
Lemma csi_rest_app r s : (csi_rest r < length r)%nat ∨ existsb is_final r = true → csi_rest (r ++ s) = csi_rest r.
Proof.
  induction r as [|x r IH]; cbn; [intros [|]; [lia|done]|]. destruct (is_final x); [done|]. intros [H|H]; f_equal; apply IH; [left; lia|right; done].
Qed.

Lemma csi_rest_final r : existsb is_final r = false → csi_rest r = length r.
Proof. induction r as [|x r IH]; cbn; [done|]. destruct (is_final x); [done|]. intros H. by rewrite IH. Qed.

Lemma csi_take r : existsb is_final r = true → csi_rest (take (csi_rest r) r) = csi_rest r ∧ existsb is_final (take (csi_rest r) r) = true.
Proof.
  induction r as [|x r IH]; cbn; [done|]. destruct (is_final x) eqn:E; cbn; [by rewrite E|]. intros [H1 H2]%IH. by rewrite E, H1, H2.
Qed.

(** Truncation cuts between sequences and characters. *)
Lemma truncate_visible fuel : ∀ printed limit r b saw tail, (length r <= fuel)%nat → (limit < printed + visibleLen r)%nat → (printed <= limit)%nat →
  truncate_from fuel printed limit r = (b, saw) → (∀ z, csiEnd (z :: tail) = None) → (printed + visibleLen (b ++ tail) = limit + visibleLen tail)%nat.
Proof.
  induction fuel as [|fuel IH]; intros printed limit r b saw tail Hf Hv Hp; [destruct r; [cbn in *; lia|cbn in *; lia]|]. destruct r as [|x r]; [cbn in *; lia|]. cbn [truncate_from].
  case_bool_decide as Hl; [intros [= <- <-] _; cbn [app]; lia|]. destruct (csiEnd (x :: r)) as [j|] eqn:E.
  - destruct (truncate_from fuel printed limit (drop j (x :: r))) as [b' saw'] eqn:Et. intros [= <- <-] Ht. pose proof (csiEnd_bounds _ _ E) as Hb. rewrite (visible_csi _ _ E) in Hv.
    assert (Hlen : (length (drop j (x :: r)) <= fuel)%nat) by (rewrite length_drop; cbn [length] in *; lia). pose proof (IH _ _ _ _ _ tail Hlen Hv Hp Et Ht) as Hrec.
    rewrite <- Hrec. f_equal. rewrite <- (assoc_L (++)). destruct r as [|y r]; [done|]. cbn in E. destruct ((x =? ESC)%Z && (y =? 91)%Z) eqn:Ei; [|done]. injection E as <-.
    destruct (existsb is_final r) eqn:Ef; [|apply csi_rest_final in Ef; cbn [drop] in Hv; rewrite drop_ge in Hv by lia; cbn in Hv; lia].
    destruct (csi_take r Ef) as [T1 T2]. change (take (2 + csi_rest r) (x :: y :: r) ++ b' ++ tail) with (x :: y :: take (csi_rest r) r ++ b' ++ tail). rewrite (visible_csi _ (2 + csi_rest r)).
    + replace (drop (2 + csi_rest r) (x :: y :: take (csi_rest r) r ++ b' ++ tail)) with (drop (csi_rest r) (take (csi_rest r) r ++ b' ++ tail)) by done.
      rewrite drop_app_length'; [done|]. rewrite length_take. pose proof (csi_rest_le r). lia.
    + cbn. rewrite Ei. f_equal. f_equal. f_equal. rewrite csi_rest_app by (by right). done.
  - destruct (truncate_from fuel (S printed) limit r) as [b' saw'] eqn:Et. intros [= <- <-] Ht. rewrite visible_cons in Hv by done.
    assert (Hlen : (length r <= fuel)%nat) by (cbn [length] in Hf; lia). pose proof (IH (S printed) limit r b' saw' tail Hlen ltac:(lia) ltac:(lia) Et Ht) as Hrec.
    cbn [app]. rewrite visible_cons; [lia|]. destruct b' as [|y b']; [apply Ht|]. cbn. destruct r as [|y' r]; [destruct fuel; by injection Et|].
    assert (y = y') as ->; [|cbn in E; by destruct ((x =? ESC)%Z && (y' =? 91)%Z)]. destruct fuel as [|fuel]; [done|]. cbn [truncate_from] in Et. case_bool_decide; [done|].
    destruct (csiEnd (y' :: r)) as [k|] eqn:Ek; [|destruct (truncate_from fuel _ limit r); by injection Et].
    apply csiEnd_bounds in Ek. destruct k; [lia|]. destruct (truncate_from fuel _ limit _). by injection Et.
Qed.

(** A truncated line is at most as wide as it may be, whatever control sequences
    it holds. *)
Theorem truncate_fits s width : (0 < width)%Z → (Z.of_nat (visibleLen (truncateLine s width)) <= width)%Z.
Proof.
  intros Hw. unfold truncateLine. destruct (width <=? 0)%Z eqn:E0; [lia|]. cbn [orb]. destruct (Z.of_nat (visibleLen s) <=? width)%Z eqn:E1; [by apply Z.leb_le in E1|].
  destruct (width =? 1)%Z eqn:E2; [cbn; lia|]. destruct (truncate_from (length s) 0 (Z.to_nat (width - 1)) s) as [b saw] eqn:Et.
  set (tail := [ellipsis] ++ (if saw then reset else [])). assert (Ht : ∀ z, csiEnd (z :: tail) = None) by (intros z; unfold tail; cbn; by rewrite andb_false_r).
  assert (Hv : visibleLen tail = 1%nat) by (unfold tail; by destruct saw). assert (Hl : (Z.to_nat (width - 1) < 0 + visibleLen s)%nat) by lia.
  pose proof (truncate_visible (length s) 0 (Z.to_nat (width - 1)) s b saw tail (Nat.le_refl _) Hl (Nat.le_0_l _) Et Ht) as H. lia.
Qed.
