(* ===== verification/WatchClient.v ===== *)
(** * Watching a build from the command line (src/clientcli/remote.go
    [streamWatch], [printFailureLogs], [run], [finishTUI],
    src/clientcli/watchview.go, src/clientcli/apiclient.go [decodeReply])

    The client reads the frames of a watch stream until the terminal snapshot,
    drawing each on the live view; a second goroutine redraws the block between
    frames. The theorems: the watch returns exactly the first terminal snapshot
    of the stream and leaves no block behind, and composed with the server, a
    build that settles ends the client's watch with the server's verdict. *)
From S2P Require Import Prelude GoLib Resources Keys Wire Builddef Store Gate Commit LogBuf Frames SchedState Graph Results Submit SchedSys Watch Api LiveView LogTracker.
From Stdlib Require Import Ascii.
Local Open Scope string_scope.
Local Open Scope list_scope.

(** ** Text *)

Definition phase_name (p : phase) : string :=
  match p with
  | PhaseWaiting => "waiting" | PhaseQueued => "queued" | PhaseRunning => "running" | PhasePublishing => "publishing"
  | PhaseDone => "done" | PhaseFailed => "failed" | PhaseUpstream => "failed-upstream" | PhaseCancelled => "cancelled"
  end.

(** [d.Round(time.Second).String()]: half a second rounds away from zero. *)
Definition round_secs (d : Z) : Z :=
  let a := Z.abs d in
  let r := (a mod 1000000000)%Z in
  let s := if (r + r <? 1000000000)%Z then (a / 1000000000)%Z else (a / 1000000000 + 1)%Z in
  if (d <? 0)%Z then (- s)%Z else s.

Definition formatDur (d : Z) : string :=
  let s := round_secs d in
  let a := Z.abs s in
  let h := (a / 3600)%Z in
  let m := ((a / 60) mod 60)%Z in
  let sec := (a mod 60)%Z in
  (if (s <? 0)%Z then "-" else "") +:+
  (if (0 <? h)%Z then itoa h +:+ "h" +:+ itoa m +:+ "m"
   else if (0 <? m)%Z then itoa m +:+ "m" else "") +:+ itoa sec +:+ "s".

Definition upper (a : ascii) : ascii :=
  let n := N_of_ascii a in if (97 <=? n)%N && (n <=? 122)%N then ascii_of_N (n - 32) else a.

(** [strings.ToUpper] on ASCII text, as the phases are. *)
Definition ToUpper (s : string) : string := String.string_of_list_ascii (upper <$> String.list_ascii_of_string s).

Section Text.
Context {KL : KeyLib}.

Definition shortNode (name : string) : string :=
  match ParseNodeName name with
  | None => name
  | Some (kd, k) => kind_name kd +:+ ":" +:+ String.substring 0 8 (key_String k)
  end.

Definition labelNode (name label : string) : string :=
  if String.eqb label "" then shortNode name else label +:+ " (" +:+ shortNode name +:+ ")".

Definition maxRunningRows : nat := 8.
Definition maxFailedRows : nat := 4.

Definition is_failed_phase (p : phase) : bool := bool_decide (p = PhaseFailed).

Definition running_row (n : NodeSnap) : string :=
  "  ▶ " +:+ labelNode (ns_Node n) (ns_Label n) +:+
  (if bool_decide (ns_Phase n = PhaseRunning) then "" else " · " +:+ phase_name (ns_Phase n)) +:+
  (if String.eqb (ns_Runner n) "" then "" else " · " +:+ ns_Runner n) +:+
  (if (0 <? ns_ElapsedMs n)%Z then " · " +:+ formatDur (i64 (ns_ElapsedMs n * 1000000)) else "").

Definition failed_row (n : NodeSnap) : string :=
  "  ✗ " +:+ labelNode (ns_Node n) (ns_Label n) +:+ (if String.eqb (ns_ErrSummary n) "" then "" else " · " +:+ ns_ErrSummary n).

(** The first rows, and a line for the others. *)
Definition capped (max : nat) (rows : list string) (more : string) : list string :=
  take max rows ++ (if (max <? length rows)%nat then ["  … and " +:+ itoa (Z.of_nat (length rows - max)) +:+ more] else []).

Definition snapshotBlock (snap : Snapshot) (elapsed : Z) : list string :=
  let c := sn_Counts snap in
  let head := "[build] " +:+ sn_Phase snap +:+ " · " +:+ itoa (c_Done c) +:+ "/" +:+ itoa (c_Total c) +:+ " done · " +:+ itoa (c_Running c) +:+ " running" +:+
    (if (0 <? c_Failed c)%Z then " · " +:+ itoa (c_Failed c) +:+ " failed" else "") +:+ " · " +:+ formatDur elapsed in
  head :: capped maxRunningRows (running_row <$> List.filter (λ n, isActivePhase (ns_Phase n)) (sn_Nodes snap)) " more"
    ++ capped maxFailedRows (failed_row <$> List.filter (λ n, is_failed_phase (ns_Phase n)) (sn_Nodes snap)) " more failed".

Definition snapshotChangeLine (snap : Snapshot) : string :=
  let c := sn_Counts snap in
  let line := "progress: " +:+ itoa (c_Done c) +:+ "/" +:+ itoa (c_Total c) +:+ " done, " +:+ itoa (c_Running c) +:+ " running, " +:+ itoa (c_Waiting c) +:+ " waiting" +:+
    (if (0 <? c_Failed c)%Z then ", " +:+ itoa (c_Failed c) +:+ " failed" else "") in
  let names := SortStrings ((λ n, labelNode (ns_Node n) (ns_Label n)) <$> List.filter (λ n, isActivePhase (ns_Phase n)) (sn_Nodes snap)) in
  let names := if (4 <? length names)%nat then take 4 names ++ ["…"] else names in
  if bool_decide (names = []) then line else line +:+ " · " +:+ Join names ", ".

Definition paint (color : bool) (code s : string) : string :=
  if color then GoLib.bytes [27%N] +:+ "[" +:+ code +:+ "m" +:+ s +:+ GoLib.bytes [27%N] +:+ "[0m" else s.

Definition watchSummary (color : bool) (phase : string) (elapsed : Z) : string :=
  let verdict := if String.eqb phase "done" then paint color "32" "DONE"
    else if String.eqb phase "failed" then paint color "31" "FAILED" else ToUpper phase in
  "build: " +:+ verdict +:+ " · " +:+ formatDur elapsed.

(** The first hard failure with a summary, or the request's own error. *)
Definition failureSummary (snap : Snapshot) : string :=
  match find (λ n, is_failed_phase (ns_Phase n) && negb (String.eqb (ns_ErrSummary n) "")) (sn_Nodes snap) with
  | Some n => labelNode (ns_Node n) (ns_Label n) +:+ ": " +:+ ns_ErrSummary n
  | None => sn_Error snap
  end.

(** [printFailureLogs]: what is written for the failed nodes. *)
Definition lf : string := GoLib.bytes [10%N].

Definition failure_log (fetch : string → result string Watch.LogView) (streamed : gset string) (n : NodeSnap) : string :=
  lf +:+ "--- " +:+ ns_Node n +:+ " failed (gen " +:+ itoa (ns_Gen n) +:+ "): " +:+ ns_ErrSummary n +:+ lf +:+
  (if bool_decide (ns_Node n ∈ streamed) then "(output streamed above)" +:+ lf
   else match fetch (ns_Node n) with
   | Err e => "(logs unavailable: " +:+ e +:+ " )" +:+ lf
   | Ok v =>
       if (blen (Watch.lv_Head v) =? 0)%Z && (blen (Watch.lv_Tail v) =? 0)%Z then "(no captured output)" +:+ lf
       else String.string_of_list_ascii (Watch.lv_Head v) +:+
            (if (0 <? Watch.lv_GapSize v)%Z then lf +:+ "... [" +:+ itoa (Watch.lv_GapSize v) +:+ " bytes omitted] ..." +:+ lf else "") +:+
            String.string_of_list_ascii (Watch.lv_Tail v) +:+ lf
   end).

Definition printFailureLogs (fetch : string → result string Watch.LogView) (snap : Snapshot) (streamed : gset string) : list string :=
  failure_log fetch streamed <$> List.filter (λ n, is_failed_phase (ns_Phase n)) (sn_Nodes snap).
End Text.

(** ** The watch loop *)

Inductive watch_err :=
| WE_Cancelled | WE_Stream (e : read_err) | WE_Server (code text : string) | WE_Unexpected (t : string) | WE_Decode (e : string).

Section Client.
Context {KL : KeyLib} {AC : ApiCodec}.

(** What the client decodes of the server's frames. *)
Class ClientCodec := {
  dec_Snapshot : LogBuf.bytes → result string Snapshot;
  dec_Error : LogBuf.bytes → result string (string * string);
  snapshot_law s b : enc_reply (RSnapshot s) = Ok b → (0 < blen b)%Z ∧ dec_Snapshot b = Ok s;
}.
Context {CC : ClientCodec}.

Definition decodeReply {A} (rt : string) (body : LogBuf.bytes) (want : string) (dec : LogBuf.bytes → result string A) : result watch_err A :=
  if String.eqb rt "error" then
    match DecodeBody dec_Error body with
    | Err e => Err (WE_Decode ("undecodable server error frame: " +:+ e))
    | Ok (c, t) => Err (WE_Server c t)
    end
  else if negb (String.eqb rt want) then Err (WE_Unexpected rt)
  else match DecodeBody dec body with Err e => Err (WE_Decode e) | Ok a => Ok a end.

(** What runs beside the loop: the clock, the redraws before the i-th frame,
    whether the context is done when a read fails, and UTF-8 decoding. *)
Context (elapsed : nat → Z) (redraws : nat → list Z) (ctx_done : nat → bool) (runes : string → list rune) (color : bool).

(** [wc_block] is the snapshot the refresher may redraw. *)
Record wclient := mkClient { wc_view : liveView; wc_tracker : option logTracker; wc_last : string; wc_block : option Snapshot }.

Definition draw (snap : Snapshot) (el : Z) (v : liveView) : liveView := Update (runes <$> snapshotBlock snap el) v.

Definition refresh (i : nat) (c : wclient) : wclient :=
  match wc_block c with
  | Some snap => if v_isTTY (wc_view c)
                 then mkClient (foldl (λ v el, draw snap el v) (wc_view c) (redraws i)) (wc_tracker c) (wc_last c) (wc_block c)
                 else c
  | None => c
  end.

(** One decoded snapshot. *)
Definition show_snap (i : nat) (snap : Snapshot) (c : wclient) : wclient :=
  let tr := sync snap <$> wc_tracker c in
  if v_isTTY (wc_view c) then
    mkClient (draw snap (elapsed i) (wc_view c)) tr (wc_last c) (if sn_Terminal snap then None else Some snap)
  else
    let line := snapshotChangeLine snap in
    if String.eqb line (wc_last c) then mkClient (wc_view c) tr (wc_last c) (wc_block c)
    else mkClient (Println (runes line) (wc_view c)) tr line (wc_block c).

(** Every exit erases what is left of the block. *)
Definition leave (c : wclient) : wclient := mkClient (Collapse [] (wc_view c)) (wc_tracker c) (wc_last c) None.

Fixpoint watch_loop (fuel : nat) (i : nat) (input : LogBuf.bytes) (c : wclient) : option (wclient * result watch_err Snapshot) :=
  match fuel with
  | O => None
  | S fuel =>
      let c := refresh i c in
      match ReadFrame input with
      | Err e => Some (leave c, Err (if ctx_done i then WE_Cancelled else WE_Stream e))
      | Ok (rt, body, rest) =>
          match decodeReply rt body "snapshot" dec_Snapshot with
          | Err e => Some (leave c, Err e)
          | Ok snap =>
              let c := show_snap i snap c in
              if sn_Terminal snap then
                let c := mkClient (wc_view c) (lt_close <$> wc_tracker c) (wc_last c) (wc_block c) in
                let c := mkClient (Collapse (runes (watchSummary color (sn_Phase snap) (elapsed i))) (wc_view c)) (wc_tracker c) (wc_last c) (wc_block c) in
                Some (leave c, Ok snap)
              else watch_loop fuel (S i) rest c
          end
      end
  end.

Definition streamWatch (input : LogBuf.bytes) (v : liveView) (tracker : option logTracker) : option (wclient * result watch_err Snapshot) :=
  watch_loop (S (length input)) 0 input (mkClient v tracker "" None).

(** ** What becomes of the command *)

Inductive exit := ExitPull | ExitFailed (msg : string) | ExitDetached | ExitCancelled | ExitError (e : watch_err).

Definition failed_exit (snap : Snapshot) (id : string) : exit :=
  ExitFailed (if String.eqb (failureSummary snap) "" then "build FAILED (request " +:+ id +:+ ")" else "build FAILED: " +:+ failureSummary snap).

(** The end of [run]. *)
Definition finish (ctx : bool) (id : string) (r : result watch_err Snapshot) : exit :=
  match r with
  | Err e => if ctx then ExitCancelled else ExitError e
  | Ok snap =>
      if String.eqb (sn_Phase snap) "done" then ExitPull
      else if String.eqb (sn_Phase snap) "failed" then failed_exit snap id
      else ExitCancelled
  end.

(** [finishTUI] *)
Definition finishTUI (detached : bool) (final : option Snapshot) (id : string) : exit :=
  if detached then ExitDetached
  else match final with
  | Some snap => if String.eqb (sn_Phase snap) "done" then ExitPull
                 else if String.eqb (sn_Phase snap) "failed" then failed_exit snap id else ExitCancelled
  | None => ExitCancelled
  end.

(** ** Facts *)

Lemma ReadFrame_shrinks input rt body rest : ReadFrame input = Ok (rt, body, rest) → (length rest < length input)%nat.
Proof.
  unfold ReadFrame, ReadFull. destruct (Z.ltb_spec (blen input) 4) as [|H4]; [done|]. cbn [mbind result_mbind result_bind].
  destruct (Z.ltb_spec MaxFrame (be32_val (upto 4 input))); [done|].
  destruct (Z.ltb_spec (blen (from 4 input)) (be32_val (upto 4 input))); [done|]. cbn [mbind result_mbind result_bind].
  destruct (frame_Unmarshal _) as [[t b]|e]; [|done]. destruct (String.eqb t ""); [done|]. intros [= _ _ <-].
  unfold from, blen in *. rewrite !length_drop. lia.
Qed.

(** The loop ends whatever the stream holds. *)
Theorem watch_returns input v tracker : is_Some (streamWatch input v tracker).
Proof.
  unfold streamWatch. generalize (mkClient v tracker "" None). generalize 0%nat. remember (S (length input)) as fuel eqn:Ef.
  assert (Hl : (length input < fuel)%nat) by lia. clear Ef. revert input Hl. induction fuel as [|fuel IH]; intros input Hl i c; [lia|].
  cbn [watch_loop]. destruct (ReadFrame input) as [[[rt body] rest]|e] eqn:E; [|by eexists].
  destruct (decodeReply rt body "snapshot" dec_Snapshot) as [snap|e]; [|by eexists]. destruct (sn_Terminal snap); [by eexists|].
  apply IH. apply ReadFrame_shrinks in E. lia.
Qed.

(** The bytes of a watch stream. *)
Fixpoint stream_bytes (snaps : list Snapshot) : result string LogBuf.bytes :=
  match snaps with
  | [] => Ok []
  | s :: r => f ← WriteReply (RSnapshot s); b ← stream_bytes r; Ok (f ++ b)
  end.

Lemma read_snapshot s f tail : WriteReply (RSnapshot s) = Ok f →
  ∃ body, ReadFrame (f ++ tail) = Ok ("snapshot", body, tail) ∧ decodeReply "snapshot" body "snapshot" dec_Snapshot = Ok s.
Proof.
  unfold WriteReply. destruct (enc_reply (RSnapshot s)) as [b|e] eqn:E; [|done]. intros H. exists b. split.
  - by apply api_frame_roundtrip with (body := Some b).
  - destruct (snapshot_law _ _ E) as [Hb Hd]. unfold decodeReply, DecodeBody. simpl. destruct (Z.eqb_spec (blen b) 0); [lia|]. by rewrite Hd.
Qed.

Lemma collapse_drawn f v : v_drawn (Collapse f v) = 0%nat ∨ v_isTTY v = false.
Proof.
  unfold Collapse, eraseLocked. destruct (v_isTTY v) eqn:E; [left|by right]. cbn [andb].
  destruct (bool_decide_reflect (0 < v_drawn v)%nat); destruct (bool_decide (f = [])); cbn; lia.
Qed.

Lemma leave_ok c : wc_block (leave c) = None ∧ (v_drawn (wc_view (leave c)) = 0%nat ∨ v_isTTY (wc_view (leave c)) = false).
Proof.
  split; [done|]. destruct (collapse_drawn [] (wc_view c)) as [?|Ht]; [by left|right].
  cbn. unfold Collapse, eraseLocked. rewrite Ht. cbn. by rewrite Ht.
Qed.

Lemma loop_exact final tail : sn_Terminal final = true → ∀ snaps, Forall (λ s, sn_Terminal s = false) snaps → ∀ b fuel i c,
  (length (b ++ tail) < fuel)%nat → stream_bytes (snaps ++ [final]) = Ok b →
  ∃ c', watch_loop fuel i (b ++ tail) c = Some (leave c', Ok final).
Proof.
  intros Ht snaps. induction 1 as [|s snaps Hs _ IH]; intros b fuel i c Hl Hb; destruct fuel as [|fuel]; try lia.
  - cbn [app stream_bytes] in Hb. destruct (WriteReply (RSnapshot final)) as [f|e] eqn:E; [|done]. cbn [mbind result_mbind result_bind] in Hb. injection Hb as <-.
    cbn [watch_loop]. rewrite app_nil_r. destruct (read_snapshot _ _ tail E) as (body & -> & ->). rewrite Ht. by eexists.
  - cbn [app stream_bytes] in Hb. destruct (WriteReply (RSnapshot s)) as [f|e] eqn:E; [|done].
    cbn [mbind result_mbind result_bind] in Hb. destruct (stream_bytes (snaps ++ [final])) as [b'|e] eqn:Eb; [|done]. injection Hb as <-.
    cbn [watch_loop]. rewrite <- app_assoc in *. destruct (read_snapshot _ _ (b' ++ tail) E) as (body & Er & Ed). rewrite Er, Ed, Hs.
    apply (IH b'); [|done]. apply ReadFrame_shrinks in Er. lia.
Qed.

(** The watch returns the terminal snapshot of the stream, nothing before it
    and nothing after it, with the block erased. *)
Theorem watch_exact snaps final tail b v tracker :
  Forall (λ s, sn_Terminal s = false) snaps → sn_Terminal final = true →
  stream_bytes (snaps ++ [final]) = Ok b →
  ∃ c, streamWatch (b ++ tail) v tracker = Some (c, Ok final) ∧ wc_block c = None ∧ (v_drawn (wc_view c) = 0%nat ∨ v_isTTY (wc_view c) = false).
Proof.
  intros Hn Ht Hb. destruct (loop_exact final tail Ht snaps Hn b (S (length (b ++ tail))) 0 (mkClient v tracker "" None)) as [c E]; [lia|done|].
  exists (leave c). split; [done|apply leave_ok].
Qed.
End Client.

(** * From the scheduler's tick to the client's exit

    The stream handler ranges over the watcher's channel and writes a frame per
    snapshot (src/serve/apihandler.go), the client reads them (src/clientcli/
    remote.go [streamWatch]): the composition of Watch, Api and WatchClient. *)
From S2P Require Import Prelude GoLib Resources Keys Wire Builddef Store Gate Commit LogBuf Frames SchedState PullRefs Graph Results Submit GraphFacts SchedInv SchedRec Walk Snapshots Evict SchedSteps SchedSys Demo Watch WatchFacts Diagnose Api ApiFacts LiveView LogTracker.

Section End.
Context `{SE0 : SchedEnv} {AC : ApiCodec} {CC : ClientCodec}.

(** [for snap := range ch]: what the handler writes of a closed channel. *)
Definition watch_frames (w : watcher) : result string LogBuf.bytes := stream_bytes (ch_sent (w_ch w)).

Lemma open_stream_live w : stream_ok w → ch_closed (w_ch w) = false → Forall (λ s, sn_Terminal s = false) (ch_sent (w_ch w)).
Proof.
  intros (_ & _ & Ht & _) Ho. apply Forall_forall. intros x (pre & post & E)%list_elem_of_split.
  destruct (sn_Terminal x) eqn:Ex; [|done]. destruct (Ht _ _ _ E Ex) as [_ Hc]. congruence.
Qed.

(** [C6] A build that is over ends the client's watch with the scheduler's
    verdict: once a watched request was cancelled, failed, deleted, or its
    target is done or a node of its closure failed, the next tick completes.
    If the watcher's buffer has room, the tick sends it one terminal snapshot
    and closes its channel, and a client that reads the frames of that channel,
    when they encode, returns exactly that snapshot, having skipped every
    earlier one, with its live block erased. If the buffer is full, the watcher
    and its channel are left as they were, for a later tick. *)
Theorem watch_end_to_end elapsed redraws ctx runes color h p w v tracker :
  hub_reachable h → p ∈ h_watchers h → h_ws h !! p = Some w → over h w →
  ∃ h', tick h = RRet tt h' ∧
    (¬ room w → p ∈ h_watchers h' ∧ h_ws h' !! p = Some w) ∧
    (room w → ∃ w' snap, h_ws h' !! p = Some w' ∧ ch_closed (w_ch w') = true ∧ is_terminal snap ∧
       ch_sent (w_ch w') = ch_sent (w_ch w) ++ [snap] ∧
       ∀ b, watch_frames w' = Ok b →
         ∃ c, streamWatch elapsed redraws ctx runes color b v tracker = Some (c, Ok snap) ∧ wc_block c = None ∧
              (v_drawn (wc_view c) = 0%nat ∨ v_isTTY (wc_view c) = false)).
Proof.
  intros [D Hh]%hub_reachable_ok Hp Ew Hov. pose proof (tick_spec h Hh) as H. unfold hwp in H.
  destruct (tick h) as [| |[] h'] eqn:Et; [done|done|].
  destruct H as [_ H]. destruct (H p w Hp Ew Hov) as [Hd Hkeep]. exists h'. split; [done|]. split; [done|]. intros Hr.
  destruct (Hd Hr) as (_ & snap & w' & Ew' & Hc & Es & Hs). exists w', snap. split_and!; [done..|]. unfold watch_frames. rewrite Es. intros b Hb.
  destruct (watch_exact elapsed redraws ctx runes color (ch_sent (w_ch w)) snap [] b v tracker) as (c & E & Hrest); [| |done|].
  - destruct (co_live _ (proj2 Hh) p Hp) as (w0 & Ew0 & Ho & _). replace w0 with w in * by congruence.
    apply open_stream_live; [by apply (co_stream _ (proj2 Hh) p)|done].
  - exact Hs.
  - exists c. rewrite app_nil_r in E. done.
Qed.
End End.

(** ** A codec of snapshots *)

#[global] Instance Counts_eq_dec : EqDecision Counts.
Proof. solve_decision. Defined.
#[global] Instance Counts_countable : Countable Counts.
Proof.
  refine (inj_countable' (λ c, (c_Total c, c_Done c, c_Failed c, c_Running c, c_Waiting c)) (λ '(a, b, c, d, e), mkCounts a b c d e) _). by intros [].
Defined.
#[global] Instance phase_countable : Countable phase.
Proof.
  refine (inj_countable (λ p, match p with PhaseWaiting => 0 | PhaseQueued => 1 | PhaseRunning => 2 | PhasePublishing => 3
    | PhaseDone => 4 | PhaseFailed => 5 | PhaseUpstream => 6 | PhaseCancelled => 7 end)%nat
    (λ n, Some (match n with 0 => PhaseWaiting | 1 => PhaseQueued | 2 => PhaseRunning | 3 => PhasePublishing
    | 4 => PhaseDone | 5 => PhaseFailed | 6 => PhaseUpstream | _ => PhaseCancelled end)%nat) _). by intros [].
Defined.
#[global] Instance NodeSnap_eq_dec : EqDecision NodeSnap.
Proof. solve_decision. Defined.
#[global] Instance NodeSnap_countable : Countable NodeSnap.
Proof.
  refine (inj_countable' (λ n, (ns_Node n, ns_Label n, ns_Phase n, ns_Gen n, ns_Runner n, ns_ElapsedMs n, ns_ErrSummary n, ns_Deps n, ns_Cached n))
    (λ '(a, b, c, d, e, f, g, h, i), mkSnap a b c d e f g h i) _). by intros [].
Defined.
#[global] Instance Snapshot_eq_dec : EqDecision Snapshot.
Proof. solve_decision. Defined.
#[global] Instance Snapshot_countable : Countable Snapshot.
Proof.
  refine (inj_countable' (λ n, (sn_RequestID n, sn_Phase n, sn_Counts n, sn_Nodes n, sn_Terminal n, sn_Error n))
    (λ '(a, b, c, d, e, f), mkSnapshot a b c d e f) _). by intros [].
Defined.

(** The bits of the snapshot's code, one character each. *)
Fixpoint pos_bytes (p : positive) : LogBuf.bytes :=
  match p with xH => ["."%char] | xO q => "0"%char :: pos_bytes q | xI q => "1"%char :: pos_bytes q end.
Fixpoint bytes_pos (b : LogBuf.bytes) : option positive :=
  match b with
  | [] => None
  | c :: r => if decide (c = "."%char) then Some xH
              else q ← bytes_pos r; Some (if decide (c = "0"%char) then xO q else xI q)
  end.

Lemma pos_bytes_back p : bytes_pos (pos_bytes p) = Some p.
Proof. induction p as [p IH|p IH|]; simpl; [by rewrite IH|by rewrite IH|done]. Qed.

Definition snap_codec : @ApiCodec string_keys := {|
  frame_Marshal := λ t b, Ok (plain_frame t b); frame_Unmarshal := plain_unframe; frame_law := plain_law;
  enc_reply := λ r, match r with RSnapshot s => Ok (pos_bytes (encode s)) | _ => Ok ["x"%char] end;
  dec_Submit := λ _, Ok demo_submit; dec_Watch := λ _, Ok "r1"; dec_Logs := λ _, Ok ("n", true); dec_Cancel := λ _, Ok "r1";
  dec_Refs := λ _, Ok ("", 0%Z); dec_Diagnose := λ _, Ok (mkDiag "r1" "" 0 0); dec_GC := λ _, Ok None; dec_Pin := λ _, Ok "x" |}.

Definition snap_dec (b : LogBuf.bytes) : result string Snapshot :=
  match bytes_pos b ≫= decode with Some s => Ok s | None => Err "bad snapshot" end.

Lemma snap_dec_law s b : @enc_reply _ snap_codec (RSnapshot s) = Ok b → (0 < blen b)%Z ∧ snap_dec b = Ok s.
Proof.
  simpl. intros [= <-]. split; [|unfold snap_dec; rewrite pos_bytes_back; simpl; by rewrite decode_encode].
  unfold blen. destruct (encode s); simpl; lia.
Qed.

Definition client_codec : @ClientCodec string_keys snap_codec :=
  @Build_ClientCodec _ snap_codec snap_dec (λ _, Ok ("internal", "x")) snap_dec_law.

#[local] Abbreviation env0 := (demo_env "" demo_resolved).

(** The cancelled request of the demonstration run: the client ends with a
    terminal snapshot. *)
Lemma watch_end_to_end_witness : ∃ h h' w' snap, @tick _ _ env0 h = RRet tt h' ∧ ch_closed (w_ch w') = true ∧ is_terminal snap ∧
  ∀ b, @watch_frames _ snap_codec w' = Ok b →
    ∃ c, @streamWatch _ snap_codec client_codec (λ _, 0%Z) (λ _, [0%Z]) (λ _, false) (λ _, []) false b (mkLive true 80 0 []) None = Some (c, Ok snap).
Proof.
  destruct demo_cancelled as (h & p & w & Hr & Hp & Ew & Hov & Hroom).
  destruct (@watch_end_to_end _ _ env0 snap_codec client_codec (λ _, 0%Z) (λ _, [0%Z]) (λ _, false) (λ _, []) false h p w (mkLive true 80 0 []) None
    Hr Hp Ew Hov) as (h' & E & _ & Hd). destruct (Hd Hroom) as (w' & snap & _ & Hc & Hs & _ & Hall).
  exists h, h', w', snap. split; [exact E|]. split; [exact Hc|]. split; [exact Hs|]. intros b Hb.
  destruct (Hall b Hb) as (c & Ec & _). exists c. exact Ec.
Defined.
