(* ===== verification/BuildTree.v ===== *)
(** * The tree of a build (src/tui/buildtree.go)

    The raw nodes of a snapshot fold into rows, one per buildvalue and import,
    with a buildvalue's stages collapsed into its verdict; the row graph is
    then drawn as a tree. The theorems: the tree has exactly one line per
    simple path from a root through expanded rows, no line is hidden when
    nothing is collapsed, and a failed stage makes its row fail. *)
From S2P Require Import Prelude GoLib Resources Keys Wire Builddef Store Gate Commit LogBuf SchedState Graph Results Submit.
From Stdlib Require Import Ascii.
Local Open Scope string_scope.
Local Open Scope list_scope.

Section BuildTree.
Context {KL : KeyLib}.

Definition stageNames (k : kind) : string :=
  match k with
  | KindBuildFrom => "eval" | KindPluginResolve => "resolve" | KindPin => "pin" | KindBuildRun => "build" | KindImport => "fetch"
  | KindBuildValue => ""
  end.

Definition chainOrder : list kind := [KindBuildFrom; KindPluginResolve; KindPin; KindBuildRun].

Record BuildRow := mkRow {
  br_Node : string; br_Kind : kind; br_Label : string; br_Phase : phase; br_Stage : string; br_ElapsedMs : Z;
  br_Cached : bool; br_Err : string; br_Runner : string; br_LogNode : string; br_Children : list string }.

Record BuildGraph := mkGraph { bg_Rows : gmap string BuildRow; bg_Roots : list string }.

Definition SnapshotHasGraph (snap : Snapshot) : bool :=
  (length (sn_Nodes snap) <=? 1)%nat || existsb (λ n, negb (bool_decide (ns_Deps n = []))) (sn_Nodes snap).

(** ** Folding *)

Definition by_name (nodes : list NodeSnap) : gmap string NodeSnap := foldl (λ m n, <[ns_Node n := n]> m) ∅ nodes.

Definition kindOf (name : string) : option kind := fst <$> ParseNodeName name.

Definition logical (k : kind) : bool := bool_decide (k = KindBuildValue) || bool_decide (k = KindImport).

Definition is_logical (name : string) : bool := match kindOf name with Some k => logical k | None => false end.

Abbreviation stages := (gmap kind NodeSnap).

(** One dependency: a row of its own, or a stage of this one. *)
Definition split_dep (byName : gmap string NodeSnap) (acc : list string * stages) (d : string) : list string * stages :=
  match kindOf d with
  | None => acc
  | Some dk =>
      if logical dk then (acc.1 ++ [d], acc.2)
      else match byName !! d with Some dn => (acc.1, <[dk := dn]> acc.2) | None => acc end
  end.

Definition chain_kids (chain : stages) : list string :=
  flat_map (λ ck, match chain !! ck with Some cn => List.filter is_logical (ns_Deps cn) | None => [] end) chainOrder.

Fixpoint dedup_from (seen : gset string) (names : list string) : list string :=
  match names with
  | [] => []
  | n :: r => if bool_decide (n ∈ seen) then dedup_from seen r else n :: dedup_from ({[n]} ∪ seen) r
  end.

Definition dedup (names : list string) : list string := dedup_from ∅ names.

Definition label_in (byName : gmap string NodeSnap) (name : string) : string := match byName !! name with Some n => ns_Label n | None => "" end.

Definition child_leb (label : string → string) (a b : string) : bool :=
  if String.eqb (label a) (label b) then str_leb a b else str_leb (label a) (label b).

Definition orderChildren (names : list string) (label : string → string) : list string := ssort (child_leb label) names.

(** The first stage, in the order of the chain, whose phase qualifies. *)
Definition stage_if (p : phase → bool) (chain : stages) (ck : kind) : option (kind * NodeSnap) :=
  match chain !! ck with Some cn => if p (ns_Phase cn) then Some (ck, cn) else None | None => None end.

Definition first_stage (p : phase → bool) (chain : stages) : option (kind * NodeSnap) := head (omap (stage_if p chain) chainOrder).

Definition own_verdict (p : phase) : bool := match p with PhaseFailed | PhaseCancelled | PhaseUpstream => true | _ => false end.
Definition at_work (p : phase) : bool := match p with PhaseRunning | PhasePublishing => true | _ => false end.

(** [foldChain]: a failed stage, the row's own verdict, a running stage, a
    queued one, done, waiting. *)
Definition foldChain (kids : list string) (own : NodeSnap) (chain : stages) : BuildRow :=
  let br := chain !! KindBuildRun in
  let log := match br with Some b => ns_Node b | None => "" end in
  let row ph stage ms cached err runner log := mkRow (ns_Node own) KindBuildValue (ns_Label own) ph stage ms cached err runner log kids in
  match first_stage (λ p, bool_decide (p = PhaseFailed)) chain with
  | Some (ck, cn) => row PhaseFailed (stageNames ck) (ns_ElapsedMs cn) false (ns_ErrSummary cn) (ns_Runner cn) (ns_Node cn)
  | None =>
  if own_verdict (ns_Phase own) then row (ns_Phase own) "" 0%Z false (ns_ErrSummary own) "" log
  else match first_stage at_work chain with
  | Some (ck, cn) => row (ns_Phase cn) (stageNames ck) (ns_ElapsedMs cn) false "" (ns_Runner cn) (ns_Node cn)
  | None =>
  match first_stage (λ p, bool_decide (p = PhaseQueued)) chain with
  | Some (ck, _) => row PhaseQueued (stageNames ck) 0%Z false "" "" log
  | None =>
  if bool_decide (ns_Phase own = PhaseDone)
  then row PhaseDone "" (match br with Some b => ns_ElapsedMs b | None => 0%Z end)
         (ns_Cached own || match br with Some b => ns_Cached b | None => false end) "" "" log
  else row PhaseWaiting "" 0%Z false "" "" log
  end end end.

Definition stages_of (byName : gmap string NodeSnap) (n : NodeSnap) : stages := (foldl (split_dep byName) ([], ∅) (ns_Deps n)).2.

Definition kids_of (byName : gmap string NodeSnap) (n : NodeSnap) : list string :=
  orderChildren (dedup ((foldl (split_dep byName) ([], ∅) (ns_Deps n)).1 ++ chain_kids (stages_of byName n))) (label_in byName).

Definition fold_row (byName : gmap string NodeSnap) (k : kind) (n : NodeSnap) : BuildRow :=
  if bool_decide (k = KindImport)
  then mkRow (ns_Node n) k (ns_Label n) (ns_Phase n) (stageNames KindImport) (ns_ElapsedMs n) (ns_Cached n) (ns_ErrSummary n)
         (ns_Runner n) (ns_Node n) (kids_of byName n)
  else foldChain (kids_of byName n) n (stages_of byName n).

Definition add_row (byName : gmap string NodeSnap) (rows : gmap string BuildRow) (n : NodeSnap) : gmap string BuildRow :=
  match kindOf (ns_Node n) with
  | Some k => if logical k then <[ns_Node n := fold_row byName k n]> rows else rows
  | None => rows
  end.

Definition child_set (rows : gmap string BuildRow) : gset string :=
  list_to_set (flat_map (λ r, br_Children r.2) (map_to_list rows)).

(** [rootsOf] *)
Definition rootsOf (rows : gmap string BuildRow) : list string :=
  let names := fst <$> map_to_list rows in
  let roots := List.filter (λ n, negb (bool_decide (n ∈ child_set rows))) names in
  let roots := if bool_decide (roots = []) then take 1 (SortStrings names) else roots in
  orderChildren roots (λ n, match rows !! n with Some r => br_Label r | None => "" end).

Definition FoldSnapshot (snap : Snapshot) : BuildGraph :=
  let rows := foldl (add_row (by_name (sn_Nodes snap))) ∅ (sn_Nodes snap) in
  mkGraph rows (rootsOf rows).

(** ** Drawing *)

(** [strings.Contains] *)
Fixpoint Contains (s sub : string) : bool :=
  HasPrefix s sub || match s with EmptyString => false | String _ s' => Contains s' sub end.

Record TreeRow := mkTree { tr_Path : string; tr_Node : string; tr_Depth : Z; tr_HasKids : bool; tr_Expanded : bool }.

Definition maxTreeDepth : Z := 64.

Definition has_kids (row : BuildRow) : bool := negb (bool_decide (br_Children row = [])).

Definition is_expanded (exp : gmap string bool) (path : string) (row : BuildRow) : bool :=
  has_kids row &&
  match exp !! path with
  | Some v => v
  | None => negb (bool_decide (br_Phase row = PhaseDone) && br_Cached row)
  end.

Fixpoint walk (more : nat) (g : BuildGraph) (exp : gmap string bool) (name parentPath : string) (depth : Z) : list TreeRow :=
  match more with
  | O => []
  | S more =>
      match bg_Rows g !! name with
      | None => []
      | Some row =>
          if (maxTreeDepth <? depth)%Z then []
          else if Contains (parentPath +:+ "/") ("/" +:+ name +:+ "/") then []
          else
            let path := parentPath +:+ "/" +:+ name in
            mkTree path name depth (has_kids row) (is_expanded exp path row) ::
            (if is_expanded exp path row then br_Children row ≫= λ c, walk more g exp c path (depth + 1) else [])
      end
  end.

(** Depths 0 to 64. *)
Definition FlattenTree (g : BuildGraph) (exp : gmap string bool) : list TreeRow :=
  bg_Roots g ≫= λ r, walk (S (Z.to_nat maxTreeDepth)) g exp r "" 0.

Lemma walk_known more g exp : ∀ n p d r, r ∈ walk more g exp n p d → is_Some (bg_Rows g !! tr_Node r).
Proof.
  induction more as [|more IH]; intros n p d r; cbn [walk]; [by intros ?%elem_of_nil|].
  destruct (bg_Rows g !! n) as [row|] eqn:E; [|by intros ?%elem_of_nil]. case_match; [by intros ?%elem_of_nil|].
  case_match; [by intros ?%elem_of_nil|]. rewrite elem_of_cons. intros [->|Hin]; [simpl; by eexists|].
  case_match; [|by apply elem_of_nil in Hin]. apply list_elem_of_bind in Hin as (c & Hin & _). by eapply IH.
Qed.

(** Every line is a row's. *)
Lemma flatten_known g exp r : r ∈ FlattenTree g exp → is_Some (bg_Rows g !! tr_Node r).
Proof. intros (n & Hin & _)%list_elem_of_bind. by eapply walk_known. Qed.

(** ** Paths *)

Definition no_slash (n : string) : Prop := ContainsByte n "/" = false.

Definition path_str (names : list string) : string := foldr (λ n s, "/" +:+ n +:+ s) "" names.

Lemma path_str_snoc names n : path_str (names ++ [n]) = path_str names +:+ "/" +:+ n.
Proof.
  induction names as [|m names IH]; simpl; [by rewrite append_empty_r|]. rewrite IH. by rewrite !append_assoc.
Qed.

Lemma Contains_skip n r x : no_slash n → Contains (n +:+ r) ("/" +:+ x) = Contains r ("/" +:+ x).
Proof.
  unfold no_slash. induction n as [|a n IH]; [done|]. cbn [ContainsByte]. destruct (ascii_dec a "/") as [|Ha]; [done|]. cbn [orb].
  intros Hn. rewrite <- IH by done. change (String a n +:+ r) with (String a (n +:+ r)). cbn [Contains]. destruct (HasPrefix (String a (n +:+ r)) ("/" +:+ x)) eqn:E; [|done].
  apply HasPrefix_iff in E as [y E]. injection E as Ea _. by destruct Ha.
Qed.

Lemma prefix_seg a b r : no_slash a → no_slash b → HasPrefix (a +:+ "/" +:+ r) (b +:+ "/") = String.eqb a b.
Proof.
  intros Ha Hb. apply eq_bool_prop_intro. rewrite !Is_true_true, HasPrefix_iff, String.eqb_eq. split.
  - intros [y E]. rewrite append_assoc in E. assert (H1 : Cut (a +:+ "/" +:+ r) "/" = Some (a, r)) by (by apply Cut_Some).
    rewrite E, (proj2 (Cut_Some _ "/" b y)) in H1 by done. congruence.
  - intros ->. exists r. by rewrite append_assoc.
Qed.

(** The textual check is membership on the path. *)
Lemma on_path names name : Forall no_slash names → no_slash name →
  Contains (path_str names +:+ "/") ("/" +:+ name +:+ "/") = bool_decide (name ∈ names).
Proof.
  intros Hn Hm. induction Hn as [|n names H1 _ IH].
  - rewrite bool_decide_eq_false_2 by (apply not_elem_of_nil). by destruct name.
  - cbn [path_str foldr]. fold (path_str names). rewrite !append_assoc.
    change ("/" +:+ n +:+ path_str names +:+ "/") with (String "/" (n +:+ path_str names +:+ "/")). cbn [Contains].
    rewrite Contains_skip, IH by done.
    assert (Er : ∃ r, path_str names +:+ "/" = "/" +:+ r). { destruct names; simpl; [by exists ""|]. by eexists. }
    destruct Er as [r ->].
    change (HasPrefix (String "/" (n +:+ "/" +:+ r)) ("/" +:+ name +:+ "/")) with (HasPrefix (n +:+ "/" +:+ r) (name +:+ "/")).
    rewrite prefix_seg by done. apply eq_bool_prop_intro.
    rewrite !Is_true_true, orb_true_iff, String.eqb_eq, !bool_decide_eq_true, elem_of_cons. naive_solver.
Qed.

(** A path's text determines it. *)
Definition cut_here (r : string) : Prop := r = "" ∨ ∃ x, r = String "/" x.

Lemma cut_here_path names : cut_here (path_str names).
Proof. destruct names; [by left|right; by eexists]. Qed.

Lemma no_slash_cons a n : no_slash (String a n) → a ≠ "/"%char ∧ no_slash n.
Proof. unfold no_slash. cbn [ContainsByte]. destruct (ascii_dec a "/"); [done|]. by intros. Qed.

Lemma seg_inj n : ∀ m r r', no_slash n → no_slash m → cut_here r → cut_here r' → n +:+ r = m +:+ r' → n = m ∧ r = r'.
Proof.
  induction n as [|a n IH]; intros [|b m] r r' Hn Hm Hr Hr' E.
  - done.
  - apply no_slash_cons in Hm as [Hb _]. destruct Hr as [->|[x ->]]; [done|]. injection E as Eb _. by destruct Hb.
  - apply no_slash_cons in Hn as [Ha _]. destruct Hr' as [->|[x ->]]; [done|]. injection E as Ea _. by destruct Ha.
  - apply no_slash_cons in Hn as [_ Hn], Hm as [_ Hm]. injection E as -> E. destruct (IH m r r' Hn Hm Hr Hr' E) as [-> ->]. done.
Qed.

Lemma path_str_inj a : ∀ b, Forall no_slash a → Forall no_slash b → path_str a = path_str b → a = b.
Proof.
  induction a as [|n a IH]; intros [|m b] Ha Hb E; [done|done|done|].
  apply Forall_cons in Ha as [Hn Ha], Hb as [Hm Hb]. injection E as E.
  destruct (seg_inj n m _ _ Hn Hm (cut_here_path a) (cut_here_path b) E) as [-> E']. f_equal. by apply IH.
Qed.

(** ** What the tree shows *)

Section Shown.
Context (g : BuildGraph) (exp : gmap string bool).

(** A line is a row with its ancestors, root first. *)
Abbreviation place := (list string * string)%type.

Definition path_of (p : place) : string := path_str (p.1 ++ [p.2]).

(** A row can be drawn below its ancestors: known, not among them, in depth. *)
Definition drawable (p : place) : Prop :=
  is_Some (bg_Rows g !! p.2) ∧ p.2 ∉ p.1 ∧ (Z.of_nat (length p.1) <= maxTreeDepth)%Z.

Global Instance drawable_dec p : Decision (drawable p).
Proof. unfold drawable. apply _. Defined.

(** From an expanded row to one of its children. *)
Definition opens (p q : place) : Prop :=
  ∃ row, bg_Rows g !! p.2 = Some row ∧ is_expanded exp (path_of p) row = true ∧
    q.1 = p.1 ++ [p.2] ∧ q.2 ∈ br_Children row ∧ drawable q.

Definition shown (p : place) : Prop := ∃ r, r ∈ bg_Roots g ∧ drawable ([], r) ∧ rtc opens ([], r) p.

Definition line_of (p : place) (row : BuildRow) : TreeRow :=
  mkTree (path_of p) p.2 (Z.of_nat (length p.1)) (has_kids row) (is_expanded exp (path_of p) row).

Definition lines_from (p : place) (r : TreeRow) : Prop :=
  ∃ q row, rtc opens p q ∧ bg_Rows g !! q.2 = Some row ∧ r = line_of q row.

Definition slash_free : Prop := ∀ n row, bg_Rows g !! n = Some row → no_slash n.

Lemma walk_hidden more p : slash_free → Forall no_slash p.1 → ~ drawable p →
  walk more g exp p.2 (path_str p.1) (Z.of_nat (length p.1)) = [].
Proof.
  intros Hs Hf Hd. destruct more as [|more]; [done|]. cbn [walk]. destruct (bg_Rows g !! p.2) as [row|] eqn:E; [|done].
  destruct (Z.ltb_spec maxTreeDepth (Z.of_nat (length p.1))); [done|]. rewrite on_path by (done || by eapply Hs).
  case_bool_decide as Hin; [done|]. exfalso. apply Hd. split_and!; [by eexists|done|done].
Qed.

Lemma walk_lines more : ∀ p, slash_free → Forall no_slash p.1 → drawable p → (Z.of_nat (length p.1) + Z.of_nat more = maxTreeDepth + 1)%Z →
  ∀ r, r ∈ walk more g exp p.2 (path_str p.1) (Z.of_nat (length p.1)) ↔ lines_from p r.
Proof.
  induction more as [|more IH]; intros p Hs Hf (Hr & Hn & Hl) Hm r; [lia|]. destruct Hr as [row E]. cbn [walk]. rewrite E.
  destruct (Z.ltb_spec maxTreeDepth (Z.of_nat (length p.1))); [lia|].
  assert (Hp : no_slash p.2) by (by eapply Hs). rewrite on_path, bool_decide_eq_false_2 by done.
  rewrite <- path_str_snoc. fold (path_of p).
  assert (El : (Z.of_nat (length p.1) + 1 = Z.of_nat (length (p.1 ++ [p.2])))%Z) by (rewrite length_app; simpl; lia).
  assert (Hf' : Forall no_slash (p.1 ++ [p.2])) by (apply Forall_app; by split; [|apply Forall_singleton]).
  rewrite elem_of_cons. split.
  - intros [->|Hin]; [exists p, row; by split_and!|].
    destruct (is_expanded exp (path_of p) row) eqn:Ex; [|by apply elem_of_nil in Hin].
    apply list_elem_of_bind in Hin as (c & Hin & Hc).
    rewrite El in Hin. destruct (decide (drawable (p.1 ++ [p.2], c))) as [Hd|Hd].
    + apply (IH (p.1 ++ [p.2], c)) in Hin as (q & row' & Hq & Er & ->); [|done..|simpl; lia].
      exists q, row'. split_and!; [|done|done]. eapply rtc_l; [|exact Hq]. exists row. by split_and!.
    + assert (Hw : walk more g exp c (path_of p) (Z.of_nat (length (p.1 ++ [p.2]))) = []) by (by apply (walk_hidden more (p.1 ++ [p.2], c))). rewrite Hw in Hin. by apply elem_of_nil in Hin.
  - intros (q & row' & Hq & Er & ->). inversion Hq as [|? q' ? (row1 & E1 & Ex & Eq & Hc & Hd) Hrest]; subst.
    + left. assert (row' = row) as -> by congruence. done.
    + right. assert (row1 = row) as -> by congruence. rewrite Ex. apply list_elem_of_bind. exists q'.2. split; [|done].
      assert (Ep : path_of p = path_str q'.1) by (unfold path_of; by rewrite Eq).
      rewrite Ep, El, <- Eq. rewrite <- Eq in Hf'.
      apply IH; [done..|rewrite Eq; lia|]. by exists q, row'.
Qed.

Lemma opens_prefix p q : rtc opens p q → ∃ rest, q.1 ++ [q.2] = (p.1 ++ [p.2]) ++ rest.
Proof.
  induction 1 as [p|p p' q (row & _ & _ & E & _) _ [rest IH]]; [exists []; by rewrite app_nil_r|].
  exists (p'.2 :: rest). rewrite IH, E, <- !app_assoc. done.
Qed.

Lemma opens_free p q : slash_free → Forall no_slash (p.1 ++ [p.2]) → rtc opens p q → Forall no_slash (q.1 ++ [q.2]).
Proof.
  intros Hs Hf. induction 1 as [p|p p' q (row & _ & _ & E & _ & [row' Hr] & _) _ IH]; [done|]. apply IH. rewrite E.
  apply Forall_app. split; [done|]. apply Forall_singleton. by eapply Hs.
Qed.

(** A line drawn below a row has the row's path as a prefix of its own. *)
Lemma walk_child_path more p c r : slash_free → Forall no_slash (p.1 ++ [p.2]) → (Z.of_nat (length p.1) + 1 + Z.of_nat more = maxTreeDepth + 1)%Z →
  r ∈ walk more g exp c (path_of p) (Z.of_nat (length p.1) + 1) →
  ∃ rest, tr_Path r = path_str ((p.1 ++ [p.2]) ++ c :: rest) ∧ Forall no_slash ((p.1 ++ [p.2]) ++ c :: rest).
Proof.
  intros Hs Hf Hm Hin. assert (El : (Z.of_nat (length p.1) + 1 = Z.of_nat (length (p.1 ++ [p.2])))%Z) by (rewrite length_app; simpl; lia).
  rewrite El in *. destruct (decide (drawable (p.1 ++ [p.2], c))) as [Hd|Hd].
  - apply (walk_lines more (p.1 ++ [p.2], c)) in Hin as (q & row & Hq & _ & ->); [|done..].
    assert (Hc : Forall no_slash ((p.1 ++ [p.2]) ++ [c])).
    { apply Forall_app. split; [done|]. apply Forall_singleton. destruct Hd as [[row' Hr] _]. by eapply Hs. }
    pose proof (opens_free (p.1 ++ [p.2], c) q Hs Hc Hq) as Hfq. destruct (opens_prefix (p.1 ++ [p.2], c) q Hq) as [rest E]. simpl in E. rewrite <- app_assoc in E. simpl in E.
    exists rest. rewrite <- E. done.
  - assert (Hw : walk more g exp c (path_of p) (Z.of_nat (length (p.1 ++ [p.2]))) = []) by (by apply (walk_hidden more (p.1 ++ [p.2], c))).
    rewrite Hw in Hin. by apply elem_of_nil in Hin.
Qed.

Lemma bind_paths (f : string → list TreeRow) l : tr_Path <$> (l ≫= f) = l ≫= λ c, tr_Path <$> f c.
Proof. induction l as [|x l IH]; csimpl; [done|]. by rewrite fmap_app, IH. Qed.

Lemma walk_nodup more : ∀ p, slash_free → (∀ n row, bg_Rows g !! n = Some row → NoDup (br_Children row)) →
  Forall no_slash p.1 → drawable p → (Z.of_nat (length p.1) + Z.of_nat more = maxTreeDepth + 1)%Z →
  NoDup (tr_Path <$> walk more g exp p.2 (path_str p.1) (Z.of_nat (length p.1))).
Proof.
  induction more as [|more IH]; intros p Hs Hk Hf (Hr & Hn & Hl) Hm; [constructor|]. destruct Hr as [row E]. cbn [walk]. rewrite E.
  destruct (Z.ltb_spec maxTreeDepth (Z.of_nat (length p.1))); [lia|].
  assert (Hp : no_slash p.2) by (by eapply Hs). rewrite on_path, bool_decide_eq_false_2 by done.
  rewrite <- path_str_snoc. fold (path_of p). assert (Hf' : Forall no_slash (p.1 ++ [p.2])) by (apply Forall_app; by split; [|apply Forall_singleton]).
  destruct (is_expanded exp (path_of p) row); [|simpl; by apply NoDup_singleton].
  cbn [fmap list_fmap tr_Path]. fold (@fmap list _ TreeRow string tr_Path). constructor.
  - intros (r & Er & (c & Hin & _)%list_elem_of_bind)%list_elem_of_fmap.
    apply walk_child_path in Hin as (rest & Ep & Hfr); [|done..|lia]. rewrite Ep in Er. apply path_str_inj in Er; [|done..].
    rewrite <- app_nil_r in Er at 1. by apply app_inv_head in Er.
  - rewrite bind_paths. apply NoDup_bind; [| |by eapply Hk].
    + intros c1 c2 y _ _ (r1 & -> & H1)%list_elem_of_fmap (r2 & Er & H2)%list_elem_of_fmap.
      apply walk_child_path in H1 as (e1 & E1 & F1); [|done..|lia]. apply walk_child_path in H2 as (e2 & E2 & F2); [|done..|lia].
      rewrite E1, E2 in Er. apply path_str_inj, app_inv_head in Er; [|done..]. congruence.
    + intros c _. simpl. assert (El : (Z.of_nat (length p.1) + 1 = Z.of_nat (length (p.1 ++ [p.2])))%Z) by (rewrite length_app; simpl; lia).
      rewrite El. destruct (decide (drawable (p.1 ++ [p.2], c))) as [Hd|Hd].
      * apply (IH (p.1 ++ [p.2], c)); [done..|simpl; lia].
      * assert (Hw : walk more g exp c (path_of p) (Z.of_nat (length (p.1 ++ [p.2]))) = []) by (by apply (walk_hidden more (p.1 ++ [p.2], c))).
        rewrite Hw. constructor.
Qed.

(** An acyclic row graph of bounded depth, given by the rank of each row. *)
Context (rank : string → nat).
Hypothesis Hrank : ∀ n row c, bg_Rows g !! n = Some row → c ∈ br_Children row → (rank c < rank n)%nat.
Hypothesis Hdeep : ∀ n, is_Some (bg_Rows g !! n) → (rank n <= 64)%nat.
Hypothesis Hopen : ∀ p row, shown p → bg_Rows g !! p.2 = Some row → has_kids row = true → is_expanded exp (path_of p) row = true.
Hypothesis Hroots : ∀ n row, bg_Rows g !! n = Some row →
  n ∈ bg_Roots g ∨ ∃ m mrow, bg_Rows g !! m = Some mrow ∧ n ∈ br_Children mrow.

Lemma shown_everywhere k : ∀ n row, (64 - rank n <= k)%nat → bg_Rows g !! n = Some row →
  ∃ p, shown p ∧ p.2 = n ∧ Forall (λ a, (rank n < rank a)%nat) p.1 ∧ (length p.1 + rank n <= 64)%nat.
Proof.
  induction k as [k IH] using lt_wf_ind. intros n row Hk E.
  assert (Hn : (rank n <= 64)%nat) by (apply Hdeep; by eexists).
  destruct (Hroots n row E) as [Hr|(m & mrow & Em & Hc)].
  - exists ([], n). split_and!; [|done|done|simpl; lia]. exists n. split_and!; [done| |done]. split_and!; [by eexists|apply not_elem_of_nil|done].
  - pose proof (Hrank m mrow n Em Hc) as Hlt. assert (Hm : (rank m <= 64)%nat) by (apply Hdeep; by eexists).
    destruct (IH (64 - rank m)%nat ltac:(lia) m mrow ltac:(lia) Em) as ([anc m'] & Hs & Em' & Hf & Hl). simpl in *. subst m'.
    exists (anc ++ [m], n). cbn [fst snd]. rewrite length_app. simpl.
    assert (Hall : Forall (λ a, (rank n < rank a)%nat) (anc ++ [m])).
    { apply Forall_app. split; [|by apply Forall_singleton]. eapply Forall_impl; [exact Hf|]. simpl. lia. }
    split_and!; [|done|done|lia]. destruct Hs as (r & Hr & Hd & Hp). exists r. split_and!; [done|done|]. eapply rtc_r; [exact Hp|].
    exists mrow. simpl. split_and!; [done| |done|done|].
    + apply (Hopen (anc, m)); [by exists r|done|]. unfold has_kids. rewrite bool_decide_eq_false_2; [done|]. intros E0. rewrite E0 in Hc. by apply elem_of_nil in Hc.
    + split_and!; simpl; [by eexists| |rewrite length_app; simpl; unfold maxTreeDepth; lia].
      intros Hin. rewrite Forall_forall in Hall. specialize (Hall n Hin). lia.
Qed.
End Shown.

(** ** The folded graph *)

Lemma rows_from byName nodes : ∀ rows n row, foldl (add_row byName) rows nodes !! n = Some row →
  rows !! n = Some row ∨ ∃ x k, x ∈ nodes ∧ ns_Node x = n ∧ kindOf n = Some k ∧ logical k = true ∧ row = fold_row byName k x.
Proof.
  induction nodes as [|x nodes IH]; intros rows n row; simpl; [by left|]. intros [H|(y & k & Hy & Hrest)]%IH.
  - unfold add_row in H. destruct (kindOf (ns_Node x)) as [k|] eqn:Ek; [|by left]. destruct (logical k) eqn:El; [|by left].
    apply lookup_insert_Some in H as [[<- <-]|[_ H]]; [|by left]. right. exists x, k. split_and!; [left|done..].
  - right. exists y, k. split_and!; [by right|apply Hrest..].
Qed.

Lemma parsed_no_slash n k : kindOf n = Some k → no_slash n.
Proof.
  unfold kindOf, no_slash. destruct (ParseNodeName n) as [[kd key]|] eqn:E; [|done]. intros _. apply ParseNodeName_Some in E as ->.
  unfold NodeName. rewrite !ContainsByte_append, kind_name_no_byte by auto. simpl. by apply key_String_no_byte.
Qed.

Lemma fold_slash_free snap : slash_free (FoldSnapshot snap).
Proof. intros n row [H|(x & k & _ & _ & Hk & _)]%rows_from; [by rewrite lookup_empty in H|by eapply parsed_no_slash]. Qed.

Lemma rootsOf_rows rows n row : rows !! n = Some row → n ∈ rootsOf rows ∨ ∃ m mrow, rows !! m = Some mrow ∧ n ∈ br_Children mrow.
Proof.
  intros E. destruct (decide (n ∈ child_set rows)) as [Hc|Hc].
  - right. unfold child_set in Hc. apply elem_of_list_to_set, list_elem_of_In, in_flat_map in Hc as ([m mrow] & Hm%list_elem_of_In & Hin%list_elem_of_In).
    apply elem_of_map_to_list in Hm. by exists m, mrow.
  - left. unfold rootsOf, orderChildren. rewrite elem_of_ssort.
    assert (Hin : n ∈ List.filter (λ n, negb (bool_decide (n ∈ child_set rows))) (fst <$> map_to_list rows)).
    { apply list_elem_of_In, filter_In. split; [|by rewrite bool_decide_eq_false_2]. apply list_elem_of_In, list_elem_of_fmap.
      exists (n, row). split; [done|]. by apply elem_of_map_to_list. }
    rewrite bool_decide_eq_false_2; [done|]. intros E0. rewrite E0 in Hin. by apply elem_of_nil in Hin.
Qed.

Lemma dedup_from_spec names : ∀ seen, NoDup (dedup_from seen names) ∧ (∀ n, n ∈ dedup_from seen names ↔ n ∈ names ∧ n ∉ seen).
Proof.
  induction names as [|m names IH]; intros seen; simpl.
  { split; [constructor|]. intros n. rewrite elem_of_nil. tauto. }
  case_bool_decide as Hm.
  - destruct (IH seen) as [Hd He]. split; [done|]. intros n. rewrite He, elem_of_cons. split; [tauto|].
    intros [[->|?] ?]; [done|by split].
  - destruct (IH ({[m]} ∪ seen)) as [Hd He]. split.
    + constructor; [|done]. rewrite He, elem_of_union, elem_of_singleton. tauto.
    + intros n. rewrite !elem_of_cons, He, elem_of_union, elem_of_singleton. destruct (decide (n = m)) as [->|]; tauto.
Qed.

Lemma kids_nodup byName n : NoDup (kids_of byName n).
Proof. unfold kids_of, orderChildren. rewrite ssort_perm. apply dedup_from_spec. Qed.

Lemma foldChain_kids kids own chain : br_Children (foldChain kids own chain) = kids.
Proof. unfold foldChain. repeat case_match; done. Qed.

Lemma fold_kids_nodup snap n row : bg_Rows (FoldSnapshot snap) !! n = Some row → NoDup (br_Children row).
Proof.
  intros [H|(x & k & _ & _ & _ & _ & ->)]%rows_from; [by rewrite lookup_empty in H|]. unfold fold_row.
  case_bool_decide; [|rewrite foldChain_kids]; apply kids_nodup.
Qed.

Lemma rootsOf_nodup rows : NoDup (rootsOf rows).
Proof.
  unfold rootsOf, orderChildren. rewrite ssort_perm. pose proof (NoDup_fst_map_to_list rows) as Hn. case_bool_decide.
  - eapply sublist_NoDup; [|apply sublist_take]. by rewrite SortStrings_perm.
  - apply NoDup_ListNoDup, List.NoDup_filter. by apply NoDup_ListNoDup.
Qed.

Lemma roots_path g exp root r : slash_free g → r ∈ walk (S (Z.to_nat maxTreeDepth)) g exp root "" 0 →
  drawable g ([], root) ∧ ∃ rest, tr_Path r = path_str (root :: rest) ∧ Forall no_slash (root :: rest).
Proof.
  intros Hs Hin. destruct (decide (drawable g ([], root))) as [Hd|Hd].
  - split; [done|]. apply (walk_lines g exp _ ([], root)) in Hin as (q & row & Hq & _ & ->); [|done..].
    assert (Hf : Forall no_slash ([] ++ [root])). { apply Forall_singleton. destruct Hd as [[row' Hr] _]. by eapply Hs. }
    pose proof (opens_free g exp ([], root) q Hs Hf Hq) as Hfq. destruct (opens_prefix g exp ([], root) q Hq) as [rest E]. simpl in E.
    exists rest. by rewrite <- E.
  - assert (Hw : walk (S (Z.to_nat maxTreeDepth)) g exp root "" 0 = []) by (by apply (walk_hidden g exp _ ([], root))).
    rewrite Hw in Hin. by apply elem_of_nil in Hin.
Qed.

(** [C17] The tree of a build: one line for every simple path from a root
    through expanded rows, of at most 65 rows, and no other; the line has the
    path's text, its depth and its row's state. So the textual check for a row
    among its ancestors never hides another row, no two lines share the path
    that remembers their expansion, and drawing ends whatever edges the
    snapshot claims. *)
Theorem tree_exact snap exp :
  NoDup (tr_Path <$> FlattenTree (FoldSnapshot snap) exp) ∧
  ∀ r, r ∈ FlattenTree (FoldSnapshot snap) exp ↔
    ∃ p row, shown (FoldSnapshot snap) exp p ∧ bg_Rows (FoldSnapshot snap) !! p.2 = Some row ∧ r = line_of exp p row.
Proof.
  pose proof (fold_slash_free snap) as Hs. pose proof (fold_kids_nodup snap) as Hk.
  pose proof (rootsOf_nodup (bg_Rows (FoldSnapshot snap)) : NoDup (bg_Roots (FoldSnapshot snap))) as Hroots.
  set (g := FoldSnapshot snap) in *. clearbody g. unfold FlattenTree. split.
  - rewrite bind_paths. apply NoDup_bind; [| |done].
    + intros r1 r2 y _ _ (l1 & -> & H1)%list_elem_of_fmap (l2 & E & H2)%list_elem_of_fmap.
      apply roots_path in H1 as (_ & e1 & E1 & F1); [|done]. apply roots_path in H2 as (_ & e2 & E2 & F2); [|done].
      rewrite E1, E2 in E. apply path_str_inj in E; [|done..]. congruence.
    + intros root _. destruct (decide (drawable g ([], root))) as [Hd|Hd]; [by apply (walk_nodup g exp _ ([], root))|].
      assert (Hw : walk (S (Z.to_nat maxTreeDepth)) g exp root "" 0 = []) by (by apply (walk_hidden g exp _ ([], root))).
      rewrite Hw. constructor.
  - intros r. rewrite list_elem_of_bind. split.
    + intros (root & Hin & Hr). destruct (roots_path _ _ _ _ Hs Hin) as [Hd _].
      apply (walk_lines g exp _ ([], root)) in Hin as (q & row & Hq & E & ->); [|done..]. exists q, row. split_and!; [by exists root|done..].
    + intros (p & row & (root & Hr & Hd & Hp) & E & ->). exists root. split; [|done].
      apply (walk_lines g exp _ ([], root)); [done..|]. by exists p, row.
Qed.

(** Where no row is collapsed, an acyclic build of depth at most 64 hides
    none of its rows. *)
Theorem tree_complete snap exp rank n row :
  (∀ n row c, bg_Rows (FoldSnapshot snap) !! n = Some row → c ∈ br_Children row → (rank c < rank n)%nat) →
  (∀ n, is_Some (bg_Rows (FoldSnapshot snap) !! n) → (rank n <= 64)%nat) →
  (∀ p row, shown (FoldSnapshot snap) exp p → bg_Rows (FoldSnapshot snap) !! p.2 = Some row → has_kids row = true →
     is_expanded exp (path_of p) row = true) →
  bg_Rows (FoldSnapshot snap) !! n = Some row →
  ∃ r, r ∈ FlattenTree (FoldSnapshot snap) exp ∧ tr_Node r = n.
Proof.
  intros Hrank Hdeep Hopen E. set (g := FoldSnapshot snap) in *. pose proof (fold_slash_free snap : slash_free g) as Hs.
  destruct (shown_everywhere g exp rank Hrank Hdeep Hopen (rootsOf_rows (bg_Rows g)) 64 n row ltac:(lia) E) as (p & (root & Hr & Hd & Hp) & En & _).
  exists (line_of exp p row). split; [|done]. unfold FlattenTree. apply list_elem_of_bind. exists root.
  split; [|done]. apply (walk_lines g exp _ ([], root)); [done..|]. exists p, row. by rewrite En.
Qed.

(** ** Failures *)

Section Inserts.
Context {A : Type} (ins : gmap string A → NodeSnap → gmap string A).
Hypothesis ins_other : ∀ m x k, k ≠ ns_Node x → ins m x !! k = m !! k.

Lemma inserts_other nodes : ∀ m k, k ∉ ns_Node <$> nodes → foldl ins m nodes !! k = m !! k.
Proof.
  induction nodes as [|x nodes IH]; intros m k; csimpl; [done|]. rewrite not_elem_of_cons. intros [Hx Hk]. by rewrite IH, ins_other.
Qed.

Lemma inserts_lookup nodes : ∀ m x, NoDup (ns_Node <$> nodes) → x ∈ nodes →
  ∃ m', foldl ins m nodes !! ns_Node x = ins m' x !! ns_Node x.
Proof.
  induction nodes as [|y nodes IH]; intros m x; csimpl; [by intros _ ?%elem_of_nil|].
  intros [Hy Hn]%NoDup_cons [->|Hin]%elem_of_cons; [exists m; by rewrite inserts_other|by apply IH].
Qed.
End Inserts.

Lemma by_name_lookup nodes n : NoDup (ns_Node <$> nodes) → n ∈ nodes → by_name nodes !! ns_Node n = Some n.
Proof.
  intros Hn Hin. assert (Hother : ∀ (m : gmap string NodeSnap) y k, k ≠ ns_Node y → <[ns_Node y := y]> m !! k = m !! k)
    by (intros m y k Hne; by rewrite lookup_insert_ne).
  destruct (inserts_lookup (λ m n, <[ns_Node n := n]> m) Hother nodes ∅ n Hn Hin) as [m E].
  unfold by_name. rewrite E. by rewrite lookup_insert_eq.
Qed.

Lemma rows_lookup snap x k : NoDup (ns_Node <$> sn_Nodes snap) → x ∈ sn_Nodes snap → kindOf (ns_Node x) = Some k → logical k = true →
  bg_Rows (FoldSnapshot snap) !! ns_Node x = Some (fold_row (by_name (sn_Nodes snap)) k x).
Proof.
  intros Hn Hin Hk Hl. assert (Hother : ∀ m y n, n ≠ ns_Node y → add_row (by_name (sn_Nodes snap)) m y !! n = m !! n).
  { intros m y n Hne. unfold add_row. repeat case_match; try done. by rewrite lookup_insert_ne. }
  destruct (inserts_lookup _ Hother (sn_Nodes snap) ∅ x Hn Hin) as [m E]. simpl. rewrite E. unfold add_row. rewrite Hk, Hl. by rewrite lookup_insert_eq.
Qed.

Lemma stages_lookup byName deps d ck cn : kindOf d = Some ck → logical ck = false → byName !! d = Some cn →
  ∀ acc, (d ∈ deps ∨ acc.2 !! ck = Some cn) → (∀ d', d' ∈ deps → kindOf d' = Some ck → d' = d) →
  (foldl (split_dep byName) acc deps).2 !! ck = Some cn.
Proof.
  intros Hk Hl Hb. induction deps as [|x deps IH]; intros acc Hor Hu; [destruct Hor as [?%elem_of_nil|]; done|]. simpl.
  apply IH; [|intros d' Hd'; apply Hu; by right]. destruct (decide (x = d)) as [->|Hne].
  - right. unfold split_dep. rewrite Hk, Hl, Hb. simpl. by rewrite lookup_insert_eq.
  - destruct Hor as [[Hx|Hin]%elem_of_cons|Hacc]; [by destruct Hne|by left|]. right. unfold split_dep.
    destruct (kindOf x) as [dk|] eqn:Ex; [|done]. destruct (logical dk); [done|]. destruct (byName !! x) as [xn|]; [|done]. simpl.
    rewrite lookup_insert_ne; [done|]. intros ->. apply Hne, Hu; [left|done].
Qed.

Lemma first_stage_some p chain ck cn : ck ∈ chainOrder → chain !! ck = Some cn → p (ns_Phase cn) = true →
  ∃ ck' cn', first_stage p chain = Some (ck', cn') ∧ chain !! ck' = Some cn' ∧ p (ns_Phase cn') = true.
Proof.
  intros Hin Hc Hp. unfold first_stage. set (f := stage_if p chain). destruct (omap f chainOrder) as [|[ck' cn'] l] eqn:E.
  - exfalso. assert (H : (ck, cn) ∈ omap f chainOrder) by (apply list_elem_of_omap; exists ck; split; [done|]; unfold f, stage_if; by rewrite Hc, Hp).
    rewrite E in H. by apply elem_of_nil in H.
  - exists ck', cn'. split; [done|]. assert (H : (ck', cn') ∈ omap f chainOrder) by (rewrite E; left).
    apply list_elem_of_omap in H as (k & _ & Hf). unfold f, stage_if in Hf. repeat case_match; simplify_eq. done.
Qed.

(** A failed stage fails the row of its build, with the error and the log of a
    failed stage, whatever the build's own phase is. *)
Theorem failed_stage_fails snap x cn ck :
  NoDup (ns_Node <$> sn_Nodes snap) → x ∈ sn_Nodes snap → kindOf (ns_Node x) = Some KindBuildValue →
  cn ∈ sn_Nodes snap → ns_Node cn ∈ ns_Deps x → kindOf (ns_Node cn) = Some ck → ck ∈ chainOrder → ns_Phase cn = PhaseFailed →
  (∀ d, d ∈ ns_Deps x → kindOf d = Some ck → d = ns_Node cn) →
  ∃ row ck' cn', bg_Rows (FoldSnapshot snap) !! ns_Node x = Some row ∧ br_Phase row = PhaseFailed ∧
    stages_of (by_name (sn_Nodes snap)) x !! ck' = Some cn' ∧ ns_Phase cn' = PhaseFailed ∧
    br_Stage row = stageNames ck' ∧ br_Err row = ns_ErrSummary cn' ∧ br_LogNode row = ns_Node cn'.
Proof.
  intros Hn Hx Hk Hc Hd Hck Ho Hp Hu.
  assert (Hst : stages_of (by_name (sn_Nodes snap)) x !! ck = Some cn).
  { apply (stages_lookup _ _ (ns_Node cn)); [done| |by apply by_name_lookup|by left|done].
    unfold chainOrder in Ho. rewrite !elem_of_cons in Ho. destruct Ho as [->|[->|[->|[->|?%elem_of_nil]]]]; done. }
  destruct (first_stage_some (λ p, bool_decide (p = PhaseFailed)) _ ck cn Ho Hst) as (ck' & cn' & Ef & Hs' & Hp'); [by rewrite Hp|].
  apply bool_decide_eq_true in Hp'. eexists _, ck', cn'. split; [by apply (rows_lookup snap x KindBuildValue)|].
  unfold fold_row. rewrite bool_decide_eq_false_2 by done. unfold foldChain. rewrite Ef. done.
Qed.
End BuildTree.

(** A build of two steps over the same base, and two builds that claim to
    depend on each other: the shared row is drawn under both, the cycle once. *)
Definition demo_node (kd : kind) (k : string) (deps : list string) (ph : phase) : NodeSnap :=
  mkSnap (@NodeName string_keys kd k) k ph 1 "" 0 "" deps false.

#[local] Abbreviation bv := (@NodeName string_keys KindBuildValue).
#[local] Abbreviation br := (@NodeName string_keys KindBuildRun).

Definition diamond : Snapshot := mkSnapshot "r1" "running" (mkCounts 0 0 0 0 0)
  [ demo_node KindBuildValue "top" [br "top"] PhaseWaiting; demo_node KindBuildRun "top" [bv "l"; bv "r"] PhaseWaiting;
    demo_node KindBuildValue "l" [br "l"] PhaseWaiting; demo_node KindBuildRun "l" [bv "base"] PhaseRunning;
    demo_node KindBuildValue "r" [br "r"] PhaseWaiting; demo_node KindBuildRun "r" [bv "base"] PhaseFailed;
    demo_node KindBuildValue "base" [] PhaseDone ] false "".

Example diamond_drawn :
  (λ r, (tr_Node r, tr_Depth r)) <$> @FlattenTree (@FoldSnapshot string_keys diamond) ∅ =
  [(bv "top", 0%Z); (bv "l", 1%Z); (bv "base", 2%Z); (bv "r", 1%Z); (bv "base", 2%Z)].
Proof. vm_compute. reflexivity. Qed.

Definition cyclic : Snapshot := mkSnapshot "r1" "running" (mkCounts 0 0 0 0 0)
  [ demo_node KindBuildValue "a" [bv "b"] PhaseWaiting; demo_node KindBuildValue "b" [bv "a"] PhaseWaiting ] false "".

Example cyclic_drawn :
  (λ r, (tr_Node r, tr_Depth r)) <$> @FlattenTree (@FoldSnapshot string_keys cyclic) ∅ = [(bv "a", 0%Z); (bv "b", 1%Z)].
Proof. vm_compute. reflexivity. Qed.
