(* ===== verification/BuildView.v ===== *)
(** * The build view (src/tui/buildview.go, parts of src/tui/cmds.go, format.go,
    client.go)

    The full-screen view of a build: [Update] answers one message with a new
    state and commands, which run beside it and come back as messages in any
    order. Streams are opened by commands, carry a sequence number, and are
    stopped by the view. The theorems: the view never indexes outside of its
    tree, the output pane shows the stream of the node it names, no stream is
    left open, and the view ends only with a verdict. *)
From S2P Require Import Prelude GoLib Resources Keys Wire Builddef Store Gate Commit LogBuf SchedState Graph Results Submit Watch Api LiveView LogTracker WatchClient BuildTree.
From Stdlib Require Import Ascii.
Local Open Scope string_scope.
Local Open Scope list_scope.

(** ** Text *)

Definition two_digits (n : Z) : string := (if (n <? 10)%Z then "0" else "") +:+ itoa n.

(** [humanAge] of nanoseconds. *)
Definition humanAge (d : Z) : string :=
  let d := Z.max 0 d in
  let s := (d / 1000000000)%Z in
  if (s <? 60)%Z then itoa s +:+ "s"
  else if (s <? 3600)%Z then itoa (s / 60) +:+ "m" +:+ two_digits (s mod 60) +:+ "s"
  else if (s <? 86400)%Z then itoa (s / 3600) +:+ "h" +:+ two_digits ((s / 60) mod 60) +:+ "m"
  else itoa (s / 3600 / 24) +:+ "d" +:+ two_digits ((s / 3600) mod 24) +:+ "h".

(** One decimal of a quotient, ties to even, as [%.1f] prints it where the
    operands are exact (below 2^53 bytes). *)
Definition tenths (n d : Z) : Z :=
  let q := (10 * n / d)%Z in
  let r := (10 * n mod d)%Z in
  if (2 * r <? d)%Z || ((2 * r =? d)%Z && Z.even q) then q else (q + 1)%Z.

Fixpoint unit_of (units : list string) (m div : Z) : Z * string :=
  match units with
  | [] => (div, "E")
  | [u] => (div, u)
  | u :: rest => if (1024 <=? m)%Z then unit_of rest (m / 1024) (div * 1024) else (div, u)
  end.

Definition humanBytes (n : Z) : string :=
  if (n <? 1024)%Z then itoa n +:+ " B"
  else let '(div, u) := unit_of ["K"; "M"; "G"; "T"; "P"; "E"] (n / 1024) 1024 in
       let t := tenths n div in itoa (t / 10) +:+ "." +:+ itoa (t mod 10) +:+ " " +:+ u +:+ "iB".

Definition text (s : string) : LogBuf.bytes := String.list_ascii_of_string s.

Definition maxLogBuf : Z := 1048576.

Definition logInitial (view : LogView) : LogBuf.bytes :=
  lv_Head view ++
  (if (0 <? lv_GapSize view)%Z then text (lf +:+ "··· " +:+ humanBytes (lv_GapSize view) +:+ " omitted ···" +:+ lf) else []) ++
  lv_Tail view.

Definition logAppend (buf : LogBuf.bytes) (gen : Z) (chunk : LogChunk) : LogBuf.bytes * Z :=
  let buf := if negb (lc_Gen chunk =? gen)%Z && negb (gen =? 0)%Z
             then buf ++ text (lf +:+ "··· retry: gen " +:+ itoa (lc_Gen chunk) +:+ " ···" +:+ lf) else buf in
  let gen := if (gen <? lc_Gen chunk)%Z || (gen =? 0)%Z then lc_Gen chunk else gen in
  let buf := buf ++ lc_Data chunk in
  (if (maxLogBuf <? blen buf)%Z then from (blen buf - maxLogBuf) buf else buf, gen).

(** ** Lists on screen *)

Definition window (total height cursor top : Z) : Z :=
  if (height <=? 0)%Z || (total <=? height)%Z then 0
  else
    let top := if (cursor <? top)%Z then cursor else top in
    let top := if (top + height <=? cursor)%Z then (cursor - height + 1)%Z else top in
    let top := if (total - height <? top)%Z then (total - height)%Z else top in
    if (top <? 0)%Z then 0%Z else top.

Definition clamp (v n : Z) : Z :=
  if (n <=? 0)%Z then 0 else if (v <? 0)%Z then 0 else if (n <=? v)%Z then (n - 1)%Z else v.

Fixpoint index_from (i : Z) (rows : list TreeRow) (path : string) : Z :=
  match rows with
  | [] => 0
  | r :: rest => if String.eqb (tr_Path r) path then i else index_from (i + 1) rest path
  end.

Definition indexOfPath (rows : list TreeRow) (path : string) : Z := index_from 0 rows path.

(** Go's [l[i]]: [None] is the panic. *)
Definition at_index {A} (l : list A) (i : Z) : option A := if (i <? 0)%Z then None else l !! Z.to_nat i.

Definition zlen {A} (l : list A) : Z := Z.of_nat (length l).

(** ** The model *)

(** An error the server answered with, or any other. *)
Inductive verr := EServer (t : string) | EOther (t : string).

Definition isServerError (e : verr) : bool := match e with EServer _ => true | EOther _ => false end.

Abbreviation sid := positive.

Record BuildOutcome := mkOutcome { bo_Final : option Snapshot; bo_Detached : bool }.

(** The parts of [buildView]: the watch stream, the tree, the output pane. A
    channel and its cancel function are the stream they belong to; the
    viewport shows [lp_buf]. *)
Record wpart := mkW { wp_seq : Z; wp_ch : option sid; wp_cancel : option sid; wp_err : option verr; wp_pending : bool }.

Record tpart := mkT { tp_graph : option BuildGraph; tp_exp : gmap string bool; tp_visible : list TreeRow; tp_cursor : Z; tp_top : Z }.

Record lpart := mkL {
  lp_node : string; lp_seq : Z; lp_ch : option sid; lp_cancel : option sid; lp_err : option verr; lp_pending : bool;
  lp_buf : LogBuf.bytes; lp_gen : Z; lp_follow : bool; lp_token : Z }.

(** [vw_snap] is [snap] with [haveSnap]. *)
Record buildView := mkBV {
  vw_width : Z; vw_height : Z; vw_outputMax : bool; vw_vpSize : Z * Z; vw_watch : wpart; vw_snap : option Snapshot;
  vw_tree : tpart; vw_log : lpart; vw_confirm : bool; vw_cancelSent : bool; vw_cancelErr : option verr; vw_terminal : bool;
  vw_outcome : BuildOutcome; vw_fatal : option verr }.

Definition set_watch (v : wpart) (m : buildView) : buildView :=
  mkBV (vw_width m) (vw_height m) (vw_outputMax m) (vw_vpSize m) v (vw_snap m) (vw_tree m) (vw_log m) (vw_confirm m) (vw_cancelSent m) (vw_cancelErr m) (vw_terminal m) (vw_outcome m) (vw_fatal m).
Definition set_tree (v : tpart) (m : buildView) : buildView :=
  mkBV (vw_width m) (vw_height m) (vw_outputMax m) (vw_vpSize m) (vw_watch m) (vw_snap m) v (vw_log m) (vw_confirm m) (vw_cancelSent m) (vw_cancelErr m) (vw_terminal m) (vw_outcome m) (vw_fatal m).
Definition set_log (v : lpart) (m : buildView) : buildView :=
  mkBV (vw_width m) (vw_height m) (vw_outputMax m) (vw_vpSize m) (vw_watch m) (vw_snap m) (vw_tree m) v (vw_confirm m) (vw_cancelSent m) (vw_cancelErr m) (vw_terminal m) (vw_outcome m) (vw_fatal m).
Definition set_layout (w h : Z) (out : bool) (vp : Z * Z) (m : buildView) : buildView :=
  mkBV w h out vp (vw_watch m) (vw_snap m) (vw_tree m) (vw_log m) (vw_confirm m) (vw_cancelSent m) (vw_cancelErr m) (vw_terminal m) (vw_outcome m) (vw_fatal m).
Definition set_cancel (confirm sent : bool) (e : option verr) (m : buildView) : buildView :=
  mkBV (vw_width m) (vw_height m) (vw_outputMax m) (vw_vpSize m) (vw_watch m) (vw_snap m) (vw_tree m) (vw_log m) confirm sent e (vw_terminal m) (vw_outcome m) (vw_fatal m).
Definition set_verdict (terminal : bool) (o : BuildOutcome) (fatal : option verr) (m : buildView) : buildView :=
  mkBV (vw_width m) (vw_height m) (vw_outputMax m) (vw_vpSize m) (vw_watch m) (vw_snap m) (vw_tree m) (vw_log m) (vw_confirm m) (vw_cancelSent m) (vw_cancelErr m) terminal o fatal.
Definition set_snap (snap : option Snapshot) (m : buildView) : buildView :=
  mkBV (vw_width m) (vw_height m) (vw_outputMax m) (vw_vpSize m) (vw_watch m) snap (vw_tree m) (vw_log m) (vw_confirm m) (vw_cancelSent m) (vw_cancelErr m) (vw_terminal m) (vw_outcome m) (vw_fatal m).

(** [newBuildView] *)
Definition newBuildView : buildView :=
  mkBV 0 0 false (80, 20)%Z (mkW 1 None None None true) None (mkT None ∅ [] 0 0) (mkL "" 0 None None None false [] 0 true 0)
    false false None false (mkOutcome None false) None.

Inductive msg :=
| MSize (w h : Z)
| MKey (key : string) (atBottom : bool)
| MTick
| MWatchStarted (seq : Z) (s : sid)
| MWatchFailed (seq : Z) (e : verr)
| MWatchEvent (seq : Z) (ev : result verr Snapshot)
| MWatchClosed (seq : Z)
| MLogStarted (seq : Z) (node : string) (view : LogView) (s : sid)
| MLogFailed (seq : Z) (node : string) (e : verr)
| MLogEvent (seq : Z) (ev : result verr LogChunk)
| MLogClosed (seq : Z)
| MLogSel (token : Z)
| MCancelDone (e : option verr).

(** What an update starts; [CStopWatch] and [CStopLog] are calls of a stream's
    cancel function and happen at once. *)
Inductive cmd :=
| CTick
| CWatch (seq : Z)
| CAwaitWatch (seq : Z) (s : sid)
| CLogs (seq : Z) (node : string)
| CAwaitLogs (seq : Z) (s : sid)
| CLogSel (token : Z)
| CCancel
| CQuit
| CStopWatch (s : sid)
| CStopLog (s : sid).

Definition await_watch (seq : Z) (ch : option sid) : list cmd := match ch with Some s => [CAwaitWatch seq s] | None => [] end.
Definition await_logs (seq : Z) (ch : option sid) : list cmd := match ch with Some s => [CAwaitLogs seq s] | None => [] end.

(** ** Layout *)

Definition bodyHeight (m : buildView) : Z := Z.max 1 (vw_height m - 2).
Definition treeHeight (m : buildView) : Z := bodyHeight m.

Definition treeWidth (m : buildView) : Z :=
  if vw_outputMax m then 0
  else
    let w := Z.quot (vw_width m * 2) 5 in
    let w := if (w <? 30)%Z then 30%Z else w in
    let w := if (60 <? w)%Z then 60%Z else w in
    if (vw_width m - 20 <? w)%Z then vw_width m else w.

Definition sizeViewport (m : buildView) : buildView :=
  let ow := if vw_outputMax m then vw_width m else (vw_width m - treeWidth m - 1)%Z in
  set_layout (vw_width m) (vw_height m) (vw_outputMax m) (Z.max 1 ow, Z.max 1 (bodyHeight m - 1)) m.

Section View.
Context {KL : KeyLib}.

(** ** Updates *)

Definition place_cursor (m : buildView) (g : BuildGraph) (exp : gmap string bool) (path : string) : tpart :=
  let visible := FlattenTree g exp in
  let cursor := clamp (indexOfPath visible path) (zlen visible) in
  mkT (Some g) exp visible cursor (window (zlen visible) (treeHeight m) cursor (tp_top (vw_tree m))).

Definition current_path (t : tpart) : option string :=
  if (tp_cursor t <? zlen (tp_visible t))%Z then tr_Path <$> at_index (tp_visible t) (tp_cursor t) else Some "".

Definition selectedLogNode (t : tpart) : option string :=
  match tp_graph t with
  | None => Some ""
  | Some g =>
      if (zlen (tp_visible t) <=? tp_cursor t)%Z then Some ""
      else r ← at_index (tp_visible t) (tp_cursor t);
           Some (match bg_Rows g !! tr_Node r with Some row => br_LogNode row | None => "" end)
  end.

(** [None] is a panic here and below. *)
Definition switchLogs (m : buildView) : option (buildView * list cmd) :=
  want ← selectedLogNode (vw_tree m);
  let l := vw_log m in
  if String.eqb want (lp_node l) then Some (m, [])
  else
    let stop := match lp_cancel l with Some s => [CStopLog s] | None => [] end in
    let l' pending := mkL want (lp_seq l + 1) (lp_ch l) None None pending [] 0 true (lp_token l) in
    if String.eqb want "" then Some (set_log (l' false) m, stop)
    else Some (set_log (l' true) m, stop ++ [CLogs (lp_seq l + 1) want]).

Fixpoint first_failed (g : BuildGraph) (i : Z) (rows : list TreeRow) : option Z :=
  match rows with
  | [] => None
  | r :: rest =>
      match bg_Rows g !! tr_Node r with
      | Some row => if bool_decide (br_Phase row = PhaseFailed) then Some i else first_failed g (i + 1) rest
      | None => first_failed g (i + 1) rest
      end
  end.

Definition applySnapshot (snap : Snapshot) (m : buildView) : option (buildView * list cmd) :=
  path ← current_path (vw_tree m);
  let g := FoldSnapshot snap in
  let t := place_cursor m g (tp_exp (vw_tree m)) path in
  let m := set_tree t (set_snap (Some snap) m) in
  if sn_Terminal snap then
    let m := set_verdict true (mkOutcome (Some snap) (bo_Detached (vw_outcome m))) (vw_fatal m) m in
    if negb (String.eqb (sn_Phase snap) "failed") then Some (m, [CQuit])
    else match first_failed g 0 (tp_visible t) with
      | Some i => switchLogs (set_tree (mkT (tp_graph t) (tp_exp t) (tp_visible t) i (window (zlen (tp_visible t)) (treeHeight m) i (tp_top t))) m)
      | None => switchLogs m
      end
  else switchLogs m.

Definition watchDown (e : verr) (m : buildView) : buildView * list cmd :=
  let w := vw_watch m in
  let stop := match wp_cancel w with Some s => [CStopWatch s] | None => [] end in
  let m := set_watch (mkW (wp_seq w) (wp_ch w) None (Some e) (wp_pending w)) m in
  if isServerError e && negb (vw_terminal m) then (set_verdict (vw_terminal m) (vw_outcome m) (Some e) m, stop ++ [CQuit])
  else (m, stop).

Definition retryWatch (m : buildView) : buildView * list cmd :=
  let w := vw_watch m in
  (set_watch (mkW (wp_seq w + 1) (wp_ch w) (wp_cancel w) (wp_err w) true) m, [CWatch (wp_seq w + 1)]).

Definition moveCursor (delta : Z) (m : buildView) : buildView * list cmd :=
  let t := vw_tree m in
  let l := vw_log m in
  let cursor := clamp (tp_cursor t + delta) (zlen (tp_visible t)) in
  let t := mkT (tp_graph t) (tp_exp t) (tp_visible t) cursor (window (zlen (tp_visible t)) (treeHeight m) cursor (tp_top t)) in
  let l := mkL (lp_node l) (lp_seq l) (lp_ch l) (lp_cancel l) (lp_err l) (lp_pending l) (lp_buf l) (lp_gen l) (lp_follow l) (lp_token l + 1) in
  (set_log l (set_tree t m), [CLogSel (lp_token l)]).

Definition setExpanded (v : bool) (m : buildView) : option buildView :=
  let t := vw_tree m in
  if (zlen (tp_visible t) <=? tp_cursor t)%Z then Some m
  else
    r ← at_index (tp_visible t) (tp_cursor t);
    if negb (tr_HasKids r) then Some m
    else
      g ← tp_graph t;
      Some (set_tree (place_cursor m g (<[tr_Path r := v]> (tp_exp t)) (tr_Path r)) m).

Definition set_follow (v : bool) (l : lpart) : lpart :=
  mkL (lp_node l) (lp_seq l) (lp_ch l) (lp_cancel l) (lp_err l) (lp_pending l) (lp_buf l) (lp_gen l) v (lp_token l).

Definition is_key (keys : list string) (key : string) : bool := existsb (String.eqb key) keys.

Definition updateKey (key : string) (atBottom : bool) (m : buildView) : option (buildView * list cmd) :=
  if vw_confirm m then
    if String.eqb key "y" then Some (set_cancel false true (vw_cancelErr m) m, [CCancel])
    else Some (set_cancel false (vw_cancelSent m) (vw_cancelErr m) m, [])
  else if is_key ["up"; "k"] key then Some (moveCursor (-1) m)
  else if is_key ["down"; "j"] key then Some (moveCursor 1 m)
  else if is_key ["left"; "h"] key then m' ← setExpanded false m; Some (m', [])
  else if is_key ["right"; "l"] key then m' ← setExpanded true m; Some (m', [])
  else if is_key ["enter"; " "; "space"] key then
    let t := vw_tree m in
    if (tp_cursor t <? zlen (tp_visible t))%Z then
      r ← at_index (tp_visible t) (tp_cursor t);
      if tr_HasKids r then m' ← setExpanded (negb (tr_Expanded r)) m; Some (m', []) else Some (m, [])
    else Some (m, [])
  else if String.eqb key "o" then
    Some (sizeViewport (set_layout (vw_width m) (vw_height m) (negb (vw_outputMax m)) (vw_vpSize m) m), [])
  else if is_key ["G"; "end"] key then Some (set_log (set_follow true (vw_log m)) m, [])
  else if is_key ["pgup"; "pgdown"] key then Some (set_log (set_follow atBottom (vw_log m)) m, [])
  else if String.eqb key "q" then
    Some (if vw_terminal m then m
          else set_verdict (vw_terminal m) (mkOutcome (bo_Final (vw_outcome m)) true) (vw_fatal m) m, [CQuit])
  else if is_key ["c"; "ctrl+c"] key then
    if vw_terminal m then Some (m, [CQuit])
    else if negb (vw_cancelSent m) then Some (set_cancel true (vw_cancelSent m) (vw_cancelErr m) m, [])
    else Some (m, [])
  else Some (m, []).

Definition retry_logs (m : buildView) : buildView * list cmd :=
  let l := vw_log m in
  match lp_err l with
  | Some e =>
      if negb (lp_pending l) && negb (String.eqb (lp_node l) "") && negb (isServerError e)
      then (set_log (mkL (lp_node l) (lp_seq l + 1) (lp_ch l) (lp_cancel l) (lp_err l) true (lp_buf l) (lp_gen l) (lp_follow l) (lp_token l)) m,
            [CLogs (lp_seq l + 1) (lp_node l)])
      else (m, [])
  | None => (m, [])
  end.

Definition tick_watch (m : buildView) : buildView * list cmd :=
  match wp_err (vw_watch m) with
  | Some e => if negb (wp_pending (vw_watch m)) && negb (vw_terminal m) && negb (isServerError e) then retryWatch m else (m, [])
  | None => (m, [])
  end.

Definition on_tick (m : buildView) : buildView * list cmd :=
  let '(m, c1) := tick_watch m in
  let '(m, c2) := retry_logs m in
  (m, c1 ++ c2 ++ [CTick]).

Definition on_chunk (chunk : LogChunk) (l : lpart) : lpart :=
  if (lp_gen l <=? lc_Gen chunk)%Z then
    let '(buf, gen) := logAppend (lp_buf l) (lp_gen l) chunk in
    mkL (lp_node l) (lp_seq l) (lp_ch l) (lp_cancel l) (lp_err l) (lp_pending l) buf gen (lp_follow l) (lp_token l)
  else l.

Definition set_log_err (e : verr) (pending : bool) (l : lpart) : lpart :=
  mkL (lp_node l) (lp_seq l) (lp_ch l) (lp_cancel l) (Some e) pending (lp_buf l) (lp_gen l) (lp_follow l) (lp_token l).

Definition Update (x : msg) (m : buildView) : option (buildView * list cmd) :=
  match x with
  | MSize w h => Some (sizeViewport (set_layout w h (vw_outputMax m) (vw_vpSize m) m), [])
  | MKey key atBottom => updateKey key atBottom m
  | MTick => Some (on_tick m)
  | MWatchStarted seq s =>
      let w := vw_watch m in
      if negb (seq =? wp_seq w)%Z then Some (m, [CStopWatch s])
      else Some (set_watch (mkW (wp_seq w) (Some s) (Some s) None false) m, [CAwaitWatch seq s])
  | MWatchFailed seq e =>
      let w := vw_watch m in
      if negb (seq =? wp_seq w)%Z then Some (m, [])
      else Some (watchDown e (set_watch (mkW (wp_seq w) (wp_ch w) (wp_cancel w) (wp_err w) false) m))
  | MWatchEvent seq ev =>
      if negb (seq =? wp_seq (vw_watch m))%Z then Some (m, [])
      else match ev with
      | Err e => Some (watchDown e m)
      | Ok snap =>
          '(next, cs) ← applySnapshot snap m;
          Some (next, if vw_terminal next then cs else cs ++ await_watch seq (wp_ch (vw_watch next)))
      end
  | MWatchClosed seq =>
      if negb (seq =? wp_seq (vw_watch m))%Z then Some (m, [])
      else match vw_snap m with
      | Some snap => if sn_Terminal snap then Some (m, []) else Some (watchDown (EOther "watch stream closed") m)
      | None => Some (watchDown (EOther "watch stream closed") m)
      end
  | MLogStarted seq node view s =>
      let l := vw_log m in
      if negb (seq =? lp_seq l)%Z || negb (String.eqb node (lp_node l)) then Some (m, [CStopLog s])
      else Some (set_log (mkL (lp_node l) (lp_seq l) (Some s) (Some s) None false (logInitial view) (lv_Gen view) (lp_follow l) (lp_token l)) m,
                 [CAwaitLogs seq s])
  | MLogFailed seq node e =>
      let l := vw_log m in
      if negb (seq =? lp_seq l)%Z || negb (String.eqb node (lp_node l)) then Some (m, [])
      else Some (set_log (set_log_err e false l) m, [])
  | MLogEvent seq ev =>
      let l := vw_log m in
      if negb (seq =? lp_seq l)%Z then Some (m, [])
      else match ev with
      | Err e => Some (set_log (set_log_err e (lp_pending l) l) m, [])
      | Ok chunk => Some (set_log (on_chunk chunk l) m, await_logs seq (lp_ch l))
      end
  | MLogClosed _ => Some (m, [])
  | MLogSel token => if negb (token =? lp_token (vw_log m))%Z then Some (m, []) else switchLogs m
  | MCancelDone e => Some (set_cancel (vw_confirm m) (vw_cancelSent m) e m, [])
  end.

(** ** Drawing *)

Definition rowName (row : BuildRow) : string := if String.eqb (br_Label row) "" then shortNode (br_Node row) else br_Label row.

Definition phaseGlyph (p : phase) : string :=
  match p with
  | PhaseDone => "✓" | PhaseFailed | PhaseUpstream => "✗" | PhaseRunning | PhasePublishing => "▶" | PhaseQueued => "◦" | PhaseWaiting | PhaseCancelled => "·"
  end.

Definition buildRowLine (tr : TreeRow) (row : BuildRow) (extra : Z) : string :=
  String.concat "" (replicate (Z.to_nat (tr_Depth tr)) "  ") +:+
  (if tr_HasKids tr then (if tr_Expanded tr then "▾" else "▸") else " ") +:+ " " +:+ phaseGlyph (br_Phase row) +:+ " " +:+ rowName row +:+
  match br_Phase row with
  | PhaseRunning | PhasePublishing =>
      " · " +:+ br_Stage row +:+ " · " +:+ humanAge (i64 (i64 (br_ElapsedMs row * 1000000) + extra)) +:+
      (if String.eqb (br_Runner row) "" then "" else " on " +:+ br_Runner row)
  | PhaseQueued => " · " +:+ br_Stage row +:+ " · queued"
  | PhaseDone => if br_Cached row then " (cached)"
                 else if (0 <? br_ElapsedMs row)%Z then " · " +:+ humanAge (i64 (br_ElapsedMs row * 1000000)) else ""
  | PhaseFailed => " · " +:+ br_Stage row +:+ (if String.eqb (br_Err row) "" then "" else ": " +:+ br_Err row)
  | PhaseUpstream => " · upstream failed"
  | PhaseCancelled => " · cancelled"
  | PhaseWaiting => ""
  end.

(** [treeLines] without padding and styles: the rows of the window, the
    selected one marked; [None] where the code indexes or dereferences out of
    range, or makes a slice of negative capacity. *)
Fixpoint tree_rows (m : buildView) (g : BuildGraph) (extra : Z) (n : nat) (i : Z) : option (list (string * bool)) :=
  match n with
  | O => Some []
  | S n =>
      tr ← at_index (tp_visible (vw_tree m)) i;
      row ← bg_Rows g !! tr_Node tr;
      rest ← tree_rows m g extra n (i + 1);
      Some ((buildRowLine tr row extra, (i =? tp_cursor (vw_tree m))%Z) :: rest)
  end.

Definition treeLines (m : buildView) (extra : Z) : option (list (string * bool)) :=
  match tp_graph (vw_tree m) with
  | None => Some [("waiting for the first snapshot…", false)]
  | Some g =>
      let t := vw_tree m in
      let stop := Z.min (zlen (tp_visible t)) (tp_top t + treeHeight m) in
      if (stop <? tp_top t)%Z then None else tree_rows m g extra (Z.to_nat (stop - tp_top t)) (tp_top t)
  end.

(** The title of the output pane and what is below it. *)
Inductive pane := PaneError (e : verr) | PaneNone | PaneLoading | PaneLog (buf : LogBuf.bytes).

Definition outputLines (m : buildView) : option (string * pane) :=
  let t := vw_tree m in
  let l := vw_log m in
  title ← match tp_graph t with
    | Some g =>
        if (tp_cursor t <? zlen (tp_visible t))%Z then
          r ← at_index (tp_visible t) (tp_cursor t);
          Some ("output: " +:+ match bg_Rows g !! tr_Node r with Some row => rowName row | None => "" end +:+
                (if String.eqb (lp_node l) "" then " (none)" else if lp_follow l then " · following" else " · G to follow"))
        else Some "output"
    | None => Some "output"
    end;
  Some (title, match lp_err l with
    | Some e => PaneError e
    | None => if String.eqb (lp_node l) "" then PaneNone else if lp_pending l then PaneLoading else PaneLog (lp_buf l)
    end).

(** [RunBuildWatch]'s result once the program has quit. *)
Definition view_result (m : buildView) : result verr BuildOutcome :=
  match vw_fatal m with Some e => Err e | None => Ok (vw_outcome m) end.

(** ** The program around the view *)

(** A log stream: its node, the sequence number it was opened for, what the
    server sent. A stream is live until it ends or is stopped. *)
Record lstream := mkLS { ls_node : string; ls_seq : Z; ls_view : LogView; ls_taken : list LogChunk; ls_live : bool }.

Definition kill (ls : lstream) : lstream := mkLS (ls_node ls) (ls_seq ls) (ls_view ls) (ls_taken ls) false.
Definition took (c : LogChunk) (ls : lstream) : lstream := mkLS (ls_node ls) (ls_seq ls) (ls_view ls) (ls_taken ls ++ [c]) (ls_live ls).

Record sys := mkSys { sy_view : buildView; sy_cmds : list cmd; sy_watches : gmap sid bool; sy_logs : gmap sid lstream }.

(** [Init] *)
Definition sys0 : sys := mkSys newBuildView [CTick; CWatch (wp_seq (vw_watch newBuildView))] ∅ ∅.

Definition start (y : sys) (c : cmd) : sys :=
  match c with
  | CStopWatch s => mkSys (sy_view y) (sy_cmds y) (alter (λ _, false) s (sy_watches y)) (sy_logs y)
  | CStopLog s => mkSys (sy_view y) (sy_cmds y) (sy_watches y) (alter kill s (sy_logs y))
  | _ => mkSys (sy_view y) (sy_cmds y ++ [c]) (sy_watches y) (sy_logs y)
  end.

Definition continue (y : sys) (m : buildView) (cs : list cmd) : sys :=
  foldl start (mkSys m (sy_cmds y) (sy_watches y) (sy_logs y)) cs.

(** How a command ends: the streams change, a message comes back. *)
Inductive completes : cmd → gmap sid bool → gmap sid lstream → msg → gmap sid bool → gmap sid lstream → Prop :=
| cp_tick ws ls : completes CTick ws ls MTick ws ls
| cp_sel t ws ls : completes (CLogSel t) ws ls (MLogSel t) ws ls
| cp_cancel e ws ls : completes CCancel ws ls (MCancelDone e) ws ls
| cp_watch_fail q e ws ls : completes (CWatch q) ws ls (MWatchFailed q e) ws ls
| cp_watch q s ws ls : ws !! s = None → completes (CWatch q) ws ls (MWatchStarted q s) (<[s := true]> ws) ls
| cp_snap q s snap ws ls :
    completes (CAwaitWatch q s) ws ls (MWatchEvent q (Ok snap)) (if sn_Terminal snap then alter (λ _, false) s ws else ws) ls
| cp_watch_err q s e ws ls : completes (CAwaitWatch q s) ws ls (MWatchEvent q (Err e)) (alter (λ _, false) s ws) ls
| cp_watch_end q s ws ls : ws !! s ≠ Some true → completes (CAwaitWatch q s) ws ls (MWatchClosed q) ws ls
| cp_log_fail q n e ws ls : completes (CLogs q n) ws ls (MLogFailed q n e) ws ls
| cp_log q n v s ws ls : ls !! s = None → completes (CLogs q n) ws ls (MLogStarted q n v s) ws (<[s := mkLS n q v [] true]> ls)
| cp_chunk q s c ws ls : completes (CAwaitLogs q s) ws ls (MLogEvent q (Ok c)) ws (alter (took c) s ls)
| cp_log_err q s e ws ls : completes (CAwaitLogs q s) ws ls (MLogEvent q (Err e)) ws (alter kill s ls)
| cp_log_end q s ws ls : (∀ st, ls !! s = Some st → ls_live st = false) → completes (CAwaitLogs q s) ws ls (MLogClosed q) ws ls.

Inductive sys_step : sys → sys → Prop :=
| ss_user y x m cs : (∃ w h, x = MSize w h) ∨ (∃ k b, x = MKey k b) → Update x (sy_view y) = Some (m, cs) → sys_step y (continue y m cs)
| ss_cmd y pre c post x ws ls m cs : sy_cmds y = pre ++ c :: post → completes c (sy_watches y) (sy_logs y) x ws ls →
    Update x (sy_view y) = Some (m, cs) → sys_step y (continue (mkSys (sy_view y) (pre ++ post) ws ls) m cs).

Definition view_reachable (y : sys) : Prop := rtc sys_step sys0 y.

End View.
