(* ===== verification/BuildViewFacts.v ===== *)
(** * The build view is sound

    The invariant of every reachable state of BuildView: the cursor and the
    window lie in the tree, the commands in flight of each stream are at most
    one, and what is open is what the view can stop. *)
From S2P Require Import Prelude GoLib Resources Keys Wire Builddef Store Gate Commit LogBuf SchedState Graph Results Submit Watch Api LiveView LogTracker WatchClient BuildTree BuildView.
From Stdlib Require Import Ascii.
Local Open Scope string_scope.
Local Open Scope list_scope.

Section View.
Context {KL : KeyLib}.

(** ** The tree *)

Record tree_ok (m : buildView) : Prop := {
  to_graph : tp_graph (vw_tree m) = FoldSnapshot <$> vw_snap m;
  to_visible : tp_visible (vw_tree m) = match tp_graph (vw_tree m) with Some g => FlattenTree g (tp_exp (vw_tree m)) | None => [] end;
  to_cursor : (0 <= tp_cursor (vw_tree m) <= Z.max 0 (zlen (tp_visible (vw_tree m)) - 1))%Z;
  to_top : (0 <= tp_top (vw_tree m) <= zlen (tp_visible (vw_tree m)))%Z }.

Lemma zlen_nonneg {A} (l : list A) : (0 <= zlen l)%Z.
Proof. unfold zlen. lia. Qed.

Lemma window_range total h c t : (0 <= total)%Z → (0 <= window total h c t <= total)%Z.
Proof.
  intros Ht. unfold window. destruct (Z.leb_spec h 0), (Z.leb_spec total h); cbn [orb]; try lia.
  repeat case_match; repeat match goal with H : (_ <? _)%Z = _ |- _ => apply Z.ltb_lt in H || apply Z.ltb_ge in H end; lia.
Qed.

(** After it is recomputed, the window has the cursor. *)
Lemma window_shows total h c t : (0 < h)%Z → (0 <= c < total)%Z → (window total h c t <= c < window total h c t + h)%Z.
Proof.
  intros Hh Hc. unfold window. destruct (Z.leb_spec h 0), (Z.leb_spec total h); cbn [orb]; try lia.
  repeat case_match; repeat match goal with
    | H : (_ <? _)%Z = _ |- _ => apply Z.ltb_lt in H || apply Z.ltb_ge in H
    | H : (_ <=? _)%Z = _ |- _ => apply Z.leb_le in H || apply Z.leb_gt in H end; lia.
Qed.

Lemma clamp_range v n : (0 <= n)%Z → (0 <= clamp v n <= Z.max 0 (n - 1))%Z.
Proof. intros Hn. unfold clamp. destruct (Z.leb_spec n 0), (Z.ltb_spec v 0), (Z.leb_spec n v); lia. Qed.

Lemma at_index_some {A} (l : list A) i : (0 <= i < zlen l)%Z → is_Some (at_index l i).
Proof. unfold at_index, zlen. intros H. destruct (Z.ltb_spec i 0); [lia|]. apply lookup_lt_is_Some. lia. Qed.

Lemma at_index_elem {A} (l : list A) i x : at_index l i = Some x → x ∈ l.
Proof. unfold at_index. case_match; [done|]. apply list_elem_of_lookup_2. Qed.

Lemma first_failed_range g rows : ∀ i j, first_failed g i rows = Some j → (i <= j < i + zlen rows)%Z.
Proof.
  unfold zlen. induction rows as [|r rows IH]; intros i j; simpl; [done|]. repeat case_match; [intros [= ->]; lia|intros ?%IH; lia..].
Qed.

Lemma tree_ok_ext m m' : vw_tree m' = vw_tree m → vw_snap m' = vw_snap m → tree_ok m → tree_ok m'.
Proof. intros Et Es [H1 H2 H3 H4]. split; rewrite ?Et, ?Es; done. Qed.

Lemma place_cursor_ok m g exp path m' : vw_tree m' = place_cursor m g exp path → Some g = FoldSnapshot <$> vw_snap m' → tree_ok m'.
Proof.
  intros Et Es. split; rewrite Et; simpl; [done|done|apply clamp_range, zlen_nonneg|apply window_range, zlen_nonneg].
Qed.

Lemma cursor_row m : tree_ok m → (tp_cursor (vw_tree m) < zlen (tp_visible (vw_tree m)))%Z →
  ∃ r g, at_index (tp_visible (vw_tree m)) (tp_cursor (vw_tree m)) = Some r ∧ tp_graph (vw_tree m) = Some g ∧ r ∈ FlattenTree g (tp_exp (vw_tree m)).
Proof.
  intros [H1 H2 H3 H4] Hlt. destruct (at_index_some (tp_visible (vw_tree m)) (tp_cursor (vw_tree m))) as [r E]; [lia|].
  pose proof (at_index_elem _ _ _ E) as Hin. rewrite H2 in Hin. destruct (tp_graph (vw_tree m)) as [g|] eqn:Eg; [|by apply elem_of_nil in Hin].
  exists r, g. done.
Qed.

(** Every part of an update returns, and keeps the tree. *)
Definition tame (o : option (buildView * list cmd)) : Prop := ∃ m cs, o = Some (m, cs) ∧ tree_ok m.

Lemma switchLogs_tame m : tree_ok m → tame (switchLogs m).
Proof.
  intros Hm. unfold switchLogs. assert (Hs : is_Some (selectedLogNode (vw_tree m))).
  { unfold selectedLogNode. destruct (tp_graph (vw_tree m)) as [g|] eqn:Eg; [|by eexists]. destruct (Z.leb_spec (zlen (tp_visible (vw_tree m))) (tp_cursor (vw_tree m))); [by eexists|].
    destruct (cursor_row m Hm) as (r & g' & -> & _); [done|]. by eexists. }
  destruct Hs as [want ->]. cbn [mbind option_bind]. repeat case_match; (eexists _, _; split; [done|]); [done|by apply (tree_ok_ext m)..].
Qed.

Lemma current_path_some m : tree_ok m → is_Some (current_path (vw_tree m)).
Proof.
  intros Hm. unfold current_path. case_match eqn:E; [|by eexists]. apply Z.ltb_lt in E.
  destruct (cursor_row m Hm E) as (r & g & -> & _). by eexists.
Qed.

Lemma applySnapshot_tame snap m : tree_ok m → tame (applySnapshot snap m).
Proof.
  intros Hm. unfold applySnapshot. destruct (current_path_some m Hm) as [path ->]. cbn [mbind option_bind].
  set (t := place_cursor m _ _ _). set (m1 := set_tree t (set_snap (Some snap) m)).
  assert (H1 : tree_ok m1) by (by eapply place_cursor_ok). destruct (sn_Terminal snap); [|by apply switchLogs_tame].
  set (m2 := set_verdict _ _ _ m1). assert (H2 : tree_ok m2) by (by apply (tree_ok_ext m1)). case_match; [by eexists _, _|].
  destruct (first_failed _ _ _) as [i|] eqn:Ef; [|by apply switchLogs_tame]. apply switchLogs_tame.
  apply first_failed_range in Ef. destruct H2 as [G1 G2 G3 G4].
  split; [done|done|cbn [vw_tree set_tree tp_cursor tp_visible]; lia|apply window_range, zlen_nonneg].
Qed.

Lemma setExpanded_tame v m : tree_ok m → ∃ m', setExpanded v m = Some m' ∧ tree_ok m'.
Proof.
  intros Hm. unfold setExpanded. destruct (Z.leb_spec (zlen (tp_visible (vw_tree m))) (tp_cursor (vw_tree m))); [by eexists|].
  destruct (cursor_row m Hm) as (r & g & -> & Eg & _); [done|]. cbn [mbind option_bind]. case_match; [by eexists|]. rewrite Eg. cbn [mbind option_bind].
  eexists. split; [done|]. eapply place_cursor_ok; [done|]. simpl. rewrite <- Eg. apply Hm.
Qed.

Lemma moveCursor_tame d m : tree_ok m → tree_ok (moveCursor d m).1.
Proof.
  intros [H1 H2 H3 H4]. split; simpl; [done|done|apply clamp_range, zlen_nonneg|apply window_range, zlen_nonneg].
Qed.

Lemma watchDown_tree e m : tree_ok m → tree_ok (watchDown e m).1.
Proof. intros Hm. unfold watchDown. apply (tree_ok_ext m); [| |done]; by case_match. Qed.

Lemma on_tick_tree m : tree_ok m → tree_ok (on_tick m).1.
Proof. intros Hm. apply (tree_ok_ext m); [| |done]; unfold on_tick, tick_watch, retryWatch, retry_logs; repeat case_match; by simplify_eq. Qed.

Lemma updateKey_tame key b m : tree_ok m → tame (updateKey key b m).
Proof.
  intros Hm. unfold updateKey, tame.
  destruct (vw_confirm m); [case_match; (eexists _, _; split; [done|by apply (tree_ok_ext m)])|].
  case_match; [eexists _, _; split; [done|by apply (moveCursor_tame (-1))]|].
  case_match; [eexists _, _; split; [done|by apply (moveCursor_tame 1)]|].
  case_match; [destruct (setExpanded_tame false m Hm) as (m' & -> & H'); by eexists _, _|].
  case_match; [destruct (setExpanded_tame true m Hm) as (m' & -> & H'); by eexists _, _|].
  case_match.
  { case_match eqn:E; [|by eexists _, _]. apply Z.ltb_lt in E. destruct (cursor_row m Hm E) as (r & g & -> & _). cbn [mbind option_bind].
    case_match; [|by eexists _, _]. destruct (setExpanded_tame (negb (tr_Expanded r)) m Hm) as (m' & -> & H'). by eexists _, _. }
  repeat case_match; (eexists _, _; split; [done|]); try done; by apply (tree_ok_ext m).
Qed.

Lemma Update_tame x m : tree_ok m → tame (Update x m).
Proof.
  intros Hm. destruct x; cbn [Update]; try by apply updateKey_tame.
  - eexists _, _. split; [done|by apply (tree_ok_ext m)].
  - destruct (on_tick m) as [m' cs] eqn:E. exists m', cs. split; [done|]. change m' with (m', cs).1. rewrite <- E. by apply on_tick_tree.
  - case_match; (eexists _, _; split; [done|]); [done|by apply (tree_ok_ext m)].
  - case_match; [by eexists _, _|]. set (m1 := set_watch _ m). destruct (watchDown e m1) as [m' cs] eqn:E. exists m', cs. split; [done|].
    change m' with (m', cs).1. rewrite <- E. apply watchDown_tree. by apply (tree_ok_ext m).
  - case_match; [by eexists _, _|]. destruct ev as [snap|e].
    + destruct (applySnapshot_tame snap m Hm) as (m' & cs & -> & H'). cbn [mbind option_bind]. by eexists _, _.
    + destruct (watchDown e m) as [m' cs] eqn:E. exists m', cs. split; [done|]. change m' with (m', cs).1. rewrite <- E. by apply watchDown_tree.
  - case_match; [by eexists _, _|]. pose proof (watchDown_tree (EOther "watch stream closed") m Hm) as Hd.
    destruct (watchDown (EOther "watch stream closed") m) as [m' cs]. destruct (vw_snap m) as [snap|]; [destruct (sn_Terminal snap)|]; by eexists _, _.
  - case_match; (eexists _, _; split; [done|]); [done|by apply (tree_ok_ext m)].
  - case_match; (eexists _, _; split; [done|]); [done|by apply (tree_ok_ext m)].
  - case_match; [by eexists _, _|]. destruct ev; (eexists _, _; split; [done|by apply (tree_ok_ext m)]).
  - by eexists _, _.
  - case_match; [by eexists _, _|]. by apply switchLogs_tame.
  - eexists _, _. split; [done|by apply (tree_ok_ext m)].
Qed.

(** Drawing returns too. *)
Lemma tree_rows_some m g extra n : ∀ i, (∀ r, r ∈ tp_visible (vw_tree m) → is_Some (bg_Rows g !! tr_Node r)) →
  (0 <= i)%Z → (i + Z.of_nat n <= zlen (tp_visible (vw_tree m)))%Z → is_Some (tree_rows m g extra n i).
Proof.
  induction n as [|n IH]; intros i Hr Hi Hl; cbn [tree_rows]; [by eexists|].
  destruct (at_index_some (tp_visible (vw_tree m)) i) as [r E]; [lia|]. rewrite E. cbn [mbind option_bind].
  destruct (Hr r (at_index_elem _ _ _ E)) as [row ->]. cbn [mbind option_bind]. destruct (IH (i + 1)%Z Hr) as [rest ->]; [lia..|]. by eexists.
Qed.

Lemma treeLines_some m extra : tree_ok m → is_Some (treeLines m extra).
Proof.
  intros [H1 H2 H3 H4]. unfold treeLines. destruct (tp_graph (vw_tree m)) as [g|] eqn:Eg; [|by eexists].
  pose proof (Z.le_max_l 1 (vw_height m - 2)) as Hh. fold (bodyHeight m) in Hh. fold (treeHeight m) in Hh.
  case_match eqn:E; [apply Z.ltb_lt in E; lia|]. apply Z.ltb_ge in E. apply tree_rows_some; [|lia..].
  intros r Hr. rewrite H2 in Hr. by eapply flatten_known.
Qed.

Lemma outputLines_some m : tree_ok m → is_Some (outputLines m).
Proof.
  intros Hm. unfold outputLines. destruct (tp_graph (vw_tree m)) as [g|] eqn:Eg; [|cbn [mbind option_bind]; by eexists].
  destruct (Z.ltb_spec (tp_cursor (vw_tree m)) (zlen (tp_visible (vw_tree m)))) as [E|]; [|cbn [mbind option_bind]; by eexists].
  destruct (cursor_row m Hm E) as (r & g' & -> & _). cbn [mbind option_bind]. by eexists.
Qed.

(** ** The output pane *)

Definition is_logc (c : cmd) : bool := match c with CLogs _ _ | CAwaitLogs _ _ => true | _ => false end.
Definition is_watchc (c : cmd) : bool := match c with CWatch _ | CAwaitWatch _ _ => true | _ => false end.
Definition log_cmds (cs : list cmd) : list cmd := List.filter is_logc cs.
Definition watch_cmds (cs : list cmd) : list cmd := List.filter is_watchc cs.

Definition log_seq (c : cmd) : Z := match c with CLogs q _ | CAwaitLogs q _ => q | _ => 0 end.
Definition log_now (seq : Z) (lc : list cmd) : list cmd := List.filter (λ c, (log_seq c =? seq)%Z) lc.

(** What the pane shows of a stream. *)
Definition render_one (a : LogBuf.bytes * Z) (c : LogChunk) : LogBuf.bytes * Z := if (a.2 <=? lc_Gen c)%Z then logAppend a.1 a.2 c else a.
Definition rendered (ls : lstream) : LogBuf.bytes * Z := foldl render_one (logInitial (ls_view ls), lv_Gen (ls_view ls)) (ls_taken ls).

Definition stopped (s : option sid) (logs : gmap sid lstream) : Prop := ∀ p ls, s = Some p → logs !! p = Some ls → ls_live ls = false.

(** The text is of a stream nobody reads any more, or there is none. *)
Definition kept (l : lpart) (lc : list cmd) (logs : gmap sid lstream) : Prop :=
  (lp_buf l = [] ∧ lp_gen l = 0%Z) ∨
  ∃ p ls, logs !! p = Some ls ∧ ls_node ls = lp_node l ∧ (lp_buf l, lp_gen l) = rendered ls ∧ ∀ q, CAwaitLogs q p ∉ lc.

Inductive log_phase (l : lpart) (lc : list cmd) (logs : gmap sid lstream) : list cmd → Prop :=
| lph_idle : stopped (lp_cancel l) logs → kept l lc logs → log_phase l lc logs []
| lph_starting : lp_pending l = true → stopped (lp_cancel l) logs → kept l lc logs → log_phase l lc logs [CLogs (lp_seq l) (lp_node l)]
| lph_following p ls : lp_cancel l = Some p → lp_ch l = Some p → lp_err l = None → lp_pending l = false → logs !! p = Some ls →
    ls_node ls = lp_node l → ls_seq ls = lp_seq l → (lp_buf l, lp_gen l) = rendered ls → log_phase l lc logs [CAwaitLogs (lp_seq l) p].

Record log_inv (l : lpart) (lc : list cmd) (logs : gmap sid lstream) : Prop := {
  li_bound : ∀ c, c ∈ lc → (log_seq c <= lp_seq l)%Z;
  li_await : ∀ q p, CAwaitLogs q p ∈ lc → ∃ ls, logs !! p = Some ls ∧ ls_seq ls = q;
  li_live : ∀ p ls, logs !! p = Some ls → ls_live ls = true → lp_cancel l = Some p;
  li_phase : log_phase l lc logs (log_now (lp_seq l) lc) }.

(** The text of a stream from attempt [g] on, untrimmed: chunks of attempts
    already superseded are dropped, a new attempt is announced. *)
Fixpoint transcript (g : Z) (cs : list LogChunk) : LogBuf.bytes :=
  match cs with
  | [] => []
  | c :: rest =>
      if (lc_Gen c <? g)%Z then transcript g rest
      else (if (g =? 0)%Z || (lc_Gen c =? g)%Z then [] else text (lf +:+ "··· retry: gen " +:+ itoa (lc_Gen c) +:+ " ···" +:+ lf)) ++
           lc_Data c ++ transcript (lc_Gen c) rest
  end.

(** All that the stream brought: the server's view of what came before it, then
    the chunks that were taken from it. *)
Definition stream_text (ls : lstream) : LogBuf.bytes := logInitial (ls_view ls) ++ transcript (lv_Gen (ls_view ls)) (ls_taken ls).

(** The whole of [t], or its last MiB. *)
Definition tail_of (b t : LogBuf.bytes) : Prop :=
  ∃ k, (k <= length t)%nat ∧ b = drop k t ∧ (k ≠ 0%nat → blen b = maxLogBuf).

Lemma tail_of_append b t x : tail_of b t →
  tail_of (if (maxLogBuf <? blen (b ++ x))%Z then from (blen (b ++ x) - maxLogBuf) (b ++ x) else b ++ x) (t ++ x).
Proof.
  intros (k & Hk & -> & Hl). assert (E : drop k t ++ x = drop k (t ++ x)) by (by rewrite drop_app_le).
  unfold blen in *. rewrite E. destruct (Z.ltb_spec maxLogBuf (Z.of_nat (length (drop k (t ++ x))))) as [Hm|Hm].
  - exists (k + Z.to_nat (Z.of_nat (length (drop k (t ++ x))) - maxLogBuf))%nat. unfold from. rewrite drop_drop.
    assert (Hmax : (0 <= maxLogBuf)%Z) by (by unfold maxLogBuf).
    split; [rewrite length_drop in *; lia|]. split; [done|]. intros _. unfold blen. rewrite !length_drop in *. lia.
  - exists k. split; [rewrite length_app; lia|]. split; [done|]. intros Hk0. specialize (Hl Hk0).
    unfold blen. rewrite !length_drop in *. rewrite length_app in *. lia.
Qed.

Lemma render_one_text b g c t : tail_of b t →
  ∃ b' g', render_one (b, g) c = (b', g') ∧ tail_of b' (t ++ transcript g [c]) ∧ ∀ cs, transcript g (c :: cs) = transcript g [c] ++ transcript g' cs.
Proof.
  intros Ht. unfold render_one. cbn [fst snd transcript]. destruct (Z.leb_spec g (lc_Gen c)) as [Hg|Hg].
  2:{ exists b, g. destruct (Z.ltb_spec (lc_Gen c) g); [|lia]. rewrite app_nil_r. done. }
  destruct (Z.ltb_spec (lc_Gen c) g); [lia|]. unfold logAppend. set (mk := text _).
  assert (Eg : (if (g <? lc_Gen c)%Z || (g =? 0)%Z then lc_Gen c else g) = lc_Gen c).
  { destruct (Z.ltb_spec g (lc_Gen c)), (Z.eqb_spec g 0); simpl; lia. }
  assert (Em : (if negb (lc_Gen c =? g)%Z && negb (g =? 0)%Z then b ++ mk else b) = b ++ (if (g =? 0)%Z || (lc_Gen c =? g)%Z then [] else mk)).
  { destruct (lc_Gen c =? g)%Z, (g =? 0)%Z; simpl; by rewrite ?app_nil_r. }
  rewrite Eg, Em. eexists _, _. split; [done|]. rewrite app_nil_r. split.
  - rewrite <- !app_assoc. by apply tail_of_append.
  - intros cs. by rewrite <- !app_assoc.
Qed.

(** The pane's text is the stream's, trimmed to the last MiB. *)
Lemma rendered_text ls : tail_of (rendered ls).1 (stream_text ls).
Proof.
  unfold rendered, stream_text. assert (H0 : tail_of (logInitial (ls_view ls)) (logInitial (ls_view ls))) by (exists 0%nat; split; [lia|done]).
  revert H0. generalize (logInitial (ls_view ls)) at 1 3 as b. generalize (logInitial (ls_view ls)) as t. generalize (lv_Gen (ls_view ls)) as g.
  induction (ls_taken ls) as [|c cs IH]; intros g t b Ht; cbn [foldl]; [cbn [fst transcript]; by rewrite app_nil_r|].
  destruct (render_one_text b g c t Ht) as (b' & g' & -> & Ht' & Ecs). rewrite Ecs, app_assoc. by apply IH.
Qed.

(** What is said of the pane. *)
Definition pane_shows (l : lpart) (logs : gmap sid lstream) : Prop :=
  lp_buf l = [] ∨ ∃ p ls, logs !! p = Some ls ∧ ls_node ls = lp_node l ∧ tail_of (lp_buf l) (stream_text ls).

Lemma log_inv_pane l lc logs : log_inv l lc logs → pane_shows l logs.
Proof.
  intros [_ _ _ Hp]. inversion Hp as [_ Hk|_ _ Hk|p ls _ _ _ _ E En _ Er]; [destruct Hk as [[? _]|(p & ls & E & En & Er & _)]..|];
    [by left| |by left|..]; right; exists p, ls; (split; [done|]); (split; [done|]);
    replace (lp_buf l) with (rendered ls).1 by (by rewrite <- Er); apply rendered_text.
Qed.

(** The fields an update of the pane leaves alone. *)
Definition same_log (l l' : lpart) : Prop :=
  lp_node l' = lp_node l ∧ lp_seq l' = lp_seq l ∧ lp_ch l' = lp_ch l ∧ lp_cancel l' = lp_cancel l ∧ lp_err l' = lp_err l ∧
  lp_pending l' = lp_pending l ∧ lp_buf l' = lp_buf l ∧ lp_gen l' = lp_gen l.

Lemma log_inv_same l l' lc logs : same_log l l' → log_inv l lc logs → log_inv l' lc logs.
Proof.
  destruct l, l'. intros (?&?&?&?&?&?&?&?). simpl in *. subst. intros [H1 H2 H3 H4]. split; [done..|]. simpl in *.
  inversion H4; [by apply lph_idle|by apply lph_starting|by eapply lph_following].
Qed.

(** Switching and retrying. *)
Definition switched (l : lpart) (want : string) : lpart :=
  mkL want (lp_seq l + 1) (lp_ch l) None None (negb (String.eqb want "")) [] 0 true (lp_token l).

Lemma log_now_bound seq lc : (∀ c, c ∈ lc → (log_seq c < seq)%Z) → log_now seq lc = [].
Proof.
  intros H. induction lc as [|c lc IH]; simpl; [done|]. destruct (Z.eqb_spec (log_seq c) seq) as [E|].
  - specialize (H c ltac:(left)). lia.
  - apply IH. intros c' Hc'. apply H. by right.
Qed.

Lemma log_now_next l lc logs : log_inv l lc logs → log_now (lp_seq l + 1) lc = [].
Proof. intros [H1 _ _ _]. apply log_now_bound. intros c Hc. specialize (H1 c Hc). lia. Qed.

Definition kill_opt (s : option sid) (logs : gmap sid lstream) : gmap sid lstream := match s with Some p => alter kill p logs | None => logs end.

Lemma kill_opt_lookup s logs p ls : kill_opt s logs !! p = Some ls →
  ∃ ls0, logs !! p = Some ls0 ∧ ls_seq ls = ls_seq ls0 ∧ (ls_live ls = true → ls_live ls0 = true ∧ s ≠ Some p).
Proof.
  destruct s as [q|]; simpl; [|intros E; exists ls; by split_and!]. rewrite lookup_alter. case_decide as Hq.
  - subst. intros (ls0 & E & ->)%fmap_Some. exists ls0. split_and!; [done|done|done].
  - intros E. exists ls. split_and!; [done|done|]. intros Hl. split; [done|]. congruence.
Qed.

Lemma kill_opt_seq s logs p ls : logs !! p = Some ls → ∃ ls', kill_opt s logs !! p = Some ls' ∧ ls_seq ls' = ls_seq ls.
Proof.
  intros E. destruct s as [q|]; simpl; [|by exists ls]. rewrite lookup_alter. case_decide; [|by exists ls]. subst. rewrite E. by eexists.
Qed.

Lemma switch_inv l lc logs want : log_inv l lc logs →
  log_inv (switched l want) (lc ++ if String.eqb want "" then [] else [CLogs (lp_seq l + 1) want]) (kill_opt (lp_cancel l) logs).
Proof.
  intros Hi. pose proof (log_now_next _ _ _ Hi) as Hn. destruct Hi as [H1 H2 H3 H4].
  assert (Hk : kept (switched l want) (lc ++ if String.eqb want "" then [] else [CLogs (lp_seq l + 1) want]) (kill_opt (lp_cancel l) logs)) by (by left).
  assert (Hs : stopped (lp_cancel (switched l want)) (kill_opt (lp_cancel l) logs)) by (by intros p ls).
  split.
  - simpl. intros c [Hc%H1|Hc]%elem_of_app; [lia|]. destruct (String.eqb want ""); [by apply elem_of_nil in Hc|]. apply list_elem_of_singleton in Hc as ->. simpl. lia.
  - intros q p [Hc|Hc]%elem_of_app.
    + destruct (H2 _ _ Hc) as (ls & E & <-). by apply kill_opt_seq.
    + destruct (String.eqb want ""); [by apply elem_of_nil in Hc|]. by apply list_elem_of_singleton in Hc.
  - intros p ls (ls0 & E & _ & Hl)%kill_opt_lookup Hlive. destruct (Hl Hlive) as [Hl0 Hne]. by destruct Hne; apply (H3 p ls0).
  - assert (En : log_now (lp_seq (switched l want)) (lc ++ if String.eqb want "" then [] else [CLogs (lp_seq l + 1) want]) =
      if String.eqb want "" then [] else [CLogs (lp_seq l + 1) want]).
    { unfold log_now in *. simpl. rewrite List.filter_app, Hn. destruct (String.eqb want ""); simpl; [done|]. by rewrite Z.eqb_refl. }
    rewrite En. destruct (String.eqb want "") eqn:Ew; [by apply lph_idle|]. apply (lph_starting (switched l want)); [simpl; by rewrite Ew|done|done].
Qed.

Definition retried (l : lpart) : lpart :=
  mkL (lp_node l) (lp_seq l + 1) (lp_ch l) (lp_cancel l) (lp_err l) true (lp_buf l) (lp_gen l) (lp_follow l) (lp_token l).

Lemma retry_inv l lc logs : log_inv l lc logs → lp_err l ≠ None → lp_pending l = false →
  log_inv (retried l) (lc ++ [CLogs (lp_seq l + 1) (lp_node l)]) logs.
Proof.
  intros Hi He Hp. pose proof (log_now_next _ _ _ Hi) as Hn. destruct Hi as [H1 H2 H3 H4]. split.
  - simpl. intros c [Hc%H1| ->%list_elem_of_singleton]%elem_of_app; simpl; lia.
  - intros q p [Hc|Hc%list_elem_of_singleton]%elem_of_app; [by apply H2|done].
  - done.
  - simpl. unfold log_now in *. rewrite List.filter_app, Hn. simpl. rewrite Z.eqb_refl.
    inversion H4 as [Hs Hk|Hpend|]; [|congruence..]. apply (lph_starting (retried l)); [done|done|].
    destruct Hk as [Hb|(p & ls & E & En & Er & Hq)]; [by left|]. right. exists p, ls. split_and!; [done..|].
    intros q [Hc|Hc%list_elem_of_singleton]%elem_of_app; [by apply (Hq q)|done].
Qed.

(** Completed commands of the pane. *)
Lemma now_split seq a c b : log_now seq (a ++ c :: b) = log_now seq a ++ (if (log_seq c =? seq)%Z then [c] else []) ++ log_now seq b.
Proof. unfold log_now. rewrite List.filter_app. simpl. by destruct (log_seq c =? seq)%Z. Qed.

Lemma now_app seq a b : log_now seq (a ++ b) = log_now seq a ++ log_now seq b.
Proof. apply List.filter_app. Qed.

Lemma phase_token l lc logs seq a c b : log_phase l lc logs (log_now seq (a ++ c :: b)) → log_seq c = seq →
  log_now seq (a ++ b) = [] ∧ log_phase l lc logs [c].
Proof.
  intros Hp <-. rewrite now_split, Z.eqb_refl in Hp. rewrite now_app.
  assert (Hl : log_now (log_seq c) a = [] ∧ log_now (log_seq c) b = []).
  { destruct (log_now (log_seq c) a) as [|x a'], (log_now (log_seq c) b) as [|z b']; [done|..]; exfalso; inversion Hp; by destruct a'. }
  destruct Hl as [Ea Eb]. rewrite Ea, Eb in *. done.
Qed.

Lemma elem_removed {A} (a b : list A) c x : x ∈ a ++ b → x ∈ a ++ c :: b.
Proof. rewrite !elem_of_app, elem_of_cons. tauto. Qed.

Lemma kept_fewer l lc lc' logs : (∀ q p, CAwaitLogs q p ∈ lc' → CAwaitLogs q p ∈ lc) → kept l lc logs → kept l lc' logs.
Proof. intros H [?|(p & ls & E & En & Er & Hq)]; [by left|]. right. exists p, ls. split_and!; [done..|]. intros q Hin. by apply (Hq q), H. Qed.

(** A change of one stream that keeps what others rely on. *)
Definition touches (f : lstream → lstream) : Prop :=
  ∀ ls, ls_node (f ls) = ls_node ls ∧ ls_seq (f ls) = ls_seq ls ∧ (ls_live (f ls) = true → ls_live ls = true).

Lemma alter_log (f : lstream → lstream) (p q : sid) (logs : gmap sid lstream) ls : alter f p logs !! q = Some ls →
  (q = p ∧ ∃ ls0, logs !! p = Some ls0 ∧ ls = f ls0) ∨ (q ≠ p ∧ logs !! q = Some ls).
Proof. rewrite lookup_alter. case_decide; [subst; intros (ls0 & E & ->)%fmap_Some; left; eauto|right; done]. Qed.

Lemma touched_inv f (p : sid) a c b l logs : touches f → log_inv l (a ++ c :: b) logs → log_seq c ≠ lp_seq l →
  (∀ q p', c = CAwaitLogs q p' → p = p') → (∀ n q, c = CLogs q n → logs !! p = None) → is_logc c = true →
  log_inv l (a ++ b) (alter f p logs).
Proof.
  intros Hf [H1 H2 H3 H4] Hne Hc Hn Hl.
  assert (Hst : stopped (lp_cancel l) logs → stopped (lp_cancel l) (alter f p logs)).
  { intros Hs x ls Ex [[-> (ls0 & E & ->)]|[_ E]]%alter_log; [|by eapply Hs]. destruct (ls_live (f ls0)) eqn:El; [|done].
    apply Hf in El. by rewrite (Hs p ls0 Ex E) in El. }
  assert (Hk : kept l (a ++ c :: b) logs → kept l (a ++ b) (alter f p logs)).
  { intros [?|(x & ls & E & En & Er & Hq)]; [by left|]. right. exists x, ls. rewrite lookup_alter. case_decide as Hx; [|split_and!; [done..|intros q Hin; by eapply Hq, elem_removed]].
    subst x. exfalso. destruct c; try done; [by rewrite (Hn _ _ eq_refl) in E|]. rewrite <- (Hc _ _ eq_refl) in Hq. apply (Hq seq). apply elem_of_app. right. left. }
  split.
  - intros x Hx. by apply H1, elem_removed.
  - intros q x Hx. destruct (H2 q x) as (ls & E & Eq); [by apply elem_removed|]. rewrite lookup_alter. case_decide; [|by exists ls].
    subst. rewrite E. eexists. split; [done|]. by destruct (Hf ls) as (_ & -> & _).
  - intros x ls [[-> (ls0 & E & ->)]|[_ E]]%alter_log Hlive; [|by eapply H3]. eapply H3; [exact E|]. by apply Hf.
  - rewrite now_split in H4. destruct (Z.eqb_spec (log_seq c) (lp_seq l)); [done|]. simpl in H4. rewrite <- now_app in H4.
    inversion H4 as [Hs Hkp E|Hp Hs Hkp E|x ls Ec Ech Ee Ep El En Es Er E].
    + apply lph_idle; auto.
    + apply lph_starting; auto.
    + eapply (lph_following _ _ _ x ls); try done. rewrite lookup_alter. case_decide as Hx; [|done]. subst x. exfalso. destruct c; try done.
      * by rewrite (Hn _ _ eq_refl) in El.
      * destruct (H2 seq s) as (ls' & E' & Eq); [apply elem_of_app; right; left|]. rewrite <- (Hc _ _ eq_refl) in E'. simpl in *. congruence.
Qed.

Lemma touches_id : touches (λ ls, ls).
Proof. by intros ls. Qed.
Lemma touches_kill : touches kill.
Proof. by intros ls. Qed.
Lemma touches_took c : touches (took c).
Proof. by intros ls. Qed.

Lemma stale_inv a c b l logs : log_inv l (a ++ c :: b) logs → log_seq c ≠ lp_seq l → log_inv l (a ++ b) logs.
Proof.
  intros [H1 H2 H3 H4] Hne. split; [intros x Hx; by apply H1, elem_removed|intros q x Hx; by apply H2, elem_removed|done|].
  rewrite now_split in H4. destruct (Z.eqb_spec (log_seq c) (lp_seq l)); [done|]. simpl in H4. rewrite <- now_app in H4.
  assert (Hk : kept l (a ++ c :: b) logs → kept l (a ++ b) logs) by (apply kept_fewer; intros q p; apply elem_removed).
  inversion H4 as [Hs Hkp E|Hp Hs Hkp E|x ls Ec Ech Ee Ep El En Es Er E]; [apply lph_idle; auto|apply lph_starting; auto|by eapply (lph_following _ _ _ x ls)].
Qed.

(** A stream that is stopped as it opens. *)
Lemma dead_stream_inv l lc logs p ls : log_inv l lc logs → logs !! p = None → ls_live ls = false → log_inv l lc (<[p := ls]> logs).
Proof.
  intros [H1 H2 H3 H4] Hn Hl.
  assert (Hst : stopped (lp_cancel l) logs → stopped (lp_cancel l) (<[p := ls]> logs)).
  { intros Hs x y Ex [[-> <-]|[_ E]]%lookup_insert_Some; [done|by eapply Hs]. }
  assert (Hk : kept l lc logs → kept l lc (<[p := ls]> logs)).
  { intros [?|(x & y & E & R)]; [by left|]. right. exists x, y. rewrite lookup_insert_ne by congruence. done. }
  split; [done| | |].
  - intros q x Hx. destruct (H2 q x Hx) as (y & E & Eq). exists y. rewrite lookup_insert_ne by congruence. done.
  - intros x y [[-> <-]|[_ E]]%lookup_insert_Some Hlive; [congruence|by eapply H3].
  - inversion H4 as [Hs Hkp E|Hp Hs Hkp E|x y Ec Ech Ee Ep El En Es Er E]; [apply lph_idle; auto|apply lph_starting; auto|].
    eapply (lph_following _ _ _ x y); try done. rewrite lookup_insert_ne by congruence. done.
Qed.

(** The current opening ends. *)
Lemma opened_inv l a b logs q n v p : log_inv l (a ++ CLogs q n :: b) logs → q = lp_seq l → logs !! p = None →
  n = lp_node l ∧
  log_inv (mkL (lp_node l) (lp_seq l) (Some p) (Some p) None false (logInitial v) (lv_Gen v) (lp_follow l) (lp_token l))
    ((a ++ b) ++ [CAwaitLogs q p]) (<[p := mkLS n q v [] true]> logs).
Proof.
  intros [H1 H2 H3 H4] -> Hn. destruct (phase_token _ _ _ _ _ _ _ H4 eq_refl) as [E0 Hp].
  inversion Hp as [|Hpend Hs Hk E|]. subst n. split; [done|]. split; simpl.
  - intros c [Hc| ->%list_elem_of_singleton]%elem_of_app; [by apply H1, elem_removed|simpl; lia].
  - intros q x [Hc|Hc%list_elem_of_singleton]%elem_of_app.
    + destruct (H2 q x) as (y & Ey & Eq); [by apply elem_removed|]. exists y. rewrite lookup_insert_ne by congruence. done.
    + injection Hc as -> ->. rewrite lookup_insert_eq. by eexists.
  - intros x y [[-> _]|[_ Ex]]%lookup_insert_Some Hlive; [done|]. exfalso. pose proof (H3 x y Ex Hlive) as Hc. by rewrite (Hs x y Hc Ex) in Hlive.
  - rewrite now_app, E0. simpl. rewrite Z.eqb_refl. 
    match goal with |- log_phase ?x _ _ _ => apply (lph_following x _ _ p (mkLS (lp_node l) (lp_seq l) v [] true)); try done end. by rewrite lookup_insert_eq.
Qed.

Lemma open_failed_inv l a b logs q n e : log_inv l (a ++ CLogs q n :: b) logs → q = lp_seq l →
  n = lp_node l ∧ log_inv (set_log_err e false l) (a ++ b) logs.
Proof.
  intros [H1 H2 H3 H4] ->. destruct (phase_token _ _ _ _ _ _ _ H4 eq_refl) as [E0 Hp].
  inversion Hp as [|Hpend Hs Hk E|]. subst n. split; [done|].
  split; simpl; [intros c Hc; by apply H1, elem_removed|intros q x Hc; by apply H2, elem_removed|done|]. rewrite E0.
  apply (lph_idle (set_log_err e false l)); [done|]. eapply (kept_fewer (set_log_err e false l)); [|exact Hk]. intros q p. apply elem_removed.
Qed.

(** The current stream is read. *)
Lemma await_token l a b logs q p : log_inv l (a ++ CAwaitLogs q p :: b) logs → q = lp_seq l →
  ∃ ls, lp_cancel l = Some p ∧ lp_ch l = Some p ∧ lp_err l = None ∧ lp_pending l = false ∧ logs !! p = Some ls ∧
    ls_node ls = lp_node l ∧ ls_seq ls = lp_seq l ∧ (lp_buf l, lp_gen l) = rendered ls ∧ log_now (lp_seq l) (a ++ b) = [] ∧ (∀ q', CAwaitLogs q' p ∉ a ++ b).
Proof.
  intros [H1 H2 H3 H4] ->. destruct (phase_token _ _ _ _ _ _ _ H4 eq_refl) as [E0 Hp]. inversion Hp as [| |x ls]. subst x. exists ls. split_and!; try done.
  intros q' Hin. destruct (H2 q' p) as (ls' & E' & Eq); [by apply elem_removed|].
  assert (Hf : CAwaitLogs q' p ∈ log_now (lp_seq l) (a ++ b)).
  { unfold log_now. apply list_elem_of_In, filter_In. split; [by apply list_elem_of_In|]. simpl. apply Z.eqb_eq. congruence. }
  rewrite E0 in Hf. by apply elem_of_nil in Hf.
Qed.

Lemma chunk_inv l a b logs q p c : log_inv l (a ++ CAwaitLogs q p :: b) logs → q = lp_seq l →
  lp_ch l = Some p ∧ log_inv (on_chunk c l) ((a ++ b) ++ [CAwaitLogs q p]) (alter (took c) p logs).
Proof.
  intros Hi Eq. destruct (await_token _ _ _ _ _ _ Hi Eq) as (ls & Ec & Ech & Ee & Ep & El & En & Es & Er & E0 & Hno). split; [done|]. subst q.
  assert (Hl' : lp_node (on_chunk c l) = lp_node l ∧ lp_seq (on_chunk c l) = lp_seq l ∧ lp_ch (on_chunk c l) = lp_ch l ∧ lp_cancel (on_chunk c l) = lp_cancel l ∧
    lp_err (on_chunk c l) = lp_err l ∧ lp_pending (on_chunk c l) = lp_pending l ∧ (lp_buf (on_chunk c l), lp_gen (on_chunk c l)) = render_one (lp_buf l, lp_gen l) c).
  { unfold on_chunk, render_one. cbn [fst snd]. destruct (lp_gen l <=? lc_Gen c)%Z; [|done]. by destruct (logAppend (lp_buf l) (lp_gen l) c). }
  destruct Hl' as (N1 & N2 & N3 & N4 & N5 & N6 & N7). destruct Hi as [H1 H2 H3 H4]. split; rewrite ?N2, ?N4.
  - intros x [Hx| ->%list_elem_of_singleton]%elem_of_app; [by apply H1, elem_removed|simpl; lia].
  - intros q x [Hx|Hx%list_elem_of_singleton]%elem_of_app.
    + destruct (H2 q x) as (y & Ey & Eq); [by apply elem_removed|]. rewrite lookup_alter. case_decide as Hx'; [|by exists y].
      rewrite <- Hx' in Hx. by destruct (Hno q).
    + injection Hx as -> ->. rewrite lookup_alter, decide_True, El by done. by eexists.
  - intros x y [[-> (y0 & E & ->)]|[_ E]]%alter_log Hlive; [done|by eapply H3].
  - rewrite now_app, E0. simpl. rewrite Z.eqb_refl. rewrite <- N2.
    eapply (lph_following _ _ _ p (took c ls)); rewrite ?N1, ?N2, ?N3, ?N4, ?N5, ?N6, ?N7; try done.
    + by rewrite lookup_alter, decide_True, El.
    + unfold rendered. simpl. rewrite foldl_app. simpl. by rewrite Er.
Qed.

Lemma await_end_inv l l' f a b logs q p : log_inv l (a ++ CAwaitLogs q p :: b) logs → q = lp_seq l →
  (f = kill ∧ l' = l ∨ f = kill ∧ (∃ e, l' = set_log_err e (lp_pending l) l) ∨ f = (λ ls, ls) ∧ l' = l ∧ ∀ ls, logs !! p = Some ls → ls_live ls = false) →
  log_inv l' (a ++ b) (alter f p logs).
Proof.
  intros Hi Eq Hcase. destruct (await_token _ _ _ _ _ _ Hi Eq) as (ls & Ec & Ech & Ee & Ep & El & En & Es & Er & E0 & Hno). destruct Hi as [H1 H2 H3 H4].
  assert (Hl' : lp_node l' = lp_node l ∧ lp_seq l' = lp_seq l ∧ lp_cancel l' = lp_cancel l ∧ lp_buf l' = lp_buf l ∧ lp_gen l' = lp_gen l)
    by (destruct Hcase as [[_ ->]|[[_ [e ->]]|[_ [-> _]]]]; done).
  assert (Hd : ls_live (f ls) = false) by (destruct Hcase as [[-> _]|[[-> _]|(-> & _ & Hd)]]; [done|done|by apply Hd]).
  assert (Hf : rendered (f ls) = rendered ls ∧ ls_node (f ls) = ls_node ls ∧ ∀ ls, ls_seq (f ls) = ls_seq ls) by (destruct Hcase as [[-> _]|[[-> _]|(-> & _ & _)]]; done).
  destruct Hl' as (N1 & N2 & N3 & N4 & N5), Hf as (F1 & F2 & F3). split; rewrite ?N2, ?N3.
  - intros x Hx. by apply H1, elem_removed.
  - intros q' x Hx. destruct (H2 q' x) as (y & Ey & Eq'); [by apply elem_removed|]. rewrite lookup_alter. case_decide as Hx'; [|by exists y].
    rewrite <- Hx' in Hx. by destruct (Hno q').
  - intros x y [[-> (y0 & E & ->)]|[_ E]]%alter_log Hlive; [done|by eapply H3].
  - rewrite E0. apply lph_idle.
    + intros x y Ex [[-> (y0 & E & ->)]|[Hne E]]%alter_log; [by simplify_eq|]. congruence.
    + right. exists p, (f ls). rewrite lookup_alter, decide_True, El, N1, N4, N5, F1, F2 by done. done.
Qed.

(** ** The watch stream *)

Definition watch_seq (c : cmd) : Z := match c with CWatch q | CAwaitWatch q _ => q | _ => 0 end.
Definition watch_now (seq : Z) (wc : list cmd) : list cmd := List.filter (λ c, (watch_seq c =? seq)%Z) wc.

Definition halted (s : option sid) (ws : gmap sid bool) : Prop := ∀ p, s = Some p → ws !! p ≠ Some true.

Inductive watch_phase (w : wpart) (term : bool) (ws : gmap sid bool) : list cmd → Prop :=
| wph_idle : halted (wp_cancel w) ws → watch_phase w term ws []
| wph_starting : wp_pending w = true → term = false → halted (wp_cancel w) ws → watch_phase w term ws [CWatch (wp_seq w)]
| wph_following p : wp_cancel w = Some p → wp_ch w = Some p → wp_err w = None → wp_pending w = false → term = false →
    watch_phase w term ws [CAwaitWatch (wp_seq w) p].

Record watch_inv (w : wpart) (term : bool) (wc : list cmd) (ws : gmap sid bool) : Prop := {
  wi_bound : ∀ c, c ∈ wc → (watch_seq c <= wp_seq w)%Z;
  wi_live : ∀ p, ws !! p = Some true → wp_cancel w = Some p;
  wi_phase : watch_phase w term ws (watch_now (wp_seq w) wc) }.

Abbreviation halt := (λ _ : bool, false).

Lemma halt_lookup (p q : sid) (ws : gmap sid bool) : alter halt p ws !! q = Some true → ws !! q = Some true ∧ q ≠ p.
Proof. rewrite lookup_alter. case_decide; [subst; destruct (ws !! q); done|by split; congruence]. Qed.

Lemma halt_inv w t wc ws p : watch_inv w t wc ws → watch_inv w t wc (alter halt p ws).
Proof.
  intros [H1 H2 H3]. split; [done|intros q [Hq _]%halt_lookup; by apply H2|].
  assert (Hh : halted (wp_cancel w) ws → halted (wp_cancel w) (alter halt p ws)) by (intros Hh q Eq [Hq _]%halt_lookup; by apply (Hh q)).
  inversion H3; [apply wph_idle; auto|apply wph_starting; auto|by apply wph_following].
Qed.

Lemma watch_now_split seq a c b : watch_now seq (a ++ c :: b) = watch_now seq a ++ (if (watch_seq c =? seq)%Z then [c] else []) ++ watch_now seq b.
Proof. unfold watch_now. rewrite List.filter_app. simpl. by destruct (watch_seq c =? seq)%Z. Qed.

Lemma watch_now_app seq a b : watch_now seq (a ++ b) = watch_now seq a ++ watch_now seq b.
Proof. apply List.filter_app. Qed.

Lemma watch_now_next w t wc ws : watch_inv w t wc ws → watch_now (wp_seq w + 1) wc = [].
Proof.
  intros [H1 _ _]. induction wc as [|c wc IH]; simpl; [done|]. destruct (Z.eqb_spec (watch_seq c) (wp_seq w + 1)) as [E|].
  - specialize (H1 c ltac:(left)). lia.
  - apply IH. intros c' Hc'. apply H1. by right.
Qed.

Lemma watch_token w t ws seq a c b : watch_phase w t ws (watch_now seq (a ++ c :: b)) → watch_seq c = seq →
  watch_now seq (a ++ b) = [] ∧ watch_phase w t ws [c].
Proof.
  intros Hp <-. rewrite watch_now_split, Z.eqb_refl in Hp. rewrite watch_now_app.
  assert (Hl : watch_now (watch_seq c) a = [] ∧ watch_now (watch_seq c) b = []).
  { destruct (watch_now (watch_seq c) a) as [|x a'], (watch_now (watch_seq c) b) as [|z b']; [done|..]; exfalso; inversion Hp; by destruct a'. }
  destruct Hl as [Ea Eb]. rewrite Ea, Eb in *. done.
Qed.

Lemma watch_stale_inv w t a c b ws : watch_inv w t (a ++ c :: b) ws → watch_seq c ≠ wp_seq w → watch_inv w t (a ++ b) ws.
Proof.
  intros [H1 H2 H3] Hne. split; [intros x Hx; by apply H1, elem_removed|done|].
  rewrite watch_now_split in H3. destruct (Z.eqb_spec (watch_seq c) (wp_seq w)); [done|]. simpl in H3. by rewrite <- watch_now_app in H3.
Qed.

(** With no command left for it, a stopped stream is idle whatever else
    changes. *)
Lemma watch_idle_inv w w' t t' a c b ws ws' : watch_inv w t (a ++ c :: b) ws → watch_seq c = wp_seq w → wp_seq w' = wp_seq w →
  halted (wp_cancel w') ws' → (∀ p, ws' !! p = Some true → wp_cancel w' = Some p) → watch_inv w' t' (a ++ b) ws'.
Proof.
  intros [H1 H2 H3] Hc Es Hh Hl. split; rewrite ?Es; [intros x Hx; by apply H1, elem_removed|done|].
  destruct (watch_token _ _ _ _ _ _ _ H3 Hc) as [-> _]. by apply wph_idle.
Qed.

Lemma watch_opened_inv w t a b ws q p : watch_inv w t (a ++ CWatch q :: b) ws → q = wp_seq w → ws !! p = None →
  watch_inv (mkW (wp_seq w) (Some p) (Some p) None false) t ((a ++ b) ++ [CAwaitWatch q p]) (<[p := true]> ws).
Proof.
  intros [H1 H2 H3] -> Hn. destruct (watch_token _ _ _ _ _ _ _ H3 eq_refl) as [E0 Hp]. inversion Hp as [|Hpend Ht Hh|]. split; simpl.
  - intros c [Hc| ->%list_elem_of_singleton]%elem_of_app; [by apply H1, elem_removed|simpl; lia].
  - intros x [[-> _]|[_ Ex]]%lookup_insert_Some; [done|]. by destruct (Hh x (H2 x Ex)).
  - rewrite watch_now_app, E0. simpl. rewrite Z.eqb_refl. by apply (wph_following (mkW (wp_seq w) (Some p) (Some p) None false)).
Qed.

Lemma watch_rearm_inv w t a b ws q p : watch_inv w t (a ++ CAwaitWatch q p :: b) ws → q = wp_seq w →
  t = false ∧ wp_ch w = Some p ∧ wp_cancel w = Some p ∧ watch_inv w t ((a ++ b) ++ [CAwaitWatch q p]) ws.
Proof.
  intros [H1 H2 H3] ->. destruct (watch_token _ _ _ _ _ _ _ H3 eq_refl) as [E0 Hp]. inversion Hp as [| |p' Ec Ech Ee Epd Et]. subst p'. split_and!; [done..|].
  split; [|done|].
  - intros c [Hc| ->%list_elem_of_singleton]%elem_of_app; [by apply H1, elem_removed|simpl; lia].
  - rewrite watch_now_app, E0. simpl. rewrite Z.eqb_refl. by apply wph_following.
Qed.

Lemma watch_retry_inv w t wc ws : watch_inv w t wc ws → wp_err w ≠ None → wp_pending w = false → t = false →
  watch_inv (mkW (wp_seq w + 1) (wp_ch w) (wp_cancel w) (wp_err w) true) t (wc ++ [CWatch (wp_seq w + 1)]) ws.
Proof.
  intros Hi He Hp Ht. pose proof (watch_now_next _ _ _ _ Hi) as Hn. destruct Hi as [H1 H2 H3]. split.
  - simpl. intros c [Hc%H1| ->%list_elem_of_singleton]%elem_of_app; simpl; lia.
  - done.
  - simpl. rewrite watch_now_app, Hn. simpl. rewrite Z.eqb_refl. inversion H3 as [Hh|Hpend|]; [|congruence..].
    by apply (wph_starting (mkW (wp_seq w + 1) (wp_ch w) (wp_cancel w) (wp_err w) true)).
Qed.

(** ** One update *)

Definition log_stops (cs : list cmd) : list sid := omap (λ c, match c with CStopLog s => Some s | _ => None end) cs.
Definition watch_stops (cs : list cmd) : list sid := omap (λ c, match c with CStopWatch s => Some s | _ => None end) cs.

Inductive log_effect (l l' : lpart) (cs : list cmd) : Prop :=
| le_same : same_log l l' → log_cmds cs = [] → log_stops cs = [] → log_effect l l' cs
| le_switch want : l' = switched l want → log_cmds cs = (if String.eqb want "" then [] else [CLogs (lp_seq l + 1) want]) →
    log_stops cs = option_list (lp_cancel l) → log_effect l l' cs
| le_retry : l' = retried l → lp_err l ≠ None → lp_pending l = false → log_cmds cs = [CLogs (lp_seq l + 1) (lp_node l)] →
    log_stops cs = [] → log_effect l l' cs.

Lemma effect_log_inv l l' cs lc logs : log_effect l l' cs → log_inv l lc logs →
  log_inv l' (lc ++ log_cmds cs) (foldl (λ m s, alter kill s m) logs (log_stops cs)).
Proof.
  intros [Hs -> ->|want -> -> ->| -> He Hp -> ->] Hi.
  - rewrite app_nil_r. by apply (log_inv_same l).
  - replace (foldl _ _ _) with (kill_opt (lp_cancel l) logs) by (by destruct (lp_cancel l)). by apply switch_inv.
  - by apply retry_inv.
Qed.

(** What an update leaves alone besides the pane and the tree. *)
Record quiet_view (m m' : buildView) (cs : list cmd) : Prop := {
  qv_watch : vw_watch m' = vw_watch m; qv_cmds : watch_cmds cs = []; qv_stops : watch_stops cs = [];
  qv_terminal : vw_terminal m' = vw_terminal m; qv_outcome : vw_outcome m' = vw_outcome m; qv_fatal : vw_fatal m' = vw_fatal m;
  qv_quit : CQuit ∉ cs }.

Lemma same_log_refl l : same_log l l.
Proof. done. Qed.

Lemma not_in_nil (c : cmd) : c ∉ [].
Proof. apply not_elem_of_nil. Qed.

#[local] Hint Resolve same_log_refl not_in_nil : core.

Lemma switchLogs_effect m m' cs : switchLogs m = Some (m', cs) → log_effect (vw_log m) (vw_log m') cs ∧ quiet_view m m' cs.
Proof.
  unfold switchLogs. destruct (selectedLogNode (vw_tree m)) as [want|]; [|done]. cbn [mbind option_bind].
  destruct (String.eqb want (lp_node (vw_log m))); [intros [= <- <-]; split; [by apply le_same|done]|].
  destruct (String.eqb want "") eqn:Ew; intros [= <- <-]; (split; [apply (le_switch _ _ _ want)|split]); simpl; unfold switched; rewrite ?Ew; try done;
    destruct (lp_cancel (vw_log m)); try done; rewrite ?not_elem_of_app, ?not_elem_of_cons; repeat split; by auto.
Qed.

Lemma applySnapshot_effect snap m m' cs : applySnapshot snap m = Some (m', cs) →
  log_effect (vw_log m) (vw_log m') cs ∧ vw_watch m' = vw_watch m ∧ watch_cmds cs = [] ∧ watch_stops cs = [] ∧
  vw_terminal m' = vw_terminal m || sn_Terminal snap ∧ vw_fatal m' = vw_fatal m ∧
  vw_outcome m' = (if sn_Terminal snap then mkOutcome (Some snap) (bo_Detached (vw_outcome m)) else vw_outcome m) ∧
  (CQuit ∈ cs → sn_Terminal snap = true).
Proof.
  unfold applySnapshot. destruct (current_path (vw_tree m)) as [path|]; [|done]. cbn [mbind option_bind].
  assert (Hsw : ∀ m1, vw_log m1 = vw_log m → vw_watch m1 = vw_watch m → vw_fatal m1 = vw_fatal m →
    vw_terminal m1 = vw_terminal m || sn_Terminal snap → 
    vw_outcome m1 = (if sn_Terminal snap then mkOutcome (Some snap) (bo_Detached (vw_outcome m)) else vw_outcome m) →
    switchLogs m1 = Some (m', cs) → log_effect (vw_log m) (vw_log m') cs ∧ vw_watch m' = vw_watch m ∧ watch_cmds cs = [] ∧ watch_stops cs = [] ∧
      vw_terminal m' = vw_terminal m || sn_Terminal snap ∧ vw_fatal m' = vw_fatal m ∧
      vw_outcome m' = (if sn_Terminal snap then mkOutcome (Some snap) (bo_Detached (vw_outcome m)) else vw_outcome m) ∧ (CQuit ∈ cs → sn_Terminal snap = true)).
  { intros m1 E1 E2 E3 E4 E5 [He [Q1 Q2 Q3 Q4 Q5 Q6 Q7]]%switchLogs_effect. rewrite E1 in He. split_and!; [done|congruence..|]. intros Hq. by destruct Q7. }
  destruct (sn_Terminal snap) eqn:Et.
  - destruct (String.eqb (sn_Phase snap) "failed"); simpl.
    + destruct (first_failed _ _ _); apply Hsw; simpl; try done; by rewrite orb_true_r.
    + intros [= <- <-]. split_and!; try done; [by apply le_same|simpl; by rewrite orb_true_r].
  - apply Hsw; simpl; try done. by rewrite orb_false_r.
Qed.

Lemma setExpanded_same v m m' : setExpanded v m = Some m' →
  vw_log m' = vw_log m ∧ vw_watch m' = vw_watch m ∧ vw_terminal m' = vw_terminal m ∧ vw_outcome m' = vw_outcome m ∧ vw_fatal m' = vw_fatal m.
Proof.
  unfold setExpanded. case_match; [intros [= <-]; done|]. destruct (at_index _ _) as [r|]; [|done]. cbn [mbind option_bind].
  case_match; [intros [= <-]; done|]. destruct (tp_graph (vw_tree m)); [|done]. cbn [mbind option_bind]. intros [= <-]. done.
Qed.

(** A key changes neither streams nor the verdict, except that leaving a
    running build detaches from it. *)
Record key_effect (m m' : buildView) (cs : list cmd) : Prop := {
  ke_log : same_log (vw_log m) (vw_log m'); ke_lc : log_cmds cs = []; ke_ls : log_stops cs = [];
  ke_watch : vw_watch m' = vw_watch m; ke_wc : watch_cmds cs = []; ke_ws : watch_stops cs = [];
  ke_terminal : vw_terminal m' = vw_terminal m; ke_fatal : vw_fatal m' = vw_fatal m;
  ke_final : bo_Final (vw_outcome m') = bo_Final (vw_outcome m);
  ke_detached : bo_Detached (vw_outcome m) = true → bo_Detached (vw_outcome m') = true;
  ke_quit : CQuit ∈ cs → vw_terminal m = true ∨ bo_Detached (vw_outcome m') = true }.

Lemma key_nothing m m' : same_log (vw_log m) (vw_log m') → vw_watch m' = vw_watch m → vw_terminal m' = vw_terminal m →
  vw_outcome m' = vw_outcome m → vw_fatal m' = vw_fatal m → key_effect m m' [].
Proof. intros Hl Hw Ht Ho Hf. split; rewrite ?Ho; try done. by intros ?%elem_of_nil. Qed.

Lemma key_expand v m m' cs : (x ← setExpanded v m; Some (x, [])) = Some (m', cs) → key_effect m m' cs.
Proof.
  destruct (setExpanded v m) as [x|] eqn:E; [|done]. cbn [mbind option_bind]. intros [= <- <-].
  apply setExpanded_same in E as (El & Ew & Et & Eo & Ef). apply key_nothing; try done. by rewrite El.
Qed.

Lemma updateKey_effect key b m m' cs : updateKey key b m = Some (m', cs) → key_effect m m' cs.
Proof.
  unfold updateKey. destruct (vw_confirm m).
  { case_match; intros [= <- <-]; [|by apply key_nothing]. split; try done. by intros [?|?%elem_of_nil]%elem_of_cons. }
  do 2 (case_match; [intros [= <- <-]; split; try done; by intros [?|?%elem_of_nil]%elem_of_cons|]).
  do 2 (case_match; [apply key_expand|]). case_match.
  { case_match; [|intros [= <- <-]; by apply key_nothing]. destruct (at_index _ _) as [r|]; [|done]. cbn [mbind option_bind].
    case_match; [apply key_expand|intros [= <- <-]; by apply key_nothing]. }
  do 3 (case_match; [intros [= <- <-]; by apply key_nothing|]).
  case_match; [intros [= <- <-]; destruct (vw_terminal m) eqn:Et; split; simpl; try done; by auto|].
  repeat case_match; intros [= <- <-]; try (by apply key_nothing). split; try done. by left.
Qed.

Lemma watchDown_effect e m : same_log (vw_log m) (vw_log (watchDown e m).1) ∧ log_cmds (watchDown e m).2 = [] ∧ log_stops (watchDown e m).2 = [] ∧
  vw_watch (watchDown e m).1 = mkW (wp_seq (vw_watch m)) (wp_ch (vw_watch m)) None (Some e) (wp_pending (vw_watch m)) ∧
  watch_cmds (watchDown e m).2 = [] ∧ watch_stops (watchDown e m).2 = option_list (wp_cancel (vw_watch m)) ∧
  vw_terminal (watchDown e m).1 = vw_terminal m ∧ vw_outcome (watchDown e m).1 = vw_outcome m ∧
  (vw_fatal (watchDown e m).1 = vw_fatal m ∨ vw_fatal (watchDown e m).1 = Some e ∧ isServerError e = true) ∧
  (CQuit ∈ (watchDown e m).2 → vw_fatal (watchDown e m).1 = Some e).
Proof.
  unfold watchDown. set (stop := match wp_cancel (vw_watch m) with Some s => [CStopWatch s] | None => [] end).
  assert (Hst : log_cmds stop = [] ∧ log_stops stop = [] ∧ watch_cmds stop = [] ∧ watch_stops stop = option_list (wp_cancel (vw_watch m)) ∧ CQuit ∉ stop).
  { unfold stop. destruct (wp_cancel (vw_watch m)); split_and!; try done. by intros [?|?%elem_of_nil]%elem_of_cons. }
  destruct Hst as (S1 & S2 & S3 & S4 & S5). clearbody stop.
  destruct (isServerError e) eqn:Ee; [destruct (vw_terminal m) eqn:Et|]; simpl; rewrite ?Et; simpl.
  - split_and!; try done. by left.
  - unfold log_cmds, log_stops, watch_cmds, watch_stops in *. rewrite !List.filter_app, !omap_app, S1, S2, S3, S4. split_and!; try done; [simpl; by rewrite app_nil_r|by right].
  - split_and!; try done. by left.
Qed.

(** Ticks: each stream is retried or left alone. *)
Inductive watch_effect (m m' : buildView) (cs : list cmd) : Prop :=
| we_same : vw_watch m' = vw_watch m → watch_cmds cs = [] → watch_effect m m' cs
| we_retry w : w = vw_watch m → vw_watch m' = mkW (wp_seq w + 1) (wp_ch w) (wp_cancel w) (wp_err w) true → wp_err w ≠ None → wp_pending w = false →
    vw_terminal m = false → watch_cmds cs = [CWatch (wp_seq w + 1)] → watch_effect m m' cs.

Lemma on_tick_effect m : log_effect (vw_log m) (vw_log (on_tick m).1) (on_tick m).2 ∧ watch_effect m (on_tick m).1 (on_tick m).2 ∧
  watch_stops (on_tick m).2 = [] ∧ vw_terminal (on_tick m).1 = vw_terminal m ∧ vw_outcome (on_tick m).1 = vw_outcome m ∧
  vw_fatal (on_tick m).1 = vw_fatal m ∧ CQuit ∉ (on_tick m).2.
Proof.
  unfold on_tick. set (a := tick_watch m).
  assert (Ha : vw_log a.1 = vw_log m ∧ (a = (m, []) ∨ a = retryWatch m ∧ wp_err (vw_watch m) ≠ None ∧ wp_pending (vw_watch m) = false ∧ vw_terminal m = false)).
  { unfold a, tick_watch. destruct (wp_err (vw_watch m)) as [e|]; [|by split; [|left]].
    destruct (wp_pending (vw_watch m)), (vw_terminal m), (isServerError e); simpl; (split; [done|]); try (by left); right; by split_and!. }
  destruct a as [m1 c1]. simpl in Ha. destruct Ha as [El Ha].
  assert (Hb : ∃ c2, retry_logs m1 = (m1, []) ∧ c2 = [] ∨ retry_logs m1 = (set_log (retried (vw_log m1)) m1, [CLogs (lp_seq (vw_log m1) + 1) (lp_node (vw_log m1))]) ∧
    lp_err (vw_log m1) ≠ None ∧ lp_pending (vw_log m1) = false ∧ c2 = [CTick]).
  { unfold retry_logs, retried. destruct (lp_err (vw_log m1)) as [e|]; [|by exists []; left].
    destruct (lp_pending (vw_log m1)), (String.eqb (lp_node (vw_log m1)) ""), (isServerError e); simpl; try (by exists []; left). exists [CTick]. by right. }
  assert (Hm1 : watch_stops c1 = [] ∧ log_cmds c1 = [] ∧ log_stops c1 = [] ∧ vw_terminal m1 = vw_terminal m ∧ vw_outcome m1 = vw_outcome m ∧ vw_fatal m1 = vw_fatal m ∧ CQuit ∉ c1).
  { destruct Ha as [[= -> ->]|[[= -> ->] _]]; split_and!; try done. by intros [?|?%elem_of_nil]%elem_of_cons. }
  destruct Hm1 as (W1 & L1 & L2 & T1 & O1 & F1 & Q1).
  assert (Hw : ∀ m2 c, vw_watch m2 = vw_watch m1 → watch_cmds c = [] → watch_effect m m2 (c1 ++ c)).
  { intros m2 c E Ec. destruct Ha as [[= -> ->]|([= -> ->] & He & Hp & Ht)]; [by apply we_same|]. apply (we_retry m m2 _ (vw_watch m)); try done. simpl. by rewrite Ec. }
  unfold log_stops, watch_stops, log_cmds in *.
  destruct Hb as (c2 & [[-> _]|(-> & He & Hp & _)]); simpl; rewrite El in *.
  - split_and!; try done; [apply le_same; [done| |]|by apply Hw|..].
    + unfold log_cmds. by rewrite List.filter_app, L1.
    + unfold log_stops. by rewrite omap_app, L2.
    + by rewrite omap_app, W1.
    + apply not_elem_of_app. split; [done|]. by intros [?|?%elem_of_nil]%elem_of_cons.
  - split_and!; try done; [apply le_retry; try done|by apply Hw|..].
    + unfold log_cmds. by rewrite List.filter_app, L1.
    + unfold log_stops. by rewrite omap_app, L2.
    + by rewrite omap_app, W1.
    + apply not_elem_of_app. split; [done|]. by intros [?|[?|?%elem_of_nil]%elem_of_cons]%elem_of_cons.
Qed.

(** ** Every reachable state *)

(** The view has a reason to end. *)
Definition ended (m : buildView) : Prop := is_Some (vw_fatal m) ∨ bo_Detached (vw_outcome m) = true ∨ is_Some (bo_Final (vw_outcome m)).

Record verdict (m : buildView) : Prop := {
  vd_terminal : vw_terminal m = true → is_Some (bo_Final (vw_outcome m));
  vd_final : ∀ s, bo_Final (vw_outcome m) = Some s → sn_Terminal s = true;
  vd_fatal : ∀ e, vw_fatal m = Some e → isServerError e = true }.

Record view_inv (y : sys) : Prop := {
  vi_tree : tree_ok (sy_view y);
  vi_watch : watch_inv (vw_watch (sy_view y)) (vw_terminal (sy_view y)) (watch_cmds (sy_cmds y)) (sy_watches y);
  vi_log : log_inv (vw_log (sy_view y)) (log_cmds (sy_cmds y)) (sy_logs y);
  vi_verdict : verdict (sy_view y);
  vi_quit : CQuit ∈ sy_cmds y → ended (sy_view y) }.

Definition is_stop (c : cmd) : bool := match c with CStopWatch _ | CStopLog _ => true | _ => false end.

Lemma started cs : ∀ y, let y' := foldl start y cs in
  sy_view y' = sy_view y ∧ sy_cmds y' = sy_cmds y ++ List.filter (λ c, negb (is_stop c)) cs ∧
  sy_watches y' = foldl (λ m s, alter halt s m) (sy_watches y) (watch_stops cs) ∧ sy_logs y' = foldl (λ m s, alter kill s m) (sy_logs y) (log_stops cs).
Proof.
  induction cs as [|c cs IH]; intros y; simpl; [by rewrite app_nil_r|]. destruct (IH (start y c)) as (E1 & E2 & E3 & E4).
  rewrite E1, E2, E3, E4. destruct c; simpl; by rewrite <- ?app_assoc.
Qed.

Lemma cmds_filter (f : cmd → bool) cs : (∀ c, f c = true → is_stop c = false) → List.filter f (List.filter (λ c, negb (is_stop c)) cs) = List.filter f cs.
Proof.
  intros Hf. induction cs as [|c cs IH]; simpl; [done|]. destruct (is_stop c) eqn:Es; simpl; destruct (f c) eqn:Ef; try (by rewrite IH).
  by rewrite (Hf c Ef) in Es.
Qed.

Lemma continue_inv y m cs : tree_ok m →
  watch_inv (vw_watch m) (vw_terminal m) (watch_cmds (sy_cmds y) ++ watch_cmds cs) (foldl (λ m s, alter halt s m) (sy_watches y) (watch_stops cs)) →
  log_inv (vw_log m) (log_cmds (sy_cmds y) ++ log_cmds cs) (foldl (λ m s, alter kill s m) (sy_logs y) (log_stops cs)) →
  verdict m → (CQuit ∈ sy_cmds y ∨ CQuit ∈ cs → ended m) → view_inv (continue y m cs).
Proof.
  intros Ht Hw Hl Hv Hq. unfold continue. destruct (started cs (mkSys m (sy_cmds y) (sy_watches y) (sy_logs y))) as (E1 & E2 & E3 & E4). simpl in *.
  split; rewrite ?E1, ?E2, ?E3, ?E4; try done.
  - unfold watch_cmds in *. rewrite List.filter_app, cmds_filter; [done|]. by intros [].
  - unfold log_cmds in *. rewrite List.filter_app, cmds_filter; [done|]. by intros [].
  - intros [Hc|Hc]%elem_of_app; apply Hq; [by left|right]. apply list_elem_of_In, filter_In in Hc as [Hc _]. by apply list_elem_of_In.
Qed.

Lemma ended_mono m m' : ended m → (is_Some (vw_fatal m) → is_Some (vw_fatal m')) → (bo_Detached (vw_outcome m) = true → bo_Detached (vw_outcome m') = true) →
  (is_Some (bo_Final (vw_outcome m)) → is_Some (bo_Final (vw_outcome m'))) → ended m'.
Proof. intros [?|[?|?]]; unfold ended; tauto. Qed.

Lemma verdict_ext m m' : vw_terminal m' = vw_terminal m → bo_Final (vw_outcome m') = bo_Final (vw_outcome m) → vw_fatal m' = vw_fatal m → verdict m → verdict m'.
Proof. intros E1 E2 E3 [H1 H2 H3]. split; rewrite ?E1, ?E2, ?E3; done. Qed.

Lemma ended_ext m m' : vw_outcome m' = vw_outcome m → vw_fatal m' = vw_fatal m → ended m → ended m'.
Proof. intros E1 E2. unfold ended. by rewrite E1, E2. Qed.

(** Updates that touch only the pane and the tree. *)
Lemma quiet_step y m cs : view_inv y → tree_ok m → log_effect (vw_log (sy_view y)) (vw_log m) cs → quiet_view (sy_view y) m cs → view_inv (continue y m cs).
Proof.
  intros [I1 I2 I3 I4 I5] Ht He [Q1 Q2 Q3 Q4 Q5 Q6 Q7]. apply continue_inv; [done| | | |].
  - rewrite Q1, Q2, Q3, Q4, app_nil_r. done.
  - by apply (effect_log_inv (vw_log (sy_view y))).
  - eapply verdict_ext; [..|exact I4]; congruence.
  - intros [Hq|Hq]; [|done]. eapply ended_ext; [..|by apply I5]; congruence.
Qed.

Lemma key_step y m cs : view_inv y → tree_ok m → key_effect (sy_view y) m cs → view_inv (continue y m cs).
Proof.
  intros [I1 I2 I3 I4 I5] Ht [K1 K2 K3 K4 K5 K6 K7 K8 K9 K10 K11]. apply continue_inv; [done| | | |].
  - rewrite K4, K5, K6, K7, app_nil_r. done.
  - apply (effect_log_inv (vw_log (sy_view y))); [by apply le_same|done].
  - by apply (verdict_ext (sy_view y)).
  - intros [Hq|Hq].
    + apply (ended_mono (sy_view y)); [by apply I5|rewrite K8; done|done|rewrite K9; done].
    + destruct (K11 Hq) as [Ht'|Hd]; [|right; by left]. right. right. rewrite K9. by apply I4.
Qed.

Lemma tick_step y : view_inv y → view_inv (continue y (on_tick (sy_view y)).1 (on_tick (sy_view y)).2).
Proof.
  intros [I1 I2 I3 I4 I5]. destruct (on_tick_effect (sy_view y)) as (L & W & S & T & O & F & Q). apply continue_inv; [by apply on_tick_tree| | | |].
  - rewrite S, T. simpl. destruct W as [-> ->|w -> -> He Hp Ht ->]; [by rewrite app_nil_r|]. by apply watch_retry_inv.
  - by apply (effect_log_inv (vw_log (sy_view y))).
  - apply (verdict_ext (sy_view y)); by rewrite ?O.
  - intros [Hq|Hq]; [|done]. by apply (ended_ext (sy_view y)), I5.
Qed.

(** A watch stream that goes down, its command gone. *)
Lemma down_step m w t e pre c post ws ws' logs m0 : tree_ok m → watch_inv w t (watch_cmds (pre ++ c :: post)) ws →
  wp_seq w = wp_seq (vw_watch m) → wp_cancel w = wp_cancel (vw_watch m) → watch_seq c = wp_seq (vw_watch m) → is_watchc c = true → (∀ p, ws' !! p = Some true → ws !! p = Some true) →
  log_inv (vw_log m) (log_cmds (pre ++ post)) logs → verdict m → (CQuit ∈ pre ++ post → ended m) →
  view_inv (continue (mkSys m0 (pre ++ post) ws' logs) (watchDown e m).1 (watchDown e m).2).
Proof.
  intros Ht Hw Ews Ewc Hc Hwc Hws Hl Hv Hq. destruct (watchDown_effect e m) as (D1 & D2 & D3 & D4 & D5 & D6 & D7 & D8 & D9 & D10).
  apply continue_inv; simpl; [by apply watchDown_tree| | | |].
  - rewrite D5, D6, D7, app_nil_r. unfold watch_cmds in *. rewrite List.filter_app in Hw |- *. simpl in Hw. rewrite Hwc in Hw.
    eapply watch_idle_inv; [exact Hw|congruence|by rewrite D4|by rewrite D4|].
    intros p Hp. exfalso. destruct (wp_cancel (vw_watch m)) as [q|] eqn:Eq; simpl in Hp.
    + apply halt_lookup in Hp as [Hp Hne]. apply Hws, (wi_live _ _ _ _ Hw) in Hp. congruence.
    + apply Hws, (wi_live _ _ _ _ Hw) in Hp. congruence.
  - rewrite D2, D3, app_nil_r. by apply (log_inv_same (vw_log m)).
  - destruct Hv as [V1 V2 V3]. split; rewrite ?D7, ?D8; try done. intros e' E'. destruct D9 as [D9|[D9 Hs]]; [apply V3; congruence|]. congruence.
  - intros [Hin|Hin].
    + apply (ended_mono m); [by apply Hq|destruct D9 as [->|[-> _]]; by eauto|by rewrite D8..].
    + left. rewrite (D10 Hin). by eexists.
Qed.

Lemma filter_drop (f : cmd → bool) a c b : f c = false → List.filter f (a ++ c :: b) = List.filter f (a ++ b).
Proof. intros H. rewrite !List.filter_app. simpl. by rewrite H. Qed.

Lemma filter_take (f : cmd → bool) a c b : f c = true → List.filter f (a ++ c :: b) = List.filter f a ++ c :: List.filter f b.
Proof. intros H. rewrite List.filter_app. simpl. by rewrite H. Qed.

(** A command that is not of a stream ends. *)
Lemma drop_inv m pre c post ws ls : is_logc c = false → is_watchc c = false →
  view_inv (mkSys m (pre ++ c :: post) ws ls) → view_inv (mkSys m (pre ++ post) ws ls).
Proof.
  intros Hl Hw [I1 I2 I3 I4 I5]. simpl in *. split; simpl; [done| | |done|].
  - unfold watch_cmds in *. by rewrite filter_drop in I2.
  - unfold log_cmds in *. by rewrite filter_drop in I3.
  - intros Hq. by apply I5, elem_removed.
Qed.

Lemma alter_id_log (f : lstream → lstream) (p : sid) (ls : gmap sid lstream) : (∀ x, f x = x) → alter f p ls = ls.
Proof. intros Hf. apply map_eq. intros q. rewrite lookup_alter. case_decide; [subst; destruct (ls !! q); simpl; by rewrite ?Hf|done]. Qed.

(** A log command ends: the rest of the state is as it was. *)
Lemma log_step m pre c post ws ls ls' l' cs : is_logc c = true → view_inv (mkSys m (pre ++ c :: post) ws ls) →
  watch_cmds cs = [] → watch_stops cs = [] → CQuit ∉ cs →
  log_inv l' (log_cmds (pre ++ post) ++ log_cmds cs) (foldl (λ m s, alter kill s m) ls' (log_stops cs)) →
  view_inv (continue (mkSys m (pre ++ post) ws ls') (set_log l' m) cs).
Proof.
  intros Hc [I1 I2 I3 I4 I5] Ew Es Hq Hl. simpl in *. apply continue_inv; simpl.
  - by apply (tree_ok_ext m).
  - rewrite Ew, Es, app_nil_r. unfold watch_cmds in *. rewrite filter_drop in I2; [done|]. by destruct c.
  - done.
  - by apply (verdict_ext m).
  - intros [Hin|Hin]; [|done]. apply (ended_ext m); [done..|]. by apply I5, elem_removed.
Qed.

Lemma set_log_same m : set_log (vw_log m) m = m.
Proof. by destruct m. Qed.

Lemma logs_complete m pre c post ws ls x ws' ls' m' cs : is_logc c = true → view_inv (mkSys m (pre ++ c :: post) ws ls) →
  completes c ws ls x ws' ls' → Update x m = Some (m', cs) → view_inv (continue (mkSys m (pre ++ post) ws' ls') m' cs).
Proof.
  intros Hc Hi Hx Hu. pose proof (vi_log _ Hi) as Hl. simpl in Hl. unfold log_cmds in Hl. rewrite filter_take in Hl by done.
  assert (Hlc : log_cmds (pre ++ post) = List.filter is_logc pre ++ List.filter is_logc post) by apply List.filter_app.
  destruct Hx as [| | | | | | | |q n e ws ls|q n v p ws ls Hn|q p ch ws ls|q p e ws ls|q p ws ls Hd]; try done; cbn [Update] in Hu.
  - destruct (Z.eqb_spec q (lp_seq (vw_log m))) as [->|Hne]; cbn [negb orb] in Hu.
    + destruct (open_failed_inv _ _ _ _ _ _ e Hl eq_refl) as [-> Hl']. rewrite String.eqb_refl in Hu. simpl in Hu. injection Hu as <- <-.
      eapply log_step; [done|exact Hi|done|done|done|]. rewrite Hlc, app_nil_r. done.
    + injection Hu as <- <-. rewrite <- (set_log_same m) at 2. eapply log_step; [done|exact Hi|done|done|done|]. rewrite Hlc, app_nil_r. by eapply stale_inv.
  - destruct (Z.eqb_spec q (lp_seq (vw_log m))) as [->|Hne]; cbn [negb orb] in Hu.
    + destruct (opened_inv _ _ _ _ _ _ v p Hl eq_refl Hn) as [-> Hl']. rewrite String.eqb_refl in Hu. simpl in Hu. injection Hu as <- <-.
      eapply log_step; [done|exact Hi|done|done|by intros [?|?%elem_of_nil]%elem_of_cons|]. by rewrite Hlc.
    + injection Hu as <- <-. rewrite <- (set_log_same m) at 2. eapply log_step; [done|exact Hi|done|done|by intros [?|?%elem_of_nil]%elem_of_cons|].
      rewrite Hlc. simpl. rewrite app_nil_r, alter_insert_eq. apply dead_stream_inv; [by eapply stale_inv|done|done].
  - destruct (Z.eqb_spec q (lp_seq (vw_log m))) as [->|Hne]; cbn [negb] in Hu.
    + destruct (chunk_inv _ _ _ _ _ _ ch Hl eq_refl) as [Ech Hl']. rewrite Ech in Hu. injection Hu as <- <-.
      eapply log_step; [done|exact Hi|done|done|by intros [?|?%elem_of_nil]%elem_of_cons|]. by rewrite Hlc.
    + injection Hu as <- <-. rewrite <- (set_log_same m) at 2. eapply log_step; [done|exact Hi|done|done|done|]. rewrite Hlc, app_nil_r.
      eapply touched_inv; [apply touches_took|exact Hl|done|congruence|done|done].
  - destruct (Z.eqb_spec q (lp_seq (vw_log m))) as [->|Hne]; cbn [negb] in Hu; injection Hu as <- <-.
    + eapply log_step; [done|exact Hi|done|done|done|]. rewrite Hlc, app_nil_r. eapply await_end_inv; [exact Hl|done|]. right. left. split; [done|]. by eexists.
    + rewrite <- (set_log_same m) at 2. eapply log_step; [done|exact Hi|done|done|done|]. rewrite Hlc, app_nil_r.
      eapply touched_inv; [apply touches_kill|exact Hl|done|congruence|done|done].
  - injection Hu as <- <-. rewrite <- (set_log_same m) at 2. eapply log_step; [done|exact Hi|done|done|done|]. rewrite Hlc, app_nil_r. simpl.
    destruct (Z.eqb_spec q (lp_seq (vw_log m))) as [->|Hne]; [|by eapply stale_inv].
    rewrite <- (alter_id_log (λ ls, ls) p ls) by done. eapply await_end_inv; [exact Hl|done|]. right. by right.
Qed.

Lemma dead_watch_inv w t wc ws p : watch_inv w t wc ws → ws !! p = None → watch_inv w t wc (<[p := false]> ws).
Proof.
  intros [H1 H2 H3] Hn. assert (Hx : ∀ x, <[p := false]> ws !! x = Some true → ws !! x = Some true) by (by intros x [[_ ?]|[_ ?]]%lookup_insert_Some).
  split; [done|auto|]. assert (Hh : halted (wp_cancel w) ws → halted (wp_cancel w) (<[p := false]> ws)) by (intros Hh x Ex Hy; by apply (Hh x), Hx).
  inversion H3; [apply wph_idle; auto|apply wph_starting; auto|by apply wph_following].
Qed.

(** A watch command ends and the view only notes it. *)
Lemma watch_step m pre c post ws ws' ls w' cs : is_watchc c = true → view_inv (mkSys m (pre ++ c :: post) ws ls) →
  log_cmds cs = [] → log_stops cs = [] → CQuit ∉ cs →
  watch_inv w' (vw_terminal m) (watch_cmds (pre ++ post) ++ watch_cmds cs) (foldl (λ m s, alter halt s m) ws' (watch_stops cs)) →
  view_inv (continue (mkSys m (pre ++ post) ws' ls) (set_watch w' m) cs).
Proof.
  intros Hc [I1 I2 I3 I4 I5] El Es Hq Hw. simpl in *. apply continue_inv; simpl.
  - by apply (tree_ok_ext m).
  - done.
  - rewrite El, Es, app_nil_r. unfold log_cmds in *. rewrite filter_drop in I3; [done|]. by destruct c.
  - by apply (verdict_ext m).
  - intros [Hin|Hin]; [|done]. apply (ended_ext m); [done..|]. by apply I5, elem_removed.
Qed.

Lemma set_watch_same m : set_watch (vw_watch m) m = m.
Proof. by destruct m. Qed.

(** A snapshot of the current stream. *)
Lemma snap_step m pre q p post ws ls snap m' cs : view_inv (mkSys m (pre ++ CAwaitWatch q p :: post) ws ls) → q = wp_seq (vw_watch m) →
  applySnapshot snap m = Some (m', cs) → tree_ok m' →
  view_inv (continue (mkSys m (pre ++ post) (if sn_Terminal snap then alter halt p ws else ws) ls) m'
    (if vw_terminal m' then cs else cs ++ await_watch q (wp_ch (vw_watch m')))).
Proof.
  intros [I1 I2 I3 I4 I5] Eq Ha Ht. simpl in *. destruct (applySnapshot_effect _ _ _ _ Ha) as (L & W & C & S & T & F & O & Q).
  unfold watch_cmds in I2. rewrite filter_take in I2 by done. destruct (watch_rearm_inv _ _ _ _ _ _ _ I2 Eq) as (Et & Ech & Eca & Hre).
  assert (Hlc : log_cmds (pre ++ CAwaitWatch q p :: post) = log_cmds (pre ++ post)) by (by apply filter_drop). rewrite Hlc in I3.
  assert (Hv : verdict m').
  { destruct I4 as [V1 V2 V3]. split; rewrite ?T, ?O, ?F; [|..|done].
    - destruct (sn_Terminal snap) eqn:Es; simpl; [by eexists|]. by rewrite orb_false_r.
    - destruct (sn_Terminal snap) eqn:Es; simpl; [by intros s [= <-]|done]. }
  assert (Hen : CQuit ∈ pre ++ post ∨ CQuit ∈ cs → ended m').
  { intros [Hin|Hin].
    - apply (ended_mono m); [by apply I5, elem_removed|by rewrite F|rewrite O; by destruct (sn_Terminal snap)|rewrite O; destruct (sn_Terminal snap); [by eexists|done]].
    - right. right. rewrite O, (Q Hin). by eexists. }
  rewrite T, Et. destruct (sn_Terminal snap) eqn:Es; simpl.
  - apply continue_inv; simpl; [done| |by apply (effect_log_inv (vw_log m))|done|done].
    rewrite C, S, W, T, Et, app_nil_r. simpl. unfold watch_cmds. rewrite List.filter_app. eapply watch_idle_inv; [exact I2|done|done| |].
    + intros x Hx [_ Hne]%halt_lookup. congruence.
    + intros x [Hx _]%halt_lookup. by apply (wi_live _ _ _ _ I2).
  - rewrite W, Ech. simpl. apply continue_inv; simpl; [done| | |done|].
    + unfold watch_cmds, watch_stops in *. rewrite !List.filter_app, omap_app, C, S, W, T, Et. simpl. by rewrite Et in Hre.
    + unfold log_cmds, log_stops in *. rewrite (List.filter_app is_logc cs), omap_app. simpl. rewrite !app_nil_r. by apply (effect_log_inv (vw_log m)).
    + intros [Hin|[Hin|Hin%list_elem_of_singleton]%elem_of_app]; [apply Hen; by left|apply Hen; by right|done].
Qed.

Lemma watch_complete m pre c post ws ls x ws' ls' m' cs : is_watchc c = true → view_inv (mkSys m (pre ++ c :: post) ws ls) →
  completes c ws ls x ws' ls' → Update x m = Some (m', cs) → view_inv (continue (mkSys m (pre ++ post) ws' ls') m' cs).
Proof.
  intros Hc Hi Hx Hu. pose proof (vi_watch _ Hi) as Hw. simpl in Hw. assert (Hw0 := Hw). unfold watch_cmds in Hw. rewrite filter_take in Hw by done.
  assert (Hwc : watch_cmds (pre ++ post) = List.filter is_watchc pre ++ List.filter is_watchc post) by apply List.filter_app.
  assert (Htame : tree_ok m'). { destruct (Update_tame x m (vi_tree _ Hi)) as (m1 & cs1 & E & Ht). congruence. }
  assert (Hl : log_inv (vw_log m) (log_cmds (pre ++ post)) ls).
  { pose proof (vi_log _ Hi) as Hl. simpl in Hl. unfold log_cmds in *. rewrite filter_drop in Hl; [done|]. by destruct c. }
  pose proof (vi_tree _ Hi) as Htr. pose proof (vi_verdict _ Hi) as Hv. pose proof (vi_quit _ Hi) as Hq. simpl in Htr, Hv, Hq.
  assert (Hq' : CQuit ∈ pre ++ post → ended m) by (intros H; by apply Hq, elem_removed).
  assert (Hdown : ∀ e m1 ws1, tree_ok m1 → vw_log m1 = vw_log m → vw_outcome m1 = vw_outcome m → vw_fatal m1 = vw_fatal m → vw_terminal m1 = vw_terminal m →
    wp_seq (vw_watch m) = wp_seq (vw_watch m1) → wp_cancel (vw_watch m) = wp_cancel (vw_watch m1) → watch_seq c = wp_seq (vw_watch m) →
    (∀ p, ws1 !! p = Some true → ws !! p = Some true) → view_inv (continue (mkSys m (pre ++ post) ws1 ls) (watchDown e m1).1 (watchDown e m1).2)).
  { intros e m1 ws1 A1 A2 A3 A4 A5 A6 A7 A8 A9. eapply (down_step m1 (vw_watch m) (vw_terminal m) e pre c post ws); try done; [congruence|by rewrite A2| |].
    - apply (verdict_ext m); congruence.
    - intros Hin. apply (ended_ext m); [congruence..|]. by apply Hq'. }
  destruct Hx as [| | |q e ws ls|q p ws ls Hn|q p snap ws ls|q p e ws ls|q p ws ls Hd| | | | |]; try done; cbn [Update] in Hu.
  - destruct (Z.eqb_spec q (wp_seq (vw_watch m))) as [->|Hne]; cbn [negb] in Hu.
    + assert (Eu : watchDown e (set_watch (mkW (wp_seq (vw_watch m)) (wp_ch (vw_watch m)) (wp_cancel (vw_watch m)) (wp_err (vw_watch m)) false) m) = (m', cs)) by congruence.
      replace m' with (m', cs).1 by done. replace cs with (m', cs).2 at 2 by done. rewrite <- Eu. apply Hdown; try done. by apply (tree_ok_ext m).
    + injection Hu as <- <-. rewrite <- (set_watch_same m) at 2. eapply watch_step; [done|exact Hi|done..|]. rewrite Hwc, app_nil_r. by eapply watch_stale_inv.
  - destruct (Z.eqb_spec q (wp_seq (vw_watch m))) as [->|Hne]; cbn [negb] in Hu; injection Hu as <- <-.
    + eapply watch_step; [done|exact Hi|done|done|by intros [?|?%elem_of_nil]%elem_of_cons|]. rewrite Hwc. by apply watch_opened_inv.
    + rewrite <- (set_watch_same m) at 2. eapply watch_step; [done|exact Hi|done|done|by intros [?|?%elem_of_nil]%elem_of_cons|].
      rewrite Hwc. simpl. rewrite app_nil_r, alter_insert_eq. apply dead_watch_inv; [by eapply watch_stale_inv|done].
  - destruct (Z.eqb_spec q (wp_seq (vw_watch m))) as [->|Hne]; cbn [negb] in Hu.
    + destruct (applySnapshot snap m) as [[m1 cs1]|] eqn:Ea; [|done]. cbn [mbind option_bind] in Hu. injection Hu as <- <-. by eapply snap_step.
    + injection Hu as <- <-. rewrite <- (set_watch_same m) at 2. eapply watch_step; [done|exact Hi|done|done|done|]. rewrite Hwc, app_nil_r. simpl.
      destruct (sn_Terminal snap); [apply halt_inv|]; by eapply watch_stale_inv.
  - destruct (Z.eqb_spec q (wp_seq (vw_watch m))) as [->|Hne]; cbn [negb] in Hu.
    + assert (Eu : watchDown e m = (m', cs)) by congruence. replace m' with (m', cs).1 by done. replace cs with (m', cs).2 at 2 by done. rewrite <- Eu. apply Hdown; try done.
      by intros x [Hx _]%halt_lookup.
    + injection Hu as <- <-. rewrite <- (set_watch_same m) at 2. eapply watch_step; [done|exact Hi|done|done|done|]. rewrite Hwc, app_nil_r. simpl.
      apply halt_inv. by eapply watch_stale_inv.
  - destruct (Z.eqb_spec q (wp_seq (vw_watch m))) as [->|Hne]; cbn [negb] in Hu.
    + assert (Hcase : (m', cs) = (m, []) ∨ (m', cs) = watchDown (EOther "watch stream closed") m).
      { destruct (vw_snap m) as [sn|]; [destruct (sn_Terminal sn)|]; (left; congruence) || (right; congruence). }
      destruct Hcase as [[= -> ->]|Eu].
      * rewrite <- (set_watch_same m) at 2. eapply watch_step; [done|exact Hi|done|done|done|]. rewrite Hwc, app_nil_r. simpl.
        destruct (watch_rearm_inv _ _ _ _ _ _ _ Hw eq_refl) as (_ & _ & Eca & _).
        eapply watch_idle_inv; [exact Hw|done|done| |apply (wi_live _ _ _ _ Hw)]. intros x Ex. congruence.
      * replace m' with (m', cs).1 by done. replace cs with (m', cs).2 at 2 by done. rewrite Eu. apply Hdown; done.
    + injection Hu as <- <-. rewrite <- (set_watch_same m) at 2. eapply watch_step; [done|exact Hi|done|done|done|]. rewrite Hwc, app_nil_r. simpl. by eapply watch_stale_inv.
Qed.

Lemma view_step_inv y y' : sys_step y y' → view_inv y → view_inv y'.
Proof.
  intros [y0 x m cs Hx Hu|y0 pre c post x ws ls m cs Ec Hx Hu] Hi.
  - assert (Ht : tree_ok m). { destruct (Update_tame x _ (vi_tree _ Hi)) as (m1 & cs1 & E & Ht). congruence. }
    destruct Hx as [(w & h & ->)|(k & b & ->)]; cbn [Update] in Hu.
    + injection Hu as <- <-. apply quiet_step; [done|done|by apply le_same|by split].
    + apply key_step; [done|done|by apply (updateKey_effect k b)].
  - destruct y0 as [m0 cmds ws0 ls0]. simpl in *. subst cmds.
    destruct (is_logc c) eqn:El; [by eapply logs_complete|]. destruct (is_watchc c) eqn:Ew; [by eapply watch_complete|].
    pose proof (drop_inv _ _ _ _ _ _ El Ew Hi) as Hi'.
    assert (Ht : tree_ok m). { destruct (Update_tame x _ (vi_tree _ Hi)) as (m1 & cs1 & E & Ht). simpl in E. congruence. }
    destruct Hx as [ws ls|t ws ls|e ws ls| | | | | | | | | |]; try done; cbn [Update] in Hu.
    + assert (Eu : on_tick m0 = (m, cs)) by congruence. pose proof (tick_step _ Hi') as Hs. simpl in Hs. by rewrite Eu in Hs.
    + case_match; [injection Hu as <- <-; apply quiet_step; [done|done|by apply le_same|by split]|].
      destruct (switchLogs_effect _ _ _ Hu). by apply quiet_step.
    + injection Hu as <- <-. apply quiet_step; [done|done|by apply le_same|by split].
Qed.

Lemma sys0_inv : view_inv sys0.
Proof.
  split; simpl.
  - split; simpl; try done; unfold zlen; simpl; lia.
  - split; simpl; [|by intros p|by apply (wph_starting (vw_watch newBuildView))]. intros c [->|?%elem_of_nil]%elem_of_cons; [done|done].
  - split; simpl; [by intros c ?%elem_of_nil|by intros q p ?%elem_of_nil|by intros p ls|]. apply lph_idle; [by intros p ls|by left].
  - by split.
  - rewrite !elem_of_cons. by intros [?|[?|?%elem_of_nil]].
Qed.

Lemma view_reachable_inv y : view_reachable y → view_inv y.
Proof.
  intros H. assert (Hg : view_inv sys0 → view_inv y); [|by apply Hg, sys0_inv]. induction H as [|? ? ? Hs _ IH]; [done|]. intros Hi. by eapply IH, view_step_inv.
Qed.

End View.

(** ** A run: the watch opens and brings a snapshot *)
#[local] Existing Instance string_keys.

Lemma demo_view : ∃ y, view_reachable y ∧ length (tp_visible (vw_tree (sy_view y))) = 5%nat.
Proof.
  set (v1 := set_watch (mkW 1 (Some 1%positive) (Some 1%positive) None false) newBuildView).
  set (ws := <[1%positive := true]> ∅ : gmap sid bool).
  set (y1 := continue (mkSys (sy_view sys0) ([CTick] ++ []) ws ∅) v1 [CAwaitWatch 1 1%positive]).
  assert (H1 : sys_step sys0 y1).
  { apply (ss_cmd sys0 [CTick] (CWatch 1) [] (MWatchStarted 1 1%positive)); [reflexivity|by constructor|reflexivity]. }
  assert (Hb : match Update (MWatchEvent 1 (Ok diamond)) v1 with Some (m, _) => bool_decide (length (tp_visible (vw_tree m)) = 5%nat) | None => false end = true)
    by (vm_compute; reflexivity).
  destruct (Update (MWatchEvent 1 (Ok diamond)) v1) as [[m cs]|] eqn:E; [|discriminate Hb]. apply bool_decide_eq_true in Hb.
  exists (continue (mkSys v1 ([CTick] ++ []) ws ∅) m cs). split.
  - apply (rtc_l _ _ y1); [exact H1|]. apply rtc_once.
    apply (ss_cmd y1 [CTick] (CAwaitWatch 1 1%positive) [] (MWatchEvent 1 (Ok diamond)) ws ∅ m cs); [reflexivity| |exact E].
    exact (cp_snap 1 1%positive diamond ws ∅).
  - unfold continue. destruct (started cs (mkSys m ([CTick] ++ []) ws ∅)) as (E1 & _). change (length (tp_visible (vw_tree (sy_view (foldl start (mkSys m ([CTick] ++ []) ws ∅) cs)))) = 5%nat). rewrite E1. exact Hb.
Qed.


(** A resize leaves the window where it was: shrinking the terminal scrolls
    the selected row off the screen until the next key or snapshot. *)
Definition play (xs : list msg) : option buildView := foldl (λ o x, m ← o; '(m', _) ← Update x m; Some m') (Some newBuildView) xs.

Definition drawn_selected (m : option buildView) : option bool := m ← m; rows ← treeLines m 0; Some (existsb snd rows).

Example resize_hides_selection :
  let shown := [MSize 100 30; MWatchStarted 1 1%positive; MWatchEvent 1 (Ok diamond); MKey "down" true; MKey "down" true; MKey "down" true] in
  drawn_selected (play shown) = Some true ∧ drawn_selected (play (shown ++ [MSize 100 4])) = Some false.
Proof. vm_compute. split; reflexivity. Qed.
