(* ===== verification/ContextRoot.v ===== *)
(** * Which tree a client builds from (src/clientcli/contextroot.go)

    The source directory, inferred from the current one when it is not given, is
    anchored at the root of its repository. Every command that builds from
    sources goes through these functions; local and remote builds agree only if
    they name the same directory. *)
From S2P Require Import Prelude GoLib Keys Builddef Store Stages Trees BlobCache Image Cover Paths DiskFs Extract ExtractFacts.
From Stdlib Require Import Ascii.
Local Open Scope string_scope.
Local Open Scope list_scope.

Definition defaultBuildFile : string := "BUILD.jobs".

Definition exists_at (r : result errno node) : bool := match r with Ok _ => true | Err _ => false end.

(** [filepath.Abs] in the working directory [cwd]. *)
Definition Abs (cwd p : string) : string := if is_rooted p then path_Clean p else path_Join cwd p.

(** The walk upwards; [None] when [fuel] directories are not enough. *)
Fixpoint repoRoot (fuel : nat) (fs : disk) (dir : string) : option string :=
  match fuel with
  | O => None
  | S fuel =>
      if exists_at (os_Lstat fs (psegs (path_Join dir ".git"))) then Some dir
      else let parent := path_Dir dir in if String.eqb parent dir then Some "" else repoRoot fuel fs parent
  end.

(** The search for a recipe, from [cand] up to [ceiling]. *)
Fixpoint search_up (fuel : nat) (fs : disk) (recipe ceiling cand : string) : option (option string) :=
  match fuel with
  | O => None
  | S fuel =>
      if exists_at (os_Stat fs (psegs (path_Join cand recipe))) then Some (Some cand)
      else if String.eqb cand ceiling || String.eqb cand (path_Dir cand) then Some None
      else search_up fuel fs recipe ceiling (path_Dir cand)
  end.

(** As many steps as a path has elements, and one more. *)
Definition depth (p : string) : nat := S (S (length (psegs p))).

Definition outside (r : result string string) : bool := match r with Err _ => true | Ok rel => escapes rel end.

Definition defaultSource (fs : disk) (cwd dir sourceRoot buildFile : string) (noRepoRoot : bool) : option (result string string) :=
  let absCwd := Abs cwd cwd in
  if negb (String.eqb dir "") then Some (Ok absCwd)
  else
    let ceiling :=
      if negb (String.eqb sourceRoot "") then Some (Abs cwd sourceRoot)
      else if noRepoRoot then Some absCwd
      else match repoRoot (depth absCwd) fs absCwd with None => None | Some r => Some (if String.eqb r "" then absCwd else r) end in
    match ceiling with
    | None => None
    | Some ceiling =>
        if outside (Rel ceiling absCwd) then Some (Err ("current directory " +:+ absCwd +:+ " is not under the context root"))
        else
          let recipe := if String.eqb buildFile "" then defaultBuildFile else buildFile in
          match search_up (depth absCwd) fs recipe ceiling absCwd with
          | None => None
          | Some (Some c) => Some (Ok c)
          | Some None => Some (Err ("no " +:+ recipe +:+ " in " +:+ absCwd))
          end
    end.

(** The root to ingest and the directory of the build in it. *)
Definition resolveContextRoot (fs : disk) (cwd source dir sourceRoot : string) (noRepoRoot : bool) : option (result string (string * string)) :=
  let absSource := Abs cwd source in
  let anchored root :=
    match Rel root absSource with
    | Err e => Err ("--source " +:+ source +:+ " is not under the context root")
    | Ok rel =>
        if escapes rel then Err ("--source " +:+ source +:+ " is not under the context root")
        else let outDir := path_Join rel dir in Ok (root, if String.eqb outDir "." then "" else outDir)
    end in
  if negb (String.eqb sourceRoot "") then Some (anchored (Abs cwd sourceRoot))
  else if noRepoRoot then Some (Ok (absSource, dir))
  else match repoRoot (depth absSource) fs absSource with
  | None => None
  | Some root => Some (if String.eqb root "" then Ok (absSource, dir) else anchored root)
  end.

Definition resolveSource (fs : disk) (cwd source dir sourceRoot buildFile : string) (noRepoRoot : bool) : option (result string (string * string)) :=
  if String.eqb source "" then
    match defaultSource fs cwd dir sourceRoot buildFile noRepoRoot with
    | None => None
    | Some (Err e) => Some (Err e)
    | Some (Ok source) => resolveContextRoot fs cwd source dir sourceRoot noRepoRoot
    end
  else resolveContextRoot fs cwd source dir sourceRoot noRepoRoot.

(** ** Relative paths *)

Lemma joined_app b d : b ≠ [] → d ≠ [] → joined (b ++ d) = joined b +:+ "/" +:+ joined d.
Proof.
  intros Hb Hd. induction b as [|s b IH]; [done|]. destruct b as [|s' b]; [change ([s] ++ d) with (s :: d); by rewrite joined_cons|]. change ((s :: s' :: b) ++ d) with (s :: ((s' :: b) ++ d)).
  rewrite joined_cons by done. rewrite (joined_cons s (s' :: b)) by done. rewrite IH by done. by rewrite !append_assoc.
Qed.

Lemma Join_joined b d : segs_ok b → segs_ok d → path_Join (joined b) (joined d) = joined (b ++ d).
Proof.
  intros Hb Hd. assert (Hbd : segs_ok (b ++ d)) by (destruct Hb, Hd; split; [by destruct b|by apply Forall_app]). rewrite <- (Clean_joined (b ++ d)) by done.
  rewrite joined_app by (apply Hb || apply Hd). pose proof (joined_nonempty b Hb). pose proof (joined_nonempty d Hd). unfold path_Join. by destruct (joined b), (joined d).
Qed.

Lemma Join_dot d : segs_ok d → path_Join "." (joined d) = joined d.
Proof.
  intros Hd. pose proof (joined_nonempty d Hd) as Hne. assert (E : path_Join "." (joined d) = path_Clean ("." +:+ "/" +:+ joined d)) by (unfold path_Join; by destruct (joined d)).
  rewrite E. transitivity (path_Clean (joined d)); [|by apply Clean_joined]. unfold path_Clean. assert (Hr : is_rooted ("." +:+ "/" +:+ joined d) = false) by apply (rooted_cons "."). rewrite Hr.
  destruct d as [|s d]; [by destruct Hd|]. destruct Hd as [_ Hd]. rewrite joined_not_rooted; [|apply Forall_cons in Hd as [[(? & ? & ?) ?] _]; done..].
  assert (Hs : Split ("." +:+ String slash (joined (s :: d))) slash = "." :: Split (joined (s :: d)) slash) by (by apply Split_app).
  change ("." +:+ "/" +:+ joined (s :: d)) with ("." +:+ String slash (joined (s :: d))). by rewrite Hs.
Qed.

Lemma joined_stays b : segs_ok b → escapes (joined b) = false.
Proof.
  intros [Hne Hb]. destruct b as [|s b]; [done|]. apply Forall_cons in Hb as [[(H1 & H2 & H3) H4] Hb]. destruct b as [|s' b].
  - unfold escapes, joined. cbn [Join]. rewrite (proj2 (String.eqb_neq _ _) H3). cbn [orb]. destruct (HasPrefix s "../") eqn:E; [|done]. apply HasPrefix_CutPrefix in E as [r E]. apply CutPrefix_Some in E as ->. done.
  - rewrite joined_cons by done. unfold escapes. destruct (HasPrefix (s +:+ "/" +:+ joined (s' :: b)) "../") eqn:E.
    + exfalso. apply HasPrefix_CutPrefix in E as [r E]. apply CutPrefix_Some in E. apply (f_equal (λ x, Split x slash)) in E. change ("/" +:+ joined (s' :: b)) with (String slash (joined (s' :: b))) in E.
      rewrite Split_app in E by done. change ("../" +:+ r) with (".." +:+ String slash r) in E. rewrite Split_app in E by done. by injection E.
    + rewrite orb_false_r. apply String.eqb_neq. intros E'. apply (f_equal (λ x, Split x slash)) in E'. change ("/" +:+ joined (s' :: b)) with (String slash (joined (s' :: b))) in E'.
      rewrite Split_app in E' by done. cbn in E'. injection E' as -> E'. by destruct (Split (joined (s' :: b)) slash) eqn:En; [apply Split_nonempty in En|].
Qed.

Lemma drop_common_prefix r b : drop_common r (r ++ b) = ([], b).
Proof. induction r as [|x r IH]; cbn; [by destruct b|]. by rewrite String.eqb_refl. Qed.

Lemma drop_common_suffix r s bs ts : drop_common r s = (bs, ts) → ∃ a, r = a ++ bs ∧ s = a ++ ts.
Proof.
  revert s bs ts. induction r as [|x r IH]; intros [|y s] bs ts; cbn; try (intros [= <- <-]; by exists []). destruct (String.eqb_spec x y) as [->|]; [|intros [= <- <-]; by exists []].
  intros (a & -> & ->)%IH. by exists (y :: a).
Qed.

Lemma abs_eqb a b : Forall name_ok a → Forall name_ok b → String.eqb (abs a) (abs b) = bool_decide (a = b).
Proof.
  intros Ha Hb. destruct (String.eqb_spec (abs a) (abs b)) as [E|E]; symmetry; [apply bool_decide_eq_true; by rewrite <- (psegs_abs a Ha), E, psegs_abs|apply bool_decide_eq_false; congruence].
Qed.

Lemma Rel_under r b : Forall name_ok (r ++ b) → Rel (abs r) (abs (r ++ b)) = Ok (if decide (b = []) then "." else joined b).
Proof.
  intros H. pose proof H as [Hr Hb]%Forall_app. unfold Rel. rewrite !Clean_abs by done. rewrite abs_eqb by done. destruct (decide (b = [])) as [->|Hne]; [by rewrite app_nil_r, bool_decide_eq_true_2|].
  rewrite bool_decide_eq_false_2 by (intros E; apply Hne; rewrite <- (app_nil_r r) in E at 2; by apply app_inv_head in E). rewrite !abs_rooted. cbn [Bool.eqb negb].
  rewrite !psegs_abs by done. change (String.eqb (abs r) ".") with false. cbv iota. by rewrite drop_common_prefix.
Qed.

Lemma Rel_outside r s : Forall name_ok r → Forall name_ok s → ¬ r `prefix_of` s → outside (Rel (abs r) (abs s)) = true.
Proof.
  intros Hr Hs Hp. unfold Rel. rewrite !Clean_abs by done. rewrite abs_eqb, bool_decide_eq_false_2 by (done || by intros ->; apply Hp). rewrite !abs_rooted. cbn [Bool.eqb negb].
  rewrite !psegs_abs by done. change (String.eqb (abs r) ".") with false. cbv iota. destruct (drop_common r s) as [bs ts] eqn:E. apply drop_common_suffix in E as (a & -> & ->).
  destruct bs as [|x bs]; [destruct Hp; rewrite app_nil_r; by eexists|]. destruct (String.eqb x ".."); [done|]. cbn [outside replicate length app]. unfold escapes.
  destruct (replicate (length bs) ".." ++ ts) as [|y l]; [done|]. apply orb_true_iff. right. exact (HasPrefix_app "../" (Join (y :: l) "/")).
Qed.

Lemma Rel_abs r s : Forall name_ok r → Forall name_ok s → outside (Rel (abs r) (abs s)) = false → ∃ b, s = r ++ b ∧ Rel (abs r) (abs s) = Ok (if decide (b = []) then "." else joined b).
Proof.
  intros Hr Hs Ho. destruct (decide (r `prefix_of` s)) as [[b ->]|Hp]; [|by rewrite Rel_outside in Ho]. exists b. split; [done|]. by apply Rel_under.
Qed.

(** ** The walks *)

Lemma Abs_abs cwd p : is_rooted cwd = true → ∃ n, Forall name_ok n ∧ Abs cwd p = abs n.
Proof.
  intros Hc. unfold Abs. destruct (is_rooted p) eqn:Hp; [by apply Clean_rooted_abs|]. destruct cwd as [|a cwd]; [done|]. destruct p as [|c p]; cbn [path_Join]; apply Clean_rooted_abs; [done|].
  etransitivity; [apply rooted_cons|]. by rewrite rooted_cons in Hc.
Qed.

Lemma Dir_abs_nil : path_Dir (abs []) = abs [].
Proof. done. Qed.

Lemma git_segs d : Forall name_ok d → psegs (path_Join (abs d) ".git") = d ++ [".git"].
Proof.
  intros Hd. assert (Hg : segs_ok [".git"]) by (split; [done|]; repeat constructor; done). change ".git" with (joined [".git"]) at 1. rewrite Join_abs by done. apply psegs_abs. apply Forall_app. split; [done|apply Hg].
Qed.

Definition is_repo (fs : disk) (d : list string) : bool := exists_at (os_Lstat fs (d ++ [".git"])).

(** The nearest directory on the way up that holds a repository. *)
Definition nearest (P : list string → bool) (d r : list string) : Prop := ∃ b, d = r ++ b ∧ P r = true ∧ ∀ r' b', d = r' ++ b' → (length r < length r')%nat → P r' = false.

Lemma nearest_up P d s r : nearest P d r → P (d ++ [s]) = false → nearest P (d ++ [s]) r.
Proof.
  intros (b & -> & Hr & Hn) Hs. exists (b ++ [s]). split_and!; [by rewrite (assoc_L (++))|done|]. intros r' b' E Hl. destruct b' as [|x b' _] using rev_ind; [rewrite app_nil_r in E; by subst|].
  rewrite (assoc_L (++)) in E. apply app_inj_tail in E as [E _]. by eapply Hn.
Qed.

Lemma repoRoot_spec fs d : ∀ fuel, Forall name_ok d → (S (length d) < fuel)%nat →
  (∃ r, nearest (is_repo fs) d r ∧ repoRoot fuel fs (abs d) = Some (abs r)) ∨ ((∀ r b, d = r ++ b → is_repo fs r = false) ∧ repoRoot fuel fs (abs d) = Some "").
Proof.
  induction d as [|s d IH] using rev_ind; intros fuel Hd Hf; (destruct fuel as [|fuel]; [lia|]); cbn [repoRoot]; rewrite git_segs by done.
  - change (exists_at (os_Lstat fs ([] ++ [".git"]))) with (is_repo fs []). destruct (is_repo fs []) eqn:E.
    + left. exists []. split; [|done]. exists []. split_and!; [done..|]. intros r' b' E' Hl. symmetry in E'. apply app_nil in E' as [-> _]. cbn in Hl. lia.
    + right. split; [|done]. intros r b E'. symmetry in E'. apply app_nil in E' as [-> _]. done.
  - change (exists_at (os_Lstat fs ((d ++ [s]) ++ [".git"]))) with (is_repo fs (d ++ [s])). destruct (is_repo fs (d ++ [s])) eqn:E.
    + left. exists (d ++ [s]). split; [|done]. exists []. split_and!; [by rewrite app_nil_r|done|]. intros r' b' E' Hl. apply (f_equal length) in E'. rewrite !length_app in *. lia.
    + cbv zeta. rewrite Dir_abs by done. pose proof Hd as [Hd' _]%Forall_app. rewrite abs_eqb, bool_decide_eq_false_2 by (done || (intros E'; apply (f_equal length) in E'; rewrite length_app in E'; cbn in E'; lia)).
      destruct (IH fuel Hd') as [(r & Hr & ->)|[Hn ->]]; [rewrite length_app in Hf; cbn in Hf; lia| |].
      * left. exists r. split; [by apply nearest_up|done].
      * right. split; [|done]. intros r b E'. destruct b as [|x b _] using rev_ind; [rewrite app_nil_r in E'; by subst|]. rewrite (assoc_L (++)) in E'. apply app_inj_tail in E' as [E' _]. by eapply Hn.
Qed.

Lemma depth_abs d : Forall name_ok d → (S (length d) < depth (abs d))%nat.
Proof. intros Hd. unfold depth. rewrite psegs_abs by done. lia. Qed.

(** [search_up] from below its ceiling. *)
Lemma search_up_spec fs recipe c b : ∀ fuel, Forall name_ok (c ++ b) → (S (length b) <= fuel)%nat →
  let P d := exists_at (os_Stat fs (psegs (path_Join (abs d) recipe))) in
  (∃ b1 b2, b = b1 ++ b2 ∧ P (c ++ b1) = true ∧ (∀ b1' b2', b = b1' ++ b2' → (length b1 < length b1')%nat → P (c ++ b1') = false) ∧ search_up fuel fs recipe (abs c) (abs (c ++ b)) = Some (Some (abs (c ++ b1)))) ∨
  ((∀ b1 b2, b = b1 ++ b2 → P (c ++ b1) = false) ∧ search_up fuel fs recipe (abs c) (abs (c ++ b)) = Some None).
Proof.
  induction b as [|s b IH] using rev_ind; intros fuel Hd Hf P; (destruct fuel as [|fuel]; [lia|]); cbn [search_up].
  - rewrite app_nil_r in *. fold (P c). destruct (P c) eqn:E.
    + left. exists [], []. rewrite !app_nil_r. split_and!; [done..| |done]. intros b1 b2 E' Hl. symmetry in E'. apply app_nil in E' as [-> _]. cbn in Hl. lia.
    + right. rewrite String.eqb_refl. split; [|done]. intros b1 b2 E'. symmetry in E'. apply app_nil in E' as [-> _]. by rewrite app_nil_r.
  - fold (P (c ++ b ++ [s])). destruct (P (c ++ b ++ [s])) eqn:E.
    + left. exists (b ++ [s]), []. split_and!; [by rewrite app_nil_r|done| |done]. intros b1 b2 E' Hl. apply (f_equal length) in E'. rewrite !length_app in *. lia.
    + assert (Hne : c ++ b ++ [s] ≠ c) by (intros E'; rewrite <- (app_nil_r c) in E' at 2; apply app_inv_head in E'; by destruct b). pose proof Hd as Hd0. rewrite (assoc_L (++)) in Hd0.
      rewrite abs_eqb, bool_decide_eq_false_2 by (done || by apply Forall_app in Hd as [? _]). rewrite (assoc_L (++)), Dir_abs by done. pose proof Hd0 as [Hd1 _]%Forall_app.
      rewrite abs_eqb, bool_decide_eq_false_2 by (done || (intros E'; apply (f_equal length) in E'; rewrite !length_app in E'; cbn in E'; lia)). cbn [orb].
      destruct (IH fuel Hd1) as [(b1 & b2 & -> & H1 & H2 & ->)|[Hn ->]]; [rewrite length_app in Hf; cbn in Hf; lia| |].
      * left. exists b1, (b2 ++ [s]). split_and!; [by rewrite (assoc_L (++))|done| |done]. intros b1' b2' E' Hl. destruct b2' as [|x b2' _] using rev_ind; [rewrite app_nil_r in E'; by subst|].
        rewrite !(assoc_L (++)) in E'. apply app_inj_tail in E' as [E' _]. by eapply H2.
      * right. split; [|done]. intros b1 b2 E'. destruct b2 as [|x b2 _] using rev_ind; [rewrite app_nil_r in E'; by subst|]. rewrite (assoc_L (++)) in E'. apply app_inj_tail in E' as [E' _]. by eapply Hn.
Qed.

(** ** The resolution *)

(** A directory below the build root, as given with [--dir]. *)
Definition sub_dir (dir : string) : Prop := dir = "" ∨ clean_rel dir.

(** The same place, named from [root] and from [src]. *)
Definition same_place (src : list string) (dir root out : string) : Prop :=
  ∃ r, Forall name_ok r ∧ root = abs r ∧ r `prefix_of` src ∧ sub_dir out ∧ path_Join root out = path_Join (abs src) dir.

Lemma Join_abs_empty s : Forall name_ok s → path_Join (abs s) "" = abs s.
Proof. intros Hs. change (path_Join (abs s) "") with (path_Clean (abs s)). by apply Clean_abs. Qed.

Lemma same_here s dir : Forall name_ok s → sub_dir dir → same_place s dir (abs s) dir.
Proof. intros Hs Hd. by exists s. Qed.

Lemma anchored_same r b dir : Forall name_ok (r ++ b) → sub_dir dir →
  let out := path_Join (if decide (b = []) then "." else joined b) dir in same_place (r ++ b) dir (abs r) (if String.eqb out "." then "" else out).
Proof.
  intros H Hd. pose proof H as [Hr Hb]%Forall_app. cbv zeta.
  assert (Hcase : ∃ c, Forall name_ok c ∧ path_Join (if decide (b = []) then "." else joined b) dir = (if decide (c = []) then "." else joined c) ∧ path_Join (abs (r ++ b)) dir = abs (r ++ c)).
  { destruct Hd as [->|(d & Hd & ->)].
    - exists b. rewrite Join_abs_empty by done. split_and!; [done| |done]. destruct (decide (b = [])) as [->|Hne]; [done|]. assert (Hbs : segs_ok b) by done.
      pose proof (joined_nonempty b Hbs). transitivity (path_Clean (joined b)); [unfold path_Join; by destruct (joined b)|by apply Clean_joined].
    - exists (b ++ d). rewrite Join_abs, <- (assoc_L (++)) by done. destruct Hd as [Hdn Hda]. split_and!; [by apply Forall_app| |done].
      rewrite (decide_False (P := b ++ d = [])) by (by destruct b, d). destruct (decide (b = [])) as [->|Hne]; [by apply Join_dot|by apply Join_joined]. }
  destruct Hcase as (c & Hc & E1 & E2). rewrite E1. destruct (decide (c = [])) as [->|Hne].
  - exists r. split_and!; [done..|by eexists|by left|]. rewrite E2, app_nil_r. cbn [String.eqb]. by apply Join_abs_empty.
  - assert (Hcs : segs_ok c) by done. assert (Hdot : String.eqb (joined c) "." = false).
    { apply String.eqb_neq. intros E. apply (f_equal (λ x, Split x slash)) in E. rewrite Split_joined in E by (done || by apply segs_ok_noslash). cbn in E. subst c. apply Forall_cons in Hc as [[(_ & Hdot & _) _] _]. done. }
    rewrite Hdot. exists r. split_and!; [done..|by eexists|right; by exists c|]. rewrite E2. by apply Join_abs.
Qed.

Lemma anchored_ok r s source dir : Forall name_ok r → Forall name_ok s → sub_dir dir → ∀ root out,
  match Rel (abs r) (abs s) with
  | Err e => Err ("--source " +:+ source +:+ " is not under the context root")
  | Ok rel => if escapes rel then Err ("--source " +:+ source +:+ " is not under the context root")
      else let outDir := path_Join rel dir in Ok (abs r, if String.eqb outDir "." then "" else outDir)
  end = Ok (root, out) → root = abs r ∧ same_place s dir root out.
Proof.
  intros Hr Hs Hd root out. destruct (outside (Rel (abs r) (abs s))) eqn:Eo; [destruct (Rel (abs r) (abs s)) as [rel|e]; cbn in Eo; [by rewrite Eo|done]|].
  destruct (Rel_abs r s Hr Hs Eo) as (b & -> & E). rewrite E in *. cbn in Eo. rewrite Eo. intros [= <- <-]. split; [done|]. by apply anchored_same.
Qed.

(** Resolution ends, and on success names the given directory; without an
    explicit root it is the nearest repository above the source. *)
Lemma resolve_root_ok fs cwd source dir sourceRoot noRepoRoot : is_rooted cwd = true → sub_dir dir →
  ∃ s res, Forall name_ok s ∧ Abs cwd source = abs s ∧ resolveContextRoot fs cwd source dir sourceRoot noRepoRoot = Some res ∧
    (∀ root out, res = Ok (root, out) → same_place s dir root out ∧
      (sourceRoot = "" → noRepoRoot = false → (∃ r, root = abs r ∧ nearest (is_repo fs) s r) ∨ root = abs s ∧ ∀ r b, s = r ++ b → is_repo fs r = false)) ∧
    (sourceRoot = "" → ∃ x, res = Ok x).
Proof.
  intros Hc Hd. destruct (Abs_abs cwd source Hc) as (s & Hs & Es). exists s. unfold resolveContextRoot. rewrite Es. destruct (String.eqb_spec sourceRoot "") as [->|Hne]; cbn [negb].
  - destruct noRepoRoot; [eexists; split_and!; [done..| |by eexists]; intros root out [= <- <-]; split; [by apply same_here|done]|].
    destruct (repoRoot_spec fs s (depth (abs s)) Hs (depth_abs s Hs)) as [(r & Hn & ->)|[Hn ->]].
    + destruct Hn as (b & -> & Hr & Hmax). pose proof Hs as [Hrn Hbn]%Forall_app. change (String.eqb (abs r) "") with false. cbv iota. rewrite Rel_under by done. assert (Hesc : escapes (if decide (b = []) then "." else joined b) = false).
      { destruct (decide (b = [])); [done|by apply joined_stays]. }
      rewrite Hesc. eexists. split_and!; [done..| |by eexists]. intros root out [= <- <-]. split; [by apply anchored_same|]. intros _ _. left. exists r. split; [done|]. by exists b.
    + eexists. split_and!; [done..| |by eexists]. intros root out [= <- <-]. split; [by apply same_here|]. intros _ _. by right.
  - destruct (Abs_abs cwd sourceRoot Hc) as (r & Hr & ->). eexists. split_and!; [done..| |done]. intros root out H. split; [by eapply anchored_ok|done].
Qed.

Lemma default_source_ok fs cwd dir sourceRoot buildFile noRepoRoot : is_rooted cwd = true →
  ∃ res, defaultSource fs cwd dir sourceRoot buildFile noRepoRoot = Some res ∧
    ∀ src, res = Ok src → ∃ s, Forall name_ok s ∧ src = abs s ∧
      (dir = "" → exists_at (os_Stat fs (psegs (path_Join src (if String.eqb buildFile "" then defaultBuildFile else buildFile)))) = true).
Proof.
  intros Hc. destruct (Abs_abs cwd cwd Hc) as (s & Hs & Es). unfold defaultSource. rewrite Es. destruct (String.eqb_spec dir "") as [->|Hne]; cbn [negb].
  2: { eexists. split; [done|]. intros src [= <-]. by exists s. }
  set (ceil := if negb (String.eqb sourceRoot "") then _ else _). assert (Hceil : ∃ c, ceil = Some (abs c) ∧ Forall name_ok c).
  { unfold ceil. destruct (String.eqb sourceRoot ""); cbn [negb]; [|destruct (Abs_abs cwd sourceRoot Hc) as (c & Hcn & ->); eauto]. destruct noRepoRoot; [eauto|].
    destruct (repoRoot_spec fs s (depth (abs s)) Hs (depth_abs s Hs)) as [(r & (b & -> & _) & ->)|[_ ->]]; [|eauto]. apply Forall_app in Hs as [Hr _]. change (String.eqb (abs r) "") with false. eauto. }
  destruct Hceil as (c & -> & Hcn). destruct (outside (Rel (abs c) (abs s))) eqn:Eo; [by eexists|]. destruct (Rel_abs c s Hcn Hs Eo) as (b & -> & _). cbv zeta.
  set (recipe := if String.eqb buildFile "" then _ else _). pose proof (depth_abs (c ++ b) Hs) as Hdep. rewrite length_app in Hdep.
  destruct (search_up_spec fs recipe c b (depth (abs (c ++ b))) Hs ltac:(lia)) as [(b1 & b2 & -> & H1 & _ & ->)|[_ ->]]; [|by eexists].
  eexists. split; [done|]. intros src [= <-]. exists (c ++ b1). split_and!; [|done|done]. rewrite (assoc_L (++)) in Hs. by apply Forall_app in Hs as [? _].
Qed.

(** Every command resolves its source, ends, and names the same directory:
    the build directory inside the ingested root is the given (or inferred)
    source with [--dir] below it, whatever root was chosen; and an inferred
    source holds the recipe. *)
Theorem context_resolved fs cwd source dir sourceRoot buildFile noRepoRoot :
  is_rooted cwd = true → sub_dir dir →
  ∃ res, resolveSource fs cwd source dir sourceRoot buildFile noRepoRoot = Some res ∧
    ∀ root out, res = Ok (root, out) → ∃ s, Forall name_ok s ∧ same_place s dir root out ∧
      (if String.eqb source "" then dir = "" → exists_at (os_Stat fs (psegs (path_Join (abs s) (if String.eqb buildFile "" then defaultBuildFile else buildFile)))) = true
       else abs s = Abs cwd source).
Proof.
  intros Hc Hd. unfold resolveSource. destruct (String.eqb source "") eqn:Esrc.
  - destruct (default_source_ok fs cwd dir sourceRoot buildFile noRepoRoot Hc) as ([src|e] & -> & Hsrc); [|by eexists]. destruct (Hsrc src eq_refl) as (s0 & Hs0 & -> & Hrec).
    destruct (resolve_root_ok fs cwd (abs s0) dir sourceRoot noRepoRoot Hc Hd) as (s & res & Hs & Es & -> & Hok & _). exists res. split; [done|]. intros root out H. exists s.
    unfold Abs in Es. rewrite abs_rooted, Clean_abs in Es by done. destruct (Hok _ _ H) as [Hsame _]. split_and!; [done..|]. by rewrite <- Es.
  - destruct (resolve_root_ok fs cwd source dir sourceRoot noRepoRoot Hc Hd) as (s & res & Hs & Es & -> & Hok & _). exists res. split; [done|]. intros root out H. exists s.
    destruct (Hok _ _ H) as [Hsame _]. by split_and!.
Qed.

(** ** Witness *)

Definition checkout : disk := {[ [] := NDir; ["home"] := NDir; ["home"; "r"] := NDir; ["home"; "r"; ".git"] := NFile 420 "gitdir: x"; ["home"; "r"; "app"] := NDir;
  ["home"; "r"; "app"; "BUILD.jobs"] := NFile 420 ""; ["home"; "r"; "app"; "src"] := NDir ]}.

Lemma context_resolved_witness :
  ∃ s, Forall name_ok s ∧ same_place s "" "/home/r" "app" ∧ exists_at (os_Stat checkout (psegs (path_Join (abs s) "BUILD.jobs"))) = true.
Proof.
  destruct (context_resolved checkout "/home/r/app/src" "" "" "" "" false eq_refl (or_introl eq_refl)) as (res & E & H).
  assert (Er : res = Ok ("/home/r", "app")) by (vm_compute in E; congruence). destruct (H _ _ Er) as (s & Hs & Hp & Hr). exists s. split; [exact Hs|]. split; [exact Hp|]. exact (Hr eq_refl).
Defined.
