(* ===== verification/Sandbox.v ===== *)
(** * The sandbox (src/sandbox, src/runner/buildexec_linux.go, importexec_linux.go)

    How a build or a fetch is confined: the parent lays out a root on the host
    and starts a copy of itself in new namespaces; the child mounts what the
    configuration lists below the new root, moves into it and executes the
    command. The kernel is a parameter ([Host]): it answers every call, and may
    answer from all the calls before. What the code does is then the list of
    its calls ([K]). *)
From S2P Require Import Prelude GoLib Keys Wire Builddef Store LogBuf Stages DiskFs.
From Stdlib Require Import Ascii.
Local Open Scope string_scope.
Local Open Scope list_scope.

(** ** Calls *)

Inductive errno := EINTR | ETXTBSY | EEXIST | ENOENT | EOPNOTSUPP | EINVAL | EBUSY | EPERM | EIO.

(** What the parent asks of clone: flags, whether the child is born in the
    cgroup, its environment string, its command's terminal. *)
Record child := mkChild { ch_flags : Z; ch_userMaps : bool; ch_cgroup : option string; ch_env : list string; ch_tty : bool }.

Inductive call :=
| CMount (source target fstype : string) (flags : Z) | CStatfs (p : string) | CStat (p : string)
| CMkdirAll (p : string) | CMkdir (p : string) | CCreate (p : string) | CSymlink (target p : string)
| CChdir (p : string) | CPivotRoot | CDetach
| CExec (argv env : list string) | CSleep (ms : Z)
| CReadFile (p : string) | CWriteFile (p data : string) | CAccess (p : string) | CReadDir (p : string)
| CCreateTemp (pattern : string) | CMkdirTemp (dir pattern : string) | CRename (p q : string) | CRemove (p : string) | CRemoveAll (p : string)
| COpenDir (p : string) | CCloseDir (p : string) | CStart (c : child) | CWait
| CMaterialize (tree dest : string) | COwnerWritable (dest : string) | CTar (tree dir : string) | CExtract (dest : string)
| COutput (argv : list string).

(** The answers, from the calls before: why a call fails ([None]: it does not),
    the string, number or names it returns. The rest of the host a process can
    see does not change under it: its environment, process id, the clock it reads. *)
Class Host := {
  h_fails : list call → call → option errno;
  h_str : list call → call → string;
  h_num : list call → call → Z;
  h_names : list call → call → list string;
  h_env : gmap string string;
  h_Getpid : Z;
  h_UnixNano : Z;
}.

Definition K (A : Type) : Type := list call → list call * result string A.

Global Instance K_ret : MRet K := λ A a t, (t, Ok a).
Global Instance K_bind : MBind K := λ A B k m t, match m t with (t', Ok a) => k a t' | (t', Err e) => (t', Err e) end.

Definition failK {A} (e : string) : K A := λ t, (t, Err e).

Fixpoint each {A} (f : A → K unit) (l : list A) : K unit :=
  match l with [] => mret tt | x :: l => f x;; each f l end.

(** A deferred call: it runs however [m] ends. *)
Definition finally {A} (m : K A) (c : K unit) : K A := λ t, let r := m t in ((c r.1).1, r.2).

Definition recover {A} (m : K A) : K (result string A) := λ t, let r := m t in (r.1, Ok r.2).

Section Calls.
Context {H : Host}.

Definition attempt (c : call) : K (option errno) := λ t, (t ++ [c], Ok (h_fails t c)).

Definition must (what : string) (c : call) : K unit := λ t,
  (t ++ [c], match h_fails t c with None => Ok tt | Some _ => Err what end).

Definition ask_str (what : string) (c : call) : K string := λ t,
  (t ++ [c], match h_fails t c with None => Ok (h_str t c) | Some _ => Err what end).

Definition ask_num (what : string) (c : call) : K Z := λ t,
  (t ++ [c], match h_fails t c with None => Ok (h_num t c) | Some _ => Err what end).

Definition ask_names (what : string) (c : call) : K (list string) := λ t,
  (t ++ [c], match h_fails t c with None => Ok (h_names t c) | Some _ => Err what end).

(** [os.ReadFile] where a failure is an answer. *)
Definition try_read (p : string) : K (option string) := λ t,
  (t ++ [CReadFile p], Ok (match h_fails t (CReadFile p) with None => Some (h_str t (CReadFile p)) | Some _ => None end)).

Definition exists_at (p : string) : K bool := e ← attempt (CStat p); mret (bool_decide (e = None)).

End Calls.

(** ** Flags of mount(2), statfs(2) and clone(2) *)

Definition MS_RDONLY : Z := 1.
Definition MS_NOSUID : Z := 2.
Definition MS_NODEV : Z := 4.
Definition MS_NOEXEC : Z := 8.
Definition MS_REMOUNT : Z := 32.
Definition MS_NOATIME : Z := 1024.
Definition MS_NODIRATIME : Z := 2048.
Definition MS_BIND : Z := 4096.
Definition MS_REC : Z := 16384.
Definition MS_PRIVATE : Z := 262144.
Definition MS_RELATIME : Z := 2097152.
Definition MS_STRICTATIME : Z := 16777216.
Definition ST_RDONLY : Z := 1.
Definition ST_NOSUID : Z := 2.
Definition ST_NODEV : Z := 4.
Definition ST_NOEXEC : Z := 8.
Definition ST_NOATIME : Z := 1024.
Definition ST_NODIRATIME : Z := 2048.
Definition ST_RELATIME : Z := 4096.
Definition CLONE_NEWNS : Z := 131072.
Definition CLONE_NEWUTS : Z := 67108864.
Definition CLONE_NEWIPC : Z := 134217728.
Definition CLONE_NEWUSER : Z := 268435456.
Definition CLONE_NEWPID : Z := 536870912.
Definition CLONE_NEWNET : Z := 1073741824.

Local Infix "||" := Z.lor : Z_scope.

(** ** The configuration *)

Record Mount := mkMnt { m_Source : string; m_Target : string; m_FSType : string; m_ReadOnly : bool; m_Strictatime : bool; m_Flags : Z }.

Definition bind_ro (source target : string) : Mount := mkMnt source target "" true false 0.
Definition bind_rw (source target : string) : Mount := mkMnt source target "" false false 0.

Record Namespaces := mkNS { ns_User : bool; ns_Mount : bool; ns_PID : bool; ns_Net : bool; ns_UTS : bool; ns_IPC : bool }.

(** What the child receives; the cgroup and the terminal stay with the parent. *)
Record Config := mkCfg {
  cf_Command : list string; cf_Env : list string; cf_Dir : string; cf_NewRoot : string; cf_Mounts : list Mount; cf_Namespaces : Namespaces;
  cf_Cgroup : option string; cf_Tty : bool }.

Definition cloneflags (ns : Namespaces) : Z :=
  let f := 0%Z in
  let f := if ns_User ns then (f || CLONE_NEWUSER)%Z else f in
  let f := if ns_Mount ns then (f || CLONE_NEWNS)%Z else f in
  let f := if ns_PID ns then (f || CLONE_NEWPID)%Z else f in
  let f := if ns_Net ns then (f || CLONE_NEWNET)%Z else f in
  let f := if ns_UTS ns then (f || CLONE_NEWUTS)%Z else f in
  if ns_IPC ns then (f || CLONE_NEWIPC)%Z else f.

(** ** The child: mounts, the new root, the command *)

Definition flag_table : list (Z * Z) :=
  [(ST_RDONLY, MS_RDONLY); (ST_NOSUID, MS_NOSUID); (ST_NODEV, MS_NODEV); (ST_NOEXEC, MS_NOEXEC);
   (ST_NOATIME, MS_NOATIME); (ST_NODIRATIME, MS_NODIRATIME); (ST_RELATIME, MS_RELATIME)].

Definition translate_flags (st : Z) : Z :=
  let fl := foldl (λ fl (f : Z * Z), if (Z.land st f.1 =? 0)%Z then fl else (fl || f.2)%Z) 0%Z flag_table in
  if (Z.land fl (MS_NOATIME || MS_RELATIME) =? 0)%Z then (fl || MS_STRICTATIME)%Z else fl.

Definition atimeMask : Z := (MS_NOATIME || MS_NODIRATIME || MS_RELATIME || MS_STRICTATIME)%Z.

(** The remount of a bind: what is asked for, and all the mount has. *)
Definition ro_flags (m : Mount) (inherited : Z) : Z := (MS_REMOUNT || MS_BIND || MS_RDONLY || MS_REC || m_Flags m || inherited)%Z.

Definition strict_flags (m : Mount) (inherited : Z) : Z :=
  let flags := (MS_REMOUNT || MS_BIND || MS_REC || MS_STRICTATIME || m_Flags m || Z.ldiff inherited atimeMask)%Z in
  if m_ReadOnly m then (flags || MS_RDONLY)%Z else flags.

Section Child.
Context {H : Host}.

Definition inheritedMountFlags (target : string) : K Z :=
  st ← ask_num ("statfs " +:+ target) (CStatfs target);
  mret (translate_flags st).

(** A directory is stat'ed as 1. *)
Definition bind_target (source target : string) : K unit :=
  dir ← ask_num ("stat bind source " +:+ source) (CStat source);
  if (dir =? 1)%Z then must ("mkdir mount target " +:+ target) (CMkdirAll target)
  else must ("mkdir mount target parent " +:+ path_Dir target) (CMkdirAll (path_Dir target));;
       must ("create mount target " +:+ target) (CCreate target).

Definition remount (target : string) (m : Mount) : K unit :=
  inherited ← inheritedMountFlags target;
  (if m_ReadOnly m then must ("remount-ro " +:+ target) (CMount "" target "" (ro_flags m inherited)) else mret tt);;
  (if m_Strictatime m then attempt (CMount "" target "" (strict_flags m inherited));; mret tt else mret tt).

Definition applyMount (newRoot : string) (m : Mount) : K unit :=
  let target := path_Join newRoot (m_Target m) in
  if String.eqb (m_FSType m) "" then
    bind_target (m_Source m) target;;
    must ("bind " +:+ m_Source m +:+ "->" +:+ target) (CMount (m_Source m) target "" (MS_BIND || MS_REC || m_Flags m)%Z);;
    (if m_ReadOnly m || m_Strictatime m then remount target m else mret tt)
  else
    must ("mkdir mount target " +:+ target) (CMkdirAll target);;
    let flags := if m_ReadOnly m then (m_Flags m || MS_RDONLY)%Z else m_Flags m in
    must ("mount " +:+ m_FSType m +:+ " " +:+ target) (CMount (m_Source m) target (m_FSType m) flags).

Definition pivot (newRoot : string) : K unit :=
  must ("chdir new root " +:+ newRoot) (CChdir newRoot);;
  must "pivot_root" CPivotRoot;;
  must "detach oldroot" CDetach;;
  must "chdir /" (CChdir "/").

Definition mount_proc (cfg : Config) : K unit :=
  let procTarget := if String.eqb (cf_NewRoot cfg) "" then "/proc" else path_Join (cf_NewRoot cfg) "proc" in
  must ("mkdir " +:+ procTarget) (CMkdirAll procTarget);;
  must ("mount " +:+ procTarget) (CMount "proc" procTarget "proc" (MS_NOSUID || MS_NODEV || MS_NOEXEC)%Z).

Definition childSetup (cfg : Config) : K unit :=
  (if ns_Mount (cf_Namespaces cfg) then must "make-rprivate /" (CMount "" "/" "" (MS_REC || MS_PRIVATE)%Z) else mret tt);;
  (if String.eqb (cf_NewRoot cfg) "" then mret tt
   else must "bind new root" (CMount (cf_NewRoot cfg) (cf_NewRoot cfg) "" (MS_BIND || MS_REC)%Z));;
  each (applyMount (cf_NewRoot cfg)) (cf_Mounts cfg);;
  (if ns_PID (cf_Namespaces cfg) then mount_proc cfg else mret tt);;
  (if String.eqb (cf_NewRoot cfg) "" then mret tt else pivot (cf_NewRoot cfg));;
  (if String.eqb (cf_Dir cfg) "" then mret tt else must ("chdir " +:+ cf_Dir cfg) (CChdir (cf_Dir cfg))).

(** How the child ends: it executes the command or exits with a code. *)
Inductive fate := Executed | Exit (code : Z) | NotAChild.

(** The loop of [Init] around execve: an interrupted call is repeated, a busy
    text file ten times with a growing delay. [None]: out of fuel. *)
Fixpoint exec_loop (fuel : nat) (retries : nat) (delay : Z) (cfg : Config) : K (option fate) :=
  match fuel with
  | O => mret None
  | S fuel =>
      e ← attempt (CExec (cf_Command cfg) (cf_Env cfg));
      match e with
      | None => mret (Some Executed)
      | Some EINTR => exec_loop fuel retries delay cfg
      | Some ETXTBSY =>
          match retries with
          | S retries => attempt (CSleep delay);; exec_loop fuel retries (if (delay <? 200)%Z then delay * 2 else delay)%Z cfg
          | O => mret (Some (Exit 127))
          end
      | Some _ => mret (Some (Exit 127))
      end
  end.

(** [Init] of a process whose environment has [v]; [unmarshal] is
    [json.Unmarshal] into a [Config]. *)
Definition load_config (unmarshal : string → option Config) (v : string) : K (option Config) :=
  match v with
  | String "@" path =>
      b ← try_read path;
      mret (match b with Some s => unmarshal s | None => None end)
  | _ => mret (unmarshal v)
  end.

Definition Init (unmarshal : string → option Config) (fuel : nat) (v : string) : K (option fate) :=
  if String.eqb v "" then mret (Some NotAChild)
  else if String.eqb v "probe" then mret (Some (Exit 0))
  else
    c ← load_config unmarshal v;
    match c with
    | None => mret (Some (Exit 127))
    | Some cfg =>
        r ← recover (childSetup cfg);
        match r with
        | Err _ => mret (Some (Exit 126))
        | Ok _ => if bool_decide (cf_Command cfg = []) then mret (Some (Exit 127)) else exec_loop fuel 10 5 cfg
        end
    end.

End Child.

(** ** Control groups (src/sandbox/cgroup_linux.go) *)

(** [strings.Fields] and [filepath.Base]. *)
Definition flush (cur : string) (rest : list string) : list string := if String.eqb cur "" then rest else str_rev cur :: rest.

Fixpoint fields_from (fuel : nat) (s cur : string) : list string :=
  match fuel, s with
  | S fuel, String a r =>
      match cut_any s space_encodings with
      | Some r' => flush cur (fields_from fuel r' "")
      | None => fields_from fuel r (String a cur)
      end
  | _, _ => flush cur []
  end.

Definition Fields (s : string) : list string := fields_from (String.length s) s "".

Definition path_Base (p : string) : string :=
  if String.eqb p "" then "."
  else match last (psegs p) with Some s => s | None => "/" end.

Record CgroupLimits := mkLim { cl_MemoryMaxBytes : Z; cl_MemoryHighBytes : Z; cl_PIDsMax : Z; cl_CPUQuotaUS : Z; cl_CPUPeriodUS : Z }.

Record CgroupStats := mkStats { st_CPUUsec : Z; st_MemoryBytes : Z; st_MemoryPeakBytes : Z }.

Definition cgroupLeafHolderName : string := "jobs-leaf-holder".

Definition unified (data : string) : string := default "" (head (omap (λ line, CutPrefix line "0::") (Split (TrimSpace data) (byte 10)))).

Definition delegatedDirFromRel (rel : string) : string :=
  let dir := path_Join "/sys/fs/cgroup" rel in
  if String.eqb (path_Base dir) cgroupLeafHolderName then path_Dir dir else dir.

Section Cgroup.
Context {H : Host}.

Definition selfCgroupRel : K string :=
  data ← try_read "/proc/self/cgroup";
  mret (match data with Some d => unified d | None => "" end).

Definition canManageCgroup (dir : string) : K bool :=
  e ← attempt (CAccess (path_Join dir "cgroup.subtree_control"));
  mret (bool_decide (e = None)).

Definition leafHolderMove (dir : string) (pid : Z) : K unit :=
  let holder := path_Join dir cgroupLeafHolderName in
  made ← attempt (CMkdir holder);
  match made with
  | Some EEXIST | None =>
      e ← attempt (CWriteFile (path_Join holder "cgroup.procs") (itoa pid));
      match e with
      | None => mret tt
      | Some _ =>
          (if bool_decide (made = None) then attempt (CRemove holder);; mret tt else mret tt);;
          failK ("move pid " +:+ itoa pid +:+ " into " +:+ holder)
      end
  | Some _ => failK ("mkdir cgroup " +:+ holder)
  end.

Definition enable_memory (dir : string) : K bool :=
  ctrls ← try_read (path_Join dir "cgroup.controllers");
  if bool_decide ("memory" ∈ Fields (default "" ctrls)) then
    must ("enable memory distribution in " +:+ dir) (CWriteFile (path_Join dir "cgroup.subtree_control") "+memory");;
    mret true
  else failK ("memory controller not available in " +:+ dir).

Definition EnsureCgroupLeafHolder : K bool :=
  rel ← selfCgroupRel;
  if String.eqb rel "" then mret false
  else
    let dir := delegatedDirFromRel rel in
    manage ← canManageCgroup dir;
    if negb manage then mret false
    else
      typ ← try_read (path_Join dir "cgroup.type");
      if match typ with Some t => negb (String.eqb (TrimSpace t) "domain") | None => false end then mret false
      else
        (if String.eqb (path_Base rel) cgroupLeafHolderName then mret tt else leafHolderMove dir h_Getpid);;
        enable_memory dir.

Definition DetectCgroupDelegation : K (option (string * list string)) :=
  rel ← selfCgroupRel;
  if String.eqb rel "" then mret None
  else
    let dir := delegatedDirFromRel rel in
    manage ← canManageCgroup dir;
    if negb manage then mret None
    else
      ctrls ← try_read (path_Join dir "cgroup.controllers");
      mret (Some (dir, Fields (default "" ctrls))).

Definition have (controllers : list string) (c : string) : bool := bool_decide (c ∈ controllers).

Definition enabled (controllers : list string) (lim : CgroupLimits) : list string :=
  (if ((0 <? cl_MemoryMaxBytes lim)%Z || (0 <? cl_MemoryHighBytes lim)%Z) && have controllers "memory" then ["+memory"] else []) ++
  (if (0 <? cl_PIDsMax lim)%Z && have controllers "pids" then ["+pids"] else []) ++
  (if (0 <? cl_CPUQuotaUS lim)%Z && have controllers "cpu" then ["+cpu"] else []).

(** The limits as the files of the group they are written to. *)
Definition limit_files (controllers : list string) (lim : CgroupLimits) : list (string * string) :=
  (if (0 <? cl_MemoryMaxBytes lim)%Z && have controllers "memory" then [("memory.max", itoa (cl_MemoryMaxBytes lim))] else []) ++
  (if (0 <? cl_MemoryHighBytes lim)%Z && have controllers "memory" then [("memory.high", itoa (cl_MemoryHighBytes lim))] else []) ++
  (if (0 <? cl_PIDsMax lim)%Z && have controllers "pids" then [("pids.max", itoa (cl_PIDsMax lim))] else []) ++
  (if (0 <? cl_CPUQuotaUS lim)%Z && have controllers "cpu"
   then [("cpu.max", itoa (cl_CPUQuotaUS lim) +:+ " " +:+ itoa (if (cl_CPUPeriodUS lim <=? 0)%Z then 100000 else cl_CPUPeriodUS lim))] else []).

Definition cg_write (dir : string) (fv : string * string) : K unit := attempt (CWriteFile (path_Join dir fv.1) fv.2);; mret tt.

(** A [Cgroup] is its directory; [None] is the nil group. *)
Definition CreateCgroup (name : string) (lim : CgroupLimits) : K (option string) :=
  d ← DetectCgroupDelegation;
  match d with
  | None => mret None
  | Some (parent, controllers) =>
      (if bool_decide (enabled controllers lim = []) then mret tt
       else attempt (CWriteFile (path_Join parent "cgroup.subtree_control") (Join (enabled controllers lim) " "));; mret tt);;
      let dir := path_Join parent name in
      e ← attempt (CMkdir dir);
      match e with
      | None | Some EEXIST => each (cg_write dir) (limit_files controllers lim);; mret (Some dir)
      | Some _ => failK ("mkdir cgroup " +:+ dir)
      end
  end.

Definition cg_FD (c : option string) : K (option string) :=
  match c with
  | None => mret None
  | Some dir => e ← attempt (COpenDir dir); mret (if bool_decide (e = None) then Some dir else None)
  end.

Definition cg_Add (c : option string) (pid : Z) : K unit :=
  match c with None => mret tt | Some dir => must "add to cgroup" (CWriteFile (path_Join dir "cgroup.procs") (itoa pid)) end.

Definition cg_Close (c : option string) : K unit :=
  match c with None => mret tt | Some dir => must "remove cgroup" (CRemove dir) end.

Definition num_file (p : string) : K Z :=
  b ← try_read p;
  mret (default (-1)%Z (s ← b; ParseInt (TrimSpace s))).

Definition usage_usec (data : string) : Z :=
  match head (omap (λ line, CutPrefix line "usage_usec ") (Split data (byte 10))) with
  | Some rest => default (-1)%Z (ParseInt (TrimSpace rest))
  | None => (-1)%Z
  end.

Definition readCgroupStats (dir : string) : K CgroupStats :=
  b ← try_read (path_Join dir "cpu.stat");
  cur ← num_file (path_Join dir "memory.current");
  peak ← num_file (path_Join dir "memory.peak");
  mret (mkStats (match b with Some d => usage_usec d | None => (-1)%Z end) cur peak).

End Cgroup.

(** ** The parent: starting the child (src/sandbox/sandbox_linux.go) *)

Definition childEnv : string := "_JOBS_SANDBOX_CHILD".
Definition maxInlineConfig : Z := 65536.

Definition isCgroupCloneUnsupported (e : errno) : bool := match e with EOPNOTSUPP | EINVAL | EBUSY | EPERM => true | _ => false end.

Definition env_line (k v : string) : string := k +:+ "=" +:+ v.

Section Parent.
Context {H : Host}.
Context (marshal : Config → option string).

Definition Environ : list string := (λ kv : string * string, env_line kv.1 kv.2) <$> map_to_list h_env.

Definition child_cmd (cfg : Config) (payload : string) (fd : option string) : child :=
  mkChild (cloneflags (cf_Namespaces cfg)) (ns_User (cf_Namespaces cfg)) fd (Environ ++ [env_line childEnv payload]) (cf_Tty cfg).

(** [cmd.Wait]: the exit code; the process's own words are its standard error. *)
Definition wait_child : K (Z * string) := λ t,
  (t ++ [CWait], match h_fails t CWait with None => Ok (h_num t CWait, h_str t CWait) | Some _ => Err "wait" end).

Definition start_child (cfg : Config) (payload : string) : K unit :=
  fd ← cg_FD (cf_Cgroup cfg);
  e ← attempt (CStart (child_cmd cfg payload fd));
  (match fd with Some dir => attempt (CCloseDir dir);; mret tt | None => mret tt end);;
  match e with
  | None => mret tt
  | Some err =>
      again ← cg_FD (cf_Cgroup cfg);
      match again with
      | Some _ =>
          if isCgroupCloneUnsupported err then
            pid ← ask_num "start sandbox child (no cgroup fd)" (CStart (child_cmd cfg payload None));
            recover (cg_Add (cf_Cgroup cfg) pid);;
            mret tt
          else failK "start sandbox child"
      | None => failK "start sandbox child"
      end
  end.

Definition start_and_wait (cfg : Config) (payload : string) : K (Z * string) := start_child cfg payload;; wait_child.

Definition Run (cfg : Config) : K (Z * string) :=
  match marshal cfg with
  | None => failK "marshal sandbox config"
  | Some payload =>
      if (maxInlineConfig <? Z.of_nat (String.length payload))%Z then
        name ← ask_str "spill sandbox config" (CCreateTemp "jobs-sandbox-cfg-*.json");
        finally (must "spill sandbox config" (CWriteFile name payload);; start_and_wait cfg ("@" +:+ name)) (attempt (CRemove name);; mret tt)
      else start_and_wait cfg payload
  end.

Definition UserNSAvailable : K bool :=
  e ← attempt (CStart (mkChild CLONE_NEWUSER true None (Environ ++ [env_line childEnv "probe"]) false));
  match e with
  | Some _ => mret false
  | None => r ← recover wait_child; mret (match r with Ok (code, _) => (code =? 0)%Z | Err _ => false end)
  end.

End Parent.

(** ** Laying out the root (src/runner/buildexec.go, buildexec_linux.go,
    importexec_linux.go, hermeticetc.go, storemount.go) *)

Definition sandboxStoreDir : string := "/jobs/store".
Definition sandboxSrcDir : string := "/build/src".
Definition sandboxOutDir : string := "/build/out".
Definition sandboxHomeDir : string := "/build".
Definition sandboxJobsDepsFile : string := "/build/.jobs-deps.json".
Definition sandboxScriptFile : string := "/build/.jobs-script.sh".
Definition maxInlineJobsDeps : Z := 65536.

Definition importFetcherDir : string := "/jobs/fetcher".
Definition importOutDir : string := "/jobs/out".
Definition importSecretsFile : string := "/jobs/secrets.json".
Definition importTmpDir : string := "/tmp".
Definition importHomeDir : string := "/tmp".

Definition importPassEnv : list string :=
  ["HTTP_PROXY"; "HTTPS_PROXY"; "NO_PROXY"; "ALL_PROXY"; "http_proxy"; "https_proxy"; "no_proxy"; "all_proxy"; "SSL_CERT_FILE"; "SSL_CERT_DIR"].

Definition hostCABundles : list string :=
  ["/etc/ssl/certs/ca-certificates.crt"; "/etc/pki/tls/certs/ca-bundle.crt"; "/etc/ssl/cert.pem"; "/etc/ssl/certs/ca-bundle.crt"].

Definition devices : list string := ["null"; "zero"; "full"; "random"; "urandom"].
Definition dev_links : list (string * string) :=
  [("fd", "/proc/self/fd"); ("stdin", "/proc/self/fd/0"); ("stdout", "/proc/self/fd/1"); ("stderr", "/proc/self/fd/2")].

Definition nl : string := String (byte 10) "".
Definition localhost : string := "127.0.0.1 localhost" +:+ nl +:+ "::1 localhost" +:+ nl.

Fixpoint has_sub (s sub : string) : bool := HasPrefix s sub || match s with "" => false | String _ s => has_sub s sub end.

(** The last four KiB of what was written to an error stream. *)
Definition tail_of (written : string) : string :=
  String.string_of_list_ascii (tb_buf (tailbuf_Write (tailbuf_New 4096) (String.list_ascii_of_string written)).1).

Section Layout.
Context {H : Host}.

Fixpoint dev_nodes (l : list string) : K (list Mount) :=
  match l with
  | [] => mret []
  | dev :: l =>
      there ← exists_at ("/dev/" +:+ dev);
      rest ← dev_nodes l;
      mret (if there : bool then bind_rw ("/dev/" +:+ dev) ("/dev/" +:+ dev) :: rest else rest)
  end.

Definition dev_link (devDir : string) (lt : string * string) : K unit :=
  e ← attempt (CSymlink lt.2 (path_Join devDir lt.1));
  match e with None | Some EEXIST => mret tt | Some _ => failK ("symlink /dev/" +:+ lt.1) end.

Definition hermeticDevMounts (newRoot : string) : K (list Mount) :=
  let devDir := path_Join newRoot "dev" in
  must "mkdir /dev" (CMkdirAll devDir);;
  each (dev_link devDir) dev_links;;
  dev_nodes devices.

Definition writeHermeticEtc (newRoot : string) : K unit :=
  let etc := path_Join newRoot "etc" in
  must "mkdir sandbox /etc" (CMkdirAll etc);;
  must "write sandbox /etc/hosts" (CWriteFile (path_Join etc "hosts") localhost);;
  must "write sandbox /etc/resolv.conf" (CWriteFile (path_Join etc "resolv.conf") "").

(** A regular file is stat'ed as 0. *)
Definition is_regular (p : string) : K bool := λ t,
  (t ++ [CStat p], Ok (bool_decide (h_fails t (CStat p) = None) && (h_num t (CStat p) =? 0)%Z)).

Fixpoint first_regular (l : list string) : K string :=
  match l with [] => mret "" | f :: l => ok ← is_regular f; if ok : bool then mret f else first_regular l end.

Definition hostCABundle : K string :=
  match h_env !! "SSL_CERT_FILE" with
  | Some f => if String.eqb f "" then first_regular hostCABundles
              else ok ← is_regular f; if ok : bool then mret f else first_regular hostCABundles
  | None => first_regular hostCABundles
  end.

Definition copy_etc (etc name : string) : K unit :=
  b ← try_read ("/etc/" +:+ name);
  match b with
  | None => mret tt
  | Some b =>
      let b := if String.eqb name "hosts" && negb (has_sub b "localhost") then localhost +:+ b else b in
      must ("write sandbox /etc/" +:+ name) (CWriteFile (path_Join etc name) b)
  end.

Definition writeImportEtc (newRoot : string) : K string :=
  writeHermeticEtc newRoot;;
  let etc := path_Join newRoot "etc" in
  each (copy_etc etc) ["resolv.conf"; "hosts"; "nsswitch.conf"];;
  must "write sandbox /etc/passwd" (CWriteFile (path_Join etc "passwd")
    ("root:x:0:0:root:" +:+ importHomeDir +:+ ":/bin/sh" +:+ nl +:+ "nobody:x:65534:65534:nobody:/:/bin/sh" +:+ nl));;
  must "write sandbox /etc/group" (CWriteFile (path_Join etc "group") ("root:x:0:" +:+ nl +:+ "nobody:x:65534:" +:+ nl));;
  hostCABundle.

End Layout.

(** What an import's sandbox is made from. *)
Section Executors.
Context {KL : KeyLib} {H : Host}.
Context (marshal : Config → option string) (json_deps : gmap string string → string).

Record ExecSpec := mkES {
  es_FetcherDir : string; es_OutputDir : string; es_Env : gmap string string; es_SecretsFile : string;
  es_ShellKey : option Key; es_ClosureKey : option Key; es_CacheDir : string }.

Definition storeShellDir (shellBOK : Key) : string := sandboxStoreDir +:+ "/" +:+ key_String shellBOK.

Definition pass_host (m : gmap string string) (name : string) : gmap string string :=
  match h_env !! name with Some v => if String.eqb v "" then m else <[name := v]> m | None => m end.

Definition import_vars (spec : ExecSpec) (shellStore caFile : string) : gmap string string :=
  let m : gmap string string := <["TMPDIR" := importTmpDir]> (<["HOME" := importHomeDir]> {["PATH" := shellStore +:+ "/bin:/usr/bin:/bin"]}) in
  let m := foldl pass_host m importPassEnv in
  let m := es_Env spec ∪ m in
  let m := if bool_decide (is_Some (es_Env spec !! "JOBS_OUTPUT_DIR")) then <["JOBS_OUTPUT_DIR" := importOutDir]> m else m in
  let m := if String.eqb (es_SecretsFile spec) "" then m else <["JOBS_SECRETS_FILE" := importSecretsFile]> m in
  if String.eqb caFile "" then m else delete "SSL_CERT_DIR" (<["SSL_CERT_FILE" := caFile]> m).

Definition env_lines (m : gmap string string) : list string := (λ kv : string * string, env_line kv.1 kv.2) <$> map_to_list m.

Definition importEnv (spec : ExecSpec) (shellStore caFile : string) : list string := SortStrings (env_lines (import_vars spec shellStore caFile)).

(** The binds of an import, before its devices and its certificates. *)
Definition import_binds (spec : ExecSpec) (shellKey : Key) (shellDir binDir storeDir scratch : string) : list Mount :=
  (if String.eqb storeDir "" then [] else [bind_ro storeDir sandboxStoreDir]) ++
  [bind_ro shellDir (storeShellDir shellKey); bind_ro binDir "/bin"; bind_ro binDir "/usr/bin"; bind_ro (es_FetcherDir spec) importFetcherDir;
   bind_rw (es_OutputDir spec) importOutDir; bind_rw scratch importTmpDir] ++
  (if String.eqb (es_SecretsFile spec) "" then [] else [bind_ro (es_SecretsFile spec) importSecretsFile]).

Definition ca_bind (caFile : string) : list Mount := if String.eqb caFile "" then [] else [bind_ro caFile caFile].

Definition importMountPlan (newRoot shellDir binDir storeDir scratch : string) (shellKey : Key) (spec : ExecSpec) : K (list Mount * list string) :=
  (if String.eqb storeDir "" then mret tt
   else must "mkdir shell mountpoint in closure" (CMkdirAll (path_Join storeDir (key_String shellKey))));;
  devs ← hermeticDevMounts newRoot;
  caFile ← writeImportEtc newRoot;
  mret (import_binds spec shellKey shellDir binDir storeDir scratch ++ devs ++ ca_bind caFile,
        importEnv spec (storeShellDir shellKey) caFile).

Definition materializeStore (k : Key) (dest : string) : K unit :=
  must ("mkdir store dir " +:+ dest) (CMkdirAll dest);;
  must ("materialize store " +:+ key_String k) (CMaterialize (key_String k) dest);;
  must ("materialize store " +:+ key_String k) (COwnerWritable dest).

(** [os.TempDir]. *)
Definition TempDir : string := match h_env !! "TMPDIR" with Some d => if String.eqb d "" then "/tmp" else d | None => "/tmp" end.

(** A directory built aside and renamed into place; the loser of a race uses
    the winner's. *)
Definition publish (what tmp dst : string) : K string :=
  e ← attempt (CRename tmp dst);
  match e with
  | None => mret dst
  | Some _ =>
      attempt (CRemoveAll tmp);;
      there ← exists_at dst;
      if there : bool then mret dst else failK what
  end.

(** What fails while [tmp] is filled takes it away again. *)
Definition or_discard (tmp : string) (m : K unit) : K unit :=
  r ← recover m;
  match r with Ok _ => mret tt | Err e => attempt (CRemoveAll tmp);; failK e end.

Definition staged (cacheDir name pattern what : string) (fill : string → K unit) : K string :=
  let trees := path_Join (if String.eqb cacheDir "" then TempDir else cacheDir) "trees" in
  must "mkdir trees" (CMkdirAll trees);;
  let dst := path_Join trees name in
  there ← exists_at dst;
  if there : bool then mret dst
  else
    tmp ← ask_str "create staging dir" (CMkdirTemp trees pattern);
    or_discard tmp (fill tmp);;
    publish what tmp dst.

Definition stagedTree (cacheDir : string) (k : Key) : K string :=
  staged cacheDir (key_String k) "staging-" ("stage tree " +:+ key_String k) (materializeStore k).

Definition busyboxApplets (path : string) : K (list string) :=
  there ← exists_at path;
  if negb there then mret []
  else
    out ← recover (ask_str "busybox" (COutput [path; "--list"]));
    mret (match out with Ok s => filter (λ a, a ≠ "") (TrimSpace <$> Split s (byte 10)) | Err _ => [] end).

(** The names of [a] that are new, in order. *)
Fixpoint fresh_names (seen : gset string) (l : list string) : list string :=
  match l with
  | [] => []
  | a :: l => if bool_decide (a ∈ seen) then fresh_names seen l else a :: fresh_names ({[a]} ∪ seen) l
  end.

Definition fill_bin (shellKey : Key) (shellDir tmp : string) : K unit :=
  entries ← ask_names "read shell bin" (CReadDir (path_Join shellDir "bin"));
  applets ← busyboxApplets (path_Join (path_Join shellDir "bin") "busybox");
  each (λ a, must "symlink applet" (CSymlink "busybox" (path_Join tmp a))) (fresh_names (list_to_set entries) applets);;
  each (λ e, must "symlink entry" (CSymlink (storeShellDir shellKey +:+ "/bin/" +:+ e) (path_Join tmp e))) entries.

Definition stagedBinDir (cacheDir : string) (shellKey : Key) (shellDir : string) : K string :=
  staged cacheDir (key_String shellKey +:+ ".bin") "bin-staging-" "stage bin dir" (fill_bin shellKey shellDir).

Definition execBanner (spec : ExecSpec) : string :=
  let b := "jobs: exec " +:+ path_Join (es_FetcherDir spec) "fetch" in
  let p := default "" (es_Env spec !! "JOBS_FETCH_PARAMS") in
  let b := if String.eqb p "" then b else b +:+ " params=" +:+ p in
  (if String.eqb (es_SecretsFile spec) "" then b else b +:+ " secrets=" +:+ es_SecretsFile spec) +:+ nl.

Definition removes (p : string) : K unit := attempt (CRemoveAll p);; mret tt.
Definition closes (cg : option string) : K unit := recover (cg_Close cg);; mret tt.

Definition import_config (spec : ExecSpec) (newRoot : string) (mounts : list Mount) (env : list string) (cg : option string) : Config :=
  mkCfg [importFetcherDir +:+ "/fetch"] env importFetcherDir newRoot mounts (mkNS true true true false true true) cg false.

Definition import_in (memMax pidsMax : Z) (spec : ExecSpec) (shellKey : Key) (shellDir binDir storeDir work : string) : K exec_result :=
  let newRoot := path_Join work "root" in
  let scratch := path_Join work "tmp" in
  each (λ d, must ("mkdir " +:+ d) (CMkdirAll d)) [newRoot; scratch];;
  plan ← importMountPlan newRoot shellDir binDir storeDir scratch shellKey spec;
  cg ← CreateCgroup ("jobs-import-" +:+ itoa h_Getpid +:+ "-" +:+ itoa h_UnixNano) (mkLim memMax 0 pidsMax 0 0);
  finally
    (r ← Run marshal (import_config spec newRoot plan.1 plan.2 cg);
     mret (mkExec r.1 (tail_of (execBanner spec +:+ r.2)) ""))
    (closes cg).

(** [CgroupExecutor.Run]. *)
Definition import_Run (memMax pidsMax : Z) (spec : ExecSpec) : K exec_result :=
  match es_ShellKey spec with
  | None => failK "hermetic import: no shell artifact (ShellKey) to build the sandbox root from"
  | Some shellKey =>
      shellDir ← stagedTree (es_CacheDir spec) shellKey;
      binDir ← stagedBinDir (es_CacheDir spec) shellKey shellDir;
      storeDir ← match es_ClosureKey spec with Some c => stagedTree (es_CacheDir spec) c | None => mret "" end;
      work ← ask_str "create import root" (CMkdirTemp "" "jobs-import-root-");
      finally (import_in memMax pidsMax spec shellKey shellDir binDir storeDir work) (removes work)
  end.

(** ** Builds *)

Definition build_vars (spec : BuildSpec) : gmap string string :=
  let m := bs_Env spec in
  let m := <["SRC" := sandboxSrcDir]> m in
  let m := if String.eqb (bs_Workdir spec) "" then m
           else <["SRC_ROOT" := sandboxSrcDir]> (<["SRC" := sandboxSrcDir +:+ "/" +:+ bs_Workdir spec]> m) in
  let m := <["PATH" := storeShellDir (bs_ShellBOK spec) +:+ "/bin"]> (<["HOME" := sandboxHomeDir]> (<["out" := sandboxOutDir]> m)) in
  let deps := json_deps (bs_JobsDeps spec) in
  let m := if (Z.of_nat (String.length deps) <=? maxInlineJobsDeps)%Z then <["JOBS_DEPS" := deps]> m else m in
  <["JOBS_DEPS_FILE" := sandboxJobsDepsFile]> m.

Definition buildEnv (spec : BuildSpec) : list string := env_lines (build_vars spec).

Definition provisionStore (storeKey : Key) (newRoot workDir : string) : K (list Mount) :=
  must "mkdir store mountpoint" (CMkdirAll (path_Join newRoot sandboxStoreDir));;
  let staging := path_Join workDir "store" in
  materializeStore storeKey staging;;
  mret [bind_ro staging sandboxStoreDir].

Definition cache_binds (caches : list CacheMount) : list Mount :=
  (λ cm, mkMnt (cm_HostDir cm) (cm_Path cm) "" false true 0) <$> caches.

Definition build_config (spec : BuildSpec) (command : list string) (newRoot : string) (devs extra store : list Mount) (cg : option string) : Config :=
  mkCfg command (buildEnv spec) (if String.eqb (bs_Workdir spec) "" then "" else sandboxSrcDir +:+ "/" +:+ bs_Workdir spec) newRoot
    ([mkMnt "tmpfs" "/tmp" "tmpfs" false false 0] ++ devs ++ cache_binds (bs_Caches spec) ++ extra ++ store)
    (mkNS true true true true true true) cg false.

Record assembled := mkAsm { as_cfg : Config; as_cg : option string; as_work : string; as_outDir : string }.

(** The part of [assembleSandbox] before the cgroup. *)
Definition stage_root (spec : BuildSpec) (newRoot work : string) : K (list Mount) :=
  storeBinds ← provisionStore (bs_StoreKey spec) newRoot work;
  let srcDir := path_Join newRoot sandboxSrcDir in
  must "mkdir $SRC" (CMkdirAll srcDir);;
  must "tar source" (CTar (key_String (bs_SourceKey spec)) (bs_SourceDir spec));;
  must "extract source" (CExtract srcDir);;
  must "mkdir $out" (CMkdirAll (path_Join newRoot sandboxOutDir));;
  must "write jobs-deps file" (CWriteFile (path_Join newRoot sandboxJobsDepsFile) (json_deps (bs_JobsDeps spec)));;
  must "write script file" (CWriteFile (path_Join newRoot sandboxScriptFile) (bs_Script spec));;
  mret storeBinds.

(** A failure releases what was made before it. The executor is given no limit
    on processes. *)
Definition release_failed {A} (work : string) (cg : option string) (m : K A) : K A :=
  r ← recover m;
  match r with Ok a => mret a | Err e => closes cg;; removes work;; failK e end.

Definition assembleSandbox (spec : BuildSpec) (command : list string) (extra : list Mount) : K assembled :=
  work ← ask_str "create build work dir" (CMkdirTemp "" "jobs-build-");
  let newRoot := path_Join work "root" in
  storeBinds ← release_failed work None (stage_root spec newRoot work);
  cg ← release_failed work None
         (CreateCgroup ("jobs-build-" +:+ itoa h_Getpid +:+ "-" +:+ itoa h_UnixNano) (mkLim (bs_MemoryMaxBytes spec) 0 0 0 0));
  devs ← release_failed work cg (devs ← hermeticDevMounts newRoot; writeHermeticEtc newRoot;; mret devs);
  mret (mkAsm (build_config spec command newRoot devs extra storeBinds cg) cg work (path_Join newRoot sandboxOutDir)).

Definition build_banner (spec : BuildSpec) (command : list string) : string :=
  "jobs: exec " +:+ Join command " " +:+ " ($SRC=" +:+ (if String.eqb (bs_Workdir spec) "" then sandboxSrcDir else sandboxSrcDir +:+ "/" +:+ bs_Workdir spec) +:+
  ", $out=" +:+ sandboxOutDir +:+ ", net=none)" +:+ nl.

(** [NamespaceBuildExecutor.RunBuild]: the work tree is kept only for the
    caller that takes the output from it. *)
Definition exec_RunBuild (spec : BuildSpec) : K exec_result :=
  a ← assembleSandbox spec [storeShellDir (bs_ShellBOK spec) +:+ "/bin/bash"; "-ex"; sandboxScriptFile] [];
  r ← recover (Run marshal (as_cfg a));
  closes (as_cg a);;
  match r with
  | Ok (code, err) => mret (mkExec code (tail_of (build_banner spec (cf_Command (as_cfg a)) +:+ err)) (as_outDir a))
  | Err e => removes (as_work a);; failK e
  end.

End Executors.
