(* ===== verification/SandboxFacts.v ===== *)
(** * What the sandbox guarantees

    What the mounts of a child leave visible and writable in its root; that a
    remount clears nothing; that the child runs the configuration its parent was
    given; that executors release what they made; that the execution of the
    command ends; where control groups are made. *)
From S2P Require Import Prelude GoLib Keys Wire Builddef Store LogBuf Stages Trees Cover Paths DiskFs Extract ExtractFacts ContextRoot Sandbox.
From Stdlib Require Import Ascii.
Local Open Scope string_scope.
Local Open Scope list_scope.

Section Facts.
Context {H : Host}.

(** ** Traces *)

(** What mount(2) documents of the calls that succeed, newest mount first: a
    remount changes the flags of a mount, a bind takes read-only only by a
    remount, the last mount on a path or above it serves the path. *)
Record entry := mkEnt { e_source : string; e_target : string; e_ro : bool }.

Fixpoint retag (target : string) (ro : bool) (tb : list entry) : list entry :=
  match tb with
  | [] => []
  | e :: tb => if String.eqb (e_target e) target then mkEnt (e_source e) target ro :: tb else e :: retag target ro tb
  end.

Definition has_flag (fl f : Z) : bool := negb (Z.land fl f =? 0)%Z.

Definition effect (c : call) (tb : list entry) : list entry :=
  match c with
  | CMount s target fs fl =>
      if has_flag fl MS_REMOUNT then retag target (has_flag fl MS_RDONLY) tb
      else if has_flag fl MS_PRIVATE then tb
      else mkEnt s target (negb (String.eqb fs "") && has_flag fl MS_RDONLY) :: tb
  | _ => tb
  end.

Definition step_table (pre : list call) (c : call) (tb : list entry) : list entry :=
  match h_fails pre c with None => effect c tb | Some _ => tb end.

Fixpoint play (pre t : list call) (tb : list entry) : list entry :=
  match t with [] => tb | c :: t => play (pre ++ [c]) t (step_table pre c tb) end.

Lemma play_app s1 : ∀ pre s2 tb, play pre (s1 ++ s2) tb = play (pre ++ s1) s2 (play pre s1 tb).
Proof. induction s1 as [|c s1 IH]; intros pre s2 tb; simpl; [by rewrite app_nil_r|]. rewrite IH. by rewrite <- (assoc_L (++)). Qed.

(** A computation that succeeds, from a table to a table. *)
Definition ends {A} (m : K A) (P : list call → list entry → Prop) (Q : A → list call → list entry → Prop) : Prop :=
  ∀ t tb t' a, P t tb → m t = (t', Ok a) → ∃ s, t' = t ++ s ∧ Q a t' (play t s tb).

Lemma ends_ret {A} (a : A) (P : list call → list entry → Prop) (Q : A → list call → list entry → Prop) : (∀ t tb, P t tb → Q a t tb) → ends (mret a) P Q.
Proof. intros HQ t tb t' a' HP [= <- <-]. exists []. rewrite app_nil_r. split; [done|]. by apply HQ. Qed.

Lemma ends_bind {A B} (m : K A) (f : A → K B) P Q R : ends m P Q → (∀ a, ends (f a) (Q a) R) → ends (m ≫= f) P R.
Proof.
  intros Hm Hf t tb t' b HP E. unfold mbind, K_bind in E. destruct (m t) as [t1 [a|e]] eqn:E1; [|done].
  destruct (Hm _ _ _ _ HP E1) as (s1 & -> & HQ). destruct (Hf _ _ _ _ _ HQ E) as (s2 & -> & HR).
  exists (s1 ++ s2). split; [by rewrite (assoc_L (++))|]. by rewrite play_app.
Qed.

Lemma ends_weaken {A} (m : K A) (P P' : list call → list entry → Prop) (Q Q' : A → list call → list entry → Prop) : ends m P Q → (∀ t tb, P' t tb → P t tb) → (∀ a t tb, Q a t tb → Q' a t tb) → ends m P' Q'.
Proof. intros Hm HP HQ t tb t' a HP' E. destruct (Hm _ _ _ _ (HP _ _ HP') E) as (s & -> & ?). eauto. Qed.

Lemma ends_fail {A} e P (Q : A → list call → list entry → Prop) : ends (failK e) P Q.
Proof. intros t tb t' a _ [=]. Qed.

Lemma ends_must w c tb0 : ends (must w c) (λ _ tb, tb = tb0) (λ _ _ tb, tb = effect c tb0).
Proof.
  intros t tb t' [] -> E. unfold must in E. destruct (h_fails t c) eqn:Ef; [done|]. injection E as <-.
  exists [c]. split; [done|]. simpl. unfold step_table. by rewrite Ef.
Qed.

Lemma ends_ask_num w c tb0 : ends (ask_num w c) (λ _ tb, tb = tb0) (λ _ _ tb, tb = effect c tb0).
Proof.
  intros t tb t' a -> E. unfold ask_num in E. destruct (h_fails t c) eqn:Ef; [done|]. injection E as <- _.
  exists [c]. split; [done|]. simpl. unfold step_table. by rewrite Ef.
Qed.

Lemma ends_attempt c tb0 : ends (attempt c) (λ _ tb, tb = tb0) (λ _ _ tb, tb = effect c tb0 ∨ tb = tb0).
Proof.
  intros t tb t' a -> E. unfold attempt in E. injection E as <- _.
  exists [c]. split; [done|]. simpl. unfold step_table. destruct (h_fails t c); auto.
Qed.

(** ** Flags *)

Lemma has_flag_bit fl n : (0 <= n)%Z → has_flag fl (2 ^ n) = Z.testbit fl n.
Proof.
  intros Hn. unfold has_flag. destruct (Z.testbit fl n) eqn:E.
  - destruct (Z.eqb_spec (Z.land fl (2 ^ n)) 0) as [E0|]; [|done].
    assert (X : Z.testbit (Z.land fl (2 ^ n)) n = true) by (rewrite Z.land_spec, E, Z.pow2_bits_true by done; done).
    by rewrite E0, Z.bits_0 in X.
  - destruct (Z.eqb_spec (Z.land fl (2 ^ n)) 0) as [|Hne]; [done|]. exfalso. apply Hne. apply Z.bits_inj'. intros k Hk.
    rewrite Z.land_spec, Z.bits_0, Z.pow2_bits_eqb by done. destruct (Z.eqb_spec n k) as [<-|]; [by rewrite E|by rewrite andb_false_r].
Qed.

Lemma has_flag_lor a b f n : f = (2 ^ n)%Z → (0 <= n)%Z → has_flag (Z.lor a b) f = has_flag a f || has_flag b f.
Proof. intros -> Hn. by rewrite !has_flag_bit, Z.lor_spec by done. Qed.

Lemma ro_flags_remount m inh : has_flag (ro_flags m inh) MS_REMOUNT = true ∧ has_flag (ro_flags m inh) MS_RDONLY = true.
Proof.
  unfold ro_flags. split.
  - repeat rewrite (has_flag_lor _ _ _ 5) by done. reflexivity.
  - repeat rewrite (has_flag_lor _ _ _ 0) by done. reflexivity.
Qed.

Lemma strict_flags_remount m inh : has_flag (strict_flags m inh) MS_REMOUNT = true ∧ (m_ReadOnly m = true → has_flag (strict_flags m inh) MS_RDONLY = true).
Proof.
  unfold strict_flags. split.
  - destruct (m_ReadOnly m); repeat rewrite (has_flag_lor _ _ _ 5) by done; reflexivity.
  - intros ->. rewrite (has_flag_lor _ _ _ 0) by done. apply orb_true_r.
Qed.

(** ** The mounts of a child *)

(** A step that mounts nothing. *)
Definition mountless {A} (m : K A) : Prop := ∀ tb0, ends m (λ _ tb, tb = tb0) (λ _ _ tb, tb = tb0).

Lemma mountless_must w c : (∀ tb, effect c tb = tb) → mountless (must w c).
Proof. intros Hc tb0. eapply ends_weaken; [apply (ends_must _ _ tb0)|done|]. intros _ t tb ->. apply Hc. Qed.

Lemma mountless_bind {A B} (m : K A) (f : A → K B) : mountless m → (∀ a, mountless (f a)) → mountless (m ≫= f).
Proof. intros Hm Hf tb0. eapply ends_bind; [apply Hm|]. intros a. apply Hf. Qed.

Lemma mountless_ret {A} (a : A) : mountless (mret a).
Proof. intros tb0. by apply ends_ret. Qed.

Lemma mountless_bind_target source target : mountless (bind_target source target).
Proof.
  unfold bind_target. apply mountless_bind.
  - intros tb0. eapply ends_weaken; [apply (ends_ask_num _ _ tb0)|done|]. by intros _ t tb ->.
  - intros dir. destruct (_ =? 1)%Z; [by apply mountless_must|]. apply mountless_bind; [by apply mountless_must|]. intros _. by apply mountless_must.
Qed.

Lemma ends_after {A B} (m : K A) (f : A → K B) tb0 Q : mountless m → (∀ a, ends (f a) (λ _ tb, tb = tb0) Q) → ends (m ≫= f) (λ _ tb, tb = tb0) Q.
Proof. intros Hm Hf. eapply ends_bind; [apply Hm|done]. Qed.

Lemma retag_top s target ro ro' tb : retag target ro' (mkEnt s target ro :: tb) = mkEnt s target ro' :: tb.
Proof. simpl. by rewrite String.eqb_refl. Qed.

(** The entry a mount leaves: its source at its target, read-only if it is asked
    to be. *)
Definition leaves (root : string) (m : Mount) (e : entry) : Prop :=
  e_source e = m_Source m ∧ e_target e = path_Join root (m_Target m) ∧ (m_ReadOnly m = true → e_ro e = true).

Lemma ends_remount target m s tb0 : (m_ReadOnly m || m_Strictatime m = true) →
  ends (remount target m) (λ _ tb, tb = mkEnt s target false :: tb0)
    (λ _ _ tb, ∃ ro, tb = mkEnt s target ro :: tb0 ∧ (m_ReadOnly m = true → ro = true)).
Proof.
  intros _. unfold remount, inheritedMountFlags. apply ends_after.
  { apply mountless_bind; [|intros ?; apply mountless_ret]. intros tb1. eapply ends_weaken; [apply (ends_ask_num _ _ tb1)|done|]. by intros _ t tb ->. }
  intros inh. apply (ends_bind _ _ _ (λ _ _ tb, ∃ ro, tb = mkEnt s target ro :: tb0 ∧ (m_ReadOnly m = true → ro = true))).
  - destruct (m_ReadOnly m) eqn:Er.
    + eapply ends_weaken; [apply (ends_must _ _ (mkEnt s target false :: tb0))|done|]. intros _ t tb ->. exists true.
      unfold effect. destruct (ro_flags_remount m inh) as [-> ->]. by rewrite retag_top.
    + apply ends_ret. intros t tb ->. by exists false.
  - intros _. destruct (m_Strictatime m); [|by apply ends_ret]. intros t tb t' [] (ro & -> & Hro) E.
    destruct (strict_flags_remount m inh) as [E1 E2].
    assert (X : ends (attempt (CMount "" target "" (strict_flags m inh)) ≫= λ _, mret tt) (λ _ tb, tb = mkEnt s target ro :: tb0)
      (λ _ _ tb, ∃ ro, tb = mkEnt s target ro :: tb0 ∧ (m_ReadOnly m = true → ro = true))).
    { eapply ends_bind; [apply ends_attempt|]. intros ea. apply ends_ret. intros t1 tb1 [->| ->]; [|by exists ro].
      unfold effect. rewrite E1, retag_top. eexists; split; [done|exact E2]. }
    exact (X _ _ _ _ eq_refl E).
Qed.

Lemma ends_applyMount root m tb0 : m_Flags m = 0%Z →
  ends (applyMount root m) (λ _ tb, tb = tb0) (λ _ _ tb, ∃ e, tb = e :: tb0 ∧ leaves root m e).
Proof.
  intros Hf. unfold applyMount. destruct (String.eqb_spec (m_FSType m) "") as [Efs|Efs].
  - apply ends_after; [apply mountless_bind_target|]. intros _.
    eapply ends_bind; [apply ends_must|]. intros []. rewrite Hf.
    change (effect (CMount ?a ?b "" _) tb0) with (mkEnt a b false :: tb0).
    destruct (m_ReadOnly m || m_Strictatime m) eqn:Er.
    + eapply ends_weaken; [apply ends_remount; exact Er|intros t tb ->; reflexivity|]. intros _ t tb (ro & -> & Hro). eexists; split; [done|]. by split_and!.
    + apply ends_ret. intros t tb ->. eexists; split; [done|]. split_and!; [done..|]. intros Hro. by rewrite Hro in Er.
  - apply ends_after; [by apply mountless_must|]. intros _. rewrite Hf.
    eapply ends_weaken; [apply (ends_must _ _ tb0)|done|]. intros _ t tb ->.
    destruct (m_ReadOnly m) eqn:Er; (eexists; split; [reflexivity|]; split_and!; [done..|]); [|by rewrite Er].
    intros _. simpl. by destruct (String.eqb_spec (m_FSType m) "").
Qed.

Lemma ends_each root ms : ∀ tb0, Forall (λ m, m_Flags m = 0%Z) ms →
  ends (each (applyMount root) ms) (λ _ tb, tb = tb0) (λ _ _ tb, ∃ es, tb = es ++ tb0 ∧ Forall2 (leaves root) (rev ms) es).
Proof.
  induction ms as [|m ms IH]; intros tb0 Hf; cbn [each]; [apply ends_ret; intros t tb ->; by exists []|].
  inversion Hf; subst. eapply ends_bind; [by apply ends_applyMount|]. intros [] t tb t' a (e & -> & He) E.
  destruct (IH (e :: tb0) ltac:(done) _ _ _ _ eq_refl E) as (s & -> & es & Hes & HF). exists s. split; [done|].
  exists (es ++ [e]). split; [by rewrite <- (assoc_L (++))|]. simpl. apply Forall2_app; [done|]. by constructor.
Qed.

(** The four calls that leave the old root, all of which succeed. *)
Definition leave_root (root : string) : list call := [CChdir root; CPivotRoot; CDetach; CChdir "/"].

Lemma must_ok w c t t' u : must w c t = (t', Ok u) → t' = t ++ [c] ∧ h_fails t c = None.
Proof. unfold must. destruct (h_fails t c); naive_solver. Qed.

Lemma bind_ok {A B} (m : K A) (f : A → K B) t t' b : (m ≫= f) t = (t', Ok b) → ∃ t1 a, m t = (t1, Ok a) ∧ f a t1 = (t', Ok b).
Proof. unfold mbind, K_bind. destruct (m t) as [t1 [a|e]]; naive_solver. Qed.

Lemma pivot_ok root t t' u : pivot root t = (t', Ok u) → t' = t ++ leave_root root ∧
  h_fails (t ++ [CChdir root]) CPivotRoot = None ∧ h_fails (t ++ [CChdir root; CPivotRoot]) CDetach = None.
Proof.
  unfold pivot. intros (t1 & [] & [-> _]%must_ok & (t2 & [] & [-> E2]%must_ok & (t3 & [] & [-> E3]%must_ok & [-> _]%must_ok)%bind_ok)%bind_ok)%bind_ok.
  rewrite <- !(assoc_L (++)) in *. done.
Qed.

(** ** The configuration a child sets up *)

Record confinable (cfg : Config) : Prop := {
  cb_root : cf_NewRoot cfg ≠ "";
  cb_mount : ns_Mount (cf_Namespaces cfg) = true;
  cb_pid : ns_PID (cf_Namespaces cfg) = true;
  cb_flags : Forall (λ m, m_Flags m = 0%Z) (cf_Mounts cfg);
}.

(** The table of a configuration: /proc, the mounts in reverse, the root. *)
Definition sets_up (cfg : Config) (tb : list entry) : Prop := ∃ es,
  tb = mkEnt "proc" (path_Join (cf_NewRoot cfg) "proc") false :: es ++ [mkEnt (cf_NewRoot cfg) (cf_NewRoot cfg) false] ∧
  Forall2 (leaves (cf_NewRoot cfg)) (rev (cf_Mounts cfg)) es.

Lemma ends_setup cfg : confinable cfg → ends (childSetup cfg) (λ _ tb, tb = []) (λ _ _ tb, sets_up cfg tb).
Proof.
  intros [Hr Hm Hp Hf]. unfold childSetup. rewrite Hm, Hp. destruct (String.eqb_spec (cf_NewRoot cfg) "") as [|_]; [done|].
  apply ends_after; [by apply mountless_must|]. intros _. eapply ends_bind; [apply ends_must|]. intros [].
  change (effect (CMount ?a ?a "" _) []) with [mkEnt a a false].
  eapply ends_bind; [by apply ends_each|]. intros []. intros t tb t' a (es & -> & Hes) E.
  set (tb1 := es ++ [_]) in *.
  assert (X : ends (mount_proc cfg ≫= λ _, pivot (cf_NewRoot cfg) ≫= λ _,
    if String.eqb (cf_Dir cfg) "" then mret tt else must ("chdir " +:+ cf_Dir cfg) (CChdir (cf_Dir cfg)))
    (λ _ tb, tb = tb1) (λ _ _ tb, sets_up cfg tb)); [|exact (X _ _ _ _ eq_refl E)].
  eapply (ends_bind _ _ _ (λ _ _ tb, tb = mkEnt "proc" (path_Join (cf_NewRoot cfg) "proc") false :: tb1)).
  - unfold mount_proc. destruct (String.eqb_spec (cf_NewRoot cfg) "") as [|_]; [done|]. apply ends_after; [by apply mountless_must|]. intros _. apply ends_must.
  - intros _. apply ends_after.
    { unfold pivot. repeat (apply mountless_bind; [by apply mountless_must|intros ?]). by apply mountless_must. }
    intros _. eapply (ends_weaken _ _ _ (λ _ _ tb, tb = mkEnt "proc" (path_Join (cf_NewRoot cfg) "proc") false :: tb1)); [|intros ? ? HH; exact HH|].
    + destruct (String.eqb _ _); [by apply mountless_ret|by apply mountless_must].
    + intros _ t1 tb2 ->. by exists es.
Qed.

(** The entry that serves a path, by its elements: the newest on it or above. *)
Definition serving (tb : list entry) (p : list string) : option entry := find (λ e, bool_decide (psegs (e_target e) `prefix_of` p)) tb.

(** Of a table: what may be written is from one of these sources. *)
Definition writes_only (tb : list entry) (sources : list string) : Prop := ∀ e, e ∈ tb → e_ro e = false → e_source e ∈ sources.

Definition open_sources (cfg : Config) : list string := "proc" :: cf_NewRoot cfg :: (m_Source <$> filter (λ m, m_ReadOnly m = false) (cf_Mounts cfg)).

Lemma setup_writes cfg tb : sets_up cfg tb → writes_only tb (open_sources cfg).
Proof.
  intros (es & -> & HF) e He Hro. unfold open_sources. apply elem_of_cons in He as [->|[He|He%list_elem_of_singleton]%elem_of_app]; [left| |subst e; by right; left].
  apply list_elem_of_lookup in He as [i Hi]. destruct (Forall2_lookup_r _ _ _ _ _ HF Hi) as (m & Hm & Hs & _ & Hr).
  right. right. rewrite Hs. apply list_elem_of_fmap. exists m. split; [done|]. apply list_elem_of_filter. split.
  - destruct (m_ReadOnly m); [|done]. by rewrite Hr in Hro.
  - apply list_elem_of_lookup_2 in Hm. by apply list_elem_of_In, in_rev, list_elem_of_In in Hm.
Qed.

(** ** Which mount serves a path *)

Lemma find_app {A} (f : A → bool) l1 l2 : find f (l1 ++ l2) = match find f l1 with Some x => Some x | None => find f l2 end.
Proof. induction l1 as [|x l1 IH]; simpl; [done|]. by destruct (f x). Qed.

Lemma find_none {A} (f : A → bool) l : Forall (λ x, f x = false) l → find f l = None.
Proof. induction 1 as [|x l Hx _ IH]; simpl; [done|]. by rewrite Hx. Qed.

Lemma join_psegs n c : Forall name_ok n → Forall name_ok c → psegs (path_Join (abs n) (abs c)) = n ++ c.
Proof. intros Hn Hc. rewrite Join_abs_abs by done. apply psegs_abs. by apply Forall_app. Qed.

Lemma psegs_proc n : Forall name_ok n → psegs (path_Join (abs n) "proc") = n ++ ["proc"].
Proof.
  intros Hn. change "proc" with (joined ["proc"]) at 1. rewrite (Join_abs n ["proc"]); [|done|split; [done|by repeat constructor]].
  apply psegs_abs, Forall_app. split; [done|by repeat constructor].
Qed.

(** A path below no mount but the root's is the root's. *)
Lemma serving_root cfg tb n q : sets_up cfg tb → cf_NewRoot cfg = abs n → Forall name_ok n → ~ ["proc"] `prefix_of` q →
  Forall (λ m, ~ psegs (path_Join (abs n) (m_Target m)) `prefix_of` n ++ q) (cf_Mounts cfg) →
  serving tb (n ++ q) = Some (mkEnt (abs n) (abs n) false).
Proof.
  intros (es & -> & HF) Hr Hn Hq Hm. rewrite Hr in *. unfold serving. cbn [find e_target]. rewrite psegs_proc by done.
  rewrite bool_decide_eq_false_2 by (intros X%prefix_app_inv; done). rewrite find_app, find_none.
  - simpl. rewrite psegs_abs by done. by rewrite bool_decide_eq_true_2 by (by apply prefix_app_r).
  - apply Forall_lookup. intros i e He. destruct (Forall2_lookup_r _ _ _ _ _ HF He) as (m & Hmi & _ & -> & _).
    apply bool_decide_eq_false_2. rewrite Forall_forall in Hm. apply Hm.
    apply list_elem_of_lookup_2 in Hmi. by apply list_elem_of_In, in_rev, list_elem_of_In in Hmi.
Qed.

(** The last mount serves all below it. *)
Lemma serving_last cfg tb n ms m c q : sets_up cfg tb → cf_NewRoot cfg = abs n → Forall name_ok n → cf_Mounts cfg = ms ++ [m] →
  m_Target m = abs c → Forall name_ok c → ~ ["proc"] `prefix_of` c ++ q → m_ReadOnly m = true →
  serving tb (n ++ c ++ q) = Some (mkEnt (m_Source m) (abs (n ++ c)) true).
Proof.
  intros (es & -> & HF) Hr Hn Hms Ht Hc Hq Hro. rewrite Hr, Hms, rev_app_distr in *. simpl in HF.
  inversion HF as [|? e ? es' (Hs & He & Hw) HF']; subst. unfold serving. cbn [find app e_target]. rewrite psegs_proc by done.
  rewrite bool_decide_eq_false_2 by (intros X%prefix_app_inv; done). destruct e as [es0 et er]. cbn [e_source e_target e_ro] in *. subst et.
  rewrite Ht, join_psegs, Join_abs_abs by done. rewrite bool_decide_eq_true_2 by (rewrite (assoc_L (++)); by apply prefix_app_r).
  rewrite Hw by done. by rewrite Hs.
Qed.

(** ** Caches keep away from the sandbox's own directories *)

Lemma reserved_not_prefix p c r : p = abs c → Forall name_ok c → Forall name_ok r → r ≠ [] → (String.eqb p (abs r) || HasPrefix p (abs r +:+ "/")) = false → ~ r `prefix_of` c.
Proof.
  intros -> Hc Hr Hne Hp [k ->]. apply orb_false_iff in Hp as [H1 H2]. destruct k as [|x k].
  - rewrite app_nil_r in H1. by rewrite String.eqb_refl in H1.
  - assert (E : abs (r ++ x :: k) = (abs r +:+ "/") +:+ joined (x :: k)) by (unfold abs; rewrite joined_app by done; by rewrite !append_assoc).
    rewrite E, HasPrefix_app in H2. done.
Qed.

Lemma cache_path p : ValidateCachePath p = Ok tt → ∃ c, p = abs c ∧ Forall name_ok c ∧ c ≠ [] ∧ c ≠ ["build"] ∧
  ~ ["build"; "out"] `prefix_of` c ∧ ~ ["build"; "src"] `prefix_of` c.
Proof.
  unfold ValidateCachePath. intros Hv. destruct (HasPrefix p "/") eqn:Er; [|done]. cbn [negb] in Hv.
  destruct (String.eqb_spec p (path_Clean p)) as [Ec|]; [|done]. cbn [negb] in Hv.
  destruct (String.eqb_spec p "/") as [|H1]; [done|]. destruct (String.eqb_spec p "/build") as [|H2]; [done|].
  destruct (Clean_rooted_abs p Er) as (c & Hc & E). rewrite E in Ec. rewrite for_each_Ok in Hv.
  assert (Hres : ∀ r, abs r ∈ reservedCachePrefixes → Forall name_ok r → r ≠ [] → ~ r `prefix_of` c).
  { intros r Hin Hr Hne. apply (reserved_not_prefix p); [done..|]. rewrite Forall_forall in Hv. specialize (Hv _ Hin). by case_match. }
  exists c. split_and!; [done|done|by intros ->|by intros ->| |].
  - apply (Hres ["build"; "out"]); [by do 2 right; left|by repeat constructor|done].
  - apply (Hres ["build"; "src"]); [by right; left|by repeat constructor|done].
Qed.

(** ** From the executor to the command *)

Definition is_device (m : Mount) : Prop := ∃ d, d ∈ devices ∧ m = bind_rw ("/dev/" +:+ d) ("/dev/" +:+ d).

Lemma dev_nodes_ok l : ∀ t t' ms, l ⊆ devices → dev_nodes l t = (t', Ok ms) → Forall is_device ms.
Proof.
  induction l as [|d l IH]; intros t t' ms Hl E; [by injection E as _ <-; constructor|]. cbn [dev_nodes] in E.
  apply bind_ok in E as (t1 & there & _ & E). apply bind_ok in E as (t2 & rest & E1 & E). injection E as _ <-.
  assert (Hr : Forall is_device rest) by (eapply IH; [|exact E1]; intros x Hx; apply Hl; by right).
  destruct there; [|done]. constructor; [|done]. exists d. split; [|done]. apply Hl. left.
Qed.

Lemma hermetic_devices root t t' ms : hermeticDevMounts root t = (t', Ok ms) → Forall is_device ms.
Proof. unfold hermeticDevMounts. intros (t1 & [] & _ & (t2 & [] & _ & E)%bind_ok)%bind_ok. by eapply dev_nodes_ok. Qed.

Lemma recover_bind {A B} (m : K A) (f : result string A → K B) t : (recover m ≫= f) t = f (m t).2 (m t).1.
Proof. unfold mbind, K_bind, recover. done. Qed.

Context {KL : KeyLib}.

Lemma released_ok {A} work cg (m : K A) t t' a : release_failed work cg m t = (t', Ok a) → m t = (t', Ok a).
Proof.
  unfold release_failed. rewrite recover_bind. destruct (m t) as [t1 [x|e]]; simpl; [done|].
  intros (t2 & [] & _ & (t3 & [] & _ & [=])%bind_ok)%bind_ok.
Qed.

Lemma stage_ok json spec root work t t' ms : stage_root json spec root work t = (t', Ok ms) → ms = [bind_ro (path_Join work "store") sandboxStoreDir].
Proof.
  unfold stage_root, provisionStore. intros (t1 & ms1 & E1 & E)%bind_ok. apply bind_ok in E1 as (t2 & [] & _ & E1). apply bind_ok in E1 as (t3 & [] & _ & E1).
  injection E1 as _ <-. repeat (apply bind_ok in E as (? & [] & _ & E)). by injection E.
Qed.

Lemma assemble_ok json spec command extra t t' a : assembleSandbox json spec command extra t = (t', Ok a) → ∃ devs, Forall is_device devs ∧
  as_cfg a = build_config json spec command (path_Join (as_work a) "root") devs extra [bind_ro (path_Join (as_work a) "store") sandboxStoreDir] (as_cg a) ∧
  as_outDir a = path_Join (path_Join (as_work a) "root") sandboxOutDir.
Proof.
  unfold assembleSandbox. intros (t1 & work & _ & E)%bind_ok. apply bind_ok in E as (t2 & ms & ->%released_ok%stage_ok & E).
  apply bind_ok in E as (t3 & cg & _ & E). apply bind_ok in E as (t4 & devs & Ed%released_ok & E).
  injection E as _ <-. apply bind_ok in Ed as (t5 & ds & Ed & E). apply bind_ok in E as (t6 & [] & _ & E). injection E as _ <-.
  exists ds. split_and!; [by eapply hermetic_devices|done..].
Qed.

(** What the child is sent of a configuration. *)
Definition strip (cfg : Config) : Config :=
  mkCfg (cf_Command cfg) (cf_Env cfg) (cf_Dir cfg) (cf_NewRoot cfg) (cf_Mounts cfg) (cf_Namespaces cfg) None false.

(** A command that is executed was executed after the whole setup. *)
Lemma Init_executed unmarshal fuel v t t' : Init unmarshal fuel v t = (t', Ok (Some Executed)) → ∃ t1 cfg t2,
  load_config unmarshal v t = (t1, Ok (Some cfg)) ∧ childSetup cfg t1 = (t2, Ok tt) ∧ exec_loop fuel 10 5 cfg t2 = (t', Ok (Some Executed)).
Proof.
  unfold Init. destruct (String.eqb v ""); [done|]. destruct (String.eqb v "probe"); [done|].
  intros (t1 & [cfg|] & E1 & E)%bind_ok; [|done]. rewrite recover_bind in E.
  destruct (childSetup cfg t1) as [t2 [[]|e]] eqn:E2; cbn [fst snd] in E; [|done]. case_bool_decide; [done|]. eauto 10.
Qed.

(** Calls that mount nothing. *)
Definition no_mount (c : call) : Prop := ∀ tb, effect c tb = tb.

Lemma play_no_mount s : ∀ pre tb, Forall no_mount s → play pre s tb = tb.
Proof.
  induction s as [|c s IH]; intros pre tb Hs; [done|]. inversion Hs; subst. simpl. rewrite IH by done.
  unfold step_table. destruct (h_fails pre c); auto.
Qed.

Lemma exec_loop_calls fuel : ∀ retries delay cfg t t' r, exec_loop fuel retries delay cfg t = (t', r) → ∃ s, t' = t ++ s ∧ Forall no_mount s.
Proof.
  induction fuel as [|fuel IH]; intros retries delay cfg t t' r E; cbn [exec_loop] in E.
  - injection E as <- _. exists []. by rewrite app_nil_r.
  - unfold mbind, K_bind, attempt at 1 in E. cbn beta iota in E.
    assert (Hend : ∀ f, (t ++ [CExec (cf_Command cfg) (cf_Env cfg)], Ok (Some f)) = (t', r) → ∃ s, t' = t ++ s ∧ Forall no_mount s).
    { intros f [= <- _]. exists [CExec (cf_Command cfg) (cf_Env cfg)]. split; [done|]. by repeat constructor. }
    assert (Hmore : ∀ c n d, no_mount c → exec_loop fuel n d cfg (t ++ [CExec (cf_Command cfg) (cf_Env cfg)] ++ [c]) = (t', r) → ∃ s, t' = t ++ s ∧ Forall no_mount s).
    { intros c n d Hc (s & -> & Hs)%IH. exists ([CExec (cf_Command cfg) (cf_Env cfg); c] ++ s). split; [by rewrite <- !(assoc_L (++))|]. by repeat constructor. }
    destruct (h_fails t _) as [[]|]; try by eapply Hend.
    + apply IH in E as (s & -> & Hs). exists (CExec (cf_Command cfg) (cf_Env cfg) :: s). split; [by rewrite <- (assoc_L (++))|]. by constructor.
    + destruct retries; [by eapply Hend|]. unfold attempt in E. cbn beta iota in E. rewrite <- (assoc_L (++)) in E. by eapply Hmore, E.
Qed.

Lemma load_calls unmarshal v t t' r : load_config unmarshal v t = (t', r) → ∃ s, t' = t ++ s ∧ Forall no_mount s.
Proof.
  assert (Hret : (t, Ok (unmarshal v)) = (t', r) → ∃ s, t' = t ++ s ∧ Forall no_mount s) by (intros [= <- _]; exists []; by rewrite app_nil_r).
  unfold load_config. destruct v as [|a v]; [done|]. destruct (ascii_dec a "@") as [->|Ha].
  - intros [= <- _]. exists [CReadFile v]. split; [done|]. by repeat constructor.
  - destruct a as [[] [] [] [] [] [] [] []]; done.
Qed.

Lemma setup_leaves cfg t t' : cf_NewRoot cfg ≠ "" → childSetup cfg t = (t', Ok tt) → ∃ s1 s2, t' = s1 ++ leave_root (cf_NewRoot cfg) ++ s2 ∧
  Forall no_mount s2 ∧ h_fails (s1 ++ [CChdir (cf_NewRoot cfg)]) CPivotRoot = None ∧ h_fails (s1 ++ [CChdir (cf_NewRoot cfg); CPivotRoot]) CDetach = None.
Proof.
  intros Hr. unfold childSetup. destruct (String.eqb_spec (cf_NewRoot cfg) "") as [|_]; [done|]. intros E.
  do 4 apply bind_ok in E as (? & [] & _ & E). apply bind_ok in E as (t1 & [] & (-> & Hp & Hd)%pivot_ok & E).
  destruct (String.eqb (cf_Dir cfg) "").
  - injection E as <-. exists x2, []. rewrite app_nil_r. split_and!; [done|constructor|done|done].
  - apply must_ok in E as [-> _]. exists x2, [CChdir (cf_Dir cfg)]. split_and!; [by rewrite <- (assoc_L (++))|by repeat constructor|done|done].
Qed.

(** What runs in a set up root: what a table of the calls shows. *)
Record confined (root : string) (pre s : list call) (sources : list string) : Prop := {
  cn_writes : writes_only (play pre s []) sources;
  cn_left : ∃ s1 s2, pre ++ s = s1 ++ leave_root root ++ s2 ∧ Forall no_mount s2 ∧
    h_fails (s1 ++ [CChdir root]) CPivotRoot = None ∧ h_fails (s1 ++ [CChdir root; CPivotRoot]) CDetach = None;
}.

Lemma executed_confined unmarshal fuel v t t' cfg : confinable cfg → (load_config unmarshal v t).2 = Ok (Some cfg) →
  Init unmarshal fuel v t = (t', Ok (Some Executed)) →
  ∃ s, t' = t ++ s ∧ sets_up cfg (play t s []) ∧ confined (cf_NewRoot cfg) t s (open_sources cfg).
Proof.
  intros Hc Hl (t1 & cfg' & t2 & E1 & E2 & E3)%Init_executed. rewrite E1 in Hl. injection Hl as ->.
  destruct (load_calls _ _ _ _ _ E1) as (s1 & -> & N1). destruct (exec_loop_calls _ _ _ _ _ _ _ E3) as (s3 & -> & N3).
  pose proof (setup_leaves _ _ _ (cb_root _ Hc) E2) as (l1 & l2 & El & Nl & Hp & Hd).
  destruct (ends_setup cfg Hc _ [] _ _ eq_refl E2) as (s2 & -> & Hs). exists (s1 ++ s2 ++ s3).
  assert (Ep : play t (s1 ++ s2 ++ s3) [] = play (t ++ s1) s2 []).
  { rewrite play_app, (play_no_mount s1) by done. rewrite play_app. by apply play_no_mount. }
  split_and!; [by rewrite !(assoc_L (++))|by rewrite Ep|]. constructor; [rewrite Ep; by apply setup_writes|].
  exists l1, (l2 ++ s3). split_and!; [|by apply Forall_app|done|done]. rewrite !(assoc_L (++)) in *. rewrite El. by rewrite <- !(assoc_L (++)).
Qed.

(** ** Builds *)

Definition build_sources (work : string) (spec : BuildSpec) : list string :=
  "proc" :: path_Join work "root" :: "tmpfs" :: ((λ d, "/dev/" +:+ d) <$> devices) ++ (cm_HostDir <$> bs_Caches spec).

Lemma root_abs work : is_rooted work = true → ∃ n, Forall name_ok n ∧ path_Join work "root" = abs n.
Proof.
  intros Hr. destruct (Clean_rooted_abs (work +:+ "/" +:+ "root")) as (n & Hn & E).
  - unfold is_rooted in *. apply HasPrefix_iff in Hr as (r & ->). rewrite append_assoc. apply HasPrefix_app.
  - exists n. split; [done|]. rewrite <- E. unfold path_Join. by destruct work.
Qed.

Lemma device_flags l : Forall is_device l → Forall (λ m, m_Flags m = 0%Z) l.
Proof. intros Hl. eapply Forall_impl; [done|]. by intros m (d & _ & ->). Qed.

Lemma build_confinable json spec command work devs cg : is_rooted work = true → Forall is_device devs →
  confinable (strip (build_config json spec command (path_Join work "root") devs [] [bind_ro (path_Join work "store") sandboxStoreDir] cg)).
Proof.
  intros Hr Hd. destruct (root_abs work Hr) as (n & _ & E). constructor; [by simpl; rewrite E|done..|]. simpl.
  constructor; [done|]. rewrite !Forall_app. split_and!; [by apply device_flags|by apply Forall_fmap, Forall_true|constructor; [done|constructor]].
Qed.

Lemma build_open json spec command work devs cg : Forall is_device devs →
  open_sources (strip (build_config json spec command (path_Join work "root") devs [] [bind_ro (path_Join work "store") sandboxStoreDir] cg)) ⊆ build_sources work spec.
Proof.
  intros Hd x. unfold open_sources, build_sources. cbn [strip build_config cf_NewRoot cf_Mounts].
  rewrite !elem_of_cons. intros [->|[->|Hx]]; [by left|by right; left|]. right. right.
  apply list_elem_of_fmap in Hx as (m & -> & [Hro Hm]%list_elem_of_filter). cbn [app] in Hm.
  apply elem_of_cons in Hm as [->|Hm]; [by left|]. right.
  apply elem_of_app. apply elem_of_app in Hm as [Hm|[Hm|Hm]%elem_of_app].
  - left. rewrite Forall_forall in Hd. destruct (Hd _ Hm) as (d & Hin & ->). apply list_elem_of_fmap. by exists d.
  - right. apply list_elem_of_fmap in Hm as (cm & -> & Hin). apply list_elem_of_fmap. by exists cm.
  - apply list_elem_of_singleton in Hm as ->. done.
Qed.

(** A mount outside of /build is above nothing in it. *)
Lemma outside_build n c x q : Forall name_ok n → Forall name_ok c → c ≠ [] → c ≠ ["build"] → ~ ["build"; x] `prefix_of` c →
  ~ psegs (path_Join (abs n) (abs c)) `prefix_of` n ++ ["build"; x] ++ q.
Proof.
  intros Hn Hc H0 H1 H2. rewrite join_psegs by done. intros P%prefix_app_inv. destruct c as [|a [|b c]]; [done| |].
  - apply prefix_cons_inv_1 in P as ->. done.
  - pose proof (prefix_cons_inv_1 _ _ _ _ P) as ->. apply prefix_cons_inv_2 in P. cbn [app] in P. pose proof (prefix_cons_inv_1 _ _ _ _ P) as ->.
    apply H2. by exists c.
Qed.

Lemma build_out_root json spec command n devs work cg q : Forall name_ok n → Forall is_device devs →
  Forall (λ cm, ValidateCachePath (cm_Path cm) = Ok tt) (bs_Caches spec) →
  Forall (λ m, ~ psegs (path_Join (abs n) (m_Target m)) `prefix_of` n ++ ["build"; "out"] ++ q)
    (cf_Mounts (strip (build_config json spec command (abs n) devs [] [bind_ro work sandboxStoreDir] cg))).
Proof.
  intros Hn Hd Hc. assert (Hout : ∀ c m, m_Target m = abs c → Forall name_ok c → c ≠ [] → c ≠ ["build"] → ~ ["build"; "out"] `prefix_of` c →
    ~ psegs (path_Join (abs n) (m_Target m)) `prefix_of` n ++ ["build"; "out"] ++ q) by (intros c m -> ???; by apply outside_build).
  cbn [strip build_config cf_Mounts app]. constructor; [by apply (Hout ["tmp"]); [|by repeat constructor|..|intros P%prefix_cons_inv_1]|].
  rewrite !Forall_app. split_and!.
  - eapply Forall_impl; [done|]. intros m (d & Hin & ->). apply (Hout ["dev"; d]); [done| |done|done|by intros P%prefix_cons_inv_1].
    unfold devices in Hin. repeat (apply elem_of_cons in Hin as [->|Hin]; [by repeat constructor|]). by apply elem_of_nil in Hin.
  - apply Forall_fmap. eapply Forall_impl; [done|]. intros cm (c & E & Hok & H0 & H1 & H2 & _)%cache_path. by apply (Hout c).
  - constructor; [|constructor]. by apply (Hout ["jobs"; "store"]); [|by repeat constructor|..|intros P%prefix_cons_inv_1].
Qed.

(** [C18] The command of a build runs only in its sandbox. Once it is executed, whatever the
    kernel answered before, the old root is detached and nothing is mounted
    since; what can be written comes from the work tree's root, a fresh tmpfs,
    the pseudo-devices, the build's own caches and its process table; every path below
    /jobs/store is served read-only from the staged store, wherever the caches
    are mounted; every path below $out is served by the directory the executor
    hands out; and the process has a network of its own. *)
Theorem sandbox_confined json unmarshal spec command ta ta' a v fuel tc t :
  assembleSandbox json spec command [] ta = (ta', Ok a) → is_rooted (as_work a) = true →
  Forall (λ cm, ValidateCachePath (cm_Path cm) = Ok tt) (bs_Caches spec) →
  (load_config unmarshal v tc).2 = Ok (Some (strip (as_cfg a))) →
  Init unmarshal fuel v tc = (t, Ok (Some Executed)) →
  ∃ n s, cf_NewRoot (as_cfg a) = abs n ∧ t = tc ++ s ∧ confined (abs n) tc s (build_sources (as_work a) spec) ∧
    (∀ q, serving (play tc s []) (n ++ ["jobs"; "store"] ++ q) = Some (mkEnt (path_Join (as_work a) "store") (abs (n ++ ["jobs"; "store"])) true)) ∧
    (∀ q, serving (play tc s []) (n ++ ["build"; "out"] ++ q) = Some (mkEnt (abs n) (abs n) false)) ∧
    as_outDir a = abs (n ++ ["build"; "out"]) ∧ has_flag (cloneflags (cf_Namespaces (as_cfg a))) CLONE_NEWNET = true.
Proof.
  intros (devs & Hd & Ea & Eo)%assemble_ok Hr Hc Hl E. rewrite Ea in *. rewrite Eo.
  pose proof (build_confinable json spec command (as_work a) devs (as_cg a) Hr Hd) as Hb.
  destruct (executed_confined _ _ _ _ _ _ Hb Hl E) as (s & -> & Hs & [Hw Hleft]).
  destruct (root_abs _ Hr) as (n & Hn & En). cbn [strip build_config cf_NewRoot] in Hleft. rewrite En in *.
  exists n, s. split_and!; [done|done| | | | |done].
  - constructor; [|done]. intros e He Hro. apply (build_open json spec command (as_work a) devs (as_cg a) Hd). rewrite En. by apply Hw.
  - intros q. eapply (serving_last _ _ n _ (bind_ro (path_Join (as_work a) "store") sandboxStoreDir) ["jobs"; "store"]); [exact Hs|done|done| |done|by repeat constructor|by intros P%prefix_cons_inv_1|done].
    cbn [strip build_config cf_Mounts]. by rewrite app_nil_l, !(assoc_L (++)).
  - intros q. eapply serving_root; [exact Hs|done|done|by intros P%prefix_cons_inv_1|]. by apply build_out_root.
  - change sandboxOutDir with (abs ["build"; "out"]). apply Join_abs_abs; [done|by repeat constructor].
Qed.

(** ** Imports *)

Lemma plan_ok root shellDir binDir storeDir scratch k spec t t' ms env : importMountPlan root shellDir binDir storeDir scratch k spec t = (t', Ok (ms, env)) →
  ∃ devs ca, Forall is_device devs ∧ ms = import_binds spec k shellDir binDir storeDir scratch ++ devs ++ ca_bind ca ∧ env = importEnv spec (storeShellDir k) ca.
Proof.
  unfold importMountPlan. intros (t1 & [] & _ & (t2 & devs & Hd%hermetic_devices & (t3 & ca & _ & [= _ <- <-])%bind_ok)%bind_ok)%bind_ok. eauto.
Qed.

Definition import_sources (root scratch : string) (spec : ExecSpec) : list string :=
  "proc" :: root :: es_OutputDir spec :: scratch :: ((λ d, "/dev/" +:+ d) <$> devices).

Lemma import_flags spec k shellDir binDir storeDir scratch devs ca : Forall is_device devs →
  Forall (λ m, m_Flags m = 0%Z) (import_binds spec k shellDir binDir storeDir scratch ++ devs ++ ca_bind ca).
Proof.
  intros Hd. rewrite !Forall_app. split_and!; [|by apply device_flags|unfold ca_bind; case_match; by repeat constructor].
  unfold import_binds. rewrite !Forall_app. split_and!; repeat case_match; by repeat constructor.
Qed.

Lemma import_open spec root k shellDir binDir storeDir scratch devs ca env cg : Forall is_device devs →
  open_sources (strip (import_config spec root (import_binds spec k shellDir binDir storeDir scratch ++ devs ++ ca_bind ca) env cg)) ⊆ import_sources root scratch spec.
Proof.
  intros Hd x. unfold open_sources, import_sources. cbn [strip import_config cf_NewRoot cf_Mounts].
  rewrite !elem_of_cons. intros [->|[->|Hx]]; [by left|by right; left|]. right. right.
  apply list_elem_of_fmap in Hx as (m & -> & [Hro Hm]%list_elem_of_filter).
  apply elem_of_app in Hm as [Hm|[Hm|Hm]%elem_of_app].
  - unfold import_binds in Hm. apply elem_of_app in Hm as [Hm|[Hm|Hm]%elem_of_app].
    + case_match; [by apply elem_of_nil in Hm|]. apply list_elem_of_singleton in Hm as ->. done.
    + repeat (apply elem_of_cons in Hm as [->|Hm]; [done || (by left) || (by right; left)|]). by apply elem_of_nil in Hm.
    + case_match; [by apply elem_of_nil in Hm|]. apply list_elem_of_singleton in Hm as ->. done.
  - do 2 right. rewrite Forall_forall in Hd. destruct (Hd _ Hm) as (d & Hin & ->). apply list_elem_of_fmap. by exists d.
  - unfold ca_bind in Hm. case_match; [by apply elem_of_nil in Hm|]. apply list_elem_of_singleton in Hm as ->. done.
Qed.

(** The variables an import may see, wherever their values are from. *)
Definition import_names : list string := ["PATH"; "HOME"; "TMPDIR"; "JOBS_OUTPUT_DIR"; "JOBS_SECRETS_FILE"; "SSL_CERT_FILE"].

Lemma pass_hosts l : ∀ m k v, foldl pass_host m l !! k = Some v → m !! k = Some v ∨ (k ∈ l ∧ h_env !! k = Some v).
Proof.
  induction l as [|n l IH]; intros m k v E; [by left|]. simpl in E. apply IH in E as [E|[Hin E]]; [|right; split; [by right|done]].
  unfold pass_host in E. destruct (h_env !! n) as [x|] eqn:En; [|by left]. destruct (String.eqb x ""); [by left|].
  destruct (decide (k = n)) as [->|Hne]; [rewrite lookup_insert_eq in E; right; split; [left|congruence]|rewrite lookup_insert_ne in E by done; by left].
Qed.

Lemma insert_named (m : gmap string string) n x k v (P : Prop) : n ∈ import_names → (m !! k = Some v → P ∨ k ∈ import_names) → <[n := x]> m !! k = Some v → P ∨ k ∈ import_names.
Proof. intros Hn Hm E. destruct (decide (k = n)) as [->|Hne]; [by right|]. rewrite lookup_insert_ne in E by done. auto. Qed.

Lemma import_var spec shell ca k v : import_vars spec shell ca !! k = Some v →
  (es_Env spec !! k = Some v ∨ (k ∈ importPassEnv ∧ h_env !! k = Some v)) ∨ k ∈ import_names.
Proof.
  unfold import_vars. set (m0 := <["TMPDIR" := _]> _). set (P := es_Env spec !! k = Some v ∨ (k ∈ importPassEnv ∧ h_env !! k = Some v)).
  assert (H1 : (es_Env spec ∪ foldl pass_host m0 importPassEnv) !! k = Some v → P ∨ k ∈ import_names).
  { intros [E|[_ E]]%lookup_union_Some_raw; [by left; left|]. apply pass_hosts in E as [E|E]; [|by left; right]. right. unfold m0 in E.
    repeat (apply lookup_insert_Some in E as [[<- _]|[_ E]]; [unfold import_names; set_solver|]). apply lookup_singleton_Some in E as [<- _]. by left. }
  set (m1 := _ ∪ _) in *. clearbody m1.
  assert (H2 : (if bool_decide (is_Some (es_Env spec !! "JOBS_OUTPUT_DIR")) then <["JOBS_OUTPUT_DIR" := importOutDir]> m1 else m1) !! k = Some v → P ∨ k ∈ import_names).
  { case_bool_decide; [|done]. apply insert_named; [by do 3 right; left|done]. }
  set (m2 := if bool_decide _ then _ else _) in *. clearbody m2.
  assert (H3 : (if String.eqb (es_SecretsFile spec) "" then m2 else <["JOBS_SECRETS_FILE" := importSecretsFile]> m2) !! k = Some v → P ∨ k ∈ import_names).
  { case_match; [done|]. apply insert_named; [by do 4 right; left|done]. }
  set (m3 := if String.eqb _ _ then _ else _) in *. clearbody m3. destruct (String.eqb ca ""); [done|].
  intros [_ E]%lookup_delete_Some. revert E. apply insert_named; [by do 5 right; left|done].
Qed.

(** A fetch runs only in its sandbox: its fetcher, its shell, the store, secrets and
    certificates cannot be written, only its output, its scratch directory, the
    pseudo-devices and the discarded root; no variable of the runner's environment
    passes but those of the network and its trust; the network is kept. *)
Theorem import_confined unmarshal root shellDir binDir storeDir scratch k spec ta ta' ms env cg v fuel tc t : root ≠ "" →
  importMountPlan root shellDir binDir storeDir scratch k spec ta = (ta', Ok (ms, env)) →
  (load_config unmarshal v tc).2 = Ok (Some (strip (import_config spec root ms env cg))) →
  Init unmarshal fuel v tc = (t, Ok (Some Executed)) →
  (∃ s, t = tc ++ s ∧ confined root tc s (import_sources root scratch spec)) ∧
  (∀ line, line ∈ env → ∃ n x, line = env_line n x ∧
    ((es_Env spec !! n = Some x ∨ (n ∈ importPassEnv ∧ h_env !! n = Some x)) ∨ n ∈ import_names)) ∧
  has_flag (cloneflags (cf_Namespaces (import_config spec root ms env cg))) CLONE_NEWNET = false.
Proof.
  intros Hr (devs & ca & Hd & -> & ->)%plan_ok Hl E. split_and!; [| |done].
  - assert (Hc : confinable (strip (import_config spec root (import_binds spec k shellDir binDir storeDir scratch ++ devs ++ ca_bind ca) (importEnv spec (storeShellDir k) ca) cg))).
    { constructor; [done..|]. by apply import_flags. }
    destruct (executed_confined _ _ _ _ _ _ Hc Hl E) as (s & -> & _ & [Hw Hleft]). exists s. split; [done|]. constructor; [|done].
    intros e He Hro. by eapply import_open, Hw.
  - intros line Hin. unfold importEnv in Hin. rewrite SortStrings_perm in Hin. apply list_elem_of_fmap in Hin as ([n x] & -> & Hin%elem_of_map_to_list).
    exists n, x. split; [done|]. by apply import_var in Hin.
Qed.

(** ** Remounts *)

Lemma land_lor_r a b : Z.land b (Z.lor a b) = b.
Proof. apply Z.bits_inj'. intros n Hn. rewrite Z.land_spec, Z.lor_spec. by destruct (Z.testbit a n), (Z.testbit b n). Qed.

Lemma translated st f : f ∈ flag_table → has_flag st f.1 = true → Z.land f.2 (translate_flags st) = f.2.
Proof.
  assert (Hsub : ∀ l acc g, (g ∈ l ∧ has_flag st g.1 = true ∨ Z.land g.2 acc = g.2) →
    Z.land g.2 (foldl (λ fl (f : Z * Z), if (Z.land st f.1 =? 0)%Z then fl else Z.lor fl f.2) acc l) = g.2).
  { induction l as [|x l IH]; intros acc g Hg; simpl; [destruct Hg as [[Hin _]|]; [by apply elem_of_nil in Hin|done]|].
    apply IH. destruct Hg as [[[->|Hin]%elem_of_cons Hf]|Hg]; [|by left|].
    - right. unfold has_flag in Hf. destruct (Z.land st x.1 =? 0)%Z; [done|]. by rewrite land_lor_r.
    - right. destruct (Z.land st x.1 =? 0)%Z; [done|]. rewrite Z.land_lor_distr_r, Hg. apply Z.bits_inj'. intros n Hn. rewrite Z.lor_spec, Z.land_spec. by destruct (Z.testbit g.2 n). }
  intros Hin Hf. unfold translate_flags. pose proof (Hsub flag_table 0%Z f (or_introl (conj Hin Hf))) as E. case_match; [|done].
  rewrite Z.land_lor_distr_r, E. apply Z.bits_inj'. intros n Hn. rewrite Z.lor_spec, Z.land_spec. by destruct (Z.testbit f.2 n).
Qed.

(** A read-only remount repeats every flag the mount has, and its access-time
    mode, so that a kernel that locks flags finds none cleared. *)
Theorem remount_keeps_flags m st : m_Flags m = 0%Z →
  (∀ f, f ∈ flag_table → has_flag st f.1 = true → Z.land f.2 (ro_flags m (translate_flags st)) = f.2) ∧
  Z.land (ro_flags m (translate_flags st)) atimeMask = Z.land (translate_flags st) atimeMask ∧
  Z.land (ro_flags m (translate_flags st)) MS_RDONLY = MS_RDONLY.
Proof.
  intros Hm. set (inh := translate_flags st).
  assert (E : ro_flags m inh = Z.lor 20513 inh) by (unfold ro_flags; rewrite Hm; done). rewrite E. split_and!.
  - intros f Hin Hf. pose proof (translated st f Hin Hf) as Ht. fold inh in Ht. rewrite Z.land_lor_distr_r, Ht.
    apply Z.bits_inj'. intros n Hn. rewrite Z.lor_spec, Z.land_spec. destruct (Z.testbit f.2 n); simpl; [apply orb_true_r|done].
  - rewrite Z.land_lor_distr_l. done.
  - rewrite Z.land_lor_distr_l. change (Z.land 20513 MS_RDONLY) with MS_RDONLY. apply Z.bits_inj'. intros n Hn.
    rewrite Z.lor_spec, Z.land_spec. by destruct (Z.testbit MS_RDONLY n), (Z.testbit inh n).
Qed.

(** ** The command is executed or given up *)

Fixpoint interrupted (pre s : list call) : nat :=
  match s with
  | [] => 0
  | c :: s => ((match c, h_fails pre c with CExec _ _, Some EINTR => 1 | _, _ => 0 end) + interrupted (pre ++ [c]) s)%nat
  end.

Lemma exec_fuel fuel : ∀ retries delay cfg t t', exec_loop fuel retries delay cfg t = (t', Ok None) →
  ∃ s, t' = t ++ s ∧ (fuel <= interrupted t s + retries)%nat.
Proof.
  induction fuel as [|fuel IH]; intros retries delay cfg t t' E; cbn [exec_loop] in E.
  - injection E as <-. exists []. rewrite app_nil_r. split; [done|lia].
  - unfold mbind, K_bind, attempt at 1 in E. cbn beta iota in E. destruct (h_fails t _) as [[]|] eqn:Ef; try done.
    + apply IH in E as (s & -> & Hs). exists (CExec (cf_Command cfg) (cf_Env cfg) :: s). split; [by rewrite <- (assoc_L (++))|]. cbn [interrupted]. rewrite Ef. lia.
    + destruct retries as [|retries]; [done|]. unfold attempt in E. cbn beta iota in E. apply IH in E as (s & -> & Hs).
      exists (CExec (cf_Command cfg) (cf_Env cfg) :: CSleep delay :: s). split; [by rewrite <- !(assoc_L (++))|]. cbn [interrupted]. rewrite Ef. lia.
Qed.

Lemma exec_total fuel : ∀ retries delay cfg t, ∃ t' r, exec_loop fuel retries delay cfg t = (t', Ok r).
Proof.
  induction fuel as [|fuel IH]; intros retries delay cfg t; cbn [exec_loop]; [by eexists _, _|].
  unfold mbind, K_bind, attempt at 1. cbn beta iota. destruct (h_fails t _) as [[]|]; try by eexists _, _.
  - apply IH.
  - destruct retries; [by eexists _, _|]. unfold attempt. cbn beta iota. apply IH.
Qed.

(** A kernel that interrupts execve at most [n] times sees the loop end, the
    command executed or the child gone. *)
Theorem exec_terminates n cfg t fuel : (∀ s, interrupted t s <= n)%nat → (n + 10 < fuel)%nat →
  ∃ t' f, exec_loop fuel 10 5 cfg t = (t', Ok (Some f)).
Proof.
  intros Hn Hf. destruct (exec_total fuel 10 5 cfg t) as (t' & [f|] & E); [eauto|].
  destruct (exec_fuel _ _ _ _ _ _ E) as (s & _ & Hs). specialize (Hn s). lia.
Qed.

(** ** Control groups *)

Lemma base_abs n s : Forall name_ok (n ++ [s]) → path_Base (abs (n ++ [s])) = s.
Proof.
  intros Hn. unfold path_Base. destruct (String.eqb_spec (abs (n ++ [s])) "") as [|_]; [done|].
  by rewrite psegs_abs, last_snoc.
Qed.

(** Parking the process does not move the directory its job groups are made in:
    they become siblings of the holder. *)
Theorem parked_same_dir n : Forall name_ok n → last n ≠ Some cgroupLeafHolderName →
  delegatedDirFromRel (abs (n ++ [cgroupLeafHolderName])) = delegatedDirFromRel (abs n).
Proof.
  intros Hn Hl. assert (Hh : Forall name_ok [cgroupLeafHolderName]) by by repeat constructor.
  assert (Hs : Forall name_ok ["sys"; "fs"; "cgroup"]) by by repeat constructor.
  unfold delegatedDirFromRel. change "/sys/fs/cgroup" with (abs ["sys"; "fs"; "cgroup"]).
  rewrite !Join_abs_abs by (done || by apply Forall_app). rewrite (assoc_L (++)).
  rewrite base_abs by (by rewrite !Forall_app). rewrite String.eqb_refl, Dir_abs by (by rewrite !Forall_app).
  destruct n as [|x n _] using rev_ind; [done|]. rewrite (assoc_L (++)). rewrite base_abs by (by rewrite <- (assoc_L (++)); apply Forall_app).
  rewrite last_snoc in Hl. by destruct (String.eqb_spec x cgroupLeafHolderName) as [->|].
Qed.

(** ** Which calls a computation makes *)

Definition says {A} (P : call → Prop) (m : K A) : Prop := ∀ t t' r, m t = (t', r) → ∃ s, t' = t ++ s ∧ Forall P s.

Lemma says_ret {A} P (a : A) : says P (mret a).
Proof. intros t t' r [= <- _]. exists []. by rewrite app_nil_r. Qed.

Lemma says_fail {A} P e : says P (failK e : K A).
Proof. intros t t' r [= <- _]. exists []. by rewrite app_nil_r. Qed.

Lemma says_bind {A B} P (m : K A) (f : A → K B) : says P m → (∀ a, says P (f a)) → says P (m ≫= f).
Proof.
  intros Hm Hf t t' r E. unfold mbind, K_bind in E. destruct (m t) as [t1 [a|e]] eqn:E1; apply Hm in E1 as (s1 & -> & H1).
  - apply Hf in E as (s2 & -> & H2). exists (s1 ++ s2). split; [by rewrite (assoc_L (++))|by apply Forall_app].
  - injection E as <- _. by exists s1.
Qed.

Lemma says_one {A} P c (f : list call → result string A) : P c → says P (λ t, (t ++ [c], f t)).
Proof. intros Hc t t' r [= <- _]. exists [c]. by repeat constructor. Qed.

Lemma says_recover {A} P (m : K A) : says P m → says P (recover m).
Proof. intros Hm t t' r E. unfold recover in E. destruct (m t) as [t1 r1] eqn:E1. injection E as <- _. by apply Hm in E1. Qed.

Lemma says_finally {A} P (m : K A) c : says P m → says P c → says P (finally m c).
Proof.
  intros Hm Hc t t' r E. unfold finally in E. destruct (m t) as [t1 r1] eqn:E1, (c t1) as [t2 r2] eqn:E2. cbn [fst snd] in E. rewrite E2 in E. injection E as <- _.
  apply Hm in E1 as (s1 & -> & H1). apply Hc in E2 as (s2 & -> & H2). exists (s1 ++ s2). split; [by rewrite (assoc_L (++))|by apply Forall_app].
Qed.

Lemma says_each {A} P (f : A → K unit) l : (∀ x, says P (f x)) → says P (each f l).
Proof. intros Hf. induction l as [|x l IH]; cbn [each]; [apply says_ret|]. by apply says_bind. Qed.

Lemma says_cg_FD P cg : (∀ d, P (COpenDir d)) → says P (cg_FD cg).
Proof. intros HP. destruct cg; [|apply says_ret]. apply says_bind; [by apply says_one|intros ?; apply says_ret]. Qed.

(** ** The child runs what its parent was given *)

Context (marshal : Config → option string).

(** The calls a parent makes before a start leave files alone. *)
Definition leaves_files (c : call) : Prop := match c with COpenDir _ | CCloseDir _ | CStart _ => True | _ => False end.
Definition not_start (c : call) : Prop := match c with CStart _ => False | _ => True end.

(** In [s] the children started satisfy [P], after calls that touch no file. *)
Inductive starting (P : child → Prop) : list call → Prop :=
| starting_rest s : Forall not_start s → starting P s
| starting_more c s : leaves_files c → (∀ ch, c = CStart ch → P ch) → starting P s → starting P (c :: s).

Lemma starting_split P s : starting P s → ∀ t1 ch t2, s = t1 ++ CStart ch :: t2 → P ch ∧ Forall leaves_files t1.
Proof.
  induction 1 as [s Hs|c s Hc HP _ IH]; intros t1 ch t2 E.
  - rewrite E in Hs. apply Forall_app in Hs as [_ Hs]. by inversion Hs.
  - destruct t1 as [|x t1]; injection E as -> E; [auto|]. destruct (IH _ _ _ E). split; [done|by constructor].
Qed.

Lemma starting_app P s s' : starting P s → Forall not_start s' → starting P (s ++ s').
Proof. induction 1; intros Hs'; [constructor; by apply Forall_app|]. simpl. constructor 2; auto. Qed.

Definition startK {A} (P : child → Prop) (m : K A) : Prop := ∀ t t' r, m t = (t', r) → ∃ s, t' = t ++ s ∧ starting P s.

Definition quiet (P : child → Prop) (c : call) : Prop := leaves_files c ∧ ∀ ch, c = CStart ch → P ch.

Lemma startK_rest {A} P (m : K A) : says not_start m → startK P m.
Proof. intros Hm t t' r (s & -> & Hs)%Hm. exists s. split; [done|by constructor]. Qed.

Lemma startK_bind {A B} P (m : K A) (f : A → K B) : says (quiet P) m → (∀ a, startK P (f a)) → startK P (m ≫= f).
Proof.
  intros Hm Hf t t' r E. unfold mbind, K_bind in E. assert (Hq : ∀ s s', Forall (quiet P) s → starting P s' → starting P (s ++ s')).
  { intros s s' Hs Hs'. induction Hs as [|c s [Hc HP] _ IH]; [done|]. by constructor 2. }
  destruct (m t) as [t1 [a|e]] eqn:E1; apply Hm in E1 as (s1 & -> & H1).
  - apply Hf in E as (s2 & -> & H2). exists (s1 ++ s2). split; [by rewrite (assoc_L (++))|by apply Hq].
  - injection E as <- _. exists s1. split; [done|]. rewrite <- (app_nil_r s1). apply Hq; [done|by constructor].
Qed.

Lemma startK_then {A B} P (m : K A) (f : A → K B) : startK P m → (∀ a, says not_start (f a)) → startK P (m ≫= f).
Proof.
  intros Hm Hf t t' r E. unfold mbind, K_bind in E. destruct (m t) as [t1 [a|e]] eqn:E1; apply Hm in E1 as (s1 & -> & H1).
  - apply Hf in E as (s2 & -> & H2). exists (s1 ++ s2). split; [by rewrite (assoc_L (++))|by apply starting_app].
  - injection E as <- _. by exists s1.
Qed.

Definition child_of (cfg : Config) (payload : string) (ch : child) : Prop := ∃ fd, ch = child_cmd cfg payload fd.

Lemma start_calls cfg payload : startK (child_of cfg payload) (start_and_wait cfg payload).
Proof.
  unfold start_and_wait. apply startK_then; [|intros _; by apply says_one]. unfold start_child.
  assert (Hq : ∀ fd, quiet (child_of cfg payload) (CStart (child_cmd cfg payload fd))) by (intros fd; split; [done|]; intros ch [= <-]; by exists fd).
  apply startK_bind; [by apply says_cg_FD|]. intros fd. apply startK_bind; [by apply says_one|]. intros e. apply startK_bind.
  { destruct fd; [|apply says_ret]. apply says_bind; [by apply says_one|intros ?; apply says_ret]. }
  intros _. destruct e as [err|]; [|apply startK_rest, says_ret]. apply startK_bind; [by apply says_cg_FD|].
  intros [d|]; [|apply startK_rest, says_fail]. destruct (isCgroupCloneUnsupported err); [|apply startK_rest, says_fail].
  apply startK_bind; [by apply says_one|]. intros pid. apply startK_rest, says_bind; [|intros ?; apply says_ret].
  apply says_recover. destruct (cf_Cgroup cfg); [by apply says_one|apply says_ret].
Qed.

(** Files read back as they were written, while nobody touches files. *)
Definition reads_back : Prop := ∀ pre f d s, h_fails pre (CWriteFile f d) = None → Forall leaves_files s →
  h_fails (pre ++ CWriteFile f d :: s) (CReadFile f) = None ∧ h_str (pre ++ CWriteFile f d :: s) (CReadFile f) = d.

Lemma load_inline unmarshal s t : HasPrefix s "{" = true → load_config unmarshal s t = (t, Ok (unmarshal s)).
Proof. intros (r & ->)%HasPrefix_iff. done. Qed.

Lemma spill_calls cfg name j t t' r :
  finally (must "spill sandbox config" (CWriteFile name j);; start_and_wait cfg ("@" +:+ name)) (attempt (CRemove name);; mret tt) t = (t', r) →
  ∃ s, t' = t ++ CWriteFile name j :: s ∧ starting (child_of cfg ("@" +:+ name)) s ∧ (h_fails t (CWriteFile name j) = None ∨ Forall not_start s).
Proof.
  unfold finally. set (m := must _ _ ≫= _). destruct (m t) as [t1 r1] eqn:E1. intros [= <- _].
  assert (Hs : ∃ s, t1 = t ++ CWriteFile name j :: s ∧ starting (child_of cfg ("@" +:+ name)) s ∧ (h_fails t (CWriteFile name j) = None ∨ Forall not_start s)).
  { unfold m, mbind, K_bind, must in E1. destruct (h_fails t (CWriteFile name j)).
    - injection E1 as <- _. exists []. split_and!; [done|by constructor|right; constructor].
    - apply start_calls in E1 as (s & -> & Hs). exists s. split_and!; [by rewrite <- (assoc_L (++))|done|by left]. }
  destruct Hs as (s & -> & Hs & Hor). exists (s ++ [CRemove name]). split_and!.
  - cbn. by rewrite <- (assoc_L (++)).
  - apply starting_app; [done|by repeat constructor].
  - destruct Hor; [by left|right; by apply Forall_app; split; [|repeat constructor]].
Qed.

Lemma load_spilled unmarshal cfg j name pre s : reads_back → h_fails pre (CWriteFile name j) = None → Forall leaves_files s → unmarshal j = Some (strip cfg) →
  (load_config unmarshal ("@" +:+ name) (pre ++ CWriteFile name j :: s)).2 = Ok (Some (strip cfg)).
Proof. intros Hrb Hw Hs Hu. destruct (Hrb _ _ _ _ Hw Hs) as [R1 R2]. change ("@" +:+ name) with (String "@" name). unfold load_config, try_read, mbind, K_bind. rewrite R1, R2. cbn. by rewrite Hu. Qed.

(** Whether its configuration fits the environment or is spilled to a file, every
    child a run starts loads the configuration the run was given. *)
Theorem child_sees_config unmarshal cfg j t t' r : marshal cfg = Some j → HasPrefix j "{" = true → unmarshal j = Some (strip cfg) → reads_back →
  Run marshal cfg t = (t', r) → ∀ t1 ch t2, t' = t ++ t1 ++ CStart ch :: t2 →
  ∃ v, ch_env ch = Environ ++ [env_line childEnv v] ∧ (load_config unmarshal v (t ++ t1 ++ [CStart ch])).2 = Ok (Some (strip cfg)) ∧
    ((Z.of_nat (String.length v) <= maxInlineConfig)%Z ∨ ∃ name, v = "@" +:+ name).
Proof.
  intros Hj Hb Hu Hrb E t1 ch t2 Et. unfold Run in E. rewrite Hj in E. destruct (Z.ltb_spec maxInlineConfig (Z.of_nat (String.length j))) as [Hlen|Hlen].
  - unfold mbind at 1, K_bind at 1, ask_str in E. set (ct := CCreateTemp _) in *. destruct (h_fails t ct).
    { injection E as <- _. apply app_inv_head in Et. destruct t1 as [|? [|??]]; discriminate Et. }
    set (name := h_str t ct) in *. apply spill_calls in E as (s & -> & Hs & Hor). rewrite <- (assoc_L (++)) in Et. apply app_inv_head in Et.
    destruct t1 as [|c1 [|c2 t1]]; [discriminate Et..|]. injection Et as <- <- Et.
    destruct (starting_split _ _ Hs _ _ _ Et) as [[fd ->] Hq]. exists ("@" +:+ name). split_and!; [done| |by right; exists name].
    destruct Hor as [Hw|Hn]; [|rewrite Et in Hn; apply Forall_app in Hn as [_ Hn]; by inversion Hn].
    set (c := CStart _). replace (t ++ _ ++ [c]) with ((t ++ [ct]) ++ CWriteFile name j :: (t1 ++ [c])) by (by rewrite <- (assoc_L (++))).
    apply load_spilled; [done..|by apply Forall_app; split; [|repeat constructor]|done].
  - apply start_calls in E as (s & -> & Hs). apply app_inv_head in Et. destruct (starting_split _ _ Hs _ _ _ Et) as [[fd ->] _].
    exists j. split_and!; [done| |by left]. rewrite load_inline by done. cbn. by rewrite Hu.
Qed.

(** ** What executors leave behind *)

(** The files, directories and control groups that exist: made, and neither
    removed nor renamed to where they are kept; a removal that fails removes
    nothing. *)
Definition step_left (pre : list call) (c : call) (left : list string) : list string :=
  if h_fails pre c then left else
  match c with
  | CMkdirTemp _ _ | CCreateTemp _ => h_str pre c :: left
  | CMkdir d => d :: left
  | CRemove d | CRemoveAll d | CRename d _ => filter (λ x, x ≠ d) left
  | _ => left
  end.

Fixpoint left_after (pre s : list call) (left : list string) : list string :=
  match s with [] => left | c :: s => left_after (pre ++ [c]) s (step_left pre c left) end.

(** The removal of [d] was called and failed. *)
Definition not_removed (pre s : list call) (d : string) : Prop :=
  ∃ s1 c s2, s = s1 ++ c :: s2 ∧ (c = CRemove d ∨ c = CRemoveAll d) ∧ h_fails (pre ++ s1) c ≠ None.

(** What was made and whose removal was not even called. *)
Definition step_held (pre : list call) (c : call) (held : list string) : list string :=
  match c with
  | CMkdirTemp _ _ | CCreateTemp _ => if h_fails pre c then held else h_str pre c :: held
  | CMkdir d => if h_fails pre c then held else d :: held
  | CRemove d | CRemoveAll d => filter (λ x, x ≠ d) held
  | CRename d _ => if h_fails pre c then held else filter (λ x, x ≠ d) held
  | _ => held
  end.

Fixpoint held_after (pre s : list call) (held : list string) : list string :=
  match s with [] => held | c :: s => held_after (pre ++ [c]) s (step_held pre c held) end.

Lemma held_app s1 : ∀ pre s2 h, held_after pre (s1 ++ s2) h = held_after (pre ++ s1) s2 (held_after pre s1 h).
Proof. induction s1 as [|c s1 IH]; intros pre s2 h; simpl; [by rewrite app_nil_r|]. rewrite IH. by rewrite <- (assoc_L (++)). Qed.

(** What exists is held, or its removal failed. *)
Lemma left_held s : ∀ pre h k (F : string → Prop), (∀ d, d ∈ k → d ∈ h ∨ F d) →
  ∀ d, d ∈ left_after pre s k → d ∈ held_after pre s h ∨ F d ∨ not_removed pre s d.
Proof.
  induction s as [|c s IH]; intros pre h k F Hk d Hd; simpl in *; [destruct (Hk d Hd); auto|].
  assert (Hstep : ∀ x, x ∈ step_left pre c k → x ∈ step_held pre c h ∨ F x ∨ ((c = CRemove x ∨ c = CRemoveAll x) ∧ h_fails pre c ≠ None)).
  { intros x. unfold step_left. destruct (h_fails pre c) as [e|] eqn:Ef.
    - intros Hx. destruct (Hk x Hx) as [Hh|HF]; [|by right; left].
      destruct c; simpl; rewrite ?Ef; auto.
      all: destruct (decide (x = p)) as [->|Hne]; [right; right; split; [auto|done]|left; by apply list_elem_of_filter].
    - destruct c; simpl; rewrite ?Ef; rewrite ?elem_of_cons, ?list_elem_of_filter; intros Hx; naive_solver. }
  destruct (IH (pre ++ [c]) (step_held pre c h) (step_left pre c k) (λ x, F x ∨ ((c = CRemove x ∨ c = CRemoveAll x) ∧ h_fails pre c ≠ None)))
    with (d := d) as [Hx|[[Hx|[H1 H2]]|(s1 & c' & s2 & -> & H1 & H2)]]; [done|done|by left|by right; left|..]; right; right.
  - exists [], c, s. by rewrite app_nil_r.
  - exists (c :: s1), c', s2. split; [done|]. split; [done|]. by rewrite <- (assoc_L (++)) in H2.
Qed.

(** From holding only [X] to holding only [Y] of the result. *)
Definition holds {A} (m : K A) (X : string → Prop) (Y : result string A → string → Prop) : Prop :=
  ∀ t t' r h, Forall X h → m t = (t', r) → ∃ s, t' = t ++ s ∧ Forall (Y r) (held_after t s h).

Definition makes_nothing (c : call) : Prop := match c with CMkdirTemp _ _ | CCreateTemp _ | CMkdir _ => False | _ => True end.

Lemma calm_held s : ∀ pre h X, Forall makes_nothing s → Forall X h → Forall X (held_after pre s h).
Proof.
  induction s as [|c s IH]; intros pre h X Hs Hh; [done|]. inversion Hs; subst. simpl. apply IH; [done|].
  assert (Hfilter : ∀ d, Forall X (filter (λ x, x ≠ d) h)).
  { intros d. apply Forall_forall. intros x [_ Hx]%list_elem_of_filter. rewrite Forall_forall in Hh. auto. }
  destruct c; try done; simpl; auto. by destruct (h_fails pre _).
Qed.

Lemma holds_calm {A} (m : K A) (X : string → Prop) : says makes_nothing m → holds m X (λ _, X).
Proof. intros Hm t t' r h Hh (s & -> & Hs)%Hm. exists s. split; [done|]. by apply calm_held. Qed.

Lemma holds_ret {A} (a : A) (X : string → Prop) (Y : result string A → string → Prop) : (∀ x, X x → Y (Ok a) x) → holds (mret a) X Y.
Proof. intros HY t t' r h Hh [= <- <-]. exists []. rewrite app_nil_r. split; [done|]. by eapply Forall_impl. Qed.

Lemma holds_fail {A} e (X : string → Prop) (Y : result string A → string → Prop) : (∀ x, X x → Y (Err e) x) → holds (failK e) X Y.
Proof. intros HY t t' r h Hh [= <- <-]. exists []. rewrite app_nil_r. split; [done|]. by eapply Forall_impl. Qed.

Lemma holds_weaken {A} (m : K A) (X X' : string → Prop) (Y Y' : result string A → string → Prop) : holds m X Y → (∀ d, X' d → X d) → (∀ r d, Y r d → Y' r d) → holds m X' Y'.
Proof.
  intros Hm HX HY t t' r h Hh E. destruct (Hm t t' r h) as (s & -> & Hs); [by eapply Forall_impl|done|]. exists s. split; [done|]. eapply Forall_impl; [done|]. auto.
Qed.

Lemma holds_bind {A B} (m : K A) (f : A → K B) X (Q : result string A → string → Prop) R :
  holds m X Q → (∀ a, holds (f a) (Q (Ok a)) R) → (∀ e d, Q (Err e) d → R (Err e) d) → holds (m ≫= f) X R.
Proof.
  intros Hm Hf He t t' r h Hh E. unfold mbind, K_bind in E. destruct (m t) as [t1 [a|e]] eqn:E1; destruct (Hm _ _ _ _ Hh E1) as (s1 & -> & H1).
  - destruct (Hf _ _ _ _ _ H1 E) as (s2 & -> & H2). exists (s1 ++ s2). split; [by rewrite (assoc_L (++))|]. by rewrite held_app.
  - injection E as <- <-. exists s1. split; [done|]. eapply Forall_impl; [done|]. auto.
Qed.

Lemma holds_then {A B} (m : K A) (f : A → K B) X R : says makes_nothing m → (∀ a, holds (f a) X R) → (∀ e d, X d → R (Err e) d) → holds (m ≫= f) X R.
Proof. intros Hm Hf He. eapply holds_bind; [by apply holds_calm|done|done]. Qed.

Lemma holds_recover {A} (m : K A) X Y : holds m X Y → holds (recover m) X (λ r d, ∃ r', r = Ok r' ∧ Y r' d).
Proof.
  intros Hm t t' r h Hh E. unfold recover in E. destruct (m t) as [t1 r1] eqn:E1. injection E as <- <-.
  destruct (Hm _ _ _ _ Hh E1) as (s & -> & Hs). exists s. split; [done|]. eapply Forall_impl; [done|]. cbn. eauto.
Qed.

Lemma holds_finally {A} (m : K A) c X Y Z : holds m X Y → (∀ r, holds c (Y r) (λ _, Z r)) → holds (finally m c) X Z.
Proof.
  intros Hm Hc t t' r h Hh E. unfold finally in E. destruct (m t) as [t1 r1] eqn:E1. cbn [fst snd] in E. destruct (c t1) as [t2 r2] eqn:E2. injection E as <- <-.
  destruct (Hm _ _ _ _ Hh E1) as (s1 & -> & H1). destruct (Hc _ _ _ _ _ H1 E2) as (s2 & -> & H2). exists (s1 ++ s2). split; [by rewrite (assoc_L (++))|]. by rewrite held_app.
Qed.

Lemma filter_not d h (X : string → Prop) : Forall X h → Forall (λ x, X x ∧ x ≠ d) (filter (λ x, x ≠ d) h).
Proof. intros Hh. apply Forall_forall. intros x [Hne Hx]%list_elem_of_filter. rewrite Forall_forall in Hh. auto. Qed.

Lemma holds_tmp w c X : (∃ a b, c = CMkdirTemp a b) ∨ (∃ a, c = CCreateTemp a) → holds (ask_str w c) X (λ r x, X x ∨ r = Ok x).
Proof.
  intros Hc t t' r h Hh [= <- <-]. exists [c]. split; [done|]. cbn [held_after].
  assert (E : step_held t c h = if h_fails t c then h else h_str t c :: h) by (by destruct Hc as [(a & b & ->)|(a & ->)]). rewrite E.
  destruct (h_fails t c); [|constructor; [by right|]]; (eapply Forall_impl; [done|]; by left).
Qed.

Lemma holds_removed {A} c (f : list call → result string A) X d : (∀ t h, step_held t c h = filter (λ x, x ≠ d) h) → holds (λ t, (t ++ [c], f t)) X (λ _ x, X x ∧ x ≠ d).
Proof. intros Hc t t' r h Hh [= <- _]. exists [c]. split; [done|]. cbn [held_after]. rewrite Hc. by apply filter_not. Qed.

Ltac calmly :=
  repeat first
    [ progress intros | apply says_ret | apply says_fail | apply says_recover | apply says_bind | apply says_each | by apply says_one
    | apply says_cg_FD | done | match goal with |- says _ (match ?x with _ => _ end) => destruct x end ].

Lemma calm_applets p : says makes_nothing (busyboxApplets p).
Proof. unfold busyboxApplets, exists_at. calmly. Qed.

Lemma calm_fill k shellDir tmp : says makes_nothing (fill_bin k shellDir tmp).
Proof. unfold fill_bin. apply says_bind; [by apply says_one|]. intros entries. apply says_bind; [apply calm_applets|]. calmly. Qed.

Lemma calm_devs root : says makes_nothing (hermeticDevMounts root).
Proof.
  unfold hermeticDevMounts, dev_link. apply says_bind; [calmly|]. intros _. apply says_bind; [calmly|]. intros _. generalize devices as l.
  induction l as [|d l IH]; cbn [dev_nodes]; [apply says_ret|]. unfold exists_at. calmly.
Qed.

Lemma calm_first l : says makes_nothing (first_regular l).
Proof. induction l as [|f l IH]; cbn [first_regular]; [apply says_ret|]. apply says_bind; [by apply says_one|]. intros []; [apply says_ret|done]. Qed.

Lemma calm_etc root : says makes_nothing (writeImportEtc root).
Proof.
  unfold writeImportEtc, writeHermeticEtc. apply says_bind; [calmly|]. intros _. apply says_bind; [unfold copy_etc, try_read; calmly|]. intros _.
  do 2 (apply says_bind; [calmly|]; intros _). unfold hostCABundle. destruct (h_env !! _) as [f|]; [|apply calm_first]. destruct (String.eqb f ""); [apply calm_first|].
  apply says_bind; [by apply says_one|]. intros []; [apply says_ret|apply calm_first].
Qed.

(** A computation that cannot fail. *)
Lemma holds_ok {A} (m : K A) X (Y : result string A → string → Prop) : (∀ t, ∃ t' a, m t = (t', Ok a)) → holds m X Y → holds m X (λ r x, ∃ a, r = Ok a ∧ Y r x).
Proof.
  intros Hok Hm t t' r h Hh E. destruct (Hm _ _ _ _ Hh E) as (s & -> & Hs). exists s. split; [done|]. eapply Forall_impl; [done|].
  destruct (Hok t) as (t1 & a & E1). rewrite E1 in E. injection E as _ <-. eauto.
Qed.

Lemma holds_removes p X : holds (removes p) X (λ r x, r = Ok tt ∧ X x ∧ x ≠ p).
Proof.
  unfold removes. eapply (holds_bind _ _ _ (λ r x, ∃ a, r = Ok a ∧ X x ∧ x ≠ p)).
  - apply holds_ok; [intros t; eexists _, _; reflexivity|]. by apply (holds_removed (CRemoveAll p) _ X p).
  - intros e. apply holds_ret. by intros x (? & _ & ?).
  - by intros e x (? & [=] & _).
Qed.

Lemma holds_closes cg X : holds (closes cg) X (λ r x, r = Ok tt ∧ X x ∧ Some x ≠ cg).
Proof.
  unfold closes. destruct cg as [d|]; [|apply (holds_bind _ _ _ (λ r x, (∃ a, r = Ok a) ∧ X x)); [|intros r; apply holds_ret; by intros x [_ ?]|by intros e x [[? [=]] _]]].
  - eapply holds_bind; [apply holds_recover; by apply (holds_removed (CRemove d) _ X d)| |by intros e x (? & [=] & ?)].
    intros r. apply holds_ret. intros x (r1 & _ & HX & Hne). split_and!; [done|done|congruence].
  - intros t t' r h Hh [= <- <-]. exists []. rewrite app_nil_r. split; [done|]. eapply Forall_impl; [done|]. eauto.
Qed.

Lemma cg_writes_ok dir l : ∀ t, ∃ t', (each (cg_write dir) l;; mret (Some dir)) t = (t', Ok (Some dir)).
Proof.
  assert (Hl : ∀ t, ∃ t', each (cg_write dir) l t = (t', Ok tt)).
  { induction l as [|fv l IH]; intros t; [by exists t|]. cbn [each]. unfold cg_write at 1. unfold mbind, K_bind, attempt. cbn beta iota. apply IH. }
  intros t. destruct (Hl t) as (t' & E). exists t'. unfold mbind, K_bind. by rewrite E.
Qed.

Lemma holds_cg_writes dir l X : holds (each (cg_write dir) l;; mret (Some dir)) (λ x, X x ∨ x = dir) (λ r x, X x ∨ r = Ok (Some x)).
Proof.
  intros t t' r h Hh E. assert (Hd : says makes_nothing (each (cg_write dir) l;; mret (Some dir))) by (unfold cg_write; calmly).
  destruct (cg_writes_ok dir l t) as (t1 & E1). rewrite E1 in E. injection E as -> <-. apply Hd in E1 as (s & -> & Hs). exists s. split; [done|].
  eapply Forall_impl; [by apply calm_held|]. intros x [HX| ->]; [by left|by right].
Qed.

Lemma holds_cgroup name lim X : holds (CreateCgroup name lim) X (λ r x, X x ∨ r = Ok (Some x)).
Proof.
  unfold CreateCgroup. apply holds_then; [unfold DetectCgroupDelegation, selfCgroupRel, canManageCgroup, try_read; calmly| |by left].
  intros [[parent ctrls]|]; [|eapply holds_weaken; [apply holds_calm, says_ret|intros ? HH; exact HH|by left]].
  apply holds_then; [calmly| |by left]. intros _. set (dir := path_Join parent name).
  apply (holds_bind _ _ _ (λ r x, X x ∨ x = dir ∧ r = Ok None)).
  - intros t t' r h Hh [= <- <-]. exists [CMkdir dir]. split; [done|]. simpl. destruct (h_fails t (CMkdir dir)); [|constructor; [by right|]]; (eapply Forall_impl; [done|]; by left).
  - intros e. assert (Hk : ∀ (Q : string → Prop), (∀ x, Q x → X x ∨ x = dir) → holds (each (cg_write dir) (limit_files ctrls lim);; mret (Some dir)) Q (λ r x, X x ∨ r = Ok (Some x))).
    { intros Q HQ. eapply holds_weaken; [apply holds_cg_writes|exact HQ|done]. }
    assert (Hf : ∀ e', holds (failK e' : K (option string)) (λ x, X x ∨ x = dir ∧ Ok e = @Ok string _ None) (λ r x, X x ∨ r = Ok (Some x)) ∨ e = None).
    { intros e'. destruct e; [left|by right]. eapply holds_weaken; [apply holds_calm, says_fail|intros ? HH; exact HH|]. intros r x [?|[_ [=]]]. by left. }
    destruct e as [[]|]; try (by apply Hk; intros x [?|[? _]]; [left|right]); by destruct (Hf ("mkdir cgroup " +:+ dir)).
  - intros e x [?|[_ [=]]]. by left.
Qed.

Lemma calm_start cfg payload : says makes_nothing (start_and_wait cfg payload).
Proof. unfold start_and_wait, start_child, wait_child, cg_Add. calmly. Qed.

Lemma holds_Run cfg X : holds (Run marshal cfg) X (λ _, X).
Proof.
  unfold Run. destruct (marshal cfg) as [j|]; [|apply holds_calm, says_fail]. destruct (_ <? _)%Z; [|apply holds_calm, calm_start].
  eapply holds_bind; [apply holds_tmp; right; by eexists| |by intros e x [?|[=]]].
  intros name. eapply holds_finally; [apply holds_calm, says_bind; [by apply says_one|intros ?; apply calm_start]|]. intros r. cbn beta.
  eapply holds_bind; [by apply (holds_removed (CRemove name) _ _ name)| |by intros e x [[?|[=]] ?]].
  intros e. apply holds_ret. intros x [[?|[= ->]] Hne]; done.
Qed.

Lemma holds_release {A} work cg (m : K A) X Y : holds m X Y →
  holds (release_failed work cg m) X (λ r x, match r with Ok a => Y (Ok a) x | Err _ => (∃ e, Y (Err e) x) ∧ Some x ≠ cg ∧ x ≠ work end).
Proof.
  intros Hm. unfold release_failed. eapply holds_bind; [by apply holds_recover| |by intros e x (? & [=] & ?)].
  intros [a|e]; cbn beta iota; [apply holds_ret; by intros x (r & [= <-] & HY)|].
  eapply holds_bind; [apply holds_closes| |by intros e' x ([=] & _)]. intros []. eapply holds_bind; [apply holds_removes| |by intros e' x ([=] & _)].
  intros []. apply holds_fail. intros x (_ & (_ & (r & [= <-] & HY) & H1) & H2). eauto.
Qed.

Definition asm_holds (r : result string assembled) (x : string) : Prop :=
  ∃ a, r = Ok a ∧ as_outDir a = path_Join (path_Join (as_work a) "root") sandboxOutDir ∧ (x = as_work a ∨ as_cg a = Some x).

Lemma calm_stage json spec root work : says makes_nothing (stage_root json spec root work).
Proof. unfold stage_root, provisionStore, materializeStore. calmly. Qed.

Lemma holds_assemble json spec command extra : holds (assembleSandbox json spec command extra) (λ _, False) asm_holds.
Proof.
  unfold assembleSandbox. eapply holds_bind; [apply holds_tmp; left; by eexists _, _| |by intros e x [[]|[=]]].
  intros work. eapply holds_bind; [apply holds_release, holds_calm, calm_stage| |by intros e x ((_ & [[]|[= ->]]) & _ & Hne)].
  intros binds. eapply holds_bind; [apply holds_release, holds_cgroup| |].
  2:{ by intros e x ((_ & [[[]|[= ->]]|[=]]) & _ & Hne). }
  intros cg. eapply holds_bind; [apply holds_release, holds_calm, says_bind; [apply calm_devs|intros ?; unfold writeHermeticEtc; calmly]| |].
  2:{ by intros e x ((_ & [[[]|[= ->]]|[= ->]]) & Hcg & Hne). }
  intros devs. apply holds_ret. intros x Hx. eexists; split; [done|]. split; [done|]. cbn. destruct Hx as [[[]|[= ->]]|[= ->]]; auto.
Qed.

(** What is held after a build is the directory its output is in. *)
Definition build_holds (r : result string exec_result) (x : string) : Prop := ∃ out, r = Ok out ∧ x_OutDir out = path_Join (path_Join x "root") sandboxOutDir.

Lemma holds_build json spec : holds (exec_RunBuild marshal json spec) (λ _, False) build_holds.
Proof.
  unfold exec_RunBuild. eapply holds_bind; [apply holds_assemble| |by intros e x (a & [=] & _)].
  intros a. eapply holds_bind; [apply holds_recover, holds_Run| |by intros e x (? & [=] & _)].
  intros r. eapply holds_bind; [apply holds_closes| |by intros e x ([=] & _)].
  intros []. assert (Hx : ∀ x, (∃ r', Ok r = @Ok string _ r' ∧ asm_holds (Ok a) x) ∧ Some x ≠ as_cg a → x = as_work a ∧ as_outDir a = path_Join (path_Join x "root") sandboxOutDir).
  { intros x [(r' & _ & (a' & [= <-] & Ho & [->|Hc])) Hne]; [by split|congruence]. }
  destruct r as [[code err]|e].
  - apply holds_ret. intros x (_ & [_ Ho]%Hx). eexists; split; [done|]. done.
  - eapply holds_bind; [apply holds_removes| |by intros e' x ([=] & _)]. intros []. apply holds_fail. by intros x (_ & (_ & [-> _]%Hx) & Hne).
Qed.

Lemma holds_staged cacheDir name pattern what fill X : (∀ tmp, says makes_nothing (fill tmp)) → holds (staged cacheDir name pattern what fill) X (λ _, X).
Proof.
  intros Hf. unfold staged. apply holds_then; [calmly| |done]. intros _. apply holds_then; [unfold exists_at; calmly| |done]. intros []; [by apply holds_ret|].
  eapply holds_bind; [apply holds_tmp; left; by eexists _, _| |by intros e x [?|[=]]]. intros tmp.
  apply (holds_bind _ _ _ (λ r x, (X x ∨ x = tmp) ∧ (∀ e, r = Err e → X x))).
  - unfold or_discard. eapply holds_bind; [apply holds_recover, holds_calm, Hf| |by intros e x (? & [=] & _)].
    intros [[]|e]; cbn beta iota.
    + apply holds_ret. intros x (_ & _ & [?|[= ->]]); (split; [auto|done]).
    + eapply (holds_bind _ _ _ (λ _ x, X x)); [|intros o; apply holds_fail; auto|auto]. eapply holds_weaken; [by apply (holds_removed (CRemoveAll tmp) _ _ tmp)|intros ? HH; exact HH|].
      by intros r x ((_ & _ & [?|[= ->]]) & Hne).
  - intros []. unfold publish. apply (holds_bind _ _ _ (λ r x, X x ∨ x = tmp ∧ ∃ e, r = Ok (Some e))).
    + intros t t' r h Hh [= <- <-]. eexists [_]. split; [done|]. cbn [held_after step_held]. destruct (h_fails t _).
      * eapply Forall_impl; [done|]. intros x [[?| ->] _]; [by left|right; eauto].
      * eapply Forall_impl; [apply (filter_not tmp), Hh|]. intros x [[[?| ->] _] Hne]; [by left|done].
    + intros [e|]; [|apply holds_ret; by intros x [?|(_ & ? & [=])]].
      eapply (holds_bind _ _ _ (λ _ x, X x)); [|intros o; apply holds_calm; unfold exists_at; calmly|auto].
      eapply holds_weaken; [by apply (holds_removed (CRemoveAll tmp) _ _ tmp)|intros ? HH; exact HH|]. by intros r x [[?|[-> _]] Hne].
    + by intros e x [?|(_ & ? & [=])].
  - by intros e x [_ Hx]; apply (Hx e).
Qed.

Lemma calm_plan root shellDir binDir storeDir scratch k spec : says makes_nothing (importMountPlan root shellDir binDir storeDir scratch k spec).
Proof. unfold importMountPlan. apply says_bind; [calmly|]. intros _. apply says_bind; [apply calm_devs|]. intros devs. apply says_bind; [apply calm_etc|]. calmly. Qed.

Lemma holds_import memMax pidsMax spec : holds (import_Run marshal memMax pidsMax spec) (λ _, False) (λ _ _, False).
Proof.
  unfold import_Run. destruct (es_ShellKey spec) as [k|]; [|by apply holds_fail].
  eapply holds_bind; [apply holds_staged; intros tmp; unfold materializeStore; calmly| |done]. intros shellDir.
  eapply holds_bind; [apply holds_staged, calm_fill| |done]. intros binDir.
  eapply (holds_bind _ _ _ (λ _ _, False)); [destruct (es_ClosureKey spec); [apply holds_staged; intros tmp; unfold materializeStore; calmly|by apply holds_ret]| |done].
  intros storeDir. eapply holds_bind; [apply holds_tmp; left; by eexists _, _| |by intros e x [[]|[=]]].
  intros work. eapply (holds_finally _ _ _ (λ _ x, x = work)).
  - unfold import_in. apply holds_then; [calmly| |by intros e x [[]|[= ->]]]. intros _. apply holds_then; [apply calm_plan| |by intros e x [[]|[= ->]]].
    intros plan. eapply holds_bind; [apply holds_cgroup| |by intros e x [[[]|[= ->]]|[=]]]. intros cg. eapply holds_finally.
    + eapply holds_bind; [apply holds_Run|intros ?; apply holds_calm, says_ret|done].
    + intros r. eapply holds_weaken; [apply holds_closes|intros ? HH; exact HH|]. intros _ x (_ & [[[]|[= ->]]|[= ->]] & Hne); done.
  - intros r. eapply holds_weaken; [apply holds_removes|intros ? HH; exact HH|]. by intros _ x (_ & -> & Hne).
Qed.

(** [C19] Executors release what they make. Whichever call fails and where, when
    the run of a build returns, every temporary file, work tree and control
    group it made and that still exists is the work tree of the output it hands
    to its caller, or one whose removal was called and failed; a fetch leaves
    only what could not be removed, and what it staged for the next is renamed
    into place. *)
Theorem executors_release json :
  (∀ spec t t' r, exec_RunBuild marshal json spec t = (t', r) → ∃ s, t' = t ++ s ∧
     ∀ d, d ∈ left_after t s [] →
       (∃ out, r = Ok out ∧ x_OutDir out = path_Join (path_Join d "root") sandboxOutDir) ∨ not_removed t s d) ∧
  (∀ memMax pidsMax spec t t' r, import_Run marshal memMax pidsMax spec t = (t', r) → ∃ s, t' = t ++ s ∧
     ∀ d, d ∈ left_after t s [] → not_removed t s d).
Proof.
  assert (H0 : ∀ d, d ∈ ([] : list string) → d ∈ ([] : list string) ∨ False) by (by left). split.
  - intros spec t t' r E. destruct (holds_build json spec t t' r [] ltac:(constructor) E) as (s & -> & Hs). exists s. split; [done|].
    intros d Hd. destruct (left_held s t [] [] _ H0 d Hd) as [Hx|[[]|Hx]]; [left|by right]. rewrite Forall_forall in Hs. by apply Hs.
  - intros memMax pidsMax spec t t' r E. destruct (holds_import memMax pidsMax spec t t' r [] ltac:(constructor) E) as (s & -> & Hs). exists s. split; [done|].
    intros d Hd. destruct (left_held s t [] [] _ H0 d Hd) as [Hx|[[]|Hx]]; [|done]. rewrite Forall_forall in Hs. by apply Hs in Hx.
Qed.

(** ** Descriptors *)

Fixpoint open_dirs (pre s : list call) : Z :=
  match s with
  | [] => 0
  | c :: s => ((match c with COpenDir _ => if h_fails pre c then 0 else 1 | CCloseDir _ => -1 | _ => 0 end) + open_dirs (pre ++ [c]) s)%Z
  end.

(** A child that is born in its group leaves no descriptor of it open. *)
Theorem started_closes cfg payload t t' : (∀ pre ch, h_fails pre (CStart ch) = None) → start_child cfg payload t = (t', Ok tt) →
  ∃ s, t' = t ++ s ∧ open_dirs t s = 0%Z.
Proof.
  intros Hst. unfold start_child, cg_FD. destruct (cf_Cgroup cfg) as [dir|].
  - unfold mbind, K_bind, attempt, mret, K_ret. cbn beta iota. rewrite Hst. destruct (h_fails t (COpenDir dir)) eqn:Ef.
    + rewrite bool_decide_eq_false_2 by done. cbn beta iota. intros [= <-]. eexists. rewrite <- (assoc_L (++)). split; [done|]. cbn. by rewrite Ef.
    + rewrite bool_decide_eq_true_2 by done. cbn beta iota. intros [= <-]. eexists. rewrite <- !(assoc_L (++)). split; [done|]. cbn. by rewrite Ef.
  - unfold mbind, K_bind, attempt, mret, K_ret. cbn beta iota. rewrite Hst. cbn beta iota. intros [= <-]. by eexists.
Qed.

End Facts.

(** ** A concrete host *)

Section Demo.

(** Every call succeeds but those [bad] names; temporary directories are /w/tmp. *)
Definition demo_host (bad : call → option errno) : Host := {|
  h_fails := λ _, bad;
  h_str := λ _ c, match c with CMkdirTemp _ _ => "/w/tmp" | CReadFile p => if String.eqb p "/proc/self/cgroup" then "0::/job" else "cpu memory" | _ => "" end;
  h_num := λ _ c, match c with CStat p => if HasPrefix p "/dev/" then 2 else 1 | _ => 0 end%Z;
  h_names := λ _ _, ["bash"; "busybox"];
  h_env := {["HOME" := "/root"]};
  h_Getpid := 7;
  h_UnixNano := 9;
|}.

Local Existing Instance string_keys.

Definition demo_spec : BuildSpec :=
  @mkSpec string_keys "store" "shell" ∅ "source" "src" "" {["CC" := "cc"]} "make" [mkMount "go" "/root/.cache" "/w/cache" None] (2 ^ 30) "build|kp".

Definition demo_fetch : ExecSpec := @mkES string_keys "/w/fetcher" "/w/out" {["JOBS_OUTPUT_DIR" := "/w/out"]} "" (Some "shell") (Some "deps") "/w/cache".

Definition all_well : call → option errno := λ _, None.
Definition no_deps : gmap string string → string := λ _, "{}".

(** The kernel refuses to start a child in a control group. *)
Definition no_clone_into (c : call) : option errno := match c with CStart ch => match ch_cgroup ch with Some _ => Some EBUSY | None => None end | _ => None end.

Definition demo_cfg : Config := mkCfg ["/bin/true"] [] "" "/w/tmp/root" [] (mkNS true true true true true true) (Some "/sys/fs/cgroup/job/x") false.
Definition demo_asm : assembled :=
  match (@assembleSandbox string_keys (demo_host all_well) no_deps demo_spec ["/bin/bash"] [] []).2 with Ok a => a | Err _ => mkAsm demo_cfg None "" "" end.

Lemma sandbox_confined_witness : ∃ n s,
  cf_NewRoot (as_cfg demo_asm) = abs n ∧ (@Init (demo_host all_well) (λ _, Some (strip (as_cfg demo_asm))) 1 "{}" []).1 = [] ++ s ∧
  (∀ q, serving (@play (demo_host all_well) [] s []) (n ++ ["jobs"; "store"] ++ q) = Some (mkEnt "/w/tmp/store" (abs (n ++ ["jobs"; "store"])) true)) ∧
  (∀ q, serving (@play (demo_host all_well) [] s []) (n ++ ["build"; "out"] ++ q) = Some (mkEnt (abs n) (abs n) false)).
Proof.
  destruct (@sandbox_confined (demo_host all_well) string_keys no_deps (λ _, Some (strip (as_cfg demo_asm))) demo_spec ["/bin/bash"] []
    (@assembleSandbox string_keys (demo_host all_well) no_deps demo_spec ["/bin/bash"] [] []).1 demo_asm "{}" 1 []
    (@Init (demo_host all_well) (λ _, Some (strip (as_cfg demo_asm))) 1 "{}" []).1) as (n & s & H1 & H2 & _ & H3 & H4 & _).
  - vm_compute. reflexivity.
  - vm_compute. reflexivity.
  - constructor; [vm_compute; reflexivity|constructor].
  - vm_compute. reflexivity.
  - vm_compute. reflexivity.
  - exists n, s. split; [exact H1|]. split; [exact H2|]. split; [exact H3|exact H4].
Defined.

(** The child of a build cannot be waited for: its work tree and group are gone. *)
Definition wait_fails (c : call) : option errno := match c with CWait => Some EIO | _ => None end.

Lemma executors_release_witness : ∃ s,
  (@exec_RunBuild string_keys (demo_host wait_fails) (λ _, Some "{}") no_deps demo_spec []).1 = [] ++ s ∧
  ∀ d, d ∈ @left_after (demo_host wait_fails) [] s [] → (∃ out,
    (@exec_RunBuild string_keys (demo_host wait_fails) (λ _, Some "{}") no_deps demo_spec []).2 = Ok out ∧ x_OutDir out = path_Join (path_Join d "root") sandboxOutDir) ∨
    @not_removed (demo_host wait_fails) [] s d.
Proof.
  destruct (@executors_release (demo_host wait_fails) string_keys (λ _, Some "{}") no_deps) as [Hb _].
  exact (Hb demo_spec [] _ _ (surjective_pairing _)).
Defined.

(** A fetch whose sandbox starts leaves nothing but its staged trees. *)
Example fetch_runs :
  (@import_Run string_keys (demo_host all_well) (λ _, Some "{}") (2 ^ 30) 0 demo_fetch []).2 =
    Ok (mkExec 0 ("jobs: exec /w/fetcher/fetch" +:+ nl) "").
Proof. vm_compute. reflexivity. Qed.

(** The root of a sandbox is not read-only: what is below no other mount is
    written to the work tree. *)
Example root_is_writable : ∃ t tb, @childSetup (demo_host all_well) (as_cfg demo_asm) [] = (t, Ok tt) ∧ @play (demo_host all_well) [] t [] = tb ∧
  serving tb ["w"; "tmp"; "root"; "etc"; "hosts"] = Some (mkEnt "/w/tmp/root" "/w/tmp/root" false).
Proof. eexists _, _. split; [vm_compute; reflexivity|]. split; [reflexivity|]. vm_compute. reflexivity. Qed.

(** A start the group refuses is repeated without it, and a descriptor of the
    group stays open. *)
Example refused_group_leaks : ∃ s, @start_child (demo_host no_clone_into) demo_cfg "{}" [] = (s, Ok tt) ∧ @open_dirs (demo_host no_clone_into) [] s = 1%Z.
Proof. eexists. split; [vm_compute; reflexivity|]. vm_compute. reflexivity. Qed.

End Demo.
