(* ===== verification/LocalBuild.v ===== *)
(** * Building from a local source (src/runner/localbuild.go, develop_linux.go, run_linux.go, artifact.go)

    [jobs build], [run] and [develop] without a server: the identity F of a local
    source, and the driver that makes every dependency present in the local
    store, depth first, with the runner's own stages. Progress lines are not
    modelled. *)
From S2P Require Import Prelude GoLib Keys Wire Builddef Store Commit Stages Image.
Local Open Scope string_scope.
Local Open Scope list_scope.

(** ** The driver's state and its monad *)

Section Driver.
Context `{SIO : StageIO}.

Record developDriver := mkDriver { dd_st : Store; dd_visited : gset string; dd_inProgress : gset string }.

Definition set_dd_st (st : Store) (d : developDriver) : developDriver := mkDriver st (dd_visited d) (dd_inProgress d).

(** A call that has not returned when the fuel ends leaves the state it stands
    in and no result; an error is a value. *)
Definition L (A : Type) : Type := developDriver → developDriver * option (result string A).
Global Instance L_ret : MRet L := λ A a d, (d, Some (Ok a)).
Global Instance L_bind : MBind L := λ A B k m d,
  match m d with
  | (d, Some (Ok a)) => k a d
  | (d, Some (Err e)) => (d, Some (Err e))
  | (d, None) => (d, None)
  end.

Definition l_err {A} (e : string) : L A := λ d, (d, Some (Err e)).
Definition l_unfinished {A} : L A := λ d, (d, None).
(** An operation on the store. *)
Definition l_store {A} (m : SE A) : L A := λ d, let '(st, r) := m (dd_st d) in (set_dd_st st d, Some r).
Definition l_some {A} (o : option A) (e : string) : L A := match o with Some a => mret a | None => l_err e end.

(** [outcomeErr]: what an outcome other than success reads as. *)
Definition outcomeErr (what : string) (o : Outcome) : result string unit :=
  if o_Cancelled o then Err (what +:+ " cancelled")
  else if o_Decline o then Err (what +:+ " declined: " +:+ o_DeclineReason o)
  else if o_Failed o then Err (what +:+ " failed (" +:+ o_Class o +:+ ", phase " +:+ o_Phase o +:+ ", exit " +:+ itoa (o_ExitCode o) +:+ "): " +:+ o_Stderr o)
  else Ok tt.

(** One stage on the driver's store. *)
Definition l_stage (what : string) (m : R Outcome) : L Outcome := λ d,
  let '(s, r) := m (mkRS (dd_st d) []) in
  let o := match r with Ok o => o | Err o => o end in
  (set_dd_st (rs_st s) d, Some (match outcomeErr what o with Ok _ => Ok o | Err e => Err e end)).

(** The marks of a node: done, or on the way (deleted again on every return). *)
Definition visit (node : string) : L unit := λ d, (mkDriver (dd_st d) ({[node]} ∪ dd_visited d) (dd_inProgress d), Some (Ok tt)).

Definition once (node : string) (body : L unit) : L unit := λ d,
  if bool_decide (node ∈ dd_visited d) then (d, Some (Ok tt))
  else if bool_decide (node ∈ dd_inProgress d) then (d, Some (Err ("dependency cycle detected at " +:+ node)))
  else
    match body (mkDriver (dd_st d) (dd_visited d) ({[node]} ∪ dd_inProgress d)) with
    | (d, Some r) => (mkDriver (dd_st d) (dd_visited d) (dd_inProgress d ∖ {[node]}), Some r)
    | (d, None) => (d, None)
    end.

Fixpoint l_each {A} (f : A → L unit) (xs : list A) : L unit :=
  match xs with [] => mret tt | x :: xs => f x;; l_each f xs end.
End Driver.

#[local] Existing Instance LocalRefWriter.

(** ** The stages of one build *)

Section Build.
Context `{SIO : StageIO} (brc : BuildRunCfg).

Definition refExists (name : string) : L bool := k ← l_store (se_get name); mret (bool_decide (is_Some k)).

(** [deriveKP] of the local driver: the pinned alias, then the binding. *)
Definition local_deriveKP (f : Key) : L Key :=
  pinnedKey ← l_store (se_get (build_pinned f));
  pinnedKey ← l_some pinnedKey (build_pinned f +:+ " missing after pin");
  pinnedBytes ← l_store (se_obj (λ o, obj_ReadFile o pinnedKey));
  pinned ← l_store (se_lift (dec_Pinned pinnedBytes));
  env ← l_store (se_obj (λ o, resolveSubdirKey o f "env"));
  platform ← l_store (se_obj (λ o, obj_TreeFile o f "platform"));
  kp ← l_store (se_ingest (λ o, obj_Derive o pinnedBytes pinned platform env));
  l_store (se_put (build_pinned kp) pinnedKey);;
  l_store (se_put (PinCoverRef f) kp);;
  mret kp.

(** Deps strictly before output. *)
Definition writeFAliases (f kp : Key) : L unit :=
  deps ← l_store (se_get (build_output_deps kp));
  out ← l_store (se_get (build_output kp));
  match out, deps with
  | Some out, Some deps => l_store (se_put (build_output_deps f) deps);; l_store (se_put (build_output f) out)
  | _, _ => l_err ("build-output(-deps):" +:+ key_String kp +:+ " missing after build")
  end.

(** What ensures one input: the recursive call. *)
Context (ensure : Input → L unit).

Definition ensurePinDeps (f : Key) : L unit :=
  prKey ← l_store (se_get (build_plugin_resolved f));
  prKey ← l_some prKey (build_plugin_resolved f +:+ " missing after resolve");
  prBytes ← l_store (se_obj (λ o, obj_ReadFile o prKey));
  pr ← l_store (se_lift (dec_PluginResolved prBytes));
  l_each (λ x, ensure (snd x)) (io_range (pr_Plugins pr));;
  l_each (λ x, ensure (snd x)) (io_range (pr_Deps pr)).

Definition ensureInputs (f : Key) : L unit :=
  pinnedKey ← l_store (se_get (build_pinned f));
  pinnedKey ← l_some pinnedKey (build_pinned f +:+ " missing after pin");
  pinnedBytes ← l_store (se_obj (λ o, obj_ReadFile o pinnedKey));
  pinned ← l_store (se_lift (dec_Pinned pinnedBytes));
  l_each (λ pi, ensure (mkInput (pi_Kind pi) (pi_Definition pi))) (p_Inputs pinned).

(** Up to and including the pin. *)
Definition drive_pin (f : Key) : L unit :=
  pinnedExists ← refExists (build_pinned f);
  if (pinnedExists : bool) then mret tt
  else
    prExists ← refExists (build_plugin_resolved f);
    (if (prExists : bool) then mret tt else l_stage ("plugin-resolve " +:+ key_String f) (RunPluginResolve f);; mret tt);;
    ensurePinDeps f;;
    l_stage ("pin " +:+ key_String f) (RunPin f);; mret tt.

(** From the pinned inputs to the output under the name of F. *)
Definition drive_output (f : Key) (runFinal : bool) : L unit :=
  ensureInputs f;;
  kp ← local_deriveKP f;
  if negb runFinal then mret tt
  else
    memo ← refExists (build_output kp);
    if (memo : bool) then writeFAliases f kp
    else l_stage ("build " +:+ key_String kp) (RunBuild brc kp);; writeFAliases f kp.

Definition driveFStages (f : Key) (runFinal : bool) : L unit :=
  joined ← (if runFinal then refExists (build_output f) else mret false);
  if (joined : bool) then mret tt
  else drive_pin f;; drive_output f runFinal.

Definition import_node (k : Key) : string := "import|" +:+ key_String k.
Definition build_node (k : Key) : string := "build|" +:+ key_String k.

Definition ensureImport (k : Key) (idef : ImportDef) : L unit :=
  once (import_node k) (
    present ← refExists (import_output k);
    if (present : bool) then visit (import_node k)
    else
      (if String.eqb (i_FetcherDef idef) "" then mret tt else ensure (mkInput InputKind.Build (i_FetcherDef idef)));;
      l_stage ("import " +:+ key_String k) (RunImport k);;
      visit (import_node k)).

(** [ResolveBuildOutput] on the driver's store: build-from:K, then the output. *)
Definition se_ResolveBuildOutput (k : Key) : SE (option Key) :=
  f ← se_get (build_from k);
  match f with None => mret None | Some f => se_get (build_output f) end.

Definition ensureBuild (k : Key) : L unit :=
  once (build_node k) (
    present ← l_store (se_ResolveBuildOutput k);
    match present with
    | Some _ => visit (build_node k)
    | None =>
        defBytes ← l_store (se_obj (λ o, obj_ReadFile o k));
        def ← l_store (se_lift (dec_Definition defBytes));
        ensure (d_Source def);;
        bfOut ← l_stage ("build-from " +:+ key_String k) (RunBuildFrom k);
        f ← l_some (o_OutputKey bfOut) "no output key";
        driveFStages f true;;
        visit (build_node k)
    end).

Definition ensure_input (i : Input) : L unit :=
  _ ← l_store (se_ingest (λ o, obj_IngestFile o (in_Definition i)));
  k ← l_store (se_lift (FileKey (in_Definition i)));
  if String.eqb (in_Kind i) InputKind.Import then
    idef ← l_store (se_lift (dec_Import (in_Definition i)));
    ensureImport k idef
  else if String.eqb (in_Kind i) InputKind.Build then ensureBuild k
  else if String.eqb (in_Kind i) InputKind.Tree then mret tt
  else l_err ("unknown input kind " +:+ in_Kind i).
End Build.

Section Run.
Context `{SIO : StageIO} (brc : BuildRunCfg).

(** [fuel] bounds how deep the inputs nest. *)
Fixpoint ensureInput (fuel : nat) (i : Input) : L unit :=
  match fuel with
  | O => l_unfinished
  | S fuel => ensure_input brc (ensureInput fuel) i
  end.
End Run.

(** ** The target and the entry points *)

Record DevelopConfig := mkDevelop { dc_SourceDir : string; dc_Dir : string; dc_BuildFile : string; dc_Platform : string; dc_Params : string; dc_ShellRef : string }.

(** Ingesting a directory of the disk. *)
Class LocalIO `{SIO : StageIO} := { io_IngestSourceDir : Objs → string → Objs * result string Key }.

Section Target.
Context `{LIO : LocalIO}.

(** The identity F of an ingested source. *)
Definition local_from_tree (platform : string) (cfg : DevelopConfig) (sourceKey : Key) : SE Key :=
  buildRoot ← se_obj (λ o, resolveSubtreeKey o sourceKey (dc_Dir cfg));
  override ← se_obj (λ o, resolveRecipeOverride o buildRoot (dc_BuildFile cfg) "");
  let '(envKey, dirEntry) := if negb (String.eqb (dc_Dir cfg) "") then (sourceKey, dc_Dir cfg) else (buildRoot, "") in
  se_ingest (λ o, obj_FromTree o envKey dirEntry (dc_Params cfg) platform override).

Definition localBuildFrom (brc : BuildRunCfg) (cfg : DevelopConfig) : SE Key :=
  let srcDir := if String.eqb (dc_SourceDir cfg) "" then "." else dc_SourceDir cfg in
  sourceKey ← se_ingest (λ o, io_IngestSourceDir o srcDir);
  local_from_tree (brc_Platform brc) cfg sourceKey.

Definition cfg_platform (cfg : DevelopConfig) : string := if String.eqb (dc_Platform cfg) "" then io_Platform else dc_Platform cfg.
Definition cfg_shellRef (cfg : DevelopConfig) : string := if String.eqb (dc_ShellRef cfg) "" then "shell:" +:+ cfg_platform cfg else dc_ShellRef cfg.

Definition target (cfg : DevelopConfig) : SE (BuildRunCfg * Key) :=
  shellKey ← se_get (cfg_shellRef cfg);
  match shellKey with
  | None => se_err ("shell artifact " +:+ cfg_shellRef cfg +:+ " not found")
  | Some shellKey =>
      let brc := mkBRC (cfg_platform cfg) shellKey 0 in
      f ← localBuildFrom brc cfg;
      mret (brc, f)
  end.

Definition new_driver (st : Store) : developDriver := mkDriver st ∅ ∅.

Definition BuildFromSource (fuel : nat) (cfg : DevelopConfig) : L Key :=
  t ← l_store (target cfg);
  let '(brc, f) := t in
  driveFStages brc (ensureInput brc fuel) f true;;
  mret f.

Definition l_spec (brc : BuildRunCfg) (kp : Key) : L BuildSpec := λ d,
  match assembleBuildSpec brc kp (mkRS (dd_st d) []) with
  | (s, Ok sp) => (set_dd_st (rs_st s) d, Some (Ok (fst sp)))
  | (s, Err o) => (set_dd_st (rs_st s) d, Some (match outcomeErr "assemble build spec" o with Ok _ => Err "" | Err e => Err e end))
  end.

Definition prepareDevelop (fuel : nat) (cfg : DevelopConfig) : L BuildSpec :=
  t ← l_store (target cfg);
  let '(brc, f) := t in
  driveFStages brc (ensureInput brc fuel) f false;;
  kp ← local_deriveKP f;
  l_spec brc kp.
End Target.

(** ** Consuming an output by key (src/runner/artifact.go) *)

Section Artifact.
Context `{LIO : LocalIO} `{OL : !OciLib}.

Record resolvedArtifact := mkArtifact { ra_bokSelf : Key; ra_shellKey : option Key; ra_depBOKs : list Key; ra_ep : Entrypoint }.

(** A resolution of the stages, its failure as an error. *)
Definition se_run {A} (m : R A) : SE A := λ st,
  let '(s, r) := m (mkRS st []) in (rs_st s, match r with Ok a => Ok a | Err o => Err (o_Stderr o) end).

Definition se_some {A} (o : option A) (e : string) : SE A := match o with Some a => mret a | None => se_err e end.

Definition resolveByKeyArtifact (k : Key) (platform shellRef : string) (needShell : bool) : SE resolvedArtifact :=
  let platform := if String.eqb platform "" then io_Platform else platform in
  let shellRef := if String.eqb shellRef "" then "shell:" +:+ platform else shellRef in
  shellKey ← (if needShell then sk ← se_get shellRef; sk ← se_some sk ("shell artifact " +:+ shellRef +:+ " not found"); mret (Some sk) else mret None);
  bokSelf ← se_run (ResolveBuildArtifact k);
  bokSelf ← se_some bokSelf ("build-output for " +:+ key_String k +:+ " not found");
  epBytes ← se_obj (λ o, obj_TreeFile o bokSelf EntrypointFile);
  ep ← se_lift (decodeEntrypoint epBytes);
  depsKey ← se_run (ResolveBuildOutputDeps k (retryable "resolving"));
  depsKey ← match depsKey with Some dk => mret (Some dk) | None => se_get (build_output_deps k) end;
  depsKey ← se_some depsKey ("build-output-deps for " +:+ key_String k +:+ " not found");
  ents ← se_obj (λ o, obj_Ls o depsKey);
  depBOKs ← se_lift (entry_keys (fst <$> ents));
  mret (mkArtifact bokSelf shellKey depBOKs ep).

(** [prepareSourceArtifact]: build, then resolve by F. *)
Definition prepareSourceArtifact (fuel : nat) (cfg : DevelopConfig) : L resolvedArtifact :=
  f ← BuildFromSource fuel cfg;
  l_store (resolveByKeyArtifact f (cfg_platform cfg) (cfg_shellRef cfg) true).

(** What a run of the artifact mounts, executes and sets. *)
Definition run_store (art : resolvedArtifact) : SE Key :=
  se_ingest (λ o, obj_StoreTree o (ra_depBOKs art ++ [ra_bokSelf art; default inhabitant (ra_shellKey art)])).

Definition run_argv (art : resolvedArtifact) (extraArgs : list string) : list string :=
  let cmd := ep_Command (ra_ep art) in
  (if HasPrefix cmd "/" then cmd else storePath (ra_bokSelf art) +:+ "/" +:+ cmd) :: ep_Args (ra_ep art) ++ extraArgs.

Definition runEnv (epEnv : gmap string string) (bokSelf shellBOK : Key) : gmap string string :=
  epEnv ∪ {[ "PATH" := storePath bokSelf +:+ "/bin:" +:+ storePath shellBOK +:+ "/bin"; "HOME" := "/tmp" ]}.
End Artifact.
