(* ===== verification/LocalFacts.v ===== *)
(** * What a local build leaves behind

    At every moment of a local build, also one that fails or never returns, an
    output has its runtime closure and a binding its pinned alias; one that
    returns has the output of its target and of everything it visited; nesting
    without end needs ever new definitions; and the identity it computes is the
    one the server computes. *)
From S2P Require Import Prelude GoLib Keys Wire Builddef Store Commit Stages RunnerFacts Image LocalBuild.
Local Open Scope string_scope.
Local Open Scope list_scope.

#[local] Existing Instance LocalRefWriter.

(** ** The references of a local store *)

(** The references a build finds. *)
Class Before `{KL : KeyLib} := before : gmap string Key.

Section Refs.
Context `{SIO : StageIO}.
Implicit Types m : gmap string Key.

(** A binding [pin-cover:F] without the pinned alias of its KP. *)
Definition unpinned m (f kp : Key) : Prop := m !! PinCoverRef f = Some kp ∧ m !! build_pinned kp = None.

(** A binding has its pinned alias, but for those in [Y]. *)
Definition covers_but (Y : Key → Key → Prop) m : Prop := ∀ f kp, m !! PinCoverRef f = Some kp → is_Some (m !! build_pinned kp) ∨ Y f kp.

(** In order, but for what was missing in the references [before] the build:
    an output has its closure and a binding its alias, unless that very
    output or binding was there already, without it. *)
Definition local_ok `{BF : !Before} m : Prop := whole_but (orphan before) m ∧ covers_but (unpinned before) m.

Lemma local_ok_before `{BF : !Before} : local_ok before.
Proof. split; [apply whole_but_orphans|]. intros f kp Hf. destruct (before !! build_pinned kp) eqn:E; [left; eauto|by right]. Qed.

(** Some names in [P] were put, nothing else changed, nothing was removed. *)
Definition chg (P : string → Prop) m m' : Prop := ∀ n, m' !! n = m !! n ∨ P n ∧ is_Some (m' !! n).

Lemma chg_refl P m : chg P m m.
Proof. by left. Qed.

Lemma chg_trans P m1 m2 m3 : chg P m1 m2 → chg P m2 m3 → chg P m1 m3.
Proof. intros H1 H2 n. destruct (H2 n) as [->|?]; [apply H1|by right]. Qed.

Lemma chg_mono (P Q : string → Prop) m m' : (∀ n, P n → Q n) → chg P m m' → chg Q m m'.
Proof. intros HPQ H n. destruct (H n) as [?|[??]]; [by left|right; auto]. Qed.

Lemma chg_put (P : string → Prop) n k m : P n → chg P m (<[n := k]> m).
Proof. intros HP x. destruct (decide (n = x)) as [<-|]; [right; rewrite lookup_insert_eq; eauto|left; by rewrite lookup_insert_ne]. Qed.

Lemma chg_some P m m' n : chg P m m' → is_Some (m !! n) → is_Some (m' !! n).
Proof. intros H Hn. destruct (H n) as [->|[_ ?]]; done. Qed.

(** Names that are neither an output nor a binding. *)
Definition plain (n : string) : Prop := (∀ x, n ≠ build_output x) ∧ ∀ f, n ≠ PinCoverRef f.

Lemma CP_put_other Y n k m : (∀ f, n ≠ PinCoverRef f) → covers_but Y m → covers_but Y (<[n := k]> m).
Proof. intros Hn H f kp. rewrite lookup_insert_ne by done. intros [Hc|Hc]%H; [left|by right]. apply (chg_some (λ _, True) m); [by apply chg_put|done]. Qed.

Context `{BF : !Before}.

Lemma ok_plain n k m : plain n → local_ok m → local_ok (<[n := k]> m).
Proof. intros [H1 H2] [HO HC]. split; [by apply WB_put_other|by apply CP_put_other]. Qed.

Lemma ok_output x k m : is_Some (m !! build_output_deps x) → local_ok m → local_ok (<[build_output x := k]> m).
Proof. intros Hd [HO HC]. split; [by apply WB_put_output|apply CP_put_other; [discriminate|done]]. Qed.

Lemma ok_cover f kp m : is_Some (m !! build_pinned kp) → local_ok m → local_ok (<[PinCoverRef f := kp]> m).
Proof.
  intros Hp [HO HC]. split; [apply WB_put_other; [discriminate|done]|]. intros g kq. rewrite lookup_insert, (lookup_insert_ne _ _ (build_pinned kq)) by discriminate.
  case_decide; [intros [= <-]; by left|apply HC].
Qed.

(** A sequence of writes each of which keeps [local_ok]. *)
Definition ins_ref m (r : Ref) : gmap string Key := <[rr_Name r := rr_Key r]> m.

Fixpoint writes_ok (P : string → Prop) m (rs : list Ref) : Prop :=
  match rs with [] => True | r :: rs => P (rr_Name r) ∧ local_ok (ins_ref m r) ∧ writes_ok P (ins_ref m r) rs end.

Lemma writes_app P rs2 : ∀ rs1 m, writes_ok P m (rs1 ++ rs2) ↔ writes_ok P m rs1 ∧ writes_ok P (foldl ins_ref m rs1) rs2.
Proof. induction rs1 as [|r rs1 IH]; intros m; cbn; [naive_solver|]. rewrite IH. naive_solver. Qed.

Lemma writes_plain (P : string → Prop) rs : ∀ m, local_ok m → Forall (λ r, P (rr_Name r) ∧ plain (rr_Name r)) rs → writes_ok P m rs ∧ local_ok (foldl ins_ref m rs).
Proof.
  induction rs as [|r rs IH]; intros m Hm Hrs; [done|]. apply Forall_cons in Hrs as [[HP Hr] Hrs]. pose proof (ok_plain _ (rr_Key r) m Hr Hm) as Hm'. destruct (IH _ Hm' Hrs). by split_and!.
Qed.

Lemma put_all_spec P rs : ∀ s, local_ok (st_refs (rs_st s)) → writes_ok P (st_refs (rs_st s)) rs →
  let '(s', r) := put_all (λ _, []) rs s in
  crash_safe local_ok (rs_st s) (rs_st s') ∧ chg P (st_refs (rs_st s)) (st_refs (rs_st s')) ∧
  (r = Ok tt → st_refs (rs_st s') = foldl ins_ref (st_refs (rs_st s)) rs).
Proof.
  induction rs as [|r rs IH]; intros s Hok Hw; cbn [put_all foldl]; [split_and!; [by apply crash_safe_refl|apply chg_refl|done]|].
  destruct Hw as (HP & Hok1 & Hw). unfold put_one. destruct (PutRef (rr_Name r) (rr_Key r) (rs_st s)) as [st [[]|e]] eqn:E; cbn [rs_st].
  - pose proof (crash_safe_put local_ok _ _ _ _ _ Hok Hok1 E) as Hs. apply PutRef_Ok in E as (_ & Er & _). change (st_refs st = ins_ref (st_refs (rs_st s)) r) in Er. rewrite <- Er in Hok1, Hw.
    specialize (IH (mkRS st (rs_refs s ++ [])) Hok1 Hw). destruct (put_all _ rs _) as [s' res]. destruct IH as (Hs' & Hc' & He). cbn [rs_st] in *. split_and!.
    + by eapply crash_safe_trans.
    + eapply chg_trans; [|exact Hc']. rewrite Er. by apply chg_put.
    + intros H. by rewrite (He H), Er.
  - change (rs_st (set_rs_st st s)) with st. split_and!; [by eapply crash_safe_put|apply PutRef_extends in E as (_ & Er & _); cbn in Er; rewrite Er; apply chg_refl|done].
Qed.
End Refs.

(** ** Stages on a local store *)

Section StageRules.
Context `{SIO : StageIO} `{BF : !Before}.

(** From references that are in order, [m] keeps them in order at every crash
    point, puts names in [P] only, and ends with [Q] or in a failure. *)
Definition lwp {A} (P : string → Prop) (m : R A) (s : rstate) (Q : gmap string Key → A → Prop) : Prop :=
  local_ok (st_refs (rs_st s)) →
  crash_safe local_ok (rs_st s) (rs_st (m s).1) ∧ chg P (st_refs (rs_st s)) (st_refs (rs_st (m s).1)) ∧
  match (m s).2 with Ok a => Q (st_refs (rs_st (m s).1)) a | Err o => bad o end.

Lemma lwp_bind {A B} P (m : R A) (k : A → R B) s Q Q' : lwp P m s Q → (∀ s' a, Q (st_refs (rs_st s')) a → lwp P (k a) s' Q') → lwp P (m ≫= k) s Q'.
Proof.
  intros Hm Hk Hok. destruct (Hm Hok) as (Hs & Hc & Hr). unfold mbind, R_bind. destruct (m s) as [s' [a|o]]; [|done]. cbn [fst snd] in *.
  destruct (Hk s' a Hr (crash_safe_end _ _ _ Hs)) as (Hs' & Hc' & Hr'). split_and!; [by eapply crash_safe_trans|by eapply chg_trans|done].
Qed.

Lemma lwp_quiet {A} P (m : R A) s (Q : A → Prop) : silent m → rwp m s (λ _, Q) → lwp P m s (λ refs a, refs = st_refs (rs_st s) ∧ Q a).
Proof.
  intros Hm Hq Hok. destruct (Hm s) as [_ Hx]. pose proof Hx as (_ & Er & _). cbn in Er. split_and!.
  - exists []. split; [done|]. intros n. by rewrite take_nil.
  - rewrite Er. apply chg_refl.
  - unfold rwp in Hq. destruct (m s) as [s' [a|o]]; cbn in *; [by split|done].
Qed.

Lemma rwp_true {A} (m : R A) s : silent m → rwp m s (λ _ _, True).
Proof. intros H. eapply rwp_mono; [apply (H s)|done]. Qed.

Lemma lwp_silent {A B} P (m : R A) (k : A → R B) s Q : silent m → (∀ s' a, st_refs (rs_st s') = st_refs (rs_st s) → lwp P (k a) s' Q) → lwp P (m ≫= k) s Q.
Proof. intros Hm Hk. eapply lwp_bind; [apply (lwp_quiet _ _ _ (λ _, True)); [done|by apply rwp_true]|]. cbn. intros s' a [E _]. by apply Hk. Qed.

Lemma lwp_ret {A} P (a : A) s (Q : gmap string Key → A → Prop) : Q (st_refs (rs_st s)) a → lwp P (mret a) s Q.
Proof. intros HQ Hok. split_and!; [by apply crash_safe_refl|apply chg_refl|done]. Qed.

Lemma lwp_stop {A} P o s (Q : gmap string Key → A → Prop) : bad o → lwp P (stop o) s Q.
Proof. intros Hb Hok. split_and!; [by apply crash_safe_refl|apply chg_refl|done]. Qed.

Lemma lwp_publish P ph rs s : (local_ok (st_refs (rs_st s)) → writes_ok P (st_refs (rs_st s)) rs) →
  lwp P (publish ph (WriteRefs rs)) s (λ refs _, refs = foldl ins_ref (st_refs (rs_st s)) rs).
Proof.
  intros Hw Hok. pose proof (put_all_spec P rs s Hok (Hw Hok)) as H. unfold publish. change (WriteRefs rs) with (put_all (λ _, []) rs).
  destruct (put_all _ rs s) as [s' [[]|e]]; destruct H as (Hs & Hc & He); split_and!; try done; [by apply He|apply bad_push].
Qed.

Lemma lwp_publish1 (P : string → Prop) ph name k s : P name → plain name → lwp P (publish ph (WriteRef name k)) s (λ refs _, refs = <[name := k]> (st_refs (rs_st s))).
Proof.
  intros HP Hn. pose proof (lwp_publish P ph [mkRRef name k ""] s) as H. unfold lwp, publish in *. change (WriteRefs [mkRRef name k ""]) with (put_all (λ _, []) [mkRRef name k ""]) in H.
  change (WriteRef name k) with (put_one (λ _, []) (mkRRef name k "")). cbn [put_all] in H. intros Hok. specialize (H (λ Hok, conj HP (conj (ok_plain name k _ Hn Hok) I)) Hok).
  by destruct (put_one _ _ s) as [s' [[]|e]].
Qed.

Lemma lwp_trees (P : string → Prop) ins : (∀ tk, P (build_from_tree tk)) → ∀ seen s, lwp P (tree_refs seen ins) s (λ _ _, True).
Proof.
  intros HP. induction ins as [|i ins IH]; intros seen s; cbn [tree_refs]; [by apply lwp_ret|]. destruct (tree_source i) as [tk|]; [|apply IH]. destruct (decide _); [apply IH|].
  eapply lwp_bind; [by apply lwp_publish1; [apply HP|split; discriminate]|]. intros s' _ _. apply IH.
Qed.
End StageRules.

Ltac lquiet lem := apply lwp_silent; [first [apply lem|silently]|intros ? ? ?].
Ltac lnext := lquiet I.

Section LocalStages.
Context `{SIO : StageIO} `{BF : !Before}.

(** Names other than the bridge of a build. *)
Definition no_bridge (n : string) : Prop := ∀ k, n ≠ build_from k.
Definition only_bridge (k : Key) (n : string) : Prop := ∀ k', n = build_from k' → k' = k.

Lemma local_import k s : lwp no_bridge (RunImport k) s (λ refs o, (∃ r, o = succeeded r) ∧ is_Some (refs !! import_output k)).
Proof.
  unfold RunImport, ensureImportDef, pullFileBytes. do 3 lnext. lquiet silent_fetcher. lnext. lquiet silent_closure. do 3 lnext.
  destruct (io_fetch _ _ _ _) as [res|e]; [|case_match; apply lwp_stop; is_bad]. destruct (x_ExitCode res =? 0)%Z; [|destruct (Z.eqb _ exTempFail); apply lwp_stop; is_bad].
  lnext. eapply lwp_bind; [apply lwp_publish; intros Hok; split_and!; [discriminate|apply ok_plain; [split; discriminate|done]|done]|]. cbn. intros sN _ E. apply lwp_ret. rewrite E. split; [by eexists|]. unfold ins_ref. cbn. rewrite lookup_insert_eq. eauto.
Qed.

Lemma local_from k s : lwp (only_bridge k) (RunBuildFrom k) s (λ refs o, ∃ f, o = succeeded f ∧ refs !! build_from k = Some f).
Proof.
  unfold RunBuildFrom, ensureBuildDef, pullFileBytes. do 4 lnext. lquiet silent_source. do 2 lnext. case_match. apply lwp_silent; [silently|intros sF f E].
  eapply lwp_bind.
  - apply lwp_publish. intros Hok. apply writes_plain; [done|]. repeat constructor; cbn; [by intros k' ?%ref_name_inj|discriminate..].
  - cbn. intros sN _ E'. apply lwp_ret. exists f. split; [done|]. rewrite E'. unfold ins_ref. cbn. rewrite lookup_insert_ne by discriminate. by rewrite lookup_insert_eq.
Qed.

Lemma local_resolve f s : lwp no_bridge (RunPluginResolve f) s (λ _ o, ∃ r, o = succeeded r).
Proof.
  unfold RunPluginResolve. lquiet silent_env. lnext. lquiet silent_ingest. eapply lwp_bind; [apply lwp_trees; discriminate|]. intros sT _ _. do 2 lnext.
  eapply lwp_bind; [apply lwp_publish1; [discriminate|split; discriminate]|]. intros sN _ _. apply lwp_ret. eauto.
Qed.

Lemma local_pin f s : lwp no_bridge (RunPin f) s (λ _ o, ∃ r, o = succeeded r).
Proof.
  unfold RunPin, pullFileBytes. lquiet silent_env. do 4 lnext. lquiet silent_deps. lquiet silent_callers. lnext. lnext. lquiet silent_cover.
  eapply lwp_bind; [apply lwp_trees; discriminate|]. intros sT _ _. lnext. lquiet silent_ingest. do 2 lnext.
  eapply lwp_bind; [apply lwp_publish; intros Hok; split_and!; [discriminate|apply ok_plain; [split; discriminate|done]|done]|]. intros sN _ _. apply lwp_ret. eauto.
Qed.

Lemma silent_spec brc kp : silent (assembleBuildSpec brc kp).
Proof. unfold assembleBuildSpec, pullFileBytes. do 4 (apply silent_bind; [silently|intros ?]). apply silent_bind; [apply silent_collect|intros ?]. apply silent_bind; [silently|intros ?]. apply silent_bind; [apply silent_seed|intros ?]. silently. Qed.

Lemma silent_final {A} (g : Objs → Objs * result (string * string) A) :
  silent (λ s, let '(o, r) := g (st_objs (rs_st s)) in (set_rs_st (set_objs o (rs_st s)) s, match r with Ok c => Ok c | Err (ph, e) => Err (retryable ph e) end)).
Proof. intros s. unfold rwp. destruct (g _) as [o [c|[ph e]]]; (split; [|apply extends_set_objs]); [done|is_bad]. Qed.

Lemma silent_finalize plat cms : silent (finalizeCaches plat cms).
Proof. induction cms as [|cm cms IH]; cbn [finalizeCaches]; [silently|]. apply silent_bind; [apply (silent_final (λ o, io_finalCache o cm))|intros ?]. apply silent_bind; [done|intros ?]. silently. Qed.

Lemma local_run brc kp s : lwp no_bridge (RunBuild brc kp) s (λ refs o, (∃ r, o = succeeded r) ∧ is_Some (refs !! build_output kp) ∧ is_Some (refs !! build_output_deps kp)).
Proof.
  unfold RunBuild. lquiet silent_spec. case_match. destruct (io_RunBuild _) as [res|e]; [|case_match; apply lwp_stop; is_bad].
  destruct (negb _); [apply lwp_stop; is_bad|].
  eapply lwp_bind; [apply (lwp_quiet _ _ _ (λ refs, ∃ cs : list (string * Key), refs = (λ c, mkRRef (CacheRefName c.1 (brc_Platform brc)) c.2 "") <$> cs)); [apply silent_finalize|]|].
  { eapply rwp_mono; [apply finalize_ids|]. intros ? refs (_ & cs & -> & _). by exists cs. }
  cbn beta. intros s5 refs (_ & cs & ->). apply lwp_silent; [apply (silent_final (λ o, io_finalOutput o (x_OutDir res)))|]. intros s6 r _. lnext. lquiet silent_collect. lnext.
  eapply lwp_bind.
  - apply lwp_publish. intros Hok. apply writes_app. pose proof (writes_plain no_bridge ((λ c, mkRRef (CacheRefName c.1 (brc_Platform brc)) c.2 "") <$> cs) _ Hok) as Hwp.
    destruct Hwp as [Hw Hend]; [apply Forall_fmap, Forall_true; intros c; repeat split; discriminate|]. split; [done|]. cbn. split_and!; [discriminate| |discriminate| |done].
    + apply ok_plain; [|done]. split; [intros x E; by apply (output_ne_deps x kp)|discriminate].
    + apply ok_output; [unfold ins_ref; cbn; rewrite lookup_insert_eq; eauto|]. apply ok_plain; [|done]. split; [intros x E; by apply (output_ne_deps x kp)|discriminate].
  - cbn beta. intros sN _ E. apply lwp_ret. split; [by eexists|]. rewrite E, foldl_app. unfold ins_ref. cbn. rewrite lookup_insert_eq, lookup_insert_ne by apply output_ne_deps. rewrite lookup_insert_eq. eauto.
Qed.
End LocalStages.

(** ** The driver *)

Section DriverRules.
Context `{SIO : StageIO} `{BF : !Before}.
Implicit Types (d : developDriver) (X : gset string).

Abbreviation refs d := (st_refs (dd_st d)).

(** A node whose output can be found. *)
Definition resolvable (m : gmap string Key) (node : string) : Prop :=
  (∃ k, node = import_node k ∧ is_Some (m !! import_output k)) ∨
  (∃ k f, node = build_node k ∧ m !! build_from k = Some f ∧ is_Some (m !! build_output f)).

Definition linv d : Prop := local_ok (refs d) ∧ ∀ node, node ∈ dd_visited d → resolvable (refs d) node.

(** The bridges a call may write: of nodes neither done nor on the way, and
    of those in [X]. *)
Definition may_put X d (n : string) : Prop := ∀ k, n = build_from k → build_node k ∉ (dd_visited d ∪ dd_inProgress d) ∖ X.

Record goes X d d' : Prop := {
  g_safe : crash_safe local_ok (dd_st d) (dd_st d');
  g_chg : chg (may_put X d) (refs d) (refs d');
  g_vis : dd_visited d ⊆ dd_visited d';
  g_own : ∀ x, x ∈ dd_inProgress d → x ∉ X → x ∈ dd_visited d' → x ∈ dd_visited d }.

(** A call from a state in order: it keeps the order at every moment; when it
    returns, the nodes on the way are those it began with; when it has not
    returned, at least [n] more are. *)
Definition l_run {A} X (n : nat) (m : L A) d (Q : developDriver → A → Prop) : Prop :=
  linv d →
  goes X d (m d).1 ∧ linv (m d).1 ∧
  match (m d).2 with
  | None => (n + size (dd_inProgress d) <= size (dd_inProgress (m d).1))%nat
  | Some r => dd_inProgress (m d).1 = dd_inProgress d ∧ match r with Ok a => Q (m d).1 a | Err _ => True end
  end.

Lemma goes_refl X d : linv d → goes X d d.
Proof. intros [Hok _]. split; [by apply crash_safe_refl|apply chg_refl|done|done]. Qed.

Lemma goes_trans X X' d1 d2 d3 : X ⊆ X' → dd_inProgress d2 = dd_inProgress d1 → goes X d1 d2 → goes X' d2 d3 → goes X' d1 d3.
Proof.
  intros HX Hp [S1 C1 V1 O1] [S2 C2 V2 O2]. split.
  - by eapply crash_safe_trans.
  - eapply chg_trans; [eapply chg_mono; [|exact C1]|eapply chg_mono; [|exact C2]]; unfold may_put; intros n H k Ek; specialize (H k Ek); set_solver.
  - set_solver.
  - intros x Hx HnX H3. apply (O1 x Hx ltac:(set_solver)). apply (O2 x); [by rewrite Hp|done|done].
Qed.

Lemma goes_weak X X' d d' : X ⊆ X' → goes X d d' → goes X' d d'.
Proof. intros HX [S C V O]. split; [done| |done|intros x ? ? ?; apply O; set_solver]. eapply chg_mono; [|exact C]. unfold may_put. intros n H k Ek. specialize (H k Ek). set_solver. Qed.

Lemma l_bind {A B} X X' n (m : L A) (k : A → L B) d Q Q' : X ⊆ X' → l_run X n m d Q →
  (∀ d' a, goes X d d' → dd_inProgress d' = dd_inProgress d → linv d' → Q d' a → l_run X' n (k a) d' Q') → l_run X' n (m ≫= k) d Q'.
Proof.
  intros HX Hm Hk Hi. destruct (Hm Hi) as (Hg & Hi' & Hr). pose proof (goes_weak _ _ _ _ HX Hg) as Hg'. unfold mbind, L_bind.
  destruct (m d) as [d' [[a|e]|]]; cbn in *; [|done|done].
  destruct Hr as [Hp Hq]. destruct (Hk d' a Hg Hp Hi' Hq Hi') as (Hg2 & Hi2 & Hr2). split_and!; [by eapply goes_trans|done|].
  destruct (k a d') as [d'' [r|]]; cbn in *; by rewrite <- Hp.
Qed.

Lemma l_pure {A} X n (r : result string A) d (Q : developDriver → A → Prop) : (∀ a, r = Ok a → Q d a) → l_run X n (λ d, (d, Some r)) d Q.
Proof. intros HQ Hi. split; [by apply goes_refl|]. split; [done|]. cbn. split; [done|]. destruct r; [by apply HQ|done]. Qed.

Lemma l_ret {A} X n (a : A) d (Q : developDriver → A → Prop) : Q d a → l_run X n (mret a) d Q.
Proof. intros HQ. apply (l_pure _ _ (Ok a)). by intros ? [= <-]. Qed.

Lemma l_fail {A} X n e d (Q : developDriver → A → Prop) : l_run X n (l_err e) d Q.
Proof. by apply (l_pure _ _ (Err e)). Qed.

(** Steps that change references only as [C] says. *)
Lemma linv_chg X d st : goes X d (set_dd_st st d) → (∀ x, x ∈ X → x ∉ dd_visited d) → linv d → linv (set_dd_st st d).
Proof.
  intros [S C _ _] HX [Hok Hv]. split; [by apply crash_safe_end in S|]. cbn. intros node Hn. destruct (Hv node Hn) as [(k & -> & Hk)|(k & f & -> & Hf & Ho)].
  - left. exists k. split; [done|]. by eapply chg_some.
  - right. exists k, f. split; [done|]. split; [|by eapply chg_some]. destruct (C (build_from k)) as [E|[H _]]; [cbn in E; by rewrite E|]. destruct (H k eq_refl). specialize (HX (build_node k)). set_solver.
Qed.

(** A store operation that writes no reference. *)
Lemma l_quiet {A} X n (m : SE A) d (Q : developDriver → A → Prop) : (∀ st, extends st (m st).1 []) →
  (∀ d' a, refs d' = refs d → dd_visited d' = dd_visited d → Q d' a) → l_run X n (l_store m) d Q.
Proof.
  intros Hm HQ [Hok Hv]. specialize (Hm (dd_st d)). unfold l_store. destruct (m (dd_st d)) as [st r]. pose proof Hm as (_ & Er & _). cbn in Er, Hm. split; [|split].
  - split; cbn; [exists []; split; [done|by intros []]|rewrite Er; apply chg_refl|done|done].
  - split; cbn; rewrite Er; auto.
  - cbn. split; [done|]. destruct r; [by apply HQ|done].
Qed.

Lemma l_kept {A} X n (m : SE A) d : (∀ st, extends st (m st).1 []) → l_run X n (l_store m) d (λ d' _, refs d' = refs d ∧ dd_visited d' = dd_visited d).
Proof. intros Hm. by apply l_quiet. Qed.

Lemma quiet_obj {A} (f : Objs → result string A) st : extends st (se_obj f st).1 [].
Proof. apply extends_refl. Qed.
Lemma quiet_lift {A} (r : result string A) st : extends st (se_lift r st).1 [].
Proof. apply extends_refl. Qed.
Lemma quiet_ingest {A} (f : Objs → Objs * result string A) st : extends st (se_ingest f st).1 [].
Proof. unfold se_ingest. destruct (f _). apply extends_set_objs. Qed.

Lemma l_get X n name d : l_run X n (l_store (se_get name)) d (λ d' o, d' = d ∧ o = refs d !! name).
Proof.
  unfold l_store, se_get. assert (E : set_dd_st (dd_st d) d = d) by (by destruct d). intros Hi. cbn. rewrite E. split; [by apply goes_refl|]. split; [done|]. split; [done|].
  destruct (GetKey name (dd_st d)) as [o|] eqn:Eg; [|done]. split; [done|]. revert Eg. unfold GetKey. destruct (refs d !! name); [|congruence]. destruct (st_rerr _ _); congruence.
Qed.

Lemma l_exists X n name d : l_run X n (refExists name) d (λ d' b, d' = d ∧ (b = true → is_Some (refs d !! name))).
Proof. eapply l_bind; [reflexivity|apply l_get|]. cbn. intros d' a _ _ _ [-> ->]. apply l_ret. split; [done|]. by intros ?%bool_decide_eq_true. Qed.

Lemma l_put X n name k d : (local_ok (refs d) → local_ok (<[name := k]> (refs d))) → no_bridge name →
  l_run X n (l_store (se_put name k)) d (λ d' _, refs d' = <[name := k]> (refs d)).
Proof.
  intros Hput Hnb Hi. pose proof Hi as [Hok _]. unfold l_store, se_put. destruct (PutRef name k (dd_st d)) as [st r] eqn:E.
  assert (Hg : goes ∅ d (set_dd_st st d)).
  { split; cbn; [eapply crash_safe_put; eauto| |done|done]. apply PutRef_extends in E as (_ & -> & _). destruct r; [|apply chg_refl]. apply chg_put. intros k' ->. by destruct (Hnb k'). }
  split; [eapply goes_weak; [|exact Hg]; set_solver|]. split; [apply (linv_chg ∅); [done|set_solver|done]|]. cbn. split; [done|]. destruct r as [[]|]; [|done]. by apply PutRef_Ok in E as (_ & -> & _).
Qed.

Lemma bad_err what o : bad o → ∃ e, outcomeErr what o = Err e.
Proof. intros (Hd & Hf & _). unfold outcomeErr. rewrite Hd, Hf. destruct (o_Cancelled o); cbn; eauto. Qed.

(** A stage, with the bridges it may write. *)
Lemma l_staged X n what (P : string → Prop) m d (Q : gmap string Key → Outcome → Prop) :
  (∀ s, lwp P m s Q) → (∀ nm k, P nm → nm = build_from k → build_node k ∈ X ∧ build_node k ∉ dd_visited d) →
  l_run X n (l_stage what m) d (λ d' o, Q (refs d') o ∧ dd_visited d' = dd_visited d).
Proof.
  intros Hm HP Hi. pose proof Hi as [Hok Hv]. specialize (Hm (mkRS (dd_st d) []) Hok). cbn [rs_st] in Hm. unfold l_stage. destruct (m _) as [s r]. destruct Hm as (Hs & Hc & Hr). cbn [fst snd] in *.
  assert (Hg : goes (X ∖ dd_visited d) d (set_dd_st (rs_st s) d)).
  { split; cbn; [done| |done|done]. eapply chg_mono; [|exact Hc]. intros nm HPn k Ek. destruct (HP nm k HPn Ek). set_solver. }
  split; [eapply goes_weak; [|exact Hg]; set_solver|]. split; [eapply linv_chg; [exact Hg|set_solver|done]|]. split; [done|].
  destruct r as [o|o]; [|destruct (bad_err what o Hr) as [e ->]; done]. by destruct (outcomeErr what o).
Qed.

Lemma l_staged0 X n what m d (Q : gmap string Key → Outcome → Prop) : (∀ s, lwp no_bridge m s Q) →
  l_run X n (l_stage what m) d (λ d' o, Q (refs d') o ∧ dd_visited d' = dd_visited d).
Proof. intros Hm. eapply l_staged; [done|]. intros nm k HP ->. by destruct (HP k). Qed.

Lemma l_mono {A} X n (m : L A) d (P Q : developDriver → A → Prop) : (∀ d' a, P d' a → Q d' a) → l_run X n m d P → l_run X n m d Q.
Proof. intros HPQ Hm Hi. destruct (Hm Hi) as (Hg & Hi' & Hr). split_and!; [done|apply Hi'..|]. destruct (m d) as [d' [[a|e]|]]; cbn in *; naive_solver. Qed.

Lemma l_some_run {A} X n (o : option A) e d : l_run X n (l_some o e) d (λ d' a, d' = d ∧ o = Some a).
Proof. destruct o; [by apply l_ret|apply l_fail]. Qed.

(** Marking a node that is resolvable. *)
Lemma l_visit X n node d : node ∈ X → resolvable (refs d) node → l_run X n (visit node) d (λ _ _, True).
Proof.
  intros HX Hr Hi. pose proof Hi as [Hok Hv]. cbn. split; [|split; [split; [done|cbn; intros x [->%elem_of_singleton|?]%elem_of_union; auto]|done]].
  split; cbn; [by apply crash_safe_refl|apply chg_refl|set_solver|]. intros x Hx HnX. set_solver.
Qed.

(** A node is entered when it is neither done nor on the way, and left again on
    every return. *)
Lemma l_once n node body d : 
  (∀ d1, dd_inProgress d1 = {[node]} ∪ dd_inProgress d → node ∉ dd_visited d1 → l_run {[node]} n body d1 (λ _ _, True)) →
  l_run ∅ (S n) (once node body) d (λ _ _, True).
Proof.
  intros Hb Hi. unfold once. case_bool_decide as Hv; [split; [by apply goes_refl|]; split; [done|done]|]. case_bool_decide as Hp; [split; [by apply goes_refl|]; split; [done|done]|].
  set (d1 := mkDriver _ _ _). destruct (Hb d1 eq_refl Hv Hi) as ([S C V O] & Hi' & Hr). destruct (body d1) as [d2 r]. cbn [fst snd] in *.
  assert (Hg : ∀ P, goes ∅ d (mkDriver (dd_st d2) (dd_visited d2) P)).
  { intros P. split; cbn; [done| |done|]; [eapply chg_mono; [|exact C]; unfold may_put; cbn; intros nm H k Ek; specialize (H k Ek); set_solver|].
    intros x Hx _ Hx2. apply (O x); cbn; set_solver. }
  destruct r as [r|]; cbn [fst snd].
  - destruct Hr as [Hp2 _]. split; [apply Hg|]. split; [done|]. split; [cbn; rewrite Hp2; cbn; set_solver|by destruct r].
  - split; [destruct d2; apply Hg|]. split; [done|]. cbn in Hr. rewrite size_union, size_singleton in Hr by set_solver. lia.
Qed.
End DriverRules.

(** Steps over calls that write no reference, and over reads. *)
Ltac lq := eapply l_bind; [apply empty_subseteq|apply l_kept; first [apply quiet_obj|apply quiet_lift|apply quiet_ingest]|]; cbn beta.

Section DriverFacts.
Context `{SIO : StageIO} `{BF : !Before} (brc : BuildRunCfg) (n : nat) (ensure : Input → L unit).
Context (Hensure : ∀ i d, l_run ∅ n (ensure i) d (λ _ _, True)).
Implicit Types d : developDriver.

Abbreviation refs d := (st_refs (dd_st d)).

Lemma l_each_run {A} (f : A → L unit) xs : (∀ x d, l_run ∅ n (f x) d (λ _ _, True)) → ∀ d, l_run ∅ n (l_each f xs) d (λ _ _, True).
Proof. intros Hf. induction xs as [|x xs IH]; intros d; cbn [l_each]; [by apply l_ret|]. eapply l_bind; [reflexivity|apply Hf|]. intros. apply IH. Qed.

Lemma pin_deps_run f d : l_run ∅ n (ensurePinDeps ensure f) d (λ _ _, True).
Proof.
  unfold ensurePinDeps. eapply l_bind; [reflexivity|apply l_get|]. cbn beta. intros d1 o _ _ _ [-> ->]. eapply l_bind; [reflexivity|apply l_some_run|]. cbn beta. intros d2 k _ _ _ [-> _].
  lq. intros d3 b _ _ _ _. lq. intros d4 pr _ _ _ _. eapply l_bind; [reflexivity|apply l_each_run; intros; apply Hensure|]. intros d5 _ _ _ _ _. apply l_each_run. intros. apply Hensure.
Qed.

Lemma inputs_run f d : l_run ∅ n (ensureInputs ensure f) d (λ _ _, True).
Proof.
  unfold ensureInputs. eapply l_bind; [reflexivity|apply l_get|]. cbn beta. intros d1 o _ _ _ [-> ->]. eapply l_bind; [reflexivity|apply l_some_run|]. cbn beta. intros d2 k _ _ _ [-> _].
  lq. intros d3 b _ _ _ _. lq. intros d4 pr _ _ _ _. apply l_each_run. intros. apply Hensure.
Qed.

Lemma derive_run f d : l_run ∅ n (local_deriveKP f) d (λ d' kp, refs d' !! PinCoverRef f = Some kp ∧ is_Some (refs d' !! build_pinned kp)).
Proof.
  unfold local_deriveKP. eapply l_bind; [reflexivity|apply l_get|]. cbn beta. intros d1 o _ _ _ [-> ->]. eapply l_bind; [reflexivity|apply l_some_run|]. cbn beta. intros d2 k _ _ _ [-> _].
  do 4 (lq; intros ? ? _ _ _ _). lq. intros d7 kp _ _ _ _.
  eapply l_bind; [reflexivity|apply l_put; [apply ok_plain; split; discriminate|discriminate]|]. cbn beta. intros d8 _ _ _ _ E8.
  assert (Hp : is_Some (refs d8 !! build_pinned kp)) by (rewrite E8, lookup_insert_eq; eauto).
  eapply l_bind; [reflexivity|apply l_put; [by apply ok_cover|discriminate]|]. cbn beta. intros d9 _ _ _ _ E9. apply l_ret. rewrite E9, lookup_insert_eq. split; [done|]. by rewrite lookup_insert_ne by discriminate.
Qed.

Lemma aliases_run f kp d : l_run ∅ n (writeFAliases f kp) d (λ d' _, is_Some (refs d' !! build_output f)).
Proof.
  unfold writeFAliases. eapply l_bind; [reflexivity|apply l_get|]. cbn beta. intros d1 deps _ _ _ [-> ->]. eapply l_bind; [reflexivity|apply l_get|]. cbn beta. intros d2 out _ _ _ [-> ->].
  destruct (refs d !! build_output kp) as [out|]; [|apply l_fail]. destruct (refs d !! build_output_deps kp) as [deps|]; [|apply l_fail].
  eapply l_bind; [reflexivity|apply l_put; [apply ok_plain; split; [intros x E; by apply (output_ne_deps x f)|discriminate]|discriminate]|]. cbn beta. intros d3 _ _ _ _ E3.
  eapply l_mono; [|apply l_put; [apply ok_output; rewrite E3, lookup_insert_eq; eauto|discriminate]]. cbn. intros d4 _ ->. rewrite lookup_insert_eq. eauto.
Qed.

Lemma pin_run f d : l_run ∅ n (drive_pin ensure f) d (λ _ _, True).
Proof.
  unfold drive_pin. eapply l_bind; [reflexivity|apply l_exists|]. cbn beta. intros d1 b _ _ _ [-> _]. destruct b; [by apply l_ret|].
  eapply l_bind; [reflexivity|apply l_exists|]. cbn beta. intros d1 b _ _ _ [-> _]. eapply (l_bind _ _ _ _ _ _ (λ _ _, True)); [reflexivity|destruct b; [by apply l_ret|]|].
  { eapply l_bind; [reflexivity|apply l_staged0; apply local_resolve|]. intros. by apply l_ret. }
  intros d2 _ _ _ _ _. eapply l_bind; [reflexivity|apply pin_deps_run|]. intros d3 _ _ _ _ _. eapply l_bind; [reflexivity|apply l_staged0; apply local_pin|]. intros. by apply l_ret.
Qed.

Lemma output_run f runFinal d : l_run ∅ n (drive_output brc ensure f runFinal) d (λ d' _, runFinal = true → is_Some (refs d' !! build_output f)).
Proof.
  unfold drive_output. eapply l_bind; [reflexivity|apply inputs_run|]. intros d1 _ _ _ _ _. eapply l_bind; [reflexivity|apply derive_run|]. intros d2 kp _ _ _ _. destruct runFinal; cbn; [|by apply l_ret].
  eapply l_bind; [reflexivity|apply l_exists|]. cbn beta. intros d3 b _ _ _ [-> _]. destruct b; [eapply l_mono; [|apply aliases_run]; auto|].
  eapply l_bind; [reflexivity|apply l_staged0; apply local_run|]. intros d4 o _ _ _ _. eapply l_mono; [|apply aliases_run]. auto.
Qed.

Lemma drive_run f runFinal d : l_run ∅ n (driveFStages brc ensure f runFinal) d (λ d' _, runFinal = true → is_Some (refs d' !! build_output f)).
Proof.
  unfold driveFStages. eapply (l_bind _ _ _ _ _ _ (λ d' b, b = true → is_Some (refs d' !! build_output f))); [reflexivity| |].
  - destruct runFinal; [|by apply l_ret]. eapply l_mono; [|apply l_exists]. cbn. by intros d' b [-> H].
  - intros d1 b _ _ _ Hb. destruct b; [apply l_ret; auto|]. eapply l_bind; [reflexivity|apply pin_run|]. intros d2 _ _ _ _ _. apply output_run.
Qed.

Lemma import_run k idef d : l_run ∅ (S n) (ensureImport ensure k idef) d (λ _ _, True).
Proof.
  apply l_once. intros d1 _ _. eapply l_bind; [reflexivity|apply l_exists|]. cbn beta. intros d2 b _ _ _ [-> Hb]. destruct b; [apply l_visit; [set_solver|]; left; exists k; auto|].
  eapply (l_bind ∅ _ _ _ _ _ (λ _ _, True)); [set_solver|case_match; [by apply l_ret|apply Hensure]|]. intros d3 _ _ _ _ _.
  eapply l_bind; [reflexivity|apply l_staged0; apply local_import|]. cbn beta. intros d4 o _ _ _ [[_ Ho] _]. apply l_visit; [set_solver|]. left. by exists k.
Qed.

Lemma resolve_output_run X k d : l_run X n (l_store (se_ResolveBuildOutput k)) d (λ d' o, d' = d ∧ ∀ out, o = Some out → ∃ f, refs d !! build_from k = Some f ∧ is_Some (refs d !! build_output f)).
Proof.
  intros Hi. unfold l_store, se_ResolveBuildOutput, mbind, SE_bind, se_get. assert (E : set_dd_st (dd_st d) d = d) by (by destruct d).
  assert (Hget : ∀ name o, GetKey name (dd_st d) = Ok o → o = refs d !! name) by (intros name o; unfold GetKey; destruct (refs d !! name); [destruct (st_rerr _ _)|]; congruence).
  destruct (GetKey (build_from k) (dd_st d)) as [[f|]|] eqn:E1; cbn; rewrite E; (split; [by apply goes_refl|]; split; [done|]; split; [done|]); [|by split|done].
  destruct (GetKey (build_output f) (dd_st d)) as [o|] eqn:E2; [|done]. split; [done|]. intros out ->. exists f. apply Hget in E1 as <-. apply Hget in E2 as <-. eauto.
Qed.

Lemma build_run k d : l_run ∅ (S n) (ensureBuild brc ensure k) d (λ _ _, True).
Proof.
  apply l_once. intros d1 Hp Hv. assert (Hin : build_node k ∈ dd_inProgress d1) by set_solver. eapply l_bind; [reflexivity|apply resolve_output_run|]. cbn beta. intros d2 o _ _ _ [-> Ho].
  destruct o as [out|]; [apply l_visit; [set_solver|]; right; destruct (Ho out eq_refl) as (f & ? & ?); by exists k, f|].
  lq. intros d3 b _ P3 _ [_ V3]. lq. intros d4 def _ P4 _ [_ V4]. eapply (l_bind ∅); [set_solver|apply Hensure|]. intros d5 _ G5 P5 _ _.
  assert (Hv5 : build_node k ∉ dd_visited d5) by (intros H; apply (g_own _ _ _ G5) in H; [|rewrite P4, P3; done|set_solver]; rewrite V4, V3 in H; done).
  eapply l_bind; [reflexivity|apply (l_staged _ _ _ _ _ _ _ (local_from k)); intros nm k' HP ->; rewrite (HP k' eq_refl); split; [set_solver|done]|]. cbn beta. intros d6 o G6 P6 _ [(f & -> & Hf) _].
  eapply l_bind; [reflexivity|apply l_some_run|]. cbn beta. intros d7 f' _ _ _ [-> [= <-]]. eapply (l_bind ∅); [set_solver|apply drive_run|]. cbn beta. intros d8 u G8 P8 _ Hout.
  apply l_visit; [set_solver|]. right. exists k, f. split; [done|]. split; [|by apply Hout]. destruct (g_chg _ _ _ G8 (build_from k)) as [->|[H _]]; [done|]. destruct (H k eq_refl).
  assert (build_node k ∈ dd_inProgress d6) by (rewrite P6, P5, P4, P3; done). set_solver.
Qed.

Lemma input_run i d : l_run ∅ (S n) (ensure_input brc ensure i) d (λ _ _, True).
Proof.
  unfold ensure_input. lq. intros d1 _ _ _ _ _. lq. intros d2 k _ _ _ _. case_match; [lq; intros d3 idef _ _ _ _; apply import_run|]. case_match; [apply build_run|]. case_match; [by apply l_ret|apply l_fail].
Qed.
End DriverFacts.

(** ** Local builds *)

Section LocalBuilds.
Context `{LIO : LocalIO}.

Lemma ensure_run `{BF : !Before} brc fuel : ∀ i d, l_run ∅ fuel (ensureInput brc fuel i) d (λ _ _, True).
Proof.
  induction fuel as [|fuel IH]; intros i d; [|apply input_run; apply IH]. intros Hi. cbn. split; [by apply goes_refl|]. by split.
Qed.

Lemma se_quiet_bind {A B} (m : SE A) (k : A → SE B) : (∀ st, extends st (m st).1 []) → (∀ a st, extends st (k a st).1 []) → ∀ st, extends st ((m ≫= k) st).1 [].
Proof. intros Hm Hk st. unfold mbind, SE_bind. specialize (Hm st). destruct (m st) as [st1 [a|e]]; [|done]. apply (extends_trans _ _ _ [] [] Hm (Hk a st1)). Qed.

Lemma quiet_from_tree platform cfg k st : extends st (local_from_tree platform cfg k st).1 [].
Proof.
  unfold local_from_tree. apply se_quiet_bind; [apply quiet_obj|]. intros root. apply se_quiet_bind; [apply quiet_obj|]. intros ov. case_match. apply quiet_ingest.
Qed.

Lemma quiet_target cfg st : extends st (target cfg st).1 [].
Proof.
  unfold target. apply se_quiet_bind; [intros; apply extends_refl|]. intros [sk|]; [|intros; apply extends_refl]. apply se_quiet_bind; [|intros; apply extends_refl].
  intros st'. unfold localBuildFrom. apply se_quiet_bind; [apply quiet_ingest|]. intros. apply quiet_from_tree.
Qed.

Lemma linv_new st : linv (BF := st_refs st) (new_driver st).
Proof. split; [apply (local_ok_before (BF := st_refs st))|]. cbn. intros node Hn. by apply elem_of_empty in Hn. Qed.

(** [C32] A local build keeps its store in order at every moment, from any
    store, whatever its recipes, fetchers and sandboxes do, also when it fails
    or has not returned yet: an output has its runtime closure and a binding
    its pinned alias, unless that output or binding was in the store before the
    build, and already without it; nothing is removed; and every node it counts
    as done has its output. When it returns, no node is left on the way; when it
    succeeds, the target's output is there, and its closure too unless the store
    began with the output alone; and a run that nests [fuel] deep without
    returning is inside [fuel] different definitions. *)
Theorem local_build_sound fuel cfg st d' r : BuildFromSource fuel cfg (new_driver st) = (d', r) →
  crash_safe (local_ok (BF := st_refs st)) st (dd_st d') ∧
  (∀ n, is_Some (st_refs st !! n) → is_Some (st_refs (dd_st d') !! n)) ∧
  (∀ node, node ∈ dd_visited d' → resolvable (st_refs (dd_st d')) node) ∧
  match r with
  | None => (fuel <= size (dd_inProgress d'))%nat
  | Some r => dd_inProgress d' = ∅ ∧
      ∀ f, r = Ok f → is_Some (st_refs (dd_st d') !! build_output f) ∧
        (is_Some (st_refs (dd_st d') !! build_output_deps f) ∨ orphan (st_refs st) f)
  end.
Proof.
  intros E. pose (bf := st_refs st : Before). assert (H : l_run ∅ fuel (BuildFromSource fuel cfg) (new_driver st) (λ d f, is_Some (st_refs (dd_st d) !! build_output f))).
  { unfold BuildFromSource. eapply l_bind; [reflexivity|apply l_kept; apply quiet_target|]. intros d1 [brc f] _ _ _ _. eapply l_bind; [reflexivity|apply drive_run; apply ensure_run|]. cbn beta. intros d2 u _ _ _ Hf. apply l_ret. by apply Hf. }
  destruct (H (linv_new st)) as ([S C V O] & [Hok' Hv] & Hr). rewrite E in *. cbn [fst snd new_driver dd_st dd_inProgress] in *. split_and!; [done|intros n; by eapply chg_some|done|].
  destruct r as [r|]; [|rewrite size_empty in Hr; lia]. destruct Hr as [Hp Hr]. split; [done|]. intros f ->. cbn beta iota in Hr. split; [exact Hr|]. apply (proj1 Hok'). exact Hr.
Qed.

(** The same for the preparation of a shell. *)
Theorem develop_sound fuel cfg st d' r : prepareDevelop fuel cfg (new_driver st) = (d', r) →
  crash_safe (local_ok (BF := st_refs st)) st (dd_st d') ∧ ∀ node, node ∈ dd_visited d' → resolvable (st_refs (dd_st d')) node.
Proof.
  intros E. pose (bf := st_refs st : Before). assert (H : l_run ∅ fuel (prepareDevelop fuel cfg) (new_driver st) (λ _ _, True)).
  { unfold prepareDevelop. eapply l_bind; [reflexivity|apply l_kept; apply quiet_target|]. intros d1 [brc f] _ _ _ _. eapply l_bind; [reflexivity|apply drive_run; apply ensure_run|]. intros d2 u _ _ _ _.
    eapply l_bind; [reflexivity|apply derive_run|]. intros d3 kp _ _ _ _ [Hok3 Hv3]. unfold l_spec. pose proof (proj2 (silent_spec brc kp (mkRS (dd_st d3) []))) as Hx. destruct (assembleBuildSpec brc kp _) as [s' q].
    pose proof Hx as (_ & Er & _). cbn in Er, Hx. assert (Hg : goes ∅ d3 (set_dd_st (rs_st s') d3)) by (split; cbn; [exists []; split; [done|by intros []]|rewrite Er; apply chg_refl|done|done]).
    assert (Hl : linv (set_dd_st (rs_st s') d3)) by (apply (linv_chg ∅); [done|set_solver|done]).
    destruct q as [q|o]; cbn [fst snd]; (split; [exact Hg|]; split; [exact Hl|]; split; [reflexivity|]); [exact I|]. by case_match. }
  destruct (H (linv_new st)) as ([S C V O] & [Hok' Hv] & _). rewrite E in *. by split.
Qed.
End LocalBuilds.
