(* ===== verification/Recipe.v ===== *)
(** * Recipes (src/recipe, src/importdef, src/builddef/fetcherbuild.go)

    What surrounds the Starlark interpreter: the values a recipe and its plugins
    exchange, the constructors of inputs, the pinning of imports to the build's
    platform and of fetchers to a plugin's bundle, and the decoding of what
    [plugins()] and [build()] return. The interpreter itself, CBOR and TOML are
    parameters. *)
From S2P Require Import Prelude GoLib Keys Resources Builddef Store Stages Sources.
From Stdlib Require Import Ascii.
Local Open Scope string_scope.
Local Open Scope list_scope.

(** ** Values *)

(** A Go [any] as decoding and encoding know it. A map is its entries, each key
    once; their order means nothing: ranging over a map visits them in an order
    of its own ([range_of]). *)
Inductive gval :=
| GNil | GBool (b : bool) | GStr (s : string) | GBytes (s : string)
| GInt (z : Z) | GInt64 (z : Z) | GUint64 (z : Z) | GFloat (bits : Z)
| GList (l : list gval) | GMap (m : list (string * gval)) | GOther (ty : string).

(** A Starlark value; [SIter] is any other iterable, [SOther] the rest. *)
Inductive sval :=
| SNone | SBool (b : bool) | SStr (s : string) | SBytes (s : string) | SInt (z : Z) | SFloat (bits : Z)
| SInput (i : Input) | SFetcher (name def : string)
| SList (l : list sval) | STuple (l : list sval) | SDict (d : list (sval * sval)) | SStruct (fields : list (string * sval))
| SIter (ty : string) (l : list sval) | SOther (ty : string).

Definition Type_ (v : sval) : string :=
  match v with
  | SNone => "NoneType" | SBool _ => "bool" | SStr _ => "string" | SBytes _ => "bytes" | SInt _ => "int" | SFloat _ => "float"
  | SInput _ => "Input" | SFetcher _ _ => "Fetcher" | SList _ => "list" | STuple _ => "tuple" | SDict _ => "dict" | SStruct _ => "struct"
  | SIter ty _ | SOther ty => ty
  end.

Definition AsString (v : sval) : option string := match v with SStr s => Some s | _ => None end.

(** The value of a key in a map. *)
Fixpoint assoc {A} (k : string) (m : list (string * A)) : option A :=
  match m with [] => None | (k', v) :: m => if String.eqb k k' then Some v else assoc k m end.

(** [m[k] = v]. *)
Definition put {A} (k : string) (v : A) (m : list (string * A)) : list (string * A) := List.filter (λ x : string * A, negb (String.eqb (fst x) k)) m ++ [(k, v)].

Section MapM.
Context {A B : Type} (f : A → result string B).
Fixpoint mapR (l : list A) : result string (list B) :=
  match l with [] => Ok [] | x :: l => match f x with Err e => Err e | Ok y => match mapR l with Err e => Err e | Ok ys => Ok (y :: ys) end end end.
End MapM.

(** Every element with its position. *)
Section MapI.
Context {A B : Type} (f : nat → A → B).
Fixpoint mapi (i : nat) (l : list A) : list B := match l with [] => [] | x :: l => f i x :: mapi (S i) l end.
End MapI.

(** The first error, or all the values. *)
Definition seqR {A} (l : list (result string A)) : result string (list A) := mapR id l.

(** ** Codecs *)

(** CBOR's null, which an empty raw message is encoded as. *)
Definition cbor_null : string := String (Ascii.ascii_of_nat 246) "".
Definition raw (s : string) : string := if String.eqb s "" then cbor_null else s.

(** The canonical encodings of a tree input and of a definition, [null] standing
    for an absent raw part; what a definition embeds is shorter than its encoding. *)
Class DefEncoding `{SL : StoreLib} := {
  enc_TreeKey : Key → result string string;
  enc_Definition : Definition_ → result string string;
  enc_TreeKey_dec k b : enc_TreeKey k = Ok b → b ≠ "" ∧ dec_TreeKey b = Ok k;
  enc_Definition_dec d b : enc_Definition d = Ok b → b ≠ "" ∧
    dec_Definition b = Ok {| d_Source := mkInput (in_Kind (d_Source d)) (raw (in_Definition (d_Source d))); d_Dir := d_Dir d; d_Platform := d_Platform d; d_Params := raw (d_Params d);
                             d_BuildJobs := d_BuildJobs d; d_BuildFile := d_BuildFile d; d_Ctx := d_Ctx d |};
  dec_Definition_shorter b d : dec_Definition b = Ok d → (String.length (in_Definition (d_Source d)) < String.length b)%nat;
}.

Class RecipeLib `{DE : DefEncoding} := {
  CanonicalParams : gval → result string string;
  CanonicalParams_nonempty v b : CanonicalParams v = Ok b → b ≠ "";
  enc_Import : ImportDef → result string string;
  enc_Import_dec d b : enc_Import d = Ok b → b ≠ "" ∧
    dec_Import b = Ok {| i_Fetcher := i_Fetcher d; i_Params := raw (i_Params d); i_RequiredTags := i_RequiredTags d; i_Platform := i_Platform d; i_FetcherDef := i_FetcherDef d |};
  toml_pins : string → result string (list (string * string * string));
  milli_cores : string → option Z;
  range_of {A} : list nat → list (string * A) → list (string * A);
  range_perm {A} p (m : list (string * A)) : range_of p m ≡ₚ m;
}.

(** [milli_cores] reads a decimal number of cores: a thousand times it, rounded
    ([strconv.ParseFloat], [math.Round]). [range_of p m] is the order in which
    the map [m], found at position [p] of a value, is ranged over: any order. *)

(** ** Definitions (src/importdef/definition.go, src/builddef) *)

Fixpoint dedup (seen : gset string) (tags : list string) : list string :=
  match tags with [] => [] | t :: ts => if bool_decide (t ∈ seen) then dedup seen ts else t :: dedup ({[t]} ∪ seen) ts end.
Definition canonTags (tags : list string) : list string := SortStrings (dedup ∅ tags).

Section Defs.
Context `{RL : RecipeLib}.

Definition import_Canonical (d : ImportDef) : result string string :=
  enc_Import {| i_Fetcher := i_Fetcher d; i_Params := i_Params d; i_RequiredTags := canonTags (i_RequiredTags d); i_Platform := i_Platform d; i_FetcherDef := i_FetcherDef d |}.

Definition TreeInput (k : Key) : result string Input :=
  match enc_TreeKey k with Ok body => Ok (mkInput InputKind.Tree body) | Err e => Err ("encode tree ref: " +:+ e) end.

Definition FetcherBuild (url sha256 platform : string) : result string Definition_ :=
  params ← CanonicalParams (GMap [("url", GStr url); ("sha256", GStr sha256); ("strip", GInt 1)]);
  impCanon ← import_Canonical {| i_Fetcher := "tarball+https"; i_Params := params; i_RequiredTags := []; i_Platform := platform; i_FetcherDef := "" |};
  emptyParams ← CanonicalParams GNil;
  Ok {| d_Source := mkInput InputKind.Import impCanon; d_Dir := ""; d_Platform := platform; d_Params := emptyParams; d_BuildJobs := ""; d_BuildFile := ""; d_Ctx := 0 |}.

(** ** A plugin's bundled pins (src/recipe/fetcherpins.go) *)

Record FetcherPin := mkPin { fp_URL : string; fp_SHA256 : string }.

Fixpoint pin_entries (l : list (string * string * string)) (m : gmap string FetcherPin) : result string (gmap string FetcherPin) :=
  match l with
  | [] => Ok m
  | (name, url, sha) :: l =>
      if String.eqb name "" || String.eqb url "" || String.eqb sha "" then Err ("fetcher pin " +:+ name +:+ ": name, url and sha256 are all required")
      else if bool_decide (is_Some (m !! name)) then Err ("duplicate fetcher pin " +:+ name)
      else pin_entries l (<[name := mkPin url sha]> m)
  end.

Definition ParseFetcherPins (b : string) : result string (gmap string FetcherPin) :=
  match toml_pins b with Err e => Err ("parse fetcher pins: " +:+ e) | Ok l => pin_entries l ∅ end.

(** ** Rehydrating what a plugin answers (src/recipe/value.go) *)

Record rehydrator := mkRehydrator { rh_platform : string; rh_pins : option (gmap string FetcherPin); rh_seeds : gset string; rh_enforce : bool }.

Definition asInputSpec (m : list (string * gval)) : option Input :=
  if negb (bool_decide (length m = 2%nat)) then None
  else match assoc "kind" m with
  | Some (GStr kind) =>
      if String.eqb kind InputKind.Import || String.eqb kind InputKind.Build then
        match assoc "definition" m with Some (GBytes def) => Some (mkInput kind def) | _ => None end
      else None
  | _ => None
  end.

Definition set_platform (p : string) (d : ImportDef) : ImportDef :=
  {| i_Fetcher := i_Fetcher d; i_Params := i_Params d; i_RequiredTags := i_RequiredTags d; i_Platform := p; i_FetcherDef := i_FetcherDef d |}.
Definition set_fetcherDef (f : string) (d : ImportDef) : ImportDef :=
  {| i_Fetcher := i_Fetcher d; i_Params := i_Params d; i_RequiredTags := i_RequiredTags d; i_Platform := i_Platform d; i_FetcherDef := f |}.
Definition set_source (i : Input) (d : Definition_) : Definition_ :=
  {| d_Source := i; d_Dir := d_Dir d; d_Platform := d_Platform d; d_Params := d_Params d; d_BuildJobs := d_BuildJobs d; d_BuildFile := d_BuildFile d; d_Ctx := d_Ctx d |}.

(** The platform stamped, the bundled fetcher injected; with whether anything changed. *)
Definition stamp (r : rehydrator) (def : ImportDef) : ImportDef * bool :=
  if negb (String.eqb (rh_platform r) "") && negb (String.eqb (i_Platform def) (rh_platform r)) then (set_platform (rh_platform r) def, true) else (def, false).

Definition inject (r : rehydrator) (def : ImportDef) (changed : bool) : result string (ImportDef * bool) :=
  if rh_enforce r && String.eqb (i_FetcherDef def) "" && negb (bool_decide (i_Fetcher def ∈ rh_seeds r)) then
    match (match rh_pins r with Some pins => pins !! i_Fetcher def | None => None end) with
    | None => Err ("plugin emitted import with fetcher " +:+ i_Fetcher def +:+ ": not in the plugin's bundled pins and not a seed fetcher")
    | Some pin =>
        fb ← FetcherBuild (fp_URL pin) (fp_SHA256 pin) (i_Platform def);
        canon ← enc_Definition fb;
        Ok (set_fetcherDef canon def, true)
    end
  else Ok (def, changed).

Definition rehydrate_import (r : rehydrator) (i : Input) : result string Input :=
  match dec_Import (in_Definition i) with
  | Err e => Err ("rehydrate plugin import: decode: " +:+ e)
  | Ok def =>
      let '(def, changed) := stamp r def in
      x ← inject r def changed;
      let '(def, changed) := (x : ImportDef * bool) in
      if negb changed then Ok i
      else match import_Canonical def with Ok canon => Ok (mkInput (in_Kind i) canon) | Err e => Err ("rehydrate plugin import: encode: " +:+ e) end
  end.

(** Down the chain of sources; [None] when [fuel] definitions are not enough. *)
Fixpoint rehydrate (fuel : nat) (r : rehydrator) (i : Input) : option (result string Input) :=
  match fuel with
  | O => None
  | S fuel =>
      if String.eqb (in_Kind i) InputKind.Build then
        match dec_Definition (in_Definition i) with
        | Err e => Some (Err ("rehydrate plugin build: decode: " +:+ e))
        | Ok bdef =>
            if String.eqb (in_Kind (d_Source bdef)) InputKind.Tree then Some (Ok i)
            else match rehydrate fuel r (d_Source bdef) with
            | None => None
            | Some (Err e) => Some (Err e)
            | Some (Ok src) =>
                if String.eqb (in_Definition src) (in_Definition (d_Source bdef)) then Some (Ok i)
                else Some (match enc_Definition (set_source src bdef) with Ok canon => Ok (mkInput (in_Kind i) canon) | Err e => Err ("rehydrate plugin build: encode: " +:+ e) end)
            end
        end
      else if negb (String.eqb (in_Kind i) InputKind.Import) then Some (Ok i)
      else Some (rehydrate_import r i)
  end.

Definition rehydrateInput (r : rehydrator) (i : Input) : result string Input :=
  default (Err "") (rehydrate (S (String.length (in_Definition i))) r i).

(** [p] is the position of [v] in the value that is converted. *)
Fixpoint convert (r : rehydrator) (p : list nat) (v : gval) : result string sval :=
  match v with
  | GNil => Ok SNone
  | GBool b => Ok (SBool b)
  | GStr s => Ok (SStr s)
  | GBytes s => Ok (SBytes s)
  | GInt z | GInt64 z | GUint64 z => Ok (SInt z)
  | GFloat f => Ok (SFloat f)
  | GList l => match seqR (mapi (λ i e, convert r (i :: p) e) 0 l) with Ok es => Ok (SList es) | Err e => Err e end
  | GMap m =>
      match asInputSpec m with
      | Some i => match rehydrateInput r i with Ok i => Ok (SInput i) | Err e => Err e end
      | None =>
          let entries := mapi (λ i (kv : string * gval), (fst kv, convert r (i :: p) (snd kv))) 0 m in
          match mapR (λ kr : string * result string sval, match snd kr with Ok sv => Ok (SStr (fst kr), sv) | Err e => Err e end) (range_of p entries) with
          | Ok d => Ok (SDict d) | Err e => Err e end
      end
  | GOther ty => Err ("cannot convert " +:+ ty +:+ " to Starlark")
  end.

(** Outside of plugin responses: no pins. *)
Definition toStarlark (v : gval) (importPlatform : string) : result string sval := convert (mkRehydrator importPlatform None ∅ false) [] v.

Definition i64_range (z : Z) : bool := (- 2 ^ 63 <=? z)%Z && (z <? 2 ^ 63)%Z.
Definition u64_range (z : Z) : bool := (0 <=? z)%Z && (z <? 2 ^ 64)%Z.

Fixpoint fromStarlark (v : sval) : result string gval :=
  match v with
  | SNone => Ok GNil
  | SBool b => Ok (GBool b)
  | SStr s => Ok (GStr s)
  | SBytes s => Ok (GBytes s)
  | SInt z => if i64_range z then Ok (GInt64 z) else if u64_range z then Ok (GUint64 z) else Err "integer out of range"
  | SFloat f => Ok (GFloat f)
  | SInput i => Ok (GMap [("kind", GStr (in_Kind i)); ("definition", GBytes (in_Definition i))])
  | SList l | STuple l => match mapR fromStarlark l with Ok es => Ok (GList es) | Err e => Err e end
  | SDict d =>
      match mapR (λ kv : sval * sval, match AsString (fst kv) with
                  | None => Err "dict key is not a string"
                  | Some k => match fromStarlark (snd kv) with Ok g => Ok (k, g) | Err e => Err e end end) d with
      | Ok kvs => Ok (GMap (foldl (λ m (kv : string * gval), put (fst kv) (snd kv) m) [] kvs))
      | Err e => Err e
      end
  | _ => Err ("cannot convert Starlark " +:+ Type_ v +:+ " to Go")
  end.
End Defs.

(** ** Constructors of inputs (src/recipe/input.go, subbuild.go, fetcher.go) *)

Definition validateBuildFile (p : string) : result string unit :=
  if String.eqb p "" then Ok tt
  else if HasPrefix p "/" then Err ("build_file " +:+ p +:+ " must be relative (no leading slash)")
  else for_each (λ seg, if String.eqb seg "" then Err ("build_file " +:+ p +:+ " has an empty segment")
                        else if String.eqb seg "." || String.eqb seg ".." then Err ("build_file " +:+ p +:+ " must not contain " +:+ seg +:+ " segments") else Ok tt) (Split p slash).

Definition validateDescendant (dir : string) : result string unit :=
  if String.eqb dir "" then Err "dir must be non-empty"
  else if HasPrefix dir "/" then Err ("dir " +:+ dir +:+ " must be relative (no leading slash)")
  else for_each (λ seg, if String.eqb seg "" then Err ("dir " +:+ dir +:+ " has an empty segment")
                        else if String.eqb seg "." || String.eqb seg ".." then Err ("dir " +:+ dir +:+ " must not contain " +:+ seg +:+ " segments") else Ok tt) (Split dir slash).

Section Builtins.
Context `{RL : RecipeLib} (platform : string).

(** The elements of an optional list of strings. *)
Definition stringList (l : option (list sval)) : result string (list string) :=
  match l with None => Ok [] | Some l => mapR (λ v, match AsString v with Some s => Ok s | None => Err "element is not a string" end) l end.

Definition check_platform (arg : sval) : result string unit :=
  match arg with
  | SNone => Ok tt
  | SBool b => if b then Ok tt else Err "imp: platform=False (a platform-independent import) is no longer supported"
  | SStr p => if String.eqb p platform then Ok tt else Err ("imp: platform=" +:+ p +:+ " does not match the build's platform " +:+ platform)
  | v => Err ("imp platform: want string or bool, got " +:+ Type_ v)
  end.

(** [imp(fetcher, params, requiredTags, platform)]. *)
Definition makeImp (fetcherV params : sval) (requiredTags : option (list sval)) (platformArg : sval) : result string sval :=
  fd ← match fetcherV with
       | SStr f => Ok (f, "")
       | SFetcher name def => Ok (name, def)
       | v => Err ("imp fetcher: want a string (seed name) or a fetcher(...) value, got " +:+ Type_ v)
       end;
  let '(fetcher, fetcherDef) := (fd : string * string) in
  check_platform platformArg;;
  pv ← fromStarlark params;
  cp ← CanonicalParams pv;
  tags ← stringList requiredTags;
  canon ← import_Canonical {| i_Fetcher := fetcher; i_Params := cp; i_RequiredTags := tags; i_Platform := platform; i_FetcherDef := fetcherDef |};
  Ok (SInput (mkInput InputKind.Import canon)).

Definition encodeParams (params : option sval) : result string string :=
  match params with
  | None | Some SNone => CanonicalParams GNil
  | Some p => pv ← fromStarlark p; CanonicalParams pv
  end.

Definition newBuildInput (source : Input) (dir plat : string) (params : option sval) (buildJobs buildFile : string) : result string sval :=
  if negb (String.eqb buildJobs "") && negb (String.eqb buildFile "") then Err "buildJobs and build_file are mutually exclusive"
  else
    validateBuildFile buildFile;;
    cp ← encodeParams params;
    canon ← enc_Definition {| d_Source := source; d_Dir := dir; d_Platform := plat; d_Params := cp; d_BuildJobs := buildJobs; d_BuildFile := buildFile;
                              d_Ctx := if String.eqb dir "" then 0 else CtxWidened |};
    Ok (SInput (mkInput InputKind.Build canon)).

(** [bld(source, dir, platform, params, buildJobs, build_file)]. *)
Definition makeBld (source : sval) (dir plat : string) (params : option sval) (buildJobs buildFile : string) : result string sval :=
  match source with
  | SInput src => newBuildInput src dir plat params buildJobs buildFile
  | v => Err ("bld: source must be an Input, got " +:+ Type_ v)
  end.

(** [subbuild(dir, platform, params, build_jobs, build_file)]; an absent key is [None]. *)
Definition makeSubbuild (sourceContentKey contextKey : option Key) (dir plat : string) (params : option sval) (buildJobs buildFile : string) : result string sval :=
  let rooted := HasPrefix dir "//" in
  let dir := default dir (CutPrefix dir "//") in
  let key := if rooted then contextKey else sourceContentKey in
  match key with
  | None => Err (if rooted then "subbuild: //-paths need a widened context (this build has none)" else "subbuild: unavailable (no build-root content key in this evaluation)")
  | Some key =>
      match validateDescendant dir with
      | Err e => Err ("subbuild: " +:+ e)
      | Ok _ => match TreeInput key with Err e => Err ("subbuild: " +:+ e) | Ok src => newBuildInput src dir plat params buildJobs buildFile end
      end
  end.

(** [fetcher(name, url, sha256, build)]. *)
Definition makeFetcher (name url sha256 : string) (build : sval) : result string sval :=
  if String.eqb name "" then Err "fetcher: name is required"
  else
    let haveURL := negb (String.eqb url "") || negb (String.eqb sha256 "") in
    let haveBuild := match build with SNone => false | _ => true end in
    if Bool.eqb haveURL haveBuild then Err ("fetcher " +:+ name +:+ ": exactly one of url+sha256 or build= is required")
    else if haveBuild then
      match build with
      | SInput i => if String.eqb (in_Kind i) InputKind.Build then Ok (SFetcher name (in_Definition i)) else Err ("fetcher " +:+ name +:+ ": build= must be a bld(...) Input")
      | _ => Err ("fetcher " +:+ name +:+ ": build= must be a bld(...) Input")
      end
    else if String.eqb url "" || String.eqb sha256 "" then Err ("fetcher " +:+ name +:+ ": url and sha256 are both required")
    else
      def ← FetcherBuild url sha256 platform;
      canon ← enc_Definition def;
      Ok (SFetcher name canon).

(** ** Plugins and resolution deps (src/recipe/plugin.go, deps.go) *)

(** What a plugin answers to its keyword arguments. *)
Record PluginSpec := mkPlugin { ps_Call : list (string * gval) → result string gval; ps_Pins : option (gmap string FetcherPin) }.

Fixpoint call_args (name : string) (kwargs : list (string * sval)) (call : list (string * gval)) : result string (list (string * gval)) :=
  match kwargs with
  | [] => Ok call
  | (k, v) :: kwargs => match fromStarlark v with Err e => Err ("plugin " +:+ name +:+ " arg " +:+ k +:+ ": " +:+ e) | Ok g => call_args name kwargs (put k g call) end
  end.

Definition plugin_call (seeds : gset string) (name : string) (spec : PluginSpec) (args : list sval) (kwargs : list (string * sval)) : result string sval :=
  if bool_decide (args ≠ []) then Err ("plugin " +:+ name +:+ " takes only keyword arguments")
  else
    call ← call_args name kwargs [];
    match ps_Call spec call with
    | Err e => Err ("plugin " +:+ name +:+ ": " +:+ e)
    | Ok resp =>
        match convert (mkRehydrator platform (ps_Pins spec) seeds true) [] resp with
        | Err e => Err ("plugin " +:+ name +:+ ": " +:+ e)
        | Ok v => Ok v
        end
    end.

Definition dep_path (sandboxPath rel : string) : result string string :=
  if String.eqb rel "" then Ok sandboxPath
  else if HasPrefix rel "/" then Err ("dep.path: " +:+ rel +:+ " must be relative")
  else if existsb (λ seg, String.eqb seg "..") (Split rel slash) then Err ("dep.path: " +:+ rel +:+ " must not traverse upward")
  else Ok (sandboxPath +:+ "/" +:+ rel).
End Builtins.

(** ** What a recipe returns (src/recipe/recipe.go) *)

Section Eval.
Context `{RL : RecipeLib}.

(** The interpreter has run the recipe's function: its value, or an error. *)
Record EvalConfig := mkEvalConfig { ec_Platform : string; ec_Widened : bool; ec_Dir : string; ec_SeedFetchers : list string }.

Definition pin_to (platform : string) : rehydrator := mkRehydrator platform None ∅ false.

(** A dict of inputs, each pinned to the platform. *)
Fixpoint pinnedInputDict (d : list (sval * sval)) (platform what : string) (out : gmap string Input) : result string (gmap string Input) :=
  match d with
  | [] => Ok out
  | (k, v) :: d =>
      match AsString k, v with
      | None, _ => Err (what +:+ " key is not a string")
      | Some name, SInput i =>
          match rehydrateInput (pin_to platform) i with
          | Err e => Err (what +:+ "[" +:+ name +:+ "]: " +:+ e)
          | Ok i => pinnedInputDict d platform what (<[name := i]> out)
          end
      | Some name, v => Err (what +:+ "[" +:+ name +:+ "] is not an Input (got " +:+ Type_ v +:+ ")")
      end
  end.

Definition as_dict (what : string) (v : sval) : result string (list (sval * sval)) :=
  match v with SDict d => Ok d | v => Err (what +:+ " must be a dict, got " +:+ Type_ v) end.

Definition EvalPlugins (cfg : EvalConfig) (called : option (result string sval)) : result string (gmap string Input * gmap string Input) :=
  match called with
  | None => Ok (∅, ∅)
  | Some (Err e) => Err e
  | Some (Ok (SDict d)) => ps ← pinnedInputDict d (ec_Platform cfg) "plugins()" ∅; Ok (ps, ∅)
  | Some (Ok (SStruct fs)) =>
      for_each (λ f : string * sval, if String.eqb (fst f) "plugins" || String.eqb (fst f) "deps" then Ok tt
                                     else Err ("plugins() struct field " +:+ fst f +:+ " is not recognized")) fs;;
      ps ← match assoc "plugins" fs with None => Ok ∅ | Some v => d ← as_dict "plugins() struct field plugins" v; pinnedInputDict d (ec_Platform cfg) "plugins()" ∅ end;
      ds ← match assoc "deps" fs with
           | None => Ok ∅
           | Some v =>
               d ← as_dict "plugins() struct field deps" v;
               ds ← pinnedInputDict d (ec_Platform cfg) "plugins() deps" ∅;
               for_each (λ n, match ValidateDepName n with Ok _ => Ok tt | Err e => Err ("plugins() deps: " +:+ e) end) (map_to_list ds).*1;;
               Ok ds
           end;
      Ok (ps, ds)
  | Some (Ok v) => Err ("plugins() must return a mapping or struct(plugins=..., deps=...), got " +:+ Type_ v)
  end.

Definition inputMapValue (v : sval) : result string (list (string * Input)) :=
  match v with
  | SDict d =>
      mapR (λ kv : sval * sval, match AsString (fst kv), snd kv with
        | None, _ => Err "input key is not a string"
        | Some name, i =>
            if String.eqb name "" then Err "input name must be non-empty"
            else match i with SInput i => Ok (name, i) | v => Err ("input " +:+ name +:+ " is not an Input (got " +:+ Type_ v +:+ ")") end
        end) d
  | v => Err ("expected a dict {name: Input}, got " +:+ Type_ v)
  end.

Definition iterate (v : sval) : option (list sval) :=
  match v with SList l | STuple l | SIter _ l => Some l | SDict d => Some (fst <$> d) | _ => None end.

Definition inputListValue (v : sval) : result string (list Input) :=
  match iterate v with
  | None => Err ("expected a list of Inputs, got " +:+ Type_ v)
  | Some l => mapR (λ e, match e with SInput i => Ok i | v => Err ("element is not an Input (got " +:+ Type_ v +:+ ")") end) l
  end.

Definition string_pair (what : string) (kv : sval * sval) : result string (string * string) :=
  match AsString (fst kv), AsString (snd kv) with
  | None, _ => Err (what +:+ " key is not a string")
  | Some k, None => Err (what +:+ " value for " +:+ k +:+ " is not a string")
  | Some k, Some v => Ok (k, v)
  end.

Definition stringMap (v : sval) : result string (gmap string string) :=
  match v with
  | SDict d => kvs ← mapR (string_pair "") d; Ok (foldl (λ m (kv : string * string), <[kv.1 := kv.2]> m) ∅ kvs)
  | v => Err ("expected a dict, got " +:+ Type_ v)
  end.

Definition cacheMapValue (v : sval) : result string (list PinnedCache) :=
  match v with
  | SDict d => kvs ← mapR (string_pair "cache") d; Ok ((λ kv : string * string, mkCache kv.1 kv.2) <$> (kvs : list (string * string)))
  | v => Err ("expected a dict {path: id}, got " +:+ Type_ v)
  end.

Definition ParseCPU (s : string) : result string Z :=
  let s := TrimSpace s in
  if String.eqb s "" then Err "empty cpu"
  else if HasSuffix s "m" then match ParseInt (TrimSuffix s "m") with Some v => Ok v | None => Err ("cpu " +:+ s) end
  else match milli_cores s with Some v => Ok v | None => Err ("cpu " +:+ s) end.

Definition resource_field (what : string) (parse : string → result string Z) (v : option sval) : result string Z :=
  match v with
  | None => Ok 0%Z
  | Some v => match AsString v with Some s => parse s | None => Err ("resources." +:+ what +:+ " must be a string, got " +:+ Type_ v) end
  end.

Definition decodeResources (v : sval) : result string PinnedResources :=
  match v with
  | SStruct fs =>
      cpu ← resource_field "cpu" ParseCPU (assoc "cpu" fs);
      mem ← resource_field "memory" ParseMem (assoc "memory" fs);
      Ok {| pr_CPUMilli := cpu; pr_MemBytes := mem |}
  | v => Err ("resources must be a struct, got " +:+ Type_ v)
  end.

Definition decodeSources (v : sval) : result string (list string) :=
  match v with
  | SList l => mapR (λ e, match AsString e with Some s => Ok s | None => Err ("element is not a string (got " +:+ Type_ e +:+ ")") end) l
  | v => Err ("must be a list of path strings, got " +:+ Type_ v)
  end.

Definition decodeGenerated (v : sval) : result string (list (string * string)) :=
  match v with
  | SDict d =>
      kvs ← mapR (λ kv : sval * sval, match AsString (fst kv) with
        | None => Err "key is not a string"
        | Some p => match snd kv with SStr c | SBytes c => Ok (p, c) | v => Err ("generated[" +:+ p +:+ "] must be a string or bytes, got " +:+ Type_ v) end
        end) d;
      Ok (foldl (λ m (kv : string * string), put kv.1 kv.2 m) [] kvs)
  | v => Err ("must be a dict {path: content}, got " +:+ Type_ v)
  end.

(** An optional field: decoded when it is there. *)
Definition optional {A} (dflt : A) (decode : sval → result string A) (v : option sval) : result string A :=
  match v with None => Ok dflt | Some v => decode v end.

(** The declared paths as they are before normalisation, beside the rest. *)
Record raw_result := mkRawResult {
  rr_Inputs : list (string * Input); rr_Env : gmap string string; rr_Script : string; rr_RuntimeDeps : list Input; rr_Caches : list PinnedCache;
  rr_Resources : option PinnedResources; rr_Name_ : string; rr_Sources : BuildSources }.

Definition required (field : string) (fs : list (string * sval)) : result string sval :=
  match assoc field fs with Some v => Ok v | None => Err ("build() result missing " +:+ field) end.

(** The four parts every result has, and the optional fields of a struct. *)
Definition result_parts (v : sval) : result string (sval * sval * sval * sval * list (string * sval)) :=
  match v with
  | SStruct fs =>
      i ← required "inputs" fs; e ← required "env" fs; s ← required "script" fs; r ← required "runtime_deps" fs;
      Ok (i, e, s, r, fs)
  | STuple [i; e; s; r] => Ok (i, e, s, r, [])
  | STuple _ => Err "build() tuple must have 4 elements"
  | v => Err ("build() must return a struct or 4-tuple, got " +:+ Type_ v)
  end.

Definition as_string (what : string) (v : sval) : result string string :=
  match AsString v with Some s => Ok s | None => Err ("build() " +:+ what +:+ " must be a string, got " +:+ Type_ v) end.

Definition decodeBuildResult (v : sval) : result string raw_result :=
  parts ← result_parts v;
  let '(inputsV, envV, scriptV, rtV, fs) := (parts : sval * sval * sval * sval * list (string * sval)) in
  inputs ← inputMapValue inputsV;
  rtDeps ← inputListValue rtV;
  env ← stringMap envV;
  script ← as_string "script" scriptV;
  caches ← optional [] cacheMapValue (assoc "caches" fs);
  res ← optional None (λ v, r ← decodeResources v; Ok (Some r)) (assoc "resources" fs);
  name ← optional "" (as_string "name") (assoc "name" fs);
  sources ← optional [] decodeSources (assoc "sources" fs);
  closure ← optional [] decodeSources (assoc "closure" fs);
  allowEsc ← optional [] decodeSources (assoc "sources_allow_escaping" fs);
  generated ← optional [] decodeGenerated (assoc "generated" fs);
  Ok (mkRawResult inputs env script rtDeps caches res name (mkBS sources closure allowEsc generated)).

Definition is_nil {A} (l : list A) : bool := match l with [] => true | _ => false end.

(** Which declarations go with which kind of build. *)
Definition check_declared (widened : bool) (b : BuildSources) : result string unit :=
  if negb (is_nil (bs_Closure b)) && negb (is_nil (bs_Sources b)) then Err "build() declares both closure and sources"
  else if negb (is_nil (bs_Sources b)) && negb widened then Err "build() declares sources/generated but this build has no widened context"
  else if (negb (is_nil (bs_Generated b)) || negb (is_nil (bs_AllowEscaping b))) && negb widened && is_nil (bs_Closure b) then
    Err "build() declares generated/sources_allow_escaping but this build has neither a widened context nor a closure"
  else Ok tt.

Definition pin_named (platform : string) (ni : string * Input) : result string (string * Input) :=
  match rehydrateInput (pin_to platform) (snd ni) with Ok i => Ok (fst ni, i) | Err e => Err ("input " +:+ fst ni +:+ ": " +:+ e) end.
Definition pin_dep (platform : string) (d : Input) : result string Input :=
  match rehydrateInput (pin_to platform) d with Ok i => Ok i | Err e => Err ("runtime_dep: " +:+ e) end.

Definition EvalBuild (cfg : EvalConfig) (called : option (result string sval)) : result string eval_result :=
  match called with
  | None => Err "recipe defines no build() function"
  | Some (Err e) => Err e
  | Some (Ok v) =>
      out ← decodeBuildResult v;
      ins ← mapR (pin_named (ec_Platform cfg)) (rr_Inputs out);
      rts ← mapR (pin_dep (ec_Platform cfg)) (rr_RuntimeDeps out);
      check_declared (ec_Widened cfg) (rr_Sources out);;
      paths ← normalizeBuildSources (rr_Sources out) (ec_Dir cfg);
      let '(srcs, clos, allow, gen) := (paths : list string * list string * list string * gmap string string) in
      Ok (mkEval ins (rr_Env out) (rr_Script out) rts (rr_Caches out) (rr_Resources out) (rr_Name_ out) srcs clos gen allow)
  end.
End Eval.
