(* ===== verification/RecipeFacts.v ===== *)
(** * What leaves a recipe

    Every import that leaves an evaluation, however deep in a chain of sources,
    is pinned to the build's platform, and every one a plugin emitted has a
    fetcher somebody provides; pinning again changes nothing; values survive the
    way to a plugin and back. *)
From S2P Require Import Prelude GoLib Keys Resources Builddef Store Stages Trees Cover Paths Sources Recipe.
From Stdlib Require Import Ascii.
Local Open Scope string_scope.
Local Open Scope list_scope.

Lemma mapR_Forall2 {A B} (f : A → result string B) l : ∀ l', mapR f l = Ok l' → Forall2 (λ x y, f x = Ok y) l l'.
Proof.
  induction l as [|x l IH]; intros l'; cbn; [by intros [= <-]|]. destruct (f x) as [y|] eqn:E; [|done]. destruct (mapR f l) as [ys|]; [|done]. intros [= <-]. constructor; auto.
Qed.

Lemma mapR_ok {A B} (f : A → result string B) l l' : Forall2 (λ x y, f x = Ok y) l l' → mapR f l = Ok l'.
Proof. induction 1 as [|x y l l' E _ IH]; cbn; [done|]. by rewrite E, IH. Qed.

Lemma mapi_Forall {A B} (f : nat → A → B) (P : B → Prop) l : Forall (λ x, ∀ i, P (f i x)) l → ∀ i, Forall P (mapi f i l).
Proof. induction 1 as [|x l Hx _ IH]; intros i; cbn; constructor; auto. Qed.

Lemma Forall2_reorder {A B} (R : A → B → Prop) l k k' : Forall2 R l k → k ≡ₚ k' → ∃ l', l ≡ₚ l' ∧ Forall2 R l' k'.
Proof.
  intros H Hp. revert l H. induction Hp as [|y k k' _ IH|y1 y2 k|k1 k2 k3 _ IH1 _ IH2]; intros l H.
  - exists []. by inv H.
  - inv H. destruct (IH l0) as (l' & Hl & Hf); [done|]. exists (x :: l'). split; [by constructor|by constructor].
  - inv H. inv H4. eexists. split; [apply Permutation_swap|]. by repeat constructor.
  - destruct (IH1 l H) as (l1 & Hl1 & H1). destruct (IH2 l1 H1) as (l2 & Hl2 & H2). exists l2. split; [by etransitivity|done].
Qed.

(** ** Chains of sources *)

Section Chains.
Context `{RL : RecipeLib}.

(** The import at the end of an input's chain of sources, if any, satisfies [P]. *)
Inductive chain (P : ImportDef → Prop) : Input → Prop :=
| ch_import i d : in_Kind i = InputKind.Import → dec_Import (in_Definition i) = Ok d → P d → chain P i
| ch_tree i d : in_Kind i = InputKind.Build → dec_Definition (in_Definition i) = Ok d → in_Kind (d_Source d) = InputKind.Tree → chain P i
| ch_build i d : in_Kind i = InputKind.Build → dec_Definition (in_Definition i) = Ok d → in_Kind (d_Source d) ≠ InputKind.Tree → chain P (d_Source d) → chain P i
| ch_other i : in_Kind i ≠ InputKind.Import → in_Kind i ≠ InputKind.Build → chain P i.

Lemma chain_mono (P Q : ImportDef → Prop) i : (∀ d, P d → Q d) → chain P i → chain Q i.
Proof. intros H. induction 1; [eapply ch_import|eapply ch_tree|eapply ch_build|eapply ch_other]; eauto. Qed.

(** Pinned to the platform, and with a fetcher that somebody provides. *)
Definition provided (r : rehydrator) (d : ImportDef) : Prop :=
  (rh_platform r ≠ "" → i_Platform d = rh_platform r) ∧ (rh_enforce r = true → i_FetcherDef d ≠ "" ∨ i_Fetcher d ∈ rh_seeds r).

Lemma kinds_differ : InputKind.Build ≠ InputKind.Import ∧ InputKind.Build ≠ InputKind.Tree ∧ InputKind.Import ≠ InputKind.Tree.
Proof. done. Qed.

(** Enough fuel is as good as any. *)
Lemma rehydrate_fuel r : ∀ f1 f2 i, (String.length (in_Definition i) < f1)%nat → (String.length (in_Definition i) < f2)%nat → rehydrate f1 r i = rehydrate f2 r i.
Proof.
  induction f1 as [|f1 IH]; intros [|f2] i H1 H2; [lia..|]. cbn. destruct (String.eqb (in_Kind i) InputKind.Build); [|done]. destruct (dec_Definition _) as [d|] eqn:E; [|done].
  apply dec_Definition_shorter in E. destruct (String.eqb _ InputKind.Tree); [done|]. by rewrite (IH f2) by lia.
Qed.

Lemma rehydrate_total r : ∀ fuel i, (String.length (in_Definition i) < fuel)%nat → is_Some (rehydrate fuel r i).
Proof.
  induction fuel as [|fuel IH]; intros i H; [lia|]. cbn. destruct (String.eqb (in_Kind i) InputKind.Build); [|destruct (negb _); eauto]. destruct (dec_Definition _) as [d|] eqn:E; [|eauto].
  apply dec_Definition_shorter in E. destruct (String.eqb _ InputKind.Tree); [eauto|]. destruct (IH (d_Source d)) as [[src|] ->]; [lia|destruct (String.eqb _ _); eauto|eauto].
Qed.

(** The function as it is written, without fuel. *)
Lemma rehydrateInput_eq r i : rehydrateInput r i =
  if String.eqb (in_Kind i) InputKind.Build then
    match dec_Definition (in_Definition i) with
    | Err e => Err ("rehydrate plugin build: decode: " +:+ e)
    | Ok bdef =>
        if String.eqb (in_Kind (d_Source bdef)) InputKind.Tree then Ok i
        else match rehydrateInput r (d_Source bdef) with
        | Err e => Err e
        | Ok src =>
            if String.eqb (in_Definition src) (in_Definition (d_Source bdef)) then Ok i
            else match enc_Definition (set_source src bdef) with Ok canon => Ok (mkInput (in_Kind i) canon) | Err e => Err ("rehydrate plugin build: encode: " +:+ e) end
        end
    end
  else if negb (String.eqb (in_Kind i) InputKind.Import) then Ok i
  else rehydrate_import r i.
Proof.
  unfold rehydrateInput at 1. cbn [rehydrate]. destruct (String.eqb (in_Kind i) InputKind.Build); [|by destruct (negb _)]. destruct (dec_Definition _) as [d|] eqn:E; [|done].
  apply dec_Definition_shorter in E. destruct (String.eqb _ InputKind.Tree); [done|]. unfold rehydrateInput. rewrite (rehydrate_fuel r _ (S (String.length (in_Definition (d_Source d)))) (d_Source d)) by lia.
  destruct (rehydrate_total r (S (String.length (in_Definition (d_Source d)))) (d_Source d)) as [[src|] ->]; [lia|cbn; by destruct (String.eqb _ _)|done].
Qed.

Lemma chain_induction (P : Input → Prop) : (∀ i, (∀ d, dec_Definition (in_Definition i) = Ok d → P (d_Source d)) → P i) → ∀ i, P i.
Proof.
  intros H. assert (Hn : ∀ n i, (String.length (in_Definition i) < n)%nat → P i) by (induction n as [|n IH]; intros i Hi; [lia|]; apply H; intros d E; apply dec_Definition_shorter in E; apply IH; lia).
  intros i. apply (Hn (S (String.length (in_Definition i)))). lia.
Qed.

(** What is provided already stays as it is. *)
Lemma provided_fixed r i : chain (provided r) i → rehydrateInput r i = Ok i.
Proof.
  induction 1 as [i d Hk Hd [Hp Hf]|i d Hk Hd Ht|i d Hk Hd Ht _ IH|i H1 H2]; rewrite rehydrateInput_eq.
  - rewrite Hk. change (String.eqb InputKind.Import InputKind.Build) with false. change (String.eqb InputKind.Import InputKind.Import) with true. cbn [negb]. unfold rehydrate_import. rewrite Hd.
    assert (Hs : stamp r d = (d, false)). { unfold stamp. destruct (String.eqb (rh_platform r) "") eqn:E; [done|]. rewrite Hp by (by apply String.eqb_neq). by rewrite String.eqb_refl. }
    rewrite Hs. assert (Hi : inject r d false = Ok (d, false)).
    { unfold inject. destruct (rh_enforce r); [|done]. destruct Hf as [Hf|Hf]; [done|by rewrite (proj2 (String.eqb_neq _ _) Hf)|]. by rewrite (bool_decide_eq_true_2 _ Hf), andb_false_r. }
    by rewrite Hi.
  - rewrite Hk, Hd, Ht. done.
  - rewrite Hk, Hd. change (String.eqb InputKind.Build InputKind.Build) with true. cbn beta iota. rewrite (proj2 (String.eqb_neq _ _) Ht), IH, String.eqb_refl. done.
  - by rewrite (proj2 (String.eqb_neq _ _) H1), (proj2 (String.eqb_neq _ _) H2).
Qed.

Lemma stamp_platform r d d' c : stamp r d = (d', c) → (rh_platform r ≠ "" → i_Platform d' = rh_platform r) ∧ i_FetcherDef d' = i_FetcherDef d ∧ i_Fetcher d' = i_Fetcher d ∧ (c = false → d' = d).
Proof.
  unfold stamp. destruct (String.eqb (rh_platform r) "") eqn:E1; cbn; [apply String.eqb_eq in E1; by intros [= <- <-]|].
  destruct (String.eqb (i_Platform d) (rh_platform r)) eqn:E2; cbn; [apply String.eqb_eq in E2|]; by intros [= <- <-].
Qed.

Lemma inject_fetcher r d c d' c' : inject r d c = Ok (d', c') → (rh_enforce r = true → i_FetcherDef d' ≠ "" ∨ i_Fetcher d' ∈ rh_seeds r) ∧ i_Platform d' = i_Platform d ∧ (c' = false → c = false ∧ d' = d).
Proof.
  unfold inject. destruct (rh_enforce r); cbn [andb]; [|by intros [= <- <-]]. destruct (String.eqb (i_FetcherDef d) "") eqn:E1; cbn [andb]; [|intros [= <- <-]; split_and!; [left; by apply String.eqb_neq|done|done]].
  case_bool_decide as E2; cbn [negb]; [intros [= <- <-]; by split_and!; [right|..]|]. destruct (match rh_pins r with Some pins => pins !! i_Fetcher d | None => None end) as [pin|]; [|done].
  destruct (FetcherBuild _ _ _) as [fb|]; [|done]. cbn. destruct (enc_Definition fb) as [canon|] eqn:E; [|done]. apply enc_Definition_dec in E as [E _]. intros [= <- <-]. by split_and!; [left|..].
Qed.

Lemma import_provided r i o : in_Kind i = InputKind.Import → rehydrate_import r i = Ok o →
  chain (provided r) o ∧ in_Kind o = in_Kind i ∧ (in_Definition o = in_Definition i ∨ in_Definition o ≠ "").
Proof.
  intros Hk. unfold rehydrate_import. destruct (dec_Import _) as [d|] eqn:Ed; [|done]. destruct (stamp r d) as [d1 c1] eqn:Es. apply stamp_platform in Es as (Hp1 & Hf1 & Hn1 & Hs1).
  destruct (inject r d1 c1) as [[d2 c2]|] eqn:Ei; [|done]. apply inject_fetcher in Ei as (Hf2 & Hp2 & Hs2). cbn. rewrite <- Hp2 in Hp1. destruct c2; cbn.
  - unfold import_Canonical. destruct (enc_Import _) as [canon|] eqn:Ee; [|done]. apply enc_Import_dec in Ee as [Hne Ee]. intros [= <-]. split_and!; [|done|by right]. eapply ch_import; [done|exact Ee|]. by split.
  - intros [= <-]. destruct (Hs2 eq_refl) as [-> ->]. rewrite (Hs1 eq_refl) in *. split_and!; [|done|by left]. eapply ch_import; [done|done|]. by split.
Qed.

Lemma rehydrate_provided r : ∀ i o, rehydrateInput r i = Ok o → chain (provided r) o ∧ in_Kind o = in_Kind i ∧ (in_Definition o = in_Definition i ∨ in_Definition o ≠ "").
Proof.
  apply (chain_induction (λ i, ∀ o, rehydrateInput r i = Ok o → _)). intros i IH o. rewrite rehydrateInput_eq. destruct (String.eqb (in_Kind i) InputKind.Build) eqn:Ek; [apply String.eqb_eq in Ek|apply String.eqb_neq in Ek].
  - destruct (dec_Definition (in_Definition i)) as [d|] eqn:Ed; [|done]. destruct (String.eqb (in_Kind (d_Source d)) InputKind.Tree) eqn:Et; [apply String.eqb_eq in Et; intros [= <-]; split_and!; [by eapply ch_tree|done|by left]|]. apply String.eqb_neq in Et.
    destruct (rehydrateInput r (d_Source d)) as [src|] eqn:Er; [|done]. destruct (IH d eq_refl src Er) as (Hc & Hkind & Hdef). destruct (String.eqb (in_Definition src) _) eqn:Es.
    + apply String.eqb_eq in Es. intros [= <-]. split_and!; [|done|by left]. eapply ch_build; [done|done|done|]. replace (d_Source d) with src; [done|]. destruct src, (d_Source d); cbn in *; congruence.
    + apply String.eqb_neq in Es. destruct (enc_Definition _) as [canon|] eqn:Ee; [|done]. apply enc_Definition_dec in Ee as [Hne Ee]. intros [= <-]. split_and!; [|done|by right].
      destruct Hdef as [?|Hn]; [done|]. eapply ch_build; [done|exact Ee|cbn; congruence|]. cbn. unfold raw. rewrite (proj2 (String.eqb_neq _ _) Hn). by destruct src.
  - destruct (String.eqb (in_Kind i) InputKind.Import) eqn:Ei; cbn [negb]; [apply String.eqb_eq in Ei; by apply import_provided|]. apply String.eqb_neq in Ei. intros [= <-]. split_and!; [by apply ch_other|done|by left].
Qed.
End Chains.

(** ** Values *)

Fixpoint gval_induction (P : gval → Prop) (Hnil : P GNil) (Hb : ∀ b, P (GBool b)) (Hs : ∀ s, P (GStr s)) (Hy : ∀ s, P (GBytes s)) (Hi : ∀ z, P (GInt z)) (Hi64 : ∀ z, P (GInt64 z)) (Hu : ∀ z, P (GUint64 z))
  (Hf : ∀ f, P (GFloat f)) (Hl : ∀ l, Forall P l → P (GList l)) (Hm : ∀ m, Forall (λ kv, P (snd kv)) m → P (GMap m)) (Ho : ∀ ty, P (GOther ty)) (v : gval) : P v :=
  let rec := gval_induction P Hnil Hb Hs Hy Hi Hi64 Hu Hf Hl Hm Ho in
  match v with
  | GNil => Hnil | GBool b => Hb b | GStr s => Hs s | GBytes s => Hy s | GInt z => Hi z | GInt64 z => Hi64 z | GUint64 z => Hu z | GFloat f => Hf f
  | GList l => Hl l ((fix go l := match l return Forall P l with [] => Forall_nil_2 P | x :: l => Forall_cons_2 P x l (rec x) (go l) end) l)
  | GMap m => Hm m ((fix go (m : list (string * gval)) := match m return Forall (λ kv, P (snd kv)) m with [] => Forall_nil_2 _ | kv :: m => Forall_cons_2 _ kv m (rec (snd kv)) (go m) end) m)
  | GOther ty => Ho ty
  end.

Section All.
Context {A : Type} (f : A → Prop).
Fixpoint all_of (l : list A) : Prop := match l with [] => True | x :: l => f x ∧ all_of l end.
Lemma all_of_Forall l : all_of l ↔ Forall f l.
Proof. induction l as [|x l IH]; cbn; [by split|]. rewrite Forall_cons, IH. done. Qed.
End All.

(** Every input in a value, at any depth. *)
Fixpoint inputs_all (P : Input → Prop) (v : sval) : Prop :=
  match v with
  | SInput i => P i
  | SList l | STuple l | SIter _ l => all_of (inputs_all P) l
  | SDict d => all_of (λ kv : sval * sval, inputs_all P (fst kv) ∧ inputs_all P (snd kv)) d
  | SStruct fs => all_of (λ kv : string * sval, inputs_all P (snd kv)) fs
  | _ => True
  end.

Fixpoint sval_full (P : sval → Prop) (Hleaf : ∀ v, match v with SList _ | STuple _ | SDict _ | SStruct _ | SIter _ _ => True | _ => P v end)
  (Hl : ∀ l, Forall P l → P (SList l)) (Ht : ∀ l, Forall P l → P (STuple l)) (Hd : ∀ d, Forall (λ kv, P (fst kv) ∧ P (snd kv)) d → P (SDict d))
  (Hst : ∀ fs, Forall (λ kv, P (snd kv)) fs → P (SStruct fs)) (Hit : ∀ ty l, Forall P l → P (SIter ty l)) (v : sval) : P v :=
  let rec := sval_full P Hleaf Hl Ht Hd Hst Hit in
  let list_of := fix go (l : list sval) : Forall P l := match l return Forall P l with [] => Forall_nil_2 P | x :: l => Forall_cons_2 P x l (rec x) (go l) end in
  match v return P v with
  | SList l => Hl l (list_of l)
  | STuple l => Ht l (list_of l)
  | SDict d => Hd d ((fix go (d : list (sval * sval)) := match d return Forall (λ kv, P (fst kv) ∧ P (snd kv)) d with [] => Forall_nil_2 _ | kv :: d => Forall_cons_2 _ kv d (conj (rec (fst kv)) (rec (snd kv))) (go d) end) d)
  | SStruct fs => Hst fs ((fix go (d : list (string * sval)) := match d return Forall (λ kv, P (snd kv)) d with [] => Forall_nil_2 _ | kv :: d => Forall_cons_2 _ kv d (rec (snd kv)) (go d) end) fs)
  | SIter ty l => Hit ty l (list_of l)
  | v => Hleaf v
  end.

Lemma all_mono {A} (f g : A → Prop) l : Forall (λ x, f x → g x) l → all_of f l → all_of g l.
Proof. induction 1; cbn; [done|]. intros []. auto. Qed.

Lemma inputs_mono (P Q : Input → Prop) : (∀ i, P i → Q i) → ∀ v, inputs_all P v → inputs_all Q v.
Proof.
  intros HPQ. apply (sval_full (λ v, inputs_all P v → inputs_all Q v)); cbn [inputs_all].
  - intros v. destruct v; cbn; auto.
  - intros l. apply all_mono.
  - intros l. apply all_mono.
  - intros d H. apply all_mono. eapply Forall_impl; [exact H|]. intros [k v] [H1 H2] [H3 H4]. auto.
  - intros fs. apply all_mono.
  - intros ty l. apply all_mono.
Qed.

Section Values.
Context `{RL : RecipeLib}.

Lemma convert_provided r : ∀ v p sv, convert r p v = Ok sv → inputs_all (chain (provided r)) sv.
Proof.
  apply (gval_induction (λ v, ∀ p sv, convert r p v = Ok sv → inputs_all (chain (provided r)) sv)); try (intros; cbn in *; by simplify_eq).
  - intros l IH p sv. cbn [convert]. destruct (seqR _) as [es|] eqn:E; [|done]. intros [= <-]. cbn. apply all_of_Forall. apply mapR_Forall2 in E.
    assert (Hl : Forall (λ x, ∀ sv, x = Ok sv → inputs_all (chain (provided r)) sv) (mapi (λ i e, convert r (i :: p) e) 0 l)).
    { apply mapi_Forall. eapply Forall_impl; [exact IH|]. intros x Hx i. apply Hx. }
    revert Hl. clear -E. induction E as [|x y xs ys Hx _ IHl]; [constructor|]. intros Hl. inv Hl. constructor; auto.
  - intros m IH p sv. cbn [convert]. destruct (asInputSpec m) as [i|]; [destruct (rehydrateInput r i) as [o|] eqn:E; [|done]; intros [= <-]; cbn; by apply rehydrate_provided in E as [? _]|].
    cbv zeta. set (entries := mapi _ 0 m). destruct (mapR _ (range_of p entries)) as [d|] eqn:E; [|done]. intros [= <-]. cbn. apply all_of_Forall. apply mapR_Forall2 in E.
    assert (Hl : Forall (λ kr : string * result string sval, ∀ sv, snd kr = Ok sv → inputs_all (chain (provided r)) sv) (range_of p entries)).
    { rewrite range_perm. apply mapi_Forall. eapply Forall_impl; [exact IH|]. intros [k x] Hx i. cbn. apply Hx. }
    revert Hl. clear -E. induction E as [|[k x] [k' y] xs ys Hx _ IHl]; [constructor|]. intros Hl. inv Hl. constructor; [|auto].
    cbn in *. destruct x as [sv|]; [|done]. injection Hx as <- <-. cbn. auto.
Qed.

(** ** The way to a plugin and back *)

(** A dict that would be taken for an input. *)
Definition input_shaped (d : list (sval * sval)) : bool :=
  let get k := match List.find (λ kv : sval * sval, match fst kv with SStr s => String.eqb k s | _ => false end) d with Some kv => Some (snd kv) | None => None end in
  bool_decide (length d = 2%nat) && match get "kind" with Some (SStr k) => String.eqb k InputKind.Import || String.eqb k InputKind.Build | _ => false end
    && match get "definition" with Some (SBytes _) => true | _ => false end.

(** Plain data: what JSON has, bytes, and inputs that the conversion [r] leaves
    as they are (they can be read, have the platform it stamps and a fetcher). *)
Fixpoint data (r : rehydrator) (v : sval) : Prop :=
  match v with
  | SNone | SBool _ | SStr _ | SBytes _ | SFloat _ => True
  | SInt z => i64_range z || u64_range z = true
  | SInput i => (in_Kind i = InputKind.Import ∨ in_Kind i = InputKind.Build) ∧ chain (provided r) i
  | SList l => all_of (data r) l
  | SDict d => NoDup (fst <$> d) ∧ input_shaped d = false ∧ all_of (λ kv : sval * sval, is_Some (AsString (fst kv)) ∧ data r (snd kv)) d
  | _ => False
  end.

(** Equal values, the entries of a dict in any order. *)
Inductive same : sval → sval → Prop :=
| same_refl v : same v v
| same_list l l' : Forall2 same l l' → same (SList l) (SList l')
| same_dict d d1 d' : d ≡ₚ d1 → Forall2 (λ a b, fst a = fst b ∧ same (snd a) (snd b)) d1 d' → same (SDict d) (SDict d').

Lemma put_fold (kvs : list (string * gval)) : ∀ acc, NoDup (acc ++ kvs).*1 → foldl (λ m (kv : string * gval), put (fst kv) (snd kv) m) acc kvs = acc ++ kvs.
Proof.
  induction kvs as [|[k g] kvs IH]; intros acc Hn; cbn; [by rewrite app_nil_r|]. assert (Hp : put k g acc = acc ++ [(k, g)]).
  { unfold put. f_equal. rewrite fmap_app in Hn. apply NoDup_app in Hn as (_ & Hn & _). assert (Hk : k ∉ acc.*1) by (intros Hk; apply (Hn k Hk); cbn; left). clear -Hk. induction acc as [|[k' g'] acc IH]; [done|]. cbn in *.
    destruct (String.eqb_spec k' k) as [->|Hne]; [set_solver|]. cbn. f_equal. apply IH. set_solver. }
  rewrite Hp, IH; by rewrite <- (assoc_L (++)).
Qed.

(** A dict and the map it becomes. *)
Definition same_entry (kv : sval * sval) (kg : string * gval) : Prop := fst kv = SStr (fst kg) ∧ fromStarlark (snd kv) = Ok (snd kg).

Lemma assoc_shape k (d : list (sval * sval)) kvs : Forall2 same_entry d kvs →
  match assoc k kvs with
  | Some g => ∃ v, List.find (λ kv : sval * sval, match fst kv with SStr s => String.eqb k s | _ => false end) d = Some (SStr k, v) ∧ fromStarlark v = Ok g
  | None => True end.
Proof.
  induction 1 as [|[kx v] [k' g] d kvs [Hk Hv] _ IH]; [done|]. cbn in *. subst kx. destruct (String.eqb_spec k k') as [->|Hne]; [eauto|]. by destruct (assoc k kvs).
Qed.

Lemma not_shaped d kvs : Forall2 same_entry d kvs → input_shaped d = false → asInputSpec kvs = None.
Proof.
  intros H. pose proof (Forall2_length _ _ _ H) as Hlen. pose proof (assoc_shape "kind" _ _ H) as Hk. pose proof (assoc_shape "definition" _ _ H) as Hd. unfold asInputSpec, input_shaped. cbv beta zeta. rewrite <- Hlen.
  destruct (bool_decide (length d = 2%nat)); [|done]. cbn [negb andb]. destruct (assoc "kind" kvs) as [[]|]; try done. destruct Hk as (v & -> & Hv). cbn [snd].
  assert (v = SStr s) as -> by (destruct v; cbn in Hv; repeat case_match; simplify_eq; done). destruct (_ || _); [|done]. destruct (assoc "definition" kvs) as [[]|]; try done. destruct Hd as (v & -> & Hv'). cbn [snd].
  assert (v = SBytes s0) as -> by (destruct v; cbn in Hv'; repeat case_match; simplify_eq; done). done.
Qed.

(** A value encodes, and decodes at any position to one that is the same. *)
Definition survives (r : rehydrator) (v : sval) : Prop :=
  ∃ g, fromStarlark v = Ok g ∧ ∀ p, ∃ v', convert r p g = Ok v' ∧ same v v'.

Lemma survives_list r l : Forall (survives r) l → survives r (SList l).
Proof.
  intros H. assert (Hall : ∃ gs, mapR fromStarlark l = Ok gs ∧ ∀ p i, ∃ l', seqR (mapi (λ i e, convert r (i :: p) e) i gs) = Ok l' ∧ Forall2 same l l').
  { induction H as [|v l (g & E1 & E2) _ (gs & E3 & E4)]; [exists []; split; [done|]; intros p i; by exists []|]. exists (g :: gs). cbn. rewrite E1, E3. split; [done|].
    intros p i. destruct (E2 (i :: p)) as (v' & Ev & Hv). destruct (E4 p (S i)) as (l' & El & Hl). exists (v' :: l'). unfold seqR in *. cbn. rewrite Ev. cbn. rewrite El. split; [done|by constructor]. }
  destruct Hall as (gs & E1 & E2). exists (GList gs). cbn [fromStarlark convert]. rewrite E1. split; [done|]. intros p. destruct (E2 p 0%nat) as (l' & El & Hl).
  exists (SList l'). rewrite El. split; [done|by apply same_list].
Qed.

(** The entries of a dict, each converted. *)
Lemma entries_survive r p d kvs : Forall2 (λ kv kg, same_entry kv kg ∧ ∀ p, ∃ v', convert r p (snd kg) = Ok v' ∧ same (snd kv) v') d kvs →
  ∀ i, ∃ d', Forall2 (λ (kr : string * result string sval) (e : sval * sval), fst e = SStr (fst kr) ∧ snd kr = Ok (snd e)) (mapi (λ i (kv : string * gval), (fst kv, convert r (i :: p) (snd kv))) i kvs) d' ∧
    Forall2 (λ a b, fst a = fst b ∧ same (snd a) (snd b)) d d'.
Proof.
  induction 1 as [|[k v] [s g] d kvs [[Hk _] Hg] _ IH]; intros i; [exists []; by split|]. cbn in *. destruct (Hg (i :: p)) as (v' & Ev & Hv). destruct (IH (S i)) as (d' & H1 & H2).
  exists ((SStr s, v') :: d'). split; constructor; try done; by cbn.
Qed.

Lemma survives_dict r d kvs : NoDup (fst <$> d) → input_shaped d = false →
  Forall2 (λ kv kg, same_entry kv kg ∧ ∀ p, ∃ v', convert r p (snd kg) = Ok v' ∧ same (snd kv) v') d kvs → survives r (SDict d).
Proof.
  intros Hn Hs Hk. assert (Hsame : Forall2 same_entry d kvs) by (eapply Forall2_impl; [exact Hk|by intros ? ? [? _]]). exists (GMap kvs).
  assert (E1 : mapR (λ kv : sval * sval, match AsString (fst kv) with None => Err "dict key is not a string" | Some k => match fromStarlark (snd kv) with Ok g => Ok (k, g) | Err e => Err e end end) d = Ok kvs).
  { apply mapR_ok. eapply Forall2_impl; [exact Hsame|]. intros [k v] [s g] [H1 H2]. cbn in *. subst k. cbn. by rewrite H2. }
  assert (Hnd : NoDup kvs.*1). { clear -Hn Hsame. induction Hsame as [|[k v] [s g] d kvs [H1 _] Hd IHd]; [constructor|]. cbn in *. subst k. apply NoDup_cons in Hn as [Hn1 Hn2]. apply NoDup_cons. split; [|auto].
    intros Hin. apply Hn1. clear -Hd Hin. induction Hd as [|[k v] [s' g'] d kvs [H1 _] _ IH]; [by apply elem_of_nil in Hin|]. cbn in *. subst k. apply elem_of_cons in Hin as [->|Hin]; [left|right; auto]. }
  cbn [fromStarlark]. rewrite E1, put_fold by done. split; [done|]. intros p. cbn [app convert]. rewrite (not_shaped d kvs) by done. cbv zeta.
  destruct (entries_survive r p d kvs Hk 0) as (d2 & H1 & H2). set (entries := mapi _ 0 kvs) in *.
  apply Forall2_flip in H1. destruct (Forall2_reorder _ d2 entries (range_of p entries) H1) as (d3 & Hp3 & H3); [by rewrite range_perm|].
  destruct (Forall2_reorder _ d d2 d3 H2 Hp3) as (d1 & Hp1 & Hd1).
  exists (SDict d3). split; [|by eapply same_dict]. rewrite (mapR_ok _ _ d3); [done|]. apply Forall2_flip. eapply Forall2_impl; [exact H3|].
  intros [k v] [s [sv|e]] [Hks Hv]; cbn in *; [|done]. injection Hv as ->. by rewrite Hks.
Qed.

(** [C31] Values survive the way into a plugin's request and out of a response:
    plain data - numbers in range, strings, bytes, lists, dicts that do not look
    like an input, and inputs that already have the platform the conversion
    stamps and the fetcher it asks for - encodes, and decodes to the same value
    but for the order of the entries of its dicts, in whatever order the maps
    are ranged over. *)
Theorem value_roundtrip r : ∀ v, data r v → ∃ g, fromStarlark v = Ok g ∧ ∀ p, ∃ v', convert r p g = Ok v' ∧ same v v'.
Proof.
  assert (Hall : ∀ l, Forall (λ v, data r v → survives r v) l → all_of (data r) l → Forall (survives r) l).
  { intros l H Hl%all_of_Forall. rewrite Forall_forall in *. auto. }
  apply (sval_full (λ v, data r v → survives r v)); cbn [data]; try (intros; done).
  - intros v. destruct v as [|b|s|s|z|f|i|n def|l|l|d|fs|ty l|ty]; cbn [data]; try done; try (intros _; eexists; split; [reflexivity|]; intros p; eexists; split; [reflexivity|apply same_refl]).
    + intros Hz. cbn in Hz. unfold survives. cbn [fromStarlark]. destruct (i64_range z); [|cbn in Hz; rewrite Hz]; eexists; (split; [reflexivity|]); intros p; eexists; (split; [reflexivity|apply same_refl]).
    + intros [Hk Hc]. eexists. split; [reflexivity|]. intros p. cbn [convert]. assert (Es : asInputSpec [("kind", GStr (in_Kind i)); ("definition", GBytes (in_Definition i))] = Some i) by (unfold asInputSpec; destruct Hk as [Hk|Hk], i; cbn in *; by subst).
      rewrite Es, provided_fixed by done. eexists. split; [reflexivity|apply same_refl].
  - intros l IH Hl. apply survives_list. by apply Hall.
  - intros d IH (Hn & Hs & Hd).
    assert (H : ∃ kvs, Forall2 (λ kv kg, same_entry kv kg ∧ ∀ p, ∃ v', convert r p (snd kg) = Ok v' ∧ same (snd kv) v') d kvs).
    { clear Hn Hs. induction IH as [|[k v] d [_ Hv] _ IHd]; [by exists []|]. destruct Hd as [[[s Hs] Hdv] Hd]. destruct (Hv Hdv) as (g & E1 & E2). destruct (IHd Hd) as (kvs & Hk). exists ((s, g) :: kvs). constructor; [|done].
      cbn in Hs. destruct k; try done. injection Hs as ->. done. }
    destruct H as (kvs & Hk). by eapply survives_dict.
Qed.
End Values.

(** ** Evaluations *)

Section Evaluations.
Context `{RL : RecipeLib}.

Definition pinned (platform : string) : Input → Prop := chain (λ d, i_Platform d = platform).

Lemma pin_to_pinned platform i o : platform ≠ "" → rehydrateInput (pin_to platform) i = Ok o → pinned platform o.
Proof. intros Hp H. apply rehydrate_provided in H as [H _]. eapply chain_mono; [|exact H]. intros d [Hd _]. by apply Hd. Qed.

(** Pinning what a plugin emitted, or what was pinned, changes nothing. *)
Lemma pin_again platform pins seeds enforce i o : rehydrateInput (mkRehydrator platform pins seeds enforce) i = Ok o → rehydrateInput (pin_to platform) o = Ok o.
Proof. intros H. apply rehydrate_provided in H as [H _]. apply provided_fixed. eapply chain_mono; [|exact H]. intros d [Hd _]. by split. Qed.

Lemma pinned_dict platform what : platform ≠ "" → ∀ d out out', pinnedInputDict d platform what out = Ok out' → (∀ n i, out !! n = Some i → pinned platform i) → ∀ n i, out' !! n = Some i → pinned platform i.
Proof.
  intros Hp. induction d as [|[k v] d IH]; intros out out'; cbn [pinnedInputDict]; [by intros [= <-]|]. destruct (AsString k) as [name|]; [|done]. destruct v; try done.
  destruct (rehydrateInput (pin_to platform) i) as [o|] eqn:E; [|done]. intros H Hout. eapply IH; [exact H|]. intros n j. rewrite lookup_insert_Some. intros [[_ <-]|[_ Hj]]; [by eapply pin_to_pinned|by eapply Hout].
Qed.

Lemma field_pinned platform what field v out : platform ≠ "" →
  match v with None => Ok ∅ | Some v => d ← as_dict field v; pinnedInputDict d platform what ∅ end = Ok out → ∀ n i, out !! n = Some i → pinned platform i.
Proof.
  intros Hp. destruct v as [v|]; [|intros [= <-]; intros n i; by rewrite lookup_empty]. destruct v; try done. cbn. intros H. eapply pinned_dict; [done|exact H|]. intros n i. by rewrite lookup_empty.
Qed.

Lemma plugins_pinned cfg called ps ds : ec_Platform cfg ≠ "" → EvalPlugins cfg called = Ok (ps, ds) → ∀ n i, ps !! n = Some i ∨ ds !! n = Some i → pinned (ec_Platform cfg) i.
Proof.
  intros Hp. assert (He : ∀ n i, (∅ : gmap string Input) !! n = Some i → pinned (ec_Platform cfg) i) by (intros n i; by rewrite lookup_empty). unfold EvalPlugins.
  destruct called as [[v|]|]; [|done|intros [= <- <-] n i [H|H]; by apply He in H]. destruct v as [| | | | | | | | | |d|fs| |]; try done.
  - destruct (pinnedInputDict d (ec_Platform cfg) "plugins()" ∅) as [ps'|] eqn:E; [|done]. cbn. intros [= <- <-] n i [H|H]; [by eapply (pinned_dict _ _ Hp _ _ _ E)|by apply He in H].
  - destruct (for_each _ fs); [|done]. cbn [mbind result_mbind result_bind].
    destruct (match assoc "plugins" fs with None => Ok ∅ | Some v => d ← as_dict "plugins() struct field plugins" v; pinnedInputDict d (ec_Platform cfg) "plugins()" ∅ end) as [ps'|] eqn:E1; [|done]. cbn [mbind result_mbind result_bind].
    pose proof (field_pinned _ "plugins()" "plugins() struct field plugins" (assoc "plugins" fs) ps' Hp E1) as Hps. destruct (assoc "deps" fs) as [dv|] eqn:Edv; cbn [mbind result_mbind result_bind]; [|intros [= <- <-] n i [H|H]; [by eapply Hps|by apply He in H]].
    destruct (as_dict _ dv) as [d|] eqn:Ed; [|done]. cbn [mbind result_mbind result_bind]. destruct (pinnedInputDict d (ec_Platform cfg) "plugins() deps" ∅) as [ds'|] eqn:E2; [|done]. cbn [mbind result_mbind result_bind]. destruct (for_each _ _); [|done]. cbn [mbind result_mbind result_bind].
    intros [= <- <-] n i [H|H]; [by eapply Hps|by eapply (pinned_dict _ _ Hp _ _ _ E2)].
Qed.

(** What an evaluation of [build()] makes of the decoded result. *)
Lemma build_parts cfg called res : EvalBuild cfg called = Ok res → ∃ v out, called = Some (Ok v) ∧ decodeBuildResult v = Ok out ∧
  Forall2 (λ x y, pin_named (ec_Platform cfg) x = Ok y) (rr_Inputs out) (er_Inputs res) ∧ Forall2 (λ x y, pin_dep (ec_Platform cfg) x = Ok y) (rr_RuntimeDeps out) (er_RuntimeDeps res) ∧
  er_Caches res = rr_Caches out ∧ check_declared (ec_Widened cfg) (rr_Sources out) = Ok tt ∧ normalizeBuildSources (rr_Sources out) (ec_Dir cfg) = Ok (er_Sources res, er_Closure res, er_AllowEscaping res, er_Generated res).
Proof.
  unfold EvalBuild. destruct called as [[v|]|]; [|done..]. destruct (decodeBuildResult v) as [out|] eqn:E; [|done]. cbn [mbind result_mbind result_bind].
  destruct (mapR _ (rr_Inputs out)) as [ins|] eqn:E1; [|done]. cbn [mbind result_mbind result_bind]. destruct (mapR _ (rr_RuntimeDeps out)) as [rts|] eqn:E2; [|done]. cbn [mbind result_mbind result_bind].
  destruct (check_declared _ _) as [[]|] eqn:E3; [|done]. cbn [mbind result_mbind result_bind]. destruct (normalizeBuildSources _ _) as [[[[srcs clos] allow] gen]|] eqn:E4; [|done]. cbn [mbind result_mbind result_bind]. intros [= <-].
  exists v, out. split_and!; try done; by apply mapR_Forall2.
Qed.

(** [C30] No import leaves a recipe unpinned: of a build with a platform, every
    input that [plugins()] or [build()] returns has, at the end of its chain of
    sources, an import pinned to that platform or none; and every input anywhere
    in a plugin's answer is pinned and has its fetcher among the seeds or with
    its own definition, so that nothing is emitted nobody can fetch. *)
Theorem recipe_pins cfg : ec_Platform cfg ≠ "" →
  (∀ called ps ds, EvalPlugins cfg called = Ok (ps, ds) → ∀ n i, ps !! n = Some i ∨ ds !! n = Some i → pinned (ec_Platform cfg) i) ∧
  (∀ called res, EvalBuild cfg called = Ok res → Forall (pinned (ec_Platform cfg)) ((er_Inputs res).*2 ++ er_RuntimeDeps res)) ∧
  (∀ seeds name spec args kwargs v, plugin_call (ec_Platform cfg) seeds name spec args kwargs = Ok v →
     inputs_all (chain (λ d, i_Platform d = ec_Platform cfg ∧ (i_FetcherDef d ≠ "" ∨ i_Fetcher d ∈ seeds))) v).
Proof.
  intros Hp. split_and!.
  - intros called ps ds. by apply plugins_pinned.
  - intros called res (v & out & _ & _ & Hi & Hr & _)%build_parts. apply Forall_app. split.
    + clear -Hi Hp. induction Hi as [|[n i] [n' j] l l' E _ IH]; [constructor|]. cbn. constructor; [|done]. unfold pin_named in E. cbn [fst snd] in E. destruct (rehydrateInput _ i) as [o|] eqn:Eo; [|done]. injection E as <- <-. by eapply pin_to_pinned.
    + clear -Hr Hp. induction Hr as [|i j l l' E _ IH]; [constructor|]. constructor; [|done]. unfold pin_dep in E. destruct (rehydrateInput _ i) as [o|] eqn:Eo; [|done]. injection E as <-. by eapply pin_to_pinned.
  - intros seeds name spec args kwargs v. unfold plugin_call. case_bool_decide; [done|]. destruct (call_args _ _ _) as [call|]; [|done]. cbn. destruct (ps_Call spec call) as [resp|]; [|done].
    destruct (convert _ _ resp) as [sv|] eqn:E; [|done]. intros [= <-]. apply convert_provided in E. eapply inputs_mono; [|exact E]. intros i Hc. eapply chain_mono; [|exact Hc]. intros d [H1 H2]. split; [by apply H1|by apply H2].
Qed.

(** A recipe that names its runtime deps among its inputs passes the check
    that they are: pinning changes both alike, so what was the same input stays
    the same input, and validation can only fail for its caches. *)
Theorem runtime_deps_kept cfg v out res : decodeBuildResult v = Ok out → EvalBuild cfg (Some (Ok v)) = Ok res → rr_RuntimeDeps out ⊆ (rr_Inputs out).*2 → (∀ b, is_ok (FileKey b) = true) →
  er_RuntimeDeps res ⊆ (er_Inputs res).*2 ∧ Validate res = ValidateCaches (er_Caches res).
Proof.
  intros Hd He Hsub Hk. apply build_parts in He as (v' & out' & [= <-] & Hd' & Hi & Hr & _). rewrite Hd in Hd'. injection Hd' as <-.
  assert (Hkeep : er_RuntimeDeps res ⊆ (er_Inputs res).*2).
  { intros d (k & Hdk)%list_elem_of_lookup. eapply Forall2_lookup_r in Hdk as (d0 & Hd0 & Ed); [|exact Hr]. apply list_elem_of_lookup_2, Hsub, list_elem_of_fmap in Hd0 as ([n i] & -> & (m & Hm)%list_elem_of_lookup).
    destruct (Forall2_lookup_l _ _ _ _ _ Hi Hm) as ([n' i'] & Hm' & Ei). apply list_elem_of_fmap. exists (n', i'). split; [|by eapply list_elem_of_lookup_2]. clear Hm. unfold pin_dep in Ed. unfold pin_named in Ei. cbn [fst snd] in *.
    destruct (rehydrateInput _ i); [|done]. by simplify_eq. }
  split; [done|]. unfold Validate. assert (Hids : ∀ ins, ∃ ids, input_ids ins = Ok ids ∧ ∀ i k, i ∈ ins → FileKey (in_Definition i) = Ok k → (in_Kind i, k) ∈ ids).
  { induction ins as [|i ins IH]; [exists []; split; [done|]; intros i k H; by apply elem_of_nil in H|]. destruct IH as (ids & E & Hin). cbn [input_ids]. specialize (Hk (in_Definition i)). destruct (FileKey (in_Definition i)) as [k|] eqn:Ek; [|done]. rewrite E. eexists. split; [done|].
    intros j kj [->|Hj]%elem_of_cons Ej; [rewrite Ek in Ej; injection Ej as <-; left|right; by apply Hin]. }
  destruct (Hids (er_Inputs res).*2) as (ids & -> & Hin). rewrite (proj2 (for_each_Ok _ _)); [done|]. apply Forall_forall. intros d Hd1. pose proof (Hk (in_Definition d)) as Hkd. destruct (FileKey (in_Definition d)) as [k|] eqn:Ek; [|done].
  rewrite bool_decide_eq_true_2; [done|]. apply Hin; [by apply Hkeep|done].
Qed.
End Evaluations.

(** ** Sub-builds *)

Lemma joined_Split p : joined (Split p slash) = p.
Proof.
  induction p as [|a p IH]; [done|]. cbn [Split]. destruct (ascii_dec a slash) as [->|Hne].
  - rewrite joined_cons by apply Split_nonempty. by rewrite IH.
  - destruct (Split p slash) as [|x xs] eqn:E; [by destruct (Split_nonempty p slash)|]. rewrite <- IH. destruct xs; [done|]. rewrite (joined_cons (String a x)), (joined_cons x) by done. done.
Qed.

Lemma clean_segs (check : string → result string unit) p : p ≠ "" → (∀ s, check s = Ok tt ↔ s ≠ "" ∧ s ≠ "." ∧ s ≠ "..") →
  (if HasPrefix p "/" then Err "" else for_each check (Split p slash)) = Ok tt ↔ clean_rel p.
Proof.
  intros Hne Hc. split.
  - destruct (HasPrefix p "/"); [done|]. intros H. apply for_each_Ok in H. exists (Split p slash). split; [|by rewrite joined_Split]. split; [apply Split_nonempty|].
    pose proof (Split_elem p slash) as Hs. revert H Hs. induction (Split p slash) as [|x l IH]; [constructor|]. intros H1 H2. inv H1. inv H2. constructor; [|auto]. split; [|done]. by apply Hc.
  - intros (segs & Hok & ->). pose proof Hok as [Hn Hf]. destruct (HasPrefix (joined segs) "/") eqn:E.
    + exfalso. destruct segs as [|s segs]; [done|]. apply Forall_cons in Hf as [[(? & ? & ?) ?] _]. pose proof (joined_not_rooted s segs) as Hr. unfold is_rooted in Hr. rewrite Hr in E; done.
    + rewrite Split_ok by done. apply for_each_Ok. eapply Forall_impl; [exact Hf|]. intros s [(? & ? & ?) _]. by apply Hc.
Qed.

(** A directory is accepted exactly when it is a clean path below the root. *)
Lemma descendant_exact dir : validateDescendant dir = Ok tt ↔ clean_rel dir.
Proof.
  unfold validateDescendant. destruct (String.eqb_spec dir "") as [->|Hne]; [split; [done|]; intros (segs & Hok & E); by apply joined_nonempty in Hok|].
  rewrite <- (clean_segs (λ seg, if String.eqb seg "" then Err ("dir " +:+ dir +:+ " has an empty segment") else if String.eqb seg "." || String.eqb seg ".." then Err ("dir " +:+ dir +:+ " must not contain " +:+ seg +:+ " segments") else Ok tt) dir Hne).
  - by destruct (HasPrefix dir "/").
  - intros s. destruct (String.eqb_spec s ""), (String.eqb_spec s "."), (String.eqb_spec s ".."); cbn; naive_solver.
Qed.

Section Subbuilds.
Context `{RL : RecipeLib}.

(** A sub-build is a directory strictly below: what [subbuild] makes is the
    build of a clean, non-empty path below the build's own root or, written with
    [//], below the context, in the widened mode; no other directory is accepted,
    and a rooted path only where there is a context. *)
Theorem subbuild_below sourceKey contextKey dir plat params buildJobs buildFile i :
  makeSubbuild sourceKey contextKey dir plat params buildJobs buildFile = Ok (SInput i) →
  ∃ def k rel, in_Kind i = InputKind.Build ∧ dec_Definition (in_Definition i) = Ok def ∧ in_Kind (d_Source def) = InputKind.Tree ∧ dec_TreeKey (in_Definition (d_Source def)) = Ok k ∧
    d_Dir def = rel ∧ clean_rel rel ∧ d_Ctx def = CtxWidened ∧
    (dir = "//" +:+ rel ∧ contextKey = Some k ∨ dir = rel ∧ sourceKey = Some k).
Proof.
  unfold makeSubbuild. cbv zeta. set (rel := default dir (CutPrefix dir "//")). destruct (if HasPrefix dir "//" then contextKey else sourceKey) as [k|] eqn:Ek; [|done].
  destruct (validateDescendant rel) as [[]|] eqn:Ev; [|done]. apply descendant_exact in Ev. unfold TreeInput. destruct (enc_TreeKey k) as [body|] eqn:Eb; [|done]. apply enc_TreeKey_dec in Eb as [Hb Hdec].
  unfold newBuildInput. destruct (_ && _); [done|]. destruct (validateBuildFile buildFile) as [[]|]; [|done]. cbn [mbind result_mbind result_bind]. destruct (encodeParams params) as [cp|]; [|done]. cbn [mbind result_mbind result_bind].
  destruct (enc_Definition _) as [canon|] eqn:Ee; [|done]. apply enc_Definition_dec in Ee as [_ Ee]. cbn in Ee. intros [= <-].
  assert (Hrel : rel ≠ "") by (destruct Ev as (segs & Hok & ->); by apply joined_nonempty).
  eexists _, k, rel. split; [done|]. split; [exact Ee|]. cbn. unfold raw. rewrite (proj2 (String.eqb_neq _ _) Hb), (proj2 (String.eqb_neq _ _) Hrel). split_and!; try done.
  subst rel. destruct (HasPrefix dir "//") eqn:Eh.
  - apply HasPrefix_CutPrefix in Eh as [r Er]. rewrite Er. left. split; [by apply CutPrefix_Some in Er|done].
  - right. destruct (CutPrefix dir "//") eqn:Ec; [|done]. assert (HasPrefix dir "//" = true); [|congruence]. by apply HasPrefix_CutPrefix; eexists.
Qed.
End Subbuilds.

(** * Recipes on a concrete codec

    A table of definitions for codec, a plugin whose import gets its bundled
    fetcher, and a recipe with an unpinned import, for the theorems of RecipeFacts. *)
From S2P Require Import Prelude GoLib Keys Resources Builddef Store Stages Trees Cover Paths Sources Recipe.

#[local] Existing Instance string_keys.

#[local] Instance Input_eq_dec : EqDecision Input.
Proof. solve_decision. Defined.
#[local] Instance Definition_eq_dec : EqDecision Definition_.
Proof. solve_decision. Defined.
#[local] Instance ImportDef_eq_dec : EqDecision ImportDef.
Proof. solve_decision. Defined.

Definition demo_import (fetcher platform fetcherDef : string) : ImportDef :=
  {| i_Fetcher := fetcher; i_Params := "p"; i_RequiredTags := []; i_Platform := platform; i_FetcherDef := fetcherDef |}.
Definition import_table : list (string * ImportDef) :=
  [("old", demo_import "go" "" ""); ("new", demo_import "go" "linux" ""); ("tar", demo_import "tarball+https" "linux" ""); ("full", demo_import "go" "linux" "fbdef");
   ("emb", demo_import "go" "linux" "embdef")].
Definition def_table : list (string * Definition_) :=
  [("embdef", {| d_Source := mkInput InputKind.Import "old"; d_Dir := ""; d_Platform := "linux"; d_Params := "p"; d_BuildJobs := ""; d_BuildFile := ""; d_Ctx := 0 |});
   ("fbdef", {| d_Source := mkInput InputKind.Import "tar"; d_Dir := ""; d_Platform := "linux"; d_Params := "p"; d_BuildJobs := ""; d_BuildFile := ""; d_Ctx := 0 |});
   ("subbuild", {| d_Source := mkInput InputKind.Tree "ctx"; d_Dir := "lib"; d_Platform := "linux"; d_Params := "p"; d_BuildJobs := ""; d_BuildFile := ""; d_Ctx := 2 |})].

Definition encode_by {D} `{EqDecision D} (t : list (string * D)) (d : D) : result string string :=
  match List.find (λ e : string * D, bool_decide (snd e = d)) t with Some e => Ok (fst e) | None => Err "no encoding" end.
Definition decode_by {D} (t : list (string * D)) (b : string) : result string D := match assoc b t with Some d => Ok d | None => Err "no decoding" end.

Lemma encode_in {D} `{EqDecision D} (t : list (string * D)) d b : encode_by t d = Ok b → (b, d) ∈ t.
Proof. unfold encode_by. destruct (List.find _ t) as [[b' d']|] eqn:E; [|done]. apply find_some in E as [Hin Hd]. apply bool_decide_eq_true in Hd. cbn in Hd. subst d'. intros [= <-]. by apply list_elem_of_In. Qed.

Lemma decode_in {D} (t : list (string * D)) b d : decode_by t b = Ok d → (b, d) ∈ t.
Proof. unfold decode_by. induction t as [|[k v] t IH]; cbn; [done|]. destruct (String.eqb_spec b k) as [->|]; [intros [= ->]; left|]. intros H. right. by apply IH. Qed.

Definition recipe_store : StoreLib := {|
  Objs := unit; ValidateName := λ _, true; FileKey := λ b, @Ok string (@Key string_keys) b; obj_ReadFile := λ _ k, @Ok string string k; obj_CheckComplete := λ _ _, Ok tt;
  obj_IngestFile := λ o b, (o, @Ok string (@Key string_keys) b); obj_TreeSubdir := λ _ k n, @Ok string (option (@Key string_keys)) (Some k); obj_Derive := λ o _ _ _ _, (o, @Ok string (@Key string_keys) "kp");
  dec_Import := decode_by import_table; dec_Definition := decode_by def_table; dec_PluginResolved := λ _, Err "no"; dec_Pinned := λ _, Err "no"; dec_TreeKey := λ b, @Ok string (@Key string_keys) b |}.
#[local] Existing Instance recipe_store.

Definition recipe_enc : DefEncoding.
Proof.
  refine {| enc_TreeKey := λ k, if String.eqb k "" then Err "no key" else @Ok string string k; enc_Definition := encode_by def_table |}.
  - intros k b. destruct (String.eqb_spec k "") as [->|Hne]; [done|]. intros [= <-]. split; [exact Hne|reflexivity].
  - intros d b H. apply encode_in in H. unfold def_table in H. repeat (apply elem_of_cons in H as [[= -> ->]|H]; [split; [done|reflexivity]|]). by apply elem_of_nil in H.
  - intros b d H. apply decode_in in H. unfold def_table in H. repeat (apply elem_of_cons in H as [[= -> ->]|H]; [cbn; lia|]). by apply elem_of_nil in H.
Defined.
#[local] Existing Instance recipe_enc.

Definition recipe_lib : RecipeLib.
Proof.
  refine {| CanonicalParams := λ _, Ok "p"; enc_Import := encode_by import_table; toml_pins := λ _, Ok []; milli_cores := λ _, None; range_of := λ _ _ m, rev m; range_perm := λ _ _ m, symmetry (Permutation_rev m) |}.
  - intros v b [= <-]. done.
  - intros d b H. apply encode_in in H. unfold import_table in H. repeat (apply elem_of_cons in H as [[= -> ->]|H]; [split; [done|reflexivity]|]). by apply elem_of_nil in H.
Defined.
#[local] Existing Instance recipe_lib.

Definition linux_cfg : EvalConfig := mkEvalConfig "linux" true "app" ["tarball+https"].

(** A plugin emits the unpinned import; its bundle has the fetcher. *)
Definition emitting : PluginSpec :=
  mkPlugin (λ _, Ok (GList [GMap [("kind", GStr InputKind.Import); ("definition", GBytes "old")]])) (Some {[ "go" := mkPin "https://x" "ff" ]}).

Definition old_input : sval := SInput (mkInput InputKind.Import "old").
Definition demo_return : sval := STuple [SDict [(SStr "lib", old_input)]; SDict []; SStr "make"; SList [old_input]].

Example emitted : plugin_call "linux" {["tarball+https"]} "p" emitting [] [] = Ok (SList [SInput (mkInput InputKind.Import "full")]).
Proof. reflexivity. Qed.

Lemma recipe_pins_witness : ∃ v res, plugin_call "linux" {["tarball+https"]} "p" emitting [] [] = Ok v ∧ inputs_all (chain (λ d, i_Platform d = "linux" ∧ (i_FetcherDef d ≠ "" ∨ i_Fetcher d ∈ ({["tarball+https"]} : gset string)))) v ∧
  EvalBuild linux_cfg (Some (Ok demo_return)) = Ok res ∧ er_RuntimeDeps res = [mkInput InputKind.Import "new"] ∧ Forall (pinned "linux") ((er_Inputs res).*2 ++ er_RuntimeDeps res).
Proof.
  destruct (recipe_pins linux_cfg ltac:(discriminate)) as (_ & Hb & Hp). eexists _, _. split; [exact emitted|]. split; [apply (Hp _ _ _ _ _ _ emitted)|].
  assert (E : EvalBuild linux_cfg (Some (Ok demo_return)) = Ok (mkEval [("lib", mkInput InputKind.Import "new")] ∅ "make" [mkInput InputKind.Import "new"] [] None "" [] [] ∅ [])) by reflexivity.
  split; [exact E|]. split; [reflexivity|]. apply (Hb _ _ E).
Defined.

Lemma value_roundtrip_witness : ∃ g, fromStarlark (SDict [(SStr "n", SInt 5); (SStr "in", old_input)]) = Ok g ∧
  ∃ v', toStarlark g "" = Ok v' ∧ same (SDict [(SStr "n", SInt 5); (SStr "in", old_input)]) v'.
Proof.
  destruct (value_roundtrip (mkRehydrator "" None ∅ false) (SDict [(SStr "n", SInt 5); (SStr "in", old_input)])) as (g & E & H).
  - split; [|split; [reflexivity|]].
    + cbn. apply NoDup_cons. split; [|apply NoDup_singleton]. intros H. apply list_elem_of_singleton in H. discriminate H.
    + cbn. split_and!; [by eexists|reflexivity|by eexists|by left| |exact I]. eapply ch_import; [reflexivity|reflexivity|]. split; [intros H; by destruct H|intros H; discriminate H].
  - exists g. split; [exact E|]. exact (H []).
Defined.

Lemma runtime_deps_kept_witness : ∃ res, EvalBuild linux_cfg (Some (Ok demo_return)) = Ok res ∧ Validate res = Ok tt.
Proof.
  eexists. split; [reflexivity|]. refine (proj2 (runtime_deps_kept linux_cfg demo_return _ _ eq_refl eq_refl _ (λ _, eq_refl))). cbn. set_solver.
Defined.

Lemma subbuild_below_witness : ∃ i def, makeSubbuild (Some ("own" : @Key string_keys)) (Some ("ctx" : @Key string_keys)) "//lib" "linux" None "" "" = Ok (SInput i) ∧ dec_Definition (in_Definition i) = Ok def ∧ clean_rel (d_Dir def).
Proof.
  assert (E : makeSubbuild (Some ("own" : @Key string_keys)) (Some ("ctx" : @Key string_keys)) "//lib" "linux" None "" "" = Ok (SInput (mkInput InputKind.Build "subbuild"))) by reflexivity.
  destruct (subbuild_below _ _ _ _ _ _ _ _ E) as (def & k & rel & _ & Hd & _ & _ & Hdir & Hc & _). exists (mkInput InputKind.Build "subbuild"), def. split; [exact E|]. split; [exact Hd|]. rewrite Hdir. exact Hc.
Defined.

(** The definition of its fetcher that an emitted import brings along is taken
    as it is: the import in it keeps no platform and a fetcher nobody provides. *)
Example embedded_unpinned : rehydrateInput (mkRehydrator "linux" None {["tarball+https"]} true) (mkInput InputKind.Import "emb") = Ok (mkInput InputKind.Import "emb") ∧
  ∃ d fd si, dec_Import "emb" = Ok d ∧ dec_Definition (i_FetcherDef d) = Ok fd ∧ dec_Import (in_Definition (d_Source fd)) = Ok si ∧ i_Platform si = "" ∧ i_FetcherDef si = "" ∧ i_Fetcher si = "go".
Proof. split; [reflexivity|]. eexists _, _, _. repeat split. Qed.
