(* ===== verification/RemoteBuild.v ===== *)
(** * Building on a server (src/clientcli/remote.go, local.go)

    [jobs-client remote-build]: the definition of a pushed source tree, whose
    identity F is the one a local build computes, and the pull of the finished
    build. *)
From S2P Require Import Prelude GoLib Keys Wire LogBuf Frames Sync SyncFacts AmberServer Client ClientFacts Builddef Store Commit Stages RunnerFacts Image Recipe LocalBuild LocalFacts.
From Stdlib Require Import Ascii.
Local Open Scope string_scope.
Local Open Scope list_scope.

Section Definitions.
Context `{RL : RecipeLib}.

(** Repeated [--param key=value] flags, later ones winning, in canonical form. *)
Fixpoint param_map (kvs : list string) (m : list (string * gval)) : result string (list (string * gval)) :=
  match kvs with
  | [] => Ok m
  | kv :: kvs => match Cut kv "="%char with Some (k, v) => param_map kvs (put k (GStr v) m) | None => Err ("bad --param " +:+ kv +:+ " (want key=value)") end
  end.

Definition parseParams (kvs : list string) : result string string :=
  m ← param_map kvs [];
  match CanonicalParams (GMap m) with Ok params => Ok params | Err e => Err ("encode params: " +:+ e) end.

Definition treeDefinition (sourceKey : Key) (dir buildFile platform params : string) : result string (string * Key) :=
  src ← TreeInput sourceKey;
  let ctxv := if String.eqb dir "" then 0%Z else CtxWidened in
  let def := {| d_Source := src; d_Dir := dir; d_Platform := platform; d_Params := params; d_BuildJobs := ""; d_BuildFile := buildFile; d_Ctx := ctxv |} in
  match enc_Definition def with
  | Err e => Err ("canonicalize definition: " +:+ e)
  | Ok canon => match FileKey canon with Ok k => Ok (canon, k) | Err e => Err ("definition key: " +:+ e) end
  end.
End Definitions.

Section Identity.
Context `{SIO : StageIO} `{DE : !DefEncoding} `{RL : !RecipeLib} {RW : RefWriter}.

Lemma R_bind_ok {A B} (m : R A) (k : A → R B) s s' a : m s = (s', Ok a) → (m ≫= k) s = k a s'.
Proof. intros E. unfold mbind, R_bind. by rewrite E. Qed.

Lemma R_bind_err {A B} (m : R A) (k : A → R B) s s' o : m s = (s', Err o) → (m ≫= k) s = (s', Err o).
Proof. intros E. unfold mbind, R_bind. by rewrite E. Qed.

Lemma ask_eq {A} (g : Objs → result string A) f s : objs_ask g f s = (s, match g (st_objs (rs_st s)) with Ok a => Ok a | Err e => Err (f e) end).
Proof. done. Qed.

Lemma via_get name f s k : GetKey name (rs_st s) = Ok k → r_get name f s = (s, Ok k).
Proof. intros E. unfold r_get. by rewrite E. Qed.

Lemma readable name st : st_rerr st name = false → GetKey name st = Ok (st_refs st !! name).
Proof. intros E. unfold GetKey. rewrite E. by destruct (st_refs st !! name). Qed.

Lemma params_nonempty kvs b : parseParams kvs = Ok b → b ≠ "".
Proof. unfold parseParams. destruct (param_map kvs []) as [m|]; [|done]. cbn. destruct (CanonicalParams _) as [p|] eqn:E; [|done]. intros [= <-]. by eapply CanonicalParams_nonempty. Qed.

(** What a build-from stage does with the source of a tree definition. *)
Lemma tree_source_tree body k s : is_ok (FileKey body) = true → dec_TreeKey body = Ok k → is_ok (obj_Ls (st_objs (rs_st s)) k) = true → st_rerr (rs_st s) (build_from_tree k) = false →
  resolveSourceContentTree (mkInput InputKind.Tree body) s = (s, Ok k).
Proof.
  intros Hf Hd Hl Hr. unfold resolveSourceContentTree. cbn [in_Definition in_Kind]. unfold mbind at 1, R_bind, orElse at 1. destruct (FileKey body) as [srcK|]; [|done].
  change (String.eqb InputKind.Tree InputKind.Import) with false. change (String.eqb InputKind.Tree InputKind.Build) with false. change (String.eqb InputKind.Tree InputKind.Tree) with true.
  unfold mbind, R_bind, orElse, ensureBuildFromTree. rewrite Hd. unfold mbind, R_bind. rewrite (via_get _ _ _ _ (readable _ _ Hr)). cbn. unfold objs_ask. by destruct (obj_Ls _ k).
Qed.

(** [C33] The identity of a build does not depend on where it runs: on a store
    that holds the pushed source and the definition the client made for it,
    the server's build-from stage computes exactly the F a local build of the
    ingested source with the same flags computes, with the same objects, fails exactly when that
    fails, and otherwise differs only by publishing the bridge from K to F. *)
Theorem remote_identity platform cfg kvs sourceKey canon k st props :
  parseParams kvs = Ok (dc_Params cfg) →
  treeDefinition sourceKey (dc_Dir cfg) (dc_BuildFile cfg) platform (dc_Params cfg) = Ok (canon, k) →
  obj_ReadFile (st_objs st) k = Ok canon → is_ok (obj_Ls (st_objs st) sourceKey) = true →
  st_rerr st ("build:" +:+ key_String k) = false → st_rerr st (build_from_tree sourceKey) = false → (∀ b, is_ok (FileKey b) = true) →
  let '(st', r) := local_from_tree platform cfg sourceKey st in
  match r with
  | Ok f => RunBuildFrom k (mkRS st props) = (publish "pushing" (WriteRefs [mkRRef (build_from k) f ""; mkRRef (build_from_tree f) f ""]);; mret (succeeded f)) (mkRS st' props)
  | Err _ => ∃ o, bad o ∧ RunBuildFrom k (mkRS st props) = (mkRS st' props, Err o)
  end.
Proof.
  intros Hparams Ht Hread Hls Hr1 Hr2 Hf. unfold treeDefinition, TreeInput in Ht. destruct (enc_TreeKey sourceKey) as [body|] eqn:Eb; [|done]. cbn in Ht. destruct (enc_Definition _) as [canon'|] eqn:Ed; [|done].
  destruct (FileKey canon') as [k'|]; [|done]. injection Ht as -> ->. apply enc_TreeKey_dec in Eb as [Hb Eb]. apply enc_Definition_dec in Ed as [_ Ed]. cbn in Ed. unfold raw in Ed. rewrite (proj2 (String.eqb_neq _ _) Hb), (proj2 (String.eqb_neq _ _) (params_nonempty _ _ Hparams)) in Ed.
  set (s := mkRS st props). assert (Hv : ValidateCtx (if String.eqb (dc_Dir cfg) "" then 0%Z else CtxWidened) = Ok tt) by (by destruct (String.eqb (dc_Dir cfg) "")).
  unfold RunBuildFrom. rewrite (R_bind_ok _ _ s s tt) by (unfold ensureBuildDef; by rewrite (R_bind_ok _ _ s s _ (via_get _ _ s _ (readable _ _ Hr1)))).
  rewrite (R_bind_ok _ _ s s canon) by (unfold pullFileBytes; rewrite ask_eq; cbn [s rs_st]; by rewrite Hread). erewrite (R_bind_ok _ _ s s) by (unfold orElse; rewrite Ed; reflexivity). cbn [d_Ctx d_Source d_Dir d_BuildFile d_BuildJobs d_Params d_Platform].
  rewrite (R_bind_ok _ _ s s tt) by (unfold orElse; by rewrite Hv). rewrite (R_bind_ok _ _ s s sourceKey) by (by apply tree_source_tree).
  unfold local_from_tree. unfold mbind at 1, SE_bind, se_obj at 1. destruct (resolveSubtreeKey (st_objs st) sourceKey (dc_Dir cfg)) as [root|e] eqn:E1; [|eexists; split; [|apply R_bind_err; rewrite ask_eq; cbn [s rs_st]; rewrite E1; reflexivity]; apply bad_hard].
  rewrite (R_bind_ok _ _ s s root) by (rewrite ask_eq; cbn [s rs_st]; by rewrite E1).
  unfold mbind at 1, SE_bind, se_obj at 1. destruct (resolveRecipeOverride (st_objs st) root (dc_BuildFile cfg) "") as [ov|e] eqn:E2; [|eexists; split; [|apply R_bind_err; rewrite ask_eq; cbn [s rs_st]; rewrite E2; reflexivity]; apply bad_hard].
  rewrite (R_bind_ok _ _ s s ov) by (rewrite ask_eq; cbn [s rs_st]; by rewrite E2).
  unfold se_ingest. destruct (String.eqb (dc_Dir cfg) "");
    (change ((0 =? CtxWidened)%Z) with false || change ((CtxWidened =? CtxWidened)%Z) with true); cbn [negb];
    (destruct (obj_FromTree (st_objs st) _ _ _ _ _) as [o [f|e]] eqn:E3; [erewrite R_bind_ok by (unfold objs_do; cbn [s rs_st]; rewrite E3; reflexivity); reflexivity|
      eexists; split; [|apply R_bind_err; unfold objs_do; cbn [s rs_st]; rewrite E3; reflexivity]; apply bad_retryable]).
Qed.
End Identity.

(** ** The finished build comes home *)

Section Pull.
Context `{SL : StoreLib} `{PS : !PackStore} {RC : RefCodec}.

(** The reference K to F, then the output, then the runtime closure, which an
    old server may not have. The three environments are those of the pulls. *)
Definition pullHome (e1 e2 e3 : op_env) (k : Key) (w : world) : option (world * result client_err (Key * Key)) :=
  match PullWithProgress e1 (build_from k) w with
  | None => None
  | Some (w, Err e) => Some (w, Err e)
  | Some (w, Ok f) =>
      match PullWithProgress e2 (build_output f) w with
      | None => None
      | Some (w, Err e) => Some (w, Err e)
      | Some (w, Ok out) =>
          match PullWithProgress e3 (build_output_deps f) w with
          | None => None
          | Some (w, Ok _) => Some (w, Ok (f, out))
          | Some (w, Err CE_RefNotFound) => Some (w, Ok (f, out))
          | Some (w, Err e) => Some (w, Err e)
          end
      end
  end.

Abbreviation wrefs w := (lo_refs (w_lo w)).

(** Only names in [N] were written, each with a tree that is complete. *)
Definition came (N : string → Prop) (w w' : world) : Prop :=
  grown (lo_objs (w_lo w)) (lo_objs (w_lo w')) ∧
  ∀ n, wrefs w' !! n = wrefs w !! n ∨ N n ∧ ∃ root, wrefs w' !! n = Some root ∧ complete (po_Get (lo_objs (w_lo w'))) ChildKeys root.

Lemma came_trans N w1 w2 w3 : came N w1 w2 → came N w2 w3 → came N w1 w3.
Proof.
  intros [G1 H1] [G2 H2]. split; [by eapply grown_trans|]. intros n. destruct (H2 n) as [->|?]; [|by right]. destruct (H1 n) as [?|(HN & root & E & Hc)]; [by left|]. right. split; [done|]. exists root. split; [done|]. by eapply complete_grown.
Qed.

Lemma came_mono (N N' : string → Prop) w w' : (∀ n, N n → N' n) → came N w w' → came N' w w'.
Proof. intros HN [G H]. split; [done|]. intros n. destruct (H n) as [?|[??]]; auto. Qed.

Lemma pull_came e name w w' r : PullWithProgress e name w = Some (w', r) →
  came (eq name) w w' ∧ match r with Ok root => wrefs w' !! name = Some root ∧ complete (po_Get (lo_objs (w_lo w'))) ChildKeys root | Err _ => wrefs w' = wrefs w end.
Proof.
  intros [G H]%pull_spec. destruct r as [root|e']; [|split; [split; [done|rewrite H; by left]|done]]. destruct H as (Hc & E & _). rewrite E, lookup_insert_eq. split; [|done]. split; [done|]. rewrite E. intros n.
  destruct (decide (name = n)) as [<-|]; [right; rewrite lookup_insert_eq; eauto|left; by rewrite lookup_insert_ne].
Qed.

(** What a remote build leaves at home: whether the pull of a finished
    build succeeds or fails midway, it writes no reference but the bridge, the
    output and the closure, and each it writes names a tree that is complete in
    the local store; when it succeeds, the local references lead from the
    submitted definition to F and from F to its output. *)
Theorem pull_home_complete e1 e2 e3 k w w' r : pullHome e1 e2 e3 k w = Some (w', r) →
  came (λ n, n = build_from k ∨ ∃ f, n = build_output f ∨ n = build_output_deps f) w w' ∧
  ∀ f out, r = Ok (f, out) → wrefs w' !! build_from k = Some f ∧ wrefs w' !! build_output f = Some out ∧ complete (po_Get (lo_objs (w_lo w'))) ChildKeys out.
Proof.
  unfold pullHome. set (N := λ n, n = build_from k ∨ ∃ f, n = build_output f ∨ n = build_output_deps f).
  destruct (PullWithProgress e1 _ w) as [[w1 r1]|] eqn:E1; [|done]. apply pull_came in E1 as [C1 H1]. apply (came_mono _ N) in C1; [|intros ? <-; by left]. destruct r1 as [f|e]; [|by intros [= <- <-]].
  destruct (PullWithProgress e2 _ w1) as [[w2 r2]|] eqn:E2; [|done]. apply pull_came in E2 as [C2 H2].
  assert (B2 : wrefs w2 !! build_from k = Some f) by (destruct C2 as [_ C2]; destruct (C2 (build_from k)) as [->|[? _]]; [apply H1|done]).
  apply (came_mono _ N) in C2; [|intros ? <-; right; eauto]. pose proof (came_trans _ _ _ _ C1 C2) as C12. destruct r2 as [out|e]; [|by intros [= <- <-]]. destruct H2 as [O2 K2].
  destruct (PullWithProgress e3 _ w2) as [[w3 r3]|] eqn:E3; [|done]. apply pull_came in E3 as [C3 H3].
  assert (B3 : wrefs w3 !! build_from k = Some f) by (destruct C3 as [_ C3]; destruct (C3 (build_from k)) as [->|[? _]]; done).
  assert (O3 : wrefs w3 !! build_output f = Some out) by (destruct C3 as [_ C3]; destruct (C3 (build_output f)) as [->|[? _]]; done).
  assert (K3 : complete (po_Get (lo_objs (w_lo w3))) ChildKeys out) by (eapply complete_grown; [apply C3|done]).
  apply (came_mono _ N) in C3; [|intros ? <-; right; eauto]. pose proof (came_trans _ _ _ _ C12 C3) as C123.
  intros E. assert (w3 = w') as -> by (destruct r3 as [?|[]]; by injection E). split; [done|]. intros f' out' ->. assert ((f, out) = (f', out')) as [= <- <-] by (destruct r3 as [?|[]]; congruence). done.
Qed.

(** A pull that stops after the output leaves it without its closure, though
    the closure is what the store's own publishers write first. *)
Theorem pull_home_orphans e1 e2 e3 k w w1 f w2 out w3 e :
  PullWithProgress e1 (build_from k) w = Some (w1, Ok f) → PullWithProgress e2 (build_output f) w1 = Some (w2, Ok out) →
  PullWithProgress e3 (build_output_deps f) w2 = Some (w3, Err e) → e ≠ CE_RefNotFound → wrefs w !! build_output_deps f = None →
  pullHome e1 e2 e3 k w = Some (w3, Err e) ∧ wrefs w3 !! build_output f = Some out ∧ wrefs w3 !! build_output_deps f = None.
Proof.
  intros E1 E2 E3 He Hn. unfold pullHome. rewrite E1, E2, E3. split; [by destruct e|]. apply pull_came in E1 as [[_ C1] _]. apply pull_came in E2 as [[_ C2] [O2 _]]. apply pull_came in E3 as [_ ->].
  split; [done|]. destruct (C2 (build_output_deps f)) as [->|[? _]]; [|by discriminate]. destruct (C1 (build_output_deps f)) as [->|[? _]]; [done|by discriminate].
Qed.
End Pull.

(** ** A build whose output came without its closure *)

Section Orphan.
Context `{LIO : LocalIO} `{OL : !OciLib}.

(** A local build joins on the output alone: with the output of F present it
    returns at once, nothing built and nothing written. *)
Lemma output_joins brc ensure f out d : GetKey (build_output f) (dd_st d) = Ok (Some out) → driveFStages brc ensure f true d = (d, Some (Ok tt)).
Proof.
  intros E. unfold driveFStages, refExists, l_store, se_get, mbind, L_bind. rewrite E. cbn. by destruct d.
Qed.

Lemma h_run {A} I (m : R A) : silent m → hoare I (λ _, True) (se_run m) (λ _ _, True).
Proof.
  intros Hm st st' r _ HI. unfold se_run. pose proof (proj2 (Hm (mkRS st []))) as Hx. destruct (m _) as [s q]. intros [= <- <-]. split; [|done]. exists []. split; [done|]. by intros [].
Qed.

Definition orphaned (f : Key) (m : gmap string Key) : Prop := m !! build_from f = None ∧ m !! build_output_deps f = None.

Lemma no_bridge_deps f : hoare (orphaned f) (λ _, True) (se_run (ResolveBuildOutputDeps f (retryable "resolving"))) (λ o _, o = None).
Proof.
  intros st st' r _ HI. unfold se_run, ResolveBuildOutputDeps, via_F. rewrite (R_bind_ok _ _ _ (mkRS st []) None) by (unfold r_get, GetKey; cbn; by rewrite (proj1 HI)).
  intros [= <- <-]. split; [by apply crash_safe_refl|]. by intros o [= <-].
Qed.

(** Such an output can be neither run nor made an image, whatever is done locally. *)
Theorem orphan_not_runnable f platform shellRef needShell st : orphaned f (st_refs st) → ∀ art, (resolveByKeyArtifact f platform shellRef needShell st).2 ≠ Ok art.
Proof.
  intros Ho art Er. assert (H : hoare (orphaned f) (λ _, True) (resolveByKeyArtifact f platform shellRef needShell) (λ _ _, False)).
  - unfold resolveByKeyArtifact. eapply (h_bind _ _ _ _ (λ _ _, True)); [|intros sk].
    { destruct needShell; [|by apply h_ret]. eapply (h_bind _ _ _ _ (λ _ _, True)); [by apply h_get|]. intros o. eapply (h_bind _ _ _ _ (λ _ _, True)); [destruct o; [by apply h_ret|apply h_err]|]. intros. by apply h_ret. }
    eapply (h_bind _ _ _ _ (λ _ _, True)); [apply h_run, silent_artifact|intros o]. eapply (h_bind _ _ _ _ (λ _ _, True)); [destruct o; [by apply h_ret|apply h_err]|intros bok].
    eapply (h_bind _ _ _ _ (λ _ _, True)); [by apply h_obj|intros b]. eapply (h_bind _ _ _ _ (λ _ _, True)); [by apply h_lift|intros ep].
    eapply h_bind; [apply no_bridge_deps|intros dk]. eapply (h_bind _ _ _ _ (λ o _, o = None)).
    { destruct dk as [dk|]; [intros ? ? ? [=]|]. apply h_get. intros m [_ Hm] _. exact Hm. }
    intros dk1. eapply (h_bind _ _ _ _ (λ _ _, False)); [destruct dk1; [intros ? ? ? [=]|apply h_err]|]. intros dk' ? ? ? [].
  - destruct (resolveByKeyArtifact f platform shellRef needShell st) as [st' r] eqn:E. cbn in Er. subst r. destruct (H _ _ _ I Ho E) as [_ Hf]. by apply (Hf art).
Qed.
End Orphan.

(** * A local build on a concrete store

    A target with one import, from an empty store with a shell, for the
    theorems of LocalFacts and RemoteBuild. *)
From S2P Require Import Prelude GoLib Keys Wire LogBuf Frames Sync SyncFacts AmberServer AmberServerFacts AmberStreams Client ClientFacts ClientServer Builddef Store Commit Stages RunnerFacts Recipe LocalBuild LocalFacts.

#[local] Existing Instance string_keys.

(** The recipe: one import "i", also a runtime dependency. *)
Definition local_eval : eval_result := mkEval [("lib", mkInput InputKind.Import "i")] ∅ "make" [mkInput InputKind.Import "i"] [] None "demo" [] [] ∅ [].
Definition local_env : eval_env := mkEnv "linux" "" "recipe" "" "src" None.
Definition local_pinned : Pinned := make_pinned local_env local_eval ["ki"] [] [].

(** The definition of the target pushed as a tree. *)
Definition local_def : Definition_ :=
  {| d_Source := mkInput InputKind.Tree "src"; d_Dir := ""; d_Platform := "linux"; d_Params := "p"; d_BuildJobs := ""; d_BuildFile := ""; d_Ctx := 0 |}.

Definition local_lib : StoreLib := {|
  Objs := unit;
  ValidateName := λ n, negb (String.eqb n "");
  FileKey := λ b, @Ok string (@Key string_keys) b;
  obj_ReadFile := λ _ k, @Ok string string k;
  obj_CheckComplete := λ _ _, Ok tt;
  obj_IngestFile := λ o b, (o, @Ok string (@Key string_keys) b);
  obj_TreeSubdir := λ _ k n, @Ok string (option (@Key string_keys)) (Some k);
  obj_Derive := λ o _ _ _ _, (o, @Ok string (@Key string_keys) "kp");
  dec_Import := λ _, Ok {| i_Fetcher := "tar"; i_Params := ""; i_RequiredTags := []; i_Platform := ""; i_FetcherDef := "" |};
  dec_Definition := λ b, if String.eqb b "longdef" then Ok local_def else Err "no definition";
  dec_PluginResolved := λ _, Ok (Build_PluginResolved ∅ ∅);
  dec_Pinned := λ _, Ok local_pinned;
  dec_TreeKey := λ b, @Ok string (@Key string_keys) b |}.

Definition local_io : @StageIO string_keys local_lib.
Proof.
  refine {| obj_Ls := λ _ k, Ok [("c", Some k); ("env", Some k)]; obj_StoreTree := λ o (ks : list (@Key string_keys)), (o, @Ok string (@Key string_keys) ("tree:" +:+ Join (ks : list string) ","));
    obj_FromTree := λ o k _ _ _ _, (o, @Ok string (@Key string_keys) ("F" +:+ k)); obj_TreeFile := λ _ k name, Ok "std";
    enc_PluginResolved := λ _, Ok "pr"; enc_Pinned := λ _, Ok "pinned"; io_Platform := "linux";
    io_env := λ _ _, Ok (mkEnvFiles "" true (Some "") (Some "linux") None (Some "std")); io_EvalPlugins := λ _, Ok (∅, ∅); io_extract := λ _ _ _, Ok "/tmp/d"; io_ParsePins := λ _, Ok tt;
    io_range := map_to_list; io_pick := 0; io_skipped := λ _ _, false; io_EvalBuild := λ _ _, Ok local_eval; io_WalkClosure := λ _ _ _ ps _, Ok ps; io_Walk := λ _ _ _ ps _, Ok ps;
    io_seed := λ _ _ _, Ok "/tmp/c"; io_RunBuild := λ _, Ok (mkExec 0 "" "/out"); io_finalCache := λ o _, (o, Ok None);
    io_finalOutput := λ o _, (o, @Ok (string * string) (@Key string_keys) "out"); io_fetcherArtifact := λ _ _, Ok "/f"; io_fetcher := λ _ _, Ok (Some "/fetch"); io_workdir := Ok "/w";
    io_params := λ _, Ok "{}"; io_secrets := λ _, Ok tt; io_fetch := λ _ _ _ _, Ok (mkExec 0 "" "/w"); io_ingestOutput := λ o _, (o, @Ok string (@Key string_keys) "fetched"); io_dying := false |}.
  reflexivity.
Defined.

#[local] Existing Instance local_lib.
#[local] Existing Instance local_io.

Definition local_disk : LocalIO := {| io_IngestSourceDir := λ o _, (o, @Ok string (@Key string_keys) "src") |}.
#[local] Existing Instance local_disk.

Definition local_store : Store := mkStore tt {[ "shell:linux" := "sh" ]} [] (λ _, false) (λ _, false).
Definition local_cfg : DevelopConfig := mkDevelop "/work" "" "" "linux" "p" "".

Definition local_result : developDriver * option (result string Key) := BuildFromSource 2 local_cfg (new_driver local_store).

Example local_result_ok : snd local_result = Some (Ok "Fsrc") ∧ bool_decide (is_Some (st_refs (dd_st (fst local_result)) !! build_output "Fsrc")) = true ∧
  bool_decide (import_node "i" ∈ dd_visited (fst local_result)) = true.
Proof. vm_compute. auto. Qed.

Lemma local_build_sound_witness : is_Some (st_refs (dd_st (fst local_result)) !! build_output_deps "Fsrc") ∧ dd_inProgress (fst local_result) = ∅ ∧
  resolvable (st_refs (dd_st (fst local_result))) (import_node "i").
Proof.
  assert (E : BuildFromSource 2 local_cfg (new_driver local_store) = (fst local_result, Some (Ok "Fsrc"))).
  { change (local_result = (fst local_result, Some (Ok "Fsrc"))). rewrite <- (proj1 local_result_ok). by destruct local_result. }
  destruct (local_build_sound 2 local_cfg local_store _ _ E) as (_ & _ & Hv & Hp & Hf). split.
  { destruct (Hf "Fsrc" eq_refl) as [_ [Hd|[[k Hk] _]]]; [exact Hd|]. cbn in Hk. apply lookup_singleton_Some in Hk as [Hk _]. discriminate Hk. }
  split; [exact Hp|].
  apply Hv. apply (bool_decide_eq_true_1 _ (proj2 (proj2 local_result_ok))).
Defined.

Definition is_local_def (d : Definition_) : bool :=
  String.eqb (in_Kind (d_Source d)) InputKind.Tree && String.eqb (in_Definition (d_Source d)) "src" && String.eqb (d_Dir d) "" && String.eqb (d_Platform d) "linux" &&
  String.eqb (d_Params d) "p" && String.eqb (d_BuildJobs d) "" && String.eqb (d_BuildFile d) "" && (d_Ctx d =? 0)%Z.

Lemma is_local_def_eq d : is_local_def d = true → d = local_def.
Proof.
  unfold is_local_def. intros H. repeat (apply andb_true_iff in H as [H ?]). repeat match goal with Hx : String.eqb _ _ = true |- _ => apply String.eqb_eq in Hx end.
  destruct d as [[] ]. cbn in *. match goal with Hx : (_ =? _)%Z = true |- _ => apply Z.eqb_eq in Hx end. by subst.
Qed.

Definition local_enc : DefEncoding.
Proof.
  refine {| enc_TreeKey := λ k, if String.eqb k "" then Err "no key" else @Ok string string k; enc_Definition := λ d, if is_local_def d then Ok "longdef" else Err "no encoding" |}.
  - intros k b. destruct (String.eqb_spec k "") as [->|Hne]; [done|]. intros [= <-]. split; [exact Hne|reflexivity].
  - intros d b. destruct (is_local_def d) eqn:E; [|done]. intros [= <-]. apply is_local_def_eq in E as ->. split; [done|reflexivity].
  - intros b d. cbn. destruct (String.eqb_spec b "longdef") as [->|]; [|done]. intros [= <-]. cbn. lia.
Defined.

#[local] Existing Instance local_enc.

Definition local_recipes : RecipeLib.
Proof.
  refine {| CanonicalParams := λ _, Ok "p"; enc_Import := λ _, Err "no encoding"; toml_pins := λ _, Ok []; milli_cores := λ _, None; range_of := λ _ _ m, m; range_perm := λ _ _ _, reflexivity _ |}.
  - intros v b [= <-]. done.
  - done.
Defined.
#[local] Existing Instance local_recipes.
#[local] Existing Instance LocalRefWriter.

Definition local_F : Store * result string (@Key string_keys) := local_from_tree "linux" local_cfg ("src" : @Key string_keys) local_store.

Lemma remote_identity_witness : ∃ s, RunBuildFrom "longdef" (mkRS local_store []) = (s, Ok (succeeded "Fsrc")) ∧ snd local_F = Ok "Fsrc".
Proof.
  pose proof (remote_identity "linux" local_cfg [] "src" "longdef" "longdef" local_store [] eq_refl eq_refl eq_refl eq_refl eq_refl eq_refl (λ _, eq_refl)) as H.
  change (local_from_tree _ _ _ _) with (local_store, @Ok string (@Key string_keys) "Fsrc") in H. eexists. split; [rewrite H; reflexivity|reflexivity].
Defined.

(** A pull of a finished build, and one that loses the server after the output. *)
Definition dead_pull : attempt := mkAttempt (Some "closed") None None [] (λ _, []) [] (λ _, AttNoStream) false 0 (chain_peer 1).
Definition one_pull : op_env := mkOp (mkPlan 0 direct [] 0 false) good_pull false good_pull.
Definition dead_op : op_env := mkOp (mkPlan 0 direct [] 0 false) dead_pull false dead_pull.

#[local] Existing Instance chain_store.
#[local] Existing Instance bits_refs.

Definition home : option (world * result client_err (string * string)) := pullHome two_tries one_pull one_pull "k" (idle 3 empty_local).
Definition home_world : world := match home with Some (w, _) => w | None => idle 3 empty_local end.

Lemma home_ok : home = Some (home_world, Ok ("ab", "ab")).
Proof.
  assert (H : match home with Some (_, Ok (f, o)) => String.eqb f "ab" && String.eqb o "ab" | _ => false end = true) by (vm_compute; reflexivity). unfold home_world.
  destruct home as [[w [[f o]|e]]|]; [|discriminate..]. apply andb_true_iff in H as [->%String.eqb_eq ->%String.eqb_eq]. done.
Qed.

Lemma pull_home_complete_witness : lo_refs (w_lo home_world) !! build_output "ab" = Some "ab" ∧ complete (po_Get (lo_objs (w_lo home_world))) ChildKeys "ab".
Proof. destruct (pull_home_complete two_tries one_pull one_pull "k" (idle 3 empty_local) home_world (Ok ("ab", "ab")) home_ok) as [_ H]. apply (H "ab" "ab" eq_refl). Defined.

Lemma home_orphan : match pullHome two_tries one_pull dead_op "k" (idle 3 empty_local) with
  | Some (w, Err _) => bool_decide (is_Some (lo_refs (w_lo w) !! build_output "ab")) && negb (bool_decide (is_Some (lo_refs (w_lo w) !! build_output_deps "ab")))
  | _ => false end = true.
Proof. vm_compute. reflexivity. Qed.
